(* ===== verification/_CoqProject ===== *)
-Q . S2P
Prelude.v
Env.v
ArithLex.v
ArithEval.v
ArithText.v
ArithProps.v
ArithTerm.v
ArithSpec.v
IndexedArray.v
Jobs.v
JobsProps.v
Utf8.v
Buf.v
Pattern.v
PatternLang.v
PatternOps.v
PatternParse.v
Split.v
Quote.v
QuoteProps.v
Expand.v
Internal.v
InternalProps.v
InternalTerm.v
TestEnv.v
Brace.v
BraceProps.v
Pipeline.v
PipelineProps.v
EditBuffer.v
EditProps.v
History.v
HistoryProps.v
HistExpand.v
HistExpandProps.v
Options.v
Vars.v
VarsProps.v
Nameref.v
Umask.v
BuiltinArgs.v
TestCmd.v
TestCmdProps.v
Getopts.v
Scan.v
ScanProps.v
Param.v
ParamProps.v
Transform.v
Dollar.v
Words.v
WordsArith.v
WordsProps.v
Entry.v
Glob.v
GlobProps.v
AssignText.v
AssignTextProps.v
Assign.v
AssignApply.v
AssignStore.v
LexScan.v
Lex.v
LexProps.v
LexTokens.v
LexRound.v
Ast.v
ParseText.v
Parse.v
ParseHoare.v
ParseProps.v
ParseGrammar.v
ParseRules.v
ParseGrammarThm.v
Pretty.v
PrettyRound.v
ExecState.v
Redirect.v
RedirectProps.v
Exec.v
