(* ===== verification/Prelude.v ===== *)
(** * CherubSH: a verification library

    CherubSH is a Bash-compatible shell in Rust.  Text is read by the command
    lexer and parser (crates/lexer, crates/parser), the words of a command are
    expanded (crates/expander), the executor runs the command (crates/exec)
    or a builtin (crates/builtins), and the shell state (crates/shell) keeps
    variables, arrays, jobs, history and options.  This library models the
    way of a script from its bytes to the words a command receives: the lexer,
    the parser with its here-documents, the printer of commands, and the
    expansion of words; then the running of the command: redirections, control
    flow, functions and traps; and the variable store with its scopes and
    arrays, the job table, the history list with history expansion, the editing
    buffer of the line editor, and the builtins [test], [getopts] and [umask].

    ** Parts and files

    - [Prelude]: bytes, byte literals, ASCII classes, [str::trim], 64-bit wrap
      around, decimal text, the result type [Res] of fallible fuelled code, and
      their lemmas (hint database [cherub]).
    - [Env]: the interface between the evaluator and the variable store: the
      class [Environment] has the methods of trait [Environment]
      (crates/common/src/lib.rs) that arith.rs calls; [NamerefFinal] and
      [ScalarStore] state what a store promises; [MapEnv] is the hash-map store
      of the unit tests of arith.rs and satisfies both.
    - Lexer, crates/lexer/src/lib.rs.  [LexScan]: the scanners of quotes,
      dollars, balanced pairs and command substitutions, with the
      here-documents inside.  [Lex]: operators, words and numbers, blanks and
      comments, [next_token].  [LexProps]: the scanners advance and end.
      [LexTokens]: how the tokens take the text apart.  [LexRound]: command
      lines of quoted words.
    - Parser, crates/parser/src/lib.rs.  [Ast]: commands, redirections and
      conditions, with the source's constructors.  [ParseText]: the functions
      on texts (arithmetic clauses, delimiters, logical lines of a
      here-document).  [Parse]: the parser as a monad of state ([PState]) and
      error, one definition per method, up to [parse_text], which lexes and
      parses.  [ParseHoare], [ParseProps]: a weakest
      precondition for the monad, and the progress of every method.
      [ParseGrammar]: the grammar of commands as an inductive relation between
      tokens and trees.  [ParseRules], [ParseGrammarThm]: each rule is what the parser does.
    - Printer, crates/parser/src/pretty.rs.  [Pretty]: the printer on its output
      buffer, and the text of a script.  [PrettyRound]: printing,
      lexing and parsing composed.
    - Arithmetic expansion, crates/expander/src/arith.rs.  [ArithLex]: tokens,
      [Lexer::advance], numeric constants, diagnostics.  [ArithEval]: the state
      ([Ctx] for [ExpCtx] and the thread-local recursion counter), the monad
      [M] of state and error, lvalues and namerefs, every [parse_*] function,
      [eval] and [eval_preexpanded].  [ArithProps]: invariants.  [ArithTerm]:
      termination.  [ArithText]: token text, the lexer's round trip.
      [ArithSpec]: expression trees, their denotation, and the refinement.
    - [IndexedArray]: crates/shell/src/state/arrays.rs, a vector of options for
      small subscripts beside an ordered map for the others.
    - [Jobs], [JobsProps]: crates/common/src/jobs.rs, the job table with all its
      operations, and the table updates of the builtins bg, fg and disown -h;
      the relation [operation] is every operation with any arguments, and
      [step] the disciplined ones.
      The macros that decode a wait status are libc's: the class [WaitStatus],
      with [linux_wait] as its instance; the events [waitpid] returns are an
      argument of [reap_all].
    - [Buf]: crates/expander/src/buf.rs, the buffer in which quoted bytes carry
      a control byte, and quote removal.
    - Patterns, crates/expander/src/pattern.rs.  [Pattern]: parser, matcher,
      leading-dot rule, removal, substitution, case modification.
      [PatternLang]: the language of a pattern and the matcher's correctness.
      [PatternOps]: the operations built on the matcher.  [PatternParse]: the
      parser.
    - [Split]: crates/expander/src/ifs.rs and split.rs, field splitting.
    - [Brace], [BraceProps]: crates/expander/src/brace.rs, brace expansion.
    - [Quote], [QuoteProps]: crates/expander/src/quote.rs and the printers of
      param/transforms.rs: decoding of [$'...'], shell strings in which a byte
      that is no UTF-8 is parked in a private character, the quoting of [@Q],
      [@K] and [declare -p].  [Utf8]: characters and their bytes.
    - [Expand]: the context and words (ctx.rs, wd.rs, quoteremoval.rs), special
      and positional parameters (param/values.rs), namerefs, tildes and the text
      side of command substitution (nameref.rs, tilde.rs, cmdsub.rs).
      [Internal], [InternalProps], [InternalTerm]: internal.rs, the driver that
      scans one word, and the dispatch on [$] of param/mod.rs.  [Pipeline],
      [PipelineProps]: pipeline.rs, the stages of a word list.  [TestEnv]: a
      concrete context.  The [${..}] operators, command substitution and
      pathname expansion are parameters of these files; the files that follow
      supply all but the running of commands.
    - Constructs, crates/expander/src/param.  [Scan], [ScanProps]: scanning.rs,
      which finds where a [${..}], [$((..))], [$(..)] or backquote construct
      ends and splits the operator from the word.  [Param], [ParamProps]:
      braces.rs, defaults.rs and operators.rs, every parameter
      operator and the fast path that skips the word driver.  [Transform]:
      transforms.rs and prompts.rs, the [@] operators; the host, user, clock and
      terminal of a prompt are the class [PromptInfo].  [Dollar]: constructs.rs,
      public_api.rs and procsub.rs, and the preparation of arithmetic texts in
      lib.rs; running a command is the class [Runner].  [Words] ties the driver
      of [Internal] to the constructs of [Dollar] and both to the evaluator of
      [ArithEval], level by level of nesting.  [WordsArith]: the evaluator does
      not tell apart subscript expansions that agree.  [WordsProps]: the levels
      suffice.  [Entry]: the entry points of lib.rs.
    - [Glob], [GlobProps]: crates/expander/src/glob.rs, pathname expansion over
      the class [FileSystem]; [directories] is the instance of [Globbing] the
      pipeline asks for.
    - Assignments.  [AssignText], [AssignTextProps]: the scanners of
      crates/expander/src/assignment.rs, which find the operator, the subscript
      and the words of a compound value.  [Assign]: the expansion of
      assignment.rs, and the messages of error.rs.  [AssignApply]:
      [apply_assignment] (crates/exec/src/util.rs) and
      [apply_expanded_assignment] (crates/builtins/src/common.rs), which store
      the result; the two scopes are two values of the record [ScopeOps].
      [AssignStore]: the printed form of an array, expanded and
      stored.
    - Executor, crates/exec/src.  [ExecState]: the context of the executor
      (lib.rs), the monad of its functions, and the expansion of words for it
      (util.rs).  [Redirect]: redirect.rs, the plan of a redirection, its
      execution and the guard that undoes it; the system calls are the class
      [Descriptors], [DescriptorTable] states what they promise.
      [RedirectProps]: redirections on the table of descriptors, with a
      concrete table.  [Exec]: lib.rs, controlflow.rs, function.rs, trap.rs and
      the part of subshell.rs that does not fork: commands, lists, loops,
      unwinding, errexit, traps, function definitions and calls, with the
      executor tied to itself at the end ([execute_command_inner]); what runs
      simple commands, pipelines and subshells is the class [ExecParts], which
      gets the executor.  The theorems of [Exec] are about the counters and the
      completions of commands.
    - [EditBuffer], [EditProps]: crates/lineedit/src/buffer.rs and killring.rs,
      every editing operation, undo, completion replacement, the kill ring.
    - [History], [HistoryProps]: crates/common/src/history.rs, the list and the
      history file.  [HistExpand], [HistExpandProps]:
      crates/common/src/histexpand.rs; the last substitution, a global of the
      program, is passed explicitly.
    - Builtins, crates/builtins/src.  [Umask]: umask.rs.
      [BuiltinArgs]: the splitting of assignment arguments
      that declare, export, readonly and local share (common.rs).  [TestCmd],
      [TestCmdProps]: test_cmd.rs, the parser and evaluator of [test]; the file
      system is the class its primaries ask.  [Getopts]:
      getopts.rs.
    - [Options]: the option tables (crates/builtins/src/shopt_table.rs and
      options.rs) and reading an option (crates/shell/src/state).
    - [Vars]: crates/shell/src/state: the variable store ([ShellState] has the
      fields these functions use), name references, local scopes, arrays,
      attributes, computed variables, export to the process environment.  Clocks
      and file names are the class [System], the case tables of Rust's [char]
      the class [Casing].  [VarsProps]: scoping.  [Nameref]: name references,
      assignments, and the instance of [Environment] for [ShellState] that
      discharges [NamerefFinal] and [ScalarStore].

    ** Conventions

    A Rust function keeps its name.  A [u8], a [char] known to be ASCII and a
    machine integer are [Z]; wrapping operations are written with [wrap64],
    [u64] or [u32]; brace.rs uses plain arithmetic, modelled as the wrapping
    arithmetic of a release build.  Byte strings are [list Z]; a cursor into a
    slice is a [nat].  A fallible function returns [Res] with the error values
    of [ExpandError], diagnostics text included; [Fuel] marks exhausted fuel
    and is never a result of the Rust code; a panic, which is no result either,
    is modelled the same way and shown as such where it can happen.  Mutable state is passed
    explicitly; [&self] reads return the store too, because reading RANDOM
    changes it.  A [HashSet] of positions is the list of its elements; every
    statement about it is on membership.  The replacement callback of a
    substitution is a pure function of the matched text.  Word expansion of an
    array subscript ([expand_arith_string_to_string_impl]) runs the whole
    pipeline and is a parameter of the evaluator, with its assumptions named
    in the theorems that need any.

    ** Fuel

    The evaluator recurses through seven functions, tied by [knot] with one unit
    of fuel per recursive call; [eval_terminates] shows that for every text, and
    every store in which no name reference leads to an array element, some
    amount of fuel gives a definite result, the same for every larger amount;
    [reference_to_element_diverges] shows that the condition is needed, for the
    code itself recurses without bound there; and [eval_refines_denotation] that
    the number of tokens is enough for an expression.  The pattern parser runs with [2 * length + 1]
    ([parse_terminates]), brace expansion with [length + 1]
    ([brace_expand_terminates]), a brace sequence with [MAX_SEQ + 2] rounds, at
    which the Rust loop has given up; the matcher and the splitter recurse on
    the pattern, the positions or the bytes left.  The word driver runs with
    fuel linear in the word ([run_terminates]); history expansion with the
    length of the line ([history_expansion_bounded]); an assignment with
    [assign_depth], two calls for each name that refers to itself and two more
    ([assignment_ends]); [test] with the number of its arguments and one more
    ([test_ends]); the construct scanners and those of the lexer with
    [2 * length + 2], the token list with [length + 2] rounds
    ([tokens_partition_the_input]); the loops and the recursion of the parser
    with [length + 3] each, for every loop and every level of nesting takes a
    token, and the loops over the lines of a here-document with [length + 1]
    ([parsing_ends]); expansions nest at most 32 deep, which is the limit of the
    code, and [nesting_is_bounded] shows that 32 levels decide every word
    (arithmetic below a level has a fuel of its own, and an evaluation that is
    nested in the expansion of a subscript counts its recursion anew); the loops of the assignment scanners have one
    round for each byte (the [_rounds] lemmas); [**] one level for each level
    of directories ([globstar_lists_descendants]); RANDOM draws again until the number differs from the
    last one, at most [RANDOM_ROUNDS] times; a command runs with one unit of fuel
    for each command it nests and for each round of a loop, and
    [executor_follows_the_rules] shows that some fuel is enough where the rules
    give the command a result.

    ** What the theorems show

    - Lexer and parser: lexing ends and loses nothing of the text; parsing ends
      on every text, here-documents included; the parser implements the grammar
      of commands, with its precedence and associativity; what the printer
      writes is read back; a line of quoted arguments is lexed and expanded to
      the arguments.
    - Arithmetic: the text of an expression evaluates to the denotation of its
      tree (64-bit operators, precedence, associativity, short circuit,
      conditional); the operands that [&&], [||] and [?:] do not select have no
      effect; depth counters and flags are restored on every path; evaluation
      ends in a store from which no name reference leads to an array element
      (the class [PlainStore]), and does not for a reference to an element whose
      subscript is the reference; assignment and postfix increment behave as
      read-modify-write; powers are exact modulo 2^64; the lexer reads back what
      is written.
    - Arrays: insertion, removal and enumeration refine a finite map from
      subscripts to values, when growing the vector passes over no sparse
      entry; without the condition an element can become unreadable.
    - Jobs: whatever the operations and their arguments ([operation]), job
      numbers, the pid index, completed jobs and the markers fit together
      ([consistent]); tables reached by [step] satisfy the stronger [wf].  The
      guards of [step] are conditions on the callers: that pids are fresh and
      die once is what the operating system promises, that bg and fg resume
      only jobs that have not completed is not checked by these builtins, and
      the table leaves [wf] when they do otherwise ([bg_revives_completed_job]).
      A death completes a job exactly when it is the last one; the markers are
      the best two jobs; job specifications are resolved correctly.
    - Patterns: the matcher decides the language of the pattern; the parser
      ends, reads back printed patterns, and takes quoted text literally;
      prefix and suffix removal, substitution and case modification meet their
      declarative specifications, the literal fast path included.
    - Buffers, splitting, braces: quote removal recovers the content; splitting
      follows the POSIX rules for every IFS and never splits quoted text; brace
      expansion ends and produces the alternatives and sequences.
    - Quoting and expansion: what the quoting printers write, word expansion
      reads back; a quoted value is one word through the whole pipeline under
      every IFS, and ["$@"] is one word per parameter; the word driver ends and
      restores its nesting depth; shell strings keep exactly the bytes that
      contain no parked character.
    - Constructs: every construct ends where its closing delimiter is, for
      nested and quoted text; the default operators follow the table of POSIX;
      the fast path of parameter expansion and the literal forms of the pattern
      operators agree with the general ones; substrings are those of the
      characters of the value.
    - Assignments and files: the assignment [declare -p] prints for an array
      rebuilds the array, in every shell state in which its name is ordinary; a
      pattern expands to exactly the paths it stands for, and [**] to
      everything below a directory.
    - Executor: the flag for a pending [break], [continue], [return] or exit and
      the counters implement a structured semantics of completions; every
      command and call leaves the counters as it found them.
    - Redirections: they take effect from left to right, and the guard gives the
      table of descriptors back after the command or after an error, when files
      are opened on open descriptors and none is moved; without the conditions
      a descriptor can stay open, or closed.
    - Builtins: [test] decides the denotation of its expression and ends;
      [getopts] yields the options POSIX prescribes; a symbolic mode of [umask]
      is the update of permission sets it describes; assignment arguments are
      split at the operator.
    - Editing: no operation indexes out of range, the cursor stays in the text,
      [undo] reverts, the kill ring remembers the last eight kills.
    - History: the list is bounded, event numbers are stable, [history -a]
      appends the session, the file is read back; expansion ends within its size
      limit, keeps protected text, replaces events, and quotes words back.
    - Variables: the shallow binding of scopes implements deep binding, that is
      dynamic scoping, for every operation; name references resolve to the end
      of their chain, assignments follow them and end, readonly variables are
      kept, scalars are read back.
    - Thirty-one theorems and examples, some of them general, record behaviour that
      departs from the documented or the intended one.

    ** Not modelled

    Code that is input and output (running a program or a builtin, forks and pipelines, the line editor's terminal side, start-up, process
    substitution, directory reading) and the C interface of crates/readline-ffi.
    Of the variable store: the listing operations (whose order is that of a
    hash table), setting options, mail and window size.  Of the builtins: those
    not named above, most of them input and output around the operations of the
    store that are modelled.  Of the lexer: the look at the alias table, whose
    result it does not use. *)
From stdpp Require Export base list strings.
From Stdlib Require Export ZArith Lia Bool.

#[global] Open Scope Z_scope.

(** * Byte literals

    A byte, and a Rust [u8] or ASCII [char], is a [Z].  Inside the scope
    [byte_scope] a one-character string literal denotes the number of that
    byte, so that ["+"%b] is the [Z] 43; it may be used in patterns too. *)

Declare Scope byte_scope.
Delimit Scope byte_scope with b.

Definition byte_of_lit (l : list Byte.byte) : option Z :=
  match l with
  | [c] => Some (Z.of_N (Byte.to_N c))
  | _ => None
  end.

Definition lit_of_byte (z : Z) : option (list Byte.byte) :=
  match z with
  | Z.neg _ => None
  | _ => match Byte.of_N (Z.to_N z) with Some c => Some [c] | None => None end
  end.

String Notation Z byte_of_lit lit_of_byte : byte_scope.

(** A Rust [&str], [String], [&[u8]] or [Vec<u8>] is the list of its bytes
    (UTF-8 for the string types). *)
Abbreviation bytes := (list Z).

(** The bytes of an ASCII string literal. *)
Definition bs (s : string) : bytes :=
  map (fun a => Z.of_N (Ascii.N_of_ascii a)) (String.list_ascii_of_string s).

(** The double quote, which a string literal cannot hold. *)
Definition dquote : Z := 34.

(** * Character classes of [u8] and [char] ([core::ascii]) *)

Definition in_range (lo hi b : Z) : bool := (lo <=? b) && (b <=? hi).

Definition is_ascii_digit (b : Z) : bool := in_range 48 57 b.
Definition is_ascii_upper (b : Z) : bool := in_range 65 90 b.
Definition is_ascii_lower (b : Z) : bool := in_range 97 122 b.
Definition is_ascii_alphabetic (b : Z) : bool := is_ascii_upper b || is_ascii_lower b.
Definition is_ascii_alphanumeric (b : Z) : bool := is_ascii_alphabetic b || is_ascii_digit b.

(** [u8::to_ascii_lowercase]. *)
Definition to_ascii_lowercase (b : Z) : Z := if is_ascii_upper b then b + 32 else b.

(** [u8::is_ascii_whitespace]: space, tab, newline, form feed, return; the
    vertical tab (11) is not one. *)
Definition is_ascii_whitespace (b : Z) : bool :=
  (b =? 32) || (b =? 9) || (b =? 10) || (b =? 12) || (b =? 13).

(** [char::to_digit(radix)] for [radix <= 36]. *)
Definition to_digit (b radix : Z) : option Z :=
  let d :=
    if is_ascii_digit b then Some (b - 48)
    else if is_ascii_lower b then Some (b - 97 + 10)
    else if is_ascii_upper b then Some (b - 65 + 10)
    else None in
  match d with
  | Some d => if d <? radix then Some d else None
  | None => None
  end.

(** * Slices *)

(** [&s[i..j]] for [i <= j <= s.len()]. *)
Definition slice {A} (s : list A) (i j : nat) : list A := take (j - i) (drop i s).

Fixpoint starts_with (p s : bytes) : bool :=
  match p, s with
  | [], _ => true
  | a :: p, b :: s => (a =? b) && starts_with p s
  | _ :: _, [] => false
  end.

Definition ends_with (p s : bytes) : bool := starts_with (rev p) (rev s).

Definition strip_prefix (p s : bytes) : option bytes :=
  if starts_with p s then Some (drop (length p) s) else None.

(** [str::find(char)] and [str::find(&str)]: the byte offset of the first
    occurrence. *)
Fixpoint find_byte (c : Z) (s : bytes) : option nat :=
  match s with
  | [] => None
  | b :: s => if b =? c then Some 0%nat else S <$> find_byte c s
  end.

Fixpoint find_sub (p s : bytes) : option nat :=
  if starts_with p s then Some 0%nat
  else match s with
       | [] => None
       | _ :: s => S <$> find_sub p s
       end.

Fixpoint bytes_eqb (a b : bytes) : bool :=
  match a, b with
  | [], [] => true
  | x :: a, y :: b => (x =? y) && bytes_eqb a b
  | _, _ => false
  end.

(** [str::trim] removes the characters of Unicode's [White_Space]: six ASCII
    ones, U+0085 and U+00A0 (two bytes in UTF-8), and U+1680, U+2000..U+200A,
    U+2028, U+2029, U+202F, U+205F and U+3000 (three bytes). *)
Definition ws1 (b : Z) : bool := in_range 9 13 b || (b =? 32).
Definition ws2 (b c : Z) : bool := (b =? 194) && ((c =? 133) || (c =? 160)).
Definition ws3 (b c d : Z) : bool :=
  ((b =? 225) && (c =? 154) && (d =? 128))
  || ((b =? 226) && (c =? 128)
      && (in_range 128 138 d || (d =? 168) || (d =? 169) || (d =? 175)))
  || ((b =? 226) && (c =? 129) && (d =? 159))
  || ((b =? 227) && (c =? 128) && (d =? 128)).

(** The width in bytes of the white space a string starts with, 0 for none. *)
Definition ws_width (s : bytes) : nat :=
  match s with
  | [] => 0%nat
  | b :: r =>
      if ws1 b then 1%nat
      else match r with
           | c :: r =>
               if ws2 b c then 2%nat
               else match r with
                    | d :: _ => if ws3 b c d then 3%nat else 0%nat
                    | [] => 0%nat
                    end
           | [] => 0%nat
           end
  end.

(** The same at the end of the string, read from its last byte back. *)
Definition ws_width_back (s : bytes) : nat :=
  match s with
  | [] => 0%nat
  | d :: r =>
      if ws1 d then 1%nat
      else match r with
           | c :: r =>
               if ws2 c d then 2%nat
               else match r with
                    | b :: _ => if ws3 b c d then 3%nat else 0%nat
                    | [] => 0%nat
                    end
           | [] => 0%nat
           end
  end.

Fixpoint drop_ws (width : bytes -> nat) (fuel : nat) (s : bytes) : bytes :=
  match fuel with
  | O => s
  | S fuel =>
      match width s with
      | O => s
      | w => drop_ws width fuel (drop w s)
      end
  end.

Definition trim_start (s : bytes) : bytes := drop_ws ws_width (length s) s.
Definition trim_end (s : bytes) : bytes := rev (drop_ws ws_width_back (length s) (rev s)).
Definition trim (s : bytes) : bytes := trim_end (trim_start s).

Definition is_nil {A} (l : list A) : bool := match l with [] => true | _ => false end.

(** * Machine integers *)

Definition i64_min : Z := -9223372036854775808.
Definition i64_max : Z := 9223372036854775807.

Definition in_i64 (z : Z) : Prop := i64_min <= z <= i64_max.
Definition in_i64b (z : Z) : bool := (i64_min <=? z) && (z <=? i64_max).

(** Reduction into [i64] and [u64] ([as], and the result of the [wrapping_]
    operations). *)
Definition wrap64 (z : Z) : Z := (z + 2 ^ 63) mod 2 ^ 64 - 2 ^ 63.
Definition u64 (z : Z) : Z := z mod 2 ^ 64.
Definition u32 (z : Z) : Z := z mod 2 ^ 32.

Definition wrapping_add (a b : Z) : Z := wrap64 (a + b).
Definition wrapping_sub (a b : Z) : Z := wrap64 (a - b).
Definition wrapping_mul (a b : Z) : Z := wrap64 (a * b).
Definition wrapping_neg (a : Z) : Z := wrap64 (- a).
(** Rust's [/] and [%] truncate toward zero. *)
Definition wrapping_div (a b : Z) : Z := wrap64 (Z.quot a b).
Definition wrapping_rem (a b : Z) : Z := wrap64 (Z.rem a b).
(** Shifts by a count already masked to [0..63]; [>>] on [i64] is arithmetic. *)
Definition wrapping_shl (a s : Z) : Z := wrap64 (Z.shiftl a s).
Definition wrapping_shr (a s : Z) : Z := Z.shiftr a s.
Definition b2z (b : bool) : Z := if b then 1 else 0.

(** * Decimal text ([ToString] and [FromStr] of the integer types) *)

Fixpoint dec_digits (fuel : nat) (n : Z) (acc : bytes) : bytes :=
  match fuel with
  | O => acc
  | S fuel =>
      let acc' := (48 + n mod 10) :: acc in
      if n <? 10 then acc' else dec_digits fuel (n / 10) acc'
  end.

(** The decimal digits of [n >= 0]; a number has at most [log2 n + 1] of them. *)
Definition u_to_string (n : Z) : bytes := dec_digits (S (Z.to_nat (Z.log2 n))) n [].

Definition i64_to_string (z : Z) : bytes :=
  if z <? 0 then "-"%b :: u_to_string (- z) else u_to_string z.

Fixpoint dec_value (acc : Z) (s : bytes) : option Z :=
  match s with
  | [] => Some acc
  | b :: s => if is_ascii_digit b then dec_value (acc * 10 + (b - 48)) s else None
  end.

(** [str::parse::<i64>]: an optional sign, at least one digit, no overflow. *)
Definition parse_i64 (s : bytes) : option Z :=
  let check (z : option Z) :=
    match z with
    | Some z => if in_i64b z then Some z else None
    | None => None
    end in
  match s with
  | "-"%b :: ((_ :: _) as d) => check (Z.opp <$> dec_value 0 d)
  | "+"%b :: ((_ :: _) as d) => check (dec_value 0 d)
  | _ :: _ => check (dec_value 0 s)
  | [] => None
  end.

(** * Results of fallible, fuelled code

    [Fuel] marks a computation cut short by the bound a model puts on a
    recursion of the source that is not structural; every component proves
    that enough fuel exists. *)

Inductive Res (E A : Type) : Type :=
| Ok (a : A)
| Err (e : E)
| Fuel.
Arguments Ok {E A} a.
Arguments Err {E A} e.
Arguments Fuel {E A}.

Definition is_fuel {E A} (r : Res E A) : bool :=
  match r with Fuel => true | _ => false end.

(** * Automation shared by the components *)

Create HintDb cherub.

(** Turn boolean tests of the hypotheses and the goal into propositions. *)
Ltac to_prop :=
  repeat match goal with
  | H : (_ && _)%bool = true |- _ => apply andb_true_iff in H as [? ?]
  | H : (_ || _)%bool = false |- _ => apply orb_false_iff in H as [? ?]
  | H : (_ <=? _) = true |- _ => apply Z.leb_le in H
  | H : (_ <=? _) = false |- _ => apply Z.leb_gt in H
  | H : (_ <? _) = true |- _ => apply Z.ltb_lt in H
  | H : (_ <? _) = false |- _ => apply Z.ltb_ge in H
  | H : (_ =? _) = true |- _ => apply Z.eqb_eq in H
  | H : (_ =? _) = false |- _ => apply Z.eqb_neq in H
  | H : (_ <=? _)%nat = true |- _ => apply Nat.leb_le in H
  | H : (_ <=? _)%nat = false |- _ => apply Nat.leb_gt in H
  | H : (_ <? _)%nat = true |- _ => apply Nat.ltb_lt in H
  | H : (_ <? _)%nat = false |- _ => apply Nat.ltb_ge in H
  | H : (_ =? _)%nat = true |- _ => apply Nat.eqb_eq in H
  | H : (_ =? _)%nat = false |- _ => apply Nat.eqb_neq in H
  | H : negb _ = true |- _ => apply negb_true_iff in H
  | H : negb _ = false |- _ => apply negb_false_iff in H
  end.

(** Split on the tests of the [if]s of the goal, keeping their equations. *)
Ltac split_ifs :=
  repeat match goal with
  | |- context [if ?b then _ else _] =>
      match type of b with bool => let H := fresh "Hif" in destruct b eqn:H end
  end.

(** * Lemmas on machine integers *)

Lemma wrap64_range z : in_i64 (wrap64 z).
Proof.
  unfold wrap64, in_i64, i64_min, i64_max.
  pose proof (Z.mod_pos_bound (z + 2 ^ 63) (2 ^ 64) ltac:(lia)). lia.
Qed.

Lemma wrap64_id z : in_i64 z -> wrap64 z = z.
Proof.
  unfold wrap64, in_i64, i64_min, i64_max. intros.
  rewrite Z.mod_small; lia.
Qed.

Lemma wrap64_congr a b : a mod 2 ^ 64 = b mod 2 ^ 64 -> wrap64 a = wrap64 b.
Proof.
  intros H. unfold wrap64.
  rewrite <- (Zplus_mod_idemp_l a), <- (Zplus_mod_idemp_l b), H. reflexivity.
Qed.

Lemma wrap64_mod z : wrap64 z mod 2 ^ 64 = z mod 2 ^ 64.
Proof.
  unfold wrap64. rewrite Zminus_mod_idemp_l. f_equal. lia.
Qed.

Lemma wrap64_wrap64 z : wrap64 (wrap64 z) = wrap64 z.
Proof. apply wrap64_congr, wrap64_mod. Qed.

Lemma wrap64_mul_l a b : wrap64 (wrap64 a * b) = wrap64 (a * b).
Proof.
  apply wrap64_congr.
  rewrite <- (Zmult_mod_idemp_l (wrap64 a)), wrap64_mod, Zmult_mod_idemp_l. reflexivity.
Qed.

Lemma wrap64_mul_r a b : wrap64 (a * wrap64 b) = wrap64 (a * b).
Proof. rewrite !(Z.mul_comm a). apply wrap64_mul_l. Qed.

Lemma wrap64_add_l a b : wrap64 (wrap64 a + b) = wrap64 (a + b).
Proof.
  apply wrap64_congr.
  rewrite <- (Zplus_mod_idemp_l (wrap64 a)), wrap64_mod, Zplus_mod_idemp_l. reflexivity.
Qed.

Lemma wrap64_add_r a b : wrap64 (a + wrap64 b) = wrap64 (a + b).
Proof. rewrite !(Z.add_comm a). apply wrap64_add_l. Qed.

Lemma wrap64_u64 z : wrap64 (u64 z) = wrap64 z.
Proof. apply wrap64_congr. unfold u64. now rewrite Z.mod_mod by lia. Qed.

(** A number fits in 64 bits exactly when its sign extension is all zeros or
    all ones; bitwise operations act on the sign extensions pointwise. *)
Lemma in_i64_shiftr z : in_i64 z <-> Z.shiftr z 63 = 0 \/ Z.shiftr z 63 = -1.
Proof.
  unfold in_i64, i64_min, i64_max. rewrite Z.shiftr_div_pow2 by lia.
  Z.div_mod_to_equations. lia.
Qed.

Lemma land_i64 a b : in_i64 a -> in_i64 b -> in_i64 (Z.land a b).
Proof.
  rewrite !in_i64_shiftr, Z.shiftr_land.
  intros [-> | ->] [-> | ->]; auto.
Qed.

Lemma lor_i64 a b : in_i64 a -> in_i64 b -> in_i64 (Z.lor a b).
Proof.
  rewrite !in_i64_shiftr, Z.shiftr_lor.
  intros [-> | ->] [-> | ->]; auto.
Qed.

Lemma lxor_i64 a b : in_i64 a -> in_i64 b -> in_i64 (Z.lxor a b).
Proof.
  rewrite !in_i64_shiftr, Z.shiftr_lxor.
  intros [-> | ->] [-> | ->]; auto.
Qed.

Lemma lnot_i64 a : in_i64 a -> in_i64 (Z.lnot a).
Proof. unfold in_i64, i64_min, i64_max, Z.lnot. lia. Qed.

Lemma shr_i64 a s : 0 <= s -> in_i64 a -> in_i64 (wrapping_shr a s).
Proof.
  unfold in_i64, i64_min, i64_max, wrapping_shr. intros Hs Ha.
  rewrite Z.shiftr_div_pow2 by lia.
  pose proof (Z.pow_pos_nonneg 2 s ltac:(lia) Hs).
  split.
  - apply Z.div_le_lower_bound; nia.
  - apply Z.div_le_upper_bound; nia.
Qed.

Lemma b2z_i64 b : in_i64 (b2z b).
Proof. destruct b; unfold in_i64, i64_min, i64_max; simpl; lia. Qed.

Lemma in_i64_0 : in_i64 0.
Proof. unfold in_i64, i64_min, i64_max. lia. Qed.

Lemma in_i64_1 : in_i64 1.
Proof. unfold in_i64, i64_min, i64_max. lia. Qed.

Lemma land63_nonneg z : 0 <= Z.land (u32 z) 63.
Proof. apply Z.land_nonneg. right. lia. Qed.

#[export] Hint Extern 1 (in_i64 (wrapping_add _ _)) => apply wrap64_range : cherub.
#[export] Hint Extern 1 (in_i64 (wrapping_sub _ _)) => apply wrap64_range : cherub.
#[export] Hint Extern 1 (in_i64 (wrapping_mul _ _)) => apply wrap64_range : cherub.
#[export] Hint Extern 1 (in_i64 (wrapping_neg _)) => apply wrap64_range : cherub.
#[export] Hint Extern 1 (in_i64 (wrapping_div _ _)) => apply wrap64_range : cherub.
#[export] Hint Extern 1 (in_i64 (wrapping_rem _ _)) => apply wrap64_range : cherub.
#[export] Hint Extern 1 (in_i64 (wrapping_shl _ _)) => apply wrap64_range : cherub.

#[export] Hint Resolve wrap64_range land_i64 lor_i64 lxor_i64 lnot_i64 shr_i64
  b2z_i64 in_i64_0 in_i64_1 land63_nonneg : cherub.

Lemma in_i64b_iff z : in_i64b z = true <-> in_i64 z.
Proof. unfold in_i64b, in_i64. rewrite andb_true_iff, !Z.leb_le. reflexivity. Qed.

(** * Lemmas on strings *)

Lemma starts_with_app p s : starts_with p s = true <-> exists r, s = p ++ r.
Proof.
  revert s. induction p as [|a p IH]; intros s; simpl; [split; [by exists s|done]|].
  destruct s as [|b s]; [split; [done|by intros [r ?]]|].
  rewrite andb_true_iff, Z.eqb_eq, IH. split; [intros [-> [r ->]]; by exists r|intros [r [= -> ->]]; split; [done|by exists r]].
Qed.

Lemma bytes_eqb_eq (a b : bytes) : bytes_eqb a b = true <-> a = b.
Proof.
  revert b. induction a as [|x a IH]; intros [|y b]; simpl; try done.
  rewrite andb_true_iff, Z.eqb_eq, IH. split; [by intros [-> ->]|by intros [= -> ->]].
Qed.

Lemma bytes_eqb_refl (a : bytes) : bytes_eqb a a = true.
Proof. by apply bytes_eqb_eq. Qed.

Lemma drop_ws_length width fuel (s : bytes) : (length (drop_ws width fuel s) <= length s)%nat.
Proof.
  revert s. induction fuel as [|fuel IH]; intros s; simpl; [done|].
  destruct (width s); [done|]. etrans; [apply IH|]. rewrite length_drop. lia.
Qed.

Lemma length_slice {A} (s : list A) i j :
  (j <= length s)%nat -> length (slice s i j) = (j - i)%nat.
Proof. intros. unfold slice. rewrite length_take, length_drop. lia. Qed.

Lemma find_byte_lt c s k : find_byte c s = Some k -> (k < length s)%nat.
Proof.
  revert k. induction s as [|b s IH]; intros k; simpl; [done|].
  destruct (b =? c); [intros [= <-]; lia|].
  destruct (find_byte c s) as [j|]; simpl; [|done]. intros [= <-]. specialize (IH j eq_refl). lia.
Qed.

(** A byte that is neither white space nor part of a multi-byte character. *)
Definition plain_byte (b : Z) : Prop := 33 <= b < 128.

Lemma ws_plain b : plain_byte b ->
  ws1 b = false /\ (forall c, ws2 b c = false /\ ws2 c b = false) /\
  forall c d, ws3 b c d = false /\ ws3 c d b = false.
Proof.
  unfold plain_byte, ws1, ws2, ws3, in_range. intros Hb.
  repeat match goal with
  | |- _ /\ _ => split
  | |- forall _, _ => intro
  end; apply not_true_is_false;
  rewrite ?orb_true_iff, ?andb_true_iff, ?orb_true_iff, ?andb_true_iff, ?Z.leb_le, ?Z.eqb_eq; lia.
Qed.

Lemma ws_width_plain b (s : bytes) : plain_byte b -> ws_width (b :: s) = 0%nat.
Proof.
  intros Hb. destruct (ws_plain b Hb) as (H1 & H2 & H3). simpl. rewrite H1.
  destruct s as [|c [|d s]]; [done|..]; rewrite (proj1 (H2 c)); [done|].
  by rewrite (proj1 (H3 c d)).
Qed.

Lemma ws_width_back_plain b (s : bytes) : plain_byte b -> ws_width_back (b :: s) = 0%nat.
Proof.
  intros Hb. destruct (ws_plain b Hb) as (H1 & H2 & H3). simpl. rewrite H1.
  destruct s as [|c [|d s]]; [done|..]; rewrite (proj2 (H2 c)); [done|].
  by rewrite (proj2 (H3 d c)).
Qed.

(** Trimming leaves text without white space alone. *)
Lemma trim_start_plain (s : bytes) : Forall plain_byte s -> trim_start s = s.
Proof.
  intros Hs. unfold trim_start. destruct Hs as [|b s Hb Hs]; [done|].
  simpl length. cbn [drop_ws]. by rewrite ws_width_plain.
Qed.

Lemma trim_plain (s : bytes) : Forall plain_byte s -> trim s = s.
Proof.
  intros Hs. unfold trim. rewrite trim_start_plain by done. unfold trim_end.
  assert (Forall plain_byte (rev s)) as Hr by by apply Forall_rev.
  rewrite <- (rev_involutive s) at 3. f_equal. rewrite <- length_rev.
  destruct Hr as [|b r Hb Hr]; [done|].
  simpl length. cbn [drop_ws]. by rewrite ws_width_back_plain.
Qed.

(** * Lemmas on decimal text *)

Lemma dec_value_app acc s1 s2 :
  dec_value acc (s1 ++ s2) = acc' ← dec_value acc s1; dec_value acc' s2.
Proof.
  revert acc. induction s1 as [|b s1 IH]; intros acc; simpl; [done|].
  destruct (is_ascii_digit b); [apply IH|done].
Qed.

Lemma is_ascii_digit_dec d : 0 <= d < 10 -> is_ascii_digit (48 + d) = true.
Proof. intros. unfold is_ascii_digit, in_range. rewrite andb_true_iff, !Z.leb_le. lia. Qed.

(** [dec_digits] prepends the digits of [n] to its accumulator. *)
Lemma dec_digits_spec fuel n acc :
  0 <= n -> n < 2 ^ Z.of_nat fuel ->
  exists ds, dec_digits fuel n acc = ds ++ acc /\
    (fuel <> 0%nat -> ds <> []) /\
    Forall (fun b => is_ascii_digit b = true) ds /\
    forall k, (fuel <> 0%nat) -> dec_value k ds = Some (k * 10 ^ Z.of_nat (length ds) + n).
Proof.
  revert n acc. induction fuel as [|fuel IH]; intros n acc Hn Hlt.
  { exists []. repeat split; auto; try done. }
  simpl. pose proof (Z.mod_pos_bound n 10 ltac:(lia)) as Hm.
  destruct (n <? 10) eqn:E; to_prop.
  - exists [48 + n mod 10]. split; [done|]. split; [done|].
    pose proof (is_ascii_digit_dec (n mod 10) ltac:(lia)) as Hd.
    split; [by repeat constructor|]. intros k _. simpl. rewrite Hd.
    rewrite Z.mod_small by lia. f_equal. lia.
  - assert (fuel <> 0%nat) as Hf.
    { intros ->. simpl in Hlt. lia. }
    destruct (IH (n / 10) ((48 + n mod 10) :: acc)) as (ds & -> & Hne & Hall & Hv).
    { apply Z.div_pos; lia. }
    { rewrite Nat2Z.inj_succ, Z.pow_succ_r in Hlt by lia.
      apply Z.div_lt_upper_bound; lia. }
    pose proof (is_ascii_digit_dec (n mod 10) ltac:(lia)) as Hd.
    exists (ds ++ [48 + n mod 10]). split; [by rewrite <- app_assoc|].
    split; [by destruct ds|].
    split; [apply Forall_app; split; [done|by repeat constructor]|].
    intros k _. rewrite dec_value_app, Hv by done. simpl. rewrite Hd.
    rewrite length_app. simpl.
    rewrite Nat2Z.inj_add, Z.pow_add_r by lia. simpl (10 ^ Z.of_nat 1).
    f_equal. pose proof (Z.div_mod n 10). lia.
Qed.

Lemma u_to_string_spec n :
  0 <= n ->
  u_to_string n <> [] /\
  Forall (fun b => is_ascii_digit b = true) (u_to_string n) /\
  dec_value 0 (u_to_string n) = Some n.
Proof.
  intros Hn. unfold u_to_string.
  destruct (dec_digits_spec (S (Z.to_nat (Z.log2 n))) n []) as (ds & -> & Hne & Hall & Hv).
  - done.
  - rewrite Nat2Z.inj_succ, Z2Nat.id by apply Z.log2_nonneg.
    destruct (Z.eq_dec n 0) as [->|]; [simpl; lia|]. apply Z.log2_spec; lia.
  - rewrite app_nil_r. split; [auto|]. split; [done|]. rewrite Hv by done. f_equal.
Qed.

(** Printing an [i64] and parsing it back gives the number. *)
Lemma parse_i64_to_string z : in_i64 z -> parse_i64 (i64_to_string z) = Some z.
Proof.
  intros Hz. pose proof (proj2 (in_i64b_iff z) Hz) as Hb.
  unfold i64_to_string. destruct (z <? 0) eqn:E; to_prop.
  - destruct (u_to_string_spec (- z)) as (Hne & _ & Hv); [lia|].
    destruct (u_to_string (- z)) as [|d ds] eqn:Ed; [done|].
    cbn [parse_i64]. rewrite Hv. cbn. rewrite Z.opp_involutive. by rewrite Hb.
  - destruct (u_to_string_spec z) as (Hne & Hall & Hv); [lia|].
    destruct (u_to_string z) as [|d ds] eqn:Ed; [done|].
    inversion Hall as [|? ? Hd _]; subst.
    unfold is_ascii_digit, in_range in Hd. to_prop.
    assert (d <> 43 /\ d <> 45) as [H43 H45] by lia.
    unfold parse_i64. rewrite Hv, Hb.
    repeat (match goal with |- context [match ?x with _ => _ end] => destruct x; try done end).
Qed.

Lemma i64_to_string_plain z : Forall plain_byte (i64_to_string z) /\ i64_to_string z <> [].
Proof.
  assert (forall n, 0 <= n -> Forall plain_byte (u_to_string n) /\ u_to_string n <> []) as Hu.
  { intros n Hn. destruct (u_to_string_spec n Hn) as (Hne & Hall & _). split; [|done].
    eapply Forall_impl; [exact Hall|]. unfold is_ascii_digit, in_range, plain_byte.
    intros b Hb. simpl in Hb. to_prop. lia. }
  unfold i64_to_string. destruct (z <? 0) eqn:E; to_prop; [|apply Hu; lia].
  destruct (Hu (- z)) as [Hall _]; [lia|]. split; [|done].
  constructor; [unfold plain_byte; lia|done].
Qed.

(** Decimal text has no leading zero. *)
Lemma dec_digits_head fuel n acc :
  1 <= n < 2 ^ Z.of_nat fuel -> exists d ds, dec_digits fuel n acc = d :: ds /\ d <> 48.
Proof.
  revert n acc. induction fuel as [|fuel IH]; intros n acc [H1 Hlt]; [simpl in Hlt; lia|].
  simpl. destruct (n <? 10) eqn:E; to_prop.
  - exists (48 + n mod 10), acc. split; [done|]. rewrite Z.mod_small by lia. lia.
  - apply IH. rewrite Nat2Z.inj_succ, Z.pow_succ_r in Hlt by lia.
    split; [apply Z.div_le_lower_bound; lia|apply Z.div_lt_upper_bound; lia].
Qed.

Lemma u_to_string_head n : 1 <= n -> exists d ds, u_to_string n = d :: ds /\ d <> 48.
Proof.
  intros Hn. apply dec_digits_head. split; [done|].
  rewrite Nat2Z.inj_succ, Z2Nat.id by apply Z.log2_nonneg. apply Z.log2_spec. lia.
Qed.

(** * Trimming keeps a non-blank first byte *)

Lemma ws_width_back_last (l : bytes) b : plain_byte b -> (ws_width_back (l ++ [b]) <= length l)%nat.
Proof.
  intros Hb. destruct (ws_plain b Hb) as (H1 & H2 & H3).
  destruct l as [|d [|c [|e l]]]; simpl.
  - by rewrite H1.
  - destruct (ws1 d); [lia|]. rewrite (proj1 (H2 d)). lia.
  - destruct (ws1 d); [lia|]. destruct (ws2 c d); [lia|]. rewrite (proj1 (H3 c d)). lia.
  - destruct (ws1 d); [lia|]. destruct (ws2 c d); [lia|]. destruct (ws3 e c d); lia.
Qed.

Lemma drop_ws_last fuel (l : bytes) b :
  plain_byte b -> exists k, drop_ws ws_width_back fuel (l ++ [b]) = drop k l ++ [b].
Proof.
  intros Hb. revert l. induction fuel as [|fuel IH]; intros l; cbn [drop_ws]; [by exists 0%nat|].
  pose proof (ws_width_back_last l b Hb) as Hw. destruct (ws_width_back (l ++ [b])) as [|w]; [by exists 0%nat|].
  rewrite drop_app_le by lia. destruct (IH (drop (S w) l)) as (k & ->). exists (S w + k)%nat. by rewrite drop_drop.
Qed.

Lemma trim_head b (s : bytes) : plain_byte b -> exists k, trim (b :: s) = b :: take k s.
Proof.
  intros Hb. unfold trim, trim_start. simpl length. cbn [drop_ws]. rewrite ws_width_plain by done.
  unfold trim_end. cbn [rev]. destruct (drop_ws_last (length (b :: s)) (rev s) b Hb) as (k & ->).
  rewrite rev_app_distr. cbn [rev app]. exists (length s - k)%nat. f_equal.
  by rewrite skipn_rev, rev_involutive.
Qed.
