(* ===== verification/Env.v ===== *)
(** The interface between the expander and the shell's variable store:
    [ExpandError] (crates/expander/src/error.rs), [VarKind] and [AssignError]
    (crates/common/src/lib.rs), and the part of the [Environment] trait that
    the arithmetic evaluator calls, as a type class.  [MapEnv] is the
    hash-map environment the evaluator's own unit tests use. *)
From stdpp Require Import base list gmap.
From S2P Require Import Prelude.

(** [ExpandError]; text payloads are byte strings. *)
Inductive ExpandError :=
| BadSubstitution (s : bytes)
| UnboundVariable (s : bytes)
| UnboundColonError (name msg : bytes)
| AssignToReadonly (s : bytes)
| DivisionByZero
| ArithSyntax (s : bytes)
| ArithOverflow
| ArithRecursion
| BadPattern (s : bytes)
| InvalidArraySubscript (s : bytes)
| CommandSubstFailed (code : Z)
| ExitShell (code : Z)
| AlreadyReported (code : Z)
| SubstitutionRecursive (depth : Z)
| AmbiguousRedirect (s : bytes)
| FailGlob (s : bytes)
| Io (s : bytes)
| Other (s : bytes)
| Fatal (s : bytes).

Inductive VarKind := KUnset | KScalar | KIndexed | KAssoc | KNameref.

Inductive AssignError :=
| ReadOnly (s : bytes)
| InvalidInteger (s : bytes)
| InvalidName (s : bytes)
| BadArraySubscript (s : bytes)
| CircularNameReference (s : bytes).

#[export] Instance VarKind_eq_dec : EqDecision VarKind.
Proof. solve_decision. Defined.

(** The methods of [trait Environment] the evaluator uses.  Reading a
    variable may change the store through interior mutability ([RANDOM]
    advances its seed), so the [get] methods return the store too. *)
Class Environment (E : Type) := {
  env_get : E -> bytes -> option bytes * E;
  env_get_array_indexed : E -> bytes -> Z -> option bytes * E;
  env_get_array_assoc : E -> bytes -> bytes -> option bytes * E;
  env_kind : E -> bytes -> VarKind;
  (** [attrs(name).contains(VarAttrs::NAMEREF)] *)
  env_attr_nameref : E -> bytes -> bool;
  env_resolve_nameref : E -> bytes -> option bytes;
  env_is_readonly : E -> bytes -> bool;
  env_option : E -> bytes -> bool;
  env_assign : E -> bytes -> bytes -> option AssignError * E;
  env_set_array_indexed : E -> bytes -> Z -> bytes -> E;
  env_set_array_assoc : E -> bytes -> bytes -> bytes -> E;
}.

(** What the trait's documentation promises of [resolve_nameref]: it returns
    the ultimate target, so that resolving its result again changes nothing. *)
Class NamerefFinal (E : Type) `{Environment E} :=
  resolve_nameref_final : forall (e : E) (name target : bytes),
    env_resolve_nameref e name = Some target ->
    env_attr_nameref e target = true ->
    env_resolve_nameref e target = Some target.

(** Read-your-writes for a scalar variable: after a successful assignment a
    read of the same name yields the value and leaves the store alone. *)
Class ScalarStore (E : Type) `{Environment E} (ok : E -> bytes -> Prop) :=
  scalar_read_back : forall (e e' : E) (name value : bytes),
    ok e name ->
    env_assign e name value = (None, e') ->
    env_get e' name = (Some value, e').

(** * The hash-map environment of the evaluator's unit tests *)

Module MapEnv.

Record t := mk {
  vars : gmap bytes bytes;
  arrays : gmap bytes (gmap Z bytes);
}.

Definition get (e : t) (n : bytes) : option bytes := vars e !! n.

Definition set (e : t) (n v : bytes) : t := mk (<[n := v]> (vars e)) (arrays e).

Definition set_array_indexed (e : t) (name : bytes) (index : Z) (value : bytes) : t :=
  mk (vars e) (<[name := <[index := value]> (default ∅ (arrays e !! name))]> (arrays e)).

Definition get_array_indexed (e : t) (name : bytes) (index : Z) : option bytes :=
  arr ← arrays e !! name; arr !! index.

Definition kind (e : t) (name : bytes) : VarKind :=
  if bool_decide (is_Some (arrays e !! name)) then KIndexed
  else if bool_decide (is_Some (vars e !! name)) then KScalar
  else KUnset.

(** The methods the test environment does not override keep the defaults of
    the trait: no attribute, no associative array, [assign] is [set]. *)
#[global] Instance env : Environment t := {
  env_get e n := (get e n, e);
  env_get_array_indexed e n i := (get_array_indexed e n i, e);
  env_get_array_assoc e n k := (None, e);
  env_kind := kind;
  env_attr_nameref e n := false;
  env_resolve_nameref e n := Some n;
  env_is_readonly e n := false;
  env_option e n := false;
  env_assign e n v := (None, set e n v);
  env_set_array_indexed := set_array_indexed;
  env_set_array_assoc e n k v := e;
}.

#[global] Instance nameref_final : NamerefFinal t.
Proof. intros e name target _ H. discriminate H. Qed.

#[global] Instance scalar_store : ScalarStore t (fun _ _ => True).
Proof.
  intros e e' name value _ [= <-]. simpl. unfold get, set. simpl.
  by rewrite lookup_insert_eq.
Qed.

Definition empty : t := mk ∅ ∅.

End MapEnv.
