(* ===== verification/ArithLex.v ===== *)
(** The lexical layer of the arithmetic evaluator
    (crates/expander/src/arith.rs): tokens, the [Lexer] and its [advance],
    numeric constants in every base, and the text of the diagnostics. *)
From stdpp Require Import base list.
From S2P Require Import Prelude Env.

(** * Tokens and lexer state *)

Module Tok.

Inductive t :=
| Num (n : Z)
| Ident (name : bytes)
| Plus | Minus | Star | Slash | Percent | StarStar
| Eq | PlusEq | MinusEq | StarEq | SlashEq | PercentEq | StarStarEq
| AmpEq | PipeEq | CaretEq | ShlEq | ShrEq
| LParen | RParen | Bang | Tilde | AmpAmp | PipePipe | Amp | Pipe | Caret
| EqEq | BangEq | Lt | Le | Gt | Ge | Shl | Shr
| Question | Colon | Comma | PlusPlus | MinusMinus | Eof.

#[export] Instance eq_dec : EqDecision t.
Proof. solve_decision. Defined.

End Tok.
Export (hints) Tok.

(** [==] on tokens. *)
Definition tok_eqb (a b : Tok.t) : bool := bool_decide (a = b).

Record Lexer := mkLexer {
  src : bytes;
  i : nat;
  cur : Tok.t;
  tok_start : nat;
  tok_end : nat;
}.

(** * Diagnostics *)

(** [String::from_utf8_lossy(&src[start..]).trim_start()]; every caller passes
    the start of a token, a character boundary of valid UTF-8, where the lossy
    conversion is the identity. *)
Definition arith_expr_from (src : bytes) (start : nat) : bytes :=
  trim_start (drop (Nat.min start (length src)) src).

Definition quote_error_token (token : bytes) : bytes :=
  flat_map (fun b => if b =? "\"%b then ["\"%b; "\"%b] else [b]) token.

(** [format!("{expr}{mid} (error token is \"{token}\")")] *)
Definition token_error (expr mid token : bytes) : ExpandError :=
  ArithSyntax (expr ++ mid ++ bs " (error token is " ++ [dquote] ++ token ++ [dquote] ++ bs ")").

Definition arith_operand_expected (src : bytes) (start : nat) : ExpandError :=
  token_error (arith_expr_from src 0) (bs ": arithmetic syntax error: operand expected")
    (quote_error_token (arith_expr_from src start)).

Definition arith_expression_expected (src : bytes) (token_start : nat) : ExpandError :=
  token_error (arith_expr_from src 0) (bs ": expression expected")
    (quote_error_token (arith_expr_from src token_start)).

Definition arith_conditional_colon_expected (src : bytes) (token_start : nat) : ExpandError :=
  token_error (arith_expr_from src 0) (bs ": `:' expected for conditional expression")
    (quote_error_token (arith_expr_from src token_start)).

Definition arith_syntax_error_in_expression (src : bytes) (token_start : nat) : ExpandError :=
  token_error (arith_expr_from src 0) (bs ": arithmetic syntax error in expression")
    (quote_error_token (arith_expr_from src token_start)).

Definition arith_invalid_operator (src : bytes) (token_start : nat) : ExpandError :=
  token_error (arith_expr_from src 0)
    (bs ": arithmetic syntax error: invalid arithmetic operator")
    (quote_error_token (arith_expr_from src token_start)).

Definition arith_assignment_to_non_variable (src : bytes) (token_start : nat) : ExpandError :=
  token_error (arith_expr_from src 0) (bs ": attempted assignment to non-variable")
    (quote_error_token (arith_expr_from src token_start)).

Definition arith_number_error (raw : bytes) (message : bytes) : ExpandError :=
  token_error raw (bs ": " ++ message) (quote_error_token raw).

Definition arith_division_by_zero (src : bytes) (token_start : nat) : ExpandError :=
  token_error (arith_expr_from src 0) (bs ": division by 0")
    (quote_error_token (arith_expr_from src token_start)).

Definition arith_rhs_expected (lex : Lexer) (op_start : nat) : Res ExpandError unit :=
  if tok_eqb (cur lex) Tok.Eof then Err (arith_operand_expected (src lex) op_start) else Ok tt.

(** The length of the longest prefix whose bytes satisfy [p]: a
    [while i < len && p(src[i])] loop advances [i] by it. *)
Fixpoint scan_while (p : Z -> bool) (l : bytes) : nat :=
  match l with
  | b :: l => if p b then S (scan_while p l) else 0%nat
  | [] => 0%nat
  end.

Definition is_number_byte (b : Z) : bool :=
  is_ascii_alphanumeric b || (b =? "#"%b) || (b =? "@"%b) || (b =? "_"%b).

(** The two backward loops of [previous_arith_token] scan the reversed prefix.
    The slice it returns holds number bytes only, or is one byte; a lone
    non-ASCII byte is replaced by U+FFFD in the lossy conversion. *)
Definition previous_arith_token (src : bytes) (before : nat) : bytes :=
  let back := rev (take (Nat.min before (length src)) src) in
  let back := drop (scan_while is_ascii_whitespace back) back in
  match back with
  | [] => []
  | last :: _ =>
      match scan_while is_number_byte back with
      | O => if last <? 128 then [last] else [239; 191; 189]
      | n => rev (take n back)
      end
  end.

Definition arith_missing_rparen (src : bytes) (token_before : nat) : ExpandError :=
  token_error (arith_expr_from src 0) (bs ": missing `)'")
    (quote_error_token (previous_arith_token src token_before)).

Definition arith_recursion_error (token : bytes) : ExpandError :=
  token_error token (bs ": expression recursion level exceeded") (quote_error_token token).

(** * Numeric constants *)

Fixpoint radix_loop (digits : bytes) (radix : Z) (raw : bytes) (value : Z) : Res ExpandError Z :=
  match digits with
  | [] => Ok (wrap64 value)
  | ch :: digits =>
      match to_digit ch radix with
      | None => Err (ArithSyntax (bs "invalid number " ++ raw))
      | Some digit => radix_loop digits radix raw (u64 (u64 (value * radix) + digit))
      end
  end.

Definition parse_radix_wrapping (digits : bytes) (radix : Z) (raw : bytes) : Res ExpandError Z :=
  if is_nil digits then Err (ArithSyntax (bs "invalid number " ++ raw))
  else radix_loop digits radix raw 0.

(** The digit value of [ch] in [base#digits]. *)
Definition base_digit (base ch : Z) : option Z :=
  if is_ascii_digit ch then Some (ch - 48)
  else if is_ascii_lower ch then Some (ch - 97 + 10)
  else if is_ascii_upper ch then
    Some (if base <=? 36 then ch - 65 + 10 else ch - 65 + 36)
  else if ch =? "@"%b then Some 62
  else if ch =? "_"%b then Some 63
  else None.

Fixpoint base_loop (digits : bytes) (base : Z) (s : bytes) (value : Z) : Res ExpandError Z :=
  match digits with
  | [] => Ok (wrap64 value)
  | ch :: digits =>
      match base_digit base ch with
      | None => Err (arith_number_error s (bs "invalid number"))
      | Some d =>
          if base <=? d then Err (arith_number_error s (bs "value too great for base"))
          else base_loop digits base s (u64 (u64 (value * base) + d))
      end
  end.

Definition parse_number (s : bytes) : Res ExpandError Z :=
  match find_byte "#"%b s with
  | Some idx =>
      let base_part := take idx s in
      let digit_part := drop (S idx) s in
      match parse_i64 base_part with
      | None => Err (arith_number_error s (bs "invalid arithmetic base"))
      | Some base =>
          if base =? 0 then Err (arith_number_error s (bs "invalid number"))
          else if negb (in_range 2 64 base) then
            Err (arith_number_error s (bs "invalid arithmetic base"))
          else if is_nil digit_part then
            Err (arith_number_error s (bs "invalid integer constant"))
          else base_loop digit_part base s 0
      end
  | None =>
      match (match strip_prefix (bs "0x") s with
             | Some rest => Some rest
             | None => strip_prefix (bs "0X") s
             end) with
      | Some rest => parse_radix_wrapping rest 16 s
      | None =>
          if (1 <? length s)%nat && starts_with (bs "0") s
             && forallb is_ascii_digit (drop 1 s)
          then parse_radix_wrapping (drop 1 s) 8 s
          else parse_radix_wrapping s 10 s
      end
  end.

(** * The lexer *)

Definition is_ident_start (b : Z) : bool := (b =? "_"%b) || is_ascii_alphabetic b.
Definition is_ident_byte (b : Z) : bool := (b =? "_"%b) || is_ascii_alphanumeric b.

(** The number of bytes the subscript loop consumes after the opening bracket;
    [depth] is the bracket depth at the head of [l]. *)
Fixpoint scan_subscript (depth : nat) (l : bytes) : nat :=
  match l with
  | [] => 0%nat
  | b :: r =>
      if (depth =? 0)%nat then 0%nat
      else
        let next_is_close := match r with c :: _ => c =? "]"%b | [] => false end in
        match (if b =? "\"%b then r else []) with
        | _ :: _ =>
            match r with
            | _ :: r' => S (S (scan_subscript depth r'))
            | [] => 0%nat
            end
        | [] =>
            if (depth =? 1)%nat && (b =? "["%b) && next_is_close then S (scan_subscript depth r)
            else if (depth =? 1)%nat && (b =? "]"%b) && next_is_close
            then S (scan_subscript depth r)
            else if b =? "["%b then S (scan_subscript (S depth) r)
            else if b =? "]"%b then S (scan_subscript (depth - 1) r)
            else S (scan_subscript depth r)
        end
  end.

Definition three_char_toks : list (Z * Z * Z * Tok.t) :=
  [("*"%b, "*"%b, "="%b, Tok.StarStarEq); ("<"%b, "<"%b, "="%b, Tok.ShlEq);
   (">"%b, ">"%b, "="%b, Tok.ShrEq)].

Definition two_char_toks : list (Z * Z * Tok.t) :=
  [("*"%b, "*"%b, Tok.StarStar); ("<"%b, "<"%b, Tok.Shl); (">"%b, ">"%b, Tok.Shr);
   ("<"%b, "="%b, Tok.Le); (">"%b, "="%b, Tok.Ge); ("="%b, "="%b, Tok.EqEq); ("!"%b, "="%b, Tok.BangEq);
   ("&"%b, "&"%b, Tok.AmpAmp); ("|"%b, "|"%b, Tok.PipePipe); ("+"%b, "="%b, Tok.PlusEq);
   ("-"%b, "="%b, Tok.MinusEq); ("*"%b, "="%b, Tok.StarEq); ("/"%b, "="%b, Tok.SlashEq);
   ("%"%b, "="%b, Tok.PercentEq); ("&"%b, "="%b, Tok.AmpEq); ("|"%b, "="%b, Tok.PipeEq);
   ("^"%b, "="%b, Tok.CaretEq); ("+"%b, "+"%b, Tok.PlusPlus); ("-"%b, "-"%b, Tok.MinusMinus)].

Definition one_char_toks : list (Z * Tok.t) :=
  [("+"%b, Tok.Plus); ("-"%b, Tok.Minus); ("*"%b, Tok.Star); ("/"%b, Tok.Slash); ("%"%b, Tok.Percent);
   ("("%b, Tok.LParen); (")"%b, Tok.RParen); ("!"%b, Tok.Bang); ("~"%b, Tok.Tilde); ("<"%b, Tok.Lt);
   (">"%b, Tok.Gt); ("="%b, Tok.Eq); ("&"%b, Tok.Amp); ("|"%b, Tok.Pipe); ("^"%b, Tok.Caret);
   ("?"%b, Tok.Question); (":"%b, Tok.Colon); (","%b, Tok.Comma)].

Fixpoint find_map {A B} (f : A -> option B) (l : list A) : option B :=
  match l with
  | [] => None
  | x :: l => match f x with Some y => Some y | None => find_map f l end
  end.

(** The operator at [b c d] (0 stands for a byte past the end), longest match
    first, with its width. *)
Definition operator_tok (b c d : Z) : option (Tok.t * nat) :=
  match find_map (fun '(x, y, z, t) =>
          if (b =? x) && (c =? y) && (d =? z) then Some t else None) three_char_toks with
  | Some t => Some (t, 3%nat)
  | None =>
      match find_map (fun '(x, y, t) =>
              if (b =? x) && (c =? y) then Some t else None) two_char_toks with
      | Some t => Some (t, 2%nat)
      | None =>
          match find_map (fun '(x, t) => if b =? x then Some t else None) one_char_toks with
          | Some t => Some (t, 1%nat)
          | None => None
          end
      end
  end.

Definition lex_number (src : bytes) (i : nat) : Res ExpandError (Tok.t * nat) :=
  let n := scan_while is_number_byte (drop i src) in
  match parse_number (slice src i (i + n)) with
  | Ok v => Ok (Tok.Num v, (i + n)%nat)
  | Err e => Err e
  | Fuel => Fuel
  end.

Definition advance (l : Lexer) : Res ExpandError Lexer :=
  let src := src l in
  let i := (i l + scan_while is_ascii_whitespace (drop (i l) src))%nat in
  match drop i src with
  | [] => Ok (mkLexer src i Tok.Eof i i)
  | b :: rest =>
      if is_ascii_digit b then
        match lex_number src i with
        | Ok (t, j) => Ok (mkLexer src j t i j)
        | Err e => Err e
        | Fuel => Fuel
        end
      else if is_ident_start b then
        let j := (i + scan_while is_ident_byte (b :: rest))%nat in
        let j := match drop j src with
                 | "["%b :: sub => (j + 1 + scan_subscript 1 sub)%nat
                 | _ => j
                 end in
        Ok (mkLexer src j (Tok.Ident (slice src i j)) i j)
      else
        let c := match rest with c :: _ => c | [] => 0 end in
        let d := match rest with _ :: d :: _ => d | _ => 0 end in
        match operator_tok b c d with
        | Some (tok, adv) => Ok (mkLexer src (i + adv) tok i (i + adv))
        | None =>
            if (b =? "["%b) || (b =? "]"%b) || (b =? "\"%b)
            then Err (arith_invalid_operator src i)
            else Err (arith_operand_expected src i)
        end
  end.

Definition Lexer_new (src : bytes) : Res ExpandError Lexer :=
  advance (mkLexer src 0 Tok.Eof 0 0).

Definition consume_first_char_of_double_operator (l : Lexer) : Res ExpandError Lexer :=
  advance (mkLexer (src l) (tok_end l - 1) (cur l) (tok_start l) (tok_end l)).
