(* ===== verification/ArithEval.v ===== *)
(** The arithmetic evaluator of crates/expander/src/arith.rs: the recursive
    descent over the operator precedences, assignment and increment of
    variables and array elements, and the recursive evaluation of variable
    values, as state-passing functions over the expansion context. *)
From stdpp Require Import base list.
From S2P Require Import Prelude Env ArithLex.

(** * The evaluation context and its monad *)

(** The fields of [ExpCtx] the evaluator reads or writes, and the thread-local
    [VALUE_RECURSION_DEPTH].  [env] stands for the [Environment] together with
    the rest of the context that only expansion of subscripts can reach. *)
Record Ctx (E : Type) := mkCtx {
  env : E;
  arith_depth : Z;
  arith_expand_subscripts : bool;
  eval_unbound_error : bool;
  value_depth : Z;
}.
Arguments mkCtx {E}.
Arguments env {E}.
Arguments arith_depth {E}.
Arguments arith_expand_subscripts {E}.
Arguments eval_unbound_error {E}.
Arguments value_depth {E}.

Definition with_env {E} (c : Ctx E) (e : E) : Ctx E :=
  mkCtx e (arith_depth c) (arith_expand_subscripts c) (eval_unbound_error c) (value_depth c).
Definition with_arith_depth {E} (c : Ctx E) (d : Z) : Ctx E :=
  mkCtx (env c) d (arith_expand_subscripts c) (eval_unbound_error c) (value_depth c).
Definition with_expand_subscripts {E} (c : Ctx E) (b : bool) : Ctx E :=
  mkCtx (env c) (arith_depth c) b (eval_unbound_error c) (value_depth c).
Definition with_value_depth {E} (c : Ctx E) (d : Z) : Ctx E :=
  mkCtx (env c) (arith_depth c) (arith_expand_subscripts c) (eval_unbound_error c) d.

(** [MAX_ARITH_NESTING] (crates/expander/src/ctx.rs). *)
Definition MAX_ARITH_NESTING : Z := 64.

(** A computation that reads and writes the context and may fail; the context
    keeps its changes when it fails, as a [&mut] does. *)
Definition M (E A : Type) : Type := Ctx E -> Res ExpandError A * Ctx E.

Definition ret {E A} (a : A) : M E A := fun c => (Ok a, c).
Definition err {E A} (e : ExpandError) : M E A := fun c => (Err e, c).
Definition out_of_fuel {E A} : M E A := fun c => (Fuel, c).
Definition lift {E A} (r : Res ExpandError A) : M E A := fun c => (r, c).

(** The [?] operator. *)
Definition bind {E A B} (m : M E A) (k : A -> M E B) : M E B := fun c =>
  match m c with
  | (Ok a, c') => k a c'
  | (Err e, c') => (Err e, c')
  | (Fuel, c') => (Fuel, c')
  end.

Declare Scope arith_scope.
Delimit Scope arith_scope with arith.
Notation "'let!' x := m 'in' k" := (bind m (fun x => k))
  (at level 10, x pattern, m at level 100, k at level 200) : arith_scope.
Notation "m ;;; k" := (bind m (fun _ => k))
  (at level 100, right associativity) : arith_scope.
Open Scope arith_scope.

(** A [while] or [loop]: [body] yields [inl] to go round again and [inr] to
    leave.  [n] bounds the number of rounds. *)
Fixpoint loop {E S A} (n : nat) (body : S -> M E (S + A)) (s : S) : M E A :=
  match n with
  | O => out_of_fuel
  | Datatypes.S n =>
      let! r := body s in
      match r with
      | inl s => loop n body s
      | inr a => ret a
      end
  end.

(** * Pure pieces *)

Inductive LValue :=
| Scalar (name : bytes)
| Indexed (name : bytes) (index : Z)
| Assoc (name key : bytes).

Inductive LoadedValue :=
| Parsed (v : Z)
| Recurse (s : bytes).

Definition is_arith_identifier (value : bytes) : bool :=
  match value with
  | c :: chars => is_ident_start c && forallb is_ident_byte chars
  | [] => false
  end.

Definition array_ref_parts (name : bytes) : option (bytes * bytes) :=
  match find_byte "["%b name with
  | None => None
  | Some bracket =>
      if negb (ends_with (bs "]") name) then None
      else
        let base := take bracket name in
        if negb (is_arith_identifier base) then None
        else Some (base, slice name (bracket + 1) (length name - 1))
  end.

Fixpoint unescape_assoc_subscript (s : bytes) : bytes :=
  match s with
  | [] => []
  | ch :: rest =>
      if ch =? "\"%b then
        match rest with
        | next :: rest => next :: unescape_assoc_subscript rest
        | [] => [ch]
        end
      else ch :: unescape_assoc_subscript rest
  end.

(** [bytes[i] as char] pushed to a [String]: Latin-1, encoded as UTF-8. *)
Definition push_latin1 (b : Z) : bytes :=
  if b <? 128 then [b] else [Z.lor 192 (Z.shiftr b 6); Z.lor 128 (Z.land b 63)].

(** The bytes between the quotes, a backslash that is not the last of them
    removed together with its effect. *)
Fixpoint strip_loop (inner : bytes) : bytes :=
  match inner with
  | [] => []
  | b :: rest =>
      if b =? "\"%b then
        match rest with
        | c :: rest => push_latin1 c ++ strip_loop rest
        | [] => push_latin1 b
        end
      else push_latin1 b ++ strip_loop rest
  end.

Definition strip_arith_subscript_double_quotes (value : bytes) : option bytes :=
  match value with
  | first :: _ :: _ =>
      if negb (first =? dquote) || negb (ends_with [dquote] value) then None
      else Some (strip_loop (slice value 1 (length value - 1)))
  | _ => None
  end.

Definition assignment_opcode (tok : Tok.t) : option Z :=
  match tok with
  | Tok.Eq => Some 0
  | Tok.PlusEq => Some 1
  | Tok.MinusEq => Some 2
  | Tok.StarEq => Some 3
  | Tok.SlashEq => Some 4
  | Tok.PercentEq => Some 5
  | Tok.StarStarEq => Some 6
  | Tok.AmpEq => Some 7
  | Tok.PipeEq => Some 8
  | Tok.CaretEq => Some 9
  | Tok.ShlEq => Some 10
  | Tok.ShrEq => Some 11
  | _ => None
  end.

(** The loop of [pow_i64]; [exp] is a [u64], so 64 rounds exhaust it. *)
Fixpoint pow_loop (n : nat) (result base exp : Z) : Z :=
  match n with
  | O => result
  | S n =>
      if 0 <? exp then
        let result := if Z.land exp 1 =? 1 then wrapping_mul result base else result in
        let exp := Z.shiftr exp 1 in
        let base := if 0 <? exp then wrapping_mul base base else base in
        pow_loop n result base exp
      else result
  end.

Definition pow_i64 (b e : Z) : Z := if e <? 0 then 0 else pow_loop 64 1 b e.

(** [(rhs as u32) & 63] *)
Definition shift_count (rhs : Z) : Z := Z.land (u32 rhs) 63.

Definition assigned_value (opcode lhs rhs : Z) : Res ExpandError Z :=
  match opcode with
  | 0 => Ok rhs
  | 1 => Ok (wrapping_add lhs rhs)
  | 2 => Ok (wrapping_sub lhs rhs)
  | 3 => Ok (wrapping_mul lhs rhs)
  | 4 => if rhs =? 0 then Err DivisionByZero else Ok (wrapping_div lhs rhs)
  | 5 => if rhs =? 0 then Err DivisionByZero else Ok (wrapping_rem lhs rhs)
  | 6 => Ok (pow_i64 lhs rhs)
  | 7 => Ok (Z.land lhs rhs)
  | 8 => Ok (Z.lor lhs rhs)
  | 9 => Ok (Z.lxor lhs rhs)
  | 10 => Ok (wrapping_shl lhs (shift_count rhs))
  | _ => Ok (wrapping_shr lhs (shift_count rhs))
  end.

Definition parse_plain_value (s : bytes) : option Z :=
  let trimmed := trim s in
  if is_nil trimmed then Some 0
  else match parse_i64 trimmed with
       | Some n => Some n
       | None => match parse_number trimmed with Ok n => Some n | _ => None end
       end.

Definition prepare_loaded_value (value : bytes) : LoadedValue :=
  match parse_plain_value value with
  | Some v => Parsed v
  | None => Recurse value
  end.

Definition prefix_postfix_lvalue_error (expr : bytes) : option ExpandError :=
  let trimmed := trim expr in
  let error (suffix : bytes) :=
    let name := slice trimmed 2 (length trimmed - 2) in
    if negb (is_arith_identifier name) then None
    else Some (token_error trimmed (bs " : " ++ suffix ++ bs ": assignment requires lvalue")
                 (suffix ++ bs " ")) in
  if starts_with (bs "--") trimmed && ends_with (bs "++") trimmed then error (bs "++")
  else if starts_with (bs "++") trimmed && ends_with (bs "--") trimmed then error (bs "--")
  else None.

Definition inc_dec_sign (tok : Tok.t) : Z :=
  match tok with
  | Tok.PlusPlus => 1
  | Tok.MinusMinus => -1
  | _ => 0
  end.

(** * The evaluator

    [expand] stands for [expand_arith_string_to_string_impl], the word
    expansion of an array subscript. *)

Section Eval.
Context {E : Type} `{Environment E}.
Variable expand : bytes -> M E bytes.

(** A parsing function: lexer state and [active] flag to a value and the
    lexer state after it. *)
Definition PFun : Type := Lexer -> bool -> M E (Z * Lexer).

(** The back edges of the mutual recursion.  Every function below takes the
    record [r] of the functions it may call recursively; [knot] ties it, with
    one unit of fuel per recursive call. *)
Record Rec := mkRec {
  fuel : nat;
  r_comma : PFun;
  r_assign : PFun;
  r_ternary : PFun;
  r_power : PFun;
  r_unary : PFun;
  r_resolve : bytes -> M E LValue;
  r_value : bytes -> Z -> M E Z;
}.

Implicit Types r : Rec.

Definition when_active (active : bool) (v : Z) : Z := if active then v else 0.

(** Reading the environment through [&self]. *)
Definition get_cow (name : bytes) : M E (option bytes) := fun c =>
  let '(v, e) := env_get (env c) name in (Ok v, with_env c e).
Definition get_array_indexed_cow (name : bytes) (index : Z) : M E (option bytes) := fun c =>
  let '(v, e) := env_get_array_indexed (env c) name index in (Ok v, with_env c e).
Definition get_array_assoc_cow (name key : bytes) : M E (option bytes) := fun c =>
  let '(v, e) := env_get_array_assoc (env c) name key in (Ok v, with_env c e).
Definition asks {A} (f : Ctx E -> A) : M E A := fun c => (Ok (f c), c).

(** ** Array subscripts and lvalues *)

Definition eval_array_index r (subscript : bytes) : M E Z :=
  let! aes := asks arith_expand_subscripts in
  let! once := asks (fun c => env_option (env c) (bs "assoc_expand_once")) in
  let! expanded := (if aes && negb once then expand subscript else ret subscript) in
  if is_nil (trim expanded) then ret 0
  else
    let! aes := asks arith_expand_subscripts in
    let blank_quotes :=
      negb aes &&
      match strip_arith_subscript_double_quotes expanded with
      | Some unquoted => is_nil (trim unquoted)
      | None => false
      end in
    if blank_quotes then ret 0
    else
      match find_sub ["\"%b; "]"%b] expanded with
      | Some pos =>
          err (token_error expanded
                 (bs ": arithmetic syntax error: invalid arithmetic operator")
                 (quote_error_token (drop pos expanded)))
      | None => fun c =>
          let prev := arith_expand_subscripts c in
          let '(result, c) :=
            (let! sub_lex := lift (Lexer_new expanded) in
             let! (idx, sub_lex) := r_comma r sub_lex true in
             if negb (tok_eqb (cur sub_lex) Tok.Eof) then
               err (arith_syntax_error_in_expression (src sub_lex) (tok_start sub_lex))
             else ret idx) (with_expand_subscripts c false) in
          (result, with_expand_subscripts c prev)
      end.

(** The target to follow instead of [name] when it is a nameref. *)
Definition follow_nameref (e : E) (name : bytes) : option bytes :=
  match array_ref_parts name with
  | None =>
      if env_attr_nameref e name then
        match env_resolve_nameref e name with
        | Some target => if bytes_eqb target name then None else Some target
        | None => None
        end
      else None
  | Some _ => None
  end.

Definition resolve_lvalue r (name : bytes) : M E LValue :=
  let! e := asks env in
  match follow_nameref e name with
  | Some target => r_resolve r target
  | None =>
      match array_ref_parts name with
      | Some (base, subscript) =>
          if bool_decide (env_kind e base = KAssoc) then
            ret (Assoc base (unescape_assoc_subscript subscript))
          else if is_nil subscript then err (InvalidArraySubscript (base ++ bs "[]"))
          else
            let! index := eval_array_index r subscript in
            ret (Indexed base index)
      | None => ret (Scalar name)
      end
  end.

(** ** Loading values *)

Definition finish_loaded_value r (value : LoadedValue) (depth : Z) : M E Z :=
  match value with
  | Parsed v => ret v
  | Recurse s => r_value r s depth
  end.

(** The value of an unset variable: 0, or an error under [nounset]. *)
Definition unset_value (name : bytes) : M E Z :=
  let! unbound := asks eval_unbound_error in
  if unbound then err (UnboundVariable name) else ret 0.

Definition load_lvalue_value r (lvalue : LValue) : M E Z :=
  match lvalue with
  | Scalar name =>
      let! v := get_cow name in
      match v with
      | Some v => finish_loaded_value r (prepare_loaded_value v) 0
      | None => unset_value name
      end
  | Indexed name index =>
      let! v := get_array_indexed_cow name index in
      match v with
      | Some v => finish_loaded_value r (prepare_loaded_value v) 0
      | None =>
          if index =? 0 then
            let! v := get_cow name in
            match v with
            | Some v => finish_loaded_value r (prepare_loaded_value v) 0
            | None =>
                let! k := asks (fun c => env_kind (env c) name) in
                if bool_decide (k = KIndexed) then ret 0 else unset_value name
            end
          else
            let! k := asks (fun c => env_kind (env c) name) in
            if bool_decide (k = KIndexed) then ret 0
            else unset_value (name ++ bs "[" ++ i64_to_string index ++ bs "]")
      end
  | Assoc name key =>
      let! v := get_array_assoc_cow name key in
      match v with
      | Some v => finish_loaded_value r (prepare_loaded_value v) 0
      | None => ret 0
      end
  end.

Definition load_ident_value r (name : bytes) : M E Z :=
  match array_ref_parts name with
  | Some _ =>
      let! lvalue := resolve_lvalue r name in
      load_lvalue_value r lvalue
  | None =>
      let! v := get_cow name in
      match v with
      | Some v => finish_loaded_value r (prepare_loaded_value v) 0
      | None => unset_value name
      end
  end.

(** [ValueRecursionGuard]: entering fails at the limit, leaving decrements
    whatever the outcome. *)
Definition with_guard {A} (e : ExpandError) (m : M E A) : M E A := fun c =>
  if MAX_ARITH_NESTING <=? value_depth c then (Err e, c)
  else
    let '(result, c) := m (with_value_depth c (value_depth c + 1)) in
    (result, with_value_depth c (Z.max 0 (value_depth c - 1))).

Definition looks_like_identifier (trimmed : bytes) : bool :=
  match trimmed with
  | c :: _ => is_ascii_alphabetic c || (c =? "_"%b)
  | [] => false
  end
  && forallb (fun c => is_ascii_alphanumeric c || (c =? "_"%b) || (c =? "["%b) || (c =? "]"%b))
       trimmed.

Definition parse_value_recursive r (s : bytes) (depth : Z) : M E Z :=
  let trimmed := trim s in
  if MAX_ARITH_NESTING <? depth then err (arith_recursion_error trimmed)
  else with_guard (arith_recursion_error trimmed) (
    if is_nil trimmed then ret 0
    else match parse_i64 trimmed with
    | Some n => ret n
    | None =>
    match parse_number trimmed with
    | Ok n => ret n
    | _ =>
    match array_ref_parts trimmed with
    | Some _ =>
        let! lvalue := resolve_lvalue r trimmed in
        load_lvalue_value r lvalue
    | None =>
        if looks_like_identifier trimmed then
          let! v := get_cow trimmed in
          match v with
          | Some v =>
              if bytes_eqb (trim v) trimmed then err (arith_recursion_error trimmed)
              else if negb (bytes_eqb v s) then
                finish_loaded_value r (prepare_loaded_value v) (depth + 1)
              else ret 0
          | None => ret 0
          end
        else fun c =>
          let prev := arith_expand_subscripts c in
          let '(result, c) :=
            (let! lex := lift (Lexer_new (trim_start s)) in
             let! (v, _) := r_comma r lex true in
             ret v) (with_expand_subscripts c true) in
          (result, with_expand_subscripts c prev)
    end end end).

(** ** Storing values *)

Definition assign_error (e : AssignError) : ExpandError :=
  match e with
  | ReadOnly name => AssignToReadonly name
  | InvalidInteger value => ArithSyntax (value ++ bs ": invalid integer")
  | InvalidName name => ArithSyntax (bs "`" ++ name ++ bs "': not a valid identifier")
  | BadArraySubscript name => InvalidArraySubscript name
  | CircularNameReference name => ArithSyntax (name ++ bs ": circular name reference")
  end.

Definition store_scalar_ident_value (name : bytes) (value : Z) : M E unit := fun c =>
  match env_assign (env c) name (i64_to_string value) with
  | (None, e) => (Ok tt, with_env c e)
  | (Some x, e) => (Err (assign_error x), with_env c e)
  end.

Definition store_lvalue_value (lvalue : LValue) (value : Z) : M E unit :=
  match lvalue with
  | Scalar name => store_scalar_ident_value name value
  | Indexed name index => fun c =>
      if env_is_readonly (env c) name then (Err (AssignToReadonly name), c)
      else (Ok tt, with_env c (env_set_array_indexed (env c) name index (i64_to_string value)))
  | Assoc name key => fun c =>
      if env_is_readonly (env c) name then (Err (AssignToReadonly name), c)
      else (Ok tt, with_env c (env_set_array_assoc (env c) name key (i64_to_string value)))
  end.

Definition store_ident_value r (name : bytes) (value : Z) : M E unit :=
  let! lvalue := resolve_lvalue r name in
  store_lvalue_value lvalue value.

(** [Some(resolve_lvalue(name)?)] when active, and the value it holds. *)
Definition active_lvalue r (name : bytes) (active : bool) : M E (option LValue * Z) :=
  if active then
    let! lvalue := resolve_lvalue r name in
    let! v := load_lvalue_value r lvalue in
    ret (Some lvalue, v)
  else ret (None, 0).

(** ** Primary, postfix and unary expressions *)

Definition parse_primary r (lex : Lexer) (active : bool) : M E (Z * Lexer) :=
  match cur lex with
  | Tok.Num n =>
      let! lex := lift (advance lex) in
      ret (when_active active n, lex)
  | Tok.Ident name =>
      let! lex := lift (advance lex) in
      if active then
        let! v := load_ident_value r name in
        ret (v, lex)
      else ret (0, lex)
  | Tok.LParen =>
      let! lex := lift (advance lex) in
      let! (v, lex) := r_comma r lex active in
      if negb (tok_eqb (cur lex) Tok.RParen) then
        err (arith_missing_rparen (src lex) (tok_start lex))
      else
        let! lex := lift (advance lex) in
        ret (when_active active v, lex)
  | _ => err (arith_operand_expected (src lex) (tok_start lex))
  end.

(** [store_lvalue_value(env, lvalue.expect("active lvalue"), v)] if active. *)
Definition store_active (lvalue : option LValue) (v : Z) : M E unit :=
  match lvalue with
  | Some lvalue => store_lvalue_value lvalue v
  | None => ret tt
  end.

Definition parse_postfix r (lex : Lexer) (active : bool) : M E (Z * Lexer) :=
  match cur lex with
  | Tok.Ident nm =>
      let! (lvalue, v) := active_lvalue r nm active in
      let! lex := lift (advance lex) in
      match cur lex with
      | Tok.PlusPlus =>
          let! lex := lift (advance lex) in
          store_active lvalue (wrapping_add v 1) ;;;
          ret (v, lex)
      | Tok.MinusMinus =>
          let! lex := lift (advance lex) in
          store_active lvalue (wrapping_sub v 1) ;;;
          ret (v, lex)
      | _ => ret (v, lex)
      end
  | _ => parse_primary r lex active
  end.

Definition prefix_inc_dec_target_name r (lex : Lexer) (prev_end : nat) (sign : Z)
  : M E (option bytes * Lexer) :=
  loop (fuel r) (fun '(lex, prev_end) =>
    match cur lex with
    | Tok.Ident name => ret (inr (Some name, lex))
    | Tok.Plus | Tok.PlusPlus =>
        if (sign =? 1) && (tok_start lex =? prev_end)%nat then
          let prev_end := tok_end lex in
          let! lex := lift (advance lex) in
          ret (inl (lex, prev_end))
        else ret (inr (None, lex))
    | Tok.Minus | Tok.MinusMinus =>
        if (sign =? -1) && (tok_start lex =? prev_end)%nat then
          let prev_end := tok_end lex in
          let! lex := lift (advance lex) in
          ret (inl (lex, prev_end))
        else ret (inr (None, lex))
    | _ => ret (inr (None, lex))
    end) (lex, prev_end).

Definition prefix_inc_dec_has_target r (lex : Lexer) : M E bool :=
  let prefix_end := tok_end lex in
  let! lookahead := lift (advance lex) in
  let! (name, _) := prefix_inc_dec_target_name r lookahead prefix_end (inc_dec_sign (cur lex)) in
  ret (match name with Some _ => true | None => false end).

Definition apply_pre r (lex : Lexer) (delta : Z) (active : bool) (prefix_end : nat)
  : M E (Z * Lexer) :=
  let! (name, lex) := prefix_inc_dec_target_name r lex prefix_end delta in
  match name with
  | Some nm =>
      let! lex := lift (advance lex) in
      let! (lvalue, v) := active_lvalue r nm active in
      let new := if active then wrapping_add v delta else 0 in
      store_active lvalue new ;;;
      ret (new, lex)
  | None => err (ArithSyntax (bs "++/-- requires identifier"))
  end.

(** The common part of the unary [+ - ! ~] cases: the operand must exist. *)
Definition unary_operand r (lex : Lexer) (active : bool) : M E (Z * Lexer) :=
  let op_start := tok_start lex in
  let! lex := lift (advance lex) in
  if tok_eqb (cur lex) Tok.Eof then err (arith_operand_expected (src lex) op_start)
  else r_unary r lex active.

Definition parse_unary r (lex : Lexer) (active : bool) : M E (Z * Lexer) :=
  match cur lex with
  | Tok.Plus => unary_operand r lex active
  | Tok.Minus =>
      let! (v, lex) := unary_operand r lex active in
      ret (when_active active (wrapping_neg v), lex)
  | Tok.Bang =>
      let! (v, lex) := unary_operand r lex active in
      ret (when_active active (b2z (v =? 0)), lex)
  | Tok.Tilde =>
      let! (v, lex) := unary_operand r lex active in
      ret (when_active active (Z.lnot v), lex)
  | Tok.PlusPlus =>
      let! has_target := prefix_inc_dec_has_target r lex in
      if has_target then
        let prefix_end := tok_end lex in
        let! lex := lift (advance lex) in
        apply_pre r lex 1 active prefix_end
      else
        let! lex := lift (consume_first_char_of_double_operator lex) in
        r_unary r lex active
  | Tok.MinusMinus =>
      let! has_target := prefix_inc_dec_has_target r lex in
      if has_target then
        let prefix_end := tok_end lex in
        let! lex := lift (advance lex) in
        apply_pre r lex (-1) active prefix_end
      else
        let! lex := lift (consume_first_char_of_double_operator lex) in
        let! (v, lex) := r_unary r lex active in
        ret (when_active active (wrapping_neg v), lex)
  | _ => parse_postfix r lex active
  end.

(** ** Binary operators, tightest first *)

Definition parse_power r (lex : Lexer) (active : bool) : M E (Z * Lexer) :=
  let! (base, lex) := parse_unary r lex active in
  if tok_eqb (cur lex) Tok.StarStar then
    let exp_start := Nat.min (tok_end lex) (length (src lex)) in
    let! lex := lift (advance lex) in
    let! (exp, lex) := r_power r lex active in
    if active && (exp <? 0) then
      let token_start :=
        match drop exp_start (src lex) with
        | "-"%b :: _ => S exp_start
        | _ => exp_start
        end in
      err (token_error (arith_expr_from (src lex) 0) (bs ": exponent less than 0")
             (quote_error_token (arith_expr_from (src lex) token_start)))
    else ret (if active then pow_i64 base exp else 0, lex)
  else ret (when_active active base, lex).

(** Continue a left-associative loop with the value [v], which only counts
    when active; or leave it. *)
Definition again (active : bool) (old new : Z) (lex : Lexer) : M E ((Z * Lexer) + (Z * Lexer)) :=
  ret (inl (if active then new else old, lex)).
Definition leave (v : Z) (lex : Lexer) : M E ((Z * Lexer) + (Z * Lexer)) := ret (inr (v, lex)).

Definition parse_mul r (lex : Lexer) (active : bool) : M E (Z * Lexer) :=
  let! (v, lex) := parse_power r lex active in
  let! (v, lex) := loop (fuel r) (fun '(v, lex) =>
    match cur lex with
    | Tok.Star =>
        let op_start := tok_start lex in
        let! lex := lift (advance lex) in
        lift (arith_rhs_expected lex op_start) ;;;
        let! (x, lex) := parse_power r lex active in
        again active v (wrapping_mul v x) lex
    | Tok.Slash =>
        let op_start := tok_start lex in
        let! lex := lift (advance lex) in
        lift (arith_rhs_expected lex op_start) ;;;
        let rhs_start := tok_start lex in
        let! (x, lex) := parse_power r lex active in
        if active && (x =? 0) then err (arith_division_by_zero (src lex) rhs_start)
        else again active v (wrapping_div v x) lex
    | Tok.Percent =>
        let op_start := tok_start lex in
        let! lex := lift (advance lex) in
        lift (arith_rhs_expected lex op_start) ;;;
        let rhs_start := tok_start lex in
        let! (x, lex) := parse_power r lex active in
        if active && (x =? 0) then err (arith_division_by_zero (src lex) rhs_start)
        else again active v (wrapping_rem v x) lex
    | _ => leave v lex
    end) (v, lex) in
  ret (when_active active v, lex).

Definition parse_add r (lex : Lexer) (active : bool) : M E (Z * Lexer) :=
  let! (v, lex) := parse_mul r lex active in
  let! (v, lex) := loop (fuel r) (fun '(v, lex) =>
    match cur lex with
    | Tok.Plus =>
        let op_start := tok_start lex in
        let! lex := lift (advance lex) in
        lift (arith_rhs_expected lex op_start) ;;;
        let! (x, lex) := parse_mul r lex active in
        again active v (wrapping_add v x) lex
    | Tok.PlusPlus =>
        if (tok_end lex =? length (src lex))%nat
           && starts_with (bs "--") (trim_start (arith_expr_from (src lex) 0)) then
          err (token_error (arith_expr_from (src lex) 0)
                 (bs ": ++: assignment requires lvalue") (bs "++ "))
        else
          let! lex := lift (consume_first_char_of_double_operator lex) in
          let! (x, lex) := parse_mul r lex active in
          again active v (wrapping_add v x) lex
    | Tok.Minus =>
        let op_start := tok_start lex in
        let! lex := lift (advance lex) in
        lift (arith_rhs_expected lex op_start) ;;;
        let! (x, lex) := parse_mul r lex active in
        again active v (wrapping_sub v x) lex
    | Tok.MinusMinus =>
        let! lex := lift (consume_first_char_of_double_operator lex) in
        let! (x, lex) := parse_mul r lex active in
        again active v (wrapping_sub v x) lex
    | _ => leave v lex
    end) (v, lex) in
  ret (when_active active v, lex).

(** The remaining left-associative levels share their loop: the token selects
    how the two operands combine, and the right operand may be parsed
    inactive ([rhs_active]). *)
Definition binary_level r (sub : PFun) (op : Tok.t -> option (Z -> Z -> Z))
    (rhs_active : bool -> Z -> bool) (lex : Lexer) (active : bool) : M E (Z * Lexer) :=
  let! (v, lex) := sub lex active in
  let! (v, lex) := loop (fuel r) (fun '(v, lex) =>
    match op (cur lex) with
    | Some f =>
        let! lex := lift (advance lex) in
        let! (x, lex) := sub lex (rhs_active active v) in
        again active v (f v x) lex
    | None => leave v lex
    end) (v, lex) in
  ret (when_active active v, lex).

Definition same_active (active : bool) (v : Z) : bool := active.

Definition parse_shift r : PFun := binary_level r (parse_add r) (fun t =>
  match t with
  | Tok.Shl => Some (fun v x => wrapping_shl v (shift_count x))
  | Tok.Shr => Some (fun v x => wrapping_shr v (shift_count x))
  | _ => None
  end) same_active.

Definition parse_relate r : PFun := binary_level r (parse_shift r) (fun t =>
  match t with
  | Tok.Lt => Some (fun v x => b2z (v <? x))
  | Tok.Le => Some (fun v x => b2z (v <=? x))
  | Tok.Gt => Some (fun v x => b2z (x <? v))
  | Tok.Ge => Some (fun v x => b2z (x <=? v))
  | _ => None
  end) same_active.

Definition parse_equality r : PFun := binary_level r (parse_relate r) (fun t =>
  match t with
  | Tok.EqEq => Some (fun v x => b2z (v =? x))
  | Tok.BangEq => Some (fun v x => b2z (negb (v =? x)))
  | _ => None
  end) same_active.

Definition parse_bitand r : PFun := binary_level r (parse_equality r) (fun t =>
  match t with Tok.Amp => Some Z.land | _ => None end) same_active.

Definition parse_bitxor r : PFun := binary_level r (parse_bitand r) (fun t =>
  match t with Tok.Caret => Some Z.lxor | _ => None end) same_active.

Definition parse_bitor r : PFun := binary_level r (parse_bitxor r) (fun t =>
  match t with Tok.Pipe => Some Z.lor | _ => None end) same_active.

Definition parse_logand r : PFun := binary_level r (parse_bitor r) (fun t =>
  match t with
  | Tok.AmpAmp => Some (fun v x => b2z (negb (v =? 0) && negb (x =? 0)))
  | _ => None
  end) (fun active v => active && negb (v =? 0)).

Definition parse_logor r : PFun := binary_level r (parse_logand r) (fun t =>
  match t with
  | Tok.PipePipe => Some (fun v x => b2z (negb (v =? 0) || negb (x =? 0)))
  | _ => None
  end) (fun active v => active && (v =? 0)).

(** ** Conditional, assignment and comma *)

Definition parse_ternary r (lex : Lexer) (active : bool) : M E (Z * Lexer) :=
  let! (cond, lex) := parse_logor r lex active in
  if tok_eqb (cur lex) Tok.Question then
    let! lex := lift (advance lex) in
    let true_start := tok_start lex in
    if tok_eqb (cur lex) Tok.Colon then
      err (arith_expression_expected (src lex) (tok_start lex))
    else
      let! (t, lex) := r_comma r lex (active && negb (cond =? 0)) in
      if negb (tok_eqb (cur lex) Tok.Colon) then
        err (arith_conditional_colon_expected (src lex) true_start)
      else
        let colon_start := tok_start lex in
        let! lex := lift (advance lex) in
        if tok_eqb (cur lex) Tok.Eof then
          err (arith_expression_expected (src lex) colon_start)
        else
          let! (f, lex) := r_ternary r lex (active && (cond =? 0)) in
          ret (if negb active then 0 else if negb (cond =? 0) then t else f, lex)
  else ret (when_active active cond, lex).

Definition parse_assign r (lex : Lexer) (active : bool) : M E (Z * Lexer) :=
  let plain :=
    let! (v, lex) := parse_ternary r lex active in
    ret (when_active active v, lex) in
  match cur lex with
  | Tok.Ident name =>
      let! lookahead := lift (advance lex) in
      match assignment_opcode (cur lookahead) with
      | Some opcode =>
          let! lex := lift (advance lex) in
          let! lex := lift (advance lex) in
          let! (precomputed, lhs_val) := active_lvalue r name (active && negb (opcode =? 0)) in
          let rhs_start := tok_start lex in
          let! (rhs, lex) := r_assign r lex active in
          if active && ((opcode =? 4) || (opcode =? 5)) && (rhs =? 0) then
            err (arith_division_by_zero (src lex) rhs_start)
          else
            let! new_val := lift (assigned_value opcode lhs_val rhs) in
            (if active then
               match precomputed with
               | Some lvalue => store_lvalue_value lvalue new_val
               | None => store_ident_value r name new_val
               end
             else ret tt) ;;;
            ret (when_active active new_val, lex)
      | None => plain
      end
  | _ => plain
  end.

Definition parse_comma r (lex : Lexer) (active : bool) : M E (Z * Lexer) :=
  let! (v, lex) := parse_assign r lex active in
  let! (v, lex) := loop (fuel r) (fun '(v, lex) =>
    if tok_eqb (cur lex) Tok.Comma then
      let! lex := lift (advance lex) in
      let! (v, lex) := parse_assign r lex active in
      ret (inl (v, lex))
    else leave v lex) (v, lex) in
  ret (when_active active v, lex).

(** ** Tying the knot, and the entry points *)

Fixpoint knot (n : nat) : Rec :=
  match n with
  | O => mkRec 0 (fun _ _ => out_of_fuel) (fun _ _ => out_of_fuel) (fun _ _ => out_of_fuel)
           (fun _ _ => out_of_fuel) (fun _ _ => out_of_fuel) (fun _ => out_of_fuel)
           (fun _ _ => out_of_fuel)
  | S n =>
      let r := knot n in
      mkRec (S n) (parse_comma r) (parse_assign r) (parse_ternary r) (parse_power r)
        (parse_unary r) (resolve_lvalue r) (parse_value_recursive r)
  end.

(** The error for input left over after a complete expression. *)
Definition trailing_error (expr : bytes) (lex : Lexer) : ExpandError :=
  let lvalue_error (op : bytes) :=
    token_error expr (bs ": " ++ op ++ bs ": assignment requires lvalue") (op ++ bs " ") in
  let trimmed := trim_start expr in
  let signed := starts_with (bs "--") trimmed || starts_with (bs "++") trimmed in
  match cur lex with
  | Tok.PlusPlus =>
      if signed then lvalue_error (bs "++")
      else arith_syntax_error_in_expression (src lex) (tok_start lex)
  | Tok.MinusMinus =>
      if signed then lvalue_error (bs "--")
      else arith_syntax_error_in_expression (src lex) (tok_start lex)
  | t =>
      match assignment_opcode t with
      | Some _ => arith_assignment_to_non_variable (src lex) (tok_start lex)
      | None => arith_syntax_error_in_expression (src lex) (tok_start lex)
      end
  end.

Definition u32_max : Z := 4294967295.

Definition eval_inner r (expr : bytes) : M E Z := fun c =>
  if is_nil (trim expr) then (Ok 0, c)
  else match prefix_postfix_lvalue_error expr with
  | Some e => (Err e, c)
  | None =>
      let c := with_arith_depth c (Z.min u32_max (arith_depth c + 1)) in
      if MAX_ARITH_NESTING <? arith_depth c then
        (Err ArithRecursion, with_arith_depth c (arith_depth c - 1))
      else
        let '(result, c) :=
          (let! lex := lift (Lexer_new expr) in
           let! (val, lex) := parse_comma r lex true in
           if negb (tok_eqb (cur lex) Tok.Eof) then err (trailing_error expr lex)
           else ret val) c in
        (result, with_arith_depth c (arith_depth c - 1))
  end.

Definition eval (n : nat) (expr : bytes) : M E Z := eval_inner (knot n) expr.

Definition eval_preexpanded (n : nat) (expr : bytes) : M E Z := fun c =>
  let prev := arith_expand_subscripts c in
  let '(result, c) := eval_inner (knot n) expr (with_expand_subscripts c false) in
  (result, with_expand_subscripts c prev).

End Eval.

(** * The evaluator at work: the cases of the unit tests *)

(** [ExpCtx::new] over the hash-map environment, which has no options set. *)
Definition test_ctx (e : MapEnv.t) : Ctx MapEnv.t := mkCtx e 0 true false 0.

(** Subscript expansion for text with nothing to expand. *)
Definition no_expand (s : bytes) : M MapEnv.t bytes := ret s.

Definition ev (expr : string) (e : MapEnv.t) : option (Z * MapEnv.t) :=
  match eval no_expand 100 (bs expr) (test_ctx e) with
  | (Ok v, c) => Some (v, env c)
  | _ => None
  end.
