(* ===== verification/ArithText.v ===== *)
(** The text of arithmetic tokens and the lexer's round trip: tokens written
    one after the other with white space between them are read back. *)
From stdpp Require Import base list.
From S2P Require Import Prelude Env ArithLex ArithEval.

Definition tok_text (t : Tok.t) : bytes :=
  match t with
  | Tok.Num n => u_to_string n
  | Tok.Ident x => x
  | Tok.Plus => bs "+" | Tok.Minus => bs "-" | Tok.Star => bs "*" | Tok.Slash => bs "/"
  | Tok.Percent => bs "%" | Tok.StarStar => bs "**"
  | Tok.Eq => bs "=" | Tok.PlusEq => bs "+=" | Tok.MinusEq => bs "-=" | Tok.StarEq => bs "*="
  | Tok.SlashEq => bs "/=" | Tok.PercentEq => bs "%=" | Tok.StarStarEq => bs "**="
  | Tok.AmpEq => bs "&=" | Tok.PipeEq => bs "|=" | Tok.CaretEq => bs "^="
  | Tok.ShlEq => bs "<<=" | Tok.ShrEq => bs ">>="
  | Tok.LParen => bs "(" | Tok.RParen => bs ")" | Tok.Bang => bs "!" | Tok.Tilde => bs "~"
  | Tok.AmpAmp => bs "&&" | Tok.PipePipe => bs "||" | Tok.Amp => bs "&" | Tok.Pipe => bs "|"
  | Tok.Caret => bs "^" | Tok.EqEq => bs "==" | Tok.BangEq => bs "!=" | Tok.Lt => bs "<"
  | Tok.Le => bs "<=" | Tok.Gt => bs ">" | Tok.Ge => bs ">=" | Tok.Shl => bs "<<" | Tok.Shr => bs ">>"
  | Tok.Question => bs "?" | Tok.Colon => bs ":" | Tok.Comma => bs ","
  | Tok.PlusPlus => bs "++" | Tok.MinusMinus => bs "--"
  | Tok.Eof => []
  end.

(** Numbers a decimal literal denotes without wrapping, names without a
    subscript. *)
Definition writable (t : Tok.t) : Prop :=
  match t with
  | Tok.Num n => 0 <= n <= i64_max
  | Tok.Ident x => is_arith_identifier x = true
  | Tok.Eof => False
  | _ => True
  end.

(** The tokens, each followed by the white space [sep]. *)
Definition render (sep : bytes) (ts : list Tok.t) : bytes := flat_map (fun t => tok_text t ++ sep) ts.

Definition blank (sep : bytes) : Prop := Forall (fun b => is_ascii_whitespace b = true) sep.

(** The tokens a lexer is about to deliver, the current one first. *)
Inductive stream : Lexer -> list Tok.t -> Prop :=
| stream_end lex : cur lex = Tok.Eof -> stream lex []
| stream_cons lex t ts lex' :
    cur lex = t -> advance lex = Ok lex' -> stream lex' ts -> stream lex (t :: ts).

Lemma stream_cur lex ts : stream lex ts -> cur lex = default Tok.Eof (head ts).
Proof. by destruct 1. Qed.

Lemma stream_next lex t ts :
  stream lex (t :: ts) -> cur lex = t /\ exists lex', advance lex = Ok lex' /\ stream lex' ts.
Proof. inversion 1; subst. eauto. Qed.

(** * Scanning *)

Lemma scan_while_app p (l r : bytes) :
  Forall (fun b => p b = true) l -> match r with b :: _ => p b = false | [] => True end ->
  scan_while p (l ++ r) = length l.
Proof.
  intros Hl Hr. induction Hl as [|b l Hb Hl IH]; simpl.
  - destruct r as [|b r]; [done|]. simpl. by rewrite Hr.
  - by rewrite Hb, IH.
Qed.

Lemma ws_cases b : is_ascii_whitespace b = true -> b = 32 \/ b = 9 \/ b = 10 \/ b = 12 \/ b = 13.
Proof.
  unfold is_ascii_whitespace. rewrite !orb_true_iff, !Z.eqb_eq. tauto.
Qed.

Lemma slice_mid {A} (pre l r : list A) :
  slice (pre ++ l ++ r) (length pre) (length pre + length l) = l.
Proof. unfold slice. rewrite drop_app_length. by rewrite Nat.add_comm, Nat.add_sub, take_app_length. Qed.

Lemma ident_bytes x : is_arith_identifier x = true -> Forall (fun b => is_ident_byte b = true) x.
Proof.
  destruct x as [|b x]; [done|]. simpl. intros [Hb Hx]%andb_true_iff. constructor.
  - unfold is_ident_start, is_ident_byte, is_ascii_alphanumeric in *. by destruct (b =? 95), (is_ascii_alphabetic b).
  - apply Forall_forall. intros y Hy. rewrite forallb_forall in Hx. apply Hx. by apply list_elem_of_In.
Qed.

(** * Numbers *)

Lemma digit_range b : is_ascii_digit b = true -> 48 <= b <= 57.
Proof. unfold is_ascii_digit, in_range. intros H. to_prop. lia. Qed.

Lemma digit_to_digit b : is_ascii_digit b = true -> to_digit b 10 = Some (b - 48).
Proof.
  intros Hb. pose proof (digit_range b Hb). unfold to_digit. rewrite Hb.
  by rewrite (proj2 (Z.ltb_lt _ _)) by lia.
Qed.

Lemma radix_loop_dec ds raw v n :
  Forall (fun b => is_ascii_digit b = true) ds -> 0 <= v -> dec_value v ds = Some n -> n <= i64_max ->
  radix_loop ds 10 raw v = Ok n /\ v <= n.
Proof.
  revert v. induction ds as [|b ds IH]; intros v Hd Hv Hn Hmax; simpl in *.
  - injection Hn as <-. rewrite wrap64_id by (unfold in_i64, i64_min in *; lia). split; [done|lia].
  - inversion Hd as [|? ? Hb Hds]; subst. rewrite Hb in Hn. rewrite digit_to_digit by done.
    pose proof (digit_range b Hb) as Hr.
    assert (Hrun : radix_loop ds 10 raw (v * 10 + (b - 48)) = Ok n /\ v * 10 + (b - 48) <= n)
      by (apply IH; done || lia).
    destruct Hrun as [Hrun Hle]. unfold u64, i64_max in *.
    rewrite (Z.mod_small (v * 10)) by lia. rewrite Z.mod_small by lia. split; [done|lia].
Qed.

Lemma digits_no_byte c ds :
  Forall (fun b => is_ascii_digit b = true) ds -> is_ascii_digit c = false -> find_byte c ds = None.
Proof.
  intros Hd Hc. induction Hd as [|b ds Hb Hd IH]; simpl; [done|].
  destruct (Z.eqb_spec b c) as [->|_]; [congruence|]. by rewrite IH.
Qed.

Lemma parse_number_dec n : 0 <= n <= i64_max -> parse_number (u_to_string n) = Ok n.
Proof.
  intros Hn. destruct (u_to_string_spec n) as (Hne & Hall & Hv); [lia|].
  assert (Hradix : parse_radix_wrapping (u_to_string n) 10 (u_to_string n) = Ok n).
  { unfold parse_radix_wrapping. destruct (radix_loop_dec (u_to_string n) (u_to_string n) 0 n) as [Hl _]; try done; try lia.
    by destruct (u_to_string n). }
  destruct (decide (n = 0)) as [->|Hn0]; [done|].
  destruct (u_to_string_head n) as (d & ds & Heq & Hd); [lia|].
  assert (Hsw : forall p, starts_with (48 :: p) (d :: ds) = false).
  { intros p. cbn [starts_with]. by rewrite (proj2 (Z.eqb_neq 48 d)) by done. }
  unfold parse_number. rewrite digits_no_byte by done. rewrite Heq in *.
  change (bs "0x") with [48; 120]. change (bs "0X") with [48; 88]. change (bs "0") with [48].
  unfold strip_prefix. by rewrite !Hsw, andb_false_r.
Qed.

(** * One token *)

Lemma advance_skip pre w rest lex :
  src lex = pre ++ w ++ rest -> i lex = length pre -> blank w ->
  match rest with b :: _ => is_ascii_whitespace b = false | [] => True end ->
  advance lex = advance (mkLexer (src lex) (length (pre ++ w)) Tok.Eof 0 0).
Proof.
  intros Hs Hi Hw Hr. unfold advance. cbn [ArithLex.src ArithLex.i]. rewrite Hi, Hs.
  rewrite drop_app_length, (scan_while_app _ w rest) by done.
  rewrite (app_assoc pre w rest), drop_app_length.
  assert (scan_while is_ascii_whitespace rest = 0%nat) as ->
    by (destruct rest as [|b rest]; [done|]; simpl; by rewrite Hr).
  by rewrite length_app, Nat.add_0_r.
Qed.

Definition operator (t : Tok.t) : bool :=
  match t with Tok.Num _ | Tok.Ident _ | Tok.Eof => false | _ => true end.

Lemma operator_read t h (rest : bytes) :
  operator t = true -> is_ascii_whitespace h = true ->
  exists b tail, tok_text t ++ h :: rest = b :: tail /\
    is_ascii_whitespace b = false /\ is_ascii_digit b = false /\ is_ident_start b = false /\
    operator_tok b (match tail with c :: _ => c | [] => 0 end) (match tail with _ :: d :: _ => d | _ => 0 end)
    = Some (t, length (tok_text t)).
Proof.
  intros Ht Hh. apply ws_cases in Hh.
  destruct t; try discriminate Ht; eexists _, _; (split; [reflexivity|]); (split; [reflexivity|]);
    (split; [reflexivity|]); (split; [reflexivity|]);
    destruct Hh as [->|[->|[->|[->| ->]]]]; destruct rest; reflexivity.
Qed.

Lemma text_head t h (rest : bytes) :
  writable t -> is_ascii_whitespace h = true ->
  match tok_text t ++ h :: rest with b :: _ => is_ascii_whitespace b = false | [] => True end.
Proof.
  intros Ht Hh. destruct (operator t) eqn:Hop.
  { destruct (operator_read t h rest Hop Hh) as (b & tail & -> & Hb & _). done. }
  destruct t; try discriminate Hop; cbn [tok_text writable] in *; [| |done]; [|rename name into x].
  - destruct (u_to_string_spec n) as (Hne & Hall & _); [lia|]. destruct Hall as [|b ds Hb _]; [done|].
    apply digit_range in Hb. cbn [app]. apply not_true_is_false. intros Hw%ws_cases. lia.
  - destruct x as [|b x]; [done|]. cbn [is_arith_identifier app] in *. apply andb_true_iff in Ht as [Hb _].
    apply not_true_is_false. intros Hw%ws_cases. by destruct Hw as [->|[->|[->|[->| ->]]]].
Qed.

Lemma ws_not_number h : is_ascii_whitespace h = true -> is_number_byte h = false /\ is_ident_byte h = false.
Proof. intros Hh%ws_cases. by destruct Hh as [->|[->|[->|[->| ->]]]]. Qed.

Lemma ident_start_not_digit b : is_ident_start b = true -> is_ascii_digit b = false.
Proof.
  unfold is_ident_start, is_ascii_alphabetic, is_ascii_upper, is_ascii_lower, is_ascii_digit, in_range.
  rewrite !orb_true_iff, !andb_true_iff, Z.eqb_eq, !Z.leb_le. intros Hb.
  apply not_true_is_false. rewrite andb_true_iff, !Z.leb_le. lia.
Qed.

Lemma advance_tok pre t h rest :
  writable t -> is_ascii_whitespace h = true ->
  let s := pre ++ tok_text t ++ h :: rest in
  advance (mkLexer s (length pre) Tok.Eof 0 0)
  = Ok (mkLexer s (length pre + length (tok_text t)) t (length pre) (length pre + length (tok_text t))).
Proof.
  intros Ht Hh s. unfold advance. cbn [ArithLex.src ArithLex.i].
  assert (drop (length pre) s = tok_text t ++ h :: rest) as Hdrop by apply drop_app_length.
  rewrite Hdrop.
  pose proof (text_head t h rest Ht Hh) as Hhead.
  assert (scan_while is_ascii_whitespace (tok_text t ++ h :: rest) = 0%nat) as ->
    by (destruct (tok_text t ++ h :: rest); [done|]; simpl; by rewrite Hhead).
  rewrite Nat.add_0_r, Hdrop. destruct (ws_not_number h Hh) as [Hnum Hid].
  destruct (operator t) eqn:Hop.
  { destruct (operator_read t h rest Hop Hh) as (b & tail & -> & _ & -> & -> & ->). done. }
  destruct t; try discriminate Hop; cbn [tok_text writable] in *; [| |done]; [|rename name into x].
  - destruct (u_to_string_spec n) as (Hne & Hall & _); [lia|].
    assert (Hlex : lex_number s (length pre) = Ok (Tok.Num n, (length pre + length (u_to_string n))%nat)).
    { unfold lex_number. rewrite Hdrop, scan_while_app; [| |done].
      - unfold s. by rewrite slice_mid, parse_number_dec.
      - eapply Forall_impl; [exact Hall|]. intros b Hb. unfold is_number_byte, is_ascii_alphanumeric.
        simpl in Hb. rewrite Hb. by rewrite orb_true_r. }
    destruct (u_to_string n) as [|b ds] eqn:Heq; [done|]. inversion Hall as [|? ? Hb _]; subst.
    cbn [app]. by rewrite Hb, Hlex.
  - pose proof (ident_bytes x Ht) as Hall. destruct x as [|b x]; [done|].
    cbn [is_arith_identifier] in Ht. apply andb_true_iff in Ht as [Hb _]. cbn [app].
    rewrite (ident_start_not_digit b Hb), Hb.
    rewrite (app_comm_cons x (h :: rest) b), (scan_while_app _ (b :: x) (h :: rest)) by done.
    assert (drop (length pre + length (b :: x)) s = h :: rest) as Hd.
    { unfold s. rewrite app_assoc, <- length_app. by rewrite drop_app_length. }
    rewrite Hd. assert (Hj : match h :: rest with
       | "["%b :: sub => (length pre + length (b :: x) + 1 + scan_subscript 1 sub)%nat
       | _ => (length pre + length (b :: x))%nat end = (length pre + length (b :: x))%nat).
    { apply ws_cases in Hh. by destruct Hh as [->|[->|[->|[->| ->]]]]. }
    rewrite Hj. unfold s at 2. by rewrite slice_mid.
Qed.

(** * The whole text *)

Lemma render_stream sep ts : 
  blank sep -> sep <> [] -> Forall writable ts ->
  forall pre w lex, src lex = pre ++ w ++ render sep ts -> i lex = length pre -> blank w ->
  exists lex', advance lex = Ok lex' /\ stream lex' ts.
Proof.
  intros Hsep Hne Hts. destruct sep as [|h sep]; [done|]. inversion Hsep as [|? ? Hh _]; subst.
  induction Hts as [|t ts Ht Hts IH]; intros pre w lex Hs Hi Hw.
  - rewrite (advance_skip pre w [] lex) by done. rewrite Hs. cbn [render flat_map]. rewrite app_nil_r.
    unfold advance. cbn [ArithLex.src ArithLex.i]. rewrite drop_all. cbn [scan_while].
    rewrite Nat.add_0_r, drop_all. eexists. split; [done|]. by constructor.
  - cbn [render flat_map] in Hs. fold (render (h :: sep) ts) in Hs. rewrite <- app_assoc in Hs. cbn [app] in Hs.
    rewrite (advance_skip pre w _ lex Hs Hi Hw) by by apply text_head.
    rewrite Hs, (app_assoc pre w), advance_tok by done. eexists. split; [done|].
    match goal with |- stream ?lx _ =>
      destruct (IH ((pre ++ w) ++ tok_text t) (h :: sep) lx) as (lex' & Ha & Hst) end.
    + cbn [ArithLex.src]. by rewrite <- !app_assoc.
    + cbn [ArithLex.i]. by rewrite (length_app (pre ++ w)).
    + done.
    + by eapply stream_cons.
Qed.

(** C31: the lexer reads back every token list: all operators (longest match
    first), decimal literals up to [i64::MAX] and names, written one after the
    other with any white space after each, come out in order followed by the
    end of input. *)
Theorem lexer_roundtrip (sep : bytes) (ts : list Tok.t) :
  blank sep -> sep <> [] -> Forall writable ts ->
  exists lex, Lexer_new (render sep ts) = Ok lex /\ stream lex ts.
Proof. intros Hsep Hne Hts. by apply (render_stream sep ts Hsep Hne Hts [] []); [..|constructor]. Qed.

Lemma lexer_roundtrip_witness :
  exists lex, Lexer_new (render (bs " ") [Tok.Ident (bs "x"); Tok.ShlEq; Tok.Num 12; Tok.StarStar; Tok.Num 0])
    = Ok lex /\ stream lex [Tok.Ident (bs "x"); Tok.ShlEq; Tok.Num 12; Tok.StarStar; Tok.Num 0].
Proof.
  apply lexer_roundtrip; [by repeat constructor|done|].
  repeat apply List.Forall_cons; try exact (List.Forall_nil _); cbn; unfold i64_max; done || lia.
Defined.
