(* ===== verification/ArithProps.v ===== *)
(** Correctness of the arithmetic evaluator: exponentiation, the absence of
    side effects in unselected operands, the range of every value, and the
    restoration of the recursion bookkeeping. *)
From stdpp Require Import base list.
From S2P Require Import Prelude Env ArithLex ArithEval.

(** * A postcondition logic for the evaluator's monad

    [post R P m]: from every context, [m] moves along [R] whatever its
    outcome, and a value it returns satisfies [P]. *)

Definition post {E A} (R : relation (Ctx E)) (P : A -> Prop) (m : M E A) : Prop :=
  forall c, R c (snd (m c)) /\ match fst (m c) with Ok a => P a | _ => True end.

Section Post.
Context {E : Type} (R : relation (Ctx E)) `{!PreOrder R}.

Lemma post_ret {A} (P : A -> Prop) a : P a -> post R P (ret a).
Proof. intros HP c. split; simpl; [reflexivity|done]. Qed.

Lemma post_err {A} (P : A -> Prop) e : post R P (err e).
Proof. intros c. split; simpl; [reflexivity|done]. Qed.

Lemma post_fuel {A} (P : A -> Prop) : post R P out_of_fuel.
Proof. intros c. split; simpl; [reflexivity|done]. Qed.

Lemma post_lift {A} (P : A -> Prop) r :
  match r with Ok a => P a | _ => True end -> post R P (lift r).
Proof. intros HP c. split; simpl; [reflexivity|done]. Qed.

Lemma post_asks {A} (f : Ctx E -> A) : post R (fun _ => True) (asks f).
Proof. intros c. split; simpl; [reflexivity|done]. Qed.

Lemma post_bind {A B} (P : A -> Prop) (Q : B -> Prop) m k :
  post R P m -> (forall a, P a -> post R Q (k a)) -> post R Q (bind m k).
Proof.
  intros Hm Hk c. unfold bind. specialize (Hm c) as [HR HP].
  destruct (m c) as [[a|e|] c1]; simpl in *; [|done..].
  destruct (Hk a HP c1) as [HR' HQ]. split; [by etrans|done].
Qed.

Lemma post_loop {S A} n (I : S -> Prop) (Q : A -> Prop) body s :
  (forall s, I s -> post R (fun x => match x with inl s => I s | inr a => Q a end) (body s)) ->
  I s -> post R Q (loop n body s).
Proof.
  intros Hb. revert s. induction n as [|n IH]; intros s HI; simpl; [apply post_fuel|].
  eapply post_bind; [by apply Hb|]. intros [s'|a] Ha; [by apply IH|by apply post_ret].
Qed.

Lemma post_weaken {A} (P Q : A -> Prop) m :
  post R P m -> (forall a, P a -> Q a) -> post R Q m.
Proof.
  intros Hm HPQ c. specialize (Hm c) as [HR HP]. split; [done|].
  destruct (fst (m c)); auto.
Qed.

End Post.

Create HintDb post.
#[export] Hint Resolve post_asks : post.

Ltac destruct_pairs :=
  repeat match goal with x : prod _ _ |- _ => destruct x end.

(** Decompose a computation into the obligations of its parts; what a part
    satisfies is looked up in the hint database [post]. *)
Ltac post_step :=
  match goal with
  | |- post _ _ (ret _) => apply post_ret; [apply _|]
  | |- post _ _ (again _ _ _ _) => apply post_ret; [apply _|]
  | |- post _ _ (leave _ _) => apply post_ret; [apply _|]
  | |- post _ _ (err _) => apply post_err; apply _
  | |- post _ _ out_of_fuel => apply post_fuel; apply _
  | |- post _ _ (bind _ _) =>
      eapply post_bind; [apply _|solve [eauto with post typeclass_instances]|intros; destruct_pairs; simpl in *; destruct_and?]
  | |- post _ _ (if ?b then _ else _) => destruct b eqn:?
  | |- post _ _ (match ?x with _ => _ end) => destruct x eqn:?
  end.

Ltac post_auto := repeat post_step; try solve [eauto with post cherub].

(** * Exponentiation *)

(** The loop computes [result * base ^ exp] in wrapping arithmetic. *)
Lemma pow_loop_spec n result base exp :
  0 <= exp < 2 ^ Z.of_nat n ->
  wrap64 result = result ->
  pow_loop n result base exp = wrap64 (result * base ^ exp).
Proof.
  revert result base exp.
  induction n as [|n IH]; intros result base exp Hexp Hres; simpl.
  { assert (exp = 0) as -> by (change (2 ^ Z.of_nat 0) with 1 in Hexp; lia). by rewrite Z.pow_0_r, Z.mul_1_r. }
  destruct (0 <? exp) eqn:Hpos; to_prop; last first.
  { assert (exp = 0) as -> by lia. by rewrite Z.pow_0_r, Z.mul_1_r. }
  rewrite Nat2Z.inj_succ, Z.pow_succ_r in Hexp by lia.
  pose proof (Z.land_ones exp 1 ltac:(lia)) as Hland. change (Z.ones 1) with 1 in Hland.
  rewrite Hland, (Z.shiftr_div_pow2 exp 1) by lia. change (2 ^ 1) with 2.
  pose proof (Z.div_mod exp 2 ltac:(lia)) as Hdm.
  pose proof (Z.mod_pos_bound exp 2 ltac:(lia)) as Hm.
  set (q := exp / 2) in *. set (m := exp mod 2) in *.
  assert (Hsq : forall b', wrap64 b' = wrap64 (base * base) ->
    forall res', wrap64 (res' * b' ^ q) = wrap64 (res' * (base * base) ^ q)).
  { intros b' Hb' res'.
    assert (forall k, 0 <= k -> wrap64 (b' ^ k) = wrap64 ((base * base) ^ k)) as Hk.
    { apply natlike_ind; [done|]. intros k Hk IHk.
      rewrite !Z.pow_succ_r by lia.
      rewrite <- wrap64_mul_r, IHk, wrap64_mul_r, <- wrap64_mul_l, Hb', wrap64_mul_l.
      reflexivity. }
    rewrite <- wrap64_mul_r, Hk, wrap64_mul_r by lia. reflexivity. }
  assert (Hstep : forall res', wrap64 res' = res' ->
    pow_loop n res' (if 0 <? q then wrapping_mul base base else base) q
    = wrap64 (res' * (base * base) ^ q)).
  { intros res' Hres'. destruct (0 <? q) eqn:Hq; to_prop.
    - rewrite IH by (done || lia). apply Hsq. apply wrap64_wrap64.
    - rewrite IH by (done || lia). assert (q = 0) as -> by lia. by rewrite !Z.pow_0_r. }
  assert (Hpow : base ^ exp = (base * base) ^ q * base ^ m).
  { rewrite Hdm, Z.pow_add_r, Z.pow_mul_r by lia. by rewrite Z.pow_2_r. }
  rewrite Hpow. destruct (m =? 1) eqn:Hodd; to_prop.
  - rewrite Hstep by apply wrap64_wrap64. rewrite Hodd, Z.pow_1_r.
    unfold wrapping_mul. rewrite wrap64_mul_l. f_equal. lia.
  - assert (m = 0) as Hm0 by lia. rewrite Hstep by done. rewrite Hm0, Z.pow_0_r. f_equal. lia.
Qed.

Lemma pow_i64_spec b e :
  in_i64 e -> pow_i64 b e = if e <? 0 then 0 else wrap64 (b ^ e).
Proof.
  intros He. unfold pow_i64. destruct (e <? 0) eqn:Hneg; [done|]. to_prop.
  rewrite pow_loop_spec; [by rewrite Z.mul_1_l| |done].
  unfold in_i64, i64_max in He. change (2 ^ Z.of_nat 64) with 18446744073709551616. lia.
Qed.

Lemma pow_i64_range b e : in_i64 e -> in_i64 (pow_i64 b e).
Proof. intros He. rewrite pow_i64_spec by done. destruct (e <? 0); auto with cherub. Qed.

(** [pow_i64], repeated squaring on a [u64] exponent, computes the power
    of its base reduced to a 64-bit integer; a negative exponent gives 0. *)
Theorem pow_i64_correct (b e : Z) :
  in_i64 e -> pow_i64 b e = if e <? 0 then 0 else wrap64 (b ^ e).
Proof. apply pow_i64_spec. Qed.

Lemma pow_i64_correct_witness : pow_i64 3 41 = wrap64 (3 ^ 41) /\ pow_i64 2 64 = 0.
Proof.
  split.
  - apply (pow_i64_correct 3 41). unfold in_i64, i64_min, i64_max. lia.
  - apply (pow_i64_correct 2 64). unfold in_i64, i64_min, i64_max. lia.
Defined.

(** * Unselected operands *)

Section Inactive.
Context {E : Type} `{Environment E} (expand : bytes -> M E bytes).

(** Parsed with [active = false], a function leaves the context exactly as it
    was, even when it fails, and yields 0. *)
Definition inert (f : Lexer -> bool -> M E (Z * Lexer)) : Prop :=
  forall lex, post eq (fun '(v, _) => v = 0) (f lex false).

Record inert_rec (r : @Rec E) : Prop := {
  inert_comma : inert (r_comma r);
  inert_assign : inert (r_assign r);
  inert_ternary : inert (r_ternary r);
  inert_power : inert (r_power r);
  inert_unary : inert (r_unary r);
}.

Variable r : @Rec E.
Hypothesis Hr : inert_rec r.

Lemma inert_advance lex : post (E:=E) eq (fun _ => True) (lift (advance lex)).
Proof. apply post_lift; [apply _|by destruct (advance lex)]. Qed.

Lemma inert_consume lex :
  post (E:=E) eq (fun _ => True) (lift (consume_first_char_of_double_operator lex)).
Proof. apply inert_advance. Qed.

Lemma inert_rhs lex p : post (E:=E) eq (fun _ => True) (lift (arith_rhs_expected lex p)).
Proof. apply post_lift; [apply _|by destruct (arith_rhs_expected lex p)]. Qed.

Lemma inert_assigned o a b :
  post (E:=E) eq (fun _ => True) (lift (assigned_value o a b)).
Proof. apply post_lift; [apply _|by destruct (assigned_value o a b)]. Qed.

#[local] Hint Resolve inert_advance inert_consume inert_rhs inert_assigned : post.

Lemma inert_target lex p s :
  post eq (fun _ => True) (prefix_inc_dec_target_name r lex p s).
Proof.
  unfold prefix_inc_dec_target_name.
  apply (post_loop eq) with (I := fun _ => True); [|done].
  intros [l q] _. post_auto.
Qed.

Lemma inert_has_target lex : post eq (fun _ => True) (prefix_inc_dec_has_target r lex).
Proof. unfold prefix_inc_dec_has_target. pose proof inert_target. post_auto. Qed.

#[local] Hint Resolve inert_target inert_has_target : post.

Lemma inert_lvalue nm :
  post eq (fun p => p = (None, 0)) (active_lvalue expand r nm false).
Proof. by apply post_ret; [apply _|]. Qed.

Lemma inert_store v : post (E:=E) eq (fun _ => True) (store_active None v).
Proof. by apply post_ret; [apply _|]. Qed.

#[local] Hint Resolve inert_store : post.

Lemma inert_apply_pre lex d p :
  post eq (fun '(v, _) => v = 0) (apply_pre expand r lex d false p).
Proof.
  unfold apply_pre. eapply post_bind; [apply _|apply inert_target|].
  intros [[nm|] l] _; [|apply post_err; apply _].
  eapply post_bind; [apply _|apply inert_advance|intros l' _].
  eapply post_bind; [apply _|apply inert_lvalue|intros ? ->]. post_auto.
Qed.

Lemma inert_call f lex : inert f -> post eq (fun '(v, _) => v = 0) (f lex false).
Proof. auto. Qed.

#[local] Hint Resolve inert_apply_pre inert_call inert_comma inert_assign inert_ternary
  inert_power inert_unary : post.

Lemma inert_primary : inert (parse_primary expand r).
Proof. intros lex. unfold parse_primary. post_auto. Qed.

Lemma inert_postfix : inert (parse_postfix expand r).
Proof.
  intros lex. unfold parse_postfix.
  destruct (cur lex); try apply inert_primary.
  eapply post_bind; [apply _|apply inert_lvalue|intros ? ->]. post_auto.
Qed.

Lemma inert_unary_operand lex :
  post eq (fun '(v, _) => v = 0) (unary_operand r lex false).
Proof. unfold unary_operand. post_auto. Qed.

#[local] Hint Resolve inert_primary inert_postfix inert_unary_operand : post.

Lemma inert_parse_unary : inert (parse_unary expand r).
Proof. intros lex. unfold parse_unary. post_auto. Qed.

#[local] Hint Resolve inert_parse_unary : post.

Lemma inert_parse_power : inert (parse_power expand r).
Proof. intros lex. unfold parse_power. post_auto. Qed.

#[local] Hint Resolve inert_parse_power : post.

(** The loops of the binary levels keep the value 0. *)
Lemma inert_loop (body : Z * Lexer -> M E ((Z * Lexer) + (Z * Lexer))) lex :
  (forall lex, post eq (fun x => match x with inl (v, _) | inr (v, _) => v = 0 end)
                 (body (0, lex))) ->
  post (E:=E) eq (fun '(v, _) => v = 0)
    (loop (fuel r) body (0, lex)).
Proof.
  intros Hb. apply (post_loop eq) with (I := fun '(v, _) => v = 0); [|done].
  intros [v l] ->. eapply post_weaken; [apply Hb|]. intros [[]|[]]; done.
Qed.

Ltac inert_level :=
  eapply post_bind; [apply _|solve [eauto with post]|intros [v l] ->];
  eapply post_bind; [apply _|apply inert_loop; intros l'; post_auto|];
  intros [] ->; by apply post_ret; [apply _|].

Lemma inert_mul : inert (parse_mul expand r).
Proof. intros lex. unfold parse_mul. inert_level. Qed.

#[local] Hint Resolve inert_mul : post.

Lemma inert_add : inert (parse_add expand r).
Proof. intros lex. unfold parse_add. inert_level. Qed.

Lemma inert_binary sub op act :
  inert sub -> (forall v, act false v = false) -> inert (binary_level r sub op act).
Proof.
  intros Hs Ha lex. unfold binary_level.
  eapply post_bind; [apply _|apply Hs|intros [v l] ->].
  eapply post_bind; [apply _|apply inert_loop; intros l'|].
  - destruct (op (cur l')); [|post_auto]. rewrite Ha. post_auto.
  - intros [] ->. by apply post_ret; [apply _|].
Qed.

Lemma inert_logor : inert (parse_logor expand r).
Proof. repeat (apply inert_binary; [|done]). apply inert_add. Qed.

#[local] Hint Resolve inert_logor : post.

Lemma inert_parse_ternary : inert (parse_ternary expand r).
Proof. intros lex. unfold parse_ternary. post_auto. Qed.

#[local] Hint Resolve inert_parse_ternary : post.

Lemma inert_parse_assign : inert (parse_assign expand r).
Proof.
  intros lex. unfold parse_assign. simpl andb.
  assert (post eq (fun '(v, _) => v = 0)
    (let! (v, lex) := parse_ternary expand r lex false in ret (when_active false v, lex)))
    as Hplain by post_auto.
  destruct (cur lex); try done.
  eapply post_bind; [apply _|apply inert_advance|intros l _].
  destruct (assignment_opcode (cur l)); [|done].
  do 2 (eapply post_bind; [apply _|apply inert_advance|intros ? _]).
  eapply post_bind; [apply _|apply inert_lvalue|intros ? ->].
  post_step. eapply post_bind; [apply _|apply inert_assigned|intros x _].
  eapply post_bind; [apply _|by apply post_ret with (P := fun _ => True); [apply _|]|].
  intros _ _. post_auto.
Qed.

#[local] Hint Resolve inert_parse_assign : post.

Lemma inert_parse_comma : inert (parse_comma expand r).
Proof.
  intros lex. unfold parse_comma.
  eapply post_bind; [apply _|solve [eauto with post]|intros [v l] ->].
  eapply post_bind; [apply _|apply inert_loop; intros l'; post_auto|].
  intros [] ->. by apply post_ret; [apply _|].
Qed.

End Inactive.

Lemma inert_knot {E} `{Environment E} expand n : inert_rec (knot (E:=E) expand n).
Proof.
  induction n as [|n IH]; simpl.
  - split; intros lex; apply post_fuel; apply _.
  - split; simpl; auto using inert_parse_comma, inert_parse_assign, inert_parse_ternary,
      inert_parse_power, inert_parse_unary.
Qed.

(** an operand that [&&], [||] or [?:] does not select is parsed without
    any effect: whatever the environment and the text, evaluating it with the
    [active] flag off leaves the whole context (variables, arrays, recursion
    counters) unchanged, also when it ends in an error, and yields 0. *)
Theorem inactive_has_no_effect {E} `{Environment E} (expand : bytes -> M E bytes)
    (n : nat) (lex : Lexer) (c : Ctx E) :
  let '(res, c') := parse_comma expand (knot expand n) lex false c in
  c' = c /\ match res with Ok (v, _) => v = 0 | _ => True end.
Proof.
  pose proof (inert_parse_comma expand (knot expand n) (inert_knot expand n) lex c) as [Hc Hv].
  destruct (parse_comma expand (knot expand n) lex false c) as [[[v l]|e|] c']; simpl in *; auto.
Qed.

(** What the loop of a binary level does from a value that switches its right
    operands off: it keeps the value of the level and the context. *)
Lemma unselected_loop {E} `{Environment E} (sub : PFun (E:=E)) (op : Tok.t -> option (Z -> Z -> Z)) act n v lex :
  inert sub -> act true v = false -> (forall t f, op t = Some f -> f v 0 = v) ->
  post eq (fun '(w, _) => w = v) (loop n (fun '(v, lex) =>
    match op (cur lex) with
    | Some f =>
        let! lex := lift (advance lex) in
        let! (x, lex) := sub lex (act true v) in
        again true v (f v x) lex
    | None => leave v lex
    end) (v, lex)).
Proof.
  intros Hs Ha Hf. apply (post_loop eq) with (I := fun '(w, _) => w = v); [|done].
  intros [w l] ->. destruct (op (cur l)) as [f|] eqn:Ho; [|by apply post_ret; [apply _|]].
  eapply post_bind; [apply _|apply inert_advance|intros l1 _]. rewrite Ha.
  eapply post_bind; [apply _|apply Hs|intros [x l2] ->]. apply post_ret; [apply _|by eapply Hf].
Qed.

(** A level whose left operand has been evaluated. *)
Lemma level_from {E} `{Environment E} (r : Rec (E:=E)) sub op act lex c v l1 c1 :
  sub lex true c = (Ok (v, l1), c1) ->
  binary_level r sub op act lex true c
  = bind (loop (fuel r) (fun '(v, lex) =>
      match op (cur lex) with
      | Some f =>
          let! lex := lift (advance lex) in
          let! (x, lex) := sub lex (act true v) in
          again true v (f v x) lex
      | None => leave v lex
      end) (v, l1)) (fun '(v, lex) => ret (v, lex)) c1.
Proof. intros Hs. unfold binary_level, bind at 1. by rewrite Hs. Qed.

(** The run of a level that has a value already. *)
Lemma unselected_level {E} `{Environment E} (r : Rec (E:=E)) sub op act lex c v l1 c1 :
  inert sub -> act true v = false -> (forall t f, op t = Some f -> f v 0 = v) ->
  sub lex true c = (Ok (v, l1), c1) ->
  let '(res, c') := binary_level r sub op act lex true c in
  c' = c1 /\ match res with Ok (w, _) => w = v | _ => True end.
Proof.
  intros Hi Ha Hf Hs. rewrite (level_from r sub op act lex c v l1 c1 Hs).
  pose proof (unselected_loop sub op act (fuel r) v l1 Hi Ha Hf c1) as [Hc Hv]. unfold bind at 1.
  destruct (loop _ _ _ c1) as [[[w l2]|e|] c2]; cbn in *; by subst.
Qed.

(** The first operator met switches the operands off when it turns the value
    into a fixed one; until then there was no operator and no right operand. *)
Lemma selected_once {E} `{Environment E} (r : Rec (E:=E)) sub op act lex c v w l1 c1 :
  inert sub -> act true v = false -> act true w = false ->
  (forall t f, op t = Some f -> f v 0 = w /\ f w 0 = w) ->
  sub lex true c = (Ok (v, l1), c1) ->
  let '(res, c') := binary_level r sub op act lex true c in
  c' = c1 /\ match res with Ok (x, _) => x = if op (cur l1) then w else v | _ => True end.
Proof.
  intros Hi Hv Hw Hf Hs. rewrite (level_from r sub op act lex c v l1 c1 Hs). unfold bind at 1.
  destruct (fuel r) as [|n]; [done|]. cbn [loop]. destruct (op (cur l1)) as [f|] eqn:Ho; [|done].
  destruct (advance l1) as [l2| |] eqn:Hl; unfold bind at 1 2 3, lift; cbn [fst snd]; rewrite ?Hv; try done.
  pose proof (Hi l2 c1) as [Hc1 Hx]. destruct (sub l2 false c1) as [[[x l3]|e|] c2] eqn:Hsub; cbn in *; subst; try done.
  unfold bind, again, ret at 1. cbn. destruct (Hf _ _ Ho) as [-> _].
  pose proof (unselected_loop sub op act n w l3 Hi Hw (fun t g Hg => proj2 (Hf t g Hg)) c2) as [Hc2 Hw'].
  unfold bind, again, ret in Hc2, Hw'. destruct (loop n _ _ c2) as [[[x l4]|e|] c3]; cbn in *; by subst.
Qed.

(** C24: An operand that [&&], [||] or [?:] does not select is evaluated without
    any effect.  In an active expression: once the left operand of [&&] is 0,
    the whole chain of [&&] ends with the context the left operand left
    (variables, arrays, recursion counters), also where it ends in an error,
    and with the value 0; likewise for a left operand of [||] that is not 0,
    with the value 1 when there is an operator.  A conditional with a condition
    other than 0 that ends in a value ends with the value and the context of
    its second operand alone, and one with the condition 0 with those of its
    third, started in the context the condition left. *)
Theorem unselected_operands_have_no_effect {E} `{Environment E} (expand : bytes -> M E bytes)
    (n : nat) (lex l1 : Lexer) (c c1 : Ctx E) (v : Z) :
  let r := knot expand n in
  (parse_bitor expand r lex true c = (Ok (0, l1), c1) ->
     let '(res, c') := parse_logand expand r lex true c in
     c' = c1 /\ match res with Ok (w, _) => w = 0 | _ => True end)
  /\ (v <> 0 -> parse_logand expand r lex true c = (Ok (v, l1), c1) ->
     let '(res, c') := parse_logor expand r lex true c in
     c' = c1 /\ match res with Ok (w, _) => w = if tok_eqb (cur l1) Tok.PipePipe then 1 else v | _ => True end)
  /\ (cur l1 = Tok.Question -> parse_logor expand r lex true c = (Ok (v, l1), c1) ->
     forall w l' c', parse_ternary expand r lex true c = (Ok (w, l'), c') ->
     exists l2 l3, advance l1 = Ok l2 /\
     if v =? 0 then
       r_comma r l2 false c1 = (Ok (0, l3), c1) /\
       exists l4, advance l3 = Ok l4 /\ r_ternary r l4 true c1 = (Ok (w, l'), c')
     else r_comma r l2 true c1 = (Ok (w, l3), c')).
Proof.
  cbv zeta. pose proof (inert_knot expand n) as Hr. split_and!.
  - intros Hs. unfold parse_logand. eapply unselected_level; [|done| |exact Hs].
    + repeat (apply inert_binary; [|done]). by apply inert_add.
    + intros [] f; try done. by intros [= <-].
  - intros Hv Hs. unfold parse_logor.
    match goal with |- context [binary_level ?r ?sub ?op ?act _ _ _] =>
      pose proof (selected_once r sub op act lex c v 1 l1 c1) as Hx end.
    specialize (Hx ltac:(repeat (apply inert_binary; [|done]); by apply inert_add)).
    cbn [negb andb] in Hx. rewrite (proj2 (Z.eqb_neq _ _) Hv) in Hx. specialize (Hx eq_refl eq_refl).
    assert (Hf : forall t f, match t with Tok.PipePipe => Some (fun v x => b2z (negb (v =? 0) || negb (x =? 0))) | _ => None end = Some f ->
      f v 0 = 1 /\ f 1 0 = 1) by (intros [] f; try done; intros [= <-]; by rewrite (proj2 (Z.eqb_neq _ _) Hv)).
    specialize (Hx Hf Hs). destruct (binary_level _ _ _ _ _ _ _) as [[[x l2]|e|] c2]; try done.
    destruct Hx as [-> ->]. split; [done|]. by destruct (cur l1).
  - intros Hq Hs w l' c'. unfold parse_ternary, bind at 1. rewrite Hs, Hq. change (tok_eqb Tok.Question Tok.Question) with true. cbv iota.
    unfold bind at 1, lift. destruct (advance l1) as [l2| |] eqn:Hl; try done. destruct (tok_eqb (cur l2) Tok.Colon); [done|].
    unfold bind at 1. destruct (r_comma _ l2 _ c1) as [[[t l3]|e|] c2] eqn:Ht; try done.
    destruct (negb (tok_eqb (cur l3) Tok.Colon)); [done|]. unfold bind at 1. destruct (advance l3) as [l4| |] eqn:Hl3; try done.
    destruct (tok_eqb (cur l4) Tok.Eof); [done|]. unfold bind at 1. destruct (Z.eqb_spec v 0) as [->|Hv]; cbn [negb andb Z.eqb] in *.
    + pose proof (inert_comma _ Hr l2 c1) as [Hc2 Ht0]. rewrite Ht in *. cbn in Hc2, Ht0. subst.
      destruct (r_ternary _ l4 true c2) as [[[f l5]|e|] c3] eqn:Hf; try done. intros [= <- <- <-].
      exists l2, l3. split; [done|]. split; [done|]. by exists l4.
    + pose proof (inert_ternary _ Hr l4 c2) as [Hc3 _].
      destruct (r_ternary _ l4 false c2) as [[[f l5]|e|] c3]; try done. cbn in Hc3. subst. intros [= <- <- <-].
      by exists l2, l3.
Qed.

(** [0 && x++], [3 || x++] and [1 ? 7 : x++] with [x] unset. *)
Definition lexer_of (text : string) : Lexer :=
  match Lexer_new (bs text) with Ok l => l | _ => mkLexer [] 0 Tok.Eof 0 0 end.

Definition lexer_after (x : Res ExpandError (Z * Lexer) * Ctx MapEnv.t) : Lexer :=
  match x with (Ok (_, l), _) => l | _ => lexer_of "" end.

Lemma unselected_operands_have_no_effect_witness :
  let r := knot no_expand 9 in let c := test_ctx MapEnv.empty in
  snd (parse_logand no_expand r (lexer_of "0 && x++") true c) = c
  /\ snd (parse_logor no_expand r (lexer_of "3 || x++") true c) = c
  /\ exists l2 l3, r_comma r l2 true c = (Ok (7, l3), c).
Proof.
  intros r c. set (l1 sub text := lexer_after (sub no_expand r (lexer_of text) true c)). split_and!.
  - destruct (unselected_operands_have_no_effect no_expand 9 (lexer_of "0 && x++") (l1 parse_bitor "0 && x++"%string) c c 0) as [Hand _].
    specialize (Hand ltac:(vm_compute; reflexivity)). fold r in Hand. destruct (parse_logand _ _ _ _ _) as [res c']. apply Hand.
  - destruct (unselected_operands_have_no_effect no_expand 9 (lexer_of "3 || x++") (l1 parse_logand "3 || x++"%string) c c 3) as (_ & Hor & _).
    specialize (Hor ltac:(done) ltac:(vm_compute; reflexivity)). fold r in Hor. destruct (parse_logor _ _ _ _ _) as [res c']. apply Hor.
  - destruct (unselected_operands_have_no_effect no_expand 9 (lexer_of "1 ? 7 : x++") (l1 parse_logor "1 ? 7 : x++"%string) c c 1) as (_ & _ & Hcond).
    destruct (Hcond ltac:(vm_compute; reflexivity) ltac:(vm_compute; reflexivity) 7 (l1 parse_ternary "1 ? 7 : x++"%string) c
      ltac:(vm_compute; reflexivity)) as (l2 & l3 & _ & Hl). by exists l2, l3.
Defined.

(** * Ranges and bookkeeping *)

(** A numeric token holds an [i64]. *)
Definition lex_ok (lex : Lexer) : Prop :=
  match cur lex with Tok.Num n => in_i64 n | _ => True end.

Definition ok_in {A} (P : A -> Prop) (r : Res ExpandError A) : Prop :=
  match r with Ok a => P a | _ => True end.

Lemma radix_loop_range ds radix raw v : ok_in in_i64 (radix_loop ds radix raw v).
Proof.
  revert v. induction ds as [|d ds IH]; intros v; simpl; [apply wrap64_range|].
  destruct (to_digit d radix); [apply IH|done].
Qed.

Lemma base_loop_range ds base s v : ok_in in_i64 (base_loop ds base s v).
Proof.
  revert v. induction ds as [|d ds IH]; intros v; simpl; [apply wrap64_range|].
  destruct (base_digit base d); [|done]. destruct (base <=? z); [done|apply IH].
Qed.

Lemma parse_radix_range ds radix raw : ok_in in_i64 (parse_radix_wrapping ds radix raw).
Proof. unfold parse_radix_wrapping. destruct (is_nil ds); [done|apply radix_loop_range]. Qed.

Lemma parse_number_range s : ok_in in_i64 (parse_number s).
Proof.
  unfold parse_number.
  destruct (find_byte _ s).
  - destruct (parse_i64 _); [|done]. split_ifs; try done. apply base_loop_range.
  - destruct (strip_prefix (bs "0x") s); [apply parse_radix_range|].
    destruct (strip_prefix (bs "0X") s); [apply parse_radix_range|].
    split_ifs; apply parse_radix_range.
Qed.

Lemma parse_i64_range s v : parse_i64 s = Some v -> in_i64 v.
Proof.
  assert (forall o, match o with
                    | Some z => if in_i64b z then Some z else None
                    | None => None
                    end = Some v -> in_i64 v) as Hchk.
  { intros [z|] Hz; [|done]. destruct (in_i64b z) eqn:Hb; [|done].
    injection Hz as <-. by apply in_i64b_iff. }
  unfold parse_i64. intros Hs.
  repeat match type of Hs with
  | match ?o with Some _ => if _ then _ else _ | None => None end = Some _ => by apply (Hchk o)
  | match ?x with _ => _ end = _ => destruct x
  end; try done; by apply Hchk in Hs.
Qed.

Lemma parse_plain_value_range s v : parse_plain_value s = Some v -> in_i64 v.
Proof.
  unfold parse_plain_value. destruct (is_nil _); [intros [= <-]; apply in_i64_0|].
  destruct (parse_i64 _) eqn:Hp; [intros [= <-]; by eapply parse_i64_range|].
  pose proof (parse_number_range (trim s)) as Hn.
  destruct (parse_number _); intros [= <-]. done.
Qed.

Lemma advance_ok lex : ok_in lex_ok (advance lex).
Proof.
  unfold advance. destruct (drop _ (src lex)) as [|b rest]; [done|].
  destruct (is_ascii_digit b).
  - unfold lex_number. match goal with |- context [parse_number ?s] =>
      pose proof (parse_number_range s) as Hn; destruct (parse_number s) end; done.
  - destruct (is_ident_start b); [done|].
    assert (forall t, In t (map snd three_char_toks ++ map snd two_char_toks
                            ++ map snd one_char_toks) -> forall n, t <> Tok.Num n) as Hops.
    { intros t Ht n ->. vm_compute in Ht. intuition discriminate. }
    assert (forall {A} (f : A -> option Tok.t) g l t, find_map f l = Some t ->
             (forall x t, f x = Some t -> t = g x) -> In t (map g l)) as Hfind.
    { intros A f g l t. induction l as [|x l IH]; simpl; [done|].
      destruct (f x) eqn:Hx; [intros [= <-] Hg; left; by rewrite (Hg x t0)|by right; eauto]. }
    destruct (operator_tok _ _ _) as [[t w]|] eqn:Hop; [|by split_ifs].
    simpl. unfold lex_ok. simpl. destruct t; try done. exfalso.
    unfold operator_tok in Hop.
    repeat match type of Hop with
    | match find_map ?f ?l with _ => _ end = _ =>
        let Hf := fresh "Hf" in destruct (find_map f l) eqn:Hf;
        [injection Hop as -> _;
         apply (Hfind _ _ snd) in Hf;
         [refine (Hops _ _ n eq_refl); rewrite !in_app_iff; tauto
         |intros; destruct_pairs; simpl in *;
          match goal with H : (if ?c then _ else _) = _ |- _ => destruct c; congruence end]|]
    end. done.
Qed.

Section Frame.
Context {E : Type} `{Environment E} (expand : bytes -> M E bytes).

(** The recursion counters and flags of the context are as they were. *)
Definition frame (c c' : Ctx E) : Prop :=
  0 <= value_depth c ->
  arith_depth c' = arith_depth c /\
  arith_expand_subscripts c' = arith_expand_subscripts c /\
  eval_unbound_error c' = eval_unbound_error c /\
  value_depth c' = value_depth c.

#[global] Instance frame_preorder : PreOrder frame.
Proof.
  split.
  - by intros c.
  - intros a b c Hab Hbc Ha. destruct (Hab Ha) as (? & ? & ? & ?).
    destruct Hbc as (? & ? & ? & ?); [lia|]. repeat split; congruence.
Qed.

Lemma post_pure {A} (P : A -> Prop) (m : M E A) : post eq P m -> post frame P m.
Proof. intros Hm c. destruct (Hm c) as [<- HP]. by split. Qed.

(** What [expand_arith_string_to_string_impl] is relied on for: it restores
    the counters and flags it borrows. *)
Hypothesis expand_frame : forall s, post frame (fun _ => True) (expand s).

Definition sound (f : Lexer -> bool -> M E (Z * Lexer)) : Prop :=
  forall lex active, lex_ok lex ->
  post frame (fun '(v, l) => in_i64 v /\ lex_ok l) (f lex active).

Record sound_rec (r : @Rec E) : Prop := {
  sound_comma : sound (r_comma r);
  sound_assign : sound (r_assign r);
  sound_ternary : sound (r_ternary r);
  sound_power : sound (r_power r);
  sound_unary : sound (r_unary r);
  sound_resolve : forall name, post frame (fun _ => True) (r_resolve r name);
  sound_value : forall s d, post frame in_i64 (r_value r s d);
}.

Variable r : @Rec E.
Hypothesis Hr : sound_rec r.

Lemma frame_advance lex : post frame lex_ok (lift (E:=E) (advance lex)).
Proof. apply post_lift; [apply _|apply advance_ok]. Qed.

Lemma frame_consume lex :
  post frame lex_ok (lift (E:=E) (consume_first_char_of_double_operator lex)).
Proof. apply frame_advance. Qed.

Lemma frame_rhs lex p : post frame (fun _ => True) (lift (E:=E) (arith_rhs_expected lex p)).
Proof. apply post_pure, inert_rhs. Qed.

Lemma frame_get_cow name : post frame (fun _ => True) (get_cow (E:=E) name).
Proof. intros c. unfold get_cow. by destruct (env_get (env c) name). Qed.

Lemma frame_get_indexed name k : post frame (fun _ => True) (get_array_indexed_cow (E:=E) name k).
Proof. intros c. unfold get_array_indexed_cow. by destruct (env_get_array_indexed _ _ _). Qed.

Lemma frame_get_assoc name k : post frame (fun _ => True) (get_array_assoc_cow (E:=E) name k).
Proof. intros c. unfold get_array_assoc_cow. by destruct (env_get_array_assoc _ _ _). Qed.

#[local] Hint Resolve frame_advance frame_consume frame_rhs frame_get_cow frame_get_indexed
  frame_get_assoc expand_frame sound_resolve sound_value : post.

Lemma frame_store l v : post frame (fun _ => True) (store_lvalue_value (E:=E) l v).
Proof.
  destruct l as [name|name k|name k]; intros c; simpl.
  - unfold store_scalar_ident_value. by destruct (env_assign _ _ _) as [[]].
  - by destruct (env_is_readonly _ _).
  - by destruct (env_is_readonly _ _).
Qed.

Lemma frame_flag {A} (P : A -> Prop) b (m : M E A) :
  post frame P m ->
  post frame P (fun c => let '(res, c') := m (with_expand_subscripts c b) in
                         (res, with_expand_subscripts c' (arith_expand_subscripts c))).
Proof.
  intros Hm c. specialize (Hm (with_expand_subscripts c b)) as [HR HP].
  destruct (m (with_expand_subscripts c b)) as [res c']. simpl in *. split; [|done].
  intros Hd. by destruct (HR Hd) as (? & ? & ? & ?).
Qed.

Lemma frame_guard {A} (P : A -> Prop) e (m : M E A) :
  post frame P m -> post frame P (with_guard e m).
Proof.
  intros Hm c. unfold with_guard. destruct (MAX_ARITH_NESTING <=? value_depth c); [done|].
  specialize (Hm (with_value_depth c (value_depth c + 1))) as [HR HP].
  destruct (m _) as [res c']. simpl in *. split; [|done].
  intros Hd. destruct (HR ltac:(simpl; lia)) as (? & ? & ? & Hv). simpl in *.
  repeat split; try done. simpl. lia.
Qed.

Lemma sound_call f lex active :
  sound f -> lex_ok lex -> post frame (fun '(v, l) => in_i64 v /\ lex_ok l) (f lex active).
Proof. auto. Qed.

Lemma frame_new s : post frame lex_ok (lift (E:=E) (Lexer_new s)).
Proof. apply frame_advance. Qed.

#[local] Hint Resolve frame_store frame_new sound_call sound_comma sound_assign sound_ternary
  sound_power sound_unary : post.

Lemma frame_array_index s : post frame in_i64 (eval_array_index expand r s).
Proof.
  unfold eval_array_index.
  eapply post_bind; [apply _|apply post_asks; apply _|intros aes _].
  eapply post_bind; [apply _|apply post_asks; apply _|intros once _].
  eapply post_bind with (P := fun _ => True); [apply _|by destruct (_ && _); post_auto|].
  intros x _. post_step; [post_auto|].
  eapply post_bind; [apply _|apply post_asks; apply _|intros aes' _].
  post_step; [post_auto|]. destruct (find_sub _ x); [post_auto|].
  apply (frame_flag in_i64 false). post_auto.
Qed.

Lemma frame_resolve name : post frame (fun _ => True) (resolve_lvalue expand r name).
Proof.
  unfold resolve_lvalue. eapply post_bind; [apply _|apply post_asks; apply _|intros e _].
  destruct (follow_nameref e name); [post_auto|].
  pose proof frame_array_index. post_auto.
Qed.

Lemma prepare_range v : match prepare_loaded_value v with Parsed n => in_i64 n | _ => True end.
Proof.
  unfold prepare_loaded_value. destruct (parse_plain_value v) eqn:Hp; [|done].
  by eapply parse_plain_value_range.
Qed.

Lemma frame_finish v d : post frame in_i64 (finish_loaded_value r (prepare_loaded_value v) d).
Proof.
  pose proof (prepare_range v). unfold finish_loaded_value.
  destruct (prepare_loaded_value v); post_auto.
Qed.

Lemma frame_unset name : post frame in_i64 (unset_value (E:=E) name).
Proof. unfold unset_value. post_auto. Qed.

#[local] Hint Resolve frame_array_index frame_resolve frame_finish frame_unset : post.

Lemma frame_load l : post frame in_i64 (load_lvalue_value r l).
Proof. unfold load_lvalue_value. post_auto. Qed.

#[local] Hint Resolve frame_load : post.

Lemma frame_load_ident name : post frame in_i64 (load_ident_value expand r name).
Proof. unfold load_ident_value. post_auto. Qed.

Lemma frame_parse_value s d : post frame in_i64 (parse_value_recursive expand r s d).
Proof.
  unfold parse_value_recursive. post_step; [post_auto|]. apply frame_guard.
  post_step; [post_auto|].
  destruct (parse_i64 (trim s)) eqn:Hi; [apply post_ret; [apply _|by eapply parse_i64_range]|].
  pose proof (parse_number_range (trim s)) as Hn.
  destruct (parse_number (trim s)); [by apply post_ret; [apply _|]|..].
  all: destruct (array_ref_parts (trim s)); [post_auto|].
  all: destruct (looks_like_identifier (trim s)); [post_auto|].
  all: apply (frame_flag in_i64 true); post_auto.
Qed.

Lemma frame_active_lvalue nm active :
  post frame (fun '(_, v) => in_i64 v) (active_lvalue expand r nm active).
Proof. unfold active_lvalue. post_auto. Qed.

Lemma frame_store_active lv v : post frame (fun _ => True) (store_active (E:=E) lv v).
Proof. unfold store_active. post_auto. Qed.

Lemma frame_store_ident nm v : post frame (fun _ => True) (store_ident_value expand r nm v).
Proof. unfold store_ident_value. post_auto. Qed.

#[local] Hint Resolve frame_load_ident frame_parse_value frame_active_lvalue
  frame_store_active frame_store_ident : post.

Lemma when_active_range active v : in_i64 v -> in_i64 (when_active active v).
Proof. destruct active; simpl; auto with cherub. Qed.

#[local] Hint Resolve when_active_range : cherub.

(** Close the value-range side conditions left by [post_auto]. *)
Ltac ranges :=
  post_auto;
  repeat match goal with
  | H : _ /\ _ |- _ => destruct H
  | H : cur ?l = Tok.Num ?n, Hl : lex_ok ?l |- _ => unfold lex_ok in Hl; rewrite H in Hl
  end;
  repeat match goal with |- _ /\ _ => split end; simpl;
  try solve [eauto with post cherub].

Lemma sound_primary : sound (parse_primary expand r).
Proof. intros lex active Hl. unfold parse_primary. ranges. Qed.

#[local] Hint Resolve sound_primary : post.

Lemma sound_postfix : sound (parse_postfix expand r).
Proof. intros lex active Hl. unfold parse_postfix. ranges. Qed.

Lemma frame_target lex p s :
  lex_ok lex -> post frame (fun '(_, l) => lex_ok l) (prefix_inc_dec_target_name r lex p s).
Proof.
  intros Hl. unfold prefix_inc_dec_target_name.
  apply (post_loop frame) with (I := fun '(l, _) => lex_ok l); [|done].
  intros [l q] Hok. ranges.
Qed.

#[local] Hint Resolve sound_postfix frame_target : post.

Lemma frame_has_target lex : post frame (fun _ => True) (prefix_inc_dec_has_target r lex).
Proof. unfold prefix_inc_dec_has_target. ranges. Qed.

Lemma frame_apply_pre lex d active p :
  lex_ok lex ->
  post frame (fun '(v, l) => in_i64 v /\ lex_ok l) (apply_pre expand r lex d active p).
Proof. intros Hl. unfold apply_pre. ranges. Qed.

Lemma frame_unary_operand lex active :
  post frame (fun '(v, l) => in_i64 v /\ lex_ok l) (unary_operand r lex active).
Proof. unfold unary_operand. ranges. Qed.

#[local] Hint Resolve frame_has_target frame_apply_pre frame_unary_operand : post.

Lemma sound_parse_unary : sound (parse_unary expand r).
Proof. intros lex active Hl. unfold parse_unary. ranges. Qed.

#[local] Hint Resolve sound_parse_unary : post.

Lemma sound_parse_power : sound (parse_power expand r).
Proof.
  intros lex active Hl. unfold parse_power. ranges.
  destruct active; auto using pow_i64_range with cherub.
Qed.

#[local] Hint Resolve sound_parse_power : post.

Lemma if_range (b : bool) x y : in_i64 x -> in_i64 y -> in_i64 (if b then x else y).
Proof. by destruct b. Qed.

#[local] Hint Resolve if_range : cherub.

Definition loop_inv : Z * Lexer -> Prop := fun '(v, l) => in_i64 v /\ lex_ok l.

Lemma frame_loop (body : Z * Lexer -> M E ((Z * Lexer) + (Z * Lexer))) v lex :
  (forall v lex, in_i64 v -> lex_ok lex ->
    post frame (fun x => match x with inl s | inr s => loop_inv s end) (body (v, lex))) ->
  in_i64 v -> lex_ok lex ->
  post frame (fun '(v, l) => in_i64 v /\ lex_ok l) (loop (fuel r) body (v, lex)).
Proof.
  intros Hb Hv Hl. apply (post_loop frame) with (I := loop_inv); [|done].
  intros [v' l'] [??]. eapply post_weaken; [by apply Hb|]. intros [[]|[]]; done.
Qed.

#[local] Hint Unfold loop_inv : cherub.

Lemma frame_assigned o a b :
  in_i64 a -> in_i64 b -> post frame in_i64 (lift (E:=E) (assigned_value o a b)).
Proof.
  intros Ha Hb. apply post_lift; [apply _|].
  unfold assigned_value, shift_count.
  repeat match goal with
  | |- match match ?x with _ => _ end with _ => _ end => destruct x
  end; auto using pow_i64_range with cherub.
Qed.

Ltac sound_level :=
  post_step;
  eapply post_bind; [apply _|apply frame_loop; [|done..]; intros v' l' Hv Hl'; ranges|];
  [..|intros [] []; ranges].

Lemma sound_mul : sound (parse_mul expand r).
Proof. intros lex active Hl. unfold parse_mul. sound_level. Qed.

#[local] Hint Resolve sound_mul : post.

Lemma sound_add : sound (parse_add expand r).
Proof. intros lex active Hl. unfold parse_add. sound_level. Qed.

Lemma sound_binary sub op act :
  sound sub ->
  (forall t f v x, op t = Some f -> in_i64 v -> in_i64 x -> in_i64 (f v x)) ->
  sound (binary_level r sub op act).
Proof.
  intros Hs Hop lex active Hl. unfold binary_level.
  eapply post_bind; [apply _|by apply Hs|intros [v l] [Hv Hl1]].
  eapply post_bind; [apply _|apply frame_loop; [|done..]; intros v' l' Hv' Hl'|].
  - destruct (op (cur l')) eqn:Ho; [|by apply post_ret; [apply _|]].
    eapply post_bind; [apply _|apply frame_advance|intros l2 Hl2].
    eapply post_bind; [apply _|by apply Hs|intros [x l3] [??]].
    apply post_ret; [apply _|]. split; [apply if_range; eauto|done].
  - intros [] []. ranges.
Qed.

Lemma sound_logor : sound (parse_logor expand r).
Proof.
  repeat (apply sound_binary;
    [|intros t f v x Hf Hv Hx; destruct t; simplify_eq/=; unfold shift_count; auto with cherub]).
  apply sound_add.
Qed.

#[local] Hint Resolve sound_logor frame_assigned : post.

Lemma sound_parse_ternary : sound (parse_ternary expand r).
Proof. intros lex active Hl. unfold parse_ternary. ranges. Qed.

#[local] Hint Resolve sound_parse_ternary : post.

Lemma sound_parse_assign : sound (parse_assign expand r).
Proof.
  intros lex active Hl. unfold parse_assign.
  assert (post frame (fun '(v, l) => in_i64 v /\ lex_ok l)
    (let! (v, lex) := parse_ternary expand r lex active in ret (when_active active v, lex)))
    as Hplain by ranges.
  destruct (cur lex); try done.
  post_step. destruct (assignment_opcode (cur a)); [|done].
  do 4 post_step. post_step; [ranges|]. post_step.
  eapply post_bind with (P := fun _ => True); [apply _|ranges|]. intros. ranges.
Qed.

#[local] Hint Resolve sound_parse_assign : post.

Lemma sound_parse_comma : sound (parse_comma expand r).
Proof. intros lex active Hl. unfold parse_comma. sound_level. Qed.

End Frame.

Lemma sound_knot {E} `{Environment E} expand n :
  (forall s, post (E:=E) frame (fun _ => True) (expand s)) -> sound_rec (knot expand n).
Proof.
  intros He. induction n as [|n IH]; simpl.
  - split; simpl; intros; intro; intros; try (apply post_fuel; apply _).
    all: by split.
  - split; simpl; eauto using sound_parse_comma, sound_parse_assign, sound_parse_ternary,
      sound_parse_power, sound_parse_unary, frame_resolve, frame_parse_value.
Qed.

Lemma eval_frame {E} `{Environment E} expand n s (c : Ctx E) :
  (forall s, post frame (fun _ => True) (expand s)) ->
  arith_depth c < u32_max ->
  frame c (snd (eval expand n s c)) /\ ok_in in_i64 (fst (eval expand n s c)).
Proof.
  intros He Hd. unfold eval, eval_inner.
  destruct (is_nil _); [split; [reflexivity|apply in_i64_0]|].
  destruct (prefix_postfix_lvalue_error s); [done|].
  cbv zeta. rewrite Z.min_r by lia.
  assert (Hback : forall c', frame (with_arith_depth c (arith_depth c + 1)) c' ->
    frame c (with_arith_depth c' (arith_depth c' - 1))).
  { intros c' Hf Hv. destruct (Hf Hv) as (? & ? & ? & ?). simpl in *. repeat split; auto; lia. }
  destruct (_ <? arith_depth _); [split; [by apply Hback|done]|].
  assert (Hm : post frame in_i64
    (let! lex := lift (Lexer_new s) in
     let! (val, lex) := parse_comma expand (knot expand n) lex true in
     if negb (tok_eqb (cur lex) Tok.Eof) then err (trailing_error s lex) else ret val)).
  { eapply post_bind; [apply _|apply frame_new|intros l Hl].
    eapply post_bind; [apply _|by apply sound_parse_comma; eauto using sound_knot|].
    intros [v l'] [??]. post_auto. }
  specialize (Hm (with_arith_depth c (arith_depth c + 1))) as [HR HP].
  destruct (bind _ _ _) as [res c']. split; [by apply Hback|done].
Qed.

(** C25: evaluation gives back the bookkeeping it borrows.  Whatever the
    outcome, value or error, the nesting depth, the subscript-expansion flag,
    the [nounset] flag and the thread-local recursion counter are afterwards
    what they were before. *)
Theorem eval_restores_context {E} `{Environment E} (expand : bytes -> M E bytes)
    (expand_restores : forall s, post frame (fun _ => True) (expand s))
    (n : nat) (expr : bytes) (c : Ctx E) :
  0 <= value_depth c -> arith_depth c < u32_max ->
  let '(_, c') := eval expand n expr c in
  arith_depth c' = arith_depth c /\
  arith_expand_subscripts c' = arith_expand_subscripts c /\
  eval_unbound_error c' = eval_unbound_error c /\
  value_depth c' = value_depth c.
Proof.
  intros Hv Hd. pose proof (eval_frame expand n expr c expand_restores Hd) as [Hf _].
  destruct (eval expand n expr c) as [res c']. by apply Hf.
Qed.

Lemma no_expand_frame s : post frame (fun _ => True) (no_expand s).
Proof. apply post_ret; [apply _|done]. Qed.

Lemma eval_restores_context_witness :
  let c := test_ctx (MapEnv.set MapEnv.empty (bs "x") (bs "1/0")) in
  let '(res, c') := eval no_expand 60 (bs "x + 1") c in
  is_fuel res = false /\ value_depth c' = 0.
Proof.
  pose proof (eval_restores_context no_expand no_expand_frame 60 (bs "x + 1")
    (test_ctx (MapEnv.set MapEnv.empty (bs "x") (bs "1/0"))) ltac:(reflexivity || (simpl; lia))
    ltac:(reflexivity)) as Hw.
  assert (is_fuel (fst (eval no_expand 60 (bs "x + 1")
    (test_ctx (MapEnv.set MapEnv.empty (bs "x") (bs "1/0"))))) = false) as Hf by (vm_compute; done).
  cbv zeta. destruct (eval _ _ _ _) as [res c']. split; [exact Hf|apply Hw].
Defined.

(** arithmetic stays inside 64 bits: every value an evaluation returns is
    an [i64], for all operands, constants and variable contents. *)
Theorem eval_in_i64 {E} `{Environment E} (expand : bytes -> M E bytes)
    (expand_restores : forall s, post frame (fun _ => True) (expand s))
    (n : nat) (expr : bytes) (c c' : Ctx E) (v : Z) :
  arith_depth c < u32_max -> eval expand n expr c = (Ok v, c') -> i64_min <= v <= i64_max.
Proof.
  intros Hd Hev. pose proof (eval_frame expand n expr c expand_restores Hd) as [_ Hr].
  rewrite Hev in Hr. exact Hr.
Qed.

Lemma eval_in_i64_witness :
  exists v c', eval no_expand 60 (bs "9223372036854775807 * 3 + 2 ** 63") (test_ctx MapEnv.empty)
    = (Ok v, c') /\ i64_min <= v <= i64_max.
Proof.
  eexists _, _. split; [vm_compute; reflexivity|].
  eapply (eval_in_i64 no_expand no_expand_frame 60 (bs "9223372036854775807 * 3 + 2 ** 63")
    (test_ctx MapEnv.empty)); [done|vm_compute; reflexivity].
Defined.

(** * Variables hold what the evaluator stores *)

Lemma plain_value_of_i64 v : in_i64 v -> parse_plain_value (i64_to_string v) = Some v.
Proof.
  intros Hv. destruct (i64_to_string_plain v) as [Hp Hne]. unfold parse_plain_value.
  rewrite trim_plain by done. destruct (i64_to_string v) eqn:Hs; [done|]. simpl is_nil.
  rewrite <- Hs. by rewrite parse_i64_to_string.
Qed.

(** a store followed by a load of the same scalar gives the number back
    for every [i64]: the decimal text [store_lvalue_value] writes is read back
    by [load_lvalue_value] without evaluation, in any environment whose reads
    see its writes. *)
Theorem store_then_load {E} `{Environment E} {ok : E -> bytes -> Prop} `{!ScalarStore E ok}
    (r : Rec) (name : bytes) (v : Z) (c c' : Ctx E) :
  in_i64 v -> ok (env c) name ->
  store_lvalue_value (Scalar name) v c = (Ok tt, c') ->
  load_lvalue_value r (Scalar name) c' = (Ok v, c').
Proof.
  intros Hv Hok Hst. simpl in *. unfold store_scalar_ident_value in Hst.
  destruct (env_assign (env c) name (i64_to_string v)) as [[x|] e] eqn:Ha; [done|].
  injection Hst as <-. pose proof (scalar_read_back _ _ _ _ Hok Ha) as Hg.
  unfold bind, get_cow. simpl. rewrite Hg. unfold prepare_loaded_value.
  rewrite plain_value_of_i64 by done. done.
Qed.

Lemma store_then_load_witness :
  let c' := test_ctx (MapEnv.set MapEnv.empty (bs "x") (bs "-42")) in
  load_lvalue_value (knot no_expand 0) (Scalar (bs "x")) c' = (Ok (-42), c').
Proof.
  apply (store_then_load (ok := fun _ _ => True) (knot no_expand 0) (bs "x") (-42)
    (test_ctx MapEnv.empty)).
  - unfold in_i64, i64_min, i64_max. lia.
  - done.
  - vm_compute. reflexivity.
Defined.


Lemma resolve_scalar {E} `{Environment E} expand r nm (c : Ctx E) :
  array_ref_parts nm = None -> env_attr_nameref (env c) nm = false ->
  resolve_lvalue expand r nm c = (Ok (Scalar nm), c).
Proof.
  intros Hp Hn. unfold resolve_lvalue, bind, asks, follow_nameref. by rewrite Hp, Hn.
Qed.

Lemma active_scalar {E} `{Environment E} expand r nm v (c : Ctx E) :
  array_ref_parts nm = None -> env_attr_nameref (env c) nm = false -> in_i64 v ->
  env_get (env c) nm = (Some (i64_to_string v), env c) ->
  active_lvalue expand r nm true c = (Ok (Some (Scalar nm), v), c).
Proof.
  intros Hp Hn Hv Hg. unfold active_lvalue, bind at 1. rewrite resolve_scalar by done.
  simpl. unfold bind, get_cow. rewrite Hg. unfold prepare_loaded_value.
  rewrite plain_value_of_i64 by done. by destruct c.
Qed.

Lemma target_here {E} (r : @Rec E) lex nm p sign c :
  cur lex = Tok.Ident nm -> (0 < fuel r)%nat ->
  prefix_inc_dec_target_name r lex p sign c = (Ok (Some nm, lex), c).
Proof.
  intros Hc Hf. unfold prefix_inc_dec_target_name. destruct (fuel r); [lia|].
  simpl. unfold bind. by rewrite Hc.
Qed.

(** increments of a scalar that holds the number [v].  [x++] yields [v],
    the prefix form yields [v + 1], and both leave the decimal text of [v + 1]
    reduced to 64 bits in the variable and nothing else changed. *)
Theorem increment_scalar {E} `{Environment E} (expand : bytes -> M E bytes) (r : Rec)
    (nm : bytes) (v : Z) (lex lex1 lex2 : Lexer) (c : Ctx E) (e : E) :
  array_ref_parts nm = None -> env_attr_nameref (env c) nm = false -> in_i64 v ->
  env_get (env c) nm = (Some (i64_to_string v), env c) ->
  env_assign (env c) nm (i64_to_string (wrap64 (v + 1))) = (None, e) ->
  cur lex = Tok.Ident nm -> advance lex = Ok lex1 ->
  cur lex1 = Tok.PlusPlus -> advance lex1 = Ok lex2 -> (0 < fuel r)%nat ->
  parse_postfix expand r lex true c = (Ok (v, lex2), with_env c e) /\
  forall p, apply_pre expand r lex 1 true p c = (Ok (wrap64 (v + 1), lex1), with_env c e).
Proof.
  intros Hp Hn Hv Hg Ha Hc H1 Hc1 H2 Hfuel.
  pose proof (active_scalar expand r nm v c Hp Hn Hv Hg) as Hact. split.
  - unfold parse_postfix. rewrite Hc. unfold bind at 1. rewrite Hact.
    unfold bind at 1, lift at 1. rewrite H1, Hc1. unfold bind at 1, lift at 1. rewrite H2.
    unfold bind, store_active, store_lvalue_value, store_scalar_ident_value, wrapping_add.
    by rewrite Ha.
  - intros p. unfold apply_pre, bind at 1. rewrite (target_here r lex nm) by done.
    unfold bind at 1, lift at 1. rewrite H1. unfold bind at 1. rewrite Hact.
    unfold bind, store_active, store_lvalue_value, store_scalar_ident_value, wrapping_add.
    by rewrite Ha.
Qed.

Lemma increment_scalar_witness :
  let c := test_ctx (MapEnv.set MapEnv.empty (bs "x") (bs "9223372036854775807")) in
  let lex := mkLexer (bs "x++") 1 (Tok.Ident (bs "x")) 0 1 in
  let lex2 := mkLexer (bs "x++") 3 Tok.Eof 3 3 in
  parse_postfix no_expand (knot no_expand 1) lex true c
  = (Ok (9223372036854775807, lex2),
     with_env c (MapEnv.set (env c) (bs "x") (bs "-9223372036854775808"))).
Proof.
  eapply (increment_scalar no_expand (knot no_expand 1) (bs "x") 9223372036854775807).
  all: first [vm_compute; reflexivity | (unfold in_i64, i64_min, i64_max; lia) | simpl; lia].
Defined.

(** compound division in an unselected operand is reported as a division
    by zero.  The unselected right side of [x /= 2] is skipped and counts as
    0, and the division is attempted nevertheless: [0 && (x /= 2)] fails in
    every environment, where [0 && (x *= 2)] yields 0. *)
Theorem unselected_compound_division_fails {E} `{Environment E} (expand : bytes -> M E bytes)
    (e : E) (nounset : bool) :
  let c := mkCtx e 0 true nounset 0 in
  eval expand 20 (bs "0 && (x /= 2)") c = (Err DivisionByZero, c) /\
  eval expand 20 (bs "0 && (x %= 2)") c = (Err DivisionByZero, c) /\
  eval expand 20 (bs "0 && (x *= 2)") c = (Ok 0, c) /\
  eval expand 20 (bs "0 && 1 / 0") c = (Ok 0, c).
Proof. vm_compute. auto. Qed.
