(* ===== verification/ArithTerm.v ===== *)
(** Termination of the arithmetic evaluator: every evaluation ends, in a value
    or an error, after finitely many steps.  The recursion is bounded
    lexicographically by the value-recursion counter, the subscript-expansion
    flag and the input that is left. *)
From stdpp Require Import base list.
From S2P Require Import Prelude Env ArithLex ArithEval.

(** * The lexer makes progress *)

(** A lexer state whose current token really is the text it spans. *)
Definition lexwf (l : Lexer) : Prop :=
  i l = tok_end l /\ (tok_end l <= length (src l))%nat /\
  match cur l with
  | Tok.Eof => True
  | Tok.PlusPlus | Tok.MinusMinus => tok_end l = (tok_start l + 2)%nat
  | Tok.Ident nm => (tok_start l < tok_end l)%nat /\ length nm = (tok_end l - tok_start l)%nat
  | _ => (tok_start l < tok_end l)%nat
  end.

(** The input from the current token on. *)
Definition lsize (l : Lexer) : nat := length (src l) - tok_start l.

Lemma scan_while_le p l : (scan_while p l <= length l)%nat.
Proof. induction l as [|b l IH]; simpl; [lia|]. destruct (p b); lia. Qed.

Lemma scan_while_head p b l : p b = true -> (1 <= scan_while p (b :: l))%nat.
Proof. intros Hp. simpl. rewrite Hp. lia. Qed.

Lemma scan_subscript_le depth l : (scan_subscript depth l <= length l)%nat.
Proof.
  assert (exists k, length l <= k)%nat as [k Hle] by eauto.
  revert depth l Hle. induction k as [|k IH]; intros depth l Hle.
  { destruct l; simpl in *; lia. }
  destruct l as [|b r]; simpl; [lia|]. simpl in Hle.
  destruct (depth =? 0)%nat; [lia|].
  pose proof (fun d => IH d r ltac:(lia)) as IHr.
  pose proof (IHr depth). pose proof (IHr (S depth)). pose proof (IHr (depth - 1)%nat).
  destruct (b =? "\"%b) eqn:Hb.
  - destruct r as [|c r']; simpl in *; [split_ifs; lia|].
    pose proof (IH depth r' ltac:(lia)). lia.
  - split_ifs; lia.
Qed.

Lemma operator_tok_width b c d t w :
  operator_tok b c d = Some (t, w) ->
  match t with
  | Tok.PlusPlus | Tok.MinusMinus => w = 2%nat
  | Tok.Eof | Tok.Ident _ => False
  | _ => (1 <= w)%nat
  end.
Proof.
  unfold operator_tok, three_char_toks, two_char_toks, one_char_toks. cbn [find_map].
  intros H.
  repeat match type of H with
  | context [if ?c then _ else _] => destruct c; [injection H as <- <-; done || lia|]
  end.
  done.
Qed.

Lemma operator_tok_fits b c d t w :
  operator_tok b c d = Some (t, w) -> w = 1%nat \/ (w = 2%nat /\ c <> 0) \/ (w = 3%nat /\ c <> 0 /\ d <> 0).
Proof.
  unfold operator_tok, three_char_toks, two_char_toks, one_char_toks. cbn [find_map].
  intros H.
  repeat match type of H with
  | context [if ?c then _ else _] =>
      let Hc := fresh "Hc" in destruct c eqn:Hc; [injection H as <- <-; to_prop; subst; auto|clear Hc]
  end; try done.
  all: try (right; left; split; [done|discriminate]).
  all: right; right; repeat split; discriminate.
Qed.

Ltac wf_done :=
  unfold lexwf; cbn [i src cur tok_start tok_end];
  repeat match goal with |- _ /\ _ => split end; first [done | lia].

Lemma advance_wf l l' :
  (i l <= length (src l))%nat -> advance l = Ok l' ->
  lexwf l' /\ src l' = src l /\ (i l <= tok_start l')%nat.
Proof.
  intros Hi. unfold advance.
  pose proof (scan_while_le is_ascii_whitespace (drop (i l) (src l))) as Hs.
  rewrite length_drop in Hs.
  set (k := (i l + scan_while is_ascii_whitespace (drop (i l) (src l)))%nat) in *.
  assert (Hk : (k <= length (src l))%nat) by lia.
  assert (Hik : (i l <= k)%nat) by lia. clearbody k.
  destruct (drop k (src l)) as [|b rest] eqn:Hd.
  { intros [= <-]. wf_done. }
  assert (Hlen : length (src l) = (k + S (length rest))%nat).
  { apply (f_equal length) in Hd. rewrite length_drop in Hd. simpl in Hd. lia. }
  destruct (is_ascii_digit b) eqn:Hdig.
  - unfold lex_number. rewrite Hd.
    assert (1 <= scan_while is_number_byte (b :: rest))%nat.
    { apply scan_while_head. unfold is_number_byte, is_ascii_alphanumeric.
      by rewrite Hdig, orb_true_r. }
    pose proof (scan_while_le is_number_byte (b :: rest)) as Hle. simpl length in Hle.
    set (w := scan_while is_number_byte (b :: rest)) in *. clearbody w.
    destruct (parse_number _); try done. intros [= <-]. wf_done.
  - destruct (is_ident_start b) eqn:Hid.
    + assert (1 <= scan_while is_ident_byte (b :: rest))%nat as Hw.
      { apply scan_while_head. unfold is_ident_start in Hid.
        unfold is_ident_byte, is_ascii_alphanumeric.
        apply orb_true_iff in Hid as [-> | ->]; [done|by rewrite orb_true_r]. }
      pose proof (scan_while_le is_ident_byte (b :: rest)) as Hle. simpl length in Hle.
      set (w := scan_while is_ident_byte (b :: rest)) in *. clearbody w.
      assert (exists j, (k < j <= length (src l))%nat /\
        (match drop (k + w) (src l) with
         | "["%b :: sub => (k + w + 1 + scan_subscript 1 sub)%nat
         | _ => (k + w)%nat end) = j) as (j & Hj & ->).
      { eexists. split; [|reflexivity].
        destruct (drop (k + w) (src l)) as [|x sub] eqn:Hx; [lia|].
        assert (length (src l) = (k + w + S (length sub))%nat).
        { apply (f_equal length) in Hx. rewrite length_drop in Hx. simpl in Hx. lia. }
        pose proof (scan_subscript_le 1 sub).
        repeat match goal with |- context [match ?y with _ => _ end] => destruct y end; lia. }
      intros [= <-]. unfold slice.
      pose proof (length_take (drop k (src l)) (j - k)) as Ht. rewrite length_drop in Ht. wf_done.
    + destruct (operator_tok _ _ _) as [[t w]|] eqn:Hop; [|by split_ifs].
      intros [= <-].
      pose proof (operator_tok_width _ _ _ _ _ Hop) as Hw.
      apply operator_tok_fits in Hop.
      assert (w <= S (length rest))%nat.
      { destruct rest as [|c [|d rest]]; simpl; destruct Hop as [->|[[-> ?]|(-> & ? & ?)]]; lia. }
      destruct t; try done; wf_done.
Qed.

(** Advancing past a token leaves strictly less input. *)
Lemma advance_shrinks l l' :
  lexwf l -> advance l = Ok l' ->
  lexwf l' /\ src l' = src l /\ (cur l <> Tok.Eof -> (lsize l' < lsize l)%nat).
Proof.
  intros (Hi & Hlen & Hc) Ha.
  destruct (advance_wf l l') as (Hwf & Hsrc & Hle); [lia|done|].
  repeat split; try apply Hwf; try done. intros Hne. unfold lsize. rewrite Hsrc.
  destruct (cur l); try done; lia.
Qed.

Lemma consume_shrinks l l' :
  lexwf l -> (cur l = Tok.PlusPlus \/ cur l = Tok.MinusMinus) ->
  consume_first_char_of_double_operator l = Ok l' ->
  lexwf l' /\ src l' = src l /\ (lsize l' < lsize l)%nat.
Proof.
  intros (Hi & Hlen & Hc) Ht Ha. unfold consume_first_char_of_double_operator in Ha.
  apply advance_wf in Ha as (Hwf & Hsrc & Hle); simpl in *; [|lia].
  repeat split; try apply Hwf; try done. unfold lsize. rewrite Hsrc.
  destruct Ht as [Ht|Ht]; rewrite Ht in Hc; lia.
Qed.

Lemma radix_loop_not_fuel ds rx raw v : radix_loop ds rx raw v <> Fuel.
Proof.
  revert v. induction ds as [|d ds IH]; intros v; simpl; [done|]. by destruct (to_digit d rx).
Qed.

Lemma base_loop_not_fuel ds b raw v : base_loop ds b raw v <> Fuel.
Proof.
  revert v. induction ds as [|d ds IH]; intros v; simpl; [done|].
  destruct (base_digit b d) as [x|]; [|done]. by destruct (b <=? x).
Qed.

Lemma parse_number_not_fuel s : parse_number s <> Fuel.
Proof.
  assert (forall ds rx raw, parse_radix_wrapping ds rx raw <> Fuel) as Hrad.
  { intros. unfold parse_radix_wrapping. destruct (is_nil ds); [done|apply radix_loop_not_fuel]. }
  unfold parse_number. destruct (find_byte _ s).
  - destruct (parse_i64 _); [|done]. split_ifs; try done. apply base_loop_not_fuel.
  - destruct (strip_prefix (bs "0x") s); [apply Hrad|].
    destruct (strip_prefix (bs "0X") s); [apply Hrad|]. split_ifs; apply Hrad.
Qed.

Lemma advance_not_fuel l : advance l <> Fuel.
Proof.
  unfold advance. destruct (drop _ (src l)) as [|b rest]; [done|].
  destruct (is_ascii_digit b).
  - unfold lex_number. match goal with |- context [parse_number ?s] =>
      pose proof (parse_number_not_fuel s); by destruct (parse_number s) end.
  - destruct (is_ident_start b); [done|].
    destruct (operator_tok _ _ _) as [[]|]; [done|by split_ifs].
Qed.

(** * A total-correctness logic with fuel

    [ends c f P]: from some fuel on, the run of [f] from [c] is the same
    complete run (a value satisfying [P], or an error). *)

Definition ends {E A} (f : nat -> M E A) (c : Ctx E) (P : A -> Ctx E -> Prop) : Prop :=
  exists n res c', (forall m, (n <= m)%nat -> f m c = (res, c')) /\
    match res with Ok a => P a c' | Err _ => True | Fuel => False end.

(** The stores an evaluation may meet. *)
Class Good (E : Type) := good : E -> Prop.

(** The same from every context with a good store, value-recursion depth [d]
    and subscript flag [b], which the run restores. *)
Definition at_state {E} `{Good E} (d : Z) (b : bool) (c : Ctx E) : Prop :=
  value_depth c = d /\ arith_expand_subscripts c = b /\ good (env c).

Definition total {E} `{Good E} {A} (d : Z) (b : bool) (P : A -> Prop) (f : nat -> M E A) : Prop :=
  forall c, at_state d b c -> ends f c (fun a c' => at_state d b c' /\ P a).

(** What makes a set of stores good: reading and writing decimal numbers stay
    in it, and its name references lead to plain names. *)
Class PlainStore (E : Type) `{Environment E} `{Good E} : Prop := {
  plain_target : forall (e : E) name target, good e ->
    env_resolve_nameref e name = Some target -> target <> name -> array_ref_parts target = None;
  good_get : forall (e : E) name, good e -> good (snd (env_get e name));
  good_get_indexed : forall (e : E) name i, good e -> good (snd (env_get_array_indexed e name i));
  good_get_assoc : forall (e : E) name k, good e -> good (snd (env_get_array_assoc e name k));
  good_assign : forall (e : E) name v, good e -> good (snd (env_assign e name (i64_to_string v)));
  good_set_indexed : forall (e : E) name i v, good e -> good (env_set_array_indexed e name i (i64_to_string v));
  good_set_assoc : forall (e : E) name k v, good e -> good (env_set_array_assoc e name k (i64_to_string v));
}.

Section Total.
Context {E : Type} `{Good E} (d : Z) (b : bool).

Lemma total_ret {A} (P : A -> Prop) a : P a -> total (E:=E) d b P (fun _ => ret a).
Proof. intros HP c Hc. exists 0%nat, (Ok a), c. by split. Qed.

Lemma total_err {A} (P : A -> Prop) e : total (E:=E) d b P (fun _ => err e).
Proof. intros c Hc. exists 0%nat, (Err e), c. by split. Qed.

Lemma total_lift {A} (P : A -> Prop) r :
  r <> Fuel -> (forall a, r = Ok a -> P a) -> total (E:=E) d b P (fun _ => lift r).
Proof.
  intros Hf HP c Hc. exists 0%nat, r, c. split; [done|]. destruct r; auto.
Qed.

Lemma total_asks {A} (f : Ctx E -> A) : total d b (fun _ => True) (fun _ => asks f).
Proof. intros c Hc. exists 0%nat, (Ok (f c)), c. by split. Qed.

Lemma total_bind {A B} (P : A -> Prop) (Q : B -> Prop) f k :
  total (E:=E) d b P f -> (forall a, P a -> total d b Q (fun m => k m a)) ->
  total d b Q (fun m => bind (f m) (k m)).
Proof.
  intros Hf Hk c Hc. destruct (Hf c Hc) as (n & res & c' & Hrun & Hres).
  destruct res as [a|e|]; [|exists n, (Err e), c'; split; [|done];
    intros m Hm; unfold bind; by rewrite Hrun|done].
  destruct Hres as [Hc' HP]. destruct (Hk a HP c' Hc') as (n' & res & c'' & Hrun' & Hres).
  exists (n `max` n')%nat, res, c''. split; [|done].
  intros m Hm. unfold bind. rewrite Hrun by lia. apply Hrun'. lia.
Qed.

Lemma total_weaken {A} (P Q : A -> Prop) f :
  total (E:=E) d b P f -> (forall a, P a -> Q a) -> total d b Q f.
Proof.
  intros Hf HPQ c Hc. destruct (Hf c Hc) as (n & res & c' & Hrun & Hres).
  exists n, res, c'. split; [done|]. destruct res; [|done..]. destruct Hres. auto.
Qed.

(** A loop whose body decreases [mu] at every round ends. *)
Lemma total_loop {S A} (mu : S -> nat) (I : S -> Prop) (Q : A -> Prop)
    (fl : nat -> nat) (body : nat -> S -> M E (S + A)) s :
  (forall m, (m <= fl m)%nat) ->
  (forall s, I s -> total d b (fun x => match x with
     | inl s' => I s' /\ (mu s' < mu s)%nat
     | inr a => Q a end) (fun m => body m s)) ->
  I s -> total d b Q (fun m => loop (fl m) (body m) s).
Proof.
  intros Hfl Hb HI c Hc.
  assert (exists n res c', (forall k m, (n <= k)%nat -> (n <= m)%nat ->
            loop k (body m) s c = (res, c')) /\
          match res with Ok a => at_state d b c' /\ Q a | Err _ => True | Fuel => False end)
    as (n & res & c' & Hrun & Hres).
  { remember (mu s) as z eqn:Hz. revert s c Hz HI Hc.
    induction (lt_wf z) as [z _ IH]. intros s c -> HI Hc.
    destruct (Hb s HI c Hc) as (n & res & c' & Hrun & Hres).
    destruct res as [[s'|a]|e|]; [| | |done].
    - destruct Hres as (Hc' & HI' & Hlt).
      destruct (IH (mu s') Hlt s' c' eq_refl HI' Hc') as (n' & res & c'' & Hrun' & Hres').
      exists (Datatypes.S (n `max` n')), res, c''. split; [|done].
      intros [|k] m Hk Hm; [lia|]. simpl. unfold bind. rewrite Hrun by lia. apply Hrun'; lia.
    - exists (Datatypes.S n), (Ok a), c'. split; [|done].
      intros [|k] m Hk Hm; [lia|]. simpl. unfold bind. by rewrite Hrun by lia.
    - exists (Datatypes.S n), (Err e), c'. split; [|done].
      intros [|k] m Hk Hm; [lia|]. simpl. unfold bind. by rewrite Hrun by lia. }
  exists n, res, c'. split; [|done]. intros m Hm. apply Hrun; [|done].
  specialize (Hfl m). lia.
Qed.

End Total.

Create HintDb total.
#[export] Hint Resolve total_asks : total.

Ltac total_step :=
  match goal with
  | |- total _ _ _ (fun _ => ret _) => apply total_ret
  | |- total _ _ _ (fun _ => again _ _ _ _) => apply total_ret
  | |- total _ _ _ (fun _ => leave _ _) => apply total_ret
  | |- total _ _ _ (fun _ => err _) => apply total_err
  | |- total _ _ _ (fun m => bind _ _) =>
      eapply total_bind;
      [solve [eauto with total]
      |intros; repeat match goal with x : prod _ _ |- _ => destruct x end; simpl in *;
       destruct_and?]
  | |- total _ _ _ (fun m => if ?x then _ else _) => destruct x eqn:?
  | |- total _ _ _ (fun m => match ?x with _ => _ end) => destruct x eqn:?
  end.

Ltac total_tail :=
  eapply total_weaken;
  [solve [eauto with total]
  |intros; repeat match goal with x : prod _ _ |- _ => destruct x end; simpl in *;
   destruct_and?; repeat match goal with |- _ /\ _ => split end; eauto with total].

Ltac total_auto :=
  repeat total_step;
  try solve [repeat match goal with |- _ /\ _ => split end; eauto with total | total_tail].

(** * Termination of the parsing functions *)

Lemma tok_eqb_true a b : tok_eqb a b = true -> a = b.
Proof. apply bool_decide_eq_true. Qed.

Section Terminates.
Context {E : Type} `{Environment E} `{!Good E} `{!PlainStore E} (expand : bytes -> M E bytes).

Abbreviation K := (knot expand).

Lemma fuel_knot m : (m <= fuel (K m))%nat.
Proof. by destruct m. Qed.

(** A back edge of the recursion costs one unit of fuel. *)
Lemma total_shift {A} d b (P : A -> Prop) (f g : nat -> M E A) :
  (forall m, g (S m) = f m) -> total d b P f -> total d b P g.
Proof.
  intros Hg Hf c Hc. destruct (Hf c Hc) as (n & res & c' & Hrun & Hres).
  exists (S n), res, c'. split; [|done]. intros [|m] Hm; [lia|]. rewrite Hg. apply Hrun. lia.
Qed.

(** [F] ends on [lex], having consumed some input when it succeeds. *)
Definition pterm (d : Z) (b : bool) (lex : Lexer) (F : nat -> Lexer -> bool -> M E (Z * Lexer))
  : Prop :=
  forall active, total d b (fun '(v, l) => lexwf l /\ (lsize l < lsize lex)%nat)
                   (fun m => F m lex active).

Section Level.
Context (d : Z) (b : bool) (s : nat).

Hypothesis Hcomma : forall lex, lexwf lex -> (lsize lex < s)%nat ->
  pterm d b lex (fun m => r_comma (K m)).
Hypothesis Hassign : forall lex, lexwf lex -> (lsize lex < s)%nat ->
  pterm d b lex (fun m => r_assign (K m)).
Hypothesis Hternary : forall lex, lexwf lex -> (lsize lex < s)%nat ->
  pterm d b lex (fun m => r_ternary (K m)).
Hypothesis Hpower : forall lex, lexwf lex -> (lsize lex < s)%nat ->
  pterm d b lex (fun m => r_power (K m)).
Hypothesis Hunary : forall lex, lexwf lex -> (lsize lex < s)%nat ->
  pterm d b lex (fun m => r_unary (K m)).
Hypothesis Hresolve : forall name, (length name <= s)%nat ->
  total d b (fun _ => True) (fun m => resolve_lvalue expand (K m) name).
Hypothesis Hload : forall lv, total d b (fun _ => True) (fun m => load_lvalue_value (K m) lv).
Hypothesis Hident : forall name, (length name <= s)%nat ->
  total d b (fun _ => True) (fun m => load_ident_value expand (K m) name).

Lemma total_advance lex :
  lexwf lex -> cur lex <> Tok.Eof ->
  total (E:=E) d b (fun l => lexwf l /\ (lsize l < lsize lex)%nat) (fun _ => lift (advance lex)).
Proof.
  intros Hwf Hne. apply total_lift; [apply advance_not_fuel|].
  intros l Hl. destruct (advance_shrinks lex l) as (? & ? & ?); auto.
Qed.

Lemma total_consume lex :
  lexwf lex -> (cur lex = Tok.PlusPlus \/ cur lex = Tok.MinusMinus) ->
  total (E:=E) d b (fun l => lexwf l /\ (lsize l < lsize lex)%nat)
    (fun _ => lift (consume_first_char_of_double_operator lex)).
Proof.
  intros Hwf Ht. apply total_lift; [apply advance_not_fuel|].
  intros l Hl. by destruct (consume_shrinks lex l) as (? & ? & ?).
Qed.

Lemma total_rhs lex p :
  total (E:=E) d b (fun _ => True) (fun _ => lift (arith_rhs_expected lex p)).
Proof. apply total_lift; [|done]. unfold arith_rhs_expected. by destruct (tok_eqb _ _). Qed.

Lemma total_store lv v : total (E:=E) d b (fun _ => True) (fun _ => store_lvalue_value lv v).
Proof.
  intros c (Hd & Hb & Hg). unfold ends. destruct lv as [name|name k|name k]; simpl.
  - pose proof (good_assign (env c) name v Hg) as Hg'. unfold store_scalar_ident_value.
    destruct (env_assign _ _ _) as [[x|] e]; simpl; exists 0%nat; do 2 eexists; split; try done; by repeat split.
  - pose proof (good_set_indexed (env c) name k v Hg).
    destruct (env_is_readonly _ _); exists 0%nat; do 2 eexists; split; try done; by repeat split.
  - pose proof (good_set_assoc (env c) name k v Hg).
    destruct (env_is_readonly _ _); exists 0%nat; do 2 eexists; split; try done; by repeat split.
Qed.

Lemma ident_size lex nm : lexwf lex -> cur lex = Tok.Ident nm -> (length nm <= lsize lex)%nat.
Proof. intros (? & ? & Hc) Hi. rewrite Hi in Hc. unfold lsize. lia. Qed.

(** [cur l <> Eof] follows from any test the code makes on the token. *)
Ltac token_known :=
  repeat match goal with
  | H : tok_eqb _ _ = true |- _ => apply tok_eqb_true in H
  | H : negb (tok_eqb _ _) = false |- _ => apply negb_false_iff in H
  end; congruence.

#[local] Hint Extern 1 (cur _ <> Tok.Eof) => token_known : total.
#[local] Hint Extern 1 (cur _ = Tok.PlusPlus \/ cur _ = Tok.MinusMinus) => tauto : total.
#[local] Hint Resolve total_advance total_consume total_rhs total_store : total.
#[local] Hint Extern 1 (_ < _)%nat => lia : total.
#[local] Hint Extern 1 (_ <= _)%nat => lia : total.
#[local] Hint Extern 1 (length _ <= _)%nat =>
  match goal with
  | Hc : cur ?l = Tok.Ident ?n, Hw : lexwf ?l |- (length ?n <= _)%nat =>
      pose proof (ident_size _ _ Hw Hc); lia
  end : total.

Lemma call_comma lex active : lexwf lex -> (lsize lex < s)%nat ->
  total d b (fun '(v, l) => lexwf l /\ (lsize l < lsize lex)%nat)
    (fun m => r_comma (K m) lex active).
Proof. intros. by apply Hcomma. Qed.
Lemma call_assign lex active : lexwf lex -> (lsize lex < s)%nat ->
  total d b (fun '(v, l) => lexwf l /\ (lsize l < lsize lex)%nat)
    (fun m => r_assign (K m) lex active).
Proof. intros. by apply Hassign. Qed.
Lemma call_ternary lex active : lexwf lex -> (lsize lex < s)%nat ->
  total d b (fun '(v, l) => lexwf l /\ (lsize l < lsize lex)%nat)
    (fun m => r_ternary (K m) lex active).
Proof. intros. by apply Hternary. Qed.
Lemma call_power lex active : lexwf lex -> (lsize lex < s)%nat ->
  total d b (fun '(v, l) => lexwf l /\ (lsize l < lsize lex)%nat)
    (fun m => r_power (K m) lex active).
Proof. intros. by apply Hpower. Qed.
Lemma call_unary lex active : lexwf lex -> (lsize lex < s)%nat ->
  total d b (fun '(v, l) => lexwf l /\ (lsize l < lsize lex)%nat)
    (fun m => r_unary (K m) lex active).
Proof. intros. by apply Hunary. Qed.

#[local] Hint Resolve call_comma call_assign call_ternary call_power call_unary
  Hresolve Hload Hident : total.

(** The obligation on each parsing function at the current size. *)
Abbreviation pok F := (forall lex, lexwf lex -> (lsize lex <= s)%nat -> pterm d b lex F).

Lemma term_primary : pok (fun m => parse_primary expand (K m)).
Proof. intros lex Hwf Hs active. unfold parse_primary. total_auto. Qed.

Lemma term_active_lvalue nm active :
  (length nm <= s)%nat ->
  total d b (fun _ => True) (fun m => active_lvalue expand (K m) nm active).
Proof. intros Hn. unfold active_lvalue. total_auto. Qed.

Lemma term_store_active lv v : total (E:=E) d b (fun _ => True) (fun _ => store_active lv v).
Proof. unfold store_active. total_auto. Qed.

Lemma term_call F lex active :
  pok F -> lexwf lex -> (lsize lex <= s)%nat ->
  total d b (fun '(v, l) => lexwf l /\ (lsize l < lsize lex)%nat) (fun m => F m lex active).
Proof. intros HF ? ?. by apply HF. Qed.

#[local] Hint Resolve term_active_lvalue term_store_active : total.

Lemma term_postfix : pok (fun m => parse_postfix expand (K m)).
Proof.
  intros lex Hwf Hs active. unfold parse_postfix.
  destruct (cur lex) eqn:Hc; try by apply term_primary. total_auto.
Qed.

Lemma term_target lex p sign :
  lexwf lex ->
  total d b (fun '(name, l) => lexwf l /\ (lsize l <= lsize lex)%nat /\
               match name with Some nm => cur l = Tok.Ident nm | None => True end)
    (fun m => prefix_inc_dec_target_name (K m) lex p sign).
Proof.
  intros Hwf. unfold prefix_inc_dec_target_name.
  eapply (total_loop d b (fun '(l, _) => lsize l)
           (fun '(l, _) => lexwf l /\ (lsize l <= lsize lex)%nat)); [apply fuel_knot| |auto].
  intros [l q] [Hl Hle]. total_auto.
Qed.

#[local] Hint Resolve term_target : total.

Lemma term_has_target lex :
  lexwf lex -> cur lex <> Tok.Eof ->
  total d b (fun _ => True) (fun m => prefix_inc_dec_has_target (K m) lex).
Proof. intros Hwf Hne. unfold prefix_inc_dec_has_target. total_auto. Qed.

Lemma term_apply_pre lex dl active p :
  lexwf lex -> (lsize lex <= s)%nat ->
  total d b (fun '(v, l) => lexwf l /\ (lsize l < lsize lex)%nat)
    (fun m => apply_pre expand (K m) lex dl active p).
Proof. intros Hwf Hs. unfold apply_pre. total_auto. Qed.

Lemma term_unary_operand lex active :
  lexwf lex -> (lsize lex <= s)%nat -> cur lex <> Tok.Eof ->
  total d b (fun '(v, l) => lexwf l /\ (lsize l < lsize lex)%nat)
    (fun m => unary_operand (K m) lex active).
Proof. intros Hwf Hs Hne. unfold unary_operand. total_auto. Qed.

#[local] Hint Resolve term_has_target term_apply_pre term_unary_operand : total.

Lemma term_unary : pok (fun m => parse_unary expand (K m)).
Proof.
  intros lex Hwf Hs active. unfold parse_unary.
  destruct (cur lex) eqn:Hc; try by apply term_postfix. all: total_auto.
Qed.

Lemma term_power : pok (fun m => parse_power expand (K m)).
Proof.
  intros lex Hwf Hs active. unfold parse_power.
  eapply total_bind; [by apply term_unary|intros [v l] [Hl Hlt]]. total_auto.
Qed.

Lemma call_parse_power lex active :
  lexwf lex -> (lsize lex <= s)%nat ->
  total d b (fun '(v, l) => lexwf l /\ (lsize l < lsize lex)%nat)
    (fun m => parse_power expand (K m) lex active).
Proof. intros. by apply term_power. Qed.

#[local] Hint Resolve call_parse_power : total.

(** A loop of a binary level: started at [lex0], every round shrinks the input. *)
Lemma term_loop lex0 (body : nat -> Z * Lexer -> M E ((Z * Lexer) + (Z * Lexer))) v lex :
  (forall v l, lexwf l -> (lsize l < lsize lex0)%nat ->
    total d b (fun x => match x with
      | inl (_, l') => lexwf l' /\ (lsize l' < lsize l)%nat
      | inr (_, l') => lexwf l' /\ (lsize l' <= lsize l)%nat end) (fun m => body m (v, l))) ->
  lexwf lex -> (lsize lex < lsize lex0)%nat ->
  total d b (fun '(v, l) => lexwf l /\ (lsize l < lsize lex0)%nat)
    (fun m => loop (fuel (K m)) (body m) (v, lex)).
Proof.
  intros Hb Hl Hlt.
  eapply (total_loop d b (fun '(_, l) => lsize l)
           (fun '(_, l) => lexwf l /\ (lsize l < lsize lex0)%nat)); [apply fuel_knot| |auto].
  intros [v' l'] [Hl' Hlt']. eapply total_weaken; [by apply Hb|].
  intros [[]|[]]; simpl; intuition lia.
Qed.

Ltac term_level lex Hsub :=
  eapply total_bind; [by apply Hsub|intros [v l] [Hl Hlt]];
  eapply total_bind;
  [apply (term_loop lex); [|done..]; intros v' l' Hl' Hlt'; total_auto
  |intros [v1 l1] [Hl1 Hlt1]; by apply total_ret].

Lemma term_mul : pok (fun m => parse_mul expand (K m)).
Proof. intros lex Hwf Hs active. unfold parse_mul. term_level lex term_power. Qed.

Lemma call_parse_mul lex active :
  lexwf lex -> (lsize lex <= s)%nat ->
  total d b (fun '(v, l) => lexwf l /\ (lsize l < lsize lex)%nat)
    (fun m => parse_mul expand (K m) lex active).
Proof. intros. by apply term_mul. Qed.

#[local] Hint Resolve call_parse_mul : total.

Lemma term_add : pok (fun m => parse_add expand (K m)).
Proof. intros lex Hwf Hs active. unfold parse_add. term_level lex term_mul. Qed.

Lemma term_binary (F : nat -> Lexer -> bool -> M E (Z * Lexer)) op act :
  op Tok.Eof = None -> pok F -> pok (fun m => binary_level (K m) (F m) op act).
Proof.
  intros Hop HF lex Hwf Hs active. unfold binary_level.
  eapply total_bind; [by apply HF|intros [v l] [Hl Hlt]].
  eapply total_bind; [apply (term_loop lex); [|done..]; intros v' l' Hl' Hlt'|].
  - destruct (op (cur l')) eqn:Ho; [|by apply total_ret].
    eapply total_bind; [apply total_advance; congruence|intros l2 [Hl2 Hlt2]].
    eapply total_bind; [apply HF; [done|lia]|intros [x l3] [Hl3 Hlt3]].
    apply total_ret. split; [done|lia].
  - intros [v1 l1] [Hl1 Hlt1]. by apply total_ret.
Qed.

Lemma term_logor : pok (fun m => parse_logor expand (K m)).
Proof. repeat (apply term_binary; [done|]). apply term_add. Qed.

Lemma term_ternary : pok (fun m => parse_ternary expand (K m)).
Proof.
  intros lex Hwf Hs active. unfold parse_ternary.
  eapply total_bind; [by apply term_logor|intros [v l] [Hl Hlt]]. total_auto.
Qed.

Lemma total_advance_eq lex :
  lexwf lex -> total (E:=E) d b (fun l => advance lex = Ok l) (fun _ => lift (advance lex)).
Proof. intros Hwf. apply total_lift; [apply advance_not_fuel|done]. Qed.

Lemma assigned_not_fuel o x y : assigned_value o x y <> Fuel.
Proof.
  unfold assigned_value.
  repeat match goal with |- match ?z with _ => _ end <> _ => destruct z end; done.
Qed.

Lemma term_store_ident nm v :
  (length nm <= s)%nat -> total d b (fun _ => True) (fun m => store_ident_value expand (K m) nm v).
Proof. intros Hn. unfold store_ident_value. total_auto. Qed.

Lemma term_assign : pok (fun m => parse_assign expand (K m)).
Proof.
  intros lex Hwf Hs active. unfold parse_assign.
  assert (total d b (fun '(v, l) => lexwf l /\ (lsize l < lsize lex)%nat)
    (fun m => let! (v, lex) := parse_ternary expand (K m) lex active in
              ret (when_active active v, lex))) as Hplain.
  { eapply total_bind; [by apply term_ternary|intros [v l] [Hl Hlt]]. by apply total_ret. }
  destruct (cur lex) eqn:Hc; try done.
  pose proof (ident_size _ _ Hwf Hc) as Hn.
  eapply total_bind; [by apply total_advance_eq|intros l Hl].
  destruct (assignment_opcode (cur l)) eqn:Hop; [|done].
  eapply total_bind; [by apply total_advance_eq|intros l0 Hl0].
  assert (l0 = l) as -> by congruence.
  destruct (advance_shrinks lex l Hwf Hl) as (Hlwf & _ & Hlt). specialize (Hlt ltac:(congruence)).
  eapply total_bind; [apply total_advance; [done|by destruct (cur l)]|intros l2 [Hl2 Hlt2]].
  eapply total_bind; [apply term_active_lvalue; lia|intros [pre lhs] _].
  eapply total_bind; [apply call_assign; [done|lia]|intros [rhs l3] [Hl3 Hlt3]].
  total_step; [total_auto|].
  eapply total_bind with (P := fun _ => True);
    [apply total_lift; [apply assigned_not_fuel|done]|intros nv _].
  eapply total_bind with (P := fun _ => True).
  - destruct active; [|by apply total_ret].
    destruct pre; [total_auto|]. apply term_store_ident. lia.
  - intros _ _. apply total_ret. split; [done|lia].
Qed.

Lemma call_parse_assign lex active :
  lexwf lex -> (lsize lex <= s)%nat ->
  total d b (fun '(v, l) => lexwf l /\ (lsize l < lsize lex)%nat)
    (fun m => parse_assign expand (K m) lex active).
Proof. intros. by apply term_assign. Qed.

#[local] Hint Resolve call_parse_assign : total.

Lemma term_comma : pok (fun m => parse_comma expand (K m)).
Proof. intros lex Hwf Hs active. unfold parse_comma. term_level lex term_assign. Qed.

End Level.

(** ** Values and lvalues *)

Lemma total_get_cow d b name : total d b (fun _ => True) (fun _ => get_cow (E:=E) name).
Proof.
  intros c (Hd & Hb & Hg). pose proof (good_get (env c) name Hg). unfold get_cow. exists 0%nat. destruct (env_get (env c) name) as [v e].
  exists (Ok v), (with_env c e). split; [done|]. by repeat split.
Qed.

Lemma total_get_indexed d b name k :
  total d b (fun _ => True) (fun _ => get_array_indexed_cow (E:=E) name k).
Proof.
  intros c (Hd & Hb & Hg). pose proof (good_get_indexed (env c) name k Hg). unfold get_array_indexed_cow. exists 0%nat.
  destruct (env_get_array_indexed (env c) name k) as [v e].
  exists (Ok v), (with_env c e). split; [done|]. by repeat split.
Qed.

Lemma total_get_assoc d b name k :
  total d b (fun _ => True) (fun _ => get_array_assoc_cow (E:=E) name k).
Proof.
  intros c (Hd & Hb & Hg). pose proof (good_get_assoc (env c) name k Hg). unfold get_array_assoc_cow. exists 0%nat.
  destruct (env_get_array_assoc (env c) name k) as [v e].
  exists (Ok v), (with_env c e). split; [done|]. by repeat split.
Qed.

#[local] Hint Resolve total_get_cow total_get_indexed total_get_assoc : total.

Lemma total_unset d b name : total d b (fun _ => True) (fun _ => unset_value (E:=E) name).
Proof. unfold unset_value. total_auto. Qed.

#[local] Hint Resolve total_unset : total.

(** Values end at depth [d] when the recursive evaluation of texts does. *)
Definition vterm (d : Z) : Prop := forall b t depth,
  total d b (fun _ => True) (fun m => parse_value_recursive expand (K m) t depth).

Section Values.
Context (d : Z).
Hypothesis Hvalue : vterm d.

Lemma term_finish b v depth :
  total d b (fun _ => True) (fun m => finish_loaded_value (K m) v depth).
Proof.
  destruct v as [v|t]; simpl; [by apply total_ret|].
  eapply total_shift; [|apply Hvalue]. done.
Qed.

#[local] Hint Resolve term_finish : total.

Lemma term_load b lv : total d b (fun _ => True) (fun m => load_lvalue_value (K m) lv).
Proof. unfold load_lvalue_value. total_auto. Qed.

End Values.

Lemma array_ref_sub name base sub :
  array_ref_parts name = Some (base, sub) -> (length sub < length name)%nat.
Proof.
  unfold array_ref_parts. destruct (find_byte _ name) as [k|] eqn:Hk; [|done].
  destruct (negb (ends_with _ _)); [done|]. destruct (negb _); [done|]. intros [= _ <-].
  apply find_byte_lt in Hk. rewrite length_slice by lia. lia.
Qed.

(** What is relied on: subscript expansion returns, restoring the counters and
    keeping the store good. *)
Hypothesis expand_returns : forall t c,
  match expand t c with
  | (Fuel, _) => False
  | (_, c') => value_depth c' = value_depth c /\
               arith_expand_subscripts c' = arith_expand_subscripts c /\
               (good (env c) -> good (env c'))
  end.
Context `{!NamerefFinal E}.

Lemma total_expand d b t : total d b (fun _ => True) (fun _ => expand t).
Proof.
  intros c (Hd & Hb & Hg). pose proof (expand_returns t c) as He.
  destruct (expand t c) as [res c'] eqn:Hr. exists 0%nat, res, c'. split; [done|].
  destruct res; [|done..]. destruct He as (Hd' & Hb' & Hg'). repeat split; [congruence..|auto].
Qed.

Lemma total_flag {A} d b b' (P : A -> Prop) (f : nat -> M E A) :
  total d b' P f ->
  total d b P (fun m c => let '(res, c') := f m (with_expand_subscripts c b') in
                          (res, with_expand_subscripts c' (arith_expand_subscripts c))).
Proof.
  intros Hf c (Hd & Hb & Hg).
  destruct (Hf (with_expand_subscripts c b')) as (n & res & c' & Hrun & Hres); [by repeat split|].
  exists n, res, (with_expand_subscripts c' (arith_expand_subscripts c)). split.
  - intros m Hm. by rewrite Hrun.
  - destruct res; [|done..]. destruct Hres as [(Hd' & _ & Hg') HP]. by repeat split.
Qed.

Lemma total_new d b t :
  total (E:=E) d b (fun l => lexwf l /\ (lsize l <= length t)%nat) (fun _ => lift (Lexer_new t)).
Proof.
  apply total_lift; [apply advance_not_fuel|]. intros l Hl.
  apply advance_wf in Hl as (Hwf & Hsrc & _); simpl in *; [|lia].
  split; [done|]. unfold lsize. rewrite Hsrc. lia.
Qed.

Lemma term_array_index d b sub :
  (forall lex, lexwf lex -> b = true \/ (lsize lex <= length sub)%nat ->
     pterm d false lex (fun m => r_comma (K m))) ->
  total d b (fun _ => True) (fun m => eval_array_index expand (K m) sub).
Proof.
  intros Hc. unfold eval_array_index.
  eapply total_bind with (P := fun x => x = b).
  { intros c (Hd & Hb & Hg). exists 0%nat, (Ok b), c. unfold asks. rewrite Hb. by repeat split. }
  intros ? ->. eapply total_bind; [apply total_asks|intros once _].
  eapply total_bind with (P := fun x => b = true \/ x = sub).
  { destruct b; [|by apply total_ret; right]. destruct once; [by apply total_ret; right|].
    eapply total_weaken; [apply total_expand|by left]. }
  intros x Hx. total_step; [total_auto|].
  eapply total_bind; [apply total_asks|intros aes _].
  total_step; [total_auto|]. destruct (find_sub _ x); [total_auto|].
  apply (total_flag d b false (fun _ : Z => True) (fun m =>
    let! sub_lex := lift (Lexer_new x) in
    let! (idx, sub_lex) := r_comma (K m) sub_lex true in
    if negb (tok_eqb (cur sub_lex) Tok.Eof) then
      err (arith_syntax_error_in_expression (src sub_lex) (tok_start sub_lex))
    else ret idx)).
  eapply total_bind; [apply total_new|intros l [Hl Hle]].
  eapply total_bind; [apply Hc; [done|]; destruct Hx as [?| ->]; [by left|by right]|].
  intros [v l'] _. total_auto.
Qed.

(** Resolution of a name that is not followed further. *)
Lemma term_resolve_here d b (e : E) name :
  (forall lex, lexwf lex -> b = true \/ (lsize lex < length name)%nat ->
     pterm d false lex (fun m => r_comma (K m))) ->
  total d b (fun _ => True) (fun m =>
    match array_ref_parts name with
    | Some (base, subscript) =>
        if bool_decide (env_kind e base = KAssoc) then
          ret (Assoc base (unescape_assoc_subscript subscript))
        else if is_nil subscript then err (InvalidArraySubscript (base ++ bs "[]"))
        else
          let! index := eval_array_index expand (K m) subscript in
          ret (Indexed base index)
    | None => ret (Scalar name)
    end).
Proof.
  intros Hc. destruct (array_ref_parts name) as [[base sub]|] eqn:Hp; [|total_auto].
  apply array_ref_sub in Hp. total_step; [total_auto|]. total_step; [total_auto|].
  eapply total_bind; [|intros; by apply total_ret].
  apply term_array_index. intros lex Hl Hle. apply Hc; [done|]. destruct Hle; [by left|right; lia].
Qed.

(** The target of a nameref is not followed again. *)
Lemma follow_once (e : E) name target :
  good e -> follow_nameref e name = Some target ->
  array_ref_parts target = None /\ follow_nameref e target = None.
Proof.
  intros Hg. unfold follow_nameref. destruct (array_ref_parts name); [done|].
  destruct (env_attr_nameref e name); [|done].
  destruct (env_resolve_nameref e name) as [t|] eqn:Ht; [|done].
  destruct (bytes_eqb t name) eqn:Heq; [done|]. intros [= ->].
  assert (target <> name) as Hne by (intros ->; by rewrite bytes_eqb_refl in Heq).
  rewrite (plain_target e name target Hg Ht Hne). split; [done|].
  destruct (env_attr_nameref e target) eqn:Ha; [|done].
  rewrite (resolve_nameref_final e name target Ht Ha). by rewrite bytes_eqb_refl.
Qed.

Lemma term_resolve d b name :
  (forall lex, lexwf lex -> b = true \/ (lsize lex < length name)%nat ->
     pterm d false lex (fun m => r_comma (K m))) ->
  total d b (fun _ => True) (fun m => resolve_lvalue expand (K m) name).
Proof.
  intros Hc c Hst. destruct (follow_nameref (env c) name) as [target|] eqn:Hf.
  - destruct (follow_once _ _ _ (proj2 (proj2 Hst)) Hf) as [Hp Hf'].
    exists 1%nat, (Ok (Scalar target)), c. split; [|by split].
    intros [|m] Hm; [lia|]. unfold resolve_lvalue at 1, bind at 1, asks.
    rewrite Hf. simpl. unfold resolve_lvalue, bind at 1, asks. by rewrite Hf', Hp.
  - destruct (term_resolve_here d b (env c) name Hc c Hst) as (n & res & c' & Hrun & Hres).
    exists n, res, c'. split; [|done]. intros m Hm.
    unfold resolve_lvalue, bind at 1, asks. rewrite Hf. by apply Hrun.
Qed.

(** ** The induction *)

(** Everything ends at depth [d] with flag [b] on inputs smaller than [s]. *)
Record all_term (d : Z) (b : bool) (s : nat) : Prop := {
  at_comma : forall lex, lexwf lex -> (lsize lex < s)%nat ->
    pterm d b lex (fun m => r_comma (K m));
  at_assign : forall lex, lexwf lex -> (lsize lex < s)%nat ->
    pterm d b lex (fun m => r_assign (K m));
  at_ternary : forall lex, lexwf lex -> (lsize lex < s)%nat ->
    pterm d b lex (fun m => r_ternary (K m));
  at_power : forall lex, lexwf lex -> (lsize lex < s)%nat ->
    pterm d b lex (fun m => r_power (K m));
  at_unary : forall lex, lexwf lex -> (lsize lex < s)%nat ->
    pterm d b lex (fun m => r_unary (K m));
}.

Lemma term_load_ident d b name :
  vterm d ->
  total d b (fun _ => True) (fun m => resolve_lvalue expand (K m) name) ->
  total d b (fun _ => True) (fun m => load_ident_value expand (K m) name).
Proof.
  intros Hv Hr. unfold load_ident_value.
  pose proof (term_load d Hv). pose proof (term_finish d Hv). total_auto.
Qed.

Lemma all_term_step d b s :
  vterm d -> (b = true -> forall s', all_term d false s') ->
  all_term d b s -> all_term d b (S s).
Proof.
  intros Hv Hflag [Hcom Hass Hter Hpow Hun].
  assert (Hres : forall name, (length name <= s)%nat ->
    total d b (fun _ => True) (fun m => resolve_lvalue expand (K m) name)).
  { intros name Hn. apply term_resolve. intros lex Hl Hle.
    destruct b; [by apply (at_comma _ _ (S (lsize lex)) (Hflag eq_refl _)); [|lia]|].
    destruct Hle as [?|?]; [done|]. apply Hcom; [done|lia]. }
  assert (Hid := fun name Hn => term_load_ident d b name Hv (Hres name Hn)).
  pose proof (term_load d Hv) as Hl.
  split; intros lex Hwf Hlt active;
    (eapply total_shift; [intros m; reflexivity|]); revert active;
    [eapply term_comma|eapply term_assign|eapply term_ternary|eapply term_power|eapply term_unary];
    eauto with lia; intros; try lia.
Qed.

Lemma all_term_any d b s : vterm d -> all_term d b s.
Proof.
  intros Hv.
  assert (Hf : forall s', all_term d false s').
  { induction s' as [|s' IH]; [split; intros; lia|]. by apply all_term_step. }
  destruct b; [|done]. induction s as [|s IH]; [split; intros; lia|]. by apply all_term_step.
Qed.

Lemma total_guard {A} d b (P : A -> Prop) e (f : nat -> M E A) :
  0 <= d -> (d < MAX_ARITH_NESTING -> total (d + 1) b P f) ->
  total d b P (fun m => with_guard e (f m)).
Proof.
  intros Hd Hf c (Hc & Hb & Hg).
  destruct (MAX_ARITH_NESTING <=? d) eqn:Hmax.
  { exists 0%nat, (Err e), c. split; [|done]. intros m _. unfold with_guard. by rewrite Hc, Hmax. }
  assert (d < MAX_ARITH_NESTING) as Hm by (to_prop; done).
  destruct (Hf Hm (with_value_depth c (d + 1))) as (n & res & c' & Hrun & Hres); [by repeat split|].
  exists n, res, (with_value_depth c' (Z.max 0 (value_depth c' - 1))). split.
  - intros m Hn. unfold with_guard. by rewrite Hc, Hmax, Hrun.
  - destruct res; [|done..]. destruct Hres as [(Hd' & Hb' & Hg') HP]. simpl.
    repeat split; simpl; try done. lia.
Qed.

Lemma vterm_step d : 0 <= d -> (d < MAX_ARITH_NESTING -> vterm (d + 1)) -> vterm d.
Proof.
  intros Hd Hnext b t depth. unfold parse_value_recursive.
  destruct (MAX_ARITH_NESTING <? depth); [apply total_err|].
  apply total_guard; [done|]. intros Hlt. specialize (Hnext Hlt).
  pose proof (fun b s => all_term_any (d + 1) b s Hnext) as Hall.
  assert (Hcom : forall b lex, lexwf lex -> pterm (d + 1) b lex (fun m => r_comma (K m))).
  { intros b' lex Hl. apply (at_comma _ _ (S (lsize lex)) (Hall _ _)); [done|lia]. }
  assert (Hres : forall name,
    total (d + 1) b (fun _ => True) (fun m => resolve_lvalue expand (K m) name)).
  { intros name. apply term_resolve. intros lex Hl _. by apply Hcom. }
  pose proof (term_load (d + 1) Hnext) as Hload.
  pose proof (term_finish (d + 1) Hnext) as Hfin.
  assert (Htext : total (d + 1) b (fun _ => True) (fun m c =>
    let '(result, c0) :=
      (let! lex := lift (Lexer_new (trim_start t)) in
       let! (v, _) := r_comma (K m) lex true in ret v) (with_expand_subscripts c true) in
    (result, with_expand_subscripts c0 (arith_expand_subscripts c)))).
  { apply (total_flag (d + 1) b true (fun _ : Z => True) (fun m =>
      let! lex := lift (Lexer_new (trim_start t)) in
      let! (v, _) := r_comma (K m) lex true in ret v)).
    eapply total_bind; [apply total_new|intros l [Hl _]].
    eapply total_bind; [by apply Hcom|intros [v l'] _]. total_auto. }
  destruct (is_nil (trim t)); [total_auto|].
  destruct (parse_i64 (trim t)); [total_auto|].
  destruct (parse_number (trim t)); [total_auto|..].
  all: destruct (array_ref_parts (trim t)); [total_auto|].
  all: destruct (looks_like_identifier (trim t)); [total_auto|exact Htext].
Qed.

Lemma vterm_all d : 0 <= d -> vterm d.
Proof.
  intros Hd. remember (Z.to_nat (MAX_ARITH_NESTING - d)) as k eqn:Hk.
  revert d Hd Hk. induction k as [|k IH]; intros d Hd Hk; (apply vterm_step; [done|]); intros Hlt.
  - unfold MAX_ARITH_NESTING in *. lia.
  - apply IH; unfold MAX_ARITH_NESTING in *; lia.
Qed.

Lemma eval_ends expr (c : Ctx E) :
  0 <= value_depth c -> good (env c) ->
  exists n res c', (forall m, (n <= m)%nat -> eval expand m expr c = (res, c')) /\
    is_fuel res = false.
Proof.
  intros Hd Hg. unfold eval, eval_inner.
  destruct (is_nil (trim expr)); [by exists 0%nat; eauto|].
  destruct (prefix_postfix_lvalue_error expr); [by exists 0%nat; eauto|]. cbv zeta.
  destruct (MAX_ARITH_NESTING <? _); [by exists 0%nat; eauto|].
  set (c1 := with_arith_depth c _).
  pose proof (fun b s => all_term_any (value_depth c) b s (vterm_all _ Hd)) as Hall.
  assert (Ht : total (value_depth c) (arith_expand_subscripts c) (fun _ => True) (fun m =>
    let! lex := lift (Lexer_new expr) in
    let! (val, lex) := parse_comma expand (K m) lex true in
    if negb (tok_eqb (cur lex) Tok.Eof) then err (trailing_error expr lex) else ret val)).
  { eapply total_bind; [apply total_new|intros l [Hl _]].
    destruct (Hall (arith_expand_subscripts c) (S (lsize l))) as [Hcom Hass Hter Hpow Hun].
    eapply total_bind; [|intros [v l'] _; total_auto].
    eapply (term_comma _ _ (lsize l)); try done; intros; try (apply Hcom || apply Hass ||
      apply Hter || apply Hpow || apply Hun; [done|lia]).
    - apply term_resolve. intros lex Hlx _.
      apply (at_comma _ _ (S (lsize lex)) (Hall false _)); [done|lia].
    - apply term_load, vterm_all, Hd.
    - apply term_load_ident; [by apply vterm_all|]. apply term_resolve. intros lex Hlx _.
      apply (at_comma _ _ (S (lsize lex)) (Hall false _)); [done|lia]. }
  destruct (Ht c1) as (n & res & c' & Hrun & Hres); [by repeat split|].
  exists n, res, (with_arith_depth c' (arith_depth c' - 1)). split.
  - intros m Hm. by rewrite Hrun.
  - by destruct res.
Qed.

End Terminates.

(** * A store with one name reference

    The hash-map store of the unit tests, in which [r] is a reference to the
    name or array element kept beside it. *)
Module RefEnv.
Definition t : Type := MapEnv.t * bytes.

Definition follow (e : t) (n : bytes) : bytes := if bytes_eqb n (bs "r") then snd e else n.

#[global] Instance env : Environment t := {
  env_get e n := (MapEnv.get (fst e) (follow e n), e);
  env_get_array_indexed e n i := (MapEnv.get_array_indexed (fst e) (follow e n) i, e);
  env_get_array_assoc e n k := (None, e);
  env_kind e n := MapEnv.kind (fst e) (follow e n);
  env_attr_nameref e n := bytes_eqb n (bs "r");
  env_resolve_nameref e n := Some (follow e n);
  env_is_readonly e n := false;
  env_option e n := false;
  env_assign e n v := (None, (MapEnv.set (fst e) (follow e n) v, snd e));
  env_set_array_indexed e n i v := (MapEnv.set_array_indexed (fst e) (follow e n) i v, snd e);
  env_set_array_assoc e n k v := e;
}.

#[global] Instance nameref_final : NamerefFinal t.
Proof.
  intros e name target [= <-] _. cbn. unfold follow. destruct (bytes_eqb name (bs "r")) eqn:Hn.
  - by destruct (bytes_eqb (snd e) (bs "r")).
  - by rewrite Hn.
Qed.

(** [r] refers to a variable, not to an element. *)
#[global] Instance to_variable : Good t := fun e => array_ref_parts (snd e) = None.

#[global] Instance plain_store : PlainStore t.
Proof.
  split; try done. intros e name target Hg. cbn. unfold follow.
  destruct (bytes_eqb name (bs "r")) eqn:Hn; intros [= <-] Hne; done.
Qed.
End RefEnv.

(** C22: Arithmetic evaluation ends where name references lead to variables.
    For any expression text and any variables (which may hold arbitrary
    expressions themselves), in a store from which reading, and writing
    decimal numbers, never leads to one with a name reference to an array
    element, there is an amount of fuel from which on the evaluator returns
    one and the same value or error.  It is assumed that the expansion of
    subscripts returns, restores the counters and keeps the store such; that
    [resolve_nameref] gives the end of a chain of references, as it is
    documented; and that the recursion counter is not negative.  The store
    condition is needed: the code does not bound the recursion through a
    reference to an array element ([reference_to_element_diverges]). *)
Theorem eval_terminates {E} `{Environment E} `{!NamerefFinal E} (ok : Good E) `{!PlainStore E}
    (expand : bytes -> M E bytes)
    (expand_returns : forall t c,
      match expand t c with
      | (Fuel, _) => False
      | (_, c') => value_depth c' = value_depth c /\
                   arith_expand_subscripts c' = arith_expand_subscripts c /\
                   (ok (env c) -> ok (env c'))
      end)
    (expr : bytes) (c : Ctx E) :
  0 <= value_depth c -> ok (env c) ->
  exists n res c', (forall m, (n <= m)%nat -> eval expand m expr c = (res, c')) /\
    is_fuel res = false.
Proof. intros Hd Hok. by apply eval_ends. Qed.

(** [r] refers to [x], which holds an expression. *)
Lemma eval_terminates_witness :
  exists n res c', (forall m, (n <= m)%nat ->
    eval ret m (bs "r = r ** 2, a[r] + r++")
      (mkCtx (MapEnv.set MapEnv.empty (bs "x") (bs "y + 3"), bs "x") 0 true false 0 : Ctx RefEnv.t) = (res, c')) /\
    is_fuel res = false.
Proof.
  apply (eval_terminates RefEnv.to_variable ret).
  - intros t c. by split_and!.
  - cbn. lia.
  - reflexivity.
Defined.

(** * Unbounded recursion

    [declare -n r='a[r]'; echo $((r))]: resolving [r] evaluates the subscript
    of its target, which resolves [r].  The counters of the evaluator are not
    touched on the way, so no amount of fuel is enough. *)
Section Diverges.
Context {E : Type} `{Environment E} (expand : bytes -> M E bytes) (e : E).
Hypothesis is_reference : env_attr_nameref e (bs "r") = true.
Hypothesis to_element : env_resolve_nameref e (bs "r") = Some (bs "a[r]").
Hypothesis indexed : env_kind e (bs "a") <> KAssoc.
Hypothesis expand_r : forall c, env c = e -> expand (bs "r") c = (Ok (bs "r"), c).

Abbreviation K := (knot expand).

Definition hangs {A} (m : M E A) : Prop := forall c, env c = e -> fst (m c) = Fuel.

Lemma hangs_bind {A B} (m : M E A) (k : A -> M E B) : hangs m -> hangs (bind m k).
Proof. intros Hm c Hc. specialize (Hm c Hc). unfold bind. by destruct (m c) as [[]]. Qed.

Lemma hangs_lift {A B} (a : A) (k : A -> M E B) : hangs (k a) -> hangs (bind (lift (Ok a)) k).
Proof. intros Hk c Hc. by apply Hk. Qed.

Definition r_lexer : Lexer :=
  match Lexer_new (bs "r") with Ok l => l | _ => mkLexer [] 0 Tok.Eof 0 0 end.

Lemma hangs_comma r : hangs (resolve_lvalue expand r (bs "r")) -> hangs (parse_comma expand r r_lexer true).
Proof.
  intros Hr.
  assert (Hor : hangs (parse_logor expand r r_lexer true)).
  { unfold parse_logor, parse_logand, parse_bitor, parse_bitxor, parse_bitand, parse_equality, parse_relate,
      parse_shift, binary_level, parse_add, parse_mul, parse_power.
    do 11 apply hangs_bind. unfold parse_unary, parse_postfix.
    change (cur r_lexer) with (Tok.Ident (bs "r")). cbv iota. unfold active_lvalue. by do 2 apply hangs_bind. }
  unfold parse_comma. apply hangs_bind. unfold parse_assign.
  change (cur r_lexer) with (Tok.Ident (bs "r")). cbv iota.
  destruct (advance r_lexer) as [l| |] eqn:Hl; [|vm_compute in Hl; discriminate..].
  apply hangs_lift. vm_compute in Hl. injection Hl as <-. cbn [cur assignment_opcode].
  apply hangs_bind. unfold parse_ternary. by apply hangs_bind.
Qed.

Lemma follow_r : follow_nameref e (bs "r") = Some (bs "a[r]").
Proof. unfold follow_nameref. change (array_ref_parts (bs "r")) with (@None (bytes * bytes)). cbv iota. by rewrite is_reference, to_element. Qed.

(** The subscript, where the evaluation of [r] hangs. *)
Lemma hangs_index r : hangs (r_comma r r_lexer true) -> hangs (eval_array_index expand r (bs "r")).
Proof.
  intros Hr c Hc. unfold eval_array_index, bind, asks, ret, lift.
  assert (Hx : (if arith_expand_subscripts c && negb (env_option (env c) (bs "assoc_expand_once"))
    then expand (bs "r") else fun c0 => (Ok (bs "r"), c0)) c = (Ok (bs "r"), c))
    by (destruct (_ && _); [by apply expand_r|done]).
  rewrite Hx. change (is_nil (trim (bs "r"))) with false. cbv iota beta.
  change (strip_arith_subscript_double_quotes (bs "r")) with (@None bytes). rewrite andb_false_r.
  change (find_sub ["\"%b; "]"%b] (bs "r")) with (@None nat). change (Lexer_new (bs "r")) with (Ok (E:=ExpandError) r_lexer).
  cbv iota beta zeta. specialize (Hr (with_expand_subscripts c false) Hc).
  by destruct (r_comma r r_lexer true _) as [[]].
Qed.

Lemma hangs_resolve n : hangs (resolve_lvalue expand (K n) (bs "r")).
Proof.
  induction (lt_wf n) as [n _ IH]. intros c Hc. unfold resolve_lvalue, bind at 1, asks. rewrite Hc, follow_r.
  destruct n as [|n]; [done|]. cbn [knot r_resolve]. unfold resolve_lvalue, bind at 1, asks.
  change (follow_nameref (env c) (bs "a[r]")) with (@None bytes).
  change (array_ref_parts (bs "a[r]")) with (Some (bs "a", bs "r")). cbv iota beta. rewrite Hc.
  rewrite bool_decide_eq_false_2 by exact indexed. change (is_nil (bs "r")) with false. cbv iota.
  refine (hangs_bind _ _ _ c Hc). apply hangs_index.
  destruct n as [|n]; [done|]. apply hangs_comma, IH. lia.
Qed.

Lemma hangs_eval n c : env c = e -> 0 <= arith_depth c < MAX_ARITH_NESTING -> fst (eval expand n (bs "r") c) = Fuel.
Proof.
  intros Hc Hd. unfold eval, eval_inner. change (is_nil (trim (bs "r"))) with false.
  change (prefix_postfix_lvalue_error (bs "r")) with (@None ExpandError). cbv iota zeta.
  assert (Hs : arith_depth (with_arith_depth c (Z.min u32_max (arith_depth c + 1))) = arith_depth c + 1)
    by (cbn; unfold u32_max, MAX_ARITH_NESTING in *; lia).
  rewrite Hs, (proj2 (Z.ltb_ge _ _)) by lia.
  change (lift (E:=E) (Lexer_new (bs "r"))) with (lift (E:=E) (Ok r_lexer)).
  pose proof (hangs_lift r_lexer (fun lex => let! (val, lex) := parse_comma expand (K n) lex true in
    if negb (tok_eqb (cur lex) Tok.Eof) then err (trailing_error (bs "r") lex) else ret val)
    (hangs_bind _ _ (hangs_comma _ (hangs_resolve n))) (with_arith_depth c (Z.min u32_max (arith_depth c + 1))) Hc) as Hf.
  cbn [lift] in Hf. by destruct (bind _ _ _) as [[]].
Qed.
End Diverges.

(** C23: The evaluator does not bound the recursion through a name reference to an array
    element: in every store where [r] is a reference that resolves to [a\[r\]], [a] being no
    associative array, no amount of fuel evaluates the expression [r], whatever the recursion
    counter of values is, as long as the subscript [r] expands to itself and fewer than 64
    evaluations are nested. After [declare -n r='a\[r\]'] the shell is in such a state, and
    [$((r))] exhausts the stack. *)
Theorem reference_to_element_diverges {E} `{Environment E} (expand : bytes -> M E bytes) (c : Ctx E) :
  env_attr_nameref (env c) (bs "r") = true -> env_resolve_nameref (env c) (bs "r") = Some (bs "a[r]") ->
  env_kind (env c) (bs "a") <> KAssoc ->
  (forall c', env c' = env c -> expand (bs "r") c' = (Ok (bs "r"), c')) ->
  0 <= arith_depth c < MAX_ARITH_NESTING ->
  forall n, fst (eval expand n (bs "r") c) = Fuel.
Proof. intros H1 H2 H3 H4 Hd n. by apply (hangs_eval expand (env c)). Qed.
