(* ===== verification/ArithSpec.v ===== *)
(** An abstract specification of arithmetic expansion and its refinement by
    the evaluator: expression trees with a denotation, a printer that inserts
    parentheses only where precedence needs them, and the theorem that
    evaluating the printed text computes the denotation. *)
From stdpp Require Import base list.
From S2P Require Import Prelude Env ArithLex ArithEval ArithText ArithProps.

(** * Expressions and their meaning *)

Inductive unop := UPlus | UMinus | UNot | UCompl.

Inductive binop :=
| OComma | OLOr | OLAnd | OOr | OXor | OAnd | OEq | ONe | OLt | OLe | OGt | OGe
| OShl | OShr | OAdd | OSub | OMul | ODiv | ORem | OPow.

Inductive expr :=
| ENum (n : Z)
| EVar (x : bytes)
| EUn (u : unop) (e : expr)
| EBin (o : binop) (a b : expr)
| ECond (c t f : expr).

#[export] Instance binop_eq_dec : EqDecision binop.
Proof. solve_decision. Defined.

Definition un_apply (u : unop) (v : Z) : Z :=
  match u with
  | UPlus => v
  | UMinus => wrapping_neg v
  | UNot => b2z (v =? 0)
  | UCompl => Z.lnot v
  end.

(** [None]: the operation is an error. *)
Definition apply (o : binop) (v x : Z) : option Z :=
  match o with
  | OComma => Some x
  | OLOr => Some (b2z (negb (v =? 0) || negb (x =? 0)))
  | OLAnd => Some (b2z (negb (v =? 0) && negb (x =? 0)))
  | OOr => Some (Z.lor v x)
  | OXor => Some (Z.lxor v x)
  | OAnd => Some (Z.land v x)
  | OEq => Some (b2z (v =? x))
  | ONe => Some (b2z (negb (v =? x)))
  | OLt => Some (b2z (v <? x))
  | OLe => Some (b2z (v <=? x))
  | OGt => Some (b2z (x <? v))
  | OGe => Some (b2z (x <=? v))
  | OShl => Some (wrapping_shl v (shift_count x))
  | OShr => Some (wrapping_shr v (shift_count x))
  | OAdd => Some (wrapping_add v x)
  | OSub => Some (wrapping_sub v x)
  | OMul => Some (wrapping_mul v x)
  | ODiv => if x =? 0 then None else Some (wrapping_div v x)
  | ORem => if x =? 0 then None else Some (wrapping_rem v x)
  | OPow => if x <? 0 then None else Some (pow_i64 v x)
  end.

(** Whether the right operand is evaluated when the left one is [v]. *)
Definition rhs_evaluated (o : binop) (v : Z) : bool :=
  match o with
  | OLOr => v =? 0
  | OLAnd => negb (v =? 0)
  | _ => true
  end.

Fixpoint denote (rho : bytes -> Z) (e : expr) : option Z :=
  match e with
  | ENum n => Some n
  | EVar x => Some (rho x)
  | EUn u e => un_apply u <$> denote rho e
  | EBin o a b =>
      match denote rho a with
      | None => None
      | Some v =>
          if rhs_evaluated o v then
            match denote rho b with Some x => apply o v x | None => None end
          else apply o v 0
      end
  | ECond c t f =>
      match denote rho c with
      | None => None
      | Some v => if negb (v =? 0) then denote rho t else denote rho f
      end
  end.

(** * Printing *)

Definition un_tok (u : unop) : Tok.t :=
  match u with UPlus => Tok.Plus | UMinus => Tok.Minus | UNot => Tok.Bang | UCompl => Tok.Tilde end.

Definition bin_tok (o : binop) : Tok.t :=
  match o with
  | OComma => Tok.Comma | OLOr => Tok.PipePipe | OLAnd => Tok.AmpAmp | OOr => Tok.Pipe
  | OXor => Tok.Caret | OAnd => Tok.Amp | OEq => Tok.EqEq | ONe => Tok.BangEq
  | OLt => Tok.Lt | OLe => Tok.Le | OGt => Tok.Gt | OGe => Tok.Ge
  | OShl => Tok.Shl | OShr => Tok.Shr | OAdd => Tok.Plus | OSub => Tok.Minus
  | OMul => Tok.Star | ODiv => Tok.Slash | ORem => Tok.Percent | OPow => Tok.StarStar
  end.

(** Levels of the grammar, 0 ([parse_comma]) to 15 ([parse_postfix]). *)
Definition op_level (o : binop) : nat :=
  match o with
  | OComma => 0 | OLOr => 3 | OLAnd => 4 | OOr => 5 | OXor => 6 | OAnd => 7
  | OEq | ONe => 8 | OLt | OLe | OGt | OGe => 9 | OShl | OShr => 10
  | OAdd | OSub => 11 | OMul | ODiv | ORem => 12 | OPow => 13
  end.

Definition level (e : expr) : nat :=
  match e with
  | ENum _ | EVar _ => 15
  | EUn _ _ => 14
  | EBin o _ _ => op_level o
  | ECond _ _ _ => 2
  end.

Definition wrap (b : bool) (ts : list Tok.t) : list Tok.t :=
  if b then Tok.LParen :: ts ++ [Tok.RParen] else ts.

(** The tokens of an expression, each operand parenthesised when it binds
    less tightly than its place asks for. *)
Fixpoint body (e : expr) : list Tok.t :=
  let at_level (l : nat) (e : expr) := wrap (level e <? l)%nat (body e) in
  match e with
  | ENum n => [Tok.Num n]
  | EVar x => [Tok.Ident x]
  | EUn u e => un_tok u :: at_level 14%nat e
  | EBin OPow a b => at_level 14%nat a ++ Tok.StarStar :: at_level 13%nat b
  | EBin o a b => at_level (op_level o) a ++ bin_tok o :: at_level (S (op_level o)) b
  | ECond c t f => at_level 3%nat c ++ Tok.Question :: at_level 0%nat t ++ Tok.Colon :: at_level 2%nat f
  end.

Definition print (l : nat) (e : expr) : list Tok.t := wrap (level e <? l)%nat (body e).

(** * Token streams *)

(** Tokens of printed expressions. *)
Definition plain_tok (t : Tok.t) : Prop :=
  t <> Tok.Eof /\ t <> Tok.PlusPlus /\ t <> Tok.MinusMinus /\ assignment_opcode t = None.

(** [ts] may follow an expression printed at level [l]. *)
Definition stops (l : nat) (ts : list Tok.t) : Prop :=
  match ts with
  | [] => True
  | t :: _ => t = Tok.RParen \/ t = Tok.Colon \/ (t = Tok.Question /\ (2 < l)%nat)
              \/ exists o, t = bin_tok o /\ (op_level o < l)%nat
  end.

Lemma stops_S l ts : stops l ts -> stops (S l) ts.
Proof.
  destruct ts as [|t ts]; [done|]. simpl. intros [?|[?|[[? ?]|(o & ? & ?)]]]; auto 10 with lia.
  right. right. right. exists o. split; [done|lia].
Qed.

Lemma stops_le l l' ts : (l <= l')%nat -> stops l ts -> stops l' ts.
Proof. induction 1; [done|]. intros. by apply stops_S, IHle. Qed.

Lemma bin_tok_plain o : plain_tok (bin_tok o).
Proof. by destruct o. Qed.

Lemma plain_wrap b ts : Forall plain_tok ts -> Forall plain_tok (wrap b ts).
Proof.
  intros H. destruct b; simpl; [|done]. constructor; [done|]. apply Forall_app. split; [done|].
  by constructor.
Qed.

Lemma body_bin o a b :
  o <> OPow -> body (EBin o a b) = print (op_level o) a ++ bin_tok o :: print (S (op_level o)) b.
Proof. by destruct o. Qed.

Lemma body_plain e : Forall plain_tok (body e).
Proof.
  assert (Hnum : forall n, plain_tok (Tok.Num n)) by done.
  assert (Hid : forall x, plain_tok (Tok.Ident x)) by done.
  induction e as [n|x|u e IH|o a IHa b IHb|c IHc t IHt f IHf].
  - by repeat constructor.
  - by repeat constructor.
  - simpl. constructor; [by destruct u|]. by apply plain_wrap.
  - destruct (decide (o = OPow)) as [->|Ho].
    + simpl. apply Forall_app. split; [by apply plain_wrap|]. constructor; [done|by apply plain_wrap].
    + rewrite body_bin by done. apply Forall_app. split; [by apply plain_wrap|].
      constructor; [apply bin_tok_plain|by apply plain_wrap].
  - simpl. apply Forall_app. split; [by apply plain_wrap|]. constructor; [done|].
    apply Forall_app. split; [done|]. constructor; [done|by apply plain_wrap].
Qed.

Lemma print_plain l e : Forall plain_tok (print l e).
Proof. apply plain_wrap, body_plain. Qed.

Lemma print_nonempty l e : print l e <> [].
Proof.
  unfold print, wrap. destruct (_ <? _)%nat; [done|].
  destruct e as [| | |o a b|]; simpl; try done; [destruct o|]; intros H%(f_equal length);
    rewrite length_app in H; simpl in H; lia.
Qed.

(** What may be at the head of a stream after an expression. *)
Lemma stops_cur l lex ts :
  stream lex ts -> stops l ts ->
  cur lex <> Tok.PlusPlus /\ cur lex <> Tok.MinusMinus /\ assignment_opcode (cur lex) = None /\
  (forall o, (l <= op_level o)%nat -> cur lex <> bin_tok o) /\ ((l <= 2)%nat -> cur lex <> Tok.Question).
Proof.
  intros Hs Hst. rewrite (stream_cur _ _ Hs). destruct ts as [|t ts]; simpl.
  - repeat split; try done. by intros [] _.
  - simpl in Hst. destruct Hst as [->|[->|[[-> Hl]|(o & -> & Hl)]]]; simpl.
    1, 2: repeat split; try done; by intros [] _.
    + repeat split; try done; [by intros [] _|lia].
    + repeat split; try (by destruct o).
      intros o' Hl' Heq. assert (o = o') as <-; [|lia]. by destruct o, o'.
Qed.

(** * Runs of the parser *)

Section Runs.
Context {E : Type} `{Environment E} (expand : bytes -> M E bytes) (rho : bytes -> Z).

(** The parsing function of each level. *)
Definition parser_at (l : nat) (r : Rec) : PFun (E:=E) :=
  match l with
  | 0%nat => parse_comma expand r
  | 1%nat => parse_assign expand r
  | 2%nat => parse_ternary expand r
  | 3%nat => parse_logor expand r
  | 4%nat => parse_logand expand r
  | 5%nat => parse_bitor expand r
  | 6%nat => parse_bitxor expand r
  | 7%nat => parse_bitand expand r
  | 8%nat => parse_equality expand r
  | 9%nat => parse_relate expand r
  | 10%nat => parse_shift expand r
  | 11%nat => parse_add expand r
  | 12%nat => parse_mul expand r
  | 13%nat => parse_power expand r
  | 14%nat => parse_unary expand r
  | _ => parse_postfix expand r
  end.

(** A run ends with the value and the stream [ts], or with an error; the
    context is unchanged. *)
Definition yields (m : Res ExpandError (Z * Lexer) * Ctx E) (c : Ctx E) (o : option Z)
    (ts : list Tok.t) : Prop :=
  match o with
  | Some v => exists lex', m = (Ok (v, lex'), c) /\ stream lex' ts
  | None => exists e, m = (Err e, c)
  end.

(** The value expected of [e]: 0 when it is only parsed. *)
Definition expected (active : bool) (e : expr) : option Z := if active then denote rho e else Some 0.

(** The variables of an expression are plain scalars that hold numbers. *)
Definition reads (c : Ctx E) (x : bytes) : Prop :=
  is_arith_identifier x = true /\ env_attr_nameref (env c) x = false /\
  exists text, env_get (env c) x = (Some text, env c) /\ parse_plain_value text = Some (rho x).

Fixpoint readable (c : Ctx E) (e : expr) : Prop :=
  match e with
  | ENum _ => True
  | EVar x => reads c x
  | EUn _ e => readable c e
  | EBin _ a b => readable c a /\ readable c b
  | ECond c1 t f => readable c c1 /\ readable c t /\ readable c f
  end.

(** The parser of level [l], with fuel [n], reads the tokens [toks] as [e]. *)
Definition works (c : Ctx E) (n l : nat) (toks : list Tok.t) (e : expr) : Prop :=
  forall active lex ts, stream lex (toks ++ ts) -> stops l ts ->
    yields (parser_at l (knot expand n) lex active c) c (expected active e) ts.

Lemma yields_ext m m' c o ts : m = m' -> yields m c o ts -> yields m' c o ts.
Proof. by intros ->. Qed.

(** ** Left-associative levels *)

Definition left_level (l : nat) : bool := (l =? 0)%nat || ((3 <=? l) && (l <=? 12))%nat.

(** What the loop body of level [l] does on a binary operator of the level
    and on any other token. *)
Definition level_body (c : Ctx E) (n l : nat) (active : bool)
    (bd : Z * Lexer -> M E ((Z * Lexer) + (Z * Lexer))) : Prop :=
  (forall o v lex lex1, op_level o = l -> o <> OPow -> cur lex = bin_tok o -> advance lex = Ok lex1 ->
     cur lex1 <> Tok.Eof -> (active = false -> v = 0) ->
     let sub := parser_at (S l) (knot expand n) lex1 (active && rhs_evaluated o v) c in
     (forall x lex2, sub = (Ok (x, lex2), c) -> (active = false -> x = 0) ->
        if active then
          match apply o v x with
          | Some w => bd (v, lex) c = (Ok (inl (w, lex2)), c)
          | None => exists e, bd (v, lex) c = (Err e, c)
          end
        else bd (v, lex) c = (Ok (inl (0, lex2)), c)) /\
     (forall e, sub = (Err e, c) -> bd (v, lex) c = (Err e, c))) /\
  (forall v lex, (forall o, op_level o = l -> cur lex <> bin_tok o) ->
     cur lex <> Tok.PlusPlus -> cur lex <> Tok.MinusMinus -> bd (v, lex) c = (Ok (inr (v, lex)), c)).

Definition left_form (n l : nat) (active : bool) (bd : Z * Lexer -> M E ((Z * Lexer) + (Z * Lexer))) : Prop :=
  forall lex, parser_at l (knot expand n) lex active =
    (let! (v, lex) := parser_at (S l) (knot expand n) lex active in
     let! (v, lex) := loop (fuel (knot (E:=E) expand n)) bd (v, lex) in
     ret (when_active active v, lex)).

(** The levels that share [binary_level]. *)
Lemma binary_left c n l active (op : Tok.t -> option (Z -> Z -> Z)) (ra : bool -> Z -> bool) :
  (forall o, op_level o = l -> exists f, op (bin_tok o) = Some f /\ (forall v x, apply o v x = Some (f v x))
     /\ forall v, ra active v = active && rhs_evaluated o v) ->
  (forall t, op t <> None -> exists o, op_level o = l /\ t = bin_tok o) ->
  parser_at l (knot expand n) = binary_level (knot expand n) (parser_at (S l) (knot expand n)) op ra ->
  exists bd, left_form n l active bd /\ level_body c n l active bd.
Proof.
  intros Hop Hno Hp. exists (fun '(v, lex) =>
    match op (cur lex) with
    | Some f =>
        let! lex := lift (advance lex) in
        let! (x, lex) := parser_at (S l) (knot expand n) lex (ra active v) in
        again active v (f v x) lex
    | None => leave v lex
    end). split; [intros lex; by rewrite Hp|]. split.
  - intros o v lex lex1 Hl _ Hc Ha _ Hv. destruct (Hop o Hl) as (f & Hf & Hap & Hra).
    cbv zeta. rewrite <- Hra. split.
    + intros x lex2 Hsub Hx. rewrite Hc, Hf, Hap. unfold bind, lift, again, ret. rewrite Ha, Hsub.
      destruct active; [done|]. by rewrite Hv.
    + intros e Hsub. rewrite Hc, Hf. unfold bind, lift. by rewrite Ha, Hsub.
  - intros v lex Hn _ _. destruct (op (cur lex)) as [f|] eqn:Hf; [|done].
    destruct (Hno (cur lex)) as (o & Hl & Ho); [by rewrite Hf|]. by destruct (Hn o Hl).
Qed.

Ltac find_op :=
  first [by exists OLOr|by exists OLAnd|by exists OOr|by exists OXor|by exists OAnd|by exists OEq
        |by exists ONe|by exists OLt|by exists OLe|by exists OGt|by exists OGe|by exists OShl|by exists OShr].

Lemma left_exists c n l active :
  left_level l = true -> exists bd, left_form n l active bd /\ level_body c n l active bd.
Proof.
  intros Hl. destruct l as [|[|[|[|[|[|[|[|[|[|[|[|[|l]]]]]]]]]]]]]; try discriminate Hl; clear Hl.
  2-9: (eapply binary_left; [| |reflexivity];
    [intros [] ?; try discriminate; eexists; (split; [reflexivity|]); (split; [reflexivity|]); intros v;
       destruct active; reflexivity
    |intros [] ?; try done; find_op]).
  - (* comma *)
    eexists. split; [intros lex; reflexivity|]. split.
    + intros o v lex lex1 Ho _ Hc Ha _ Hv. destruct o; try discriminate Ho. cbn [bin_tok] in Hc.
      cbv zeta. cbn [rhs_evaluated apply parser_at]. rewrite andb_true_r.
      rewrite Hc. change (tok_eqb Tok.Comma Tok.Comma) with true. cbv iota. unfold bind, lift, ret. rewrite Ha.
      split; [|by intros e ->]. intros x lex2 -> Hx. destruct active; [done|]. by rewrite Hx.
    + intros v lex Hn _ _. specialize (Hn OComma eq_refl). unfold tok_eqb.
      rewrite bool_decide_eq_false_2 by done. done.
  - (* add *)
    eexists. split; [intros lex; reflexivity|]. split.
    + intros o v lex lex1 Ho _ Hc Ha Heof Hv. destruct o; try discriminate Ho; cbn [bin_tok] in Hc;
        cbv zeta; cbn [rhs_evaluated apply parser_at]; rewrite andb_true_r, Hc;
        unfold arith_rhs_expected, tok_eqb, bind, lift, again, ret; rewrite Ha, (bool_decide_eq_false_2 _ Heof);
        (split; [|by intros e ->]); intros x lex2 -> Hx; (destruct active; [done|]); by rewrite Hv.
    + intros v lex Hn Hpp Hmm. pose proof (Hn OAdd eq_refl). pose proof (Hn OSub eq_refl). cbn in *.
      by destruct (cur lex).
  - (* mul *)
    eexists. split; [intros lex; reflexivity|]. split.
    + intros o v lex lex1 Ho _ Hc Ha Heof Hv. destruct o; try discriminate Ho; cbn [bin_tok] in Hc;
        cbv zeta; cbn [rhs_evaluated apply parser_at]; rewrite andb_true_r, Hc;
        unfold arith_rhs_expected, tok_eqb, bind, lift, again, ret; rewrite Ha, (bool_decide_eq_false_2 _ Heof);
        (split; [|by intros e ->]); intros x lex2 -> Hx.
      * destruct active; [done|]. by rewrite Hv.
      * destruct active; cbn [andb]; [|by rewrite Hv]. destruct (x =? 0); [by eexists|done].
      * destruct active; cbn [andb]; [|by rewrite Hv]. destruct (x =? 0); [by eexists|done].
    + intros v lex Hn _ _. pose proof (Hn OMul eq_refl). pose proof (Hn ODiv eq_refl). pose proof (Hn ORem eq_refl).
      cbn in *. by destruct (cur lex).
Qed.

Lemma fuel_of_knot n : fuel (knot (E:=E) expand n) = n.
Proof. by destruct n. Qed.

(** The loop of a left level ends at a token that stops the level. *)
Lemma loop_stop c n l active bd k v lex ts :
  level_body c n l active bd -> stream lex ts -> stops l ts -> (0 < k)%nat ->
  loop k bd (v, lex) c = (Ok (v, lex), c).
Proof.
  intros [_ Hstop] Hs Hst Hk. destruct (stops_cur l lex ts Hs Hst) as (Hpp & Hmm & _ & Hop & _).
  destruct k as [|k]; [lia|]. cbn [loop]. unfold bind. rewrite Hstop; [done| |done|done].
  intros o Ho. apply Hop. lia.
Qed.

(** ** Passing through a level whose operators do not occur *)

Lemma pass_left c n l toks e :
  left_level l = true -> toks <> [] -> (length toks <= n)%nat -> works c n (S l) toks e -> works c n l toks e.
Proof.
  intros Hl Hne Hn Hw active lex ts Hs Hst.
  destruct (left_exists c n l active Hl) as (bd & Hform & Hbody). rewrite Hform.
  specialize (Hw active lex ts Hs (stops_S _ _ Hst)). unfold bind at 1.
  destruct (expected active e) as [v|] eqn:He; cbn [yields] in *.
  - destruct Hw as (lex' & -> & Hs'). unfold bind.
    rewrite (loop_stop c n l active bd _ v lex' ts) by (done || (rewrite fuel_of_knot; destruct toks; [done|simpl in Hn; lia])).
    exists lex'. split; [|done]. unfold ret, when_active. destruct active; [done|]. by injection He as <-.
  - destruct Hw as (err & ->). by exists err.
Qed.

Definition unary_tok (t : Tok.t) : bool :=
  match t with Tok.Plus | Tok.Minus | Tok.Bang | Tok.Tilde => true | _ => false end.

Lemma pass_unary c n toks e :
  Forall plain_tok toks -> toks <> [] -> (forall t, head toks = Some t -> unary_tok t = false) ->
  works c n 15 toks e -> works c n 14 toks e.
Proof.
  intros Hpl Hne Hu Hw active lex ts Hs Hst. specialize (Hw active lex ts Hs (stops_S _ _ Hst)).
  destruct toks as [|t toks]; [done|]. apply stream_next in Hs as (Hc & _).
  specialize (Hu t eq_refl). inversion Hpl as [|? ? (H1 & H2 & H3 & _) _]; subst.
  cbn [parser_at] in *. unfold parse_unary. by destruct (cur lex).
Qed.

Lemma pass_power c n toks e : works c n 14 toks e -> works c n 13 toks e.
Proof.
  intros Hw active lex ts Hs Hst. specialize (Hw active lex ts Hs (stops_S _ _ Hst)).
  cbn [parser_at] in *. unfold parse_power, bind at 1.
  destruct (expected active e) as [v|] eqn:He; cbn [yields] in *.
  - destruct Hw as (lex' & -> & Hs'). destruct (stops_cur 13 lex' ts Hs' Hst) as (_ & _ & _ & Hop & _).
    unfold tok_eqb. rewrite bool_decide_eq_false_2 by (apply (Hop OPow); simpl; lia).
    exists lex'. split; [|done]. unfold ret, when_active. destruct active; [done|]. by injection He as <-.
  - destruct Hw as (err & ->). by exists err.
Qed.

Lemma pass_ternary c n toks e : works c n 3 toks e -> works c n 2 toks e.
Proof.
  intros Hw active lex ts Hs Hst. specialize (Hw active lex ts Hs (stops_S _ _ Hst)).
  cbn [parser_at] in *. unfold parse_ternary, bind at 1.
  destruct (expected active e) as [v|] eqn:He; cbn [yields] in *.
  - destruct Hw as (lex' & -> & Hs'). destruct (stops_cur 2 lex' ts Hs' Hst) as (_ & _ & _ & _ & Hq).
    unfold tok_eqb. rewrite bool_decide_eq_false_2 by (apply Hq; lia).
    exists lex'. split; [|done]. unfold ret, when_active. destruct active; [done|]. by injection He as <-.
  - destruct Hw as (err & ->). by exists err.
Qed.

Lemma pass_assign c n toks e :
  Forall plain_tok toks -> toks <> [] -> works c n 2 toks e -> works c n 1 toks e.
Proof.
  intros Hpl Hne Hw active lex ts Hs Hst. specialize (Hw active lex ts Hs (stops_S _ _ Hst)).
  assert (Hplain : yields ((let! (v, lex) := parse_ternary expand (knot expand n) lex active in
    ret (when_active active v, lex)) c) c (expected active e) ts).
  { cbn [parser_at] in Hw. unfold bind. destruct (expected active e) as [v|] eqn:He; cbn [yields] in *.
    - destruct Hw as (lex' & -> & Hs'). exists lex'. split; [|done]. unfold ret, when_active.
      destruct active; [done|]. by injection He as <-.
    - destruct Hw as (err & ->). by exists err. }
  cbn [parser_at]. unfold parse_assign. destruct toks as [|t toks]; [done|].
  apply stream_next in Hs as (Hc & lex' & Ha & Hs'). destruct (cur lex); try done.
  unfold bind at 1, lift at 1. rewrite Ha.
  assert (assignment_opcode (cur lex') = None) as ->; [|done].
  destruct toks as [|t2 toks].
  - by destruct (stops_cur 1 lex' ts Hs' Hst) as (_ & _ & ? & _).
  - apply stream_next in Hs' as (-> & _). inversion Hpl as [|? ? _ Hpl']; subst.
    inversion Hpl' as [|? ? (_ & _ & _ & ?) _]; subst. done.
Qed.

(** From level [l'] down to any level [l]. *)
Lemma descend c n toks e l l' :
  Forall plain_tok toks -> toks <> [] -> (length toks <= n)%nat ->
  (forall t, head toks = Some t -> unary_tok t = true -> (l' <= 14)%nat) ->
  (l <= l')%nat -> (l' <= 15)%nat -> works c n l' toks e -> works c n l toks e.
Proof.
  intros Hpl Hne Hn Hu Hle Hmax Hw. revert Hle. induction (l' - l)%nat as [|d IH] eqn:Hd in l |- *; intros Hle.
  { by replace l with l' by lia. }
  assert (Hnext : works c n (S l) toks e) by (apply IH; lia).
  destruct (left_level l) eqn:Hll; [by apply pass_left|].
  assert (l = 1 \/ l = 2 \/ l = 13 \/ l = 14)%nat as [->|[->|[->| ->]]].
  { unfold left_level in Hll. apply orb_false_iff in Hll as [H0%Nat.eqb_neq H1%andb_false_iff].
    destruct H1 as [H1%Nat.leb_gt|H1%Nat.leb_gt]; lia. }
  - by apply pass_assign.
  - by apply pass_ternary.
  - by apply pass_power.
  - apply pass_unary; [done|done| |done]. intros t Ht. destruct (unary_tok t) eqn:Hut; [|done].
    specialize (Hu t Ht Hut). lia.
Qed.

(** ** Operators at their own level *)

Definition spine (c : Ctx E) (n l : nat) (e : expr) : Prop :=
  forall active bd k lex ts, level_body c n l active bd -> stream lex (print l e ++ ts) -> stops (S l) ts ->
  let m := (let! (v, lex) := parser_at (S l) (knot expand n) lex active in
            loop (length (print l e) + k) bd (v, lex)) c in
  match expected active e with
  | Some v => exists lex' k', (k < k')%nat /\ m = loop k' bd (v, lex') c /\ stream lex' ts
  | None => exists err, m = (Err err, c)
  end.

Lemma spine_base c n l e :
  works c n (S l) (print l e) e -> spine c n l e.
Proof.
  intros Hw active bd k lex ts _ Hs Hst. cbv zeta. specialize (Hw active lex ts Hs Hst). unfold bind.
  destruct (expected active e) as [v|]; cbn [yields] in Hw.
  - destruct Hw as (lex' & -> & Hs'). exists lex', (length (print l e) + k)%nat. split; [|done].
    pose proof (print_nonempty l e). destruct (print l e); [done|]. simpl. lia.
  - destruct Hw as (err & ->). by exists err.
Qed.

Lemma stream_not_eof lex toks ts :
  stream lex (toks ++ ts) -> Forall plain_tok toks -> toks <> [] -> cur lex <> Tok.Eof.
Proof.
  intros Hs Hpl Hne. destruct toks as [|t toks]; [done|]. apply stream_next in Hs as (-> & _).
  inversion Hpl as [|? ? (? & _) _]; by subst.
Qed.

Lemma spine_step c n o a b :
  o <> OPow -> spine c n (op_level o) a ->
  works c n (S (op_level o)) (print (S (op_level o)) b) b ->
  spine c n (op_level o) (EBin o a b).
Proof.
  intros Ho Ha Hb active bd k lex ts Hbody Hs Hst. cbv zeta.
  assert (Hpr : print (op_level o) (EBin o a b)
    = print (op_level o) a ++ bin_tok o :: print (S (op_level o)) b).
  { unfold print at 1. cbn [level]. rewrite Nat.ltb_irrefl. by apply body_bin. }
  rewrite Hpr in Hs |- *. rewrite <- app_assoc in Hs. cbn [app] in Hs. rewrite length_app. cbn [length].
  set (tb := print (S (op_level o)) b) in *.
  specialize (Ha active bd (S (length tb) + k)%nat lex _ Hbody Hs). cbv zeta in Ha.
  replace (length (print (op_level o) a) + (S (length tb) + k))%nat
    with (length (print (op_level o) a) + S (length tb) + k)%nat in Ha by lia.
  assert (stops (S (op_level o)) (bin_tok o :: tb ++ ts)) as Hstop
    by (right; right; right; exists o; split; [done|lia]).
  specialize (Ha Hstop). destruct (expected active a) as [va|] eqn:Hva.
  2: { destruct active; [|done]. cbn [expected] in Hva |- *. cbn [denote]. rewrite Hva. exact Ha. }
  destruct Ha as (lex1 & k1 & Hk1 & -> & Hs1). destruct k1 as [|k1]; [lia|]. cbn [loop].
  apply stream_next in Hs1 as (Hc1 & lex2 & Hadv & Hs2).
  assert (Heof : cur lex2 <> Tok.Eof) by (eapply stream_not_eof; [done|apply print_plain|apply print_nonempty]).
  destruct Hbody as [Hstep _].
  assert (Hv0 : active = false -> va = 0) by (intros ->; by injection Hva as <-).
  destruct (Hstep o va lex1 lex2 eq_refl Ho Hc1 Hadv Heof Hv0) as [Hok Herr]. clear Hstep.
  specialize (Hb (active && rhs_evaluated o va) lex2 ts Hs2 Hst).
  unfold bind. destruct active; cbn [andb expected] in *.
  - cbn [denote]. rewrite Hva. destruct (rhs_evaluated o va); cbn [expected] in Hb.
    + destruct (denote rho b) as [x|]; cbn [yields] in Hb.
      * destruct Hb as (lex3 & Hrun & Hs3). specialize (Hok x lex3 Hrun ltac:(done)).
        destruct (apply o va x) as [w|]; [|destruct Hok as (err & ->); by exists err].
        rewrite Hok. exists lex3, k1. split; [lia|done].
      * destruct Hb as (err & Hrun). rewrite (Herr err Hrun). by exists err.
    + cbn [yields] in Hb. destruct Hb as (lex3 & Hrun & Hs3). specialize (Hok 0 lex3 Hrun ltac:(done)).
      destruct (apply o va 0) as [w|]; [|destruct Hok as (err & ->); by exists err].
      rewrite Hok. exists lex3, k1. split; [lia|done].
  - cbn [yields] in Hb. destruct Hb as (lex3 & Hrun & Hs3). rewrite (Hok 0 lex3 Hrun ltac:(done)).
    exists lex3, k1. split; [lia|done].
Qed.

Lemma left_works c n l e :
  left_level l = true -> (length (print l e) <= n)%nat -> spine c n l e -> works c n l (print l e) e.
Proof.
  intros Hl Hn Hsp active lex ts Hs Hst.
  destruct (left_exists c n l active Hl) as (bd & Hform & Hbody). rewrite Hform, fuel_of_knot.
  specialize (Hsp active bd (n - length (print l e))%nat lex ts Hbody Hs (stops_S _ _ Hst)). cbv zeta in Hsp.
  replace (length (print l e) + (n - length (print l e)))%nat with n in Hsp by lia.
  unfold bind in *. set (p := parser_at (S l) (knot expand n) lex active c) in *.
  destruct p as [[[v1 lex1]|err|] c1].
  - destruct (expected active e) as [v|] eqn:He; cbn [yields].
    + destruct Hsp as (lex' & k' & Hk & Heq & Hs'). rewrite Heq.
      rewrite (loop_stop c n l active bd k' v lex' ts) by (done || lia).
      exists lex'. split; [|done]. unfold ret, when_active. destruct active; [done|]. by injection He as <-.
    + destruct Hsp as (err & ->). by exists err.
  - destruct (expected active e) as [v|] eqn:He; cbn [yields].
    + destruct Hsp as (lex' & k' & Hk & Heq & Hs'). exfalso.
      rewrite (loop_stop c n l active bd k' v lex' ts) in Heq by (done || lia). discriminate.
    + destruct Hsp as (err' & ->). by exists err'.
  - destruct (expected active e) as [v|] eqn:He; cbn [yields].
    + destruct Hsp as (lex' & k' & Hk & Heq & Hs'). exfalso.
      rewrite (loop_stop c n l active bd k' v lex' ts) in Heq by (done || lia). discriminate.
    + destruct Hsp as (err' & ?). discriminate.
Qed.

Lemma works_num c n k : works c n 15 [Tok.Num k] (ENum k).
Proof.
  intros active lex ts Hs Hst. apply stream_next in Hs as (Hc & lex' & Ha & Hs').
  cbn [parser_at]. unfold parse_postfix, parse_primary. rewrite Hc. unfold bind, lift. rewrite Ha.
  unfold expected, when_active. destruct active; by exists lex'.
Qed.

Lemma works_var c n x : reads c x -> array_ref_parts x = None -> works c n 15 [Tok.Ident x] (EVar x).
Proof.
  intros (Hid & Hnr & text & Hget & Hval) Harr active lex ts Hs Hst.
  apply stream_next in Hs as (Hc & lex' & Ha & Hs').
  destruct (stops_cur 15 lex' ts Hs' Hst) as (Hpp & Hmm & _).
  cbn [parser_at]. unfold parse_postfix. rewrite Hc.
  assert (Hact : active_lvalue expand (knot expand n) x active c
    = (Ok (if active then Some (Scalar x) else None, if active then rho x else 0), c)).
  { unfold active_lvalue. destruct active; [|done]. unfold bind at 1. rewrite resolve_scalar by done.
    simpl. unfold bind, get_cow. rewrite Hget. unfold prepare_loaded_value. rewrite Hval. by destruct c. }
  unfold bind. rewrite Hact. unfold lift. rewrite Ha.
  assert (match cur lex' with Tok.PlusPlus | Tok.MinusMinus => False | _ => True end) as Hcur
    by by destruct (cur lex').
  destruct (cur lex'); try done; destruct active; by exists lex'.
Qed.

Lemma works_unary c n u e toks :
  Forall plain_tok toks -> toks <> [] -> works c n 14 toks e -> works c (S n) 14 (un_tok u :: toks) (EUn u e).
Proof.
  intros Hpl Hne Hw active lex ts Hs Hst. cbn [app] in Hs. apply stream_next in Hs as (Hc & lex' & Ha & Hs').
  pose proof (stream_not_eof _ _ _ Hs' Hpl Hne) as Heof.
  specialize (Hw active lex' ts Hs' Hst). cbn [parser_at] in *.
  assert (Hop : unary_operand (knot expand (S n)) lex active c = parse_unary expand (knot expand n) lex' active c).
  { unfold unary_operand, bind, lift. rewrite Ha. unfold tok_eqb. by rewrite bool_decide_eq_false_2. }
  unfold parse_unary at 1. rewrite Hc.
  destruct u; cbn [un_tok]; unfold bind; rewrite Hop;
    destruct active; cbn [expected denote] in *; cbn [yields] in *.
  all: try (destruct (denote rho e) as [v|]; cbn [yields fmap option_fmap option_map] in *).
  all: try (destruct Hw as (lex2 & -> & Hs2); exists lex2; by split).
  all: destruct Hw as (err & ->); by exists err.
Qed.

Lemma works_power c n a b ta tb :
  Forall plain_tok tb -> tb <> [] -> works c (S n) 14 ta a -> works c n 13 tb b ->
  works c (S n) 13 (ta ++ Tok.StarStar :: tb) (EBin OPow a b).
Proof.
  intros Hpl Hne Ha Hb active lex ts Hs Hst. rewrite <- app_assoc in Hs. cbn [app] in Hs.
  specialize (Ha active lex _ Hs). cbn [parser_at] in *.
  assert (stops 14 (Tok.StarStar :: tb ++ ts)) as Hst1
    by (right; right; right; exists OPow; split; [done|simpl; lia]).
  specialize (Ha Hst1). unfold parse_power at 1, bind at 1.
  assert (Hrest : forall lex1, stream lex1 (Tok.StarStar :: tb ++ ts) ->
    exists lex2, cur lex1 = Tok.StarStar /\ advance lex1 = Ok lex2 /\
      yields (parse_power expand (knot expand n) lex2 active c) c (expected active b) ts).
  { intros lex1 Hs1. apply stream_next in Hs1 as (Hc1 & lex2 & Hadv & Hs2). exists lex2.
    split; [done|]. split; [done|]. by apply (Hb active lex2 ts Hs2). }
  destruct active; cbn [expected denote rhs_evaluated apply] in *.
  - destruct (denote rho a) as [v|]; cbn [yields] in *; [|destruct Ha as (err & ->); by exists err].
    destruct Ha as (lex1 & -> & Hs1). destruct (Hrest lex1 Hs1) as (lex2 & Hc1 & Hadv & Hrun).
    rewrite Hc1. change (tok_eqb Tok.StarStar Tok.StarStar) with true. cbv iota.
    unfold bind, lift. rewrite Hadv. cbn [knot r_power].
    destruct (denote rho b) as [x|]; cbn [yields] in *; [|destruct Hrun as (err & ->); by exists err].
    destruct Hrun as (lex3 & -> & Hs3). cbn [andb]. destruct (x <? 0); [by eexists|]. by exists lex3.
  - cbn [yields] in *. destruct Ha as (lex1 & -> & Hs1).
    destruct (Hrest lex1 Hs1) as (lex2 & Hc1 & Hadv & (lex3 & Hrun & Hs3)).
    rewrite Hc1. change (tok_eqb Tok.StarStar Tok.StarStar) with true. cbv iota.
    unfold bind, lift. rewrite Hadv. cbn [knot r_power]. rewrite Hrun. cbn [andb]. by exists lex3.
Qed.

Lemma works_paren c n e toks :
  works c n 0 toks e -> works c (S n) 15 (Tok.LParen :: toks ++ [Tok.RParen]) e.
Proof.
  intros Hw active lex ts Hs Hst. cbn [app] in Hs. rewrite <- app_assoc in Hs. cbn [app] in Hs.
  apply stream_next in Hs as (Hc & lex' & Ha & Hs').
  specialize (Hw active lex' _ Hs' ltac:(by left)). cbn [parser_at] in *.
  unfold parse_postfix, parse_primary. rewrite Hc. unfold bind, lift. rewrite Ha. cbn [knot r_comma].
  destruct (expected active e) as [v|] eqn:He; cbn [yields] in *; [|destruct Hw as (err & ->); by exists err].
  destruct Hw as (lex1 & -> & Hs1). apply stream_next in Hs1 as (Hc1 & lex2 & Ha1 & Hs2). rewrite Hc1.
  change (tok_eqb Tok.RParen Tok.RParen) with true. cbn [negb]. rewrite Ha1. exists lex2. split; [|done].
  unfold ret, when_active. destruct active; [done|]. by injection He as <-.
Qed.

Lemma works_cond c n c1 t f tc tt tf :
  Forall plain_tok tf -> tf <> [] -> (forall x, head tt = Some x -> x <> Tok.Colon) -> tt <> [] ->
  works c (S n) 3 tc c1 -> works c n 0 tt t -> works c n 2 tf f ->
  works c (S n) 2 (tc ++ Tok.Question :: tt ++ Tok.Colon :: tf) (ECond c1 t f).
Proof.
  intros Hpf Hnf Hhd Hnt Hc Ht Hf active lex ts Hs Hst. rewrite <- app_assoc in Hs. cbn [app] in Hs.
  rewrite <- app_assoc in Hs. cbn [app] in Hs.
  specialize (Hc active lex _ Hs). cbn [parser_at] in *.
  assert (stops 3 (Tok.Question :: tt ++ Tok.Colon :: tf ++ ts)) as Hst1
    by (right; right; left; split; [done|lia]).
  specialize (Hc Hst1). unfold parse_ternary, bind at 1.
  destruct (expected active c1) as [v|] eqn:Hv; cbn [yields] in Hc.
  2: { destruct active; [|done]. cbn [expected denote] in *. rewrite Hv. destruct Hc as (err & ->). by exists err. }
  destruct Hc as (lex1 & -> & Hs1). apply stream_next in Hs1 as (Hq & lex2 & Hadv & Hs2). rewrite Hq.
  change (tok_eqb Tok.Question Tok.Question) with true. cbv iota. unfold bind at 1, lift at 1. rewrite Hadv.
  cbv zeta. assert (Hncol : cur lex2 <> Tok.Colon).
  { destruct tt as [|x tt]; [done|]. apply stream_next in Hs2 as (-> & _). by apply Hhd. }
  unfold tok_eqb at 1. rewrite bool_decide_eq_false_2 by done. cbn [knot r_comma]. unfold bind at 1.
  specialize (Ht (active && negb (v =? 0)) lex2 _ Hs2 ltac:(right; left; done)).
  assert (Hgoal : expected active (ECond c1 t f) =
    match expected (active && negb (v =? 0)) t with
    | None => None
    | Some vt => match expected (active && (v =? 0)) f with
                 | None => None
                 | Some vf => Some (if negb active then 0 else if negb (v =? 0) then vt else vf)
                 end
    end).
  { destruct active; [|done]. cbn [expected denote andb negb] in *. rewrite Hv.
    destruct (v =? 0); cbn [expected negb]; [by destruct (denote rho f)|by destruct (denote rho t)]. }
  rewrite Hgoal. clear Hgoal.
  destruct (expected (active && negb (v =? 0)) t) as [vt|]; cbn [yields parser_at] in Ht.
  2: { destruct Ht as (err & ->). by exists err. }
  destruct Ht as (lex3 & -> & Hs3). apply stream_next in Hs3 as (Hcol & lex4 & Hadv4 & Hs4). rewrite Hcol.
  change (tok_eqb Tok.Colon Tok.Colon) with true. cbn [negb]. unfold bind at 1, lift at 1. rewrite Hadv4.
  unfold tok_eqb. rewrite bool_decide_eq_false_2 by by eapply stream_not_eof.
  unfold bind. cbn [knot r_ternary]. specialize (Hf (active && (v =? 0)) lex4 ts Hs4 Hst).
  destruct (expected (active && (v =? 0)) f) as [vf|]; cbn [yields parser_at] in Hf.
  - destruct Hf as (lex5 & -> & Hs5). by exists lex5.
  - destruct Hf as (err & ->). by exists err.
Qed.

(** ** Printed expressions are read back *)

(** The tokens an expression can start with. *)
Definition starter (t : Tok.t) : bool :=
  match t with
  | Tok.Num _ | Tok.Ident _ | Tok.LParen | Tok.Plus | Tok.Minus | Tok.Bang | Tok.Tilde => true
  | _ => false
  end.

Lemma starter_wrap b ts ts' :
  (exists t r, ts = t :: r /\ starter t = true) -> exists t r, wrap b ts ++ ts' = t :: r /\ starter t = true.
Proof. intros (t & r & -> & Ht). destruct b; simpl; eauto. Qed.

Lemma body_starts e : exists t r, body e = t :: r /\ starter t = true.
Proof.
  induction e as [n|x|u e IH|o a IHa b IHb|c IHc t IHt f IHf]; simpl; eauto.
  - exists (un_tok u). eexists. split; [done|]. by destruct u.
  - destruct o; by apply starter_wrap.
  - by apply starter_wrap.
Qed.

Lemma print_starts l e : exists t r, print l e = t :: r /\ starter t = true.
Proof.
  destruct (starter_wrap (level e <? l)%nat (body e) [] (body_starts e)) as (t & r & Heq & Ht).
  rewrite app_nil_r in Heq. eauto.
Qed.

Lemma level_le e : (level e <= 15)%nat.
Proof. destruct e as [| | |[]|]; simpl; lia. Qed.

Lemma print_below l e : (level e < l)%nat -> print l e = Tok.LParen :: body e ++ [Tok.RParen].
Proof. intros Hl. unfold print. by rewrite (proj2 (Nat.ltb_lt _ _) Hl). Qed.

Lemma print_above l e : (l <= level e)%nat -> print l e = body e.
Proof. intros Hl. unfold print. by rewrite (proj2 (Nat.ltb_ge _ _) Hl). Qed.

(** The expression's own tokens work at its own level. *)
Definition own (c : Ctx E) (e : expr) : Prop :=
  forall n, (length (body e) <= n)%nat -> works c n (level e) (body e) e.

Lemma own_works c e l n :
  own c e -> (l <= 15)%nat -> (length (print l e) <= n)%nat -> works c n l (print l e) e.
Proof.
  intros Hown Hl Hn. pose proof (level_le e) as Hle.
  assert (Hdown : forall m k, (length (body e) <= m)%nat -> (k <= level e)%nat -> works c m k (body e) e).
  { intros m k Hm Hk. apply descend with (l' := level e); try done.
    - apply body_plain.
    - intros Hnil. destruct (body_starts e) as (? & ? & Hb & _). congruence.
    - intros t Ht Hu. destruct (decide (level e = 15%nat)) as [He|]; [|lia]. exfalso.
      destruct e as [| | |[]|]; try discriminate He; injection Ht as <-; discriminate Hu.
    - by apply Hown. }
  destruct (decide (level e < l)%nat) as [Hlt|Hge].
  - rewrite print_below in Hn |- * by done. apply descend with (l' := 15%nat); try done.
    + apply (plain_wrap true), body_plain.
    + by intros t [= <-].
    + simpl in Hn. rewrite length_app in Hn. simpl in Hn. destruct n as [|n]; [lia|].
      apply works_paren, Hdown; lia.
  - rewrite print_above in Hn |- * by lia. apply Hdown; [done|lia].
Qed.

(** The left operand of a left-associative operator. *)
Lemma spine_operand c n l e :
  left_level l = true -> own c e -> (level e = l -> spine c n l e) ->
  (length (print l e) <= n)%nat -> spine c n l e.
Proof.
  intros Hl Hown Hsp Hn. destruct (decide (level e = l)) as [He|Hne]; [by apply Hsp|].
  apply spine_base. assert (Hpr : print l e = print (S l) e).
  { destruct (decide (level e < l)%nat); [rewrite !print_below by lia|rewrite !print_above by lia]; done. }
  rewrite Hpr in Hn |- *. apply own_works; [done| |done].
  destruct (decide (l <= 14)%nat); [lia|]. unfold left_level in Hl.
  apply orb_true_iff in Hl as [Hl%Nat.eqb_eq|[_ Hl%Nat.leb_le]%andb_true_iff]; lia.
Qed.

Lemma ident_no_bracket x : is_arith_identifier x = true -> find_byte "["%b x = None.
Proof.
  assert (Hb : forall l, forallb is_ident_byte l = true -> find_byte "["%b l = None).
  { induction l as [|b l IH]; [done|]. simpl. intros [Hb Hl]%andb_true_iff.
    destruct (Z.eqb_spec b 91) as [->|_]; [discriminate Hb|]. by rewrite IH. }
  destruct x as [|b l]; [done|]. simpl. intros [Hs Hl]%andb_true_iff.
  destruct (Z.eqb_spec b 91) as [->|_]; [discriminate Hs|]. by rewrite Hb.
Qed.

Lemma left_op o : o <> OPow -> left_level (op_level o) = true.
Proof. by destruct o. Qed.

Lemma own_spine c e :
  readable c e ->
  own c e /\ (left_level (level e) = true -> forall n, (length (body e) <= n)%nat -> spine c n (level e) e).
Proof.
  induction e as [k|x|u e IH|o a IHa b IHb|c1 IHc t IHt f IHf]; intros Hr; cbn [readable] in Hr.
  - split; [|done]. intros n _. apply works_num.
  - split; [|done]. intros n _. apply works_var; [done|]. unfold array_ref_parts.
    by rewrite ident_no_bracket by apply Hr.
  - split; [|done]. intros n Hn. cbn [body level] in *. fold (print 14 e) in *. destruct n as [|n]; [simpl in Hn; lia|].
    apply works_unary; [apply print_plain|apply print_nonempty|]. apply own_works; [by apply IH|lia|simpl in Hn; lia].
  - destruct Hr as [Hra Hrb]. destruct (IHa Hra) as [Howna Hspa]. destruct (IHb Hrb) as [Hownb _].
    destruct (decide (o = OPow)) as [->|Ho].
    + split; [|done]. intros n Hn. cbn [body level] in *. fold (print 14 a) (print 13 b) in *.
      rewrite length_app in Hn. cbn [length] in Hn. destruct n as [|n]; [lia|].
      apply works_power; [apply print_plain|apply print_nonempty| |]; apply own_works; done || lia.
    + assert (Hspine : forall n, (length (body (EBin o a b)) <= n)%nat -> spine c n (op_level o) (EBin o a b)).
      { intros n Hn. rewrite body_bin in Hn by done. rewrite length_app in Hn. cbn [length] in Hn.
        assert (Hl := left_op o Ho). apply spine_step; [done| |].
        - apply spine_operand; [done|done| |lia]. intros He. rewrite <- He. apply Hspa; [by rewrite He|].
          rewrite print_above in Hn by lia. lia.
        - apply own_works; [done| |lia]. destruct o; simpl; lia. }
      split; [|done]. intros n Hn. cbn [level]. rewrite <- (print_above (op_level o) (EBin o a b)) by (simpl; lia).
      apply left_works; [by apply left_op| |by apply Hspine]. by rewrite print_above by (simpl; lia).
  - split; [|done]. destruct Hr as (Hrc & Hrt & Hrf). intros n Hn. cbn [body level] in *.
    fold (print 3 c1) (print 0 t) (print 2 f) in *. rewrite length_app in Hn. cbn [length] in Hn.
    rewrite length_app in Hn. cbn [length] in Hn. destruct n as [|n]; [lia|].
    apply works_cond; try apply print_plain; try apply print_nonempty.
    + intros y Hy. destruct (print_starts 0 t) as (z & r & Hz & Hst). rewrite Hz in Hy. injection Hy as <-.
      intros ->. discriminate Hst.
    + apply own_works; [by apply IHc|lia|lia].
    + apply own_works; [by apply IHt|lia|lia].
    + apply own_works; [by apply IHf|lia|lia].
Qed.

Lemma print_works c e n l :
  readable c e -> (l <= 15)%nat -> (length (print l e) <= n)%nat -> works c n l (print l e) e.
Proof. intros Hr. by apply own_works, own_spine. Qed.
End Runs.

(** * The refinement theorem *)

(** Literals a decimal number denotes without wrapping. *)
Fixpoint literals (e : expr) : Prop :=
  match e with
  | ENum n => 0 <= n <= i64_max
  | EVar _ => True
  | EUn _ e => literals e
  | EBin _ a b => literals a /\ literals b
  | ECond c t f => literals c /\ literals t /\ literals f
  end.

Lemma writable_wrap b ts : Forall writable ts -> Forall writable (wrap b ts).
Proof.
  intros H. destruct b; simpl; [|done]. constructor; [done|]. apply Forall_app. split; [done|by constructor].
Qed.

Lemma body_writable {E} `{Environment E} rho (c : Ctx E) e :
  literals e -> readable rho c e -> Forall writable (body e).
Proof.
  induction e as [n|x|u e IH|o a IHa b IHb|c1 IHc t IHt f IHf]; cbn [literals readable]; intros Hl Hr.
  - constructor; [done|constructor].
  - constructor; [apply Hr|constructor].
  - simpl. constructor; [by destruct u|]. by apply writable_wrap, IH.
  - destruct Hl, Hr. destruct (decide (o = OPow)) as [->|Ho].
    + simpl. apply Forall_app. split; [by apply writable_wrap, IHa|].
      constructor; [done|by apply writable_wrap, IHb].
    + rewrite body_bin by done. apply Forall_app. split; [by apply writable_wrap, IHa|].
      constructor; [by destruct o|by apply writable_wrap, IHb].
  - destruct Hl as (? & ? & ?), Hr as (? & ? & ?). simpl.
    apply Forall_app. split; [by apply writable_wrap, IHc|]. constructor; [done|].
    apply Forall_app. split; [by apply IHt|]. constructor; [done|by apply writable_wrap, IHf].
Qed.

(** The text of an expression starts with a byte that is neither blank nor
    the first half of [++] or [--]. *)
Lemma text_starts t h (rest : bytes) :
  starter t = true -> writable t -> is_ascii_whitespace h = true ->
  exists b s, tok_text t ++ h :: rest = b :: s /\ plain_byte b /\
    match s with
    | [] => True
    | d :: _ => ~ (b = 45 /\ d = 45) /\ ~ (b = 43 /\ d = 43)
    end.
Proof.
  intros Hs Ht Hh. apply ws_cases in Hh. unfold plain_byte.
  destruct t; try discriminate Hs; cbn [tok_text writable] in *;
    try match goal with |- context [bs ?x] =>
      let v := eval vm_compute in (bs x) in change (bs x) with v;
      eexists _, _; split; [reflexivity|]; split; [lia|]; lia
    end.
  - destruct (u_to_string_spec n) as (Hne & Hall & _); [lia|]. destruct Hall as [|b ds Hb _]; [done|].
    apply digit_range in Hb. exists b, (ds ++ h :: rest). split; [done|]. split; [lia|].
    destruct (ds ++ h :: rest); lia.
  - destruct name as [|b x]; [done|]. simpl in Ht. apply andb_true_iff in Ht as [Hb _].
    assert (65 <= b <= 122).
    { unfold is_ident_start, is_ascii_alphabetic, is_ascii_upper, is_ascii_lower, in_range in Hb.
      rewrite !orb_true_iff, !andb_true_iff, Z.eqb_eq, !Z.leb_le in Hb. lia. }
    exists b, (x ++ h :: rest). split; [done|]. split; [lia|]. destruct (x ++ h :: rest); lia.
Qed.

(** So it is neither empty nor rejected for lack of an lvalue. *)
Lemma text_accepted b (s : bytes) :
  plain_byte b ->
  match s with [] => True | d :: _ => ~ (b = 45 /\ d = 45) /\ ~ (b = 43 /\ d = 43) end ->
  is_nil (trim (b :: s)) = false /\ prefix_postfix_lvalue_error (b :: s) = None.
Proof.
  intros Hb Hd. destruct (trim_head b s Hb) as (k & Hk). unfold prefix_postfix_lvalue_error. rewrite Hk.
  split; [done|].
  assert (Hsw : forall x, ((b = x /\ match s with d :: _ => d = x | [] => False end) -> False) ->
    starts_with [x; x] (b :: take k s) = false).
  { intros x Hx. cbn [starts_with]. destruct (Z.eqb_spec x b) as [->|]; [|done].
    destruct k as [|k], s as [|d s]; try done. cbn [take firstn starts_with].
    destruct (Z.eqb_spec b d) as [->|]; [|done]. by destruct Hx. }
  change (bs "--") with [45; 45]. change (bs "++") with [43; 43].
  rewrite !Hsw; [done| |]; destruct s; tauto.
Qed.

(** A text read as the tokens of an expression. *)
Lemma eval_stream {E} `{Environment E} (expand : bytes -> M E bytes) (rho : bytes -> Z) (c : Ctx E) (e : expr) text lex (n : nat) :
  readable rho c e -> 0 <= arith_depth c < MAX_ARITH_NESTING -> (length (print 0 e) <= n)%nat ->
  is_nil (trim text) = false -> prefix_postfix_lvalue_error text = None ->
  Lexer_new text = Ok lex -> stream lex (print 0 e) ->
  match denote rho e with
  | Some v => eval expand n text c = (Ok v, c)
  | None => exists err, eval expand n text c = (Err err, c)
  end.
Proof.
  intros Hr Hd Hn Hnil Hpre Hnew Hst. unfold eval, eval_inner. rewrite Hnil, Hpre. cbv zeta.
  set (c1 := with_arith_depth c (Z.min u32_max (arith_depth c + 1))).
  assert (Hback : with_arith_depth c1 (arith_depth c1 - 1) = c).
  { unfold c1. destruct c. cbn in *. unfold with_arith_depth. cbn. unfold MAX_ARITH_NESTING in *.
    rewrite Z.min_r by (unfold u32_max; lia). f_equal. lia. }
  assert ((MAX_ARITH_NESTING <? arith_depth c1) = false) as ->.
  { unfold c1. cbn. apply Z.ltb_ge. lia. }
  unfold bind, lift. rewrite Hnew.
  assert (Hr1 : readable rho c1 e) by (clear - Hr; by induction e; cbn in *; intuition).
  assert (Hrun := print_works expand rho c1 e n 0 Hr1 ltac:(lia) Hn true lex []).
  rewrite app_nil_r in Hrun. specialize (Hrun Hst I). cbn [parser_at expected] in Hrun.
  destruct (denote rho e) as [v|]; cbn [yields] in Hrun.
  - destruct Hrun as (lex' & -> & Hs'). rewrite (stream_cur _ _ Hs').
    change (tok_eqb (default Tok.Eof (head [])) Tok.Eof) with true. cbn [negb]. unfold ret. by rewrite Hback.
  - destruct Hrun as (err & Herr). exists err. by rewrite Herr, Hback.
Qed.

(** C1: the evaluator implements the denotation of expressions.  For every
    expression built from literals, scalar variables, the unary and binary
    operators, the comma and the conditional, evaluating its text (tokens
    separated by any white space, parentheses only where precedence and
    associativity need them) yields exactly the denoted value, the operands
    of the logical operators and of the conditional being evaluated only when
    selected, and leaves the shell unchanged; an expression without value (a
    division by zero or a negative exponent in a selected operand) is an
    error.  As many units of fuel as there are tokens are enough. *)
Theorem eval_refines_denotation {E} `{Environment E} (expand : bytes -> M E bytes) (rho : bytes -> Z)
    (c : Ctx E) (e : expr) (sep : bytes) (n : nat) :
  literals e -> readable rho c e -> blank sep -> sep <> [] ->
  0 <= arith_depth c < MAX_ARITH_NESTING -> (length (print 0 e) <= n)%nat ->
  match denote rho e with
  | Some v => eval expand n (render sep (print 0 e)) c = (Ok v, c)
  | None => exists err, eval expand n (render sep (print 0 e)) c = (Err err, c)
  end.
Proof.
  intros Hl Hr Hb Hne Hd Hn. pose proof (body_writable rho c e Hl Hr) as Hw.
  apply (writable_wrap (level e <? 0)%nat) in Hw. fold (print 0 e) in Hw.
  destruct (render_stream sep (print 0 e) Hb Hne Hw [] [] (mkLexer (render sep (print 0 e)) 0 Tok.Eof 0 0))
    as (lex & Hnew & Hst); try done; [by constructor|].
  assert (Hacc : is_nil (trim (render sep (print 0 e))) = false
    /\ prefix_postfix_lvalue_error (render sep (print 0 e)) = None).
  { destruct (print_starts 0 e) as (t & r & Hp & Hs). rewrite Hp in Hw |- *. inversion Hw; subst.
    destruct sep as [|h sep]; [done|]. inversion Hb; subst. cbn [render flat_map].
    rewrite <- app_assoc. cbn [app]. edestruct (text_starts t h) as (b & s & -> & Hpb & Hbs); [done..|].
    by apply text_accepted. }
  destruct Hacc as [Hnil Hpre]. by apply (eval_stream expand rho c e _ lex).
Qed.

Definition sample_env : MapEnv.t := MapEnv.set MapEnv.empty (bs "x") (bs "7").

(** [x * ( 3 - 5 ) ** 2 && 10 / 0 == 1 || - x < 2] and its first half alone. *)
Definition sample_div : expr :=
  EBin OLAnd (EBin OMul (EVar (bs "x")) (EBin OPow (EBin OSub (ENum 3) (ENum 5)) (ENum 2)))
    (EBin OEq (EBin ODiv (ENum 10) (ENum 0)) (ENum 1)).
Definition sample_skip : expr :=
  EBin OLOr (EBin OLt (EUn UMinus (EVar (bs "x"))) (ENum 2)) sample_div.

Definition sample_rho (_ : bytes) : Z := 7.

Lemma eval_refines_denotation_witness :
  render (bs " ") (print 0 sample_skip) = bs "- x < 2 || x * ( 3 - 5 ) ** 2 && 10 / 0 == 1 " /\
  eval no_expand 30 (render (bs " ") (print 0 sample_skip)) (test_ctx sample_env)
    = (Ok 1, test_ctx sample_env) /\
  (exists err, eval no_expand 30 (render (bs " ") (print 0 sample_div)) (test_ctx sample_env)
    = (Err err, test_ctx sample_env)).
Proof.
  assert (Hx : reads sample_rho (test_ctx sample_env) (bs "x")).
  { split; [done|]. split; [done|]. exists (bs "7"). by split. }
  assert (Hb : blank (bs " ")) by by repeat constructor.
  split; [reflexivity|]. split.
  - apply (eval_refines_denotation no_expand sample_rho (test_ctx sample_env) sample_skip (bs " ") 30);
      try done; try (cbn; unfold i64_max, MAX_ARITH_NESTING; lia).
  - apply (eval_refines_denotation no_expand sample_rho (test_ctx sample_env) sample_div (bs " ") 30);
      try done; try (cbn; unfold i64_max, MAX_ARITH_NESTING; lia).
Defined.

(** * Decimal texts

    The text of a number, with nothing around it. *)
Lemma decimal_stream n : 0 <= n <= i64_max -> exists lex, Lexer_new (u_to_string n) = Ok lex /\ stream lex [Tok.Num n].
Proof.
  intros Hn. destruct (u_to_string_spec n) as (Hne & Hall & _); [lia|]. pose proof (parse_number_dec n Hn) as Hp.
  set (s := u_to_string n) in *. clearbody s. destruct s as [|b ds]; [done|]. inversion Hall as [|? ? Hb _]; subst.
  assert (Hw : is_ascii_whitespace b = false).
  { apply digit_range in Hb. apply not_true_is_false. intros Hw%ws_cases. lia. }
  assert (Hs : scan_while is_number_byte ((b :: ds) ++ []) = length (b :: ds)).
  { apply scan_while_app; [|done]. eapply Forall_impl; [exact Hall|]. intros x Hx. unfold is_number_byte, is_ascii_alphanumeric.
    cbn in Hx. by rewrite Hx, orb_true_r. }
  rewrite app_nil_r in Hs.
  unfold Lexer_new, advance. cbn [src i]. cbn [drop]. cbn [scan_while]. rewrite Hw, Nat.add_0_r. cbn [drop]. rewrite Hb.
  assert (Hl : lex_number (b :: ds) 0 = Ok (Tok.Num n, length (b :: ds))).
  { unfold lex_number. cbn [drop]. rewrite Hs. unfold slice. cbn [drop]. rewrite Nat.add_0_l, Nat.sub_0_r, take_ge by done.
    by rewrite Hp. }
  rewrite Hl. eexists. split; [done|].
  eapply stream_cons; [done| |].
  - unfold advance. cbn [src i]. rewrite drop_all. cbn [scan_while]. rewrite Nat.add_0_r, drop_all. reflexivity.
  - by apply stream_end.
Qed.

Lemma eval_decimal {E} `{Environment E} (expand : bytes -> M E bytes) (c : Ctx E) n k :
  0 <= k <= i64_max -> 0 <= arith_depth c < MAX_ARITH_NESTING -> (1 <= n)%nat ->
  eval expand n (u_to_string k) c = (Ok k, c).
Proof.
  intros Hk Hd Hn. destruct (decimal_stream k Hk) as (lex & Hl & Hst).
  destruct (u_to_string_spec k) as (Hne & Hall & _); [lia|].
  destruct (u_to_string k) as [|b ds] eqn:Hs; [done|]. inversion Hall as [|? ? Hb _]; subst. apply digit_range in Hb.
  destruct (text_accepted b ds) as [Hnil Hpre]; [unfold plain_byte; lia|destruct ds; [done|lia]|].
  by apply (eval_stream expand (fun _ => 0) c (ENum k) (b :: ds) lex n).
Qed.

Lemma eval_preexpanded_decimal {E} `{Environment E} (expand : bytes -> M E bytes) (c : Ctx E) n k :
  0 <= k <= i64_max -> 0 <= arith_depth c < MAX_ARITH_NESTING -> (1 <= n)%nat ->
  eval_preexpanded expand n (u_to_string k) c = (Ok k, c).
Proof.
  intros Hk Hd Hn. unfold eval_preexpanded. fold (eval expand n (u_to_string k)).
  rewrite eval_decimal by done. by destruct c.
Qed.
