(* ===== verification/IndexedArray.v ===== *)
(** Indexed arrays of the shell state (crates/shell/src/state/arrays.rs): a
    dense vector for small subscripts and an ordered map for the others, the
    finite map from subscripts to values it represents, and the operations'
    refinement of the map operations. *)
From stdpp Require Import base list gmap sorting fin_maps.
From S2P Require Import Prelude.

(** * Data and operations *)

Record IndexedArray := mkArray {
  dense : list (option bytes);
  sparse : gmap Z bytes;
  alen : nat;
}.

Definition MAX_DENSE_GAP : Z := 1024.
Definition MAX_DENSE_LEN : Z := 65536.

Definition dense_len (a : IndexedArray) : Z := Z.of_nat (length (dense a)).

Definition empty_array : IndexedArray := mkArray [] ∅ 0.

Definition from_values (values : list bytes) : IndexedArray :=
  mkArray (map Some values) ∅ (length values).

Definition should_store_dense (a : IndexedArray) (index : Z) : bool :=
  if index <? 0 then false
  else if index <? dense_len a then true
  else (index <? MAX_DENSE_LEN) && (index <=? dense_len a + MAX_DENSE_GAP).

(** [while dense.last() is Some(None) { dense.pop() }] *)
Fixpoint trim_tail (l : list (option bytes)) : list (option bytes) :=
  match l with
  | [] => []
  | x :: l =>
      match x, trim_tail l with
      | None, [] => []
      | x, l => x :: l
      end
  end.

Definition trim_dense_tail (a : IndexedArray) : IndexedArray :=
  mkArray (trim_tail (dense a)) (sparse a) (alen a).

(** [dense.resize_with(n, || None)] for [n >= dense.len()]. *)
Definition resize_dense (l : list (option bytes)) (n : nat) : list (option bytes) :=
  l ++ replicate (n - length l) None.

Definition insert (a : IndexedArray) (index : Z) (value : bytes) : IndexedArray :=
  if (0 <=? index) && (index =? dense_len a) && (index <? MAX_DENSE_LEN) then
    mkArray (dense a ++ [Some value]) (sparse a) (alen a + 1)
  else if should_store_dense a index then
    let idx := Z.to_nat index in
    let len := match sparse a !! index with Some _ => pred (alen a) | None => alen a end in
    let sp := delete index (sparse a) in
    let dn := if dense_len a <=? index then resize_dense (dense a) (idx + 1) else dense a in
    let len := match dn !! idx with Some (Some _) => len | _ => (len + 1)%nat end in
    mkArray (<[idx := Some value]> dn) sp len
  else
    let '(dn, len) :=
      if (0 <=? index) && (index <? dense_len a) then
        let idx := Z.to_nat index in
        match dense a !! idx with
        | Some (Some _) => (<[idx := None]> (dense a), pred (alen a))
        | _ => (dense a, alen a)
        end
      else (dense a, alen a) in
    let len := match sparse a !! index with Some _ => len | None => (len + 1)%nat end in
    trim_dense_tail (mkArray dn (<[index := value]> (sparse a)) len).

Definition from_pairs (values : list (Z * bytes)) : IndexedArray :=
  fold_left (fun a '(idx, value) => insert a idx value) values empty_array.

Definition get (a : IndexedArray) (index : Z) : option bytes :=
  if (0 <=? index) && (index <? dense_len a) then
    match dense a !! Z.to_nat index with Some v => v | None => None end
  else sparse a !! index.

Definition remove (a : IndexedArray) (index : Z) : option bytes * IndexedArray :=
  let remove_sparse :=
    match sparse a !! index with
    | Some old => (Some old, mkArray (dense a) (delete index (sparse a)) (pred (alen a)))
    | None => (None, a)
    end in
  if (0 <=? index) && (index <? dense_len a) then
    let idx := Z.to_nat index in
    match dense a !! idx with
    | Some (Some old) =>
        (Some old, trim_dense_tail (mkArray (<[idx := None]> (dense a)) (sparse a) (pred (alen a))))
    | _ => remove_sparse
    end
  else remove_sparse.

(** Entries of the dense part from subscript [k] on. *)
Fixpoint dense_entries (k : Z) (l : list (option bytes)) : list (Z * bytes) :=
  match l with
  | [] => []
  | Some v :: l => (k, v) :: dense_entries (k + 1) l
  | None :: l => dense_entries (k + 1) l
  end.

Definition key_le (p q : Z * bytes) : Prop := fst p <= fst q.
#[export] Instance key_le_dec : RelDecision key_le.
Proof. intros p q. unfold key_le. apply _. Defined.

(** Iteration of a [BTreeMap] is in key order. *)
Definition btree_iter (m : gmap Z bytes) : list (Z * bytes) :=
  merge_sort key_le (map_to_list m).

Definition all (a : IndexedArray) : list (Z * bytes) :=
  let entries := dense_entries 0 (dense a) ++ btree_iter (sparse a) in
  if is_nil (map_to_list (sparse a)) then entries else merge_sort key_le entries.

Definition keys (a : IndexedArray) : list Z :=
  if is_nil (map_to_list (sparse a)) then map fst (dense_entries 0 (dense a))
  else map fst (all a).

Definition values (a : IndexedArray) : list bytes := map snd (all a).

Definition max_index (a : IndexedArray) : option Z :=
  match last (map fst (dense_entries 0 (dense a))), last (map fst (btree_iter (sparse a))) with
  | Some x, Some y => Some (Z.max x y)
  | Some x, None => Some x
  | None, y => y
  end.

(** * The represented map and the invariant *)

Definition present (l : list (option bytes)) : nat := length (dense_entries 0 l).

(** The sparse part holds no subscript of the dense range, and [len] counts
    the elements. *)
Record wf (a : IndexedArray) : Prop := {
  wf_disjoint : forall k, is_Some (sparse a !! k) -> k < 0 \/ dense_len a <= k;
  wf_len : alen a = (present (dense a) + size (sparse a))%nat;
}.

(** The finite map an array stands for. *)
Definition abs (a : IndexedArray) : gmap Z bytes :=
  list_to_map (dense_entries 0 (dense a)) ∪ sparse a.

(** An insertion at [index] is safe when growing the dense part up to it
    leaves no sparse subscript behind. *)
Definition no_shadow (a : IndexedArray) (index : Z) : Prop :=
  should_store_dense a index = true ->
  forall k, dense_len a <= k <= index -> (k < index \/ index = dense_len a) -> sparse a !! k = None.

(** * Lemmas on the dense part *)

Lemma dense_entries_app k l1 l2 :
  dense_entries k (l1 ++ l2) = dense_entries k l1 ++ dense_entries (k + Z.of_nat (length l1)) l2.
Proof.
  revert k. induction l1 as [|[v|] l1 IH]; intros k; simpl.
  - f_equal. lia.
  - f_equal. rewrite IH. do 2 f_equal. lia.
  - rewrite IH. do 2 f_equal. lia.
Qed.

Lemma dense_entries_none k n : dense_entries k (replicate n None) = [].
Proof. revert k. induction n as [|n IH]; intros k; simpl; auto. Qed.

Lemma dense_entries_trim k l : dense_entries k (trim_tail l) = dense_entries k l.
Proof.
  revert k. induction l as [|[v|] l IH]; intros k; simpl; [done|by rewrite IH|].
  rewrite <- (IH (k + 1)). by destruct (trim_tail l).
Qed.

Lemma trim_tail_length l : (length (trim_tail l) <= length l)%nat.
Proof.
  induction l as [|[v|] l IH]; simpl; [done|lia|]. destruct (trim_tail l); simpl in *; lia.
Qed.

Lemma present_length k l : length (dense_entries k l) = present l.
Proof.
  assert (forall l k k', length (dense_entries k l) = length (dense_entries k' l)) as Hk.
  { clear. induction l as [|[v|] l IH]; intros; simpl; auto. }
  apply Hk.
Qed.

Lemma present_app l1 l2 : present (l1 ++ l2) = (present l1 + present l2)%nat.
Proof. unfold present at 1. by rewrite dense_entries_app, length_app, !present_length. Qed.

Lemma present_cons x l :
  present (x :: l) = (match x with Some _ => 1 | None => 0 end + present l)%nat.
Proof. change (x :: l) with ([x] ++ l). rewrite present_app. by destruct x. Qed.

Lemma present_insert l i x :
  (i < length l)%nat ->
  (present (<[i := x]> l) + match l !! i with Some (Some _) => 1 | _ => 0 end
   = present l + match x with Some _ => 1 | None => 0 end)%nat.
Proof.
  revert i. induction l as [|y l IH]; intros [|i] Hi; simpl in *; try lia.
  - rewrite !present_cons. destruct x, y; lia.
  - rewrite !present_cons. specialize (IH i ltac:(lia)). lia.
Qed.

(** A subscript is looked up in the dense part by position. *)
Lemma dense_map_lookup k l j :
  (list_to_map (dense_entries k l) : gmap Z bytes) !! j
  = if k <=? j then mjoin (l !! Z.to_nat (j - k)) else None.
Proof.
  revert k. induction l as [|x l IH]; intros k; simpl.
  { rewrite lookup_empty. by destruct (k <=? j). }
  assert (Htail : (list_to_map (dense_entries (k + 1) l) : gmap Z bytes) !! j
    = if k <? j then mjoin (l !! Z.to_nat (j - k - 1)) else None).
  { rewrite IH. destruct (k + 1 <=? j) eqn:H1, (k <? j) eqn:H2; to_prop; try lia; [|done].
    do 2 f_equal. lia. }
  destruct (k <=? j) eqn:Hkj; to_prop.
  - destruct (decide (j = k)) as [->|Hne].
    + rewrite Z.sub_diag. simpl. destruct x as [v|]; simpl; [by rewrite lookup_insert_eq|].
      rewrite Htail. by rewrite Z.ltb_irrefl.
    + assert (Z.to_nat (j - k) = S (Z.to_nat (j - k - 1))) as -> by lia. simpl.
      rewrite (proj2 (Z.ltb_lt k j)) in Htail by lia.
      destruct x as [v|]; simpl; [by rewrite lookup_insert_ne by lia|done].
  - rewrite (proj2 (Z.ltb_ge k j)) in Htail by lia.
    destruct x as [v|]; simpl; [by rewrite lookup_insert_ne by lia|done].
Qed.

Lemma abs_lookup a j :
  abs a !! j = (if 0 <=? j then mjoin (dense a !! Z.to_nat j) else None) ∪ sparse a !! j.
Proof. unfold abs. by rewrite lookup_union, dense_map_lookup, Z.sub_0_r. Qed.

Lemma dense_lookup_range (l : list (option bytes)) j :
  Z.of_nat (length l) <= j -> l !! Z.to_nat j = None.
Proof. intros. apply lookup_ge_None. lia. Qed.

Lemma get_spec a j : wf a -> get a j = abs a !! j.
Proof.
  intros Hwf. rewrite abs_lookup. unfold get, dense_len.
  destruct (0 <=? j) eqn:H0; simpl; to_prop; [|by rewrite (left_id_L None _)].
  destruct (j <? _) eqn:H1; to_prop.
  - destruct (sparse a !! j) eqn:Hs.
    { destruct (wf_disjoint a Hwf j); [eauto|lia|unfold dense_len in *; lia]. }
    rewrite (right_id_L None _). destruct (dense a !! Z.to_nat j) as [[v|]|]; done.
  - rewrite dense_lookup_range by lia. simpl. by rewrite (left_id_L None _).
Qed.

(** The map keeps its value under the two ways of growing the vector. *)
Lemma abs_trim a : abs (trim_dense_tail a) = abs a.
Proof. unfold abs. simpl. by rewrite dense_entries_trim. Qed.

Lemma wf_trim a : wf a -> wf (trim_dense_tail a).
Proof.
  intros [Hd Hl]. split; simpl.
  - intros k Hk. pose proof (trim_tail_length (dense a)).
    destruct (Hd k Hk); unfold dense_len in *; simpl; lia.
  - unfold present. by rewrite dense_entries_trim, present_length.
Qed.

Lemma wf_empty : wf empty_array.
Proof. split; simpl; [|done]. intros k [v Hv]. by rewrite lookup_empty in Hv. Qed.

Lemma pred_size (m : gmap Z bytes) k v :
  m !! k = Some v -> size m = S (size (delete k m)).
Proof.
  intros Hk. rewrite map_size_delete_Some by eauto.
  destruct (size m) eqn:Hs; [|done]. apply map_size_empty_inv in Hs. subst.
  by rewrite lookup_empty in Hk.
Qed.

(** * Insertion, removal and lookup refine the map *)

(** Appending directly after the dense part. *)
Lemma push_spec a v :
  wf a -> sparse a !! dense_len a = None ->
  wf (mkArray (dense a ++ [Some v]) (sparse a) (alen a + 1)) /\
  abs (mkArray (dense a ++ [Some v]) (sparse a) (alen a + 1)) = <[dense_len a := v]> (abs a).
Proof.
  intros [Hd Hl] Hn. split.
  - split; simpl.
    + intros k Hk. destruct (Hd k Hk) as [?|Hge]; [by left|right].
      unfold dense_len in *. simpl. rewrite length_app. simpl.
      destruct (decide (k = Z.of_nat (length (dense a)))) as [->|]; [|lia].
      rewrite Hn in Hk. by destruct Hk.
    + rewrite present_app. simpl. unfold present at 2. simpl. lia.
  - apply map_eq. intros j. rewrite lookup_insert, !abs_lookup. simpl. unfold dense_len.
    case_decide as Hj.
    + subst j. rewrite (proj2 (Z.leb_le 0 _)) by lia. rewrite Nat2Z.id.
      rewrite lookup_app_r, Nat.sub_diag by lia. simpl. by destruct (sparse a !! _).
    + destruct (0 <=? j) eqn:H0; [|done]. to_prop. rewrite lookup_app.
      destruct (dense a !! Z.to_nat j) eqn:E; [done|].
      apply lookup_ge_None in E. rewrite lookup_ge_None_2; [done|simpl; lia].
Qed.

(** Overwriting or filling a slot of the dense part. *)
Lemma slot_spec a i v :
  wf a -> 0 <= i < dense_len a ->
  let dn := <[Z.to_nat i := Some v]> (dense a) in
  let len := match dense a !! Z.to_nat i with Some (Some _) => alen a | _ => (alen a + 1)%nat end in
  wf (mkArray dn (sparse a) len) /\ abs (mkArray dn (sparse a) len) = <[i := v]> (abs a).
Proof.
  intros [Hd Hl] Hi dn len. unfold dense_len in Hi. split.
  - split; simpl.
    + intros k Hk. subst dn. unfold dense_len. simpl. rewrite length_insert. by apply Hd.
    + pose proof (present_insert (dense a) (Z.to_nat i) (Some v) ltac:(lia)) as Hp.
      subst dn len. destruct (dense a !! Z.to_nat i) as [[|]|]; lia.
  - apply map_eq. intros j. rewrite lookup_insert, !abs_lookup. simpl. subst dn.
    case_decide as Hj.
    + subst j. rewrite (proj2 (Z.leb_le 0 i)) by lia.
      rewrite list_lookup_insert_eq by lia. simpl. by destruct (sparse a !! i).
    + destruct (0 <=? j) eqn:H0; [|done]. to_prop.
      by rewrite list_lookup_insert_ne by lia.
Qed.

(** Growing the dense part with holes. *)
Lemma resize_spec a n :
  wf a -> (forall k, dense_len a <= k < Z.of_nat n -> sparse a !! k = None) ->
  (length (dense a) <= n)%nat ->
  let a' := mkArray (resize_dense (dense a) n) (sparse a) (alen a) in
  wf a' /\ abs a' = abs a /\ dense_len a' = Z.of_nat n.
Proof.
  intros [Hd Hl] Hn Hle a'.
  assert (dense_len a' = Z.of_nat n) as Hlen.
  { unfold a', dense_len, resize_dense. simpl. rewrite length_app, length_replicate. lia. }
  split; [split|split; [|done]].
  - intros k Hk. rewrite Hlen. destruct (Hd k Hk) as [?|Hge]; [by left|right].
    destruct (decide (k < Z.of_nat n)); [|lia]. simpl in Hk.
    rewrite (Hn k) in Hk by lia. by destruct Hk.
  - simpl. unfold resize_dense. rewrite present_app.
    unfold present at 2. rewrite dense_entries_none. simpl. lia.
  - unfold abs, a', resize_dense. simpl.
    by rewrite dense_entries_app, dense_entries_none, app_nil_r.
Qed.

(** Dropping a subscript from the sparse part. *)
Lemma unsparse_spec a i :
  wf a -> i < 0 \/ dense_len a <= i ->
  let len := match sparse a !! i with Some _ => pred (alen a) | None => alen a end in
  let a' := mkArray (dense a) (delete i (sparse a)) len in
  wf a' /\ abs a' = delete i (abs a).
Proof.
  intros [Hd Hl] Hi len a'. split; [split; simpl|].
  - intros k [x Hx]. apply lookup_delete_Some in Hx. apply Hd. destruct Hx. by exists x.
  - subst len. destruct (sparse a !! i) as [w|] eqn:Hs.
    + rewrite Hl, (pred_size _ _ _ Hs). lia.
    + by rewrite delete_id.
  - unfold abs. simpl. rewrite delete_union, (delete_id (list_to_map _)); [done|].
    rewrite dense_map_lookup, Z.sub_0_r. destruct (0 <=? i) eqn:H0; [|done]. to_prop.
    rewrite dense_lookup_range; [done|]. unfold dense_len in Hi. lia.
Qed.

(** Storing in the sparse part, outside the dense range. *)
Lemma sparse_spec a i v :
  wf a -> i < 0 \/ dense_len a <= i ->
  let len := match sparse a !! i with Some _ => alen a | None => (alen a + 1)%nat end in
  let a' := mkArray (dense a) (<[i := v]> (sparse a)) len in
  wf a' /\ abs a' = <[i := v]> (abs a).
Proof.
  intros [Hd Hl] Hi len a'. split; [split; simpl|].
  - intros k [x Hx]. apply lookup_insert_Some in Hx. destruct Hx as [[<- _]|[_ Hx]]; [done|].
    apply Hd. by exists x.
  - subst len. rewrite map_size_insert. destruct (sparse a !! i); unfold id; lia.
  - unfold abs. simpl. rewrite <- insert_union_r; [done|].
    rewrite dense_map_lookup, Z.sub_0_r. destruct (0 <=? i) eqn:H0; [|done]. to_prop.
    rewrite dense_lookup_range; [done|]. unfold dense_len in Hi. lia.
Qed.

Lemma sparse_outside a i : wf a -> 0 <= i < dense_len a -> sparse a !! i = None.
Proof.
  intros Hwf Hi. destruct (sparse a !! i) eqn:Hs; [|done].
  destruct (wf_disjoint a Hwf i); [by eexists|lia|lia].
Qed.

(** An insertion into the dense range or one that extends it. *)
Lemma insert_dense_spec a i v :
  wf a -> no_shadow a i -> should_store_dense a i = true -> 0 <= i ->
  let idx := Z.to_nat i in
  let len := match sparse a !! i with Some _ => pred (alen a) | None => alen a end in
  let dn := if dense_len a <=? i then resize_dense (dense a) (idx + 1) else dense a in
  let len := match dn !! idx with Some (Some _) => len | _ => (len + 1)%nat end in
  let a' := mkArray (<[idx := Some v]> dn) (delete i (sparse a)) len in
  wf a' /\ abs a' = <[i := v]> (abs a).
Proof.
  intros Hwf Hns Hst Hi. cbv zeta. destruct (dense_len a <=? i) eqn:Hd; to_prop.
  - destruct (unsparse_spec a i Hwf ltac:(by right)) as [Hwf1 Habs1].
    set (a1 := mkArray _ _ _) in Hwf1, Habs1.
    destruct (resize_spec a1 (Z.to_nat i + 1) Hwf1) as (Hwf2 & Habs2 & Hlen2).
    { intros k Hk. unfold a1. simpl. destruct (decide (k = i)) as [->|]; [apply lookup_delete_eq|].
      rewrite lookup_delete_ne by done. apply (Hns Hst); unfold dense_len, a1 in *; simpl in *; lia. }
    { unfold dense_len, a1 in *. simpl. lia. }
    destruct (slot_spec _ i v Hwf2) as [Hwf3 Habs3]; [lia|].
    simpl in Hwf3, Habs3. split; [apply Hwf3|].
    etrans; [apply Habs3|]. rewrite <- (insert_delete_eq (abs a)), <- Habs1. f_equal. exact Habs2.
  - rewrite (sparse_outside a i) by (done || lia).
    rewrite delete_id by (apply sparse_outside; [done|lia]).
    apply slot_spec; [done|lia].
Qed.

Lemma insert_spec a i v :
  wf a -> no_shadow a i -> wf (insert a i v) /\ abs (insert a i v) = <[i := v]> (abs a).
Proof.
  intros Hwf Hns. unfold insert.
  destruct ((0 <=? i) && (i =? dense_len a) && (i <? MAX_DENSE_LEN)) eqn:Hpush; to_prop.
  { subst i. apply push_spec; [done|]. apply Hns; [|lia|by right].
    unfold should_store_dense, MAX_DENSE_GAP. split_ifs; to_prop; lia. }
  destruct (should_store_dense a i) eqn:Hst; unfold should_store_dense in Hst.
  { apply insert_dense_spec; [done..|done|]. destruct (i <? 0) eqn:?; [done|]. to_prop. lia. }
  assert (i < 0 \/ dense_len a <= i) as Hout.
  { destruct (i <? 0) eqn:?; to_prop; [lia|]. destruct (i <? dense_len a) eqn:?; [done|]. to_prop. lia. }
  assert ((0 <=? i) && (i <? dense_len a) = false) as ->.
  { apply andb_false_iff. destruct Hout; [left|right]; lia. }
  destruct (sparse_spec a i v Hwf Hout) as [Hwf' Habs'].
  split; [by apply wf_trim|by rewrite abs_trim].
Qed.

Lemma remove_spec a i :
  wf a ->
  fst (remove a i) = abs a !! i /\
  wf (snd (remove a i)) /\ abs (snd (remove a i)) = delete i (abs a).
Proof.
  intros Hwf. rewrite <- get_spec by done. unfold remove, get.
  destruct ((0 <=? i) && (i <? dense_len a)) eqn:Hin; to_prop.
  - rewrite (sparse_outside a i) by (done || lia).
    destruct (dense a !! Z.to_nat i) as [[v|]|] eqn:Hd; simpl.
    2,3: split; [done|split; [done|]]; rewrite delete_id; [done|];
         rewrite abs_lookup, Hd, (sparse_outside a i) by (done || lia); by split_ifs.
    split; [done|]. assert (Z.to_nat i < length (dense a))%nat by (apply lookup_lt_Some in Hd; lia).
    pose proof (present_insert (dense a) (Z.to_nat i) None ltac:(done)) as Hp. rewrite Hd in Hp.
    set (a' := mkArray _ _ _).
    split; [apply wf_trim; split; simpl|change (abs (trim_dense_tail a') = delete i (abs a))].
    + intros k Hk. unfold dense_len. simpl. rewrite length_insert. by apply (wf_disjoint a).
    + rewrite (wf_len a Hwf). lia.
    + rewrite abs_trim. apply map_eq. intros j. rewrite lookup_delete, !abs_lookup. simpl.
      case_decide as Hj; [subst j|].
      * rewrite list_lookup_insert_eq by done. rewrite (sparse_outside a i) by (done || lia).
        by split_ifs.
      * destruct (0 <=? j) eqn:Hj0; [|done]. to_prop. by rewrite list_lookup_insert_ne by lia.
  - assert (i < 0 \/ dense_len a <= i) as Hout.
    { apply andb_false_iff in Hin. destruct Hin; to_prop; lia. }
    destruct (unsparse_spec a i Hwf Hout) as [Hwf' Habs'].
    destruct (sparse a !! i) as [v|] eqn:Hs; simpl; [done|].
    split; [done|split; [done|]]. rewrite <- Habs'. unfold abs. simpl. by rewrite delete_id.
Qed.

(** * Enumeration *)

Lemma dense_entries_lower k l p : p ∈ dense_entries k l -> k <= fst p.
Proof.
  revert k. induction l as [|[v|] l IH]; intros k; simpl.
  - intros H. by apply elem_of_nil in H.
  - intros [->|H]%elem_of_cons; simpl; [lia|]. apply IH in H. lia.
  - intros H. apply IH in H. lia.
Qed.

Lemma dense_entries_sorted k l : StronglySorted Z.lt (map fst (dense_entries k l)).
Proof.
  revert k. induction l as [|[v|] l IH]; intros k; simpl; [constructor| |done].
  constructor; [done|]. apply Forall_fmap, Forall_forall. intros p Hp.
  apply dense_entries_lower in Hp. simpl. lia.
Qed.

Lemma strict_nodup (l : list Z) : StronglySorted Z.lt l -> NoDup l.
Proof.
  induction 1 as [|x l Hs IH Hx]; constructor; [|done]. intros Hin.
  rewrite Forall_forall in Hx. specialize (Hx _ Hin). lia.
Qed.

Lemma dense_entries_elem l k v :
  (k, v) ∈ dense_entries 0 l <-> 0 <= k /\ mjoin (l !! Z.to_nat k) = Some v.
Proof.
  rewrite (elem_of_list_to_map (M:=gmap Z)) by apply strict_nodup, dense_entries_sorted.
  rewrite dense_map_lookup, Z.sub_0_r. destruct (0 <=? k) eqn:H; to_prop; naive_solver lia.
Qed.

#[export] Instance key_le_total : Total key_le.
Proof. intros p q. unfold key_le. lia. Qed.

#[export] Instance key_le_trans : Transitive key_le.
Proof. intros p q r. unfold key_le. lia. Qed.

Lemma btree_iter_perm m : btree_iter m ≡ₚ map_to_list m.
Proof. apply merge_sort_Permutation. Qed.

Lemma sorted_keys_strict (l : list (Z * bytes)) :
  StronglySorted key_le l -> NoDup (map fst l) -> StronglySorted Z.lt (map fst l).
Proof.
  induction 1 as [|p l Hs IH Hp]; simpl; intros Hnd; constructor; inversion Hnd; subst; [by apply IH|].
  apply Forall_fmap, Forall_forall. intros q Hq. rewrite Forall_forall in Hp.
  specialize (Hp _ Hq). unfold key_le in Hp. simpl.
  assert (fst q <> fst p); [|lia]. intros Heq. apply H1. rewrite <- Heq.
  by apply (list_elem_of_fmap_2 fst).
Qed.

Lemma sorted_pairs_unique (l1 l2 : list (Z * bytes)) :
  StronglySorted Z.lt (map fst l1) -> StronglySorted Z.lt (map fst l2) ->
  (forall p, p ∈ l1 <-> p ∈ l2) -> l1 = l2.
Proof.
  revert l2. induction l1 as [|p l1 IH]; intros [|q l2] H1 H2 Heq.
  - done.
  - specialize (Heq q). set_solver.
  - specialize (Heq p). set_solver.
  - simpl in *. inversion H1 as [|? ? Hs1 Hf1]; inversion H2 as [|? ? Hs2 Hf2]; subst.
    rewrite Forall_fmap, Forall_forall in Hf1, Hf2. unfold compose in *.
    assert (p = q) as ->.
    { destruct (proj1 (elem_of_cons _ _ _) (proj1 (Heq p) ltac:(set_solver))) as [?|Hp]; [done|].
      destruct (proj1 (elem_of_cons _ _ _) (proj2 (Heq q) ltac:(set_solver))) as [?|Hq]; [done|].
      specialize (Hf1 _ Hq). specialize (Hf2 _ Hp). simpl in *. lia. }
    f_equal. apply IH; [done..|]. intros r.
    assert (forall l, Forall (fun p => fst q < fst p) l -> q ∉ l) as Hirr.
    { intros l Hl Hin. rewrite Forall_forall in Hl. specialize (Hl _ Hin). lia. }
    pose proof (Hirr l1 ltac:(by apply Forall_forall)). pose proof (Hirr l2 ltac:(by apply Forall_forall)).
    specialize (Heq r). set_solver.
Qed.

Lemma all_perm a : all a ≡ₚ dense_entries 0 (dense a) ++ map_to_list (sparse a).
Proof.
  unfold all. destruct (is_nil _); [|rewrite merge_sort_Permutation];
    by rewrite (btree_iter_perm (sparse a)).
Qed.

Lemma all_nodup a : wf a -> NoDup (map fst (all a)).
Proof.
  intros Hwf. rewrite (all_perm a). rewrite fmap_app, NoDup_app.
  split; [apply strict_nodup, dense_entries_sorted|]. split; [|apply NoDup_fst_map_to_list].
  intros k [[k1 v1] [-> H1]]%list_elem_of_fmap [[k2 v2] [Hk H2]]%list_elem_of_fmap. simpl in Hk. subst k2.
  apply dense_entries_elem in H1 as [H0 H1]. apply elem_of_map_to_list in H2. simpl in *.
  destruct (wf_disjoint a Hwf k1) as [?|?]; [by eexists|lia|].
  unfold dense_len in *. by rewrite dense_lookup_range in H1.
Qed.

Lemma all_elem a k v : wf a -> (k, v) ∈ all a <-> abs a !! k = Some v.
Proof.
  intros Hwf. rewrite (all_perm a), elem_of_app, dense_entries_elem, elem_of_map_to_list, abs_lookup.
  destruct (0 <=? k) eqn:H0; to_prop; simpl; [|destruct (sparse a !! k); naive_solver lia].
  destruct (mjoin (dense a !! Z.to_nat k)) as [w|] eqn:Hd.
  - rewrite (sparse_outside a k Hwf); [naive_solver|].
    destruct (dense a !! Z.to_nat k) eqn:Hl; [|done]. apply lookup_lt_Some in Hl. unfold dense_len. lia.
  - destruct (sparse a !! k); naive_solver.
Qed.

Lemma all_sorted a : wf a -> StronglySorted Z.lt (map fst (all a)).
Proof.
  intros Hwf. pose proof (all_nodup a Hwf) as Hnd. unfold all in *.
  destruct (is_nil _) eqn:Hn.
  - destruct (map_to_list (sparse a)) eqn:Hm; [|done]. apply map_to_list_empty_iff in Hm.
    unfold btree_iter. rewrite Hm, map_to_list_empty, app_nil_r. apply dense_entries_sorted.
  - apply sorted_keys_strict; [|done]. apply Sorted_StronglySorted; [apply _|].
    apply Sorted_merge_sort. apply _.
Qed.

Lemma btree_keys_sorted m : StronglySorted Z.lt (map fst (btree_iter m)).
Proof.
  apply sorted_keys_strict.
  - apply Sorted_StronglySorted; [apply _|]. apply Sorted_merge_sort. apply _.
  - rewrite (btree_iter_perm m). apply NoDup_fst_map_to_list.
Qed.

Lemma last_greatest (l : list Z) m :
  StronglySorted Z.lt l -> last l = Some m -> m ∈ l /\ forall k, k ∈ l -> k <= m.
Proof.
  intros Hs Hl. apply last_Some in Hl as [l' ->]. split; [set_solver|].
  intros k Hk. apply elem_of_app in Hk. destruct Hk as [Hk|Hk]; [|set_solver by lia].
  apply Z.lt_le_incl. eapply StronglySorted_app_1_elem_of; [exact Hs|done|set_solver].
Qed.

Lemma keys_dense_elem a k :
  k ∈ map fst (dense_entries 0 (dense a)) <-> 0 <= k /\ is_Some (mjoin (dense a !! Z.to_nat k)).
Proof.
  rewrite list_elem_of_fmap. split.
  - intros [[k' v] [-> H]]. apply dense_entries_elem in H as [? H]. simpl. split; [done|by eexists].
  - intros [H0 [v Hv]]. exists (k, v). by rewrite dense_entries_elem.
Qed.

Lemma keys_sparse_elem a k : k ∈ map fst (btree_iter (sparse a)) <-> is_Some (sparse a !! k).
Proof.
  rewrite (btree_iter_perm (sparse a)). rewrite list_elem_of_fmap. split.
  - intros [[k' v] [-> H]]. apply elem_of_map_to_list in H. by eexists.
  - intros [v Hv]. exists (k, v). by rewrite elem_of_map_to_list.
Qed.

Lemma abs_keys a k :
  is_Some (abs a !! k) <->
  k ∈ map fst (dense_entries 0 (dense a)) \/ k ∈ map fst (btree_iter (sparse a)).
Proof.
  rewrite abs_lookup, keys_dense_elem, keys_sparse_elem.
  destruct (0 <=? k) eqn:H0; to_prop.
  - rewrite union_is_Some. intuition lia.
  - rewrite union_is_Some. split; [intros [[? H]|?]; [done|by right]|intros [[??]|?]; [lia|by right]].
Qed.

Lemma max_index_spec a :
  match max_index a with
  | Some m => is_Some (abs a !! m) /\ forall k, is_Some (abs a !! k) -> k <= m
  | None => abs a = ∅
  end.
Proof.
  unfold max_index.
  pose proof (fun m => last_greatest _ m (dense_entries_sorted 0 (dense a))) as Hd.
  pose proof (fun m => last_greatest _ m (btree_keys_sorted (sparse a))) as Hs.
  destruct (last (map fst (dense_entries 0 (dense a)))) as [x|] eqn:Hx,
    (last (map fst (btree_iter (sparse a)))) as [y|] eqn:Hy.
  - destruct (Hd x eq_refl) as [Hxin Hxle], (Hs y eq_refl) as [Hyin Hyle]. split; [rewrite abs_keys|].
    + destruct (Z.max_spec x y) as [[_ ->]|[_ ->]]; tauto.
    + intros k [Hk|Hk]%abs_keys; [apply Hxle in Hk|apply Hyle in Hk]; lia.
  - apply last_None in Hy. destruct (Hd x eq_refl) as [Hxin Hxle]. split; [rewrite abs_keys; tauto|].
    intros k [Hk|Hk]%abs_keys; [auto|]. rewrite Hy in Hk. by apply elem_of_nil in Hk.
  - apply last_None in Hx. destruct (Hs y eq_refl) as [Hyin Hyle]. split; [rewrite abs_keys; tauto|].
    intros k [Hk|Hk]%abs_keys; [|auto]. rewrite Hx in Hk. by apply elem_of_nil in Hk.
  - apply last_None in Hx, Hy. apply map_empty. intros k.
    destruct (abs a !! k) eqn:Hk; [|done].
    assert (is_Some (abs a !! k)) as HS by by eexists.
    apply abs_keys in HS. rewrite Hx, Hy in HS. destruct HS as [H|H]; by apply elem_of_nil in H.
Qed.

Lemma keys_all a : keys a = map fst (all a).
Proof.
  unfold keys, all. destruct (is_nil _) eqn:Hn; [|done].
  unfold btree_iter. destruct (map_to_list (sparse a)) eqn:Hm; [|done]. by rewrite app_nil_r.
Qed.

Lemma all_length a : wf a -> length (all a) = alen a.
Proof.
  intros Hwf. rewrite (all_perm a), length_app, length_map_to_list, present_length.
  symmetry. apply (wf_len a Hwf).
Qed.

(** * Sequences of assignments in ascending order *)

(** Above the dense part, only subscripts too far away to be stored densely. *)
Definition far (a : IndexedArray) : Prop :=
  forall k, is_Some (sparse a !! k) -> k < 0 \/ dense_len a + MAX_DENSE_GAP < k \/ MAX_DENSE_LEN <= k.

Definition below (a : IndexedArray) (i : Z) : Prop :=
  forall k, is_Some (abs a !! k) -> k < i.

Lemma abs_sparse a k : is_Some (sparse a !! k) -> is_Some (abs a !! k).
Proof. intros H. rewrite abs_keys, !keys_sparse_elem. by right. Qed.

Lemma far_sparse_negative a i k :
  wf a -> far a -> below a i -> should_store_dense a i = true -> is_Some (sparse a !! k) -> k < 0.
Proof.
  intros Hwf Hf Hb Hst Hk. pose proof (wf_disjoint a Hwf k Hk). pose proof (Hb k (abs_sparse a k Hk)).
  unfold should_store_dense in Hst. destruct (i <? 0) eqn:?; [done|].
  destruct (i <? dense_len a) eqn:?; to_prop; destruct (Hf k Hk) as [?|[?|?]];
    unfold MAX_DENSE_GAP, MAX_DENSE_LEN, dense_len in *; lia.
Qed.

Lemma far_no_shadow a i : wf a -> far a -> below a i -> no_shadow a i.
Proof.
  intros Hwf Hf Hb Hst k Hk _. destruct (sparse a !! k) eqn:Hs; [|done].
  pose proof (far_sparse_negative a i k Hwf Hf Hb Hst ltac:(by eexists)). unfold dense_len in *. lia.
Qed.

Lemma should_store_dense_false a i :
  should_store_dense a i = false ->
  i < 0 \/ dense_len a <= i /\ (MAX_DENSE_LEN <= i \/ dense_len a + MAX_DENSE_GAP < i).
Proof.
  unfold should_store_dense. destruct (i <? 0) eqn:?, (i <? dense_len a) eqn:?; to_prop; try done; auto.
  intros [?|?]%andb_false_iff; to_prop; lia.
Qed.

Lemma far_insert a i v : wf a -> far a -> below a i -> far (insert a i v).
Proof.
  intros Hwf Hf Hb. unfold insert.
  destruct ((0 <=? i) && (i =? dense_len a) && (i <? MAX_DENSE_LEN)) eqn:Hpush; to_prop.
  { intros k Hk. left. eapply far_sparse_negative; [done..| |exact Hk].
    unfold should_store_dense, MAX_DENSE_GAP. split_ifs; to_prop; lia. }
  destruct (should_store_dense a i) eqn:Hst.
  { intros k [x Hx]. simpl in Hx. apply lookup_delete_Some in Hx as [_ Hx]. left.
    by eapply far_sparse_negative. }
  set (p := if (0 <=? i) && (i <? dense_len a) then _ else _).
  assert (length (fst p) = length (dense a)) as Hlen.
  { subst p. split_ifs; [|done]. destruct (dense a !! Z.to_nat i) as [[|]|]; simpl; by rewrite ?length_insert. }
  destruct p as [dn len]. simpl in Hlen. intros k [x Hx]. simpl in Hx.
  pose proof (trim_tail_length dn). apply should_store_dense_false in Hst.
  apply lookup_insert_Some in Hx as [[<- _]|[_ Hx]]; [|specialize (Hf k ltac:(by eexists))];
    unfold dense_len in *; simpl; lia.
Qed.

Lemma from_pairs_ascending_from l a :
  StronglySorted Z.lt (map fst l) -> wf a -> far a -> Forall (fun p => below a (fst p)) l ->
  let a' := fold_left (fun a '(idx, value) => insert a idx value) l a in
  wf a' /\ abs a' = list_to_map l ∪ abs a.
Proof.
  revert a. induction l as [|[i v] l IH]; intros a Hs Hwf Hf Hb; simpl.
  { split; [done|]. by rewrite (left_id_L ∅ _). }
  inversion Hs as [|? ? Hs' Hlt]; subst. inversion Hb as [|? ? Hbi Hbl]; subst. simpl in *.
  destruct (insert_spec a i v Hwf (far_no_shadow a i Hwf Hf Hbi)) as [Hwf' Habs'].
  destruct (IH (insert a i v)) as [Hwf'' Habs''].
  - done.
  - done.
  - by apply far_insert.
  - rewrite Forall_fmap in Hlt. rewrite Forall_forall in Hlt, Hbl |- *. intros p Hp k.
    rewrite Habs', lookup_insert_is_Some. intros [<-|[_ Hk]]; [by apply Hlt|by apply (Hbl p)].
  - split; [done|]. rewrite Habs'', Habs', <- insert_union_r, insert_union_l; [done|].
    apply not_elem_of_list_to_map_1. intros Hin. rewrite Forall_forall in Hlt.
    specialize (Hlt i Hin). lia.
Qed.

(** * Theorems *)

(** C21: storing an element refines the map update: as long as the insertion
    does not grow the dense vector over a sparse subscript, the invariant is
    kept, the new map is the old one with the subscript bound to the value,
    and a lookup at any subscript sees exactly that map. *)
Theorem insert_refines (a : IndexedArray) (index : Z) (value : bytes)
    (Hwf : wf a) (Hns : no_shadow a index) :
  wf (insert a index value) /\
  abs (insert a index value) = <[index := value]> (abs a) /\
  forall k, get (insert a index value) k = if decide (index = k) then Some value else get a k.
Proof.
  destruct (insert_spec a index value Hwf Hns) as [Hwf' Habs'].
  split; [done|split; [done|]]. intros k. rewrite !get_spec, Habs' by done. apply lookup_insert.
Qed.

Definition sample_array : IndexedArray := insert (insert empty_array 3 (bs "c")) 5000 (bs "far").

Lemma sample_array_wf : wf sample_array.
Proof.
  apply (from_pairs_ascending_from [(3, bs "c"); (5000, bs "far")] empty_array).
  - repeat constructor.
  - apply wf_empty.
  - intros k Hk. by destruct Hk.
  - repeat constructor; intros k Hk; by destruct Hk.
Qed.

Lemma insert_refines_witness :
  get (insert sample_array 4 (bs "d")) 4 = Some (bs "d") /\
  get (insert sample_array 4 (bs "d")) 5000 = Some (bs "far").
Proof.
  assert (no_shadow sample_array 4) as Hns.
  { intros _ k Hk _. change (dense_len sample_array) with 4 in Hk.
    assert (k = 4) as -> by lia. reflexivity. }
  destruct (insert_refines sample_array 4 (bs "d") sample_array_wf Hns) as (_ & _ & H).
  split; [apply (H 4)|apply (H 5000)].
Defined.

(** C33: removing an element refines the map deletion: the element returned is
    the one the map holds, the invariant is kept, and no other subscript
    changes. *)
Theorem remove_refines (a : IndexedArray) (index : Z) (Hwf : wf a) :
  let '(old, a') := remove a index in
  old = get a index /\ wf a' /\ abs a' = delete index (abs a) /\
  forall k, get a' k = if decide (index = k) then None else get a k.
Proof.
  destruct (remove_spec a index Hwf) as (Hold & Hwf' & Habs').
  destruct (remove a index) as [old a']. simpl in *.
  rewrite get_spec by done. split; [done|split; [done|split; [done|]]].
  intros k. rewrite !get_spec, Habs' by done. apply lookup_delete.
Qed.

Lemma remove_refines_witness :
  fst (remove sample_array 5000) = Some (bs "far") /\ get (snd (remove sample_array 5000)) 5000 = None.
Proof.
  pose proof (remove_refines sample_array 5000 sample_array_wf) as H.
  destruct (remove sample_array 5000) as [old a'].
  destruct H as (Hold & _ & _ & H). simpl. split; [rewrite Hold; reflexivity|apply (H 5000)].
Defined.

(** C32: enumeration is complete and ordered: the pairs listed by [all] are
    exactly the bindings of the map, in strictly ascending order of the
    subscripts, [keys] lists the same subscripts, [len] is their number and
    [max_index] the greatest of them. *)
Theorem enumeration_correct (a : IndexedArray) (Hwf : wf a) :
  StronglySorted Z.lt (keys a) /\
  (forall k v, (k, v) ∈ all a <-> get a k = Some v) /\
  keys a = map fst (all a) /\ values a = map snd (all a) /\
  alen a = size (abs a) /\ alen a = length (all a) /\
  match max_index a with
  | Some m => m ∈ keys a /\ forall k, k ∈ keys a -> k <= m
  | None => all a = []
  end.
Proof.
  assert (Hkeys : forall k, k ∈ keys a <-> is_Some (abs a !! k)).
  { intros k. rewrite keys_all, list_elem_of_fmap. split.
    - intros [[k' v] [-> H]]. apply all_elem in H; [by eexists|done].
    - intros [v Hv]. exists (k, v). by rewrite all_elem. }
  assert (Hall : all a ≡ₚ map_to_list (abs a)).
  { apply NoDup_Permutation; [by apply NoDup_fmap_1 with fst, all_nodup|apply NoDup_map_to_list|].
    intros [k v]. by rewrite all_elem, elem_of_map_to_list. }
  split; [rewrite keys_all; by apply all_sorted|].
  split; [intros k v; rewrite get_spec by done; by apply all_elem|].
  split; [apply keys_all|]. split; [done|].
  split; [by rewrite <- all_length, Hall, length_map_to_list|].
  split; [by rewrite all_length|].
  pose proof (max_index_spec a) as Hm. destruct (max_index a) as [m|].
  - setoid_rewrite Hkeys. done.
  - rewrite Hm, map_to_list_empty in Hall. by apply Permutation_nil_r.
Qed.

Lemma enumeration_correct_witness :
  keys sample_array = [3; 5000] /\ alen sample_array = length (all sample_array).
Proof.
  destruct (enumeration_correct sample_array sample_array_wf) as (_ & _ & _ & _ & _ & H & _).
  split; [vm_compute; reflexivity|exact H].
Defined.

(** assignments in ascending order of the subscripts (an array literal,
    repeated appends) build exactly the map they list, whatever mixture of
    near and far subscripts they use. *)
Theorem from_pairs_ascending (l : list (Z * bytes)) (Hs : StronglySorted Z.lt (map fst l)) :
  wf (from_pairs l) /\ all (from_pairs l) = l.
Proof.
  destruct (from_pairs_ascending_from l empty_array Hs) as [Hwf Habs].
  - apply wf_empty.
  - intros k Hk. by destruct Hk.
  - apply Forall_forall. intros p _ k Hk. by destruct Hk.
  - change (fold_left _ l empty_array) with (from_pairs l) in Hwf, Habs.
    split; [done|]. change (abs empty_array) with (∅ : gmap Z bytes) in Habs.
    rewrite (right_id_L ∅ _) in Habs.
    apply (sorted_pairs_unique (all (from_pairs l)) l); [by apply all_sorted|done|].
    intros [k v]. rewrite all_elem, Habs by done.
    by rewrite <- elem_of_list_to_map by by apply strict_nodup.
Qed.

Lemma from_pairs_ascending_witness :
  all (from_pairs [(-1, bs "m"); (0, bs "a"); (70000, bs "z")])
  = [(-1, bs "m"); (0, bs "a"); (70000, bs "z")].
Proof. apply from_pairs_ascending. repeat constructor. Defined.

(** without the side condition elements are lost: after [a[2000]=x
    a[1000]=y a[2001]=z] the vector has grown over the sparse subscript 2000,
    which then reads as unset although it is still counted and listed. *)
Theorem grown_over_sparse_hides_element (x y z : bytes) :
  let a := insert (insert (insert empty_array 2000 x) 1000 y) 2001 z in
  get a 2000 = None /\ alen a = 3%nat /\ (2000, x) ∈ all a /\ keys a = [1000; 2000; 2001].
Proof.
  cbv zeta. split; [vm_compute; reflexivity|]. split; [vm_compute; reflexivity|].
  split; [|vm_compute; reflexivity].
  rewrite (all_perm _). apply elem_of_app. right. apply elem_of_map_to_list. vm_compute. reflexivity.
Qed.
