(* ===== verification/Jobs.v ===== *)
(** The job table (crates/common/src/jobs.rs): jobs and their processes, the
    current and previous job, job specifications, reaping and notification.
    The decoding of raw [waitpid] statuses belongs to libc and is a class. *)
From stdpp Require Import base list gmap.
From S2P Require Import Prelude.

(** The macros of <sys/wait.h>. *)
Class WaitStatus := {
  WIFEXITED : Z -> bool;
  WEXITSTATUS : Z -> Z;
  WIFSIGNALED : Z -> bool;
  WTERMSIG : Z -> Z;
  WIFSTOPPED : Z -> bool;
  WSTOPSIG : Z -> Z;
  WIFCONTINUED : Z -> bool;
}.

(** Their documented ranges: an exit status is a byte, a terminating signal is
    a positive number below 128. *)
Class WaitStatusRanges `{WaitStatus} := {
  exit_status_byte : forall s, WIFEXITED s = true -> 0 <= WEXITSTATUS s <= 255;
  term_signal_range : forall s, WIFSIGNALED s = true -> 1 <= WTERMSIG s <= 127;
}.

(** * Data *)

Inductive JobState := Running | Stopped | Done.

#[export] Instance JobState_eq_dec : EqDecision JobState.
Proof. solve_decision. Defined.

Definition state_eqb (a b : JobState) : bool := bool_decide (a = b).

Definition FOREGROUND : Z := Z.shiftl 1 0.
Definition ASYNC : Z := Z.shiftl 1 1.
Definition WAITED_FOR : Z := Z.shiftl 1 3.
Definition NOHUP : Z := Z.shiftl 1 4.
Definition JOBCONTROL : Z := Z.shiftl 1 6.

Record Process := mkProcess {
  pid : Z;
  status_raw : Z;
  pstate : JobState;
  command : bytes;
}.

Record Job := mkJob {
  id : Z;
  pgid : Z;
  leader_pid : Z;
  state : JobState;
  flags : Z;
  processes : list Process;
  command_line : bytes;
  notified : bool;
  exit_status : option Z;
}.

Inductive JobSpec :=
| Current
| Previous
| Id (n : Z)
| PrefixString (s : bytes)
| SubstringString (s : bytes)
| Pid (pid : Z).

Inductive JobLookupErr := NoSuchJob | Ambiguous.

Record JobTable := mkTable {
  jobs : list Job;
  current : option Z;
  previous : option Z;
  pid_to_job : gmap Z Z;
  waited_pids : gset Z;
  completion_order : gmap Z Z;
  next_completion_order : Z;
}.

Definition JobTable_new : JobTable := mkTable [] None None ∅ ∅ ∅ 0.

(** Field updates. *)
Definition with_jobs (t : JobTable) (js : list Job) : JobTable :=
  mkTable js (current t) (previous t) (pid_to_job t) (waited_pids t) (completion_order t) (next_completion_order t).
Definition with_markers (t : JobTable) (c p : option Z) : JobTable :=
  mkTable (jobs t) c p (pid_to_job t) (waited_pids t) (completion_order t) (next_completion_order t).
Definition with_waited (t : JobTable) (w : gset Z) : JobTable :=
  mkTable (jobs t) (current t) (previous t) (pid_to_job t) w (completion_order t) (next_completion_order t).
Definition with_pstate (p : Process) (s : JobState) : Process := mkProcess (pid p) (status_raw p) s (command p).
Definition with_state (j : Job) (s : JobState) : Job :=
  mkJob (id j) (pgid j) (leader_pid j) s (flags j) (processes j) (command_line j) (notified j) (exit_status j).
Definition with_flags (j : Job) (f : Z) : Job :=
  mkJob (id j) (pgid j) (leader_pid j) (state j) f (processes j) (command_line j) (notified j) (exit_status j).
Definition with_processes (j : Job) (ps : list Process) : Job :=
  mkJob (id j) (pgid j) (leader_pid j) (state j) (flags j) ps (command_line j) (notified j) (exit_status j).
Definition with_notified (j : Job) (b : bool) : Job :=
  mkJob (id j) (pgid j) (leader_pid j) (state j) (flags j) (processes j) (command_line j) b (exit_status j).
Definition with_exit_status (j : Job) (x : option Z) : Job :=
  mkJob (id j) (pgid j) (leader_pid j) (state j) (flags j) (processes j) (command_line j) (notified j) x.

(** * Job specifications *)

Definition check_range (lo hi : Z) (z : option Z) : option Z :=
  match z with
  | Some z => if in_range lo hi z then Some z else None
  | None => None
  end.

(** [str::parse::<u32>] and [str::parse::<i32>]. *)
Definition parse_u32 (s : bytes) : option Z :=
  match s with
  | "+"%b :: ((_ :: _) as d) => check_range 0 4294967295 (dec_value 0 d)
  | _ :: _ => check_range 0 4294967295 (dec_value 0 s)
  | [] => None
  end.

Definition parse_i32 (s : bytes) : option Z :=
  match s with
  | "-"%b :: ((_ :: _) as d) => check_range (-2147483648) 2147483647 (Z.opp <$> dec_value 0 d)
  | "+"%b :: ((_ :: _) as d) => check_range (-2147483648) 2147483647 (dec_value 0 d)
  | _ :: _ => check_range (-2147483648) 2147483647 (dec_value 0 s)
  | [] => None
  end.

Definition JobSpec_parse (token : bytes) : option JobSpec :=
  match strip_prefix (bs "%") token with
  | Some rest =>
      if is_nil rest || bytes_eqb rest (bs "%") || bytes_eqb rest (bs "+") then Some Current
      else if bytes_eqb rest (bs "-") then Some Previous
      else match strip_prefix (bs "?") rest with
      | Some sub => Some (SubstringString sub)
      | None =>
          match parse_u32 rest with
          | Some n => Some (Id n)
          | None => Some (PrefixString rest)
          end
      end
  | None =>
      match parse_i32 token with
      | Some pid => Some (Pid pid)
      | None => None
      end
  end.

(** * Looking up and changing jobs *)

Fixpoint find_job (p : Job -> bool) (js : list Job) : option Job :=
  match js with
  | [] => None
  | j :: js => if p j then Some j else find_job p js
  end.

Definition get (t : JobTable) (jid : Z) : option Job := find_job (fun j => id j =? jid) (jobs t).

(** [if let Some(job) = iter_mut().find(p) { f(job) }] *)
Fixpoint update_first (p : Job -> bool) (f : Job -> Job) (js : list Job) : list Job :=
  match js with
  | [] => []
  | j :: js => if p j then f j :: js else j :: update_first p f js
  end.

Definition update (t : JobTable) (jid : Z) (f : Job -> Job) : JobTable :=
  with_jobs t (update_first (fun j => id j =? jid) f (jobs t)).

(** Whether some job has the number [n]. *)
Definition used (js : list Job) (n : Z) : bool := existsb (fun j => id j =? n) js.

(** The loop of [allocate_id]; one round more than there are jobs is enough. *)
Fixpoint allocate_from (fuel : nat) (js : list Job) (n : Z) : Z :=
  match fuel with
  | O => n
  | S fuel => if used js n then allocate_from fuel js (n + 1) else n
  end.

Definition allocate_id (t : JobTable) : Z := allocate_from (S (length (jobs t))) (jobs t) 1.

(** [sort_by_key] on (stopped, index), a stable sort. *)
Definition key_leb (a b : nat * Z * bool) : bool :=
  let '(i, _, s) := a in
  let '(j, _, u) := b in
  if eqb s u then (i <=? j)%nat else u.

Fixpoint insert_by_key (x : nat * Z * bool) (l : list (nat * Z * bool)) : list (nat * Z * bool) :=
  match l with
  | [] => [x]
  | y :: l => if key_leb x y then x :: y :: l else y :: insert_by_key x l
  end.

Definition sort_by_key (l : list (nat * Z * bool)) : list (nat * Z * bool) := foldr insert_by_key [] l.

(** [iter().enumerate()], from position [k] on. *)
Fixpoint enumerate (k : nat) (js : list Job) : list (nat * Job) :=
  match js with
  | [] => []
  | j :: js => (k, j) :: enumerate (S k) js
  end.

(** The last two of a list: [pop] or [next_back] twice. *)
Definition last_two {A} (l : list A) : option A * option A :=
  match rev l with
  | x :: y :: _ => (Some x, Some y)
  | [x] => (Some x, None)
  | [] => (None, None)
  end.

Definition reset_current_previous (t : JobTable) : JobTable :=
  let candidates := (fun '(k, j) => (k, id j, state_eqb (state j) Stopped))
    <$> filter (fun '(k, j) => state j <> Done) (enumerate 0 (jobs t)) in
  if is_nil candidates then
    let completed := (fun '(k, j) => id j) <$> filter (fun '(k, j) => notified j = false) (enumerate 0 (jobs t)) in
    let '(c, p) := last_two completed in
    with_markers t c p
  else
    let '(c, p) := last_two (sort_by_key candidates) in
    with_markers t ((fun '(_, n, _) => n) <$> c) ((fun '(_, n, _) => n) <$> p).

Definition pids (j : Job) : list Z := pid <$> processes j.

Definition add (t : JobTable) (pgid leader_pid : Z) (command_line : bytes) (async_flag job_control : bool)
    (procs : list Process) : JobTable * Z :=
  let n := allocate_id t in
  let flags := if async_flag then ASYNC else FOREGROUND in
  let flags := if job_control then Z.lor flags JOBCONTROL else flags in
  let waited := foldl (fun w p => w ∖ {[pid p]}) (waited_pids t) procs in
  let map := foldl (fun m p => <[pid p := n]> m) (pid_to_job t) procs in
  let job := mkJob n pgid leader_pid Running flags procs command_line false None in
  (mkTable (jobs t ++ [job]) (Some n) (current t) map waited (completion_order t) (next_completion_order t), n).

(** What leaves the table with a job: its pids and its completion rank. *)
Definition forget (t : JobTable) (j : Job) : JobTable :=
  mkTable (jobs t) (current t) (previous t)
    (foldl (fun m p => delete (pid p) m) (pid_to_job t) (processes j))
    (foldl (fun w p => w ∖ {[pid p]}) (waited_pids t) (processes j))
    (delete (id j) (completion_order t)) (next_completion_order t).

Fixpoint remove_first (p : Job -> bool) (js : list Job) : list Job :=
  match js with
  | [] => []
  | j :: js => if p j then js else j :: remove_first p js
  end.

Definition remove (t : JobTable) (jid : Z) : JobTable :=
  reset_current_previous
    (match get t jid with
     | Some job => forget (with_jobs t (remove_first (fun j => id j =? jid) (jobs t))) job
     | None => t
     end).

Definition job_of_pid (t : JobTable) (p : Z) : option Z := pid_to_job t !! p.

Definition mark_pid_waited (t : JobTable) (p : Z) : JobTable :=
  let t := with_waited t (waited_pids t ∪ {[p]}) in
  match job_of_pid t p with
  | None => t
  | Some jid =>
      let all_waited := match get t jid with
                        | Some job => forallb (fun p => bool_decide (pid p ∈ waited_pids t)) (processes job)
                        | None => false
                        end in
      if all_waited then update t jid (fun j => with_flags j (Z.lor (flags j) WAITED_FOR)) else t
  end.

(** [contains] on strings. *)
Definition contains (s sub : bytes) : bool := match find_sub sub s with Some _ => true | None => false end.

Definition one_hit (hits : list Z) : Res JobLookupErr Z :=
  match hits with
  | [] => Err NoSuchJob
  | [n] => Ok n
  | _ => Err Ambiguous
  end.

Definition ok_or (o : option Z) : Res JobLookupErr Z :=
  match o with Some n => Ok n | None => Err NoSuchJob end.

Definition lookup (t : JobTable) (spec : JobSpec) : Res JobLookupErr Z :=
  match spec with
  | Current => ok_or (current t)
  | Previous => ok_or (previous t)
  | Id n => match get t n with Some _ => Ok n | None => Err NoSuchJob end
  | PrefixString s => one_hit (id <$> filter (fun j => starts_with s (command_line j) = true) (jobs t))
  | SubstringString s => one_hit (id <$> filter (fun j => contains (command_line j) s = true) (jobs t))
  | Pid p => ok_or (pid_to_job t !! p)
  end.

(** * State changes of processes *)

Section Marks.
Context `{WaitStatus}.

Definition decode_status (raw : Z) : Z :=
  if WIFEXITED raw then WEXITSTATUS raw
  else if WIFSIGNALED raw then 128 + WTERMSIG raw
  else if WIFSTOPPED raw then 128 + WSTOPSIG raw
  else 1.

Definition all_done (ps : list Process) : bool := forallb (fun p => state_eqb (pstate p) Done) ps.

Definition last_status (ps : list Process) : Z := match last ps with Some p => status_raw p | None => 0 end.

(** What [mark_dead] does to the job of the process, and whether it completes. *)
Definition bury (p status : Z) (job : Job) : Job * bool :=
  let job := with_processes job
    ((fun q => if pid q =? p then mkProcess (pid q) status Done (command q) else q) <$> processes job) in
  if negb (state_eqb (state job) Done) && all_done (processes job) then
    (with_exit_status (with_state job Done) (Some (decode_status (last_status (processes job)))), true)
  else (job, false).

Definition mark_dead (t : JobTable) (p status : Z) : JobTable :=
  match pid_to_job t !! p with
  | None => t
  | Some jid =>
      let completed := match get t jid with Some job => snd (bury p status job) | None => false end in
      let t := update t jid (fun job => fst (bury p status job)) in
      let t := if completed then
                 mkTable (jobs t) (current t) (previous t) (pid_to_job t) (waited_pids t)
                   (<[jid := next_completion_order t]> (completion_order t)) (u64 (next_completion_order t + 1))
               else t in
      if completed && (bool_decide (current t = Some jid) || bool_decide (previous t = Some jid))
      then reset_current_previous t else t
  end.

(** The conversion to [i32] after a shift. *)
Definition wrap32 (z : Z) : Z := (z + 2 ^ 31) mod 2 ^ 32 - 2 ^ 31.

Definition suspend (p stop_sig : Z) (job : Job) : Job :=
  with_state (with_processes job
    ((fun q => if pid q =? p then mkProcess (pid q) (Z.lor (wrap32 (Z.shiftl stop_sig 8)) 127) Stopped (command q) else q)
       <$> processes job)) Stopped.

Definition mark_stopped (t : JobTable) (p stop_sig : Z) : JobTable :=
  match pid_to_job t !! p with
  | None => t
  | Some jid =>
      let t := update t jid (suspend p stop_sig) in
      if bool_decide (current t = Some jid) then t else with_markers t (Some jid) (current t)
  end.

(** Stopped processes run again. *)
Definition wake (p : Process) : Process := if state_eqb (pstate p) Stopped then with_pstate p Running else p.

Definition continue_job (job : Job) : Job :=
  let job := with_processes job (wake <$> processes job) in
  if existsb (fun p => state_eqb (pstate p) Running) (processes job)
  then with_notified (with_state job Running) false else job.

Definition mark_job_running (t : JobTable) (jid : Z) : JobTable := update t jid continue_job.

Definition mark_running (t : JobTable) (p : Z) : JobTable :=
  match pid_to_job t !! p with
  | None => t
  | Some jid => mark_job_running t jid
  end.

Definition purgeable (j : Job) : bool := state_eqb (state j) Done && notified j.

Definition purge_done (t : JobTable) : JobTable * list Z :=
  let gone := filter (fun j => purgeable j = true) (jobs t) in
  let t := foldl forget (with_jobs t (filter (fun j => purgeable j = false) (jobs t))) gone in
  (if is_nil gone then t else reset_current_previous t, id <$> gone).

(** The events of [waitpid], in order; a pid that is not positive ends them. *)
Fixpoint reap_all (t : JobTable) (events : list (Z * Z)) : JobTable * list (Z * Z) :=
  match events with
  | [] => (t, [])
  | (p, status) :: events =>
      if p <=? 0 then (t, [])
      else
        let t := if WIFEXITED status || WIFSIGNALED status then mark_dead t p status
                 else if WIFSTOPPED status then mark_stopped t p (WSTOPSIG status)
                 else if WIFCONTINUED status then mark_running t p
                 else t in
        let '(t, reaped) := reap_all t events in
        (t, (p, status) :: reaped)
  end.

(** Whether a job has news. *)
Definition pending (j : Job) : bool := negb (notified j) && negb (state_eqb (state j) Running).

Definition pending_notifications (t : JobTable) : JobTable * list Job :=
  (with_jobs t ((fun j => if pending j then with_notified j true else j) <$> jobs t),
   filter (fun j => pending j = true) (jobs t)).

Definition any_running (t : JobTable) : bool := existsb (fun j => state_eqb (state j) Running) (jobs t).

(** ** The changes made by the builtins [bg], [fg] and [disown -h] *)

Definition resume (job : Job) : Job := with_processes (with_state job Running) (wake <$> processes job).

Definition bg_resume (t : JobTable) (g : Z) : JobTable :=
  with_jobs t (update_first (fun j => pgid j =? g) resume (jobs t)).

(** One job specification of [bg]: the table and whether it failed; [None]
    for the panic of [table.get(jid).unwrap()]. *)
Definition bg_one (t : JobTable) (spec : JobSpec) : option (JobTable * bool) :=
  match lookup t spec with
  | Ok jid =>
      match get t jid with
      | Some job => Some (if state_eqb (state job) Running then (t, true) else (bg_resume t (pgid job), false))
      | None => None
      end
  | _ => Some (t, true)
  end.

Definition fg_resume (t : JobTable) (g : Z) : JobTable :=
  with_jobs t ((fun j => if pgid j =? g then resume j else j) <$> jobs t).

Definition disown_nohup (t : JobTable) (jid : Z) : JobTable :=
  update t jid (fun j => with_flags j (Z.lor (flags j) NOHUP)).
End Marks.

(** * The Linux encoding of wait statuses *)

#[export] Instance linux_wait : WaitStatus := {
  WIFEXITED s := Z.land s 127 =? 0;
  WEXITSTATUS s := Z.land (Z.shiftr s 8) 255;
  WIFSIGNALED s := negb (Z.land s 127 =? 0) && negb (Z.land s 127 =? 127);
  WTERMSIG s := Z.land s 127;
  WIFSTOPPED s := Z.land s 255 =? 127;
  WSTOPSIG s := Z.land (Z.shiftr s 8) 255;
  WIFCONTINUED s := s =? 65535;
}.

Lemma land_ones_range s n : 0 <= n -> 0 <= Z.land s (Z.ones n) < 2 ^ n.
Proof. intros Hn. rewrite Z.land_ones by done. apply Z.mod_pos_bound. lia. Qed.

#[export] Instance linux_wait_ranges : WaitStatusRanges.
Proof.
  split; intros s; cbn.
  - intros _. pose proof (land_ones_range (Z.shiftr s 8) 8 ltac:(lia)). change (Z.ones 8) with 255 in *. lia.
  - intros [H0%negb_true_iff%Z.eqb_neq H127%negb_true_iff%Z.eqb_neq]%andb_true_iff.
    pose proof (land_ones_range s 7 ltac:(lia)). change (Z.ones 7) with 127 in *. lia.
Qed.

(** * The unit tests of jobs.rs *)

Definition test_process (p : Z) : Process := mkProcess p 0 Running (bs "job").
Definition add_job (t : JobTable) (p : Z) : JobTable := fst (add t p p (bs "job") true true [test_process p]).
Definition markers (t : JobTable) : option Z * option Z := (current t, previous t).

Example reuses_the_lowest_free_job_id :
  let t := add_job (add_job (add_job JobTable_new 101) 102) 103 in
  snd (add (remove t 2) 104 104 (bs "job") true true [test_process 104]) = 2.
Proof. reflexivity. Qed.

Example stopped_jobs_take_current_and_previous_markers :
  let t := add_job (add_job JobTable_new 201) 202 in
  markers t = (Some 2, Some 1) /\ markers (mark_stopped t 201 20) = (Some 1, Some 2) /\
  markers (mark_dead (mark_stopped t 201 20) 201 0) = (Some 2, None).
Proof. by repeat split. Qed.

Example lone_completed_job_keeps_the_current_marker :
  markers (mark_dead (add_job JobTable_new 211) 211 0) = (Some 1, None).
Proof. reflexivity. Qed.

Example continuing_a_stopped_job_preserves_current_markers :
  markers (mark_running (mark_stopped (add_job (add_job JobTable_new 221) 222) 221 20) 221) = (Some 1, Some 2).
Proof. reflexivity. Qed.

Example removing_current_recomputes_both_markers :
  markers (remove (add_job (add_job (add_job JobTable_new 301) 302) 303) 3) = (Some 2, Some 1).
Proof. reflexivity. Qed.
