(* ===== verification/JobsProps.v ===== *)
(** Correctness of the job table: the choice of the current and previous job,
    the invariant of every table the shell can reach, completion of jobs, job
    specifications, and notification. *)
From stdpp Require Import base list gmap.
From S2P Require Import Prelude Jobs.

(** * Lists of jobs *)

Lemma fmap_same {A} (f : A -> A) (l : list A) : (forall x, x ∈ l -> f x = x) -> f <$> l = l.
Proof.
  induction l as [|x l IH]; intros Hf; [done|]. rewrite fmap_cons, Hf by by left. f_equal. apply IH.
  intros y Hy. apply Hf. by right.
Qed.

Lemma filter_all {A} (P : A -> Prop) `{forall x, Decision (P x)} (l : list A) :
  (forall x, x ∈ l -> P x) -> filter P l = l.
Proof.
  induction l as [|x l IH]; intros Hf; [done|]. rewrite filter_cons, decide_True by (apply Hf; by left).
  f_equal. apply IH. intros y Hy. apply Hf. by right.
Qed.

Lemma find_job_Some p js j : find_job p js = Some j -> j ∈ js /\ p j = true.
Proof.
  induction js as [|k js IH]; simpl; [done|]. destruct (p k) eqn:Hk.
  - intros [= ->]. split; [by left|done].
  - intros Hj. destruct (IH Hj). split; [by right|done].
Qed.

Lemma find_job_None p js : find_job p js = None -> forall j, j ∈ js -> p j = false.
Proof.
  induction js as [|k js IH]; simpl; [by intros _ j Hj%elem_of_nil|]. destruct (p k) eqn:Hk; [done|].
  intros Hn j [->|Hj]%elem_of_cons; [done|by apply IH].
Qed.

(** Distinct numbers: a job is determined by its number. *)
Lemma same_job js j k : NoDup (id <$> js) -> j ∈ js -> k ∈ js -> id j = id k -> j = k.
Proof.
  intros Hnd Hj Hk Heq. apply list_elem_of_lookup in Hj as (a & Ha). apply list_elem_of_lookup in Hk as (b & Hb).
  assert (a = b) as ->; [|congruence].
  apply (NoDup_lookup _ _ _ (id j) Hnd); rewrite list_lookup_fmap; [by rewrite Ha|by rewrite Hb, Heq].
Qed.

Lemma get_elem t j : NoDup (id <$> jobs t) -> j ∈ jobs t -> get t (id j) = Some j.
Proof.
  intros Hnd Hj. unfold get. destruct (find_job _ _) as [k|] eqn:Hf.
  - apply find_job_Some in Hf as (Hk & Heq%Z.eqb_eq). f_equal. by apply (same_job (jobs t)).
  - pose proof (find_job_None _ _ Hf j Hj) as Hn. simpl in Hn. by rewrite Z.eqb_refl in Hn.
Qed.

Lemma get_Some t n j : get t n = Some j -> j ∈ jobs t /\ id j = n.
Proof. intros Hf. apply find_job_Some in Hf as (? & ?%Z.eqb_eq). done. Qed.

(** With distinct numbers, changing the first job of a number is changing
    every job of that number, and likewise for removal. *)
Lemma update_first_map n f js :
  NoDup (id <$> js) ->
  update_first (fun j => id j =? n) f js = (fun j => if id j =? n then f j else j) <$> js.
Proof.
  induction js as [|j js IH]; intros Hnd; [done|]. simpl. apply NoDup_cons in Hnd as [Hni Hnd].
  destruct (id j =? n) eqn:Hj; [|by rewrite IH]. f_equal. apply Z.eqb_eq in Hj. subst n.
  symmetry. apply fmap_same. intros k Hk. rewrite (proj2 (Z.eqb_neq _ _)); [done|].
  intros Heq. apply Hni. rewrite <- Heq. by apply list_elem_of_fmap_2.
Qed.

Lemma remove_first_filter n js :
  NoDup (id <$> js) -> remove_first (fun j => id j =? n) js = filter (fun j => id j <> n) js.
Proof.
  induction js as [|j js IH]; intros Hnd; [done|]. cbn [remove_first]. apply NoDup_cons in Hnd as [Hni Hnd].
  rewrite filter_cons. destruct (Z.eqb_spec (id j) n) as [Hj|Hj].
  - subst n. rewrite decide_False by auto. symmetry. apply filter_all. intros k Hk Heq.
    apply Hni. rewrite <- Heq. by apply list_elem_of_fmap_2.
  - rewrite decide_True by done. by rewrite IH.
Qed.

(** * The choice of the current and previous job *)

Definition live (j : Job) : Prop := state j <> Done.

(** The jobs that can be current, the best one last: running jobs before
    stopped ones, each in order of arrival; when none is live, the completed
    jobs whose end was not reported. *)
Definition by_priority (js : list Job) : list Job :=
  match filter live js with
  | [] => filter (fun j => notified j = false) js
  | _ => filter (fun j => state j = Running) js ++ filter (fun j => state j = Stopped) js
  end.

Definition candidate (x : nat * Job) : nat * Z * bool := let '(k, j) := x in (k, id j, state_eqb (state j) Stopped).

Lemma insert_skip x f s :
  (forall y, y ∈ f -> key_leb x y = false) -> insert_by_key x (f ++ s) = f ++ insert_by_key x s.
Proof.
  induction f as [|y f IH]; intros Hf; [done|]. cbn [app insert_by_key]. rewrite Hf by by left.
  f_equal. apply IH. intros z Hz. apply Hf. by right.
Qed.

Lemma insert_front x s : (forall y, y ∈ s -> key_leb x y = true) -> insert_by_key x s = x :: s.
Proof. destruct s as [|y s]; [done|]. intros Hs. cbn [insert_by_key]. by rewrite Hs by by left. Qed.

Lemma enumerate_ge k js n j : (n, j) ∈ enumerate k js -> (k <= n)%nat.
Proof.
  revert k. induction js as [|i js IH]; intros k; cbn [enumerate]; [by intros ?%elem_of_nil|].
  intros [[= -> ->]|Hn]%elem_of_cons; [done|]. specialize (IH _ Hn). lia.
Qed.

Lemma filter_enumerate (P : Job -> Prop) `{forall j, Decision (P j)} k js :
  snd <$> filter (fun '(_, j) => P j) (enumerate k js) = filter P js.
Proof.
  revert k. induction js as [|j js IH]; intros k; [done|]. cbn [enumerate]. rewrite !filter_cons.
  destruct (decide (P j)) as [Hj|Hj].
  - rewrite fmap_cons. f_equal. apply IH.
  - apply IH.
Qed.

(** Sorting puts the running candidates before the stopped ones and keeps the
    order of arrival within both groups. *)
Lemma sort_candidates k js :
  sort_by_key (candidate <$> filter (fun '(_, j) => live j) (enumerate k js))
  = candidate <$> (filter (fun '(_, j) => state j = Running) (enumerate k js)
                   ++ filter (fun '(_, j) => state j = Stopped) (enumerate k js)).
Proof.
  revert k. induction js as [|j js IH]; intros k; [done|]. cbn [enumerate]. rewrite !filter_cons.
  assert (Hge : forall P `{forall x, Decision (P x)} y,
    y ∈ candidate <$> filter P (enumerate (S k) js) ->
    exists n i, P (n, i) /\ y = candidate (n, i) /\ (k <= n)%nat).
  { intros P HP y ([n i] & -> & [HPy Hin]%list_elem_of_filter)%list_elem_of_fmap.
    exists n, i. split_and!; [done|done|]. apply enumerate_ge in Hin. lia. }
  assert (Hcase : state j = Running \/ state j = Stopped \/ state j = Done) by (destruct (state j); auto).
  destruct Hcase as [Hj|[Hj|Hj]].
  - rewrite decide_True by (unfold live; congruence). rewrite decide_True by done.
    rewrite decide_False by congruence. rewrite fmap_cons. cbn [sort_by_key foldr].
    fold (sort_by_key (candidate <$> filter (fun '(_, j) => live j) (enumerate (S k) js))). rewrite IH.
    cbn [app]. rewrite fmap_cons. apply insert_front. intros y Hy. rewrite fmap_app in Hy.
    apply elem_of_app in Hy as [Hy|Hy]; apply Hge in Hy as (n & i & Hi & -> & Hle); simpl in Hi |- *; rewrite Hj, Hi;
      cbn; [by apply Nat.leb_le|done].
  - rewrite decide_True by (unfold live; congruence). rewrite decide_False by congruence.
    rewrite decide_True by done. rewrite fmap_cons. cbn [sort_by_key foldr].
    fold (sort_by_key (candidate <$> filter (fun '(_, j) => live j) (enumerate (S k) js))). rewrite IH.
    rewrite !fmap_app, fmap_cons. rewrite insert_skip.
    + f_equal. apply insert_front. intros y Hy. apply Hge in Hy as (n & i & Hi & -> & Hle).
      simpl in Hi |- *. rewrite Hj, Hi. by apply Nat.leb_le.
    + intros y Hy. apply Hge in Hy as (n & i & Hi & -> & Hle). simpl in Hi |- *. by rewrite Hj, Hi.
  - rewrite decide_False by (unfold live; congruence). rewrite !decide_False by congruence. apply IH.
Qed.

Lemma last_two_fmap {A B} (f : A -> B) (l : list A) :
  last_two (f <$> l) = (f <$> fst (last_two l), f <$> snd (last_two l)).
Proof. unfold last_two. rewrite <- map_rev. by destruct (rev l) as [|x [|y r]]. Qed.

Lemma candidate_ids (l : list (nat * Job)) : (fun '(_, n, _) => n) <$> (candidate <$> l) = id <$> (snd <$> l).
Proof. rewrite <- !list_fmap_compose. apply list_fmap_ext. by intros _ [k j] _. Qed.

Lemma reset_chooses t :
  reset_current_previous t
  = with_markers t (fst (last_two (id <$> by_priority (jobs t)))) (snd (last_two (id <$> by_priority (jobs t)))).
Proof.
  pose proof (filter_enumerate live 0 (jobs t)) as Hlive. unfold by_priority. rewrite <- Hlive.
  pose proof (sort_candidates 0 (jobs t)) as Hsort.
  unfold reset_current_previous.
  change ((fun '(k, j) => (k, id j, state_eqb (state j) Stopped)) <$> filter (fun '(k, j) => state j <> Done) (enumerate 0 (jobs t)))
    with (candidate <$> filter (fun '(_, j) => live j) (enumerate 0 (jobs t))).
  destruct (filter (fun '(_, j) => live j) (enumerate 0 (jobs t))) as [|x l] eqn:Hf.
  - cbn [fmap list_fmap is_nil]. rewrite <- (filter_enumerate (fun j => notified j = false) 0 (jobs t)).
    rewrite <- list_fmap_compose.
    assert ((fun '(k, j) => id j) <$> filter (fun '(k, j) => notified j = false) (enumerate 0 (jobs t))
      = (id ∘ snd) <$> filter (fun '(_, j) => notified j = false) (enumerate 0 (jobs t))) as ->
      by (apply list_fmap_ext; by intros _ [k j] _).
    by destruct (last_two _).
  - rewrite fmap_cons. cbn [is_nil]. rewrite <- fmap_cons, Hsort, fmap_cons.
    rewrite <- (filter_enumerate (fun j => state j = Running) 0 (jobs t)).
    rewrite <- (filter_enumerate (fun j => state j = Stopped) 0 (jobs t)).
    rewrite <- fmap_app, <- candidate_ids, (last_two_fmap (fun '(_, n, _) => n)).
    by destruct (last_two _).
Qed.

(** * What a table promises *)

(** Markers point at jobs of the table, at two different ones, the first is
    used before the second, and the current job is live when any job is. *)
Record markers_ok (js : list Job) (c p : option Z) : Prop := {
  current_in : forall n, c = Some n -> n ∈ id <$> js;
  previous_in : forall n, p = Some n -> n ∈ id <$> js;
  markers_differ : forall n, c = Some n -> p <> Some n;
  current_first : c = None -> p = None;
  current_live : forall j, j ∈ js -> live j -> exists k, k ∈ js /\ c = Some (id k) /\ live k;
}.

Lemma by_priority_sub js j : j ∈ by_priority js -> j ∈ js.
Proof.
  unfold by_priority. destruct (filter live js).
  - by intros [_ ?]%list_elem_of_filter.
  - by intros [[_ ?]%list_elem_of_filter|[_ ?]%list_elem_of_filter]%elem_of_app.
Qed.

Lemma filter_fmap_NoDup (P : Job -> Prop) `{forall j, Decision (P j)} js :
  NoDup (id <$> js) -> NoDup (id <$> filter P js).
Proof.
  intros Hnd. eapply sublist_NoDup; [exact Hnd|]. apply fmap_sublist, sublist_filter.
Qed.

Lemma by_priority_NoDup js : NoDup (id <$> js) -> NoDup (id <$> by_priority js).
Proof.
  intros Hnd. unfold by_priority. destruct (filter live js) as [|x l]; [by apply filter_fmap_NoDup|].
  rewrite fmap_app. apply NoDup_app. split_and!; [by apply filter_fmap_NoDup| |by apply filter_fmap_NoDup].
  intros n (j & -> & [Hj Hin]%list_elem_of_filter)%list_elem_of_fmap
    (k & Hid & [Hk Hik]%list_elem_of_filter)%list_elem_of_fmap.
  rewrite (same_job js j k Hnd Hin Hik Hid) in Hj. congruence.
Qed.

Lemma last_two_elem {A} (l : list A) c p :
  last_two l = (c, p) ->
  (forall x, c = Some x -> x ∈ l) /\ (forall x, p = Some x -> x ∈ l) /\
  (NoDup l -> forall x, c = Some x -> p <> Some x) /\ (c = None -> p = None) /\ (c = None -> l = []).
Proof.
  unfold last_two. intros Hl. assert (Hin : forall x, x ∈ rev l -> x ∈ l).
  { intros x. rewrite !list_elem_of_In. apply in_rev. }
  assert (Hnd : NoDup l -> NoDup (rev l)) by (rewrite !NoDup_ListNoDup; apply NoDup_rev).
  destruct (rev l) as [|x [|y r]] eqn:Hr; injection Hl as <- <-.
  - split_and!; try done. intros _. by rewrite <- (rev_involutive l), Hr.
  - split_and!; try done. intros z [= <-]. apply Hin. by left.
  - split_and!; try done.
    + intros z [= <-]. apply Hin. by left.
    + intros z [= <-]. apply Hin. by right; left.
    + intros Hl z [= <-] [= ->]. apply Hnd, NoDup_cons in Hl as [Hl _]. apply Hl. by left.
Qed.

Lemma reset_markers js c p :
  NoDup (id <$> js) -> last_two (id <$> by_priority js) = (c, p) -> markers_ok js c p.
Proof.
  intros Hnd Hlt. destruct (last_two_elem _ _ _ Hlt) as (Hc & Hp & Hd & Hn & Hnil).
  assert (Hsub : forall n, n ∈ id <$> by_priority js -> n ∈ id <$> js).
  { intros n (j & -> & Hj)%list_elem_of_fmap. by apply list_elem_of_fmap_2, by_priority_sub. }
  split; auto using by_priority_NoDup.
  intros j Hj Hl. unfold by_priority in *. destruct (filter live js) as [|x l] eqn:Hf.
  { exfalso. assert (j ∈ filter live js) as Hin by by apply list_elem_of_filter. rewrite Hf in Hin.
    by apply elem_of_nil in Hin. }
  set (pr := filter (fun j => state j = Running) js ++ filter (fun j => state j = Stopped) js) in *.
  assert (j ∈ pr) as Hjpr.
  { apply elem_of_app. unfold live in Hl.
    destruct (state j) eqn:Hs; [left|right|done]; by apply list_elem_of_filter. }
  destruct c as [n|].
  2: { specialize (Hnil eq_refl). destruct pr; [by apply elem_of_nil in Hjpr|done]. }
  specialize (Hc n eq_refl). apply list_elem_of_fmap in Hc as (k & -> & Hk). exists k.
  apply elem_of_app in Hk as [[Hs Hk]%list_elem_of_filter|[Hs Hk]%list_elem_of_filter];
    (split; [done|]); (split; [done|]); unfold live; congruence.
Qed.

(** * The invariant *)

Section Invariant.
Context `{WaitStatus}.

(** [p] is a process of the job number [n]. *)
Definition owner (js : list Job) (p n : Z) : Prop := exists j, j ∈ js /\ id j = n /\ p ∈ pids j.

Record core (t : JobTable) : Prop := {
  ids_distinct : NoDup (id <$> jobs t);
  ids_positive : forall j, j ∈ jobs t -> 1 <= id j;
  pids_owned : forall p n, pid_to_job t !! p = Some n <-> owner (jobs t) p n;
  done_iff : forall j, j ∈ jobs t -> (state j = Done <-> all_done (processes j) = true);
  done_status : forall j, j ∈ jobs t -> state j = Done ->
    exit_status j = Some (decode_status (last_status (processes j)));
  done_ranked : forall n, is_Some (completion_order t !! n) <-> exists j, j ∈ jobs t /\ id j = n /\ state j = Done;
  ranks_distinct : forall a b r, completion_order t !! a = Some r -> completion_order t !! b = Some r -> a = b;
  ranks_below : forall a r, completion_order t !! a = Some r -> 0 <= r < next_completion_order t;
  rank_counter : 0 <= next_completion_order t < 2 ^ 64;
}.

(** The invariant of the table. *)
Definition wf (t : JobTable) : Prop := core t /\ markers_ok (jobs t) (current t) (previous t).

Lemma core_markers t c p : core t -> core (with_markers t c p).
Proof. intros []. by split. Qed.

Lemma core_reset t : core t -> wf (reset_current_previous t).
Proof.
  intros Hc. rewrite reset_chooses. split; [by apply core_markers|]. cbn [jobs current previous with_markers].
  apply reset_markers; [apply Hc|]. by destruct (last_two _).
Qed.

(** A change of jobs that keeps numbers, pids, and everything about completed
    jobs that matters. *)
Record keeps (j j' : Job) : Prop := {
  keeps_id : id j' = id j;
  keeps_pids : pids j' = pids j;
  keeps_done : state j' = Done <-> state j = Done;
  keeps_all_done : all_done (processes j') = all_done (processes j);
  keeps_status : state j = Done ->
    exit_status j' = exit_status j /\ last_status (processes j') = last_status (processes j);
}.

Lemma keeps_refl j : keeps j j.
Proof. by split. Qed.

Lemma keeps_flags j f : keeps j (with_flags j f).
Proof. by split. Qed.

Lemma keeps_notified j b : keeps j (with_notified j b).
Proof. by split. Qed.

Lemma keeps_elem_r js js' j' : Forall2 keeps js js' -> j' ∈ js' -> exists j, j ∈ js /\ keeps j j'.
Proof.
  induction 1 as [|j k js js' Hk _ IH]; [by intros ?%elem_of_nil|].
  intros [->|Hj]%elem_of_cons; [exists j; split; [by left|done]|].
  destruct (IH Hj) as (i & Hi & Hik). exists i. split; [by right|done].
Qed.

Lemma keeps_elem_l js js' j : Forall2 keeps js js' -> j ∈ js -> exists j', j' ∈ js' /\ keeps j j'.
Proof.
  induction 1 as [|i k js js' Hk _ IH]; [by intros ?%elem_of_nil|].
  intros [->|Hj]%elem_of_cons; [exists k; split; [by left|done]|].
  destruct (IH Hj) as (j' & Hj' & Hjk). exists j'. split; [by right|done].
Qed.

Lemma keeps_ids js js' : Forall2 keeps js js' -> id <$> js' = id <$> js.
Proof. induction 1 as [|j k js js' Hk _ IH]; [done|]. rewrite !fmap_cons, IH. f_equal. apply Hk. Qed.

(** A table whose jobs change in such a way keeps its invariant. *)
Lemma wf_related t js' : Forall2 keeps (jobs t) js' -> wf t -> wf (with_jobs t js').
Proof.
  intros HF [Hc Hm]. pose proof (keeps_ids _ _ HF) as Hids.
  pose proof (fun j' => keeps_elem_r _ _ j' HF) as Hel. pose proof (fun j => keeps_elem_l _ _ j HF) as Hin.
  split; split; cbn [jobs current previous pid_to_job completion_order next_completion_order with_jobs];
    try apply Hc.
  - rewrite Hids. apply Hc.
  - intros j' (j & Hj & Hk)%Hel. rewrite (keeps_id _ _ Hk). by apply Hc.
  - intros p n. rewrite (pids_owned t Hc). split.
    + intros (j & Hj & <- & Hp). destruct (Hin j Hj) as (j' & Hj' & [Hi Hps _ _ _]). exists j'. by rewrite Hi, Hps.
    + intros (j' & (j & Hj & [Hi Hps _ _ _])%Hel & <- & Hp). exists j. by rewrite Hi, <- Hps.
  - intros j' (j & Hj & [_ _ Hd Ha _])%Hel. rewrite Hd, Ha. by apply Hc.
  - intros j' (j & Hj & [_ _ Hd _ Hs])%Hel Hdone. apply Hd in Hdone as Hdone'.
    destruct (Hs Hdone') as [-> ->]. by apply Hc.
  - intros n. rewrite (done_ranked t Hc). split.
    + intros (j & Hj & <- & Hd). destruct (Hin j Hj) as (j' & Hj' & [Hi _ Hdd _ _]). exists j'. by rewrite Hi, Hdd.
    + intros (j' & (j & Hj & [Hi _ Hdd _ _])%Hel & <- & Hd). exists j. by rewrite Hi, <- Hdd.
  - rewrite Hids. apply Hm.
  - rewrite Hids. apply Hm.
  - apply Hm.
  - apply Hm.
  - intros j' (j & Hj & [_ _ Hd _ _])%Hel Hl.
    destruct (current_live _ _ _ Hm j Hj) as (k & Hk & -> & Hlk); [unfold live in *; tauto|].
    destruct (Hin k Hk) as (k' & Hk' & [Hi _ Hdk _ _]). exists k'. split; [done|]. split; [by rewrite Hi|].
    unfold live in *. tauto.
Qed.

Lemma keeps_fmap F (js : list Job) : (forall j, j ∈ js -> keeps j (F j)) -> Forall2 keeps js (F <$> js).
Proof.
  intros HF. apply Forall2_fmap_r, Forall_Forall2_diag, Forall_forall. exact HF.
Qed.

Lemma keeps_update_first p f js :
  (forall j, j ∈ js -> p j = true -> keeps j (f j)) -> Forall2 keeps js (update_first p f js).
Proof.
  induction js as [|j js IH]; intros Hf; cbn; [constructor|]. destruct (p j) eqn:Hj; constructor.
  - apply Hf; [by left|done].
  - apply Forall_Forall2_diag, Forall_forall. intros k _. apply keeps_refl.
  - apply keeps_refl.
  - apply IH. intros k Hk. apply Hf. by right.
Qed.

Lemma wf_update t n f : (forall j, j ∈ jobs t -> id j = n -> keeps j (f j)) -> wf t -> wf (update t n f).
Proof.
  intros Hf. apply wf_related, keeps_update_first. intros j Hj Hn%Z.eqb_eq. by apply Hf.
Qed.

(** ** Continuing and stopping *)

Lemma done_wake p : state_eqb (pstate (wake p)) Done = state_eqb (pstate p) Done.
Proof. destruct p as [? ? [] ?]; reflexivity. Qed.

Lemma all_done_fmap g ps :
  (forall p, p ∈ ps -> state_eqb (pstate (g p)) Done = state_eqb (pstate p) Done) -> all_done (g <$> ps) = all_done ps.
Proof.
  induction ps as [|p ps IH]; intros Hg; [done|]. cbn. rewrite Hg by by left. f_equal. apply IH.
  intros q Hq. apply Hg. by right.
Qed.

Lemma last_status_fmap g ps : (forall p, status_raw (g p) = status_raw p) -> last_status (g <$> ps) = last_status ps.
Proof. intros Hg. unfold last_status. rewrite fmap_last. by destruct (last ps); cbn. Qed.

Lemma wake_keeps j : keeps j (with_processes j (wake <$> processes j)).
Proof.
  split; try done.
  - unfold pids. cbn. rewrite <- list_fmap_compose. apply list_fmap_ext. intros _ p _. cbn. unfold wake.
    by destruct (state_eqb _ _).
  - cbn. apply all_done_fmap. intros p _. apply done_wake.
  - intros _. split; [done|]. cbn. apply last_status_fmap. intros p. unfold wake. by destruct (state_eqb _ _).
Qed.

Lemma keeps_trans a b c : keeps a b -> keeps b c -> keeps a c.
Proof. intros [] []. split; try congruence; [tauto|]. intros Ha. intuition congruence. Qed.

(** A job that is not completed may change to any other state. *)
Lemma keeps_state j s : state j <> Done -> s <> Done -> keeps j (with_state j s).
Proof. intros Hj Hs. split; try done. Qed.

Lemma all_done_elem ps p : all_done ps = true -> p ∈ ps -> pstate p = Done.
Proof.
  unfold all_done. rewrite forallb_forall. intros Hall Hp. apply list_elem_of_In in Hp.
  specialize (Hall p Hp). by apply bool_decide_eq_true in Hall.
Qed.

Lemma continue_keeps j : (state j = Done <-> all_done (processes j) = true) -> keeps j (continue_job j).
Proof.
  intros Hd. unfold continue_job. pose proof (wake_keeps j) as Hk. cbn [processes with_processes].
  destruct (existsb _ _) eqn:Hex; [|done]. eapply keeps_trans; [exact Hk|].
  eapply keeps_trans; [|apply keeps_notified]. apply keeps_state; [|done]. cbn. intros Hdone.
  apply Hd in Hdone. rewrite <- (keeps_all_done _ _ Hk) in Hdone. apply existsb_exists in Hex as (p & Hp & Hr).
  apply list_elem_of_In in Hp. apply bool_decide_eq_true in Hr. rewrite (all_done_elem _ p Hdone Hp) in Hr. done.
Qed.

Lemma resume_keeps j : state j <> Done -> keeps j (resume j).
Proof. intros Hj. eapply keeps_trans; [by apply (keeps_state j Running)|]. apply (wake_keeps (with_state j Running)). Qed.

Lemma wf_job_running t n : wf t -> wf (mark_job_running t n).
Proof. intros Hwf. apply wf_update; [|done]. intros j Hj _. apply continue_keeps. by apply Hwf. Qed.

(** No process [p] is known to be dead. *)
Definition alive (t : JobTable) (p : Z) : Prop :=
  forall j q, j ∈ jobs t -> q ∈ processes j -> pid q = p -> pstate q <> Done.

Lemma alive_not_done t p j : wf t -> alive t p -> j ∈ jobs t -> p ∈ pids j -> all_done (processes j) = false.
Proof.
  intros Hwf Ha Hj Hp. apply not_true_is_false. intros Hd. apply list_elem_of_fmap in Hp as (q & -> & Hq).
  by apply (Ha j q Hj Hq eq_refl), (all_done_elem _ _ Hd).
Qed.

(** Replacing the process [p] of a job by one that is not dead. *)
Lemma replace_pids p (g : Process -> Process) (ps : list Process) :
  (forall q, pid (g q) = pid q) -> pid <$> ((fun q => if pid q =? p then g q else q) <$> ps) = pid <$> ps.
Proof.
  intros Hg. rewrite <- list_fmap_compose. apply list_fmap_ext. intros _ q _. cbn. by destruct (_ =? _).
Qed.

Lemma suspend_keeps j p s :
  state j <> Done -> all_done (processes j) = false -> p ∈ pids j -> keeps j (suspend p s j).
Proof.
  intros Hj Hd Hp. split; try done.
  - unfold pids. cbn. by apply replace_pids.
  - cbn. rewrite Hd. apply not_true_is_false. intros Hall. apply list_elem_of_fmap in Hp as (q & -> & Hq).
    eapply (list_elem_of_fmap_2 (fun r => if pid r =? pid q then _ else r)) in Hq.
    pose proof (all_done_elem _ _ Hall Hq) as Hs. cbn in Hs. by rewrite Z.eqb_refl in Hs.
Qed.

(** The job a pid belongs to. *)
Lemma pid_job t p n :
  wf t -> pid_to_job t !! p = Some n -> exists j, j ∈ jobs t /\ id j = n /\ p ∈ pids j /\ get t n = Some j.
Proof.
  intros [Hc _] Hp. apply (pids_owned t Hc) in Hp as (j & Hj & <- & Hin). exists j.
  split_and!; try done. apply get_elem; [apply Hc|done].
Qed.

Lemma update_elem t n f j : NoDup (id <$> jobs t) -> j ∈ jobs t -> id j = n -> f j ∈ jobs (update t n f).
Proof.
  intros Hnd Hj Hn. unfold update. cbn [jobs with_jobs]. rewrite update_first_map by done. apply list_elem_of_fmap.
  exists j. by rewrite Hn, Z.eqb_refl.
Qed.

Lemma wf_stopped t p s : wf t -> alive t p -> wf (mark_stopped t p s).
Proof.
  intros Hwf Ha. unfold mark_stopped. destruct (pid_to_job t !! p) as [n|] eqn:Hp; [|done].
  destruct (pid_job t p n Hwf Hp) as (j & Hj & Hn & Hin & _). pose proof (ids_distinct t (proj1 Hwf)) as Hnd.
  pose proof (alive_not_done t p j Hwf Ha Hj Hin) as Hd.
  assert (Hwf' : wf (update t n (suspend p s))).
  { apply wf_update; [|done]. intros k Hk Hkn. rewrite (same_job _ k j Hnd Hk Hj) by congruence.
    apply suspend_keeps; [|done|done]. rewrite (done_iff t (proj1 Hwf) j Hj). congruence. }
  pose proof (update_elem t n (suspend p s) j Hnd Hj Hn) as Hel. destruct (bool_decide _) eqn:Hcur; [done|].
  apply bool_decide_eq_false in Hcur. destruct Hwf' as [Hc' Hm']. split; [by apply core_markers|].
  assert (n ∈ id <$> jobs (update t n (suspend p s))) as Hni
    by (apply list_elem_of_fmap; exists (suspend p s j); split; [by rewrite <- Hn|done]).
  split; cbn [jobs current previous with_markers] in *.
  - by intros ? [= <-].
  - apply Hm'.
  - by intros ? [= <-].
  - done.
  - intros _ _ _. exists (suspend p s j). split; [done|]. split; [by rewrite <- Hn|]. by unfold live.
Qed.

(** ** Completion *)

(** The job after the death of its process [p]. *)
Lemma bury_id p st j : id (fst (bury p st j)) = id j.
Proof. unfold bury. by destruct (_ && _). Qed.

Lemma bury_pids p st j : pids (fst (bury p st j)) = pids j.
Proof. unfold bury. destruct (_ && _); unfold pids; cbn; by apply replace_pids. Qed.

Lemma bury_completed p st j :
  snd (bury p st j) = true ->
  state (fst (bury p st j)) = Done /\ all_done (processes (fst (bury p st j))) = true /\
  exit_status (fst (bury p st j)) = Some (decode_status (last_status (processes (fst (bury p st j))))).
Proof.
  unfold bury. destruct (_ && _) eqn:Hc; [|done]. cbn in *. apply andb_true_iff in Hc as [_ Hc]. done.
Qed.

Lemma bury_keeps p st j :
  state j <> Done -> all_done (processes j) = false -> snd (bury p st j) = false -> keeps j (fst (bury p st j)).
Proof.
  intros Hj Hd. pose proof (bury_pids p st j) as Hp. unfold bury in *. destruct (_ && _) eqn:Hc; [done|].
  intros _. cbn in *. unfold state_eqb in Hc at 1. rewrite bool_decide_eq_false_2 in Hc by done.
  split; try done. cbn. rewrite Hd. exact Hc.
Qed.

(** The table when the job [n] has just completed, the markers not yet reset. *)
Definition completed_table (t : JobTable) (n : Z) (f : Job -> Job) : JobTable :=
  let t := update t n f in
  mkTable (jobs t) (current t) (previous t) (pid_to_job t) (waited_pids t)
    (<[n := next_completion_order t]> (completion_order t)) (u64 (next_completion_order t + 1)).

Lemma completed_core t n f j :
  core t -> j ∈ jobs t -> id j = n -> state j <> Done -> next_completion_order t + 1 < 2 ^ 64 ->
  id (f j) = id j -> pids (f j) = pids j -> state (f j) = Done -> all_done (processes (f j)) = true ->
  exit_status (f j) = Some (decode_status (last_status (processes (f j)))) ->
  core (completed_table t n f).
Proof.
  intros Hc Hj Hn Hl Hb Hid Hps Hs Hd He. unfold completed_table, update.
  pose proof (ids_distinct t Hc) as Hnd. pose proof (rank_counter t Hc) as Hr.
  assert (Hnone : completion_order t !! n = None).
  { apply eq_None_not_Some. intros (k & Hk & Hkn & Hks)%(done_ranked t Hc). apply Hl.
    by rewrite (same_job _ j k Hnd Hj Hk) by congruence. }
  assert (Hel : forall k, k ∈ (fun j => if id j =? n then f j else j) <$> jobs t <->
    k = f j \/ (k ∈ jobs t /\ id k <> n)).
  { intros k. split.
    - intros (i & -> & Hi)%list_elem_of_fmap. destruct (Z.eqb_spec (id i) n) as [Hin|Hin]; [|by right].
      left. by rewrite (same_job _ i j Hnd Hi Hj) by congruence.
    - intros [->|[Hk Hkn]]; apply list_elem_of_fmap.
      + exists j. by rewrite Hn, Z.eqb_refl.
      + exists k. by rewrite (proj2 (Z.eqb_neq _ _) Hkn). }
  unfold u64. rewrite Z.mod_small by (cbn; lia).
  split; cbn [jobs pid_to_job completion_order next_completion_order with_jobs]; rewrite ?update_first_map by done.
  - rewrite <- list_fmap_compose. erewrite list_fmap_ext; [exact Hnd|]. intros i k Hk. cbn.
    destruct (Z.eqb_spec (id k) n) as [Hkn|]; [|done].
    rewrite (same_job _ k j Hnd (list_elem_of_lookup_2 _ _ _ Hk) Hj) by congruence. done.
  - intros k [->|[Hk _]]%Hel; [rewrite Hid|]; by apply Hc.
  - intros p m. rewrite (pids_owned t Hc). unfold owner. setoid_rewrite Hel. split.
    + intros (k & Hk & <- & Hp). destruct (decide (id k = n)) as [Hkn|Hkn].
      * assert (k = j) as -> by (apply (same_job (jobs t)); congruence). exists (f j). rewrite Hid, Hps. auto.
      * exists k. auto.
    + intros (k & [->|[Hk Hkn]] & <- & Hp); [exists j|exists k]; by rewrite ?Hid, <- ?Hps.
  - intros k [->|[Hk _]]%Hel; [by rewrite Hs, Hd|by apply Hc].
  - intros k [->|[Hk _]]%Hel; [done|by apply Hc].
  - intros m. setoid_rewrite Hel. destruct (decide (m = n)) as [->|Hm].
    + rewrite lookup_insert_eq. split; [|by eauto]. intros _. exists (f j). split; [by left|]. by rewrite Hid.
    + rewrite lookup_insert_ne by done. rewrite (done_ranked t Hc). split.
      * intros (k & Hk & <- & Hks). exists k. split; [by right|done].
      * intros (k & [->|[Hk Hkn]] & <- & Hks); [by rewrite Hid in Hm|]. by exists k.
  - intros a b r. pose proof (ranks_below t Hc) as Hbel. pose proof (ranks_distinct t Hc a b r) as Hdis.
    destruct (decide (a = n)) as [->|Ha], (decide (b = n)) as [->|Hb'];
      rewrite ?lookup_insert_eq, ?lookup_insert_ne by done; [done| | |done].
    + intros [= <-] Hbr%Hbel. lia.
    + intros Hbr%Hbel [= <-]. lia.
  - intros a r. destruct (decide (a = n)) as [->|Ha].
    + rewrite lookup_insert_eq. intros [= <-]. lia.
    + rewrite lookup_insert_ne by done. intros Ha'%(ranks_below t Hc). lia.
  - lia.
Qed.

Lemma wf_dead t p st : wf t -> alive t p -> next_completion_order t + 1 < 2 ^ 64 -> wf (mark_dead t p st).
Proof.
  intros Hwf Ha Hb. unfold mark_dead. destruct (pid_to_job t !! p) as [n|] eqn:Hp; [|done].
  destruct (pid_job t p n Hwf Hp) as (j & Hj & Hn & Hin & Hget). rewrite Hget.
  pose proof (alive_not_done t p j Hwf Ha Hj Hin) as Hd. pose proof (ids_distinct t (proj1 Hwf)) as Hnd.
  assert (Hs : state j <> Done) by (rewrite (done_iff t (proj1 Hwf) j Hj); congruence).
  destruct (snd (bury p st j)) eqn:Hcomp; cbn [andb].
  2: { apply wf_update; [|done]. intros k Hk Hkn. rewrite (same_job _ k j Hnd Hk Hj) by congruence.
       by apply bury_keeps. }
  destruct (bury_completed p st j Hcomp) as (Hs' & Hd' & He').
  change (mkTable _ _ _ _ _ _ _) with (completed_table t n (fun job => fst (bury p st job))).
  assert (Hcore : core (completed_table t n (fun job => fst (bury p st job)))).
  { eapply completed_core; try done; [apply Hwf|apply bury_id|apply bury_pids]. }
  destruct (_ || _) eqn:Hmark; [by apply core_reset|].
  apply orb_false_iff in Hmark as [Hcur%bool_decide_eq_false Hprev%bool_decide_eq_false].
  cbn [completed_table update current previous with_jobs] in Hcur, Hprev.
  split; [done|]. destruct Hwf as [Hc Hm].
  assert (Hids : id <$> jobs (completed_table t n (fun job => fst (bury p st job))) = id <$> jobs t).
  { unfold completed_table, update. cbn [jobs with_jobs]. rewrite update_first_map by done.
    rewrite <- list_fmap_compose. apply list_fmap_ext. intros _ k _. cbn. destruct (_ =? _); [apply bury_id|done]. }
  split; try rewrite Hids; try apply Hm.
  intros k Hk Hlk.
  assert (Hold : exists i, i ∈ jobs t /\ live i).
  { unfold completed_table, update in Hk. cbn [jobs with_jobs] in Hk. rewrite update_first_map in Hk by done.
    apply list_elem_of_fmap in Hk as (i & -> & Hi). exists i. split; [done|].
    destruct (Z.eqb_spec (id i) n) as [Hin'|]; [|done]. by rewrite (same_job _ i j Hnd Hi Hj) by congruence. }
  destruct Hold as (i & Hi & Hli). destruct (current_live _ _ _ Hm i Hi Hli) as (m & Hmj & Hcm & Hlm).
  exists m. split; [|done]. unfold completed_table, update. cbn [jobs with_jobs]. rewrite update_first_map by done.
  apply list_elem_of_fmap. exists m. split; [|done]. rewrite (proj2 (Z.eqb_neq _ _)); [done|]. congruence.
Qed.

(** ** New jobs *)

Lemma used_spec js n : used js n = true <-> n ∈ id <$> js.
Proof.
  unfold used. rewrite existsb_exists, list_elem_of_fmap. split.
  - intros (j & Hj & Hn%Z.eqb_eq). exists j. by rewrite list_elem_of_In.
  - intros (j & -> & Hj). exists j. by rewrite <- list_elem_of_In, Z.eqb_refl.
Qed.

(** The loop stops at the first free number, if there is one within reach. *)
Lemma allocate_from_spec fuel js n m :
  n <= m < n + Z.of_nat fuel -> used js m = false ->
  let r := allocate_from fuel js n in n <= r <= m /\ used js r = false /\ forall k, n <= k < r -> used js k = true.
Proof.
  revert n. induction fuel as [|fuel IH]; intros n Hm Hu; [lia|]. cbn [allocate_from].
  destruct (used js n) eqn:Hn.
  - assert (n <> m) by congruence. destruct (IH (n + 1)) as (Hr & Hf & Hall); [lia|done|].
    split; [lia|]. split; [done|]. intros k Hk. destruct (decide (k = n)) as [->|]; [done|]. apply Hall. lia.
  - cbn. split; [lia|]. split; [done|]. lia.
Qed.

(** Among [length js + 1] numbers one is free. *)
Lemma free_number js : exists m, 1 <= m < 1 + Z.of_nat (S (length js)) /\ used js m = false.
Proof.
  destruct (decide (Exists (fun m => used js m = false) (seqZ 1 (Z.of_nat (S (length js)))))) as [Hex|Hno].
  - apply Exists_exists in Hex as (m & Hm%elem_of_seqZ & Hu). eauto.
  - exfalso. apply not_Exists_Forall in Hno; [|apply _].
    assert (Hsub : seqZ 1 (Z.of_nat (S (length js))) ⊆+ (id <$> js)).
    { apply NoDup_submseteq; [apply NoDup_seqZ|]. intros m Hm. rewrite Forall_forall in Hno.
      apply used_spec. apply not_false_is_true. by apply Hno. }
    apply submseteq_length in Hsub. rewrite length_seqZ, length_fmap in Hsub. lia.
Qed.

(** A new job gets the lowest free number. *)
Lemma allocate_lowest t :
  let n := allocate_id t in
  1 <= n /\ (n ∉ id <$> jobs t) /\ forall k, 1 <= k < n -> k ∈ id <$> jobs t.
Proof.
  destruct (free_number (jobs t)) as (m & Hm & Hu).
  destruct (allocate_from_spec (S (length (jobs t))) (jobs t) 1 m Hm Hu) as (Hr & Hf & Hall).
  unfold allocate_id. split; [lia|]. split.
  - intros Hin%used_spec. congruence.
  - intros k Hk. by apply used_spec, Hall.
Qed.

Lemma insert_pids (m : gmap Z Z) n ps p :
  foldl (fun m p => <[pid p := n]> m) m ps !! p = if decide (p ∈ pid <$> ps) then Some n else m !! p.
Proof.
  revert m. induction ps as [|q ps IH]; intros m; [done|]. cbn [foldl]. rewrite IH, fmap_cons.
  destruct (decide (p ∈ pid <$> ps)) as [Hin|Hni].
  - rewrite decide_True by by right. done.
  - destruct (decide (p = pid q)) as [->|Hne].
    + rewrite decide_True by by left. apply lookup_insert_eq.
    + rewrite decide_False by by intros [?|?]%elem_of_cons. by apply lookup_insert_ne.
Qed.

Lemma wf_add t g l cmd a jc ps :
  wf t -> (forall q, q ∈ ps -> pid_to_job t !! pid q = None) -> all_done ps = false ->
  wf (fst (add t g l cmd a jc ps)).
Proof.
  intros [Hc Hm] Hfresh Hd. destruct (allocate_lowest t) as (Hpos & Hni & _). unfold add. cbn [fst].
  set (n := allocate_id t) in *. set (job := mkJob n _ _ _ _ _ _ _ _).
  assert (Hel : forall j, j ∈ jobs t ++ [job] <-> j ∈ jobs t \/ j = job)
    by (intros j; rewrite elem_of_app, list_elem_of_singleton; done).
  split; split; cbn [jobs current previous pid_to_job completion_order next_completion_order]; try apply Hc.
  - rewrite fmap_app. apply NoDup_app. split_and!; [apply Hc| |apply NoDup_singleton].
    intros k Hk ->%list_elem_of_singleton. by apply Hni.
  - intros j [Hj| ->]%Hel; [by apply Hc|done].
  - intros p m. rewrite insert_pids. unfold owner. setoid_rewrite Hel. case_decide as Hp.
    + split.
      * intros [= <-]. exists job. auto.
      * intros (j & [Hj| ->] & <- & Hin); [|done]. exfalso. apply list_elem_of_fmap in Hp as (q & -> & Hq).
        assert (Hown : pid_to_job t !! pid q = Some (id j)) by (apply Hc; by exists j).
        by rewrite (Hfresh q Hq) in Hown.
    + rewrite (pids_owned t Hc). unfold owner. split.
      * intros (j & Hj & <- & Hin). exists j. auto.
      * intros (j & [Hj| ->] & <- & Hin); [by exists j|done].
  - intros j [Hj| ->]%Hel; [by apply Hc|].
    change (Running = Done <-> all_done ps = true). by rewrite Hd.
  - intros j [Hj| ->]%Hel; [by apply Hc|done].
  - intros m. rewrite (done_ranked t Hc). setoid_rewrite Hel. split.
    + intros (j & Hj & <- & Hs). exists j. auto.
    + intros (j & [Hj| ->] & <- & Hs); [by exists j|done].
  - intros k [= <-]. rewrite fmap_app. apply elem_of_app. right. by left.
  - intros k Hk. rewrite fmap_app. apply elem_of_app. left. by apply Hm.
  - intros k [= <-] Hk. apply Hni. by apply (current_in _ _ _ Hm).
  - done.
  - intros j _ _. exists job. split; [by apply Hel; right|]. done.
Qed.

(** ** Jobs that leave *)

Lemma delete_pids (m : gmap Z Z) ps p n :
  foldl (fun m p => delete (pid p) m) m ps !! p = Some n <-> m !! p = Some n /\ p ∉ pid <$> ps.
Proof.
  revert m. induction ps as [|q ps IH]; intros m; cbn [foldl].
  - split; [intros Hm; split; [done|apply not_elem_of_nil]|by intros [? _]].
  - rewrite IH, fmap_cons, not_elem_of_cons, lookup_delete_Some. naive_solver.
Qed.

Lemma forget_all gone : forall t,
  let t' := foldl forget t gone in
  jobs t' = jobs t /\ next_completion_order t' = next_completion_order t /\
  (forall p n, pid_to_job t' !! p = Some n <-> pid_to_job t !! p = Some n /\ forall j, j ∈ gone -> p ∉ pids j) /\
  (forall n r, completion_order t' !! n = Some r <->
     completion_order t !! n = Some r /\ forall j, j ∈ gone -> id j <> n).
Proof.
  induction gone as [|g gone IH]; intros t; cbn [foldl].
  - split_and!; try done; intros; (split; [|by intros [? _]]); intros; (split; [done|]); by intros j Hj%elem_of_nil.
  - destruct (IH (forget t g)) as (Hj & Hn & Hp & Ho). cbv zeta. split_and!; [done|done| |].
    + intros p n. rewrite Hp. cbn [pid_to_job forget]. rewrite delete_pids. setoid_rewrite elem_of_cons.
      unfold pids. naive_solver.
    + intros n r. rewrite Ho. cbn [completion_order forget]. rewrite lookup_delete_Some. setoid_rewrite elem_of_cons.
      naive_solver.
Qed.

(** Dropping jobs together with what belongs to them. *)
Lemma core_drop t (gone kept : list Job) :
  core t -> (forall j, j ∈ jobs t <-> j ∈ gone \/ j ∈ kept) -> (forall j, j ∈ gone -> j ∉ kept) ->
  NoDup (id <$> kept) -> core (foldl forget (with_jobs t kept) gone).
Proof.
  intros Hc Hel Hdis Hnd. destruct (forget_all gone (with_jobs t kept)) as (Hj & Hn & Hp & Ho). cbv zeta in *.
  cbn [jobs pid_to_job completion_order next_completion_order with_jobs] in *.
  assert (Hsame : forall j k, j ∈ gone -> k ∈ kept -> id j <> id k).
  { intros j k Hjg Hkk Hid. apply (Hdis j Hjg).
    rewrite (same_job (jobs t) j k (ids_distinct t Hc)); [done| | |done]; apply Hel; auto. }
  split; rewrite ?Hj, ?Hn; try apply Hc.
  - done.
  - intros j Hjk. apply Hc, Hel. auto.
  - intros p n. rewrite Hp, (pids_owned t Hc). split.
    + intros [(j & Hjt & Hid & Hin) Hno]. exists j. split; [|done].
      apply Hel in Hjt as [Hjg|]; [by destruct (Hno j Hjg)|done].
    + intros (j & Hjk & <- & Hin). split; [exists j; rewrite Hel; auto|]. intros g Hg Hpg.
      apply (Hsame g j Hg Hjk). assert (Hown : forall k, k ∈ jobs t -> p ∈ pids k -> pid_to_job t !! p = Some (id k))
        by (intros k Hk Hkp; apply Hc; by exists k).
      assert (Some (id g) = Some (id j)) as [=]; [|done].
      rewrite <- (Hown g), <- (Hown j); try done; apply Hel; auto.
  - intros j Hjk. apply Hc, Hel. auto.
  - intros j Hjk. apply Hc, Hel. auto.
  - intros n. split.
    + intros [r [Hr Hno]%Ho]. assert (Hs : is_Some (completion_order t !! n)) by eauto.
      apply (done_ranked t Hc) in Hs as (j & Hjt & Hid & Hs). exists j. split; [|done].
      apply Hel in Hjt as [Hjg|]; [by destruct (Hno j Hjg)|done].
    + intros (j & Hjk & <- & Hs). assert (is_Some (completion_order t !! id j)) as [r Hr]
        by (apply (done_ranked t Hc); exists j; rewrite Hel; auto).
      exists r. apply Ho. split; [done|]. intros g Hg. by apply Hsame.
  - intros a b r [Ha _]%Ho [Hb _]%Ho. by eapply Hc.
  - intros a r [Ha _]%Ho. by eapply Hc.
Qed.

Lemma wf_remove t n : wf t -> wf (remove t n).
Proof.
  intros [Hc Hm]. unfold remove. apply core_reset. destruct (get t n) as [j|] eqn:Hg; [|done].
  apply get_Some in Hg as [Hj <-]. pose proof (ids_distinct t Hc) as Hnd. rewrite remove_first_filter by done.
  apply (core_drop t [j]); [done| | |by apply filter_fmap_NoDup].
  - intros k. rewrite list_elem_of_singleton, list_elem_of_filter. split.
    + intros Hk. destruct (decide (id k = id j)); [left; by apply (same_job (jobs t))|by right].
    + by intros [->|[_ ?]].
  - by intros k ->%list_elem_of_singleton [? _]%list_elem_of_filter.
Qed.

Lemma wf_purge t : wf t -> wf (fst (purge_done t)).
Proof.
  intros Hwf. unfold purge_done. cbn [fst]. destruct (filter (fun j => purgeable j = true) (jobs t)) as [|g gone] eqn:Hg.
  - cbn [is_nil foldl]. replace (filter (fun j => purgeable j = false) (jobs t)) with (jobs t); [by destruct t|].
    symmetry. apply filter_all. intros j Hj. apply not_true_is_false. intros Hp.
    assert (j ∈ filter (fun j => purgeable j = true) (jobs t)) as Hin by by apply list_elem_of_filter.
    rewrite Hg in Hin. by apply elem_of_nil in Hin.
  - cbn [is_nil]. rewrite <- Hg. apply core_reset, core_drop; [apply Hwf| | |apply filter_fmap_NoDup, Hwf].
    + intros j. rewrite !list_elem_of_filter. destruct (purgeable j); naive_solver.
    + intros j [Hj _]%list_elem_of_filter [Hk _]%list_elem_of_filter. congruence.
Qed.

(** Whether all processes but [p] have ended. *)
Definition others_done (p : Z) (ps : list Process) : bool :=
  forallb (fun q => (pid q =? p) || state_eqb (pstate q) Done) ps.

Lemma all_done_buried p st ps :
  all_done ((fun q => if pid q =? p then mkProcess (pid q) st Done (command q) else q) <$> ps) = others_done p ps.
Proof.
  unfold all_done, others_done. induction ps as [|q ps IH]; [done|]. rewrite fmap_cons. cbn [forallb].
  f_equal; [by destruct (pid q =? p)|exact IH].
Qed.

(** ** What needs no protocol

    The operations themselves check little: [bg] and [fg] resume completed jobs
    of the process group too (bg.rs and fg.rs), [add] takes any pids, and
    [mark_dead] and [mark_stopped] any process.  The tables they produce keep
    what follows in any order of calls, with any arguments. *)
Inductive operation : JobTable -> JobTable -> Prop :=
| op_add t g l cmd a jc ps : operation t (fst (add t g l cmd a jc ps))
| op_remove t n : operation t (remove t n)
| op_dead t p st : operation t (mark_dead t p st)
| op_stopped t p s : operation t (mark_stopped t p s)
| op_running t p : operation t (mark_running t p)
| op_job_running t n : operation t (mark_job_running t n)
| op_waited t p : operation t (mark_pid_waited t p)
| op_notify t : operation t (fst (pending_notifications t))
| op_purge t : operation t (fst (purge_done t))
| op_bg t g : operation t (bg_resume t g)
| op_fg t g : operation t (fg_resume t g)
| op_disown t n : operation t (disown_nohup t n).

(** A completed job has only dead processes, and a status. *)
Definition ended (j : Job) : Prop := state j = Done -> all_done (processes j) = true /\ is_Some (exit_status j).

Record consistent (t : JobTable) : Prop := {
  numbers_distinct : NoDup (id <$> jobs t);
  numbers_positive : forall j, j ∈ jobs t -> 1 <= id j;
  index_sound : forall p n, pid_to_job t !! p = Some n -> owner (jobs t) p n;
  completed_ended : forall j, j ∈ jobs t -> ended j;
  current_job : forall n, current t = Some n -> n ∈ id <$> jobs t;
  previous_job : forall n, previous t = Some n -> n ∈ id <$> jobs t;
  two_jobs : forall n, current t = Some n -> previous t <> Some n;
}.

Definition milder (j j' : Job) : Prop := id j' = id j /\ pids j' = pids j /\ (ended j -> ended j').

Lemma milder_refl j : milder j j.
Proof. by split_and!. Qed.

Lemma consistent_jobs t js' : Forall2 milder (jobs t) js' -> consistent t -> consistent (with_jobs t js').
Proof.
  intros HF [H1 H2 H3 H4 H5 H6 H7].
  assert (Hids : id <$> js' = id <$> jobs t).
  { clear -HF. induction HF as [|j k js js' (Hk & _) _ IH]; [done|]. by rewrite !fmap_cons, IH, Hk. }
  split; cbn [jobs current previous pid_to_job with_jobs]; rewrite ?Hids; try done.
  - intros j' (k & Hk)%list_elem_of_lookup. destruct (Forall2_lookup_r _ _ _ _ _ HF Hk) as (j & Hj & -> & _).
    by eapply H2, list_elem_of_lookup_2.
  - intros p n (j & (k & Hk)%list_elem_of_lookup & Hn & Hp)%H3.
    destruct (Forall2_lookup_l _ _ _ _ _ HF Hk) as (j' & Hj' & Hi & Hps & _). exists j'.
    rewrite Hi, Hps. split; [by eapply list_elem_of_lookup_2|done].
  - intros j' (k & Hk)%list_elem_of_lookup. destruct (Forall2_lookup_r _ _ _ _ _ HF Hk) as (j & Hj & _ & _ & He).
    by eapply He, H4, list_elem_of_lookup_2.
Qed.

Lemma consistent_fmap t F : (forall j, milder j (F j)) -> consistent t -> consistent (with_jobs t (F <$> jobs t)).
Proof. intros HF. apply consistent_jobs, Forall2_fmap_r, Forall_Forall2_diag, Forall_forall. auto. Qed.

Lemma consistent_update_first t p f :
  (forall j, milder j (f j)) -> consistent t -> consistent (with_jobs t (update_first p f (jobs t))).
Proof.
  intros Hf. apply consistent_jobs. induction (jobs t) as [|j js IH]; cbn; [constructor|].
  destruct (p j); constructor; auto using milder_refl. apply Forall_Forall2_diag, Forall_forall. auto using milder_refl.
Qed.

Lemma consistent_same t t' :
  jobs t' = jobs t -> pid_to_job t' = pid_to_job t -> current t' = current t -> previous t' = previous t ->
  consistent t -> consistent t'.
Proof. intros E1 E2 E3 E4 []. split; by rewrite ?E1, ?E2, ?E3, ?E4. Qed.

(** New markers, if they name two jobs. *)
Lemma consistent_markers t c p : consistent t ->
  (forall n, c = Some n -> n ∈ id <$> jobs t) -> (forall n, p = Some n -> n ∈ id <$> jobs t) ->
  (forall n, c = Some n -> p <> Some n) -> consistent (with_markers t c p).
Proof. intros []. by split. Qed.

(** Recomputed markers need nothing of the old ones. *)
Lemma consistent_reset t c p : consistent (with_markers t c p) -> consistent (reset_current_previous t).
Proof.
  intros Hc. rewrite reset_chooses. destruct (last_two (id <$> by_priority (jobs t))) as [a b] eqn:Hl.
  destruct (reset_markers (jobs t) a b (numbers_distinct _ Hc) Hl) as [Ha Hb Hd _ _].
  by apply (consistent_markers (with_markers t c p) a b Hc).
Qed.

Lemma ended_wake j : ended j -> ended (with_processes j (wake <$> processes j)).
Proof. intros He [Ha Hx]%He. split; [|done]. cbn. rewrite all_done_fmap; [done|]. intros q _. apply done_wake. Qed.

Lemma milder_wake j : milder j (with_processes j (wake <$> processes j)).
Proof. split_and!; [done|apply wake_keeps|apply ended_wake]. Qed.

Lemma milder_continue j : milder j (continue_job j).
Proof.
  unfold continue_job. cbv zeta. destruct (existsb _ _); [|apply milder_wake].
  destruct (milder_wake j) as (Hi & Hp & _). by split_and!.
Qed.

Lemma milder_resume j : milder j (resume j).
Proof. unfold resume. split_and!; [done|apply (wake_keeps (with_state j Running))|done]. Qed.

Lemma milder_suspend p s j : milder j (suspend p s j).
Proof. split_and!; [done| |done]. unfold pids, suspend. cbn. by apply replace_pids. Qed.

Lemma milder_bury p st j : milder j (fst (bury p st j)).
Proof.
  split_and!; [apply bury_id|apply bury_pids|]. unfold bury. cbv zeta. cbn [state processes with_processes].
  destruct (negb _ && all_done _) eqn:Hc.
  - apply andb_true_iff in Hc as [_ Hc]. intros _ _. cbn. split; [exact Hc|by eexists].
  - intros He Hs. cbn in Hs |- *. destruct (He Hs) as [Ha Hx]. split; [|done]. rewrite all_done_buried.
    apply forallb_forall. intros q Hq. apply list_elem_of_In in Hq. apply orb_true_iff. right.
    apply bool_decide_eq_true. by apply (all_done_elem _ _ Ha).
Qed.

Lemma consistent_add t g l cmd a jc ps : consistent t -> consistent (fst (add t g l cmd a jc ps)).
Proof.
  intros [H1 H2 H3 H4 H5 H6 H7]. destruct (allocate_lowest t) as (Hpos & Hni & _). unfold add. cbn [fst].
  set (n := allocate_id t) in *. set (job := mkJob n _ _ _ _ _ _ _ _).
  assert (Hel : forall j, j ∈ jobs t ++ [job] <-> j ∈ jobs t \/ j = job)
    by (intros j; rewrite elem_of_app, list_elem_of_singleton; done).
  split; cbn [jobs current previous pid_to_job]; rewrite ?fmap_app.
  - apply NoDup_app. split_and!; [done| |apply NoDup_singleton]. intros k Hk ->%list_elem_of_singleton. by apply Hni.
  - intros j [Hj| ->]%Hel; [by apply H2|done].
  - intros p m. rewrite insert_pids. unfold owner. setoid_rewrite Hel. case_decide.
    + intros [= <-]. exists job. auto.
    + intros (j & Hj & Hn & Hp)%H3. exists j. auto.
  - intros j [Hj| ->]%Hel; [by apply H4|done].
  - intros k [= <-]. apply elem_of_app. right. by left.
  - intros k Hk. apply elem_of_app. left. by apply H5.
  - intros k [= <-] Hk. by apply Hni, H5.
Qed.

(** Jobs that leave take their pids out of the index; the markers are then
    recomputed. *)
Lemma consistent_drop t (gone kept : list Job) :
  consistent t -> (forall j, j ∈ jobs t -> j ∈ gone \/ j ∈ kept) -> (forall j, j ∈ kept -> j ∈ jobs t) ->
  NoDup (id <$> kept) -> consistent (reset_current_previous (foldl forget (with_jobs t kept) gone)).
Proof.
  intros [H1 H2 H3 H4 _ _ _] Hel Hsub Hnd. apply (consistent_reset _ None None).
  destruct (forget_all gone (with_jobs t kept)) as (Hj & _ & Hp & _). cbv zeta in *.
  split; cbn [jobs pid_to_job current previous with_markers]; rewrite ?Hj; cbn [jobs with_jobs]; auto; try done.
  intros p n [(j & Hjt & Hn & Hin)%H3 Hno]%Hp. exists j. split; [|done].
  by destruct (Hel j Hjt) as [Hg|Hk]; [destruct (Hno j Hg)|].
Qed.

Lemma consistent_remove t n : consistent t -> consistent (remove t n).
Proof.
  intros Hc. pose proof (numbers_distinct t Hc) as Hnd. unfold remove. destruct (get t n) as [j|] eqn:Hg.
  2: { apply (consistent_reset _ (current t) (previous t)). by apply (consistent_same t). }
  apply get_Some in Hg as [Hj <-]. rewrite remove_first_filter by done.
  apply (consistent_drop t [j]); [done| | |by apply filter_fmap_NoDup].
  - intros k Hk. destruct (decide (id k = id j)) as [Hid|]; [left|right; by apply list_elem_of_filter].
    rewrite (same_job (jobs t) k j Hnd Hk Hj Hid). by left.
  - by intros k [_ ?]%list_elem_of_filter.
Qed.

Lemma consistent_purge t : consistent t -> consistent (fst (purge_done t)).
Proof.
  intros Hc. pose proof (numbers_distinct t Hc) as Hnd. unfold purge_done. cbn [fst].
  destruct (filter (fun j => purgeable j = true) (jobs t)) as [|g gone] eqn:Hg; cbn [is_nil foldl].
  - rewrite filter_all; [by destruct t|]. intros j Hj. apply not_true_is_false. intros Hp.
    assert (j ∈ filter (fun j => purgeable j = true) (jobs t)) as Hin by by apply list_elem_of_filter.
    rewrite Hg in Hin. by apply elem_of_nil in Hin.
  - apply (consistent_drop t (g :: gone)); [done| | |by apply filter_fmap_NoDup].
    + intros j Hj. rewrite <- Hg, !list_elem_of_filter. destruct (purgeable j); auto.
    + by intros j [_ ?]%list_elem_of_filter.
Qed.

Lemma consistent_stopped t p s : consistent t -> consistent (mark_stopped t p s).
Proof.
  intros Hc. unfold mark_stopped. destruct (pid_to_job t !! p) as [n|] eqn:Hp; [|done].
  assert (Hu : consistent (update t n (suspend p s))) by (apply consistent_update_first; [apply milder_suspend|done]).
  destruct (bool_decide _) eqn:Hcur; [done|]. apply bool_decide_eq_false in Hcur.
  apply consistent_markers; [done| |apply Hu|by intros ? [= <-]].
  intros ? [= <-]. assert (Hpu : pid_to_job (update t n (suspend p s)) !! p = Some n) by done.
  apply (index_sound _ Hu) in Hpu as (j & Hj & <- & _). by apply list_elem_of_fmap_2.
Qed.

Lemma consistent_dead t p st : consistent t -> consistent (mark_dead t p st).
Proof.
  intros Hc. unfold mark_dead. destruct (pid_to_job t !! p) as [n|] eqn:Hp; [|done]. cbv zeta.
  set (t1 := update t n _). assert (H1 : consistent t1) by (apply consistent_update_first; [apply milder_bury|done]).
  clearbody t1. set (b := match get t n with Some job => _ | None => false end). clearbody b.
  set (t2 := if b then _ else t1). assert (H2 : consistent t2) by (unfold t2; destruct b; [by apply (consistent_same t1)|done]).
  clearbody t2. destruct (b && _); [|done]. apply (consistent_reset _ (current t2) (previous t2)).
  by apply (consistent_same t2).
Qed.

Lemma consistent_waited t p : consistent t -> consistent (mark_pid_waited t p).
Proof.
  intros Hc. unfold mark_pid_waited. cbv zeta. set (t' := with_waited t _).
  assert (Hc' : consistent t') by by apply (consistent_same t). destruct (job_of_pid t' p); [|done].
  match goal with |- consistent (if ?b then _ else _) => destruct b end; [|done].
  by apply consistent_update_first.
Qed.

Lemma operation_consistent t t' : operation t t' -> consistent t -> consistent t'.
Proof.
  intros [] Hc; auto using consistent_add, consistent_remove, consistent_dead, consistent_stopped, consistent_waited, consistent_purge.
  - unfold mark_running. destruct (pid_to_job t0 !! p); [|done]. by apply consistent_update_first; [apply milder_continue|].
  - by apply consistent_update_first; [apply milder_continue|].
  - apply consistent_fmap; [|done]. intros j. by destruct (pending j).
  - by apply consistent_update_first; [apply milder_resume|].
  - apply consistent_fmap; [|done]. intros j. destruct (pgid j =? g); [apply milder_resume|apply milder_refl].
  - by apply consistent_update_first.
Qed.

Lemma consistent_new : consistent JobTable_new.
Proof. split; cbn; try done; [constructor|by intros j ?%elem_of_nil|by intros j ?%elem_of_nil]. Qed.

(** ** Disciplined steps

    The full invariant needs more than the operations check.  [step_add],
    [step_dead] and [step_stopped] assume what a system without reuse of pids
    provides: the pids of a new job are those of no process in the table, and
    only a process not known to be dead is reported dead or stopped; a new job
    has a process that is not dead; fewer than 2^64 jobs complete.  [step_bg]
    and [step_fg] assume that the process group resumed has only jobs that have
    not completed: nothing in bg.rs or fg.rs makes sure of that, and
    [bg_revives_completed_job] below is a run without it that breaks the
    invariant. *)
Inductive step : JobTable -> JobTable -> Prop :=
| step_add t g l cmd a jc ps :
    (forall q, q ∈ ps -> pid_to_job t !! pid q = None) -> all_done ps = false ->
    step t (fst (add t g l cmd a jc ps))
| step_remove t n : step t (remove t n)
| step_dead t p st : alive t p -> next_completion_order t + 1 < 2 ^ 64 -> step t (mark_dead t p st)
| step_stopped t p s : alive t p -> step t (mark_stopped t p s)
| step_running t p : step t (mark_running t p)
| step_job_running t n : step t (mark_job_running t n)
| step_waited t p : step t (mark_pid_waited t p)
| step_notify t : step t (fst (pending_notifications t))
| step_purge t : step t (fst (purge_done t))
| step_bg t g : (forall j, j ∈ jobs t -> pgid j = g -> live j) -> step t (bg_resume t g)
| step_fg t g : (forall j, j ∈ jobs t -> pgid j = g -> live j) -> step t (fg_resume t g)
| step_disown t n : step t (disown_nohup t n).

Lemma wf_new : wf JobTable_new.
Proof.
  split; split; cbn; try done; try (intros ? H1; by apply elem_of_nil in H1).
  - apply NoDup_nil_2.
  - intros p n. split; [done|]. intros (j & Hj & _). by apply elem_of_nil in Hj.
  - intros n. split; [by intros [r Hr]|]. intros (j & Hj & _). by apply elem_of_nil in Hj.
Qed.

Lemma wf_waited t p : wf t -> wf (mark_pid_waited t p).
Proof.
  intros Hwf. unfold mark_pid_waited. set (t' := with_waited t _).
  assert (Hwf' : wf t') by (destruct Hwf as [[] Hm]; split; [by split|exact Hm]).
  destruct (job_of_pid t' p); [|done]. cbv zeta. match goal with |- wf (if ?b then _ else _) => destruct b end; [|done].
  apply wf_update; [|done]. intros j _ _. apply keeps_flags.
Qed.

Lemma step_wf t t' : step t t' -> wf t -> wf t'.
Proof.
  intros Hstep Hwf. destruct Hstep.
  - by apply wf_add.
  - by apply wf_remove.
  - by apply wf_dead.
  - by apply wf_stopped.
  - unfold mark_running. destruct (pid_to_job t !! p); [by apply wf_job_running|done].
  - by apply wf_job_running.
  - by apply wf_waited.
  - apply wf_related; [|done]. apply keeps_fmap. intros j _.
    destruct (pending j); [apply keeps_notified|apply keeps_refl].
  - by apply wf_purge.
  - apply wf_related; [|done]. apply keeps_update_first. intros j Hj Hg%Z.eqb_eq. by apply resume_keeps, H0.
  - apply wf_related; [|done]. apply keeps_fmap. intros j Hj.
    destruct (Z.eqb_spec (pgid j) g); [by apply resume_keeps, H0|apply keeps_refl].
  - apply wf_update; [|done]. intros j _ _. apply keeps_flags.
Qed.
End Invariant.

(** * Theorems *)

(** C9: The job table stays consistent.  First part, for every sequence of
    operations with any arguments: job numbers are distinct and positive; the
    pid index leads from a pid only to a job of the table that has it; a job
    is done only when all its processes are, and then has a status; the
    current and previous markers name two different jobs of the table.
    Second part, for the sequences of [step], which resume ([bg], [fg]) only
    process groups without a completed job, add jobs with fresh pids and at
    least one process that is not dead, report deaths and stops only of
    processes not known to be dead, and complete fewer than 2^64 jobs, none of
    which the operations check: the pid index maps exactly the processes of
    the jobs, each to its own job; a job is done exactly when all its
    processes are, with the status of its last process; exactly the done jobs
    have a completion rank and the ranks are distinct; and the current job is
    one that has not completed as long as there is such a job. *)
Theorem reachable_tables_wf `{WaitStatus} (t : JobTable) :
  (rtc operation JobTable_new t -> consistent t) /\ (rtc step JobTable_new t -> wf t).
Proof.
  split; intros Hr.
  - assert (Hc := consistent_new). revert Hc. induction Hr as [t|t t1 t2 Hs _ IH]; [done|].
    intros Hc. by apply IH, (operation_consistent t).
  - assert (Hwf := wf_new). revert Hwf. induction Hr as [t|t t1 t2 Hs _ IH]; [done|].
    intros Hwf. by apply IH, (step_wf t).
Qed.

(** A pipeline of two processes and a second job; one process stops, then all
    end. *)
Definition sample_job : JobTable :=
  fst (add (add_job JobTable_new 501) 502 502 (bs "a | b") true true [test_process 502; test_process 503]).

Lemma sample_alive p : alive sample_job p.
Proof.
  assert (Hall : Forall (fun j => Forall (fun q => pstate q = Running) (processes j)) (jobs sample_job))
    by (vm_compute; repeat constructor).
  intros j q Hj Hq _. rewrite Forall_forall in Hall. specialize (Hall j Hj). rewrite Forall_forall in Hall.
  by rewrite (Hall q Hq).
Qed.

(** No process of the table has the given pid. *)
Lemma sample_fresh : forall q, q ∈ [test_process 502; test_process 503] -> pid_to_job (add_job JobTable_new 501) !! pid q = None.
Proof.
  intros q Hq. rewrite !elem_of_cons in Hq. destruct Hq as [->|[->|Hq]]; [done|done|by apply elem_of_nil in Hq].
Qed.

(** [bg] on the process group of a job that is done. *)
Lemma reachable_tables_wf_witness :
  consistent (bg_resume (mark_dead sample_job 501 256) 501) /\ wf (remove (mark_stopped sample_job 502 20) 1).
Proof.
  split.
  - apply reachable_tables_wf. do 2 (eapply rtc_l; [apply op_add|]).
    eapply rtc_l; [apply op_dead|]. apply rtc_once, op_bg.
  - apply reachable_tables_wf. eapply rtc_l; [apply step_add with (ps := [test_process 501])|].
    { intros q Hq. apply lookup_empty. }
    { done. }
    eapply rtc_l; [apply step_add with (ps := [test_process 502; test_process 503])|].
    { exact sample_fresh. }
    { done. }
    eapply rtc_l; [apply (step_stopped _ 502 20), sample_alive|].
    apply rtc_once, step_remove.
Defined.

Lemma decode_status_range `{WaitStatusRanges} st :
  WIFEXITED st || WIFSIGNALED st = true -> 0 <= decode_status st <= 255.
Proof.
  unfold decode_status. destruct (WIFEXITED st) eqn:He; [intros _; by apply exit_status_byte|].
  destruct (WIFSIGNALED st) eqn:Hs; [|done]. intros _. pose proof (term_signal_range st Hs). lia.
Qed.

Lemma last_buried p st ps q :
  last ps = Some q -> pid q = p ->
  last_status ((fun q => if pid q =? p then mkProcess (pid q) st Done (command q) else q) <$> ps) = st.
Proof. intros Hl Hq. unfold last_status. rewrite fmap_last, Hl. cbn. by rewrite Hq, Z.eqb_refl. Qed.

(** The job and the other jobs after [mark_dead]; resetting the markers does
    not touch them. *)
Lemma mark_dead_jobs `{WaitStatus} t p st n :
  pid_to_job t !! p = Some n ->
  jobs (mark_dead t p st) = jobs (update t n (fun job => fst (bury p st job))) /\
  completion_order (mark_dead t p st) =
    (if match get t n with Some job => snd (bury p st job) | None => false end
     then <[n := next_completion_order t]> (completion_order t) else completion_order t).
Proof.
  intros Hp. unfold mark_dead. rewrite Hp.
  destruct (match get t n with Some job => snd (bury p st job) | None => false end); cbn [andb]; [|done].
  destruct (_ || _); [|done]. by rewrite reset_chooses.
Qed.

(** C28: In a consistent table, the death of a process that is not known to be dead completes
    its job exactly when every other process of the job has ended: the job is then done, its
    exit status is that of its last process, a number of 0..255 when the last process is the one
    that died, and it gets the next completion rank; otherwise its state, its status and the
    ranks stay. No other job changes. Of the macros that decode a wait status it is assumed that
    exit statuses are bytes and signals below 128. *)
Theorem process_death `{WaitStatusRanges} (t : JobTable) (p st : Z) (j : Job) :
  wf t -> alive t p -> j ∈ jobs t -> p ∈ pids j ->
  exists j', get (mark_dead t p st) (id j) = Some j' /\ pids j' = pids j /\
    (forall k, k ∈ jobs t -> id k <> id j -> get (mark_dead t p st) (id k) = Some k) /\
    if others_done p (processes j) then
      state j' = Done /\ exit_status j' = Some (decode_status (last_status (processes j'))) /\
      completion_order (mark_dead t p st) !! id j = Some (next_completion_order t) /\
      (forall q, last (processes j) = Some q -> pid q = p -> WIFEXITED st || WIFSIGNALED st = true ->
         exists s, exit_status j' = Some s /\ s = decode_status st /\ 0 <= s <= 255)
    else state j' = state j /\ exit_status j' = exit_status j /\
         completion_order (mark_dead t p st) = completion_order t.
Proof.
  intros Hwf Ha Hj Hp. assert (Hmap : pid_to_job t !! p = Some (id j)) by (apply (proj1 Hwf); by exists j).
  destruct (mark_dead_jobs t p st (id j) Hmap) as [Hjobs Hord]. pose proof (ids_distinct t (proj1 Hwf)) as Hnd.
  rewrite (get_elem t j Hnd Hj) in Hord.
  assert (Hs : state j <> Done)
    by (rewrite (done_iff t (proj1 Hwf) j Hj), (alive_not_done t p j Hwf Ha Hj Hp); done).
  assert (Hnd' : NoDup (id <$> jobs (mark_dead t p st))).
  { rewrite Hjobs. unfold update. cbn [jobs with_jobs]. rewrite update_first_map by done.
    rewrite <- list_fmap_compose. erewrite list_fmap_ext; [exact Hnd|]. intros _ k _. cbn.
    destruct (_ =? _); [apply bury_id|done]. }
  exists (fst (bury p st j)). split_and!.
  - rewrite <- (bury_id p st j). apply get_elem; [done|]. rewrite Hjobs.
    by apply (update_elem t (id j) (fun job => fst (bury p st job)) j).
  - apply bury_pids.
  - intros k Hk Hne. apply get_elem; [done|]. rewrite Hjobs. unfold update. cbn [jobs with_jobs].
    rewrite update_first_map by done. apply list_elem_of_fmap. exists k.
    by rewrite (proj2 (Z.eqb_neq _ _) Hne).
  - rewrite Hord. unfold bury. cbn [state processes with_processes]. rewrite all_done_buried.
    unfold state_eqb. rewrite bool_decide_eq_false_2 by done. cbn [negb andb].
    destruct (others_done p (processes j)) eqn:Hod; cbn; [|done].
    split_and!; [done|done|apply lookup_insert_eq|].
    intros q Hl Hq Hst. eexists. split; [done|]. rewrite (last_buried p st _ q Hl Hq).
    split; [done|by apply decode_status_range].
Qed.

Lemma process_death_witness :
  exists j', get (mark_dead sample_job 501 256) 1 = Some j' /\ state j' = Done /\ exit_status j' = Some 1.
Proof.
  assert (Hwf : wf sample_job).
  { apply wf_add; [apply wf_add; [apply wf_new|by intros q _|done]|exact sample_fresh|done]. }
  destruct (process_death sample_job 501 256 (mkJob 1 501 501 Running 66 [test_process 501] (bs "job") false None))
    as (j' & Hget & _ & _ & Hs & He & _); [done|apply sample_alive|by left|by left|].
  exists j'. split; [done|]. split; [done|]. vm_compute in Hget. injection Hget as <-. reflexivity.
Defined.

(** recomputing the markers (after a removal, a purge or the completion of
    a marked job) sorts the jobs by priority and takes the last two: the
    markers are the last two of the running jobs followed by the stopped ones,
    or, when no job is left to run, of the completed jobs not yet reported.
    So when jobs are stopped, the one that entered the table last is the
    current job. *)
Theorem marker_choice (t : JobTable) :
  markers (reset_current_previous t) = last_two (id <$> by_priority (jobs t)) /\
  jobs (reset_current_previous t) = jobs t /\
  forall j, last (filter (fun j => state j = Stopped) (jobs t)) = Some j ->
    current (reset_current_previous t) = Some (id j).
Proof.
  rewrite reset_chooses. split; [by destruct (last_two _)|]. split; [done|]. intros j Hl.
  cbn [current with_markers]. assert (j ∈ filter (fun j => state j = Stopped) (jobs t)) as Hin.
  { apply last_Some_elem_of in Hl. done. }
  apply list_elem_of_filter in Hin as [Hs Hj].
  assert (live j) as Hlive by (unfold live; congruence).
  unfold by_priority. destruct (filter live (jobs t)) as [|x l] eqn:Hf.
  { assert (j ∈ filter live (jobs t)) as Hjl by by apply list_elem_of_filter.
    rewrite Hf in Hjl. by apply elem_of_nil in Hjl. }
  destruct (filter (fun j => state j = Stopped) (jobs t)) as [|y s _] using rev_ind; [done|].
  rewrite last_snoc in Hl. injection Hl as ->. rewrite app_assoc, fmap_app.
  unfold last_two. rewrite rev_app_distr. cbn. by destruct (rev _).
Qed.

(** The jobs a specification can mean. *)
Definition matches (t : JobTable) (spec : JobSpec) (j : Job) : Prop :=
  match spec with
  | Current => current t = Some (id j)
  | Previous => previous t = Some (id j)
  | Id n => id j = n
  | PrefixString s => starts_with s (command_line j) = true
  | SubstringString s => contains (command_line j) s = true
  | Pid p => p ∈ pids j
  end.

(** What looking up the jobs that satisfy [P] must answer. *)
Definition answers (js : list Job) (P : Job -> Prop) (r : Res JobLookupErr Z) : Prop :=
  match r with
  | Ok n => exists j, j ∈ js /\ P j /\ id j = n /\ forall k, k ∈ js -> P k -> k = j
  | Err NoSuchJob => forall j, j ∈ js -> ~ P j
  | Err Ambiguous => exists j k, j ∈ js /\ k ∈ js /\ P j /\ P k /\ id j <> id k
  | Fuel => False
  end.

Lemma one_hit_answers (P : Job -> Prop) `{forall j, Decision (P j)} js :
  NoDup (id <$> js) -> answers js P (one_hit (id <$> filter P js)).
Proof.
  intros Hnd. assert (Hel : forall j, j ∈ filter P js <-> P j /\ j ∈ js) by (intros; apply list_elem_of_filter).
  pose proof (filter_fmap_NoDup P js Hnd) as Hndf.
  destruct (filter P js) as [|j [|k l]]; cbn.
  - intros j Hj HP. assert (j ∈ []) as Hn by by apply Hel. by apply elem_of_nil in Hn.
  - exists j. destruct (proj1 (Hel j)) as [HP Hj]; [by left|]. split_and!; try done.
    intros k Hk HPk. assert (k ∈ [j]) as Hin by by apply Hel. by apply list_elem_of_singleton in Hin.
  - exists j, k. destruct (proj1 (Hel j)) as [HP Hj]; [by left|]. destruct (proj1 (Hel k)) as [HPk Hk]; [by right; left|].
    split_and!; try done. intros Heq. apply NoDup_cons in Hndf as [Hni _]. apply Hni. rewrite Heq. by left.
Qed.

(** A number that names at most one job. *)
Lemma named_answers js (P : Job -> Prop) (o : option Z) :
  NoDup (id <$> js) -> (forall n, o = Some n -> n ∈ id <$> js) -> (forall j, j ∈ js -> (P j <-> o = Some (id j))) ->
  answers js P (ok_or o).
Proof.
  intros Hnd Hin HP. destruct o as [n|]; cbn.
  - specialize (Hin n eq_refl). apply list_elem_of_fmap in Hin as (j & -> & Hj). exists j. split_and!; try done; [by apply HP|].
    intros k Hk HPk. apply HP in HPk; [|done]. injection HPk as Heq. symmetry. by apply (same_job js).
  - intros j Hj HPj. by apply HP in HPj.
Qed.

(** C39: Looking up a job specification in a consistent table is right on every branch: a job is
    returned exactly when it is the only one the specification can mean, "no such job" when
    there is none, and "ambiguous" when there are several (also for [%string] and [%?substring],
    for which the type's documentation promises the most recent one). *)
Theorem lookup_correct `{WaitStatus} (t : JobTable) (spec : JobSpec) :
  wf t -> answers (jobs t) (matches t spec) (lookup t spec).
Proof.
  intros [Hc Hm]. pose proof (ids_distinct t Hc) as Hnd. destruct spec as [| |n|s|s|p]; cbn [lookup matches].
  - apply named_answers; [done|apply Hm|done].
  - apply named_answers; [done|apply Hm|done].
  - destruct (get t n) as [j|] eqn:Hg.
    + apply get_Some in Hg as [Hj Hn]. exists j. split_and!; try done.
      intros k Hk Hkn. apply (same_job (jobs t)); congruence.
    + intros j Hj Hn. pose proof (find_job_None _ _ Hg j Hj) as Hf. simpl in Hf. by rewrite Hn, Z.eqb_refl in Hf.
  - by apply one_hit_answers.
  - by apply one_hit_answers.
  - apply named_answers; [done| |].
    + intros n (j & Hj & <- & _)%(pids_owned t Hc). by apply list_elem_of_fmap_2.
    + intros j Hj. rewrite (pids_owned t Hc). split; [intros Hp; by exists j|].
      intros (k & Hk & Hid & Hp). by rewrite <- (same_job _ k j Hnd Hk Hj Hid).
Qed.

Lemma lookup_correct_witness :
  answers (jobs sample_job) (matches sample_job (Pid 503)) (Ok 2) /\
  answers (jobs sample_job) (matches sample_job (PrefixString (bs "z"))) (Err NoSuchJob).
Proof.
  assert (Hwf : wf sample_job)
    by (apply wf_add; [apply wf_add; [apply wf_new|by intros q _|done]|exact sample_fresh|done]).
  split; [exact (lookup_correct sample_job (Pid 503) Hwf)|exact (lookup_correct sample_job (PrefixString (bs "z")) Hwf)].
Defined.

(** a job that is killed while stopped ends unreported: its stop was
    reported, [mark_dead] leaves the notified flag, so the next report is
    empty although the job went from stopped to done, and the purge after it
    drops the job. *)
Theorem killed_while_stopped_is_not_reported :
  let t := fst (pending_notifications (mark_stopped (add_job JobTable_new 601) 601 20)) in
  let t' := mark_dead t 601 9 in
  (state <$> get t 1) = Some Stopped /\ (state <$> get t' 1) = Some Done /\ (exit_status <$> get t' 1) = Some (Some 137) /\
  snd (pending_notifications t') = [] /\ snd (purge_done t') = [1].
Proof. vm_compute. by repeat split. Qed.

(** [bg] of a job that has completed but was not yet reported sets it
    running again though no process is left: the job is then never reported,
    never purged and counts as running for good. *)
Theorem bg_revives_completed_job :
  let t := mark_dead (add_job JobTable_new 701) 701 0 in
  (state <$> get t 1) = Some Done /\
  exists t', bg_one t Current = Some (t', false) /\
    (state <$> get t' 1) = Some Running /\ (all_done ∘ processes <$> get t' 1) = Some true /\
    any_running t' = true /\ snd (pending_notifications t') = [] /\ snd (purge_done t') = [].
Proof. split; [reflexivity|]. eexists. split; [reflexivity|]. by repeat split. Qed.
