(* ===== verification/Utf8.v ===== *)
(** UTF-8 as [core::str] and [core::char] define it: the sequences that are
    valid, where and how validation fails, and the code points of text.  A Rust
    [str] seen through [chars()] is the list of its code points. *)
From S2P Require Import Prelude.

(** * UTF-8 as [core::str] defines it *)

Definition is_cont (b : Z) : bool := in_range 128 191 b.

(** The width of the valid UTF-8 sequence a string starts with, if it starts
    with one. *)
Definition utf8_seq (s : bytes) : option nat :=
  match s with
  | [] => None
  | b :: r =>
      if in_range 0 127 b then Some 1%nat
      else
        match r with
        | c :: r =>
            if in_range 194 223 b && is_cont c then Some 2%nat
            else
              match r with
              | d :: r =>
                  if ((b =? 224) && in_range 160 191 c
                      || (in_range 225 236 b || in_range 238 239 b) && is_cont c
                      || (b =? 237) && in_range 128 159 c) && is_cont d
                  then Some 3%nat
                  else
                    match r with
                    | e :: _ =>
                        if ((b =? 240) && in_range 144 191 c || in_range 241 243 b && is_cont c
                            || (b =? 244) && in_range 128 143 c) && is_cont d && is_cont e
                        then Some 4%nat
                        else None
                    | [] => None
                    end
              | [] => None
              end
        | [] => None
        end
  end.

(** [str::from_utf8(s).chars()], each character as its bytes; [None] when [s]
    is not valid. *)
Fixpoint utf8_chars (fuel : nat) (s : bytes) : option (list bytes) :=
  match s with
  | [] => Some []
  | _ =>
      match fuel, utf8_seq s with
      | S fuel, Some n => cons (take n s) <$> utf8_chars fuel (drop n s)
      | _, _ => None
      end
  end.

Definition chars (s : bytes) : option (list bytes) := utf8_chars (length s) s.

(** The code point of one sequence. *)
Definition utf8_decode (s : bytes) : Z :=
  match s with
  | [b] => b
  | [b; c] => (b - 192) * 64 + (c - 128)
  | [b; c; d] => ((b - 224) * 64 + (c - 128)) * 64 + (d - 128)
  | [b; c; d; e] => (((b - 240) * 64 + (c - 128)) * 64 + (d - 128)) * 64 + (e - 128)
  | _ => 0
  end.

(** [char::from_u32] succeeds on the Unicode scalar values. *)
Definition is_scalar (cp : Z) : bool :=
  (in_range 0 1114111 cp) && negb (in_range 55296 57343 cp).

Definition from_u32 (cp : Z) : option Z := if is_scalar cp then Some cp else None.

(** [char::encode_utf8]. *)
Definition encode_utf8 (cp : Z) : bytes :=
  if cp <? 128 then [cp]
  else if cp <? 2048 then [192 + cp / 64; 128 + cp mod 64]
  else if cp <? 65536 then [224 + cp / 4096; 128 + cp / 64 mod 64; 128 + cp mod 64]
  else [240 + cp / 262144; 128 + cp / 4096 mod 64; 128 + cp / 64 mod 64; 128 + cp mod 64].

(** [Utf8Error]. *)
Record Utf8Error := mkUtf8Error {
  valid_up_to : nat;
  error_len : option nat;
}.

(** The [error_len] of text that starts with no valid sequence: [None] when the
    text ends inside one, else the length of the longest proper prefix of a
    sequence. *)
Definition utf8_error_len (s : bytes) : option nat :=
  match s with
  | b :: r =>
      if in_range 194 223 b then match r with [] => None | _ => Some 1%nat end
      else if in_range 224 239 b then
        match r with
        | [] => None
        | c :: r =>
            if (b =? 224) && in_range 160 191 c
               || (in_range 225 236 b || in_range 238 239 b) && is_cont c
               || (b =? 237) && in_range 128 159 c
            then match r with [] => None | _ => Some 2%nat end
            else Some 1%nat
        end
      else if in_range 240 244 b then
        match r with
        | [] => None
        | c :: r =>
            if (b =? 240) && in_range 144 191 c || in_range 241 243 b && is_cont c
               || (b =? 244) && in_range 128 143 c
            then match r with
                 | [] => None
                 | d :: r =>
                     if is_cont d then match r with [] => None | _ => Some 3%nat end
                     else Some 2%nat
                 end
            else Some 1%nat
        end
      else Some 1%nat
  | [] => None
  end.

(** The code points of the longest valid prefix, its length, and what follows. *)
Fixpoint utf8_scan (fuel : nat) (s : bytes) : list Z * nat * bytes :=
  match fuel, utf8_seq s with
  | S fuel, Some n =>
      let '(cps, len, rest) := utf8_scan fuel (drop n s) in
      (utf8_decode (take n s) :: cps, (n + len)%nat, rest)
  | _, _ => ([], 0%nat, s)
  end.

(** [std::str::from_utf8], the text as its code points. *)
Definition from_utf8 (s : bytes) : list Z + Utf8Error :=
  let '(cps, len, rest) := utf8_scan (length s) s in
  match rest with
  | [] => inl cps
  | _ => inr (mkUtf8Error len (utf8_error_len rest))
  end.

(** * Lemmas *)

Lemma utf8_chars_concat fuel s cs : utf8_chars fuel s = Some cs -> concat cs = s.
Proof.
  revert s cs. induction fuel as [|fuel IH]; intros [|b s] cs; cbn [utf8_chars]; try (by intros [= <-]).
  destruct (utf8_seq (b :: s)) as [n|]; [|done].
  destruct (utf8_chars fuel (drop n (b :: s))) as [cs'|] eqn:Hc; [|done]. simpl fmap. intros [= <-].
  cbn [concat]. rewrite (IH _ _ Hc). apply take_drop.
Qed.

Ltac byte_tests := unfold is_cont, in_range in *.

Ltac solve_shape :=
  repeat eexists; byte_tests; unfold is_scalar, in_range; cbn [utf8_decode] in *; lia.

(** The four shapes of a valid sequence, with the range of its code point. *)
Lemma utf8_seq_inv s n : utf8_seq s = Some n ->
  (exists b r, s = b :: r /\ n = 1%nat /\ 0 <= b < 128)
  \/ (exists b c r, s = b :: c :: r /\ n = 2%nat /\ is_cont c = true /\ 192 <= b < 224
      /\ 128 <= utf8_decode [b; c] < 2048)
  \/ (exists b c d r, s = b :: c :: d :: r /\ n = 3%nat
      /\ is_cont c = true /\ is_cont d = true /\ 224 <= b < 240
      /\ 2048 <= utf8_decode [b; c; d] < 65536 /\ is_scalar (utf8_decode [b; c; d]) = true)
  \/ (exists b c d e r, s = b :: c :: d :: e :: r /\ n = 4%nat
      /\ is_cont c = true /\ is_cont d = true /\ is_cont e = true /\ 240 <= b < 248
      /\ 65536 <= utf8_decode [b; c; d; e] < 1114112).
Proof.
  unfold utf8_seq. destruct s as [|b [|c [|d [|e r]]]]; try done;
    intros H; repeat case_match; simplify_eq;
    first [left; solve_shape | right; left; solve_shape | right; right; left; solve_shape
          | right; right; right; solve_shape].
Qed.

Lemma utf8_seq_bounds s n : utf8_seq s = Some n ->
  (1 <= n <= 4)%nat /\ (n <= length s)%nat /\ Forall (fun b => is_cont b = true) (tail (take n s)).
Proof.
  intros [(b&r&->&->&?)|[(b&c&r&->&->&?&?)|[(b&c&d&r&->&->&?&?&?)|(b&c&d&e&r&->&->&?&?&?&?)]]]%utf8_seq_inv;
    cbn; repeat split; try lia; repeat constructor; done.
Qed.

Lemma utf8_seq_decode s n : utf8_seq s = Some n ->
  is_scalar (utf8_decode (take n s)) = true /\ encode_utf8 (utf8_decode (take n s)) = take n s.
Proof.
  intros [(b&r&->&->&?)|[(b&c&r&->&->&?&?&?)|[(b&c&d&r&->&->&?&?&?&?&?)|(b&c&d&e&r&->&->&?&?&?&?&?)]]]%utf8_seq_inv;
    cbn [take]; rewrite take_0; split; try done; byte_tests; unfold is_scalar, in_range, encode_utf8 in *;
    cbn [utf8_decode] in *; try lia;
    split_ifs; to_prop; try lia; repeat f_equal; Z.to_euclidean_division_equations; lia.
Qed.

Lemma utf8_seq_encode cp r : is_scalar cp = true ->
  utf8_seq (encode_utf8 cp ++ r) = Some (length (encode_utf8 cp)).
Proof.
  unfold is_scalar, encode_utf8, in_range. intros H.
  split_ifs; cbn [app utf8_seq length]; byte_tests; to_prop;
    repeat match goal with
    | |- (if ?b then _ else _) = _ =>
        let E := fresh in destruct b eqn:E; try done; try (exfalso; Z.to_euclidean_division_equations; lia)
    end.
Qed.

Lemma utf8_decode_encode cp : is_scalar cp = true -> utf8_decode (encode_utf8 cp) = cp.
Proof.
  unfold is_scalar, encode_utf8, in_range. intros H. split_ifs; to_prop; cbn [utf8_decode];
    try lia; Z.to_euclidean_division_equations; lia.
Qed.

(** Where no sequence starts, the bytes an error covers are one lead or stray
    byte and continuation bytes. *)
Lemma utf8_error_bounds s : s <> [] -> utf8_seq s = None ->
  let k := default (length s) (utf8_error_len s) in
  (1 <= k <= length s)%nat /\ Forall (fun b => is_cont b = true) (tail (take k s)).
Proof.
  unfold utf8_error_len. destruct s as [|b [|c [|d [|e r]]]]; [done|..]; intros _ Hs;
    repeat case_match; cbn; (split; [lia|]); repeat constructor; try done;
    unfold utf8_seq in Hs; repeat (case_match; try discriminate); byte_tests; try lia.
Qed.

(** Validation reads the text as the encodings of its code points, up to the
    first place where no sequence starts. *)
Lemma utf8_scan_spec fuel s cps len rest :
  (length s <= fuel)%nat -> utf8_scan fuel s = (cps, len, rest) ->
  Forall (fun cp => is_scalar cp = true) cps
  /\ s = concat (map encode_utf8 cps) ++ rest /\ len = length (concat (map encode_utf8 cps))
  /\ utf8_seq rest = None.
Proof.
  revert s cps len rest. induction fuel as [|fuel IH]; intros s cps len rest Hf.
  { destruct s; [|simpl in Hf; lia]. intros [= <- <- <-]. done. }
  cbn [utf8_scan]. destruct (utf8_seq s) as [n|] eqn:Hn; [|intros [= <- <- <-]; done].
  destruct (utf8_scan fuel (drop n s)) as [[cps' len'] rest'] eqn:E. intros [= <- <- <-].
  destruct (utf8_seq_bounds _ _ Hn) as (?&?&_). destruct (utf8_seq_decode _ _ Hn) as [Hs He].
  destruct (IH (drop n s) cps' len' rest' ltac:(rewrite length_drop; lia) E) as (HF & Hd & -> & Hr).
  split; [by constructor|]. cbn [map concat]. rewrite He.
  split; [by rewrite <- app_assoc, <- Hd, take_drop|]. rewrite length_app, length_take.
  split; [lia|done].
Qed.

(** Text is read back. *)
Lemma utf8_scan_encode cps r fuel :
  Forall (fun cp => is_scalar cp = true) cps -> (length cps <= fuel)%nat -> utf8_seq r = None ->
  utf8_scan fuel (concat (map encode_utf8 cps) ++ r) = (cps, length (concat (map encode_utf8 cps)), r).
Proof.
  intros HF Hf Hr. revert fuel Hf. induction HF as [|cp cps Hcp _ IH]; intros fuel Hf.
  { destruct fuel; cbn; [done|by rewrite Hr]. }
  destruct fuel as [|fuel]; [simpl in Hf; lia|]. cbn [map concat utf8_scan].
  rewrite <- app_assoc, (utf8_seq_encode _ _ Hcp), drop_app_length, take_app_length.
  rewrite (IH fuel ltac:(simpl in Hf; lia)), (utf8_decode_encode _ Hcp), length_app. done.
Qed.

(** * [String::from_utf8_lossy]: U+FFFD for each invalid piece *)

Fixpoint lossy (fuel : nat) (s : bytes) : bytes :=
  match fuel, s with
  | S fuel, _ :: _ =>
      match utf8_seq s with
      | Some n => take n s ++ lossy fuel (drop n s)
      | None => [239; 191; 189] ++ lossy fuel (drop (default (length s) (utf8_error_len s)) s)
      end
  | _, _ => []
  end.

Definition from_utf8_lossy (s : bytes) : bytes := lossy (length s) s.

(** The [chars()] of a [String] given by its bytes, which are valid. *)
Definition str_chars (s : bytes) : list Z := match from_utf8 s with inl cps => cps | inr _ => [] end.
