(* ===== verification/Buf.v ===== *)
(** The in-flight expansion buffer (crates/expander/src/buf.rs): bytes with
    the control bytes that carry quoting through word splitting and pathname
    expansion, and their removal. *)
From S2P Require Import Prelude.

Definition CTLESC : Z := 1.
Definition CTLRAW : Z := 0.
Definition CTLFIELD : Z := 30.
Definition CTLNUL : Z := 127.

Definition is_ctl (b : Z) : bool := (b =? CTLESC) || (b =? CTLFIELD) || (b =? CTLNUL).

Record ExpandBuf := mkBuf {
  buf_bytes : bytes;
  param_nulls : list nat;
  had_quoted_null : bool;
  has_dollar_at : bool;
  quoted_dollar_at : bool;
}.

Definition ExpandBuf_new : ExpandBuf := mkBuf [] [] false false false.

Definition push_raw (buf : ExpandBuf) (s : bytes) : ExpandBuf :=
  mkBuf (buf_bytes buf ++ s) (param_nulls buf) (had_quoted_null buf) (has_dollar_at buf)
    (quoted_dollar_at buf).

Definition push_literal (buf : ExpandBuf) (b : Z) : ExpandBuf :=
  let buf := if is_ctl b then push_raw (push_raw buf [CTLESC]) [CTLRAW] else buf in
  push_raw buf [b].

Definition push_quoted (buf : ExpandBuf) (b : Z) : ExpandBuf :=
  push_raw (push_raw buf [CTLESC]) [b].

Definition push_quoted_null (buf : ExpandBuf) : ExpandBuf :=
  mkBuf (buf_bytes buf ++ [CTLNUL]) (param_nulls buf) true (has_dollar_at buf) (quoted_dollar_at buf).

Definition push_quoted_param_null (buf : ExpandBuf) : ExpandBuf :=
  mkBuf (buf_bytes buf ++ [CTLNUL]) (param_nulls buf ++ [length (buf_bytes buf)]) true
    (has_dollar_at buf) (quoted_dollar_at buf).

Definition push_field_sep (buf : ExpandBuf) : ExpandBuf := push_raw buf [CTLFIELD].

Definition push_literal_slice (buf : ExpandBuf) (s : bytes) : ExpandBuf :=
  fold_left push_literal s buf.

Definition push_quoted_slice (buf : ExpandBuf) (s : bytes) : ExpandBuf :=
  fold_left push_quoted s buf.

Definition extend_from (buf other : ExpandBuf) : ExpandBuf :=
  let offset := length (buf_bytes buf) in
  mkBuf (buf_bytes buf ++ buf_bytes other)
    (param_nulls buf ++ map (fun pos => (offset + pos)%nat) (param_nulls other))
    (had_quoted_null buf || had_quoted_null other)
    (has_dollar_at buf || has_dollar_at other)
    (quoted_dollar_at buf || quoted_dollar_at other).

Fixpoint dequote_bytes (input : bytes) : bytes :=
  match input with
  | [] => []
  | b :: rest =>
      if b =? CTLESC then
        match rest with
        | [] => [b]
        | r :: rest1 =>
            match rest1 with
            | x :: rest2 => if r =? CTLRAW then x :: dequote_bytes rest2 else r :: dequote_bytes rest1
            | [] => [r]
            end
        end
      else if (b =? CTLNUL) || (b =? CTLFIELD) then dequote_bytes rest
      else b :: dequote_bytes rest
  end.

Definition is_quoted_null (input : bytes) : bool := bytes_eqb input [CTLNUL].

(** * What a buffer stands for

    The pieces a buffer is built from, their bytes and their content. *)

Inductive Piece :=
| Literal (b : Z)
| Quoted (b : Z)
| QuotedNull
| QuotedParamNull
| FieldSep.

Definition push_piece (buf : ExpandBuf) (p : Piece) : ExpandBuf :=
  match p with
  | Literal b => push_literal buf b
  | Quoted b => push_quoted buf b
  | QuotedNull => push_quoted_null buf
  | QuotedParamNull => push_quoted_param_null buf
  | FieldSep => push_field_sep buf
  end.

Definition piece_bytes (p : Piece) : bytes :=
  match p with
  | Literal b => if is_ctl b then [CTLESC; CTLRAW; b] else [b]
  | Quoted b => [CTLESC; b]
  | QuotedNull | QuotedParamNull => [CTLNUL]
  | FieldSep => [CTLFIELD]
  end.

Definition piece_content (p : Piece) : bytes :=
  match p with
  | Literal b | Quoted b => [b]
  | _ => []
  end.

(** A shell string has no NUL byte, so the byte after [CTLESC] is not [CTLRAW]. *)
Definition piece_ok (p : Piece) : bool :=
  match p with
  | Quoted b => negb (b =? CTLRAW)
  | _ => true
  end.

Lemma push_piece_bytes buf p : buf_bytes (push_piece buf p) = buf_bytes buf ++ piece_bytes p.
Proof.
  destruct p; simpl; try done.
  - unfold push_literal. destruct (is_ctl b); simpl; by rewrite <- ?app_assoc.
  - by rewrite <- app_assoc.
Qed.

Lemma push_pieces_bytes ps buf :
  buf_bytes (fold_left push_piece ps buf) = buf_bytes buf ++ concat (map piece_bytes ps).
Proof.
  revert buf. induction ps as [|p ps IH]; intros buf; simpl; [by rewrite app_nil_r|].
  by rewrite IH, push_piece_bytes, app_assoc.
Qed.

Lemma dequote_piece p rest :
  piece_ok p = true -> dequote_bytes (piece_bytes p ++ rest) = piece_content p ++ dequote_bytes rest.
Proof.
  destruct p as [b|b| | |]; simpl; try done.
  - intros _. destruct (is_ctl b) eqn:Hc; simpl; [done|].
    unfold is_ctl in Hc. apply orb_false_iff in Hc as [[H1 H2]%orb_false_iff H3].
    by rewrite H1, H2, H3.
  - intros Hb. apply negb_true_iff in Hb. rewrite Hb. by destruct rest.
Qed.

Lemma dequote_pieces ps rest :
  forallb piece_ok ps = true ->
  dequote_bytes (concat (map piece_bytes ps) ++ rest)
  = concat (map piece_content ps) ++ dequote_bytes rest.
Proof.
  induction ps as [|p ps IH]; simpl; [done|]. intros Hok. apply andb_true_iff in Hok as [Hp Hps].
  by rewrite <- !app_assoc, dequote_piece, IH.
Qed.

(** quote removal recovers the content of any buffer: literal and quoted
    bytes come back in order, control bytes of the text included, and the
    null and field markers vanish. *)
Theorem dequote_roundtrip (ps : list Piece) (Hok : forallb piece_ok ps = true) :
  dequote_bytes (buf_bytes (fold_left push_piece ps ExpandBuf_new)) = concat (map piece_content ps).
Proof.
  rewrite push_pieces_bytes. simpl. rewrite <- (app_nil_r (concat (map piece_bytes ps))).
  rewrite dequote_pieces by done. by rewrite app_nil_r.
Qed.

Lemma dequote_roundtrip_witness :
  dequote_bytes (buf_bytes (fold_left push_piece
    [Literal 97; QuotedNull; Quoted 36; Literal 1; FieldSep; Literal 127] ExpandBuf_new))
  = [97; 36; 1; 127].
Proof. apply (dequote_roundtrip [Literal 97; QuotedNull; Quoted 36; Literal 1; FieldSep; Literal 127]). reflexivity. Defined.
