(* ===== verification/Pattern.v ===== *)
(** Shell patterns (crates/expander/src/pattern.rs): the pattern parser, the
    matcher that collects every end of a match, and the operations of
    parameter expansion built on it (prefix and suffix removal, substitution,
    case modification, the leading-dot rule of pathname expansion).

    An index into the pattern is represented by the suffix of the pattern
    that starts there; positions in the text are kept as numbers. *)
From S2P Require Import Prelude Buf.

Record GlobOpts := mkOpts { nocaseglob : bool; extglob : bool; globasciiranges : bool }.

Definition default_opts : GlobOpts := mkOpts false false false.

Inductive NamedClass :=
| Alpha | Alnum | Digit | Lower | Upper | Space | Blank | Print | Punct
| Xdigit | Cntrl | Graph | Ascii | Word.

Inductive ExtKind := ExtQ | ExtStar | ExtPlus | ExtAt | ExtBang.

#[export] Instance named_class_eq_dec : EqDecision NamedClass.
Proof. solve_decision. Defined.
#[export] Instance ext_kind_eq_dec : EqDecision ExtKind.
Proof. solve_decision. Defined.

Inductive ClassItem :=
| Single (b : Z)
| Range (lo hi : Z)
| Named (n : NamedClass).

Inductive ClassAtom :=
| Item (i : ClassItem)
| Invalid.

Inductive Tok :=
| Lit (b : Z)
| Star
| Question
| Class (negate : bool) (items : list ClassItem)
| Ext (kind : ExtKind) (branches : list (list Tok)).

(** * The pattern parser *)

(** The offset, from the start of [s], of [marker] directly before a ["]"]. *)
Fixpoint find_bracket_expr_end (s : bytes) (marker : Z) : option nat :=
  match s with
  | [] => None
  | b :: r =>
      if (b =? "]"%b) && negb (marker =? "."%b) then None
      else if (b =? marker) && match r with c :: _ => c =? "]"%b | [] => false end then Some 0%nat
      else S <$> find_bracket_expr_end r marker
  end.

Definition named_classes : list (bytes * NamedClass) :=
  [(bs "alpha", Alpha); (bs "alnum", Alnum); (bs "digit", Digit); (bs "lower", Lower);
   (bs "upper", Upper); (bs "space", Space); (bs "blank", Blank); (bs "print", Print);
   (bs "punct", Punct); (bs "xdigit", Xdigit); (bs "cntrl", Cntrl); (bs "graph", Graph);
   (bs "ascii", Ascii); (bs "word", Word)].

Definition assoc_find {A} (k : bytes) (l : list (bytes * A)) : option A :=
  snd <$> find (fun p => bytes_eqb k (fst p)) l.

Definition parse_named_class (name : bytes) : option NamedClass := assoc_find name named_classes.

Definition parse_collating_symbol (name : bytes) : option Z :=
  match name with
  | [b] => Some b
  | _ =>
      assoc_find name
        [(bs "hyphen", "-"%b); (bs "space", " "%b); (bs "tab", 9); (bs "newline", 10);
         (bs "grave-accent", "`"%b)]
  end.

Definition atom_of {A} (f : A -> ClassItem) (o : option A) : ClassAtom :=
  match o with Some a => Item (f a) | None => Invalid end.

(** [[:name:]], [[.sym.]] and [[=sym=]] at the start of [s]. *)
Definition bracket_expr (s : bytes) : option (ClassAtom * bytes) :=
  match s with
  | "["%b :: m :: r =>
      if (m =? ":"%b) || (m =? "."%b) || (m =? "="%b) then
        match find_bracket_expr_end r m with
        | Some n =>
            let name := dequote_bytes (take n r) in
            let atom :=
              if m =? ":"%b then atom_of Named (parse_named_class name)
              else atom_of Single (parse_collating_symbol name) in
            Some (atom, drop (n + 2) r)
        | None => None
        end
      else None
  | _ => None
  end.

(** A byte of a bracket expression, with its escapes. *)
Definition class_literal (s : bytes) : Z * bytes :=
  match s with
  | [] => (0, [])
  | c :: r =>
      if (c =? 92) && negb (is_nil r) then
        match r with
        | d :: e :: x :: r3 =>
            if (d =? CTLESC) && (e =? CTLRAW) then (x, r3)
            else if d =? CTLESC then (92, r)
            else (d, e :: x :: r3)
        | d :: r1 => if d =? CTLESC then (92, r) else (d, r1)
        | [] => (c, r)
        end
      else if c =? CTLESC then
        match r with
        | d :: x :: r2 => if d =? CTLRAW then (x, r2) else (d, x :: r2)
        | d :: r1 => (d, r1)
        | [] => (c, r)
        end
      else (c, r)
  end.

Definition parse_class_atom (s : bytes) : ClassAtom * bytes :=
  match bracket_expr s with
  | Some p => p
  | None => let '(lit, rest) := class_literal s in (Item (Single lit), rest)
  end.

(** After an atom: [Some rest] when a range [-hi] follows, [rest] starting at
    [hi]. *)
Definition range_follows (s : bytes) : option bytes :=
  match s with
  | d :: ((e :: _) as r) => if (d =? "-"%b) && negb (e =? "]"%b) then Some r else None
  | _ => None
  end.

Definition range_item (lo hi : ClassAtom) : list ClassItem :=
  match lo, hi with
  | Item (Single lo), Item (Single hi) => [Range lo hi]
  | _, _ => []
  end.

(** The loop of [try_parse_class]; every round consumes at least one byte. *)
Fixpoint class_items (fuel : nat) (s : bytes) (first : bool) (items : list ClassItem)
    : option (list ClassItem * bytes) :=
  match fuel, s with
  | O, _ | _, [] => None
  | S fuel, b :: r =>
      if (b =? "]"%b) && negb first then Some (items, r)
      else
        let '(lo, s1) := parse_class_atom s in
        match range_follows s1 with
        | Some s2 =>
            let '(hi, s3) := parse_class_atom s2 in
            class_items fuel s3 false (items ++ range_item lo hi)
        | None =>
            class_items fuel s1 false
              (match lo with Item i => items ++ [i] | Invalid => items end)
        end
  end.

(** [s] is the pattern from the ["["] on. *)
Definition try_parse_class (s : bytes) : option (Tok * bytes) :=
  match s with
  | _ :: ((b :: r) as s1) =>
      let negate := (b =? "!"%b) || (b =? "^"%b) in
      let s2 := if negate then r else s1 in
      match class_items (length s2) s2 true [] with
      | Some (items, rest) => Some (Class negate items, rest)
      | None => None
      end
  | _ => None
  end.

(** The fuelled parser: [None] stands for exhausted fuel only. *)
Definition parsed (A : Type) : Type := option (A * bytes * bool).

(** The bytes before which [parse_inner_checked] looks for an extended
    pattern. *)
Definition ext_kind_of (b : Z) : option ExtKind :=
  if b =? "*"%b then Some ExtStar
  else if b =? "?"%b then Some ExtQ
  else if b =? "+"%b then Some ExtPlus
  else if b =? "@"%b then Some ExtAt
  else if b =? "!"%b then Some ExtBang
  else None.

(** What such a byte means on its own. *)
Definition plain_tok (b : Z) : Tok :=
  if b =? "*"%b then Star else if b =? "?"%b then Question else Lit b.

(** The token of the first byte when it is none of an extended pattern, a
    bracket expression: a quoted byte, an escape or an ordinary byte. *)
Definition byte_tok (b : Z) (r : bytes) : Tok * bytes :=
  if b =? CTLESC then
    match r with
    | d :: x :: r2 => if d =? CTLRAW then (Lit x, r2) else (Lit d, x :: r2)
    | d :: r1 => (Lit d, r1)
    | [] => (Lit b, r)
    end
  else if b =? 92 then
    match r with
    | d :: e :: x :: r3 =>
        if (d =? CTLESC) && (e =? CTLRAW) then (Lit x, r3)
        else if d =? CTLESC then (Lit 92, r)
        else (Lit d, e :: x :: r3)
    | d :: r1 => if d =? CTLESC then (Lit 92, r) else (Lit d, r1)
    | [] => (Lit b, r)
    end
  else (plain_tok b, r).

Fixpoint parse_inner_checked (fuel : nat) (opts : GlobOpts) (in_paren : bool) (s : bytes)
    (invalid_class : bool) {struct fuel} : parsed (list Tok) :=
  match fuel with
  | O => None
  | S fuel =>
      let continue t rest inv :=
        match parse_inner_checked fuel opts in_paren rest inv with
        | Some (out, rest, inv) => Some (t :: out, rest, inv)
        | None => None
        end in
      match s with
      | [] => Some ([], [], invalid_class)
      | b :: r =>
          if in_paren && ((b =? "|"%b) || (b =? ")"%b)) then Some ([], s, invalid_class)
          else if b =? CTLNUL then parse_inner_checked fuel opts in_paren r invalid_class
          else if b =? "["%b then
            match try_parse_class s with
            | Some (cls, rest) => continue cls rest invalid_class
            | None => continue (Lit b) r true
            end
          else
            match (if extglob opts then ext_kind_of b else None) with
            | Some kind =>
                match try_parse_ext fuel opts s kind with
                | Some (Some (ext, rest)) => continue ext rest invalid_class
                | Some None => continue (plain_tok b) r invalid_class
                | None => None
                end
            | None => let '(t, rest) := byte_tok b r in continue t rest invalid_class
            end
      end
  end
with try_parse_ext (fuel : nat) (opts : GlobOpts) (s : bytes) (kind : ExtKind) {struct fuel}
    : option (option (Tok * bytes)) :=
  match fuel with
  | O => None
  | S fuel =>
      match s with
      | _ :: p :: r =>
          if p =? "("%b then
            match ext_branches fuel opts r with
            | Some (Some (branches, rest)) => Some (Some (Ext kind branches, rest))
            | Some None => Some None
            | None => None
            end
          else Some None
      | _ => Some None
      end
  end
with ext_branches (fuel : nat) (opts : GlobOpts) (s : bytes) {struct fuel}
    : option (option (list (list Tok) * bytes)) :=
  match fuel with
  | O => None
  | S fuel =>
      match parse_inner_checked fuel opts true s false with
      | None => None
      | Some (branch, rest, invalid_class) =>
          if invalid_class then Some None
          else
            match rest with
            | b :: r =>
                if b =? "|"%b then
                  match ext_branches fuel opts r with
                  | Some (Some (branches, rest)) => Some (Some (branch :: branches, rest))
                  | Some None => Some None
                  | None => None
                  end
                else if b =? ")"%b then Some (Some ([branch], r))
                else Some None
            | [] => Some None
            end
      end
  end.

Definition parse_fuel (s : bytes) : nat := 2 * length s + 1.

Definition parse (pat : bytes) (opts : GlobOpts) : list Tok :=
  match parse_inner_checked (parse_fuel pat) opts false pat false with
  | Some (out, _, _) => out
  | None => []
  end.

(** * The matcher *)

(** Further classes of [core::ascii]. *)
Definition is_ascii_control (b : Z) : bool := in_range 0 31 b || (b =? 127).
Definition is_ascii_graphic (b : Z) : bool := in_range 33 126 b.
Definition is_ascii_punctuation (b : Z) : bool :=
  in_range 33 47 b || in_range 58 64 b || in_range 91 96 b || in_range 123 126 b.
Definition is_ascii_hexdigit (b : Z) : bool :=
  is_ascii_digit b || in_range 65 70 b || in_range 97 102 b.
Definition to_ascii_uppercase (b : Z) : Z := if is_ascii_lower b then b - 32 else b.
Definition eq_ignore_ascii_case (a b : Z) : bool := to_ascii_lowercase a =? to_ascii_lowercase b.

Definition named_matches (cls : NamedClass) (b : Z) : bool :=
  match cls with
  | Alpha => is_ascii_alphabetic b
  | Alnum => is_ascii_alphanumeric b
  | Digit => is_ascii_digit b
  | Lower => is_ascii_lower b
  | Upper => is_ascii_upper b
  | Space => is_ascii_whitespace b
  | Blank => (b =? 32) || (b =? 9)
  | Print => in_range 32 126 b
  | Punct => is_ascii_punctuation b
  | Xdigit => is_ascii_hexdigit b
  | Cntrl => is_ascii_control b
  | Graph => is_ascii_graphic b
  | Ascii => b <? 128
  | Word => is_ascii_alphanumeric b || (b =? "_"%b)
  end.

Definition class_matches (items : list ClassItem) (b : Z) (opts : GlobOpts) : bool :=
  let fold c := if nocaseglob opts then to_ascii_lowercase c else c in
  let target := fold b in
  existsb (fun item =>
    match item with
    | Single s => fold s =? target
    | Range lo hi =>
        let l := fold lo in
        let h := fold hi in
        (l <=? h) && (l <=? target) && (target <=? h)
    | Named n => named_matches n b
    end) items.

Definition lit_eq (a b : Z) (opts : GlobOpts) : bool :=
  if nocaseglob opts then eq_ignore_ascii_case a b else a =? b.

(** A [HashSet] of positions, as the list of its elements in the order of
    insertion (its iteration order is not specified; the results below depend
    on the elements only). *)
Definition mem (e : nat) (l : list nat) : bool := existsb (Nat.eqb e) l.
Definition set_insert (e : nat) (l : list nat) : list nat := if mem e l then l else l ++ [e].

(** [for e in es { if e > c && seen.insert(e) { frontier.push(e) } }], the
    frontier as a stack. *)
Definition push_new (c : nat) (es : list nat) (frontier seen : list nat) : list nat * list nat :=
  fold_left (fun '(frontier, seen) e =>
    if (c <? e)%nat && negb (mem e seen) then (e :: frontier, e :: seen) else (frontier, seen))
    es (frontier, seen).

(** [while let Some(c) = frontier.pop()] *)
Fixpoint ext_loop (fuel : nat) (one_step : nat -> list nat) (frontier seen ends : list nat)
    : list nat :=
  match fuel, frontier with
  | S fuel, c :: frontier =>
      let ends := set_insert c ends in
      let '(frontier, seen) := push_new c (one_step c) frontier seen in
      ext_loop fuel one_step frontier seen ends
  | _, _ => ends
  end.

Section Matcher.
Context (text : bytes) (opts : GlobOpts).

(** Positions [si..=text.len()]. *)
Definition positions (si : nat) : list nat := seq si (S (length text) - si).

Definition enumerate_ext_ends (kind : ExtKind) (branches : list (nat -> list nat)) (si : nat)
    : list nat :=
  let one_step from := concat (map (fun br => br from) branches) in
  match kind with
  | ExtAt => one_step si
  | ExtQ => fold_left (fun ends e => set_insert e ends) (one_step si) [si]
  | ExtStar | ExtPlus =>
      let ends := match kind with ExtStar => [si] | _ => [] end in
      let '(frontier, seen) := push_new si (one_step si) [] [] in
      ext_loop (length text) one_step frontier seen ends
  | ExtBang =>
      filter (fun k => negb (existsb (fun br => mem k (br si)) branches)) (positions si)
  end.

(** The ends of one token matched from [si]; the local [collect] is
    [collect_match_ends] on a branch. *)
Fixpoint tok_ends (t : Tok) (si : nat) {struct t} : list nat :=
  let fix collect (toks : list Tok) (si : nat) : list nat :=
    match toks with
    | [] => [si]
    | t :: rest => concat (map (collect rest) (tok_ends t si))
    end in
  let one := match text !! si with Some _ => [S si] | None => [] end in
  match t with
  | Lit b => match text !! si with Some c => if lit_eq b c opts then one else [] | None => [] end
  | Question => one
  | Class negate items =>
      match text !! si with
      | Some c => if negb (eqb (class_matches items c opts) negate) then one else []
      | None => []
      end
  | Star => positions si
  | Ext kind branches => enumerate_ext_ends kind (map collect branches) si
  end.

Fixpoint collect_match_ends (toks : list Tok) (si : nat) : list nat :=
  match toks with
  | [] => [si]
  | t :: rest => concat (map (collect_match_ends rest) (tok_ends t si))
  end.

Definition match_tokens (toks : list Tok) : bool :=
  mem (length text) (collect_match_ends toks 0).
End Matcher.

Definition fnmatch (pat text : bytes) (opts : GlobOpts) : bool :=
  match_tokens text opts (parse pat opts).

Definition fnmatch_parsed (toks : list Tok) (text : bytes) (opts : GlobOpts) : bool :=
  match_tokens text opts toks.

(** * The leading-dot rule *)

Definition dot_kind (kind : ExtKind) : bool :=
  match kind with ExtBang => false | _ => true end.
Definition optional_kind (kind : ExtKind) : bool :=
  match kind with ExtQ | ExtStar => true | _ => false end.

Fixpoint tok_leading_dot (t : Tok) (rest_dot : bool) {struct t} : bool :=
  let fix tokens (toks : list Tok) : bool :=
    match toks with
    | [] => false
    | t :: rest => tok_leading_dot t (tokens rest)
    end in
  match t with
  | Lit b => b =? "."%b
  | Ext kind branches =>
      if dot_kind kind && existsb tokens branches then true
      else optional_kind kind && rest_dot
  | _ => false
  end.

Fixpoint tokens_explicitly_match_leading_dot (toks : list Tok) : bool :=
  match toks with
  | [] => false
  | t :: rest => tok_leading_dot t (tokens_explicitly_match_leading_dot rest)
  end.

Definition explicitly_matches_leading_dot (pat : bytes) (opts : GlobOpts) : bool :=
  tokens_explicitly_match_leading_dot (parse pat opts).

(** [sort_unstable] and [dedup] on positions. *)
Fixpoint insert_sorted (e : nat) (l : list nat) : list nat :=
  match l with
  | [] => [e]
  | x :: r => if (e <? x)%nat then e :: l else if (e =? x)%nat then l else x :: insert_sorted e r
  end.
Definition sort_dedup (l : list nat) : list nat := foldr insert_sorted [] l.

Section DotNames.
Context (text : bytes) (opts : GlobOpts).

(** [skip_ends]: the ends the rest of the pattern yields at [si] itself;
    [rest_ends]: the ends of the rest from a given position. *)
Fixpoint tok_dot_ends (t : Tok) (si : nat) (skip_ends : list nat) (rest_ends : nat -> list nat)
    {struct t} : list nat :=
  let fix collect (toks : list Tok) (si : nat) : list nat :=
    match text !! si with
    | Some c =>
        if negb (c =? "."%b) then []
        else match toks with
             | [] => []
             | t :: rest =>
                 tok_dot_ends t si (collect rest si) (collect_match_ends text opts rest)
             end
    | None => []
    end in
  match t with
  | Lit b => if b =? "."%b then rest_ends (S si) else []
  | Ext kind branches =>
      (if optional_kind kind then skip_ends else [])
      ++ (if dot_kind kind then
            concat (map rest_ends
              (sort_dedup (concat (map (fun br => collect br si) branches))))
          else [])
  | _ => []
  end.

Fixpoint collect_explicit_dot_ends (toks : list Tok) (si : nat) : list nat :=
  match text !! si with
  | Some c =>
      if negb (c =? "."%b) then []
      else match toks with
           | [] => []
           | t :: rest =>
               tok_dot_ends t si (collect_explicit_dot_ends rest si) (collect_match_ends text opts rest)
           end
  | None => []
  end.

Definition explicitly_matches_dot_name_parsed (toks : list Tok) : bool :=
  match text with
  | c :: _ =>
      if c =? "."%b then mem (length text) (collect_explicit_dot_ends toks 0) else false
  | [] => false
  end.
End DotNames.

Definition explicitly_matches_dot_name (pat text : bytes) (opts : GlobOpts) : bool :=
  match text with
  | c :: _ =>
      if c =? "."%b then explicitly_matches_dot_name_parsed text opts (parse pat opts) else false
  | [] => false
  end.

(** * Metacharacters and literal patterns *)

Fixpoint pathname_class_end (fuel : nat) (s : bytes) (first : bool) : option bytes :=
  match fuel, s with
  | O, _ | _, [] => None
  | S fuel, b :: r =>
      if b =? "/"%b then None
      else if (b =? "]"%b) && negb first then Some r
      else
        let '(_, s1) := parse_class_atom s in
        match range_follows s1 with
        | Some s2 =>
            match s2 with
            | c :: _ =>
                if c =? "/"%b then None
                else pathname_class_end fuel (snd (parse_class_atom s2)) false
            | [] => None
            end
        | None => pathname_class_end fuel s1 false
        end
  end.

Definition try_parse_pathname_class_end (s : bytes) : option bytes :=
  match s with
  | _ :: ((b :: r) as s1) =>
      let s2 := if (b =? "!"%b) || (b =? "^"%b) then r else s1 in
      pathname_class_end (length s2) s2 true
  | _ => None
  end.

(** The scan reads one to three bytes at a time, by the measure of the rest. *)
Fixpoint glob_meta_loop (fuel : nat) (s : bytes) (opts : GlobOpts) : bool :=
  match fuel, s with
  | O, _ | _, [] => false
  | S fuel, b :: r =>
      if b =? CTLESC then
        match r with
        | d :: _ :: r2 =>
            if d =? CTLRAW then glob_meta_loop fuel r2 opts else glob_meta_loop fuel (drop 1 r) opts
        | _ => glob_meta_loop fuel (drop 1 r) opts
        end
      else if (b =? 92) && negb (is_nil r) then
        match r with
        | d :: r1 => if d =? CTLESC then glob_meta_loop fuel r opts else glob_meta_loop fuel r1 opts
        | [] => false
        end
      else if (b =? "*"%b) || (b =? "?"%b) then true
      else if (b =? "["%b) && match try_parse_pathname_class_end s with Some _ => true | None => false end
      then true
      else if extglob opts && ((b =? "@"%b) || (b =? "+"%b) || (b =? "!"%b))
              && match r with c :: _ => c =? "("%b | [] => false end
      then true
      else glob_meta_loop fuel r opts
  end.

Definition has_glob_meta (s : bytes) (opts : GlobOpts) : bool := glob_meta_loop (length s) s opts.

Fixpoint all_lits (toks : list Tok) : option bytes :=
  match toks with
  | [] => Some []
  | Lit b :: toks => cons b <$> all_lits toks
  | _ => None
  end.

Definition literal_pattern (pat : bytes) (opts : GlobOpts) : option bytes :=
  if has_glob_meta pat opts then None else all_lits (parse pat opts).

Definition literal_eq (a b : bytes) (opts : GlobOpts) : bool :=
  if negb (length a =? length b)%nat then false
  else if nocaseglob opts then forallb (fun '(l, r) => eq_ignore_ascii_case l r) (zip a b)
  else bytes_eqb a b.

Definition literal_starts_with (s literal : bytes) (opts : GlobOpts) : bool :=
  (length literal <=? length s)%nat && literal_eq (take (length literal) s) literal opts.

Definition literal_ends_with (s literal : bytes) (opts : GlobOpts) : bool :=
  (length literal <=? length s)%nat
  && literal_eq (drop (length s - length literal) s) literal opts.

(** [s.windows(n).position(...)] *)
Fixpoint find_window (s literal : bytes) (opts : GlobOpts) : option nat :=
  if (length s <? length literal)%nat then None
  else if literal_eq (take (length literal) s) literal opts then Some 0%nat
  else match s with
       | [] => None
       | _ :: s => S <$> find_window s literal opts
       end.

Definition find_literal (s literal : bytes) (opts : GlobOpts) : option nat :=
  if (length s <? length literal)%nat then None else find_window s literal opts.

(** * Removal of a prefix or a suffix *)

Definition max_opt (l : list nat) : option nat :=
  foldr (fun e acc => match acc with Some m => Some (Nat.max e m) | None => Some e end) None l.
Definition min_opt (l : list nat) : option nat :=
  foldr (fun e acc => match acc with Some m => Some (Nat.min e m) | None => Some e end) None l.

(** The loop over start offsets [k] shared by suffix removal and anchored
    substitution: the offset kept is the least ([longest]) or the greatest. *)
Definition suffix_start (s : bytes) (toks : list Tok) (longest : bool) (opts : GlobOpts) : option nat :=
  fold_left (fun best k =>
    if mem (length s) (collect_match_ends s opts toks k) then
      match best with
      | None => Some k
      | Some b => Some (if longest then Nat.min b k else Nat.max b k)
      end
    else best) (seq 0 (S (length s))) None.

Definition remove_pattern_with_opts (s pat : bytes) (prefix longest : bool) (opts : GlobOpts) : bytes :=
  match literal_pattern pat opts with
  | Some literal =>
      if is_nil literal then s
      else if prefix then
        if literal_starts_with s literal opts then drop (length literal) s else s
      else if literal_ends_with s literal opts then take (length s - length literal) s
      else s
  | None =>
      let toks := parse pat opts in
      if is_nil toks then s
      else if prefix then
        let hits := collect_match_ends s opts toks 0 in
        match (if longest then max_opt hits else min_opt hits) with
        | None => s
        | Some end_ => drop end_ s
        end
      else
        match suffix_start s toks longest opts with
        | Some k => take k s
        | None => s
        end
  end.

Definition remove_pattern (s pat : bytes) (prefix longest : bool) : bytes :=
  remove_pattern_with_opts s pat prefix longest default_opts.

(** * Substitution *)

Inductive PatSubMode := First | All | PrefixAnchored | SuffixAnchored.

Definition star_pattern_matches_empty_for_substitution (toks : list Tok) : bool :=
  negb (is_nil toks)
  && forallb (fun tok => match tok with Star | Ext ExtStar _ => true | _ => false end) toks.

(** The empty pattern: only the anchored forms insert anything. *)
Definition subst_empty_pattern (s : bytes) (mode : PatSubMode) (replacement : bytes -> bytes) : bytes :=
  match mode with
  | PrefixAnchored => replacement [] ++ s
  | SuffixAnchored => s ++ replacement []
  | _ => s
  end.

(** The scan of [First] and [All]: the longest non-empty match at each
    position.  Every round advances the position. *)
Fixpoint subst_loop (fuel : nat) (s : bytes) (toks : list Tok) (first : bool) (opts : GlobOpts)
    (replacement : bytes -> bytes) (i : nat) : bytes :=
  match fuel with
  | O => []
  | S fuel =>
      if (length s <? i)%nat then []
      else
        let ends := collect_match_ends s opts toks i in
        match max_opt (List.filter (fun e => i <? e)%nat ends) with
        | Some e =>
            replacement (slice s i e)
            ++ (if first then drop e s else subst_loop fuel s toks first opts replacement e)
        | None =>
            match s !! i with
            | Some b => b :: subst_loop fuel s toks first opts replacement (S i)
            | None => subst_loop fuel s toks first opts replacement (S i)
            end
        end
  end.

(** Scan for a literal from [cursor] on. *)
Fixpoint subst_literal_loop (fuel : nat) (s literal : bytes) (first : bool) (opts : GlobOpts)
    (replacement : bytes -> bytes) (cursor : nat) : bytes :=
  match fuel with
  | O => drop cursor s
  | S fuel =>
      match find_literal (drop cursor s) literal opts with
      | None => drop cursor s
      | Some rel =>
          let start := (cursor + rel)%nat in
          let end_ := (start + length literal)%nat in
          slice s cursor start ++ replacement (slice s start end_)
          ++ (if first then drop end_ s
              else subst_literal_loop fuel s literal first opts replacement end_)
      end
  end.

Definition pat_subst_literal (s literal : bytes) (mode : PatSubMode) (opts : GlobOpts)
    (replacement : bytes -> bytes) : bytes :=
  if is_nil literal then subst_empty_pattern s mode replacement
  else
    match mode with
    | PrefixAnchored =>
        if negb (literal_starts_with s literal opts) then s
        else replacement (take (length literal) s) ++ drop (length literal) s
    | SuffixAnchored =>
        if negb (literal_ends_with s literal opts) then s
        else
          let start := (length s - length literal)%nat in
          take start s ++ replacement (drop start s)
    | First => subst_literal_loop (S (length s)) s literal true opts replacement 0
    | All => subst_literal_loop (S (length s)) s literal false opts replacement 0
    end.

(** The general path, on the tokens of the pattern. *)
Definition pat_subst_toks (s : bytes) (toks : list Tok) (mode : PatSubMode) (opts : GlobOpts)
    (replacement : bytes -> bytes) : bytes :=
  if is_nil toks then subst_empty_pattern s mode replacement
  else
    match mode with
    | PrefixAnchored =>
        match max_opt (collect_match_ends s opts toks 0) with
        | Some e => replacement (take e s) ++ drop e s
        | None => s
        end
    | SuffixAnchored =>
        match suffix_start s toks true opts with
        | Some k => take k s ++ replacement (drop k s)
        | None => s
        end
    | First | All =>
        if is_nil s && star_pattern_matches_empty_for_substitution toks then replacement []
        else
          subst_loop (S (S (length s))) s toks (match mode with First => true | _ => false end)
            opts replacement 0
    end.

(** [replacement] is called on the matched text. *)
Definition pat_subst_with_replacer (s pat : bytes) (mode : PatSubMode) (opts : GlobOpts)
    (replacement : bytes -> bytes) : bytes :=
  match literal_pattern pat opts with
  | Some literal => pat_subst_literal s literal mode opts replacement
  | None => pat_subst_toks s (parse pat opts) mode opts replacement
  end.

Definition pat_subst_with_opts (s pat rep : bytes) (mode : PatSubMode) (opts : GlobOpts) : bytes :=
  pat_subst_with_replacer s pat mode opts (fun _ => rep).

Definition pat_subst (s pat rep : bytes) (mode : PatSubMode) : bytes :=
  pat_subst_with_opts s pat rep mode default_opts.

(** * Case modification *)

Inductive CaseModMode :=
| UpperFirst | UpperAll | LowerFirst | LowerAll | ToggleFirst | ToggleAll.

Definition first_mode (mode : CaseModMode) : bool :=
  match mode with UpperFirst | LowerFirst | ToggleFirst => true | _ => false end.

Definition change_case (mode : CaseModMode) (b : Z) : Z :=
  match mode with
  | UpperFirst | UpperAll => to_ascii_uppercase b
  | LowerFirst | LowerAll => to_ascii_lowercase b
  | ToggleFirst | ToggleAll =>
      if is_ascii_lower b then to_ascii_uppercase b
      else if is_ascii_upper b then to_ascii_lowercase b
      else b
  end.

Definition casemod_with_opts (s : bytes) (pat : option bytes) (mode : CaseModMode) (opts : GlobOpts)
    : bytes :=
  let toks := (fun p => parse p opts) <$> pat in
  imap (fun i b =>
    let matched :=
      match toks with
      | None => true
      | Some t => existsb (Nat.eqb (S i)) (collect_match_ends s opts t i)
      end in
    if matched && (negb (first_mode mode) || (i =? 0)%nat) then change_case mode b else b) s.

Definition casemod (s : bytes) (pat : option bytes) (mode : CaseModMode) : bytes :=
  casemod_with_opts s pat mode default_opts.

(** * The unit tests of pattern.rs *)

Definition m (p t : string) : bool := fnmatch (bs p) (bs t) default_opts.
Definition ext_opts : GlobOpts := mkOpts false true false.
Definition mx (p t : string) : bool := fnmatch (bs p) (bs t) ext_opts.

Example tests_match :
  forallb (fun '(p, t, r) => eqb (m p t) r)
    [("*", "abc", true); ("a*c", "abxxxc", true); ("a?c", "abc", true); ("a?c", "abbc", false);
     ("[abc]", "b", true); ("[abc]", "d", false); ("[!abc]", "d", true); ("[!abc]", "a", false);
     ("[a-z]", "m", true); ("[a-z]", "1", false); ("[[:digit:]]", "5", true);
     ("[[:digit:]]", "x", false); ("[[.a.]]", "a", true); ("[[.a.]-[.z.]]", "m", true);
     ("[[.hyphen.]-9]", "-", true); ("[[.-.]]", "-", true); ("[[.space.]]", " ", true);
     ("[[.grave-accent.]]", " ", false); ("[[:al:])", "a", false);
     ("[[.yyz.]-[.z.]]", "c", false); ("[[.yyz.][.a.]-z]", "c", true); ("[[.yyz.]cde]", "c", true);
     ("[[.a.]-[.zz.]p]", "p", true); ("[[.aa.]-[.z.]p]", "p", true); ("[[=b=]]", "b", true);
     ("[[=B=]]", "b", false); ("[[=b=])", "a", false)]%string = true.
Proof. vm_compute. reflexivity. Qed.

Example tests_extglob :
  forallb (fun '(p, t, r) => eqb (mx p t) r)
    [("@(abc|xyz)", "xyz", true); ("@(abc|xyz)", "def", false); ("*(ab)", "ababab", true);
     ("*(ab)", "", true); ("*(ab)", "abx", false); ("!(*.txt)", "file.bak", true);
     ("!(*.txt)", "file.txt", false)]%string = true.
Proof. vm_compute. reflexivity. Qed.

Example tests_control :
  fnmatch [92; 1; 1] [92; 1] default_opts = true /\ fnmatch [92; 1; 127] [92; 127] default_opts = true
  /\ fnmatch [1; 0; 127] [127] default_opts = true
  /\ fnmatch (97 :: 92 :: 1 :: bs "*b*") (bs "a\*b") default_opts = true
  /\ fnmatch (97 :: 92 :: 1 :: bs "*b*") (bs "a*b") default_opts = false
  /\ fnmatch [92; 1; 0; 1] [1] default_opts = true /\ fnmatch [92; 1; 0; 1] [92; 1] default_opts = false.
Proof. vm_compute. repeat split. Qed.

Example tests_operations :
  remove_pattern (bs "foo.bar.baz") (bs "*.") true false = bs "bar.baz"
  /\ remove_pattern (bs "foo.bar.baz") (bs "*.") true true = bs "baz"
  /\ remove_pattern (bs "foo.bar.baz") (bs ".*") false false = bs "foo.bar"
  /\ remove_pattern (bs "foo.bar.baz") (bs ".*") false true = bs "foo"
  /\ remove_pattern (bs "a*b") (bs "a\*") true false = bs "b"
  /\ pat_subst (bs "aaabbb") (bs "a") (bs "X") First = bs "Xaabbb"
  /\ pat_subst (bs "aaabbb") (bs "a") (bs "X") All = bs "XXXbbb"
  /\ pat_subst [] (bs "*") (bs "X") All = bs "X" /\ pat_subst [] (bs "?") (bs "X") All = []
  /\ pat_subst (bs "abcabc") (bs "abc") (bs "X") SuffixAnchored = bs "abcX"
  /\ pat_subst (bs "aaabbb") (bs "a*") (bs "X") PrefixAnchored = bs "X"
  /\ pat_subst (bs "aaabbb") (bs "b*") (bs "X") SuffixAnchored = bs "aaaX"
  /\ casemod (bs "hello") None UpperFirst = bs "Hello".
Proof. vm_compute. repeat split. Qed.

Example tests_glob_meta :
  map (fun p => has_glob_meta (bs p) default_opts)
    ["[abc"; "[abc/def]"; "[abc\/def]"; "a\?"; "a\?*"; "[[:alpha:]]"; "[[:alpha:]"]%string
  = [false; false; true; false; true; true; true].
Proof. vm_compute. reflexivity. Qed.
