(* ===== verification/PatternLang.v ===== *)
(** The language of a pattern, and the matcher's correctness against it: the
    ends collected by [collect_match_ends] are exactly the ends of the
    substrings in the language, so [fnmatch] decides membership. *)
From stdpp Require Import sets.
From S2P Require Import Prelude Buf Pattern.

(** * Languages *)

Definition lang : Type := bytes -> Prop.

(** Words made of any number of words of [L]. *)
Inductive kleene (L : lang) : lang :=
| kleene_nil : kleene L []
| kleene_app w1 w2 : L w1 -> kleene L w2 -> kleene L (w1 ++ w2).

(** The words one byte long whose byte satisfies [p]. *)
Definition byte_lang (p : Z -> bool) : lang := fun w => exists c, w = [c] /\ p c = true.

(** What an extended pattern accepts when its branches accept [U]; [+(...)]
    needs a first non-empty word. *)
Definition ext_lang (kind : ExtKind) (U : lang) : lang := fun w =>
  match kind with
  | ExtAt => U w
  | ExtQ => w = [] \/ U w
  | ExtStar => kleene U w
  | ExtPlus => exists w1 w2, w = w1 ++ w2 /\ U w1 /\ w1 <> [] /\ kleene U w2
  | ExtBang => ~ U w
  end.

(** Languages are compared word by word. *)
Abbreviation lang_equiv := (pointwise_relation bytes iff).

#[export] Instance kleene_proper : Proper (lang_equiv ==> lang_equiv) kleene.
Proof. intros L1 L2 HL w. split; induction 1; constructor; auto; by apply HL. Qed.

#[export] Instance ext_lang_proper kind : Proper (lang_equiv ==> lang_equiv) (ext_lang kind).
Proof.
  intros L1 L2 HL w. pose proof (kleene_proper L1 L2 HL) as Hk.
  unfold ext_lang, pointwise_relation in *. destruct kind; try (by setoid_rewrite HL); [apply Hk|].
  setoid_rewrite HL. by setoid_rewrite Hk.
Qed.

Section Lang.
Context (opts : GlobOpts).

Fixpoint tok_lang (t : Tok) : lang :=
  let fix seq_lang (toks : list Tok) : lang := fun w =>
    match toks with
    | [] => w = []
    | t :: rest => exists w1 w2, w = w1 ++ w2 /\ tok_lang t w1 /\ seq_lang rest w2
    end in
  match t with
  | Lit b => byte_lang (fun c => lit_eq b c opts)
  | Question => byte_lang (fun _ => true)
  | Class negate items => byte_lang (fun c => negb (eqb (class_matches items c opts) negate))
  | Star => fun _ => True
  | Ext kind branches =>
      ext_lang kind (fun w => foldr (fun br P => seq_lang br w \/ P) False branches)
  end.

Fixpoint toks_lang (toks : list Tok) : lang := fun w =>
  match toks with
  | [] => w = []
  | t :: rest => exists w1 w2, w = w1 ++ w2 /\ tok_lang t w1 /\ toks_lang rest w2
  end.

(** The union of the branches. *)
Definition branches_lang (branches : list (list Tok)) : lang :=
  fun w => exists br, br ∈ branches /\ toks_lang br w.

Lemma tok_lang_ext kind branches w :
  tok_lang (Ext kind branches) w <-> ext_lang kind (branches_lang branches) w.
Proof.
  assert (Hseq : forall w, foldr (fun br P => toks_lang br w \/ P) False branches
                           <-> branches_lang branches w).
  { intros v. unfold branches_lang. induction branches as [|br brs IH]; simpl; set_solver. }
  change (ext_lang kind (fun w => foldr (fun br P => toks_lang br w \/ P) False branches) w
          <-> ext_lang kind (branches_lang branches) w).
  by apply ext_lang_proper.
Qed.
End Lang.

(** * Induction on patterns *)

Section TokInd.
Context (P : Tok -> Prop).
Context (HLit : forall b, P (Lit b)) (HStar : P Star) (HQuestion : P Question).
Context (HClass : forall n items, P (Class n items)).
Context (HExt : forall kind branches, Forall (Forall P) branches -> P (Ext kind branches)).

Fixpoint Tok_ind' (t : Tok) : P t :=
  match t with
  | Lit b => HLit b
  | Star => HStar
  | Question => HQuestion
  | Class n items => HClass n items
  | Ext kind branches =>
      HExt kind branches
        ((fix go (brs : list (list Tok)) : Forall (Forall P) brs :=
            match brs with
            | [] => Forall_nil_2 _
            | br :: brs =>
                Forall_cons_2 _ _ _
                  ((fix go1 (ts : list Tok) : Forall P ts :=
                      match ts with
                      | [] => Forall_nil_2 _
                      | t :: ts => Forall_cons_2 _ _ _ (Tok_ind' t) (go1 ts)
                      end) br)
                  (go brs)
            end) branches)
  end.
End TokInd.

(** * Positions and substrings *)

Lemma mem_elem e l : mem e l = true <-> e ∈ l.
Proof.
  unfold mem. rewrite existsb_exists. setoid_rewrite Nat.eqb_eq.
  setoid_rewrite <- list_elem_of_In. naive_solver.
Qed.

Lemma mem_false e l : mem e l = false <-> e ∉ l.
Proof. rewrite <- mem_elem. by destruct (mem e l). Qed.

Lemma elem_of_concat_map {A B} (g : A -> list B) l x :
  x ∈ concat (map g l) <-> exists y, y ∈ l /\ x ∈ g y.
Proof.
  induction l as [|a l IH]; simpl; [set_solver|]. rewrite elem_of_app, IH. set_solver.
Qed.

Lemma set_insert_elem e x l : x ∈ set_insert e l <-> x = e \/ x ∈ l.
Proof. unfold set_insert. destruct (mem e l) eqn:H; [apply mem_elem in H|]; set_solver. Qed.

Lemma positions_elem text si e : e ∈ positions text si <-> (si <= e <= length text)%nat.
Proof. unfold positions. rewrite elem_of_seq. lia. Qed.

Lemma slice_split {A} (s : list A) i j k :
  (i <= j)%nat -> (j <= k)%nat -> slice s i k = slice s i j ++ slice s j k.
Proof.
  intros Hij Hjk. unfold slice. replace (k - i)%nat with ((j - i) + (k - j))%nat by lia.
  rewrite <- (take_drop (j - i) (take (j - i + (k - j)) (drop i s))).
  rewrite take_take, Nat.min_l by lia. f_equal.
  rewrite skipn_firstn_comm, drop_drop. f_equal; [lia|]. f_equal. lia.
Qed.

Lemma slice_nil {A} (s : list A) i : slice s i i = [].
Proof. unfold slice. by rewrite Nat.sub_diag. Qed.

Lemma slice_length {A} (s : list A) i j : (j <= length s)%nat -> length (slice s i j) = (j - i)%nat.
Proof. intros. unfold slice. rewrite length_take, length_drop. lia. Qed.

Lemma slice_one {A} (s : list A) i c : s !! i = Some c -> slice s i (S i) = [c].
Proof.
  intros Hc. unfold slice. replace (S i - i)%nat with 1%nat by lia.
  by rewrite (drop_S s c i Hc).
Qed.

(** A split of a substring is a position between its ends. *)
Lemma slice_app_inv {A} (s : list A) i k w1 w2 :
  (i <= k <= length s)%nat -> slice s i k = w1 ++ w2 ->
  exists j, (i <= j <= k)%nat /\ slice s i j = w1 /\ slice s j k = w2.
Proof.
  intros Hik Heq. exists (i + length w1)%nat.
  assert (length (slice s i k) = (length w1 + length w2)%nat) as Hl by (rewrite Heq; apply length_app).
  rewrite slice_length in Hl by lia. split; [lia|].
  rewrite (slice_split s i (i + length w1) k) in Heq by lia.
  apply app_inj_1 in Heq; [done|]. rewrite slice_length; lia.
Qed.

Lemma slice_all {A} (s : list A) : slice s 0 (length s) = s.
Proof. unfold slice. by rewrite Nat.sub_0_r, firstn_all. Qed.

(** * The work list of [*(...)] and [+(...)] *)

Lemma push_new_spec c es fr sn :
  exists new, push_new c es fr sn = (new ++ fr, new ++ sn) /\ NoDup new /\
    forall x, x ∈ new <-> x ∈ es /\ (c < x)%nat /\ x ∉ sn.
Proof.
  unfold push_new. revert fr sn. induction es as [|e es IH]; intros fr sn; simpl.
  { exists []. split; [done|split; [constructor|set_solver]]. }
  destruct ((c <? e)%nat && negb (mem e sn)) eqn:H.
  - apply andb_true_iff in H as [Hlt%Nat.ltb_lt Hm%negb_true_iff%mem_false].
    destruct (IH (e :: fr) (e :: sn)) as (new & -> & Hnd & Hnew).
    exists (new ++ [e]). rewrite <- !app_assoc. split; [done|]. split.
    + apply NoDup_app. split; [done|split; [|apply NoDup_singleton]].
      intros x Hx. apply Hnew in Hx. set_solver.
    + intros x. rewrite elem_of_app, Hnew. destruct (decide (x = e)); set_solver.
  - destruct (IH fr sn) as (new & -> & Hnd & Hnew). exists new. split; [done|split; [done|]].
    intros x. rewrite Hnew, elem_of_cons. apply andb_false_iff in H.
    split; [naive_solver|]. intros ([->|?] & Hlt & Hn); [|done].
    destruct H as [?%Nat.ltb_ge|?%negb_false_iff%mem_elem]; [lia|done].
Qed.

Section WorkList.
Context (one_step : nat -> list nat) (N si : nat).
Context (Hbound : forall c e, e ∈ one_step c -> (c <= N)%nat -> (e <= N)%nat).

(** Positions reached from [si] by steps that advance. *)
Inductive reach : nat -> Prop :=
| reach_one e : (si < e)%nat -> e ∈ one_step si -> reach e
| reach_step c e : reach c -> (c < e)%nat -> e ∈ one_step c -> reach e.

Lemma reach_bound e : (si <= N)%nat -> reach e -> (si < e <= N)%nat.
Proof. intros Hsi. induction 1 as [e Hlt He|c e _ IH Hlt He]; apply Hbound in He; lia. Qed.

(** Processed positions have all their successors in the work list or among
    the processed ones. *)
Record work_inv (fr done : list nat) : Prop := {
  wi_nodup : NoDup (done ++ fr);
  wi_reach : forall x, x ∈ done ++ fr -> reach x;
  wi_start : forall e, (si < e)%nat -> e ∈ one_step si -> e ∈ done ++ fr;
  wi_closed : forall c e, c ∈ done -> (c < e)%nat -> e ∈ one_step c -> e ∈ done ++ fr;
}.

Lemma work_inv_step c fr done new :
  work_inv (c :: fr) done -> NoDup new ->
  (forall x, x ∈ new <-> x ∈ one_step c /\ (c < x)%nat /\ x ∉ done ++ c :: fr) ->
  work_inv (new ++ fr) (done ++ [c]).
Proof.
  intros [Hnd Hr Hs Hc] Hndn Hnew.
  assert (Hperm : (done ++ [c]) ++ new ++ fr ≡ₚ new ++ done ++ c :: fr) by (rewrite Permutation_app_swap_app; solve_Permutation).
  split.
  - rewrite Hperm. apply NoDup_app. split; [done|split; [|done]].
    intros x Hx. by apply Hnew in Hx as (_ & _ & ?).
  - intros x. rewrite Hperm, elem_of_app. intros [Hx|Hx]; [|by apply Hr].
    apply Hnew in Hx as (Hx & Hlt & _). eapply reach_step; [|done..]. apply Hr. set_solver.
  - intros e Hlt He. rewrite Hperm. apply elem_of_app. right. by apply Hs.
  - intros c' e Hc' Hlt He. rewrite Hperm. apply elem_of_app. apply elem_of_app in Hc' as [Hc'|Hc'].
    + right. by apply (Hc c').
    + apply list_elem_of_singleton in Hc'. subst c'.
      destruct (decide (e ∈ done ++ c :: fr)); [by right|left; by apply Hnew].
Qed.

Lemma work_inv_length fr done : (si <= N)%nat -> work_inv fr done -> (length done + length fr <= N)%nat.
Proof.
  intros Hsi [Hnd Hr _ _]. rewrite <- length_app.
  transitivity (length (seq 1 N)); [|by rewrite length_seq]. apply submseteq_length, NoDup_submseteq; [done|].
  intros x Hx. apply elem_of_seq. apply Hr, reach_bound in Hx; lia.
Qed.

Lemma work_done done (ends0 ends : list nat) :
  work_inv [] done -> (forall x, x ∈ ends <-> x ∈ ends0 \/ x ∈ done) ->
  forall x, x ∈ ends <-> x ∈ ends0 \/ reach x.
Proof.
  intros [Hnd Hr Hs Hc] Hends x. rewrite app_nil_r in *. rewrite Hends.
  split; [naive_solver|]. intros [?|Hx]; [by left|right].
  induction Hx as [e Hlt He|c e _ IHc Hlt He]; eauto.
Qed.

Lemma ext_loop_spec fuel (fr done sn ends0 ends : list nat) :
  (si <= N)%nat -> work_inv fr done -> (forall x, x ∈ sn <-> x ∈ done ++ fr) ->
  (N <= fuel + length done)%nat -> (forall x, x ∈ ends <-> x ∈ ends0 \/ x ∈ done) ->
  forall x, x ∈ ext_loop fuel one_step fr sn ends <-> x ∈ ends0 \/ reach x.
Proof.
  intros Hsi. revert fr done sn ends. induction fuel as [|fuel IH]; intros fr done sn ends Hinv Hsn Hf Hends.
  - pose proof (work_inv_length fr done Hsi Hinv). destruct fr; simpl in *; [|lia].
    by eapply work_done.
  - destruct fr as [|c fr]; [by eapply work_done|]. cbn [ext_loop].
    destruct (push_new_spec c (one_step c) fr sn) as (new & -> & Hnd & Hnew).
    apply IH with (done := done ++ [c]).
    + apply work_inv_step; [done..|]. intros x. by rewrite Hnew, Hsn.
    + intros x. rewrite !elem_of_app, Hsn. set_solver.
    + rewrite length_app. simpl in *. lia.
    + intros x. rewrite set_insert_elem, Hends. set_solver.
Qed.
End WorkList.

(** * The matcher decides the language *)

Lemma kleene_snoc L w1 w2 : kleene L w1 -> L w2 -> kleene L (w1 ++ w2).
Proof.
  induction 1 as [|u v Hu Hv IH]; intros Hw.
  - simpl. rewrite <- (app_nil_r w2). by apply kleene_app; [|constructor].
  - rewrite <- app_assoc. apply kleene_app; auto.
Qed.

Lemma kleene_plus L w : kleene L w <-> w = [] \/ ext_lang ExtPlus L w.
Proof.
  split.
  - induction 1 as [|u v Hu Hv IH]; [by left|]. destruct u as [|b u]; [done|].
    right. by exists (b :: u), v.
  - intros [->|(w1 & w2 & -> & H1 & _ & H2)]; by constructor.
Qed.

Lemma set_insert_all_elem l acc x :
  x ∈ fold_left (fun ends e => set_insert e ends) l acc <-> x ∈ acc \/ x ∈ l.
Proof.
  revert acc. induction l as [|e l IH]; intros acc; simpl; [set_solver|].
  rewrite IH, set_insert_elem. set_solver.
Qed.

Section MatcherCorrect.
Context (text : bytes) (opts : GlobOpts).

(** [f] computes the ends of the substrings in [L]. *)
Definition ends_ok (f : nat -> list nat) (L : lang) : Prop :=
  forall si e, (si <= length text)%nat ->
    e ∈ f si <-> (si <= e <= length text)%nat /\ L (slice text si e).

Lemma byte_ends_ok (f : nat -> list nat) (p : Z -> bool) :
  (forall si, f si = match text !! si with Some c => if p c then [S si] else [] | None => [] end) ->
  ends_ok f (byte_lang p).
Proof.
  intros Hf si e Hsi. rewrite Hf. split.
  - destruct (text !! si) as [c|] eqn:Hc; [|set_solver]. destruct (p c) eqn:Hp; [|set_solver].
    intros ->%list_elem_of_singleton. apply lookup_lt_Some in Hc as Hlt. split; [lia|].
    exists c. by rewrite (slice_one text si c Hc).
  - intros [He [c [Hc Hp]]]. assert (length (slice text si e) = 1%nat) as Hl by by rewrite Hc.
    rewrite slice_length in Hl by lia. assert (e = S si) as -> by lia.
    destruct (lookup_lt_is_Some_2 text si) as [d Hd]; [lia|]. rewrite Hd.
    rewrite (slice_one text si d Hd) in Hc. simplify_eq. rewrite Hp. set_solver.
Qed.

Lemma concat_ends_ok f g L1 L2 :
  ends_ok f L1 -> ends_ok g L2 ->
  ends_ok (fun si => concat (map g (f si)))
    (fun w => exists w1 w2, w = w1 ++ w2 /\ L1 w1 /\ L2 w2).
Proof.
  intros Hf Hg si e Hsi. rewrite elem_of_concat_map. split.
  - intros (j & Hj & He). apply Hf in Hj as [Hj HL1]; [|done].
    apply Hg in He as [He HL2]; [|lia]. split; [lia|].
    eexists _, _. split; [apply (slice_split text si j e); lia|done].
  - intros [He (w1 & w2 & Hw & H1 & H2)].
    apply slice_app_inv in Hw as (j & Hj & <- & <-); [|lia].
    exists j. split; [apply Hf|apply Hg]; (lia || (split; [lia|done])).
Qed.

Lemma reach_plus f U si e :
  ends_ok f U -> (si <= length text)%nat ->
  reach f si e <-> (si <= e <= length text)%nat /\ ext_lang ExtPlus U (slice text si e).
Proof.
  intros Hf Hsi.
  assert (Hb : forall c e, e ∈ f c -> (c <= length text)%nat -> (e <= length text)%nat).
  { intros c j Hj Hc. apply Hf in Hj; [lia|done]. }
  split.
  - intros Hr. pose proof (reach_bound f (length text) si Hb e Hsi Hr). split; [lia|].
    induction Hr as [e Hlt He|c e Hr IH Hlt He].
    + apply Hf in He as [He HU]; [|done]. exists (slice text si e), [].
      rewrite app_nil_r. split; [done|]. split; [done|]. split; [|constructor].
      intros H0%(f_equal length). rewrite slice_length in H0 by lia. simpl in H0. lia.
    + pose proof (reach_bound f (length text) si Hb c Hsi Hr).
      destruct IH as (w1 & w2 & Hw & HU & Hne & Hk); [lia|].
      apply Hf in He as [He HUe]; [|lia].
      exists w1, (w2 ++ slice text c e). rewrite app_assoc, <- Hw.
      split; [apply slice_split; lia|]. split; [done|split; [done|by apply kleene_snoc]].
  - intros [He (w1 & w2 & Hw & HU & Hne & Hk)].
    apply slice_app_inv in Hw as (j & Hj & <- & <-); [|lia].
    assert (si < j)%nat by (destruct (decide (si = j)) as [->|]; [by rewrite slice_nil in Hne|lia]).
    assert (Hrj : reach f si j). { apply reach_one; [done|]. apply Hf; [done|]. split; [lia|done]. }
    clear Hne HU. remember (slice text j e) as w eqn:Heq. revert j Hj H Hrj Heq.
    induction Hk as [|u v Hu Hv IH]; intros j Hj Hlt Hrj Heq.
    + apply (f_equal length) in Heq. rewrite slice_length in Heq by lia. simpl in Heq.
      by assert (j = e) as <- by lia.
    + symmetry in Heq. apply slice_app_inv in Heq as (k & Hk & <- & <-); [|lia].
      destruct (decide (k = j)) as [->|]; [by apply (IH j)|].
      apply (IH k); [lia|lia| |done]. apply reach_step with j; [done|lia|].
      apply Hf; [lia|]. split; [lia|done].
Qed.

Lemma slice_is_nil si e : (si <= e <= length text)%nat -> slice text si e = [] <-> e = si.
Proof.
  intros He. split; [|intros ->; apply slice_nil].
  intros Hn%(f_equal length). rewrite slice_length in Hn by lia. simpl in Hn. lia.
Qed.

Lemma closure_elem f U (ends0 : list nat) si x :
  ends_ok f U -> (si <= length text)%nat ->
  x ∈ (let '(frontier, seen) := push_new si (f si) [] [] in
       ext_loop (length text) f frontier seen ends0)
  <-> x ∈ ends0 \/ (si <= x <= length text)%nat /\ ext_lang ExtPlus U (slice text si x).
Proof.
  intros Hf Hsi. destruct (push_new_spec si (f si) [] []) as (new & -> & Hnd & Hnew).
  rewrite <- reach_plus, !app_nil_r by done.
  apply ext_loop_spec with (N := length text) (done := []); [|done| |set_solver|simpl; lia|set_solver].
  - intros c e He Hc. apply Hf in He; [lia|done].
  - split; simpl; [done| |set_solver|set_solver].
    intros y Hy. apply Hnew in Hy as (Hy & Hlt & _). by apply reach_one.
Qed.

Lemma ext_ends_ok kind (fs : list (nat -> list nat)) U :
  ends_ok (fun si => concat (map (fun br => br si) fs)) U ->
  ends_ok (enumerate_ext_ends text kind fs) (ext_lang kind U).
Proof.
  intros Hf si e Hsi. unfold enumerate_ext_ends. destruct kind.
  - rewrite set_insert_all_elem, list_elem_of_singleton, (Hf si e Hsi). simpl.
    split; [intros [->|[? ?]]; [rewrite slice_nil|]; auto with lia|].
    intros [He [Hn|HU]]; [|by right]. left. by apply slice_is_nil in Hn.
  - etrans; [apply (closure_elem _ U [si] si e Hf Hsi)|].
    rewrite list_elem_of_singleton. simpl. rewrite kleene_plus.
    split; [intros [->|[? ?]]; [rewrite slice_nil|]; auto with lia|].
    intros [He [Hn|HU]]; [|by right]. left. by apply slice_is_nil in Hn.
  - etrans; [apply (closure_elem _ U [] si e Hf Hsi)|]. set_solver.
  - apply Hf, Hsi.
  - rewrite list_elem_of_filter, positions_elem. rewrite Is_true_true, negb_true_iff.
    rewrite <- not_true_iff_false, existsb_exists. simpl.
    specialize (Hf si e Hsi). rewrite elem_of_concat_map in Hf.
    setoid_rewrite mem_elem. setoid_rewrite <- list_elem_of_In. tauto.
Qed.

Lemma toks_ends_ok toks :
  Forall (fun t => ends_ok (tok_ends text opts t) (tok_lang opts t)) toks ->
  ends_ok (collect_match_ends text opts toks) (toks_lang opts toks).
Proof.
  induction 1 as [|t toks Ht _ IH]; simpl.
  - intros si e Hsi. rewrite list_elem_of_singleton. split; [intros ->; rewrite slice_nil; auto with lia|].
    intros [He Hn]. by apply slice_is_nil in Hn.
  - by apply (concat_ends_ok _ _ _ _ Ht IH).
Qed.

Lemma branches_ends_ok branches :
  Forall (fun br => ends_ok (collect_match_ends text opts br) (toks_lang opts br)) branches ->
  ends_ok (fun si => concat (map (fun br => br si) (map (collect_match_ends text opts) branches)))
    (branches_lang opts branches).
Proof.
  intros Hall si e Hsi. rewrite map_map, elem_of_concat_map. unfold branches_lang.
  rewrite Forall_forall in Hall. split.
  - intros (br & Hbr & He). apply (Hall br Hbr) in He; [|done]. naive_solver.
  - intros (He & br & Hbr & HL). exists br. split; [done|]. by apply (Hall br Hbr).
Qed.

Lemma tok_ends_ok t : ends_ok (tok_ends text opts t) (tok_lang opts t).
Proof.
  induction t as [b| | |n items|kind branches IH] using Tok_ind'.
  - apply byte_ends_ok. intros si. simpl. by destruct (text !! si).
  - intros si e Hsi. change (tok_ends text opts Star si) with (positions text si).
    rewrite positions_elem. simpl. tauto.
  - apply byte_ends_ok. intros si. simpl. by destruct (text !! si).
  - apply byte_ends_ok. intros si. simpl. by destruct (text !! si).
  - intros si e Hsi. rewrite tok_lang_ext.
    change (tok_ends text opts (Ext kind branches) si)
      with (enumerate_ext_ends text kind (map (collect_match_ends text opts) branches) si).
    apply ext_ends_ok; [|done]. apply branches_ends_ok. eapply Forall_impl; [exact IH|].
    intros br Hbr. by apply toks_ends_ok.
Qed.

Lemma collect_ok toks : ends_ok (collect_match_ends text opts toks) (toks_lang opts toks).
Proof. apply toks_ends_ok, Forall_forall. intros t _. apply tok_ends_ok. Qed.
End MatcherCorrect.

Lemma match_tokens_lang text opts toks : match_tokens text opts toks = true <-> toks_lang opts toks text.
Proof.
  unfold match_tokens. rewrite mem_elem, (collect_ok text opts toks 0%nat (length text)) by lia.
  rewrite slice_all. intuition lia.
Qed.

(** * Theorems *)


(** the ends collected from any start position are exactly the ends of the
    substrings the pattern accepts, which is what prefix removal and
    substitution rely on. *)
Theorem collect_match_ends_correct (text : bytes) (opts : GlobOpts) (toks : list Tok) (si e : nat)
    (Hsi : (si <= length text)%nat) :
  e ∈ collect_match_ends text opts toks si
  <-> (si <= e <= length text)%nat /\ toks_lang opts toks (slice text si e).
Proof. by apply collect_ok. Qed.

Lemma collect_match_ends_correct_witness :
  (3%nat ∈ collect_match_ends (bs "xabab") ext_opts [Ext ExtPlus [[Lit 97; Lit 98]]] 1)
  /\ toks_lang ext_opts [Ext ExtPlus [[Lit 97; Lit 98]]] (bs "ab").
Proof.
  assert (3%nat ∈ collect_match_ends (bs "xabab") ext_opts [Ext ExtPlus [[Lit 97; Lit 98]]] 1) as H
    by (vm_compute; set_solver).
  split; [exact H|].
  apply (collect_match_ends_correct (bs "xabab") ext_opts [Ext ExtPlus [[Lit 97; Lit 98]]] 1 3)
    in H; [exact (proj2 H)|simpl; lia].
Defined.

(** when no branch accepts the empty word, [+(..)] accepts the
    concatenations of one or more words of the branches, and [*(..)] those of
    zero or more. *)
Theorem repetition_words (branches : list (list Tok)) (opts : GlobOpts) (w : bytes)
    (Hne : ~ branches_lang opts branches []) :
  (tok_lang opts (Ext ExtStar branches) w
   <-> exists ws, Forall (branches_lang opts branches) ws /\ w = concat ws) /\
  (tok_lang opts (Ext ExtPlus branches) w
   <-> exists ws, ws <> [] /\ Forall (branches_lang opts branches) ws /\ w = concat ws).
Proof.
  rewrite !tok_lang_ext. set (U := branches_lang opts branches) in *.
  assert (Hk : forall v, kleene U v <-> exists ws, Forall U ws /\ v = concat ws).
  { intros v. split.
    - induction 1 as [|u v Hu _ (ws & Hws & ->)]; [by exists []|exists (u :: ws)]. auto.
    - intros (ws & Hws & ->). induction Hws; simpl; by constructor. }
  split; [apply Hk|]. simpl. setoid_rewrite Hk. split.
  - intros (w1 & w2 & -> & H1 & _ & ws & Hws & ->). exists (w1 :: ws). auto.
  - intros ([|w1 ws] & Hn & Hws & ->); [done|]. inversion Hws; subst.
    exists w1, (concat ws). split; [done|]. split; [done|]. split; [by intros ->|by exists ws].
Qed.

Lemma repetition_words_witness :
  exists ws, ws <> [] /\ Forall (branches_lang ext_opts [[Lit 97]; [Lit 98]]) ws
             /\ bs "abba" = concat ws.
Proof.
  assert (H : toks_lang ext_opts [Ext ExtPlus [[Lit 97]; [Lit 98]]] (bs "abba"))
    by (apply match_tokens_lang; vm_compute; reflexivity).
  destruct H as (w1 & w2 & Hw & H1 & H2). cbn in H2. subst w2. rewrite app_nil_r in Hw.
  rewrite Hw. apply (repetition_words [[Lit 97]; [Lit 98]] ext_opts w1); [|exact H1].
  - intros (br & Hbr & HL). apply elem_of_cons in Hbr as [->|Hbr%list_elem_of_singleton]; [|subst br];
      destruct HL as (v1 & v2 & Hv & (c & -> & _) & _); discriminate.
Defined.

(** a [+(..)] with a branch that accepts the empty word does not accept
    the empty word itself, although [@(..)] with the same branches does. *)
Theorem plus_drops_empty_match (branches : list (list Tok)) (opts : GlobOpts) :
  match_tokens [] opts [Ext ExtPlus branches] = false.
Proof.
  apply not_true_iff_false. rewrite match_tokens_lang.
  intros (w1 & w2 & Hw & H1 & _). symmetry in Hw. apply app_nil in Hw as [-> ->].
  apply tok_lang_ext in H1 as (u & v & Huv & _ & Hu & _).
  symmetry in Huv. by apply app_nil in Huv as [-> ->].
Qed.
