(* ===== verification/PatternOps.v ===== *)
(** Pattern operations of parameter expansion (crates/expander/src/pattern.rs):
    removal of the shortest and longest matching prefix or suffix, leftmost
    longest substitution, case modification and the leading-dot rule, each
    against the language of the pattern, and the equivalence of the fast paths
    for literal patterns with the general ones. *)
From stdpp Require Import sets.
From S2P Require Import Prelude Buf Pattern PatternLang.

(** * Literal patterns *)

Lemma all_lits_map toks l : all_lits toks = Some l -> toks = map Lit l.
Proof.
  revert l. induction toks as [|t toks IH]; intros l; simpl; [by intros [= <-]|].
  destruct t; try done. destruct (all_lits toks) as [l'|]; simpl; [|done].
  intros [= <-]. simpl. by rewrite (IH l').
Qed.

Lemma literal_pattern_parse pat opts l :
  literal_pattern pat opts = Some l -> parse pat opts = map Lit l.
Proof. unfold literal_pattern. destruct (has_glob_meta pat opts); [done|]. apply all_lits_map. Qed.

Lemma eq_ignore_ascii_case_sym a b : eq_ignore_ascii_case a b = eq_ignore_ascii_case b a.
Proof. apply Z.eqb_sym. Qed.

Lemma literal_eq_nil l opts : literal_eq [] l opts = is_nil l.
Proof. destruct l; [|done]. unfold literal_eq. simpl. by destruct (nocaseglob opts). Qed.

Lemma literal_eq_cons c w l opts :
  literal_eq (c :: w) l opts
  = match l with b :: l => lit_eq b c opts && literal_eq w l opts | [] => false end.
Proof.
  destruct l as [|b l]; [done|]. unfold literal_eq, lit_eq. simpl.
  destruct (length w =? length l)%nat; simpl; [|by rewrite andb_false_r].
  rewrite eq_ignore_ascii_case_sym, Z.eqb_sym. by destruct (nocaseglob opts).
Qed.

Lemma lits_lang opts l w : toks_lang opts (map Lit l) w <-> literal_eq w l opts = true.
Proof.
  revert w. induction l as [|b l IH]; intros w; simpl.
  - destruct w; [by rewrite literal_eq_nil|by rewrite literal_eq_cons].
  - split.
    + intros (w1 & w2 & -> & (c & -> & Hc) & Hw). simpl. rewrite literal_eq_cons, Hc. by apply IH.
    + destruct w as [|c w]; [by rewrite literal_eq_nil|]. rewrite literal_eq_cons.
      intros [Hc Hw]%andb_true_iff. exists [c], w. split; [done|]. split; [by exists c|by apply IH].
Qed.

Lemma literal_eq_length w l opts : literal_eq w l opts = true -> length w = length l.
Proof. unfold literal_eq. destruct (length w =? length l)%nat eqn:H; [|done]. by apply Nat.eqb_eq in H. Qed.

(** The ends of a literal: one at most. *)
Lemma lits_ends s opts l i e :
  (i <= length s)%nat ->
  e ∈ collect_match_ends s opts (map Lit l) i
  <-> e = (i + length l)%nat /\ (i + length l <= length s)%nat
      /\ literal_eq (slice s i (i + length l)) l opts = true.
Proof.
  intros Hi. rewrite (collect_ok s opts (map Lit l) i e) by done. rewrite lits_lang. split.
  - intros [He Hl]. pose proof (literal_eq_length _ _ _ Hl) as Hlen.
    rewrite slice_length in Hlen by lia. assert (e = (i + length l)%nat) as -> by lia. split; [done|split; [lia|done]].
  - intros (-> & Hle & Hl). split; [lia|done].
Qed.

(** * Extremes of a list of positions *)

Lemma max_opt_spec l :
  match max_opt l with Some m => m ∈ l /\ forall x, x ∈ l -> (x <= m)%nat | None => l = [] end.
Proof.
  induction l as [|e l IH]; simpl; [done|]. destruct (max_opt l) as [m|].
  - destruct IH as [Hin Hle]. split.
    + destruct (Nat.max_spec e m) as [[_ ->]|[_ ->]]; set_solver.
    + intros x [->|Hx]%elem_of_cons; [lia|]. specialize (Hle x Hx). lia.
  - subst l. set_solver.
Qed.

Lemma min_opt_spec l :
  match min_opt l with Some m => m ∈ l /\ forall x, x ∈ l -> (m <= x)%nat | None => l = [] end.
Proof.
  induction l as [|e l IH]; simpl; [done|]. destruct (min_opt l) as [m|].
  - destruct IH as [Hin Hle]. split.
    + destruct (Nat.min_spec e m) as [[_ ->]|[_ ->]]; set_solver.
    + intros x [->|Hx]%elem_of_cons; [lia|]. specialize (Hle x Hx). lia.
  - subst l. set_solver.
Qed.

Lemma max_opt_unique l m :
  m ∈ l -> (forall x, x ∈ l -> (x <= m)%nat) -> max_opt l = Some m.
Proof.
  intros Hin Hle. pose proof (max_opt_spec l) as H. destruct (max_opt l) as [m'|].
  - destruct H as [Hin' Hle']. specialize (Hle m' Hin'). specialize (Hle' m Hin). f_equal. lia.
  - subst l. set_solver.
Qed.

Lemma max_opt_none l : (forall x, x ∉ l) -> max_opt l = None.
Proof.
  intros H. pose proof (max_opt_spec l) as Hs. destruct (max_opt l) as [m|]; [|done]. destruct Hs.
  by destruct (H m).
Qed.

(** The offset chosen by [suffix_start] is the extreme one. *)
Definition suffix_ok (s : bytes) (opts : GlobOpts) (toks : list Tok) (k : nat) : Prop :=
  (k <= length s)%nat /\ toks_lang opts toks (drop k s).

Lemma slice_to_end {A} (s : list A) k : slice s k (length s) = drop k s.
Proof. unfold slice. apply firstn_all2. rewrite length_drop. lia. Qed.

Lemma slice_from_start {A} (s : list A) e : slice s 0 e = take e s.
Proof. unfold slice. by rewrite Nat.sub_0_r. Qed.

Lemma suffix_ok_mem s opts toks k :
  (k <= length s)%nat ->
  mem (length s) (collect_match_ends s opts toks k) = true <-> suffix_ok s opts toks k.
Proof.
  intros Hk. rewrite mem_elem, (collect_ok s opts toks k (length s)) by done.
  rewrite slice_to_end. unfold suffix_ok. intuition lia.
Qed.

Lemma suffix_start_spec s toks longest opts :
  match suffix_start s toks longest opts with
  | Some k => suffix_ok s opts toks k /\
      forall k', suffix_ok s opts toks k' -> if longest then (k <= k')%nat else (k' <= k)%nat
  | None => forall k, ~ suffix_ok s opts toks k
  end.
Proof.
  unfold suffix_start.
  set (P best n := match best with
    | Some k => suffix_ok s opts toks k /\ forall k', (k' < n)%nat -> suffix_ok s opts toks k' ->
                  if longest then (k <= k')%nat else (k' <= k)%nat
    | None => forall k, (k < n)%nat -> ~ suffix_ok s opts toks k end).
  assert (forall n, (n <= S (length s))%nat ->
    P (fold_left (fun best k =>
        if mem (length s) (collect_match_ends s opts toks k) then
          match best with
          | None => Some k
          | Some b => Some (if longest then Nat.min b k else Nat.max b k)
          end
        else best) (seq 0 n) None) n) as Hfold.
  { induction n as [|n IH]; intros Hn; [unfold P; simpl; intros; lia|].
    rewrite seq_S, fold_left_app. simpl. specialize (IH ltac:(lia)).
    set (best := fold_left _ (seq 0 n) None) in *. clearbody best.
    destruct (mem (length s) (collect_match_ends s opts toks n)) eqn:Hm.
    - apply suffix_ok_mem in Hm; [|lia]. destruct best as [b|]; unfold P in *; cbn in *.
      + destruct IH as [Hb Hbest]. split.
        * destruct longest; [destruct (Nat.min_spec b n) as [[_ ->]|[_ ->]]
            |destruct (Nat.max_spec b n) as [[_ ->]|[_ ->]]]; done.
        * intros k' Hk' Hok. destruct (decide (k' = n)) as [->|]; [destruct longest; lia|].
          specialize (Hbest k' ltac:(lia) Hok). destruct longest; lia.
      + split; [done|]. intros k' Hk' Hok. destruct (decide (k' = n)) as [->|]; [by destruct longest|].
        destruct (IH k' ltac:(lia) Hok).
    - assert (~ suffix_ok s opts toks n) as Hno by (rewrite <- suffix_ok_mem, Hm by lia; done).
      destruct best as [b|]; unfold P in *; cbn in *.
      + destruct IH as [Hb Hbest]. split; [done|]. intros k' Hk' Hok.
        destruct (decide (k' = n)) as [->|]; [done|]. apply Hbest; [lia|done].
      + intros k Hk. destruct (decide (k = n)) as [->|]; [done|]. apply IH. lia. }
  specialize (Hfold (S (length s)) ltac:(lia)). unfold P in Hfold.
  destruct (fold_left _ _ _) as [k|].
  - destruct Hfold as [Hk Hb]. split; [done|]. intros k' Hk'. apply Hb; [|done]. destruct Hk'. lia.
  - intros k Hk. apply (Hfold k); [destruct Hk; lia|done].
Qed.

(** * Removal *)

(** [k] is the position, among those that satisfy [P], that the shortest or
    longest match asks for. *)
Definition extreme (P : nat -> Prop) (greatest : bool) (k : nat) : Prop :=
  P k /\ forall k', P k' -> if greatest then (k' <= k)%nat else (k <= k')%nat.

Definition prefix_ok (s : bytes) (opts : GlobOpts) (toks : list Tok) (e : nat) : Prop :=
  (e <= length s)%nat /\ toks_lang opts toks (take e s).

Lemma prefix_ok_elem s opts toks e :
  e ∈ collect_match_ends s opts toks 0 <-> prefix_ok s opts toks e.
Proof.
  rewrite (collect_ok s opts toks 0%nat e), slice_from_start by lia. unfold prefix_ok. intuition lia.
Qed.

Lemma literal_prefix_ok s opts l e :
  prefix_ok s opts (map Lit l) e <-> e = length l /\ literal_starts_with s l opts = true.
Proof.
  unfold prefix_ok, literal_starts_with. rewrite lits_lang, andb_true_iff, Nat.leb_le. split.
  - intros [He Hl]. pose proof (literal_eq_length _ _ _ Hl) as Hlen. rewrite length_take in Hlen.
    assert (e = length l) as -> by lia. done.
  - intros (-> & ? & ?). done.
Qed.

Lemma literal_suffix_ok s opts l k :
  suffix_ok s opts (map Lit l) k
  <-> k = (length s - length l)%nat /\ literal_ends_with s l opts = true.
Proof.
  unfold suffix_ok, literal_ends_with. rewrite lits_lang, andb_true_iff, Nat.leb_le. split.
  - intros [Hk Hl]. pose proof (literal_eq_length _ _ _ Hl) as Hlen. rewrite length_drop in Hlen.
    assert (k = (length s - length l)%nat) as -> by lia. split; [done|]. split; [lia|done].
  - intros (-> & ? & ?). split; [lia|done].
Qed.

Lemma prefix_ok_nil s opts e : prefix_ok s opts [] e <-> e = 0%nat.
Proof. rewrite <- prefix_ok_elem. simpl. apply list_elem_of_singleton. Qed.

Lemma suffix_ok_nil s opts k : suffix_ok s opts [] k <-> k = length s.
Proof.
  unfold suffix_ok. simpl. split; [|intros ->; split; [lia|apply drop_all]].
  intros [Hk Hn%(f_equal length)]. rewrite length_drop in Hn. simpl in Hn. lia.
Qed.

(** [${s#pat}] and [${s##pat}] remove the shortest and the longest prefix
    in the language of the pattern, and leave the text alone when no prefix is
    in it; the fast path for literal patterns included. *)
Theorem remove_prefix_correct (s pat : bytes) (longest : bool) (opts : GlobOpts) :
  let r := remove_pattern_with_opts s pat true longest opts in
  (exists e, extreme (prefix_ok s opts (parse pat opts)) longest e /\ r = drop e s) \/
  ((forall e, ~ prefix_ok s opts (parse pat opts) e) /\ r = s).
Proof.
  cbv zeta. unfold remove_pattern_with_opts, extreme.
  destruct (literal_pattern pat opts) as [l|] eqn:Hl.
  - rewrite (literal_pattern_parse _ _ _ Hl). destruct l as [|b l]; simpl is_nil; cbv iota.
    + left. exists 0%nat. simpl. setoid_rewrite prefix_ok_nil. split; [|done].
      split; [done|]. intros k' ->. destruct longest; simpl; lia.
    + setoid_rewrite literal_prefix_ok. destruct (literal_starts_with s (b :: l) opts).
      * left. exists (length (b :: l)). split; [|done]. split; [done|].
        intros k' [-> _]. destruct longest; simpl; lia.
      * right. split; [|done]. by intros e [_ ?].
  - destruct (parse pat opts) as [|t toks]; simpl is_nil; cbv iota.
    + left. exists 0%nat. setoid_rewrite prefix_ok_nil. split; [|done].
      split; [done|]. intros k' ->. destruct longest; simpl; lia.
    + setoid_rewrite <- prefix_ok_elem. set (hits := collect_match_ends s opts (t :: toks) 0).
      destruct longest;
        [pose proof (max_opt_spec hits) as H; destruct (max_opt hits)
        |pose proof (min_opt_spec hits) as H; destruct (min_opt hits)].
      all: try (left; eexists; split; [exact H|done]).
      all: right; split; [|done]; rewrite H; set_solver.
Qed.

(** [${s%pat}] and [${s%%pat}] remove the shortest and the longest suffix
    in the language of the pattern, and leave the text alone when no suffix is
    in it. *)
Theorem remove_suffix_correct (s pat : bytes) (longest : bool) (opts : GlobOpts) :
  let r := remove_pattern_with_opts s pat false longest opts in
  (exists k, extreme (suffix_ok s opts (parse pat opts)) (negb longest) k /\ r = take k s) \/
  ((forall k, ~ suffix_ok s opts (parse pat opts) k) /\ r = s).
Proof.
  cbv zeta. unfold remove_pattern_with_opts, extreme.
  destruct (literal_pattern pat opts) as [l|] eqn:Hl.
  - rewrite (literal_pattern_parse _ _ _ Hl). destruct l as [|b l]; simpl is_nil; cbv iota.
    + left. exists (length s). simpl. setoid_rewrite suffix_ok_nil. rewrite firstn_all. split; [|done].
      split; [done|]. intros k' ->. destruct longest; simpl; lia.
    + setoid_rewrite literal_suffix_ok. destruct (literal_ends_with s (b :: l) opts).
      * left. eexists. split; [|done]. split; [done|]. intros k' [-> _]. destruct longest; simpl; lia.
      * right. split; [|done]. by intros e [_ ?].
  - destruct (parse pat opts) as [|t toks]; simpl is_nil; cbv iota.
    + left. exists (length s). setoid_rewrite suffix_ok_nil. rewrite firstn_all. split; [|done].
      split; [done|]. intros k' ->. destruct longest; simpl; lia.
    + pose proof (suffix_start_spec s (t :: toks) longest opts) as H.
      destruct (suffix_start s (t :: toks) longest opts) as [k|]; [|by right].
      left. exists k. split; [|done]. destruct H as [Hk Hb]. split; [done|].
      intros k' Hk'. specialize (Hb k' Hk'). by destruct longest.
Qed.

(** * Substitution *)

(** [w] is the longest non-empty word of [L] at the start of [w ++ rest]. *)
Definition longest_word (L : lang) (w rest : bytes) : Prop :=
  w <> [] /\ L w /\
  forall w' rest', w ++ rest = w' ++ rest' -> L w' -> (length w' <= length w)%nat.

(** Replacement of the leftmost longest non-empty words of [L] (of the first
    one only with [first]). *)
Inductive substituted (L : lang) (rep : bytes -> bytes) (first : bool) : bytes -> bytes -> Prop :=
| sub_end : substituted L rep first [] []
| sub_skip b s out :
    (forall w rest, b :: s = w ++ rest -> L w -> w = []) ->
    substituted L rep first s out ->
    substituted L rep first (b :: s) (b :: out)
| sub_first w rest :
    first = true -> longest_word L w rest -> substituted L rep first (w ++ rest) (rep w ++ rest)
| sub_all w rest out :
    first = false -> longest_word L w rest -> substituted L rep first rest out ->
    substituted L rep first (w ++ rest) (rep w ++ out).

Section Subst.
Context (s : bytes) (toks : list Tok) (opts : GlobOpts) (rep : bytes -> bytes).

Definition nonempty_ends (i : nat) : list nat :=
  List.filter (fun e => i <? e)%nat (collect_match_ends s opts toks i).

Lemma nonempty_ends_elem i e :
  (i <= length s)%nat ->
  e ∈ nonempty_ends i <-> (i < e <= length s)%nat /\ toks_lang opts toks (slice s i e).
Proof.
  intros Hi. unfold nonempty_ends. rewrite !list_elem_of_In, filter_In, <- list_elem_of_In.
  rewrite (collect_ok s opts toks i e Hi), Nat.ltb_lt. intuition lia.
Qed.

(** A word at the start of the rest of the text is a substring. *)
Lemma word_at i w rest :
  (i <= length s)%nat -> drop i s = w ++ rest ->
  (i + length w <= length s)%nat /\ slice s i (i + length w) = w /\ drop (i + length w) s = rest.
Proof.
  intros Hi Hw. pose proof (f_equal length Hw) as Hl. rewrite length_drop, length_app in Hl.
  split; [lia|]. unfold slice. replace (i + length w - i)%nat with (length w) by lia.
  rewrite Hw, take_app_length. split; [done|]. by rewrite <- drop_drop, Hw, drop_app_length.
Qed.

Lemma no_match_at i :
  (i <= length s)%nat -> nonempty_ends i = [] ->
  forall w rest, drop i s = w ++ rest -> toks_lang opts toks w -> w = [].
Proof.
  intros Hi Hn w rest Hw HL. destruct (word_at i w rest Hi Hw) as (Hle & Hs & _).
  destruct w as [|b w]; [done|].
  assert ((i + length (b :: w))%nat ∈ nonempty_ends i) as Hin.
  { apply nonempty_ends_elem; [done|]. rewrite Hs. split; [|done]. simpl in *. lia. }
  rewrite Hn in Hin. by apply elem_of_nil in Hin.
Qed.

Lemma subst_loop_ok first fuel i :
  (i <= length s)%nat -> (length s - i + 2 <= fuel)%nat ->
  substituted (toks_lang opts toks) rep first (drop i s)
    (subst_loop fuel s toks first opts rep i).
Proof.
  revert i. induction fuel as [|fuel IH]; intros i Hi Hf; [lia|]. simpl.
  rewrite (proj2 (Nat.ltb_ge (length s) i)) by done. fold (nonempty_ends i).
  pose proof (max_opt_spec (nonempty_ends i)) as Hm. destruct (max_opt (nonempty_ends i)) as [e|].
  - destruct Hm as [Hin Hmax]. apply nonempty_ends_elem in Hin as [He HL]; [|done].
    rewrite <- (slice_to_end s i), (slice_split s i e (length s)), slice_to_end by lia.
    assert (longest_word (toks_lang opts toks) (slice s i e) (drop e s)) as Hlw;
      [split; [|split; [done|]]|destruct first; [by apply sub_first|apply sub_all; [done..|apply IH; lia]]].
    + intros Hn%(f_equal length). rewrite slice_length in Hn by lia. simpl in Hn. lia.
    + intros w' rest' Hw' HL'. rewrite <- slice_to_end, <- slice_split, slice_to_end in Hw' by lia.
      destruct (word_at i w' rest' Hi Hw') as (Hle & Hs & _). rewrite slice_length by lia.
      destruct w' as [|b w']; simpl in *; [lia|].
      assert ((i + S (length w'))%nat ∈ nonempty_ends i) as Hin'.
      { apply nonempty_ends_elem; [done|]. rewrite Hs. split; [lia|done]. }
      apply Hmax in Hin'. lia.
  - destruct (s !! i) as [b|] eqn:Hb.
    + rewrite (drop_S s b i Hb). apply lookup_lt_Some in Hb as Hlt. apply sub_skip; [|apply IH; lia].
      rewrite <- (drop_S s b i Hb). by apply no_match_at.
    + apply lookup_ge_None in Hb. assert (i = length s) as -> by lia. rewrite drop_all.
      destruct fuel as [|fuel]; [lia|]. simpl.
      rewrite (proj2 (Nat.ltb_lt (length s) (S (length s)))) by lia. constructor.
Qed.
End Subst.

Lemma longest_word_unique L w rest w' rest' :
  longest_word L w rest -> longest_word L w' rest' -> w ++ rest = w' ++ rest' -> w = w' /\ rest = rest'.
Proof.
  intros (_ & H1 & Hm1) (_ & H2 & Hm2) Heq. apply app_inj_1; [|done].
  specialize (Hm1 _ _ Heq H2). specialize (Hm2 _ _ (eq_sym Heq) H1). lia.
Qed.

(** The replacement is a function of the text. *)
Lemma substituted_unique L rep first s o1 o2 :
  substituted L rep first s o1 -> substituted L rep first s o2 -> o1 = o2.
Proof.
  intros H1. revert o2.
  induction H1 as [|b s o1 Hno _ IH|w rest Hf Hw|w rest o1 Hf Hw _ IH];
    intros o2 H2; inversion H2 as [Heq|b' s' o' Hno' Hs' Heq|w' rest' Hf' Hw' Heq|w' rest' o' Hf' Hw' Hs' Heq];
    subst; try congruence.
  all: try (destruct Hw as (Hne & _ & _); destruct w; [done|discriminate]).
  all: try (destruct Hw' as (Hne & _ & _); destruct w'; [done|discriminate]).
  - f_equal. auto.
  - destruct Hw' as (Hne & HL & _). destruct Hne. by apply (Hno w' rest').
  - destruct Hw' as (Hne & HL & _). destruct Hne. by apply (Hno w' rest').
  - destruct Hw as (Hne & HL & _). destruct Hne. by apply (Hno' w rest).
  - by destruct (longest_word_unique _ _ _ _ _ Hw' Hw Heq) as [-> ->].
  - destruct Hw as (Hne & HL & _). destruct Hne. by apply (Hno' w rest).
  - destruct (longest_word_unique _ _ _ _ _ Hw' Hw Heq) as [-> ->]. f_equal. auto.
Qed.

Lemma substituted_skip L rep first pre u out :
  (forall j, (j < length pre)%nat -> forall w rest, drop j (pre ++ u) = w ++ rest -> L w -> w = []) ->
  substituted L rep first u out -> substituted L rep first (pre ++ u) (pre ++ out).
Proof.
  induction pre as [|b pre IH]; intros Hno Hu; simpl; [done|]. apply sub_skip.
  - apply (Hno 0%nat). simpl. lia.
  - apply IH; [|done]. intros j Hj. apply (Hno (S j)). simpl. lia.
Qed.

Section LiteralSubst.
Context (l : bytes) (opts : GlobOpts) (rep : bytes -> bytes).
Context (Hne : l <> []).

Definition no_literal_at (u : bytes) : Prop :=
  forall w rest, u = w ++ rest -> toks_lang opts (map Lit l) w -> w = [].

Lemma literal_word u :
  literal_eq (take (length l) u) l opts = true ->
  longest_word (toks_lang opts (map Lit l)) (take (length l) u) (drop (length l) u).
Proof.
  intros Hl. pose proof (literal_eq_length _ _ _ Hl) as Hlen.
  split; [|split; [by apply lits_lang|]].
  - intros Hn. rewrite Hn in Hlen. by destruct l.
  - intros w' rest' _ Hw'%lits_lang%literal_eq_length. lia.
Qed.

Lemma no_literal u :
  (length u < length l)%nat \/ literal_eq (take (length l) u) l opts = false -> no_literal_at u.
Proof.
  intros H w rest -> Hw%lits_lang. pose proof (literal_eq_length _ _ _ Hw) as Hlen.
  rewrite length_app, <- Hlen, take_app_length, Hw in H. destruct H as [H|H]; [lia|done].
Qed.

Lemma find_window_spec u :
  match find_window u l opts with
  | Some rel => (rel + length l <= length u)%nat /\
      literal_eq (take (length l) (drop rel u)) l opts = true /\
      forall j, (j < rel)%nat -> no_literal_at (drop j u)
  | None => forall j, no_literal_at (drop j u)
  end.
Proof.
  assert (Hnil : no_literal_at []) by (intros [|? ?] ? ?; done).
  induction u as [|b u IH].
  - simpl. destruct l; [done|]. simpl. intros j. by rewrite drop_nil.
  - cbn [find_window]. destruct (length (b :: u) <? length l)%nat eqn:Hlt.
    + apply Nat.ltb_lt in Hlt. intros j. apply no_literal. left. rewrite length_drop. lia.
    + apply Nat.ltb_ge in Hlt.
      destruct (literal_eq (take (length l) (b :: u)) l opts) eqn:Hl; [split; [done|split; [done|lia]]|].
      assert (Hz : no_literal_at (b :: u)) by (apply no_literal; by right).
      destruct (find_window u l opts) as [rel|]; simpl.
      * destruct IH as (Hle & Heq & Hno). split; [lia|split; [done|]]. intros [|j] Hj; [done|].
        apply Hno. lia.
      * intros [|j]; [done|]. apply IH.
Qed.

Lemma find_literal_window u : find_literal u l opts = find_window u l opts.
Proof.
  unfold find_literal. destruct (length u <? length l)%nat eqn:H; [|done].
  destruct u; cbn [find_window]; by rewrite H.
Qed.

Lemma subst_literal_loop_ok s first fuel cursor :
  (cursor <= length s)%nat -> (length s - cursor < fuel)%nat ->
  substituted (toks_lang opts (map Lit l)) rep first (drop cursor s)
    (subst_literal_loop fuel s l first opts rep cursor).
Proof.
  revert cursor. induction fuel as [|fuel IH]; intros cursor Hc Hf; [lia|].
  cbn [subst_literal_loop]. rewrite find_literal_window.
  pose proof (find_window_spec (drop cursor s)) as Hw.
  destruct (find_window (drop cursor s) l opts) as [rel|].
  - destruct Hw as (Hle & Heq & Hno). rewrite length_drop in Hle. rewrite drop_drop in Heq.
    assert (0 < length l)%nat by (destruct l; [done|simpl; lia]).
    set (st := (cursor + rel)%nat) in *. set (en := (st + length l)%nat).
    assert (Hsl : slice s st en = take (length l) (drop st s)).
    { unfold slice. f_equal. subst en. lia. }
    assert (Hdr : drop st s = slice s st en ++ drop en s).
    { rewrite <- (slice_to_end s st), <- (slice_to_end s en). apply slice_split; lia. }
    rewrite <- (slice_to_end s cursor), (slice_split s cursor st (length s)), slice_to_end by lia.
    apply substituted_skip.
    + intros j Hj. rewrite slice_length in Hj by lia.
      rewrite <- (slice_to_end s st), <- slice_split, slice_to_end by lia. apply Hno. lia.
    + rewrite Hdr, Hsl.
      assert (longest_word (toks_lang opts (map Lit l)) (take (length l) (drop st s)) (drop en s)) as Hlw.
      { unfold en. rewrite <- drop_drop. by apply literal_word. }
      destruct first; [by apply sub_first|]. apply sub_all; [done..|]. apply IH; lia.
  - rewrite <- (app_nil_r (drop cursor s)). apply substituted_skip; [|constructor].
    intros j _. rewrite app_nil_r. apply Hw.
Qed.
End LiteralSubst.

Lemma subst_loops_agree s l opts rep first :
  l <> [] ->
  subst_literal_loop (S (length s)) s l first opts rep 0
  = subst_loop (S (S (length s))) s (map Lit l) first opts rep 0.
Proof.
  intros Hne. apply (substituted_unique (toks_lang opts (map Lit l)) rep first s).
  - apply (subst_literal_loop_ok l opts rep Hne s first (S (length s)) 0); lia.
  - apply (subst_loop_ok s (map Lit l) opts rep first (S (S (length s))) 0); lia.
Qed.

(** The literal fast path and the general path replace the same words. *)
Lemma subst_literal_equiv s l mode opts rep :
  pat_subst_literal s l mode opts rep = pat_subst_toks s (map Lit l) mode opts rep.
Proof.
  unfold pat_subst_literal, pat_subst_toks. destruct l as [|b l]; [done|]. simpl is_nil. cbv iota.
  assert (Hstar : star_pattern_matches_empty_for_substitution (map Lit (b :: l)) = false) by done.
  destruct mode.
  1, 2: rewrite Hstar, andb_false_r; by apply (subst_loops_agree s (b :: l)).
  - destruct (literal_starts_with s (b :: l) opts) eqn:Hs; simpl negb; cbv iota.
    + rewrite (max_opt_unique _ (length (b :: l))); [done| |].
      * apply prefix_ok_elem, literal_prefix_ok. done.
      * intros x Hx%prefix_ok_elem%literal_prefix_ok. destruct Hx. lia.
    + rewrite max_opt_none; [done|]. intros x Hx%prefix_ok_elem%literal_prefix_ok.
      destruct Hx. congruence.
  - pose proof (suffix_start_spec s (map Lit (b :: l)) true opts) as H.
    destruct (literal_ends_with s (b :: l) opts) eqn:Hs; simpl negb; cbv iota;
      destruct (suffix_start s (map Lit (b :: l)) true opts) as [k|].
    + destruct H as [Hk _]. by apply literal_suffix_ok in Hk as [-> _].
    + destruct (H (length s - length (b :: l))%nat). by apply literal_suffix_ok.
    + destruct H as [Hk _]. apply literal_suffix_ok in Hk as [_ ?]. congruence.
    + done.
Qed.

Lemma subst_dispatch s pat mode opts rep :
  pat_subst_with_replacer s pat mode opts rep = pat_subst_toks s (parse pat opts) mode opts rep.
Proof.
  unfold pat_subst_with_replacer. destruct (literal_pattern pat opts) as [l|] eqn:Hl; [|done].
  by rewrite (literal_pattern_parse _ _ _ Hl), subst_literal_equiv.
Qed.

(** the search for a literal (window comparison, cursor arithmetic) is an
    optimisation only: with any mode, replacement and case folding, a pattern
    without metacharacters gives the result of the general matcher on its
    tokens. *)
Theorem literal_fast_path_equivalent (s pat : bytes) (mode : PatSubMode) (opts : GlobOpts)
    (rep : bytes -> bytes) :
  pat_subst_with_replacer s pat mode opts rep = pat_subst_toks s (parse pat opts) mode opts rep.
Proof. apply subst_dispatch. Qed.



(** [${s/#pat/rep}] replaces the longest matching prefix and
    [${s/%pat/rep}] the longest matching suffix; without one the text is
    unchanged. *)
Theorem pat_subst_anchored (s pat : bytes) (opts : GlobOpts) (rep : bytes -> bytes) :
  let toks := parse pat opts in
  let pre := pat_subst_with_replacer s pat PrefixAnchored opts rep in
  let suf := pat_subst_with_replacer s pat SuffixAnchored opts rep in
  ((exists e, extreme (prefix_ok s opts toks) true e /\ pre = rep (take e s) ++ drop e s)
   \/ ((forall e, ~ prefix_ok s opts toks e) /\ pre = s)) /\
  ((exists k, extreme (suffix_ok s opts toks) false k /\ suf = take k s ++ rep (drop k s))
   \/ ((forall k, ~ suffix_ok s opts toks k) /\ suf = s)).
Proof.
  cbv zeta. rewrite !subst_dispatch. unfold pat_subst_toks, extreme.
  destruct (parse pat opts) as [|t toks]; simpl is_nil; cbv iota.
  - setoid_rewrite prefix_ok_nil. setoid_rewrite suffix_ok_nil. split; left.
    + exists 0%nat. split; [|done]. split; [done|]. intros; lia.
    + exists (length s). rewrite firstn_all, drop_all. split; [|done]. split; [done|]. intros; lia.
  - split.
    + setoid_rewrite <- prefix_ok_elem. set (hits := collect_match_ends s opts (t :: toks) 0).
      pose proof (max_opt_spec hits) as H. destruct (max_opt hits) as [e|]; [left; by exists e|].
      right. split; [|done]. rewrite H. set_solver.
    + pose proof (suffix_start_spec s (t :: toks) true opts) as H.
      destruct (suffix_start s (t :: toks) true opts) as [k|]; [left; by exists k|by right].
Qed.

(** * Case modification *)

(** [${s^pat}], [${s,,pat}] and the like keep the length and change each
    byte on its own: byte [i] has its case changed when, as a one-byte text,
    it matches the pattern (any byte without a pattern), only byte 0 in the
    modes for the first character. *)
Theorem casemod_pointwise (s : bytes) (pat : option bytes) (mode : CaseModMode) (opts : GlobOpts) :
  length (casemod_with_opts s pat mode opts) = length s /\
  forall i b, s !! i = Some b ->
    casemod_with_opts s pat mode opts !! i
    = Some (if match pat with Some p => fnmatch p [b] opts | None => true end
               && (negb (first_mode mode) || (i =? 0)%nat)
            then change_case mode b else b).
Proof.
  unfold casemod_with_opts. split; [apply length_imap|]. intros i b Hb.
  rewrite list_lookup_imap, Hb. simpl. f_equal.
  apply lookup_lt_Some in Hb as Hlt.
  assert (Hm : forall t, existsb (Nat.eqb (S i)) (collect_match_ends s opts t i) = match_tokens [b] opts t).
  { intros t. apply eq_iff_eq_true. rewrite match_tokens_lang. change (existsb _ ?l) with (mem (S i) l).
    rewrite mem_elem, (collect_ok s opts t i (S i)), (slice_one s i b Hb) by lia. intuition lia. }
  destruct pat as [p|]; simpl; [|done]. by rewrite Hm.
Qed.

(** * The leading-dot rule *)

Lemma sort_dedup_elem l x : x ∈ sort_dedup l <-> x ∈ l.
Proof.
  assert (Hins : forall e l, x ∈ insert_sorted e l <-> x = e \/ x ∈ l).
  { clear. intros e l. induction l as [|y l IH]; simpl; [set_solver|].
    destruct (e <? y)%nat; [set_solver|]. destruct (e =? y)%nat eqn:He; [apply Nat.eqb_eq in He; set_solver|].
    set_solver. }
  induction l as [|e l IH]; simpl; [done|]. rewrite Hins, IH. set_solver.
Qed.

Section DotSound.
Context (text : bytes) (opts : GlobOpts).

(** [f] finds only ends of matches of [L] that start with a dot. *)
Definition dot_sound (f : nat -> list nat) (L : lang) : Prop :=
  forall si e, e ∈ f si ->
    (si < e <= length text)%nat /\ text !! si = Some "."%b /\ L (slice text si e).

Definition tok_dot_sound (t : Tok) : Prop :=
  forall si skip rest, text !! si = Some "."%b ->
    (forall e, e ∈ skip -> (si < e <= length text)%nat /\ toks_lang opts rest (slice text si e)) ->
    forall e, e ∈ tok_dot_ends text opts t si skip (collect_match_ends text opts rest) ->
      (si < e <= length text)%nat /\ toks_lang opts (t :: rest) (slice text si e).

Lemma toks_dot_sound toks :
  Forall tok_dot_sound toks -> dot_sound (collect_explicit_dot_ends text opts toks) (toks_lang opts toks).
Proof.
  induction 1 as [|t toks Ht _ IH]; intros si e; simpl.
  - destruct (text !! si); [|set_solver]. destruct (negb _); set_solver.
  - destruct (text !! si) as [c|] eqn:Hc; [|set_solver].
    destruct (c =? "."%b) eqn:Hd; simpl negb; cbv iota; [|set_solver]. apply Z.eqb_eq in Hd. subst c.
    intros He. apply Ht in He as [? ?]; [done|done|]. intros e' He'. apply IH in He' as (? & _ & ?). done.
Qed.

Lemma rest_from si j w rest e :
  (si < j <= length text)%nat -> slice text si j = w ->
  e ∈ collect_match_ends text opts rest j ->
  (si < e <= length text)%nat /\
  exists w2, slice text si e = w ++ w2 /\ toks_lang opts rest w2.
Proof.
  intros Hj <- He. apply (collect_ok text opts rest j e) in He as [He HL]; [|lia].
  split; [lia|]. exists (slice text j e). split; [apply slice_split; lia|done].
Qed.

Lemma dot_kind_lang kind U w : dot_kind kind = true -> U w -> w <> [] -> ext_lang kind U w.
Proof.
  intros Hk HU Hw. destruct kind; simpl in *; try done; auto.
  - rewrite <- (app_nil_r w). by apply kleene_app; [|constructor].
  - exists w, []. rewrite app_nil_r. by repeat split; try constructor.
Qed.

Lemma optional_kind_lang kind U : optional_kind kind = true -> ext_lang kind U [].
Proof. intros Hk. destruct kind; try done; simpl; [by left|constructor]. Qed.

Lemma ext_dot_sound kind branches :
  Forall (fun br => dot_sound (collect_explicit_dot_ends text opts br) (toks_lang opts br)) branches ->
  tok_dot_sound (Ext kind branches).
Proof.
  intros Hbr si skip rest Hdot Hskip e He.
  change (e ∈ (if optional_kind kind then skip else [])
    ++ (if dot_kind kind then concat (map (collect_match_ends text opts rest)
          (sort_dedup (concat (map (fun br => collect_explicit_dot_ends text opts br si) branches))))
        else [])) in He.
  assert (Hext : forall w1 w2, tok_lang opts (Ext kind branches) w1 -> toks_lang opts rest w2 ->
            toks_lang opts (Ext kind branches :: rest) (w1 ++ w2)) by (intros; by exists w1, w2).
  apply elem_of_app in He as [He|He].
  - destruct (optional_kind kind) eqn:Hk; [|by apply elem_of_nil in He].
    apply Hskip in He as [? ?]. split; [done|]. apply (Hext []); [|done].
    apply tok_lang_ext. by apply optional_kind_lang.
  - destruct (dot_kind kind) eqn:Hk; [|by apply elem_of_nil in He].
    apply elem_of_concat_map in He as (j & Hj & He).
    apply sort_dedup_elem, elem_of_concat_map in Hj as (br & Hin & Hj).
    rewrite Forall_forall in Hbr. apply (Hbr br Hin) in Hj as (Hj & _ & HL).
    destruct (rest_from si j _ rest e Hj eq_refl He) as (? & w2 & -> & Hw2). split; [done|].
    apply Hext; [|done]. apply tok_lang_ext. apply dot_kind_lang; [done|by exists br|].
    intros Hn%(f_equal length). rewrite slice_length in Hn by lia. simpl in Hn. lia.
Qed.

Lemma tok_dot_sound_all t : tok_dot_sound t.
Proof.
  induction t as [b| | |n items|kind branches IH] using Tok_ind'.
  - intros si skip rest Hdot _ e. simpl. destruct (b =? "."%b) eqn:Hb; [|set_solver].
    apply Z.eqb_eq in Hb. subst b. apply lookup_lt_Some in Hdot as Hlt. intros He.
    destruct (rest_from si (S si) _ rest e ltac:(lia) (slice_one text si _ Hdot) He) as (? & w2 & -> & Hw2).
    split; [done|]. exists ["."%b], w2. split; [done|]. split; [|done]. exists "."%b. split; [done|].
    unfold lit_eq. by destruct (nocaseglob opts).
  - intros si skip rest _ _ e He. by apply elem_of_nil in He.
  - intros si skip rest _ _ e He. by apply elem_of_nil in He.
  - intros si skip rest _ _ e He. by apply elem_of_nil in He.
  - apply ext_dot_sound. eapply Forall_impl; [exact IH|]. intros br Hbr. by apply toks_dot_sound.
Qed.
End DotSound.

(** a name admitted by the leading-dot rule starts with a dot and does
    match the pattern. *)
Theorem dot_rule_sound (pat text : bytes) (opts : GlobOpts)
    (H : explicitly_matches_dot_name pat text opts = true) :
  fnmatch pat text opts = true /\ head text = Some "."%b.
Proof.
  unfold explicitly_matches_dot_name, explicitly_matches_dot_name_parsed in H.
  destruct text as [|c text]; [done|]. destruct (c =? "."%b) eqn:Hc; [|done].
  apply Z.eqb_eq in Hc. subst c. split; [|done]. apply mem_elem in H.
  apply toks_dot_sound in H as (_ & _ & HL); [|apply Forall_forall; intros; apply tok_dot_sound_all].
  rewrite slice_all in HL. by apply match_tokens_lang.
Qed.

Lemma dot_rule_sound_witness :
  fnmatch (bs "*(x)@(.git)*") (bs ".gitignore") ext_opts = true
  /\ head (bs ".gitignore") = Some "."%b.
Proof. apply (dot_rule_sound (bs "*(x)@(.git)*") (bs ".gitignore") ext_opts). vm_compute. reflexivity. Defined.
