(* ===== verification/PatternParse.v ===== *)
(** The pattern parser of crates/expander/src/pattern.rs: its fuel is always
    enough, it inverts the printing of a token list, and quoted text is
    parsed into literals only. *)
From stdpp Require Import sets.
From S2P Require Import Prelude Buf Pattern PatternLang PatternOps.

(** * Progress *)

Lemma class_literal_length s : s <> [] -> (length (snd (class_literal s)) < length s)%nat.
Proof.
  destruct s as [|c [|d [|e [|x r]]]]; [done|..]; intros _; simpl; split_ifs; simpl; lia.
Qed.

Lemma parse_class_atom_length s : s <> [] -> (length (snd (parse_class_atom s)) < length s)%nat.
Proof.
  intros Hs. unfold parse_class_atom. destruct (bracket_expr s) as [[a rest]|] eqn:Hb.
  - unfold bracket_expr in Hb. simpl.
    destruct s as [|c [|m r]]; [done| |].
    { repeat (case_match; try discriminate). }
    assert (exists n, rest = drop n r) as [n ->].
    { repeat (case_match; try discriminate); simplify_eq; eauto. }
    rewrite length_drop. simpl. lia.
  - pose proof (class_literal_length s Hs). by destruct (class_literal s).
Qed.

Lemma range_follows_length s s' : range_follows s = Some s' -> (length s' < length s)%nat.
Proof.
  unfold range_follows. destruct s as [|d [|e r]]; try done. destruct (_ && _); [|done].
  intros [= <-]. simpl. lia.
Qed.

Lemma range_follows_nonempty s s' : range_follows s = Some s' -> s' <> [].
Proof. unfold range_follows. destruct s as [|d [|e r]]; try done. destruct (_ && _); [|done]. by intros [= <-]. Qed.

Lemma class_items_length fuel s first items out rest :
  class_items fuel s first items = Some (out, rest) -> (length rest < length s)%nat.
Proof.
  revert s first items. induction fuel as [|fuel IH]; intros s first items; [done|].
  destruct s as [|b r]; [done|]. cbn [class_items].
  destruct ((b =? "]"%b) && negb first); [intros [= <- <-]; simpl; lia|].
  pose proof (parse_class_atom_length (b :: r) ltac:(done)) as H1.
  destruct (parse_class_atom (b :: r)) as [lo s1]. cbn [snd] in H1.
  destruct (range_follows s1) as [s2|] eqn:Hr; [|intros H%IH; lia].
  pose proof (range_follows_length _ _ Hr).
  pose proof (parse_class_atom_length s2 (range_follows_nonempty _ _ Hr)) as H2.
  destruct (parse_class_atom s2) as [hi s3]. cbn [snd] in H2. intros H3%IH. lia.
Qed.

Lemma try_parse_class_length s t rest :
  try_parse_class s = Some (t, rest) -> (length rest < length s)%nat.
Proof.
  unfold try_parse_class. destruct s as [|c [|b r]]; try done.
  destruct (class_items _ _ _ _) as [[items rest']|] eqn:H; [|done]. intros [= _ <-].
  apply class_items_length in H. destruct ((b =? _) || (b =? _)); simpl in *; lia.
Qed.

Lemma byte_tok_length b r : (length (snd (byte_tok b r)) <= length r)%nat.
Proof. unfold byte_tok. destruct r as [|d [|e [|x r]]]; split_ifs; simpl; lia. Qed.

(** * The fuel is enough *)

Lemma parse_enough fuel :
  (forall opts in_paren s inv, (2 * length s + 1 <= fuel)%nat ->
     exists out rest inv', parse_inner_checked fuel opts in_paren s inv = Some (out, rest, inv')
       /\ (length rest <= length s)%nat) /\
  (forall opts s kind, s <> [] -> (2 * length s <= fuel)%nat ->
     exists o, try_parse_ext fuel opts s kind = Some o
       /\ forall t rest, o = Some (t, rest) -> (length rest < length s)%nat) /\
  (forall opts s, (2 * length s + 2 <= fuel)%nat ->
     exists o, ext_branches fuel opts s = Some o
       /\ forall brs rest, o = Some (brs, rest) -> (length rest < length s)%nat).
Proof.
  induction fuel as [|fuel (IHp & IHt & IHb)].
  { split; [|split]; intros; try lia. destruct s; simpl in *; [done|lia]. }
  assert (Hcont : forall opts in_paren t rest inv n, (length rest < n)%nat -> (2 * n <= fuel)%nat ->
    exists out rest' inv',
      match parse_inner_checked fuel opts in_paren rest inv with
      | Some (out, rest, inv) => Some (t :: out, rest, inv)
      | None => None
      end = Some (out, rest', inv') /\ (length rest' <= n)%nat).
  { intros opts ip t rest inv n Hn Hf.
    destruct (IHp opts ip rest inv) as (out & rest' & inv' & -> & Hle); [lia|].
    eexists _, _, _. split; [done|lia]. }
  split; [|split].
  - intros opts ip [|b r] inv Hf; [by eexists _, _, _|]. cbn [parse_inner_checked].
    simpl length in *. destruct (ip && _); [by eexists _, _, _|].
    destruct (b =? CTLNUL).
    { destruct (IHp opts ip r inv) as (out & rest' & inv' & -> & Hle); [lia|].
      eexists _, _, _. split; [done|lia]. }
    destruct (b =? "["%b).
    { destruct (try_parse_class (b :: r)) as [[t rest]|] eqn:Hc; [|apply Hcont; lia].
      apply try_parse_class_length in Hc. simpl in Hc. apply Hcont; lia. }
    destruct (if extglob opts then ext_kind_of b else None) as [kind|].
    + destruct (IHt opts (b :: r) kind) as (o & -> & Ho); [done|simpl; lia|].
      destruct o as [[t rest]|]; [|apply Hcont; lia]. specialize (Ho t rest eq_refl). simpl in Ho.
      apply Hcont; lia.
    + pose proof (byte_tok_length b r). destruct (byte_tok b r) as [t rest]. simpl in *. apply Hcont; lia.
  - intros opts s kind Hs Hf. cbn [try_parse_ext]. destruct s as [|c [|p r]]; [done|by eexists|].
    destruct (p =? "("%b); [|by eexists]. simpl length in *.
    destruct (IHb opts r) as (o & -> & Ho); [lia|]. destruct o as [[brs rest]|]; eexists; split; try done.
    intros ? ? [= _ <-]. specialize (Ho _ _ eq_refl). lia.
  - intros opts s Hf. cbn [ext_branches].
    destruct (IHp opts true s false) as (out & rest & inv & -> & Hle); [lia|].
    destruct inv; [by eexists|]. destruct rest as [|b r]; [by eexists|]. simpl length in Hle.
    destruct (b =? "|"%b).
    + destruct (IHb opts r) as (o & -> & Ho); [lia|]. destruct o as [[brs rest]|]; eexists; split; try done.
      intros ? ? [= _ <-]. specialize (Ho _ _ eq_refl). lia.
    + destruct (b =? ")"%b); eexists; split; try done. intros ? ? [= _ <-]. lia.
Qed.

Lemma parse_mono fuel :
  (forall opts in_paren s inv r, parse_inner_checked fuel opts in_paren s inv = Some r ->
     parse_inner_checked (S fuel) opts in_paren s inv = Some r) /\
  (forall opts s kind r, try_parse_ext fuel opts s kind = Some r ->
     try_parse_ext (S fuel) opts s kind = Some r) /\
  (forall opts s r, ext_branches fuel opts s = Some r -> ext_branches (S fuel) opts s = Some r).
Proof.
  induction fuel as [|fuel (IHp & IHt & IHb)]; [done|].
  split; [|split].
  - intros opts ip s inv r H. destruct s as [|b s]; [done|].
    remember (S fuel) as fuel' eqn:Hf. rewrite Hf in H. cbn [parse_inner_checked] in H |- *.
    repeat (case_match; simplify_eq; try done);
      repeat match goal with
      | H : parse_inner_checked fuel _ _ _ _ = Some _ |- _ => apply IHp in H
      | H : try_parse_ext fuel _ _ _ = Some _ |- _ => apply IHt in H
      end; simplify_eq; try congruence; auto.
  - intros opts s kind r H.
    remember (S fuel) as fuel' eqn:Hf. rewrite Hf in H. cbn [try_parse_ext] in H |- *.
    repeat (case_match; simplify_eq; try done);
      repeat match goal with
      | H : ext_branches fuel _ _ = Some _ |- _ => apply IHb in H
      end; simplify_eq; try congruence; auto.
  - intros opts s r H.
    remember (S fuel) as fuel' eqn:Hf. rewrite Hf in H. cbn [ext_branches] in H |- *.
    repeat (case_match; simplify_eq; try done);
      repeat match goal with
      | H : parse_inner_checked fuel _ _ _ _ = Some _ |- _ => apply IHp in H
      | H : ext_branches fuel _ _ = Some _ |- _ => apply IHb in H
      end; simplify_eq; try congruence; auto.
Qed.

Lemma parse_inner_le f f' opts ip s inv r :
  (f <= f')%nat -> parse_inner_checked f opts ip s inv = Some r ->
  parse_inner_checked f' opts ip s inv = Some r.
Proof. induction 1; [done|]. intros. apply parse_mono. auto. Qed.

Lemma ext_branches_le f f' opts s r :
  (f <= f')%nat -> ext_branches f opts s = Some r -> ext_branches f' opts s = Some r.
Proof. induction 1; [done|]. intros. apply parse_mono. auto. Qed.

(** Any run with some fuel is the run of [parse]. *)
Lemma parse_run fuel pat opts out rest inv :
  parse_inner_checked fuel opts false pat false = Some (out, rest, inv) -> parse pat opts = out.
Proof.
  intros H. unfold parse.
  destruct (proj1 (parse_enough (parse_fuel pat)) opts false pat false) as (o & r & i & Hp & _);
    [unfold parse_fuel; lia|].
  rewrite Hp. destruct (Nat.le_ge_cases fuel (parse_fuel pat)) as [Hle|Hle].
  - apply (parse_inner_le _ _ _ _ _ _ _ Hle) in H. congruence.
  - apply (parse_inner_le _ _ _ _ _ _ _ Hle) in Hp. congruence.
Qed.

(** * Printing *)

Definition class_name (n : NamedClass) : bytes :=
  match find (fun p => bool_decide (snd p = n)) named_classes with
  | Some p => fst p
  | None => []
  end.

Definition quote (b : Z) : bytes := [CTLESC; b].

Definition print_item (i : ClassItem) : bytes :=
  match i with
  | Single b => quote b
  | Range lo hi => quote lo ++ "-"%b :: quote hi
  | Named n => bs "[:" ++ class_name n ++ bs ":]"
  end.

Definition kind_byte (k : ExtKind) : Z :=
  match k with
  | ExtQ => "?"%b | ExtStar => "*"%b | ExtPlus => "+"%b | ExtAt => "@"%b | ExtBang => "!"%b
  end.

(** Branches separated by bars, the closing parenthesis included. *)
Fixpoint join_branches (l : list bytes) : bytes :=
  match l with
  | [] => [")"%b]
  | [b] => b ++ [")"%b]
  | b :: l => b ++ "|"%b :: join_branches l
  end.

Fixpoint print_tok (t : Tok) : bytes :=
  match t with
  | Lit b => quote b
  | Star => ["*"%b]
  | Question => ["?"%b]
  | Class negate items =>
      "["%b :: (if negate then ["!"%b] else []) ++ concat (map print_item items) ++ ["]"%b]
  | Ext kind branches =>
      kind_byte kind :: "("%b :: join_branches (map (fun br => concat (map print_tok br)) branches)
  end.

Definition print_toks (toks : list Tok) : bytes := concat (map print_tok toks).

(** What can be printed: bytes other than NUL, at least one item or branch,
    extended patterns only when they are enabled. *)
Definition item_ok (i : ClassItem) : bool :=
  match i with
  | Single b => negb (b =? 0)
  | Range lo hi => negb (lo =? 0) && negb (hi =? 0)
  | Named _ => true
  end.

Fixpoint tok_ok (opts : GlobOpts) (t : Tok) : bool :=
  match t with
  | Lit b => negb (b =? 0)
  | Star | Question => true
  | Class _ items => negb (is_nil items) && forallb item_ok items
  | Ext _ branches =>
      extglob opts && negb (is_nil branches) && forallb (forallb (tok_ok opts)) branches
  end.

(** * Parsing what was printed *)

Lemma quote_atom b rest :
  negb (b =? 0) = true -> parse_class_atom (quote b ++ rest) = (Item (Single b), rest).
Proof.
  intros Hb%negb_true_iff. unfold parse_class_atom, quote. simpl.
  destruct rest as [|x rest]; simpl; [done|]. unfold CTLRAW. by rewrite Hb.
Qed.

Lemma named_atom n rest :
  parse_class_atom (print_item (Named n) ++ rest) = (Item (Named n), rest).
Proof. destruct n; reflexivity. Qed.

Lemma print_item_head i : exists c r, print_item i = c :: r /\ (c = CTLESC \/ c = "["%b).
Proof. destruct i; simpl; eexists _, _; (split; [done|auto]). Qed.

Lemma items_head items rest :
  exists c r, concat (map print_item items) ++ "]"%b :: rest = c :: r
    /\ c <> "-"%b /\ (items <> [] -> c <> "]"%b /\ c <> "!"%b /\ c <> "^"%b).
Proof.
  destruct items as [|i items]; simpl; [by eexists _, _|].
  destruct (print_item_head i) as (c & r & -> & Hc). simpl. eexists _, _. split; [done|].
  destruct Hc as [-> | ->]; done.
Qed.

Lemma range_follows_no c r : c <> "-"%b -> range_follows (c :: r) = None.
Proof.
  intros H. unfold range_follows. destruct r; [done|]. by rewrite (proj2 (Z.eqb_neq c _) H).
Qed.

Lemma class_items_print items rest fuel first acc :
  forallb item_ok items = true -> (first = true -> items <> []) ->
  (length (concat (map print_item items)) < fuel)%nat ->
  class_items fuel (concat (map print_item items) ++ "]"%b :: rest) first acc = Some (acc ++ items, rest).
Proof.
  revert fuel first acc. induction items as [|i items IH]; intros fuel first acc Hok Hfirst Hf.
  - destruct fuel as [|fuel]; [simpl in Hf; lia|]. simpl. rewrite app_nil_r.
    destruct first; [by destruct Hfirst|done].
  - destruct fuel as [|fuel]; [lia|]. simpl in Hok. apply andb_true_iff in Hok as [Hi Hok].
    cbn [map concat]. rewrite <- app_assoc.
    set (tl := concat (map print_item items) ++ "]"%b :: rest) in *.
    destruct (items_head items rest) as (tc & tr & Htl & Hdash & _). fold tl in Htl.
    assert (Hnext : class_items fuel tl false (acc ++ [i]) = Some (acc ++ i :: items, rest)).
    { unfold tl. rewrite IH; [by rewrite <- app_assoc|done|done|].
      cbn [map concat] in Hf. rewrite length_app in Hf.
      destruct (print_item_head i) as (c & r & Hp & _). rewrite Hp in Hf. simpl in Hf. lia. }
    destruct (print_item_head i) as (c & r & Hp & Hc).
    assert (Hstart : (c =? "]"%b) && negb first = false) by (by destruct Hc as [-> | ->]).
    rewrite Hp. cbn [app class_items]. rewrite Hstart, app_comm_cons, <- Hp. clear Hp Hc Hstart c r.
    destruct i as [b|lo hi|n]; cbn [print_item item_ok] in *.
    + rewrite quote_atom by done. by rewrite Htl, range_follows_no, <- Htl.
    + apply andb_true_iff in Hi as [Hlo Hhi]. rewrite <- app_assoc, quote_atom by done.
      change (range_follows (("-"%b :: quote hi) ++ tl)) with (Some (quote hi ++ tl)). cbv iota.
      rewrite quote_atom by done. exact Hnext.
    + change (bs "[:" ++ class_name n ++ bs ":]") with (print_item (Named n)).
      rewrite named_atom. by rewrite Htl, range_follows_no, <- Htl.
Qed.

Lemma class_print n items rest :
  items <> [] -> forallb item_ok items = true ->
  try_parse_class (print_tok (Class n items) ++ rest) = Some (Class n items, rest).
Proof.
  intros Hne Hok. cbn [print_tok app]. rewrite <- !app_assoc. cbn [app].
  destruct (items_head items rest) as (c & r & Htl & _ & Hc). destruct (Hc Hne) as (_ & H1 & H2).
  assert (Hitems : class_items (length (c :: r)) (c :: r) true [] = Some (items, rest)).
  { rewrite <- Htl. rewrite class_items_print; [done|done|done|]. rewrite length_app. simpl. lia. }
  destruct n; cbn [app].
  - rewrite Htl. change (match class_items (length (c :: r)) (c :: r) true [] with
      | Some (items, rest) => Some (Class true items, rest) | None => None end
      = Some (Class true items, rest)). by rewrite Hitems.
  - rewrite Htl. unfold try_parse_class.
    rewrite (proj2 (Z.eqb_neq c _) H1), (proj2 (Z.eqb_neq c _) H2). cbn [orb]. by rewrite Hitems.
Qed.

(** [out] is what the parser makes of [s] up to [rest], with some fuel. *)
Definition parses (opts : GlobOpts) (ip : bool) (s : bytes) (out : list Tok) (rest : bytes) : Prop :=
  exists fuel, parse_inner_checked fuel opts ip s false = Some (out, rest, false).

Definition branches_parse (opts : GlobOpts) (s : bytes) (out : list (list Tok)) (rest : bytes) : Prop :=
  exists fuel, ext_branches fuel opts s = Some (Some (out, rest)).

(** The bytes printed tokens start with, and what may follow them. *)
Definition starts_ok (s : bytes) : Prop :=
  match s with c :: _ => c <> "("%b | [] => True end.

Lemma parses_lit opts ip b rest out rest' :
  b <> 0 -> parses opts ip rest out rest' -> parses opts ip (quote b ++ rest) (Lit b :: out) rest'.
Proof.
  intros Hb [f Hf]. exists (S f). unfold quote. cbn [app parse_inner_checked].
  assert (byte_tok CTLESC (b :: rest) = (Lit b, rest)) as ->.
  { apply Z.eqb_neq in Hb. destruct rest; [done|]. cbn. unfold CTLRAW. by rewrite Hb. }
  replace (if extglob opts then ext_kind_of CTLESC else None) with (@None ExtKind) by by destruct (extglob opts).
  rewrite andb_false_r. simpl. by rewrite Hf.
Qed.

(** [*] and [?] not followed by a parenthesis. *)
Lemma parses_wild opts ip c rest out rest' :
  c = "*"%b \/ c = "?"%b -> starts_ok rest -> parses opts ip rest out rest' ->
  parses opts ip (c :: rest) (plain_tok c :: out) rest'.
Proof.
  intros Hc Hr [f Hf].
  assert (Hpf : parse_inner_checked (S f) opts ip rest false = Some (out, rest', false))
    by by apply parse_mono.
  assert (Hext : forall k, try_parse_ext (S f) opts (c :: rest) k = Some None).
  { intros k. cbn [try_parse_ext]. destruct rest as [|p rest]; [done|]. simpl in Hr.
    by rewrite (proj2 (Z.eqb_neq p _) Hr). }
  exists (S (S f)). remember (S f) as g eqn:Hg. cbn [parse_inner_checked].
  assert (ip && ((c =? "|"%b) || (c =? ")"%b)) = false /\ (c =? CTLNUL) = false /\ (c =? "["%b) = false
    /\ byte_tok c rest = (plain_tok c, rest)) as (-> & -> & -> & Hbt)
    by (destruct Hc as [-> | ->]; rewrite andb_false_r; auto).
  cbv iota. destruct (if extglob opts then ext_kind_of c else None) as [k|].
  - by rewrite Hext, Hpf.
  - by rewrite Hbt, Hpf.
Qed.

Lemma parses_class opts ip n items rest out rest' :
  items <> [] -> forallb item_ok items = true -> parses opts ip rest out rest' ->
  parses opts ip (print_tok (Class n items) ++ rest) (Class n items :: out) rest'.
Proof.
  intros Hne Hok [f Hf]. exists (S f). pose proof (class_print n items rest Hne Hok) as Hc.
  cbn [print_tok app] in Hc |- *. cbn [parse_inner_checked]. rewrite andb_false_r.
  cbn [Z.eqb CTLNUL]. cbv iota. by rewrite Hc, Hf.
Qed.

Lemma parses_ext opts ip k brs rest rest0 out rest' s :
  extglob opts = true -> branches_parse opts s brs rest -> rest0 = rest ->
  parses opts ip rest0 out rest' ->
  parses opts ip (kind_byte k :: "("%b :: s) (Ext k brs :: out) rest'.
Proof.
  intros Hx [f1 H1] -> [f2 H2]. set (g := S (Nat.max f1 f2)).
  assert (Ht : try_parse_ext g opts (kind_byte k :: "("%b :: s) k = Some (Some (Ext k brs, rest))).
  { unfold g. cbn [try_parse_ext Z.eqb]. cbv iota.
    by rewrite (ext_branches_le f1 (Nat.max f1 f2) _ _ _ ltac:(lia) H1). }
  assert (Hp : parse_inner_checked g opts ip rest false = Some (out, rest', false))
    by (apply (parse_inner_le f2); [unfold g; lia|done]).
  clearbody g. exists (S g). cbn [parse_inner_checked]. rewrite Hx.
  destruct k; cbn [kind_byte] in *; rewrite andb_false_r;
    match goal with |- context [ext_kind_of ?b] =>
      let k := eval vm_compute in (ext_kind_of b) in change (ext_kind_of b) with k end;
    simpl Z.eqb; cbv iota; by rewrite Ht, Hp.
Qed.

Lemma branches_parse_one opts s br rest :
  parses opts true s br (")"%b :: rest) -> branches_parse opts s [br] rest.
Proof. intros [f Hf]. exists (S f). cbn [ext_branches]. by rewrite Hf. Qed.

Lemma branches_parse_more opts s br s' brs rest :
  parses opts true s br ("|"%b :: s') -> branches_parse opts s' brs rest ->
  branches_parse opts s (br :: brs) rest.
Proof.
  intros [f Hf] [g Hg]. exists (S (Nat.max f g)). cbn [ext_branches].
  rewrite (parse_inner_le f (Nat.max f g) _ _ _ _ _ ltac:(lia) Hf). cbn [Z.eqb]. cbv iota.
  by rewrite (ext_branches_le g (Nat.max f g) _ _ _ ltac:(lia) Hg).
Qed.

Lemma parses_stop opts c s : c = "|"%b \/ c = ")"%b -> parses opts true (c :: s) [] (c :: s).
Proof. intros Hc. exists 1%nat. by destruct Hc as [-> | ->]. Qed.

(** The statement of the round trip for one token. *)
Definition tok_roundtrip (opts : GlobOpts) (t : Tok) : Prop :=
  tok_ok opts t = true -> forall ip rest out rest',
    starts_ok rest -> parses opts ip rest out rest' ->
    parses opts ip (print_tok t ++ rest) (t :: out) rest'.

Lemma print_tok_starts t rest : starts_ok (print_tok t ++ rest).
Proof. destruct t as [| | | |[]]; simpl; done. Qed.

Lemma toks_roundtrip opts toks ip rest out rest' :
  Forall (tok_roundtrip opts) toks -> forallb (tok_ok opts) toks = true ->
  starts_ok rest -> parses opts ip rest out rest' ->
  parses opts ip (print_toks toks ++ rest) (toks ++ out) rest' /\ starts_ok (print_toks toks ++ rest).
Proof.
  intros Hall. induction Hall as [|t toks Ht _ IH]; intros Hok Hr Hp; [done|].
  simpl in Hok. apply andb_true_iff in Hok as [Hokt Hok]. unfold print_toks in *. cbn [map concat].
  rewrite <- app_assoc. destruct (IH Hok Hr Hp) as [Hp' Hs']. split; [|apply print_tok_starts].
  by apply Ht.
Qed.

Lemma branches_roundtrip opts brs rest :
  Forall (Forall (tok_roundtrip opts)) brs -> brs <> [] -> forallb (forallb (tok_ok opts)) brs = true ->
  branches_parse opts (join_branches (map print_toks brs) ++ rest) brs rest.
Proof.
  intros Hall. induction Hall as [|br brs Hbr _ IH]; intros Hne Hok; [done|].
  simpl in Hok. apply andb_true_iff in Hok as [Hokb Hok].
  assert (Hstop : forall c s, c = "|"%b \/ c = ")"%b ->
    parses opts true (print_toks br ++ c :: s) br (c :: s)).
  { intros c s Hc. rewrite <- (app_nil_r br) at 2. apply toks_roundtrip; [done|done| |by apply parses_stop].
    by destruct Hc as [-> | ->]. }
  destruct brs as [|br2 brs]; cbn [map join_branches]; rewrite <- app_assoc; cbn [app].
  - apply branches_parse_one. apply Hstop. by right.
  - eapply branches_parse_more; [apply Hstop; by left|]. by apply IH.
Qed.

Lemma tok_roundtrip_all opts t : tok_roundtrip opts t.
Proof.
  induction t as [b| | |n items|kind branches IH] using Tok_ind'; intros Hok ip rest out rest' Hr Hp.
  - apply parses_lit; [|done]. simpl in Hok. by apply negb_true_iff, Z.eqb_neq in Hok.
  - by apply (parses_wild opts ip "*"%b); [left|..].
  - by apply (parses_wild opts ip "?"%b); [right|..].
  - simpl in Hok. apply andb_true_iff in Hok as [Hne Hok]. apply parses_class; [|done|done].
    by destruct items.
  - simpl in Hok. apply andb_true_iff in Hok as [[Hx Hne]%andb_true_iff Hok].
    cbn [print_tok app]. eapply parses_ext; [done| |done|exact Hp].
    apply branches_roundtrip; [done|by destruct branches|done].
Qed.

(** * Theorems *)

(** the parser always ends, with fuel proportional to the length of the
    pattern, and more fuel never changes what it returns. *)
Theorem parse_terminates (pat : bytes) (opts : GlobOpts) (fuel : nat)
    (Hf : (parse_fuel pat <= fuel)%nat) :
  exists rest inv, parse_inner_checked fuel opts false pat false = Some (parse pat opts, rest, inv).
Proof.
  destruct (proj1 (parse_enough fuel) opts false pat false) as (out & rest & inv & Hp & _);
    [unfold parse_fuel in Hf; lia|].
  exists rest, inv. rewrite Hp. by rewrite (parse_run _ _ _ _ _ _ Hp).
Qed.

Lemma parse_terminates_witness :
  exists rest inv, parse_inner_checked 100 ext_opts false (bs "a*(b|[c)") false
                   = Some (parse (bs "a*(b|[c)") ext_opts, rest, inv).
Proof. apply (parse_terminates (bs "a*(b|[c)") ext_opts 100). vm_compute. lia. Defined.

(** C26: parsing inverts printing: any list of tokens (quoted literals,
    wildcards, bracket expressions with ranges and named classes, nested
    extended patterns) is read back exactly from its text. *)
Theorem parse_print_roundtrip (toks : list Tok) (opts : GlobOpts)
    (Hok : forallb (tok_ok opts) toks = true) :
  parse (print_toks toks) opts = toks.
Proof.
  destruct (toks_roundtrip opts toks false [] [] []) as [[f Hf] _].
  - apply Forall_forall. intros t _. apply tok_roundtrip_all.
  - done.
  - done.
  - by exists 1%nat.
  - rewrite !app_nil_r in Hf. by apply parse_run in Hf.
Qed.

Definition sample_toks : list Tok :=
  [Star; Lit 40; Class true [Range 97 122; Named Digit; Single 93];
   Ext ExtBang [[Question; Lit 124]; []; [Ext ExtPlus [[Star]]]]].

Lemma parse_print_roundtrip_witness : parse (print_toks sample_toks) ext_opts = sample_toks.
Proof. apply (parse_print_roundtrip sample_toks ext_opts). reflexivity. Defined.

(** quoted text is never a pattern: the buffer that quotes every byte of
    [w] matches [w] and nothing else, whatever metacharacters [w] has. *)
Theorem quoted_text_matches_itself (w text : bytes) (opts : GlobOpts)
    (Hnul : forallb (fun b => negb (b =? 0)) w = true) (Hcase : nocaseglob opts = false) :
  fnmatch (buf_bytes (push_quoted_slice ExpandBuf_new w)) text opts = true <-> text = w.
Proof.
  assert (Hbuf : forall buf, buf_bytes (push_quoted_slice buf w) = buf_bytes buf ++ print_toks (map Lit w)).
  { unfold push_quoted_slice, print_toks. clear. induction w as [|b w IH]; intros buf; simpl; [by rewrite app_nil_r|].
    rewrite IH. simpl. by rewrite <- !app_assoc. }
  rewrite Hbuf. cbn [app]. destruct (toks_roundtrip opts (map Lit w) false [] [] []) as [[f Hf] _].
  - apply Forall_forall. intros t _. apply tok_roundtrip_all.
  - clear - Hnul. induction w as [|b w IH]; simpl in *; [done|]. by apply andb_true_iff in Hnul as [-> ?%IH].
  - done.
  - by exists 1%nat.
  - rewrite !app_nil_r in Hf. apply parse_run in Hf. unfold fnmatch. change (buf_bytes ExpandBuf_new) with (@nil Z).
    cbn [app]. rewrite Hf, match_tokens_lang, lits_lang. unfold literal_eq. rewrite Hcase.
    destruct (length text =? length w)%nat eqn:Hl; simpl; [apply bytes_eqb_eq|].
    apply Nat.eqb_neq in Hl. split; [done|]. by intros ->.
Qed.

Lemma quoted_text_matches_itself_witness :
  fnmatch (buf_bytes (push_quoted_slice ExpandBuf_new (bs "*[a]?"))) (bs "*[a]?") ext_opts = true.
Proof.
  apply (quoted_text_matches_itself (bs "*[a]?") (bs "*[a]?") ext_opts); reflexivity.
Defined.
