(* ===== verification/Split.v ===== *)
(** Word splitting (crates/expander/src/ifs.rs and split.rs): the cached state
    of IFS, and the split of an expansion buffer into fields. *)
From stdpp Require Import sets.
From S2P Require Import Prelude Buf Utf8.

(** * The state of IFS *)

Record IfsState := mkIfs {
  raw : bytes;
  cmap : Z -> bool;
  whitespace : Z -> bool;
  is_default : bool;
  is_unset : bool;
  is_null : bool;
  first_char : option Z;
  utf8_separators : list bytes;
}.

Definition is_blank_byte (b : Z) : bool := (b =? " "%b) || (b =? 9) || (b =? 10).

Definition build_for_owned (raw : bytes) (is_default is_unset is_null : bool) : IfsState :=
  mkIfs raw
    (fun b => existsb (Z.eqb b) raw)
    (fun b => existsb (fun x => (b =? x) && is_blank_byte x) raw)
    is_default is_unset is_null
    (head raw)
    (match chars raw with
     | Some cs => List.filter (fun c => (1 <? length c)%nat) cs
     | None => []
     end).

Definition default_ifs : bytes := [" "%b; 9; 10].

(** [ifs]: the bytes of the variable IFS, [None] when it is unset. *)
Definition from_env (ifs : option bytes) : IfsState :=
  match ifs with
  | None => build_for_owned default_ifs true true false
  | Some [] => build_for_owned [] true false true
  | Some v => build_for_owned v (bytes_eqb v default_ifs) false false
  end.

Definition join_separator (s : IfsState) : option Z :=
  if is_null s then None else if is_unset s then Some " "%b else first_char s.

Definition join_separator_bytes (s : IfsState) : option bytes :=
  if is_null s then None
  else if is_unset s then Some [" "%b]
  else match chars (raw s) with
       | Some cs => head cs
       | None => (fun b => [b]) <$> first_char s
       end.

Definition is_ifs (s : IfsState) (b : Z) : bool := cmap s b.
Definition is_ifs_ws (s : IfsState) (b : Z) : bool := whitespace s b.
Definition is_ifs_nonws (s : IfsState) (b : Z) : bool := cmap s b && negb (whitespace s b).

(** * Splitting *)

Definition is_utf8_continuation (b : Z) : bool := Z.land b 192 =? 128.

Definition utf8_width (b : Z) : nat :=
  if in_range 194 223 b then 2 else if in_range 224 239 b then 3
  else if in_range 240 244 b then 4 else 1.

(** [while start > 0 && is_utf8_continuation(bytes[start]) { start -= 1 }] *)
Fixpoint char_start (input : bytes) (start : nat) : nat :=
  match start with
  | O => O
  | S p =>
      match input !! start with
      | Some b => if is_utf8_continuation b then char_start input p else start
      | None => start
      end
  end.

Definition is_inside_valid_utf8_char (input : bytes) (i : nat) : bool :=
  match input !! i with
  | Some b =>
      if negb (is_utf8_continuation b) then false
      else
        let start := char_start input i in
        if (start =? i)%nat then false
        else
          match input !! start with
          | Some c =>
              let width := utf8_width c in
              (1 <? width)%nat && (i <? start + width)%nat && (start + width <=? length input)%nat
          | None => false
          end
  | None => false
  end.

Definition raw_literal_at (input : bytes) (i : nat) : option (Z * nat) :=
  match input !! i, input !! (i + 1)%nat, input !! (i + 2)%nat with
  | Some b, Some r, Some x => if (b =? CTLESC) && (r =? CTLRAW) then Some (x, (i + 3)%nat) else None
  | _, _, _ => None
  end.

Definition sep_at (input : bytes) (i : nat) (seps : list bytes) : option bytes :=
  find (fun sep => (i + length sep <=? length input)%nat
                   && bytes_eqb (slice input i (i + length sep)) sep) seps.

Definition unquoted_ifs_at (input : bytes) (i : nat) (ifs : IfsState) : option (Z * nat) :=
  match raw_literal_at input i with
  | Some (literal, next) => if is_ifs ifs literal then Some (literal, next) else None
  | None =>
      match input !! i with
      | None => None
      | Some b =>
          if (b =? CTLESC) || (b =? CTLNUL) then None
          else
            match sep_at input i (utf8_separators ifs) with
            | Some sep => match head sep with Some d => Some (d, (i + length sep)%nat) | None => None end
            | None =>
                if (128 <=? b) && is_inside_valid_utf8_char input i then None
                else if is_ifs ifs b then Some (b, (i + 1)%nat) else None
            end
      end
  end.

Section SplitLoops.
Context (input : bytes) (ifs : IfsState).

(** Skip unquoted IFS white space. *)
Fixpoint skip_ifs_ws (fuel : nat) (i : nat) : nat :=
  match fuel with
  | O => i
  | S fuel =>
      match unquoted_ifs_at input i ifs with
      | Some (delim, next) => if is_ifs_ws ifs delim then skip_ifs_ws fuel next else i
      | None => i
      end
  end.

Definition skip (i : nat) : nat := skip_ifs_ws (length input) i.

(** The end of the delimiter that starts at [i] with [delim]. *)
Definition after_delimiter (delim : Z) (next : nat) : nat :=
  let i := skip next in
  if is_ifs_ws ifs delim then
    match unquoted_ifs_at input i ifs with
    | Some (next_delim, next_i) => if is_ifs_nonws ifs next_delim then skip next_i else i
    | None => i
    end
  else i.

(** The bytes of a field taken over at [i], and the position after them. *)
Definition chunk_at (i : nat) : list Z * nat :=
  match raw_literal_at input i with
  | Some (_, next) => (slice input i next, next)
  | None =>
      match input !! i, input !! (i + 1)%nat with
      | Some b, Some c => if b =? CTLESC then ([b; c], (i + 2)%nat) else ([b], (i + 1)%nat)
      | Some b, None => ([b], (i + 1)%nat)
      | None, _ => ([], (i + 1)%nat)
      end
  end.

Fixpoint split_loop (fuel : nat) (i : nat) (fields : list (list Z)) (cur : list Z) : list (list Z) :=
  match fuel with
  | O => fields
  | S fuel =>
      if (i <? length input)%nat then
        match unquoted_ifs_at input i ifs with
        | Some (delim, next) => split_loop fuel (after_delimiter delim next) (fields ++ [cur]) []
        | None => let '(ch, next) := chunk_at i in split_loop fuel next fields (cur ++ ch)
        end
      else if negb (is_nil cur) then fields ++ [cur]
      else if is_nil fields then [[]]
      else fields
  end.

Definition split_bytes : list (list Z) :=
  if is_null ifs then if is_nil input then [] else [input]
  else
    let i := skip 0 in
    if (length input <=? i)%nat then []
    else split_loop (S (length input)) i [] [].
End SplitLoops.

(** The fields of a buffer; each becomes a word with that buffer. *)
Definition split (buf : ExpandBuf) (ifs : IfsState) : list (list Z) := split_bytes (buf_bytes buf) ifs.

(** * The unit tests of split.rs *)

Example tests_split :
  split_bytes (bs "a  b" ++ 9 :: bs "c") (from_env None) = [bs "a"; bs "b"; bs "c"]
  /\ split_bytes (bs "a::b") (from_env (Some (bs ":"))) = [bs "a"; []; bs "b"]
  /\ split_bytes (bs "::") (from_env (Some (bs ": "))) = [[]; []]
  /\ split_bytes (bs "a :b") (from_env (Some (bs ": "))) = [bs "a"; bs "b"]
  /\ split_bytes (bs "a::") (from_env (Some (bs ": "))) = [bs "a"; []]
  /\ split_bytes (bs "a:") (from_env (Some (bs ": "))) = [bs "a"]
  /\ split (push_literal_slice ExpandBuf_new [97; 98; 1; 99; 100; 1; 101; 102]) (from_env (Some [1]))
     = [bs "ab"; bs "cd"; bs "ef"]
  /\ map dequote_bytes (split (push_quoted_slice ExpandBuf_new [97; 98; 1; 99; 100]) (from_env (Some [1])))
     = [[97; 98; 1; 99; 100]].
Proof. vm_compute. repeat split. Qed.

(** * Items of a buffer

    A buffer read as separators (of IFS white space or not) and chunks of
    field text. *)

Inductive Item :=
| Sep (ws : bool)
| Chunk (ch : bytes).

Definition is_ws_item (i : Item) : Prop := i = Sep true.

(** A list that does not start with a white-space separator. *)
Definition not_ws_first (its : list Item) : Prop := head its <> Some (Sep true).

(** Field splitting on items (leading white space removed): a delimiter is a
    run of white space, or one other separator with the white space around
    it; a trailing delimiter adds no field. *)
Inductive splits : list Item -> list bytes -> Prop :=
| splits_nil : splits [] []
| splits_last chunks : chunks <> [] -> splits (map Chunk chunks) [concat chunks]
| splits_hard chunks w1 w2 rest fs :
    Forall is_ws_item w1 -> Forall is_ws_item w2 -> not_ws_first rest -> (chunks = [] -> w1 = []) ->
    splits rest fs ->
    splits (map Chunk chunks ++ w1 ++ [Sep false] ++ w2 ++ rest) (concat chunks :: fs)
| splits_soft chunks w rest fs :
    chunks <> [] -> w <> [] -> Forall is_ws_item w -> not_ws_first rest -> head rest <> Some (Sep false) ->
    splits rest fs ->
    splits (map Chunk chunks ++ w ++ rest) (concat chunks :: fs).

Definition chunk_text (i : Item) : bytes := match i with Chunk c => c | Sep _ => [] end.

Lemma splits_content its fs : splits its fs -> concat fs = concat (map chunk_text its).
Proof.
  assert (Hch : forall cs, concat (map chunk_text (map Chunk cs)) = concat cs).
  { intros cs. rewrite map_map. simpl. by rewrite map_id. }
  assert (Hws : forall w, Forall is_ws_item w -> concat (map chunk_text w) = []).
  { induction 1 as [|i w -> _ IH]; [done|]. exact IH. }
  induction 1; simpl; rewrite ?map_app, ?concat_app, ?Hch, ?Hws by done; simpl.
  - done.
  - by rewrite app_nil_r.
  - rewrite map_app, concat_app, Hws by done. simpl. by f_equal.
  - by f_equal.
Qed.

Section Items.
Context (input : bytes) (ifs : IfsState).

Fixpoint items (fuel : nat) (i : nat) : list Item :=
  match fuel with
  | O => []
  | S fuel =>
      if (i <? length input)%nat then
        match unquoted_ifs_at input i ifs with
        | Some (delim, next) => Sep (is_ifs_ws ifs delim) :: items fuel next
        | None => Chunk (fst (chunk_at input i)) :: items fuel (snd (chunk_at input i))
        end
      else []
  end.

Definition items_from (i : nat) : list Item := items (length input) i.

Lemma raw_literal_at_next i x n : raw_literal_at input i = Some (x, n) -> n = (i + 3)%nat /\ (i + 2 < length input)%nat.
Proof.
  unfold raw_literal_at. destruct (input !! i), (input !! (i + 1)%nat), (input !! (i + 2)%nat) eqn:H2; try done.
  destruct (_ && _); [|done]. intros [= _ <-]. apply lookup_lt_Some in H2. done.
Qed.

Lemma unquoted_next i d n :
  unquoted_ifs_at input i ifs = Some (d, n) -> (i < n /\ i < length input)%nat.
Proof.
  unfold unquoted_ifs_at. destruct (raw_literal_at input i) as [[x m]|] eqn:Hr.
  - apply raw_literal_at_next in Hr as [-> Hlt]. destruct (is_ifs ifs x); [|done]. intros [= _ <-]. lia.
  - destruct (input !! i) as [b|] eqn:Hb; [|done]. apply lookup_lt_Some in Hb.
    destruct (_ || _); [done|]. destruct (sep_at _ _ _) as [sep|].
    + destruct sep as [|d' sep]; [done|]. simpl. intros [= _ <-]. lia.
    + destruct (_ && _); [done|]. destruct (is_ifs ifs b); [|done]. intros [= _ <-]. lia.
Qed.

Lemma chunk_next i : (i < length input)%nat -> fst (chunk_at input i) <> [] /\ (i < snd (chunk_at input i))%nat.
Proof.
  intros Hi. unfold chunk_at. destruct (raw_literal_at input i) as [[x m]|] eqn:Hr.
  - apply raw_literal_at_next in Hr as [-> Hlt]. split; [|simpl; lia]. simpl. unfold slice.
    intros Hn%(f_equal length). rewrite length_take, length_drop in Hn. simpl in Hn. lia.
  - destruct (lookup_lt_is_Some_2 input i Hi) as [b ->].
    destruct (input !! (i + 1)%nat); [destruct (b =? CTLESC)|]; simpl; (split; [done|lia]).
Qed.

Lemma items_fuel f1 f2 i :
  (length input - i <= f1)%nat -> (length input - i <= f2)%nat -> items f1 i = items f2 i.
Proof.
  revert f2 i. induction f1 as [|f1 IH]; intros f2 i H1 H2.
  - destruct f2; [done|]. simpl. by rewrite (proj2 (Nat.ltb_ge i (length input))) by lia.
  - simpl. destruct (i <? length input)%nat eqn:Hi.
    + apply Nat.ltb_lt in Hi. destruct f2 as [|f2]; [lia|]. simpl.
      rewrite (proj2 (Nat.ltb_lt i (length input))) by done.
      destruct (unquoted_ifs_at input i ifs) as [[d n]|] eqn:Hu.
      * apply unquoted_next in Hu. f_equal. apply IH; lia.
      * destruct (chunk_next i Hi) as [_ ?]. f_equal. apply IH; lia.
    + destruct f2; [done|]. simpl. by rewrite Hi.
Qed.

Lemma items_unfold i :
  items_from i
  = if (i <? length input)%nat then
      match unquoted_ifs_at input i ifs with
      | Some (delim, next) => Sep (is_ifs_ws ifs delim) :: items_from next
      | None => Chunk (fst (chunk_at input i)) :: items_from (snd (chunk_at input i))
      end
    else [].
Proof. unfold items_from at 1. rewrite (items_fuel _ (S (length input))) by lia. done. Qed.

Lemma items_end i : (length input <= i)%nat -> items_from i = [].
Proof. intros Hi. by rewrite items_unfold, (proj2 (Nat.ltb_ge i (length input))). Qed.

Lemma items_sep i d n :
  unquoted_ifs_at input i ifs = Some (d, n) ->
  items_from i = Sep (is_ifs_ws ifs d) :: items_from n.
Proof.
  intros Hu. destruct (unquoted_next i d n Hu) as [Hn Hi].
  by rewrite items_unfold, (proj2 (Nat.ltb_lt i (length input))), Hu.
Qed.

Lemma items_chunk i :
  (i < length input)%nat -> unquoted_ifs_at input i ifs = None ->
  items_from i = Chunk (fst (chunk_at input i)) :: items_from (snd (chunk_at input i)).
Proof. intros Hi Hu. by rewrite items_unfold, (proj2 (Nat.ltb_lt i (length input))), Hu. Qed.

(** [skip] removes the leading white-space separators. *)
Lemma skip_loop_spec fuel i :
  (length input - i <= fuel)%nat ->
  exists w, Forall is_ws_item w /\ items_from i = w ++ items_from (skip_ifs_ws input ifs fuel i)
    /\ not_ws_first (items_from (skip_ifs_ws input ifs fuel i))
    /\ (i <= skip_ifs_ws input ifs fuel i)%nat.
Proof.
  revert i. induction fuel as [|fuel IH]; intros i Hf; simpl.
  { exists []. rewrite (items_end i) by lia. done. }
  destruct (unquoted_ifs_at input i ifs) as [[d n]|] eqn:Hu.
  - pose proof (unquoted_next _ _ _ Hu). rewrite (items_sep i d n Hu).
    destruct (is_ifs_ws ifs d) eqn:Hw.
    + destruct (IH n) as (w & Hws & -> & Hnot & Hle); [lia|]. exists (Sep true :: w).
      split; [by constructor|]. split; [done|]. split; [done|lia].
    + exists []. rewrite (items_sep i d n Hu), Hw. done.
  - exists []. split; [done|]. split; [done|]. split; [|done].
    unfold not_ws_first. rewrite items_unfold, Hu. by destruct (i <? length input)%nat.
Qed.

Lemma skip_spec i :
  exists w, Forall is_ws_item w /\ items_from i = w ++ items_from (skip input ifs i)
    /\ not_ws_first (items_from (skip input ifs i)) /\ (i <= skip input ifs i)%nat.
Proof. apply skip_loop_spec. lia. Qed.

(** Every separator found is a byte of IFS. *)
Context (Hsep : forall i d n, unquoted_ifs_at input i ifs = Some (d, n) -> is_ifs ifs d = true).

(** The delimiter that starts with separator [d] at a position. *)
Lemma after_delimiter_spec d n :
  let its := items_from (after_delimiter input ifs d n) in
  not_ws_first its /\ (n <= after_delimiter input ifs d n)%nat /\
  if is_ifs_ws ifs d then
    exists w, Forall is_ws_item w /\
      ((items_from n = w ++ its /\ head its <> Some (Sep false))
       \/ exists w2, Forall is_ws_item w2 /\ items_from n = w ++ Sep false :: w2 ++ its)
  else exists w, Forall is_ws_item w /\ items_from n = w ++ its.
Proof.
  cbv zeta. unfold after_delimiter. destruct (skip_spec n) as (w & Hw & Heq & Hnot & Hle).
  set (i := skip input ifs n) in *. destruct (is_ifs_ws ifs d).
  - destruct (unquoted_ifs_at input i ifs) as [[d2 n2]|] eqn:Hu.
    + pose proof (items_sep i d2 n2 Hu) as Hi. pose proof (unquoted_next _ _ _ Hu).
      assert (is_ifs_ws ifs d2 = false) as Hd2.
      { destruct (is_ifs_ws ifs d2) eqn:E; [|done]. rewrite Hi in Hnot. by destruct Hnot. }
      assert (is_ifs_nonws ifs d2 = true) as ->.
      { unfold is_ifs_nonws. pose proof (Hsep _ _ _ Hu) as Hc. unfold is_ifs, is_ifs_ws in *. by rewrite Hc, Hd2. }
      destruct (skip_spec n2) as (w2 & Hw2 & Heq2 & Hnot2 & Hle2).
      split; [done|]. split; [lia|]. exists w. split; [done|]. right. exists w2. split; [done|].
      by rewrite Heq, Hi, Hd2, Heq2.
    + split; [done|]. split; [done|]. exists w. split; [done|]. left. split; [done|].
      rewrite items_unfold, Hu. by destruct (i <? length input)%nat.
  - split; [done|]. split; [done|]. by exists w.
Qed.

Lemma splits_nonempty its fs : splits its fs -> its <> [] -> fs <> [].
Proof. destruct 1; done. Qed.

Lemma split_loop_spec fuel i fields cur chunks :
  (length input - i < fuel)%nat -> concat chunks = cur -> Forall (fun c => c <> []) chunks ->
  (chunks = [] -> not_ws_first (items_from i)) ->
  (chunks = [] -> items_from i = [] -> fields <> []) ->
  exists fs, splits (map Chunk chunks ++ items_from i) fs /\
    split_loop input ifs fuel i fields cur = fields ++ fs.
Proof.
  revert i fields cur chunks. induction fuel as [|fuel IH]; intros i fields cur chunks Hf Hcur Hne Hfirst Hlast;
    [lia|]. cbn [split_loop]. destruct (i <? length input)%nat eqn:Hi.
  - apply Nat.ltb_lt in Hi. destruct (unquoted_ifs_at input i ifs) as [[d n]|] eqn:Hu.
    + pose proof (unquoted_next _ _ _ Hu). rewrite (items_sep i d n Hu) in *.
      destruct (after_delimiter_spec d n) as (Hnot & Hle & Hdel).
      destruct (IH (after_delimiter input ifs d n) (fields ++ [cur]) [] []) as (fs & Hsp & ->);
        [lia|done|constructor|done| |].
      { intros _ _ Hnil. by destruct fields. }
      simpl in Hsp. exists (concat chunks :: fs). rewrite Hcur, <- app_assoc. split; [|done]. subst cur.
      destruct (is_ifs_ws ifs d) eqn:Hw.
      * destruct Hdel as (w & Hws & [[-> Hh]|(w2 & Hws2 & ->)]).
        -- apply (splits_soft chunks (Sep true :: w)); try done; [|by constructor].
           intros ->. by destruct (Hfirst eq_refl).
        -- apply (splits_hard chunks (Sep true :: w) w2); try done; [by constructor|].
           intros ->. by destruct (Hfirst eq_refl).
      * destruct Hdel as (w & Hws & ->). by apply (splits_hard chunks [] w).
    + destruct (chunk_next i Hi) as [Hc Hn]. rewrite (items_chunk i Hi Hu) in *.
      destruct (chunk_at input i) as [ch next] eqn:Hch. cbn [fst snd] in *.
      destruct (IH next fields (cur ++ ch) (chunks ++ [ch])) as (fs & Hsp & ->).
      * lia.
      * rewrite concat_app. simpl. by rewrite app_nil_r, Hcur.
      * apply Forall_app. split; [done|]. by constructor.
      * by destruct chunks.
      * by destruct chunks.
      * exists fs. split; [|done]. by rewrite map_app, <- app_assoc in Hsp.
  - apply Nat.ltb_ge in Hi. rewrite (items_end i Hi) in *. rewrite app_nil_r.
    destruct chunks as [|c chunks]; simpl in *; subst cur; simpl.
    + specialize (Hlast eq_refl eq_refl). destruct fields; [done|]. exists []. simpl.
      rewrite app_nil_r. split; [constructor|done].
    + exists [c ++ concat chunks]. inversion Hne; subst. destruct c as [|b c]; [done|]. simpl.
      split; [|done]. by apply (splits_last ((b :: c) :: chunks)).
Qed.
End Items.

(** * The separators of an IFS state built from the environment *)

Lemma built_cmap r d u n b : b ∈ r -> is_ifs (build_for_owned r d u n) b = true.
Proof.
  intros Hb. unfold is_ifs, build_for_owned. cbn [cmap]. apply existsb_exists. exists b.
  split; [by apply list_elem_of_In|apply Z.eqb_refl].
Qed.

Lemma built_sep r d u n sep c :
  sep ∈ utf8_separators (build_for_owned r d u n) -> c ∈ sep -> c ∈ r.
Proof.
  unfold build_for_owned. cbn [utf8_separators]. unfold chars.
  destruct (utf8_chars (length r) r) as [cs|] eqn:Hc; [|set_solver].
  rewrite !list_elem_of_In, filter_In. intros [Hs _] Hin. apply utf8_chars_concat in Hc. rewrite <- Hc.
  apply in_concat. by exists sep.
Qed.

Lemma built_unquoted input r d u n i x next :
  unquoted_ifs_at input i (build_for_owned r d u n) = Some (x, next) ->
  is_ifs (build_for_owned r d u n) x = true.
Proof.
  unfold unquoted_ifs_at. destruct (raw_literal_at input i) as [[y m]|].
  - destruct (is_ifs _ y) eqn:H; [|done]. by intros [= <- _].
  - destruct (input !! i) as [b|]; [|done]. destruct (_ || _); [done|].
    destruct (sep_at input i _) as [sep|] eqn:Hs.
    + unfold sep_at in Hs. apply find_some in Hs as [Hin _]. destruct sep as [|c sep]; [done|].
      cbn [head]. intros [= <- _]. apply built_cmap. apply (built_sep r d u n (c :: sep)); [by apply list_elem_of_In|set_solver].
    + destruct (_ && _); [done|]. destruct (is_ifs _ b) eqn:H; [|done]. by intros [= <- _].
Qed.

Lemma from_env_built v : exists r d u n, from_env v = build_for_owned r d u n.
Proof. destruct v as [[|b v]|]; simpl; eauto. Qed.

(** * Theorems *)

(** C20: splitting follows the POSIX field rules for every buffer and every
    IFS that is not null: after leading IFS white space, the fields are the
    texts between delimiters, where a delimiter is a run of white space or
    one other separator with the white space around it, and a trailing
    delimiter adds no empty field; quoted bytes are never separators, and all
    the field text comes out, in order. *)
Theorem split_posix (buf : ExpandBuf) (v : option bytes) (Hv : v <> Some []) :
  let its := items_from (buf_bytes buf) (from_env v) 0 in
  let fields := split buf (from_env v) in
  (exists lead its', its = lead ++ its' /\ Forall is_ws_item lead /\ not_ws_first its' /\ splits its' fields)
  /\ concat fields = concat (map chunk_text its).
Proof.
  cbv zeta. unfold split, split_bytes. set (input := buf_bytes buf). set (ifs := from_env v).
  assert (is_null ifs = false) as -> by (subst ifs; by destruct v as [[|b v]|]).
  assert (Hsep : forall i d n, unquoted_ifs_at input i ifs = Some (d, n) -> is_ifs ifs d = true).
  { subst ifs. destruct (from_env_built v) as (r & d & u & n & ->). intros i x m. apply built_unquoted. }
  destruct (skip_spec input ifs 0) as (lead & Hlead & Heq & Hnot & _).
  set (i := skip input ifs 0) in *. clearbody i ifs.
  assert (Hmain : exists fs, splits (items_from input ifs i) fs /\
    (if (length input <=? i)%nat then [] else split_loop input ifs (S (length input)) i [] []) = fs).
  { destruct (length input <=? i)%nat eqn:Hi.
    - apply Nat.leb_le in Hi. rewrite items_end by done. exists []. split; [constructor|done].
    - apply Nat.leb_gt in Hi.
      destruct (split_loop_spec input ifs Hsep (S (length input)) i [] [] []) as (fs & Hfs & ->);
        [lia|done|constructor|done| |by exists fs].
      intros _ Hnil. rewrite items_unfold in Hnil. apply Nat.ltb_lt in Hi. rewrite Hi in Hnil.
      by destruct (unquoted_ifs_at input i ifs) as [[]|]. }
  destruct Hmain as (fs & Hfs & ->). split.
  - exists lead, (items_from input ifs i). done.
  - rewrite (splits_content _ _ Hfs), Heq, map_app, concat_app.
    assert (concat (map chunk_text lead) = []) as ->; [|done].
    clear - Hlead. induction Hlead as [|x l -> _ IH]; [done|exact IH].
Qed.

Lemma split_posix_witness :
  concat (split (push_literal_slice ExpandBuf_new (bs " a : b")) (from_env (Some (bs ": ")))) = bs "ab".
Proof.
  rewrite (proj2 (split_posix (push_literal_slice ExpandBuf_new (bs " a : b")) (Some (bs ": "))
    ltac:(discriminate))).
  vm_compute. reflexivity.
Defined.

Lemma quoted_buf w buf :
  buf_bytes (push_quoted_slice buf w) = buf_bytes buf ++ concat (map (fun b => [CTLESC; b]) w).
Proof.
  unfold push_quoted_slice. revert buf. induction w as [|b w IH]; intros buf; simpl; [by rewrite app_nil_r|].
  rewrite IH. simpl. by rewrite <- !app_assoc.
Qed.

(** Reading quoted bytes one pair at a time. *)
Lemma quoted_pair_at input i b rest ifs :
  drop i input = CTLESC :: b :: rest -> b <> CTLRAW ->
  unquoted_ifs_at input i ifs = None /\ chunk_at input i = ([CTLESC; b], (i + 2)%nat)
  /\ drop (i + 2) input = rest /\ (i < length input)%nat.
Proof.
  intros Hd Hb. apply Z.eqb_neq in Hb.
  assert (H0 : input !! i = Some CTLESC) by (rewrite <- (Nat.add_0_r i), <- lookup_drop, Hd; done).
  assert (H1 : input !! (i + 1)%nat = Some b) by (rewrite <- lookup_drop, Hd; done).
  assert (Hraw : raw_literal_at input i = None).
  { unfold raw_literal_at. rewrite H0, H1. destruct (input !! (i + 2)%nat); [|done].
    by rewrite Hb, andb_false_r. }
  split; [unfold unquoted_ifs_at; by rewrite Hraw, H0|].
  split; [unfold chunk_at; by rewrite Hraw, H0, H1|].
  split; [by rewrite <- drop_drop, Hd|]. by apply lookup_lt_Some in H0.
Qed.

Lemma split_loop_quoted input ifs w fuel i fields cur :
  drop i input = concat (map (fun b => [CTLESC; b]) w) -> forallb (fun b => negb (b =? CTLRAW)) w = true ->
  (length w < fuel)%nat -> cur ++ drop i input <> [] ->
  split_loop input ifs fuel i fields cur = fields ++ [cur ++ drop i input].
Proof.
  revert fuel i cur. induction w as [|b w IH]; intros fuel i cur Hd Hok Hf Hne.
  - simpl in Hd. rewrite Hd, app_nil_r in *. destruct fuel as [|fuel]; [simpl in Hf; lia|]. cbn [split_loop].
    assert (length input <= i)%nat as Hi.
    { apply (f_equal length) in Hd. rewrite length_drop in Hd. simpl in Hd. lia. }
    rewrite (proj2 (Nat.ltb_ge i (length input))) by done. by destruct cur.
  - simpl in Hok. apply andb_true_iff in Hok as [Hb%negb_true_iff%Z.eqb_neq Hok].
    cbn [map concat app] in Hd. destruct (quoted_pair_at input i b _ ifs Hd Hb) as (Hu & Hc & Hd2 & Hi).
    destruct fuel as [|fuel]; [lia|]. cbn [split_loop].
    rewrite (proj2 (Nat.ltb_lt i (length input))), Hu, Hc by done.
    rewrite (IH fuel (i + 2)%nat (cur ++ [CTLESC; b])); [|done|done|simpl in Hf; lia|by destruct cur].
    by rewrite Hd2, Hd, <- app_assoc.
Qed.

(** quoting protects from splitting: a non-empty word whose bytes are all
    quoted stays one field under every IFS, and the field is the quoted word
    unchanged. *)
Theorem quoted_word_is_one_field (w : bytes) (v : option bytes)
    (Hne : w <> []) (Hnul : forallb (fun b => negb (b =? CTLRAW)) w = true) :
  let buf := push_quoted_slice ExpandBuf_new w in
  split buf (from_env v) = [buf_bytes buf].
Proof.
  cbv zeta. unfold split, split_bytes. rewrite quoted_buf. cbn [app ExpandBuf_new buf_bytes].
  set (input := concat (map (fun b => [CTLESC; b]) w)).
  assert (Hin : input <> []) by (subst input; by destruct w).
  destruct (is_null (from_env v)); [by destruct input|].
  destruct w as [|b w]; [done|]. assert (Hnul' := Hnul). simpl in Hnul. apply andb_true_iff in Hnul as [Hb%negb_true_iff%Z.eqb_neq _].
  destruct (quoted_pair_at input 0 b _ (from_env v) eq_refl Hb) as (Hu & _ & _ & Hlt).
  assert (Hskip : skip input (from_env v) 0 = 0%nat).
  { unfold skip. destruct (length input); [done|]. cbn [skip_ifs_ws]. by rewrite Hu. }
  rewrite Hskip, (proj2 (Nat.leb_gt (length input) 0)) by lia.
  rewrite (split_loop_quoted input (from_env v) (b :: w)); [done|done|done| |done].
  enough (length (b :: w) <= length input)%nat by lia. subst input. clear. induction (b :: w); simpl; lia.
Qed.

Lemma quoted_word_is_one_field_witness :
  split (push_quoted_slice ExpandBuf_new (bs " a b ")) (from_env None)
  = [buf_bytes (push_quoted_slice ExpandBuf_new (bs " a b "))].
Proof. apply (quoted_word_is_one_field (bs " a b ") None); [discriminate|reflexivity]. Defined.
