(* ===== verification/Quote.v ===== *)
(** Quote scanners and the [$'..'] decoder (crates/expander/src/quote.rs): the
    escapes of ANSI-C quoting, the text of a value that reads back as the value,
    and the carrying of arbitrary bytes in Rust strings. *)
From S2P Require Import Prelude Utf8 Buf.

Definition RAW_BYTE_BASE : Z := 983040.

(** * The decoder *)

Definition hex_digit (b : Z) : option Z :=
  if in_range "0"%b "9"%b b then Some (b - "0"%b)
  else if in_range "a"%b "f"%b b then Some (b - "a"%b + 10)
  else if in_range "A"%b "F"%b b then Some (b - "A"%b + 10)
  else None.

(** The loops that accumulate digits: [digit] is the digit test, at most [max]
    bytes of [s] are looked at.  The value, how many bytes were taken, and the
    rest. *)
Fixpoint take_digits (digit : Z -> option Z) (acc : Z -> Z -> Z) (max : nat) (val : Z) (s : bytes) :
    Z * nat * bytes :=
  match max, s with
  | S max, b :: r =>
      match digit b with
      | Some d =>
          let '(val, count, r) := take_digits digit acc max (acc val d) r in
          (val, S count, r)
      | None => (val, 0%nat, s)
      end
  | _, _ => (val, 0%nat, s)
  end.

Definition octal_digit (b : Z) : option Z :=
  if in_range "0"%b "7"%b b then Some (b - "0"%b) else None.

Definition wrapping_mul16_add (val d : Z) : Z := u32 (u32 (val * 16) + d).

Definition decode_hex_escape (src : bytes) : Z * bytes * nat :=
  match src with
  | "{"%b :: r =>
      let '(val, count, rest) := take_digits hex_digit wrapping_mul16_add (length r) 0 r in
      match rest with
      | "}"%b :: rest' => (val, rest', count)
      | _ => (val, rest, count)
      end
  | _ =>
      let '(val, count, rest) := take_digits hex_digit wrapping_mul16_add 2 0 src in
      (val, rest, count)
  end.

(** The pushes return the flag of the Rust functions: [false] ends the text. *)
Definition push_ansi_byte (out : bytes) (value : Z) : bytes * bool :=
  let byte := Z.land value 255 in
  if byte =? 0 then (out, false) else (out ++ [byte], true).

Definition u8 (z : Z) : Z := z mod 256.

Definition push_extended_utf8 (out : bytes) (cp : Z) : bytes :=
  let cont k := u8 (Z.lor 128 (Z.land (Z.shiftr cp k) 63)) in
  out ++
  (if in_range 0 127 cp then [u8 cp]
   else if in_range 128 2047 cp then [u8 (Z.lor 192 (Z.shiftr cp 6)); cont 0]
   else if in_range 2048 65535 cp then [u8 (Z.lor 224 (Z.shiftr cp 12)); cont 6; cont 0]
   else if in_range 65536 2097151 cp then
     [u8 (Z.lor 240 (Z.shiftr cp 18)); cont 12; cont 6; cont 0]
   else if in_range 2097152 67108863 cp then
     [u8 (Z.lor 248 (Z.shiftr cp 24)); cont 18; cont 12; cont 6; cont 0]
   else
     [u8 (Z.lor 252 (Z.land (Z.shiftr cp 30) 1)); cont 24; cont 18; cont 12; cont 6; cont 0]).

Definition str_contains (p s : bytes) : bool := match find_sub p s with Some _ => true | None => false end.

Definition big5_codepoint_bytes (cp : Z) (locale : bytes) : option bytes :=
  let lower := map to_ascii_lowercase locale in
  if negb (starts_with (bs "zh_tw.") lower && str_contains (bs "big5") lower
           || starts_with (bs "zh_hk.") lower && str_contains (bs "big5hkscs") lower)
  then None
  else
    let second :=
      if cp =? 936 then Some "Z"%b
      else if cp =? 937 then Some "["%b
      else if cp =? 945 then Some "\"%b
      else if cp =? 946 then Some "]"%b
      else if cp =? 947 then Some "^"%b
      else if cp =? 948 then Some "_"%b
      else if cp =? 949 then Some "`"%b
      else if cp =? 950 then Some "a"%b
      else None in
    (fun second => [163; second]) <$> second.

Definition push_unicode_for_locale (out : bytes) (cp : Z) (locale : option bytes) : bytes * bool :=
  if cp =? 0 then (out, false)
  else if 2147483647 <? cp then (out, true)
  else
    match locale ≫= big5_codepoint_bytes cp with
    | Some bytes => (out ++ bytes, true)
    | None =>
        match from_u32 cp with
        | Some c => (out ++ encode_utf8 c, true)
        | None => (push_extended_utf8 out cp, true)
        end
    end.

(** The escapes that stand for one byte each. *)
Definition simple_escape (n : Z) : option Z :=
  if n =? "a"%b then Some 7
  else if n =? "b"%b then Some 8
  else if (n =? "e"%b) || (n =? "E"%b) then Some 27
  else if n =? "f"%b then Some 12
  else if n =? "n"%b then Some 10
  else if n =? "r"%b then Some 13
  else if n =? "t"%b then Some 9
  else if n =? "v"%b then Some 11
  else if n =? "\"%b then Some "\"%b
  else if n =? "'"%b then Some "'"%b
  else if n =? dquote then Some dquote
  else if n =? "?"%b then Some "?"%b
  else None.

(** One round of the loop at [b :: s]: the output, whether to go on, the rest. *)
Definition ansi_c_step (locale : option bytes) (out : bytes) (b : Z) (s : bytes) : bytes * bool * bytes :=
  match s with
  | [] => (out ++ [b], true, s)
  | n :: s2 =>
      if negb (b =? "\"%b) then (out ++ [b], true, s)
      else
        match simple_escape n with
        | Some v => (out ++ [v], true, s2)
        | None =>
            if in_range "0"%b "7"%b n then
              let '(val, _, rest) := take_digits octal_digit (fun val d => val * 8 + d) 3 0 s in
              (push_ansi_byte out (Z.land val 255), rest)
            else if n =? "x"%b then
              let '(val, rest, count) := decode_hex_escape s2 in
              if (count =? 0)%nat && negb (bool_decide (head s2 = Some "{"%b))
              then (out ++ ["\"%b; "x"%b], true, s2)
              else (push_ansi_byte out (Z.land val 255), rest)
            else if (n =? "u"%b) || (n =? "U"%b) then
              let max := if n =? "u"%b then 4%nat else 8%nat in
              let '(val, count, rest) := take_digits hex_digit (fun val d => val * 16 + d) max 0 s2 in
              if (count =? 0)%nat then (out ++ ["\"%b; n], true, s2)
              else (push_unicode_for_locale out val locale, rest)
            else if n =? "c"%b then
              match s2 with
              | [] => (out ++ ["\"%b; "c"%b], true, s2)
              | c :: s3 =>
                  let '(c, rest) :=
                    if c =? "\"%b then
                      match s3 with
                      | "\"%b :: s4 => ("\"%b, s4)
                      | _ => ("\"%b, s3)
                      end
                    else (c, s3) in
                  let v := if c =? "?"%b then 127 else Z.land c 31 in
                  (push_ansi_byte out v, rest)
              end
            else (out ++ ["\"%b; n], true, s2)
        end
  end.

Fixpoint ansi_c_loop (locale : option bytes) (fuel : nat) (out src : bytes) : bytes :=
  match fuel, src with
  | S fuel, b :: s =>
      let '(out, more, rest) := ansi_c_step locale out b s in
      if more then ansi_c_loop locale fuel out rest else out
  | _, _ => out
  end.

Definition ansi_c_decode_for_locale (src : bytes) (locale : option bytes) : bytes :=
  ansi_c_loop locale (length src) [] src.

Definition ansi_c_decode (src : bytes) : bytes := ansi_c_decode_for_locale src None.

(** * Bytes in strings *)

Definition push_raw_byte_marker (out : list Z) (byte : Z) : list Z :=
  match from_u32 (RAW_BYTE_BASE + byte) with
  | Some ch => out ++ [ch]
  | None => out
  end.

Fixpoint bytes_to_shell_string_loop (fuel : nat) (out : list Z) (bytes : bytes) : list Z :=
  match fuel, bytes with
  | S fuel, _ :: _ =>
      match from_utf8 bytes with
      | inl valid => out ++ valid
      | inr err =>
          let '(out, bytes) :=
            if (0 <? valid_up_to err)%nat then
              (out ++ match from_utf8 (take (valid_up_to err) bytes) with
                      | inl valid => valid
                      | inr _ => []
                      end,
               drop (valid_up_to err) bytes)
            else (out, bytes) in
          let invalid_len := Nat.min (default (length bytes) (error_len err)) (length bytes) in
          bytes_to_shell_string_loop fuel
            (fold_left push_raw_byte_marker (take invalid_len bytes) out) (drop invalid_len bytes)
      end
  | _, _ => out
  end.

Definition bytes_to_shell_string (bytes : bytes) : list Z :=
  bytes_to_shell_string_loop (length bytes) [] bytes.

Definition shell_char_bytes (cp : Z) : bytes :=
  if in_range RAW_BYTE_BASE (RAW_BYTE_BASE + 255) cp then [cp - RAW_BYTE_BASE] else encode_utf8 cp.

Definition shell_string_to_bytes (s : list Z) : bytes :=
  fold_left (fun out ch => out ++ shell_char_bytes ch) s [].

Definition shell_string_to_cstring_bytes (s : list Z) : bytes :=
  let bytes := shell_string_to_bytes s in
  match find_byte 0 bytes with
  | Some pos => take pos bytes
  | None => bytes
  end.

(** * Scanners: the body, and what follows the closing quote *)

Fixpoint scan_single_quoted (src : bytes) : bytes * bytes :=
  match src with
  | [] => ([], [])
  | b :: s =>
      if b =? "'"%b then ([], s)
      else let '(out, rest) := scan_single_quoted s in (b :: out, rest)
  end.

Fixpoint scan_ansi_c_quoted (src : bytes) : bytes * bytes :=
  match src with
  | [] => ([], [])
  | b :: s =>
      if b =? "'"%b then ([], s)
      else
        match s with
        | c :: s' =>
            if b =? "\"%b then let '(out, rest) := scan_ansi_c_quoted s' in (b :: c :: out, rest)
            else let '(out, rest) := scan_ansi_c_quoted s in (b :: out, rest)
        | [] => ([b], [])
        end
  end.

(** * Quoting *)

(** [format!("\\{:03o}", b)]. *)
Definition octal_escape (b : Z) : bytes :=
  ["\"%b; 48 + b / 64; 48 + b / 8 mod 8; 48 + b mod 8].

Definition ansi_escape (b : Z) : bytes :=
  if b =? "'"%b then bs "\'"
  else if b =? "\"%b then bs "\\"
  else if b =? 10 then bs "\n"
  else if b =? 9 then bs "\t"
  else if b =? 13 then bs "\r"
  else if b =? 7 then bs "\a"
  else if b =? 8 then bs "\b"
  else if b =? 11 then bs "\v"
  else if b =? 12 then bs "\f"
  else if b =? 27 then bs "\E"
  else if in_range 0 31 b || (b =? 127) then octal_escape b
  else [b].

Definition single_escape (b : Z) : bytes := if b =? "'"%b then bs "'\''" else [b].

Definition shell_quote (src : bytes) : bytes :=
  if bytes_eqb src (bs "'") then bs "\'"
  else if negb (existsb (fun b => (b <? 32) || (b =? 127)) src) then
    bs "'" ++ concat (map single_escape src) ++ bs "'"
  else bs "$'" ++ concat (map ansi_escape src) ++ bs "'".

(** The escape of every byte that is not printable ASCII. *)
Definition ansi_quote_escape (b : Z) : bytes :=
  if b =? "'"%b then bs "\'"
  else if b =? "\"%b then bs "\\"
  else if b =? 10 then bs "\n"
  else if b =? 9 then bs "\t"
  else if b =? 13 then bs "\r"
  else if b =? 7 then bs "\a"
  else if b =? 8 then bs "\b"
  else if b =? 11 then bs "\v"
  else if b =? 12 then bs "\f"
  else if in_range 32 126 b then [b]
  else octal_escape b.

Definition ansi_quote_bytes (src : bytes) : bytes := bs "$'" ++ concat (map ansi_quote_escape src) ++ bs "'".

(** The bytes a [String] stands for. *)
Definition value_bytes (s : bytes) : bytes := shell_string_to_bytes (str_chars s).

Definition shell_string_needs_ansi_quote (value src : bytes) : bool :=
  negb (bytes_eqb src value) || existsb (fun b => (b <? 32) || (b =? 127)) src.

Definition shell_quote_shell_string (value : bytes) : bytes :=
  let src := value_bytes value in
  if shell_string_needs_ansi_quote value src then ansi_quote_bytes src
  else from_utf8_lossy (shell_quote value).

(** The characters escaped are ASCII, so the bytes of the text will do. *)
Definition escape_double (s : bytes) : bytes :=
  concat (map (fun c => if (c =? dquote) || (c =? "\"%b) || (c =? "$"%b) || (c =? "`"%b)
                        then ["\"%b; c] else [c]) s).

Definition double_quote (value : bytes) : bytes := dquote :: escape_double value ++ [dquote].

Definition array_element_quote (value : bytes) : bytes :=
  let src := value_bytes value in
  if shell_string_needs_ansi_quote value src then ansi_quote_bytes src else double_quote value.

Definition key_safe (c : Z) : bool :=
  is_ascii_alphanumeric c || (c =? "_"%b) || (c =? "/"%b) || (c =? "."%b) || (c =? "-"%b)
  || (c =? "+"%b) || (c =? ":"%b) || (c =? ","%b).

Definition assoc_key_quote (value : bytes) : bytes :=
  if forallb key_safe value then value
  else if shell_string_needs_ansi_quote value (value_bytes value) then shell_quote_shell_string value
  else double_quote value.

Definition key_value_transform_key_quote (value : bytes) : bytes :=
  if forallb (fun c => key_safe c || (c =? "="%b)) value then value else array_element_quote value.

Definition push_ansi_c_quoted (buf : ExpandBuf) (decoded : bytes) : ExpandBuf :=
  match decoded with
  | [] => push_quoted_null buf
  | _ => fold_left push_quoted decoded buf
  end.
