(* ===== verification/QuoteProps.v ===== *)
(** Quoting: bytes carried in strings come back, what the [$'..'] decoder
    produces, and quoted text is decoded to the value it was made from. *)
From S2P Require Import Prelude Utf8 Buf Quote.

(** * Bytes in strings *)

(** The reading of bytes as a shell string, piece by piece: a valid sequence is
    its code point, every byte of an invalid one its marker. *)
Inductive Chunks : bytes -> list Z -> Prop :=
| chunks_nil : Chunks [] []
| chunks_char s n cs :
    utf8_seq s = Some n -> Chunks (drop n s) cs -> Chunks s (utf8_decode (take n s) :: cs)
| chunks_raw s k cs :
    s <> [] -> utf8_seq s = None -> k = default (length s) (utf8_error_len s) ->
    Chunks (drop k s) cs -> Chunks s (map (Z.add RAW_BYTE_BASE) (take k s) ++ cs).

Definition is_byte (b : Z) : Prop := 0 <= b <= 255.

Lemma push_markers s out : Forall is_byte s ->
  fold_left push_raw_byte_marker s out = out ++ map (Z.add RAW_BYTE_BASE) s.
Proof.
  intros Hs. revert out. induction Hs as [|b s Hb _ IH]; intros out; cbn [fold_left map]; [by rewrite app_nil_r|].
  assert (is_scalar (RAW_BYTE_BASE + b) = true) as Hm
    by (unfold is_scalar, in_range, RAW_BYTE_BASE, is_byte in *; lia).
  rewrite IH. unfold push_raw_byte_marker, from_u32. by rewrite Hm, <- app_assoc.
Qed.

Lemma chunks_text cps rest cs : Forall (fun cp => is_scalar cp = true) cps -> Chunks rest cs ->
  Chunks (concat (map encode_utf8 cps) ++ rest) (cps ++ cs).
Proof.
  intros HF Hr. induction HF as [|cp cps Hcp _ IH]; [done|]. cbn [map concat app].
  rewrite <- app_assoc. pose proof (utf8_seq_encode cp (concat (map encode_utf8 cps) ++ rest) Hcp) as Hn.
  eapply (chunks_char _ _ _) in Hn; [|rewrite drop_app_length; exact IH].
  by rewrite take_app_length, (utf8_decode_encode _ Hcp) in Hn.
Qed.

Lemma from_utf8_text cps : Forall (fun cp => is_scalar cp = true) cps ->
  from_utf8 (concat (map encode_utf8 cps)) = inl cps.
Proof.
  intros HF. unfold from_utf8. rewrite <- (app_nil_r (concat _)) at 2.
  rewrite utf8_scan_encode; try done.
  clear - HF. induction HF as [|cp cps Hcp _ IH]; [done|]. cbn [map concat]. rewrite length_app. simpl.
  pose proof (utf8_seq_bounds _ _ (utf8_seq_encode cp [] Hcp)). lia.
Qed.

Lemma from_utf8_cases s :
  (exists cps, Forall (fun cp => is_scalar cp = true) cps /\ s = concat (map encode_utf8 cps)
     /\ from_utf8 s = inl cps)
  \/ (exists cps rest, Forall (fun cp => is_scalar cp = true) cps
     /\ s = concat (map encode_utf8 cps) ++ rest /\ rest <> [] /\ utf8_seq rest = None
     /\ from_utf8 s = inr (mkUtf8Error (length (concat (map encode_utf8 cps))) (utf8_error_len rest))).
Proof.
  unfold from_utf8. destruct (utf8_scan (length s) s) as [[cps len] rest] eqn:E.
  destruct (utf8_scan_spec _ _ _ _ _ (le_n _) E) as (HF & Hs & -> & Hr).
  destruct rest as [|b rest].
  - left. exists cps. rewrite app_nil_r in Hs. done.
  - right. exists cps, (b :: rest). done.
Qed.

Lemma shell_string_chunks fuel out s : (length s <= fuel)%nat -> Forall is_byte s ->
  exists cs, bytes_to_shell_string_loop fuel out s = out ++ cs /\ Chunks s cs.
Proof.
  revert out s. induction fuel as [|fuel IH]; intros out s Hf Hs.
  { destruct s; [|simpl in Hf; lia]. exists []. rewrite app_nil_r. split; [done|constructor]. }
  destruct s as [|b s]; [exists []; rewrite app_nil_r; split; [done|constructor]|].
  cbn [bytes_to_shell_string_loop]. set (s0 := b :: s) in *. clearbody s0.
  destruct (from_utf8_cases s0) as [(cps & HF & Hd & ->)|(cps & rest & HF & Hd & Hne & Hr & ->)].
  { exists cps. split; [done|]. rewrite Hd. pose proof (chunks_text cps [] [] HF chunks_nil) as Hc.
    by rewrite !app_nil_r in Hc. }
  cbn [valid_up_to error_len].
  assert ((if (0 <? length (concat (map encode_utf8 cps)))%nat
           then (out ++ match from_utf8 (take (length (concat (map encode_utf8 cps))) s0) with
                        | inl valid => valid | inr _ => [] end,
                 drop (length (concat (map encode_utf8 cps))) s0)
           else (out, s0)) = (out ++ cps, rest)) as ->.
  { rewrite Hd, take_app_length, drop_app_length, (from_utf8_text _ HF).
    destruct cps as [|cp cps]; [cbn; by rewrite app_nil_r|].
    inversion HF as [|? ? Hcp _]; subst. cbn [map concat]. rewrite length_app.
    pose proof (utf8_seq_bounds _ _ (utf8_seq_encode cp [] Hcp)). case_match eqn:E; [done|].
    apply Nat.ltb_ge in E. lia. }
  destruct (utf8_error_bounds _ Hne Hr) as [Hk _]. set (k := default (length rest) _) in *.
  assert (length rest <= length s0)%nat by (rewrite Hd, length_app; lia).
  assert (Forall is_byte rest) as Hb by (rewrite Hd in Hs; by apply Forall_app in Hs as [_ ?]).
  rewrite Nat.min_l, push_markers by (by apply Forall_take || lia).
  destruct (IH ((out ++ cps) ++ map (Z.add RAW_BYTE_BASE) (take k rest)) (drop k rest)) as (cs & -> & Hc).
  { rewrite length_drop. lia. }
  { by apply Forall_drop. }
  exists (cps ++ map (Z.add RAW_BYTE_BASE) (take k rest) ++ cs).
  split; [by rewrite !app_assoc|]. rewrite Hd. apply chunks_text; [done|]. by apply chunks_raw.
Qed.

Lemma shell_string_reading s : Forall is_byte s -> Chunks s (bytes_to_shell_string s).
Proof.
  intros Hs. destruct (shell_string_chunks (length s) [] s (le_n _) Hs) as (cs & E & Hc).
  unfold bytes_to_shell_string. by rewrite E.
Qed.

Lemma to_bytes_concat cs : shell_string_to_bytes cs = concat (map shell_char_bytes cs).
Proof.
  unfold shell_string_to_bytes. rewrite <- (app_nil_l (concat _)).
  generalize ([] : bytes). induction cs as [|c cs IH]; intros out; cbn; [by rewrite app_nil_r|].
  by rewrite IH, <- app_assoc.
Qed.

Lemma markers_to_bytes s : Forall is_byte s ->
  concat (map shell_char_bytes (map (Z.add RAW_BYTE_BASE) s)) = s.
Proof.
  induction 1 as [|b s Hb _ IH]; [done|]. cbn [map concat]. rewrite IH.
  unfold shell_char_bytes, in_range, RAW_BYTE_BASE, is_byte in *. case_match; [|lia].
  cbn [app]. f_equal. lia.
Qed.

(** The encoding of a character of the range the markers use. *)
Definition private_seq (s : bytes) : Prop :=
  exists p c d q, s = p ++ 243 :: 176 :: c :: d :: q /\ 128 <= c <= 131 /\ 128 <= d <= 191.

Lemma private_drop n s : private_seq (drop n s) -> private_seq s.
Proof.
  intros (p & c & d & q & E & Hr). exists (take n s ++ p), c, d, q.
  split; [|done]. by rewrite <- app_assoc, <- E, take_drop.
Qed.

Lemma private_char s n : utf8_seq s = Some n ->
  in_range RAW_BYTE_BASE (RAW_BYTE_BASE + 255) (utf8_decode (take n s)) = true ->
  exists c d q, s = 243 :: 176 :: c :: d :: q /\ n = 4%nat /\ 128 <= c <= 131 /\ 128 <= d <= 191.
Proof.
  unfold RAW_BYTE_BASE.
  intros [(b&r&->&->&?)|[(b&c&r&->&->&?&?&?)|[(b&c&d&r&->&->&?&?&?&?&?)|(b&c&d&e&r&->&->&?&?&?&?&?)]]]%utf8_seq_inv;
    cbn [take]; rewrite take_0; byte_tests; cbn [utf8_decode] in *; intros; try lia.
  assert (b = 243) as -> by lia. assert (c = 176) as -> by lia. exists d, e, r. repeat split; lia.
Qed.

Lemma chunks_back s cs : Chunks s cs -> Forall is_byte s -> ~ private_seq s ->
  concat (map shell_char_bytes cs) = s.
Proof.
  induction 1 as [|s n cs Hn _ IH|s k cs Hne Hr Hk _ IH]; intros Hs Hp; [done| |].
  - cbn [map concat]. rewrite IH; [|by apply Forall_drop|by intros ?%private_drop].
    unfold shell_char_bytes. case_match eqn:E.
    + destruct (private_char _ _ Hn E) as (c & d & q & -> & _ & Hc & Hd). destruct Hp.
      exists [], c, d, q. done.
    + rewrite (proj2 (utf8_seq_decode _ _ Hn)). apply take_drop.
  - rewrite map_app, concat_app, markers_to_bytes, IH; [apply take_drop|by apply Forall_drop| |by apply Forall_take].
    by intros ?%private_drop.
Qed.

(** The part of a text that one piece covers cannot end inside a private
    sequence, whose first byte is no continuation byte. *)
Lemma private_after n s : (1 <= n)%nat -> Forall (fun b => is_cont b = true) (tail (take n s)) ->
  private_seq s -> (exists c d q, s = 243 :: 176 :: c :: d :: q /\ 128 <= c <= 131 /\ 128 <= d <= 191)
  \/ private_seq (drop n s).
Proof.
  intros Hn HF (p & c & d & q & -> & Hr). destruct p as [|x p]; [left; by exists c, d, q|right].
  destruct (le_lt_dec n (length (x :: p))) as [Hl|Hl].
  { exists (drop n (x :: p)), c, d, q. by rewrite drop_app_le. }
  exfalso. destruct n as [|n]; [lia|]. cbn in HF. rewrite Forall_lookup in HF.
  specialize (HF (length p) 243). rewrite lookup_take_lt, list_lookup_middle in HF by (simpl in Hl; lia || done).
  discriminate (HF eq_refl).
Qed.

Lemma chunks_length s cs : Chunks s cs -> Forall is_byte s ->
  (length (concat (map shell_char_bytes cs)) <= length s)%nat
  /\ (private_seq s -> (length (concat (map shell_char_bytes cs)) < length s)%nat).
Proof.
  induction 1 as [|s n cs Hn _ IH|s k cs Hne Hr Hk _ IH]; intros Hs.
  - split; [done|]. intros ([|]&?&?&?&?&?); discriminate.
  - destruct (IH ltac:(by apply Forall_drop)) as [IH1 IH2]. rewrite length_drop in IH1, IH2.
    cbn [map concat]. rewrite length_app. destruct (utf8_seq_bounds _ _ Hn) as (?&?&Hc).
    assert (length (shell_char_bytes (utf8_decode (take n s))) <= n)%nat.
    { unfold shell_char_bytes. case_match; [simpl; lia|].
      rewrite (proj2 (utf8_seq_decode _ _ Hn)), length_take. lia. }
    split; [lia|]. intros [(c&d&q&->&?&?)|Hp]%(private_after n); [| |lia|done].
    + assert (n = 4%nat) as -> by (revert Hn; cbn; byte_tests; repeat case_match; intros; simplify_eq; lia).
      assert (length (shell_char_bytes (utf8_decode (take 4 (243 :: 176 :: c :: d :: q)))) = 1%nat); [|lia].
      unfold shell_char_bytes. case_match eqn:E; [done|]. cbn [take] in E.
      rewrite take_0 in E. cbn [utf8_decode] in E. byte_tests. unfold RAW_BYTE_BASE in E. lia.
    + specialize (IH2 Hp). lia.
  - destruct (IH ltac:(by apply Forall_drop)) as [IH1 IH2]. rewrite length_drop in IH1, IH2.
    destruct (utf8_error_bounds _ Hne Hr) as [? Hc]. rewrite <- Hk in *.
    rewrite map_app, concat_app, length_app, markers_to_bytes, length_take by (by apply Forall_take).
    split; [lia|]. intros [(c&d&q&->&?&?)|Hp]%(private_after k); [| |lia|done].
    + revert Hr. cbn. byte_tests. repeat case_match; try done; lia.
    + specialize (IH2 Hp). lia.
Qed.

(** Carrying bytes in a Rust string loses nothing exactly when the bytes hold
    no encoding of a character U+F0000..U+F00FF, the range the string form uses
    for bytes that are not UTF-8. *)
Theorem shell_string_roundtrip_iff s : Forall is_byte s ->
  shell_string_to_bytes (bytes_to_shell_string s) = s <-> ~ private_seq s.
Proof.
  intros Hs. rewrite to_bytes_concat. pose proof (shell_string_reading _ Hs) as Hc. split.
  - intros E Hp. apply (chunks_length _ _ Hc Hs) in Hp. rewrite E in Hp. lia.
  - by apply chunks_back.
Qed.

Lemma shell_string_roundtrip_iff_witness :
  shell_string_to_bytes (bytes_to_shell_string [97; 222; 98; 255; 195; 169]) = [97; 222; 98; 255; 195; 169].
Proof.
  apply shell_string_roundtrip_iff; [repeat constructor; unfold is_byte; lia|].
  intros (p & c & d & q & E & _).
  do 6 (destruct p as [|? p]; [discriminate|injection E as _ E]). by destruct p.
Defined.

(** A valid UTF-8 text does not come back when it holds such a character:
    U+F0041 becomes the letter A. *)
Theorem private_character_becomes_byte :
  from_utf8 [243; 176; 129; 129] = inl [983105]
  /\ shell_string_to_bytes (bytes_to_shell_string [243; 176; 129; 129]) = bs "A".
Proof. done. Qed.

(** * The decoder *)

(** The bytes of the literals of the goal. *)
Ltac eval_bs :=
  repeat match goal with
  | |- context [bs ?t] => let v := eval vm_compute in (bs t) in change (bs t) with v
  end.

Lemma take_digits_length digit acc max val s :
  (length (take_digits digit acc max val s).2 <= length s)%nat.
Proof.
  revert val s. induction max as [|max IH]; intros val [|b s]; cbn [take_digits]; try done.
  destruct (digit b); [|done]. specialize (IH (acc val z) s).
  destruct (take_digits digit acc max (acc val z) s) as [[v c] r]. simpl in *. lia.
Qed.

Lemma take_digits_nonneg digit acc max val s :
  (forall b d, digit b = Some d -> 0 <= d) -> (forall v d, 0 <= v -> 0 <= d -> 0 <= acc v d) ->
  0 <= val -> 0 <= (take_digits digit acc max val s).1.1.
Proof.
  intros Hd Ha. revert val s. induction max as [|max IH]; intros val [|b s] Hv; cbn [take_digits]; try done.
  destruct (digit b) eqn:E; [|done]. specialize (IH (acc val z) s ltac:(eauto)).
  destruct (take_digits digit acc max (acc val z) s) as [[v c] r]. done.
Qed.

Lemma decode_hex_escape_length s : (length (decode_hex_escape s).1.2 <= length s)%nat.
Proof.
  unfold decode_hex_escape. set (f := take_digits hex_digit wrapping_mul16_add).
  assert (forall k r, (length (f k 0%Z r).2 <= length r)%nat) as Hf by (intros; apply take_digits_length).
  clearbody f. repeat case_match; simplify_eq; cbn [fst snd length] in *;
    match goal with H : f ?k 0 ?r = _ |- _ => specialize (Hf k r); rewrite H in Hf; cbn [snd length] in Hf end;
    lia.
Qed.

(** Every round consumes its byte, so the length of the text is fuel enough. *)
Lemma ansi_c_step_length locale out b s : (length (ansi_c_step locale out b s).2 <= length s)%nat.
Proof.
  unfold ansi_c_step. destruct s as [|n s2]; [done|]. destruct (negb _); [done|].
  destruct (simple_escape n); [simpl; lia|].
  destruct (in_range _ _ n).
  { pose proof (take_digits_length octal_digit (fun val d => val * 8 + d) 3 0 (n :: s2)).
    destruct (take_digits _ _ _ _ _) as [[v c] r]. done. }
  destruct (n =? _).
  { pose proof (decode_hex_escape_length s2). destruct (decode_hex_escape s2) as [[v r] c].
    case_match; simpl in *; lia. }
  destruct (_ || _).
  { match goal with |- context [take_digits ?d ?a ?m ?v ?t] => pose proof (take_digits_length d a m v t);
      destruct (take_digits d a m v t) as [[? ?] ?] end. case_match; simpl in *; lia. }
  destruct (n =? _); [|simpl; lia]. repeat case_match; simplify_eq; simpl; lia.
Qed.

Lemma push_ansi_byte_out out v :
  push_ansi_byte out v = (out ++ (push_ansi_byte [] v).1, (push_ansi_byte [] v).2).
Proof. unfold push_ansi_byte. case_match; simpl; by rewrite ?app_nil_r. Qed.

Lemma push_unicode_out out cp locale :
  push_unicode_for_locale out cp locale =
  (out ++ (push_unicode_for_locale [] cp locale).1, (push_unicode_for_locale [] cp locale).2).
Proof.
  unfold push_unicode_for_locale, push_extended_utf8. repeat (case_match; cbn [fst snd]);
    by rewrite ?app_nil_r.
Qed.

Lemma ansi_c_step_out locale out b s :
  ansi_c_step locale out b s =
  (out ++ (ansi_c_step locale [] b s).1.1, (ansi_c_step locale [] b s).1.2, (ansi_c_step locale [] b s).2).
Proof.
  unfold ansi_c_step. destruct s as [|n s2]; [done|]. destruct (negb _); [done|].
  destruct (simple_escape n); [done|]. destruct (in_range _ _ n).
  { destruct (take_digits _ _ _ _ _) as [[v c] r]. cbn [fst snd]. by rewrite push_ansi_byte_out. }
  destruct (n =? _).
  { destruct (decode_hex_escape s2) as [[v r] c]. destruct (_ && _); [done|].
    cbn [fst snd]. by rewrite push_ansi_byte_out. }
  destruct (_ || _).
  { destruct (take_digits _ _ _ _ _) as [[v c] r]. destruct (_ =? _)%nat; [done|].
    cbn [fst snd]. by rewrite push_unicode_out. }
  destruct (n =? _); [|done]. destruct s2 as [|c s3]; [done|].
  destruct (if c =? _ then _ else _) as [c' r]. cbn [fst snd]. by rewrite push_ansi_byte_out.
Qed.

Lemma ansi_c_loop_out locale fuel out src :
  ansi_c_loop locale fuel out src = out ++ ansi_c_loop locale fuel [] src.
Proof.
  revert out src. induction fuel as [|fuel IH]; intros out [|b s]; cbn [ansi_c_loop]; rewrite ?app_nil_r; try done.
  rewrite ansi_c_step_out. destruct (ansi_c_step locale [] b s) as [[o m] r]. cbn [fst snd].
  destruct m; [|done]. rewrite IH, (IH o). by rewrite app_assoc.
Qed.

Lemma ansi_c_loop_fuel locale fuel fuel' out src : (length src <= fuel)%nat -> (fuel <= fuel')%nat ->
  ansi_c_loop locale fuel' out src = ansi_c_loop locale fuel out src.
Proof.
  revert fuel' out src. induction fuel as [|fuel IH]; intros fuel' out src Hl Hf.
  { destruct src; [|simpl in Hl; lia]. by destruct fuel'. }
  destruct fuel' as [|fuel']; [lia|]. destruct src as [|b s]; [done|]. cbn [ansi_c_loop].
  pose proof (ansi_c_step_length locale out b s) as Hs.
  destruct (ansi_c_step locale out b s) as [[o m] r]. destruct m; [|done]. simpl in *. apply IH; lia.
Qed.

(** One round, then the decoding of the rest. *)
Lemma ansi_c_decode_cons locale b s :
  ansi_c_decode_for_locale (b :: s) locale =
  let '(o, more, rest) := ansi_c_step locale [] b s in
  o ++ (if more then ansi_c_decode_for_locale rest locale else []).
Proof.
  unfold ansi_c_decode_for_locale. cbn [length ansi_c_loop].
  pose proof (ansi_c_step_length locale [] b s) as Hs.
  destruct (ansi_c_step locale [] b s) as [[o m] r]. destruct m; [|by rewrite app_nil_r].
  rewrite ansi_c_loop_out. f_equal. by apply ansi_c_loop_fuel.
Qed.

Lemma land_255 v : 0 <= v <= 255 -> Z.land v 255 = v.
Proof. intros. change 255 with (Z.ones 8). rewrite Z.land_ones by lia. apply Z.mod_small. lia. Qed.

Lemma land_255_range v : 0 <= Z.land v 255 <= 255.
Proof.
  change (Z.land v 255) with (Z.land v (Z.ones 8)). rewrite Z.land_ones by lia.
  pose proof (Z.mod_pos_bound v (2 ^ 8) ltac:(lia)). lia.
Qed.

Lemma octal_step locale x y z rest :
  0 <= x <= 3 -> 0 <= y <= 7 -> 0 <= z <= 7 -> 0 < x * 64 + y * 8 + z ->
  ansi_c_step locale [] "\"%b (48 + x :: 48 + y :: 48 + z :: rest)
  = ([x * 64 + y * 8 + z], true, rest).
Proof.
  intros Hx Hy Hz Hv. unfold ansi_c_step. cbn [negb]. rewrite Z.eqb_refl. cbn [negb].
  assert (simple_escape (48 + x) = None) as ->.
  { unfold simple_escape, dquote. repeat (case_match; to_prop; try lia). done. }
  assert (forall d, 0 <= d <= 7 -> octal_digit (48 + d) = Some d) as Hd.
  { intros d Hd. unfold octal_digit, in_range. case_match; [f_equal|]; lia. }
  unfold in_range. case_match; [|lia]. cbn [take_digits]. rewrite !Hd by lia.
  replace (((0 * 8 + x) * 8 + y) * 8 + z) with (x * 64 + y * 8 + z) by lia.
  unfold push_ansi_byte. rewrite !(land_255 (x * 64 + y * 8 + z)) by lia. by case_match; to_prop; [lia|].
Qed.

Lemma octal_escape_decode locale b rest : 0 < b <= 255 ->
  ansi_c_decode_for_locale (octal_escape b ++ rest) locale = b :: ansi_c_decode_for_locale rest locale.
Proof.
  intros Hb. unfold octal_escape. cbn [app]. rewrite ansi_c_decode_cons.
  rewrite octal_step by (Z.to_euclidean_division_equations; lia). cbn [app]. f_equal.
  Z.to_euclidean_division_equations. lia.
Qed.

Lemma ansi_escape_decode locale b rest : 0 < b <= 255 ->
  ansi_c_decode_for_locale (ansi_escape b ++ rest) locale = b :: ansi_c_decode_for_locale rest locale.
Proof.
  intros Hb. unfold ansi_escape.
  repeat (match goal with
          | |- context [if b =? ?x then _ else _] =>
              destruct (Z.eqb_spec b x) as [->|?]; [eval_bs; cbn [app]; rewrite ansi_c_decode_cons; done|]
          end).
  unfold in_range. destruct (_ || _) eqn:E.
  - by apply octal_escape_decode.
  - cbn [app]. rewrite ansi_c_decode_cons. unfold ansi_c_step. destruct rest as [|c r]; [done|].
    by destruct (Z.eqb_spec b "\"%b).
Qed.

Lemma scan_ansi_plain b s : b <> "'"%b -> b <> "\"%b ->
  scan_ansi_c_quoted (b :: s) = (b :: (scan_ansi_c_quoted s).1, (scan_ansi_c_quoted s).2).
Proof.
  intros H1%Z.eqb_neq H2%Z.eqb_neq. cbn [scan_ansi_c_quoted]. rewrite H1, H2.
  destruct s as [|c s]; [done|]. by destruct (scan_ansi_c_quoted (c :: s)).
Qed.

Lemma scan_ansi_pair c s :
  scan_ansi_c_quoted ("\"%b :: c :: s)
  = ("\"%b :: c :: (scan_ansi_c_quoted s).1, (scan_ansi_c_quoted s).2).
Proof. cbn. by destruct (scan_ansi_c_quoted s). Qed.

Lemma scan_ansi_escape b s :
  scan_ansi_c_quoted (ansi_escape b ++ s)
  = (ansi_escape b ++ (scan_ansi_c_quoted s).1, (scan_ansi_c_quoted s).2).
Proof.
  unfold ansi_escape, octal_escape.
  repeat (match goal with
          | |- context [if b =? ?x then _ else _] => destruct (Z.eqb_spec b x) as [_|?]
          end; [eval_bs; cbn [app]; by rewrite scan_ansi_pair|]).
  destruct (_ || _); cbn [app]; [|by rewrite scan_ansi_plain].
  rewrite scan_ansi_pair, !scan_ansi_plain; [done|..]; Z.to_euclidean_division_equations; lia.
Qed.

Lemma ansi_quote_escape_cases b : 0 < b <= 255 ->
  ansi_quote_escape b = ansi_escape b \/ ansi_quote_escape b = octal_escape b.
Proof.
  intros Hb. unfold ansi_quote_escape, ansi_escape, in_range.
  repeat (case_match; to_prop; try (by left)); try (by right); lia.
Qed.

Lemma scan_octal_escape b s : 0 < b <= 255 ->
  scan_ansi_c_quoted (octal_escape b ++ s)
  = (octal_escape b ++ (scan_ansi_c_quoted s).1, (scan_ansi_c_quoted s).2).
Proof.
  intros Hb. unfold octal_escape. cbn [app].
  rewrite scan_ansi_pair, !scan_ansi_plain; [done|..]; Z.to_euclidean_division_equations; lia.
Qed.

(** What makes a way of escaping bytes readable: the scanner passes over the
    escape, and the decoder reads it as the byte. *)
Definition readable_escape (esc : Z -> bytes) : Prop :=
  forall b, 0 < b <= 255 ->
  (forall locale rest, ansi_c_decode_for_locale (esc b ++ rest) locale = b :: ansi_c_decode_for_locale rest locale)
  /\ (forall s, scan_ansi_c_quoted (esc b ++ s) = (esc b ++ (scan_ansi_c_quoted s).1, (scan_ansi_c_quoted s).2)).

Lemma readable_ansi_escape : readable_escape ansi_escape.
Proof. intros b Hb. split; intros; [by apply ansi_escape_decode|apply scan_ansi_escape]. Qed.

Lemma readable_ansi_quote_escape : readable_escape ansi_quote_escape.
Proof.
  intros b Hb. destruct (ansi_quote_escape_cases b Hb) as [-> | ->]; [by apply readable_ansi_escape|].
  split; intros; [by apply octal_escape_decode|by apply scan_octal_escape].
Qed.

Lemma escapes_decode esc locale src : readable_escape esc -> Forall (fun b => 0 < b <= 255) src ->
  ansi_c_decode_for_locale (concat (map esc src)) locale = src.
Proof.
  intros He. induction 1 as [|b src Hb _ IH]; [done|]. cbn [map concat].
  by rewrite (proj1 (He b Hb)), IH.
Qed.

(** The scanner of [$'..'] stops at the quote that closes the escapes. *)
Lemma scan_escapes esc src rest : readable_escape esc -> Forall (fun b => 0 < b <= 255) src ->
  scan_ansi_c_quoted (concat (map esc src) ++ "'"%b :: rest) = (concat (map esc src), rest).
Proof.
  intros He. induction 1 as [|b src Hb _ IH]; [done|]. cbn [map concat].
  by rewrite <- app_assoc, (proj2 (He b Hb)), IH.
Qed.

(** * No NUL comes out of the decoder *)

Lemma lor_add a x k : 0 <= k -> a mod 2 ^ k = 0 -> 0 <= x < 2 ^ k -> Z.lor a x = a + x.
Proof.
  intros Hk Ha Hx. assert (Z.land a x = 0) as Hl.
  { apply Z.bits_inj'. intros n Hn. rewrite Z.land_spec, Z.bits_0.
    destruct (Z.lt_ge_cases n k) as [Hlt|Hge].
    - rewrite <- (Z.mod_pow2_bits_low a k n Hlt), Ha. by rewrite Z.bits_0.
    - rewrite <- (Z.mod_small x (2 ^ k)) by lia. rewrite (Z.mod_pow2_bits_high x k n) by lia. apply andb_false_r. }
  pose proof (Z.add_lor_land a x). lia.
Qed.

Lemma cont_byte cp k : 0 <= k -> u8 (Z.lor 128 (Z.land (Z.shiftr cp k) 63)) = 128 + cp / 2 ^ k mod 64.
Proof.
  intros Hk. change 63 with (Z.ones 6). rewrite Z.land_ones, Z.shiftr_div_pow2 by lia.
  change (2 ^ 6) with 64. pose proof (Z.mod_pos_bound (cp / 2 ^ k) 64 ltac:(lia)).
  rewrite (lor_add 128 _ 6) by (try done; lia). unfold u8. apply Z.mod_small. lia.
Qed.

Lemma lead_byte a cp k w : 0 <= k -> 0 <= w <= 5 -> a mod 2 ^ w = 0 -> 0 <= a -> a + 2 ^ w <= 256 ->
  0 <= cp / 2 ^ k < 2 ^ w -> u8 (Z.lor a (Z.shiftr cp k)) = a + cp / 2 ^ k.
Proof.
  intros. rewrite Z.shiftr_div_pow2 by lia. rewrite (lor_add a _ w) by (try done; lia).
  unfold u8. apply Z.mod_small. lia.
Qed.

Lemma extended_utf8_encode out cp : is_scalar cp = true ->
  push_extended_utf8 out cp = out ++ encode_utf8 cp.
Proof.
  unfold is_scalar, in_range. intros H. unfold push_extended_utf8, encode_utf8. f_equal. cbv zeta.
  rewrite !cont_byte, Z.pow_0_r, Z.div_1_r by lia. unfold in_range.
  repeat (match goal with |- context [if ?b then _ else _] => let E := fresh in destruct b eqn:E end;
          try (exfalso; lia)); to_prop; try done.
  - unfold u8. by rewrite Z.mod_small by lia.
  - rewrite (lead_byte 192 cp 6 5); try lia; try done; split; [apply Z.div_pos|apply Z.div_lt_upper_bound]; lia.
  - rewrite (lead_byte 224 cp 12 4); try lia; try done; split; [apply Z.div_pos|apply Z.div_lt_upper_bound]; lia.
  - rewrite (lead_byte 240 cp 18 3); try lia; try done; split; [apply Z.div_pos|apply Z.div_lt_upper_bound]; lia.
Qed.

(** The shell's own UTF-8 encoder agrees with [char::encode_utf8] on every
    Unicode scalar value. *)
Theorem extended_utf8_is_utf8 out cp : is_scalar cp = true ->
  push_extended_utf8 out cp = out ++ encode_utf8 cp.
Proof. apply extended_utf8_encode. Qed.

Lemma extended_utf8_is_utf8_witness : push_extended_utf8 [] 8364 = [226; 130; 172].
Proof. rewrite extended_utf8_is_utf8; reflexivity. Defined.

(** A byte a C string can hold. *)
Definition nz_byte (b : Z) : Prop := 0 < b <= 255.

Ltac forall_list := repeat first [apply Forall_nil_2 | apply Forall_cons_2].

Lemma cont_nz cp k : 0 <= k -> nz_byte (u8 (Z.lor 128 (Z.land (Z.shiftr cp k) 63))).
Proof.
  intros Hk. rewrite cont_byte by done. pose proof (Z.mod_pos_bound (cp / 2 ^ k) 64 ltac:(lia)).
  unfold nz_byte. lia.
Qed.

Lemma lead_nz a cp k w : 0 <= k -> 0 <= w <= 5 -> a mod 2 ^ w = 0 -> 0 < a -> a + 2 ^ w <= 256 ->
  0 <= cp < 2 ^ k * 2 ^ w -> nz_byte (u8 (Z.lor a (Z.shiftr cp k))).
Proof.
  intros. assert (0 <= cp / 2 ^ k < 2 ^ w)
    by (split; [apply Z.div_pos|apply Z.div_lt_upper_bound]; lia).
  rewrite (lead_byte a cp k w) by lia. unfold nz_byte. lia.
Qed.

Lemma last_lead_nz cp : nz_byte (u8 (Z.lor 252 (Z.land (Z.shiftr cp 30) 1))).
Proof.
  change (Z.land (Z.shiftr cp 30) 1) with (Z.land (Z.shiftr cp 30) (Z.ones 1)).
  rewrite Z.land_ones by lia. pose proof (Z.mod_pos_bound (Z.shiftr cp 30) (2 ^ 1) ltac:(lia)).
  rewrite (lor_add 252 _ 1) by (try done; lia). unfold nz_byte, u8. rewrite Z.mod_small by lia. lia.
Qed.

Lemma extended_utf8_nz cp : 0 < cp <= 2147483647 -> Forall nz_byte (push_extended_utf8 [] cp).
Proof.
  intros Hcp. unfold push_extended_utf8. cbv zeta. cbn [app]. unfold in_range.
  repeat (case_match; to_prop); forall_list;
    lazymatch goal with
    | |- nz_byte (u8 (Z.lor 128 _)) => apply cont_nz; lia
    | |- nz_byte (u8 (Z.lor 252 _)) => apply last_lead_nz
    | _ => idtac
    end.
  - unfold nz_byte, u8. rewrite Z.mod_small by lia. lia.
  - apply (lead_nz 192 cp 6 5); lia || done.
  - apply (lead_nz 224 cp 12 4); lia || done.
  - apply (lead_nz 240 cp 18 3); lia || done.
  - apply (lead_nz 248 cp 24 2); lia || done.
Qed.

Lemma push_unicode_nz cp locale : 0 <= cp -> Forall nz_byte (push_unicode_for_locale [] cp locale).1.
Proof.
  intros Hcp. unfold push_unicode_for_locale. destruct (Z.eqb_spec cp 0); [constructor|].
  destruct (Z.ltb_spec 2147483647 cp); [constructor|].
  destruct (_ ≫= _) as [l|] eqn:E.
  - destruct locale as [loc|]; [|done]. simpl in E. unfold big5_codepoint_bytes in E.
    destruct (negb _); [done|]. repeat case_match; cbn in E; simplify_eq;
      forall_list; unfold nz_byte; lia.
  - unfold from_u32. destruct (is_scalar cp) eqn:Hs; cbn [fst app].
    + rewrite <- (app_nil_l (encode_utf8 cp)), <- extended_utf8_encode by done.
      apply extended_utf8_nz. lia.
    + apply extended_utf8_nz. lia.
Qed.

Lemma push_ansi_byte_nz v : Forall nz_byte (push_ansi_byte [] v).1.
Proof.
  unfold push_ansi_byte. pose proof (land_255_range v). case_match; to_prop; forall_list.
  all: unfold nz_byte; lia.
Qed.

Lemma simple_escape_nz n v : simple_escape n = Some v -> nz_byte v.
Proof. unfold simple_escape, nz_byte, dquote. intros. repeat case_match; simplify_eq; lia. Qed.

Lemma hex_digit_nonneg b d : hex_digit b = Some d -> 0 <= d.
Proof. unfold hex_digit, in_range. intros. repeat case_match; simplify_eq; lia. Qed.

Lemma take_digits_suffix digit acc max val s P : Forall P s -> Forall P (take_digits digit acc max val s).2.
Proof.
  revert val s. induction max as [|max IH]; intros val [|b s] Hs; cbn [take_digits]; try done.
  inversion Hs; subst. destruct (digit b); [|done]. specialize (IH (acc val z) s ltac:(done)).
  by destruct (take_digits digit acc max (acc val z) s) as [[v c] r].
Qed.

Lemma decode_hex_suffix s P : Forall P s -> Forall P (decode_hex_escape s).1.2.
Proof.
  intros Hs. unfold decode_hex_escape. set (f := take_digits hex_digit wrapping_mul16_add).
  assert (forall k r, Forall P r -> Forall P (f k 0 r).2) as Hf by (intros; by apply take_digits_suffix).
  clearbody f. repeat case_match; simplify_eq; cbn [fst snd] in *;
    match goal with H : f ?k 0 ?r = _ |- _ => specialize (Hf k r); rewrite H in Hf; cbn [snd] in Hf end;
    repeat match goal with H : Forall _ (_ :: _) |- _ => inversion H; clear H; subst end; auto;
    specialize (Hf ltac:(done)); by inversion Hf.
Qed.

Lemma ansi_c_step_nz locale b s : nz_byte b -> Forall nz_byte s ->
  Forall nz_byte (ansi_c_step locale [] b s).1.1 /\ Forall nz_byte (ansi_c_step locale [] b s).2.
Proof.
  intros Hb Hs. assert (nz_byte "\"%b) by (unfold nz_byte; lia).
  unfold ansi_c_step. destruct s as [|n s2]; [split; by forall_list|].
  destruct (negb _); [split; [by forall_list|done]|]. inversion Hs as [|? ? Hn Hs2]; subst.
  destruct (simple_escape n) eqn:E; [split; [forall_list; by eapply simple_escape_nz|done]|].
  destruct (in_range _ _ n).
  { pose proof (take_digits_suffix octal_digit (fun val d => val * 8 + d) 3 0 (n :: s2) _ Hs).
    destruct (take_digits _ _ _ _ _) as [[v c] r]. split; [apply push_ansi_byte_nz|done]. }
  destruct (Z.eqb_spec n "x"%b) as [->|_].
  { pose proof (decode_hex_suffix s2 _ Hs2). destruct (decode_hex_escape s2) as [[v r] c].
    destruct (_ && _); (split; [|done]); [by forall_list|apply push_ansi_byte_nz]. }
  destruct (_ || _).
  { match goal with |- context [take_digits ?d ?a ?m ?v ?t] =>
      pose proof (take_digits_suffix d a m v t _ Hs2);
      pose proof (take_digits_nonneg d a m v t hex_digit_nonneg ltac:(lia) ltac:(lia));
      destruct (take_digits d a m v t) as [[? ?] ?] end.
    destruct (_ =? _)%nat; (split; [|done]); [by forall_list|by apply push_unicode_nz]. }
  destruct (Z.eqb_spec n "c"%b) as [->|_]; [|split; [by forall_list|done]].
  destruct s2 as [|c s3]; [split; by forall_list|]. inversion Hs2; subst.
  destruct (if c =? _ then _ else _) as [c' r] eqn:Hc. split; [apply push_ansi_byte_nz|]. cbn [snd].
  repeat case_match; simplify_eq; try done. by match goal with H : Forall _ (_ :: r) |- _ => inversion H end.
Qed.

(** The decoder never produces a NUL or a value outside a byte, so what
    [$'..'] stands for can be passed as an argument of a command whole. *)
Theorem ansi_c_decode_no_nul src locale : Forall nz_byte src ->
  Forall nz_byte (ansi_c_decode_for_locale src locale).
Proof.
  intros Hs. unfold ansi_c_decode_for_locale. assert (Forall nz_byte []) as Ho by constructor.
  generalize ([] : bytes) Ho. clear Ho. generalize (length src). intros fuel.
  revert src Hs. induction fuel as [|fuel IH]; intros [|b s] Hs out Ho; try done. cbn [ansi_c_loop].
  inversion Hs; subst. destruct (ansi_c_step_nz locale b s) as [H1' H2']; [done..|].
  rewrite ansi_c_step_out. destruct (ansi_c_step locale [] b s) as [[o m] r]. cbn [fst snd] in *.
  destruct m; [apply IH|]; by try apply Forall_app.
Qed.

Lemma ansi_c_decode_no_nul_witness :
  Forall nz_byte (ansi_c_decode_for_locale (bs "a\u20ac\000b") None)
  /\ ansi_c_decode_for_locale (bs "a\u20ac\000b") None = [97; 226; 130; 172].
Proof.
  split; [|reflexivity]. apply ansi_c_decode_no_nul. eval_bs. forall_list; unfold nz_byte; lia.
Defined.
