(* ===== verification/Expand.v ===== *)
(** What a word expansion runs in (crates/expander/src/ctx.rs and wd.rs), the
    pushing of parameter values into the buffer (param/values.rs), special
    parameters, tilde prefixes (tilde.rs) and the text side of command
    substitution (cmdsub.rs). *)
From S2P Require Import Prelude Env Utf8 Buf Split Quote.

(** * Context *)

Record ProcSubstHandle := mkHandle { ps_path : bytes; ps_pid : Z; ps_fd : Z }.

Record ExpCtx (E : Type) := mkCtx {
  env : E;
  ifs : IfsState;
  depth : Z;
  arith_depth : Z;
  assign_in_progress : bool;
  param_rhs_nosplit : bool;
  split_fields : bool;
  arith_expand_subscripts : bool;
  eval_unbound_error : bool;
  heredoc_context : bool;
  last_cmd_subst_status : Z;
  proc_subst : list ProcSubstHandle;
}.
Arguments mkCtx {E}.
Arguments env {E}.
Arguments ifs {E}.
Arguments depth {E}.
Arguments arith_depth {E}.
Arguments assign_in_progress {E}.
Arguments param_rhs_nosplit {E}.
Arguments split_fields {E}.
Arguments arith_expand_subscripts {E}.
Arguments eval_unbound_error {E}.
Arguments heredoc_context {E}.
Arguments last_cmd_subst_status {E}.
Arguments proc_subst {E}.

Definition with_env {E} (e : E) (c : ExpCtx E) : ExpCtx E :=
  mkCtx e (ifs c) (depth c) (arith_depth c) (assign_in_progress c) (param_rhs_nosplit c)
    (split_fields c) (arith_expand_subscripts c) (eval_unbound_error c) (heredoc_context c)
    (last_cmd_subst_status c) (proc_subst c).

Definition with_depth {E} (d : Z) (c : ExpCtx E) : ExpCtx E :=
  mkCtx (env c) (ifs c) d (arith_depth c) (assign_in_progress c) (param_rhs_nosplit c)
    (split_fields c) (arith_expand_subscripts c) (eval_unbound_error c) (heredoc_context c)
    (last_cmd_subst_status c) (proc_subst c).

Definition with_split_fields {E} (b : bool) (c : ExpCtx E) : ExpCtx E :=
  mkCtx (env c) (ifs c) (depth c) (arith_depth c) (assign_in_progress c) (param_rhs_nosplit c)
    b (arith_expand_subscripts c) (eval_unbound_error c) (heredoc_context c)
    (last_cmd_subst_status c) (proc_subst c).

Definition with_heredoc_context {E} (b : bool) (c : ExpCtx E) : ExpCtx E :=
  mkCtx (env c) (ifs c) (depth c) (arith_depth c) (assign_in_progress c) (param_rhs_nosplit c)
    (split_fields c) (arith_expand_subscripts c) (eval_unbound_error c) b
    (last_cmd_subst_status c) (proc_subst c).

Definition with_last_status {E} (s : Z) (c : ExpCtx E) : ExpCtx E :=
  mkCtx (env c) (ifs c) (depth c) (arith_depth c) (assign_in_progress c) (param_rhs_nosplit c)
    (split_fields c) (arith_expand_subscripts c) (eval_unbound_error c) (heredoc_context c)
    s (proc_subst c).

(** An expansion step: a result, and the context it leaves, on errors too. *)
Definition M (E A : Type) : Type := ExpCtx E -> Res ExpandError A * ExpCtx E.

Definition ret {E A} (a : A) : M E A := fun c => (Ok a, c).
Definition fail {E A} (e : ExpandError) : M E A := fun c => (Err e, c).
Definition bind {E A B} (m : M E A) (k : A -> M E B) : M E B :=
  fun c => match m c with
           | (Ok a, c) => k a c
           | (Err e, c) => (Err e, c)
           | (Fuel, c) => (Fuel, c)
           end.

Declare Scope exp_scope.
Delimit Scope exp_scope with exp.
Notation "x <- m ;; k" := (bind m (fun x => k)) (at level 100, m at next level, right associativity) : exp_scope.
#[global] Open Scope exp_scope.

Definition asks {E A} (f : ExpCtx E -> A) : M E A := fun c => (Ok (f c), c).

Definition EXPANSION_NESTING_MAX : Z := 32.

Definition enter {E} : M E unit := fun c =>
  let c := with_depth (Z.min (depth c + 1) (2 ^ 32 - 1)) c in
  if EXPANSION_NESTING_MAX <? depth c then (Err (SubstitutionRecursive (depth c)), c) else (Ok tt, c).

Definition leave {E} (c : ExpCtx E) : ExpCtx E :=
  if 0 <? depth c then with_depth (depth c - 1) c else c.

(** * Words *)

Inductive QuotedState := Unquoted | Partially | Wholly.

Record Wd := mkWd { wd_buf : ExpandBuf; wd_flags : Z; quoted_state : QuotedState }.

Definition from_bytes_with_flags (bytes : bytes) (flags : Z) : Wd :=
  mkWd (mkBuf bytes [] false false false) flags Unquoted.

(** [WordDesc] of the parser: the text as its bytes, and the flags. *)
Record WordDesc := mkWord { text : bytes; word_flags : Z }.

Definition W_HASDOLLAR : Z := 2 ^ 0.
Definition W_ASSIGNMENT : Z := 2 ^ 2.
Definition W_NOSPLIT : Z := 2 ^ 4.
Definition W_NOGLOB : Z := 2 ^ 5.
Definition W_ASSIGNRHS : Z := 2 ^ 10.
Definition W_NOTILDE : Z := 2 ^ 11.
Definition W_NOPROCSUB : Z := 2 ^ 18.
Definition W_NOBRACE : Z := 2 ^ 24.
Definition INTERNAL_QUOTED_CONTEXT : Z := 2 ^ 31.
Definition INTERNAL_HEREDOC_CONTEXT : Z := 2 ^ 30.
Definition INTERNAL_PARAM_WORD_CONTEXT : Z := 2 ^ 29.
Definition INTERNAL_ARITH_CONTEXT : Z := 2 ^ 28.

Definition has (flags mask : Z) : bool := negb (Z.land flags mask =? 0).

(** The [String] a byte sequence becomes, as its UTF-8 bytes. *)
Definition shell_text (b : bytes) : bytes := concat (map encode_utf8 (bytes_to_shell_string b)).

Definition into_parser (w : Wd) : WordDesc :=
  mkWord (shell_text (dequote_bytes (buf_bytes (wd_buf w)))) (wd_flags w).

Definition from_parser (p : WordDesc) : Wd := from_bytes_with_flags (text p) (word_flags p).

(** quoteremoval.rs *)
Definition dequote (wd : Wd) : Wd :=
  let b := wd_buf wd in
  let dequoted := dequote_bytes (buf_bytes b) in
  let bytes := if is_nil dequoted && is_quoted_null (buf_bytes b) then [] else dequoted in
  mkWd (mkBuf bytes (param_nulls b) (had_quoted_null b) (has_dollar_at b) (quoted_dollar_at b))
    (wd_flags wd) (quoted_state wd).

Definition to_parser (wd : Wd) : WordDesc :=
  let cleaned := dequote wd in mkWord (shell_text (buf_bytes (wd_buf cleaned))) (wd_flags cleaned).

Definition wd_to_string (wd : Wd) : bytes := shell_text (buf_bytes (wd_buf (dequote wd))).

(** * Pushing values *)

Definition buf_record_dollar_at (b : ExpandBuf) : ExpandBuf :=
  mkBuf (buf_bytes b) (param_nulls b) (had_quoted_null b) true true.

Definition push_value (out : ExpandBuf) (bytes : bytes) (quoted : bool) : ExpandBuf :=
  if quoted then
    if is_nil bytes then push_quoted_param_null out else fold_left push_quoted bytes out
  else if negb (existsb is_ctl bytes) then push_raw out bytes
  else fold_left push_literal bytes out.

Definition push_value_maybe_raw_ctlnul (out : ExpandBuf) (bytes : bytes) (quoted raw_ctlnul : bool) : ExpandBuf :=
  if negb raw_ctlnul || quoted then push_value out bytes quoted
  else fold_left (fun out b => if b =? CTLNUL then push_raw out [CTLNUL] else push_literal out b) bytes out.

Definition push_array_element_value (out : ExpandBuf) (bytes : bytes) (quoted raw_ctlnul : bool) : ExpandBuf :=
  if quoted && is_nil bytes then push_quoted_null out
  else push_value_maybe_raw_ctlnul out bytes quoted raw_ctlnul.

(** [for (i, s) in arr.iter().enumerate() { if i > 0 { sep } elem }]. *)
Definition push_each (sep : ExpandBuf -> ExpandBuf) (elem : ExpandBuf -> bytes -> ExpandBuf)
    (arr : list bytes) (out : ExpandBuf) : ExpandBuf :=
  match arr with
  | [] => out
  | s :: arr => fold_left (fun out s => elem (sep out) s) arr (elem out s)
  end.

Definition push_sep_byte (quoted : bool) (sep : Z) (out : ExpandBuf) : ExpandBuf :=
  if quoted then push_quoted out sep else push_literal out sep.

Definition push_opt_sep (quoted : bool) (sep : option Z) (out : ExpandBuf) : ExpandBuf :=
  match sep with Some sep => push_sep_byte quoted sep out | None => out end.

Definition push_array_values_impl (out : ExpandBuf) (arr : list bytes) (quoted star : bool)
    (sep : option Z) (ifs_null assignment_rhs split_fields raw_ctlnul protect_field_values : bool) : ExpandBuf :=
  let elem out s := push_array_element_value out s quoted raw_ctlnul in
  if quoted && star && is_nil arr then push_quoted_null out
  else if negb assignment_rhs && negb split_fields && negb star then
    push_each (push_sep_byte quoted " "%b) elem arr out
  else if (quoted || assignment_rhs) && negb star then
    push_each push_field_sep elem arr (buf_record_dollar_at out)
  else if negb quoted && negb assignment_rhs && split_fields && ifs_null then
    push_each push_field_sep (fun out s => push_array_element_value out s protect_field_values raw_ctlnul) arr out
  else push_each (push_opt_sep quoted sep) elem arr out.

Definition push_array_values (out : ExpandBuf) (arr : list bytes) (quoted star : bool)
    (sep : option Z) (ifs_null assignment_rhs split_fields : bool) : ExpandBuf :=
  push_array_values_impl out arr quoted star sep ifs_null assignment_rhs split_fields false false.

Definition push_substring_array_values (out : ExpandBuf) (arr : list bytes) (quoted star : bool)
    (sep : option Z) (ifs_null assignment_rhs split_fields : bool) : ExpandBuf :=
  push_array_values_impl out arr quoted star sep ifs_null assignment_rhs split_fields
    (assignment_rhs && negb quoted && star) false.

Inductive ValueRepr :=
| VScalar (s : bytes)
| VArray (elems : list bytes) (star : bool).

Definition push_value_buf (out : ExpandBuf) (v : ValueRepr) (quoted : bool) (sep : option Z)
    (ifs_null assignment_rhs split_fields : bool) : ExpandBuf :=
  match v with
  | VScalar s => push_value out s quoted
  | VArray elems star => push_array_values out elems quoted star sep ifs_null assignment_rhs split_fields
  end.

Definition rfind_byte (c : Z) (s : bytes) : option nat :=
  (fun i => (length s - 1 - i)%nat) <$> find_byte c (rev s).

Definition array_all_ref (name : bytes) : option (bytes * bytes) :=
  match find_byte "["%b name, rfind_byte "]"%b name with
  | Some bracket, Some close =>
      if negb (close + 1 =? length name)%nat then None
      else
        let subscript := slice name (bracket + 1) close in
        if bytes_eqb subscript (bs "@") || bytes_eqb subscript (bs "*")
        then Some (take bracket name, subscript) else None
  | _, _ => None
  end.

(** * Special and positional parameters *)

(** The methods of [trait Environment] for parameters that are not variables. *)
Class Parameters (E : Type) := {
  env_positional : E -> nat -> option bytes;
  env_positional_count : E -> nat;
  env_last_status : E -> Z;
  env_shell_pid : E -> Z;
  env_last_async_pid : E -> option Z;
  env_get_array : E -> bytes -> option (list bytes);
}.

(** [str::parse::<usize>]. *)
Definition parse_usize (s : bytes) : option nat :=
  let d := match s with "+"%b :: d => d | _ => s end in
  match d with
  | [] => None
  | _ => match dec_value 0 d with
         | Some z => if z <? 2 ^ 64 then Some (Z.to_nat z) else None
         | None => None
         end
  end.

Section Special.
Context {E : Type} `{Environment E} `{Parameters E}.

Definition get (name : bytes) : M E (option bytes) := fun c =>
  let '(v, e) := env_get (env c) name in (Ok v, with_env e c).

Definition option_letters (e : E) : bytes :=
  concat (map (fun '(k, c) => if env_option e (bs k) then [c] else [])
    [("errexit"%string, "e"%b); ("nounset"%string, "u"%b); ("xtrace"%string, "x"%b);
     ("noclobber"%string, "C"%b); ("monitor"%string, "m"%b); ("posix"%string, "p"%b)]).

Definition special_param (name : bytes) : M E (option bytes) :=
  if bytes_eqb name (bs "?") then asks (fun c => Some (i64_to_string (env_last_status (env c))))
  else if bytes_eqb name (bs "#") then
    asks (fun c => Some (u_to_string (Z.of_nat (env_positional_count (env c)))))
  else if bytes_eqb name (bs "$") then asks (fun c => Some (i64_to_string (env_shell_pid (env c))))
  else if bytes_eqb name (bs "!") then
    asks (fun c => Some (match env_last_async_pid (env c) with Some p => i64_to_string p | None => [] end))
  else if bytes_eqb name (bs "-") then
    v <- get (bs "-") ;;
    match v with Some v => ret (Some v) | None => asks (fun c => Some (option_letters (env c))) end
  else if bytes_eqb name (bs "0") then asks (fun c => env_positional (env c) 0)
  else ret None.

(** [IfsState::from_env]. *)
Definition live_ifs : M E IfsState :=
  v <- get (bs "IFS") ;; ret (from_env (value_bytes <$> v)).

Definition positionals (e : E) : list bytes := omap (env_positional e) (seq 1 (env_positional_count e)).

(** The loops over the positional parameters: [if i > 1 { sep }] before each
    that is set. *)
Definition push_positionals (e : E) (sep : ExpandBuf -> ExpandBuf) (elem : ExpandBuf -> bytes -> ExpandBuf)
    (out : ExpandBuf) : ExpandBuf :=
  fold_left (fun out i =>
      match env_positional e i with
      | Some v => elem (if (1 <? i)%nat then sep out else out) v
      | None => out
      end) (seq 1 (env_positional_count e)) out.

Definition push_sep_slice (quoted : bool) (sep : option bytes) (out : ExpandBuf) : ExpandBuf :=
  match sep with
  | Some sep => if quoted then push_quoted_slice out sep else fold_left push_literal sep out
  | None => out
  end.

Definition expand_at_star (star quoted : bool) (out : ExpandBuf) : M E ExpandBuf :=
  count <- asks (fun c => env_positional_count (env c)) ;;
  sep <- (if quoted && star then i <- live_ifs ;; ret (join_separator_bytes i)
          else asks (fun c => (fun b => [b]) <$> join_separator (ifs c))) ;;
  if quoted && star && (count =? 0)%nat then ret (push_quoted_null out)
  else
    asks (fun c =>
      let e := env c in
      let elem out v := push_array_element_value out v quoted false in
      if assign_in_progress c && negb star then
        push_positionals e push_field_sep elem (buf_record_dollar_at out)
      else if assign_in_progress c && star then
        push_positionals e (push_sep_slice quoted sep) elem out
      else if negb (split_fields c) && negb star then
        push_positionals e (push_sep_byte quoted " "%b) elem out
      else if param_rhs_nosplit c && negb star && negb quoted && negb (is_unset (ifs c))
              && negb (is_null (ifs c)) && negb (bool_decide (first_char (ifs c) = Some " "%b)) then
        push_positionals e (fun out => push_literal out " "%b) push_quoted_slice (buf_record_dollar_at out)
      else if quoted && negb star then
        push_positionals e push_field_sep (fun out v => push_array_element_value out v true false)
          (buf_record_dollar_at out)
      else if negb quoted && split_fields c && is_null (ifs c) then
        push_positionals e push_field_sep (fun out v => push_array_element_value out v false false) out
      else push_positionals e (push_sep_slice quoted sep) elem out).

Definition expand_special (name : bytes) (quoted : bool) (out : ExpandBuf) : M E ExpandBuf :=
  if bytes_eqb name (bs "@") || bytes_eqb name (bs "*") then
    expand_at_star (bytes_eqb name (bs "*")) quoted out
  else
    strict <- asks eval_unbound_error ;;
    async <- asks (fun c => env_last_async_pid (env c)) ;;
    if bytes_eqb name (bs "!") && strict && bool_decide (async = None)
    then fail (UnboundVariable (bs "$!"))
    else
      let n := parse_usize name in
      missing <- asks (fun c => match n with
                                | Some n => negb (n =? 0)%nat && strict
                                            && bool_decide (env_positional (env c) n = None)
                                | None => false
                                end) ;;
      if (missing : bool) then fail (UnboundVariable name)
      else
        v <- special_param name ;;
        v <- asks (fun c => match v, n with
                            | Some v, _ => v
                            | None, Some n => default [] (env_positional (env c) n)
                            | None, None => []
                            end) ;;
        ret (push_value out v quoted).
End Special.

(** * Namerefs (nameref.rs) *)

Definition NAMEREF_MAX_DEPTH : nat := 8.

Section Nameref.
Context {E : Type} `{Environment E}.

Fixpoint nameref_loop (n : nat) (e : E) (cur : bytes) (seen : list bytes) : option bytes :=
  match n with
  | O => None
  | S n =>
      match env_resolve_nameref e cur with
      | None => None
      | Some next =>
          if bytes_eqb next cur then Some cur
          else if existsb (bytes_eqb next) seen then None
          else if negb (env_attr_nameref e next) then Some next
          else nameref_loop n e next (next :: seen)
      end
  end.

Definition nameref_resolve (e : E) (name : bytes) : option bytes :=
  if negb (env_attr_nameref e name) then Some name
  else nameref_loop NAMEREF_MAX_DEPTH e name [name].
End Nameref.

(** * Tilde prefixes *)

(** The password database of the C library. *)
Class Passwd := {
  current_user_home : option bytes;
  lookup_user : bytes -> option bytes;
}.

Definition prefix_len (word : bytes) : nat :=
  match word with
  | "~"%b :: r =>
      S (match List.find (fun i => match r !! i with
                                   | Some b => (b =? "/"%b) || (b =? ":"%b)
                                   | None => false
                                   end) (seq 0 (length r)) with
         | Some i => i
         | None => length r
         end)
  | _ => 0%nat
  end.

Definition assignment_tilde_positions (rhs : bytes) : list nat :=
  0%nat :: concat (map (fun i =>
      match rhs !! i, rhs !! S i with
      | Some b, Some c => if (b =? ":"%b) && (c =? "~"%b) then [S i] else []
      | _, _ => []
      end) (seq 0 (length rhs))).

Section Tilde.
Context {E : Type} `{Environment E} `{Parameters E} `{Passwd}.

Definition collect_dirstack : M E (list bytes) :=
  d <- asks (fun c => env_get_array (env c) (bs "DIRSTACK")) ;;
  match d with
  | Some vals => ret vals
  | None => p <- get (bs "PWD") ;; ret (match p with Some p => [p] | None => [] end)
  end.

Definition try_expand (prefix : bytes) : M E (option bytes) :=
  match prefix with
  | "~"%b :: rest =>
      if existsb (fun b => (b =? "\"%b) || (b =? "'"%b) || (b =? dquote)) rest then ret None
      else
        match rest with
        | [] => h <- get (bs "HOME") ;; ret (match h with Some h => Some h | None => current_user_home end)
        | sign :: num =>
            if bytes_eqb rest (bs "+") then get (bs "PWD")
            else if bytes_eqb rest (bs "-") then get (bs "OLDPWD")
            else if (sign =? "+"%b) || (sign =? "-"%b) then
              match parse_usize num with
              | None => ret None
              | Some n =>
                  dirs <- collect_dirstack ;;
                  ret (if sign =? "+"%b then dirs !! n
                       else if (1 + n <=? length dirs)%nat then dirs !! (length dirs - (1 + n))%nat
                       else None)
              end
            else if forallb is_ascii_digit rest then
              match parse_usize rest with
              | None => ret None
              | Some n => dirs <- collect_dirstack ;; ret (dirs !! n)
              end
            else ret (lookup_user rest)
        end
  | _ => ret None
  end.
End Tilde.

(** * Command substitution: the text around the run of a command *)

Fixpoint unbackslash_loop (fuel : nat) (s : bytes) (in_double_quotes : bool) : bytes :=
  match fuel, s with
  | S fuel, b :: r =>
      match r with
      | n :: r2 =>
          if b =? "\"%b then
            if n =? 10 then unbackslash_loop fuel r2 in_double_quotes
            else if (n =? "$"%b) || (n =? "`"%b) || (n =? "\"%b) || (in_double_quotes && (n =? dquote))
            then n :: unbackslash_loop fuel r2 in_double_quotes
            else b :: unbackslash_loop fuel r in_double_quotes
          else b :: unbackslash_loop fuel r in_double_quotes
      | [] => [b]
      end
  | _, _ => []
  end.

Definition unbackslash_backticks (src : bytes) (in_double_quotes : bool) : bytes :=
  from_utf8_lossy (unbackslash_loop (length src) src in_double_quotes).

Definition bytes_to_subst_buf (bytes : bytes) (quoted : bool) : ExpandBuf :=
  let bytes := List.filter (fun b => negb (b =? 0)) bytes in
  if quoted && is_nil bytes then push_quoted_param_null ExpandBuf_new
  else if quoted then fold_left push_quoted bytes ExpandBuf_new
  else fold_left push_literal bytes ExpandBuf_new.

(** [while bytes.last() == Some(&b'\n') { bytes.pop(); }] *)
Fixpoint drop_newlines (rbytes : bytes) : bytes :=
  match rbytes with
  | b :: r => if b =? 10 then drop_newlines r else rbytes
  | [] => []
  end.

Definition strip_trailing_newlines (s : bytes) : bytes := rev (drop_newlines (rev s)).

Definition input_file_substitution_word (src : bytes) : option bytes :=
  match trim src with
  | "<"%b :: rest =>
      match rest with
      | c :: _ =>
          if (c =? "<"%b) || (c =? ">"%b) || (c =? "&"%b) || (c =? "("%b) then None
          else let word := trim rest in if is_nil word then None else Some word
      | [] => None
      end
  | _ => None
  end.

(** [CMD_SUBST_HEREDOC_WARN_MARKER]. *)
Definition heredoc_warn_marker : bytes := 29 :: bs "cherubsh-cmdsubst-heredoc-warn" ++ [29].

(** [str::replace(marker, "")]. *)
Fixpoint remove_sub (fuel : nat) (p s : bytes) : bytes :=
  match fuel with
  | O => s
  | S fuel =>
      match find_sub p s with
      | Some i => take i s ++ remove_sub fuel p (drop (i + length p) s)
      | None => s
      end
  end.

(** The running of commands, the reading of a file named by [$(< file)], and
    the line number kept for diagnostics. *)
Class CommandRunner (E : Type) := {
  run_subst : bytes -> M E bytes;
  run_backquote_subst : bytes -> M E bytes;
  read_input_file : bytes -> bool -> M E ExpandBuf;
  push_diagnostic_line : E -> Z -> E;
  pop_diagnostic_line : E -> E;
}.

Section CommandSubstitution.
Context {E : Type} `{Parameters E} `{CommandRunner E}.

Definition on_env (f : E -> E) (c : ExpCtx E) : ExpCtx E := with_env (f (env c)) c.

Definition command_substitute (src : bytes) (quoted backquote : bool) (close_line : option Z) : M E ExpandBuf :=
  fun c =>
  let src := remove_sub (length src) heredoc_warn_marker src in
  let pushed_line := negb backquote && bool_decide (close_line <> None) in
  let c := match close_line with
           | Some line => if pushed_line then on_env (fun e => push_diagnostic_line e line) c else c
           | None => c
           end in
  let popped c := if pushed_line then on_env pop_diagnostic_line c else c in
  match input_file_substitution_word src with
  | Some word => let '(r, c) := read_input_file word quoted c in (r, popped c)
  | None =>
      let '(r, c) := if backquote then run_backquote_subst src c else run_subst src c in
      let c := popped c in
      match r with
      | Ok bytes =>
          (Ok (bytes_to_subst_buf (strip_trailing_newlines bytes) quoted),
           with_last_status (env_last_status (env c)) c)
      | Err e => (Err e, c)
      | Fuel => (Fuel, c)
      end
  end.
End CommandSubstitution.

Example tests_backticks :
  unbackslash_backticks (bs "echo \$x") false = bs "echo $x"
  /\ unbackslash_backticks (bs "echo \\$x") false = bs "echo \$x"
  /\ unbackslash_backticks (bs "echo foo\" ++ 10 :: bs "bar") false = bs "echo foobar"
  /\ unbackslash_backticks (bs "echo foo\\" ++ 10 :: bs "bar") false = bs "echo foo\" ++ 10 :: bs "bar"
  /\ unbackslash_backticks (bs "foo") false = bs "foo".
Proof. vm_compute. repeat split. Qed.
