(* ===== verification/Internal.v ===== *)
(** The expansion of one word (crates/expander/src/internal.rs, the dispatch of
    param/mod.rs, and the quoted constructs of param/constructs.rs): a walk over
    the bytes of the word that handles quotes, escapes, tilde prefixes and the
    constructs that start with [$], a backquote, [<(] or [>(]. *)
From S2P Require Import Prelude Env Utf8 Buf Split Quote Expand.

(** The constructs whose bodies are expanded elsewhere: each takes the word,
    the position of the construct, whether it is quoted and the buffer, and
    returns the position after it.  [compat_version] is the process variable
    CHERUBSH_BASH_COMPAT_VERSION; [gettext_translation] asks the C library. *)
Class Constructs (E : Type) := {
  parameter_brace_expand : bytes -> nat -> bool -> ExpandBuf -> M E (nat * ExpandBuf);
  dollar_paren : bytes -> nat -> bool -> ExpandBuf -> M E (nat * ExpandBuf);
  dollar_bracket : bytes -> nat -> bool -> ExpandBuf -> M E (nat * ExpandBuf);
  process_subst_expand : bytes -> nat -> bool -> ExpandBuf -> M E (nat * ExpandBuf);
  read_scalar : bytes -> bool -> M E bytes;
  push_parameter_value : bytes -> bool -> ExpandBuf -> M E ExpandBuf;
  gettext_translation : E -> bytes -> bytes;
  compat_version : option bytes;
}.

Section Internal.
Context {E : Type} `{Environment E} `{Parameters E} `{Passwd} `{CommandRunner E} `{Constructs E}.

Definition BSL : Z := "\"%b.
Definition SQ : Z := "'"%b.

(** * [$] constructs *)

(** The first variable of LC_ALL, LC_CTYPE, LANG that is not empty. *)
Definition quote_locale : M E (option bytes) :=
  let nonempty v := match v with Some (_ :: _) => true | _ => false end in
  a <- get (bs "LC_ALL") ;;
  if nonempty a then ret a
  else
    b <- get (bs "LC_CTYPE") ;;
    if nonempty b then ret b
    else
      c <- get (bs "LANG") ;;
      ret (if nonempty c then c else None).

Definition ansi_c_quote (bytes : bytes) (i : nat) (out : ExpandBuf) : M E (bool * nat * ExpandBuf) :=
  let '(body, rest) := scan_ansi_c_quoted (drop (i + 2) bytes) in
  locale <- quote_locale ;;
  let decoded := ansi_c_decode_for_locale body locale in
  ret (true, (length bytes - length rest)%nat,
       if is_nil decoded then push_quoted_null out else fold_left push_quoted decoded out).

Fixpoint find_locale_quote_end (fuel : nat) (bytes : bytes) (index : nat) : option nat :=
  match fuel, bytes !! index with
  | S fuel, Some b =>
      if (b =? BSL) && (index + 1 <? length bytes)%nat then find_locale_quote_end fuel bytes (index + 2)
      else if b =? dquote then Some index
      else find_locale_quote_end fuel bytes (index + 1)
  | _, _ => None
  end.

Definition name_byte (b : Z) : bool := (b =? "_"%b) || is_ascii_alphanumeric b.

Fixpoint name_end (fuel : nat) (bytes : bytes) (j : nat) : nat :=
  match fuel, bytes !! j with
  | S fuel, Some b => if name_byte b then name_end fuel bytes (S j) else j
  | _, _ => j
  end.

(** [$NAME]. *)
Definition expand_name (name : bytes) (quoted : bool) (out : ExpandBuf) : M E ExpandBuf :=
  is_nameref <- asks (fun c => env_attr_nameref (env c) name) ;;
  target <- asks (fun c => if (is_nameref : bool) then nameref_resolve (env c) name else None) ;;
  let all := match target with Some t => if bool_decide (array_all_ref t <> None) then Some t else None
                             | None => None end in
  match all with
  | Some t => push_parameter_value t quoted out
  | None =>
      strict <- asks eval_unbound_error ;;
      value <- (if negb strict && negb is_nameref then v <- get name ;; ret (default [] v)
                else read_scalar name false) ;;
      ret (push_value out (value_bytes value) quoted)
  end.

Definition is_special_name (b : Z) : bool :=
  (b =? "?"%b) || (b =? "#"%b) || (b =? "$"%b) || (b =? "!"%b) || (b =? "-"%b) || (b =? "*"%b)
  || (b =? "@"%b) || (b =? "0"%b).

Definition handled (m : M E (nat * ExpandBuf)) : M E (bool * nat * ExpandBuf) :=
  x <- m ;; ret (true, fst x, snd x).

Definition map_err {A} (f : ExpandError -> ExpandError) (m : M E A) : M E A := fun c =>
  match m c with (Err e, c) => (Err (f e), c) | r => r end.

(** [param_expand] at the [$] at [i], with what it does for [$'..'] and
    [$"..."] outside double quotes as arguments; [false]: not a construct. *)
Definition param_dispatch
    (ansi locale : bytes -> nat -> ExpandBuf -> M E (bool * nat * ExpandBuf))
    (bytes : bytes) (i : nat) (quoted : bool) (out : ExpandBuf) : M E (bool * nat * ExpandBuf) :=
  match bytes !! i, bytes !! (i + 1)%nat with
  | Some b, Some next =>
      if negb (b =? "$"%b) then ret (false, i, out)
      else if next =? "{"%b then handled (parameter_brace_expand bytes i quoted out)
      else if next =? "("%b then handled (dollar_paren bytes i quoted out)
      else if next =? "["%b then handled (dollar_bracket bytes i quoted out)
      else if (next =? SQ) && negb quoted then ansi bytes i out
      else if (next =? dquote) && negb quoted then locale bytes i out
      else if is_special_name next then
        out <- expand_special [next] quoted out ;; ret (true, (i + 2)%nat, out)
      else if is_ascii_digit next then
        out <- map_err (fun e => match e with
                                 | UnboundVariable v =>
                                     if bytes_eqb v [next] then UnboundVariable ("$"%b :: v) else e
                                 | _ => e
                                 end) (expand_special [next] quoted out) ;;
        ret (true, (i + 2)%nat, out)
      else if (next =? "_"%b) || is_ascii_alphabetic next then
        let j := name_end (length bytes) bytes (i + 1) in
        out <- expand_name (slice bytes (i + 1) j) quoted out ;; ret (true, j, out)
      else ret (false, i, out)
  | _, _ => ret (false, i, out)
  end.

(** Inside double quotes. *)
Definition param_expand_quoted (bytes : bytes) (i : nat) (out : ExpandBuf) : M E (bool * nat * ExpandBuf) :=
  param_dispatch (fun _ i out => ret (false, i, out)) (fun _ i out => ret (false, i, out)) bytes i true out.

(** * Empty parameters before ["$@"] *)

Definition next_is_dollar_at (bytes : bytes) (next : nat) : bool :=
  match bytes !! next, bytes !! (next + 1)%nat with
  | Some d, Some a =>
      (d =? "$"%b)
      && ((a =? "@"%b)
          || (a =? "{"%b) && match bytes !! (next + 2)%nat, bytes !! (next + 3)%nat with
                             | Some x, Some y => (x =? "@"%b) && (y =? "}"%b)
                             | _, _ => false
                             end)
  | _, _ => false
  end.

(** The removal of the first occurrence of [x]. *)
Fixpoint remove_first (x : nat) (l : list nat) : list nat :=
  match l with
  | [] => []
  | y :: l => if (y =? x)%nat then l else y :: remove_first x l
  end.

Fixpoint drop_param_nulls (fuel : nat) (bytes : bytes) (nulls : list nat) : Prelude.bytes * list nat :=
  match fuel with
  | O => (bytes, nulls)
  | S fuel =>
      let len := (length bytes - 1)%nat in
      match bytes !! len with
      | Some b =>
          if negb (b =? CTLNUL) then (bytes, nulls)
          else if existsb (Nat.eqb len) nulls
               then drop_param_nulls fuel (take len bytes) (remove_first len nulls)
               else (bytes, nulls)
      | None => (bytes, nulls)
      end
  end.

Definition drop_empty_param_before_dollar_at (bytes : bytes) (next : nat) (e : E) (out : ExpandBuf) : ExpandBuf :=
  if negb (env_positional_count e =? 0)%nat then out
  else if negb (next_is_dollar_at bytes next) then out
  else
    let '(b, nulls) := drop_param_nulls (length (buf_bytes out)) (buf_bytes out) (param_nulls out) in
    mkBuf b nulls (existsb (Z.eqb CTLNUL) b) (has_dollar_at out) (quoted_dollar_at out).

(** * Backquotes *)

Fixpoint backquote_end (fuel : nat) (bytes : bytes) (i : nat) : nat :=
  match fuel, bytes !! i with
  | S fuel, Some b =>
      if b =? "`"%b then i
      else if (b =? BSL) && (i + 1 <? length bytes)%nat then backquote_end fuel bytes (i + 2)
      else backquote_end fuel bytes (i + 1)
  | _, _ => i
  end.

(** From the opening backquote at [i]: the position after it and the buffer;
    [lone] pushes a backquote that is the last byte. *)
Definition backquote_expand (bytes : bytes) (i : nat) (in_double_quotes : bool)
    (lone : ExpandBuf -> M E ExpandBuf) (out : ExpandBuf) : M E (nat * ExpandBuf) :=
  let e := backquote_end (length bytes) bytes (i + 1) in
  let body := slice bytes (i + 1) e in
  if (length bytes <=? e)%nat then
    if is_nil body then out <- lone out ;; ret (e, out)
    else fail (BadSubstitution (bs "no closing ` in command substitution"))
  else
    buf <- command_substitute (unbackslash_backticks (from_utf8_lossy body) in_double_quotes)
             in_double_quotes true None ;;
    ret ((e + 1)%nat, extend_from out buf).

(** * Double quotes *)

Definition dq_escapable (n : Z) : bool := (n =? dquote) || (n =? BSL) || (n =? "$"%b) || (n =? "`"%b).

(** One round at a byte [b] other than the closing quote: position, buffer,
    whether content was seen. *)
Definition dq_step (bytes : bytes) (escape_all : bool) (b : Z) (i : nat) (out : ExpandBuf) (any : bool) :
    M E (nat * ExpandBuf * bool) :=
  match (if b =? BSL then bytes !! (i + 1)%nat else None) with
  | Some n =>
      if n =? 10 then ret ((i + 2)%nat, out, any)
      else if escape_all || dq_escapable n then ret ((i + 2)%nat, push_quoted out n, true)
      else ret ((i + 2)%nat, push_quoted (push_quoted out b) n, true)
  | None =>
      if b =? "$"%b then
        r <- param_expand_quoted bytes i out ;;
        let '(done, new_i, out') := r in
        if (done : bool) then
          out <- asks (fun c => drop_empty_param_before_dollar_at bytes new_i (env c) out') ;;
          ret (new_i, out, true)
        else ret ((i + 1)%nat, push_quoted out' b, true)
      else if b =? "`"%b then
        r <- backquote_expand bytes i true (fun out => ret (push_quoted out b)) out ;;
        ret (fst r, snd r, true)
      else ret ((i + 1)%nat, push_quoted out b, true)
  end.

Fixpoint dq_loop (fuel : nat) (bytes : bytes) (escape_all : bool) (i : nat) (out : ExpandBuf) (any : bool) :
    M E (nat * ExpandBuf) :=
  let finish i := ret (i, if any then out else push_quoted_null out) in
  match bytes !! i with
  | None => finish i
  | Some b =>
      if b =? dquote then finish (i + 1)%nat
      else
        match fuel with
        | O => fun c => (Fuel, c)
        | S fuel =>
            r <- dq_step bytes escape_all b i out any ;;
            let '(i, out, any) := r in dq_loop fuel bytes escape_all i out any
        end
  end.

Definition scan_double_quoted_into_mode (bytes : bytes) (i : nat) (out : ExpandBuf) (escape_all : bool) :
    M E (nat * ExpandBuf) :=
  dq_loop (length bytes) bytes escape_all i out false.

Definition scan_double_quoted_into (bytes : bytes) (i : nat) (out : ExpandBuf) : M E (nat * ExpandBuf) :=
  scan_double_quoted_into_mode bytes i out false.

Definition locale_quote (bytes : bytes) (i : nat) (out : ExpandBuf) : M E (bool * nat * ExpandBuf) :=
  let content_start := (i + 2)%nat in
  match find_locale_quote_end (length bytes) bytes content_start with
  | None => handled (scan_double_quoted_into bytes content_start out)
  | Some content_end =>
      let source := from_utf8_lossy (slice bytes content_start content_end) in
      translated <- asks (fun c => gettext_translation (env c) source) ;;
      noexpand <- asks (fun c => env_option (env c) (bs "noexpand_translation")) ;;
      if (noexpand : bool) then
        ret (true, (content_end + 1)%nat,
             if is_nil translated then push_quoted_null out else fold_left push_quoted translated out)
      else
        r <- scan_double_quoted_into (translated ++ [dquote]) 0 out ;;
        ret (true, (content_end + 1)%nat, snd r)
  end.

Definition param_expand (bytes : bytes) (i : nat) (quoted : bool) (out : ExpandBuf) :
    M E (bool * nat * ExpandBuf) :=
  param_dispatch ansi_c_quote locale_quote bytes i quoted out.

Definition dollar_quote_expand (bytes : bytes) (i : nat) (out : ExpandBuf) : M E (bool * nat * ExpandBuf) :=
  match bytes !! i, bytes !! (i + 1)%nat with
  | Some b, Some next =>
      if negb (b =? "$"%b) then ret (false, i, out)
      else if next =? SQ then ansi_c_quote bytes i out
      else if next =? dquote then locale_quote bytes i out
      else ret (false, i, out)
  | _, _ => ret (false, i, out)
  end.

(** * The walk over a word *)

Definition push_original_literal (out : ExpandBuf) (i : IfsState) (b : Z) (protect_ifs : bool) : ExpandBuf :=
  if protect_ifs && is_ifs_nonws i b && negb ((b =? "*"%b) || (b =? "?"%b) || (b =? "["%b))
  then push_quoted out b else push_literal out b.

Record RunSt := mkRun {
  r_i : nat;
  r_out : ExpandBuf;
  had_quotes : bool;
  had_unquoted : bool;
  eq_seen : bool;
}.

(** A tilde prefix at [i], replaced when it names a directory. *)
Definition tilde_at (bytes : bytes) (i : nat) (out : ExpandBuf) : M E (nat * ExpandBuf) :=
  let plen := prefix_len (drop i bytes) in
  if (plen =? 0)%nat then ret (i, out)
  else
    r <- try_expand (slice bytes i (i + plen)) ;;
    ret (match r with
         | Some replacement => ((i + plen)%nat, fold_left push_literal replacement out)
         | None => (i, out)
         end).

Section Word.
Context (bytes : bytes) (flags : Z) (assignment_word_tilde : bool).

Definition is_assign_rhs : bool := has flags W_ASSIGNRHS.
Definition protect_original_ifs : bool := negb (has flags W_NOSPLIT).
Definition in_heredoc : bool := has flags INTERNAL_HEREDOC_CONTEXT.
Definition in_param_word : bool := has flags INTERNAL_PARAM_WORD_CONTEXT.
Definition in_quoted : bool := has flags INTERNAL_QUOTED_CONTEXT.
Definition in_arith : bool := has flags INTERNAL_ARITH_CONTEXT.

Definition original (b : Z) (out : ExpandBuf) : M E ExpandBuf :=
  asks (fun c => push_original_literal out (ifs c) b protect_original_ifs).

Definition step_backslash (st : RunSt) : M E RunSt :=
  let i := r_i st in
  match bytes !! (i + 1)%nat with
  | Some nx =>
      let special := (nx =? BSL) || (nx =? "$"%b) || (nx =? "`"%b) || (nx =? 10) in
      if in_quoted
         && (if in_heredoc && negb in_param_word then negb special else negb (special || (nx =? dquote)))
      then ret (mkRun (i + 2) (push_quoted (push_quoted (r_out st) BSL) nx) true (had_unquoted st) (eq_seen st))
      else if nx =? 10 then ret (mkRun (i + 2) (r_out st) (had_quotes st) (had_unquoted st) (eq_seen st))
      else ret (mkRun (i + 2) (push_quoted (r_out st) nx) true true (eq_seen st))
  | None =>
      let compat := match compat_version (E:=E) with Some v => starts_with (bs "5.2") v | None => false end in
      ret (if compat
           then mkRun (i + 1) (push_quoted_null (r_out st)) true (had_unquoted st) (eq_seen st)
           else mkRun (i + 1) (push_quoted (r_out st) BSL) true true (eq_seen st))
  end.

Definition step_single (st : RunSt) : M E RunSt :=
  let i := r_i st in
  if in_arith then
    out <- original SQ (r_out st) ;; ret (mkRun (i + 1) out (had_quotes st) true (eq_seen st))
  else if in_quoted then ret (mkRun (i + 1) (push_quoted (r_out st) SQ) (had_quotes st) true (eq_seen st))
  else
    let '(body, rest) := scan_single_quoted (drop (i + 1) bytes) in
    ret (mkRun (length bytes - length rest)
           (if is_nil body then push_quoted_null (r_out st) else fold_left push_quoted body (r_out st))
           true (had_unquoted st) (eq_seen st)).

Definition step_double (st : RunSt) : M E RunSt :=
  let i := r_i st in
  if in_heredoc && negb in_param_word then
    ret (mkRun (i + 1) (push_quoted (r_out st) dquote) (had_quotes st) true (eq_seen st))
  else
    r <- scan_double_quoted_into_mode bytes (i + 1) (r_out st) in_quoted ;;
    ret (mkRun (fst r) (snd r) true (had_unquoted st) (eq_seen st)).

Definition step_dollar (st : RunSt) : M E RunSt :=
  let i := r_i st in
  r <- (if negb in_heredoc && in_quoted && in_param_word
        then dollar_quote_expand bytes i (r_out st) else ret (false, i, r_out st)) ;;
  let '(quote_done, new_i, out) := r in
  if (quote_done : bool) then ret (mkRun new_i out (had_quotes st) true (eq_seen st))
  else
    r <- param_expand bytes new_i (in_heredoc || in_quoted) out ;;
    let '(done, new_i, out) := r in
    if (done : bool) then
      out <- asks (fun c => drop_empty_param_before_dollar_at bytes new_i (env c) out) ;;
      ret (mkRun new_i out (had_quotes st) true (eq_seen st))
    else
      out <- (if in_heredoc then ret (push_quoted out "$"%b) else original "$"%b out) ;;
      ret (mkRun (i + 1) out (had_quotes st) true (eq_seen st)).

Definition step_backquote (st : RunSt) : M E RunSt :=
  r <- backquote_expand bytes (r_i st) false (original "`"%b) (r_out st) ;;
  ret (mkRun (fst r) (snd r) (had_quotes st) true (eq_seen st)).

(** A byte after which a tilde prefix may follow. *)
Definition step_tilde_after (b : Z) (eq_seen : bool) (st : RunSt) : M E RunSt :=
  out <- original b (r_out st) ;;
  let i := (r_i st + 1)%nat in
  r <- (if bool_decide (bytes !! i = Some "~"%b) then tilde_at bytes i out else ret (i, out)) ;;
  ret (mkRun (fst r) (snd r) (had_quotes st) (had_unquoted st) eq_seen).

Definition run_step (b : Z) (st : RunSt) : M E RunSt :=
  let i := r_i st in
  if b =? BSL then step_backslash st
  else if b =? SQ then step_single st
  else if b =? dquote then step_double st
  else if b =? "$"%b then step_dollar st
  else if b =? "`"%b then step_backquote st
  else if ((b =? "<"%b) || (b =? ">"%b)) && bool_decide (bytes !! (i + 1)%nat = Some "("%b)
          && negb (has flags W_NOPROCSUB) then
    r <- process_subst_expand bytes i false (r_out st) ;;
    ret (mkRun (fst r) (snd r) (had_quotes st) true (eq_seen st))
  else if assignment_word_tilde && (b =? "="%b) && negb (eq_seen st) then step_tilde_after b true st
  else if (is_assign_rhs || assignment_word_tilde) && (b =? ":"%b) then step_tilde_after b (eq_seen st) st
  else
    out <- original b (r_out st) ;; ret (mkRun (i + 1) out (had_quotes st) true (eq_seen st)).

Fixpoint run_loop (fuel : nat) (st : RunSt) : M E RunSt :=
  match bytes !! r_i st with
  | None => ret st
  | Some b =>
      match fuel with
      | O => fun c => (Fuel, c)
      | S fuel => st <- run_step b st ;; run_loop fuel st
      end
  end.
End Word.

Definition quoted_state_of (had_quotes had_unquoted : bool) : QuotedState :=
  match had_quotes, had_unquoted with
  | true, false => Wholly
  | true, true => Partially
  | false, _ => Unquoted
  end.

Definition run (wd : Wd) (no_tilde : bool) : M E Wd :=
  let bytes := buf_bytes (wd_buf wd) in
  let flags := wd_flags wd in
  start <- (if negb no_tilde && negb (has flags W_NOTILDE) && bool_decide (head bytes = Some "~"%b)
            then tilde_at bytes 0 ExpandBuf_new else ret (0%nat, ExpandBuf_new)) ;;
  awt <- asks (fun c => has flags W_ASSIGNMENT && negb (env_option (env c) (bs "posix"))) ;;
  st <- run_loop bytes flags awt (length bytes) (mkRun (fst start) (snd start) false false false) ;;
  ret (mkWd (r_out st) flags (quoted_state_of (had_quotes st) (had_unquoted st))).

Definition expand_word_internal (wd : Wd) (no_tilde : bool) : M E Wd := fun c =>
  match enter c with
  | (Ok _, c) => let '(result, c) := run wd no_tilde c in (result, leave c)
  | (Err e, c) => (Err e, c)
  | (Fuel, c) => (Fuel, c)
  end.
End Internal.
