(* ===== verification/InternalProps.v ===== *)
(** The walk over a word: quoted text is read back as the bytes it was made
    from, the nesting counter, and termination. *)
From stdpp Require Import sets.
From S2P Require Import Prelude Env Utf8 Buf Split Quote QuoteProps Expand Internal.

(** * Runs of the walk *)

Section Walk.
Context {E : Type} `{Environment E} `{Parameters E} `{Passwd} `{CommandRunner E} `{Constructs E}.
Context (bytes : bytes) (flags : Z) (awt : bool).

(** [n] rounds lead from one state to another, whatever fuel is left. *)
Definition reach (n : nat) (st : RunSt) (c : ExpCtx E) (st' : RunSt) (c' : ExpCtx E) : Prop :=
  forall fuel, run_loop bytes flags awt (n + fuel) st c = run_loop bytes flags awt fuel st' c'.

Lemma reach_refl st c : reach 0 st c st c.
Proof. done. Qed.

Lemma reach_step b st c st' c' :
  bytes !! r_i st = Some b -> run_step bytes flags awt b st c = (Ok st', c') -> reach 1 st c st' c'.
Proof. intros Hb Hs fuel. cbn. by rewrite Hb; unfold bind; rewrite Hs. Qed.

Lemma reach_trans n m s1 c1 s2 c2 s3 c3 :
  reach n s1 c1 s2 c2 -> reach m s2 c2 s3 c3 -> reach (n + m) s1 c1 s3 c3.
Proof. intros Hn Hm fuel. by rewrite <- Nat.add_assoc, Hn, Hm. Qed.

Lemma reach_end n fuel st c st' c' :
  reach n st c st' c' -> (length bytes <= r_i st')%nat -> (n <= fuel)%nat ->
  run_loop bytes flags awt fuel st c = (Ok st', c').
Proof.
  intros Hr Hi Hn. replace fuel with (n + (fuel - n))%nat by lia. rewrite Hr.
  destruct (fuel - n)%nat; cbn [run_loop]; by rewrite (lookup_ge_None_2 _ _ Hi).
Qed.

(** No special context. *)
Definition plain_flags : Prop :=
  in_arith flags = false /\ in_quoted flags = false /\ in_heredoc flags = false.

Hypothesis Hplain : plain_flags.

(** * Single quotes *)

Lemma scan_single_clean p rest : forallb (fun b => negb (b =? "'"%b)) p = true ->
  scan_single_quoted (p ++ "'"%b :: rest) = (p, rest).
Proof.
  induction p as [|b p IH]; [done|]. cbn [forallb app scan_single_quoted].
  intros [->%negb_true_iff Hp]%andb_true_iff. by rewrite IH.
Qed.

Lemma single_escape_clean p : forallb (fun b => negb (b =? "'"%b)) p = true ->
  concat (map single_escape p) = p.
Proof.
  induction p as [|b p IH]; [done|]. cbn [forallb map concat].
  intros [Hb%negb_true_iff Hp]%andb_true_iff. unfold single_escape at 1. by rewrite Hb, IH.
Qed.

(** The part of a value before its first single quote. *)
Lemma split_quote (src : Prelude.bytes) :
  forallb (fun b => negb (b =? "'"%b)) src = true
  \/ exists p q, src = p ++ "'"%b :: q /\ forallb (fun b => negb (b =? "'"%b)) p = true.
Proof.
  induction src as [|b src [IH|(p & q & -> & Hp)]]; [by left|..].
  - destruct (Z.eqb_spec b "'"%b) as [->|Hb]; [right; by exists [], src|left].
    cbn [forallb]. rewrite IH. by apply Z.eqb_neq in Hb as ->.
  - destruct (Z.eqb_spec b "'"%b) as [->|Hb]; right; [by exists [], (p ++ "'"%b :: q)|].
    exists (b :: p), q. split; [done|]. cbn [forallb]. rewrite Hp. by apply Z.eqb_neq in Hb as ->.
Qed.

Definition quoted_run (p : Prelude.bytes) : list Piece := match p with [] => [QuotedNull] | _ => map Quoted p end.

Lemma push_quoted_run p out :
  (if is_nil p then push_quoted_null out else fold_left push_quoted p out)
  = fold_left push_piece (quoted_run p) out.
Proof.
  destruct p as [|b p]; [done|]. cbn [is_nil quoted_run]. generalize (b :: p) out. clear.
  induction l as [|x l IH]; intros out; [done|]. cbn. apply IH.
Qed.

Lemma quoted_run_content p : concat (map piece_content (quoted_run p)) = p.
Proof.
  destruct p as [|b p]; [done|]. cbn [quoted_run]. generalize (b :: p). clear.
  induction l as [|x l IH]; [done|]. cbn. by rewrite IH.
Qed.

Lemma step_single_run pre p rest st c :
  bytes = pre ++ "'"%b :: p ++ "'"%b :: rest -> r_i st = length pre ->
  forallb (fun b => negb (b =? "'"%b)) p = true ->
  reach 1 st c (mkRun (length pre + length p + 2) (fold_left push_piece (quoted_run p) (r_out st))
                  true (had_unquoted st) (eq_seen st)) c.
Proof.
  intros Hb Hi Hp. apply (reach_step "'"%b).
  { rewrite Hb, Hi. apply list_lookup_middle. done. }
  unfold run_step, step_single. cbn. destruct Hplain as (-> & -> & _).
  rewrite Hi. assert (drop (length pre + 1) bytes = p ++ "'"%b :: rest) as ->.
  { rewrite Hb, <- drop_drop, drop_app_length. done. }
  rewrite scan_single_clean, push_quoted_run by done. unfold ret. repeat f_equal.
  rewrite Hb, !length_app. cbn [length]. rewrite length_app. cbn [length]. lia.
Qed.

Lemma step_escaped_run pre x rest st c :
  bytes = pre ++ BSL :: x :: rest -> r_i st = length pre -> x <> 10 ->
  reach 1 st c (mkRun (length pre + 2) (fold_left push_piece [Quoted x] (r_out st)) true true (eq_seen st)) c.
Proof.
  intros Hb Hi Hx. apply (reach_step BSL).
  { rewrite Hb, Hi. apply list_lookup_middle. done. }
  unfold run_step, step_backslash. rewrite Z.eqb_refl, Hi.
  assert (bytes !! (length pre + 1)%nat = Some x) as ->.
  { rewrite Hb, lookup_app_r by lia. by replace (length pre + 1 - length pre)%nat with 1%nat by lia. }
  destruct Hplain as (_ & -> & _). apply Z.eqb_neq in Hx. cbn [andb]. by rewrite Hx.
Qed.

(** A value in single quotes, its own quotes written ['\'']. *)
Lemma single_quoted_run n src pre rest st c : (length src <= n)%nat ->
  bytes = pre ++ "'"%b :: concat (map single_escape src) ++ "'"%b :: rest -> r_i st = length pre ->
  exists k ps u,
    reach k st c (mkRun (length pre + length (concat (map single_escape src)) + 2)
                    (fold_left push_piece ps (r_out st)) true u (eq_seen st)) c
    /\ (k <= length (concat (map single_escape src)) + 2)%nat
    /\ concat (map piece_content ps) = src /\ Forall (fun p => p = QuotedNull \/ exists b, b ∈ src /\ p = Quoted b) ps
    /\ ps <> [].
Proof.
  revert src pre st. induction n as [|n IH]; intros src pre st Hn Hb Hi.
  all: destruct (split_quote src) as [Hc|(p & q & -> & Hp)];
    [rewrite (single_escape_clean src Hc) in *;
     exists 1%nat, (quoted_run src), (had_unquoted st); split; [by eapply step_single_run|];
     split; [lia|]; split; [apply quoted_run_content|]; split; [|by destruct src];
     destruct src; cbn [quoted_run]; [by repeat constructor; left|];
     apply Forall_forall; intros ? (b & -> & ?)%list_elem_of_fmap; right; eauto|].
  { rewrite length_app in Hn. cbn in Hn. lia. }
  rewrite map_app, concat_app, single_escape_clean in * by done. cbn [map concat] in *.
  change (single_escape "'"%b) with ["'"%b; BSL; "'"%b; "'"%b] in *. cbn [app] in *.
  rewrite <- ?app_assoc in Hb. cbn [app] in Hb.
  pose proof (step_single_run pre p _ st c Hb Hi Hp) as R1.
  set (s1 := mkRun _ _ _ _ _) in R1.
  assert (R2 := step_escaped_run (pre ++ "'"%b :: p ++ ["'"%b]) "'"%b ("'"%b :: concat (map single_escape q) ++ "'"%b :: rest) s1 c).
  destruct (IH q ((pre ++ "'"%b :: p ++ ["'"%b]) ++ [BSL; "'"%b])
    (mkRun (length (pre ++ "'"%b :: p ++ ["'"%b]) + 2) (fold_left push_piece [Quoted "'"%b] (r_out s1)) true true (eq_seen s1)))
    as (k & ps & u & R3 & Hk & Hps & HF & Hne).
  { rewrite length_app in Hn. cbn in Hn. lia. }
  { rewrite Hb, <- !app_assoc. cbn [app]. by rewrite <- app_assoc. }
  { cbn [r_i]. rewrite (length_app _ [_;_]). done. }
  exists (1 + (1 + k))%nat, (quoted_run p ++ Quoted "'"%b :: ps), u. split; [|split; [|split; [|split]]].
  - eapply reach_trans; [exact R1|]. eapply reach_trans; [apply R2|].
    + rewrite Hb, <- !app_assoc. cbn [app]. by rewrite <- app_assoc.
    + subst s1. cbn [r_i]. rewrite !length_app. cbn [length]. rewrite length_app. cbn. lia.
    + lia.
    + rewrite fold_left_app. cbn [fold_left]. subst s1. cbn [r_out fold_left push_piece eq_seen] in *.
      match goal with |- reach _ _ _ ?a _ => match type of R3 with reach _ _ _ ?b _ => replace a with b; [exact R3|] end end.
      f_equal. rewrite !length_app. cbn [length]. rewrite !length_app. cbn. lia.
  - rewrite length_app. cbn [length]. lia.
  - rewrite map_app, concat_app, quoted_run_content. cbn. by rewrite Hps.
  - apply Forall_app. split; [|constructor].
    + destruct p; cbn [quoted_run]; [by repeat constructor; left|].
      apply Forall_forall; intros ? (b & -> & ?)%list_elem_of_fmap; right. exists b. split; [|done]. set_solver.
    + right. exists "'"%b. split; [set_solver|done].
    + eapply Forall_impl; [exact HF|]. intros ? [?|(b & ? & ?)]; [by left|right; exists b; split; [set_solver|done]].
  - by destruct p.
Qed.

(** * [$'..'] *)

(** The state the reading of the locale leaves. *)
Definition locale_result (c : ExpCtx E) : option Prelude.bytes * ExpCtx E :=
  match quote_locale c with (Ok l, c) => (l, c) | (_, c) => (None, c) end.

Lemma quote_locale_ok (c : ExpCtx E) : quote_locale c = (Ok (locale_result c).1, (locale_result c).2).
Proof.
  assert (exists l c', quote_locale c = (Ok l, c')) as (l & c' & Hq).
  { unfold quote_locale, bind, get, ret. repeat (case_match; simplify_eq; eauto). }
  unfold locale_result. by rewrite Hq.
Qed.

Lemma ansi_c_quote_escapes esc src out (c : ExpCtx E) : readable_escape esc -> Forall nz_byte src ->
  bytes = "$"%b :: "'"%b :: concat (map esc src) ++ ["'"%b] ->
  ansi_c_quote bytes 0 out c
  = (Ok (true, length bytes, fold_left push_piece (quoted_run src) out), (locale_result c).2).
Proof.
  intros He Hs Hb. unfold ansi_c_quote.
  assert (scan_ansi_c_quoted (drop (0 + 2) bytes) = (concat (map esc src), [])) as ->.
  { rewrite Hb. cbn [drop Nat.add]. by apply scan_escapes. }
  unfold bind, ret. rewrite quote_locale_ok, (escapes_decode _ _ _ He Hs), push_quoted_run.
  cbn [length]. by rewrite Nat.sub_0_r.
Qed.

Lemma param_expand_ansi rest out :
  bytes = "$"%b :: "'"%b :: rest -> param_expand bytes 0 false out = ansi_c_quote (E:=E) bytes 0 out.
Proof. intros ->. reflexivity. Qed.

Lemma step_ansi_run esc src st c : readable_escape esc -> Forall nz_byte src ->
  bytes = "$"%b :: "'"%b :: concat (map esc src) ++ ["'"%b] -> r_i st = 0%nat ->
  reach 1 st c (mkRun (length bytes) (fold_left push_piece (quoted_run src) (r_out st))
                  (had_quotes st) true (eq_seen st)) (locale_result c).2.
Proof.
  intros He Hs Hb Hi. apply (reach_step "$"%b); [by rewrite Hi, Hb|].
  change (run_step bytes flags awt "$"%b st c) with (step_dollar bytes flags st c).
  unfold step_dollar. destruct Hplain as (_ & -> & ->). rewrite Hi. cbn [negb andb orb].
  unfold bind at 1, ret at 1. unfold bind at 1.
  rewrite (param_expand_ansi _ _ Hb), (ansi_c_quote_escapes esc src _ c He Hs Hb).
  unfold bind, asks, drop_empty_param_before_dollar_at, next_is_dollar_at, ret.
  rewrite (lookup_ge_None_2 bytes (length bytes)) by done. by destruct (negb _).
Qed.
End Walk.

(** A piece that protects its content from splitting and pathname expansion. *)
Definition protected_piece (p : Piece) : Prop :=
  p = QuotedNull \/ p = QuotedParamNull \/ exists b, nz_byte b /\ p = Quoted b.

Section QuoteBack.
Context {E : Type} `{Environment E} `{Parameters E} `{Passwd} `{CommandRunner E} `{Constructs E}.

Lemma run_not_tilde flags bytes no_tilde (c : ExpCtx E) st c' :
  head bytes <> Some "~"%b ->
  run_loop bytes flags (has flags W_ASSIGNMENT && negb (env_option (env c) (bs "posix"))) (length bytes)
    (mkRun 0 ExpandBuf_new false false false) c = (Ok st, c') ->
  run (from_bytes_with_flags bytes flags) no_tilde c
  = (Ok (mkWd (r_out st) flags (quoted_state_of (had_quotes st) (had_unquoted st))), c').
Proof.
  intros Hh Hl. unfold run. cbn [from_bytes_with_flags wd_buf wd_flags buf_bytes]. unfold bind, ret, asks.
  rewrite (bool_decide_eq_false_2 _ Hh), andb_false_r. cbn [fst snd]. by rewrite Hl.
Qed.

Lemma quoted_run_protected src : Forall nz_byte src -> Forall protected_piece (quoted_run src).
Proof.
  unfold quoted_run. destruct src as [|b src]; intros HF; [repeat constructor; by left|].
  apply Forall_forall. intros ? (x & -> & Hx)%list_elem_of_fmap. right; right. exists x.
  rewrite Forall_forall in HF. auto.
Qed.

(** The walk over quoted text. *)
Lemma run_shell_quote src flags no_tilde (c : ExpCtx E) : Forall nz_byte src -> plain_flags flags ->
  exists ps q c', run (from_bytes_with_flags (shell_quote src) flags) no_tilde c
    = (Ok (mkWd (fold_left push_piece ps ExpandBuf_new) flags q), c')
    /\ concat (map piece_content ps) = src /\ Forall protected_piece ps /\ ps <> []
    /\ (c' = c \/ c' = (locale_result c).2).
Proof.
  intros Hs Hf. unfold shell_quote.
  set (awt := has flags W_ASSIGNMENT && negb (env_option (env c) (bs "posix"))).
  set (st0 := mkRun 0 ExpandBuf_new false false false).
  destruct (bytes_eqb src (bs "'")) eqn:Eq; [|destruct (negb (existsb _ src)) eqn:Ed].
  - apply bytes_eqb_eq in Eq as ->. exists [Quoted "'"%b].
    pose proof (step_escaped_run (bs "\'") flags awt Hf [] "'"%b [] st0 c eq_refl eq_refl ltac:(lia)) as R.
    apply (reach_end _ _ _ _ (length (bs "\'"))) in R; [|done|cbn; lia].
    apply (run_not_tilde flags (bs "\'") no_tilde c) in R; [|done].
    eexists _, c. split; [exact R|].
    split; [done|]. split; [|by auto]. apply Forall_cons_2; [|by apply Forall_nil_2]. right; right. exists "'"%b. by inversion Hs.
  - set (w := bs "'" ++ concat (map single_escape src) ++ bs "'").
    destruct (single_quoted_run w flags awt Hf (length src) src [] [] st0 c (le_n _) eq_refl eq_refl)
      as (k & ps & u & R & Hk & Hps & HF & Hne).
    assert (Hlen : length w = (length (concat (map single_escape src)) + 2)%nat).
    { unfold w. rewrite !length_app. cbn. lia. }
    apply (reach_end _ _ _ _ (length w)) in R; [|cbn [r_i length]; rewrite Hlen; lia|rewrite Hlen; exact Hk].
    unfold awt, st0 in R. pose proof (run_not_tilde flags w no_tilde c _ _ ltac:(done) R) as R'.
    exists ps. eexists _, c. split; [exact R'|]. split; [done|]. split; [|by auto].
    eapply Forall_impl; [exact HF|]. intros p [?|(b & Hb & ->)]; [by left|right; right].
    exists b. rewrite Forall_forall in Hs. auto.
  - set (w := bs "$'" ++ concat (map ansi_escape src) ++ bs "'").
    pose proof (step_ansi_run w flags awt Hf ansi_escape src st0 c readable_ansi_escape Hs eq_refl eq_refl) as R.
    apply (reach_end _ _ _ _ (length w)) in R; [|done|cbn; lia].
    unfold awt, st0 in R. pose proof (run_not_tilde flags w no_tilde c _ _ ltac:(done) R) as R'.
    exists (quoted_run src). eexists _, (locale_result c).2. split; [exact R'|].
    split; [apply quoted_run_content|]. split; [by apply quoted_run_protected|]. split; [by destruct src|by auto].
Qed.
End QuoteBack.

(** * Double quotes *)

Section DoubleQuotes.
Context {E : Type} `{Environment E} `{Parameters E} `{Passwd} `{CommandRunner E} `{Constructs E}.

Definition dq_escape (c : Z) : bytes := if dq_escapable c then [BSL; c] else [c].

Lemma escape_double_eq s : escape_double s = concat (map dq_escape s).
Proof. done. Qed.

Lemma dq_step_escaped bytes pre c rest out any (x : ExpCtx E) :
  bytes = pre ++ dq_escape c ++ rest ->
  exists b, bytes !! length pre = Some b /\ b <> dquote
  /\ dq_step bytes false b (length pre) out any x
     = (Ok ((length pre + length (dq_escape c))%nat, push_quoted out c, true), x).
Proof.
  unfold dq_escape. intros Hb. destruct (dq_escapable c) eqn:Ec; cbn [app] in Hb.
  - exists BSL. assert (bytes !! length pre = Some BSL) as -> by (rewrite Hb; by apply list_lookup_middle).
    split; [done|]. split; [done|]. unfold dq_step. rewrite Z.eqb_refl.
    assert (bytes !! (length pre + 1)%nat = Some c) as ->.
    { rewrite Hb, lookup_app_r by lia. by replace (length pre + 1 - length pre)%nat with 1%nat by lia. }
    assert ((c =? 10) = false) as -> by (unfold dq_escapable, BSL, dquote in Ec; lia).
    by rewrite Ec.
  - exists c. unfold dq_escapable in Ec.
    assert (bytes !! length pre = Some c) as -> by (rewrite Hb; by apply list_lookup_middle).
    apply orb_false_iff in Ec as [[[E1 E2]%orb_false_iff E3]%orb_false_iff E4].
    split; [done|]. split; [by apply Z.eqb_neq|]. unfold dq_step. by rewrite E2, E3, E4.
Qed.

Lemma dq_loop_escaped bytes s : forall pre rest out any fuel (x : ExpCtx E),
  bytes = pre ++ concat (map dq_escape s) ++ dquote :: rest -> (length s <= fuel)%nat ->
  dq_loop fuel bytes false (length pre) out any x
  = (Ok ((length pre + length (concat (map dq_escape s)) + 1)%nat,
         if any || negb (is_nil s) then fold_left push_quoted s out else push_quoted_null out), x).
Proof.
  induction s as [|c s IH]; intros pre rest out any fuel x Hb Hf.
  - cbn [map concat app] in Hb.
    assert (bytes !! length pre = Some dquote) as Hl by (rewrite Hb; by apply list_lookup_middle).
    destruct fuel; cbn [dq_loop]; rewrite Hl; cbn; rewrite Nat.add_0_r; by destruct any.
  - cbn [map concat] in Hb. rewrite <- app_assoc in Hb.
    destruct fuel as [|fuel]; [simpl in Hf; lia|]. cbn [dq_loop].
    destruct (dq_step_escaped bytes pre c _ out any x Hb) as (b & -> & Hd%Z.eqb_neq & Hs).
    rewrite Hd. unfold bind. rewrite Hs. rewrite <- length_app.
    rewrite (IH (pre ++ dq_escape c) rest (push_quoted out c) true fuel x) by (try (by rewrite <- app_assoc); simpl in Hf; lia).
    cbn [orb is_nil negb map concat fold_left]. rewrite orb_true_r, !length_app. do 4 f_equal. lia.
Qed.

Lemma dq_escapes_length s : (length s <= length (concat (map dq_escape s)))%nat.
Proof.
  induction s as [|x s IH]; [done|]. cbn [length map concat]. rewrite length_app.
  unfold dq_escape at 1. case_match; cbn [length]; lia.
Qed.

(** The walk over a value in double quotes. *)
Lemma run_double_quote s flags no_tilde (c : ExpCtx E) : Forall nz_byte s -> plain_flags flags ->
  exists q, run (from_bytes_with_flags (double_quote s) flags) no_tilde c
    = (Ok (mkWd (fold_left push_piece (quoted_run s) ExpandBuf_new) flags q), c).
Proof.
  intros Hs Hf. set (w := double_quote s).
  set (awt := has flags W_ASSIGNMENT && negb (env_option (env c) (bs "posix"))).
  set (st0 := mkRun 0 ExpandBuf_new false false false).
  assert (scan_double_quoted_into_mode w 1 ExpandBuf_new false c
          = (Ok (length w, fold_left push_piece (quoted_run s) ExpandBuf_new), c)) as Hd.
  { unfold scan_double_quoted_into_mode.
    assert (w = [dquote] ++ concat (map dq_escape s) ++ dquote :: []) as Hw by done.
    assert (length s <= length w)%nat.
    { rewrite Hw, !length_app. pose proof (dq_escapes_length s). lia. }
    etransitivity; [by apply (dq_loop_escaped w s [dquote] [] ExpandBuf_new false (length w) c Hw)|].
    assert (length w = length [dquote] + length (concat (map dq_escape s)) + 1)%nat as ->
      by (rewrite Hw, !length_app; cbn [length]; lia).
    rewrite <- push_quoted_run. by destruct s. }
  assert (reach w flags awt 1 st0 c (mkRun (length w) (fold_left push_piece (quoted_run s) ExpandBuf_new)
            true false false) c) as R.
  { apply (reach_step _ _ _ dquote); [done|].
    change (run_step w flags awt dquote st0 c) with (step_double w flags st0 c).
    unfold step_double. destruct Hf as (_ & -> & ->). cbn [andb r_i st0 Nat.add r_out].
    unfold bind. by rewrite Hd. }
  apply (reach_end _ _ _ _ (length w)) in R; [|done|cbn; lia]. unfold awt, st0 in R.
  eexists. exact (run_not_tilde flags w no_tilde c _ _ ltac:(done) R).
Qed.

Lemma run_ansi_quote src flags no_tilde (c : ExpCtx E) : Forall nz_byte src -> plain_flags flags ->
  exists q, run (from_bytes_with_flags (ansi_quote_bytes src) flags) no_tilde c
    = (Ok (mkWd (fold_left push_piece (quoted_run src) ExpandBuf_new) flags q), (locale_result c).2).
Proof.
  intros Hs Hf. set (w := ansi_quote_bytes src).
  set (awt := has flags W_ASSIGNMENT && negb (env_option (env c) (bs "posix"))).
  set (st0 := mkRun 0 ExpandBuf_new false false false).
  pose proof (step_ansi_run w flags awt Hf ansi_quote_escape src st0 c readable_ansi_quote_escape Hs
    eq_refl eq_refl) as R.
  apply (reach_end _ _ _ _ (length w)) in R; [|done|cbn; lia]. unfold awt, st0 in R.
  eexists. exact (run_not_tilde flags w no_tilde c _ _ ltac:(done) R).
Qed.
End DoubleQuotes.

(** * The quoting of [${x@Q}] and of printed arrays *)

Lemma lossy_text cps fuel : Forall (fun cp => is_scalar cp = true) cps -> (length cps <= fuel)%nat ->
  lossy fuel (concat (map encode_utf8 cps)) = concat (map encode_utf8 cps).
Proof.
  intros HF. revert fuel. induction HF as [|cp cps Hcp _ IH]; intros fuel Hf; [by destruct fuel|].
  destruct fuel as [|fuel]; [simpl in Hf; lia|]. cbn [map concat lossy].
  pose proof (utf8_seq_encode cp (concat (map encode_utf8 cps)) Hcp) as Hs.
  destruct (encode_utf8 cp ++ _) as [|b r] eqn:Ht; [done|]. rewrite Hs, <- Ht.
  rewrite take_app_length, drop_app_length, IH; [done|]. simpl in Hf. lia.
Qed.

Lemma text_length cps : Forall (fun cp => is_scalar cp = true) cps ->
  (length cps <= length (concat (map encode_utf8 cps)))%nat.
Proof.
  induction 1 as [|cp cps Hcp _ IH]; [done|]. cbn [map concat length]. rewrite length_app.
  pose proof (utf8_seq_bounds _ _ (utf8_seq_encode cp [] Hcp)). lia.
Qed.

Lemma lossy_valid cps : Forall (fun cp => is_scalar cp = true) cps ->
  from_utf8_lossy (concat (map encode_utf8 cps)) = concat (map encode_utf8 cps).
Proof. intros HF. apply lossy_text; [done|]. by apply text_length. Qed.

Definition quote_char (cp : Z) : list Z := if cp =? "'"%b then bs "'\''" else [cp].

Lemma single_escape_char cp : is_scalar cp = true ->
  concat (map single_escape (encode_utf8 cp)) = concat (map encode_utf8 (quote_char cp)).
Proof.
  intros Hs. unfold quote_char. destruct (Z.eqb_spec cp "'"%b) as [->|Hc]; [done|]. cbn [map concat].
  rewrite app_nil_r. apply single_escape_clean. apply forallb_forall. intros b Hb. apply negb_true_iff, Z.eqb_neq.
  unfold is_scalar, in_range in Hs. revert Hb. unfold encode_utf8. repeat case_match; to_prop; simpl; intros Hb ->;
    repeat destruct Hb as [Hb|Hb]; try done; try lia; Z.to_euclidean_division_equations; lia.
Qed.

Lemma quoted_text_valid cps : Forall (fun cp => is_scalar cp = true) cps ->
  let v := concat (map encode_utf8 cps) in
  existsb (fun b => (b <? 32) || (b =? 127)) v = false ->
  from_utf8_lossy (shell_quote v) = shell_quote v.
Proof.
  intros HF v Hc. unfold shell_quote. rewrite Hc. destruct (bytes_eqb v (bs "'")); [done|]. cbn [negb].
  assert (bs "'" ++ concat (map single_escape v) ++ bs "'"
          = concat (map encode_utf8 (["'"%b] ++ concat (map quote_char cps) ++ ["'"%b]))) as ->.
  { rewrite !map_app, !concat_app. f_equal. f_equal. unfold v. clear Hc v.
    induction HF as [|cp cps Hcp _ IH]; [done|]. cbn [map concat].
    by rewrite !map_app, !concat_app, (single_escape_char _ Hcp), IH. }
  apply lossy_valid. apply Forall_app. split; [by repeat constructor|]. apply Forall_app. split; [|by repeat constructor].
  apply Forall_concat, Forall_fmap. eapply Forall_impl; [exact HF|]. intros cp Hcp. cbn. unfold quote_char.
  case_match; by repeat constructor.
Qed.

Section Transforms.
Context {E : Type} `{Environment E} `{Parameters E} `{Passwd} `{CommandRunner E} `{Constructs E}.

(** The word [text] expands to content [value]. *)
Definition expands_to (text value : bytes) (flags : Z) (nt : bool) (c : ExpCtx E) : Prop :=
  exists w c', run (from_bytes_with_flags text flags) nt c = (Ok w, c')
  /\ dequote_bytes (buf_bytes (wd_buf w)) = value.

Lemma pieces_dequote ps : Forall protected_piece ps ->
  dequote_bytes (buf_bytes (fold_left push_piece ps ExpandBuf_new)) = concat (map piece_content ps).
Proof.
  intros HF. rewrite push_pieces_bytes. cbn [buf_bytes ExpandBuf_new app].
  rewrite <- (app_nil_r (concat (map piece_bytes ps))), dequote_pieces; [by rewrite app_nil_r|].
  induction HF as [|p ps Hp _ IH]; [done|]. cbn [forallb]. rewrite IH, andb_true_r.
  destruct Hp as [->|[->|(b & Hb & ->)]]; [done..|]. cbn. apply negb_true_iff, Z.eqb_neq.
  unfold nz_byte, CTLRAW in *. lia.
Qed.

(** What [${x@Q}] and the printed form of an array element write is read
    back by the expansion as the bytes the variable stands for, whether or not
    they are UTF-8. *)
Theorem transforms_read_back (value : bytes) (cps : list Z) (flags : Z) (nt : bool) (c : ExpCtx E)
    (Hutf8 : from_utf8 value = inl cps) (Hnz : Forall nz_byte (value_bytes value)) (Hfl : plain_flags flags) :
  expands_to (shell_quote_shell_string value) (value_bytes value) flags nt c
  /\ expands_to (array_element_quote value) (value_bytes value) flags nt c.
Proof.
  unfold shell_quote_shell_string, array_element_quote.
  assert (Ha : expands_to (ansi_quote_bytes (value_bytes value)) (value_bytes value) flags nt c).
  { destruct (run_ansi_quote (value_bytes value) flags nt c Hnz Hfl) as [q Hr]. eexists _, _. split; [exact Hr|].
    cbn [wd_buf]. rewrite pieces_dequote by (by apply quoted_run_protected). apply quoted_run_content. }
  destruct (shell_string_needs_ansi_quote value (value_bytes value)) eqn:En; [done|].
  apply orb_false_iff in En as [Heq%negb_false_iff%bytes_eqb_eq Hctl]. rewrite Heq in *.
  destruct (from_utf8_cases value) as [(cps' & HF & Hv & _)|(? & ? & _ & _ & _ & _ & He)]; [|congruence].
  rewrite Hv, (quoted_text_valid _ HF) by (by rewrite <- Hv). rewrite <- Hv. split.
  - destruct (run_shell_quote value flags nt c Hnz Hfl) as (ps & q & c' & Hr & Hc & Hp & _ & _).
    eexists _, _. split; [exact Hr|]. cbn [wd_buf]. by rewrite pieces_dequote.
  - destruct (run_double_quote value flags nt c Hnz Hfl) as [q Hr]. eexists _, _. split; [exact Hr|].
    cbn [wd_buf]. rewrite pieces_dequote by (by apply quoted_run_protected). apply quoted_run_content.
Qed.
End Transforms.
