(* ===== verification/InternalTerm.v ===== *)
(** Termination of the walk over a word: every round moves on, when the
    constructs expanded elsewhere do. *)
From S2P Require Import Prelude Env Utf8 Buf Split Quote Expand Internal.

(** * Termination *)

Definition not_fuel {A} (r : Res ExpandError A) : Prop := is_fuel r = false.

(** A construct at [i] ends after [i]. *)
Definition advances {B} (i : nat) (r : Res ExpandError (nat * B)) : Prop :=
  match r with Ok (j, _) => (i < j)%nat | Err _ => True | Fuel => False end.

(** What the walk needs of the constructs expanded elsewhere: they end, and
    past the place they start at. *)
Class Progress (E : Type) `{CommandRunner E} `{Constructs E} := {
  brace_progress bytes i q out (c : ExpCtx E) : advances i (parameter_brace_expand bytes i q out c).1;
  paren_progress bytes i q out (c : ExpCtx E) : advances i (dollar_paren bytes i q out c).1;
  bracket_progress bytes i q out (c : ExpCtx E) : advances i (dollar_bracket bytes i q out c).1;
  procsub_progress bytes i q out (c : ExpCtx E) : advances i (process_subst_expand bytes i q out c).1;
  scalar_progress name len (c : ExpCtx E) : not_fuel (read_scalar name len c).1;
  value_progress name q out (c : ExpCtx E) : not_fuel (push_parameter_value name q out c).1;
  subst_progress src (c : ExpCtx E) : not_fuel (run_subst src c).1;
  backquote_progress src (c : ExpCtx E) : not_fuel (run_backquote_subst src c).1;
  input_progress word q (c : ExpCtx E) : not_fuel (read_input_file word q c).1;
}.

Section Termination.
Context {E : Type} `{Environment E} `{Parameters E} `{Passwd} `{CommandRunner E} `{Constructs E}
  `{!Progress E}.

(** A step that returns, with a result that satisfies [P]. *)
Definition returns {A} (P : A -> Prop) (m : M E A) : Prop :=
  forall c, match (m c).1 with Ok a => P a | Err _ => True | Fuel => False end.

Lemma returns_ret {A} (P : A -> Prop) a : P a -> returns P (ret a).
Proof. by intros ? c. Qed.

Lemma returns_fail {A} (P : A -> Prop) e : returns P (fail e).
Proof. by intros c. Qed.

Lemma returns_asks {A} (P : A -> Prop) f : (forall c, P (f c)) -> returns P (asks f).
Proof. intros HP c. apply HP. Qed.

Lemma returns_get (P : option bytes -> Prop) n : (forall v, P v) -> returns P (get n).
Proof. intros HP c. unfold get. destruct (env_get (env c) n). apply HP. Qed.

Lemma returns_bind {A B} (Q : A -> Prop) (P : B -> Prop) (m : M E A) k :
  returns Q m -> (forall a, Q a -> returns P (k a)) -> returns P (bind m k).
Proof.
  intros Hm Hk c. specialize (Hm c). unfold bind. destruct (m c) as [[a|e|] c']; cbn in *; [|done..].
  by apply Hk.
Qed.

Lemma returns_impl {A} (P Q : A -> Prop) (m : M E A) : returns P m -> (forall a, P a -> Q a) -> returns Q m.
Proof. intros Hm HPQ c. specialize (Hm c). destruct (m c).1; auto. Qed.

Lemma returns_not_fuel {A} (m : M E A) : (forall c, not_fuel (m c).1) -> returns (fun _ => True) m.
Proof. intros Hm c. specialize (Hm c). unfold not_fuel in Hm. by destruct (m c).1. Qed.

Lemma returns_advances {B} i (m : M E (nat * B)) :
  (forall c, advances i (m c).1) -> returns (fun r => (i < r.1)%nat) m.
Proof. intros Hm c. specialize (Hm c). destruct (m c).1 as [[]| |]; done. Qed.

Lemma returns_map_err {A} (P : A -> Prop) f (m : M E A) : returns P m -> returns P (map_err f m).
Proof. intros Hm c. specialize (Hm c). unfold map_err. by destruct (m c) as [[]]. Qed.

(** Sequencing with no condition on the intermediate result. *)
Lemma returns_seq {A B} (P : B -> Prop) (m : M E A) k :
  returns (fun _ => True) m -> (forall a, returns P (k a)) -> returns P (bind m k).
Proof. intros Hm Hk. eapply returns_bind; eauto. Qed.
End Termination.

#[export] Hint Resolve returns_ret returns_fail returns_asks returns_get returns_not_fuel
  returns_map_err : cherub.

(** Walk through the binds and tests of a step. *)
Ltac returns_tac :=
  repeat first
    [ progress intros
    | apply returns_ret
    | apply returns_fail
    | apply returns_asks; intros
    | apply returns_get; intros
    | apply returns_map_err
    | apply returns_seq
    | case_match ].

Section Termination2.
Context {E : Type} `{Environment E} `{Parameters E} `{Passwd} `{CommandRunner E} `{Constructs E}
  `{!Progress E}.

Lemma special_returns name q out : returns (E:=E) (fun _ => True) (expand_special name q out).
Proof. unfold expand_special, expand_at_star, special_param, live_ifs. returns_tac; done. Qed.

Lemma name_returns name q out : returns (E:=E) (fun _ => True) (expand_name name q out).
Proof.
  unfold expand_name. returns_tac; try done; apply returns_not_fuel; intros;
    first [apply value_progress | apply scalar_progress].
Qed.

Lemma command_returns src q bq cl : returns (E:=E) (fun _ => True) (command_substitute src q bq cl).
Proof.
  apply returns_not_fuel. intros c. unfold command_substitute, not_fuel. cbv zeta.
  generalize (match cl with Some line => if negb bq && bool_decide (cl <> None)
    then on_env (fun e => push_diagnostic_line e line) c else c | None => c end). intros c1.
  destruct (input_file_substitution_word _) as [w|].
  - pose proof (input_progress w q c1) as Hp. destruct (read_input_file w q c1) as [r c2]. exact Hp.
  - destruct bq; [pose proof (backquote_progress (remove_sub (length src) heredoc_warn_marker src) c1) as Hp;
      destruct (run_backquote_subst _ c1) as [[]] | pose proof (subst_progress (remove_sub (length src) heredoc_warn_marker src) c1) as Hp;
      destruct (run_subst _ c1) as [[]]]; done.
Qed.

Lemma tilde_returns prefix : returns (E:=E) (fun _ => True) (try_expand prefix).
Proof. unfold try_expand, collect_dirstack. returns_tac; done. Qed.

Lemma locale_returns : returns (E:=E) (fun _ => True) quote_locale.
Proof. unfold quote_locale. returns_tac; done. Qed.

(** [handled] constructs and [param_expand]: when something was expanded, the
    position moved on. *)
Definition moved (i : nat) (r : bool * nat * ExpandBuf) : Prop := r.1.1 = true -> (i < r.1.2)%nat.

Definition expanded (i : nat) (r : bool * nat * ExpandBuf) : Prop := r.1.1 = true /\ (i < r.1.2)%nat.

Lemma expanded_moved i (m : M E (bool * nat * ExpandBuf)) : returns (expanded i) m -> returns (moved i) m.
Proof. intros Hm. eapply returns_impl; [exact Hm|]. by intros a [? ?] _. Qed.

Lemma handled_returns i (m : M E (nat * ExpandBuf)) :
  returns (fun r => (i < r.1)%nat) m -> returns (expanded i) (handled m).
Proof. intros Hm. eapply returns_bind; [exact Hm|]. intros a Ha. by apply returns_ret. Qed.

Lemma name_end_ge fuel bytes j : (j <= name_end fuel bytes j)%nat.
Proof.
  revert j. induction fuel as [|fuel IH]; intros j; cbn [name_end]; [done|].
  repeat case_match; try done. specialize (IH (S j)). lia.
Qed.

Lemma dispatch_returns ansi locale bytes i q out :
  (forall out, returns (moved i) (ansi bytes i out)) -> (forall out, returns (moved i) (locale bytes i out)) ->
  returns (E:=E) (moved i) (param_dispatch ansi locale bytes i q out).
Proof.
  intros Ha Hl. unfold param_dispatch.
  destruct (bytes !! i) as [b|]; [|by apply returns_ret].
  destruct (bytes !! (i + 1)%nat) as [n|]; [|by apply returns_ret].
  destruct (negb _); [by apply returns_ret|].
  destruct (n =? _); [apply expanded_moved, handled_returns, returns_advances, brace_progress|].
  destruct (n =? _); [apply expanded_moved, handled_returns, returns_advances, paren_progress|].
  destruct (n =? _); [apply expanded_moved, handled_returns, returns_advances, bracket_progress|].
  destruct (_ && _); [apply Ha|]. destruct (_ && _); [apply Hl|].
  destruct (is_special_name n); [|destruct (is_ascii_digit n)].
  - apply returns_seq; [apply special_returns|]. intros o. apply returns_ret. intros _. cbn. lia.
  - apply returns_seq; [apply returns_map_err, special_returns|]. intros o. apply returns_ret. intros _. cbn. lia.
  - destruct (_ || _); [|by apply returns_ret].
    apply returns_seq; [apply name_returns|]. intros o. apply returns_ret. intros _. cbn.
    pose proof (name_end_ge (length bytes) bytes (i + 1)). lia.
Qed.

Lemma backquote_end_ge fuel bytes i : (i <= backquote_end fuel bytes i)%nat.
Proof.
  revert i. induction fuel as [|fuel IH]; intros i; cbn [backquote_end]; [done|].
  repeat case_match; try done; [specialize (IH (i + 2)%nat)|specialize (IH (i + 1)%nat)]; lia.
Qed.

Lemma backquote_returns bytes i dq lone out :
  (forall out, returns (fun _ => True) (lone out)) ->
  returns (E:=E) (fun r => (i < r.1)%nat) (backquote_expand bytes i dq lone out).
Proof.
  intros Hl. unfold backquote_expand. pose proof (backquote_end_ge (length bytes) bytes (i + 1)).
  destruct (length bytes <=? _)%nat; [destruct (is_nil _)|].
  - apply returns_seq; [apply Hl|]. intros o. apply returns_ret. cbn. lia.
  - apply returns_fail.
  - apply returns_seq; [apply command_returns|]. intros o. apply returns_ret. cbn. lia.
Qed.

Lemma dq_step_returns bytes all b i out any :
  returns (E:=E) (fun r => (i < r.1.1)%nat) (dq_step bytes all b i out any).
Proof.
  unfold dq_step. destruct (if b =? BSL then _ else None) as [n|].
  { repeat case_match; apply returns_ret; cbn; lia. }
  destruct (b =? _); [|destruct (b =? _)].
  - eapply returns_bind; [apply dispatch_returns; intros; by apply returns_ret|].
    intros [[d j] o] Hm. destruct d; [|apply returns_ret; cbn; lia].
    apply returns_seq; [by apply returns_asks|]. intros o'. apply returns_ret. by apply Hm.
  - eapply returns_bind; [apply backquote_returns; intros; by apply returns_ret|].
    intros [j o] Hj. by apply returns_ret.
  - apply returns_ret. cbn. lia.
Qed.

Lemma dq_loop_returns fuel bytes all i out any : (length bytes - i <= fuel)%nat ->
  returns (E:=E) (fun r => (i <= r.1)%nat) (dq_loop fuel bytes all i out any).
Proof.
  revert i out any. induction fuel as [|fuel IH]; intros i out any Hf; cbn [dq_loop];
    destruct (bytes !! i) as [b|] eqn:Hb; try (apply returns_ret; cbn; lia);
    destruct (b =? dquote); try (apply returns_ret; cbn; lia).
  - apply lookup_lt_Some in Hb. lia.
  - eapply returns_bind; [apply dq_step_returns|]. intros [[j o] a] Hj. cbn in Hj.
    eapply returns_impl; [apply IH; lia|]. cbn. intros [j' o'] ?. cbn in *. lia.
Qed.

Lemma scan_single_rest s : (length (scan_single_quoted s).2 <= length s)%nat.
Proof.
  induction s as [|b s IH]; cbn [scan_single_quoted]; [done|]. destruct (b =? _); [cbn; lia|].
  destruct (scan_single_quoted s) as [o r]. cbn in *. lia.
Qed.

Lemma scan_ansi_rest s : (length (scan_ansi_c_quoted s).2 <= length s)%nat.
Proof.
  induction s as [s IH] using (induction_ltof1 _ (@length Z)). unfold ltof in IH.
  destruct s as [|b s]; [done|]. cbn [scan_ansi_c_quoted]. destruct (b =? _); [cbn; lia|].
  destruct s as [|c s]; [cbn; lia|]. destruct (b =? _).
  - specialize (IH s ltac:(cbn; lia)). destruct (scan_ansi_c_quoted s). cbn in *. lia.
  - specialize (IH (c :: s) ltac:(cbn; lia)). destruct (scan_ansi_c_quoted (c :: s)). cbn in *. lia.
Qed.

Lemma ansi_returns bytes i out : (i < length bytes)%nat -> returns (E:=E) (expanded i) (ansi_c_quote bytes i out).
Proof.
  intros Hi. unfold ansi_c_quote. pose proof (scan_ansi_rest (drop (i + 2) bytes)) as Hr.
  destruct (scan_ansi_c_quoted _) as [body rest]. cbn in Hr. rewrite length_drop in Hr.
  apply returns_seq; [apply locale_returns|]. intros l. apply returns_ret. split; cbn; [done|lia].
Qed.

Lemma locale_end_ge fuel bytes i j : find_locale_quote_end fuel bytes i = Some j -> (i <= j)%nat.
Proof.
  revert i. induction fuel as [|fuel IH]; intros i; cbn [find_locale_quote_end]; [done|].
  repeat case_match; intros Hj; simplify_eq; try lia; apply IH in Hj; lia.
Qed.

Lemma locale_quote_returns bytes i out : returns (E:=E) (expanded i) (locale_quote bytes i out).
Proof.
  unfold locale_quote. destruct (find_locale_quote_end _ _ _) as [e|] eqn:He.
  - apply locale_end_ge in He. apply returns_seq; [by apply returns_asks|]. intros t.
    apply returns_seq; [by apply returns_asks|]. intros n. destruct n; [apply returns_ret; split; cbn; [done|lia]|].
    eapply returns_seq; [eapply returns_impl; [apply dq_loop_returns; lia|done]|].
    intros r. apply returns_ret. split; cbn; [done|lia].
  - apply handled_returns. eapply returns_impl; [apply dq_loop_returns; lia|]. cbn. intros. lia.
Qed.

Lemma tilde_at_returns bytes i out : returns (E:=E) (fun r => (i <= r.1)%nat) (tilde_at bytes i out).
Proof.
  unfold tilde_at. destruct (_ =? 0)%nat; [by apply returns_ret|].
  apply returns_seq; [apply tilde_returns|]. intros [r|]; apply returns_ret; cbn; lia.
Qed.

Lemma run_step_returns bytes flags awt b st : bytes !! r_i st = Some b ->
  returns (E:=E) (fun st' => (r_i st < r_i st')%nat) (run_step bytes flags awt b st).
Proof.
  intros Hb. pose proof (lookup_lt_Some _ _ _ Hb) as Hi. unfold run_step.
  assert (Ho : forall b out, returns (E:=E) (fun _ => True) (original flags b out)) by (intros; by apply returns_asks).
  destruct (b =? BSL); [|destruct (b =? SQ); [|destruct (b =? dquote); [|destruct (b =? _); [|destruct (b =? _)]]]].
  - unfold step_backslash. repeat case_match; apply returns_ret; cbn; lia.
  - unfold step_single. destruct (in_arith flags); [|destruct (in_quoted flags)].
    + apply returns_seq; [apply Ho|]. intros o. apply returns_ret. cbn. lia.
    + apply returns_ret. cbn. lia.
    + pose proof (scan_single_rest (drop (r_i st + 1) bytes)) as Hr.
      destruct (scan_single_quoted _) as [body rest]. cbn in Hr. rewrite length_drop in Hr.
      apply returns_ret. cbn. lia.
  - unfold step_double. destruct (_ && _); [apply returns_ret; cbn; lia|].
    eapply returns_bind; [apply dq_loop_returns; lia|]. intros r Hr. apply returns_ret. cbn in *. lia.
  - unfold step_dollar.
    assert (Hq : returns (E:=E) (fun r => moved (r_i st) r /\ (r.1.1 = false -> r.1.2 = r_i st))
      (if negb (in_heredoc flags) && in_quoted flags && in_param_word flags
       then dollar_quote_expand bytes (r_i st) (r_out st) else ret (false, r_i st, r_out st))).
    { destruct (_ && _); [|apply returns_ret; split; [by intros ?|done]]. unfold dollar_quote_expand.
      rewrite Hb. destruct (bytes !! (r_i st + 1)%nat) as [n|]; [|apply returns_ret; split; [by intros ?|done]].
      destruct (negb _); [apply returns_ret; split; [by intros ?|done]|].
      destruct (n =? SQ); [|destruct (n =? dquote); [|apply returns_ret; split; [by intros ?|done]]].
      - eapply returns_impl; [by apply ansi_returns|]. intros r [Hr1 Hr2]. split; [by intros _|congruence].
      - eapply returns_impl; [apply locale_quote_returns|]. intros r [Hr1 Hr2]. split; [by intros _|congruence]. }
    eapply returns_bind; [exact Hq|]. intros [[d j] o] [Hm Hf]. destruct d; [apply returns_ret; by apply Hm|].
    cbn in Hf. rewrite (Hf eq_refl). eapply returns_bind.
    { apply dispatch_returns; intros; apply expanded_moved; [by apply ansi_returns|apply locale_quote_returns]. }
    intros [[d j'] o'] Hm'. destruct d.
    + apply returns_seq; [by apply returns_asks|]. intros o2. apply returns_ret. by apply Hm'.
    + apply returns_seq; [destruct (in_heredoc flags); [by apply returns_ret|apply Ho]|]. intros o2. apply returns_ret. cbn. lia.
  - eapply returns_bind; [apply backquote_returns; intros; apply Ho|]. intros r Hr. apply returns_ret. exact Hr.
  - destruct (_ && _ && _).
    { eapply returns_bind; [apply returns_advances, procsub_progress|]. intros r Hr. apply returns_ret. exact Hr. }
    assert (Ht : forall eq, returns (E:=E) (fun st' => (r_i st < r_i st')%nat) (step_tilde_after bytes flags b eq st)).
    { intros eq. unfold step_tilde_after. apply returns_seq; [apply Ho|]. intros o.
      eapply (returns_bind (fun r => (r_i st + 1 <= r.1)%nat)).
      - case_match; [apply tilde_at_returns|by apply returns_ret].
      - intros r Hr. apply returns_ret. cbn. lia. }
    destruct (_ && _ && _); [apply Ht|]. destruct (_ && _); [apply Ht|].
    apply returns_seq; [apply Ho|]. intros o. apply returns_ret. cbn. lia.
Qed.

Lemma run_loop_returns bytes flags awt fuel st : (length bytes - r_i st <= fuel)%nat ->
  returns (E:=E) (fun _ => True) (run_loop bytes flags awt fuel st).
Proof.
  revert st. induction fuel as [|fuel IH]; intros st Hf; cbn [run_loop];
    destruct (bytes !! r_i st) as [b|] eqn:Hb; try (by apply returns_ret).
  - apply lookup_lt_Some in Hb. lia.
  - eapply returns_bind; [by apply run_step_returns|]. intros st' Hs. apply IH. cbn in Hs. lia.
Qed.

(** The walk over a word always ends: no word, context or state of the
    variables makes it run for ever, as long as the constructs it calls end. *)
Theorem run_terminates (wd : Wd) (no_tilde : bool) (c : ExpCtx E) :
  is_fuel (fst (run wd no_tilde c)) = false.
Proof.
  enough (returns (E:=E) (fun _ => True) (run wd no_tilde)) as Hr.
  { specialize (Hr c). by destruct (run wd no_tilde c) as [[]]. }
  unfold run. eapply returns_seq.
  { case_match; [eapply returns_impl; [apply tilde_at_returns|done]|by apply returns_ret]. }
  intros s. apply returns_seq; [by apply returns_asks|]. intros a.
  apply returns_seq; [apply run_loop_returns; lia|]. intros st. by apply returns_ret.
Qed.
End Termination2.

(** * The nesting counter *)

(** A step whose success leaves the nesting counter as it was. *)
Definition restores {E A} (m : M E A) : Prop :=
  forall c, match m c with (Ok _, c') => depth c' = depth c | _ => True end.

Class DepthKept (E : Type) `{CommandRunner E} `{Constructs E} := {
  brace_depth bytes i q out : restores (E:=E) (parameter_brace_expand bytes i q out);
  paren_depth bytes i q out : restores (E:=E) (dollar_paren bytes i q out);
  bracket_depth bytes i q out : restores (E:=E) (dollar_bracket bytes i q out);
  procsub_depth bytes i q out : restores (E:=E) (process_subst_expand bytes i q out);
  scalar_depth name len : restores (E:=E) (read_scalar name len);
  value_depth name q out : restores (E:=E) (push_parameter_value name q out);
  subst_depth src : restores (E:=E) (run_subst src);
  backquote_depth src : restores (E:=E) (run_backquote_subst src);
  input_depth word q : restores (E:=E) (read_input_file word q);
}.

Section Restores.
Context {E : Type} `{Environment E} `{Parameters E} `{Passwd} `{CommandRunner E} `{Constructs E}
  `{!DepthKept E}.

Lemma restores_ret {A} (a : A) : restores (E:=E) (ret a).
Proof. done. Qed.

Lemma restores_fail {A} e : restores (E:=E) (A:=A) (fail e).
Proof. done. Qed.

Lemma restores_asks {A} (f : ExpCtx E -> A) : restores (asks f).
Proof. done. Qed.

Lemma restores_get n : restores (E:=E) (get n).
Proof. intros c. unfold get. by destruct (env_get (env c) n). Qed.

Lemma restores_bind {A B} (m : M E A) (k : A -> M E B) :
  restores m -> (forall a, restores (k a)) -> restores (bind m k).
Proof.
  intros Hm Hk c. specialize (Hm c). unfold bind. destruct (m c) as [[a|e|] c']; [|done..].
  specialize (Hk a c'). destruct (k a c') as [[b|e|] c'']; congruence.
Qed.

Lemma restores_map_err {A} f (m : M E A) : restores m -> restores (map_err f m).
Proof. intros Hm c. specialize (Hm c). unfold map_err. by destruct (m c) as [[]]. Qed.
End Restores.

Ltac restores_tac :=
  repeat first
    [ progress intros
    | apply restores_ret
    | apply restores_fail
    | apply restores_asks
    | apply restores_get
    | apply restores_map_err
    | apply restores_bind
    | solve [eauto with cherub]
    | case_match ].

#[export] Hint Resolve brace_depth paren_depth bracket_depth procsub_depth scalar_depth value_depth
  subst_depth backquote_depth input_depth : cherub.

Section Depth.
Context {E : Type} `{Environment E} `{Parameters E} `{Passwd} `{CommandRunner E} `{Constructs E}
  `{!DepthKept E}.

Lemma special_depth name q out : restores (E:=E) (expand_special name q out).
Proof. unfold expand_special, expand_at_star, special_param, live_ifs. restores_tac. Qed.

Lemma command_depth src q bq cl : restores (E:=E) (command_substitute src q bq cl).
Proof.
  intros c. unfold command_substitute. cbv zeta.
  set (c1 := match cl with Some line => _ | None => c end).
  assert (Hc1 : depth c1 = depth c) by (unfold c1; by repeat case_match). clearbody c1.
  destruct (input_file_substitution_word _) as [w|].
  - pose proof (input_depth w q c1) as Hp. destruct (read_input_file w q c1) as [[] c2]; [|done..].
    case_match; cbn; congruence.
  - assert (Hr : restores (if bq then run_backquote_subst (remove_sub (length src) heredoc_warn_marker src)
                           else run_subst (E:=E) (remove_sub (length src) heredoc_warn_marker src)))
      by (destruct bq; eauto with cherub).
    specialize (Hr c1). destruct bq; [destruct (run_backquote_subst _ c1) as [[] c2]|destruct (run_subst _ c1) as [[] c2]];
      try done; case_match; cbn; congruence.
Qed.

Lemma tilde_depth prefix : restores (E:=E) (try_expand prefix).
Proof. unfold try_expand, collect_dirstack. restores_tac. Qed.

Lemma dispatch_depth ansi locale bytes i q out :
  (forall out, restores (ansi bytes i out)) -> (forall out, restores (locale bytes i out)) ->
  restores (E:=E) (param_dispatch ansi locale bytes i q out).
Proof.
  intros Ha Hl. unfold param_dispatch, handled, expand_name.
  pose proof special_depth. restores_tac.
Qed.

Lemma backquote_expand_depth bytes i dq lone out :
  (forall out, restores (lone out)) -> restores (E:=E) (backquote_expand bytes i dq lone out).
Proof. intros Hl. unfold backquote_expand. pose proof command_depth. restores_tac. Qed.

Lemma dq_loop_depth fuel bytes all i out any : restores (E:=E) (dq_loop fuel bytes all i out any).
Proof.
  revert i out any. induction fuel as [|fuel IH]; intros i out any; cbn [dq_loop]; restores_tac; try done.
  unfold dq_step, param_expand_quoted. restores_tac.
  all: first [apply dispatch_depth | apply backquote_expand_depth]; restores_tac.
Qed.

Lemma ansi_depth bytes i out : restores (E:=E) (ansi_c_quote bytes i out).
Proof. unfold ansi_c_quote, quote_locale. restores_tac. Qed.

Lemma locale_depth bytes i out : restores (E:=E) (locale_quote bytes i out).
Proof.
  unfold locale_quote, handled, scan_double_quoted_into, scan_double_quoted_into_mode.
  pose proof dq_loop_depth. restores_tac.
Qed.

Lemma run_step_depth bytes flags awt b st : restores (E:=E) (run_step bytes flags awt b st).
Proof.
  pose proof ansi_depth. pose proof locale_depth. pose proof dq_loop_depth. pose proof tilde_depth.
  assert (Hp : forall i q out, restores (E:=E) (param_expand bytes i q out))
    by (intros; apply dispatch_depth; auto).
  assert (Hb : forall i out, restores (E:=E) (backquote_expand bytes i false (original flags "`"%b) out))
    by (intros; apply backquote_expand_depth; restores_tac).
  unfold run_step, step_backslash, step_single, step_double, step_dollar, step_backquote, step_tilde_after,
    dollar_quote_expand, scan_double_quoted_into_mode, tilde_at, original.
  restores_tac.
Qed.

Lemma run_depth wd nt : restores (E:=E) (run wd nt).
Proof.
  assert (Hl : forall bytes flags awt fuel st, restores (E:=E) (run_loop bytes flags awt fuel st)).
  { intros bytes flags awt fuel. induction fuel as [|fuel IH]; intros st; cbn [run_loop]; restores_tac; try done.
    apply run_step_depth. }
  pose proof tilde_depth. unfold run, tilde_at. restores_tac.
Qed.

(** A successful expansion of a word leaves the nesting counter where it
    was; beyond 32 levels the expansion fails before it starts. *)
Theorem nesting_balanced (wd : Wd) (no_tilde : bool) (c : ExpCtx E) (Hd : 0 <= depth c < 2 ^ 32 - 1) :
  match expand_word_internal wd no_tilde c with
  | (Ok _, c') => depth c' = depth c /\ depth c < EXPANSION_NESTING_MAX
  | (Err e, c') => depth c < EXPANSION_NESTING_MAX \/ e = SubstitutionRecursive (depth c + 1)
  | (Fuel, _) => True
  end.
Proof.
  unfold expand_word_internal, enter. rewrite Z.min_l by lia.
  replace (depth (with_depth (depth c + 1) c)) with (depth c + 1) by done.
  destruct (Z.ltb_spec EXPANSION_NESTING_MAX (depth c + 1)); [by right|].
  pose proof (run_depth wd no_tilde (with_depth (depth c + 1) c)) as Hr.
  destruct (run wd no_tilde _) as [[w|e|] c']; [|left; lia|done].
  replace (depth (with_depth (depth c + 1) c)) with (depth c + 1) in Hr by done.
  split; [|lia]. unfold leave. rewrite Hr, (proj2 (Z.ltb_lt 0 (depth c + 1))) by lia.
  cbn. lia.
Qed.
End Depth.
