(* ===== verification/TestEnv.v ===== *)
(** A concrete environment to evaluate word expansion in: the hash-map variables
    of the evaluator's tests with positional parameters, and the runner that
    refuses every substitution ([NullRunner] of crates/expander/src/ctx.rs). *)
From S2P Require Import Prelude Env Utf8 Buf Split Quote QuoteProps Expand Internal InternalProps InternalTerm.

Record TestEnv := mkTest { t_vars : MapEnv.t; t_params : list bytes }.

#[global] Instance test_environment : Environment TestEnv := {
  env_get e n := (MapEnv.get (t_vars e) n, e);
  env_get_array_indexed e n i := (MapEnv.get_array_indexed (t_vars e) n i, e);
  env_get_array_assoc e n k := (None, e);
  env_kind e := MapEnv.kind (t_vars e);
  env_attr_nameref e n := false;
  env_resolve_nameref e n := Some n;
  env_is_readonly e n := false;
  env_option e n := false;
  env_assign e n v := (None, mkTest (MapEnv.set (t_vars e) n v) (t_params e));
  env_set_array_indexed e n i v := mkTest (MapEnv.set_array_indexed (t_vars e) n i v) (t_params e);
  env_set_array_assoc e n k v := e;
}.

#[global] Instance test_parameters : Parameters TestEnv := {
  env_positional e i := (bs "cherubsh" :: t_params e) !! i;
  env_positional_count e := length (t_params e);
  env_last_status e := 0;
  env_shell_pid e := 1;
  env_last_async_pid e := None;
  env_get_array e n := None;
}.

#[global] Instance test_passwd : Passwd := { current_user_home := None; lookup_user _ := None }.

Definition unavailable {A} : M TestEnv A :=
  fail (Other (bs "command substitution unavailable in this context")).

#[global] Instance NullRunner : CommandRunner TestEnv := {
  run_subst _ := unavailable;
  run_backquote_subst _ := unavailable;
  read_input_file _ _ := unavailable;
  push_diagnostic_line e _ := e;
  pop_diagnostic_line e := e;
}.

#[global] Instance test_constructs : Constructs TestEnv := {
  parameter_brace_expand _ _ _ _ := unavailable;
  dollar_paren _ _ _ _ := unavailable;
  dollar_bracket _ _ _ _ := unavailable;
  process_subst_expand _ _ _ _ := unavailable;
  read_scalar _ _ := unavailable;
  push_parameter_value _ _ _ := unavailable;
  gettext_translation _ s := s;
  compat_version := None;
}.

#[global] Instance test_progress : Progress TestEnv.
Proof. by constructor. Qed.

#[global] Instance test_depth : DepthKept TestEnv.
Proof. by constructor. Qed.

Definition test_ctx (ifs : option bytes) (params : list bytes) : ExpCtx TestEnv :=
  mkCtx (mkTest MapEnv.empty params) (from_env ifs) 0 0 false false false true false false 0 [].

(** The content of the buffer a word expands to. *)
Definition content (r : Res ExpandError Wd * ExpCtx TestEnv) : option bytes :=
  match r with (Ok w, _) => Some (dequote_bytes (buf_bytes (wd_buf w))) | _ => None end.

Example tests_words :
  content (run (from_bytes_with_flags (bs "a'b c'\d") 0) false (test_ctx None [])) = Some (bs "ab cd")
  /\ content (run (from_bytes_with_flags (bs "$2$#") 0) false (test_ctx None [bs "x"; bs "y"])) = Some (bs "y2")
  /\ content (run (from_bytes_with_flags (bs "$'\x41\u42'") 0) false (test_ctx None [])) = Some (bs "AB")
  /\ content (run (from_bytes_with_flags (bs "`date`") 0) false (test_ctx None [])) = None
  /\ content (run (from_bytes_with_flags (bs "`") 0) false (test_ctx None [])) = Some (bs "`").
Proof. vm_compute. repeat split. Qed.

Lemma run_terminates_witness :
  is_fuel (fst (run (from_bytes_with_flags (bs "~/'a'$x`") 0) false (test_ctx None []))) = false.
Proof. exact (run_terminates _ _ _). Defined.

Lemma nesting_balanced_witness :
  match expand_word_internal (from_bytes_with_flags (bs "$1") 0) false (test_ctx None [bs "v"]) with
  | (Ok _, c') => depth c' = 0 /\ 0 < EXPANSION_NESTING_MAX
  | _ => False
  end.
Proof. exact (nesting_balanced (from_bytes_with_flags (bs "$1") 0) false (test_ctx None [bs "v"]) ltac:(cbn; lia)). Defined.

Lemma transforms_read_back_witness :
  expands_to (shell_quote_shell_string (bs "a'$b")) (bs "a'$b") 0 false (test_ctx None [])
  /\ expands_to (array_element_quote (bs "a'$b")) (bs "a'$b") 0 false (test_ctx None []).
Proof.
  apply (transforms_read_back (bs "a'$b") (bs "a'$b") 0 false (test_ctx None [])); [reflexivity| |repeat split].
  change (value_bytes (bs "a'$b")) with (bs "a'$b"). eval_bs. forall_list; unfold nz_byte; lia.
Defined.
