(* ===== verification/Brace.v ===== *)
(** Brace expansion (crates/expander/src/brace.rs): alternatives [{a,b}] and
    sequences [{x..y..step}], with the quoting and nesting rules of the scan. *)
From S2P Require Import Prelude.

(** * Scanning past quotes *)

Definition squote : Z := 39.
Definition backslash : Z := 92.
Definition backquote : Z := 96.

(** From [i], the position after the closing [q]; [esc]: a backslash protects
    the next byte. *)
Fixpoint until_close (fuel : nat) (w : bytes) (i : nat) (q : Z) (esc : bool) : nat :=
  match fuel with
  | O => i
  | S fuel =>
      match w !! i with
      | None => i
      | Some c =>
          if c =? q then S i
          else if esc && (c =? backslash) && (i + 1 <? length w)%nat then until_close fuel w (i + 2) q esc
          else until_close fuel w (S i) q esc
      end
  end.

(** The quoted part that starts at [i], if one does: an escaped byte, ['..']
    or ["..."]; the result is the position after it. *)
Definition quoted_end (w : bytes) (i : nat) : option nat :=
  match w !! i with
  | None => None
  | Some b =>
      if (b =? backslash) && (i + 1 <? length w)%nat then Some (i + 2)%nat
      else if b =? squote then Some (until_close (length w) w (S i) squote false)
      else if b =? dquote then Some (until_close (length w) w (S i) dquote true)
      else None
  end.

(** The loop of [skip_balanced] from [i]. *)
Fixpoint balanced_loop (fuel : nat) (w : bytes) (i : nat) (depth : nat) (open close : Z) : nat :=
  match fuel with
  | O => i
  | S fuel =>
      match w !! i, depth with
      | None, _ | _, O => i
      | Some c, S d =>
          match quoted_end w i with
          | Some e => balanced_loop fuel w e depth open close
          | None =>
              balanced_loop fuel w (S i)
                (if c =? open then S depth else if c =? close then d else depth) open close
          end
      end
  end.

Definition skip_balanced (w : bytes) (start : nat) (open close : Z) : nat :=
  match w !! start with
  | Some c => if c =? open then balanced_loop (length w) w (S start) 1 open close else S start
  | None => S start
  end.

(** * Sequences *)

Definition wrap32 (z : Z) : Z := (z + 2 ^ 31) mod 2 ^ 32 - 2 ^ 31.

Fixpoint find_dotdot_loop (fuel : nat) (body : bytes) (i : nat) (depth : Z) : option nat :=
  match fuel with
  | O => None
  | S fuel =>
      match body !! i, body !! S i with
      | Some b, Some c =>
          if b =? backslash then find_dotdot_loop fuel body (i + 2) depth
          else if b =? "{"%b then find_dotdot_loop fuel body (S i) (depth + 1)
          else if b =? "}"%b then find_dotdot_loop fuel body (S i) (depth - 1)
          else if (depth =? 0) && (b =? "."%b) && (c =? "."%b) then Some i
          else find_dotdot_loop fuel body (S i) depth
      | _, _ => None
      end
  end.

Definition find_dotdot (body : bytes) : option nat := find_dotdot_loop (length body) body 0 0.

(** The value of a number and whether it has leading zeros.  The text of a
    number is ASCII, so validity as UTF-8 asks nothing more. *)
Definition parse_seq_num (s : bytes) : option (Z * bool) :=
  let trimmed := trim s in
  let digits := match trimmed with "-"%b :: r => r | _ => trimmed end in
  match digits with
  | [] => None
  | d :: _ =>
      match parse_i64 trimmed with
      | Some n => Some (n, (1 <? length digits)%nat && (d =? "0"%b))
      | None => None
      end
  end.

Definition num_width (s : bytes) : nat :=
  match s with
  | "-"%b :: r => length r
  | _ => length s
  end.

Definition compute_width (start end_ : bytes) (start_pad end_pad : bool) : nat :=
  if negb start_pad && negb end_pad then 0%nat else Nat.max (num_width start) (num_width end_).

(** [i64::abs] of the release build, which wraps. *)
Definition abs64 (z : Z) : Z := wrap64 (Z.abs z).

(** [format!("{:0width$}", n)]: zeros after the sign. *)
Definition zero_pad (width : nat) (n : Z) : bytes :=
  let digits := i64_to_string (Z.abs n) in
  if n <? 0 then "-"%b :: replicate (width - 1 - length digits) "0"%b ++ digits
  else replicate (width - length digits) "0"%b ++ digits.

Definition format_num (width : nat) (cur : Z) : bytes :=
  if (0 <? width)%nat then
    let s := zero_pad width (abs64 cur) in
    if cur <? 0 then "-"%b :: s else s
  else i64_to_string cur.

Definition MAX_SEQ : Z := 1000000.

(** The step of a sequence: a missing or zero step is 1. *)
Definition raw_step_of (step_part : option bytes) : option Z :=
  match step_part with
  | Some part =>
      match parse_seq_num part with
      | Some (n, _) => Some (if n =? 0 then 1 else n)
      | None => None
      end
  | None => Some 1
  end.

(** The numeric loop: [n] elements are already in [out]; [None] when the next
    element overflows or the list grows beyond [MAX_SEQ]. *)
Fixpoint num_loop (fuel : nat) (width : nat) (cur end_val abs_step : Z) (going_up : bool) (n : Z)
    : option (list bytes) :=
  match fuel with
  | O => None
  | S fuel =>
      let s := format_num width cur in
      let next := if going_up then cur + abs_step else cur - abs_step in
      if going_up && (wrapping_sub end_val abs_step <? cur) && (end_val <=? cur) then Some [s]
      else if negb going_up && (cur <? wrapping_add end_val abs_step) && (cur <=? end_val) then Some [s]
      else if negb (in_i64b next) then None
      else if (if going_up then end_val <? next else next <? end_val) then Some [s]
      else if MAX_SEQ <? n + 1 then None
      else cons s <$> num_loop fuel width next end_val abs_step going_up (n + 1)
  end.

(** The alphabetic loop, on [i32]. *)
Fixpoint alpha_loop (fuel : nat) (cur e abs_step : Z) (going_up : bool) (n : Z) : option (list bytes) :=
  match fuel with
  | O => None
  | S fuel =>
      let s := if cur =? backslash then [] else [cur mod 256] in
      if (if going_up then e <=? cur else cur <=? e) then Some [s]
      else
        let next := wrap32 (if going_up then cur + abs_step else cur - abs_step) in
        if (if going_up then e <? next else next <? e) then Some [s]
        else if MAX_SEQ <? n + 1 then None
        else cons s <$> alpha_loop fuel next e abs_step going_up (n + 1)
  end.

(** At most [MAX_SEQ] + 1 rounds. *)
Definition seq_fuel : nat := Z.to_nat (MAX_SEQ + 2).

(** The parts of [start..end] or [start..end..step]. *)
Definition seq_parts (body : bytes) : option (bytes * bytes * option bytes) :=
  match find_dotdot body with
  | None => None
  | Some dd =>
      let start_part := take dd body in
      let after := drop (dd + 2) body in
      let '(end_part, step_part) :=
        match find_dotdot after with
        | Some p => (take p after, Some (drop (p + 2) after))
        | None => (after, None)
        end in
      if is_nil start_part || is_nil end_part then None else Some (start_part, end_part, step_part)
  end.

Definition is_letter (s : bytes) : option Z :=
  match s with [b] => if is_ascii_alphabetic b then Some b else None | _ => None end.

Definition expand_sequence (body : bytes) : option (list bytes) :=
  match seq_parts body with
  | None => None
  | Some (start_part, end_part, step_part) =>
      match parse_seq_num start_part, parse_seq_num end_part with
      | Some (start, start_pad), Some (end_, end_pad) =>
          match raw_step_of step_part with
          | None => None
          | Some raw_step =>
              num_loop seq_fuel (compute_width start_part end_part start_pad end_pad) start end_
                (wrap64 (Z.abs raw_step)) (start <=? end_) 0
          end
      | _, _ =>
          match is_letter start_part, is_letter end_part with
          | Some s, Some e =>
              match raw_step_of step_part with
              | None => None
              | Some raw_step => alpha_loop seq_fuel s e (wrap32 (Z.abs raw_step)) (s <=? e) 0
              end
          | _, _ => None
          end
      end
  end.

(** * Alternatives *)

Fixpoint split_loop (fuel : nat) (body : bytes) (i : nat) (depth : Z) (out : list bytes) (cur : bytes)
    : list bytes :=
  match fuel with
  | O => out ++ [cur]
  | S fuel =>
      match body !! i with
      | None => out ++ [cur]
      | Some b =>
          match quoted_end body i with
          | Some e => split_loop fuel body e depth out (cur ++ slice body i e)
          | None =>
              if b =? "{"%b then split_loop fuel body (S i) (depth + 1) out (cur ++ [b])
              else if b =? "}"%b then split_loop fuel body (S i) (depth - 1) out (cur ++ [b])
              else if (b =? ","%b) && (depth =? 0) then split_loop fuel body (S i) depth (out ++ [cur]) []
              else split_loop fuel body (S i) depth out (cur ++ [b])
          end
      end
  end.

Definition top_level_split (body : bytes) : list bytes := split_loop (length body) body 0 0 [] [].

Definition is_expandable_body (body : bytes) : bool :=
  match expand_sequence body with
  | Some _ => true
  | None => (2 <=? length (top_level_split body))%nat
  end.

(** The closing brace of the one opened before [j]. *)
Fixpoint close_loop (fuel : nat) (w : bytes) (j : nat) (depth : nat) : option nat :=
  match fuel with
  | O => None
  | S fuel =>
      match w !! j with
      | None => None
      | Some c =>
          match quoted_end w j with
          | Some e => close_loop fuel w e depth
          | None =>
              if c =? "{"%b then close_loop fuel w (S j) (S depth)
              else if c =? "}"%b then
                match depth with
                | S O | O => Some j
                | S d => close_loop fuel w (S j) d
                end
              else close_loop fuel w (S j) depth
          end
      end
  end.

(** Constructs in which braces mean something else: quotes, [${..}], [$(..)]
    and [`..`]. *)
Definition opaque_end (w : bytes) (i : nat) : option nat :=
  match quoted_end w i with
  | Some e => Some e
  | None =>
      match w !! i, w !! S i with
      | Some b, n =>
          if (b =? "$"%b) && bool_decide (n = Some "{"%b) then Some (skip_balanced w (S i) "{"%b "}"%b)
          else if (b =? "$"%b) && bool_decide (n = Some "("%b) then Some (skip_balanced w (S i) "("%b ")"%b)
          else if b =? backquote then Some (until_close (length w) w (S i) backquote true)
          else None
      | None, _ => None
      end
  end.

Fixpoint brace_loop (fuel : nat) (w : bytes) (i : nat) : option (bytes * bytes * bytes) :=
  match fuel with
  | O => None
  | S fuel =>
      match w !! i with
      | None => None
      | Some b =>
          match opaque_end w i with
          | Some e => brace_loop fuel w e
          | None =>
              if b =? "{"%b then
                match close_loop (length w) w (S i) 1 with
                | Some j =>
                    let body := slice w (S i) j in
                    if is_expandable_body body then Some (take i w, body, drop (S j) w)
                    else brace_loop fuel w (S i)
                | None => brace_loop fuel w (S i)
                end
              else brace_loop fuel w (S i)
          end
      end
  end.

Definition find_top_brace (w : bytes) : option (bytes * bytes * bytes) := brace_loop (length w) w 0.

(** * Expansion *)

(** [prefix], each piece, each tail, in this order. *)
Definition combine_all (prefix : bytes) (pieces tails : list bytes) : list bytes :=
  concat (map (fun piece => map (fun tail => prefix ++ piece ++ tail) tails) pieces).

Fixpoint brace_expand_fuel (fuel : nat) (w : bytes) : list bytes :=
  match fuel with
  | O => [w]
  | S fuel =>
      match find_top_brace w with
      | None => [w]
      | Some (prefix, body, suffix) =>
          let tails := brace_expand_fuel fuel suffix in
          match expand_sequence body with
          | Some pieces => combine_all prefix pieces tails
          | None =>
              combine_all prefix (concat (map (brace_expand_fuel fuel) (top_level_split body))) tails
          end
      end
  end.

(** The suffix and the alternatives are shorter than the word. *)
Definition brace_expand (w : bytes) : list bytes := brace_expand_fuel (S (length w)) w.

(** * The unit tests of brace.rs *)

Definition be (s : string) : list bytes := brace_expand (bs s).

Example tests_lists :
  be "abc" = [bs "abc"] /\ be "a{b,c,d}e" = [bs "abe"; bs "ace"; bs "ade"]
  /\ be "a{b,{c,d}}" = [bs "ab"; bs "ac"; bs "ad"] /\ be "a-{b{d,e}}-c" = [bs "a-{bd}-c"; bs "a-{be}-c"]
  /\ be "{a,b}{1,2}" = [bs "a1"; bs "a2"; bs "b1"; bs "b2"] /\ be "{abc}" = [bs "{abc}"].
Proof. vm_compute. repeat split. Qed.

Example tests_sequences :
  be "{1..5}" = [bs "1"; bs "2"; bs "3"; bs "4"; bs "5"]
  /\ be "{10..1..2}" = [bs "10"; bs "8"; bs "6"; bs "4"; bs "2"]
  /\ be "{-1..-10..2}" = [bs "-1"; bs "-3"; bs "-5"; bs "-7"; bs "-9"]
  /\ be "{2..5..0}" = [bs "2"; bs "3"; bs "4"; bs "5"]
  /\ be "{Z..a}" = [bs "Z"; bs "["; []; bs "]"; bs "^"; bs "_"; bs "`"; bs "a"]
  /\ be "{1..f}" = [bs "{1..f}"] /\ be "{1..20..2f}" = [bs "{1..20..2f}"]
  /\ be "{01..05}" = [bs "01"; bs "02"; bs "03"; bs "04"; bs "05"].
Proof. vm_compute. repeat split. Qed.
