(* ===== verification/BraceProps.v ===== *)
(** Properties of brace expansion: every scan has enough fuel, the pieces of a
    word are cut without loss, plain alternatives and numeric sequences give
    exactly their elements, and the behaviour of sequences next to the
    greatest integer. *)
From stdpp Require Import sets.
From S2P Require Import Prelude Brace.

(** * Progress of the scans *)

Lemma until_close_ge fuel w i q esc : (i <= until_close fuel w i q esc)%nat.
Proof.
  revert i. induction fuel as [|fuel IH]; intros i; simpl; [done|]. destruct (w !! i); [|done].
  destruct (_ =? q); [lia|]. destruct (_ && _); [specialize (IH (i + 2)%nat)|specialize (IH (S i))]; lia.
Qed.

Lemma until_close_le fuel w i q esc : (i <= length w)%nat -> (until_close fuel w i q esc <= length w)%nat.
Proof.
  revert i. induction fuel as [|fuel IH]; intros i Hi; simpl; [done|]. destruct (w !! i) eqn:Hc; [|done].
  apply lookup_lt_Some in Hc. destruct (_ =? q); [lia|]. destruct (_ && _) eqn:H; apply IH; [|lia].
  apply andb_true_iff in H as [_ H%Nat.ltb_lt]. lia.
Qed.

Lemma quoted_end_bounds w i e : quoted_end w i = Some e -> (i < e <= length w)%nat.
Proof.
  unfold quoted_end. destruct (w !! i) eqn:Hc; [|done]. apply lookup_lt_Some in Hc.
  destruct (_ && _) eqn:H; [apply andb_true_iff in H as [_ H%Nat.ltb_lt]; intros [= <-]; lia|].
  destruct (_ =? squote); [|destruct (_ =? dquote); [|done]]; intros [= <-].
  all: split; [apply (Nat.lt_le_trans _ (S i)); [lia|apply until_close_ge]|apply until_close_le; lia].
Qed.

Lemma balanced_loop_ge fuel w i d o c : (i <= balanced_loop fuel w i d o c)%nat.
Proof.
  revert i d. induction fuel as [|fuel IH]; intros i d; simpl; [done|]. destruct (w !! i); [|done].
  destruct d as [|d]; [done|]. destruct (quoted_end w i) as [e|] eqn:Hq.
  - apply quoted_end_bounds in Hq. specialize (IH e (S d)). lia.
  - etransitivity; [|apply IH]. lia.
Qed.

Lemma opaque_end_gt w i e : opaque_end w i = Some e -> (i < e)%nat.
Proof.
  unfold opaque_end. destruct (quoted_end w i) as [e'|] eqn:Hq.
  - intros [= <-]. apply quoted_end_bounds in Hq. lia.
  - destruct (w !! i); [|done]. unfold skip_balanced.
    destruct (_ && _); [|destruct (_ && _); [|destruct (_ =? backquote); [|done]]]; intros [= <-].
    1, 2: destruct (w !! S i); [case_match|]; try lia;
      apply (Nat.lt_le_trans _ (S (S i))); [lia|apply balanced_loop_ge].
    apply (Nat.lt_le_trans _ (S i)); [lia|apply until_close_ge].
Qed.

(** * The fuel of each scan is enough *)

Lemma until_close_fuel f1 f2 w i q esc :
  (length w - i <= f1)%nat -> (length w - i <= f2)%nat ->
  until_close f1 w i q esc = until_close f2 w i q esc.
Proof.
  revert f2 i. induction f1 as [|f1 IH]; intros f2 i H1 H2.
  - destruct f2; [done|]. simpl. by rewrite (proj2 (lookup_ge_None w i)) by lia.
  - simpl. destruct (w !! i) as [c|] eqn:Hc.
    + apply lookup_lt_Some in Hc as Hlt. destruct f2 as [|f2]; [lia|]. simpl. rewrite Hc.
      destruct (c =? q); [done|]. destruct (_ && _); apply IH; lia.
    + destruct f2; simpl; by rewrite ?Hc.
Qed.

Lemma close_loop_fuel f1 f2 w j d :
  (length w - j < f1)%nat -> (length w - j < f2)%nat -> close_loop f1 w j d = close_loop f2 w j d.
Proof.
  revert f2 j d. induction f1 as [|f1 IH]; intros f2 j d H1 H2; [lia|].
  destruct f2 as [|f2]; [lia|]. cbn [close_loop]. destruct (w !! j) as [c|] eqn:Hc; [|done].
  apply lookup_lt_Some in Hc. destruct (quoted_end w j) as [e|] eqn:Hq.
  { apply quoted_end_bounds in Hq. apply IH; lia. }
  destruct (c =? "{"%b); [apply IH; lia|]. destruct (c =? "}"%b); [|apply IH; lia].
  destruct d as [|[|d]]; [done|done|]. apply IH; lia.
Qed.

Lemma split_loop_fuel f1 f2 b i d out cur :
  (length b - i <= f1)%nat -> (length b - i <= f2)%nat ->
  split_loop f1 b i d out cur = split_loop f2 b i d out cur.
Proof.
  revert f2 i d out cur. induction f1 as [|f1 IH]; intros f2 i d out cur H1 H2.
  - destruct f2; [done|]. simpl. by rewrite (proj2 (lookup_ge_None b i)) by lia.
  - cbn [split_loop]. destruct (b !! i) as [c|] eqn:Hc.
    + apply lookup_lt_Some in Hc as Hlt. destruct f2 as [|f2]; [lia|]. cbn [split_loop]. rewrite Hc.
      destruct (quoted_end b i) as [e|] eqn:Hq; [apply quoted_end_bounds in Hq; apply IH; lia|].
      repeat case_match; apply IH; lia.
    + destruct f2; simpl; by rewrite ?Hc.
Qed.

Lemma brace_loop_fuel f1 f2 w i :
  (length w - i <= f1)%nat -> (length w - i <= f2)%nat -> brace_loop f1 w i = brace_loop f2 w i.
Proof.
  revert f2 i. induction f1 as [|f1 IH]; intros f2 i H1 H2.
  - destruct f2; [done|]. cbn [brace_loop]. by rewrite (proj2 (lookup_ge_None w i)) by lia.
  - cbn [brace_loop]. destruct (w !! i) as [c|] eqn:Hc.
    + apply lookup_lt_Some in Hc as Hlt. destruct f2 as [|f2]; [lia|]. cbn [brace_loop]. rewrite Hc.
      destruct (opaque_end w i) as [e|] eqn:Hq; [apply opaque_end_gt in Hq; apply IH; lia|].
      destruct (c =? "{"%b); [|apply IH; lia]. destruct (close_loop _ _ _ _) as [j|]; [|apply IH; lia].
      destruct (is_expandable_body _); [done|]. apply IH; lia.
    + destruct f2; cbn [brace_loop]; by rewrite ?Hc.
Qed.

(** * Cutting without loss *)

Fixpoint join (sep : bytes) (l : list bytes) : bytes :=
  match l with
  | [] => []
  | [x] => x
  | x :: l => x ++ sep ++ join sep l
  end.

Lemma join_snoc sep l x y : join sep (l ++ [x ++ y]) = join sep (l ++ [x]) ++ y.
Proof.
  induction l as [|z l IH]; simpl; [done|]. destruct l as [|z2 l]; simpl in *.
  - by rewrite !app_assoc.
  - rewrite IH. by rewrite !app_assoc.
Qed.

Lemma join_snoc_nil sep l x : join sep ((l ++ [x]) ++ [[]]) = join sep (l ++ [x]) ++ sep.
Proof.
  induction l as [|z l IH]; simpl; [by rewrite app_nil_r|].
  destruct (l ++ [x]) as [|a l'] eqn:Hl; [by destruct l|]. simpl in *. rewrite IH. by rewrite !app_assoc.
Qed.

Lemma take_slice (b : bytes) i e : (i <= e)%nat -> take e b = take i b ++ slice b i e.
Proof.
  intros H. unfold slice. rewrite <- (take_drop i (take e b)) at 1.
  rewrite take_take, Nat.min_l by lia. f_equal. rewrite skipn_firstn_comm. done.
Qed.

Lemma split_loop_join fuel b i d out cur :
  (length b - i <= fuel)%nat -> join [","%b] (out ++ [cur]) = take i b ->
  join [","%b] (split_loop fuel b i d out cur) = b.
Proof.
  revert i d out cur. induction fuel as [|fuel IH]; intros i d out cur Hf Hj; cbn [split_loop].
  - rewrite Hj. apply firstn_all2. lia.
  - destruct (b !! i) as [c|] eqn:Hc; [|rewrite Hj; apply firstn_all2; by apply lookup_ge_None].
    apply lookup_lt_Some in Hc as Hlt.
    assert (Hone : take (S i) b = take i b ++ [c]) by (by apply take_S_r).
    destruct (quoted_end b i) as [e|] eqn:Hq.
    + apply quoted_end_bounds in Hq. apply IH; [lia|].
      rewrite join_snoc, Hj. symmetry. apply take_slice. lia.
    + destruct (c =? "{"%b); [|destruct (c =? "}"%b)].
      1, 2: apply IH; [lia|]; by rewrite join_snoc, Hj, Hone.
      destruct ((c =? ","%b) && (d =? 0)) eqn:Hcomma; apply IH; try lia.
      * apply andb_true_iff in Hcomma as [->%Z.eqb_eq _]. by rewrite join_snoc_nil, Hj, Hone.
      * by rewrite join_snoc, Hj, Hone.
Qed.

Lemma top_level_split_join body : join [","%b] (top_level_split body) = body.
Proof. apply split_loop_join; [lia|done]. Qed.

Lemma close_loop_close fuel w j d k :
  close_loop fuel w j d = Some k -> (j <= k)%nat /\ w !! k = Some "}"%b.
Proof.
  revert j d. induction fuel as [|fuel IH]; intros j d; cbn [close_loop]; [done|].
  destruct (w !! j) as [c|] eqn:Hc; [|done]. destruct (quoted_end w j) as [e|] eqn:Hq.
  { apply quoted_end_bounds in Hq. intros [? ?]%IH. split; [lia|done]. }
  destruct (c =? "{"%b). { intros [? ?]%IH. split; [lia|done]. }
  destruct (c =? "}"%b) eqn:Hcl.
  - apply Z.eqb_eq in Hcl. subst c.
    destruct d as [|[|d]]; [by intros [= <-]|by intros [= <-]|]. intros [? ?]%IH. split; [lia|done].
  - intros [? ?]%IH. split; [lia|done].
Qed.

Lemma brace_loop_parts fuel w i p b s :
  brace_loop fuel w i = Some (p, b, s) -> w = p ++ "{"%b :: b ++ "}"%b :: s /\ is_expandable_body b = true.
Proof.
  revert i. induction fuel as [|fuel IH]; intros i; cbn [brace_loop]; [done|].
  destruct (w !! i) as [c|] eqn:Hc; [|done]. destruct (opaque_end w i); [apply IH|].
  destruct (c =? "{"%b) eqn:Ho; [|apply IH]. apply Z.eqb_eq in Ho. subst c.
  destruct (close_loop (length w) w (S i) 1) as [j|] eqn:Hj; [|apply IH].
  destruct (is_expandable_body (slice w (S i) j)) eqn:He; [|apply IH]. intros [= <- <- <-]. split; [|done].
  apply close_loop_close in Hj as [Hle Hcl].
  rewrite <- (take_drop i w) at 1. f_equal. rewrite (drop_S w _ i Hc). f_equal.
  rewrite <- (take_drop (j - S i) (drop (S i) w)). unfold slice. f_equal.
  rewrite drop_drop. replace (S i + (j - S i))%nat with j by lia. apply drop_S, Hcl.
Qed.

Lemma join_piece_length sep l x : x ∈ l -> (length x <= length (join sep l))%nat.
Proof.
  induction l as [|y l IH]; [set_solver|]. intros [->|Hx]%elem_of_cons.
  - destruct l; simpl; rewrite ?length_app; lia.
  - specialize (IH Hx). destruct l as [|z l]; [set_solver|].
    change (join sep (y :: z :: l)) with (y ++ sep ++ join sep (z :: l)). rewrite !length_app. lia.
Qed.

Lemma brace_expand_fuel_eq f1 f2 w :
  (length w < f1)%nat -> (length w < f2)%nat -> brace_expand_fuel f1 w = brace_expand_fuel f2 w.
Proof.
  revert f2 w. induction f1 as [|f1 IH]; intros f2 w H1 H2; [lia|]. destruct f2 as [|f2]; [lia|].
  cbn [brace_expand_fuel]. destruct (find_top_brace w) as [[[p b] s]|] eqn:Hf; [|done].
  apply brace_loop_parts in Hf as [-> _]. rewrite !length_app in *. simpl in *. rewrite !length_app in *. simpl in *.
  rewrite (IH f2 s) by lia. destruct (expand_sequence b); [done|]. do 2 f_equal. apply map_ext_in.
  intros x Hx%list_elem_of_In. apply (join_piece_length [","%b]) in Hx. rewrite top_level_split_join in Hx.
  apply IH; lia.
Qed.

(** The equation of the recursive function. *)
Lemma brace_expand_eq w :
  brace_expand w
  = match find_top_brace w with
    | None => [w]
    | Some (prefix, body, suffix) =>
        combine_all prefix
          (match expand_sequence body with
           | Some pieces => pieces
           | None => concat (map brace_expand (top_level_split body))
           end) (brace_expand suffix)
    end.
Proof.
  unfold brace_expand at 1. cbn [brace_expand_fuel].
  destruct (find_top_brace w) as [[[p b] s]|] eqn:Hf; [|done].
  apply brace_loop_parts in Hf as [-> _]. rewrite !length_app. simpl. rewrite !length_app. simpl.
  unfold brace_expand. rewrite (brace_expand_fuel_eq _ (S (length s)) s) by lia.
  destruct (expand_sequence b); [done|]. do 2 f_equal. apply map_ext_in.
  intros x Hx%list_elem_of_In. apply (join_piece_length [","%b]) in Hx. rewrite top_level_split_join in Hx.
  apply brace_expand_fuel_eq; lia.
Qed.

(** * Plain text *)

(** Bytes with no meaning to the scan. *)
Definition plain_byte (b : Z) : bool :=
  negb (existsb (Z.eqb b) [backslash; squote; dquote; backquote; "$"%b; "{"%b; "}"%b; ","%b]).
Definition plain (w : bytes) : bool := forallb plain_byte w.

(** A property of plain bytes by computation on the excluded ones. *)
Lemma plain_byte_neq b c :
  plain_byte b = true ->
  existsb (Z.eqb c) [backslash; squote; dquote; backquote; "$"%b; "{"%b; "}"%b; ","%b] = true ->
  (b =? c) = false.
Proof.
  intros Hb Hc. apply Z.eqb_neq. intros ->. unfold plain_byte in Hb. by rewrite Hc in Hb.
Qed.

Lemma quoted_end_other w i b :
  w !! i = Some b -> (b =? backslash) = false -> (b =? squote) = false -> (b =? dquote) = false ->
  quoted_end w i = None.
Proof. intros Hw H1 H2 H3. unfold quoted_end. by rewrite Hw, H1, H2, H3. Qed.

Lemma quoted_end_plain w i b : w !! i = Some b -> plain_byte b = true -> quoted_end w i = None.
Proof. intros Hw Hb. apply (quoted_end_other w i b); [done|by apply plain_byte_neq..]. Qed.

Lemma opaque_end_plain w i b : w !! i = Some b -> plain_byte b = true -> opaque_end w i = None.
Proof.
  intros Hw Hb. unfold opaque_end. rewrite (quoted_end_plain w i b Hw Hb), Hw.
  by rewrite !(plain_byte_neq b _ Hb).
Qed.

Lemma lookup_mid (pre rest : bytes) b : (pre ++ b :: rest) !! length pre = Some b.
Proof. by rewrite lookup_app_r, Nat.sub_diag. Qed.

(** Moving the scans over plain text. *)
Lemma brace_loop_plain p pre rest fuel :
  plain p = true ->
  brace_loop (length p + fuel) (pre ++ p ++ rest) (length pre)
  = brace_loop fuel (pre ++ p ++ rest) (length pre + length p).
Proof.
  revert pre. induction p as [|b p IH]; intros pre Hp; simpl in *; [by rewrite Nat.add_0_r|].
  apply andb_true_iff in Hp as [Hb Hp].
  rewrite lookup_mid, (opaque_end_plain _ _ b) by (done || apply lookup_mid).
  rewrite (plain_byte_neq b _ Hb) by done.
  specialize (IH (pre ++ [b]) Hp). rewrite length_app in IH. simpl in IH. rewrite <- app_assoc in IH. simpl in IH.
  replace (S (length pre)) with (length pre + 1)%nat by lia. rewrite IH. f_equal. lia.
Qed.

(** Text without braces or quotes. *)
Definition flat_byte (b : Z) : bool := plain_byte b || (b =? ","%b).

Lemma flat_byte_neq b c :
  flat_byte b = true -> existsb (Z.eqb c) [backslash; squote; dquote; "{"%b; "}"%b] = true ->
  (b =? c) = false.
Proof.
  intros Hb Hc. apply Z.eqb_neq. intros ->. unfold flat_byte, plain_byte in Hb.
  apply existsb_exists in Hc as (x & Hx & ->%Z.eqb_eq). simpl in Hx.
  destruct Hx as [<-|[<-|[<-|[<-|[<-|[]]]]]]; discriminate.
Qed.

Lemma close_loop_flat p pre rest fuel d :
  forallb flat_byte p = true ->
  close_loop (length p + fuel) (pre ++ p ++ rest) (length pre) d
  = close_loop fuel (pre ++ p ++ rest) (length pre + length p) d.
Proof.
  revert pre. induction p as [|b p IH]; intros pre Hp; simpl in *; [by rewrite Nat.add_0_r|].
  apply andb_true_iff in Hp as [Hb Hp].
  rewrite lookup_mid, (quoted_end_other _ _ b) by (apply lookup_mid || by apply flat_byte_neq).
  rewrite !(flat_byte_neq b _ Hb) by done.
  specialize (IH (pre ++ [b]) Hp). rewrite length_app in IH. simpl in IH. rewrite <- app_assoc in IH. simpl in IH.
  replace (S (length pre)) with (length pre + 1)%nat by lia. rewrite IH. f_equal. lia.
Qed.

Lemma split_loop_plain p pre rest fuel out cur :
  plain p = true ->
  split_loop (length p + fuel) (pre ++ p ++ rest) (length pre) 0 out cur
  = split_loop fuel (pre ++ p ++ rest) (length pre + length p) 0 out (cur ++ p).
Proof.
  revert pre cur. induction p as [|b p IH]; intros pre cur Hp; simpl in *; [by rewrite Nat.add_0_r, app_nil_r|].
  apply andb_true_iff in Hp as [Hb Hp].
  rewrite lookup_mid, (quoted_end_plain _ _ b) by (apply lookup_mid || done).
  rewrite !(plain_byte_neq b _ Hb) by done.
  specialize (IH (pre ++ [b]) (cur ++ [b]) Hp). rewrite length_app in IH. simpl in IH.
  rewrite <- !app_assoc in IH. simpl in IH.
  replace (S (length pre)) with (length pre + 1)%nat by lia. cbn [andb]. rewrite IH. f_equal. lia.
Qed.

Lemma brace_plain w : plain w = true -> brace_expand w = [w].
Proof.
  intros Hw. rewrite brace_expand_eq. unfold find_top_brace.
  pose proof (brace_loop_plain w [] [] 0 Hw) as H. rewrite !app_nil_r, Nat.add_0_r in H. simpl in H.
  by rewrite H.
Qed.

(** A plain prefix and a flat expandable body are found as they are. *)
Lemma find_top_brace_flat p body s :
  plain p = true -> forallb flat_byte body = true -> is_expandable_body body = true ->
  find_top_brace (p ++ "{"%b :: body ++ "}"%b :: s) = Some (p, body, s).
Proof.
  intros Hp Hb He. unfold find_top_brace. set (w := p ++ "{"%b :: body ++ "}"%b :: s).
  pose proof (brace_loop_plain p [] ("{"%b :: body ++ "}"%b :: s) (S (length (body ++ "}"%b :: s))) Hp) as H.
  cbn [app length] in H. fold w in H.
  replace (length w) with (length p + S (length (body ++ "}"%b :: s)))%nat
    by (unfold w; rewrite !length_app; simpl; rewrite !length_app; simpl; lia).
  rewrite H. rewrite Nat.add_0_l. cbn [brace_loop].
  assert (Hw : w !! length p = Some "{"%b) by apply lookup_mid. rewrite Hw.
  assert (Ho : opaque_end w (length p) = None).
  { unfold opaque_end. rewrite (quoted_end_other w (length p) "{"%b) by done. by rewrite Hw. }
  rewrite Ho. change ("{"%b =? "{"%b) with true. cbv iota.
  assert (Hclose : close_loop (length w) w (S (length p)) 1 = Some (S (length p) + length body)%nat).
  { pose proof (close_loop_flat body (p ++ ["{"%b]) ("}"%b :: s) (S (S (length s))) 1 Hb) as Hc.
    rewrite length_app in Hc. cbn [length] in Hc. rewrite <- app_assoc in Hc. cbn [app] in Hc. fold w in Hc.
    replace (length p + 1)%nat with (S (length p)) in Hc by lia.
    assert (Hlen : length w = (length p + 2 + length body + length s)%nat).
    { unfold w. rewrite length_app. simpl. rewrite length_app. simpl. lia. }
    rewrite (close_loop_fuel _ (length body + S (S (length s)))), Hc by lia.
    cbn [close_loop].
    assert (Hk : w !! (S (length p) + length body)%nat = Some "}"%b).
    { unfold w. rewrite (lookup_app_r p) by lia.
      replace (S (length p) + length body - length p)%nat with (S (length body)) by lia. simpl. apply lookup_mid. }
    rewrite Hk. rewrite (quoted_end_other w _ "}"%b) by done. done. }
  rewrite Hclose.
  assert (Hslice : slice w (S (length p)) (S (length p) + length body) = body).
  { unfold slice, w. replace (S (length p) + length body - S (length p))%nat with (length body) by lia.
    rewrite drop_app_ge by lia. replace (S (length p) - length p)%nat with 1%nat by lia. simpl.
    apply take_app_length. }
  rewrite Hslice, He. do 3 f_equal.
  - apply take_app_length.
  - unfold w. rewrite drop_app_ge by lia.
    replace (S (S (length p) + length body) - length p)%nat with (S (S (length body))) by lia. simpl.
    rewrite drop_app_ge by lia. by replace (S (length body) - length body)%nat with 1%nat by lia.
Qed.

Lemma split_join_plain alts pre cur0 out fuel :
  alts <> [] -> forallb plain alts = true -> (length (join [","%b] alts) <= fuel)%nat ->
  split_loop fuel (pre ++ join [","%b] alts) (length pre) 0 out cur0
  = out ++ match alts with a :: l => (cur0 ++ a) :: l | [] => [] end.
Proof.
  revert pre cur0 out fuel. induction alts as [|a alts IH]; intros pre cur0 out fuel Hne Hp Hf; [done|].
  simpl in Hp. apply andb_true_iff in Hp as [Ha Hp]. destruct alts as [|a2 alts].
  - cbn [join] in *. rewrite (split_loop_fuel fuel (length a + 0)) by (rewrite length_app; lia).
    pose proof (split_loop_plain a pre [] 0 out cur0 Ha) as H. rewrite app_nil_r in H. by rewrite H.
  - change (join [","%b] (a :: a2 :: alts)) with (a ++ ","%b :: join [","%b] (a2 :: alts)) in *.
    set (rest := join [","%b] (a2 :: alts)) in *.
    rewrite (split_loop_fuel fuel (length a + S (length rest))) by (rewrite ?length_app in *; simpl in *; lia).
    rewrite split_loop_plain by done. cbn [split_loop].
    assert (Hk : (pre ++ a ++ ","%b :: rest) !! (length pre + length a)%nat = Some ","%b).
    { rewrite app_assoc, <- length_app. apply lookup_mid. }
    rewrite Hk, (quoted_end_other _ _ ","%b) by done. simpl Z.eqb. cbn [andb]. cbv iota.
    specialize (IH (pre ++ a ++ [","%b]) [] (out ++ [cur0 ++ a]) (length rest)).
    rewrite !length_app in IH. cbn [length] in IH.
    replace (length pre + (length a + 1))%nat with (S (length pre + length a)) in IH by lia.
    replace ((pre ++ a ++ [","%b]) ++ rest) with (pre ++ a ++ ","%b :: rest) in IH by by rewrite <- !app_assoc.
    rewrite IH by (done || lia). by rewrite <- app_assoc.
Qed.

Lemma top_level_split_plain alts :
  alts <> [] -> forallb plain alts = true -> top_level_split (join [","%b] alts) = alts.
Proof.
  intros Hne Hp. unfold top_level_split. pose proof (split_join_plain alts [] [] [] _ Hne Hp (le_n _)) as H.
  cbn [app length] in H. rewrite H. by destruct alts.
Qed.

Lemma no_dotdot body fuel i d :
  "."%b ∉ body -> find_dotdot_loop fuel body i d = None.
Proof.
  intros Hn. revert i d. induction fuel as [|fuel IH]; intros i d; cbn [find_dotdot_loop]; [done|].
  destruct (body !! i) as [b|] eqn:Hb; [|done]. destruct (body !! S i); [|done].
  assert ((b =? "."%b) = false) as ->.
  { apply Z.eqb_neq. intros ->. apply Hn. by apply list_elem_of_lookup_2 with i. }
  rewrite andb_false_r. simpl. repeat case_match; apply IH.
Qed.

Lemma elem_of_join sep l c : c ∈ join sep l -> c ∈ sep \/ exists x, x ∈ l /\ c ∈ x.
Proof.
  induction l as [|x l IH]; [set_solver|]. destruct l as [|y l]; [set_solver|].
  change (join sep (x :: y :: l)) with (x ++ sep ++ join sep (y :: l)). set_solver.
Qed.

Lemma flat_join alts : forallb plain alts = true -> forallb flat_byte (join [","%b] alts) = true.
Proof.
  intros Hp. apply forallb_forall. intros c Hc. apply list_elem_of_In, elem_of_join in Hc.
  unfold flat_byte. destruct Hc as [->%list_elem_of_singleton|(x & Hx & Hc)]; [by rewrite orb_true_r|].
  rewrite forallb_forall in Hp. specialize (Hp x ltac:(by apply list_elem_of_In)).
  unfold plain in Hp. rewrite forallb_forall in Hp. by rewrite (Hp c) by by apply list_elem_of_In.
Qed.

Lemma combine_single p pieces s : combine_all p pieces [s] = map (fun x => p ++ x ++ s) pieces.
Proof. unfold combine_all. simpl. induction pieces; simpl; by f_equal. Qed.

(** * Numeric sequences *)

(** The elements [start], [start + delta], ... [start + m * delta]. *)
Definition progression (start delta : Z) (m : nat) : list Z :=
  map (fun k => start + Z.of_nat k * delta) (seq 0 (S m)).

Lemma progression_cons start delta m :
  progression start delta (S m) = start :: progression (start + delta) delta m.
Proof.
  unfold progression. change (seq 0 (S (S m))) with (0%nat :: seq 1 (S m)). rewrite <- seq_shift, !map_cons, map_map.
  f_equal; [lia|]. apply map_ext. intros k. lia.
Qed.

Lemma num_loop_spec m fuel width cur end_val step (up : bool) n :
  0 < step -> (if up then cur <= end_val else end_val <= cur) ->
  Z.abs (end_val - cur) / step = Z.of_nat m -> (m < fuel)%nat -> n + Z.of_nat m <= MAX_SEQ ->
  in_i64 cur -> i64_min <= end_val - step -> end_val + step <= i64_max ->
  num_loop fuel width cur end_val step up n
  = Some (map (format_num width) (progression cur (if up then step else - step) m)).
Proof.
  revert fuel cur n. induction m as [|m IH]; intros fuel cur n Hs Hdir Hm Hf Hn Hcur Hlo Hhi;
    (destruct fuel as [|fuel]; [lia|]); cbn [num_loop].
  all: assert (Hws : wrapping_sub end_val step = end_val - step) by (apply wrap64_id; unfold in_i64, i64_min, i64_max in *; lia).
  all: assert (Hwa : wrapping_add end_val step = end_val + step) by (apply wrap64_id; unfold in_i64, i64_min, i64_max in *; lia).
  all: rewrite Hws, Hwa.
  - assert (Hlt : Z.abs (end_val - cur) < step).
    { apply Z.div_small_iff in Hm; lia. }
    unfold progression. simpl map. rewrite Z.add_0_r. unfold in_i64b, in_i64, i64_min, i64_max in *.
    destruct up; simpl; split_ifs; to_prop; try done; exfalso;
      repeat match goal with H : _ = false |- _ => apply andb_false_iff in H end; to_prop; lia.
  - assert (Hle : step <= Z.abs (end_val - cur)).
    { destruct (Z.lt_ge_cases (Z.abs (end_val - cur)) step) as [Hlt|]; [|done].
      rewrite Z.div_small in Hm; lia. }
    set (next := if up then cur + step else cur - step).
    assert (Hnext : Z.abs (end_val - next) / step = Z.of_nat m).
    { replace (Z.abs (end_val - next)) with (Z.abs (end_val - cur) + (-1) * step) by (subst next; destruct up; lia).
      rewrite Z.div_add by lia. lia. }
    rewrite progression_cons.
    replace (cur + (if up then step else - step)) with next by (subst next; destruct up; lia).
    specialize (IH fuel next (n + 1) Hs).
    rewrite IH; [|subst next; destruct up; lia|done|lia|lia| |lia|lia].
    + cbn [fmap option_fmap option_map map]. unfold MAX_SEQ in *.
      assert (in_i64b next = true) as ->.
      { apply in_i64b_iff. unfold in_i64, i64_min, i64_max in *. subst next. destruct up; lia. }
      destruct up; simpl; split_ifs; to_prop; try done; lia.
    + unfold in_i64, i64_min, i64_max in *. subst next. destruct up; lia.
Qed.

(** * Text of a numeric sequence *)

Lemma u_to_string_no_zero n :
  0 <= n -> (1 < length (u_to_string n))%nat -> head (u_to_string n) <> Some "0"%b.
Proof.
  intros Hn Hl. destruct (Z.eq_dec n 0) as [->|Hn0]; [cbn in Hl; lia|].
  destruct (u_to_string_head n) as (d & ds & -> & Hd); [lia|]. by intros [= ->].
Qed.

Lemma parse_seq_num_print z : in_i64 z -> parse_seq_num (i64_to_string z) = Some (z, false).
Proof.
  intros Hz. destruct (i64_to_string_plain z) as [Hpl Hne]. unfold parse_seq_num.
  rewrite trim_plain, parse_i64_to_string by done. unfold i64_to_string. destruct (z <? 0) eqn:E; to_prop.
  - destruct (u_to_string_spec (- z)) as (Hu & _ & _); [lia|].
    pose proof (u_to_string_no_zero (- z) ltac:(lia)) as Hh.
    destruct (u_to_string (- z)) as [|d ds]; [done|]. do 2 f_equal.
    destruct (1 <? length (d :: ds))%nat eqn:Hl; [|done]. apply Nat.ltb_lt in Hl. specialize (Hh Hl).
    apply Z.eqb_neq. intros ->. done.
  - destruct (u_to_string_spec z) as (Hu & Hall & _); [lia|].
    pose proof (u_to_string_no_zero z ltac:(lia)) as Hh.
    destruct (u_to_string z) as [|d ds]; [done|].
    assert (match d :: ds with "-"%b :: r => r | _ => d :: ds end = d :: ds) as ->.
    { inversion Hall as [|? ? Hd]; subst. unfold is_ascii_digit, in_range in Hd. to_prop.
      repeat (case_match; try done); lia. }
    do 2 f_equal. destruct (1 <? length (d :: ds))%nat eqn:Hl; [|done]. apply Nat.ltb_lt in Hl. specialize (Hh Hl).
    apply Z.eqb_neq. intros ->. done.
Qed.

(** Digits and signs are plain and hold no dot. *)
Definition num_byte (b : Z) : bool := is_ascii_digit b || (b =? "-"%b).

Lemma num_text z : forallb num_byte (i64_to_string z) = true.
Proof.
  assert (Hu : forall n, 0 <= n -> forallb num_byte (u_to_string n) = true).
  { intros n Hn. destruct (u_to_string_spec n Hn) as (_ & Hall & _). apply forallb_forall. intros b Hb.
    rewrite Forall_forall in Hall. unfold num_byte. by rewrite (Hall b) by by apply list_elem_of_In. }
  unfold i64_to_string. destruct (z <? 0) eqn:E; to_prop; [|apply Hu; lia]. simpl. apply Hu. lia.
Qed.

Lemma num_byte_plain b : num_byte b = true -> plain_byte b = true /\ b <> "."%b.
Proof.
  unfold num_byte, is_ascii_digit, in_range. intros H. apply orb_true_iff in H as [H|H]; to_prop; [|by subst b].
  split; [|lia]. unfold plain_byte. apply negb_true_iff. simpl.
  unfold backslash, squote, dquote, backquote.
  repeat (rewrite (proj2 (Z.eqb_neq b _)) by lia). done.
Qed.

Lemma find_dotdot_num p pre rest fuel :
  forallb num_byte p = true -> rest <> [] ->
  find_dotdot_loop (length p + fuel) (pre ++ p ++ rest) (length pre) 0
  = find_dotdot_loop fuel (pre ++ p ++ rest) (length pre + length p) 0.
Proof.
  intros Hp Hr. revert pre Hp. induction p as [|b p IH]; intros pre Hp; simpl in *; [by rewrite Nat.add_0_r|].
  apply andb_true_iff in Hp as [Hb Hp]. apply num_byte_plain in Hb as [Hb Hdot].
  rewrite lookup_mid.
  assert (is_Some ((pre ++ b :: p ++ rest) !! S (length pre))) as [c ->].
  { apply lookup_lt_is_Some. rewrite length_app. simpl. rewrite length_app. destruct rest; [done|]. simpl. lia. }
  rewrite !(plain_byte_neq b _ Hb) by done. rewrite (proj2 (Z.eqb_neq b _) Hdot). simpl andb. cbv iota.
  specialize (IH (pre ++ [b]) Hp). rewrite length_app in IH. simpl in IH. rewrite <- app_assoc in IH. simpl in IH.
  replace (S (length pre)) with (length pre + 1)%nat by lia. rewrite IH. f_equal. lia.
Qed.

Lemma seq_parts_print a b :
  seq_parts (i64_to_string a ++ bs ".." ++ i64_to_string b) = Some (i64_to_string a, i64_to_string b, None).
Proof.
  set (sa := i64_to_string a). set (sb := i64_to_string b).
  assert (Hdd : find_dotdot (sa ++ bs ".." ++ sb) = Some (length sa)).
  { unfold find_dotdot. rewrite length_app.
    pose proof (find_dotdot_num sa [] (bs ".." ++ sb) (length (bs ".." ++ sb)) (num_text a) ltac:(done)) as H.
    cbn [app length] in H. rewrite H, Nat.add_0_l. simpl length. cbn [find_dotdot_loop].
    replace (sa ++ bs ".." ++ sb) with (sa ++ "."%b :: "."%b :: sb) by done.
    rewrite lookup_mid.
    assert ((sa ++ "."%b :: "."%b :: sb) !! S (length sa) = Some "."%b) as ->; [|done].
    rewrite lookup_app_r by lia. by replace (S (length sa) - length sa)%nat with 1%nat by lia. }
  assert (Hno : find_dotdot sb = None).
  { apply no_dotdot. intros Hin. pose proof (num_text b) as Hb. rewrite forallb_forall in Hb.
    specialize (Hb _ ltac:(by apply list_elem_of_In)). by apply num_byte_plain in Hb as [_ ?]. }
  unfold seq_parts. rewrite Hdd, take_app_length.
  replace (drop (length sa + 2) (sa ++ bs ".." ++ sb)) with sb.
  2: { rewrite drop_app_ge by lia. by replace (length sa + 2 - length sa)%nat with 2%nat by lia. }
  rewrite Hno. destruct (i64_to_string_plain a) as [_ Ha], (i64_to_string_plain b) as [_ Hb].
  fold sa in Ha. fold sb in Hb. by destruct sa, sb.
Qed.

Lemma expand_sequence_print a b :
  in_i64 a -> i64_min < b < i64_max -> Z.abs (b - a) <= MAX_SEQ ->
  expand_sequence (i64_to_string a ++ bs ".." ++ i64_to_string b)
  = Some (map i64_to_string (progression a (if a <=? b then 1 else -1) (Z.to_nat (Z.abs (b - a))))).
Proof.
  intros Ha Hb Hle. assert (in_i64 b) as Hb' by (unfold in_i64; lia).
  unfold expand_sequence. rewrite seq_parts_print, !parse_seq_num_print by done.
  cbn [raw_step_of]. change (compute_width _ _ false false) with 0%nat.
  change (wrap64 (Z.abs 1)) with 1.
  rewrite (num_loop_spec (Z.to_nat (Z.abs (b - a)))).
  - by destruct (a <=? b).
  - lia.
  - destruct (a <=? b) eqn:H; to_prop; lia.
  - rewrite Z.div_1_r, Z2Nat.id; lia.
  - unfold seq_fuel, MAX_SEQ in *. lia.
  - lia.
  - done.
  - lia.
  - lia.
Qed.

(** * Theorems *)

(** C34: Brace expansion ends, with fuel one more than the length of the word, gives the same
    list with any larger fuel, and satisfies the recursive equation of the source; the body of
    the brace and the word are cut without loss. *)
Theorem brace_expand_terminates (w : bytes) (fuel : nat) (Hf : (length w < fuel)%nat) :
  brace_expand_fuel fuel w = brace_expand w /\
  match find_top_brace w with
  | None => brace_expand w = [w]
  | Some (prefix, body, suffix) =>
      w = prefix ++ "{"%b :: body ++ "}"%b :: suffix /\
      join [","%b] (top_level_split body) = body /\
      brace_expand w
      = combine_all prefix
          (match expand_sequence body with
           | Some pieces => pieces
           | None => concat (map brace_expand (top_level_split body))
           end) (brace_expand suffix)
  end.
Proof.
  split; [apply brace_expand_fuel_eq; lia|]. rewrite brace_expand_eq.
  destruct (find_top_brace w) as [[[p b] s]|] eqn:Hw; [|done].
  apply brace_loop_parts in Hw as [Hw _]. split; [done|]. split; [apply top_level_split_join|done].
Qed.

Lemma brace_expand_terminates_witness :
  brace_expand_fuel 50 (bs "x{a,{b,c}d}y") = [bs "xay"; bs "xbdy"; bs "xcdy"].
Proof.
  rewrite (proj1 (brace_expand_terminates (bs "x{a,{b,c}d}y") 50 ltac:(vm_compute; lia))).
  vm_compute. reflexivity.
Defined.

(** a list of two or more plain alternatives between plain texts expands
    to exactly one word per alternative, in order. *)
Theorem plain_alternatives (p s : bytes) (alts : list bytes)
    (Hp : plain p = true) (Hs : plain s = true) (Halts : forallb plain alts = true)
    (Hlen : (2 <= length alts)%nat) (Hdot : forallb (fun a => negb (existsb (Z.eqb "."%b) a)) alts = true) :
  brace_expand (p ++ "{"%b :: join [","%b] alts ++ "}"%b :: s) = map (fun a => p ++ a ++ s) alts.
Proof.
  assert (Hne : alts <> []) by (intros ->; simpl in Hlen; lia).
  assert (Hseq : expand_sequence (join [","%b] alts) = None).
  { unfold expand_sequence, seq_parts, find_dotdot. rewrite no_dotdot; [done|].
    intros [Hc|(x & Hx & Hc)]%elem_of_join; [by apply list_elem_of_singleton in Hc|].
    rewrite forallb_forall in Hdot. specialize (Hdot x ltac:(by apply list_elem_of_In)).
    apply negb_true_iff in Hdot. apply not_true_iff_false in Hdot. apply Hdot, existsb_exists.
    exists "."%b. split; [by apply list_elem_of_In|done]. }
  rewrite brace_expand_eq, find_top_brace_flat; [|done|by apply flat_join|].
  - rewrite Hseq, top_level_split_plain, (brace_plain s), combine_single by done. f_equal.
    clear - Halts. induction alts as [|a alts IH]; [done|]. simpl in Halts.
    apply andb_true_iff in Halts as [Ha Halts]. simpl. by rewrite brace_plain, IH.
  - unfold is_expandable_body. rewrite Hseq, top_level_split_plain by done. by apply Nat.leb_le.
Qed.

Lemma plain_alternatives_witness :
  brace_expand (bs "a{b,c,d}e") = [bs "abe"; bs "ace"; bs "ade"].
Proof.
  exact (plain_alternatives (bs "a") (bs "e") [bs "b"; bs "c"; bs "d"] eq_refl eq_refl eq_refl
           ltac:(simpl; lia) eq_refl).
Defined.

(** [{a..b}] expands to the decimal texts of all integers from [a] to [b],
    counting up or down, for all [a] and [b] at most a million apart. *)
Theorem numeric_sequence (a b : Z)
    (Ha : in_i64 a) (Hb : i64_min < b < i64_max) (Hle : Z.abs (b - a) <= MAX_SEQ) :
  brace_expand ("{"%b :: (i64_to_string a ++ bs ".." ++ i64_to_string b) ++ ["}"%b])
  = map i64_to_string (progression a (if a <=? b then 1 else -1) (Z.to_nat (Z.abs (b - a)))).
Proof.
  pose proof (expand_sequence_print a b Ha Hb Hle) as He.
  set (body := i64_to_string a ++ bs ".." ++ i64_to_string b) in *.
  assert (Hflat : forallb flat_byte body = true).
  { apply forallb_forall. intros c Hc. unfold flat_byte. apply in_app_or in Hc as [Hc|Hc];
      [|apply in_app_or in Hc as [Hc|Hc]]; [|by destruct Hc as [<-|[<-|[]]]|].
    1: pose proof (num_text a) as Hn. 2: pose proof (num_text b) as Hn.
    all: rewrite forallb_forall in Hn; specialize (Hn c Hc); by apply num_byte_plain in Hn as [-> _]. }
  rewrite brace_expand_eq.
  pose proof (find_top_brace_flat [] body [] eq_refl Hflat) as Hf. cbn [app] in Hf.
  rewrite Hf by (unfold is_expandable_body; by rewrite He).
  rewrite He, brace_plain, combine_single by done. rewrite map_map. apply map_ext. intros x.
  apply app_nil_r.
Qed.

Lemma numeric_sequence_witness :
  brace_expand (bs "{3..-1}") = [bs "3"; bs "2"; bs "1"; bs "0"; bs "-1"].
Proof.
  refine (numeric_sequence 3 (-1) _ _ _); unfold in_i64, i64_min, i64_max, MAX_SEQ; lia.
Defined.

(** a sequence whose next element would overflow is not expanded at all:
    [{9223372036854775806..9223372036854775807..2}] stays literal although it
    has one element, and an alphabetic step that is a multiple of 2^32 is
    treated as no step and never ends before the limit. *)
Theorem sequence_overflow_is_literal :
  be "{9223372036854775806..9223372036854775807..2}" = [bs "{9223372036854775806..9223372036854775807..2}"]
  /\ be "{9223372036854775804..9223372036854775805..2}" = [bs "9223372036854775804"]
  /\ forall fuel n, alpha_loop fuel 97 122 (wrap32 4294967296) true n = None.
Proof.
  split; [vm_compute; reflexivity|]. split; [vm_compute; reflexivity|].
  change (wrap32 4294967296) with 0. induction fuel as [|fuel IH]; intros n; [done|].
  cbn [alpha_loop]. change (wrap32 (97 + 0)) with 97. simpl Z.leb. simpl Z.ltb. cbv iota.
  destruct (MAX_SEQ <? n + 1); [done|]. by rewrite IH.
Qed.
