(* ===== verification/Pipeline.v ===== *)
(** The expansion of a list of words (crates/expander/src/pipeline.rs): brace
    expansion, the walk over each word, the fields of ["$@"], word splitting,
    pathname expansion and quote removal. *)
From S2P Require Import Prelude Env Buf Utf8 Pattern Split Brace Quote Expand Internal.

Definition SPLIT_FIELDS : Z := 2 ^ 0.
Definition EXPAND_GLOB : Z := 2 ^ 1.
Definition QUOTE_REMOVAL : Z := 2 ^ 2.
Definition NO_TILDE : Z := 2 ^ 8.
Definition NO_BRACE : Z := 2 ^ 9.

(** Reading directories. *)
Class Globbing (E : Type) := {
  pathname_expand : Wd -> M E (list Wd);
}.

Fixpoint split_markers_loop (fuel : nat) (s : bytes) (cur : bytes) : list bytes :=
  match fuel, s with
  | S fuel, b :: r =>
      if b =? CTLESC then
        match r with
        | x :: y :: r2 =>
            if x =? CTLRAW then split_markers_loop fuel r2 (cur ++ [b; x; y])
            else split_markers_loop fuel (y :: r2) (cur ++ [b; x])
        | [x] => split_markers_loop fuel [] (cur ++ [b; x])
        | [] => split_markers_loop fuel [] (cur ++ [b])
        end
      else if b =? CTLFIELD then cur :: split_markers_loop fuel r []
      else split_markers_loop fuel r (cur ++ [b])
  | _, _ => [cur]
  end.

Definition split_unescaped_field_markers (s : bytes) : list bytes := split_markers_loop (length s) s [].

Definition marker_part (flags : Z) (part : bytes) : Wd :=
  mkWd (if is_nil part then push_quoted_null ExpandBuf_new else mkBuf part [] false false false) flags Unquoted.

Definition split_field_markers (words : list Wd) : list Wd :=
  concat (map (fun w =>
      if negb (existsb (Z.eqb CTLFIELD) (buf_bytes (wd_buf w))) then [w]
      else map (marker_part (wd_flags w)) (split_unescaped_field_markers (buf_bytes (wd_buf w)))) words).

Section Pipeline.
Context {E : Type} `{Environment E} `{Parameters E} `{Passwd} `{CommandRunner E} `{Constructs E}
  `{Globbing E}.

Fixpoint mapM {A B} (f : A -> M E B) (l : list A) : M E (list B) :=
  match l with
  | [] => ret []
  | a :: l => b <- f a ;; bs <- mapM f l ;; ret (b :: bs)
  end.

Definition brace_stage (flags : Z) (w : WordDesc) : list Wd :=
  if negb (has flags NO_BRACE) && negb (has (word_flags w) W_NOBRACE) && negb (has (word_flags w) W_ASSIGNMENT)
  then map (fun e => from_bytes_with_flags e (word_flags w)) (brace_expand (text w))
  else [from_parser w].

Definition split_stage (flags : Z) (i : IfsState) (w : Wd) : list Wd :=
  if has flags SPLIT_FIELDS && negb (has (wd_flags w) W_NOSPLIT) && has (wd_flags w) W_HASDOLLAR
  then map (fun field => from_bytes_with_flags field (wd_flags w)) (split (wd_buf w) i)
  else [w].

Definition glob_stage (glob_on : bool) (opts : GlobOpts) (w : Wd) : M E (list Wd) :=
  if glob_on && negb (has (wd_flags w) W_NOGLOB) && has_glob_meta (buf_bytes (wd_buf w)) opts
  then pathname_expand w else ret [w].

Definition run_with_context (words : list WordDesc) (flags : Z) : M E (list WordDesc) :=
  let after_brace := concat (map (brace_stage flags) words) in
  after_internal <- mapM (fun w => expand_word_internal w (has flags NO_TILDE)) after_brace ;;
  let after_array_fields := split_field_markers after_internal in
  after_split <- asks (fun c => concat (map (split_stage flags (ifs c)) after_array_fields)) ;;
  opts <- asks (fun c => mkOpts (env_option (env c) (bs "nocaseglob")) (env_option (env c) (bs "extglob")) false) ;;
  glob_on <- asks (fun c => has flags EXPAND_GLOB && negb (env_option (env c) (bs "noglob"))) ;;
  after_glob <- mapM (glob_stage glob_on opts) after_split ;;
  ret (map (if has flags QUOTE_REMOVAL then to_parser else into_parser) (concat after_glob)).

Definition pipeline_run (words : list WordDesc) (flags : Z) : M E (list WordDesc) := fun c =>
  let prev := split_fields c in
  let '(result, c) := run_with_context words flags (with_split_fields (has flags SPLIT_FIELDS) c) in
  (result, with_split_fields prev c).

Definition run_string (s : bytes) : M E bytes :=
  exp <- expand_word_internal (from_bytes_with_flags s 0) true ;; ret (wd_to_string exp).

Definition run_heredoc_string (s : bytes) : M E bytes := fun c =>
  let prev := heredoc_context c in
  let wd := from_bytes_with_flags s (Z.lor INTERNAL_QUOTED_CONTEXT INTERNAL_HEREDOC_CONTEXT) in
  let '(result, c) := (exp <- expand_word_internal wd true ;; ret (wd_to_string exp)) (with_heredoc_context true c) in
  (result, with_heredoc_context prev c).

Definition run_arith_string (s : bytes) : M E bytes :=
  exp <- expand_word_internal (from_bytes_with_flags s (Z.lor W_NOPROCSUB INTERNAL_ARITH_CONTEXT)) true ;;
  ret (wd_to_string exp).

Definition run_word_inner (s : bytes) : M E bytes :=
  exp <- expand_word_internal (from_bytes_with_flags s 0) false ;; ret (buf_bytes (wd_buf exp)).
End Pipeline.
