(* ===== verification/PipelineProps.v ===== *)
(** The expansion of words: quoted values come out as one word with the text
    they were made from, ["$@"] as the positional parameters, and where brace
    expansion does not respect [$'..']. *)
From stdpp Require Import sets.
From S2P Require Import Prelude Env Buf Utf8 Pattern Split Brace BraceProps Quote QuoteProps Expand Internal InternalProps InternalTerm TestEnv Pipeline.

(** * Buffers of protected pieces through the later stages *)

Definition pieces_bytes (ps : list Piece) : bytes := concat (map piece_bytes ps).
Definition pieces_content (ps : list Piece) : bytes := concat (map piece_content ps).

Lemma pieces_buf ps : buf_bytes (fold_left push_piece ps ExpandBuf_new) = pieces_bytes ps.
Proof. by rewrite push_pieces_bytes. Qed.

Lemma protected_cases p : protected_piece p ->
  piece_bytes p = [CTLNUL] \/ exists b, nz_byte b /\ piece_bytes p = [CTLESC; b].
Proof. intros [->|[->|(b & Hb & ->)]]; [by left|by left|right; by exists b]. Qed.

Lemma protected_dequote ps : Forall protected_piece ps -> dequote_bytes (pieces_bytes ps) = pieces_content ps.
Proof.
  intros HF. unfold pieces_bytes. rewrite <- (app_nil_r (concat (map piece_bytes ps))).
  rewrite dequote_pieces; [by rewrite app_nil_r|]. induction HF as [|p ps Hp _ IH]; [done|].
  cbn [forallb]. rewrite IH, andb_true_r. destruct Hp as [->|[->|(b & Hb & ->)]]; [done..|].
  cbn. apply negb_true_iff, Z.eqb_neq. unfold nz_byte, CTLRAW in *. lia.
Qed.

Lemma protected_markers ps rest cur fuel : Forall protected_piece ps ->
  (length (pieces_bytes ps ++ rest) <= fuel)%nat ->
  split_markers_loop fuel (pieces_bytes ps ++ rest) cur
  = split_markers_loop (fuel - length ps) rest (cur ++ pieces_bytes ps).
Proof.
  intros HF. revert cur fuel. induction HF as [|p ps Hp _ IH]; intros cur fuel Hf.
  { cbn. by rewrite app_nil_r, Nat.sub_0_r. }
  unfold pieces_bytes in *. cbn [map concat] in *. rewrite <- app_assoc in *.
  destruct fuel as [|fuel]; [destruct (protected_cases p Hp) as [E|(b & _ & E)]; rewrite E in Hf; cbn in Hf; lia|].
  assert (split_markers_loop (S fuel) (piece_bytes p ++ concat (map piece_bytes ps) ++ rest) cur
          = split_markers_loop fuel (concat (map piece_bytes ps) ++ rest) (cur ++ piece_bytes p)) as ->.
  { destruct (protected_cases p Hp) as [->|(b & Hb & ->)]; [done|]. cbn [app split_markers_loop].
    assert ((b =? CTLRAW) = false) as Hr by (apply Z.eqb_neq; unfold nz_byte, CTLRAW in *; lia).
    cbn. destruct (concat (map piece_bytes ps) ++ rest) as [|y r2]; [done|]. by rewrite Hr. }
  rewrite IH; [cbn [length]; by rewrite <- app_assoc|].
  rewrite length_app in Hf. destruct (protected_cases p Hp) as [E|(b & _ & E)]; rewrite E in Hf; cbn in Hf; lia.
Qed.

Lemma protected_no_glob ps opts fuel : Forall protected_piece ps -> glob_meta_loop fuel (pieces_bytes ps) opts = false.
Proof.
  intros HF. revert fuel. induction HF as [|p ps Hp _ IH]; intros fuel; [by destruct fuel|].
  destruct fuel as [|fuel]; [done|]. unfold pieces_bytes in *. cbn [map concat].
  destruct (protected_cases p Hp) as [->|(b & Hb & ->)]; cbn [app glob_meta_loop].
  - cbn. rewrite andb_false_r. apply IH.
  - cbn. assert ((b =? CTLRAW) = false) as Hr by (apply Z.eqb_neq; unfold nz_byte, CTLRAW in *; lia).
    specialize (IH fuel). destruct (concat (map piece_bytes ps)) as [|y r2]; [done|]. by rewrite Hr.
Qed.

(** A protected piece at a position is a chunk of field text, whatever IFS. *)
Lemma protected_chunk input i p rest ifs : drop i input = piece_bytes p ++ rest -> protected_piece p ->
  unquoted_ifs_at input i ifs = None /\ chunk_at input i = (piece_bytes p, (i + length (piece_bytes p))%nat)
  /\ drop (i + length (piece_bytes p)) input = rest /\ (i < length input)%nat.
Proof.
  intros Hd Hp. destruct (protected_cases p Hp) as [E|(b & Hb & E)]; rewrite E in *.
  - assert (H0 : input !! i = Some CTLNUL) by (rewrite <- (Nat.add_0_r i), <- lookup_drop, Hd; done).
    assert (Hraw : raw_literal_at input i = None).
    { unfold raw_literal_at. rewrite H0. by repeat case_match. }
    split; [unfold unquoted_ifs_at; by rewrite Hraw, H0|].
    split; [unfold chunk_at; rewrite Hraw, H0; by case_match|].
    split; [by rewrite <- drop_drop, Hd|]. by apply lookup_lt_Some in H0.
  - apply (quoted_pair_at input i b); [done|]. unfold nz_byte, CTLRAW in *. lia.
Qed.

Lemma protected_split_loop input ifs ps fuel i fields cur :
  drop i input = pieces_bytes ps -> Forall protected_piece ps -> (length ps < fuel)%nat ->
  cur ++ drop i input <> [] ->
  Split.split_loop input ifs fuel i fields cur = fields ++ [cur ++ drop i input].
Proof.
  intros Hd HF. revert fuel i cur Hd. induction HF as [|p ps Hp _ IH]; intros fuel i cur Hd Hf Hne.
  - cbn in Hd. rewrite Hd, app_nil_r in *. destruct fuel as [|fuel]; [simpl in Hf; lia|]. cbn [Split.split_loop].
    assert (length input <= i)%nat as Hi.
    { apply (f_equal length) in Hd. rewrite length_drop in Hd. simpl in Hd. lia. }
    rewrite (proj2 (Nat.ltb_ge i (length input))) by done. by destruct cur.
  - destruct (protected_chunk input i p (pieces_bytes ps) ifs Hd Hp) as (Hu & Hc & Hd2 & Hi).
    destruct fuel as [|fuel]; [lia|]. cbn [Split.split_loop].
    rewrite (proj2 (Nat.ltb_lt i (length input))), Hu, Hc by done.
    rewrite (IH fuel _ (cur ++ piece_bytes p)); [| |simpl in Hf; lia|].
    + rewrite Hd2. unfold pieces_bytes in *. cbn [map concat] in Hd. by rewrite Hd, <- app_assoc.
    + done.
    + destruct (protected_cases p Hp) as [E|(b & _ & E)]; rewrite E; by destruct cur.
Qed.

Lemma pieces_length ps : Forall protected_piece ps -> (length ps <= length (pieces_bytes ps))%nat.
Proof.
  induction 1 as [|p ps Hp _ IH]; [done|]. unfold pieces_bytes in *. cbn [map concat length]. rewrite length_app.
  destruct (protected_cases p Hp) as [E|(b & _ & E)]; rewrite E; cbn; lia.
Qed.

Lemma pieces_nonempty ps : Forall protected_piece ps -> ps <> [] -> pieces_bytes ps <> [].
Proof. intros HF Hne E. apply pieces_length in HF. rewrite E in HF. destruct ps; [done|simpl in HF; lia]. Qed.

Lemma protected_split ps ifs : Forall protected_piece ps -> ps <> [] -> split_bytes (pieces_bytes ps) ifs = [pieces_bytes ps].
Proof.
  intros HF Hne. pose proof (pieces_nonempty _ HF Hne) as Hb. unfold split_bytes.
  destruct (is_null ifs); [by destruct (pieces_bytes ps)|].
  destruct ps as [|p ps]; [done|]. inversion HF as [|? ? Hp HF']; subst.
  destruct (protected_chunk (pieces_bytes (p :: ps)) 0 p (pieces_bytes ps) ifs eq_refl Hp) as (Hu & _ & _ & Hlt).
  assert (Hskip : skip (pieces_bytes (p :: ps)) ifs 0 = 0%nat).
  { unfold skip. destruct (length _); [done|]. cbn [skip_ifs_ws]. by rewrite Hu. }
  rewrite Hskip, (proj2 (Nat.leb_gt _ 0)) by lia.
  rewrite (protected_split_loop _ ifs (p :: ps)); [done|done|done| |done].
  pose proof (pieces_length _ HF). lia.
Qed.

(** * One word through the pipeline *)

Section OneWord.
Context {E : Type} `{Environment E} `{Parameters E} `{Passwd} `{CommandRunner E} `{Constructs E}
  `{Globbing E}.

Lemma mapM_ret_map {A B} (f : A -> M E B) g l : (forall x c, x ∈ l -> f x c = (Ok (g x), c)) ->
  forall c, mapM f l c = (Ok (map g l), c).
Proof.
  induction l as [|a l IH]; intros Hf c; [done|]. cbn [mapM map]. unfold bind, ret.
  rewrite Hf by set_solver. rewrite IH; [done|]. intros. apply Hf. set_solver.
Qed.

(** The stages after the walk, on words whose buffers are protected. *)
Lemma protected_stages (pss : list (list Piece)) flags F (c : ExpCtx E) :
  Forall (fun ps => Forall protected_piece ps /\ ps <> []) pss -> forall ws,
  Forall2 (fun w ps => buf_bytes (wd_buf w) = pieces_bytes ps /\ wd_flags w = flags) ws pss ->
  let after_split := concat (map (split_stage F (ifs c)) ws) in
  exists ws', after_split = ws'
  /\ Forall2 (fun w ps => buf_bytes (wd_buf w) = pieces_bytes ps /\ wd_flags w = flags) ws' pss.
Proof.
  intros HF ws HF2. cbv zeta. eexists; split; [done|]. revert HF.
  induction HF2 as [|w ps ws pss [Hb Hfl] _ IH]; intros HF; [constructor|]. inversion HF as [|? ? [Hp Hne] HF']; subst.
  cbn [map concat]. unfold split_stage at 1. destruct (_ && _).
  - unfold split. rewrite Hb, protected_split by done. cbn. constructor; [done|by apply IH].
  - cbn. constructor; [done|by apply IH].
Qed.

Lemma glob_stage_protected (pss : list (list Piece)) flags on opts ws :
  Forall (fun ps => Forall protected_piece ps /\ ps <> []) pss ->
  Forall2 (fun w ps => buf_bytes (wd_buf w) = pieces_bytes ps /\ wd_flags w = flags) ws pss ->
  forall w (c : ExpCtx E), w ∈ ws -> glob_stage on opts w c = (Ok [w], c).
Proof.
  intros HF HF2 w c Hw. apply list_elem_of_lookup in Hw as [i Hi].
  destruct (Forall2_lookup_l _ _ _ _ _ HF2 Hi) as (ps & Hps & Hb & _).
  rewrite Forall_lookup in HF. destruct (HF _ _ Hps) as [Hp _].
  unfold glob_stage, has_glob_meta. by rewrite Hb, protected_no_glob, andb_false_r.
Qed.

Lemma word_text w ps flags F : buf_bytes (wd_buf w) = pieces_bytes ps -> wd_flags w = flags ->
  Forall protected_piece ps ->
  (if has F QUOTE_REMOVAL then to_parser else into_parser) w = mkWord (shell_text (pieces_content ps)) flags.
Proof.
  intros Hb Hfl Hp. destruct (has F QUOTE_REMOVAL).
  - unfold to_parser, dequote. cbn. rewrite Hfl, Hb, protected_dequote by done. f_equal. f_equal.
    destruct (pieces_content ps); [by case_match|done].
  - unfold into_parser. by rewrite Hb, Hfl, protected_dequote.
Qed.

(** What comes out when the words that go into splitting are protected. *)
Lemma finish_protected (pss : list (list Piece)) flags F words after_internal (c0 c1 : ExpCtx E) :
  mapM (fun w => expand_word_internal w (has F NO_TILDE)) (concat (map (brace_stage F) words)) c0
    = (Ok after_internal, c1) ->
  Forall (fun ps => Forall protected_piece ps /\ ps <> []) pss ->
  Forall2 (fun w ps => buf_bytes (wd_buf w) = pieces_bytes ps /\ wd_flags w = flags)
    (concat (map (split_stage F (ifs c1)) (split_field_markers after_internal))) pss ->
  run_with_context words F c0
  = (Ok (map (fun ps => mkWord (shell_text (pieces_content ps)) flags) pss), c1).
Proof.
  intros Hi HF HF2. unfold run_with_context. unfold bind at 1. rewrite Hi.
  unfold bind at 1, asks at 1. set (ws := concat (map (split_stage F (ifs c1)) _)) in *.
  unfold bind at 1, asks at 1. unfold bind at 1, asks at 1. unfold bind at 1.
  rewrite (mapM_ret_map _ (fun w => [w])).
  2: { intros w c Hw. by eapply glob_stage_protected. }
  unfold ret. do 2 f_equal. clearbody ws. clear Hi. revert HF.
  induction HF2 as [|w ps ws pss [Hb Hfl] _ IH]; intros HF; [done|].
  inversion HF as [|? ? [Hp _] HF']; subst. cbn [map concat app]. f_equal; [|by apply IH].
  by apply word_text.
Qed.

Lemma expand_word_ok wd nt (c : ExpCtx E) w c' : 0 <= depth c < EXPANSION_NESTING_MAX ->
  run wd nt (with_depth (depth c + 1) c) = (Ok w, c') -> expand_word_internal wd nt c = (Ok w, leave c').
Proof.
  intros Hd Hr. unfold expand_word_internal, enter, EXPANSION_NESTING_MAX in *. rewrite Z.min_l by lia.
  replace (depth (with_depth (depth c + 1) c)) with (depth c + 1) by done.
  rewrite (proj2 (Z.ltb_ge 32 (depth c + 1))) by lia. by rewrite Hr.
Qed.

(** A word whose walk gives protected pieces comes out as one word. *)
Lemma pipeline_protected w flags F (c : ExpCtx E) ps q c' :
  0 <= depth c < EXPANSION_NESTING_MAX ->
  brace_stage F (mkWord w flags) = [from_bytes_with_flags w flags] ->
  run (from_bytes_with_flags w flags) (has F NO_TILDE)
    (with_depth (depth c + 1) (with_split_fields (has F SPLIT_FIELDS) c))
    = (Ok (mkWd (fold_left push_piece ps ExpandBuf_new) flags q), c') ->
  Forall protected_piece ps -> ps <> [] ->
  pipeline_run [mkWord w flags] F c
  = (Ok [mkWord (shell_text (pieces_content ps)) flags], with_split_fields (split_fields c) (leave c')).
Proof.
  intros Hd Hbr Hr HF Hne. unfold pipeline_run.
  set (c1 := with_split_fields (has F SPLIT_FIELDS) c) in *.
  assert (Hi : mapM (fun w => expand_word_internal w (has F NO_TILDE)) (concat (map (brace_stage F) [mkWord w flags])) c1
    = (Ok [mkWd (fold_left push_piece ps ExpandBuf_new) flags q], leave c')).
  { cbn [map concat]. rewrite Hbr. cbn [app mapM]. unfold bind, ret.
    by rewrite (expand_word_ok _ _ c1 _ _ Hd Hr). }
  assert (Hall : Forall (fun ps => Forall protected_piece ps /\ ps <> []) [ps]) by (by repeat constructor).
  rewrite (finish_protected [ps] flags F _ _ _ _ Hi Hall); [done|].
  destruct (protected_stages [ps] flags F (leave c') Hall
    (split_field_markers [mkWd (fold_left push_piece ps ExpandBuf_new) flags q])) as (ws' & <- & HF2); [|done].
  unfold split_field_markers. cbn [map concat]. rewrite app_nil_r. cbn [wd_buf wd_flags]. rewrite pieces_buf.
  destruct (negb _); [repeat constructor; cbn; apply pieces_buf|].
  unfold split_unescaped_field_markers. rewrite <- (app_nil_r (pieces_bytes ps)) at 1 2.
  rewrite protected_markers by done. 
  assert (forall n, split_markers_loop n [] ([] ++ pieces_bytes ps) = [pieces_bytes ps]) as -> by (by intros []).
  cbn [map]. repeat constructor. unfold marker_part. cbn.
  pose proof (pieces_nonempty _ HF Hne). by destruct (pieces_bytes ps).
Qed.
End OneWord.

(** * Brace expansion leaves single-quoted text alone *)

Lemma until_close_clean p : forall w pre rest fuel, w = pre ++ p ++ squote :: rest ->
  forallb (fun b => negb (b =? "'"%b)) p = true -> (length p < fuel)%nat ->
  until_close fuel w (length pre) squote false = (length pre + length p + 1)%nat.
Proof.
  induction p as [|b p IH]; intros w pre rest fuel Hw Hp Hf; (destruct fuel as [|fuel]; [lia|]); cbn [until_close].
  - assert (w !! length pre = Some squote) as -> by (rewrite Hw; by apply list_lookup_middle).
    rewrite Z.eqb_refl. cbn. lia.
  - assert (w !! length pre = Some b) as -> by (rewrite Hw; by apply list_lookup_middle).
    cbn [forallb] in Hp. apply andb_true_iff in Hp as [Hb%negb_true_iff Hp].
    change squote with "'"%b at 1. rewrite Hb. cbn [andb].
    replace (S (length pre)) with (length (pre ++ [b])) by (rewrite length_app; cbn; lia).
    rewrite (IH w (pre ++ [b]) rest fuel); [rewrite length_app; cbn; lia| |done|simpl in Hf; lia].
    by rewrite Hw, <- app_assoc.
Qed.

Lemma brace_loop_opaque fuel w i b e :
  w !! i = Some b -> opaque_end w i = Some e -> brace_loop (S fuel) w i = brace_loop fuel w e.
Proof. intros Hb He. cbn [brace_loop]. by rewrite Hb, He. Qed.

Lemma opaque_single w pre p rest : w = pre ++ squote :: p ++ squote :: rest ->
  forallb (fun b => negb (b =? "'"%b)) p = true -> opaque_end w (length pre) = Some (length pre + length p + 2)%nat.
Proof.
  intros Hw Hp. unfold opaque_end, quoted_end.
  assert (w !! length pre = Some squote) as -> by (rewrite Hw; by apply list_lookup_middle).
  cbn. replace (S (length pre)) with (length (pre ++ [squote])) by (rewrite length_app; cbn; lia).
  rewrite (until_close_clean p w (pre ++ [squote]) rest); [|by rewrite Hw, <- app_assoc|done|].
  - f_equal. rewrite length_app. cbn. lia.
  - rewrite Hw, length_app. cbn. rewrite length_app. lia.
Qed.

Lemma opaque_escaped w pre x rest : w = pre ++ backslash :: x :: rest -> opaque_end w (length pre) = Some (length pre + 2)%nat.
Proof.
  intros Hw. unfold opaque_end, quoted_end.
  assert (w !! length pre = Some backslash) as -> by (rewrite Hw; by apply list_lookup_middle).
  rewrite (proj2 (Nat.ltb_lt _ _)); [done|]. rewrite Hw, length_app. cbn. lia.
Qed.

Lemma brace_loop_single n src : (length src <= n)%nat -> forall w pre fuel,
  w = pre ++ squote :: concat (map single_escape src) ++ [squote] -> brace_loop fuel w (length pre) = None.
Proof.
  revert src. induction n as [|n IH]; intros src Hn w pre fuel Hw;
    (destruct fuel as [|fuel]; [done|]);
    (assert (Hq : w !! length pre = Some squote) by (rewrite Hw; by apply list_lookup_middle));
    (destruct (split_quote src) as [Hc|(p & q & -> & Hp)];
     [rewrite (single_escape_clean src Hc) in Hw;
      rewrite (brace_loop_opaque _ _ _ _ _ Hq (opaque_single _ _ _ _ Hw Hc));
      destruct fuel; [done|]; cbn [brace_loop];
      rewrite lookup_ge_None_2; [done|]; rewrite Hw, !length_app; cbn; rewrite length_app; cbn; lia|]).
  { rewrite length_app in Hn. cbn in Hn. lia. }
  rewrite map_app, concat_app, single_escape_clean in Hw by done. cbn [map concat] in Hw.
  change (single_escape "'"%b) with [squote; backslash; squote; squote] in Hw. cbn [app] in Hw.
  rewrite <- app_assoc in Hw. cbn [app] in Hw.
  rewrite (brace_loop_opaque _ _ _ _ _ Hq (opaque_single _ _ _ _ Hw Hp)).
  assert (Hw2 : w = (pre ++ squote :: p ++ [squote]) ++ backslash :: squote :: squote :: concat (map single_escape q) ++ [squote]).
  { rewrite Hw, <- app_assoc. cbn [app]. by rewrite <- app_assoc. }
  replace (length pre + length p + 2)%nat with (length (pre ++ squote :: p ++ [squote]))
    by (rewrite !length_app; cbn; rewrite length_app; cbn; lia).
  destruct fuel as [|fuel]; [done|].
  assert (Hq2 : w !! length (pre ++ squote :: p ++ [squote]) = Some backslash)
    by (rewrite Hw2 at 1; by apply list_lookup_middle).
  rewrite (brace_loop_opaque _ _ _ _ _ Hq2 (opaque_escaped _ _ _ _ Hw2)).
  replace (length (pre ++ squote :: p ++ [squote]) + 2)%nat
    with (length ((pre ++ squote :: p ++ [squote]) ++ [backslash; squote])) by (rewrite (length_app _ [_;_]); done).
  apply (IH q); [rewrite length_app in Hn; cbn in Hn; lia|]. rewrite <- app_assoc. exact Hw2.
Qed.

Definition is_control (b : Z) : bool := (b <? 32) || (b =? 127).

Lemma brace_shell_quote src : existsb is_control src = false -> brace_expand (shell_quote src) = [shell_quote src].
Proof.
  intros Hc. assert (find_top_brace (shell_quote src) = None) as Hn.
  { unfold shell_quote. destruct (bytes_eqb src (bs "'")); [done|]. unfold is_control in Hc. rewrite Hc. cbn [negb].
    apply (brace_loop_single (length src) src (le_n _) _ []). done. }
  unfold brace_expand. cbn [brace_expand_fuel]. by rewrite Hn.
Qed.

(** * Theorems *)

Section Main.
Context {E : Type} `{Environment E} `{Parameters E} `{Passwd} `{CommandRunner E} `{Constructs E}
  `{Globbing E}.

Lemma brace_stage_none F w flags :
  has F NO_BRACE = true \/ has flags W_NOBRACE = true \/ has flags W_ASSIGNMENT = true \/ brace_expand w = [w] ->
  brace_stage F (mkWord w flags) = [from_bytes_with_flags w flags].
Proof.
  unfold brace_stage. cbn [word_flags text]. destruct (_ && _) eqn:Hb; [|done].
  intros [Hx|[Hx|[Hx|Hx]]]; [rewrite Hx in Hb; cbn in Hb; rewrite ?andb_false_r in Hb; done..|]. by rewrite Hx.
Qed.

(** C7: A value quoted for reuse comes back: the whole expansion of its quoted text (braces,
    substitutions, field splitting under any IFS, pathname expansion, quote removal) is exactly
    one word, with the bytes of the value. The value is of bytes other than NUL; the word is an
    ordinary one (its flags say neither arithmetic, quoted nor here-document text), expanded
    below the limit of nesting; and either it has no control characters or braces are not
    expanded (by the flags of the expansion or of the word), since the brace scanner misses
    escaped quotes in [$'..']. *)
Theorem quoted_value_is_one_word (src : bytes) (flags F : Z) (c : ExpCtx E)
    (Hnz : Forall nz_byte src) (Hfl : plain_flags flags) (Hd : 0 <= depth c < EXPANSION_NESTING_MAX)
    (Hbr : existsb is_control src = false \/ has F NO_BRACE = true \/ has flags W_NOBRACE = true
           \/ has flags W_ASSIGNMENT = true) :
  (pipeline_run [mkWord (shell_quote src) flags] F c).1 = Ok [mkWord (shell_text src) flags].
Proof.
  destruct (run_shell_quote src flags (has F NO_TILDE)
    (with_depth (depth c + 1) (with_split_fields (has F SPLIT_FIELDS) c)) Hnz Hfl) as (ps & q & c' & Hr & Hc & HF & Hne & _).
  rewrite (pipeline_protected _ _ _ _ ps q c' Hd); [by unfold pieces_content; rewrite Hc| |done..].
  apply brace_stage_none. destruct Hbr as [Hx|[Hx|[Hx|Hx]]]; auto. right; right; right. by apply brace_shell_quote.
Qed.
End Main.

#[global] Instance no_globbing : Globbing TestEnv := { pathname_expand w := ret [w] }.

Lemma quoted_value_is_one_word_witness :
  (pipeline_run [mkWord (shell_quote (bs "it's {a,b} *")) W_HASDOLLAR] (Z.lor SPLIT_FIELDS EXPAND_GLOB)
     (test_ctx (Some (bs "s ")) [])).1
  = Ok [mkWord (bs "it's {a,b} *") W_HASDOLLAR].
Proof.
  rewrite (quoted_value_is_one_word (bs "it's {a,b} *") W_HASDOLLAR (Z.lor SPLIT_FIELDS EXPAND_GLOB)
    (test_ctx (Some (bs "s ")) [])).
  - reflexivity.
  - apply Forall_forall. intros b Hb. cbn in Hb. unfold nz_byte. set_unfold. lia.
  - repeat split.
  - cbn. unfold EXPANSION_NESTING_MAX. lia.
  - left. reflexivity.
Defined.

(** Brace expansion does not know [$'..']: a value with a control byte, a
    quote and braces, quoted by the shell itself, comes back as two words. *)
Theorem ansi_quoted_braces_expand :
  (pipeline_run [mkWord (shell_quote (10 :: bs "'{a,b}'")) 0] QUOTE_REMOVAL (test_ctx None [])).1
  = Ok [mkWord (10 :: bs "'a'") 0; mkWord (10 :: bs "'b'") 0].
Proof. vm_compute. reflexivity. Qed.

(** * ["$@"] *)

(** Fields between markers. *)
Fixpoint join_fields (parts : list bytes) : bytes :=
  match parts with
  | [] => []
  | [p] => p
  | p :: parts => p ++ CTLFIELD :: join_fields parts
  end.

Lemma markers_join (pss : list (list Piece)) fuel :
  Forall (Forall protected_piece) pss -> pss <> [] ->
  (length (join_fields (map pieces_bytes pss)) <= fuel)%nat ->
  split_markers_loop fuel (join_fields (map pieces_bytes pss)) [] = map pieces_bytes pss.
Proof.
  intros HF. revert fuel. induction HF as [|ps pss Hp _ IH]; intros fuel Hne Hf; [done|].
  destruct pss as [|ps' pss]; cbn [map join_fields] in *.
  - rewrite <- (app_nil_r (pieces_bytes ps)) at 1. rewrite protected_markers by (rewrite ?app_nil_r; done).
    by destruct (fuel - length ps)%nat.
  - rewrite protected_markers by done. rewrite length_app in Hf. cbn [length] in Hf.
    pose proof (pieces_length _ Hp). destruct (fuel - length ps)%nat as [|n] eqn:En; [lia|].
    cbn [split_markers_loop]. cbn. f_equal. apply IH; [done|]. cbn [map join_fields] in *. lia.
Qed.

Section DollarAt.
Context {E : Type} `{Environment E} `{Parameters E} `{Passwd} `{CommandRunner E} `{Constructs E}
  `{Globbing E}.

Definition push_field (out : ExpandBuf) (v : bytes) : ExpandBuf := push_array_element_value out v true false.

Lemma push_field_bytes out v : buf_bytes (push_field out v) = buf_bytes out ++ pieces_bytes (quoted_run v).
Proof.
  assert (push_field out v = fold_left push_piece (quoted_run v) out) as ->.
  { unfold push_field, push_array_element_value, push_value_maybe_raw_ctlnul, push_value.
    rewrite <- push_quoted_run. by destruct v. }
  apply push_pieces_bytes.
Qed.

Lemma push_more_bytes vs out v0 :
  buf_bytes (fold_left (fun out v => push_field (push_field_sep out) v) vs (push_field out v0))
  = buf_bytes out ++ join_fields (map (fun v => pieces_bytes (quoted_run v)) (v0 :: vs)).
Proof.
  revert out v0. induction vs as [|v vs IH]; intros out v0; cbn [fold_left map join_fields]; [apply push_field_bytes|].
  rewrite IH. cbn [push_field_sep push_raw buf_bytes]. rewrite push_field_bytes, <- !app_assoc. done.
Qed.

(** All positional parameters are set. *)
Definition positionals_set (e : E) : Prop :=
  forall i, (1 <= i <= env_positional_count e)%nat -> is_Some (env_positional e i).

Lemma push_tail (e : E) l out : (forall i, i ∈ l -> (1 < i)%nat /\ is_Some (env_positional e i)) ->
  fold_left (fun out i => match env_positional e i with
                          | Some v => push_field (if (1 <? i)%nat then push_field_sep out else out) v
                          | None => out end) l out
  = fold_left (fun out v => push_field (push_field_sep out) v) (omap (env_positional e) l) out.
Proof.
  revert out. induction l as [|i l IH]; intros out Hl; [done|]. cbn [fold_left omap list_omap].
  destruct (Hl i ltac:(set_solver)) as [Hi [v Hv]]. rewrite Hv, (proj2 (Nat.ltb_lt _ _)) by done.
  cbn [fold_left]. apply IH. intros j Hj. apply Hl. set_solver.
Qed.

Lemma push_positionals_bytes (e : E) out : positionals_set e ->
  buf_bytes (push_positionals e push_field_sep push_field out)
  = buf_bytes out ++ join_fields (map (fun v => pieces_bytes (quoted_run v)) (positionals e)).
Proof.
  intros Hs. unfold push_positionals, positionals, positionals_set in *.
  destruct (env_positional_count e) as [|n]; cbn [seq fold_left omap list_omap map join_fields]; [by rewrite app_nil_r|].
  destruct (Hs 1%nat ltac:(lia)) as [v Hv]. rewrite Hv. cbn [Nat.ltb Nat.leb].
  rewrite push_tail.
  - apply (push_more_bytes _ _ v).
  - intros i [Hi1 Hi2]%elem_of_seq. split; [lia|]. apply Hs. lia.
Qed.

Definition dollar_at : bytes := [dquote; "$"%b; "@"%b; dquote].

(** The walk over ["$@"] where fields are split. *)
Lemma run_dollar_at flags nt (c : ExpCtx E) : plain_flags flags ->
  assign_in_progress c = false -> split_fields c = true ->
  exists out q, run (from_bytes_with_flags dollar_at flags) nt c = (Ok (mkWd out flags q), c)
  /\ buf_bytes out = buf_bytes (push_positionals (env c) push_field_sep push_field (buf_record_dollar_at ExpandBuf_new)).
Proof.
  intros Hf Ha Hsf. set (buf := push_positionals (env c) push_field_sep push_field (buf_record_dollar_at ExpandBuf_new)).
  set (awt := has flags W_ASSIGNMENT && negb (env_option (env c) (bs "posix"))).
  set (st0 := mkRun 0 ExpandBuf_new false false false).
  assert (Hat : expand_special (bs "@") true ExpandBuf_new c = (Ok buf, c)).
  { change (expand_special (bs "@") true ExpandBuf_new c) with (expand_at_star (E:=E) false true ExpandBuf_new c).
    unfold expand_at_star, bind, asks, ret. cbn [andb negb]. by rewrite Ha, Hsf, !andb_false_r. }
  assert (Hdq : scan_double_quoted_into_mode dollar_at 1 ExpandBuf_new false c = (Ok (4%nat, buf), c)).
  { unfold scan_double_quoted_into_mode. cbn [length dollar_at dq_loop lookup list_lookup Nat.add].
    change (("$"%b =? dquote)) with false. cbv iota.
    assert (dq_step dollar_at false "$"%b 1 ExpandBuf_new false c = (Ok (3%nat, buf, true), c)) as Hstep.
    { unfold dq_step, param_expand_quoted, param_dispatch. cbn -[expand_special drop_empty_param_before_dollar_at].
      unfold bind. change ["@"%b] with (bs "@"). rewrite Hat. unfold ret, asks.
      unfold drop_empty_param_before_dollar_at. change (next_is_dollar_at dollar_at 3) with false. cbn [negb]. by destruct (negb (_ =? _)%nat). }
    unfold bind at 1. rewrite Hstep. done. }
  assert (R : reach dollar_at flags awt 1 st0 c (mkRun 4 buf true false false) c).
  { apply (reach_step _ _ _ dquote); [done|].
    change (run_step dollar_at flags awt dquote st0 c) with (step_double dollar_at flags st0 c).
    unfold step_double. destruct Hf as (_ & -> & ->). cbn [andb r_i st0 Nat.add r_out].
    unfold bind. by rewrite Hdq. }
  apply (reach_end _ _ _ _ (length dollar_at)) in R; [|done|cbn; lia]. unfold awt, st0 in R.
  eexists buf, _. split; [|done]. exact (run_not_tilde flags dollar_at nt c _ _ ltac:(done) R).
Qed.

(** Text that is valid UTF-8 is its own string form. *)
Lemma shell_text_valid v cps : from_utf8 v = inl cps -> shell_text v = v.
Proof.
  intros Hv. destruct (from_utf8_cases v) as [(cps' & _ & Hc & He)|(cps' & r & _ & _ & _ & _ & He)]; [|congruence].
  rewrite He in Hv. injection Hv as ->. unfold shell_text, bytes_to_shell_string.
  destruct v as [|b v]; [done|]. cbn [length bytes_to_shell_string_loop]. rewrite He. cbn [app]. by rewrite <- Hc.
Qed.

(** ["$@"] stands for the positional parameters, one word each, unchanged:
    empty ones are kept, and none is split or globbed whatever IFS holds. *)
Theorem dollar_at_is_the_parameters (flags F : Z) (c : ExpCtx E)
    (Hfl : plain_flags flags) (Hd : 0 <= depth c < EXPANSION_NESTING_MAX)
    (Hsplit : has F SPLIT_FIELDS = true) (Hdollar : has flags W_HASDOLLAR = true)
    (Hnosplit : has flags W_NOSPLIT = false) (Hassign : assign_in_progress c = false)
    (Hset : positionals_set (env c))
    (Hval : Forall (fun v => Forall nz_byte v /\ exists cps, from_utf8 v = inl cps) (positionals (env c))) :
  (pipeline_run [mkWord dollar_at flags] F c).1 = Ok (map (fun v => mkWord v flags) (positionals (env c))).
Proof.
  set (c1 := with_depth (depth c + 1) (with_split_fields (has F SPLIT_FIELDS) c)).
  destruct (run_dollar_at flags (has F NO_TILDE) c1 Hfl Hassign Hsplit) as (out & q & Hr & Hb).
  rewrite (push_positionals_bytes _ _ Hset) in Hb. cbn [buf_record_dollar_at buf_bytes ExpandBuf_new app] in Hb.
  set (pss := map quoted_run (positionals (env c))).
  assert (Hpss : map (fun v => pieces_bytes (quoted_run v)) (positionals (env c)) = map pieces_bytes pss)
    by (unfold pss; by rewrite map_map).
  rewrite Hpss in Hb.
  assert (HF : Forall (fun ps => Forall protected_piece ps /\ ps <> []) pss).
  { unfold pss. apply Forall_fmap. eapply Forall_impl; [exact Hval|]. intros v [Hv _].
    split; [by apply quoted_run_protected|by destruct v]. }
  unfold pipeline_run.
  assert (Hi : mapM (fun w => expand_word_internal w (has F NO_TILDE)) (concat (map (brace_stage F) [mkWord dollar_at flags]))
      (with_split_fields (has F SPLIT_FIELDS) c) = (Ok [mkWd out flags q], leave c1)).
  { cbn [map concat]. rewrite brace_stage_none by (right; right; right; done). cbn [app mapM]. unfold bind, ret.
    by rewrite (expand_word_ok _ _ (with_split_fields (has F SPLIT_FIELDS) c) _ _ Hd Hr). }
  rewrite (finish_protected pss flags F _ _ _ _ Hi HF).
  { cbn [fst]. f_equal. unfold pss. rewrite map_map. apply map_ext_Forall. eapply Forall_impl; [exact Hval|].
    intros v [_ [cps Hv]]. unfold pieces_content. rewrite quoted_run_content.
    by rewrite (shell_text_valid v cps Hv). }
  destruct (decide (pss = [])) as [E0|Hne].
  { rewrite E0 in *. cbn in Hb. unfold split_field_markers. cbn [map concat]. rewrite app_nil_r. cbn [wd_buf]. rewrite Hb. cbn [existsb negb].
    cbn [map concat]. unfold split_stage. cbn [wd_flags]. rewrite Hsplit, Hdollar, Hnosplit. cbn [andb negb].
    unfold split, split_bytes. cbn [wd_buf]. rewrite Hb. cbn. destruct (is_null _); constructor. }
  destruct (protected_stages pss flags F (leave c1) HF (split_field_markers [mkWd out flags q])) as (ws' & <- & H'); [|done].
  unfold split_field_markers. cbn [map concat]. rewrite app_nil_r. cbn [wd_buf wd_flags]. rewrite Hb.
  destruct (negb _) eqn:Ex.
  - destruct pss as [|ps [|ps' pss']]; [done| |].
    + repeat constructor. exact Hb.
    + exfalso. cbn [map join_fields] in Ex. rewrite existsb_app in Ex. cbn in Ex. by rewrite orb_true_r in Ex.
  - unfold split_unescaped_field_markers. rewrite (markers_join pss); [|by eapply Forall_impl; [exact HF|intros ? []]|done|done].
    clear Hb Hi Hpss Ex Hne. induction HF as [|ps pss' [Hp Hn] _ IH]; cbn [map]; constructor; [|done].
    split; [|done]. unfold marker_part. cbn [wd_buf]. pose proof (pieces_nonempty _ Hp Hn). by destruct (pieces_bytes ps).
Qed.
End DollarAt.

Lemma dollar_at_is_the_parameters_witness :
  (pipeline_run [mkWord dollar_at W_HASDOLLAR] (Z.lor SPLIT_FIELDS EXPAND_GLOB)
     (test_ctx None [bs "a b"; []; bs "*"])).1
  = Ok [mkWord (bs "a b") W_HASDOLLAR; mkWord [] W_HASDOLLAR; mkWord (bs "*") W_HASDOLLAR].
Proof.
  rewrite (dollar_at_is_the_parameters W_HASDOLLAR (Z.lor SPLIT_FIELDS EXPAND_GLOB) (test_ctx None [bs "a b"; []; bs "*"])).
  - reflexivity.
  - repeat split.
  - cbn. unfold EXPANSION_NESTING_MAX. lia.
  - reflexivity.
  - reflexivity.
  - reflexivity.
  - reflexivity.
  - intros i Hi. cbn in *. do 4 (destruct i as [|i]; [eexists; reflexivity|]). lia.
  - change (positionals _) with [bs "a b"; []; bs "*"]. eval_bs.
    repeat (apply Forall_cons_2; [split; [forall_list; unfold nz_byte; lia|eexists; reflexivity]|]). apply Forall_nil_2.
Defined.
