(* ===== verification/EditBuffer.v ===== *)
(** The line editor's buffer and kill ring (crates/lineedit/src/buffer.rs and
    killring.rs).  A character is its code point.  An operation that would index
    or slice out of range, and panic, returns [None]. *)
From stdpp Require Import sets.
From S2P Require Import Prelude Utf8.

(** * The kill ring *)

Module KillRing.

Record t := mk { entries : list (list Z); head : nat; capacity : nat }.

Definition new : t := mk [] 0 8.

(** [self.entries[i] = s] panics out of range. *)
Definition set_entry (i : nat) (s : list Z) (l : list (list Z)) : option (list (list Z)) :=
  if (i <? length l)%nat then Some (<[i := s]> l) else None.

Definition push (r : t) (s : list Z) : option t :=
  if is_nil s then Some r
  else if (length (entries r) <? capacity r)%nat then
    let es := entries r ++ [s] in Some (mk es (length es - 1) (capacity r))
  else
    let h := ((head r + 1) mod capacity r)%nat in
    es ← set_entry h s (entries r); Some (mk es h (capacity r)).

Definition append (r : t) (text : list Z) : option t :=
  if is_nil text then Some r
  else match entries r !! head r with
       | Some entry => Some (mk (<[head r := entry ++ text]> (entries r)) (head r) (capacity r))
       | None => push r text
       end.

Definition prepend (r : t) (text : list Z) : option t :=
  if is_nil text then Some r
  else match entries r !! head r with
       | Some entry => Some (mk (<[head r := text ++ entry]> (entries r)) (head r) (capacity r))
       | None => push r text
       end.

Definition current (r : t) : option (list Z) := entries r !! head r.

Definition rotate (r : t) : t :=
  if is_nil (entries r) then r
  else if (head r =? 0)%nat then mk (entries r) (length (entries r) - 1) (capacity r)
  else mk (entries r) (head r - 1) (capacity r).

End KillRing.

(** * The buffer *)

(** The character classes of Unicode the buffer asks for, and the part of
    [Completion] (crates/lineedit/src/lib.rs) it reads. *)
Class Unicode := {
  is_alphanumeric : Z -> bool;
  is_alphabetic : Z -> bool;
}.

Record Completion := mkCompletion {
  matches : list (list Z);
  replace_start : nat;
  suppress_append : bool;
  append_character : option Z;
  filenames : bool;
}.

Inductive CompletionApplication :=
| NoMatches
| Unique (changed : bool)
| Ambiguous (changed : bool).

Record EditBuffer := mkEdit {
  e_chars : list Z;
  point : nat;
  undo_stack : list (list Z * nat);   (** oldest first *)
  coalescing_insert : bool;
}.

Definition EditBuffer_new : EditBuffer := mkEdit [] 0 [] false.

Definition len_utf8 (c : Z) : nat := length (encode_utf8 c).

(** [&v[i..j]], [Vec::insert], [Vec::remove], [Vec::drain(i..j)]. *)
Definition get_slice (i j : nat) (l : list Z) : option (list Z) :=
  if (i <=? j)%nat && (j <=? length l)%nat then Some (slice l i j) else None.
Definition vec_insert (i : nat) (c : Z) (l : list Z) : option (list Z) :=
  if (i <=? length l)%nat then Some (take i l ++ c :: drop i l) else None.
Definition vec_remove (i : nat) (l : list Z) : option (list Z) :=
  if (i <? length l)%nat then Some (take i l ++ drop (S i) l) else None.
Definition vec_drain (i j : nat) (l : list Z) : option (list Z) :=
  if (i <=? j)%nat && (j <=? length l)%nat then Some (take i l ++ drop j l) else None.
(** [Vec::splice(i..j, new)]. *)
Definition vec_splice (i j : nat) (new l : list Z) : option (list Z) :=
  if (i <=? j)%nat && (j <=? length l)%nat then Some (take i l ++ new ++ drop j l) else None.

Definition with_point (p : nat) (b : EditBuffer) : EditBuffer :=
  mkEdit (e_chars b) p (undo_stack b) (coalescing_insert b).
Definition with_chars (cs : list Z) (b : EditBuffer) : EditBuffer :=
  mkEdit cs (point b) (undo_stack b) (coalescing_insert b).

Definition byte_point (b : EditBuffer) : option nat :=
  cs ← get_slice 0 (point b) (e_chars b); Some (sum_list (map len_utf8 cs)).

Definition UNDO_MAX : nat := 128.

Definition snapshot (b : EditBuffer) : EditBuffer :=
  let st := undo_stack b ++ [(e_chars b, point b)] in
  mkEdit (e_chars b) (point b) (if (UNDO_MAX <? length st)%nat then drop 1 st else st) false.

Definition snapshot_insert (b : EditBuffer) : EditBuffer :=
  if coalescing_insert b then b
  else let b := snapshot b in mkEdit (e_chars b) (point b) (undo_stack b) true.

Definition break_undo_group (b : EditBuffer) : EditBuffer :=
  mkEdit (e_chars b) (point b) (undo_stack b) false.

Definition undo (b : EditBuffer) : EditBuffer :=
  match last (undo_stack b) with
  | Some (cs, p) => mkEdit cs p (take (length (undo_stack b) - 1) (undo_stack b)) false
  | None => break_undo_group b
  end.

Definition clear (b : EditBuffer) : EditBuffer :=
  with_point 0 (with_chars [] (snapshot b)).

Definition insert_one (b : EditBuffer) (c : Z) : option EditBuffer :=
  cs ← vec_insert (point b) c (e_chars b); Some (with_point (point b + 1) (with_chars cs b)).

Definition insert (b : EditBuffer) (c : Z) : option EditBuffer := insert_one (snapshot_insert b) c.

Fixpoint insert_each (b : EditBuffer) (s : list Z) : option EditBuffer :=
  match s with
  | [] => Some b
  | c :: s => b ← insert_one b c; insert_each b s
  end.

Definition insert_str (b : EditBuffer) (s : list Z) : option EditBuffer := insert_each (snapshot_insert b) s.

Definition delete_forward (b : EditBuffer) : option EditBuffer :=
  if (length (e_chars b) <=? point b)%nat then Some b
  else let b := snapshot b in cs ← vec_remove (point b) (e_chars b); Some (with_chars cs b).

Definition backward_delete (b : EditBuffer) : option EditBuffer :=
  if (point b =? 0)%nat then Some b
  else let b := with_point (point b - 1) (snapshot b) in
       cs ← vec_remove (point b) (e_chars b); Some (with_chars cs b).

Definition move_left (b : EditBuffer) : EditBuffer := if (0 <? point b)%nat then with_point (point b - 1) b else b.
Definition move_right (b : EditBuffer) : EditBuffer :=
  if (point b <? length (e_chars b))%nat then with_point (point b + 1) b else b.
Definition move_home (b : EditBuffer) : EditBuffer := with_point 0 b.
Definition move_end (b : EditBuffer) : EditBuffer := with_point (length (e_chars b)) b.

(** The loop of [char_index_for_byte] from character [index] at byte [offset]. *)
Fixpoint index_for_byte (cs : list Z) (byte index offset : nat) : nat :=
  match cs with
  | [] => index
  | c :: cs => if (byte <=? offset)%nat then index else index_for_byte cs byte (S index) (offset + len_utf8 c)
  end.

Definition char_index_for_byte (b : EditBuffer) (byte : nat) : nat := index_for_byte (e_chars b) byte 0 0.

Definition set_byte_point (b : EditBuffer) (byte : nat) : EditBuffer := with_point (char_index_for_byte b byte) b.
Definition set_char_point (b : EditBuffer) (p : nat) : EditBuffer := with_point (Nat.min p (length (e_chars b))) b.

Definition buf_slice (b : EditBuffer) (start end_ : nat) : option (list Z) :=
  let start := Nat.min start (length (e_chars b)) in
  let end_ := Nat.max (Nat.min end_ (length (e_chars b))) start in
  get_slice start end_ (e_chars b).

Definition move_visual_line (b : EditBuffer) (columns : nat) (direction : Z) : EditBuffer :=
  let columns := Nat.max columns 1 in
  let row := (point b / columns)%nat in
  let column := (point b mod columns)%nat in
  let target_row := if direction <? 0 then (row - 1)%nat else (row + 1)%nat in
  with_point (Nat.min (target_row * columns + column) (length (e_chars b))) b.

(** The first index from [i] on that holds [needle]. *)
Fixpoint find_from (i : nat) (needle : Z) (cs : list Z) : option nat :=
  match cs with
  | [] => None
  | c :: cs => if c =? needle then Some i else find_from (S i) needle cs
  end.

Definition find_forward (b : EditBuffer) (needle : Z) (include : bool) : option nat :=
  (fun i => if include then i else (i - 1)%nat)
    <$> find_from (point b + 1) needle (drop (point b + 1) (e_chars b)).

Fixpoint rposition (needle : Z) (cs : list Z) : option nat :=
  match cs with
  | [] => None
  | c :: cs => match rposition needle cs with
               | Some i => Some (S i)
               | None => if c =? needle then Some 0%nat else None
               end
  end.

Definition find_backward (b : EditBuffer) (needle : Z) (include : bool) : option (option nat) :=
  cs ← get_slice 0 (point b) (e_chars b);
  Some ((fun i => if include then i else (i + 1)%nat) <$> rposition needle cs).

Definition kill_to_end (b : EditBuffer) : option (list Z * EditBuffer) :=
  let b := snapshot b in
  tail ← get_slice (point b) (length (e_chars b)) (e_chars b);
  Some (tail, with_chars (take (point b) (e_chars b)) b).

Definition kill_to_beginning (b : EditBuffer) : option (list Z * EditBuffer) :=
  let b := snapshot b in
  head ← get_slice 0 (point b) (e_chars b);
  cs ← vec_drain 0 (point b) (e_chars b);
  Some (head, with_point 0 (with_chars cs b)).

Definition kill_range (b : EditBuffer) (left right : nat) : option (list Z * EditBuffer) :=
  let left := Nat.min left (length (e_chars b)) in
  let right := Nat.min right (length (e_chars b)) in
  let '(start, end_) := if (left <=? right)%nat then (left, right) else (right, left) in
  if (start =? end_)%nat then Some ([], b)
  else
    let b := snapshot b in
    killed ← get_slice start end_ (e_chars b);
    cs ← vec_drain start end_ (e_chars b);
    Some (killed, with_point start (with_chars cs b)).

Definition replace_char_range (b : EditBuffer) (start end_ : nat) (value : list Z) : option EditBuffer :=
  let start := Nat.min start (length (e_chars b)) in
  let end_ := Nat.max (Nat.min end_ (length (e_chars b))) start in
  let b := snapshot b in
  cs ← vec_splice start end_ value (e_chars b);
  Some (with_point (start + length value) (with_chars cs b)).

Definition vec_swap (i j : nat) (l : list Z) : option (list Z) :=
  x ← l !! i; y ← l !! j; Some (<[j := x]> (<[i := y]> l)).

Definition transpose_chars (b : EditBuffer) : option EditBuffer :=
  if (length (e_chars b) <? 2)%nat then Some b
  else
    let idx := if (length (e_chars b) <=? point b)%nat then (length (e_chars b) - 1)%nat
               else Nat.max (point b) 1 in
    if (idx =? 0)%nat then Some b
    else
      let b := snapshot b in
      cs ← vec_swap (idx - 1) idx (e_chars b);
      let b := with_chars cs b in
      Some (if (point b <? length (e_chars b))%nat then with_point (point b + 1) b else b).

Definition replace_all (b : EditBuffer) (s : list Z) : EditBuffer :=
  with_point (length s) (with_chars s (snapshot b)).

Definition replace_all_at_byte (b : EditBuffer) (value : list Z) (byte : nat) : EditBuffer :=
  set_byte_point (replace_all b value) byte.

(** * Words *)

Section Words.
Context `{Unicode}.

Definition is_word_char (c : Z) : bool := is_alphanumeric c || (c =? "_"%b).

(** [while p > 0 && test(chars[p - 1]) { p -= 1 }]. *)
Fixpoint scan_left (test : Z -> bool) (cs : list Z) (p : nat) : nat :=
  match p with
  | O => O
  | S q => match cs !! q with
           | Some c => if test c then scan_left test cs q else p
           | None => p
           end
  end.

(** [while p < chars.len() && test(chars[p]) { p += 1 }], on [drop p chars]. *)
Fixpoint scan_right (test : Z -> bool) (rest : list Z) (p : nat) : nat :=
  match rest with
  | c :: rest => if test c then scan_right test rest (S p) else p
  | [] => p
  end.

Definition word_left (cs : list Z) (p : nat) : nat :=
  scan_left is_word_char cs (scan_left (fun c => negb (is_word_char c)) cs p).

Definition word_right (cs : list Z) (p : nat) : nat :=
  let p1 := scan_right (fun c => negb (is_word_char c)) (drop p cs) p in
  scan_right is_word_char (drop p1 cs) p1.

Definition move_word_left (b : EditBuffer) : EditBuffer := with_point (word_left (e_chars b) (point b)) b.
Definition move_word_right (b : EditBuffer) : EditBuffer := with_point (word_right (e_chars b) (point b)) b.
Definition word_left_point (b : EditBuffer) : nat := word_left (e_chars b) (point b).
Definition word_right_point (b : EditBuffer) : nat := word_right (e_chars b) (point b).

Definition backward_kill_word (b : EditBuffer) : option (list Z * EditBuffer) :=
  let end_ := point b in
  let b := snapshot (move_word_left b) in
  killed ← get_slice (point b) end_ (e_chars b);
  cs ← vec_drain (point b) end_ (e_chars b);
  Some (killed, with_chars cs b).

Definition forward_kill_word (b : EditBuffer) : option (list Z * EditBuffer) :=
  let start := point b in
  let end_ := point (move_word_right b) in
  let b := snapshot b in
  killed ← get_slice start end_ (e_chars b);
  cs ← vec_drain start end_ (e_chars b);
  Some (killed, with_chars cs b).

Fixpoint word_ranges_loop (fuel : nat) (cs : list Z) (index : nat) : list (nat * nat) :=
  match fuel with
  | O => []
  | S fuel =>
      if (index <? length cs)%nat then
        let start := scan_right (fun c => negb (is_word_char c)) (drop index cs) index in
        let end_ := scan_right is_word_char (drop start cs) start in
        (if (start <? end_)%nat then [(start, end_)] else []) ++ word_ranges_loop fuel cs end_
      else []
  end.

(** Each round moves on, so as many rounds as characters are enough. *)
Definition word_ranges (cs : list Z) : list (nat * nat) := word_ranges_loop (length cs) cs 0.

Fixpoint position {A} (test : A -> bool) (l : list A) : option nat :=
  match l with
  | [] => None
  | a :: l => if test a then Some 0%nat else S <$> position test l
  end.

Definition transpose_words (b : EditBuffer) : option EditBuffer :=
  let ranges := word_ranges (e_chars b) in
  if (length ranges <? 2)%nat then Some b
  else
    let right_index :=
      match position (fun '(s, e) => (s <=? point b)%nat && (point b <=? e)%nat) ranges with
      | Some i => i
      | None => default (length ranges - 1)%nat (position (fun '(s, _) => (point b <? s)%nat) ranges)
      end in
    if (right_index =? 0)%nat then Some b
    else
      l ← ranges !! (right_index - 1)%nat;
      r ← ranges !! right_index;
      let '(left_start, left_end) := l in
      let '(right_start, right_end) := r in
      left ← get_slice left_start left_end (e_chars b);
      middle ← get_slice left_end right_start (e_chars b);
      right ← get_slice right_start right_end (e_chars b);
      let b := snapshot b in
      cs ← vec_splice left_start right_end (right ++ middle ++ left) (e_chars b);
      Some (with_point right_end (with_chars cs b)).

Definition ascii_upper (c : Z) : Z := if is_ascii_lower c then c - 32 else c.
Definition ascii_lower (c : Z) : Z := to_ascii_lowercase c.

(** [for i in start..end { chars[i] = f(chars[i]) }] with a state. *)
Fixpoint map_accum {S} (f : S -> Z -> Z * S) (s : S) (l : list Z) : list Z :=
  match l with
  | [] => []
  | c :: l => let '(c, s) := f s c in c :: map_accum f s l
  end.

Definition change_word {S} (f : S -> Z -> Z * S) (s : S) (b : EditBuffer) : option EditBuffer :=
  let start := point b in
  let b := snapshot (move_word_right b) in
  mid ← get_slice start (point b) (e_chars b);
  cs ← vec_splice start (point b) (map_accum f s mid) (e_chars b);
  Some (with_chars cs b).

Definition case_map_word (f : Z -> Z) : EditBuffer -> option EditBuffer :=
  change_word (fun (_ : unit) c => (f c, tt)) tt.

Definition upcase_word := case_map_word ascii_upper.
Definition downcase_word := case_map_word ascii_lower.

Definition capitalize_word : EditBuffer -> option EditBuffer :=
  change_word (fun seen c => if is_alphabetic c
                             then ((if (seen : bool) then ascii_lower c else ascii_upper c), true)
                             else (c, false)) false.

(** * Completion *)

Fixpoint common_chars (a b : list Z) : list Z :=
  match a, b with
  | x :: a, y :: b => if x =? y then x :: common_chars a b else []
  | _, _ => []
  end.

(** The prefixes are compared character by character; [end] is kept in bytes,
    and the bytes of a prefix grow with its characters. *)
Fixpoint common_loop (first : list Z) (end_ : list Z) (rest : list (list Z)) : list Z :=
  match rest with
  | [] => end_
  | s :: rest =>
      let new_end := common_chars first s in
      let end_ := if (length new_end <? length end_)%nat then new_end else end_ in
      if is_nil end_ then [] else common_loop first end_ rest
  end.

Definition common_prefix (ms : list (list Z)) : list Z :=
  match ms with
  | [] => []
  | first :: rest => common_loop first first rest
  end.

Definition ends_with_slash (s : list Z) : bool := bool_decide (last s = Some "/"%b).

Definition chars_eqb (a b : list Z) : bool := bytes_eqb a b.

Definition apply_completion_result (b : EditBuffer) (c : Completion) :
    option (CompletionApplication * EditBuffer) :=
  match matches c with
  | [] => Some (NoMatches, b)
  | m :: more =>
      let single := is_nil more in
      let before := e_chars b in
      let word_start := char_index_for_byte b (replace_start c) in
      cur_word ← get_slice word_start (point b) (e_chars b);
      let common := common_prefix (matches c) in
      let chosen := if single then Some m
                    else if (length cur_word <? length common)%nat then Some common else None in
      match chosen with
      | None => Some (Ambiguous false, b)
      | Some chosen =>
          let b := snapshot b in
          head ← get_slice 0 word_start (e_chars b);
          tail ← get_slice (point b) (length (e_chars b)) (e_chars b);
          let b := with_point (word_start + length chosen) (with_chars (head ++ chosen ++ tail) b) in
          b ← (if single && negb (suppress_append c) && negb (filenames c && ends_with_slash chosen)
               then match append_character c with Some ch => insert_one b ch | None => Some b end
               else Some b);
          let changed := negb (chars_eqb (e_chars b) before) in
          Some (if single then Unique changed else Ambiguous changed, b)
      end
  end.

Definition replace_completion (b : EditBuffer) (c : Completion) (chosen : list Z) : option EditBuffer :=
  let start := char_index_for_byte b (replace_start c) in
  b ← replace_char_range b start (point b) chosen;
  if negb (suppress_append c || filenames c && ends_with_slash chosen)
  then match append_character c with Some ch => insert b ch | None => Some b end
  else Some b.
End Words.

#[global] Instance ascii_unicode : Unicode :=
  { is_alphanumeric := is_ascii_alphanumeric; is_alphabetic := is_ascii_alphabetic }.

Definition typed (s : string) : EditBuffer := default EditBuffer_new (insert_str EditBuffer_new (bs s)).

Example tests_edit :
  e_chars <$> transpose_words (typed "one two") = Some (bs "two one")
  /\ e_chars (undo (break_undo_group (typed "typed"))) = []
  /\ (e_chars ∘ snd <$> apply_completion_result (typed "s") (mkCompletion [bs "source"; bs "sort"] 0 false None false))
     = Some (bs "so")
  /\ (fst <$> apply_completion_result (typed "so") (mkCompletion [bs "source"; bs "sort"] 0 false None false))
     = Some (Ambiguous false)
  /\ (e_chars ∘ snd <$> apply_completion_result (set_char_point (typed "echo appl suffix") 9)
        (mkCompletion [bs "apple"] 5 false (Some 32) false)) = Some (bs "echo apple  suffix").
Proof. vm_compute. repeat split. Qed.
