(* ===== verification/EditProps.v ===== *)
(** The edit buffer and the kill ring: editing never panics, undo and yank
    restore the text, completion inserts the longest common prefix, and what
    the ring remembers. *)
From stdpp Require Import sets.
From S2P Require Import Prelude Utf8 EditBuffer.

(** * Slices in range *)

Lemma get_slice_ok i j (l : list Z) : (i <= j <= length l)%nat -> get_slice i j l = Some (slice l i j).
Proof. intros [H1 H2]. unfold get_slice. by rewrite (proj2 (Nat.leb_le i j)), (proj2 (Nat.leb_le j _)). Qed.

Lemma vec_drain_ok i j (l : list Z) : (i <= j <= length l)%nat -> vec_drain i j l = Some (take i l ++ drop j l).
Proof. intros [H1 H2]. unfold vec_drain. by rewrite (proj2 (Nat.leb_le i j)), (proj2 (Nat.leb_le j _)). Qed.

Lemma vec_splice_ok i j n (l : list Z) : (i <= j <= length l)%nat ->
  vec_splice i j n l = Some (take i l ++ n ++ drop j l).
Proof. intros [H1 H2]. unfold vec_splice. by rewrite (proj2 (Nat.leb_le i j)), (proj2 (Nat.leb_le j _)). Qed.

Lemma vec_insert_ok i c (l : list Z) : (i <= length l)%nat -> vec_insert i c l = Some (take i l ++ c :: drop i l).
Proof. intros H1. unfold vec_insert. by rewrite (proj2 (Nat.leb_le i _)). Qed.

Lemma vec_remove_ok i (l : list Z) : (i < length l)%nat -> vec_remove i l = Some (take i l ++ drop (S i) l).
Proof. intros H1. unfold vec_remove. by rewrite (proj2 (Nat.ltb_lt i _)). Qed.

Lemma buf_slice_length (l : list Z) i j : (i <= j <= length l)%nat -> length (slice l i j) = (j - i)%nat.
Proof. intros. unfold slice. rewrite length_take, length_drop. lia. Qed.

Lemma slice_parts (l : list Z) i j : (i <= j)%nat -> take i l ++ slice l i j ++ drop j l = l.
Proof.
  intros Hij. unfold slice. replace (drop j l) with (drop (j - i) (drop i l)) by (rewrite drop_drop; f_equal; lia).
  by rewrite !take_drop.
Qed.

(** * Motion by words *)

Section Motion.
Context `{Unicode}.

Lemma scan_left_le test cs p : (scan_left test cs p <= p)%nat.
Proof. induction p as [|p IH]; cbn [scan_left]; [done|]. repeat case_match; lia. Qed.

Lemma scan_right_bounds test rest p : (p <= scan_right test rest p <= p + length rest)%nat.
Proof.
  revert p. induction rest as [|c rest IH]; intros p; cbn [scan_right length]; [lia|].
  case_match; [specialize (IH (S p)); lia|lia].
Qed.

Lemma word_left_le cs p : (word_left cs p <= p)%nat.
Proof. unfold word_left. etransitivity; apply scan_left_le. Qed.

Lemma word_right_bounds cs p : (p <= length cs)%nat -> (p <= word_right cs p <= length cs)%nat.
Proof.
  intros Hp. unfold word_right. cbv zeta.
  pose proof (scan_right_bounds (fun c => negb (is_word_char c)) (drop p cs) p) as H1.
  set (p1 := scan_right _ (drop p cs) p) in *. rewrite length_drop in H1.
  pose proof (scan_right_bounds is_word_char (drop p1 cs) p1) as H2. rewrite length_drop in H2. lia.
Qed.

(** Ranges one after the other from [lo] on. *)
Fixpoint ranges_ok (lo hi : nat) (l : list (nat * nat)) : Prop :=
  match l with
  | [] => True
  | (s, e) :: l => (lo <= s < e)%nat /\ (e <= hi)%nat /\ ranges_ok e hi l
  end.

Lemma ranges_ok_weaken lo lo' hi l : (lo' <= lo)%nat -> ranges_ok lo hi l -> ranges_ok lo' hi l.
Proof. destruct l as [|[s e] l]; [done|]. cbn. intros ? (? & ? & ?). repeat split; try lia; done. Qed.

Lemma word_ranges_ok fuel cs i : (i <= length cs)%nat -> ranges_ok i (length cs) (word_ranges_loop fuel cs i).
Proof.
  revert i. induction fuel as [|fuel IH]; intros i Hi; cbn [word_ranges_loop]; [done|].
  destruct (i <? length cs)%nat; [|done].
  pose proof (scan_right_bounds (fun c => negb (is_word_char c)) (drop i cs) i) as H1.
  set (s := scan_right _ (drop i cs) i) in *. rewrite length_drop in H1.
  pose proof (scan_right_bounds is_word_char (drop s cs) s) as H2.
  set (e := scan_right _ (drop s cs) s) in *. rewrite length_drop in H2.
  specialize (IH e ltac:(lia)). destruct (Nat.ltb_spec s e); cbn.
  - repeat split; try lia. done.
  - by apply (ranges_ok_weaken e); [lia|].
Qed.

Lemma ranges_lookup lo hi l i s e s' e' : ranges_ok lo hi l ->
  l !! i = Some (s, e) -> l !! S i = Some (s', e') -> (s <= e <= s')%nat /\ (s' <= e' <= hi)%nat.
Proof.
  revert lo i. induction l as [|[a b] l IH]; intros lo i Hok H1 H2; [done|]. cbn in Hok. destruct Hok as (Ha & Hb & Hok).
  destruct i as [|i]; cbn in H1, H2.
  - injection H1 as -> ->. destruct l as [|[a' b'] l]; [done|]. injection H2 as -> ->. cbn in Hok. lia.
  - eauto.
Qed.
End Motion.

(** * Operations *)

Inductive EditOp :=
| OInsert (c : Z)
| OInsertStr (s : list Z)
| ODeleteForward
| OBackwardDelete
| OMoveLeft
| OMoveRight
| OMoveHome
| OMoveEnd
| OSetBytePoint (n : nat)
| OSetCharPoint (n : nat)
| OMoveWordLeft
| OMoveWordRight
| OMoveVisualLine (columns : nat) (direction : Z)
| OKillToEnd
| OKillToBeginning
| OBackwardKillWord
| OForwardKillWord
| OKillRange (left right : nat)
| OReplaceRange (start end_ : nat) (value : list Z)
| OTransposeChars
| OTransposeWords
| OUpcaseWord
| ODowncaseWord
| OCapitalizeWord
| OReplaceAll (s : list Z)
| OReplaceAllAt (s : list Z) (byte : nat)
| OClear
| OUndo
| OBreakUndoGroup
| OComplete (c : Completion)
| OReplaceCompletion (c : Completion) (chosen : list Z).

Section Ops.
Context `{Unicode}.

Definition apply_op (b : EditBuffer) (op : EditOp) : option EditBuffer :=
  match op with
  | OInsert c => insert b c
  | OInsertStr s => insert_str b s
  | ODeleteForward => delete_forward b
  | OBackwardDelete => backward_delete b
  | OMoveLeft => Some (move_left b)
  | OMoveRight => Some (move_right b)
  | OMoveHome => Some (move_home b)
  | OMoveEnd => Some (move_end b)
  | OSetBytePoint n => Some (set_byte_point b n)
  | OSetCharPoint n => Some (set_char_point b n)
  | OMoveWordLeft => Some (move_word_left b)
  | OMoveWordRight => Some (move_word_right b)
  | OMoveVisualLine columns direction => Some (move_visual_line b columns direction)
  | OKillToEnd => snd <$> kill_to_end b
  | OKillToBeginning => snd <$> kill_to_beginning b
  | OBackwardKillWord => snd <$> backward_kill_word b
  | OForwardKillWord => snd <$> forward_kill_word b
  | OKillRange l r => snd <$> kill_range b l r
  | OReplaceRange start end_ value => replace_char_range b start end_ value
  | OTransposeChars => transpose_chars b
  | OTransposeWords => transpose_words b
  | OUpcaseWord => upcase_word b
  | ODowncaseWord => downcase_word b
  | OCapitalizeWord => capitalize_word b
  | OReplaceAll s => Some (replace_all b s)
  | OReplaceAllAt s byte => Some (replace_all_at_byte b s byte)
  | OClear => Some (clear b)
  | OUndo => Some (undo b)
  | OBreakUndoGroup => Some (break_undo_group b)
  | OComplete c => snd <$> apply_completion_result b c
  | OReplaceCompletion c chosen => replace_completion b c chosen
  end.

(** The cursor is in the line, also in every state kept for undo, of which
    there are at most 128. *)
Definition wf (b : EditBuffer) : Prop :=
  (point b <= length (e_chars b))%nat
  /\ Forall (fun '(cs, p) => p <= length (cs : list Z))%nat (undo_stack b)
  /\ (length (undo_stack b) <= UNDO_MAX)%nat.

(** A completion replaces text before the cursor. *)
Definition op_ok (b : EditBuffer) (op : EditOp) : Prop :=
  match op with
  | OComplete c => match byte_point b with Some p => (replace_start c <= p)%nat | None => False end
  | _ => True
  end.

Lemma snapshot_wf b : wf b -> wf (snapshot b).
Proof.
  intros (Hp & HF & Hn). unfold snapshot, wf. cbn [e_chars point undo_stack].
  assert (Forall (fun '(cs, p) => p <= length (cs : list Z))%nat (undo_stack b ++ [(e_chars b, point b)])) as HF'.
  { apply Forall_app. by repeat constructor. }
  split; [done|]. case_match eqn:E; to_prop; [|split; [done|lia]].
  split; [by apply Forall_drop|]. rewrite length_drop, length_app. cbn. lia.
Qed.

(** What an edit leaves: the new text and cursor over the snapshot. *)
Lemma edit_wf b cs p co : wf b -> (p <= length cs)%nat -> wf (mkEdit cs p (undo_stack (snapshot b)) co).
Proof. intros Hb Hp. apply snapshot_wf in Hb as (_ & ? & ?). done. Qed.

Lemma move_wf b p : wf b -> (p <= length (e_chars b))%nat -> wf (with_point p b).
Proof. by intros (_ & ? & ?). Qed.

Lemma snapshot_insert_wf b : wf b -> wf (snapshot_insert b) /\ e_chars (snapshot_insert b) = e_chars b
  /\ point (snapshot_insert b) = point b.
Proof.
  intros Hb. unfold snapshot_insert. case_match; [done|]. split; [|done]. by apply (edit_wf b _ (point b)), Hb.
Qed.

Lemma insert_each_spec s b : (point b <= length (e_chars b))%nat ->
  insert_each b s = Some (mkEdit (take (point b) (e_chars b) ++ s ++ drop (point b) (e_chars b))
                            (point b + length s) (undo_stack b) (coalescing_insert b)).
Proof.
  revert b. induction s as [|c s IH]; intros b Hb; cbn [insert_each].
  { cbn [length app]. rewrite take_drop, Nat.add_0_r. by destruct b. }
  unfold insert_one. rewrite vec_insert_ok by done. cbn [mbind option_bind].
  rewrite IH; cbn [point e_chars with_point with_chars undo_stack coalescing_insert].
  - f_equal. f_equal; [|cbn [length]; lia].
    rewrite take_app, drop_app, !length_take, !Nat.min_l by lia.
    rewrite take_take, Nat.min_r by lia. replace (point b + 1 - point b)%nat with 1%nat by lia.
    rewrite (drop_ge (take (point b) (e_chars b))) by (rewrite length_take; lia). cbn [take drop app].
    by rewrite <- app_assoc.
  - rewrite length_app, length_take. cbn [length]. rewrite length_drop. lia.
Qed.

Lemma index_for_byte_bounds cs byte i o : (i <= index_for_byte cs byte i o <= i + length cs)%nat.
Proof.
  revert i o. induction cs as [|c cs IH]; intros i o; cbn [index_for_byte length]; [lia|].
  case_match; [lia|]. specialize (IH (S i) (o + len_utf8 c)%nat). lia.
Qed.

Lemma index_for_byte_before p cs byte i o :
  (byte <= o + sum_list (map len_utf8 (take p cs)))%nat -> (index_for_byte cs byte i o <= i + p)%nat.
Proof.
  revert p i o. induction cs as [|c cs IH]; intros p i o Hp; cbn [index_for_byte]; [lia|].
  destruct (Nat.leb_spec byte o); [lia|].
  destruct p as [|p]; cbn in Hp; [lia|]. specialize (IH p (S i) (o + len_utf8 c)%nat ltac:(lia)). lia.
Qed.

Lemma completion_start b c : (point b <= length (e_chars b))%nat -> op_ok b (OComplete c) ->
  (char_index_for_byte b (replace_start c) <= point b)%nat.
Proof.
  intros Hp. cbn [op_ok]. unfold byte_point. rewrite get_slice_ok by lia. cbn [mbind option_bind].
  unfold slice. rewrite Nat.sub_0_r, drop_0. intros Hr.
  apply (index_for_byte_before (point b) _ _ 0 0). cbn. done.
Qed.
End Ops.

(** * What an operation does to text and undo list *)

(** The length of the text an edit builds. *)
Ltac edit_len :=
  cbn [e_chars with_chars snapshot point with_point move_word_left move_word_right] in *;
  rewrite ?length_app, ?length_take, ?length_drop, ?length_insert;
  repeat rewrite buf_slice_length by (cbn; lia); cbn [length]; try lia.

Section Outcomes.
Context `{Unicode}.

Definition in_line (b : EditBuffer) : Prop := (point b <= length (e_chars b))%nat.

(** The text is as before, or was changed after a snapshot of it. *)
Definition kept (b b' : EditBuffer) : Prop :=
  e_chars b' = e_chars b /\ undo_stack b' = undo_stack b /\ in_line b'.
Definition edited (b b' : EditBuffer) : Prop :=
  exists b0, e_chars b0 = e_chars b /\ undo_stack b0 = undo_stack b /\ in_line b0
  /\ undo_stack b' = undo_stack (snapshot b0) /\ in_line b'.

Definition outcome (b : EditBuffer) (r : option EditBuffer) : Prop :=
  exists b', r = Some b' /\ (kept b b' \/ edited b b').

Lemma kept_outcome b b' : kept b b' -> outcome b (Some b').
Proof. intros Hk. exists b'. by split; [|left]. Qed.

Lemma edit_outcome b b0 cs p co : e_chars b0 = e_chars b -> undo_stack b0 = undo_stack b -> in_line b0 ->
  (p <= length cs)%nat -> outcome b (Some (mkEdit cs p (undo_stack (snapshot b0)) co)).
Proof. intros. eexists. split; [done|]. right. by exists b0. Qed.

Lemma kill_outcome b b0 i j p : e_chars b0 = e_chars b -> undo_stack b0 = undo_stack b -> in_line b0 ->
  (i <= j <= length (e_chars b0))%nat -> (p <= i)%nat ->
  outcome b (Some (mkEdit (take i (e_chars b0) ++ drop j (e_chars b0)) p (undo_stack (snapshot b0)) false)).
Proof. intros. apply edit_outcome; try done. edit_len. Qed.

Lemma map_accum_length {S} (f : S -> Z -> Z * S) s l : length (map_accum f s l) = length l.
Proof. revert s. induction l as [|c l IH]; intros s; [done|]. cbn. destruct (f s c). cbn. by rewrite IH. Qed.

Lemma change_word_outcome {S} (f : S -> Z -> Z * S) s b : wf b -> outcome b (change_word f s b).
Proof.
  intros Hb. pose proof (word_right_bounds (e_chars b) (point b) (proj1 Hb)) as Hr.
  unfold change_word. cbn [point snapshot move_word_right with_point e_chars].
  rewrite get_slice_ok by lia. cbn [mbind option_bind].
  rewrite vec_splice_ok by lia. cbn [mbind option_bind].
  apply (edit_outcome b (move_word_right b)); try done; [unfold in_line; cbn; lia|].
  cbn [e_chars with_chars snapshot]. rewrite !length_app, map_accum_length. edit_len.
Qed.

Lemma snapshot_chars b : e_chars (snapshot b) = e_chars b.
Proof. done. Qed.
Lemma snapshot_point b : point (snapshot b) = point b.
Proof. done. Qed.

Lemma position_lt {A} (f : A -> bool) l i : position f l = Some i -> (i < length l)%nat.
Proof.
  revert i. induction l as [|r l IH]; intros i; cbn [position length]; [done|].
  destruct (f r); [intros [= <-]; lia|]. destruct (position f l) as [k|]; [|done]. cbn. intros [= <-].
  specialize (IH k eq_refl). lia.
Qed.

Lemma transpose_words_outcome b : wf b -> outcome b (transpose_words b).
Proof.
  intros Hb. unfold transpose_words. set (ranges := word_ranges (e_chars b)).
  assert (Hok : ranges_ok 0 (length (e_chars b)) ranges) by (apply word_ranges_ok; lia).
  clearbody ranges.
  destruct (length ranges <? 2)%nat eqn:Hn; [by apply kept_outcome; destruct Hb|]. apply Nat.ltb_ge in Hn.
  set (ri := match position _ ranges with Some i => i | None => _ end).
  assert (ri < length ranges)%nat as Hri.
  { unfold ri. destruct (position _ ranges) as [i|] eqn:E1; [by eapply position_lt|].
    match goal with |- context [default _ ?o] => destruct o as [i|] eqn:E2 end; cbn [default from_option id];
      [by eapply position_lt|lia]. }
  clearbody ri. destruct (Nat.eqb_spec ri 0); [by apply kept_outcome; destruct Hb|].
  destruct (lookup_lt_is_Some_2 ranges (ri - 1)) as [[ls le] Hl]; [lia|].
  destruct (lookup_lt_is_Some_2 ranges ri) as [[rs re] Hr]; [lia|].
  rewrite Hl, Hr. cbn [mbind option_bind].
  pose proof (ranges_lookup _ _ _ (ri - 1) _ _ _ _ Hok Hl ltac:(by replace (S (ri - 1)) with ri by lia)) as [H1 H2].
  rewrite !get_slice_ok by (rewrite ?snapshot_chars; lia). cbn [mbind option_bind].
  rewrite vec_splice_ok by (rewrite ?snapshot_chars; lia). cbn [mbind option_bind].
  apply (edit_outcome b b); [done|done|apply Hb|].
  edit_len.
Qed.

Lemma completion_outcome b c : wf b -> op_ok b (OComplete c) -> outcome b (snd <$> apply_completion_result b c).
Proof.
  intros Hb Hok. pose proof (completion_start b c (proj1 Hb) Hok) as Hs. unfold apply_completion_result.
  destruct Hb as [Hp _]. destruct (matches c) as [|m more]; [by apply kept_outcome|].
  set (ws := char_index_for_byte b (replace_start c)) in *. rewrite (get_slice_ok ws (point b)) by lia. cbn [mbind option_bind].
  set (ch := if is_nil more then Some m else _). destruct ch as [chosen|]; [|by apply kept_outcome].
  rewrite !get_slice_ok by (rewrite ?snapshot_chars, ?snapshot_point; lia). cbn [mbind option_bind].
  set (b1 := with_point _ _).
  assert (Hb1 : in_line b1).
  { unfold in_line, b1. edit_len. }
  assert (Hfin : forall b2, e_chars b2 = e_chars b2 -> undo_stack b2 = undo_stack (snapshot b) -> in_line b2 -> edited b b2).
  { intros b2 _ Hu Hi. by exists b. }
  destruct (is_nil more && _ && _).
  - destruct (append_character c) as [x|].
    + unfold insert_one. rewrite vec_insert_ok by exact Hb1. cbn [mbind option_bind fmap option_fmap option_map snd].
      eexists. split; [done|]. right. apply Hfin; [done|done|]. unfold in_line in *. cbn.
      cbn in Hb1. rewrite length_app, length_take. cbn [length]. rewrite length_drop. lia.
    + cbn [mbind option_bind fmap option_fmap option_map snd]. eexists. split; [done|]. right. by apply Hfin.
  - cbn [mbind option_bind fmap option_fmap option_map snd]. eexists. split; [done|]. right. by apply Hfin.
Qed.

(** The operations other than typing, undoing and replacing by a candidate
    keep the text or change it after one snapshot. *)
Definition one_step (op : EditOp) : bool :=
  match op with
  | OInsert _ | OInsertStr _ | OUndo | OReplaceCompletion _ _ => false
  | _ => true
  end.

Lemma op_outcome b op : wf b -> op_ok b op -> one_step op = true -> outcome b (apply_op b op).
Proof.
  intros Hb Hok Hone. assert (Hp := proj1 Hb).
  assert (Hmove : forall p, (p <= length (e_chars b))%nat -> outcome b (Some (with_point p b)))
    by (intros; by apply kept_outcome).
  destruct op; cbn [one_step] in Hone; try discriminate Hone; cbn [apply_op].
  - unfold delete_forward. destruct (Nat.leb_spec (length (e_chars b)) (point b)); [by apply kept_outcome|].
    rewrite vec_remove_ok by (rewrite ?snapshot_chars, ?snapshot_point; lia). cbn [mbind option_bind].
    apply edit_outcome; try done. edit_len.
  - unfold backward_delete. destruct (Nat.eqb_spec (point b) 0); [by apply kept_outcome|].
    cbn [point with_point e_chars snapshot]. rewrite vec_remove_ok by lia. cbn [mbind option_bind].
    apply edit_outcome; try done. edit_len.
  - unfold move_left. case_match; [apply Hmove; lia|by apply kept_outcome].
  - unfold move_right. destruct (Nat.ltb_spec (point b) (length (e_chars b))); [apply Hmove; lia|by apply kept_outcome].
  - apply Hmove. lia.
  - apply Hmove. lia.
  - apply Hmove. pose proof (index_for_byte_bounds (e_chars b) n 0 0). unfold char_index_for_byte. lia.
  - apply Hmove. lia.
  - apply Hmove. etransitivity; [apply word_left_le|done].
  - apply Hmove. by apply word_right_bounds.
  - apply Hmove. lia.
  - unfold kill_to_end. rewrite get_slice_ok by (rewrite ?snapshot_chars, ?snapshot_point; lia).
    cbn [mbind option_bind fmap option_fmap option_map snd]. apply edit_outcome; try done.
    edit_len.
  - unfold kill_to_beginning. rewrite get_slice_ok, vec_drain_ok by (rewrite ?snapshot_chars, ?snapshot_point; lia).
    cbn [mbind option_bind fmap option_fmap option_map snd]. apply edit_outcome; try done. cbn. lia.
  - unfold backward_kill_word. pose proof (word_left_le (e_chars b) (point b)).
    cbn [point snapshot move_word_left with_point e_chars].
    rewrite get_slice_ok, vec_drain_ok by lia. cbn [mbind option_bind fmap option_fmap option_map snd].
    apply (kill_outcome b (move_word_left b)); try done; unfold in_line; cbn; lia.
  - unfold forward_kill_word. pose proof (word_right_bounds (e_chars b) (point b) Hp).
    cbn [point snapshot move_word_right with_point e_chars].
    rewrite get_slice_ok, vec_drain_ok by lia. cbn [mbind option_bind fmap option_fmap option_map snd].
    by apply kill_outcome.
  - unfold kill_range. set (l := Nat.min _ _). set (r := Nat.min right _).
    destruct (if (l <=? r)%nat then _ else _) as [s e] eqn:Ese.
    assert (s <= e <= length (e_chars b))%nat as Hse.
    { destruct (Nat.leb_spec l r); injection Ese as <- <-; lia. }
    destruct (s =? e)%nat; [by apply kept_outcome|].
    rewrite get_slice_ok, vec_drain_ok by (rewrite ?snapshot_chars; lia).
    cbn [mbind option_bind fmap option_fmap option_map snd]. by apply (kill_outcome b b s e s).
  - unfold replace_char_range. rewrite vec_splice_ok by (rewrite ?snapshot_chars; lia). cbn [mbind option_bind].
    apply edit_outcome; try done. edit_len.
  - unfold transpose_chars. destruct (Nat.ltb_spec (length (e_chars b)) 2); [by apply kept_outcome|].
    set (idx := if (_ <=? _)%nat then _ else _).
    assert (0 < idx < length (e_chars b))%nat as Hidx.
    { unfold idx. destruct (Nat.leb_spec (length (e_chars b)) (point b)); lia. }
    destruct (Nat.eqb_spec idx 0); [lia|]. unfold vec_swap. rewrite snapshot_chars.
    destruct (lookup_lt_is_Some_2 (e_chars b) (idx - 1)) as [x ->]; [lia|].
    destruct (lookup_lt_is_Some_2 (e_chars b) idx) as [y ->]; [lia|]. cbn [mbind option_bind].
    cbn [point e_chars with_chars snapshot]. rewrite !length_insert.
    destruct (Nat.ltb_spec (point b) (length (e_chars b))); apply edit_outcome; try done; edit_len.
  - by apply transpose_words_outcome.
  - by apply change_word_outcome.
  - by apply change_word_outcome.
  - by apply change_word_outcome.
  - by apply edit_outcome.
  - unfold replace_all_at_byte, set_byte_point. apply (edit_outcome b b); try done. cbn.
    pose proof (index_for_byte_bounds s byte 0 0). unfold char_index_for_byte. cbn. lia.
  - apply edit_outcome; try done.
  - by apply kept_outcome.
  - by apply completion_outcome.
Qed.
End Outcomes.

(** * Theorems on the buffer *)

Section EditTheorems.
Context `{Unicode}.

Lemma outcome_wf b b' : wf b -> kept b b' \/ edited b b' -> wf b'.
Proof.
  intros (Hp & HF & Hn) [(Hc & Hu & Hi)|(b0 & Hc & Hu & Hi0 & Hs & Hi)].
  - unfold wf. rewrite Hu. done.
  - assert (Hw0 : wf b0) by (split; [done|by rewrite Hu]). apply snapshot_wf in Hw0 as (_ & ? & ?).
    split; [done|]. by rewrite Hs.
Qed.

Lemma insert_str_wf b s : wf b -> exists b', insert_str b s = Some b' /\ wf b'.
Proof.
  intros Hb. destruct (snapshot_insert_wf b Hb) as (Hw & Hc & Hp). unfold insert_str.
  rewrite insert_each_spec by apply Hw. eexists. split; [done|]. destruct Hw as (Hw & ? & ?). split; [|done].
  cbn. rewrite !length_app, length_take, length_drop. lia.
Qed.

Lemma insert_as_str b c : insert b c = insert_str b [c].
Proof. unfold insert, insert_str, insert_each. by destruct (insert_one _ c). Qed.

Lemma undo_wf b : wf b -> wf (undo b).
Proof.
  intros (Hp & HF & Hn). unfold undo. destruct (last (undo_stack b)) as [[cs p]|] eqn:Hl; [|done].
  assert (HF' := HF). rewrite Forall_lookup in HF. rewrite last_lookup in Hl. specialize (HF _ _ Hl). split; [done|].
  split; [by apply Forall_take|]. cbn. rewrite length_take. lia.
Qed.

(** Editing never panics: every operation on a well-formed buffer, with a
    completion that replaces text before the cursor, returns a well-formed
    buffer, with the cursor in the line and at most 128 states to undo. *)
Theorem editing_is_safe (b : EditBuffer) (op : EditOp) (Hb : wf b) (Hok : op_ok b op) :
  exists b', apply_op b op = Some b' /\ wf b'.
Proof.
  destruct (one_step op) eqn:Hone.
  { destruct (op_outcome b op Hb Hok Hone) as (b' & He & Ho). exists b'. split; [done|]. by eapply outcome_wf. }
  destruct op; try discriminate Hone; cbn [apply_op].
  - rewrite insert_as_str. by apply insert_str_wf.
  - by apply insert_str_wf.
  - eexists. split; [done|]. by apply undo_wf.
  - unfold replace_completion.
    destruct (op_outcome b (OReplaceRange (char_index_for_byte b (replace_start c)) (point b) chosen) Hb I eq_refl)
      as (b' & He & Ho). cbn [apply_op] in He. rewrite He. cbn [mbind option_bind].
    assert (wf b') by (by eapply outcome_wf). destruct (negb _); [|by exists b'].
    destruct (append_character c); [|by exists b']. rewrite insert_as_str. by apply insert_str_wf.
Qed.

Lemma undo_snapshot b0 b : undo_stack b = undo_stack (snapshot b0) -> e_chars (undo b) = e_chars b0 /\ point (undo b) = point b0.
Proof.
  intros Hu. unfold undo. rewrite Hu. unfold snapshot. cbn [undo_stack].
  assert (Hl : last (if (UNDO_MAX <? length (undo_stack b0 ++ [(e_chars b0, point b0)]))%nat
                     then drop 1 (undo_stack b0 ++ [(e_chars b0, point b0)])
                     else undo_stack b0 ++ [(e_chars b0, point b0)]) = Some (e_chars b0, point b0)).
  { case_match eqn:E; [|apply last_snoc]. apply Nat.ltb_lt in E. destruct (undo_stack b0) as [|x st].
    - cbn in E. unfold UNDO_MAX in E. lia.
    - cbn [app drop]. rewrite drop_0. apply last_snoc. }
  by rewrite Hl.
Qed.

(** Undo takes back the last edit: after any operation that changed the
    text other than typing, undo gives back the text before it; a run of
    typing is taken back as one, with the cursor. *)
Theorem undo_reverts (b : EditBuffer) (op : EditOp) (s : list Z) (Hb : wf b) (Hok : op_ok b op) :
  (one_step op = true ->
   exists b', apply_op b op = Some b' /\ (e_chars b' = e_chars b \/ e_chars (undo b') = e_chars b))
  /\ (coalescing_insert b = false ->
      exists b1 b2, insert b 97 = Some b1 /\ insert_str b1 s = Some b2
      /\ e_chars (undo b2) = e_chars b /\ point (undo b2) = point b).
Proof.
  split.
  - intros Hone. destruct (op_outcome b op Hb Hok Hone) as (b' & He & Ho). exists b'. split; [done|].
    destruct Ho as [(Hc & _)|(b0 & Hc & _ & _ & Hu & _)]; [by left|right].
    by rewrite (proj1 (undo_snapshot b0 b' Hu)).
  - intros Hco. rewrite insert_as_str. destruct (snapshot_insert_wf b Hb) as (Hw & Hc & Hp).
    unfold insert_str at 1. rewrite insert_each_spec by apply Hw. eexists. eexists. split; [done|].
    unfold insert_str, snapshot_insert at 1. cbn [coalescing_insert].
    assert (coalescing_insert (snapshot_insert b) = true) as -> by (unfold snapshot_insert; by rewrite Hco).
    rewrite insert_each_spec.
    + split; [done|]. apply undo_snapshot. cbn [undo_stack]. unfold snapshot_insert. by rewrite Hco.
    + cbn [e_chars point]. destruct Hw as [Hw _]. rewrite !length_app, length_take, length_drop. cbn [length]. lia.
Qed.

(** Killing and yanking back restores the text: whatever part is killed,
    inserting the killed text at the cursor gives the line before the kill. *)
Theorem kill_then_yank (b : EditBuffer) (l r : nat) (kill : EditBuffer -> option (list Z * EditBuffer))
    (Hb : wf b)
    (Hkill : kill ∈ [kill_to_end; kill_to_beginning; backward_kill_word; forward_kill_word;
                     fun b => kill_range b l r]) :
  exists killed b' b'', kill b = Some (killed, b') /\ insert_str b' killed = Some b''
  /\ e_chars b'' = e_chars b.
Proof.
  assert (Hyank : forall i j b', (i <= j <= length (e_chars b))%nat ->
    e_chars b' = take i (e_chars b) ++ drop j (e_chars b) -> point b' = i ->
    exists b'', insert_str b' (slice (e_chars b) i j) = Some b'' /\ e_chars b'' = e_chars b).
  { intros i j b' Hij Hc Hi. unfold insert_str.
    assert (e_chars (snapshot_insert b') = e_chars b' /\ point (snapshot_insert b') = point b') as [H1 H2]
      by (unfold snapshot_insert; by case_match).
    rewrite insert_each_spec; rewrite H1, H2, Hc, Hi.
    - eexists. split; [done|]. cbn [e_chars]. rewrite take_app_length', drop_app_length' by (rewrite length_take; lia).
      apply slice_parts. lia.
    - rewrite length_app, length_take. lia. }
  assert (Hp := proj1 Hb). apply list_elem_of_In in Hkill. cbn [In] in Hkill.
  destruct Hkill as [<-|[<-|[<-|[<-|[<-|[]]]]]].
  - unfold kill_to_end. rewrite get_slice_ok by (rewrite ?snapshot_chars, ?snapshot_point; lia). cbn [mbind option_bind].
    destruct (Hyank (point b) (length (e_chars b)) (with_chars (take (point b) (e_chars b)) (snapshot b))) as (b'' & Hy & He);
      [lia|cbn; by rewrite drop_all, app_nil_r|done|]. eauto 10.
  - unfold kill_to_beginning. rewrite get_slice_ok, vec_drain_ok by (rewrite ?snapshot_chars, ?snapshot_point; lia).
    cbn [mbind option_bind]. edestruct (Hyank 0%nat (point b)) as (b'' & Hy & He); [lia| | |eauto 10]; done.
  - unfold backward_kill_word. pose proof (word_left_le (e_chars b) (point b)).
    cbn [point snapshot move_word_left with_point e_chars]. rewrite get_slice_ok, vec_drain_ok by lia. cbn [mbind option_bind].
    edestruct (Hyank (word_left (e_chars b) (point b)) (point b)) as (b'' & Hy & He); [lia| | |eauto 10]; done.
  - unfold forward_kill_word. pose proof (word_right_bounds (e_chars b) (point b) Hp).
    cbn [point snapshot move_word_right with_point e_chars]. rewrite get_slice_ok, vec_drain_ok by lia. cbn [mbind option_bind].
    edestruct (Hyank (point b) (word_right (e_chars b) (point b))) as (b'' & Hy & He); [lia| | |eauto 10]; done.
  - unfold kill_range. set (l' := Nat.min _ _). set (r' := Nat.min r _).
    destruct (if (l' <=? r')%nat then _ else _) as [s e] eqn:Ese.
    assert (s <= e <= length (e_chars b))%nat as Hse.
    { destruct (Nat.leb_spec l' r'); injection Ese as <- <-; lia. }
    destruct (Nat.eqb_spec s e) as [->|].
    + destruct (insert_str_wf b [] Hb) as (b'' & Hi & _). exists [], b, b''. split; [done|]. split; [done|].
      unfold insert_str, insert_each in Hi. injection Hi as <-. unfold snapshot_insert. by destruct (coalescing_insert b).
    + rewrite get_slice_ok, vec_drain_ok by (rewrite ?snapshot_chars; lia). cbn [mbind option_bind].
      edestruct (Hyank s e) as (b'' & Hy & He); [lia| | |eauto 10]; done.
Qed.
End EditTheorems.

Lemma editing_is_safe_witness :
  exists b', apply_op (typed "one two") OTransposeWords = Some b' /\ wf b'.
Proof.
  apply (editing_is_safe (typed "one two") OTransposeWords); [|exact I].
  split; [vm_compute; lia|]. split; [repeat constructor|vm_compute; lia].
Defined.

Lemma undo_reverts_witness :
  exists b', apply_op (typed "abc") OKillToBeginning = Some b'
  /\ (e_chars b' = bs "abc" \/ e_chars (undo b') = bs "abc").
Proof.
  refine (proj1 (undo_reverts (typed "abc") OKillToBeginning [] _ I) eq_refl).
  split; [vm_compute; lia|]. split; [repeat constructor|vm_compute; lia].
Defined.

Lemma kill_then_yank_witness :
  exists killed b' b'', backward_kill_word (typed "one two") = Some (killed, b')
  /\ insert_str b' killed = Some b'' /\ e_chars b'' = bs "one two".
Proof.
  apply (kill_then_yank (typed "one two") 0 0 backward_kill_word).
  - split; [vm_compute; lia|]. split; [repeat constructor|vm_compute; lia].
  - apply list_elem_of_In. cbn. auto.
Defined.

(** * Completion *)

Lemma common_chars_prefix a b : common_chars a b `prefix_of` a /\ common_chars a b `prefix_of` b.
Proof.
  revert b. induction a as [|x a IH]; intros [|y b]; cbn [common_chars]; try (split; apply prefix_nil).
  destruct (Z.eqb_spec x y) as [->|]; [|split; apply prefix_nil].
  destruct (IH b). split; by apply prefix_cons.
Qed.

Lemma common_chars_longest a b p : p `prefix_of` a -> p `prefix_of` b -> p `prefix_of` common_chars a b.
Proof.
  revert a b. induction p as [|x p IH]; intros a b Ha Hb; [apply prefix_nil|].
  destruct a as [|y a]; [by apply prefix_nil_not in Ha|]. destruct b as [|z b]; [by apply prefix_nil_not in Hb|].
  pose proof (prefix_cons_inv_1 _ _ _ _ Ha). pose proof (prefix_cons_inv_1 _ _ _ _ Hb). subst.
  cbn [common_chars]. rewrite Z.eqb_refl. apply prefix_cons, IH; by eapply prefix_cons_inv_2.
Qed.

Lemma prefixes_ordered (a b c : list Z) : a `prefix_of` c -> b `prefix_of` c -> (length a <= length b)%nat -> a `prefix_of` b.
Proof.
  intros [x Hx] [y Hy] Hl. exists (drop (length a) b). rewrite <- (take_drop (length a) b) at 1. f_equal.
  rewrite Hx in Hy. apply (f_equal (take (length a))) in Hy. rewrite take_app_length, take_app_le in Hy by done. done.
Qed.

Lemma common_loop_spec first rest end_ : end_ `prefix_of` first ->
  common_loop first end_ rest `prefix_of` end_
  /\ Forall (prefix (common_loop first end_ rest)) rest
  /\ forall p, p `prefix_of` end_ -> Forall (prefix p) rest -> p `prefix_of` common_loop first end_ rest.
Proof.
  revert end_. induction rest as [|s rest IH]; intros end_ Hf; cbn [common_loop].
  { split; [done|]. split; [constructor|]. done. }
  set (e := if (_ <? _)%nat then _ else end_). destruct (common_chars_prefix first s) as [Hc1 Hc2].
  assert (He : e `prefix_of` end_ /\ e `prefix_of` s /\ e `prefix_of` first).
  { unfold e. destruct (Nat.ltb_spec (length (common_chars first s)) (length end_)).
    - split; [|done]. apply (prefixes_ordered _ _ first); auto with lia.
    - split; [done|]. split; [|done]. etransitivity; [|exact Hc2]. by apply (prefixes_ordered _ _ first). }
  assert (Hmax : forall p, p `prefix_of` end_ -> p `prefix_of` s -> p `prefix_of` e).
  { intros p H1 H2. unfold e. case_match; [|done]. apply common_chars_longest; [by transitivity end_|done]. }
  clearbody e. destruct He as (He1 & He2 & He3). destruct (IH e He3) as (I1 & I2 & I3).
  destruct e as [|x e']; cbn [is_nil].
  - split; [apply prefix_nil|]. split; [apply Forall_forall; intros; apply prefix_nil|].
    intros p H1 H2. inversion H2; subst. apply Hmax; done.
  - split; [by transitivity (x :: e')|]. split; [constructor; [by transitivity (x :: e')|done]|].
    intros p H1 H2. inversion H2; subst. apply I3; [by apply Hmax|done].
Qed.

(** What an ambiguous completion inserts is the longest common prefix of
    the candidates: it starts every candidate, and every text that does is a
    prefix of it. *)
Theorem common_prefix_longest (ms : list (list Z)) (Hne : ms <> []) :
  Forall (prefix (common_prefix ms)) ms
  /\ forall p, Forall (prefix p) ms -> p `prefix_of` common_prefix ms.
Proof.
  destruct ms as [|first rest]; [done|]. cbn [common_prefix].
  destruct (common_loop_spec first rest first (reflexivity _)) as (H1 & H2 & H3).
  split; [by constructor|]. intros p Hp. inversion Hp; subst. by apply H3.
Qed.

Lemma common_prefix_longest_witness :
  common_prefix [bs "source"; bs "sort"] = bs "so"
  /\ Forall (prefix (bs "so")) [bs "source"; bs "sort"].
Proof. split; [reflexivity|]. apply (common_prefix_longest [bs "source"; bs "sort"]). discriminate. Defined.

(** * The kill ring *)

Module Ring.
Import KillRing.

Fixpoint pushes (r : t) (ss : list (list Z)) : option t :=
  match ss with
  | [] => Some r
  | s :: ss => r ← push r s; pushes r ss
  end.

(** The ring holds the last eight of the kills [ss], at their number modulo 8. *)
Definition holds (r : t) (ss : list (list Z)) : Prop :=
  capacity r = 8%nat /\ length (entries r) = Nat.min (length ss) 8
  /\ (0 < length ss -> head r = (length ss - 1) mod 8)%nat
  /\ forall j, (length ss - 8 <= j < length ss)%nat -> entries r !! (j mod 8)%nat = ss !! j.

Lemma push_holds r ss s : holds r ss -> s <> [] -> exists r', push r s = Some r' /\ holds r' (ss ++ [s]).
Proof.
  intros (Hc & Hl & Hh & Hj) Hs. unfold push. rewrite Hc, Hl. destruct s as [|x s]; [done|]. cbn [is_nil].
  destruct (Nat.ltb_spec (Nat.min (length ss) 8) 8) as [Hlt|Hge].
  - eexists. split; [done|]. unfold holds. cbn [capacity entries head]. rewrite !length_app. cbn [length].
    assert (length ss < 8)%nat by lia. repeat split; [lia| |].
    + intros _. rewrite Hl, (Nat.mod_small _ 8) by lia. lia.
    + intros j Hj'. rewrite Nat.mod_small by lia. destruct (decide (j = length ss)) as [->|].
      * by rewrite !list_lookup_middle by lia.
      * rewrite !lookup_app_l by lia. rewrite <- Hj by lia. by rewrite Nat.mod_small by lia.
  - assert (8 <= length ss)%nat by lia. rewrite (Hh ltac:(lia)).
    assert ((((length ss - 1) mod 8 + 1) mod 8 = length ss mod 8)%nat) as ->.
    { rewrite Nat.Div0.add_mod_idemp_l. f_equal. lia. }
    pose proof (Nat.mod_upper_bound (length ss) 8 ltac:(lia)).
    unfold set_entry. rewrite Hl, (proj2 (Nat.ltb_lt _ _)) by lia. cbn [mbind option_bind].
    eexists. split; [done|]. unfold holds. cbn [capacity entries head]. rewrite length_insert, length_app. cbn [length].
    repeat split; [lia| |].
    + intros _. f_equal. lia.
    + intros j Hj'. destruct (decide (j = length ss)) as [->|].
      * rewrite list_lookup_insert_eq by lia. by rewrite list_lookup_middle.
      * pose proof (Nat.div_mod_eq (length ss) 8). pose proof (Nat.div_mod_eq j 8).
        assert (length ss mod 8 <> j mod 8)%nat by lia.
        rewrite list_lookup_insert_ne, Hj, lookup_app_l by lia. done.
Qed.

Lemma pushes_hold ss : forall r ss0, holds r ss0 -> Forall (fun s => s <> []) ss ->
  exists r', pushes r ss = Some r' /\ holds r' (ss0 ++ ss).
Proof.
  induction ss as [|s ss IH]; intros r ss0 Hr HF; [exists r; by rewrite app_nil_r|].
  inversion HF as [|? ? Hs HF']; subst. destruct (push_holds r ss0 s Hr Hs) as (r1 & Hp & Hr1). cbn [pushes].
  rewrite Hp. cbn [mbind option_bind]. destruct (IH r1 _ Hr1 HF') as (r' & He & Hh). exists r'.
  split; [done|]. by rewrite <- app_assoc in Hh.
Qed.

Lemma rotate_head r ss k : holds r ss -> (k < Nat.min (length ss) 8)%nat ->
  entries (Nat.iter k rotate r) = entries r /\ head (Nat.iter k rotate r) = ((length ss - 1 - k) mod 8)%nat.
Proof.
  intros (Hc & Hl & Hh & _). induction k as [|k IH]; intros Hk.
  { split; [done|]. rewrite Nat.sub_0_r. apply Hh. lia. }
  change (Nat.iter (S k) rotate r) with (rotate (Nat.iter k rotate r)).
  destruct (IH ltac:(lia)) as [He Hd]. set (r1 := Nat.iter k rotate r) in *. clearbody r1. unfold rotate. rewrite He, Hd.
  destruct (entries r) as [|x es] eqn:Ees; [cbn in Hl; lia|]. cbn [is_nil].
  replace (length ss - 1 - k)%nat with (S (length ss - 1 - S k)) in * by lia. set (m := (length ss - 1 - S k)%nat) in *.
  pose proof (Nat.div_mod_eq (S m) 8). pose proof (Nat.mod_upper_bound (S m) 8 ltac:(lia)).
  pose proof (Nat.div_mod_eq m 8). pose proof (Nat.mod_upper_bound m 8 ltac:(lia)).
  destruct (Nat.eqb_spec (S m mod 8) 0) as [E0|E0]; cbn [entries head]; (split; [done|]); rewrite ?Hl; lia.
Qed.

(** The ring remembers the last eight kills: after any kills, [k] rotations
    lead to the [k]-th most recent one. *)
Theorem ring_remembers_last_eight (ss : list (list Z)) (k : nat)
    (Hne : Forall (fun s => s <> []) ss) (Hk : (k < Nat.min (length ss) 8)%nat) :
  exists r, pushes new ss = Some r /\ current (Nat.iter k rotate r) = reverse ss !! k.
Proof.
  assert (Hnew : holds new []) by (repeat split; cbn; intros; lia).
  destruct (pushes_hold ss new [] Hnew Hne) as (r & He & Hr). exists r. split; [done|]. cbn [app] in Hr.
  destruct (rotate_head r ss k Hr Hk) as [Hen Hhd]. unfold current. rewrite Hen, Hhd.
  destruct Hr as (_ & _ & _ & Hj). rewrite Hj by lia. rewrite reverse_lookup by lia. f_equal. lia.
Qed.

Lemma ring_remembers_last_eight_witness :
  exists r, pushes new [bs "a"; bs "b"; bs "c"] = Some r /\ current (rotate r) = Some (bs "b").
Proof.
  apply (ring_remembers_last_eight [bs "a"; bs "b"; bs "c"] 1); [|cbn; lia].
  repeat constructor; discriminate.
Defined.

(** After a rotation, a kill into a full ring overwrites a recent kill and
    keeps the oldest one. *)
Theorem push_after_rotate_loses_recent_kill :
  exists r r', pushes new (map bs ["1"; "2"; "3"; "4"; "5"; "6"; "7"; "8"]%string) = Some r
  /\ push (rotate (rotate r)) (bs "9") = Some r'
  /\ bs "7" ∈ entries r /\ ~ (bs "7" ∈ entries r') /\ bs "1" ∈ entries r'.
Proof.
  eexists. eexists. split; [vm_compute; reflexivity|]. split; [vm_compute; reflexivity|].
  cbn [entries]. rewrite !list_elem_of_In. cbn [In].
  repeat split; try tauto. intros Hin. repeat destruct Hin as [Hin|Hin]; discriminate || done.
Qed.
End Ring.
