(* ===== verification/History.v ===== *)
(** The command history: the table of entries with its event numbers, the
    [HISTCONTROL] filter, and the text of the history file
    (crates/common/src/history.rs).  A file is its content; opening it, and
    the clock that stamps new entries, are arguments. *)
From S2P Require Import Prelude Utf8.

(** * [HistControl] *)

Definition IGNORESPACE : Z := 2 ^ 0.
Definition IGNOREDUPS : Z := 2 ^ 1.
Definition ERASEDUPS : Z := 2 ^ 2.

Definition flag_set (flags mask : Z) : bool := Z.land flags mask =? mask.

(** [str::split(c)]: always at least one piece. *)
Fixpoint split_on (c : Z) (s : bytes) : list bytes :=
  match s with
  | [] => [[]]
  | b :: r =>
      if b =? c then [] :: split_on c r
      else match split_on c r with p :: ps => (b :: p) :: ps | [] => [[b]] end
  end.

Definition histcontrol_token (out : Z) (tok : bytes) : Z :=
  let t := trim tok in
  if bytes_eqb t (bs "ignorespace") then Z.lor out IGNORESPACE
  else if bytes_eqb t (bs "ignoredups") then Z.lor out IGNOREDUPS
  else if bytes_eqb t (bs "ignoreboth") then Z.lor out (Z.lor IGNORESPACE IGNOREDUPS)
  else if bytes_eqb t (bs "erasedups") then Z.lor out ERASEDUPS
  else out.

Definition HistControl_parse (value : bytes) : Z := fold_left histcontrol_token (split_on ":"%b value) 0.

(** * [HistoryTable] *)

Record HistoryEntry := mkHist {
  h_line : bytes;
  timestamp : option Z;
  timestamp_from_file : bool;
}.

Record HistoryTable := mkTable {
  h_entries : list HistoryEntry;
  h_max : Z;
  h_base : Z;                (* entries discarded from the front *)
  h_saved : nat;             (* field new_since_save *)
}.

Definition hist_len (t : HistoryTable) : Z := Z.of_nat (length (h_entries t)).

(** The loop of [trim]. *)
Fixpoint trim_loop (max : Z) (es : list HistoryEntry) (base : Z) (saved : nat) : list HistoryEntry * Z * nat :=
  match es with
  | [] => ([], base, saved)
  | _ :: r => if max <? Z.of_nat (length es) then trim_loop max r (base + 1) (pred saved) else (es, base, saved)
  end.

Definition hist_trim (t : HistoryTable) : HistoryTable :=
  let '(es, base, saved) := trim_loop (h_max t) (h_entries t) (h_base t) (h_saved t) in
  mkTable es (h_max t) base saved.

Definition hist_new (max : Z) : HistoryTable := mkTable [] (Z.max max 1) 0 0.

Definition set_max (t : HistoryTable) (max : Z) : HistoryTable :=
  hist_trim (mkTable (h_entries t) (Z.max max 1) (h_base t) (h_saved t)).

Definition hist_get (t : HistoryTable) (idx : Z) : option HistoryEntry :=
  if (idx =? 0) || (idx <=? h_base t) then None
  else if hist_len t <=? idx - h_base t - 1 then None
  else h_entries t !! Z.to_nat (idx - h_base t - 1).

Definition hist_last (t : HistoryTable) : option HistoryEntry := last (h_entries t).

Definition nth_last (t : HistoryTable) (n : Z) : option HistoryEntry :=
  if (n =? 0) || (hist_len t <? n) then None else h_entries t !! Z.to_nat (hist_len t - n).

Definition push_entry (e : HistoryEntry) (t : HistoryTable) : HistoryTable :=
  mkTable (h_entries t ++ [e]) (h_max t) (h_base t) (h_saved t).

(** [add]; [now] is the clock. *)
Definition hist_add (now : option Z) (t : HistoryTable) (line : bytes) (control : Z) : bool * HistoryTable :=
  if is_nil line then (false, t)
  else if flag_set control IGNORESPACE && starts_with [" "%b] line then (false, t)
  else if flag_set control IGNOREDUPS
          && match hist_last t with Some e => bytes_eqb (h_line e) line | None => false end
  then (false, t)
  else
    let es := if flag_set control ERASEDUPS
              then filter (fun e => negb (bytes_eqb (h_line e) line)) (h_entries t) else h_entries t in
    (true, hist_trim (push_entry (mkHist line now false) (mkTable es (h_max t) (h_base t) (h_saved t)))).

Definition add_forced (t : HistoryTable) (line : bytes) (ts : option Z) : HistoryTable :=
  hist_trim (push_entry (mkHist line ts false) t).

Definition remove_at (t : HistoryTable) (idx : Z) : bool * HistoryTable :=
  if (idx =? 0) || (idx <=? h_base t) then (false, t)
  else if hist_len t <=? idx - h_base t - 1 then (false, t)
  else
    let k := Z.to_nat (idx - h_base t - 1) in
    (true, mkTable (take k (h_entries t) ++ drop (S k) (h_entries t)) (h_max t) (h_base t) (h_saved t)).

Definition remove_range (t : HistoryTable) (start end_ : Z) : HistoryTable :=
  let first := h_base t + 1 in
  let last := h_base t + hist_len t in
  if (last <? start) || (end_ <? first) then t
  else
    let s := Z.max start first - first in
    let e := Z.min end_ last - h_base t in
    if s <? e
    then mkTable (take (Z.to_nat s) (h_entries t) ++ drop (Z.to_nat e) (h_entries t)) (h_max t) (h_base t) (h_saved t)
    else t.

Definition replace_last (now : option Z) (t : HistoryTable) (line : bytes) (control : Z) : bool * HistoryTable :=
  let es := take (length (h_entries t) - 1) (h_entries t) in
  let saved := if negb (is_nil (h_entries t)) && (length es <? h_saved t)%nat then length es else h_saved t in
  hist_add now (mkTable es (h_max t) (h_base t) saved) line control.

Definition hist_clear (t : HistoryTable) : HistoryTable := mkTable [] (h_max t) 0 0.

Definition mark_saved (t : HistoryTable) : HistoryTable :=
  mkTable (h_entries t) (h_max t) (h_base t) (length (h_entries t)).

Definition new_since_save (t : HistoryTable) : nat := (length (h_entries t) - h_saved t)%nat.

(** * When a loaded entry is complete *)

Record QuoteScan := mkScan { quote : option Z; escaped : bool }.

Definition quote_step (st : QuoteScan) (byte : Z) : QuoteScan :=
  if escaped st then mkScan (quote st) false
  else if bool_decide (quote st = Some "'"%b) then
    if byte =? "'"%b then mkScan None false else st
  else if bool_decide (quote st = Some dquote) then
    if byte =? "\"%b then mkScan (quote st) true
    else if byte =? dquote then mkScan None false
    else st
  else if byte =? "\"%b then mkScan (quote st) true
  else if (byte =? "'"%b) || (byte =? dquote) then mkScan (Some byte) false
  else st.

Definition quotes_balanced (input : bytes) : bool :=
  let st := fold_left quote_step input (mkScan None false) in
  negb (bool_decide (is_Some (quote st))) && negb (escaped st).

(** [str::lines]: pieces that end in a newline, the newline and a carriage
    return before it stripped; a last piece without one only if not empty. *)
Definition strip_cr (l : bytes) : bytes := match rev l with 13 :: r => rev r | _ => l end.

Definition str_lines (s : bytes) : list bytes :=
  let ps := split_on 10 s in
  map strip_cr (take (length ps - 1) ps)
  ++ match last ps with Some [] | None => [] | Some l => [l] end.

Definition delim_end (b : Z) : bool := existsb (Z.eqb b) (bs " ;|&") || (b =? 9).

Definition blank (b : Z) : bool := (b =? " "%b) || (b =? 9).

(** The bytes before, and from, the first one that satisfies [test]. *)
Fixpoint span_until (test : Z -> bool) (s : bytes) : bytes * bytes :=
  match s with
  | [] => ([], [])
  | b :: r => if test b then ([], s) else let '(l, r) := span_until test r in (b :: l, r)
  end.

Definition heredoc_name (raw : bytes) : list bytes :=
  let d := filter (fun b => negb ((b =? "'"%b) || (b =? dquote) || (b =? "\"%b))) raw in
  if is_nil d then [] else [d].

Fixpoint heredoc_loop (fuel : nat) (s : bytes) : list bytes :=
  match fuel, s with
  | S fuel, a :: ((b :: r) as rest) =>
      if negb (a =? "<"%b) || negb (b =? "<"%b) then heredoc_loop fuel rest
      else
        match r with
        | 60 :: r2 => heredoc_loop fuel r2
        | _ =>
            let r := match r with 45 :: r2 => r2 | _ => r end in
            let r := snd (span_until (fun b => negb (blank b)) r) in
            let '(raw, r) := span_until delim_end r in
            heredoc_name raw ++ heredoc_loop fuel r
        end
  | _, _ => []
  end.

Definition extract_heredoc_delimiters (line : bytes) : list bytes := heredoc_loop (length line) line.

Definition heredoc_step (pending : list bytes) (line : bytes) : list bytes :=
  match pending with
  | delim :: rest => if bytes_eqb line delim then rest else pending
  | [] => extract_heredoc_delimiters line
  end.

Definition heredocs_closed (input : bytes) : bool := is_nil (fold_left heredoc_step (str_lines input) []).

Definition history_entry_complete (input : bytes) : bool := quotes_balanced input && heredocs_closed input.

(** * The history file *)

Inductive Opened := Content (c : bytes) | NotFound | OpenError.

(** [str::parse::<u64>]. *)
Definition strip_plus (s : bytes) : bytes := match s with "+"%b :: d => d | _ => s end.

Definition parse_u64 (s : bytes) : option Z :=
  match strip_plus s with
  | [] => None
  | d => match dec_value 0 d with Some z => if z <? 2 ^ 64 then Some z else None | None => None end
  end.

Definition timestamp_line (line : bytes) : option Z :=
  match line with "#"%b :: rest => parse_u64 rest | _ => None end.

(** [BufRead::lines]: a line that is not UTF-8 is an error. *)
Definition valid_utf8 (l : bytes) : bool := match from_utf8 l with inl _ => true | inr _ => false end.

(** What the loop of [load_from] keeps between lines. *)
Record LoadSt := mkLoad {
  l_entries : list HistoryEntry;
  pending_ts : option Z;
  l_entry : bytes;
  entry_ts : option Z;
}.

Definition append_newline (es : list HistoryEntry) : list HistoryEntry :=
  match last es with
  | Some e => take (length es - 1) es ++ [mkHist (h_line e ++ [10]) (timestamp e) (timestamp_from_file e)]
  | None => es
  end.

Definition load_complete (st : LoadSt) : LoadSt :=
  if history_entry_complete (l_entry st)
  then mkLoad (l_entries st ++ [mkHist (l_entry st) (entry_ts st) true]) (pending_ts st) [] None
  else st.

Definition load_line (st : LoadSt) (line : bytes) : LoadSt :=
  if is_nil (l_entry st) && is_nil line then
    match pending_ts st with
    | None => mkLoad (append_newline (l_entries st)) None (l_entry st) (entry_ts st)
    | Some _ => st
    end
  else if is_nil (l_entry st) then
    match timestamp_line line with
    | Some ts => mkLoad (l_entries st) (Some ts) (l_entry st) (entry_ts st)
    | None => load_complete (mkLoad (l_entries st) None line (pending_ts st))
    end
  else load_complete (mkLoad (l_entries st) (pending_ts st) (l_entry st ++ [10] ++ line) (entry_ts st)).

(** The lines up to the first one that cannot be read; [false] if there is one. *)
Fixpoint load_lines (st : LoadSt) (lines : list bytes) : bool * LoadSt :=
  match lines with
  | [] => (true, st)
  | l :: ls => if valid_utf8 l then load_lines (load_line st l) ls else (false, st)
  end.

Definition load_finish (t : HistoryTable) (es : list HistoryEntry) : HistoryTable :=
  mark_saved (hist_trim (mkTable es (h_max t) (h_base t) (h_saved t))).

(** [load_from]: success, and the table. *)
Definition load_from (t : HistoryTable) (file : Opened) : bool * HistoryTable :=
  match file with
  | NotFound => (true, t)
  | OpenError => (false, t)
  | Content c =>
      let '(ok, st) := load_lines (mkLoad (h_entries t) None [] None) (str_lines c) in
      if ok then
        (true, load_finish t (l_entries st ++
           if is_nil (l_entry st) then [] else [mkHist (l_entry st) (entry_ts st) true]))
      else (false, mkTable (l_entries st) (h_max t) (h_base t) (h_saved t))
  end.

Definition physical_line (st : list HistoryEntry * option Z) (line : bytes) : list HistoryEntry * option Z :=
  match timestamp_line line with
  | Some ts => (fst st, Some ts)
  | None => (fst st ++ [mkHist line (snd st) true], None)
  end.

Fixpoint physical_lines (st : list HistoryEntry * option Z) (lines : list bytes) :
    bool * (list HistoryEntry * option Z) :=
  match lines with
  | [] => (true, st)
  | l :: ls => if valid_utf8 l then physical_lines (physical_line st l) ls else (false, st)
  end.

Definition load_physical_lines_from (t : HistoryTable) (file : Opened) : bool * HistoryTable :=
  match file with
  | NotFound => (true, t)
  | OpenError => (false, t)
  | Content c =>
      let '(ok, st) := physical_lines (h_entries t, None) (str_lines c) in
      if ok then (true, load_finish t (fst st)) else (false, mkTable (fst st) (h_max t) (h_base t) (h_saved t))
  end.

Definition entry_text (with_timestamps : bool) (e : HistoryEntry) : bytes :=
  (if with_timestamps || timestamp_from_file e then
     match timestamp e with Some ts => "#"%b :: u_to_string ts ++ [10] | None => [] end
   else [])
  ++ h_line e ++ [10].

Definition entries_text (with_timestamps : bool) (es : list HistoryEntry) : bytes :=
  concat (map (entry_text with_timestamps) es).

(** [write_to]: the new content of the file. *)
Definition write_to (t : HistoryTable) (max_size : Z) (with_timestamps : bool) : bytes :=
  entries_text with_timestamps (drop (Z.to_nat (hist_len t - max_size)) (h_entries t)).

(** [append_to] on a file that can be written: what is appended, and the table. *)
Definition append_to (t : HistoryTable) (with_timestamps : bool) : bytes * HistoryTable :=
  let new := new_since_save t in
  if (new =? 0)%nat then ([], t)
  else (entries_text with_timestamps (drop (length (h_entries t) - new) (h_entries t)), mark_saved t).

(** * Evaluations *)

Definition lines_of (t : HistoryTable) : list bytes := map h_line (h_entries t).

Example histcontrol_both : HistControl_parse (bs "erasedups: ignoreboth") = 7.
Proof. reflexivity. Qed.

Example load_multiline :
  lines_of (snd (load_from (hist_new 10)
    (Content (bs "#12" ++ [10] ++ bs "echo 'a" ++ [10] ++ bs "b'" ++ [10] ++ bs "cat <<E" ++ [10] ++ bs "x" ++ [10] ++ bs "E" ++ [10] ++ bs "ls" ++ [10]))))
  = [bs "echo 'a" ++ [10] ++ bs "b'"; bs "cat <<E" ++ [10] ++ bs "x" ++ [10] ++ bs "E"; bs "ls"].
Proof. vm_compute. reflexivity. Qed.
