(* ===== verification/HistoryProps.v ===== *)
(** Correctness of the command history: bounds and event numbers of the table,
    the entries [history -a] appends, and that a written file is read back. *)
From S2P Require Import Prelude Utf8 QuoteProps History.

(** * Trimming *)

(** [trim] drops [k] entries from the front and moves the numbering by [k]. *)
Definition trimmed (k : nat) (t t' : HistoryTable) : Prop :=
  h_entries t' = drop k (h_entries t) /\ (k <= length (h_entries t))%nat
  /\ h_base t' = h_base t + Z.of_nat k /\ h_saved t' = (h_saved t - k)%nat /\ h_max t' = h_max t.

Lemma trim_loop_spec max es base saved : 0 <= max ->
  exists k : nat, trim_loop max es base saved = (drop k es, base + Z.of_nat k, (saved - k)%nat)
    /\ Z.of_nat k = Z.max 0 (Z.of_nat (length es) - max).
Proof.
  intros Hm. revert base saved. induction es as [|e r IH]; intros base saved.
  - exists 0%nat. cbn [trim_loop length drop]. split; [by rewrite Nat.sub_0_r, Z.add_0_r|lia].
  - cbn [trim_loop]. destruct (Z.ltb_spec max (Z.of_nat (length (e :: r)))) as [H|H].
    + destruct (IH (base + 1) (pred saved)) as (k & -> & Hk). exists (S k). cbn [length drop] in *.
      split; [f_equal; [f_equal; lia|lia]|lia].
    + exists 0%nat. split; [by rewrite drop_0, Nat.sub_0_r, Z.add_0_r|lia].
Qed.

Lemma hist_trim_spec t : 0 <= h_max t ->
  trimmed (Z.to_nat (hist_len t - h_max t)) t (hist_trim t).
Proof.
  intros Hm. unfold hist_trim.
  destruct (trim_loop_spec (h_max t) (h_entries t) (h_base t) (h_saved t) Hm) as (k & -> & Hk).
  replace (Z.to_nat (hist_len t - h_max t)) with k by (unfold hist_len; lia).
  repeat split; cbn; unfold hist_len in *; lia.
Qed.

(** A table as [new] and the operations leave it. *)
Definition hist_wf (t : HistoryTable) : Prop :=
  1 <= h_max t /\ hist_len t <= h_max t /\ 0 <= h_base t.

Lemma trim_wf t : 1 <= h_max t -> 0 <= h_base t -> hist_wf (hist_trim t).
Proof.
  intros Hm Hb. destruct (hist_trim_spec t) as (He & Hk & Hb' & _ & Hm'); [lia|].
  unfold hist_wf, hist_len. rewrite He, Hm', Hb', length_drop. unfold hist_len in *. lia.
Qed.

Lemma add_wf now t line control : hist_wf t -> hist_wf (hist_add now t line control).2.
Proof.
  intros (Hm & Hl & Hb). unfold hist_add. repeat case_match; try done.
  all: apply trim_wf; done.
Qed.

(** The commands that change the table. *)
Inductive HistOp :=
| OpSetMax (max : Z)
| OpAdd (now : option Z) (line : bytes) (control : Z)
| OpAddForced (line : bytes) (ts : option Z)
| OpRemoveAt (idx : Z)
| OpRemoveRange (first last : Z)
| OpReplaceLast (now : option Z) (line : bytes) (control : Z)
| OpClear
| OpMarkSaved
| OpLoad (content : bytes)
| OpLoadPhysical (content : bytes)
| OpAppend (with_timestamps : bool).

Definition hist_op (t : HistoryTable) (o : HistOp) : HistoryTable :=
  match o with
  | OpSetMax max => set_max t max
  | OpAdd now line control => snd (hist_add now t line control)
  | OpAddForced line ts => add_forced t line ts
  | OpRemoveAt idx => snd (remove_at t idx)
  | OpRemoveRange first last => remove_range t first last
  | OpReplaceLast now line control => snd (replace_last now t line control)
  | OpClear => hist_clear t
  | OpMarkSaved => mark_saved t
  | OpLoad c => snd (load_from t (Content c))
  | OpLoadPhysical c => snd (load_physical_lines_from t (Content c))
  | OpAppend w => snd (append_to t w)
  end.

(** A load that stops at an unreadable line leaves the table over-full until
    the next operation that trims it. *)
Definition readable_op (o : HistOp) : Prop :=
  match o with
  | OpLoad c | OpLoadPhysical c => Forall (fun l => valid_utf8 l = true) (str_lines c)
  | _ => True
  end.

Lemma load_lines_ok ls st : Forall (fun l => valid_utf8 l = true) ls ->
  load_lines st ls = (true, fold_left load_line ls st).
Proof.
  intros H. revert st. induction H as [|l ls Hl _ IH]; intros st; [done|]. cbn. by rewrite Hl.
Qed.

Lemma physical_lines_ok ls st : Forall (fun l => valid_utf8 l = true) ls ->
  physical_lines st ls = (true, fold_left physical_line ls st).
Proof.
  intros H. revert st. induction H as [|l ls Hl _ IH]; intros st; [done|]. cbn. by rewrite Hl.
Qed.

Lemma hist_op_wf t o : hist_wf t -> readable_op o -> hist_wf (hist_op t o).
Proof.
  intros Hwf Hr. pose proof Hwf as (Hm & Hl & Hb). destruct o as
    [max|now line control|line ts|idx|first last|now line control| | |c|c|w]; cbn [hist_op readable_op] in *.
  - apply trim_wf; cbn; lia.
  - by apply add_wf.
  - by apply trim_wf.
  - unfold remove_at. repeat case_match; try done. unfold hist_wf, hist_len in *. cbn.
    rewrite length_app, length_take, length_drop. lia.
  - unfold remove_range. repeat case_match; try done. unfold hist_wf, hist_len in *. cbn in *.
    rewrite length_app, length_take, length_drop. lia.
  - apply add_wf. unfold hist_wf, hist_len in *. cbn. rewrite length_take. lia.
  - unfold hist_wf, hist_len. cbn. lia.
  - done.
  - unfold load_from. rewrite load_lines_ok by done. by apply trim_wf.
  - unfold load_physical_lines_from. rewrite physical_lines_ok by done. by apply trim_wf.
  - unfold append_to. case_match; done.
Qed.

(** Every history table reached from a new one by any sequence of
    commands and loads of readable files holds at most [HISTSIZE] entries
    (at least one is allowed), whatever the sequence. *)
Theorem history_is_bounded max ops : Forall readable_op ops ->
  hist_wf (fold_left hist_op ops (hist_new max)).
Proof.
  assert (H0 : hist_wf (hist_new max)) by (unfold hist_wf, hist_len; cbn; lia).
  revert H0. generalize (hist_new max). intros t H0 H. revert t H0.
  induction H as [|o ops Ho _ IH]; intros t H0; [done|]. cbn. apply IH. by apply hist_op_wf.
Qed.

Lemma history_is_bounded_witness :
  hist_wf (fold_left hist_op
    [OpAdd None (bs "ls") 0; OpLoad (bs "a" ++ [10] ++ bs "b" ++ [10]); OpSetMax 2; OpRemoveAt 3] (hist_new 5)).
Proof. apply (history_is_bounded 5). repeat constructor. Defined.

(** * Event numbers *)

Lemma get_trimmed k t t' n : trimmed k t t' -> 0 <= h_base t ->
  hist_get t' n = if n <=? h_base t' then None else hist_get t n.
Proof.
  intros (He & Hk & Hb & _ & _) H0. unfold hist_get, hist_len. rewrite He, Hb, length_drop.
  destruct (Z.leb_spec n (h_base t + Z.of_nat k)) as [H|H]; [by rewrite orb_true_r|].
  rewrite !orb_false_intro by lia.
  destruct (Z.leb_spec (Z.of_nat (length (h_entries t))) (n - h_base t - 1)).
  - rewrite (proj2 (Z.leb_le _ _)) by lia. done.
  - rewrite (proj2 (Z.leb_gt _ _)) by lia. rewrite lookup_drop. f_equal. lia.
Qed.

(** Event numbers are stable: adding a line that is accepted (duplicates
    not being erased) gives it the number after the last one, and every older
    entry that is still kept answers to the number it had; numbers that were
    trimmed away answer to nothing. *)
Theorem event_numbers_stable now t line control t' : hist_wf t -> flag_set control ERASEDUPS = false ->
  hist_add now t line control = (true, t') ->
  h_base t' + hist_len t' = h_base t + hist_len t + 1
  /\ hist_get t' (h_base t' + hist_len t') = Some (mkHist line now false)
  /\ (forall n, h_base t' < n <= h_base t + hist_len t -> hist_get t' n = hist_get t n)
  /\ (forall n, n <= h_base t' -> hist_get t' n = None).
Proof.
  intros (Hm & Hl & Hb) He Hadd. unfold hist_add in Hadd. rewrite He in Hadd.
  assert (t' = hist_trim (push_entry (mkHist line now false) (mkTable (h_entries t) (h_max t) (h_base t) (h_saved t)))) as ->
    by (repeat case_match; congruence). clear Hadd.
  set (p := push_entry _ _). assert (Hlen : hist_len p = hist_len t + 1).
  { unfold hist_len, p. cbn. rewrite length_app. cbn. lia. }
  assert (Hmp : h_max p = h_max t) by done. assert (Hbp : h_base p = h_base t) by done.
  pose proof (hist_trim_spec p ltac:(lia)) as Ht. set (k := Z.to_nat _) in Ht.
  assert (Hk : (Z.of_nat k <= 1)%Z) by lia.
  pose proof Ht as (He' & Hkl & Hb' & _ & _).
  assert (Hsum : hist_len (hist_trim p) = hist_len p - Z.of_nat k).
  { unfold hist_len in *. rewrite He', length_drop. lia. }
  assert (Hget : forall n, h_base (hist_trim p) < n -> hist_get (hist_trim p) n = hist_get p n).
  { intros n Hn. rewrite (get_trimmed _ _ _ _ Ht) by lia. by rewrite (proj2 (Z.leb_gt _ _)). }
  assert (Hl0 : 0 <= hist_len t) by (unfold hist_len; lia).
  split; [lia|]. split; [|split].
  - rewrite Hget by lia. unfold hist_get. rewrite !orb_false_intro by lia.
    rewrite (proj2 (Z.leb_gt _ _)) by lia.
    replace (h_base (hist_trim p) + hist_len (hist_trim p) - h_base p - 1) with (hist_len t) by lia.
    unfold hist_len at 1. rewrite Nat2Z.id. by apply list_lookup_middle.
  - intros n Hn. rewrite Hget by lia. unfold hist_get. rewrite Hlen, Hbp.
    destruct ((n =? 0) || (n <=? h_base t)) eqn:E; [done|]. to_prop.
    rewrite !(proj2 (Z.leb_gt _ _)) by lia. unfold p. cbn. apply lookup_app_l. unfold hist_len in *. lia.
  - intros n Hn. rewrite (get_trimmed _ _ _ _ Ht) by lia. by rewrite (proj2 (Z.leb_le _ _)).
Qed.

Lemma event_numbers_stable_witness :
  exists t', hist_add None (hist_new 1) (bs "ls") 0 = (true, t') /\ hist_get t' 1 = Some (mkHist (bs "ls") None false).
Proof.
  eexists. split; [reflexivity|].
  refine (proj1 (proj2 (event_numbers_stable None (hist_new 1) (bs "ls") 0 _ _ _ _))); [|reflexivity..].
  unfold hist_wf, hist_len. cbn. lia.
Defined.

(** * What [history -a] appends *)

(** The lines of a session: the entries accepted so far, and the table. *)
Definition session_add (st : list HistoryEntry * HistoryTable) (c : option Z * bytes * Z) :
    list HistoryEntry * HistoryTable :=
  let '(now, line, control) := c in
  let '(ok, t) := hist_add now (snd st) line control in
  (if ok then fst st ++ [mkHist line now false] else fst st, t).

Definition session_inv (es0 : list HistoryEntry) (st : list HistoryEntry * HistoryTable) : Prop :=
  1 <= h_max (snd st) /\ exists d, h_entries (snd st) = drop d (es0 ++ fst st)
    /\ h_saved (snd st) = (length es0 - d)%nat.

Lemma session_step es0 st c : session_inv es0 st -> flag_set (snd c) ERASEDUPS = false ->
  session_inv es0 (session_add st c).
Proof.
  destruct c as [[now line] control]. destruct st as [acc t]. intros (Hm & d & He & Hs) Hc. cbn in Hc.
  unfold session_add, hist_add. cbn [fst snd] in *. rewrite Hc.
  destruct (is_nil line); [by repeat (split || exists d)|].
  destruct (_ && _); [by repeat (split || exists d)|].
  destruct (_ && _); [by repeat (split || exists d)|].
  set (p := push_entry _ _). unfold session_inv. cbn [fst snd]. destruct (hist_trim_spec p) as (He' & Hk & _ & Hs' & Hm').
  { unfold p. cbn. lia. }
  set (k := Z.to_nat _) in *. cbn [fst snd]. split; [by rewrite Hm'|].
  destruct (decide (d <= length (es0 ++ acc))%nat) as [Hd|Hd].
  - exists (d + k)%nat. rewrite He', Hs'. unfold p. cbn. rewrite He, Hs, <- drop_drop. split; [|lia].
    f_equal. by rewrite app_assoc, (drop_app_le (es0 ++ acc)).
  - exists (length (es0 ++ acc) + k)%nat. rewrite He', Hs'. unfold p. cbn. rewrite He, Hs.
    rewrite length_app in Hd. split; [|rewrite length_app; lia].
    rewrite (drop_ge (es0 ++ acc)) by (rewrite length_app; lia).
    rewrite app_assoc, <- drop_drop, drop_app_length. done.
Qed.

(** [history -a] appends exactly the lines accepted since the last save
    (those of them the table still holds), and then nothing is left to save.
    Duplicates must not be erased meanwhile: see
    [erased_duplicate_is_not_appended]. *)
Theorem session_is_appended t cmds w : 1 <= h_max t ->
  Forall (fun c : option Z * bytes * Z => flag_set (snd c) ERASEDUPS = false) cmds ->
  let '(acc, t') := fold_left session_add cmds ([], mark_saved t) in
  exists d, h_entries t' = drop d (h_entries t ++ acc)
    /\ fst (append_to t' w) = entries_text w (drop (d - length (h_entries t)) acc)
    /\ new_since_save (snd (append_to t' w)) = 0%nat.
Proof.
  intros Hm Hc. assert (H0 : session_inv (h_entries t) ([], mark_saved t)).
  { split; [done|]. exists 0%nat. cbn. rewrite app_nil_r. split; [done|lia]. }
  assert (H : session_inv (h_entries t) (fold_left session_add cmds ([], mark_saved t))).
  { revert H0. generalize (@nil HistoryEntry, mark_saved t). induction Hc as [|c cmds Hc _ IH]; intros st H0; [done|].
    cbn. apply IH. by apply session_step. }
  destruct (fold_left _ _ _) as [acc t']. destruct H as (_ & d & He & Hs). cbn [fst snd] in *.
  exists d. split; [done|].
  assert (Hdrop : drop (h_saved t') (h_entries t') = drop (d - length (h_entries t)) acc).
  { rewrite He, Hs, drop_drop, drop_app.
    rewrite (drop_ge (h_entries t)) by lia. cbn. f_equal. lia. }
  unfold append_to, new_since_save. rewrite <- Hdrop.
  destruct (Nat.eqb_spec (length (h_entries t') - h_saved t') 0) as [E|E]; cbn [fst snd].
  - rewrite drop_ge by lia. split; [done|]. lia.
  - split; [|cbn; lia]. f_equal. f_equal. lia.
Qed.

Lemma session_is_appended_witness :
  exists d, drop d [mkHist (bs "a") None false; mkHist (bs "b") None false]
    = [mkHist (bs "a") None false; mkHist (bs "b") None false].
Proof.
  pose proof (session_is_appended (hist_new 5) [(None, bs "a", 0); (None, bs "b", IGNOREDUPS); (None, bs "b", IGNOREDUPS)] false
    ltac:(cbn; lia) ltac:(repeat constructor)) as H.
  vm_compute in H. destruct H as (d & H & _). exists d. symmetry. exact H.
Defined.

(** With [erasedups], a line typed again after a save is not
    appended: its older copy, which was saved, is removed from the table, but
    the mark of the first unsaved entry stays where it was, one entry too far;
    deleting a saved entry has the same effect on the next line. *)
Theorem erased_duplicate_is_not_appended :
  let t := mark_saved (add_forced (add_forced (hist_new 10) (bs "a") None) (bs "b") None) in
  (exists t', hist_add None t (bs "a") ERASEDUPS = (true, t')
     /\ lines_of t' = [bs "b"; bs "a"] /\ fst (append_to t' false) = [])
  /\ (exists t', hist_add None (snd (remove_at t 1)) (bs "c") 0 = (true, t')
     /\ lines_of t' = [bs "b"; bs "c"] /\ fst (append_to t' false) = []).
Proof. split; eexists; (split; [reflexivity|]); split; reflexivity. Qed.

(** * The history file *)

Lemma split_on_ne c s : split_on c s <> [].
Proof. destruct s as [|b r]; [done|]. cbn. case_match; [done|]. by case_match. Qed.

Lemma split_on_app c a s : split_on c (a ++ c :: s) = split_on c a ++ split_on c s.
Proof.
  induction a as [|b a IH]; cbn [app split_on]; [by rewrite Z.eqb_refl|].
  rewrite IH. case_match; [done|]. destruct (split_on c a) as [|p ps] eqn:E; [by apply split_on_ne in E|done].
Qed.

Lemma split_on_join c s : exists p ps, split_on c s = p :: ps /\ s = p ++ concat (map (cons c) ps).
Proof.
  induction s as [|b r (p & ps & E & ->)]; [by exists [], []|]. cbn [split_on]. rewrite E.
  destruct (Z.eqb_spec b c) as [->|_]; [by exists [], (p :: ps)|by exists (b :: p), ps].
Qed.

Lemma str_lines_app a s : str_lines (a ++ 10 :: s) = map strip_cr (split_on 10 a) ++ str_lines s.
Proof.
  unfold str_lines. rewrite split_on_app. pose proof (split_on_ne 10 s) as Hne.
  set (p := split_on 10 a). set (q := split_on 10 s) in *.
  assert (Hq : (length q <> 0)%nat) by (destruct q; cbn; [done|lia]).
  rewrite length_app, take_app_ge by lia. rewrite map_app, <- app_assoc. f_equal.
  replace (length p + length q - 1 - length p)%nat with (length q - 1)%nat by lia.
  rewrite last_app. destruct (last q) eqn:El; [done|]. by apply last_None in El.
Qed.

(** The lines an entry is written as, and what reading it back makes of it. *)
Definition entry_lines (e : HistoryEntry) : list bytes :=
  match timestamp e with Some ts => ["#"%b :: u_to_string ts] | None => [] end ++ split_on 10 (h_line e).

Definition as_loaded (e : HistoryEntry) : HistoryEntry := mkHist (h_line e) (timestamp e) true.

(** No proper prefix of the lines of an entry is complete, the whole is. *)
Fixpoint completes (cur : bytes) (ls : list bytes) : bool :=
  match ls with
  | [] => history_entry_complete cur
  | l :: ls => negb (history_entry_complete cur) && completes (cur ++ [10] ++ l) ls
  end.

Definition readable_line (l : bytes) : bool := valid_utf8 l && bytes_eqb (strip_cr l) l.

(** The entries the file format can represent. *)
Definition loadable (e : HistoryEntry) : bool :=
  match timestamp e with Some ts => (0 <=? ts) && (ts <? 2 ^ 64) | None => true end
  && match split_on 10 (h_line e) with
     | l :: ls => negb (is_nil l) && negb (bool_decide (is_Some (timestamp_line l))) && completes l ls
     | [] => false
     end
  && forallb readable_line (split_on 10 (h_line e)).

Lemma strip_plus_digit d ds : d <> 43 -> strip_plus (d :: ds) = d :: ds.
Proof. intros H. unfold strip_plus. destruct d as [|d|d]; try done. repeat (destruct d as [d|d|]; try done). Qed.

Lemma digit_line ts : 0 <= ts < 2 ^ 64 ->
  timestamp_line ("#"%b :: u_to_string ts) = Some ts /\ readable_line ("#"%b :: u_to_string ts) = true
  /\ split_on 10 ("#"%b :: u_to_string ts) = ["#"%b :: u_to_string ts].
Proof.
  intros Hts. destruct (u_to_string_spec ts) as (Hne & Hall & Hv); [lia|].
  set (l := u_to_string ts) in *.
  assert (Hr : Forall (fun b => 35 <= b < 58) ("#"%b :: l)).
  { constructor; [lia|]. eapply Forall_impl; [exact Hall|]. unfold is_ascii_digit, in_range. intros b Hb. cbn in Hb. lia. }
  split; [|split].
  - cbn [timestamp_line]. unfold parse_u64. destruct l as [|d ds] eqn:El; [done|].
    inversion Hall as [|? ? Hd _]; subst. unfold is_ascii_digit, in_range in Hd.
    rewrite strip_plus_digit by lia. rewrite Hv. by rewrite (proj2 (Z.ltb_lt _ _)) by lia.
  - unfold readable_line. apply andb_true_iff. split.
    + unfold valid_utf8. replace ("#"%b :: l) with (concat (map encode_utf8 ("#"%b :: l))).
      { rewrite from_utf8_text; [done|]. eapply Forall_impl; [exact Hr|]. intros b Hb. cbn in Hb.
        unfold is_scalar, in_range. lia. }
      clear - Hr. induction Hr as [|b s Hb _ IH]; [done|]. cbn [map concat]. rewrite IH.
      unfold encode_utf8. by rewrite (proj2 (Z.ltb_lt _ _)) by lia.
    + apply bytes_eqb_eq. unfold strip_cr.
      destruct (rev ("#"%b :: l)) as [|x r] eqn:E; [done|].
      assert (Hx : x <> 13).
      { assert (x ∈ rev ("#"%b :: l)) as Hin by (rewrite E; by left).
        rewrite list_elem_of_In, <- in_rev, <- list_elem_of_In in Hin.
        rewrite Forall_forall in Hr. specialize (Hr x Hin). lia. }
      destruct x as [|x|x]; try done. repeat (destruct x as [x|x|]; try done).
  - clear - Hr. induction Hr as [|b s Hb _ IH]; [done|]. cbn [split_on]. rewrite IH.
    by rewrite (proj2 (Z.eqb_neq _ _)) by lia.
Qed.

Lemma load_pieces es pts cur ts ls : cur <> [] -> completes cur ls = true ->
  fold_left load_line ls (load_complete (mkLoad es pts cur ts))
  = mkLoad (es ++ [mkHist (cur ++ concat (map (cons 10) ls)) ts true]) pts [] None.
Proof.
  revert cur. induction ls as [|l ls IH]; intros cur Hne Hc; cbn [completes] in Hc.
  - cbn. unfold load_complete. cbn. by rewrite Hc, app_nil_r.
  - apply andb_true_iff in Hc as [Hi Hc]. apply negb_true_iff in Hi.
    cbn [fold_left]. unfold load_complete at 1. cbn. rewrite Hi. unfold load_line at 2. cbn.
    destruct cur as [|b cur]; [done|]. cbn [is_nil andb].
    change ((b :: cur) ++ 10 :: l) with ((b :: cur) ++ [10] ++ l). rewrite IH; [|done|done].
    by rewrite <- app_assoc.
Qed.

Lemma load_entry es e : loadable e = true ->
  fold_left load_line (entry_lines e) (mkLoad es None [] None) = mkLoad (es ++ [as_loaded e]) None [] None
  /\ forallb readable_line (entry_lines e) = true.
Proof.
  unfold loadable, entry_lines. intros H. apply andb_true_iff in H as [H Hr]. apply andb_true_iff in H as [Hts H].
  destruct (split_on_join 10 (h_line e)) as (l & ls & E & Hl). rewrite E in *.
  apply andb_true_iff in H as [H Hc]. apply andb_true_iff in H as [Hne Ht]. apply negb_true_iff in Hne, Ht.
  assert (Ht' : timestamp_line l = None).
  { apply bool_decide_eq_false in Ht. destruct (timestamp_line l); [exfalso; by apply Ht|done]. }
  assert (Hlast : forall ts, fold_left load_line (l :: ls) (mkLoad es ts [] None)
                  = mkLoad (es ++ [mkHist (h_line e) ts true]) None [] None).
  { intros ts. cbn [fold_left]. unfold load_line at 2. cbn. rewrite Hne, Ht'.
    rewrite load_pieces; [by rewrite <- Hl|by destruct l|done]. }
  destruct (timestamp e) as [ts|] eqn:Ets; cbn [app].
  - destruct (digit_line ts) as (Hd & Hdr & _); [lia|]. split; [|cbn [forallb]; by rewrite Hdr].
    assert (load_line (mkLoad es None [] None) ("#"%b :: u_to_string ts) = mkLoad es (Some ts) [] None) as Hts'.
    { unfold load_line. cbn [is_nil l_entry andb]. by rewrite Hd. }
    change (fold_left load_line (l :: ls) (load_line (mkLoad es None [] None) ("#"%b :: u_to_string ts))
            = mkLoad (es ++ [as_loaded e]) None [] None).
    rewrite Hts', Hlast. unfold as_loaded. by rewrite Ets.
  - split; [|done]. rewrite Hlast. unfold as_loaded. by rewrite Ets.
Qed.

Lemma strip_readable ls : forallb readable_line ls = true -> map strip_cr ls = ls.
Proof.
  induction ls as [|l ls IH]; [done|]. cbn. unfold readable_line at 1. intros H.
  apply andb_true_iff in H as [H Hls]. apply andb_true_iff in H as [_ H]. apply bytes_eqb_eq in H. by rewrite H, IH.
Qed.

Lemma entry_text_lines e r : loadable e = true -> str_lines (entry_text true e ++ r) = entry_lines e ++ str_lines r.
Proof.
  intros He. destruct (load_entry [] e He) as [_ Hr].
  unfold loadable in He. apply andb_true_iff in He as [He _]. apply andb_true_iff in He as [Hts _].
  unfold entry_text, entry_lines in *. cbn [orb]. destruct (timestamp e) as [ts|].
  - destruct (digit_line ts) as (_ & Hdr & Hds); [lia|]. cbn [app forallb] in *.
    apply andb_true_iff in Hr as [_ Hr]. rewrite <- !app_assoc. cbn [app].
    change (str_lines (("#"%b :: u_to_string ts) ++ 10 :: (h_line e ++ 10 :: r))
            = ("#"%b :: u_to_string ts) :: split_on 10 (h_line e) ++ str_lines r).
    rewrite !str_lines_app, Hds, (strip_readable _ Hr).
    cbn [map app]. f_equal. unfold readable_line in Hdr. apply andb_true_iff in Hdr as [_ Hdr]. by apply bytes_eqb_eq in Hdr.
  - cbn [app] in *. rewrite <- app_assoc. cbn [app]. by rewrite str_lines_app, (strip_readable _ Hr).
Qed.

Lemma entries_text_lines es : forallb loadable es = true ->
  str_lines (entries_text true es) = concat (map entry_lines es).
Proof.
  induction es as [|e es IH]; [done|]. cbn [forallb]. intros [He Hes]%andb_true_iff.
  unfold entries_text in *. cbn [map concat]. by rewrite entry_text_lines, IH.
Qed.

Lemma load_all es0 es : forallb loadable es = true ->
  fold_left load_line (concat (map entry_lines es)) (mkLoad es0 None [] None)
    = mkLoad (es0 ++ map as_loaded es) None [] None
  /\ forallb readable_line (concat (map entry_lines es)) = true.
Proof.
  revert es0. induction es as [|e es IH]; intros es0; [by rewrite app_nil_r|].
  cbn [forallb map concat]. intros [He Hes]%andb_true_iff. destruct (load_entry es0 e He) as [H1 H2].
  destruct (IH (es0 ++ [as_loaded e]) Hes) as [H3 H4].
  rewrite fold_left_app, H1, H3, forallb_app, H2, H4. by rewrite <- app_assoc.
Qed.

(** C30: Writing a history with its time stamps and loading the file into an empty list gives
    back every entry, line and stamp, in order, for all entries the format can represent:
    multi-line commands whose first lines are incomplete (an open quote or here-document), no
    carriage return before a newline, no first line that is empty or looks like a time stamp.
    The list loaded into is large enough for the entries. *)
Theorem history_file_roundtrip t max : forallb loadable (h_entries t) = true -> hist_len t <= max ->
  load_from (hist_new max) (Content (write_to t (hist_len t) true))
  = (true, mkTable (map as_loaded (h_entries t)) (Z.max max 1) 0 (length (h_entries t))).
Proof.
  intros Hl Hm. unfold write_to. rewrite Z.sub_diag. cbn [Z.to_nat]. rewrite drop_0. unfold load_from.
  rewrite entries_text_lines by done. destruct (load_all [] (h_entries t) Hl) as [H1 H2].
  rewrite load_lines_ok.
  2:{ apply Forall_forall. intros l Hin. rewrite forallb_forall in H2. apply list_elem_of_In in Hin.
      specialize (H2 l Hin). unfold readable_line in H2. by apply andb_true_iff in H2 as [? _]. }
  cbn [h_entries hist_new]. rewrite H1. cbn [is_nil l_entry l_entries app]. rewrite app_nil_r.
  f_equal. unfold load_finish. cbn. set (es := map as_loaded (h_entries t)).
  assert (Hlen : length es = length (h_entries t)) by apply length_map.
  destruct (hist_trim_spec (mkTable es (Z.max max 1) 0 0)) as (He & _ & Hb & _ & Hmx); [cbn; lia|].
  unfold mark_saved. rewrite He, Hb, Hmx. unfold hist_len in *. cbn [h_entries h_max h_base] in *.
  replace (Z.to_nat _) with 0%nat by lia. rewrite drop_0, Hlen. done.
Qed.

Lemma history_file_roundtrip_witness :
  let t := mkTable [mkHist (bs "ls -l") (Some 1700000000) false;
                    mkHist (bs "echo 'a" ++ [10; 10] ++ bs "b'") None false] 10 0 0 in
  load_from (hist_new 10) (Content (write_to t (hist_len t) true))
  = (true, mkTable (map as_loaded (h_entries t)) 10 0 2).
Proof. intros t. apply (history_file_roundtrip t 10); [vm_compute; reflexivity|vm_compute; discriminate]. Defined.
