(* ===== verification/HistExpand.v ===== *)
(** History expansion: [!] events, word designators, modifiers and the
    [^old^new^] form, on the raw input line (crates/common/src/histexpand.rs).
    Text is the list of its code points; the process-wide cell of the last
    substitution is passed along. *)
From S2P Require Import Prelude Utf8 History.

Definition MAX_HISTORY_EXPANSION_BYTES : Z := 1024 * 1024.
Definition MAX_HISTORY_REFERENCES : Z := 128.
Definition EXPANSION_SIZE_ERROR : list Z := bs "history expansion exceeds the 1 MiB safety limit".
Definition EXPANSION_REFERENCE_ERROR : list Z := bs "history expansion exceeds the 128-reference safety limit".
Definition EXPANSION_FAILED : list Z := bs "history expansion failed".
Definition NOT_FOUND : list Z := bs ": event not found".

(** [String::len]. *)
Definition str_len (s : list Z) : Z := Z.of_nat (length (concat (map encode_utf8 s))).

(** [char::is_whitespace]. *)
Definition char_is_whitespace (c : Z) : bool :=
  in_range 9 13 c || (c =? 32) || (c =? 133) || (c =? 160) || (c =? 5760) || in_range 8192 8202 c
  || (c =? 8232) || (c =? 8233) || (c =? 8239) || (c =? 8287) || (c =? 12288).

(** [str::contains], [str::replacen(old, new, 1)] and [str::replace] for a
    pattern that is not empty. *)
Definition contains_sub (p s : list Z) : bool := match find_sub p s with Some _ => true | None => false end.

Definition replace_first (old new s : list Z) : list Z :=
  match find_sub old s with
  | Some k => take k s ++ new ++ drop (k + length old) s
  | None => s
  end.

Fixpoint replace_all_loop (fuel : nat) (old new s : list Z) : list Z :=
  match fuel, find_sub old s with
  | S fuel, Some k => take k s ++ new ++ replace_all_loop fuel old new (drop (k + length old) s)
  | _, _ => s
  end.

Definition replace_every (old new s : list Z) : list Z := replace_all_loop (length s) old new s.

Record ExpandResult := mkResult {
  r_line : list Z;
  r_changed : bool;
  r_error : option (list Z);
  r_print_only : bool;
}.

Inductive Event :=
| EvBang
| EvDefault
| EvCurrent
| EvNumber (n : Z)
| EvString (s : list Z)
| EvSubstring (s : list Z).

Record LastSubstitution := mkSubst { s_old : list Z; s_new : list Z }.

Record EventValue := mkEvent { ev_line : list Z; matched_word : option (list Z) }.

Inductive WordIndex := Num (n : Z) | FirstArg | Last | BeforeLast | Matched.

Inductive WordDesignator := DIndex (i : WordIndex) | DRange (s e : WordIndex).

(** * Words of a line *)

Definition flush_word (words : list (list Z)) (cur : list Z) : list (list Z) :=
  if is_nil cur then words else words ++ [cur].

(** The loop of [history_words]; [qt] is the quote it is inside of. *)
Fixpoint words_loop (words : list (list Z)) (cur : list Z) (qt : option Z) (s : list Z) : list (list Z) :=
  match s with
  | [] => flush_word words cur
  | c :: r =>
      match qt with
      | Some 39 => words_loop words (cur ++ [c]) (if c =? "'"%b then None else qt) r
      | Some _ =>
          if c =? dquote then words_loop words (cur ++ [c]) None r
          else if c =? "\"%b then
            match r with
            | n :: r2 => words_loop words (cur ++ [c; n]) qt r2
            | [] => flush_word words (cur ++ [c])
            end
          else words_loop words (cur ++ [c]) qt r
      | None =>
          if c =? "'"%b then words_loop words (cur ++ [c]) (Some "'"%b) r
          else if c =? dquote then words_loop words (cur ++ [c]) (Some dquote) r
          else if c =? "\"%b then
            match r with
            | n :: r2 => words_loop words (cur ++ ["\"%b; n]) None r2
            | [] => flush_word words cur
            end
          else if char_is_whitespace c then words_loop (flush_word words cur) [] None r
          else if (c =? ">"%b) || (c =? "<"%b) then
            let digits := negb (is_nil cur) && forallb is_ascii_digit cur in
            let words' := if digits then words else flush_word words cur in
            let op := (if digits then cur else []) ++ [c] in
            match r with
            | 40 :: r2 => words_loop words (cur ++ [c; 40]) None r2
            | n :: r2 =>
                if n =? c then words_loop (words' ++ [op ++ [n]]) [] None r2
                else words_loop (words' ++ [op]) [] None r
            | [] => words' ++ [op]
            end
          else words_loop words (cur ++ [c]) None r
      end
  end.

Definition history_words (line : list Z) : list (list Z) := words_loop [] [] None line.

Fixpoint dequote_loop (qt : option Z) (s : list Z) : list Z :=
  match s with
  | [] => []
  | c :: r =>
      match qt with
      | Some 39 => if c =? "'"%b then dequote_loop None r else c :: dequote_loop qt r
      | Some _ =>
          if c =? dquote then dequote_loop None r
          else if c =? "\"%b then match r with n :: r2 => n :: dequote_loop qt r2 | [] => [] end
          else c :: dequote_loop qt r
      | None =>
          if c =? "'"%b then dequote_loop (Some "'"%b) r
          else if c =? dquote then dequote_loop (Some dquote) r
          else if c =? "\"%b then match r with n :: r2 => n :: dequote_loop None r2 | [] => [] end
          else c :: dequote_loop None r
      end
  end.

Definition dequote_history_word (word : list Z) : list Z := dequote_loop None word.

(** [histexpand.rs]'s own [shell_quote]. *)
Definition hist_shell_quote (s : list Z) : list Z :=
  if is_nil s then bs "''"
  else "'"%b :: concat (map (fun c => if c =? "'"%b then bs "'\''" else [c]) s) ++ ["'"%b].

(** * Path modifiers *)

(** [str::rfind(c)]. *)
Fixpoint rfind (c : Z) (s : list Z) : option nat :=
  match s with
  | [] => None
  | b :: r => match rfind c r with Some k => Some (S k) | None => if b =? c then Some 0%nat else None end
  end.

Definition path_head (s : list Z) : list Z :=
  match rfind "/"%b s with
  | Some O => bs "/"
  | Some idx => take idx s
  | None => []
  end.

Definition path_tail (s : list Z) : list Z :=
  match rfind "/"%b s with Some idx => drop (S idx) s | None => s end.

Definition after_slash (s : list Z) : nat := match rfind "/"%b s with Some idx => S idx | None => 0%nat end.

Definition path_root (s : list Z) : list Z :=
  match rfind "."%b (drop (after_slash s) s) with Some dot => take (after_slash s + dot) s | None => s end.

Definition path_extension (s : list Z) : list Z :=
  match rfind "."%b (drop (after_slash s) s) with Some dot => drop (after_slash s + dot) s | None => [] end.

(** * Events *)

(** The end of the run of characters that satisfy [test]. *)
Fixpoint run_end (test : Z -> bool) (fuel : nat) (cs : list Z) (i : nat) : nat :=
  match fuel with
  | O => i
  | S fuel => match cs !! i with Some c => if test c then run_end test fuel cs (S i) else i | None => i end
  end.

Definition ident_char (c : Z) : bool := is_ascii_alphanumeric c || (c =? "_"%b).

Definition digits_end (cs : list Z) (i : nat) : nat := run_end is_ascii_digit (length cs) cs i.
Definition ident_end (cs : list Z) (i : nat) : nat := run_end ident_char (length cs) cs i.
Definition question_end (cs : list Z) (i : nat) : nat :=
  run_end (fun c => negb (c =? "?"%b)) (length cs) cs i.

Definition opt_digit (c : option Z) : bool := match c with Some c => is_ascii_digit c | None => false end.

Definition number_event (cs : list Z) (start end_ : nat) : option (Event * nat) :=
  match parse_i64 (slice cs start end_) with
  | Some n => Some (EvNumber n, (end_ - start)%nat)
  | None => None
  end.

(** [read_event] at [c], the character at [start]. *)
Definition read_event (cs : list Z) (start : nat) (c : Z) : option (Event * nat) :=
  let len := length cs in
  if (c =? ":"%b) || (c =? "^"%b) || (c =? "$"%b) || (c =? "*"%b) || (c =? "%"%b) || (c =? "-"%b) then
    if (c =? "-"%b) && opt_digit (cs !! S start)
    then number_event cs start (digits_end cs (S start))
    else Some (EvDefault, 0%nat)
  else if c =? "!"%b then Some (EvBang, 1%nat)
  else if c =? "#"%b then Some (EvCurrent, 1%nat)
  else if c =? "?"%b then
    let end_ := question_end cs (S start) in
    Some (EvSubstring (slice cs (S start) end_), (end_ - start + if (end_ <? len)%nat then 1 else 0)%nat)
  else if is_ascii_digit c then number_event cs start (digits_end cs start)
  else if is_ascii_alphabetic c || (c =? "_"%b) then
    let end_ := ident_end cs start in
    Some (EvString (slice cs start end_), (end_ - start)%nat)
  else None.

Definition line_of (e : HistoryEntry) : list Z := match from_utf8 (h_line e) with inl cs => cs | inr _ => [] end.

Definition line_value (o : option HistoryEntry) (err : list Z) : EventValue + list Z :=
  match o with Some e => inl (mkEvent (line_of e) None) | None => inr err end.

(** The latest line that satisfies [test]. *)
Definition find_latest (test : list Z -> bool) (t : HistoryTable) : option (list Z) :=
  List.find test (rev (map line_of (h_entries t))).

Definition resolve_event (ev : Event) (t : HistoryTable) (current : list Z) : EventValue + list Z :=
  match ev with
  | EvBang | EvDefault => line_value (hist_last t) (bs "no previous history")
  | EvCurrent => inl (mkEvent current None)
  | EvNumber n =>
      if 0 <? n then line_value (hist_get t n) ("!"%b :: i64_to_string n ++ NOT_FOUND)
      else if n <? 0 then line_value (nth_last t (- n)) ("!"%b :: i64_to_string n ++ NOT_FOUND)
      else inr (bs "!0: event not found")
  | EvString s =>
      match find_latest (starts_with s) t with
      | Some l => inl (mkEvent l None)
      | None => inr ("!"%b :: s ++ NOT_FOUND)
      end
  | EvSubstring s =>
      match find_latest (contains_sub s) t with
      | Some l => inl (mkEvent l (List.find (contains_sub s) (rev (history_words l))))
      | None => inr (bs "!?" ++ s ++ bs "?" ++ NOT_FOUND)
      end
  end.

(** * Word designators *)

(** [str::parse::<usize>] of text that is all digits. *)
Definition read_usize (cs : list Z) (start : nat) : option (Z * nat) :=
  let end_ := digits_end cs start in
  if (end_ =? start)%nat then None
  else match parse_u64 (slice cs start end_) with
       | Some n => Some (n, (end_ - start)%nat)
       | None => None
       end.

Definition read_dash_designator (cs : list Z) (start : nat) : option (WordDesignator * nat) :=
  match cs !! S start with
  | None => None
  | Some c =>
      if c =? "$"%b then Some (DRange (Num 0) Last, 2%nat)
      else if is_ascii_digit c then
        match read_usize cs (S start) with
        | Some (n, consumed) => Some (DRange (Num 0) (Num n), S consumed)
        | None => None
        end
      else None
  end.

Definition read_number_designator (cs : list Z) (start : nat) : option (WordDesignator * nat) :=
  match read_usize cs start with
  | None => None
  | Some (n, consumed) =>
      match cs !! (start + consumed)%nat with
      | Some 42 => Some (DRange (Num n) Last, S consumed)
      | Some 45 =>
          match cs !! S (start + consumed) with
          | Some c =>
              if c =? "$"%b then Some (DRange (Num n) Last, S (S consumed))
              else if is_ascii_digit c then
                match read_usize cs (S (start + consumed)) with
                | Some (m, m_consumed) => Some (DRange (Num n) (Num m), (S consumed + m_consumed)%nat)
                | None => None
                end
              else Some (DRange (Num n) BeforeLast, S consumed)
          | None => Some (DRange (Num n) BeforeLast, S consumed)
          end
      | _ => Some (DIndex (Num n), consumed)
      end
  end.

Definition read_word_designator (cs : list Z) (start : nat) : option (WordDesignator * nat) :=
  match cs !! start with
  | None => None
  | Some c =>
      if c =? "^"%b then Some (DIndex FirstArg, 1%nat)
      else if c =? "$"%b then Some (DIndex Last, 1%nat)
      else if c =? "%"%b then Some (DIndex Matched, 1%nat)
      else if c =? "*"%b then Some (DRange FirstArg Last, 1%nat)
      else if c =? "-"%b then read_dash_designator cs start
      else if is_ascii_digit c then read_number_designator cs start
      else None
  end.

Definition word_index_number (words : list (list Z)) (i : WordIndex) : option Z :=
  let len := Z.of_nat (length words) in
  match i with
  | Num n => Some n
  | FirstArg => Some 1
  | Last => if 1 <=? len then Some (len - 1) else None
  | BeforeLast => if 2 <=? len then Some (len - 2) else None
  | Matched => None
  end.

Definition get_word (words : list (list Z)) (idx : Z) : option (list Z) :=
  if idx <? Z.of_nat (length words) then words !! Z.to_nat idx else None.

Definition word_index (words : list (list Z)) (matched : option (list Z)) (i : WordIndex) : option (list Z) :=
  match i with
  | Matched => matched
  | _ => idx ← word_index_number words i; get_word words idx
  end.

(** [Selection] is its list of words. *)
Definition apply_word_designator (ev : EventValue) (d : WordDesignator) : list (list Z) :=
  let words := history_words (ev_line ev) in
  let len := Z.of_nat (length words) in
  match d with
  | DIndex i => match word_index words (matched_word ev) i with Some w => [w] | None => [] end
  | DRange s e =>
      match word_index_number words s, word_index_number words e with
      | Some s, Some e =>
          if (e <? s) || (len <=? s) then []
          else slice words (Z.to_nat s) (S (Z.to_nat (Z.min e (len - 1))))
      | _, _ => []
      end
  end.

(** * Modifiers *)

(** Text up to an unescaped [delim], and the position after it. *)
Fixpoint read_until_delim (fuel : nat) (cs : list Z) (pos : nat) (delim : Z) (out : list Z) :
    (list Z * nat) + list Z :=
  match fuel, cs !! pos with
  | S fuel, Some c =>
      if c =? delim then inl (out, S pos)
      else
        match (if c =? "\"%b then cs !! S pos else None) with
        | Some n => read_until_delim fuel cs (S (S pos)) delim (out ++ [n])
        | None => read_until_delim fuel cs (S pos) delim (out ++ [c])
        end
  | _, _ => inr EXPANSION_FAILED
  end.

Definition read_substitution (cs : list Z) (start : nat) : (LastSubstitution * nat) + list Z :=
  match cs !! S start with
  | None => inr EXPANSION_FAILED
  | Some delim =>
      match read_until_delim (length cs) cs (S (S start)) delim [] with
      | inr e => inr e
      | inl (old, next) =>
          match read_until_delim (length cs) cs next delim [] with
          | inr e => inr e
          | inl (new, end_) => inl (mkSubst old new, (end_ - start)%nat)
          end
      end
  end.

Fixpoint replacement_text (raw old : list Z) : list Z :=
  match raw with
  | [] => []
  | c :: r =>
      if c =? "\"%b then match r with n :: r2 => n :: replacement_text r2 old | [] => [] end
      else if c =? "&"%b then old ++ replacement_text r old
      else c :: replacement_text r old
  end.

Definition substitute_literal (text : list Z) (spec : LastSubstitution) (global : bool) : list Z :=
  if is_nil (s_old spec) then text
  else
    let replacement := replacement_text (s_new spec) (s_old spec) in
    if global then replace_every (s_old spec) replacement text
    else replace_first (s_old spec) replacement text.

(** [words.join(" ")]. *)
Fixpoint join_words (words : list (list Z)) : list Z :=
  match words with
  | [] => []
  | [w] => w
  | w :: ws => w ++ " "%b :: join_words ws
  end.

Definition apply_substitution (sel : list (list Z)) (spec : LastSubstitution) (global : bool) : list (list Z) :=
  [substitute_literal (join_words sel) spec global].

Definition map_words (f : list Z -> list Z) (sel : list (list Z)) : list (list Z) :=
  map (fun w => f (dequote_history_word w)) sel.

(** A modifier: what it consumes, whether it prints only, the selection and the
    last substitution after it. *)
Definition Modified : Type := (nat * bool * list (list Z) * option LastSubstitution) + list Z.

Definition subst_modifier (cs : list Z) (start : nat) (global : bool) (extra : nat) (sel : list (list Z)) : Modified :=
  match read_substitution cs start with
  | inr e => inr e
  | inl (spec, consumed) => inl ((consumed + extra)%nat, false, apply_substitution sel spec global, Some spec)
  end.

Definition repeat_substitution (global : bool) (consumed : nat) (sel : list (list Z))
    (last : option LastSubstitution) : Modified :=
  match last with
  | Some spec => inl (consumed, false, apply_substitution sel spec global, last)
  | None => inr EXPANSION_FAILED
  end.

Definition apply_modifier (cs : list Z) (start : nat) (c : Z) (sel : list (list Z))
    (last : option LastSubstitution) : Modified :=
  if c =? "h"%b then inl (1%nat, false, map_words path_head sel, last)
  else if c =? "t"%b then inl (1%nat, false, map_words path_tail sel, last)
  else if c =? "r"%b then inl (1%nat, false, map_words path_root sel, last)
  else if c =? "e"%b then inl (1%nat, false, map_words path_extension sel, last)
  else if c =? "q"%b then
    inl (1%nat, false, [hist_shell_quote (join_words (map dequote_history_word sel))], last)
  else if c =? "x"%b then inl (1%nat, false, map_words hist_shell_quote sel, last)
  else if c =? "p"%b then inl (1%nat, true, sel, last)
  else if c =? "s"%b then subst_modifier cs start false 0 sel
  else if (c =? "g"%b) && bool_decide (cs !! S start = Some "s"%b) then subst_modifier cs (S start) true 1 sel
  else if (c =? "g"%b) && bool_decide (cs !! S start = Some "&"%b) then repeat_substitution true 2 sel last
  else if c =? "&"%b then repeat_substitution false 1 sel last
  else inr (bs "!:" ++ [c] ++ bs ": history expansion failed").

(** * One reference *)

Record ExpandedReference := mkRef {
  x_text : list Z;
  x_consumed : nat;
  x_print_only : bool;
}.

(** The error of a modifier names the event it follows. *)
Definition name_event (event error : list Z) : list Z :=
  match error with "!"%b :: suffix => event ++ suffix | _ => error end.

Fixpoint modifiers_loop (fuel : nat) (cs event : list Z) (pos : nat) (print_only : bool)
    (sel : list (list Z)) (last : option LastSubstitution) :
    Res (list Z) (nat * bool * list (list Z)) * option LastSubstitution :=
  match cs !! pos with
  | Some 58 =>
      match cs !! S pos with
      | None => (Err EXPANSION_FAILED, last)
      | Some c =>
          match fuel with
          | O => (Fuel, last)
          | S fuel =>
              match apply_modifier cs (S pos) c sel last with
              | inl (consumed, po, sel, last) =>
                  modifiers_loop fuel cs event (S pos + consumed) (print_only || po) sel last
              | inr e => (Err (name_event event e), last)
              end
          end
      end
  | _ => (Ok (pos, print_only, sel), last)
  end.

Definition default_event (ev : Event) : bool := match ev with EvDefault => true | _ => false end.

(** The word designator after an event: the selection and the next position. *)
Definition designate (cs : list Z) (ev : Event) (consumed : nat) (value : EventValue) (pos : nat) :
    list (list Z) * nat :=
  let whole := ([ev_line value], pos) in
  match cs !! pos with
  | None => whole
  | Some 58 =>
      match read_word_designator cs (S pos) with
      | Some (d, n) => (apply_word_designator value d, (S pos + n)%nat)
      | None => whole
      end
  | Some _ =>
      if (0 <? consumed)%nat || default_event ev then
        match read_word_designator cs pos with
        | Some (d, n) => (apply_word_designator value d, (pos + n)%nat)
        | None => whole
        end
      else whole
  end.

(** [expand_reference] at the [!] of position [bang]; [None] when it is literal. *)
Definition expand_reference (cs : list Z) (bang : nat) (current : list Z) (t : HistoryTable)
    (last : option LastSubstitution) :
    option (Res (list Z) ExpandedReference) * option LastSubstitution :=
  let start := S bang in
  match cs !! start with
  | None => (None, last)
  | Some c =>
      match read_event cs start c with
      | None => (None, last)
      | Some (ev, consumed) =>
          match resolve_event ev t current with
          | inr e => (Some (Err e), last)
          | inl value =>
              let '(sel, pos) := designate cs ev consumed value (start + consumed) in
              let event := slice cs bang (start + consumed) in
              match modifiers_loop (length cs) cs event pos false sel last with
              | (Ok (pos, po, sel), last) => (Some (Ok (mkRef (join_words sel) (pos - start) po)), last)
              | (Err e, last) => (Some (Err e), last)
              | (Fuel, last) => (Some Fuel, last)
              end
          end
      end
  end.

(** * The line *)

Definition needs_expansion (line : list Z) : bool :=
  fst (fold_left (fun '(found, prev) c => (found || (c =? "!"%b) && negb (prev =? "\"%b), c)) line (false, " "%b))
  || starts_with ["^"%b] line.

Definition is_history_comment_start (out : list Z) : bool :=
  match last out with
  | None => true
  | Some c => char_is_whitespace c || (c =? ";"%b) || (c =? "&"%b) || (c =? "|"%b)
  end.

Definition is_literal_bang_context (cs : list Z) (i : nat) : bool :=
  match i with
  | O => false
  | S j =>
      bool_decide (cs !! j = Some "["%b)
      || match j with S k => bool_decide (cs !! j = Some "{"%b) && bool_decide (cs !! k = Some "$"%b) | O => false end
  end.

(** The local variables of the loop of [expand_inner]. *)
Record ScanSt := mkHScan {
  x_i : nat;
  x_out : list Z;
  x_changed : bool;
  x_error : option (list Z);
  x_print : bool;
  x_refs : Z;
  in_single : bool;
  in_double : bool;
  sub_depth : nat;
  sub_single : bool;
  sub_double : bool;
  x_last : option LastSubstitution;
}.

Definition emit (n : nat) (s : list Z) (st : ScanSt) : ScanSt :=
  mkHScan (x_i st + n) (x_out st ++ s) (x_changed st) (x_error st) (x_print st) (x_refs st)
    (in_single st) (in_double st) (sub_depth st) (sub_single st) (sub_double st) (x_last st).

Definition set_quotes (single double : bool) (st : ScanSt) : ScanSt :=
  mkHScan (x_i st) (x_out st) (x_changed st) (x_error st) (x_print st) (x_refs st)
    single double (sub_depth st) (sub_single st) (sub_double st) (x_last st).

Definition set_sub (depth : nat) (single double : bool) (st : ScanSt) : ScanSt :=
  mkHScan (x_i st) (x_out st) (x_changed st) (x_error st) (x_print st) (x_refs st)
    (in_single st) (in_double st) depth single double (x_last st).

Definition set_error (e : list Z) (st : ScanSt) : ScanSt :=
  mkHScan (x_i st) (x_out st) (x_changed st) (Some e) (x_print st) (x_refs st)
    (in_single st) (in_double st) (sub_depth st) (sub_single st) (sub_double st) (x_last st).

Definition count_ref (st : ScanSt) : ScanSt :=
  mkHScan (x_i st) (x_out st) (x_changed st) (x_error st) (x_print st) (x_refs st + 1)
    (in_single st) (in_double st) (sub_depth st) (sub_single st) (sub_double st) (x_last st).

Definition set_last (l : option LastSubstitution) (st : ScanSt) : ScanSt :=
  mkHScan (x_i st) (x_out st) (x_changed st) (x_error st) (x_print st) (x_refs st)
    (in_single st) (in_double st) (sub_depth st) (sub_single st) (sub_double st) l.

Definition take_ref (x : ExpandedReference) (st : ScanSt) : ScanSt :=
  mkHScan (x_i st + 1 + x_consumed x) (x_out st ++ x_text x) true (x_error st) (x_print st || x_print_only x)
    (x_refs st) (in_single st) (in_double st) (sub_depth st) (sub_single st) (sub_double st) (x_last st).

(** What one round of the loop does: go on, or leave it. *)
Inductive Round := Next (st : ScanSt) | Stop (st : ScanSt) | NoFuel.

(** Inside [$(...)] inside double quotes; [None] when the round goes on. *)
Definition cmdsub_step (cs : list Z) (c : Z) (st : ScanSt) : option ScanSt :=
  if sub_single st then
    Some (emit 1 [c] (if c =? "'"%b then set_sub (sub_depth st) false (sub_double st) st else st))
  else if (c =? "'"%b) && negb (sub_double st) then
    Some (emit 1 [c] (set_sub (sub_depth st) true (sub_double st) st))
  else if c =? dquote then
    Some (emit 1 [c] (set_sub (sub_depth st) (sub_single st) (negb (sub_double st)) st))
  else if sub_double st then None
  else if (c =? "$"%b) && bool_decide (cs !! S (x_i st) = Some "("%b) then
    Some (emit 2 [c; "("%b] (set_sub (S (sub_depth st)) (sub_single st) (sub_double st) st))
  else if c =? "("%b then Some (emit 1 [c] (set_sub (S (sub_depth st)) (sub_single st) (sub_double st) st))
  else if c =? ")"%b then Some (emit 1 [c] (set_sub (pred (sub_depth st)) (sub_single st) (sub_double st) st))
  else None.

Definition bang_step (cs : list Z) (t : HistoryTable) (c : Z) (st : ScanSt) : Round :=
  if in_double st && (sub_depth st =? 0)%nat && bool_decide (cs !! S (x_i st) = Some "'"%b) then
    Next (emit 1 [c] (set_error (bs "!': event not found") st))
  else if is_literal_bang_context cs (x_i st) then Next (emit 1 [c] st)
  else
    let st := count_ref st in
    if MAX_HISTORY_REFERENCES <? x_refs st then Stop (set_error EXPANSION_REFERENCE_ERROR st)
    else
      let '(r, last) := expand_reference cs (x_i st) (x_out st) t (x_last st) in
      let st := set_last last st in
      match r with
      | Some (Ok x) =>
          if MAX_HISTORY_EXPANSION_BYTES <? str_len (x_out st) + str_len (x_text x)
          then Stop (set_error EXPANSION_SIZE_ERROR st)
          else Next (take_ref x st)
      | Some (Err e) => Stop (set_error e st)
      | Some Fuel => NoFuel
      | None => Next (emit 1 [c] st)
      end.

Definition plain_step (cs : list Z) (posix : bool) (t : HistoryTable) (c : Z) (st : ScanSt) : Round :=
  if (c =? "'"%b) && negb (in_double st) then
    Next (emit 1 [c] (set_quotes (negb (in_single st)) (in_double st) st))
  else if (c =? "$"%b) && in_double st && bool_decide (cs !! S (x_i st) = Some "("%b) then
    Next (emit 2 [c; "("%b] (set_sub 1 false false st))
  else if (c =? dquote) && negb (in_single st) then
    Next (emit 1 [c] (set_quotes (in_single st) (negb (in_double st)) st))
  else if (c =? "!"%b) && negb (in_single st) && negb (posix && in_double st) then bang_step cs t c st
  else Next (emit 1 [c] st).

Definition round (cs : list Z) (posix : bool) (t : HistoryTable) (c : Z) (st : ScanSt) : Round :=
  match (if c =? "\"%b then cs !! S (x_i st) else None) with
  | Some n => Next (emit 2 [c; n] st)
  | None =>
      if (c =? "#"%b) && negb (in_single st) && is_history_comment_start (x_out st) then
        Stop (emit 0 (drop (x_i st) cs) st)
      else
        match (if in_double st && (0 <? sub_depth st)%nat then cmdsub_step cs c st else None) with
        | Some st => Next st
        | None => plain_step cs posix t c st
        end
  end.

Fixpoint scan_loop (fuel : nat) (cs : list Z) (posix : bool) (t : HistoryTable) (st : ScanSt) : option ScanSt :=
  match cs !! x_i st with
  | None => Some st
  | Some c =>
      match fuel with
      | O => None
      | S fuel =>
          match round cs posix t c st with
          | Next st => scan_loop fuel cs posix t st
          | Stop st => Some st
          | NoFuel => None
          end
      end
  end.

(** [^old^new^]: the two parts, when there is a second [^]. *)
Definition quick_parts (body : list Z) : option (list Z * list Z) :=
  match body with
  | "^"%b :: stripped =>
      match find_byte "^"%b stripped with
      | Some k =>
          let rest := drop (S k) stripped in
          Some (take k stripped, match find_byte "^"%b rest with Some j => take j rest | None => rest end)
      | None => None
      end
  | _ => None
  end.

Definition split_newline (input : list Z) : list Z * list Z :=
  match rev input with 10 :: r => (rev r, [10]) | _ => (input, []) end.

Definition quick_substitution (input : list Z) (t : HistoryTable) : option ExpandResult :=
  let '(body, ending) := split_newline input in
  match quick_parts body with
  | None => None
  | Some (old, new) =>
      Some (match hist_last t with
            | Some e =>
                let replaced := replace_first old new (line_of e) ++ ending in
                if MAX_HISTORY_EXPANSION_BYTES <? str_len replaced
                then mkResult input false (Some EXPANSION_SIZE_ERROR) false
                else mkResult replaced true None false
            | None => mkResult input false (Some (bs "no previous history")) false
            end)
  end.

(** [expand_inner]: the result, and the last substitution. *)
Definition expand_inner (input : list Z) (t : HistoryTable) (posix : bool) (last : option LastSubstitution) :
    option (ExpandResult * option LastSubstitution) :=
  match quick_substitution input t with
  | Some r => Some (r, last)
  | None =>
      st ← scan_loop (length input) input posix t (mkHScan 0 [] false None false 0 false false 0 false false last);
      Some (mkResult (x_out st) (x_changed st) (x_error st) (x_print st), x_last st)
  end.

Definition expand_with_options (input : list Z) (t : HistoryTable) (posix : bool) (last : option LastSubstitution) :
    option (ExpandResult * option LastSubstitution) :=
  if needs_expansion input then expand_inner input t posix last
  else Some (mkResult input false None false, last).

(** * The module's unit tests *)

Definition history_of (lines : list string) : HistoryTable :=
  fold_left (fun t l => snd (hist_add None t (bs l) 0)) lines (hist_new 10).

Definition expand_line (lines : list string) (input : list Z) : option (list Z) :=
  (fun r => r_line (fst r)) <$> expand_with_options input (history_of lines) false None.

Example test_quick : expand_line ["echo line 2 for history"%string] (bs "^2^8" ++ [10])
  = Some (bs "echo line 8 for history" ++ [10]).
Proof. vm_compute. reflexivity. Qed.

Example test_designators :
  let h := ["/bin/sh -c 'echo this is $0'"; "echo a b c d e"; "echo file.c"]%string in
  expand_line h (bs "echo !-3:0:t") = Some (bs "echo sh") /\ expand_line h (bs "echo !-3:0:h") = Some (bs "echo /bin")
  /\ expand_line h (bs "echo !-2:2-$") = Some (bs "echo b c d e") /\ expand_line h (bs "echo !!:$:r:q") = Some (bs "echo 'file'").
Proof. vm_compute. repeat split; reflexivity. Qed.

Example test_substitution : expand_line ["echo foo.c foo.o"%string] (bs "!!:gs/foo/bar/") = Some (bs "echo bar.c bar.o").
Proof. vm_compute. reflexivity. Qed.

Example test_invalid_modifier :
  (fun r => r_error (fst r)) <$> expand_with_options (bs "!!:z") (history_of ["echo old"%string]) false None
  = Some (Some (bs "!!:z: history expansion failed")).
Proof. vm_compute. reflexivity. Qed.

Example test_literal_contexts :
  let h := ["echo old"%string] in
  expand_line h (bs "echo ${!var}") = Some (bs "echo ${!var}")
  /\ expand_line h (bs "case p in [!A-Z]) echo ok;; esac") = Some (bs "case p in [!A-Z]) echo ok;; esac")
  /\ expand_line h (bs "echo ok # !1200") = Some (bs "echo ok # !1200").
Proof. vm_compute. repeat split; reflexivity. Qed.
