(* ===== verification/HistExpandProps.v ===== *)
(** Correctness of history expansion: it ends, its result is bounded, quoted
    and escaped references are kept, events are replaced by the lines they
    name, and the quoting modifiers keep the words of a line. *)
From S2P Require Import Prelude Utf8 History HistExpand.

(** * Termination and size *)

Lemma str_len_app a b : str_len (a ++ b) = str_len a + str_len b.
Proof. unfold str_len. rewrite map_app, concat_app, length_app. lia. Qed.

Lemma str_len_nonneg s : 0 <= str_len s.
Proof. unfold str_len. lia. Qed.

Lemma modifiers_loop_ends fuel cs event pos po sel last : (length cs - pos <= fuel)%nat ->
  match fst (modifiers_loop fuel cs event pos po sel last) with
  | Ok (p, _, _) => (pos <= p)%nat
  | Err _ => True
  | Fuel => False
  end.
Proof.
  revert pos po sel last. induction fuel as [|fuel IH]; intros pos po sel last Hf; cbn [modifiers_loop].
  - rewrite lookup_ge_None_2 by lia. cbn. lia.
  - destruct (cs !! pos) as [x|] eqn:Ex; [|cbn; lia].
    apply lookup_lt_Some in Ex.
    destruct (decide (x = 58)) as [->|Hx].
    2:{ assert (forall (A : Type) (a b : A), match Some x with Some 58 => a | _ => b end = b) as Hm.
        { intros A a b. destruct x as [|x|x]; try done. repeat (destruct x as [x|x|]; try done). }
        rewrite Hm. cbn. lia. }
    destruct (cs !! S pos) as [c|]; [|done].
    destruct (apply_modifier cs (S pos) c sel last) as [[[[n po'] sel'] last']|e]; [|done].
    specialize (IH (S pos + n)%nat (po || po') sel' last' ltac:(lia)).
    destruct (fst (modifiers_loop fuel cs event (S pos + n) (po || po') sel' last')) as [[[p ?] ?]|?|]; lia || done.
Qed.

Lemma expand_reference_ends cs bang cur t last : fst (expand_reference cs bang cur t last) <> Some Fuel.
Proof.
  unfold expand_reference. destruct (cs !! S bang) as [c|]; [|done].
  destruct (read_event cs (S bang) c) as [[ev n]|]; [|done].
  destruct (resolve_event ev t cur) as [v|e]; [|done].
  destruct (designate cs ev n v (S bang + n)) as [sel pos].
  pose proof (modifiers_loop_ends (length cs) cs (slice cs bang (S bang + n)) pos false sel last ltac:(lia)) as H.
  destruct (modifiers_loop _ _ _ _ _ _ _) as [[[[p po] sel']|e|] l]; done.
Qed.

(** What one round does to the output. *)
Inductive round_effect (cs : list Z) (st : ScanSt) : Round -> Prop :=
| effect_copy st' s n : (1 <= n)%nat -> x_i st' = (x_i st + n)%nat -> s = slice cs (x_i st) (x_i st + n) ->
    x_out st' = x_out st ++ s -> round_effect cs st (Next st')
| effect_expand st' : (x_i st < x_i st')%nat -> str_len (x_out st') <= MAX_HISTORY_EXPANSION_BYTES ->
    round_effect cs st (Next st')
| effect_comment st' : x_out st' = x_out st ++ drop (x_i st) cs -> round_effect cs st (Stop st')
| effect_error st' : x_out st' = x_out st -> round_effect cs st (Stop st').

Lemma hist_slice_one (cs : list Z) i c : cs !! i = Some c -> [c] = slice cs i (i + 1).
Proof.
  intros H. unfold slice. replace (i + 1 - i)%nat with 1%nat by lia. rewrite (drop_S _ _ _ H). by rewrite firstn_cons, take_0.
Qed.

Lemma slice_two (cs : list Z) i c d : cs !! i = Some c -> cs !! S i = Some d -> [c; d] = slice cs i (i + 2).
Proof.
  intros H H2. unfold slice. replace (i + 2 - i)%nat with 2%nat by lia.
  rewrite (drop_S _ _ _ H), (drop_S _ _ _ H2). by rewrite !firstn_cons, take_0.
Qed.

Ltac copy_one k :=
  repeat match goal with H : bool_decide _ = true |- _ => apply bool_decide_eq_true in H end;
  eapply (effect_copy _ _ _ _ k); [lia|reflexivity| |reflexivity];
  (eapply hist_slice_one; eassumption) || (eapply slice_two; eassumption).

Lemma cmdsub_effect (cs : list Z) c st st' : cs !! x_i st = Some c -> cmdsub_step cs c st = Some st' ->
  round_effect cs st (Next st').
Proof.
  intros Hc. unfold cmdsub_step. intros H.
  repeat (case_match; simplify_eq; to_prop); try (copy_one 1%nat).
  copy_one 2%nat.
Qed.

Lemma bang_effect (cs : list Z) t c st : cs !! x_i st = Some c -> round_effect cs st (bang_step cs t c st).
Proof.
  intros Hc. unfold bang_step. case_match; [copy_one 1%nat|]. case_match; [copy_one 1%nat|].
  case_match; [by apply effect_error|].
  pose proof (expand_reference_ends cs (x_i (count_ref st)) (x_out (count_ref st)) t (x_last (count_ref st))) as He.
  destruct (expand_reference _ _ _ _ _) as [[[x|e|]|] l]; try done.
  - destruct (Z.ltb_spec MAX_HISTORY_EXPANSION_BYTES
      (str_len (x_out (set_last l (count_ref st))) + str_len (x_text x))) as [Hsz|Hsz]; [by apply effect_error|].
    apply effect_expand; cbn in *; [lia|]. by rewrite str_len_app.
  - by apply effect_error.
  - copy_one 1%nat.
Qed.

Lemma round_effects (cs : list Z) posix t c st : cs !! x_i st = Some c -> round_effect cs st (round cs posix t c st).
Proof.
  intros Hc. unfold round. destruct (if c =? "\"%b then cs !! S (x_i st) else None) as [n|] eqn:En.
  - case_match; [|done]. copy_one 2%nat.
  - clear En. case_match; [by apply effect_comment|].
    destruct (if _ && _ then cmdsub_step cs c st else None) as [st'|] eqn:Es.
    + case_match; [|done]. by eapply cmdsub_effect.
    + clear Es. unfold plain_step. case_match; [copy_one 1%nat|]. case_match eqn:E.
      { to_prop. copy_one 2%nat. }
      case_match; [copy_one 1%nat|]. case_match; [by apply bang_effect|copy_one 1%nat].
Qed.

Lemma scan_loop_ends fuel (cs : list Z) posix t st : (length cs - x_i st <= fuel)%nat ->
  exists st', scan_loop fuel cs posix t st = Some st'
    /\ (str_len (x_out st) <= MAX_HISTORY_EXPANSION_BYTES + str_len (take (x_i st) cs) ->
        str_len (x_out st') <= MAX_HISTORY_EXPANSION_BYTES + str_len cs).
Proof.
  revert st. induction fuel as [|fuel IH]; intros st Hf; cbn [scan_loop].
  - rewrite lookup_ge_None_2 by lia. exists st. split; [done|]. by rewrite take_ge by lia.
  - destruct (cs !! x_i st) as [c|] eqn:Ec.
    2:{ exists st. split; [done|]. apply lookup_ge_None_1 in Ec. by rewrite take_ge. }
    pose proof (lookup_lt_Some _ _ _ Ec) as Hlt.
    assert (Hsum : str_len cs = str_len (take (x_i st) cs) + str_len (drop (x_i st) cs)).
    { by rewrite <- str_len_app, take_drop. }
    pose proof (str_len_nonneg (drop (x_i st) cs)). pose proof (str_len_nonneg (take (x_i st) cs)).
    pose proof (round_effects cs posix t c st Ec) as Hr. destruct Hr as [st' s n Hn Hi -> Ho|st' Hi Ho|st' Ho|st' Ho].
    + destruct (IH st') as (st'' & -> & Hb); [lia|]. exists st''. split; [done|]. intros Hs. apply Hb.
      rewrite Ho, Hi, str_len_app. unfold slice. replace (x_i st + n - x_i st)%nat with n by lia.
      rewrite <- take_take_drop, str_len_app. lia.
    + destruct (IH st') as (st'' & -> & Hb); [lia|]. exists st''. split; [done|]. intros Hs. apply Hb.
      pose proof (str_len_nonneg (take (x_i st') cs)). lia.
    + exists st'. split; [done|]. intros Hs. rewrite Ho, str_len_app. lia.
    + exists st'. split; [done|]. intros Hs. rewrite Ho. lia.
Qed.

(** C38: History expansion ends on every line and every history, and the line it returns (also
    with an error) is at most one MiB longer than the input, however the references repeat each
    other. *)
Theorem history_expansion_bounded input t posix last : exists r last',
  expand_with_options input t posix last = Some (r, last')
  /\ str_len (r_line r) <= MAX_HISTORY_EXPANSION_BYTES + str_len input.
Proof.
  unfold expand_with_options. pose proof (str_len_nonneg input) as Hi. unfold MAX_HISTORY_EXPANSION_BYTES in *.
  destruct (needs_expansion input); [|by eexists _, _; split; [done|cbn; lia]].
  unfold expand_inner. destruct (quick_substitution input t) as [r|] eqn:Eq.
  - eexists _, _. split; [done|]. unfold quick_substitution in Eq. destruct (split_newline input) as [body ending].
    destruct (quick_parts body) as [[old new]|]; [|done]. injection Eq as <-.
    destruct (hist_last t); [|cbn; lia]. unfold MAX_HISTORY_EXPANSION_BYTES.
    case_match eqn:E; cbn [r_line]; [lia|]. apply Z.ltb_ge in E. lia.
  - destruct (scan_loop_ends (length input) input posix t
      (mkHScan 0 [] false None false 0 false false 0 false false last)) as (st & -> & Hb); [cbn; lia|].
    eexists _, _. split; [done|]. cbn [r_line]. apply Hb. cbn [x_out x_i]. rewrite take_0. vm_compute. discriminate.
Qed.

(** * Scanning *)

Lemma scan_loop_fuel f f' (cs : list Z) posix t st : (length cs - x_i st <= f)%nat -> (length cs - x_i st <= f')%nat ->
  scan_loop f cs posix t st = scan_loop f' cs posix t st.
Proof.
  revert f' st. induction f as [|f IH]; intros f' st H H'.
  - destruct f'; cbn [scan_loop]; by rewrite lookup_ge_None_2 by lia.
  - destruct (cs !! x_i st) as [c|] eqn:Ec.
    2:{ destruct f'; cbn [scan_loop]; by rewrite Ec. }
    pose proof (lookup_lt_Some _ _ _ Ec) as Hlt. destruct f' as [|f']; [lia|]. cbn [scan_loop]. rewrite Ec.
    pose proof (round_effects cs posix t c st Ec) as Hr. destruct Hr as [st' s n Hn Hi _ _|st' Hi _| |]; try done;
      apply IH; lia.
Qed.

Section Scan.
Context (cs : list Z) (posix : bool) (t : HistoryTable).

Definition scan (st : ScanSt) : option ScanSt := scan_loop (length cs - x_i st) cs posix t st.

Lemma scan_next st st' c : cs !! x_i st = Some c -> round cs posix t c st = Next st' -> scan st = scan st'.
Proof.
  intros Hc Hr. pose proof (lookup_lt_Some _ _ _ Hc) as Hlt.
  pose proof (round_effects cs posix t c st Hc) as He. rewrite Hr in He.
  assert (x_i st < x_i st')%nat as Hi.
  { inversion He; subst; lia. }
  unfold scan. destruct (length cs - x_i st)%nat as [|f] eqn:Ef; [lia|]. cbn [scan_loop]. rewrite Hc, Hr.
  apply scan_loop_fuel; lia.
Qed.

Lemma scan_end st : cs !! x_i st = None -> scan st = Some st.
Proof. intros H. unfold scan. destruct (length cs - x_i st)%nat; cbn [scan_loop]; by rewrite H. Qed.

Lemma at_head st c r : drop (x_i st) cs = c :: r -> cs !! x_i st = Some c /\ drop (S (x_i st)) cs = r.
Proof.
  intros H. split.
  - by rewrite <- (Nat.add_0_r (x_i st)), <- lookup_drop, H.
  - change (S (x_i st)) with (1 + x_i st)%nat. rewrite Nat.add_comm, <- drop_drop, H. done.
Qed.

Lemma drop_emit n s st r l : drop (x_i st) cs = l ++ r -> length l = n -> drop (x_i (emit n s st)) cs = r.
Proof. intros H <-. cbn. rewrite <- drop_drop, H, drop_app_length. done. Qed.

(** A character that history expansion does not look at outside quotes. *)
Definition plain (c : Z) : bool :=
  negb ((c =? "\"%b) || (c =? "#"%b) || (c =? "'"%b) || (c =? dquote) || (c =? "!"%b)).

Definition unquoted (st : ScanSt) : Prop := in_single st = false /\ in_double st = false.

Lemma scan_plain st c r : unquoted st -> plain c = true -> drop (x_i st) cs = c :: r ->
  scan st = scan (emit 1 [c] st).
Proof.
  intros [H1 H2] Hp Hd. destruct (at_head _ _ _ Hd) as [Hc _]. apply (scan_next _ _ c Hc).
  unfold plain in Hp. apply negb_true_iff in Hp. repeat (apply orb_false_iff in Hp as [Hp ?]).
  unfold round, plain_step. rewrite Hp, H1, H2. cbn [andb negb].
  repeat match goal with H : (c =? _) = false |- _ => rewrite H; clear H end. cbn [andb].
  destruct (c =? "$"%b); cbn [andb]; done.
Qed.

Lemma scan_escaped st c r : drop (x_i st) cs = "\"%b :: c :: r -> scan st = scan (emit 2 ["\"%b; c] st).
Proof.
  intros Hd. destruct (at_head _ _ _ Hd) as [Hc Hd']. apply (scan_next _ _ "\"%b Hc).
  unfold round. cbn [Z.eqb Pos.eqb].
  assert (cs !! S (x_i st) = Some c) as ->; [|done].
  by rewrite <- (Nat.add_0_r (S (x_i st))), <- lookup_drop, Hd'.
Qed.

Definition in_quotes (c : Z) : bool := negb ((c =? "\"%b) || (c =? "'"%b)).

Lemma emit_emit n m a b st : emit m b (emit n a st) = emit (n + m) (a ++ b) st.
Proof. unfold emit. cbn. by rewrite Nat.add_assoc, app_assoc. Qed.

Lemma scan_inside st s r : in_single st = true -> in_double st = false -> forallb in_quotes s = true ->
  drop (x_i st) cs = s ++ r -> scan st = scan (emit (length s) s st).
Proof.
  revert st. induction s as [|c s IH]; intros st H1 H2 Hs Hd.
  - unfold emit. cbn. rewrite Nat.add_0_r, app_nil_r. by destruct st.
  - cbn [forallb] in Hs. apply andb_true_iff in Hs as [Hc Hs]. unfold in_quotes in Hc.
    apply negb_true_iff, orb_false_iff in Hc as [Hb Hq]. cbn [app] in Hd.
    destruct (at_head _ _ _ Hd) as [Hl Hd'].
    rewrite (scan_next st (emit 1 [c] st) c Hl).
    2:{ unfold round, plain_step. rewrite Hb, Hq, H1, H2. cbn [andb negb]. rewrite ?andb_false_r. cbn. by rewrite ?andb_false_r. }
    rewrite IH; [|done..|]. { by rewrite emit_emit. }
    cbn. by rewrite Nat.add_1_r.
Qed.

Lemma scan_single st s r : unquoted st -> forallb in_quotes s = true ->
  drop (x_i st) cs = "'"%b :: s ++ "'"%b :: r ->
  scan st = scan (emit (length s + 2) ("'"%b :: s ++ ["'"%b]) st).
Proof.
  intros [H1 H2] Hs Hd. destruct (at_head _ _ _ Hd) as [Hl Hd'].
  rewrite (scan_next st (emit 1 ["'"%b] (set_quotes true false st)) "'"%b Hl).
  2:{ unfold round, plain_step. rewrite H1, H2. done. }
  rewrite (scan_inside _ s ("'"%b :: r)); [|done..|by cbn; rewrite Nat.add_1_r].
  set (st1 := emit (length s) s _).
  assert (Hd1 : drop (x_i st1) cs = "'"%b :: r).
  { unfold st1. cbn. rewrite <- Nat.add_assoc, <- drop_drop, Hd. cbn. by rewrite drop_app_length. }
  destruct (at_head _ _ _ Hd1) as [Hl1 _].
  rewrite (scan_next st1 (emit 1 ["'"%b] (set_quotes false false st1)) "'"%b Hl1) by done.
  f_equal. unfold st1, emit, set_quotes. cbn. rewrite H1, H2. f_equal; [lia|]. by rewrite <- !app_assoc.
Qed.

(** Text without a reference: plain characters, escaped characters and
    single-quoted text. *)
Inductive Piece := PPlain (c : Z) | PEscaped (c : Z) | PSingle (s : list Z).

Definition piece_ok (p : Piece) : bool :=
  match p with PPlain c => plain c | PEscaped _ => true | PSingle s => forallb in_quotes s end.

Definition piece_text (p : Piece) : list Z :=
  match p with PPlain c => [c] | PEscaped c => ["\"%b; c] | PSingle s => "'"%b :: s ++ ["'"%b] end.

Definition pieces_text (ps : list Piece) : list Z := concat (map piece_text ps).

Lemma scan_pieces st ps r : unquoted st -> forallb piece_ok ps = true -> drop (x_i st) cs = pieces_text ps ++ r ->
  scan st = scan (emit (length (pieces_text ps)) (pieces_text ps) st).
Proof.
  revert st. induction ps as [|p ps IH]; intros st Hu Hok Hd.
  - unfold emit. cbn. rewrite Nat.add_0_r, app_nil_r. by destruct st.
  - cbn [forallb] in Hok. apply andb_true_iff in Hok as [Hp Hok]. unfold pieces_text in *. cbn [map concat] in *.
    rewrite <- app_assoc in Hd. set (rest := concat (map piece_text ps)) in *.
    assert (scan st = scan (emit (length (piece_text p)) (piece_text p) st)) as ->.
    { destruct p as [c|c|s]; cbn [piece_text piece_ok] in *.
      - exact (scan_plain st c _ Hu Hp Hd).
      - exact (scan_escaped st c _ Hd).
      - replace (length ("'"%b :: s ++ ["'"%b])) with (length s + 2)%nat by (cbn; rewrite length_app; cbn; lia).
        apply (scan_single _ _ (rest ++ r)); [done..|]. rewrite Hd. cbn. by rewrite <- app_assoc. }
    rewrite IH; [|done|done|]. { by rewrite emit_emit, length_app. }
    by eapply drop_emit.
Qed.
End Scan.

Lemma quick_none input t : head input <> Some "^"%b -> quick_substitution input t = None.
Proof.
  intros H. unfold quick_substitution. destruct (split_newline input) as [body ending] eqn:Es.
  assert (quick_parts body = None) as ->; [|done].
  assert (head body <> Some "^"%b) as Hb.
  { unfold split_newline in Es. destruct (rev input) as [|x r] eqn:Er.
    - by injection Es as <- _.
    - assert (input = rev r ++ [x]) as -> by (rewrite <- (rev_involutive input), Er; done).
      assert (body = rev r \/ body = rev r ++ [x]) as [-> | ->]; [|by destruct (rev r)|done].
      destruct x as [|x|x]; [by injection Es as <- _; right| |by injection Es as <- _; right].
      repeat (destruct x as [x|x|]; try (by injection Es as <- _; right)). by injection Es as <- _; left. }
  unfold quick_parts. destruct body as [|b body]; [done|]. cbn in Hb.
  destruct b as [|b|b]; try done. repeat (destruct b as [b|b|]; try done).
Qed.

Lemma expand_inner_scan input t posix last : head input <> Some "^"%b ->
  expand_inner input t posix last
  = st ← scan input posix t (mkHScan 0 [] false None false 0 false false 0 false false last);
    Some (mkResult (x_out st) (x_changed st) (x_error st) (x_print st), x_last st).
Proof. intros H. unfold expand_inner, scan. rewrite quick_none by done. cbn [x_i]. by rewrite Nat.sub_0_r. Qed.

(** Text in which every [!] is escaped or inside single quotes (that hold
    no backslash) is returned as it is. *)
Theorem protected_text_is_kept ps t posix last : forallb piece_ok ps = true ->
  head (pieces_text ps) <> Some "^"%b ->
  expand_with_options (pieces_text ps) t posix last = Some (mkResult (pieces_text ps) false None false, last).
Proof.
  intros Hok Hh. unfold expand_with_options. destruct (needs_expansion (pieces_text ps)); [|done].
  rewrite expand_inner_scan by done. rewrite (scan_pieces _ _ _ _ ps []); [|done..|by rewrite app_nil_r].
  rewrite scan_end; [done|]. cbn. by rewrite lookup_ge_None_2.
Qed.

Lemma protected_text_is_kept_witness :
  expand_with_options (bs "echo '!!' \!x") (history_of ["ls"%string]) false None
  = Some (mkResult (bs "echo '!!' \!x") false None false, None).
Proof.
  exact (protected_text_is_kept
    (map PPlain (bs "echo ") ++ [PSingle (bs "!!"); PPlain " "%b; PEscaped "!"%b; PPlain "x"%b])
    (history_of ["ls"%string]) false None ltac:(reflexivity) ltac:(discriminate)).
Defined.

(** A backslash inside single quotes, where the shell gives it no meaning,
    escapes the closing quote for history expansion: the next single-quoted
    text is taken as unquoted and its [!!] is expanded. *)
Theorem backslash_unprotects_single_quotes :
  expand_line ["ls"%string] (bs "echo '\' '!!'") = Some (bs "echo '\' 'ls'").
Proof. vm_compute. reflexivity. Qed.

(** * Events *)

Definition event_text (ev : Event) : list Z :=
  match ev with
  | EvBang => ["!"%b]
  | EvDefault => []
  | EvCurrent => ["#"%b]
  | EvNumber n => i64_to_string n
  | EvString s => s
  | EvSubstring s => "?"%b :: s ++ ["?"%b]
  end.

Definition event_ok (ev : Event) : bool :=
  match ev with
  | EvBang | EvCurrent => true
  | EvDefault => false
  | EvNumber n => in_i64b n
  | EvString s => match s with c :: _ => is_ascii_alphabetic c || (c =? "_"%b) | [] => false end && forallb ident_char s
  | EvSubstring s => forallb (fun c => negb (c =? "?"%b)) s
  end.

(** What follows a reference without belonging to it. *)
Definition ends_reference (r : list Z) : bool :=
  match r with
  | [] => true
  | c :: _ => negb (ident_char c || (c =? ":"%b) || (c =? "^"%b) || (c =? "$"%b) || (c =? "%"%b) || (c =? "*"%b) || (c =? "-"%b))
  end.

Lemma drop_lookup (cs : list Z) i r : drop i cs = r -> cs !! i = head r.
Proof. intros <-. rewrite <- (Nat.add_0_r i) at 1. rewrite <- lookup_drop. by destruct (drop i cs). Qed.

Lemma run_end_spec test fuel (cs : list Z) i s r : drop i cs = s ++ r -> (length s <= fuel)%nat ->
  forallb test s = true -> match r with [] => true | c :: _ => negb (test c) end = true ->
  run_end test fuel cs i = (i + length s)%nat.
Proof.
  revert i fuel. induction s as [|c s IH]; intros i fuel Hd Hf Hs Hr; pose proof (drop_lookup _ _ _ Hd) as Hl.
  - cbn. rewrite Nat.add_0_r. cbn in Hl. destruct fuel as [|fuel]; [done|]. cbn. rewrite Hl.
    destruct r as [|c r]; [done|]. cbn. apply negb_true_iff in Hr. by rewrite Hr.
  - destruct fuel as [|fuel]; [cbn in Hf; lia|]. cbn [forallb] in Hs. apply andb_true_iff in Hs as [Hc Hs].
    cbn [run_end]. rewrite Hl. cbn. rewrite Hc. rewrite (IH (S i) fuel); [lia| |cbn in Hf; lia|done|done].
    change (S i) with (1 + i)%nat. rewrite Nat.add_comm, <- drop_drop, Hd. done.
Qed.

Lemma drop_slice (cs : list Z) i s r : drop i cs = s ++ r -> slice cs i (i + length s) = s.
Proof. intros H. unfold slice. rewrite H. replace (i + length s - i)%nat with (length s) by lia. apply take_app_length. Qed.

Lemma drop_length (cs : list Z) i s r : drop i cs = s ++ r -> (length s <= length cs)%nat.
Proof. intros H. apply (f_equal length) in H. rewrite length_drop, length_app in H. lia. Qed.

Lemma ends_not_ident test r : (forall c, test c = true -> ident_char c = true) -> ends_reference r = true ->
  match r with [] => true | c :: _ => negb (test c) end = true.
Proof.
  intros Ht. destruct r as [|c r]; [done|]. cbn. rewrite !negb_true_iff. intros H.
  do 6 (apply orb_false_iff in H as [H _]). specialize (Ht c). destruct (test c); [|done].
  by rewrite Ht in H.
Qed.

Lemma digit_ident c : is_ascii_digit c = true -> ident_char c = true.
Proof. intros H. unfold ident_char, is_ascii_alphanumeric. by rewrite H, orb_true_r. Qed.

Lemma number_text (cs : list Z) i start n r : in_i64 n -> ends_reference r = true ->
  drop start cs = i64_to_string n ++ r -> (0 <= n -> i = start) ->
  (n < 0 -> i = S start) ->
  number_event cs start (digits_end cs i) = Some (EvNumber n, length (i64_to_string n)).
Proof.
  intros Hn Hr Hd Hpos Hneg. unfold number_event, digits_end.
  assert (run_end is_ascii_digit (length cs) cs i = (start + length (i64_to_string n))%nat) as ->.
  { unfold i64_to_string in *. destruct (Z.ltb_spec n 0) as [H|H].
    - rewrite (Hneg H). destruct (u_to_string_spec (- n)) as (_ & Hall & _); [lia|].
      rewrite (run_end_spec _ _ _ _ (u_to_string (- n)) r); [cbn [length]; lia| | | |].
      + change (S start) with (1 + start)%nat. by rewrite Nat.add_comm, <- drop_drop, Hd.
      + apply drop_length in Hd. cbn [length] in Hd. lia.
      + apply forallb_forall. rewrite Forall_forall in Hall. intros x Hx. apply Hall. by apply list_elem_of_In.
      + apply ends_not_ident; [apply digit_ident|done].
    - rewrite (Hpos H). destruct (u_to_string_spec n) as (_ & Hall & _); [lia|].
      rewrite (run_end_spec _ _ _ _ (u_to_string n) r); [lia|done|by apply drop_length in Hd| |].
      + apply forallb_forall. rewrite Forall_forall in Hall. intros x Hx. apply Hall. by apply list_elem_of_In.
      + apply ends_not_ident; [apply digit_ident|done]. }
  rewrite (drop_slice _ _ _ _ Hd), parse_i64_to_string by done. repeat f_equal. lia.
Qed.

Lemma read_event_text (cs : list Z) start ev r : event_ok ev = true -> ends_reference r = true ->
  drop start cs = event_text ev ++ r ->
  exists c, cs !! start = Some c /\ read_event cs start c = Some (ev, length (event_text ev)).
Proof.
  intros Hok Hr Hd. pose proof (drop_lookup _ _ _ Hd) as Hl.
  destruct ev as [| | |n|s|s]; cbn [event_text event_ok] in *.
  - by exists "!"%b.
  - done.
  - by exists "#"%b.
  - apply in_i64b_iff in Hok. pose proof (number_text cs) as Hnum. unfold i64_to_string in Hl.
    destruct (Z.ltb_spec n 0) as [H|H].
    + exists "-"%b. split; [done|]. unfold read_event. cbn [Z.eqb Pos.eqb orb andb].
      assert (opt_digit (cs !! S start) = true) as ->.
      { unfold i64_to_string in Hd. rewrite (proj2 (Z.ltb_lt _ _)) in Hd by done.
        destruct (u_to_string_spec (- n)) as (Hne & Hall & _); [lia|].
        destruct (u_to_string (- n)) as [|d ds]; [done|]. inversion Hall; subst.
        assert (drop (S start) cs = d :: ds ++ r) as Hd2.
        { change (S start) with (1 + start)%nat. by rewrite Nat.add_comm, <- drop_drop, Hd. }
        by rewrite (drop_lookup _ _ _ Hd2). }
      apply (Hnum (S start) start n r); [done..|lia|done].
    + destruct (u_to_string_spec n) as (Hne & Hall & _); [lia|].
      destruct (u_to_string n) as [|d ds]; [done|]. inversion Hall as [|? ? Hdig _]; subst.
      exists d. split; [done|]. unfold read_event. unfold is_ascii_digit, in_range in Hdig.
      rewrite !orb_false_intro by lia. rewrite !(proj2 (Z.eqb_neq d _)) by lia.
      unfold is_ascii_digit, in_range. rewrite Hdig.
      apply (Hnum start start n r); [done..|lia].
  - apply andb_true_iff in Hok as [Hc Hs]. destruct s as [|c s]; [done|]. exists c. split; [done|].
    unfold read_event. set (s' := c :: s) in *. unfold is_ascii_alphabetic, is_ascii_upper, is_ascii_lower, in_range in Hc.
    rewrite !orb_false_intro by lia. rewrite !(proj2 (Z.eqb_neq c _)) by lia.
    assert (is_ascii_digit c = false) as -> by (unfold is_ascii_digit, in_range; lia).
    assert (is_ascii_alphabetic c || (c =? "_"%b) = true) as ->
      by (unfold is_ascii_alphabetic, is_ascii_upper, is_ascii_lower, in_range; lia).
    unfold ident_end. rewrite (run_end_spec ident_char _ _ _ s' r); [|done|by apply drop_length in Hd|done|by apply ends_not_ident].
    rewrite (drop_slice _ _ _ _ Hd). repeat f_equal. lia.
  - exists "?"%b. split; [done|]. unfold read_event. cbn [Z.eqb Pos.eqb orb andb].
    assert (drop (S start) cs = s ++ "?"%b :: r) as Hd2.
    { change (S start) with (1 + start)%nat. rewrite Nat.add_comm, <- drop_drop, Hd. cbn. by rewrite <- app_assoc. }
    pose proof (drop_length _ _ _ _ Hd2) as Hlen. pose proof (f_equal length Hd2) as Hlen2.
    rewrite length_drop, length_app in Hlen2. cbn [length] in Hlen2.
    unfold question_end. rewrite (run_end_spec _ _ _ _ s ("?"%b :: r)); [|done..].
    rewrite (drop_slice _ _ _ _ Hd2), (proj2 (Nat.ltb_lt _ _)) by lia.
    repeat f_equal. cbn [length]. rewrite length_app. cbn. lia.
Qed.

Lemma designate_none (cs : list Z) ev n v pos r : drop pos cs = r -> ends_reference r = true ->
  designate cs ev n v pos = ([ev_line v], pos)
  /\ forall fuel event po sel last, modifiers_loop fuel cs event pos po sel last = (Ok (pos, po, sel), last).
Proof.
  intros Hd Hr. pose proof (drop_lookup _ _ _ Hd) as Hl. destruct r as [|c r].
  - split; [unfold designate; by rewrite Hl|]. intros fuel ? ? ? ?. destruct fuel; cbn [modifiers_loop]; by rewrite Hl.
  - cbn in Hr, Hl. apply negb_true_iff in Hr. do 6 (apply orb_false_iff in Hr as [Hr ?]). unfold ident_char in Hr.
    to_prop. assert (forall (A : Type) (a b : A), match Some c with Some 58 => a | _ => b end = b) as Hm.
    { intros A a b. destruct c as [|c|c]; try done. repeat (destruct c as [c|c|]; try done). }
    split.
    + unfold designate. rewrite Hl.
      assert (read_word_designator cs pos = None) as Hw.
      { unfold read_word_designator. rewrite Hl. rewrite !(proj2 (Z.eqb_neq c _)) by done.
        unfold is_ascii_alphanumeric in *. to_prop.
        match goal with H : is_ascii_digit c = false |- _ => by rewrite H end. }
      rewrite Hw. assert (forall (A : Type) (a b : A), match c with 58 => a | _ => b end = b) as Hm'.
      { intros A a b. exact (Hm A a b). }
      rewrite Hm'. by destruct (_ || _).
    + intros fuel ? ? ? ?. destruct fuel; cbn [modifiers_loop]; rewrite Hl; apply Hm.
Qed.

Lemma needs_after pre post : last pre <> Some "\"%b -> needs_expansion (pre ++ "!"%b :: post) = true.
Proof.
  intros Hl. unfold needs_expansion. apply orb_true_iff. left. rewrite fold_left_app.
  set (f := fun '(found, prev) c => (found || (c =? "!"%b) && negb (prev =? "\"%b), c)) in *.
  assert (Hmono : forall l st, fst st = true -> fst (fold_left f l st) = true).
  { intros l. induction l as [|x l IH]; intros [fd pv] H; [done|]. cbn in *. apply IH. cbn. by rewrite H. }
  assert (Hlast : forall l st, snd (fold_left f l st) = default (snd st) (last l)).
  { intros l. induction l as [|x l IH] using rev_ind; intros [fd pv]; [done|].
    rewrite fold_left_app, last_snoc. cbn. by destruct (fold_left f l (fd, pv)). }
  specialize (Hlast pre (false, " "%b)). destruct (fold_left f pre _) as [fd pv]. cbn in Hlast. subst pv.
  cbn [fold_left]. apply Hmono. cbn. destruct (last pre) as [x|]; cbn.
  - destruct (Z.eqb_spec x "\"%b) as [->|_]; [done|]. apply orb_true_r.
  - apply orb_true_r.
Qed.

Lemma literal_context_app (pre post : list Z) :
  is_literal_bang_context (pre ++ post) (length pre) = is_literal_bang_context pre (length pre).
Proof.
  unfold is_literal_bang_context. destruct (length pre) as [|j] eqn:E; [done|].
  rewrite lookup_app_l by lia. destruct j as [|k]; [done|]. by rewrite (lookup_app_l pre post k) by lia.
Qed.

(** An event reference ([!!], [!#], [!n], [!-n], [!text], [!?text?]) between
    text without references is replaced by the line it names, everything
    around it kept, when the result respects the size limit. *)
Theorem event_is_replaced ps ev qs t posix cell value :
  forallb piece_ok ps = true -> forallb piece_ok qs = true -> event_ok ev = true ->
  head (pieces_text ps) <> Some "^"%b -> last (pieces_text ps) <> Some "\"%b ->
  is_literal_bang_context (pieces_text ps) (length (pieces_text ps)) = false ->
  ends_reference (pieces_text qs) = true ->
  resolve_event ev t (pieces_text ps) = inl value ->
  str_len (pieces_text ps) + str_len (ev_line value) <= MAX_HISTORY_EXPANSION_BYTES ->
  expand_with_options (pieces_text ps ++ "!"%b :: event_text ev ++ pieces_text qs) t posix cell
  = Some (mkResult (pieces_text ps ++ ev_line value ++ pieces_text qs) true None false, cell).
Proof.
  intros Hps Hqs Hev Hh Hl Hlit Hends Hres Hsize.
  set (pre := pieces_text ps) in *. set (post := pieces_text qs) in *. set (cs := pre ++ "!"%b :: event_text ev ++ post).
  unfold expand_with_options, cs at 1. rewrite needs_after by done.
  rewrite expand_inner_scan by (unfold cs, pre in *; destruct (pieces_text ps); [discriminate|exact Hh]).
  rewrite (scan_pieces _ _ _ _ ps ("!"%b :: event_text ev ++ post)) by done. fold pre.
  set (st := emit (length pre) pre _).
  assert (Hbang : drop (x_i st) cs = "!"%b :: event_text ev ++ post) by (unfold cs; cbn; apply drop_app_length).
  destruct (at_head cs _ _ _ Hbang) as [Hc Hd].
  destruct (read_event_text cs (S (x_i st)) ev post Hev Hends Hd) as (c & Hc2 & Hread).
  assert (Hpos : drop (S (x_i st) + length (event_text ev)) cs = post) by (rewrite <- drop_drop, Hd; apply drop_app_length).
  rewrite (scan_next _ _ _ st (take_ref (mkRef (ev_line value) (length (event_text ev)) false) (count_ref st)) "!"%b Hc).
  2:{ unfold round, plain_step, bang_step. cbn -[expand_reference str_len MAX_HISTORY_EXPANSION_BYTES is_literal_bang_context cs].
      rewrite andb_false_r. cbn -[expand_reference str_len MAX_HISTORY_EXPANSION_BYTES is_literal_bang_context cs].
      unfold cs at 1. rewrite literal_context_app, Hlit.
      unfold expand_reference. change (S (length pre)) with (S (x_i st)). rewrite Hc2, Hread, Hres.
      destruct (designate_none cs ev (length (event_text ev)) value _ _ Hpos Hends) as [-> Hmod].
      rewrite Hmod. cbn [join_words x_text]. rewrite (proj2 (Z.ltb_ge MAX_HISTORY_EXPANSION_BYTES _)) by done.
      replace (S (x_i st) + length (event_text ev) - S (x_i st))%nat with (length (event_text ev)) by lia.
      reflexivity. }
  rewrite (scan_pieces _ _ _ _ qs []); [|done|done|]; fold post.
  2:{ cbn. rewrite app_nil_r. etransitivity; [|exact Hpos]. f_equal. cbn. lia. }
  rewrite scan_end.
  2:{ apply lookup_ge_None_2. unfold cs. cbn. rewrite length_app. cbn. rewrite length_app. lia. }
  cbn. by rewrite <- app_assoc.
Qed.

Lemma event_is_replaced_witness :
  expand_with_options (bs "echo !-2; '!!'") (history_of ["ls"; "pwd"]%string) false None
  = Some (mkResult (bs "echo ls; '!!'") true None false, None).
Proof.
  exact (event_is_replaced (map PPlain (bs "echo ")) (EvNumber (-2)) [PPlain ";"%b; PPlain " "%b; PSingle (bs "!!")]
    (history_of ["ls"; "pwd"]%string) false None (mkEvent (bs "ls") None)
    ltac:(reflexivity) ltac:(reflexivity) ltac:(reflexivity) ltac:(discriminate) ltac:(discriminate)
    ltac:(reflexivity) ltac:(reflexivity) ltac:(reflexivity) ltac:(vm_compute; discriminate)).
Defined.

(** * Words and quoting modifiers *)

Definition quote_char (c : Z) : list Z := if c =? "'"%b then bs "'\''" else [c].

Lemma quote_unfold s : hist_shell_quote s = "'"%b :: concat (map quote_char s) ++ ["'"%b].
Proof. unfold hist_shell_quote. by destruct s. Qed.

Lemma dequote_quoted s r :
  dequote_loop (Some "'"%b) (concat (map quote_char s) ++ "'"%b :: r) = s ++ dequote_loop None r.
Proof.
  induction s as [|c s IH]; [done|]. cbn [map concat]. unfold quote_char at 1.
  destruct (Z.eqb_spec c "'"%b) as [->|Hc].
  - rewrite <- app_assoc. change (bs "'\''") with ["'"%b; "\"%b; "'"%b; "'"%b]. cbn [app]. cbn [dequote_loop Z.eqb Pos.eqb dquote]. by rewrite IH.
  - cbn [app dequote_loop]. rewrite (proj2 (Z.eqb_neq _ _) Hc). by rewrite IH.
Qed.

Lemma dequote_shell_quote s : dequote_history_word (hist_shell_quote s) = s.
Proof.
  rewrite quote_unfold. unfold dequote_history_word. cbn [dequote_loop Z.eqb Pos.eqb dquote].
  rewrite dequote_quoted. cbn. apply app_nil_r.
Qed.

Lemma words_quoted words cur s r :
  words_loop words cur (Some "'"%b) (concat (map quote_char s) ++ "'"%b :: r)
  = words_loop words (cur ++ concat (map quote_char s) ++ ["'"%b]) None r.
Proof.
  revert cur. induction s as [|c s IH]; intros cur; [done|]. cbn [map concat]. unfold quote_char at 1 3.
  destruct (Z.eqb_spec c "'"%b) as [->|Hc].
  - rewrite <- !app_assoc. change (bs "'\''") with ["'"%b; "\"%b; "'"%b; "'"%b]. cbn [app]. cbn [words_loop Z.eqb Pos.eqb dquote]. rewrite IH.
    f_equal. by rewrite <- !app_assoc.
  - cbn [app words_loop]. rewrite (proj2 (Z.eqb_neq _ _) Hc), IH. by rewrite <- !app_assoc.
Qed.

Lemma words_of_quoted words ws :
  words_loop words [] None (join_words (map hist_shell_quote ws)) = words ++ map hist_shell_quote ws.
Proof.
  revert words. induction ws as [|w ws IH]; intros words; [cbn; by rewrite app_nil_r|].
  assert (Hq : forall r, words_loop words [] None (hist_shell_quote w ++ r)
               = words_loop words (hist_shell_quote w) None r).
  { intros r. rewrite quote_unfold. cbn [app words_loop Z.eqb Pos.eqb dquote]. rewrite <- app_assoc. cbn [app].
    by rewrite words_quoted. }
  destruct ws as [|w' ws].
  - cbn [map join_words]. rewrite <- (app_nil_r (hist_shell_quote w)) at 1. rewrite Hq. cbn [words_loop].
    unfold flush_word. by rewrite quote_unfold.
  - cbn [map join_words] in *. rewrite Hq. cbn [words_loop Z.eqb Pos.eqb dquote].
    change (char_is_whitespace " "%b) with true. cbn [orb]. rewrite IH.
    assert (flush_word words (hist_shell_quote w) = words ++ [hist_shell_quote w]) as ->
      by (unfold flush_word; by rewrite quote_unfold).
    by rewrite <- app_assoc.
Qed.

(** The modifiers [:x] and [:q] quote without changing a word: the line
    they produce splits into exactly the words they made, one for each
    selected word ([:x]) or a single one ([:q]), and removing the quotes gives
    the text of the selection back. *)
Theorem quoting_modifiers_keep_words cs start sel cell :
  (exists sel', apply_modifier cs start "x"%b sel cell = inl (1%nat, false, sel', cell)
     /\ history_words (join_words sel') = sel'
     /\ map dequote_history_word sel' = map dequote_history_word sel)
  /\ (exists w, apply_modifier cs start "q"%b sel cell = inl (1%nat, false, [w], cell)
     /\ history_words w = [w]
     /\ dequote_history_word w = join_words (map dequote_history_word sel)).
Proof.
  split.
  - eexists. split; [reflexivity|]. unfold map_words.
    replace (map (fun w => hist_shell_quote (dequote_history_word w)) sel)
      with (map hist_shell_quote (map dequote_history_word sel)) by apply map_map.
    split; [exact (words_of_quoted [] _)|]. rewrite !map_map. apply map_ext. intros w. apply dequote_shell_quote.
  - eexists. split; [reflexivity|]. split; [exact (words_of_quoted [] [_])|apply dequote_shell_quote].
Qed.
