(* ===== verification/Options.v ===== *)
(** The options of the shell: the fields [set -o] and [shopt] switch, how a
    name is looked up, and the values of [$-], [SHELLOPTS] and [BASHOPTS]
    (crates/shell/src/state/environment/options.rs, option_helpers.rs,
    model.rs and the tables of crates/builtins/src).  A boolean field of the
    state is a [Flag]; the fields together are a function on flags. *)
From stdpp Require Import gmap.
From S2P Require Import Prelude Utf8.

(** The boolean fields saved in [SavedOptions]. *)
Inductive Flag :=
| Allexport | Errexit | Nounset | Noglob | Hashall | Keyword | Pipefail | Lastpipe | Noclobber | Xtrace
| Braceexpand | Errtrace | Functrace | Physical | Notify | Monitor | JobControl | Noexec | OneCommand
| Privileged | Verbose | Restricted | Posix.

#[export] Instance Flag_eq_dec : EqDecision Flag.
Proof. solve_decision. Defined.

Record SavedOptions := mkOptions {
  flags : Flag -> bool;
  shopt_options : gmap bytes bool;
}.

(** The fields the tables consult that no scope saves. *)
Record Startup := mkStartup {
  interactive : bool;
  interactive_shell : bool;
  login_shell : Z;
  read_from_stdin : bool;
  dash_c : bool;              (* startup_state = StartupMode::DashC *)
}.

Definition set_flag (f : Flag) (on : bool) (o : SavedOptions) : SavedOptions :=
  mkOptions (fun g => if bool_decide (g = f) then on else flags o g) (shopt_options o).

Definition set_shopt (name : bytes) (on : bool) (o : SavedOptions) : SavedOptions :=
  mkOptions (flags o) (<[name := on]> (shopt_options o)).

(** * Tables *)

Definition SHOPT_OPTIONS : list (string * bool) :=
  [("array_expand_once", false); ("assoc_expand_once", false); ("autocd", false); ("bash_source_fullpath", false);
   ("cdable_vars", false); ("cdspell", false); ("checkhash", false); ("checkjobs", false);
   ("checkwinsize", true); ("cmdhist", true); ("compat31", false); ("compat32", false);
   ("compat40", false); ("compat41", false); ("compat42", false); ("compat43", false);
   ("compat44", false); ("complete_fullquote", true); ("direxpand", false); ("dirspell", false);
   ("dotglob", false); ("execfail", false); ("expand_aliases", false); ("extdebug", false);
   ("extglob", false); ("extquote", true); ("failglob", false); ("force_fignore", true);
   ("globasciiranges", true); ("globskipdots", true); ("globstar", false); ("gnu_errfmt", false);
   ("histappend", false); ("histreedit", false); ("histverify", false); ("hostcomplete", true);
   ("huponexit", false); ("inherit_errexit", false); ("interactive_comments", true); ("lastpipe", false);
   ("lithist", false); ("localvar_inherit", false); ("localvar_unset", false); ("login_shell", false);
   ("mailwarn", false); ("no_empty_cmd_completion", false); ("nocaseglob", false); ("nocasematch", false);
   ("noexpand_translation", false); ("nullglob", false); ("patsub_replacement", true); ("progcomp", true);
   ("progcomp_alias", false); ("promptvars", true); ("restricted_shell", false); ("shift_verbose", false);
   ("sourcepath", true); ("varredir_close", false); ("xpg_echo", false)]%string.

Definition SET_OPTIONS : list string :=
  ["allexport"; "braceexpand"; "emacs"; "errexit"; "errtrace"; "functrace"; "hashall";
   "histexpand"; "history"; "ignoreeof"; "interactive-comments"; "keyword"; "monitor"; "noclobber";
   "noexec"; "noglob"; "nolog"; "notify"; "nounset"; "onecmd"; "physical";
   "pipefail"; "posix"; "privileged"; "verbose"; "vi"; "xtrace"]%string.

Definition COMPAT_SHOPT_OPTIONS : list string :=
  ["compat31"; "compat32"; "compat40"; "compat41"; "compat42"; "compat43"; "compat44"]%string.

(** The names of the fields. *)
Definition FLAG_NAMES : list (string * Flag) :=
  [("allexport", Allexport); ("a", Allexport); ("errexit", Errexit); ("e", Errexit); ("noglob", Noglob);
   ("f", Noglob); ("hashall", Hashall); ("h", Hashall); ("keyword", Keyword); ("k", Keyword);
   ("nounset", Nounset); ("u", Nounset); ("pipefail", Pipefail); ("lastpipe", Lastpipe); ("noclobber", Noclobber);
   ("C", Noclobber); ("xtrace", Xtrace); ("x", Xtrace); ("braceexpand", Braceexpand); ("B", Braceexpand);
   ("errtrace", Errtrace); ("E", Errtrace); ("functrace", Functrace); ("T", Functrace); ("physical", Physical);
   ("P", Physical); ("notify", Notify); ("b", Notify); ("monitor", Monitor); ("m", Monitor);
   ("noexec", Noexec); ("n", Noexec); ("onecmd", OneCommand); ("t", OneCommand); ("privileged", Privileged);
   ("p", Privileged); ("verbose", Verbose); ("v", Verbose); ("restricted", Restricted); ("r", Restricted);
   ("posix", Posix)]%string.

Fixpoint assoc_name {A} (name : bytes) (l : list (string * A)) : option A :=
  match l with
  | [] => None
  | (n, a) :: l => if bytes_eqb name (bs n) then Some a else assoc_name name l
  end.

Definition flag_of_name (name : bytes) : option Flag := assoc_name name FLAG_NAMES.

Definition one_of (name : bytes) (l : list string) : bool := existsb (fun n => bytes_eqb name (bs n)) l.

(** * Reading an option *)

Definition default_shopt_value (name : bytes) (interactive posix : bool) : bool :=
  if bytes_eqb name (bs "expand_aliases") then interactive
  else if bytes_eqb name (bs "inherit_errexit") && posix then true
  else default false (assoc_name name SHOPT_OPTIONS).

Definition shopt_or (dflt : bool) (name : bytes) (o : SavedOptions) : bool := default dflt (shopt_options o !! name).

Definition option_value (st : Startup) (o : SavedOptions) (name : bytes) : bool :=
  match flag_of_name name with
  | Some f => flags o f
  | None =>
      if bytes_eqb name (bs "ignoreeof") then shopt_or false name o
      else if one_of name ["interactive-comments"; "interactive_comments"]%string
      then shopt_or true (bs "interactive_comments") o
      else if one_of name ["emacs"; "history"; "nolog"; "vi"]%string then shopt_or false name o
      else if one_of name ["histexpand"; "H"]%string then shopt_or false (bs "histexpand") o
      else if bytes_eqb name (bs "restricted_shell") then flags o Restricted
      else if one_of name ["interactive"; "i"]%string then interactive st
      else if bytes_eqb name (bs "login_shell") then negb (login_shell st =? 0)
      else shopt_or (default_shopt_value name (interactive st) (flags o Posix)) name o
  end.

(** [$-]. *)
Definition state_option_letters (st : Startup) (o : SavedOptions) : bytes :=
  let on (b : bool) (c : Z) := if b then [c] else [] in
  on (interactive st) "i"%b ++ on (flags o Allexport) "a"%b ++ on (flags o Errexit) "e"%b
  ++ on (flags o Noglob) "f"%b ++ on (flags o Hashall) "h"%b ++ on (flags o Keyword) "k"%b
  ++ on (flags o Monitor) "m"%b ++ on (flags o Noexec) "n"%b ++ on (flags o Privileged) "p"%b
  ++ on (flags o OneCommand) "t"%b ++ on (flags o Nounset) "u"%b ++ on (flags o Verbose) "v"%b
  ++ on (flags o Xtrace) "x"%b ++ on (flags o Braceexpand) "B"%b ++ on (flags o Noclobber) "C"%b
  ++ on (flags o Errtrace) "E"%b ++ on (option_value st o (bs "histexpand")) "H"%b ++ on (flags o Physical) "P"%b
  ++ on (flags o Functrace) "T"%b
  ++ (if dash_c st then ["c"%b] else on (read_from_stdin st) "s"%b).

Definition join_colon (names : list bytes) : bytes :=
  match names with [] => [] | n :: ns => n ++ concat (map (cons ":"%b) ns) end.

Definition shellopts_value (st : Startup) (o : SavedOptions) : bytes :=
  join_colon (List.filter (option_value st o) (map bs SET_OPTIONS)).

(** The table is in the order [sort_unstable] produces: [shopt_table_sorted]. *)
Definition bashopts_value (st : Startup) (o : SavedOptions) : bytes :=
  join_colon (List.filter (option_value st o) (map (fun p => bs (fst p)) SHOPT_OPTIONS)).

(** * [BASH_COMPAT] *)

Definition parse_u32 (s : bytes) : option Z :=
  let d := match s with "+"%b :: d => d | _ => s end in
  match d with
  | [] => None
  | _ => match dec_value 0 d with Some z => if z <? 2 ^ 32 then Some z else None | None => None end
  end.

(** [a * 10 + b] on [u32], as a release build computes it. *)
Definition compatibility_level (value : bytes) : option Z :=
  let trimmed := trim value in
  match find_byte "."%b trimmed with
  | Some k =>
      match parse_u32 (take k trimmed), parse_u32 (drop (S k) trimmed) with
      | Some major, Some minor => Some (u32 (major * 10 + minor))
      | _, _ => None
      end
  | None => parse_u32 trimmed
  end.

Definition compatibility_option (level : Z) : option bytes :=
  List.find (fun o => bool_decide (parse_u32 (drop 6 o) = Some level)) (map bs COMPAT_SHOPT_OPTIONS).

Definition apply_compat (value : bytes) (o : SavedOptions) : SavedOptions :=
  let o := fold_left (fun o n => set_shopt (bs n) false o) COMPAT_SHOPT_OPTIONS o in
  match compatibility_level value ≫= compatibility_option with
  | Some name => set_shopt name true o
  | None => o
  end.

(** * Evaluations *)

Fixpoint lex_lt (a b : bytes) : bool :=
  match a, b with
  | [], _ :: _ => true
  | x :: a, y :: b => (x <? y) || ((x =? y) && lex_lt a b)
  | _, _ => false
  end.

Fixpoint ascending (l : list bytes) : bool :=
  match l with a :: ((b :: _) as r) => lex_lt a b && ascending r | _ => true end.

Example shopt_table_sorted : ascending (map (fun p => bs (fst p)) SHOPT_OPTIONS) = true.
Proof. vm_compute. reflexivity. Qed.

(** [Default] of the state. *)
Definition default_options : SavedOptions :=
  mkOptions (fun f => match f with Hashall | Braceexpand => true | _ => false end) ∅.

Definition default_startup : Startup := mkStartup false false 0 false false.

Example default_letters : state_option_letters default_startup default_options = bs "hB".
Proof. vm_compute. reflexivity. Qed.

Example compat_42 : option_value default_startup (apply_compat (bs "4.2") default_options) (bs "compat42") = true.
Proof. vm_compute. reflexivity. Qed.
