(* ===== verification/Vars.v ===== *)
(** The shell's variables: scalars, arrays, attributes, name references, local
    scopes, the variables the shell computes, and the process environment
    (crates/shell/src/state: model.rs, variables.rs, variable_helpers.rs,
    runtime.rs, validation.rs, option_helpers.rs and environment/).  The fields
    of [ShellState] are grouped into records; [std::env] is the field [penv],
    the warnings printed are the field [warnings], and the process, the clock
    and the Unicode case tables are classes. *)
From stdpp Require Import gmap.
From S2P Require Import Prelude Env Utf8 IndexedArray History Options.

(** * [VarAttrs] *)

Definition EXPORT : Z := 2 ^ 0.
Definition READONLY : Z := 2 ^ 1.
Definition INTEGER : Z := 2 ^ 2.
Definition ARRAY : Z := 2 ^ 3.
Definition ASSOC : Z := 2 ^ 4.
Definition UPPERCASE : Z := 2 ^ 5.
Definition LOWERCASE : Z := 2 ^ 6.
Definition CAPCASE : Z := 2 ^ 7.
Definition NAMEREF : Z := 2 ^ 9.

Definition attr_contains (a m : Z) : bool := Z.land a m =? m.
Definition attr_intersects (a m : Z) : bool := negb (Z.land a m =? 0).
Definition attr_insert (a m : Z) : Z := Z.lor a m.
Definition attr_remove (a m : Z) : Z := Z.ldiff a m.

(** * State *)

Record VariableEntry := mkEntry {
  value : bytes;
  has_value : bool;
  exported : bool;
  readonly : bool;
  attrs : Z;
}.

Definition entry_default : VariableEntry := mkEntry [] false false false 0.

Record SavedVar := mkSaved {
  sv_entry : option VariableEntry;
  sv_indexed : option IndexedArray;
  sv_assoc : option (gmap bytes bytes);
  sv_nameref : option bytes;
}.

(** The maps from names. *)
Record Store := mkStore {
  variables : gmap bytes VariableEntry;
  indexed_arrays : gmap bytes IndexedArray;
  assoc_arrays : gmap bytes (gmap bytes bytes);
  assoc_print_orders : gmap bytes (list bytes);
  nameref_targets : gmap bytes bytes;
}.

(** The variables the shell computes. *)
Record Dynamic := mkDyn {
  seconds_start : Z;
  seconds_offset : Z;
  seconds_dynamic : bool;
  epochseconds_dynamic : bool;
  epochrealtime_dynamic : bool;
  bash_monoseconds_dynamic : bool;
  bash_argv0_dynamic : bool;
  groups_dynamic : bool;
  random_seed : Z;
  last_random_value : Z;
  srandom_seed : Z;
}.

(** The call stack, and where input comes from. *)
Record Frames := mkFrames {
  funcname_stack : list bytes;
  funcname_source_stack : list bytes;
  funcname_lineno_stack : list Z;
  funcname_source_frame_stack : list bool;
  bash_argc_stack : list Z;
  bash_argv_stack : list bytes;
  input_stream : option bytes;     (* the name, when input is BashInput::Stream *)
  diagnostic_line_stack : list Z;
  current_command_line_count : Z;
  current_command_string : option bytes;
}.

Record Tables := mkTables {
  aliases : gmap bytes bytes;
  command_hash : gmap bytes bytes;
  command_hash_hits : gmap bytes Z;
  dirs_stack : list bytes;
}.

Record HistVars := mkHistVars {
  history_table : HistoryTable;
  histsize : Z;
  histfilesize : Z;
  histcontrol_flags : Z;
  histfile : option bytes;
  histfile_explicit : bool;
}.

Record Process := mkProcess {
  last_command_exit_value : Z;
  shell_pid_value : option Z;
  last_async_pid : option Z;
  bashpid_cache : option Z;
  subshell_level : Z;
  running_trap_sig : option Z;
}.

(** The diagnostics these functions print. *)
Inductive Warning :=
| WCircular (name : bytes)
| WMaxDepth (name : bytes)
| WRemovingNameref (name : bytes)
| WInvalidXtraceFd (value : bytes)
| WInvalidAlias (key : bytes).

Record ShellState := mkShell {
  store : Store;
  local_scopes : list (gmap bytes SavedVar);      (* innermost last *)
  local_option_scopes : list (option SavedOptions);
  options : SavedOptions;
  startup : Startup;
  penv : gmap bytes bytes;
  dyn : Dynamic;
  frames : Frames;
  tables : Tables;
  hist : HistVars;
  process : Process;
  dollar_vars : list bytes;
  logical_pwd_value : option bytes;
  warnings : list Warning;
}.

Definition with_store (x : Store) (s : ShellState) : ShellState :=
  mkShell x (local_scopes s) (local_option_scopes s) (options s) (startup s) (penv s) (dyn s) (frames s)
    (tables s) (hist s) (process s) (dollar_vars s) (logical_pwd_value s) (warnings s).
Definition with_scopes (x : list (gmap bytes SavedVar)) (s : ShellState) : ShellState :=
  mkShell (store s) x (local_option_scopes s) (options s) (startup s) (penv s) (dyn s) (frames s)
    (tables s) (hist s) (process s) (dollar_vars s) (logical_pwd_value s) (warnings s).
Definition with_option_scopes (x : list (option SavedOptions)) (s : ShellState) : ShellState :=
  mkShell (store s) (local_scopes s) x (options s) (startup s) (penv s) (dyn s) (frames s)
    (tables s) (hist s) (process s) (dollar_vars s) (logical_pwd_value s) (warnings s).
Definition with_options (x : SavedOptions) (s : ShellState) : ShellState :=
  mkShell (store s) (local_scopes s) (local_option_scopes s) x (startup s) (penv s) (dyn s) (frames s)
    (tables s) (hist s) (process s) (dollar_vars s) (logical_pwd_value s) (warnings s).
Definition with_penv (x : gmap bytes bytes) (s : ShellState) : ShellState :=
  mkShell (store s) (local_scopes s) (local_option_scopes s) (options s) (startup s) x (dyn s) (frames s)
    (tables s) (hist s) (process s) (dollar_vars s) (logical_pwd_value s) (warnings s).
Definition with_dyn (x : Dynamic) (s : ShellState) : ShellState :=
  mkShell (store s) (local_scopes s) (local_option_scopes s) (options s) (startup s) (penv s) x (frames s)
    (tables s) (hist s) (process s) (dollar_vars s) (logical_pwd_value s) (warnings s).
Definition with_tables (x : Tables) (s : ShellState) : ShellState :=
  mkShell (store s) (local_scopes s) (local_option_scopes s) (options s) (startup s) (penv s) (dyn s) (frames s)
    x (hist s) (process s) (dollar_vars s) (logical_pwd_value s) (warnings s).
Definition with_hist (x : HistVars) (s : ShellState) : ShellState :=
  mkShell (store s) (local_scopes s) (local_option_scopes s) (options s) (startup s) (penv s) (dyn s) (frames s)
    (tables s) x (process s) (dollar_vars s) (logical_pwd_value s) (warnings s).
Definition with_dollar_vars (x : list bytes) (s : ShellState) : ShellState :=
  mkShell (store s) (local_scopes s) (local_option_scopes s) (options s) (startup s) (penv s) (dyn s) (frames s)
    (tables s) (hist s) (process s) x (logical_pwd_value s) (warnings s).
Definition with_logical_pwd (x : option bytes) (s : ShellState) : ShellState :=
  mkShell (store s) (local_scopes s) (local_option_scopes s) (options s) (startup s) (penv s) (dyn s) (frames s)
    (tables s) (hist s) (process s) (dollar_vars s) x (warnings s).
Definition warn (w : Warning) (s : ShellState) : ShellState :=
  mkShell (store s) (local_scopes s) (local_option_scopes s) (options s) (startup s) (penv s) (dyn s) (frames s)
    (tables s) (hist s) (process s) (dollar_vars s) (logical_pwd_value s) (warnings s ++ [w]).

(** One map of the store changed. *)
Definition set_variables (x : gmap bytes VariableEntry) (s : ShellState) : ShellState :=
  let t := store s in
  with_store (mkStore x (indexed_arrays t) (assoc_arrays t) (assoc_print_orders t) (nameref_targets t)) s.
Definition set_indexed (x : gmap bytes IndexedArray) (s : ShellState) : ShellState :=
  let t := store s in
  with_store (mkStore (variables t) x (assoc_arrays t) (assoc_print_orders t) (nameref_targets t)) s.
Definition set_assoc (x : gmap bytes (gmap bytes bytes)) (s : ShellState) : ShellState :=
  let t := store s in
  with_store (mkStore (variables t) (indexed_arrays t) x (assoc_print_orders t) (nameref_targets t)) s.
Definition set_print_orders (x : gmap bytes (list bytes)) (s : ShellState) : ShellState :=
  let t := store s in
  with_store (mkStore (variables t) (indexed_arrays t) (assoc_arrays t) x (nameref_targets t)) s.
Definition set_namerefs (x : gmap bytes bytes) (s : ShellState) : ShellState :=
  let t := store s in
  with_store (mkStore (variables t) (indexed_arrays t) (assoc_arrays t) (assoc_print_orders t) x) s.

Definition entry_of (s : ShellState) (name : bytes) : option VariableEntry := variables (store s) !! name.
Definition indexed_of (s : ShellState) (name : bytes) : option IndexedArray := indexed_arrays (store s) !! name.
Definition assoc_of (s : ShellState) (name : bytes) : option (gmap bytes bytes) := assoc_arrays (store s) !! name.
Definition nameref_of (s : ShellState) (name : bytes) : option bytes := nameref_targets (store s) !! name.

Definition put_entry (name : bytes) (e : VariableEntry) (s : ShellState) : ShellState :=
  set_variables (<[name := e]> (variables (store s))) s.
Definition del_entry (name : bytes) (s : ShellState) : ShellState :=
  set_variables (delete name (variables (store s))) s.
Definition put_indexed (name : bytes) (a : IndexedArray) (s : ShellState) : ShellState :=
  set_indexed (<[name := a]> (indexed_arrays (store s))) s.
Definition del_indexed (name : bytes) (s : ShellState) : ShellState :=
  set_indexed (delete name (indexed_arrays (store s))) s.
Definition put_assoc (name : bytes) (a : gmap bytes bytes) (s : ShellState) : ShellState :=
  set_assoc (<[name := a]> (assoc_arrays (store s))) s.
Definition del_assoc (name : bytes) (s : ShellState) : ShellState :=
  set_assoc (delete name (assoc_arrays (store s))) s.
Definition put_nameref (name t : bytes) (s : ShellState) : ShellState :=
  set_namerefs (<[name := t]> (nameref_targets (store s))) s.
Definition del_nameref (name : bytes) (s : ShellState) : ShellState :=
  set_namerefs (delete name (nameref_targets (store s))) s.
Definition put_print_order (name : bytes) (o : list bytes) (s : ShellState) : ShellState :=
  set_print_orders (<[name := o]> (assoc_print_orders (store s))) s.
Definition del_print_order (name : bytes) (s : ShellState) : ShellState :=
  set_print_orders (delete name (assoc_print_orders (store s))) s.
Definition set_var_env (name v : bytes) (s : ShellState) : ShellState := with_penv (<[name := v]> (penv s)) s.
Definition remove_var_env (name : bytes) (s : ShellState) : ShellState := with_penv (delete name (penv s)) s.

(** The attributes of an entry, or none. *)
Definition entry_attrs (e : option VariableEntry) : Z := match e with Some e => attrs e | None => 0 end.
Definition entry_exported (e : option VariableEntry) : bool := match e with Some e => exported e | None => false end.
Definition entry_readonly (e : option VariableEntry) : bool := match e with Some e => readonly e | None => false end.

Definition name_is (name : bytes) (n : string) : bool := bytes_eqb name (bs n).

(** What the state asks of the system. *)
Class System := {
  getpid : Z;
  instant_now : Z;
  elapsed_secs : Z -> Z;
  epoch_seconds : Z;
  epoch_realtime : Z * Z;
  mono_seconds : Z;
  fd_open : Z -> bool;
  canonicalize : bytes -> option bytes;
  current_dir : option bytes;
}.

(** The case tables of [str] and [char]. *)
Class Casing := {
  str_to_uppercase : bytes -> bytes;
  str_to_lowercase : bytes -> bytes;
  char_is_alphabetic : Z -> bool;
  char_to_uppercase : Z -> list Z;
  char_to_lowercase : Z -> list Z;
}.

(** * Names and values *)

Definition state_valid_name (name : bytes) : bool :=
  match name with
  | c :: r => ((c =? "_"%b) || is_ascii_alphabetic c) && forallb (fun c => (c =? "_"%b) || is_ascii_alphanumeric c) r
  | [] => false
  end.

Definition state_valid_alias_name (name : bytes) : bool :=
  negb (is_nil name)
  && (forallb (fun c => is_ascii_alphanumeric c || existsb (Z.eqb c) (bs "_.-!%:@")) name || state_valid_name name).

(** [str::rfind]. *)
Fixpoint rfind_byte (c : Z) (s : bytes) : option nat :=
  match s with
  | [] => None
  | b :: r => match rfind_byte c r with Some k => Some (S k) | None => if b =? c then Some 0%nat else None end
  end.

(** [name[subscript]]. *)
Definition state_array_reference (v : bytes) : option (bytes * bytes) :=
  open ← find_byte "["%b v;
  close ← rfind_byte "]"%b v;
  if negb (close + 1 =? length v)%nat then None
  else
    let name := take open v in
    if negb (state_valid_name name) then None
    else
      let subscript := slice v (open + 1) close in
      match subscript with
      | c :: _ => if (c =? "["%b) || (c =? "]"%b) then None else Some (name, subscript)
      | [] => Some (name, subscript)
      end.

Definition state_nameref_target_is_valid (target : bytes) : bool :=
  state_valid_name target || bool_decide (is_Some (state_array_reference target)).

(** [str::parse::<i32>] for the values that are not negative, else [None]. *)
Definition xtrace_fd_value_is_valid `{System} (v : bytes) : bool :=
  match parse_i64 v with
  | Some fd => (0 <=? fd) && (fd <? 2 ^ 31) && fd_open fd
  | None => false
  end.

Definition text_chars (v : bytes) : list Z := match from_utf8 v with inl cs => cs | inr _ => [] end.
Definition chars_text (cs : list Z) : bytes := concat (map encode_utf8 cs).

Definition apply_case_attrs `{Casing} (v : bytes) (a : Z) : bytes :=
  let v := if attr_contains a UPPERCASE then str_to_uppercase v else v in
  let v := if attr_contains a LOWERCASE then str_to_lowercase v else v in
  if attr_contains a CAPCASE then
    chars_text (match text_chars v with
                | [] => []
                | first :: r =>
                    (if char_is_alphabetic first then char_to_uppercase first else [first])
                    ++ concat (map char_to_lowercase r)
                end)
  else v.

(** * Pseudo-random numbers (runtime.rs) *)

Definition bash_intrand32 (l : Z) : Z :=
  let seed := if l =? 0 then 123459876 else l in
  let h := seed / 127773 in
  let lo := seed - 127773 * h in
  let t := 16807 * lo - 2836 * h in
  if t <? 0 then u32 (t + 2147483647) else u32 t.

Definition bash_random_from_seed (seed : Z) : Z * Z :=
  let next_seed := bash_intrand32 seed in
  (next_seed, Z.land (Z.lxor (Z.shiftr next_seed 16) (Z.land next_seed 65535)) 32767).

Definition rotate_left32 (x n : Z) : Z := Z.lor (u32 (Z.shiftl x n)) (Z.shiftr x (32 - n)).

Definition bash_srandom_from_seed (seed : Z) : Z * Z :=
  let first := bash_intrand32 seed in
  let second := bash_intrand32 (Z.lxor first 2779077210) in
  (second, Z.lxor first (rotate_left32 second 11)).

(** The loop that reads [RANDOM]: next values until one differs from the last. *)
Fixpoint random_loop (fuel : nat) (seed last : Z) : Z * Z :=
  let '(next, v) := bash_random_from_seed seed in
  match fuel with
  | O => (next, v)
  | S fuel => if v =? last then random_loop fuel next last else (next, v)
  end.

Definition RANDOM_ROUNDS : nat := 4096.

(** * Options *)

Definition state_option (s : ShellState) (name : string) : bool := option_value (startup s) (options s) (bs name).

Definition opt_shellopts (s : ShellState) : bytes := shellopts_value (startup s) (options s).
Definition opt_bashopts (s : ShellState) : bytes := bashopts_value (startup s) (options s).

(** * Saved variables *)

Definition snapshot_var (s : ShellState) (name : bytes) : SavedVar :=
  mkSaved (entry_of s name) (indexed_of s name) (assoc_of s name) (nameref_of s name).

Definition restore_var_snapshot (s : ShellState) (name : bytes) (saved : SavedVar) : ShellState :=
  let s := match sv_entry saved with Some e => put_entry name e s | None => del_entry name s end in
  let s := match sv_indexed saved with Some a => put_indexed name a s | None => del_indexed name s end in
  let s := match sv_assoc saved with Some a => put_assoc name a s | None => del_assoc name s end in
  let s := del_print_order name s in
  match sv_nameref saved with Some t => put_nameref name t s | None => del_nameref name s end.

(** [Iterator::position]. *)
Fixpoint scope_position (name : bytes) (scopes : list (gmap bytes SavedVar)) : option nat :=
  match scopes with
  | [] => None
  | sc :: r => if bool_decide (is_Some (sc !! name)) then Some 0%nat else S <$> scope_position name r
  end.

Fixpoint scope_rposition (name : bytes) (scopes : list (gmap bytes SavedVar)) : option nat :=
  match scopes with
  | [] => None
  | sc :: r =>
      match scope_rposition name r with
      | Some k => Some (S k)
      | None => if bool_decide (is_Some (sc !! name)) then Some 0%nat else None
      end
  end.

Definition global_scope_index (s : ShellState) (name : bytes) : option nat := scope_position name (local_scopes s).

Definition global_saved_snapshot (s : ShellState) (name : bytes) : option SavedVar :=
  idx ← global_scope_index s name; scope ← local_scopes s !! idx; scope !! name.

Definition in_last_scope (s : ShellState) (name : bytes) : bool :=
  match last (local_scopes s) with Some sc => bool_decide (is_Some (sc !! name)) | None => false end.

Definition in_any_scope (s : ShellState) (name : bytes) : bool :=
  existsb (fun sc : gmap bytes SavedVar => bool_decide (is_Some (sc !! name))) (local_scopes s).

(** [local_scopes.last_mut().unwrap().insert(name, saved)]. *)
Definition save_in_last (s : ShellState) (name : bytes) (saved : SavedVar) : ShellState :=
  with_scopes (alter (<[name := saved]>) (length (local_scopes s) - 1)%nat (local_scopes s)) s.

Definition local_self_nameref_target (s : ShellState) (name : bytes) : option bytes :=
  target ← nameref_of s name;
  if bytes_eqb target name && bool_decide (is_Some (global_scope_index s name)) then Some target else None.

Definition saved_scalar_value (saved : SavedVar) : option bytes :=
  match sv_indexed saved with
  | Some a => IndexedArray.get a 0
  | None =>
      match sv_entry saved with
      | Some e => if has_value e then Some (default (value e) (sv_nameref saved)) else None
      | None => None
      end
  end.

(** The export of a variable to the process environment. *)
Definition sync_export_env (name : bytes) (s : ShellState) : ShellState :=
  if (name_is name "BASHOPTS" || name_is name "SHELLOPTS") && entry_exported (entry_of s name) then
    set_var_env name (if name_is name "BASHOPTS" then opt_bashopts s else opt_shellopts s) s
  else
    match entry_of s name with
    | Some e =>
        if exported e && has_value e then set_var_env name (value e) s
        else
          match global_saved_snapshot s name ≫= sv_entry with
          | Some g => if exported g && has_value g then set_var_env name (value g) s else remove_var_env name s
          | None => remove_var_env name s
          end
    | None => remove_var_env name s
    end.

(** [with_global_var]: run [f] with the global value of [name] visible. *)
Definition with_global_var {R} (s : ShellState) (name : bytes) (f : ShellState -> R * ShellState) : R * ShellState :=
  match global_scope_index s name with
  | None => f s
  | Some idx =>
      let visible := snapshot_var s name in
      let global := default visible (scope ← local_scopes s !! idx; scope !! name) in
      let '(r, s) := f (restore_var_snapshot s name global) in
      let updated_global := snapshot_var s name in
      let s := restore_var_snapshot s name visible in
      let s := with_scopes (alter (<[name := updated_global]>) idx (local_scopes s)) s in
      (r, sync_export_env name s)
  end.

(** * Name references *)

Definition STATE_NAMEREF_MAX_DEPTH : nat := 8.

Fixpoint resolve_loop (n : nat) (s : ShellState) (cur : bytes) (seen : list bytes) : option bytes :=
  match n with
  | O => None
  | S n =>
      match nameref_of s cur with
      | Some target =>
          if bytes_eqb target cur then Some cur
          else if existsb (bytes_eqb target) seen then None
          else if negb (bool_decide (is_Some (nameref_of s target))) then Some target
          else resolve_loop n s target (target :: seen)
      | None => Some cur
      end
  end.

Definition resolve_nameref (s : ShellState) (name : bytes) : option bytes :=
  resolve_loop STATE_NAMEREF_MAX_DEPTH s name [name].

Section State.
Context `{System} `{Casing}.

(** * Arrays the shell computes *)

Definition source_name (s : ShellState) (source : bytes) : bytes :=
  if negb (state_option s "bash_source_fullpath") || name_is source "main" then source
  else default source (canonicalize source).

Definition script_source_name (s : ShellState) : option bytes :=
  if dash_c (startup s) then None
  else match input_stream (frames s) with
       | Some name => if is_nil name then None else Some (source_name s name)
       | None => None
       end.

Definition main_source_name (s : ShellState) : bytes := default (bs "main") (script_source_name s).

Definition include_synthetic_main_frame (s : ShellState) : bool :=
  (flags (options s) Functrace || flags (options s) Errtrace || state_option s "extdebug")
  && bool_decide (is_Some (script_source_name s)).

(** [iter().rev().enumerate()]. *)
Definition numbered (l : list bytes) : list (Z * bytes) := imap (fun i v => (Z.of_nat i, v)) l.

Definition synthetic (s : ShellState) (values : list (Z * bytes)) (v : bytes) : list (Z * bytes) :=
  if include_synthetic_main_frame s then values ++ [(Z.of_nat (length values), v)] else values.

Definition funcname_values (s : ShellState) : list (Z * bytes) :=
  let f := frames s in
  if is_nil (funcname_stack f) || forallb id (funcname_source_frame_stack f) then []
  else synthetic s (numbered (rev (funcname_stack f))) (bs "main").

Definition bash_source_values (s : ShellState) : list (Z * bytes) :=
  let f := frames s in
  if is_nil (funcname_source_stack f) then
    match script_source_name s with Some source => [(0, source)] | None => [] end
  else synthetic s (numbered (rev (funcname_source_stack f))) (main_source_name s).

Definition bash_lineno_values (s : ShellState) : list (Z * bytes) :=
  let f := frames s in
  if is_nil (funcname_lineno_stack f) then
    match script_source_name s with Some _ => [(0, bs "0")] | None => [] end
  else synthetic s (numbered (rev (map u_to_string (funcname_lineno_stack f)))) (bs "0").

Definition bash_argc_values (s : ShellState) : list (Z * bytes) :=
  let values := numbered (rev (map u_to_string (bash_argc_stack (frames s)))) in
  if state_option s "extdebug" then values ++ [(Z.of_nat (length values), bs "0")] else values.

Definition bash_argv_values (s : ShellState) : list (Z * bytes) := numbered (bash_argv_stack (frames s)).

Definition special_iter_indexed_array (s : ShellState) (name : bytes) : option (option (list (Z * bytes))) :=
  if name_is name "BASH_ARGC" then Some (Some (bash_argc_values s))
  else if name_is name "BASH_ARGV" then Some (Some (bash_argv_values s))
  else if name_is name "DIRSTACK" then Some (Some [])
  else if name_is name "BASH_SOURCE" then Some (Some (bash_source_values s))
  else if name_is name "BASH_LINENO" then Some (Some (bash_lineno_values s))
  else if name_is name "FUNCNAME" then
    Some (let values := funcname_values s in if is_nil values then None else Some values)
  else None.

Definition stack_array_name (name : bytes) : bool :=
  one_of name ["BASH_ARGC"; "BASH_ARGV"; "BASH_LINENO"; "BASH_SOURCE"; "FUNCNAME"]%string.

Definition stack_array (s : ShellState) (name : bytes) : option (list (Z * bytes)) :=
  mjoin (special_iter_indexed_array s name).

Definition find_index (index : Z) (values : list (Z * bytes)) : option bytes :=
  snd <$> List.find (fun p => fst p =? index) values.

(** * Attributes and kinds *)

Definition is_special_scalar_name (name : bytes) : bool :=
  one_of name ["BASH_ARGV0"; "BASH_COMMAND"; "BASH_MONOSECONDS"; "BASH_SUBSHELL"; "BASH_TRAPSIG"; "EPOCHREALTIME";
    "EPOCHSECONDS"; "HISTCMD"; "LINENO"; "RANDOM"; "SECONDS"; "BASHOPTS"; "SHELLOPTS"; "SRANDOM"]%string.

Definition special_scalar_attrs (name : bytes) : option Z :=
  if one_of name ["HISTCMD"; "RANDOM"; "SRANDOM"]%string then Some INTEGER
  else if one_of name ["BASHOPTS"; "SHELLOPTS"]%string then Some READONLY
  else if is_special_scalar_name name then Some 0
  else None.

Definition iter_special_scalar_names (s : ShellState) : list string :=
  let on (b : bool) (n : string) := if b then [n] else [] in
  let d := dyn s in
  ["BASH_COMMAND"; "BASH_SUBSHELL"; "BASHOPTS"; "HISTCMD"; "LINENO"; "RANDOM"; "SHELLOPTS"; "SRANDOM"]%string
  ++ on (bash_argv0_dynamic d) "BASH_ARGV0"%string ++ on (seconds_dynamic d) "SECONDS"%string
  ++ on (epochseconds_dynamic d) "EPOCHSECONDS"%string ++ on (epochrealtime_dynamic d) "EPOCHREALTIME"%string
  ++ on (bash_monoseconds_dynamic d) "BASH_MONOSECONDS"%string.

Definition var_attrs (s : ShellState) (name : bytes) : Z :=
  if stack_array_name name || name_is name "DIRSTACK" then ARRAY
  else if one_of name ["BASH_ALIASES"; "BASH_CMDS"]%string then ASSOC
  else match special_scalar_attrs name with
       | Some a => a
       | None => entry_attrs (entry_of s name)
       end.

Definition var_kind (s : ShellState) (name : bytes) : VarKind :=
  if bool_decide (is_Some (nameref_of s name)) then KNameref
  else if one_of name ["BASH_ALIASES"; "BASH_CMDS"]%string then KAssoc
  else if name_is name "DIRSTACK" || stack_array_name name then KIndexed
  else if one_of name (iter_special_scalar_names s) then KScalar
  else if attr_contains (var_attrs s name) ASSOC then KAssoc
  else if attr_contains (var_attrs s name) ARRAY then KIndexed
  else if bool_decide (is_Some (assoc_of s name)) then KAssoc
  else if bool_decide (is_Some (indexed_of s name)) then KIndexed
  else if bool_decide (is_Some (entry_of s name)) then KScalar
  else if bool_decide (is_Some (penv s !! name)) then KScalar
  else KUnset.

Definition is_readonly (s : ShellState) (name : bytes) : bool :=
  one_of name ["BASHOPTS"; "SHELLOPTS"]%string
  || flags (options s) Restricted && one_of name ["PATH"; "SHELL"]%string
  || match entry_of s name with Some e => readonly e || attr_contains (attrs e) READONLY | None => false end.

Definition var_exported (s : ShellState) (name : bytes) : bool := entry_exported (entry_of s name).

(** * Reading *)

(** The end of [get_cow]: the variables the shell does not compute. *)
Definition get_variable (s : ShellState) (name : bytes) : option bytes * ShellState :=
  match entry_of s name with
  | Some e =>
      if attr_contains (attrs e) NAMEREF && bool_decide (is_Some (local_self_nameref_target s name)) then
        (global_saved_snapshot s name ≫= saved_scalar_value, warn (WCircular name) s)
      else if attr_contains (attrs e) NAMEREF && bool_decide (nameref_of s name = Some name) then
        (None, warn (WCircular name) s)
      else (if has_value e then Some (value e) else None, s)
  | None => (penv s !! name, s)
  end.

Definition dirs_iter (s : ShellState) : list bytes * ShellState :=
  let '(pwd, s) := get_variable s (bs "PWD") in
  let absolute (p : bytes) := starts_with ["/"%b] p in
  let top := match pwd with
             | Some p => if absolute p then Some p else current_dir
             | None => current_dir
             end in
  (match top with Some p => [p] | None => [] end ++ dirs_stack (tables s), s).

Definition get_array_indexed (s : ShellState) (name : bytes) (index : Z) : option bytes * ShellState :=
  if name_is name "DIRSTACK" then
    if index <? 0 then (None, s)
    else let '(dirs, s) := dirs_iter s in (find_index index (numbered dirs), s)
  else if stack_array_name name then
    (if index <? 0 then None else stack_array s name ≫= find_index index, s)
  else (indexed_of s name ≫= fun a => IndexedArray.get a index, s).

Definition get_array_assoc (s : ShellState) (name key : bytes) : option bytes :=
  if name_is name "BASH_ALIASES" then aliases (tables s) !! key
  else if name_is name "BASH_CMDS" then command_hash (tables s) !! key
  else assoc_of s name ≫= (.!! key).

(** The three sources of an indexed array: DIRSTACK, the call stack, the maps. *)
Definition array_view {R} (s : ShellState) (name : bytes) (dirs : list bytes -> R)
    (stack : option (list (Z * bytes)) -> R) (arr : option IndexedArray -> R) : R * ShellState :=
  if stack_array_name name then (stack (stack_array s name), s)
  else if name_is name "DIRSTACK" then let '(d, s) := dirs_iter s in (dirs d, s)
  else (arr (indexed_of s name), s).

Definition get_array_all (s : ShellState) (name : bytes) : option (list (Z * bytes)) * ShellState :=
  array_view s name (fun d => Some (numbered d)) id (fmap IndexedArray.all).

Definition get_array (s : ShellState) (name : bytes) : option (list bytes) * ShellState :=
  array_view s name Some (fmap (map snd)) (fmap IndexedArray.values).

Definition array_keys (s : ShellState) (name : bytes) : option (list Z) * ShellState :=
  array_view s name (fun d => Some (map fst (numbered d))) (fmap (map fst)) (fmap IndexedArray.keys).

Definition array_len (s : ShellState) (name : bytes) : nat * ShellState :=
  array_view s name (@length _) (fun v => default 0%nat (@length _ <$> v)) (fun a => default 0%nat (alen <$> a)).

Definition array_max_index (s : ShellState) (name : bytes) : option Z * ShellState :=
  array_view s name
    (fun d => if is_nil d then None else Some (Z.of_nat (length d) - 1))
    (fun v => match v with Some (p :: ps) => Some (fold_left (fun m q => Z.max m (fst q)) ps (fst p)) | _ => None end)
    (fun a => a ≫= IndexedArray.max_index).

Definition assoc_len (s : ShellState) (name : bytes) : nat :=
  if name_is name "BASH_ALIASES" then size (aliases (tables s))
  else if name_is name "BASH_CMDS" then size (command_hash (tables s))
  else match assoc_of s name with Some a => size a | None => 0%nat end.

Definition positional (s : ShellState) (index : Z) : option bytes :=
  if index <? Z.of_nat (length (dollar_vars s)) then dollar_vars s !! Z.to_nat index else None.

Definition positional_count (s : ShellState) : nat := length (dollar_vars s) - 1.

Definition pad6 (n : Z) : bytes := let d := u_to_string n in replicate (6 - length d) "0"%b ++ d.

(** The line of [$LINENO]. *)
Definition current_line (s : ShellState) : Z :=
  match last (diagnostic_line_stack (frames s)) with
  | Some l => l
  | None => Z.max 0 (current_command_line_count (frames s))
  end.

Definition trim_newlines (v : bytes) : bytes :=
  rev ((fix go (l : bytes) := match l with 10 :: r => go r | _ => l end) (rev v)).

Definition set_random (seed value : Z) (s : ShellState) : ShellState :=
  let d := dyn s in
  with_dyn (mkDyn (seconds_start d) (seconds_offset d) (seconds_dynamic d) (epochseconds_dynamic d)
    (epochrealtime_dynamic d) (bash_monoseconds_dynamic d) (bash_argv0_dynamic d) (groups_dynamic d)
    seed value (srandom_seed d)) s.

Definition set_srandom (seed : Z) (s : ShellState) : ShellState :=
  let d := dyn s in
  with_dyn (mkDyn (seconds_start d) (seconds_offset d) (seconds_dynamic d) (epochseconds_dynamic d)
    (epochrealtime_dynamic d) (bash_monoseconds_dynamic d) (bash_argv0_dynamic d) (groups_dynamic d)
    (random_seed d) (last_random_value d) seed) s.

Definition saturating_i64 (z : Z) : Z := Z.max i64_min (Z.min i64_max z).

(** The names [get_cow] computes; [None] when the variable is looked up. *)
Definition get_special (s : ShellState) (name : bytes) : option (option bytes * ShellState) :=
  let num z := Some (Some (i64_to_string z), s) in
  let d := dyn s in
  let p := process s in
  if stack_array_name name then Some (get_array_indexed s name 0)
  else if name_is name "?" then num (last_command_exit_value p)
  else if name_is name "#" then num (Z.of_nat (positional_count s))
  else if name_is name "$" then num (default getpid (shell_pid_value p))
  else if name_is name "!" then Some (Some (match last_async_pid p with Some pid => i64_to_string pid | None => [] end), s)
  else if name_is name "-" then Some (Some (state_option_letters (startup s) (options s)), s)
  else if name_is name "SHELLOPTS" then Some (Some (opt_shellopts s), s)
  else if name_is name "BASHOPTS" then Some (Some (opt_bashopts s), s)
  else if name_is name "BASHPID" then num (default getpid (bashpid_cache p))
  else if name_is name "BASH_ARGV0" && bash_argv0_dynamic d then Some (head (dollar_vars s), s)
  else if name_is name "BASH_COMMAND" then
    match current_command_string (frames s) with Some c => Some (Some (trim_newlines c), s) | None => None end
  else if name_is name "BASH_SUBSHELL" then num (subshell_level p)
  else if name_is name "BASH_TRAPSIG" then
    Some (Some (match running_trap_sig p with Some sig => if 0 <? sig then i64_to_string sig else [] | None => [] end), s)
  else if name_is name "LINENO" then num (current_line s)
  else if name_is name "HISTCMD" then
    num (if interactive_shell (startup s) || state_option s "history"
         then h_base (history_table (hist s)) + hist_len (history_table (hist s)) else 0)
  else if name_is name "SECONDS" && seconds_dynamic d then
    num (saturating_i64 (seconds_offset d + elapsed_secs (seconds_start d)))
  else if name_is name "EPOCHSECONDS" && epochseconds_dynamic d then num epoch_seconds
  else if name_is name "EPOCHREALTIME" && epochrealtime_dynamic d then
    Some (Some (u_to_string (fst epoch_realtime) ++ "."%b :: pad6 (snd epoch_realtime)), s)
  else if name_is name "BASH_MONOSECONDS" && bash_monoseconds_dynamic d then num mono_seconds
  else if name_is name "RANDOM" then
    let '(seed, v) := random_loop RANDOM_ROUNDS (random_seed d) (last_random_value d) in
    Some (Some (i64_to_string v), set_random seed v s)
  else if name_is name "SRANDOM" then
    let '(seed, v) := bash_srandom_from_seed (srandom_seed d) in Some (Some (u_to_string v), set_srandom seed s)
  else None.

Definition get_cow (s : ShellState) (name : bytes) : option bytes * ShellState :=
  match parse_u64 name with
  | Some index => (positional s index, s)
  | None => match get_special s name with Some r => r | None => get_variable s name end
  end.

(** * Arrays *)

Definition with_dirs (dirs : list bytes) (s : ShellState) : ShellState :=
  let t := tables s in with_tables (mkTables (aliases t) (command_hash t) (command_hash_hits t) dirs) s.

Definition case_attrs : Z := Z.lor UPPERCASE (Z.lor LOWERCASE CAPCASE).

Definition set_array (s : ShellState) (name : bytes) (values : list bytes) : ShellState :=
  if name_is name "GROUPS" && groups_dynamic (dyn s) then s
  else if name_is name "DIRSTACK" then with_dirs (drop 1 values) s
  else
    let prior_attrs := entry_attrs (entry_of s name) in
    let values := map (fun v => apply_case_attrs v prior_attrs) values in
    let s := put_entry name (mkEntry (default [] (head values)) (negb (is_nil values)) false false ARRAY) s in
    put_indexed name (from_values values) s.

(** [resize] with empty paths, then the element. *)
Definition set_dir (idx : nat) (v : bytes) (dirs : list bytes) : list bytes :=
  <[idx := v]> (dirs ++ replicate (idx + 1 - length dirs) []).

Definition set_array_indexed (s : ShellState) (name : bytes) (index : Z) (v : bytes) : ShellState :=
  if name_is name "GROUPS" && groups_dynamic (dyn s) then s
  else if name_is name "DIRSTACK" then
    if index <=? 0 then s else with_dirs (set_dir (Z.to_nat (index - 1)) v (dirs_stack (tables s))) s
  else
    match (if 0 <? index then
             match entry_of s name, indexed_of s name with
             | Some e, Some a =>
                 if attr_contains (attrs e) ARRAY && negb (attr_intersects (attrs e) case_attrs) then Some a else None
             | _, _ => None
             end
           else None) with
    | Some a => put_indexed name (IndexedArray.insert a index v) s
    | None =>
        let indexed_exists := bool_decide (is_Some (indexed_of s name)) in
        let prior_attrs := entry_attrs (entry_of s name) in
        let seed_scalar :=
          match entry_of s name with
          | Some e => if negb indexed_exists && has_value e && negb (attr_intersects (attrs e) (Z.lor ARRAY ASSOC))
                      then Some (value e) else None
          | None => None
          end in
        let v := apply_case_attrs v prior_attrs in
        let bt := default empty_array (indexed_of s name) in
        let bt := match seed_scalar with
                  | Some scalar => match IndexedArray.get bt 0 with None => IndexedArray.insert bt 0 scalar | Some _ => bt end
                  | None => bt
                  end in
        let bt := IndexedArray.insert bt index v in
        let s' := put_indexed name bt s in
        if (index =? 0) || negb (attr_contains prior_attrs ARRAY) then
          put_entry name (mkEntry (default [] (IndexedArray.get bt 0)) (bool_decide (is_Some (IndexedArray.get bt 0)))
            (entry_exported (entry_of s name)) false (attr_insert prior_attrs ARRAY)) s'
        else s'
    end.

Definition set_array_assoc (s : ShellState) (name key v : bytes) : ShellState :=
  let t := tables s in
  if name_is name "BASH_ALIASES" then
    if state_valid_alias_name key
    then with_tables (mkTables (<[key := v]> (aliases t)) (command_hash t) (command_hash_hits t) (dirs_stack t)) s
    else warn (WInvalidAlias key) s
  else if name_is name "BASH_CMDS" then
    with_tables (mkTables (aliases t) (<[key := v]> (command_hash t)) (<[key := 0]> (command_hash_hits t)) (dirs_stack t)) s
  else
    match (if negb (name_is key "0") && negb (bool_decide (is_Some (assoc_print_orders (store s) !! name))) then
             match entry_of s name, assoc_of s name with
             | Some e, Some a =>
                 if attr_contains (attrs e) ASSOC && negb (attr_intersects (attrs e) case_attrs) then Some a else None
             | _, _ => None
             end
           else None) with
    | Some a => put_assoc name (<[key := v]> a) s
    | None =>
        let prior_attrs := entry_attrs (entry_of s name) in
        let exported := entry_exported (entry_of s name) in
        let v := apply_case_attrs v prior_attrs in
        let bt := <[key := v]> (default ∅ (assoc_of s name)) in
        let s := put_assoc name bt s in
        let s := match assoc_print_orders (store s) !! name with
                 | Some order => if existsb (bytes_eqb key) order then s else put_print_order name (order ++ [key]) s
                 | None => s
                 end in
        let zero := bt !! bs "0" in
        if name_is key "0" || negb (attr_contains prior_attrs ASSOC) then
          put_entry name (mkEntry (default [] zero) (bool_decide (is_Some zero)) exported false
            (attr_insert prior_attrs ASSOC)) s
        else s
    end.

(** [unset_array_elem]. *)
Definition unset_array_elem (s : ShellState) (name key : bytes) : ShellState :=
  let t := tables s in
  if name_is name "DIRSTACK" then
    match parse_u64 key with
    | Some idx =>
        if (0 <? idx) && (idx - 1 <? Z.of_nat (length (dirs_stack t)))
        then with_dirs (let k := Z.to_nat (idx - 1) in take k (dirs_stack t) ++ drop (S k) (dirs_stack t)) s
        else s
    | None => s
    end
  else if name_is name "BASH_ALIASES" then
    with_tables (mkTables (delete key (aliases t)) (command_hash t) (command_hash_hits t) (dirs_stack t)) s
  else if name_is name "BASH_CMDS" then
    with_tables (mkTables (aliases t) (delete key (command_hash t)) (delete key (command_hash_hits t)) (dirs_stack t)) s
  else
    match assoc_of s name with
    | Some a =>
        let a := delete key a in
        let s := put_assoc name a s in
        let s := match assoc_print_orders (store s) !! name with
                 | Some order => put_print_order name (List.filter (fun k => negb (bytes_eqb k key)) order) s
                 | None => s
                 end in
        if name_is key "0" then
          match entry_of s name with
          | Some e => put_entry name (mkEntry (default [] (a !! bs "0")) (bool_decide (is_Some (a !! bs "0")))
                        (exported e) (readonly e) (attr_insert (attrs e) ASSOC)) s
          | None => s
          end
        else s
    | None =>
        match indexed_of s name, parse_i64 key with
        | Some a, Some idx =>
            let a := snd (IndexedArray.remove a idx) in
            let s := put_indexed name a s in
            match entry_of s name with
            | Some e => put_entry name (mkEntry (default [] (IndexedArray.get a 0)) (bool_decide (is_Some (IndexedArray.get a 0)))
                          (exported e) (readonly e) (attr_insert (attrs e) ARRAY)) s
            | None => s
            end
        | _, _ => s
        end
    end.

(** [set_attr]. *)
Definition set_attr (s : ShellState) (name : bytes) (attr : Z) (on : bool) : ShellState :=
  let e := default entry_default (entry_of s name) in
  if attr =? 0 then put_entry name e s
  else
    let existed := bool_decide (is_Some (entry_of s name)) in
    let had_indexed := bool_decide (is_Some (indexed_of s name)) in
    let had_assoc := bool_decide (is_Some (assoc_of s name)) in
    let was_array := attr_contains (attrs e) ARRAY in
    let was_assoc := attr_contains (attrs e) ASSOC in
    let at1 := if on then attr_insert (attrs e) attr else attr_remove (attrs e) attr in
    let '(s, at2) :=
      if attr_contains attr ARRAY && on then
        let s := if existed && negb had_indexed && negb was_array && has_value e
                 then put_indexed name (IndexedArray.insert empty_array 0 (value e)) s else s in
        (del_print_order name (del_assoc name s), attr_remove at1 ASSOC)
      else (s, at1) in
    let '(s, at3) :=
      if attr_contains attr ASSOC && on then
        let s := del_print_order name (del_indexed name s) in
        let s := if existed && negb had_assoc && negb was_assoc && has_value e
                 then put_assoc name (let m := default ∅ (assoc_of s name) in
                                      if bool_decide (is_Some (m !! bs "0")) then m else <[bs "0" := value e]> m) s
                 else s in
        (s, attr_remove at2 ARRAY)
      else (s, at2) in
    let s := put_entry name (mkEntry (value e) (has_value e)
               (if attr_contains attr EXPORT then on else exported e)
               (if attr_contains attr READONLY then on else readonly e) at3) s in
    let s := if attr_contains attr NAMEREF then
               if on then
                 if negb (bool_decide (is_Some (nameref_of s name))) && has_value e
                 then put_nameref name (value e) s else s
               else del_nameref name s
             else s in
    if attr_contains attr EXPORT then sync_export_env name s else s.

(** * Assignment *)

Definition with_seconds (offset start : Z) (s : ShellState) : ShellState :=
  let d := dyn s in
  with_dyn (mkDyn start offset (seconds_dynamic d) (epochseconds_dynamic d)
    (epochrealtime_dynamic d) (bash_monoseconds_dynamic d) (bash_argv0_dynamic d) (groups_dynamic d)
    (random_seed d) (last_random_value d) (srandom_seed d)) s.

Definition apply_history_special_var (name v : bytes) (s : ShellState) : ShellState :=
  let h := hist s in
  if name_is name "HISTSIZE" then
    match parse_u64 (trim v) with
    | Some sz => if 0 <? sz then with_hist (mkHistVars (set_max (history_table h) sz) sz (histfilesize h)
                                (histcontrol_flags h) (histfile h) (histfile_explicit h)) s else s
    | None => s
    end
  else if name_is name "HISTFILESIZE" then
    match parse_u64 (trim v) with
    | Some sz => with_hist (mkHistVars (history_table h) (histsize h) sz (histcontrol_flags h) (histfile h)
                   (histfile_explicit h)) s
    | None => s
    end
  else if name_is name "HISTCONTROL" then
    with_hist (mkHistVars (history_table h) (histsize h) (histfilesize h) (HistControl_parse v) (histfile h)
      (histfile_explicit h)) s
  else if name_is name "HISTFILE" then
    with_hist (mkHistVars (history_table h) (histsize h) (histfilesize h) (histcontrol_flags h)
      (if is_nil v then None else Some v) true) s
  else s.

Definition AssignResult : Type := Res AssignError unit * ShellState.

(** The names [assign] treats specially first; [None] when it goes on. *)
Definition assign_special (s : ShellState) (name v : bytes) : option AssignResult :=
  let d := dyn s in
  if name_is name "RANDOM" then
    Some (Ok tt, match parse_i64 (trim v) with
                 | Some seed => put_entry name (mkEntry (i64_to_string seed) true false false INTEGER)
                                  (set_random (u32 seed) 0 s)
                 | None => s
                 end)
  else if name_is name "BASH_ARGV0" && bash_argv0_dynamic d then
    Some (Ok tt, with_dollar_vars (match dollar_vars s with [] => [v] | _ :: r => v :: r end) s)
  else if name_is name "SECONDS" && seconds_dynamic d then
    Some (Ok tt, with_seconds (default 0 (parse_i64 (trim v))) instant_now s)
  else if name_is name "EPOCHSECONDS" && epochseconds_dynamic d
          || name_is name "EPOCHREALTIME" && epochrealtime_dynamic d
          || name_is name "BASH_MONOSECONDS" && bash_monoseconds_dynamic d
          || name_is name "FUNCNAME"
          || name_is name "GROUPS" && groups_dynamic d then Some (Ok tt, s)
  else if one_of name ["BASHOPTS"; "SHELLOPTS"]%string then Some (Err (ReadOnly name), s)
  else None.

(** The end of [assign]: a scalar. *)
Definition assign_scalar (s : ShellState) (name v : bytes) : AssignResult :=
  let a := entry_attrs (entry_of s name) in
  let v := if attr_contains a INTEGER then
             match parse_i64 (trim v) with Some n => i64_to_string n | None => bs "0" end
           else v in
  let v := apply_case_attrs v a in
  let exp := entry_exported (entry_of s name) in
  let s := put_entry name (mkEntry v true exp (entry_readonly (entry_of s name)) a) s in
  let s := if name_is name "BASH_COMPAT" then with_options (apply_compat v (options s)) s else s in
  let s := apply_history_special_var name v s in
  let s := if name_is name "IGNOREEOF" then with_options (set_shopt (bs "ignoreeof") true (options s)) s else s in
  (Ok tt, if exp then set_var_env name v s else s).

(** [assign_nameref_target], with [rec] for [assign]. *)
Definition assign_nameref_target (rec : ShellState -> bytes -> bytes -> AssignResult)
    (s : ShellState) (source target v : bytes) : AssignResult :=
  match state_array_reference target with
  | Some (name, subscript) =>
      if is_readonly s name then (Err (ReadOnly name), s)
      else if bytes_eqb source name && bool_decide (nameref_of s source = Some target) then (Err (InvalidName target), s)
      else
        let s := if attr_contains (var_attrs s name) NAMEREF
                 then set_array (set_attr (warn (WRemovingNameref name) s) name NAMEREF false) name [] else s in
        if bool_decide (var_kind s name = KAssoc) then (Ok tt, set_array_assoc s name subscript v)
        else
          let trimmed := trim subscript in
          if is_nil trimmed || name_is trimmed "*" || name_is trimmed "@" then (Err (BadArraySubscript target), s)
          else match parse_i64 trimmed with
               | Some index => (Ok tt, set_array_indexed s name index v)
               | None => (Err (BadArraySubscript target), s)
               end
  | None => if state_valid_name target then rec s target v else (Err (InvalidName target), s)
  end.

(** A name reference that has no target yet takes the value as its target. *)
Definition assign_new_nameref (s : ShellState) (name v : bytes) : AssignResult :=
  if negb (state_nameref_target_is_valid v) then (Err (InvalidName v), s)
  else
    let s := put_nameref name v s in
    (Ok tt, put_entry name (mkEntry v true (entry_exported (entry_of s name)) false
              (attr_insert (entry_attrs (entry_of s name)) NAMEREF)) s).

(** After the name reference: array elements and scalars. *)
Definition assign_value (s : ShellState) (name v : bytes) : AssignResult :=
  let a := entry_attrs (entry_of s name) in
  if attr_contains a ASSOC then (Ok tt, set_array_assoc s name (bs "0") v)
  else if attr_contains a ARRAY then (Ok tt, set_array_indexed s name 0 v)
  else assign_scalar s name v.

(** [assign]; the recursion through name references is bounded by [fuel]. *)
Fixpoint assign (fuel : nat) (s : ShellState) (name v : bytes) : AssignResult :=
  match fuel with
  | O => (Fuel, s)
  | S fuel =>
      match assign_special s name v with
      | Some r => r
      | None =>
          if name_is name "BASH_XTRACEFD" && negb (is_nil v) && negb (xtrace_fd_value_is_valid v) then
            (Ok tt, remove_var_env name (del_entry name (warn (WInvalidXtraceFd v) s)))
          else if flags (options s) Restricted && one_of name ["PATH"; "SHELL"]%string then (Err (ReadOnly name), s)
          else if match entry_of s name with Some e => attr_contains (attrs e) READONLY || readonly e | None => false end
          then (Err (ReadOnly name), s)
          else if attr_contains (entry_attrs (entry_of s name)) NAMEREF then
            match nameref_of s name with
            | None => assign_new_nameref s name v
            | Some _ =>
                if bool_decide (is_Some (local_self_nameref_target s name)) then
                  with_global_var (warn (WMaxDepth name) s) name
                    (fun s => assign_nameref_target (assign fuel) s name name v)
                else
                  match resolve_nameref s name with
                  | None => (Err (CircularNameReference name), warn (WCircular name) s)
                  | Some target =>
                      if negb (bytes_eqb target name) then assign_nameref_target (assign fuel) s name target v
                      else assign_value s name v
                  end
            end
          else assign_value s name v
      end
  end.

(** The names that refer to themselves. *)
Definition self_namerefs (s : ShellState) : nat :=
  size (filter (fun p : bytes * bytes => p.1 = p.2) (nameref_targets (store s))).

(** Every self reference a call leaves through the global variable is one less,
    and takes two calls: enough whenever the recursion ends. *)
Definition assign_depth (s : ShellState) : nat := 2 * self_namerefs s + 2.

Definition var_assign (s : ShellState) (name v : bytes) : AssignResult := assign (assign_depth s) s name v.

Definition var_set (s : ShellState) (name v : bytes) : ShellState := snd (var_assign s name v).

(** * Export and unset *)

Definition export (s : ShellState) (name : bytes) : ShellState :=
  let '(v, s) := get_cow s name in
  let e := entry_of s name in
  let s := put_entry name (mkEntry (default [] v) (bool_decide (is_Some v)) true (entry_readonly e)
             (attr_insert (entry_attrs e) EXPORT)) s in
  match v with Some v => set_var_env name v s | None => remove_var_env name s end.

(** [unset] of a variable computed by the shell ends its special meaning. *)
Definition unset_dynamic (name : bytes) (s : ShellState) : ShellState :=
  let d := dyn s in
  let off (n : string) (b : bool) := b && negb (name_is name n) in
  let s := with_dyn (mkDyn (seconds_start d) (seconds_offset d) (off "SECONDS"%string (seconds_dynamic d))
             (off "EPOCHSECONDS"%string (epochseconds_dynamic d)) (off "EPOCHREALTIME"%string (epochrealtime_dynamic d))
             (off "BASH_MONOSECONDS"%string (bash_monoseconds_dynamic d)) (off "BASH_ARGV0"%string (bash_argv0_dynamic d))
             (off "GROUPS"%string (groups_dynamic d)) (random_seed d) (last_random_value d) (srandom_seed d)) s in
  let h := hist s in
  if name_is name "HISTFILE" then
    with_hist (mkHistVars (history_table h) (histsize h) (histfilesize h) (histcontrol_flags h) None true) s
  else if name_is name "IGNOREEOF" then with_options (set_shopt (bs "ignoreeof") false (options s)) s
  else s.

(** Everything about [name] but its entry. *)
Definition clear_rest (name : bytes) (s : ShellState) : ShellState :=
  del_nameref name (del_print_order name (del_assoc name (del_indexed name s))).

(** The entry a new local variable gets. *)
Definition fresh_entry (inherit_export : bool) : VariableEntry :=
  if inherit_export then mkEntry [] false true false EXPORT else entry_default.

Definition unset (s : ShellState) (name : bytes) : ShellState :=
  if one_of name ["FUNCNAME"; "BASHOPTS"; "SHELLOPTS"]%string then s
  else
    let s := unset_dynamic name s in
    if in_last_scope s name then
      let inherit_export :=
        match last (local_scopes s) with
        | Some sc => match sc !! name with Some saved => entry_exported (sv_entry saved) | None => false end
        | None => false
        end in
      sync_export_env name (clear_rest name (put_entry name (fresh_entry inherit_export) s))
    else
      match scope_rposition name (local_scopes s) with
      | Some idx =>
          if state_option s "localvar_unset" then
            sync_export_env name (clear_rest name (put_entry name entry_default s))
          else
            match scope ← local_scopes s !! idx; scope !! name with
            | Some saved =>
                let s := with_scopes (alter (delete name) idx (local_scopes s)) s in
                sync_export_env name (restore_var_snapshot s name saved)
            | None => remove_var_env name (clear_rest name (del_entry name s))
            end
      | None => remove_var_env name (clear_rest name (del_entry name s))
      end.

(** * Local scopes *)

Definition push_local_scope (s : ShellState) : ShellState :=
  with_option_scopes (local_option_scopes s ++ [None]) (with_scopes (local_scopes s ++ [∅]) s).

Definition ignoreeof_entry : VariableEntry := mkEntry (bs "10") true false false 0.

Definition restore_options (saved : SavedOptions) (s : ShellState) : ShellState :=
  let s := with_options saved s in
  if state_option s "ignoreeof" then put_entry (bs "IGNOREEOF") ignoreeof_entry s
  else remove_var_env (bs "IGNOREEOF") (del_entry (bs "IGNOREEOF") s).

Definition snapshot_options (s : ShellState) : SavedOptions := options s.

(** One variable of a popped scope. *)
Definition restore_saved (s : ShellState) (p : bytes * SavedVar) : ShellState :=
  sync_export_env (fst p) (restore_var_snapshot s (fst p) (snd p)).

(** The iteration order of the scope's hash map is the order of [map_to_list]. *)
Definition pop_local_scope (s : ShellState) : ShellState :=
  let s := match last (local_option_scopes s) with
           | Some (Some saved) => restore_options saved (with_option_scopes (removelast (local_option_scopes s)) s)
           | _ => with_option_scopes (removelast (local_option_scopes s)) s
           end in
  match last (local_scopes s) with
  | None => s
  | Some scope => fold_left restore_saved (map_to_list scope) (with_scopes (removelast (local_scopes s)) s)
  end.

Definition set_local (s : ShellState) (name v : bytes) : ShellState :=
  let s := match last (local_scopes s) with
           | Some sc => if bool_decide (is_Some (sc !! name)) then s else save_in_last s name (snapshot_var s name)
           | None => s
           end in
  var_set s name v.

(** A readonly global may not be made local, unless an outer scope hides it. *)
Definition local_readonly (s : ShellState) (name : bytes) : bool :=
  negb (in_any_scope s name) && entry_readonly (entry_of s name).

Definition make_local (s : ShellState) (name : bytes) : Res AssignError unit * ShellState :=
  if is_nil (local_scopes s) then (Ok tt, s)
  else if in_last_scope s name then (Ok tt, s)
  else if local_readonly s name then (Err (ReadOnly name), s)
  else
    let saved := snapshot_var s name in
    let s := save_in_last s name saved in
    (Ok tt, sync_export_env name (clear_rest name (put_entry name (fresh_entry (entry_exported (sv_entry saved))) s))).

Definition can_assign_simple_local_direct (s : ShellState) (name : bytes) : bool :=
  negb (one_of name ["RANDOM"; "BASH_ARGV0"; "BASH_MONOSECONDS"; "SECONDS"; "EPOCHSECONDS"; "EPOCHREALTIME"; "FUNCNAME";
          "BASHOPTS"; "SHELLOPTS"; "HISTSIZE"; "HISTFILESIZE"; "HISTCONTROL"; "HISTFILE"; "IGNOREEOF"]%string
        || flags (options s) Restricted && one_of name ["PATH"; "SHELL"]%string).

Definition make_local_with_value (s : ShellState) (name : bytes) (v : option bytes) : AssignResult :=
  if is_nil (local_scopes s) then
    match v with Some v => var_assign s name v | None => (Ok tt, s) end
  else
    let already_local := in_last_scope s name in
    if negb already_local && local_readonly s name then (Err (ReadOnly name), s)
    else
      let inherited_export := negb already_local && entry_exported (entry_of s name) in
      let direct := can_assign_simple_local_direct s name in
      let s := if already_local then s
               else
                 let s := clear_rest name (del_entry name (save_in_last s name (snapshot_var s name))) in
                 if negb (bool_decide (is_Some v)) || negb direct
                 then sync_export_env name (put_entry name (fresh_entry inherited_export) s) else s in
      match v with
      | None => (Ok tt, s)
      | Some v =>
          if negb direct then var_assign s name v
          else
            let '(exp, a) := match entry_of s name with
                             | Some e => (exported e, attrs e)
                             | None => (inherited_export, if inherited_export then EXPORT else 0)
                             end in
            let v := apply_case_attrs v a in
            let s := put_entry name (mkEntry v true exp false a) s in
            (Ok tt, if exp then set_var_env name v s else s)
      end.

Definition make_local_inherit (s : ShellState) (name : bytes) : AssignResult :=
  if is_nil (local_scopes s) then (Ok tt, s)
  else if in_last_scope s name then (Ok tt, s)
  else if local_readonly s name then (Err (ReadOnly name), s)
  else
    let s := save_in_last s name (snapshot_var s name) in
    let exists_ := bool_decide (is_Some (entry_of s name)) || bool_decide (is_Some (indexed_of s name))
                   || bool_decide (is_Some (assoc_of s name)) || bool_decide (is_Some (nameref_of s name)) in
    let s := if exists_ then s else put_entry name entry_default s in
    let s := match entry_of s name with
             | Some e => put_entry name (mkEntry (value e) (has_value e) (exported e) (readonly e)
                           (attr_remove (attrs e) NAMEREF)) s
             | None => s
             end in
    (Ok tt, sync_export_env name (del_nameref name s)).

Definition make_options_local (s : ShellState) : ShellState :=
  match last (local_option_scopes s) with
  | Some None => with_option_scopes (removelast (local_option_scopes s) ++ [Some (snapshot_options s)]) s
  | _ => s
  end.

(** * Global variables seen from a function *)

Definition global_only (s : ShellState) (name : bytes) (f : ShellState -> ShellState) : ShellState :=
  snd (with_global_var s name (fun s => (tt, f s))).

Definition assign_global (s : ShellState) (name v : bytes) : AssignResult :=
  with_global_var s name (fun s => var_assign s name v).
Definition set_global_attr (s : ShellState) (name : bytes) (a : Z) (on : bool) : ShellState :=
  global_only s name (fun s => set_attr s name a on).
Definition export_global (s : ShellState) (name : bytes) : ShellState := global_only s name (fun s => export s name).
Definition unset_global (s : ShellState) (name : bytes) : ShellState := global_only s name (fun s => unset s name).
Definition set_global_array (s : ShellState) (name : bytes) (vs : list bytes) : ShellState :=
  global_only s name (fun s => set_array s name vs).
Definition set_global_array_indexed (s : ShellState) (name : bytes) (i : Z) (v : bytes) : ShellState :=
  global_only s name (fun s => set_array_indexed s name i v).
Definition set_global_array_assoc (s : ShellState) (name k v : bytes) : ShellState :=
  global_only s name (fun s => set_array_assoc s name k v).
Definition unset_global_array_elem (s : ShellState) (name k : bytes) : ShellState :=
  global_only s name (fun s => unset_array_elem s name k).

(** * Positional parameters *)

Definition push_function_positionals (s : ShellState) (args : list bytes) : list bytes * ShellState :=
  let saved := dollar_vars s in
  (saved, with_dollar_vars (default (bs "cherubsh") (head saved) :: args) s).

Definition pop_function_positionals (s : ShellState) (saved : list bytes) : ShellState :=
  let saved := match head (dollar_vars s) with
               | Some zero => match saved with [] => [zero] | _ :: r => zero :: r end
               | None => saved
               end in
  with_dollar_vars saved s.
End State.
