(* ===== verification/VarsProps.v ===== *)
(** Correctness of the shell's variables: the shallow binding of local scopes
    implements dynamic scoping, name references resolve to final targets,
    assignments respect readonly variables and can be read back, and the shell
    state is an [Environment] for the expander. *)
From stdpp Require Import gmap.
From S2P Require Import Prelude Env Utf8 IndexedArray History Options Vars.

(** * Which names an operation touches *)

(** Only the variable [n] may differ, and no scope does. *)
Definition touch (n : bytes) (s s' : ShellState) : Prop :=
  local_scopes s' = local_scopes s /\ forall x, x <> n -> snapshot_var s' x = snapshot_var s x.

Lemma touch_refl n s : touch n s s.
Proof. done. Qed.

Lemma touch_trans n s1 s2 s3 : touch n s1 s2 -> touch n s2 s3 -> touch n s1 s3.
Proof.
  intros [H1 H2] [H3 H4]. split; [congruence|]. intros x Hx. by rewrite H4, H2.
Qed.

(** Steps that change neither the store nor the scopes. *)
Lemma touch_same n s0 s s' : store s' = store s -> local_scopes s' = local_scopes s -> touch n s0 s -> touch n s0 s'.
Proof.
  intros H1 H2 H. eapply touch_trans; [exact H|]. split; [done|].
  intros x _. unfold snapshot_var, entry_of, indexed_of, assoc_of, nameref_of. by rewrite H1.
Qed.

Ltac prove_touch :=
  intros H; eapply touch_trans; [exact H|]; split; [done|]; intros x Hx;
  unfold snapshot_var, entry_of, indexed_of, assoc_of, nameref_of; cbn;
  rewrite ?lookup_insert_ne, ?lookup_delete_ne by congruence; done.

Lemma touch_put_entry n s0 s e : touch n s0 s -> touch n s0 (put_entry n e s).
Proof. prove_touch. Qed.
Lemma touch_del_entry n s0 s : touch n s0 s -> touch n s0 (del_entry n s).
Proof. prove_touch. Qed.
Lemma touch_put_indexed n s0 s a : touch n s0 s -> touch n s0 (put_indexed n a s).
Proof. prove_touch. Qed.
Lemma touch_del_indexed n s0 s : touch n s0 s -> touch n s0 (del_indexed n s).
Proof. prove_touch. Qed.
Lemma touch_put_assoc n s0 s a : touch n s0 s -> touch n s0 (put_assoc n a s).
Proof. prove_touch. Qed.
Lemma touch_del_assoc n s0 s : touch n s0 s -> touch n s0 (del_assoc n s).
Proof. prove_touch. Qed.
Lemma touch_put_nameref n s0 s t : touch n s0 s -> touch n s0 (put_nameref n t s).
Proof. prove_touch. Qed.
Lemma touch_del_nameref n s0 s : touch n s0 s -> touch n s0 (del_nameref n s).
Proof. prove_touch. Qed.
Lemma touch_put_order n s0 s m o : touch n s0 s -> touch n s0 (put_print_order m o s).
Proof. prove_touch. Qed.
Lemma touch_del_order n s0 s m : touch n s0 s -> touch n s0 (del_print_order m s).
Proof. prove_touch. Qed.

Lemma touch_set_env n s0 s m v : touch n s0 s -> touch n s0 (set_var_env m v s).
Proof. by apply touch_same. Qed.
Lemma touch_remove_env n s0 s m : touch n s0 s -> touch n s0 (remove_var_env m s).
Proof. by apply touch_same. Qed.
Lemma touch_warn n s0 s w : touch n s0 s -> touch n s0 (warn w s).
Proof. by apply touch_same. Qed.
Lemma touch_tables n s0 s t : touch n s0 s -> touch n s0 (with_tables t s).
Proof. by apply touch_same. Qed.
Lemma touch_dirs n s0 s t : touch n s0 s -> touch n s0 (with_dirs t s).
Proof. by apply touch_same. Qed.
Lemma touch_dyn n s0 s d : touch n s0 s -> touch n s0 (with_dyn d s).
Proof. by apply touch_same. Qed.
Lemma touch_hist n s0 s h : touch n s0 s -> touch n s0 (with_hist h s).
Proof. by apply touch_same. Qed.
Lemma touch_options n s0 s o : touch n s0 s -> touch n s0 (with_options o s).
Proof. by apply touch_same. Qed.
Lemma touch_option_scopes n s0 s o : touch n s0 s -> touch n s0 (with_option_scopes o s).
Proof. by apply touch_same. Qed.
Lemma touch_dollar n s0 s d : touch n s0 s -> touch n s0 (with_dollar_vars d s).
Proof. by apply touch_same. Qed.
Lemma touch_random n s0 s a b : touch n s0 s -> touch n s0 (set_random a b s).
Proof. by apply touch_same. Qed.
Lemma touch_srandom n s0 s a : touch n s0 s -> touch n s0 (set_srandom a s).
Proof. by apply touch_same. Qed.
Lemma touch_seconds n s0 s a b : touch n s0 s -> touch n s0 (with_seconds a b s).
Proof. by apply touch_same. Qed.

Create HintDb touch.
#[export] Hint Resolve touch_refl touch_put_entry touch_del_entry touch_put_indexed touch_del_indexed touch_put_assoc
  touch_del_assoc touch_put_nameref touch_del_nameref touch_put_order touch_del_order touch_set_env touch_remove_env
  touch_warn touch_tables touch_dirs touch_dyn touch_hist touch_options touch_option_scopes touch_dollar touch_random
  touch_srandom touch_seconds : touch.

(** Split on every test of the goal, then compose the steps. *)
Ltac touches := repeat case_match; simplify_eq; cbn [fst snd]; auto 20 with touch.

Lemma touch_sync n s0 s m : touch n s0 s -> touch n s0 (sync_export_env m s).
Proof. intros H. unfold sync_export_env. touches. Qed.

Lemma touch_clear_rest n s0 s : touch n s0 s -> touch n s0 (clear_rest n s).
Proof. intros H. unfold clear_rest. touches. Qed.

Lemma touch_restore n s0 s sv : touch n s0 s -> touch n s0 (restore_var_snapshot s n sv).
Proof. intros H. unfold restore_var_snapshot. touches. Qed.

Lemma touch_history n s0 s m v : touch n s0 s -> touch n s0 (apply_history_special_var m v s).
Proof. intros H. unfold apply_history_special_var. touches. Qed.
#[export] Hint Resolve touch_sync touch_clear_rest touch_restore touch_history : touch.

Section Touch.
Context `{System} `{Casing}.

Lemma touch_set_array n s0 s vs : touch n s0 s -> touch n s0 (set_array s n vs).
Proof. intros Ht. unfold set_array. touches. Qed.

Lemma touch_set_array_indexed n s0 s i v : touch n s0 s -> touch n s0 (set_array_indexed s n i v).
Proof. intros Ht. unfold set_array_indexed. touches. Qed.

Lemma touch_set_array_assoc n s0 s k v : touch n s0 s -> touch n s0 (set_array_assoc s n k v).
Proof. intros Ht. unfold set_array_assoc. touches. Qed.

Lemma touch_unset_elem n s0 s k : touch n s0 s -> touch n s0 (unset_array_elem s n k).
Proof. intros Ht. unfold unset_array_elem. touches. Qed.

Lemma touch_set_attr n s0 s a on : touch n s0 s -> touch n s0 (set_attr s n a on).
Proof.
  intros Ht. unfold set_attr. case_match; [auto with touch|].
  destruct (attr_contains a ARRAY && on), (attr_contains a ASSOC && on); touches.
Qed.

Lemma touch_get_variable n s0 s m : touch n s0 s -> touch n s0 (get_variable s m).2.
Proof. intros Ht. unfold get_variable. touches. Qed.

Lemma touch_dirs_iter n s0 s : touch n s0 s -> touch n s0 (dirs_iter s).2.
Proof. intros Ht. unfold dirs_iter. pose proof (touch_get_variable n s0 s (bs "PWD") Ht). by destruct (get_variable _ _). Qed.

Lemma touch_get_cow n s0 s m : touch n s0 s -> touch n s0 (get_cow s m).2.
Proof.
  intros Ht. unfold get_cow, get_special. case_match; [done|].
  repeat match goal with |- context [if ?b then _ else _] => destruct b; [|] end; try done;
    unfold get_array_indexed; try (pose proof (touch_dirs_iter n s0 s Ht)); try (by apply touch_get_variable);
    touches; try (by apply touch_get_variable).
Qed.

Lemma touch_export n s0 s : touch n s0 s -> touch n s0 (export s n).
Proof.
  intros Ht. unfold export. pose proof (touch_get_cow n s0 s n Ht) as Hg.
  destruct (get_cow s n) as [v s1]. touches.
Qed.

Lemma touch_assign_value n s0 s v : touch n s0 s -> touch n s0 (assign_value s n v).2.
Proof.
  intros Ht. unfold assign_value, assign_scalar. case_match; [by apply touch_set_array_assoc|].
  case_match; [by apply touch_set_array_indexed|]. touches.
Qed.

Lemma touch_assign_special n s0 s v r : touch n s0 s -> assign_special s n v = Some r -> touch n s0 r.2.
Proof. intros Ht. unfold assign_special. intros Hr. touches. Qed.

Lemma touch_new_nameref n s0 s v : touch n s0 s -> touch n s0 (assign_new_nameref s n v).2.
Proof. intros Ht. unfold assign_new_nameref. touches. Qed.
End Touch.

(** * Dynamic scoping as deep binding

    The shell keeps the visible variables in one store and, in each local
    scope, what a local variable hides.  Seen as deep binding, every name has a
    list of bindings, the global one first and the visible one last, and every
    scope the set of names it declares. *)

Record DeepState := mkDeep {
  bindings : bytes -> list SavedVar;
  declared : list (gset bytes);
}.

Definition saved_of (x : bytes) (scopes : list (gmap bytes SavedVar)) : list SavedVar :=
  omap (fun sc : gmap bytes SavedVar => sc !! x) scopes.

Definition deep (s : ShellState) : DeepState :=
  mkDeep (fun x => saved_of x (local_scopes s) ++ [snapshot_var s x])
         (map (fun sc : gmap bytes SavedVar => dom sc) (local_scopes s)).

(** At most one binding changes: the visible one of some name, or the global
    one. *)
Definition one_binding (d d' : DeepState) : Prop :=
  declared d' = declared d
  /\ exists y k v, (k = 0%nat \/ S k = length (bindings d y))
     /\ (forall x, x <> y -> bindings d' x = bindings d x)
     /\ bindings d' y = <[k := v]> (bindings d y).

Lemma touch_one n s s' : touch n s s' -> one_binding (deep s) (deep s').
Proof.
  intros [Hs Hx]. split; [cbn; by rewrite Hs|].
  exists n, (length (saved_of n (local_scopes s))), (snapshot_var s' n). cbn. rewrite Hs. split; [|split].
  - right. rewrite length_app. cbn. lia.
  - intros x Hne. by rewrite Hx.
  - by rewrite insert_app_r_alt, Nat.sub_diag by lia.
Qed.

Lemma snapshot_restore s n sv : snapshot_var (restore_var_snapshot s n sv) n = sv.
Proof.
  unfold snapshot_var, restore_var_snapshot, entry_of, indexed_of, assoc_of, nameref_of.
  destruct sv as [[]  [] [] []]; cbn; rewrite ?lookup_insert_eq, ?lookup_delete_eq; done.
Qed.

Lemma restore_scopes s n sv : local_scopes (restore_var_snapshot s n sv) = local_scopes s.
Proof. unfold restore_var_snapshot. by destruct sv as [[] [] [] []]. Qed.

Lemma sync_scopes n s : local_scopes (sync_export_env n s) = local_scopes s.
Proof. unfold sync_export_env. by repeat case_match. Qed.

Lemma sync_snapshot n s x : snapshot_var (sync_export_env n s) x = snapshot_var s x.
Proof. unfold sync_export_env. by repeat case_match. Qed.

Lemma saved_of_cons (x : bytes) (sc : gmap bytes SavedVar) (scopes : list (gmap bytes SavedVar)) :
  saved_of x (sc :: scopes) = match sc !! x with Some g => g :: saved_of x scopes | None => saved_of x scopes end.
Proof. done. Qed.

(** The scope [scope_position] finds holds the first saved value. *)
Lemma scope_position_spec x scopes idx : scope_position x scopes = Some idx ->
  exists g rest, saved_of x scopes = g :: rest /\ (scope ← scopes !! idx; scope !! x) = Some g
    /\ forall u, saved_of x (alter (<[x := u]>) idx scopes) = u :: rest.
Proof.
  revert idx. induction scopes as [|sc scopes IH]; intros idx; [done|]. cbn [scope_position]. rewrite saved_of_cons.
  case_bool_decide as Hsc.
  - intros [= <-]. destruct Hsc as [g Hg]. rewrite Hg. exists g, (saved_of x scopes). split; [done|]. split; [done|].
    intros u. cbn [alter list_alter]. by rewrite saved_of_cons, lookup_insert_eq.
  - destruct (scope_position x scopes) as [k|] eqn:Ek; [|done]. intros [= <-].
    destruct (IH k eq_refl) as (g & rest & H1 & H2 & H3).
    assert (sc !! x = None) as Hn by (destruct (sc !! x); [exfalso; by apply Hsc|done]).
    exists g, rest. rewrite Hn. split; [done|]. split; [done|]. intros u. cbn [alter list_alter].
    rewrite saved_of_cons, Hn. apply H3.
Qed.

Lemma saved_alter_ne x n u idx scopes : x <> n ->
  saved_of x (alter (<[n := u]>) idx scopes) = saved_of x scopes.
Proof.
  intros Hne. revert idx. induction scopes as [|sc scopes IH]; intros [|idx]; [done..| |].
  - change (saved_of x (<[n := u]> sc :: scopes) = saved_of x (sc :: scopes)).
    by rewrite !saved_of_cons, lookup_insert_ne by congruence.
  - change (saved_of x (sc :: alter (<[n := u]>) idx scopes) = saved_of x (sc :: scopes)).
    by rewrite !saved_of_cons, IH.
Qed.

Lemma declared_position x scopes scopes' :
  map (fun sc : gmap bytes SavedVar => dom sc) scopes' = map (fun sc : gmap bytes SavedVar => dom sc) scopes ->
  scope_position x scopes' = scope_position x scopes.
Proof.
  revert scopes'. induction scopes as [|sc scopes IH]; intros [|sc' scopes']; cbn; try done. intros [= Hd Hr].
  rewrite (IH _ Hr).
  assert (bool_decide (is_Some (sc' !! x)) = bool_decide (is_Some (sc !! x))) as ->; [|done].
  apply bool_decide_ext. rewrite <- !elem_of_dom. by rewrite Hd.
Qed.

Lemma declared_alter n u idx scopes sc : scopes !! idx = Some sc -> is_Some (sc !! n) ->
  map (fun sc : gmap bytes SavedVar => dom sc) (alter (<[n := u]>) idx scopes)
  = map (fun sc : gmap bytes SavedVar => dom sc) scopes.
Proof.
  revert idx. induction scopes as [|sc0 scopes IH]; intros [|idx]; cbn; try done.
  - intros [= ->] Hs. f_equal. rewrite dom_insert_L. apply elem_of_dom in Hs. set_solver.
  - intros Hl Hs. f_equal. by apply IH.
Qed.

Lemma deep_rescoped n sc s x :
  bindings (deep (sync_export_env n (with_scopes sc s))) x = saved_of x sc ++ [snapshot_var s x].
Proof. unfold deep. cbn [bindings]. by rewrite sync_scopes, sync_snapshot. Qed.

Lemma declared_rescoped n sc s :
  declared (deep (sync_export_env n (with_scopes sc s))) = map (fun sc : gmap bytes SavedVar => dom sc) sc.
Proof. unfold deep. cbn [declared]. by rewrite sync_scopes. Qed.

Lemma with_global_one {R} s n (f : ShellState -> R * ShellState) :
  (forall s0, one_binding (deep s0) (deep (f s0).2)) -> one_binding (deep s) (deep (with_global_var s n f).2).
Proof.
  intros Hf. unfold with_global_var. destruct (global_scope_index s n) as [idx|] eqn:Ei; [|apply Hf].
  unfold global_scope_index in Ei. destruct (scope_position_spec _ _ _ Ei) as (g & rest & Hs & Hg & _).
  rewrite Hg. cbn [default from_option id].
  set (s0 := restore_var_snapshot s n g). specialize (Hf s0). destruct (f s0) as [r s1] eqn:Ef. cbn [fst snd] in *.
  destruct Hf as [Hd (y & k & v & Hk & Hx & Hy)].
  assert (Hs0 : forall x, x <> n -> bindings (deep s0) x = bindings (deep s) x).
  { intros x Hne. cbn. unfold s0. rewrite restore_scopes.
    destruct (touch_restore n s s g (touch_refl n s)) as [_ Ht]. by rewrite Ht. }
  assert (Hd0 : declared (deep s0) = declared (deep s)) by (cbn; unfold s0; by rewrite restore_scopes).
  assert (Hn0 : bindings (deep s0) n = (g :: rest) ++ [g]).
  { cbn. unfold s0. by rewrite restore_scopes, snapshot_restore, Hs. }
  assert (Hn : bindings (deep s) n = g :: rest ++ [snapshot_var s n]) by (cbn; by rewrite Hs).
  rewrite Hd0 in Hd. cbn in Hd.
  assert (Ei1 : scope_position n (local_scopes s1) = Some idx) by (by rewrite (declared_position n _ _ Hd)).
  destruct (scope_position_spec _ _ _ Ei1) as (g1 & rest1 & Hs1 & Hg1 & Halt).
  set (s3 := sync_export_env n _).
  assert (H3n : bindings (deep s3) n = snapshot_var s1 n :: rest1 ++ [snapshot_var s n]).
  { unfold s3. by rewrite deep_rescoped, restore_scopes, Halt, snapshot_restore. }
  assert (H3x : forall x, x <> n -> bindings (deep s3) x = bindings (deep s1) x).
  { intros x Hne. unfold s3. rewrite deep_rescoped, restore_scopes, saved_alter_ne by done.
    destruct (touch_restore n s1 s1 (snapshot_var s n) (touch_refl n s1)) as [_ Ht]. by rewrite Ht. }
  assert (H1n : bindings (deep s1) n = g1 :: rest1 ++ [snapshot_var s1 n]) by (cbn; by rewrite Hs1).
  split.
  { unfold s3. rewrite declared_rescoped, restore_scopes.
    destruct (local_scopes s1 !! idx) as [sc|] eqn:Esc; [|done]. rewrite (declared_alter _ _ _ _ sc); [done..|]. by exists g1. }
  destruct (decide (y = n)) as [->|Hyn].
  - rewrite Hn0, H1n in Hy. rewrite Hn0 in Hk.
    destruct (decide (k = 0%nat)) as [->|Hk0].
    + exists n, 0%nat, g. split; [by left|]. split; [intros x Hne; by rewrite H3x, Hx, Hs0|].
      cbn in Hy. injection Hy as _ Hrest. apply app_inj_tail in Hrest as [Hr Hu].
      by rewrite H3n, Hn, Hr, Hu.
    + destruct Hk as [Hk|Hk]; [done|]. rewrite length_app in Hk. cbn in Hk.
      exists n, 0%nat, v. split; [by left|]. split; [intros x Hne; by rewrite H3x, Hx, Hs0|].
      rewrite insert_app_r_alt in Hy by (cbn; lia). cbn [length] in Hy.
      replace (k - S (length rest))%nat with 0%nat in Hy by lia. cbn in Hy.
      injection Hy as _ Hrest. apply app_inj_tail in Hrest as [Hr Hu].
      by rewrite H3n, Hn, Hr, Hu.
  - exists y, k, v. rewrite (Hs0 y Hyn) in Hk, Hy. split; [done|]. split.
    + intros x Hxy. destruct (decide (x = n)) as [->|Hne]; [|by rewrite H3x, Hx, Hs0].
      specialize (Hx n Hxy). rewrite H1n, Hn0 in Hx. injection Hx as _ Hrest.
      apply app_inj_tail in Hrest as [Hr Hu]. by rewrite H3n, Hn, Hr, Hu.
    + by rewrite H3x.
Qed.

(** * The operations on variables, as deep binding *)

Section Ops.
Context `{System} `{Casing}.

Lemma one_binding_refl s : one_binding (deep s) (deep s).
Proof. apply (touch_one []). apply touch_refl. Qed.

Lemma nameref_target_one rec s source target v :
  (forall s n v, one_binding (deep s) (deep (rec s n v).2)) ->
  one_binding (deep s) (deep (assign_nameref_target rec s source target v).2).
Proof.
  intros Hrec. unfold assign_nameref_target. destruct (state_array_reference target) as [[n sub]|].
  - case_match; [apply one_binding_refl|]. case_match; [apply one_binding_refl|].
    set (s1 := if attr_contains _ _ then _ else s).
    assert (Ht : touch n s s1).
    { unfold s1. case_match; [|apply touch_refl]. apply touch_set_array, touch_set_attr. auto with touch. }
    repeat case_match; apply (touch_one n); cbn [snd]; auto using touch_set_array_assoc, touch_set_array_indexed.
  - case_match; [apply Hrec|apply one_binding_refl].
Qed.

Lemma assign_one fuel s n v : one_binding (deep s) (deep (assign fuel s n v).2).
Proof.
  revert s n v. induction fuel as [|fuel IH]; intros s n v; [apply one_binding_refl|]. cbn [assign].
  destruct (assign_special s n v) as [r|] eqn:Es.
  { apply (touch_one n). eapply touch_assign_special; [apply touch_refl|exact Es]. }
  destruct (_ && negb (xtrace_fd_value_is_valid v)); [apply (touch_one n); cbn; auto with touch|].
  destruct (_ && one_of n _); [apply one_binding_refl|].
  destruct (match entry_of s n with Some _ => _ | None => _ end); [apply one_binding_refl|].
  destruct (attr_contains _ NAMEREF); [|apply (touch_one n), touch_assign_value, touch_refl].
  destruct (nameref_of s n) as [t|]; [|apply (touch_one n), touch_new_nameref, touch_refl].
  destruct (bool_decide _).
  - change (deep s) with (deep (warn (WMaxDepth n) s)). apply with_global_one. intros s0. by apply nameref_target_one.
  - destruct (resolve_nameref s n) as [t'|]; [|apply (touch_one n); cbn [snd]; auto with touch].
    destruct (negb _); [by apply nameref_target_one|apply (touch_one n), touch_assign_value, touch_refl].
Qed.

Lemma touch_assign fuel s n v : attr_contains (entry_attrs (entry_of s n)) NAMEREF = false ->
  touch n s (assign fuel s n v).2.
Proof.
  intros Hn. destruct fuel as [|fuel]; [apply touch_refl|]. cbn [assign].
  destruct (assign_special s n v) as [r|] eqn:Es; [eapply touch_assign_special; [apply touch_refl|exact Es]|].
  destruct (_ && negb (xtrace_fd_value_is_valid v)); [cbn; auto with touch|].
  destruct (_ && one_of n _); [apply touch_refl|].
  destruct (match entry_of s n with Some _ => _ | None => _ end); [apply touch_refl|].
  rewrite Hn. apply touch_assign_value, touch_refl.
Qed.

Inductive VarOp :=
| VAssign (n v : bytes)
| VSetArray (n : bytes) (vs : list bytes)
| VSetIndexed (n : bytes) (i : Z) (v : bytes)
| VSetAssoc (n k v : bytes)
| VUnsetElem (n k : bytes)
| VSetAttr (n : bytes) (a : Z) (on : bool)
| VExport (n : bytes)
| VAssignGlobal (n v : bytes)
| VSetGlobalAttr (n : bytes) (a : Z) (on : bool)
| VExportGlobal (n : bytes)
| VSetGlobalArray (n : bytes) (vs : list bytes)
| VSetGlobalIndexed (n : bytes) (i : Z) (v : bytes)
| VSetGlobalAssoc (n k v : bytes)
| VUnsetGlobalElem (n k : bytes)
| VPush
| VPop
| VMakeLocal (n : bytes)
| VMakeLocalValue (n : bytes) (v : option bytes)
| VMakeLocalInherit (n : bytes)
| VUnset (n : bytes).

Definition run_op (s : ShellState) (op : VarOp) : ShellState :=
  match op with
  | VAssign n v => snd (var_assign s n v)
  | VSetArray n vs => set_array s n vs
  | VSetIndexed n i v => set_array_indexed s n i v
  | VSetAssoc n k v => set_array_assoc s n k v
  | VUnsetElem n k => unset_array_elem s n k
  | VSetAttr n a on => set_attr s n a on
  | VExport n => export s n
  | VAssignGlobal n v => snd (assign_global s n v)
  | VSetGlobalAttr n a on => set_global_attr s n a on
  | VExportGlobal n => export_global s n
  | VSetGlobalArray n vs => set_global_array s n vs
  | VSetGlobalIndexed n i v => set_global_array_indexed s n i v
  | VSetGlobalAssoc n k v => set_global_array_assoc s n k v
  | VUnsetGlobalElem n k => unset_global_array_elem s n k
  | VPush => push_local_scope s
  | VPop => pop_local_scope s
  | VMakeLocal n => snd (make_local s n)
  | VMakeLocalValue n v => snd (make_local_with_value s n v)
  | VMakeLocalInherit n => snd (make_local_inherit s n)
  | VUnset n => unset s n
  end.

(** ** Deep binding *)

Definition same_deep (d d' : DeepState) : Prop :=
  declared d' = declared d /\ forall x, bindings d' x = bindings d x.

Definition in_last (n : bytes) (decl : list (gset bytes)) : Prop := n ∈ default ∅ (last decl).
Definition in_any (n : bytes) (decl : list (gset bytes)) : Prop := Exists (fun X => n ∈ X) decl.

Definition visible (d : DeepState) (n : bytes) : SavedVar := default (mkSaved None None None None) (last (bindings d n)).

(** A name that cannot be made local (again). *)
Definition not_local (d : DeepState) (n : bytes) : Prop :=
  declared d = [] \/ in_last n (declared d)
  \/ ~ in_any n (declared d) /\ entry_readonly (sv_entry (visible d n)) = true.

(** [n] gets a binding of its own in the innermost scope. *)
Definition new_local (n : bytes) (v : SavedVar) (d d' : DeepState) : Prop :=
  declared d' = alter (union {[n]}) (length (declared d) - 1)%nat (declared d)
  /\ (forall x, x <> n -> bindings d' x = bindings d x)
  /\ bindings d' n = bindings d n ++ [v].

(** The visible binding of [n] is replaced. *)
Definition rebind (n : bytes) (v : SavedVar) (d d' : DeepState) : Prop :=
  declared d' = declared d
  /\ (forall x, x <> n -> bindings d' x = bindings d x)
  /\ bindings d' n = removelast (bindings d n) ++ [v].

(** The innermost scope that declares [n] forgets it; the binding it hid is
    visible again. *)
Definition drop_binding (n : bytes) (d d' : DeepState) : Prop :=
  (exists idx X, declared d !! idx = Some X /\ n ∈ X
     /\ (forall j Y, (idx < j)%nat -> declared d !! j = Some Y -> n ∉ Y)
     /\ declared d' = <[idx := X ∖ {[n]}]> (declared d))
  /\ (forall x, x <> n -> bindings d' x = bindings d x)
  /\ bindings d' n = removelast (bindings d n).

Definition unset_refused (n : bytes) : Prop := one_of n ["FUNCNAME"; "BASHOPTS"; "SHELLOPTS"]%string = true.

(** The step of the deep-binding machine; [lu] is the option localvar_unset. *)
Definition deep_step (lu : bool) (op : VarOp) (d d' : DeepState) : Prop :=
  match op with
  | VPush => declared d' = declared d ++ [∅] /\ forall x, bindings d' x = bindings d x
  | VPop =>
      declared d' = removelast (declared d)
      /\ forall x, x <> bs "IGNOREEOF" ->
           (in_last x (declared d) -> bindings d' x = removelast (bindings d x))
           /\ (~ in_last x (declared d) -> bindings d' x = bindings d x)
  | VMakeLocal n =>
      (not_local d n -> same_deep d d')
      /\ (~ not_local d n ->
          new_local n (mkSaved (Some (fresh_entry (entry_exported (sv_entry (visible d n))))) None None None) d d')
  | VMakeLocalInherit n => (not_local d n -> same_deep d d') /\ (~ not_local d n -> exists v, new_local n v d d')
  | VMakeLocalValue n _ => (not_local d n -> one_binding d d') /\ (~ not_local d n -> exists v, new_local n v d d')
  | VUnset n =>
      (unset_refused n -> same_deep d d')
      /\ (~ unset_refused n -> in_last n (declared d) -> exists e, rebind n (mkSaved (Some (fresh_entry e)) None None None) d d')
      /\ (~ unset_refused n -> ~ in_last n (declared d) -> in_any n (declared d) ->
          if lu then rebind n (mkSaved (Some entry_default) None None None) d d' else drop_binding n d d')
      /\ (~ unset_refused n -> ~ in_any n (declared d) -> rebind n (mkSaved None None None None) d d')
  | _ => one_binding d d'
  end.

(** ** The correspondence *)

Lemma saved_of_snoc (x : bytes) (l : list (gmap bytes SavedVar)) (sc : gmap bytes SavedVar) :
  saved_of x (l ++ [sc]) = saved_of x l ++ match sc !! x with Some g => [g] | None => [] end.
Proof.
  induction l as [|sc0 l IH].
  - cbn [app]. rewrite saved_of_cons. by destruct (sc !! x).
  - cbn [app]. rewrite !saved_of_cons, IH. by destruct (sc0 !! x).
Qed.

Lemma scopes_snoc (l : list (gmap bytes SavedVar)) : l <> [] ->
  exists l0 sc, l = l0 ++ [sc] /\ last l = Some sc /\ removelast l = l0.
Proof.
  intros Hne. destruct (exists_last Hne) as (l0 & sc & ->). exists l0, sc.
  split; [done|]. split; [apply last_snoc|apply removelast_last].
Qed.

Lemma declared_nil s : declared (deep s) = [] <-> local_scopes s = [].
Proof. cbn. destruct (local_scopes s); done. Qed.

Lemma in_last_iff (s : ShellState) (n : bytes) : in_last n (declared (deep s)) <-> in_last_scope s n = true.
Proof.
  unfold in_last, in_last_scope. cbn. destruct (decide (local_scopes s = [])) as [->|Hne]; [cbn; set_solver|].
  destruct (scopes_snoc _ Hne) as (l0 & sc & -> & -> & _). rewrite map_app. cbn. rewrite last_snoc. cbn.
  by rewrite elem_of_dom, bool_decide_eq_true.
Qed.

Lemma in_any_iff (s : ShellState) (n : bytes) : in_any n (declared (deep s)) <-> in_any_scope s n = true.
Proof.
  unfold in_any, in_any_scope. cbn. rewrite Exists_exists, existsb_exists. split.
  - intros (X & HX & Hn). apply list_elem_of_fmap in HX as (sc & -> & Hsc). exists sc.
    rewrite bool_decide_eq_true, <- elem_of_dom. by apply list_elem_of_In in Hsc.
  - intros (sc & Hsc & Hn). rewrite bool_decide_eq_true, <- elem_of_dom in Hn. exists (dom sc). split; [|done].
    apply list_elem_of_fmap. exists sc. by rewrite list_elem_of_In.
Qed.

Lemma visible_deep s n : visible (deep s) n = snapshot_var s n.
Proof. unfold visible. cbn. by rewrite last_snoc. Qed.

Lemma removelast_bindings s n : removelast (bindings (deep s) n) = saved_of n (local_scopes s).
Proof. cbn. apply removelast_last. Qed.

Lemma touch_rebind n s s' : touch n s s' -> rebind n (snapshot_var s' n) (deep s) (deep s').
Proof.
  intros [Hs Hx]. split; [cbn; by rewrite Hs|]. split; [intros x Hne; cbn; by rewrite Hs, Hx|].
  rewrite removelast_bindings. cbn. by rewrite Hs.
Qed.

Lemma touch_same_deep s s' : local_scopes s' = local_scopes s -> (forall x, snapshot_var s' x = snapshot_var s x) ->
  same_deep (deep s) (deep s').
Proof. intros Hs Hx. split; [cbn; by rewrite Hs|]. intros x. cbn. by rewrite Hs, Hx. Qed.

Lemma alter_snoc {A} (f : A -> A) (l : list A) (y : A) : alter f (length l) (l ++ [y]) = l ++ [f y].
Proof. by rewrite alter_app_r_alt, Nat.sub_diag by lia. Qed.

Lemma saved_in_last (s : ShellState) (n : bytes) (sv : SavedVar) : local_scopes s <> [] -> in_last_scope s n = false ->
  let sc' := local_scopes (save_in_last s n sv) in
  saved_of n sc' = saved_of n (local_scopes s) ++ [sv]
  /\ (forall x, x <> n -> saved_of x sc' = saved_of x (local_scopes s))
  /\ map (fun sc : gmap bytes SavedVar => dom sc) sc'
     = alter (union {[n]}) (length (declared (deep s)) - 1)%nat (declared (deep s)).
Proof.
  intros Hne Hl. unfold in_last_scope, save_in_last in *. destruct (scopes_snoc _ Hne) as (l0 & sc & Hsc & Hlast & _).
  rewrite Hlast in Hl. apply bool_decide_eq_false in Hl.
  assert (Hn : sc !! n = None) by (destruct (sc !! n); [exfalso; by apply Hl|done]).
  cbn [local_scopes with_scopes declared deep]. rewrite Hsc, length_map, length_app. cbn [length].
  replace (length l0 + 1 - 1)%nat with (length l0) by lia. rewrite alter_snoc. split; [|split].
  - by rewrite !saved_of_snoc, Hn, lookup_insert_eq, app_nil_r.
  - intros x Hx. by rewrite !saved_of_snoc, lookup_insert_ne by congruence.
  - rewrite !map_app. cbn [map]. rewrite <- (length_map (fun sc : gmap bytes SavedVar => dom sc) l0), alter_snoc.
    by rewrite dom_insert_L.
Qed.

Lemma make_new (s : ShellState) (n : bytes) (s' : ShellState) : local_scopes s <> [] -> in_last_scope s n = false ->
  touch n (save_in_last s n (snapshot_var s n)) s' -> new_local n (snapshot_var s' n) (deep s) (deep s').
Proof.
  intros Hne Hl [Hs Hx]. destruct (saved_in_last s n (snapshot_var s n) Hne Hl) as (H1 & H2 & H3).
  split; [|split].
  - cbn [declared deep]. rewrite Hs. exact H3.
  - intros x Hxn. cbn [bindings deep]. rewrite Hs, H2, Hx by done. done.
  - cbn [bindings deep]. by rewrite Hs, H1.
Qed.

Lemma not_local_iff (s : ShellState) (n : bytes) :
  not_local (deep s) n <-> (is_nil (local_scopes s) || in_last_scope s n || local_readonly s n) = true.
Proof.
  unfold not_local, local_readonly. rewrite declared_nil, in_last_iff, in_any_iff, visible_deep.
  rewrite !orb_true_iff, andb_true_iff, negb_true_iff. cbn.
  assert (is_nil (local_scopes s) = true <-> local_scopes s = []) as -> by (by destruct (local_scopes s)).
  destruct (in_any_scope s n); naive_solver.
Qed.

Lemma fold_restore (l : list (bytes * SavedVar)) (s : ShellState) : NoDup l.*1 ->
  let s' := fold_left restore_saved l s in
  local_scopes s' = local_scopes s
  /\ (forall x sv, (x, sv) ∈ l -> snapshot_var s' x = sv)
  /\ (forall x, x ∉ l.*1 -> snapshot_var s' x = snapshot_var s x).
Proof.
  revert s. induction l as [|[n sv] l IH]; intros s Hnd.
  - cbn. split; [done|]. split; [|done]. intros x sv' Hin. inversion Hin.
  - cbn [fold_left]. inversion Hnd as [|? ? Hn Hnd']; subst. destruct (IH (restore_saved s (n, sv)) Hnd') as (H1 & H2 & H3).
    assert (Hsc : local_scopes (restore_saved s (n, sv)) = local_scopes s).
    { unfold restore_saved. by rewrite sync_scopes, restore_scopes. }
    split; [by rewrite H1|]. split.
    + intros x sv' [Heq|Hin]%elem_of_cons; [|by apply H2]. injection Heq as -> ->.
      rewrite H3 by done. unfold restore_saved. cbn. by rewrite sync_snapshot, snapshot_restore.
    + intros x Hx. cbn in Hx. rewrite not_elem_of_cons in Hx. destruct Hx as [Hxn Hx]. rewrite H3 by done.
      unfold restore_saved. cbn. rewrite sync_snapshot.
      destruct (touch_restore n s s sv (touch_refl n s)) as [_ Ht]. by apply Ht.
Qed.

Lemma pop_options s : exists s1,
  local_scopes s1 = local_scopes s
  /\ (forall x, x <> bs "IGNOREEOF" -> snapshot_var s1 x = snapshot_var s x)
  /\ pop_local_scope s = match last (local_scopes s) with
                         | None => s1
                         | Some scope => fold_left restore_saved (map_to_list scope) (with_scopes (removelast (local_scopes s)) s1)
                         end.
Proof.
  unfold pop_local_scope. set (s1 := match last (local_option_scopes s) with Some (Some saved) => _ | _ => _ end).
  assert (Ht : touch (bs "IGNOREEOF") s s1).
  { unfold s1, restore_options. repeat case_match; auto 10 with touch. }
  destruct Ht as [Hs Hx]. exists s1. split; [done|]. split; [done|]. by rewrite Hs.
Qed.

Lemma pop_deep s : deep_step (state_option s "localvar_unset") VPop (deep s) (deep (pop_local_scope s)).
Proof.
  destruct (pop_options s) as (s1 & Hs1 & Hx1 & ->). cbn [deep_step].
  destruct (decide (local_scopes s = [])) as [Hnil|Hne].
  - rewrite Hnil. cbn [last]. cbn [declared deep]. rewrite Hs1, Hnil. split; [done|]. intros x Hx. unfold in_last. cbn.
    split; [set_solver|]. intros _. by rewrite Hs1, Hnil, Hx1.
  - destruct (scopes_snoc _ Hne) as (l0 & sc & Hsc & Hlast & Hrm). rewrite Hlast, Hrm.
    destruct (fold_restore (map_to_list sc) (with_scopes l0 s1) (NoDup_fst_map_to_list sc)) as (H1 & H2 & H3).
    set (s' := fold_left _ _ _) in *. cbn in H1. split.
    { cbn [declared deep]. rewrite H1, Hsc, map_app. cbn. by rewrite removelast_last. }
    intros x Hx. rewrite in_last_iff. unfold in_last_scope. rewrite Hlast, bool_decide_eq_true.
    cbn [bindings deep]. rewrite H1, Hsc, saved_of_snoc. split.
    + intros [sv Hsv]. rewrite Hsv, (H2 x sv) by (by apply elem_of_map_to_list).
      by rewrite removelast_last.
    + intros Hno. assert (sc !! x = None) as Hn by (destruct (sc !! x); [exfalso; by apply Hno|done]).
      rewrite Hn, app_nil_r, H3; [|].
      * f_equal. f_equal. by rewrite <- Hx1.
      * intros Hin. apply list_elem_of_fmap in Hin as ([x' sv] & -> & Hin). apply elem_of_map_to_list in Hin. cbn in Hn. congruence.
Qed.

(** The scope [scope_rposition] finds holds the last saved value. *)
Lemma scope_rposition_spec (n : bytes) (scopes : list (gmap bytes SavedVar)) idx : scope_rposition n scopes = Some idx ->
  exists sc g, scopes !! idx = Some sc /\ sc !! n = Some g
    /\ (forall j sc', (idx < j)%nat -> scopes !! j = Some sc' -> sc' !! n = None)
    /\ saved_of n scopes = saved_of n (alter (delete n) idx scopes) ++ [g]
    /\ (forall x, x <> n -> saved_of x (alter (delete n) idx scopes) = saved_of x scopes).
Proof.
  revert idx. induction scopes as [|sc0 scopes IH]; intros idx; [done|]. cbn [scope_rposition].
  destruct (scope_rposition n scopes) as [k|] eqn:Ek.
  - intros [= <-]. destruct (IH k eq_refl) as (sc & g & H1 & H2 & H3 & H4 & H5). exists sc, g.
    change (alter (delete n) (S k) (sc0 :: scopes)) with (sc0 :: alter (delete n) k scopes).
    split; [done|]. split; [done|]. split; [|split].
    + intros [|j] sc' Hj; [lia|]. apply H3. lia.
    + rewrite !saved_of_cons, H4. by destruct (sc0 !! n).
    + intros x Hx. by rewrite !saved_of_cons, H5.
  - case_bool_decide as Hs; [|done]. intros [= <-]. destruct Hs as [g Hg]. exists sc0, g.
    change (alter (delete n) 0%nat (sc0 :: scopes)) with (delete n sc0 :: scopes).
    assert (Hno : forall j sc', scopes !! j = Some sc' -> sc' !! n = None).
    { clear IH. revert Ek. induction scopes as [|sc1 scopes IH2]; intros Ek j sc' Hj; [done|]. cbn [scope_rposition] in Ek.
      destruct (scope_rposition n scopes); [done|]. case_bool_decide as Hs1; [done|]. destruct j as [|j]; [|by eapply IH2].
      injection Hj as <-. destruct (sc1 !! n); [exfalso; by apply Hs1|done]. }
    assert (Hnil : saved_of n scopes = []).
    { clear -Hno. induction scopes as [|sc1 scopes IH2]; [done|].
      rewrite saved_of_cons, (Hno 0%nat sc1 eq_refl). apply IH2. intros j sc' Hj. by apply (Hno (S j) sc'). }
    split; [done|]. split; [done|]. split; [|split].
    + intros [|j] sc' Hj; [lia|]. apply Hno.
    + by rewrite !saved_of_cons, Hg, Hnil, lookup_delete_eq.
    + intros x Hx. by rewrite !saved_of_cons, lookup_delete_ne by congruence.
Qed.

Lemma rposition_any (n : bytes) (scopes : list (gmap bytes SavedVar)) :
  existsb (fun sc : gmap bytes SavedVar => bool_decide (is_Some (sc !! n))) scopes = bool_decide (is_Some (scope_rposition n scopes)).
Proof.
  induction scopes as [|sc scopes IH]; [done|]. cbn [existsb scope_rposition]. rewrite IH.
  destruct (scope_rposition n scopes).
  - rewrite (bool_decide_eq_true_2 (is_Some (Some _))) by done. by rewrite orb_true_r.
  - destruct (bool_decide (is_Some (sc !! n))); done.
Qed.

Lemma declared_delete (n : bytes) (idx : nat) (scopes : list (gmap bytes SavedVar)) (sc : gmap bytes SavedVar) : scopes !! idx = Some sc ->
  map (fun sc : gmap bytes SavedVar => dom sc) (alter (delete n) idx scopes)
  = <[idx := dom sc ∖ {[n]}]> (map (fun sc : gmap bytes SavedVar => dom sc) scopes).
Proof.
  revert idx. induction scopes as [|sc0 scopes IH]; intros [|idx]; [done..| |].
  - intros [= ->].
    change (dom (delete n sc) :: map (fun sc : gmap bytes SavedVar => dom sc) scopes
            = (dom sc ∖ {[n]}) :: map (fun sc : gmap bytes SavedVar => dom sc) scopes).
    by rewrite dom_delete_L.
  - intros Hl. specialize (IH idx Hl).
    change (dom sc0 :: map (fun sc : gmap bytes SavedVar => dom sc) (alter (delete n) idx scopes)
            = dom sc0 :: <[idx := dom sc ∖ {[n]}]> (map (fun sc : gmap bytes SavedVar => dom sc) scopes)).
    by rewrite IH.
Qed.

Lemma cleared_snapshot n e s :
  snapshot_var (sync_export_env n (clear_rest n (put_entry n e s))) n = mkSaved (Some e) None None None.
Proof.
  rewrite sync_snapshot. unfold snapshot_var, clear_rest, entry_of, indexed_of, assoc_of, nameref_of. cbn.
  by rewrite lookup_insert_eq, !lookup_delete_eq.
Qed.

Lemma make_local_deep s n lu : deep_step lu (VMakeLocal n) (deep s) (deep (make_local s n).2).
Proof.
  cbn [deep_step]. rewrite not_local_iff. unfold make_local.
  destruct (is_nil (local_scopes s)) eqn:En; [split; [intros _; by apply touch_same_deep|by intros []]|].
  destruct (in_last_scope s n) eqn:El; [split; [intros _; by apply touch_same_deep|by intros []]|].
  destruct (local_readonly s n) eqn:Er; [split; [intros _; by apply touch_same_deep|by intros []]|].
  split; [done|]. intros _. rewrite visible_deep. cbn [snd].
  rewrite <- (cleared_snapshot n (fresh_entry (entry_exported (sv_entry (snapshot_var s n)))) (save_in_last s n (snapshot_var s n))).
  apply make_new; [by destruct (local_scopes s)|done|]. auto with touch.
Qed.

Lemma make_local_inherit_deep s n lu : deep_step lu (VMakeLocalInherit n) (deep s) (deep (make_local_inherit s n).2).
Proof.
  cbn [deep_step]. rewrite not_local_iff. unfold make_local_inherit.
  destruct (is_nil (local_scopes s)) eqn:En; [split; [intros _; by apply touch_same_deep|by intros []]|].
  destruct (in_last_scope s n) eqn:El; [split; [intros _; by apply touch_same_deep|by intros []]|].
  destruct (local_readonly s n) eqn:Er; [split; [intros _; by apply touch_same_deep|by intros []]|].
  split; [done|]. intros _. eexists. apply make_new; [by destruct (local_scopes s)|done|]. cbn [snd].
  set (s0 := save_in_last _ _ _). set (s1 := if _ || _ then s0 else _).
  assert (touch n s0 s1) by (unfold s1; case_match; auto with touch).
  destruct (entry_of s1 n); auto with touch.
Qed.

Lemma entry_put n e s : entry_of (put_entry n e s) n = Some e.
Proof. unfold entry_of. cbn. apply lookup_insert_eq. Qed.

Lemma sync_entry n s x : entry_of (sync_export_env n s) x = entry_of s x.
Proof. unfold sync_export_env. by repeat case_match. Qed.

Lemma fresh_not_nameref b : attr_contains (attrs (fresh_entry b)) NAMEREF = false.
Proof. by destruct b. Qed.

(** A variable made local with a value is bound in the innermost scope. *)
Lemma make_value_new s n v : local_scopes s <> [] -> in_last_scope s n = false -> local_readonly s n = false ->
  touch n (save_in_last s n (snapshot_var s n)) (make_local_with_value s n v).2.
Proof.
  intros Hne Hl Hr. unfold make_local_with_value. rewrite Hl, Hr. destruct (local_scopes s) as [|sc l] eqn:Esc; [done|].
  cbn [is_nil negb andb]. set (s0 := save_in_last s n (snapshot_var s n)). set (direct := can_assign_simple_local_direct s n).
  destruct v as [v|]; [|cbn; auto 20 with touch].
  rewrite (bool_decide_eq_true_2 (is_Some (Some v))) by done. cbn [negb orb].
  destruct direct; cbn [negb].
  - destruct (match entry_of _ n with Some e => _ | None => _ end) as [exp a]. destruct exp; cbn [snd]; auto 20 with touch.
  - eapply touch_trans; [|apply touch_assign]; [auto 20 with touch|].
    rewrite sync_entry, entry_put. apply fresh_not_nameref.
Qed.

Lemma make_local_value_deep s n v lu : deep_step lu (VMakeLocalValue n v) (deep s) (deep (make_local_with_value s n v).2).
Proof.
  cbn [deep_step]. rewrite not_local_iff.
  destruct (is_nil (local_scopes s)) eqn:En.
  { split; [|by intros []]. intros _. unfold make_local_with_value. rewrite En. destruct v; [apply assign_one|apply one_binding_refl]. }
  destruct (in_last_scope s n) eqn:El.
  { split; [|by intros []]. intros _. unfold make_local_with_value. rewrite En, El. cbn [negb andb].
    destruct v as [v|]; [|apply one_binding_refl]. destruct (negb _); [apply assign_one|].
    destruct (match entry_of _ n with Some e => _ | None => _ end) as [exp a].
    apply (touch_one n). destruct exp; cbn [snd]; auto 20 with touch. }
  destruct (local_readonly s n) eqn:Er.
  { split; [|by intros []]. intros _. unfold make_local_with_value. rewrite En, El, Er. apply one_binding_refl. }
  split; [done|]. intros _. eexists. assert (local_scopes s <> []) by (by destruct (local_scopes s)).
  apply make_new; [done..|]. by apply make_value_new.
Qed.

Lemma touch_unset_dynamic n s0 s : touch n s0 s -> touch n s0 (unset_dynamic n s).
Proof. intros Ht. unfold unset_dynamic. touches. Qed.
Local Hint Resolve touch_unset_dynamic : touch.

Lemma unset_dynamic_same n s : local_scopes (unset_dynamic n s) = local_scopes s
  /\ (forall x, snapshot_var (unset_dynamic n s) x = snapshot_var s x).
Proof. unfold unset_dynamic. by repeat case_match. Qed.

Lemma deleted_snapshot n s : snapshot_var (remove_var_env n (clear_rest n (del_entry n s))) n = mkSaved None None None None.
Proof. unfold snapshot_var, clear_rest, entry_of, indexed_of, assoc_of, nameref_of. cbn. by rewrite !lookup_delete_eq. Qed.

Lemma rebind_cleared n e s0 s : touch n s0 s ->
  rebind n (mkSaved (Some e) None None None) (deep s0) (deep (sync_export_env n (clear_rest n (put_entry n e s)))).
Proof. intros Ht. rewrite <- (cleared_snapshot n e s). apply touch_rebind. auto with touch. Qed.

Lemma in_last_any s n : in_last_scope s n = true -> in_any_scope s n = true.
Proof.
  rewrite <- in_last_iff, <- in_any_iff. unfold in_last, in_any. intros Hn. destruct (last (declared (deep s))) as [X|] eqn:El.
  - apply Exists_exists. exists X. split; [|done]. rewrite list_elem_of_lookup. eexists. by rewrite <- last_lookup.
  - cbn in Hn. set_solver.
Qed.

Lemma localvar_unset_ignoreeof st o b :
  option_value st (set_shopt (bs "ignoreeof") b o) (bs "localvar_unset") = option_value st o (bs "localvar_unset").
Proof.
  unfold option_value, shopt_or, set_shopt. cbn [shopt_options flags]. rewrite lookup_insert_ne by done. done.
Qed.

(** [unset] in an inner function: the binding of the scope found is dropped. *)
Lemma drop_deep s s1 n idx : local_scopes s1 = local_scopes s -> (forall x, snapshot_var s1 x = snapshot_var s x) ->
  scope_rposition n (local_scopes s) = Some idx ->
  exists g, (scope ← local_scopes s !! idx; scope !! n) = Some g
    /\ drop_binding n (deep s) (deep (sync_export_env n (restore_var_snapshot (with_scopes (alter (delete n) idx (local_scopes s)) s1) n g))).
Proof.
  intros Hsc Hsn Er. destruct (scope_rposition_spec _ _ _ Er) as (sc & g & H1 & H2 & H3 & H4 & H5). exists g. rewrite H1.
  split; [done|]. set (s2 := with_scopes _ s1). pose proof (touch_restore n s2 s2 g (touch_refl n s2)) as [_ Ht].
  split; [|split].
  - exists idx, (dom sc). cbn [declared deep]. rewrite sync_scopes, restore_scopes.
    change (local_scopes s2) with (alter (delete n) idx (local_scopes s)).
    rewrite list_lookup_fmap, H1. split; [done|]. split; [by apply elem_of_dom|]. split; [|by apply declared_delete].
    intros j Y Hj. rewrite list_lookup_fmap. destruct (local_scopes s !! j) as [sc'|] eqn:Ej; [|done]. intros [= <-].
    apply not_elem_of_dom. by apply (H3 j).
  - intros x Hx. cbn [bindings deep]. rewrite sync_scopes, restore_scopes, sync_snapshot, Ht by done.
    change (local_scopes s2) with (alter (delete n) idx (local_scopes s)). rewrite H5 by done. do 2 f_equal. apply Hsn.
  - rewrite removelast_bindings. cbn [bindings deep]. rewrite sync_scopes, restore_scopes, sync_snapshot, snapshot_restore. by rewrite H4.
Qed.

Lemma unset_deep s n : deep_step (state_option s "localvar_unset") (VUnset n) (deep s) (deep (unset s n)).
Proof.
  cbn [deep_step]. unfold unset_refused, unset. destruct (one_of n _).
  { split; [intros _; by apply touch_same_deep|]. split; [|split]; intros Hno; by destruct Hno. }
  destruct (unset_dynamic_same n s) as [Hsc Hsn]. split; [done|].
  assert (Hlu : state_option (unset_dynamic n s) "localvar_unset" = state_option s "localvar_unset").
  { unfold unset_dynamic. repeat case_match; try done. unfold state_option. cbn. apply localvar_unset_ignoreeof. }
  assert (Hd : touch n s (unset_dynamic n s)) by auto with touch.
  set (s1 := unset_dynamic n s) in *. rewrite in_last_iff, in_any_iff.
  assert (in_last_scope s1 n = in_last_scope s n) as -> by (unfold in_last_scope; by rewrite Hsc).
  rewrite Hlu, Hsc. unfold in_any_scope. rewrite rposition_any. destruct (in_last_scope s n) eqn:El.
  { split; [intros _ _; eexists; by apply rebind_cleared|]. split; [by intros _ Hno|].
    intros _ Hno. exfalso. apply Hno. apply in_last_any in El. unfold in_any_scope in El. by rewrite rposition_any in El. }
  split; [by intros _|]. destruct (scope_rposition n (local_scopes s)) as [idx|] eqn:Er.
  - split; [|intros _ Hno; by destruct Hno]. intros _ _ _. destruct (state_option s "localvar_unset"); [by apply rebind_cleared|].
    by destruct (drop_deep s s1 n idx Hsc Hsn Er) as (g & -> & Hdrop).
  - split; [intros _ _ Hno; by inversion Hno|]. intros _ _. rewrite <- (deleted_snapshot n s1). apply touch_rebind.
    auto 20 with touch.
Qed.

Lemma global_one s n (f : ShellState -> ShellState) :
  (forall s0, touch n s0 (f s0)) -> one_binding (deep s) (deep (global_only s n f)).
Proof. intros Hf. apply with_global_one. intros s0. apply (touch_one n). apply Hf. Qed.

End Ops.
