(* ===== verification/Nameref.v ===== *)
(** Name references of the shell's variables: what [resolve_nameref] finds, how
    assignments follow it, when they end, and the shell state as the
    [Environment] of the expander. *)
From stdpp Require Import gmap relations.
From S2P Require Import Prelude Env ArithEval ArithTerm Utf8 IndexedArray History Options Vars VarsProps.

(** * Resolution *)

(** One step along a name reference that does not refer to itself. *)
Definition refers (s : ShellState) (x y : bytes) : Prop := nameref_of s x = Some y /\ x <> y.

(** Where a chain ends: an ordinary name, or a name that refers to itself. *)
Definition plain_name (s : ShellState) (t : bytes) : Prop := nameref_of s t = None.
Definition self_name (s : ShellState) (t : bytes) : Prop := nameref_of s t = Some t.

Lemma refers_det s x y z : refers s x y -> refers s x z -> y = z.
Proof. intros [H _] [H' _]. congruence. Qed.

Lemma final_stuck s t : plain_name s t \/ self_name s t -> nf (refers s) t.
Proof. intros [H|H] [y [Hy Hne]]; unfold plain_name, self_name in *; congruence. Qed.

(** A name on a cycle reaches no end. *)
Lemma cycle_no_end s k x t j : nsteps (refers s) (S j) x x -> nsteps (refers s) k x t -> nf (refers s) t -> False.
Proof.
  revert k x j. induction k as [|k IH]; intros x j Hc Hk Hnf.
  - inversion Hk; subst. inversion Hc; subst. apply Hnf. by eexists.
  - inversion Hk as [|? ? y ? Hxy Hyt]; subst. inversion Hc as [|? ? y' ? Hxy' Hyx]; subst.
    assert (y' = y) as -> by (by eapply refers_det). apply (IH y j); [|done..].
    eapply nsteps_r; [exact Hyx|done].
Qed.

Lemma seen_elem target seen : existsb (bytes_eqb target) seen = true <-> target ∈ seen.
Proof.
  rewrite existsb_exists. split.
  - intros (x & Hx & Heq). apply bytes_eqb_eq in Heq as <-. by apply list_elem_of_In.
  - intros Hx. exists target. split; [by apply list_elem_of_In|]. by apply bytes_eqb_eq.
Qed.

(** [resolve_loop] follows the chain; [seen] are names that lead to [cur]. *)
Lemma resolve_loop_spec s n cur seen t :
  (forall x, x ∈ seen -> exists j, nsteps (refers s) j x cur) ->
  resolve_loop n s cur seen = Some t <->
    (exists k, (k <= n)%nat /\ (0 < n)%nat /\ nsteps (refers s) k cur t /\ plain_name s t)
    \/ (exists k, (k < n)%nat /\ nsteps (refers s) k cur t /\ self_name s t).
Proof.
  revert cur seen. induction n as [|n IH]; intros cur seen Hseen.
  { cbn. split; [done|]. intros [(k & _ & ? & _)|(k & ? & _)]; lia. }
  cbn [resolve_loop]. destruct (nameref_of s cur) as [target|] eqn:Et.
  2:{ split.
      - intros [= <-]. left. exists 0%nat. repeat split; [lia..|constructor|done].
      - intros [(k & _ & _ & Hk & _)|(k & _ & Hk & _)]; destruct Hk as [|? ? ? ? [Hy _] _]; congruence. }
  destruct (bytes_eqb target cur) eqn:Es.
  { apply bytes_eqb_eq in Es as ->. split.
    - intros [= <-]. right. exists 0%nat. repeat split; [lia|constructor|done].
    - intros [(k & _ & _ & Hk & Ht)|(k & _ & Hk & Ht)]; destruct Hk as [|? ? ? ? [Hy Hne] _]; congruence. }
  assert (Hstep : refers s cur target).
  { split; [done|]. intros ->. by rewrite bytes_eqb_refl in Es. }
  assert (Hfirst : forall k, nsteps (refers s) k cur t -> plain_name s t \/ self_name s t ->
            exists k', k = S k' /\ nsteps (refers s) k' target t).
  { intros k Hk Hf. destruct Hk as [z|k' z w z' Hw Hr].
    - exfalso. by eapply (final_stuck s z Hf), ex_intro.
    - exists k'. split; [done|]. by rewrite (refers_det _ _ _ _ Hstep Hw). }
  destruct (existsb (bytes_eqb target) seen) eqn:Ese.
  { apply seen_elem in Ese. split; [done|]. destruct (Hseen _ Ese) as [j Hj].
    intros [(k & _ & _ & Hk & Ht)|(k & _ & Hk & Ht)].
    - destruct (Hfirst k Hk (or_introl Ht)) as (k' & _ & Hk'). exfalso.
      eapply (cycle_no_end s k' target t j); [by eapply nsteps_r|done|apply final_stuck; auto].
    - destruct (Hfirst k Hk (or_intror Ht)) as (k' & _ & Hk'). exfalso.
      eapply (cycle_no_end s k' target t j); [by eapply nsteps_r|done|apply final_stuck; auto]. }
  case_bool_decide as Hsome; cbn [negb].
  - rewrite IH.
    + split.
      * intros [(k & H1 & H2 & H3 & H4)|(k & H1 & H2 & H3)].
        -- left. exists (S k). repeat split; [lia..|by econstructor|done].
        -- right. exists (S k). repeat split; [lia|by econstructor|done].
      * intros [(k & H1 & H2 & H3 & H4)|(k & H1 & H2 & H3)].
        -- destruct (Hfirst k H3 (or_introl H4)) as (k' & -> & Hk'). left. exists k'. repeat split; [lia| |done..].
           destruct k'; [|lia]. inversion Hk'; subst. destruct Hsome as [? Hs]. unfold plain_name in H4. congruence.
        -- destruct (Hfirst k H2 (or_intror H3)) as (k' & -> & Hk'). right. exists k'. repeat split; [lia|done..].
    + intros x [->|Hx]%elem_of_cons; [exists 0%nat; constructor|]. destruct (Hseen x Hx) as [j Hj].
      exists (S j). by eapply nsteps_r.
  - assert (Hp : plain_name s target) by (unfold plain_name; destruct (nameref_of s target); [exfalso; by apply Hsome|done]).
    split.
    + intros [= <-]. left. exists 1%nat. repeat split; [lia..|by eapply nsteps_once|done].
    + intros [(k & _ & _ & Hk & Ht)|(k & _ & Hk & Ht)].
      * destruct (Hfirst k Hk (or_introl Ht)) as (k' & _ & Hk'). inversion Hk' as [|? ? w ? Hw _]; subst; [done|].
        exfalso. eapply (final_stuck s target); [by left|]. by exists w.
      * destruct (Hfirst k Hk (or_intror Ht)) as (k' & _ & Hk'). inversion Hk' as [|? ? w ? Hw _]; subst; [done|].
        exfalso. eapply (final_stuck s target); [by left|]. by exists w.
Qed.

(** C40: [resolve_nameref] answers exactly the end of the chain of name references: an ordinary
    name at most eight steps away, or a name that refers to itself at most seven steps away; it
    fails on every longer or circular chain. *)
Theorem resolve_nameref_correct (s : ShellState) (name t : bytes) :
  resolve_nameref s name = Some t <->
    (exists k, (k <= STATE_NAMEREF_MAX_DEPTH)%nat /\ nsteps (refers s) k name t /\ plain_name s t)
    \/ (exists k, (k < STATE_NAMEREF_MAX_DEPTH)%nat /\ nsteps (refers s) k name t /\ self_name s t).
Proof.
  unfold resolve_nameref. rewrite resolve_loop_spec.
  - unfold STATE_NAMEREF_MAX_DEPTH. split; intros [(k & Hk)|(k & Hk)]; [left|right|left|right]; exists k; intuition lia.
  - intros x [->|Hx]%elem_of_cons; [exists 0%nat; constructor|by apply elem_of_nil in Hx].
Qed.

Lemma resolve_loop_end s n name seen t : resolve_loop n s name seen = Some t -> plain_name s t \/ self_name s t.
Proof.
  revert name seen. induction n as [|n IH]; intros name seen; [done|]. cbn [resolve_loop].
  destruct (nameref_of s name) as [u|] eqn:Eu; [|intros [= <-]; by left].
  destruct (bytes_eqb u name) eqn:Eq; [apply bytes_eqb_eq in Eq as ->; intros [= <-]; by right|].
  destruct (existsb _ seen); [done|]. case_bool_decide as Hs; [apply IH|]. intros [= <-]. left.
  unfold plain_name. destruct (nameref_of s u); [exfalso; by apply Hs|done].
Qed.

Lemma resolve_final s name t : resolve_nameref s name = Some t -> resolve_nameref s t = Some t.
Proof.
  intros Hr. unfold resolve_nameref, STATE_NAMEREF_MAX_DEPTH in *. apply resolve_loop_end in Hr.
  unfold plain_name, self_name in Hr. cbn [resolve_loop]. destruct Hr as [->| ->]; [done|]. by rewrite bytes_eqb_refl.
Qed.

(** * Assignments end *)

(** No variable hidden by a scope refers to itself. *)
Definition globals_grounded (s : ShellState) : Prop :=
  forall x g, global_saved_snapshot s x = Some g -> sv_nameref g <> Some x.

Lemma nameref_restore s n g x :
  nameref_of (restore_var_snapshot s n g) x = if decide (x = n) then sv_nameref g else nameref_of s x.
Proof.
  unfold restore_var_snapshot, nameref_of. destruct g as [[] [] [] []]; cbn; destruct (decide (x = n)) as [->|Hx];
    rewrite ?lookup_insert_eq, ?lookup_delete_eq, ?lookup_insert_ne, ?lookup_delete_ne by congruence; done.
Qed.

Lemma grounded_scopes s s' : local_scopes s' = local_scopes s -> globals_grounded s -> globals_grounded s'.
Proof. intros Hs Hg x g. unfold global_saved_snapshot, global_scope_index. rewrite Hs. apply Hg. Qed.

Lemma self_namerefs_restore s n g : nameref_of s n = Some n -> sv_nameref g <> Some n ->
  self_namerefs s = S (self_namerefs (restore_var_snapshot s n g)).
Proof.
  intros Hn Hg. unfold self_namerefs. set (m := filter _ (nameref_targets (store s))).
  assert (Hm : m !! n = Some n) by (by apply map_lookup_filter_Some).
  rewrite <- (insert_delete_id m n n Hm), map_size_insert_None by apply lookup_delete_eq.
  f_equal. f_equal. apply map_eq. intros x. apply option_eq. intros y. unfold m.
  rewrite lookup_delete_Some, !map_lookup_filter_Some. cbn.
  pose proof (nameref_restore s n g x) as Hx. unfold nameref_of in Hx. rewrite Hx.
  destruct (decide (x = n)) as [->|Hne]; naive_solver.
Qed.

Section Assign.
Context `{System} `{Casing}.

Lemma target_not_fuel rec s source target v : (state_array_reference target = None -> (rec s target v).1 <> Fuel) ->
  (assign_nameref_target rec s source target v).1 <> Fuel.
Proof.
  intros Hrec. unfold assign_nameref_target. destruct (state_array_reference target) as [[n sub]|]; [by repeat case_match|].
  case_match; [auto|done].
Qed.

Lemma with_global_not_fuel s n (f : ShellState -> AssignResult) idx g : global_scope_index s n = Some idx ->
  global_saved_snapshot s n = Some g -> (f (restore_var_snapshot s n g)).1 <> Fuel -> (with_global_var s n f).1 <> Fuel.
Proof.
  intros Hi Hg Hf. unfold global_saved_snapshot in Hg. rewrite Hi in Hg. cbn in Hg.
  unfold with_global_var. rewrite Hi. cbn. rewrite Hg. cbn. by destruct (f _).
Qed.

Lemma global_index_saved s n idx : global_scope_index s n = Some idx -> is_Some (global_saved_snapshot s n).
Proof.
  intros Hi. unfold global_saved_snapshot. rewrite Hi. cbn. destruct (scope_position_spec _ _ _ Hi) as (g & _ & _ & Hg & _).
  by exists g.
Qed.

(** One call on a name that is not a chain, or that leaves through the global
    variable, and one on a name at the start of a chain. *)
Lemma assign_not_fuel fuel s n v : globals_grounded s ->
  ((2 * self_namerefs s + 1 <= fuel)%nat -> plain_name s n \/ self_name s n -> (assign fuel s n v).1 <> Fuel)
  /\ ((2 * self_namerefs s + 2 <= fuel)%nat -> (assign fuel s n v).1 <> Fuel).
Proof.
  revert s n v. induction fuel as [|fuel IH]; intros s n v Hg; [split; lia|]. cbn [assign].
  assert (Hspec : forall r, assign_special s n v = Some r -> r.1 <> Fuel).
  { unfold assign_special. intros r Hr. by repeat case_match; simplify_eq. }
  destruct (assign_special s n v) as [r|] eqn:Es; [by split; intros; apply Hspec|]. clear Hspec.
  destruct (_ && negb (xtrace_fd_value_is_valid v)); [done|]. destruct (_ && one_of n _); [done|].
  destruct (match entry_of s n with Some _ => _ | None => _ end); [done|].
  assert (Hval : (assign_value s n v).1 <> Fuel) by (unfold assign_value; by repeat case_match).
  destruct (attr_contains _ NAMEREF); [|done].
  destruct (nameref_of s n) as [u|] eqn:Eu; [|unfold assign_new_nameref; by repeat case_match].
  case_bool_decide as Hself.
  - unfold local_self_nameref_target in Hself. rewrite Eu in Hself. cbn in Hself.
    destruct (bytes_eqb u n) eqn:Eq; [|by destruct Hself]. apply bytes_eqb_eq in Eq as ->. cbn in Hself.
    case_bool_decide as Hi; [|by destruct Hself]. destruct Hi as [idx Hi].
    destruct (global_index_saved s n idx Hi) as [g Hgs].
    assert (Hlt : self_namerefs s = S (self_namerefs (restore_var_snapshot (warn (WMaxDepth n) s) n g))).
    { apply (self_namerefs_restore (warn (WMaxDepth n) s)); [done|by apply Hg]. }
    assert (Hend : (2 * self_namerefs s + 1 <= S fuel)%nat ->
      (with_global_var (warn (WMaxDepth n) s) n (fun s => assign_nameref_target (assign fuel) s n n v)).1 <> Fuel).
    { intros Hf. eapply with_global_not_fuel; [exact Hi|exact Hgs|]. apply target_not_fuel. intros _. apply IH.
      - eapply grounded_scopes; [|exact Hg]. by rewrite restore_scopes.
      - lia. }
    split; intros; apply Hend; lia.
  - split.
    + intros Hf Hn. destruct Hn as [Hn|Hn]; [unfold plain_name in Hn; congruence|]. unfold self_name in Hn.
      unfold resolve_nameref, STATE_NAMEREF_MAX_DEPTH. cbn [resolve_loop]. rewrite Hn, bytes_eqb_refl. by rewrite bytes_eqb_refl.
    + intros Hf. destruct (resolve_nameref s n) as [t|] eqn:Er; [|done]. destruct (negb _); [|done].
      apply target_not_fuel. intros _. apply (proj1 (IH s t v Hg)); [lia|]. by eapply resolve_loop_end.
Qed.

(** an assignment ends: unless a function scope hides a variable whose
    hidden value is a name reference to itself, [assign] answers, whatever name
    references it has to follow and however often it has to leave a local
    variable for the global one. *)
Theorem assignment_ends (s : ShellState) (name v : bytes) :
  globals_grounded s -> (var_assign s name v).1 <> Fuel.
Proof. intros Hg. apply assign_not_fuel; [done|]. unfold assign_depth. lia. Qed.

(** * Ordinary names *)

Lemma find_byte_none (p : Z -> bool) c l : p c = false -> forallb p l = true -> find_byte c l = None.
Proof.
  intros Hc. induction l as [|b l IH]; [done|]. cbn. intros [Hb Hl]%andb_true_iff. destruct (Z.eqb_spec b c); [congruence|].
  by rewrite IH.
Qed.

Lemma valid_name_no_reference n : state_valid_name n = true -> state_array_reference n = None.
Proof.
  intros Hn. unfold state_array_reference.
  rewrite (find_byte_none (fun c => (c =? "_"%b) || is_ascii_alphanumeric c)); [done|done|].
  destruct n as [|c r]; [done|]. cbn in *. apply andb_true_iff in Hn as [Hc Hr]. rewrite Hr, andb_true_r.
  unfold is_ascii_alphanumeric. destruct (c =? "_"%b); [done|]. cbn in *. by rewrite Hc.
Qed.

(** The names the shell computes or treats specially, whatever its state. *)
Definition special_names : list string :=
  ["BASH_ARGC"; "BASH_ARGV"; "BASH_LINENO"; "BASH_SOURCE"; "FUNCNAME"; "?"; "#"; "$"; "!"; "-"; "SHELLOPTS"; "BASHOPTS";
   "BASHPID"; "BASH_ARGV0"; "BASH_COMMAND"; "BASH_SUBSHELL"; "BASH_TRAPSIG"; "LINENO"; "HISTCMD"; "SECONDS"; "EPOCHSECONDS";
   "EPOCHREALTIME"; "BASH_MONOSECONDS"; "RANDOM"; "SRANDOM"; "GROUPS"; "BASH_XTRACEFD"; "DIRSTACK"; "BASH_ALIASES";
   "BASH_CMDS"]%string.

Definition ordinary (n : bytes) : bool := negb (one_of n special_names) && negb (bool_decide (is_Some (parse_u64 n))).

Lemma ordinary_is n name : ordinary n = true -> bool_decide (name ∈ special_names) = true -> name_is n name = false.
Proof.
  unfold ordinary, one_of. intros [Hs _]%andb_true_iff Hin%bool_decide_eq_true. apply negb_true_iff in Hs. destruct (name_is n name) eqn:E; [|done].
  assert (existsb (fun m => bytes_eqb n (bs m)) special_names = true); [|congruence].
  apply existsb_exists. exists name. split; [by apply list_elem_of_In|done].
Qed.

Lemma ordinary_one_of n l : ordinary n = true -> forallb (fun m => bool_decide (m ∈ special_names)) l = true -> one_of n l = false.
Proof.
  intros Hn. induction l as [|m l IH]; [done|]. cbn [forallb]. intros [Hm Hl]%andb_true_iff.
  unfold one_of in *. cbn [existsb]. rewrite IH by done.
  pose proof (ordinary_is n m Hn Hm) as E. unfold name_is in E. by rewrite E.
Qed.

Lemma ordinary_get_special s n : ordinary n = true -> get_special s n = None.
Proof.
  intros Hn. unfold get_special, stack_array_name. rewrite (ordinary_one_of n _ Hn) by (by vm_compute).
  rewrite !(ordinary_is n _ Hn) by (by vm_compute). done.
Qed.

Lemma ordinary_assign_special s n v : ordinary n = true -> assign_special s n v = None.
Proof.
  intros Hn. unfold assign_special. rewrite (ordinary_one_of n _ Hn) by (by vm_compute).
  rewrite !(ordinary_is n _ Hn) by (by vm_compute). done.
Qed.

Definition entry_is_readonly (s : ShellState) (n : bytes) : bool :=
  match entry_of s n with Some e => attr_contains (attrs e) READONLY || readonly e | None => false end.

Lemma is_readonly_ordinary s n : ordinary n = true ->
  is_readonly s n = flags (options s) Restricted && one_of n ["PATH"; "SHELL"]%string || entry_is_readonly s n.
Proof.
  intros Hn. unfold is_readonly, entry_is_readonly. rewrite (ordinary_one_of n ["BASHOPTS"; "SHELLOPTS"]%string Hn) by done.
  destruct (entry_of s n); [|done]. by rewrite (orb_comm (readonly _)).
Qed.

(** [assign] on an ordinary name. *)
Lemma assign_ordinary fuel s n v : ordinary n = true ->
  assign (S fuel) s n v =
    if is_readonly s n then (Err (ReadOnly n), s)
    else if attr_contains (entry_attrs (entry_of s n)) NAMEREF then
      match nameref_of s n with
      | None => assign_new_nameref s n v
      | Some _ =>
          if bool_decide (is_Some (local_self_nameref_target s n)) then
            with_global_var (warn (WMaxDepth n) s) n (fun s => assign_nameref_target (assign fuel) s n n v)
          else
            match resolve_nameref s n with
            | None => (Err (CircularNameReference n), warn (WCircular n) s)
            | Some t => if negb (bytes_eqb t n) then assign_nameref_target (assign fuel) s n t v else assign_value s n v
            end
      end
    else assign_value s n v.
Proof.
  intros Hn. cbn [assign]. rewrite ordinary_assign_special, is_readonly_ordinary by done.
  rewrite (ordinary_is n "BASH_XTRACEFD" Hn) by (by vm_compute). cbn [andb].
  fold (entry_is_readonly s n). destruct (_ && one_of n _); [done|]. by destruct (entry_is_readonly s n).
Qed.

(** an assignment to a readonly variable is refused with the error that
    names it, and changes nothing. *)
Theorem readonly_assignment_refused (s : ShellState) (n v : bytes) :
  ordinary n = true -> is_readonly s n = true -> var_assign s n v = (Err (ReadOnly n), s).
Proof.
  intros Hn Hr. unfold var_assign, assign_depth. rewrite Nat.add_comm. cbn [Nat.add]. by rewrite assign_ordinary, Hr.
Qed.

(** A name that is no name reference is assigned in one call. *)
Lemma assign_direct fuel s n v : ordinary n = true -> attr_contains (entry_attrs (entry_of s n)) NAMEREF = false ->
  assign (S fuel) s n v = if is_readonly s n then (Err (ReadOnly n), s) else assign_value s n v.
Proof. intros Hn Ha. by rewrite assign_ordinary, Ha. Qed.

(** an assignment to a name reference is the assignment to the variable at
    the end of its chain: same result, same state. *)
Theorem assignment_follows_nameref (s : ShellState) (n t v : bytes) :
  ordinary n = true -> is_readonly s n = false -> attr_contains (entry_attrs (entry_of s n)) NAMEREF = true ->
  resolve_nameref s n = Some t -> t <> n ->
  ordinary t = true -> state_valid_name t = true -> attr_contains (entry_attrs (entry_of s t)) NAMEREF = false ->
  var_assign s n v = var_assign s t v.
Proof.
  intros Hn Hr Ha Hres Hne Ht Hv Hat. unfold var_assign. set (d := (2 * self_namerefs s)%nat).
  replace (assign_depth s) with (S (S d)) by (unfold assign_depth; lia).
  rewrite assign_ordinary, Hr, Ha by done. destruct (nameref_of s n) as [u|] eqn:Eu.
  2:{ unfold resolve_nameref, STATE_NAMEREF_MAX_DEPTH in Hres. cbn in Hres. rewrite Eu in Hres. congruence. }
  rewrite bool_decide_eq_false_2.
  2:{ unfold local_self_nameref_target. rewrite Eu. cbn. destruct (bytes_eqb u n) eqn:Eq; [|by intros []].
      apply bytes_eqb_eq in Eq as ->. unfold resolve_nameref, STATE_NAMEREF_MAX_DEPTH in Hres. cbn in Hres.
      rewrite Eu, bytes_eqb_refl in Hres. congruence. }
  rewrite Hres. destruct (bytes_eqb t n) eqn:Eq; [apply bytes_eqb_eq in Eq; congruence|]. cbn [negb].
  unfold assign_nameref_target. rewrite valid_name_no_reference, Hv by done. by rewrite !assign_direct.
Qed.

(** * Self references hidden by a scope *)

(** A binding that is a name reference to [x] itself, and not readonly. *)
Definition self_reference (x : bytes) (b : SavedVar) : Prop :=
  sv_nameref b = Some x
  /\ exists e, sv_entry b = Some e /\ attr_contains (attrs e) NAMEREF = true
     /\ attr_contains (attrs e) READONLY = false /\ readonly e = false.

(** The visible variable and the one hidden outermost both refer to themselves. *)
Definition hidden_self (s : ShellState) (x : bytes) : Prop :=
  self_reference x (snapshot_var s x)
  /\ exists g, global_saved_snapshot s x = Some g /\ self_reference x g.

Lemma with_global_fuel s n (f : ShellState -> AssignResult) g : global_saved_snapshot s n = Some g ->
  (f (restore_var_snapshot s n g)).1 = Fuel -> (with_global_var s n f).1 = Fuel.
Proof.
  intros Hg Hf. unfold global_saved_snapshot in Hg. unfold with_global_var.
  destruct (global_scope_index s n) as [idx|]; [|done]. cbn in *. rewrite Hg. cbn. by destruct (f _).
Qed.

Lemma restore_options_same s n g : options (restore_var_snapshot s n g) = options s.
Proof. unfold restore_var_snapshot. by destruct g as [[] [] [] []]. Qed.

(** assigning to a local name reference to itself that hides a name
    reference to itself never ends: [assign] answers for no number of nested
    calls.  It leaves the local variable for the global one of the same name,
    and finds itself in the same situation. *)
Theorem hidden_self_reference_diverges (s : ShellState) (x v : bytes) :
  ordinary x = true -> state_valid_name x = true -> flags (options s) Restricted = false -> hidden_self s x ->
  forall fuel, (assign fuel s x v).1 = Fuel.
Proof.
  intros Hn Hv Hopt Hh fuel. revert s Hopt Hh. induction fuel as [|fuel IH]; intros s Hopt ((Hr & e & He & Ha & Hro & Hro') & g & Hg & Hself); [done|].
  cbn in Hr, He. rewrite assign_ordinary, is_readonly_ordinary, Hopt by done. unfold entry_is_readonly. rewrite He, Hro, Hro'.
  cbn [andb orb entry_attrs]. rewrite Ha, Hr. rewrite bool_decide_eq_true_2.
  2:{ unfold local_self_nameref_target. rewrite Hr. cbn. rewrite bytes_eqb_refl. cbn. unfold global_saved_snapshot in Hg.
      destruct (global_scope_index s x); [done|done]. }
  eapply with_global_fuel; [exact Hg|]. unfold assign_nameref_target. rewrite valid_name_no_reference, Hv by done.
  apply IH; [by rewrite restore_options_same|]. split; [by rewrite snapshot_restore|]. exists g. split; [|done].
  unfold global_saved_snapshot, global_scope_index in *. by rewrite restore_scopes.
Qed.

(** * The shell state as an environment *)

Definition plain_scalar (s : ShellState) (n : bytes) : Prop :=
  ordinary n = true
  /\ forallb (fun m => negb (attr_contains (entry_attrs (entry_of s n)) m))
       [INTEGER; UPPERCASE; LOWERCASE; CAPCASE; ARRAY; ASSOC; NAMEREF] = true.

Lemma scalar_assigned (s s' : ShellState) (n v : bytes) :
  plain_scalar s n -> var_assign s n v = (Ok tt, s') ->
  get_cow s' n = (Some v, s')
  /\ entry_attrs (entry_of s' n) = entry_attrs (entry_of s n)
  /\ (var_exported s n = true -> var_exported s' n = true /\ penv s' !! n = Some v).
Proof.
  intros [Hn Ha]. cbn in Ha. rewrite !andb_true_iff, !negb_true_iff in Ha.
  destruct Ha as (Hi & Hu & Hl & Hc & Har & Has & Hnr & _).
  unfold var_assign, assign_depth. rewrite Nat.add_comm. cbn [Nat.add]. rewrite assign_direct by done.
  destruct (is_readonly s n); [done|]. unfold assign_value. rewrite Has, Har. unfold assign_scalar.
  assert (Hcase : apply_case_attrs v (entry_attrs (entry_of s n)) = v) by (unfold apply_case_attrs; by rewrite Hu, Hl, Hc).
  rewrite Hi, Hcase. set (s1 := put_entry n _ s). set (s2 := if name_is n "BASH_COMPAT" then _ else s1).
  set (s3 := apply_history_special_var n v s2). set (s4 := if name_is n "IGNOREEOF" then _ else s3).
  assert (Hst : store s4 = store s1) by (unfold s4, s3, s2, apply_history_special_var; by repeat case_match).
  assert (He : entry_of s4 n = Some (mkEntry v true (entry_exported (entry_of s n)) (entry_readonly (entry_of s n))
                                      (entry_attrs (entry_of s n)))).
  { unfold entry_of at 1. rewrite Hst. apply lookup_insert_eq. }
  intros [= <-]. set (s5 := if entry_exported _ then _ else s4).
  assert (He5 : entry_of s5 n = entry_of s4 n) by (unfold s5; by case_match). rewrite He in He5.
  split; [|split].
  - unfold get_cow. assert (parse_u64 n = None) as ->.
    { unfold ordinary in Hn. apply andb_true_iff in Hn as [_ Hp]. destruct (parse_u64 n); done. }
    rewrite ordinary_get_special by done. unfold get_variable. rewrite He5. cbn [attrs]. by rewrite Hnr.
  - by rewrite He5.
  - unfold var_exported. intros Hx. rewrite He5. split; [done|]. unfold s5. rewrite Hx. cbn. apply lookup_insert_eq.
Qed.

(** a scalar can be read back: after a successful assignment to an ordinary
    variable that has no attribute changing its value, the variable has the value
    assigned, it keeps its attributes, and when it is exported the process
    environment has the value too. *)
Theorem assignment_read_back (s s' : ShellState) (n v : bytes) :
  plain_scalar s n -> var_assign s n v = (Ok tt, s') ->
  get_cow s' n = (Some v, s')
  /\ entry_attrs (entry_of s' n) = entry_attrs (entry_of s n)
  /\ (var_exported s n = true -> var_exported s' n = true /\ penv s' !! n = Some v).
Proof. apply scalar_assigned. Qed.

(** [Environment for ShellState].  Where the recursion of [assign] does not end
    the program has no result; the environment then refuses the assignment. *)
#[export] Instance shell_environment : Environment ShellState := {
  env_get := get_cow;
  env_get_array_indexed := get_array_indexed;
  env_get_array_assoc s n k := (get_array_assoc s n k, s);
  env_kind := var_kind;
  env_attr_nameref s n := attr_contains (var_attrs s n) NAMEREF;
  env_resolve_nameref := resolve_nameref;
  env_is_readonly := is_readonly;
  env_option s n := option_value (startup s) (options s) n;
  env_assign s n v :=
    match var_assign s n v with
    | (Ok _, s') => (None, s')
    | (Err e, s') => (Some e, s')
    | (Fuel, s') => (Some (CircularNameReference n), s')
    end;
  env_set_array_indexed := set_array_indexed;
  env_set_array_assoc := set_array_assoc;
}.

#[export] Instance shell_nameref_final : NamerefFinal ShellState.
Proof. intros s name t Hr _. by eapply resolve_final. Qed.

#[export] Instance shell_scalar_store : ScalarStore ShellState plain_scalar.
Proof.
  intros s s' n v Hp Hv. unfold env_assign, shell_environment in Hv. change (get_cow s' n = (Some v, s')).
  destruct (var_assign s n v) as [[[]|e|] s1] eqn:E; try done. injection Hv as <-.
  by apply (scalar_assigned s s1 n v Hp).
Qed.
End Assign.

(** * A concrete shell *)

Module ShellExample.
#[export] Instance sys : System := {
  getpid := 100; instant_now := 0; elapsed_secs _ := 5; epoch_seconds := 1700000000; epoch_realtime := (1700000000, 42);
  mono_seconds := 7; fd_open fd := (0 <=? fd) && (fd <=? 2); canonicalize p := Some p; current_dir := Some (bs "/") }.

#[export] Instance casing : Casing := {
  str_to_uppercase v := v; str_to_lowercase v := v; char_is_alphabetic := is_ascii_alphabetic;
  char_to_uppercase c := [c]; char_to_lowercase c := [c] }.

Definition empty_shell : ShellState :=
  mkShell (mkStore ∅ ∅ ∅ ∅ ∅) [] [] default_options default_startup ∅
    (mkDyn 0 0 true true true true true true 1 0 1) (mkFrames [] [] [] [] [] [] None [] 1 None)
    (mkTables ∅ ∅ ∅ []) (mkHistVars (hist_new 500) 500 500 0 None false) (mkProcess 0 None None None 0 None)
    [bs "cherubsh"] None [].

(** [x=1; declare -n r=x]. *)
Definition with_ref : ShellState :=
  put_nameref (bs "r") (bs "x") (put_entry (bs "r") (mkEntry (bs "x") true false false NAMEREF)
    (put_entry (bs "x") (mkEntry (bs "1") true true false EXPORT) empty_shell)).

(** [x=x; declare -n x] and, in a function, [local -n x=x]. *)
Definition self_twice : ShellState :=
  let e := mkEntry (bs "x") true false false NAMEREF in
  with_scopes [{[bs "x" := mkSaved (Some e) None None (Some (bs "x"))]}]
    (put_nameref (bs "x") (bs "x") (put_entry (bs "x") e empty_shell)).

(** [readonly y=2]. *)
Definition with_readonly : ShellState := put_entry (bs "y") (mkEntry (bs "2") true false true READONLY) empty_shell.

Lemma assignment_ends_witness : (var_assign with_ref (bs "r") (bs "5")).1 <> Fuel.
Proof. apply assignment_ends. intros x g. vm_compute. done. Defined.

Lemma readonly_assignment_refused_witness :
  var_assign with_readonly (bs "y") (bs "3") = (Err (ReadOnly (bs "y")), with_readonly).
Proof. apply readonly_assignment_refused; vm_compute; reflexivity. Defined.

Lemma assignment_follows_nameref_witness :
  var_assign with_ref (bs "r") (bs "5") = var_assign with_ref (bs "x") (bs "5").
Proof. apply assignment_follows_nameref; try (vm_compute; reflexivity). vm_compute. discriminate. Defined.

Lemma assignment_read_back_witness :
  (get_cow (var_assign with_ref (bs "x") (bs "5")).2 (bs "x")).1 = Some (bs "5")
  /\ penv (var_assign with_ref (bs "x") (bs "5")).2 !! bs "x" = Some (bs "5").
Proof.
  destruct (assignment_read_back with_ref (var_assign with_ref (bs "x") (bs "5")).2 (bs "x") (bs "5")) as (Hg & _ & He).
  - split; vm_compute; reflexivity.
  - vm_compute. reflexivity.
  - split; [by rewrite Hg|]. apply He. vm_compute. reflexivity.
Defined.

Lemma hidden_self_reference_diverges_witness : (assign 100 self_twice (bs "x") (bs "5")).1 = Fuel.
Proof.
  apply hidden_self_reference_diverges; try (vm_compute; reflexivity).
  split; [|eexists; split; [vm_compute; reflexivity|]]; (split; [vm_compute; reflexivity|]);
    eexists; split; try (vm_compute; reflexivity); repeat split; vm_compute; reflexivity.
Defined.
(** [declare -n r='a\[r\]'] leaves a reference that resolves to the element, and
    [$((r))] does not end. *)
Definition with_element_ref : ShellState :=
  put_nameref (bs "r") (bs "a[r]") (put_entry (bs "r") (mkEntry (bs "a[r]") true false false NAMEREF) empty_shell).

Lemma reference_to_element_diverges_witness :
  fst (eval ret 1000 (bs "r") (mkCtx with_element_ref 0 true false 0)) = Fuel.
Proof.
  apply (reference_to_element_diverges ret); try reflexivity; [vm_compute; discriminate|by cbn].
Defined.
End ShellExample.
