(* ===== verification/Umask.v ===== *)
(** The builtin umask (crates/builtins/src/umask.rs): the printers of a mask and
    the symbolic modes, with their meaning as permissions of three classes.

    Symbolic modes mean what they say: the builtin umask refines a function on
    the permissions of the three classes, and reads back what it prints. *)
From S2P Require Import Prelude Utf8 History.

(** * The program *)

(** An argument is the list of its characters. *)

Inductive SymbolicError := SCharacter (c : Z) | SOperator (c : Z).

(** [!mask & 0o777] on [u32]. *)
Definition complement (mask : Z) : Z := Z.land (Z.lnot mask) 511.

Definition format_group (label bits : Z) : list Z :=
  [label; "="%b] ++ (if negb (Z.land bits 4 =? 0) then ["r"%b] else [])
  ++ (if negb (Z.land bits 2 =? 0) then ["w"%b] else [])
  ++ (if negb (Z.land bits 1 =? 0) then ["x"%b] else []).

Definition format_symbolic (mask : Z) : list Z :=
  let allowed := complement mask in
  format_group "u"%b (Z.land (Z.shiftr allowed 6) 7) ++ [","%b]
  ++ format_group "g"%b (Z.land (Z.shiftr allowed 3) 7) ++ [","%b]
  ++ format_group "o"%b (Z.land allowed 7).

(** [format!("{:04o}")]. *)
Fixpoint octal_digits (fuel : nat) (n : Z) : list Z :=
  match fuel with
  | O => []
  | S fuel => if n <? 8 then [48 + n] else octal_digits fuel (n / 8) ++ [48 + n mod 8]
  end.

Definition format_octal (mask : Z) : list Z :=
  let d := octal_digits 11 mask in replicate (4 - length d) "0"%b ++ d.

(** [u32::from_str_radix(_, 8)]. *)
Fixpoint octal_value (acc : Z) (s : list Z) : option Z :=
  match s with
  | [] => Some acc
  | c :: r =>
      match to_digit c 8 with
      | Some d => let acc := acc * 8 + d in if acc <? 2 ^ 32 then octal_value acc r else None
      | None => None
      end
  end.

Definition from_str_radix_8 (s : list Z) : option Z :=
  match s with
  | [] => None
  | "+"%b :: [] => None
  | "+"%b :: r => octal_value 0 r
  | _ => octal_value 0 s
  end.

Definition copy_class_bits (class_bits who : Z) : Z :=
  let bits := if negb (Z.land who 448 =? 0) then Z.shiftl class_bits 6 else 0 in
  let bits := if negb (Z.land who 56 =? 0) then Z.lor bits (Z.shiftl class_bits 3) else bits in
  if negb (Z.land who 7 =? 0) then Z.lor bits class_bits else bits.

Definition symbolic_perm_bits (ch allowed who : Z) : Z + SymbolicError :=
  if ch =? "r"%b then inl 292
  else if ch =? "w"%b then inl 146
  else if ch =? "x"%b then inl 73
  else if ch =? "X"%b then inl (if negb (Z.land allowed 73 =? 0) then 73 else 0)
  else if ch =? "u"%b then inl (copy_class_bits (Z.land (Z.shiftr allowed 6) 7) who)
  else if ch =? "g"%b then inl (copy_class_bits (Z.land (Z.shiftr allowed 3) 7) who)
  else if ch =? "o"%b then inl (copy_class_bits (Z.land allowed 7) who)
  else inr (SCharacter ch).

Definition who_bits (c : Z) : option Z :=
  if c =? "u"%b then Some 448 else if c =? "g"%b then Some 56 else if c =? "o"%b then Some 7
  else if c =? "a"%b then Some 511 else None.

(** The classes before the first operator, and the characters left. *)
Fixpoint read_who (who : Z) (s : list Z) : Z * list Z :=
  match s with
  | c :: r => match who_bits c with Some b => read_who (Z.lor who b) r | None => (who, s) end
  | [] => (who, s)
  end.

Definition is_mode_op (c : Z) : bool := (c =? "+"%b) || (c =? "-"%b) || (c =? "="%b).

(** The permissions up to the next operator. *)
Fixpoint read_perms (perm_bits allowed who : Z) (s : list Z) : (Z * list Z) + SymbolicError :=
  match s with
  | p :: r =>
      if is_mode_op p then inl (perm_bits, s)
      else match symbolic_perm_bits p allowed who with
           | inl b => read_perms (Z.lor perm_bits b) allowed who r
           | inr e => inr e
           end
  | [] => inl (perm_bits, s)
  end.

Definition apply_op (op allowed mask_bits who : Z) : Z :=
  if op =? "+"%b then Z.lor allowed mask_bits
  else if op =? "-"%b then Z.land allowed (Z.lnot mask_bits)
  else Z.lor (Z.land allowed (Z.lnot who)) mask_bits.

(** The operators of one clause; every round takes a character. *)
Fixpoint apply_actions (fuel : nat) (allowed who : Z) (s : list Z) : option (Z + SymbolicError) :=
  match fuel with
  | O => None
  | S fuel =>
      match s with
      | [] => Some (inr (SOperator 0))
      | op :: r =>
          if negb (is_mode_op op) then Some (inr (SOperator op))
          else
            match read_perms 0 allowed who r with
            | inr e => Some (inr e)
            | inl (perm_bits, rest) =>
                let allowed := apply_op op allowed (Z.land perm_bits who) who in
                if is_nil rest then Some (inl allowed) else apply_actions fuel allowed who rest
            end
      end
  end.

Definition apply_clause (allowed : Z) (clause : list Z) : option (Z + SymbolicError) :=
  if is_nil clause then Some (inr (SCharacter 0))
  else
    let '(who, rest) := read_who 0 clause in
    apply_actions (S (length clause)) allowed (if who =? 0 then 511 else who) rest.

Fixpoint apply_clauses (allowed : Z) (clauses : list (list Z)) : option (Z + SymbolicError) :=
  match clauses with
  | [] => Some (inl allowed)
  | c :: r =>
      match apply_clause allowed c with
      | Some (inl allowed) => apply_clauses allowed r
      | x => x
      end
  end.

Definition apply_symbolic (spec : list Z) (current : Z) : option (Z + SymbolicError) :=
  match apply_clauses (complement current) (split_on ","%b spec) with
  | Some (inl allowed) => Some (inl (complement allowed))
  | x => x
  end.

(** ** The builtin *)

(** What [run] prints, beside its status and the mask it leaves. *)
Inductive UmaskOut :=
| UNothing
| UPrint (text : list Z)
| UInvalidOption (c : Z)
| UOutOfRange (arg : list Z)
| UInvalidCharacter (c : Z)
| UInvalidOperator (c : Z).

Fixpoint umask_options (args : list (list Z)) (print_form symbolic : bool)
    : (bool * bool * list (list Z)) + Z :=
  match args with
  | [] => inl (print_form, symbolic, [])
  | arg :: rest =>
      if bytes_eqb arg (bs "--") then inl (print_form, symbolic, rest)
      else if bytes_eqb arg (bs "-p") then umask_options rest true symbolic
      else if bytes_eqb arg (bs "-S") then umask_options rest print_form true
      else if starts_with (bs "-") arg && (2 <? length arg)%nat
              && forallb (fun c => (c =? "p"%b) || (c =? "S"%b)) (drop 1 arg) then
        umask_options rest (print_form || existsb (Z.eqb "p"%b) (drop 1 arg))
                           (symbolic || existsb (Z.eqb "S"%b) (drop 1 arg))
      else if starts_with (bs "-") arg && negb (bytes_eqb arg (bs "-")) then
        inr (default "-"%b (arg !! 1%nat))
      else inl (print_form, symbolic, args)
  end.

Definition umask_run (args : list (list Z)) (mask : Z) : option (Z * UmaskOut * Z) :=
  match umask_options args false false with
  | inr c => Some (2, UInvalidOption c, mask)
  | inl (print_form, symbolic, rest) =>
      match rest with
      | [] =>
          let text := if symbolic then format_symbolic mask else format_octal mask in
          let prefix := if print_form then (if symbolic then bs "umask -S " else bs "umask ") else [] in
          Some (0, UPrint (prefix ++ text), mask)
      | arg :: _ =>
          match from_str_radix_8 arg with
          | Some m => if 511 <? m then Some (1, UOutOfRange arg, mask) else Some (0, UNothing, m)
          | None =>
              if forallb is_ascii_digit arg then Some (1, UOutOfRange arg, mask)
              else
                match apply_symbolic arg mask with
                | Some (inl m) => Some (0, UNothing, m)
                | Some (inr (SCharacter c)) => Some (1, UInvalidCharacter c, mask)
                | Some (inr (SOperator c)) => Some (1, UInvalidOperator c, mask)
                | None => None
                end
          end
      end
  end.

Example umask_ex1 : umask_run [bs "-S"] 18 = Some (0, UPrint (bs "u=rwx,g=rx,o=rx"), 18).
Proof. vm_compute. reflexivity. Qed.
Example umask_ex2 : umask_run [bs "g-w,o="] 0 = Some (0, UNothing, 23).
Proof. vm_compute. reflexivity. Qed.
Example umask_ex3 : umask_run [bs "a=rX,u+w=g"] 63 = Some (0, UNothing, 146).
Proof. vm_compute. reflexivity. Qed.
Example umask_ex4 : umask_run [bs "-pS"] 18 = Some (0, UPrint (bs "umask -S u=rwx,g=rx,o=rx"), 18).
Proof. vm_compute. reflexivity. Qed.

(** * Permissions *)

Inductive uclass := CUser | CGroup | COther.
Inductive perm := PRead | PWrite | PExec.

Definition perms : Type := uclass -> perm -> bool.

(** The bit of a permission in a mode. *)
Definition bit (c : uclass) (p : perm) : Z :=
  match c with CUser => 6 | CGroup => 3 | COther => 0 end + match p with PRead => 2 | PWrite => 1 | PExec => 0 end.

Definition allows (allowed : Z) (v : perms) : Prop := forall c p, Z.testbit allowed (bit c p) = v c p.

(** * Symbolic modes *)

Inductive who := WUser | WGroup | WOther | WAll.
Inductive mode_op := MAdd | MRemove | MSet.
Inductive mode_item := IRead | IWrite | IExec | IExecIf | ICopy (c : uclass).

Record mode_clause := mkClause {
  c_who : list who;
  c_first : mode_op * list mode_item;
  c_rest : list (mode_op * list mode_item);
}.

Definition who_char (w : who) : Z := match w with WUser => "u"%b | WGroup => "g"%b | WOther => "o"%b | WAll => "a"%b end.
Definition op_char (o : mode_op) : Z := match o with MAdd => "+"%b | MRemove => "-"%b | MSet => "="%b end.
Definition item_char (i : mode_item) : Z :=
  match i with
  | IRead => "r"%b | IWrite => "w"%b | IExec => "x"%b | IExecIf => "X"%b
  | ICopy CUser => "u"%b | ICopy CGroup => "g"%b | ICopy COther => "o"%b
  end.
Definition action_text (a : mode_op * list mode_item) : list Z := op_char a.1 :: map item_char a.2.
Definition clause_text (c : mode_clause) : list Z :=
  map who_char (c_who c) ++ action_text (c_first c) ++ concat (map action_text (c_rest c)).

Fixpoint mode_text (c : mode_clause) (cs : list mode_clause) : list Z :=
  match cs with [] => clause_text c | d :: cs => clause_text c ++ ","%b :: mode_text d cs end.

(** ** Their meaning *)

Definition class_eqb (a b : uclass) : bool :=
  match a, b with CUser, CUser | CGroup, CGroup | COther, COther => true | _, _ => false end.

Definition in_who (l : list who) (c : uclass) : bool :=
  is_nil l || existsb (fun w => match w with
                                | WAll => true
                                | WUser => class_eqb c CUser
                                | WGroup => class_eqb c CGroup
                                | WOther => class_eqb c COther
                                end) l.

Definition item_grants (v : perms) (i : mode_item) (p : perm) : bool :=
  match i, p with
  | IRead, PRead | IWrite, PWrite | IExec, PExec => true
  | IExecIf, PExec => v CUser PExec || v CGroup PExec || v COther PExec
  | ICopy c, _ => v c p
  | _, _ => false
  end.

Definition act (l : list who) (v : perms) (a : mode_op * list mode_item) : perms := fun c p =>
  let granted := existsb (fun i => item_grants v i p) a.2 in
  if in_who l c then
    match a.1 with MAdd => v c p || granted | MRemove => v c p && negb granted | MSet => granted end
  else v c p.

Definition clause_means (v : perms) (c : mode_clause) : perms := fold_left (act (c_who c)) (c_first c :: c_rest c) v.

(** * Bits *)

Lemma bit_range c p : 0 <= bit c p < 9.
Proof. unfold bit. destruct c, p; lia. Qed.

Lemma testbit_complement m c p : Z.testbit (complement m) (bit c p) = negb (Z.testbit m (bit c p)).
Proof.
  unfold complement. pose proof (bit_range c p). rewrite Z.land_spec, Z.lnot_spec by lia.
  destruct c, p; cbn [bit]; rewrite andb_true_r; done.
Qed.

Lemma complement_range m : 0 <= complement m < 512.
Proof.
  unfold complement. change 511 with (Z.ones 9). rewrite Z.land_ones by lia. apply Z.mod_pos_bound. lia.
Qed.

Lemma exec_bits a : negb (Z.land a 73 =? 0) = Z.testbit a 6 || Z.testbit a 3 || Z.testbit a 0.
Proof.
  assert (H : Z.land a 73 = Z.lor (Z.lor (Z.shiftl (Z.b2z (Z.testbit a 6)) 6) (Z.shiftl (Z.b2z (Z.testbit a 3)) 3)) (Z.b2z (Z.testbit a 0))).
  { apply Z.bits_inj'. intros n Hn. rewrite Z.land_spec, !Z.lor_spec, !Z.shiftl_spec by lia.
    destruct (decide (n < 7)) as [Hlt|Hge].
    - assert (Hc : n = 0 \/ n = 1 \/ n = 2 \/ n = 3 \/ n = 4 \/ n = 5 \/ n = 6) by lia.
      destruct Hc as [->|[->|[->|[->|[->|[->| ->]]]]]]; cbn -[Z.testbit Z.b2z];
        rewrite ?Z.b2z_bit0; destruct (Z.testbit a 0), (Z.testbit a 3), (Z.testbit a 6); rewrite ?andb_true_r, ?andb_false_r; try reflexivity;
        by destruct (Z.testbit a _).
    - rewrite (Z.bits_above_log2 73) by (cbn; lia). rewrite andb_false_r. symmetry.
      rewrite !(fun b m => Z.bits_above_log2 (Z.b2z b) m) by (try destruct (Z.testbit a _); cbn; lia). done. }
  rewrite H. by destruct (Z.testbit a 6), (Z.testbit a 3), (Z.testbit a 0).
Qed.

(** * The classes of a clause *)

Definition class_mask (u g o : bool) : Z :=
  Z.lor (Z.lor (if u then 448 else 0) (if g then 56 else 0)) (if o then 7 else 0).

Definition among (u g o : bool) (c : uclass) : bool := match c with CUser => u | CGroup => g | COther => o end.

Lemma class_mask_bit u g o c p : Z.testbit (class_mask u g o) (bit c p) = among u g o c.
Proof. by destruct u, g, o, c, p. Qed.

Definition names (l : list who) (c : uclass) : bool :=
  existsb (fun w => match w with
                    | WAll => true
                    | WUser => class_eqb c CUser
                    | WGroup => class_eqb c CGroup
                    | WOther => class_eqb c COther
                    end) l.

Definition starts_op (s : list Z) : Prop := match s with c :: _ => is_mode_op c = true | [] => True end.

Lemma read_who_text l u g o rest : starts_op rest ->
  read_who (class_mask u g o) (map who_char l ++ rest)
  = (class_mask (u || names l CUser) (g || names l CGroup) (o || names l COther), rest).
Proof.
  intros Hr. revert u g o. induction l as [|w l IH]; intros u g o; cbn [map app read_who].
  - cbn [names existsb]. rewrite !orb_false_r. destruct rest as [|c r]; [done|]. cbn in Hr. unfold is_mode_op in Hr.
    assert (who_bits c = None) as H; [|cbn [read_who]; by rewrite H].
    unfold who_bits. destruct (Z.eqb_spec c "+"%b) as [->|]; [done|]. destruct (Z.eqb_spec c "-"%b) as [->|]; [done|].
    by destruct (Z.eqb_spec c "="%b) as [->|].
  - cbn [names existsb]. rewrite !orb_assoc.
    destruct w; cbn [who_char who_bits Z.eqb Pos.eqb class_eqb]; rewrite <- IH; f_equal; by destruct u, g, o.
Qed.

(** * Permissions of an action *)

Lemma copy_class_mask x u g o n : 0 <= n ->
  Z.testbit (copy_class_bits x (class_mask u g o)) n
  = u && Z.testbit x (n - 6) || g && Z.testbit x (n - 3) || o && Z.testbit x n.
Proof.
  intros Hn. unfold copy_class_bits.
  assert (negb (Z.land (class_mask u g o) 448 =? 0) = u) as -> by (by destruct u, g, o).
  assert (negb (Z.land (class_mask u g o) 56 =? 0) = g) as -> by (by destruct u, g, o).
  assert (negb (Z.land (class_mask u g o) 7 =? 0) = o) as -> by (by destruct u, g, o).
  destruct u, g, o; rewrite ?Z.lor_spec, ?Z.shiftl_spec, ?Z.testbit_0_l, ?orb_false_r by done; done.
Qed.

Lemma low_bits k n : Z.testbit (Z.land k 7) n = (0 <=? n) && (n <? 3) && Z.testbit k n.
Proof.
  destruct (Z.leb_spec 0 n); [|by rewrite Z.testbit_neg_r by lia].
  change 7 with (Z.ones 3). rewrite Z.land_spec, Z.testbit_ones by lia. rewrite (proj2 (Z.leb_le 0 n)) by done.
  apply andb_comm.
Qed.

Lemma copy_bit k u g o c p : among u g o c = true ->
  Z.testbit (copy_class_bits (Z.land k 7) (class_mask u g o)) (bit c p)
  = Z.testbit k (match p with PRead => 2 | PWrite => 1 | PExec => 0 end).
Proof.
  intros Hc. pose proof (bit_range c p). rewrite copy_class_mask, !low_bits by lia.
  destruct c, p; cbn in Hc; rewrite Hc; cbn -[Z.testbit]; rewrite ?andb_false_r, ?orb_false_r; done.
Qed.

Lemma item_bit i allowed v u g o : allows allowed v ->
  exists b, symbolic_perm_bits (item_char i) allowed (class_mask u g o) = inl b
  /\ forall c p, among u g o c = true -> Z.testbit b (bit c p) = item_grants v i p.
Proof.
  intros Hv. destruct i as [| | | |k]; try (eexists; split; [reflexivity|]; intros c p _; by destruct c, p).
  - eexists. split; [reflexivity|]. intros c p _. rewrite exec_bits.
    rewrite (Hv CUser PExec : Z.testbit allowed 6 = _), (Hv CGroup PExec : Z.testbit allowed 3 = _), (Hv COther PExec : Z.testbit allowed 0 = _).
    cbn. destruct (v CUser PExec || v CGroup PExec || v COther PExec), c, p; done.
  - destruct k; (eexists; split; [reflexivity|]); intros c p Hc; rewrite copy_bit by done; cbn [item_grants];
      rewrite <- Hv; destruct p; rewrite ?Z.shiftr_spec by lia; done.
Qed.

Lemma item_not_op i : is_mode_op (item_char i) = false.
Proof. by destruct i as [| | | |[]]. Qed.

Lemma read_perms_text items acc allowed v u g o rest : allows allowed v -> starts_op rest ->
  exists b, read_perms acc allowed (class_mask u g o) (map item_char items ++ rest) = inl (b, rest)
  /\ forall c p, among u g o c = true -> Z.testbit b (bit c p) = Z.testbit acc (bit c p) || existsb (fun i => item_grants v i p) items.
Proof.
  intros Hv Hr. revert acc. induction items as [|i items IH]; intros acc; cbn [map app].
  - exists acc. split; [|intros; by rewrite orb_false_r]. destruct rest as [|c r]; [done|]. cbn in Hr. cbn [read_perms]. by rewrite Hr.
  - cbn [read_perms]. rewrite item_not_op. destruct (item_bit i allowed v u g o Hv) as (b & -> & Hb).
    destruct (IH (Z.lor acc b)) as (b' & -> & Hb'). exists b'. split; [done|]. intros c p Hc.
    rewrite Hb', Z.lor_spec, Hb by done. cbn [existsb]. by rewrite orb_assoc.
Qed.

(** * Actions, clauses and modes *)

Lemma act_ext l v v' a : (forall c p, v c p = v' c p) -> forall c p, act l v a c p = act l v' a c p.
Proof.
  intros Hv c p. unfold act. assert (existsb (fun i => item_grants v i p) a.2 = existsb (fun i => item_grants v' i p) a.2) as ->.
  { induction a.2 as [|i items IH]; [done|]. cbn [existsb]. rewrite IH. f_equal. destruct i, p; cbn; rewrite ?Hv; done. }
  by rewrite Hv.
Qed.

(** The classes a clause names; all of them when it names none. *)
Definition clause_classes (l : list who) : Z :=
  class_mask (in_who l CUser) (in_who l CGroup) (in_who l COther).

Lemma among_in_who l c : among (in_who l CUser) (in_who l CGroup) (in_who l COther) c = in_who l c.
Proof. by destruct c. Qed.

Lemma who_default l :
  let w := class_mask (names l CUser) (names l CGroup) (names l COther) in
  (if w =? 0 then 511 else w) = clause_classes l.
Proof.
  unfold clause_classes, in_who. destruct l as [|w l]; [done|]. cbn [is_nil orb]. unfold names. cbn [existsb].
  destruct w; cbn [class_eqb orb]; (destruct (existsb _ l), (existsb _ l), (existsb _ l) || idtac);
  repeat match goal with |- context [existsb ?f l] => destruct (existsb f l) end; done.
Qed.

Lemma op_text_step o items l allowed v rest : allows allowed v -> starts_op rest ->
  exists b, read_perms 0 allowed (clause_classes l) (map item_char items ++ rest) = inl (b, rest)
  /\ allows (apply_op (op_char o) allowed (Z.land b (clause_classes l)) (clause_classes l)) (act l v (o, items)).
Proof.
  intros Hv Hr. destruct (read_perms_text items 0 allowed v (in_who l CUser) (in_who l CGroup) (in_who l COther) rest Hv Hr) as (b & Hb & Hbit).
  exists b. split; [exact Hb|]. intros c p. unfold act. cbn [fst snd].
  pose proof (class_mask_bit (in_who l CUser) (in_who l CGroup) (in_who l COther) c p) as Hw. rewrite among_in_who in Hw.
  fold (clause_classes l) in Hw. specialize (Hbit c p). rewrite among_in_who, Z.testbit_0_l in Hbit.
  pose proof (bit_range c p) as Hrg.
  destruct o; unfold apply_op; cbn [op_char Z.eqb Pos.eqb];
    rewrite ?Z.lor_spec, ?Z.land_spec, ?Z.lnot_spec, ?Z.land_spec, ?Hw by lia; rewrite Hv;
    destruct (in_who l c); rewrite ?andb_true_r, ?andb_false_r, ?orb_false_r; cbn [negb orb andb];
    rewrite ?andb_true_r, ?andb_false_r, ?orb_false_r, ?Hbit by done; done.
Qed.

Lemma op_is_op o : is_mode_op (op_char o) = true.
Proof. by destruct o. Qed.

Lemma actions_text l acts fuel allowed v a : allows allowed v -> (length acts < fuel)%nat ->
  exists r, apply_actions fuel allowed (clause_classes l) (action_text a ++ concat (map action_text acts)) = Some (inl r)
  /\ allows r (fold_left (act l) (a :: acts) v).
Proof.
  revert fuel allowed v a. induction acts as [|a' acts IH]; intros fuel allowed v [o items] Hv Hf;
    (destruct fuel as [|fuel]; [cbn in Hf; lia|]); cbn [action_text fst snd app apply_actions map concat]; rewrite op_is_op; cbn [negb].
  - destruct (op_text_step o items l allowed v [] Hv I) as (b & -> & Ha). cbn [is_nil]. by eexists.
  - match goal with |- context [read_perms 0 allowed _ (_ ++ ?r)] =>
      destruct (op_text_step o items l allowed v r Hv) as (b & -> & Ha); [apply op_is_op|] end. cbn [is_nil].
    destruct (IH fuel _ _ a' Ha) as (r & Hr & Hal); [cbn in Hf; lia|]. exists r. split; [exact Hr|exact Hal].
Qed.

Lemma clause_applies c allowed v : allows allowed v ->
  exists r, apply_clause allowed (clause_text c) = Some (inl r) /\ allows r (clause_means v c).
Proof.
  intros Hv. destruct c as [l a acts]. unfold apply_clause, clause_text. cbn [c_who c_first c_rest].
  assert (is_nil (map who_char l ++ action_text a ++ concat (map action_text acts)) = false) as -> by (by destruct l).
  rewrite (read_who_text l false false false) by apply op_is_op. cbn [orb]. rewrite who_default.
  apply (actions_text l acts); [done|]. rewrite !length_app.
  assert (length acts <= length (concat (map action_text acts)))%nat; [|lia].
  clear. induction acts as [|b acts IH]; [done|]. cbn. rewrite length_app. lia.
Qed.

(** No character of a clause is a comma. *)
Lemma split_plain s : forallb (fun c => negb (c =? ","%b)) s = true -> forall rest,
  split_on ","%b (s ++ ","%b :: rest) = s :: split_on ","%b rest /\ split_on ","%b s = [s].
Proof.
  intros Hs rest. induction s as [|c s IH]; [done|]. cbn in Hs. apply andb_true_iff in Hs as [Hc Hs].
  destruct (IH Hs) as [H1 H2]. cbn [app split_on]. apply negb_true_iff in Hc. rewrite Hc, H1, H2. done.
Qed.

Lemma clause_plain c : forallb (fun c => negb (c =? ","%b)) (clause_text c) = true.
Proof.
  destruct c as [l a acts]. unfold clause_text. cbn [c_who c_first c_rest].
  assert (Ha : forall a, forallb (fun c => negb (c =? ","%b)) (action_text a) = true).
  { intros [o items]. cbn [action_text forallb fst snd]. apply andb_true_iff. split; [by destruct o|].
    induction items as [|i items IH]; [done|]. cbn [map forallb]. rewrite IH. by destruct i as [| | | |[]]. }
  rewrite !forallb_app, Ha. apply andb_true_iff. split; [|cbn [andb]].
  - induction l as [|w l IH]; [done|]. cbn. rewrite IH. by destruct w.
  - induction acts as [|b acts IH]; [done|]. cbn [map concat]. by rewrite forallb_app, Ha.
Qed.

Lemma mode_applies cs c allowed v : allows allowed v ->
  exists r, apply_clauses allowed (split_on ","%b (mode_text c cs)) = Some (inl r)
  /\ allows r (fold_left clause_means (c :: cs) v).
Proof.
  revert c allowed v. induction cs as [|d cs IH]; intros c allowed v Hv; cbn [mode_text].
  - rewrite (proj2 (split_plain _ (clause_plain c) [])). cbn [apply_clauses].
    destruct (clause_applies c allowed v Hv) as (r & -> & Hr). by exists r.
  - rewrite (proj1 (split_plain _ (clause_plain c) (mode_text d cs))). cbn [apply_clauses].
    destruct (clause_applies c allowed v Hv) as (r & -> & Hr). destruct (IH d r _ Hr) as (r' & -> & Hr'). by exists r'.
Qed.


(** * What is printed is read back *)

Definition below_512 : list Z := map Z.of_nat (seq 0 512).

Lemma in_below m : 0 <= m < 512 -> m ∈ below_512.
Proof.
  intros Hm. unfold below_512. apply list_elem_of_fmap. exists (Z.to_nat m). split; [lia|]. apply elem_of_seq. lia.
Qed.

Lemma check_below (f : Z -> bool) m : forallb f below_512 = true -> 0 <= m < 512 -> f m = true.
Proof. intros Hf Hm. rewrite forallb_forall in Hf. apply Hf. apply list_elem_of_In. by apply in_below. Qed.

(** The clause umask -S prints for one class. *)
Definition printed_clause (m : Z) (k : uclass) : mode_clause :=
  let item p i := if Z.testbit m (bit k p) then [] else [i] in
  mkClause [match k with CUser => WUser | CGroup => WGroup | COther => WOther end]
    (MSet, item PRead IRead ++ item PWrite IWrite ++ item PExec IExec) [].

Lemma printed_text m : 0 <= m < 512 ->
  format_symbolic m = mode_text (printed_clause m CUser) [printed_clause m CGroup; printed_clause m COther].
Proof.
  intros Hm. apply bytes_eqb_eq.
  refine (check_below (fun m => bytes_eqb (format_symbolic m)
    (mode_text (printed_clause m CUser) [printed_clause m CGroup; printed_clause m COther])) m _ Hm).
  vm_compute. reflexivity.
Qed.

Lemma printed_means m v k p :
  fold_left clause_means [printed_clause m CUser; printed_clause m CGroup; printed_clause m COther] v k p
  = negb (Z.testbit m (bit k p)).
Proof.
  cbn [fold_left]. unfold clause_means, printed_clause. cbn [c_who c_first c_rest fold_left]. unfold act. cbn [fst snd].
  destruct k; cbn [in_who is_nil existsb class_eqb orb];
    destruct p; repeat match goal with |- context [Z.testbit m ?b] => destruct (Z.testbit m b) end; done.
Qed.

Lemma nine_bits m m' : 0 <= m < 512 -> 0 <= m' < 512 -> (forall k p, Z.testbit m' (bit k p) = Z.testbit m (bit k p)) -> m' = m.
Proof.
  intros Hm Hm' Hb. apply Z.bits_inj'. intros n Hn. destruct (decide (n < 9)) as [Hlt|Hge].
  - assert (Hc : exists k p, n = bit k p).
    { assert (n = 0 \/ n = 1 \/ n = 2 \/ n = 3 \/ n = 4 \/ n = 5 \/ n = 6 \/ n = 7 \/ n = 8) as Hc by lia.
      destruct Hc as [->|[->|[->|[->|[->|[->|[->|[->| ->]]]]]]]];
        [exists COther, PExec|exists COther, PWrite|exists COther, PRead|exists CGroup, PExec|exists CGroup, PWrite|exists CGroup, PRead
        |exists CUser, PExec|exists CUser, PWrite|exists CUser, PRead]; done. }
    destruct Hc as (k & p & ->). apply Hb.
  - assert (Hhigh : forall x, 0 <= x < 512 -> Z.testbit x n = false).
    { intros x Hx. destruct (decide (x = 0)) as [->|]; [apply Z.testbit_0_l|]. apply Z.bits_above_log2; [lia|].
      assert (Z.log2 x < 9); [|lia]. apply Z.log2_lt_pow2; lia. }
    by rewrite !Hhigh.
Qed.

Lemma octal_read m : 0 <= m < 512 -> from_str_radix_8 (format_octal m) = Some m.
Proof.
  intros Hm. pose proof (check_below
    (fun m => match from_str_radix_8 (format_octal m) with Some m' => m' =? m | None => false end) m) as H.
  cbn beta in H. destruct (from_str_radix_8 (format_octal m)) as [m'|].
  - f_equal. apply Z.eqb_eq. apply H; [vm_compute; reflexivity|done].
  - discriminate H; [vm_compute; reflexivity|done].
Qed.

(** The symbolic form is neither octal nor an option. *)
Lemma symbolic_is_argument m : 0 <= m < 512 ->
  umask_options [format_symbolic m] false false = inl (false, false, [format_symbolic m])
  /\ from_str_radix_8 (format_symbolic m) = None /\ forallb is_ascii_digit (format_symbolic m) = false.
Proof. intros _. done. Qed.

Lemma octal_is_argument m : 0 <= m < 512 ->
  umask_options [format_octal m] false false = inl (false, false, [format_octal m]).
Proof.
  intros Hm. assert (H : starts_with (bs "-") (format_octal m) = false).
  { apply negb_true_iff. apply (check_below (fun m => negb (starts_with (bs "-") (format_octal m))) m); [vm_compute; reflexivity|done]. }
  assert (Hs : forall s, starts_with (bs "-") (bs "-" ++ s) = true) by done.
  cbn [umask_options]. rewrite H. cbn [andb].
  destruct (bytes_eqb _ (bs "--")) eqn:E; [apply bytes_eqb_eq in E; rewrite E in H; done|].
  destruct (bytes_eqb _ (bs "-p")) eqn:E1; [apply bytes_eqb_eq in E1; rewrite E1 in H; done|].
  destruct (bytes_eqb _ (bs "-S")) eqn:E2; [apply bytes_eqb_eq in E2; rewrite E2 in H; done|]. done.
Qed.

(** both forms umask prints are read back: umask given its own output, octal
    or symbolic, sets the mask that was printed, whatever the mask in force. *)
Theorem umask_output_roundtrip (m cur : Z) : 0 <= m < 512 ->
  umask_run [format_octal m] cur = Some (0, UNothing, m)
  /\ umask_run [format_symbolic m] cur = Some (0, UNothing, m).
Proof.
  intros Hm. unfold umask_run. split.
  - rewrite octal_is_argument, octal_read by done. destruct (Z.ltb_spec 511 m); [lia|done].
  - destruct (symbolic_is_argument m Hm) as (-> & -> & ->). rewrite printed_text by done. unfold apply_symbolic.
    destruct (mode_applies [printed_clause m CGroup; printed_clause m COther] (printed_clause m CUser) (complement cur)
      (fun k p => negb (Z.testbit cur (bit k p)))) as (r & -> & Hr); [intros k p; apply testbit_complement|].
    do 3 f_equal. apply (nine_bits m _ Hm (complement_range r)). intros k p.
    by rewrite testbit_complement, Hr, printed_means, negb_involutive.
Qed.

Lemma umask_output_roundtrip_witness :
  umask_run [format_octal 18] 0 = Some (0, UNothing, 18) /\ umask_run [format_symbolic 18] 0 = Some (0, UNothing, 18).
Proof. apply (umask_output_roundtrip 18 0). lia. Defined.

(** * Every call ends, and errors change nothing *)

Lemma read_perms_shorter acc allowed w s b rest : read_perms acc allowed w s = inl (b, rest) -> (length rest <= length s)%nat.
Proof.
  revert acc. induction s as [|c s IH]; intros acc; cbn [read_perms]; [intros [= _ <-]; done|].
  destruct (is_mode_op c); [intros [= _ <-]; done|]. destruct (symbolic_perm_bits c allowed w); [|done].
  intros H%IH. cbn. lia.
Qed.

Lemma read_who_shorter w s : (length (read_who w s).2 <= length s)%nat.
Proof.
  revert w. induction s as [|c s IH]; intros w; cbn [read_who]; [done|]. destruct (who_bits c); [|done].
  etrans; [apply IH|]. cbn. lia.
Qed.

Lemma actions_end fuel allowed w s : (length s < fuel)%nat -> is_Some (apply_actions fuel allowed w s).
Proof.
  revert allowed s. induction fuel as [|fuel IH]; intros allowed s Hf; [lia|]. cbn [apply_actions].
  destruct s as [|op r]; [by eexists|]. destruct (negb _); [by eexists|].
  destruct (read_perms 0 allowed w r) as [[b rest]|e] eqn:E; [|by eexists]. destruct (is_nil rest); [by eexists|].
  apply IH. apply read_perms_shorter in E. cbn in Hf. lia.
Qed.

Lemma symbolic_ends spec current : exists r, apply_symbolic spec current = Some r /\ (forall m, r = inl m -> 0 <= m < 512).
Proof.
  unfold apply_symbolic. assert (H : forall cs allowed, is_Some (apply_clauses allowed cs)).
  { induction cs as [|c cs IH]; intros allowed; [by eexists|]. cbn [apply_clauses].
    assert (is_Some (apply_clause allowed c)) as [[a|e] ->]; [|done|by eexists]. unfold apply_clause.
    destruct (is_nil c); [by eexists|]. pose proof (read_who_shorter 0 c). destruct (read_who 0 c) as [w rest].
    apply actions_end. cbn in *. lia. }
  destruct (H (split_on ","%b spec) (complement current)) as [[a|e] ->].
  - eexists. split; [done|]. intros m [= <-]. apply complement_range.
  - eexists. split; [done|]. done.
Qed.

Lemma octal_value_nonneg s acc m : 0 <= acc -> octal_value acc s = Some m -> 0 <= m.
Proof.
  revert acc. induction s as [|c s IH]; intros acc Ha; cbn [octal_value]; [intros [= <-]; done|].
  destruct (to_digit c 8) as [d|] eqn:Ed; [|done]. case_match; [|done]. apply IH.
  assert (0 <= d); [|lia]. unfold to_digit in Ed.
  destruct (is_ascii_digit c) eqn:E1; [|destruct (is_ascii_lower c) eqn:E2; [|destruct (is_ascii_upper c) eqn:E3; [|done]]];
    unfold is_ascii_digit, is_ascii_lower, is_ascii_upper, in_range in *;
    repeat match goal with H : (_ && _) = true |- _ => apply andb_true_iff in H as [?%Z.leb_le ?%Z.leb_le] end;
    case_match; simplify_eq; lia.
Qed.

(** every call of umask ends with a status; a mask in range stays in range,
    and a call that fails leaves it as it was. *)
Theorem umask_call (args : list (list Z)) (mask : Z) : 0 <= mask < 512 ->
  exists st out m, umask_run args mask = Some (st, out, m) /\ 0 <= st <= 2 /\ 0 <= m < 512 /\ (st <> 0 -> m = mask).
Proof.
  intros Hm. unfold umask_run. destruct (umask_options args false false) as [[[p s] rest]|c]; [|eexists _, _, _; split; [done|lia]].
  destruct rest as [|arg rest]; [eexists _, _, _; split; [done|lia]|].
  destruct (from_str_radix_8 arg) as [m|] eqn:E.
  - destruct (Z.ltb_spec 511 m); eexists _, _, _; (split; [done|]); [lia|]. split; [lia|]. split; [|lia]. split; [|lia].
    unfold from_str_radix_8 in E. destruct arg as [|c arg]; [done|].
    assert (Hp : octal_value 0 (c :: arg) = Some m \/ octal_value 0 arg = Some m) by (repeat case_match; auto).
    destruct Hp as [Hp|Hp]; by eapply octal_value_nonneg in Hp.
  - case_match; [eexists _, _, _; split; [done|lia]|].
    destruct (symbolic_ends arg mask) as ([m|[c|c]] & -> & Hr); eexists _, _, _; (split; [done|]); [|lia..].
    split; [lia|]. split; [by apply Hr|lia].
Qed.

Lemma umask_call_witness : exists st out m,
  umask_run [bs "u=rz"] 18 = Some (st, out, m) /\ 0 <= st <= 2 /\ 0 <= m < 512 /\ (st <> 0 -> m = 18).
Proof. apply (umask_call [bs "u=rz"] 18). lia. Defined.
