(* ===== verification/BuiltinArgs.v ===== *)
(** How builtins read their arguments (crates/builtins/src/common.rs): names,
    [name=value], array references, and the subscript check of
    [array_expand_once].

    The scanners of builtin arguments end, and an assignment argument is split
    where its target ends. *)
From S2P Require Import Prelude Env.

Definition is_valid_name (s : bytes) : bool :=
  match s with
  | c :: r => (is_ascii_alphabetic c || (c =? "_"%b)) && forallb (fun c => is_ascii_alphanumeric c || (c =? "_"%b)) r
  | [] => false
  end.

(** * Skipping quotes and brackets

    The loops move an index over the bytes; every round moves it forward, so that
    the number of bytes left is enough rounds ([skips_end]). *)

Fixpoint skip_single_loop (s : bytes) (i : nat) : nat :=
  match s with
  | [] => i
  | b :: r => if b =? 39 then S i else skip_single_loop r (S i)
  end.

Definition skip_single_quoted (s : bytes) (i : nat) : nat := skip_single_loop (drop (S i) s) (S i).

Definition byte_at (s : bytes) (i : nat) (c : Z) : bool := bool_decide (s !! i = Some c).

Fixpoint skip_double_loop (fuel : nat) (s : bytes) (i : nat) : option nat :=
  match fuel with
  | O => None
  | S fuel =>
      match s !! i with
      | None => Some i
      | Some b =>
          if (b =? 92) && (i + 1 <? length s)%nat then skip_double_loop fuel s (i + 2)
          else if b =? dquote then Some (S i)
          else if (b =? "$"%b) && byte_at s (i + 1) "("%b then
            j ← skip_pair_loop fuel s (i + 2) 1 "("%b ")"%b; skip_double_loop fuel s j
          else skip_double_loop fuel s (S i)
      end
  end
with skip_pair_loop (fuel : nat) (s : bytes) (i depth : nat) (open close : Z) : option nat :=
  match fuel with
  | O => None
  | S fuel =>
      match s !! i, depth with
      | Some b, S d =>
          if (b =? open) && negb (open =? close) then skip_pair_loop fuel s (S i) (S depth) open close
          else if b =? close then skip_pair_loop fuel s (S i) d open close
          else if b =? 39 then skip_pair_loop fuel s (skip_single_quoted s i) depth open close
          else if b =? dquote then
            j ← skip_double_loop fuel s (S i); skip_pair_loop fuel s j depth open close
          else if b =? 92 then skip_pair_loop fuel s (Nat.min (i + 2) (length s)) depth open close
          else skip_pair_loop fuel s (S i) depth open close
      | _, _ => Some i
      end
  end.

Definition rounds (s : bytes) : nat := S (S (length s)).

Definition skip_double_quoted (s : bytes) (i : nat) : option nat := skip_double_loop (rounds s) s (S i).
Definition skip_balanced_pair (s : bytes) (i : nat) (open close : Z) : option nat :=
  skip_pair_loop (rounds s) s i 1 open close.

(** The loop [matching_array_close] and [skip_assignment_subscript] share: the
    index of the bracket that closes the one before [i]. *)
Fixpoint close_loop (fuel : nat) (s : bytes) (i depth : nat) : option (option nat) :=
  match fuel with
  | O => None
  | S fuel =>
      match s !! i with
      | None => Some None
      | Some b =>
          if b =? "["%b then close_loop fuel s (S i) (S depth)
          else if b =? "]"%b then
            match depth with
            | S (S d) => close_loop fuel s (S i) (S d)
            | _ => Some (Some i)
            end
          else if b =? 39 then close_loop fuel s (skip_single_quoted s i) depth
          else if b =? dquote then j ← skip_double_quoted s i; close_loop fuel s j depth
          else if b =? 92 then close_loop fuel s (Nat.min (i + 2) (length s)) depth
          else if (b =? "$"%b) && byte_at s (i + 1) "("%b then
            j ← skip_balanced_pair s (i + 2) "("%b ")"%b; close_loop fuel s j depth
          else close_loop fuel s (S i) depth
      end
  end.

Definition matching_array_close (s : bytes) (open : nat) : option nat :=
  mjoin (close_loop (rounds s) s (S open) 1).

Definition skip_assignment_subscript (s : bytes) (start : nat) : option nat :=
  S <$> mjoin (close_loop (rounds s) s (S start) 1).

(** * Assignments and array references *)

Definition array_reference (value : bytes) : option (bytes * bytes) :=
  open ← find_byte "["%b value;
  close ← matching_array_close value open;
  if negb (close + 1 =? length value)%nat then None
  else
    let name := take open value in
    if negb (is_valid_name name) then None
    else
      let subscript := slice value (open + 1) close in
      match subscript with
      | c :: _ => if (c =? "["%b) || (c =? "]"%b) then None else Some (name, subscript)
      | [] => Some (name, subscript)
      end.

Definition assignment_base_name (lhs : bytes) : option bytes :=
  if is_valid_name lhs then Some lhs else fst <$> array_reference lhs.

Definition parse_assignment_op (value : bytes) : option (bytes * bytes * bool) :=
  eq ← find_byte "="%b value;
  let key := take eq value in
  let rest := drop (S eq) value in
  let append := ends_with ["+"%b] key in
  let key := if append then removelast key else key in
  if is_nil key || negb (is_valid_name key) then None else Some (key, rest, append).

Definition parse_assignment (value : bytes) : option (bytes * bytes) := fst <$> parse_assignment_op value.

Fixpoint operator_loop (fuel : nat) (s : bytes) (i : nat) : option (option (nat * bool)) :=
  match fuel with
  | O => None
  | S fuel =>
      match s !! i with
      | None => Some None
      | Some b =>
          if b =? "["%b then
            match skip_assignment_subscript s i with
            | Some next => operator_loop fuel s next
            | None => Some None
            end
          else if b =? "="%b then Some (Some (i, (0 <? i)%nat && byte_at s (i - 1) "+"%b))
          else if b =? 39 then operator_loop fuel s (skip_single_quoted s i)
          else if b =? dquote then j ← skip_double_quoted s i; operator_loop fuel s j
          else if b =? 92 then operator_loop fuel s (Nat.min (i + 2) (length s))
          else operator_loop fuel s (S i)
      end
  end.

Definition assignment_operator (value : bytes) : option (nat * bool) := mjoin (operator_loop (rounds value) value 0).

Definition split_assignment_op (value : bytes) : option (bytes * bytes * bool) :=
  '(pos, append) ← assignment_operator value;
  if append : bool then Some (take (pos - 1) value, drop (S pos) value, true)
  else Some (take pos value, drop (S pos) value, false).

(** * The check of [array_expand_once] *)

Section Once.
Context {E} `{Environment E}.

Fixpoint name_run (s : bytes) : nat :=
  match s with
  | b :: r => if (b =? "_"%b) || is_ascii_alphanumeric b then S (name_run r) else 0%nat
  | [] => 0%nat
  end.

(** The bytes left, with one unit of fuel each. *)
Fixpoint once_loop (fuel : nat) (s : bytes) (out : bytes) (e : E) : option (bytes * E) :=
  match fuel with
  | O => None
  | S fuel =>
      match s with
      | [] => Some (out, e)
      | b :: r =>
          match r with
          | c :: r' =>
              if b =? 92 then once_loop fuel r' (out ++ [c]) e
              else if (b =? "$"%b) && (c =? "("%b) then once_loop fuel r (out ++ [b]) e
              else if b =? "$"%b then
                if (c =? "_"%b) || is_ascii_alphabetic c then
                  let n := S (name_run r') in
                  let '(v, e) := env_get e (take n r) in
                  once_loop fuel (drop n r) (out ++ default [] v) e
                else once_loop fuel r (out ++ [b]) e
              else once_loop fuel r (out ++ [b]) e
          | [] => once_loop fuel r (out ++ [b]) e
          end
      end
  end.

Definition expand_indexed_subscript_once (subscript : bytes) (e : E) : option (bytes * E) :=
  if negb (forallb (fun b => b <? 128) subscript) then None
  else
    let body := if (2 <=? length subscript)%nat && byte_at subscript 0 dquote && byte_at subscript (length subscript - 1) dquote
                then slice subscript 1 (length subscript - 1) else subscript in
    once_loop (S (length body)) body [] e.

Definition has_sub (p s : bytes) : bool := bool_decide (is_Some (find_sub p s)).

Definition double_backslashes (s : bytes) : bytes := concat (map (fun b => if b =? 92 then [92; 92] else [b]) s).

Definition array_expand_once_subscript_message (e : E) (subscript : bytes) : option bytes * E :=
  if negb (env_option e (bs "array_expand_once")) then (None, e)
  else
    match expand_indexed_subscript_once subscript e with
    | None => (None, e)
    | Some (expanded, e) =>
        if negb (has_sub (bs "$(") expanded || existsb (Z.eqb 96) expanded) then (None, e)
        else (Some (expanded ++ bs ": arithmetic syntax error: operand expected (error token is "
                    ++ [dquote] ++ double_backslashes expanded ++ [dquote] ++ bs ")"), e)
    end.

Definition indexed_target_array_expand_once_message (e : E) (target : bytes) : option bytes * E :=
  match array_reference target with
  | None => (None, e)
  | Some (name, subscript) =>
      if bool_decide (env_kind e name = KAssoc) then (None, e)
      else array_expand_once_subscript_message e subscript
  end.
End Once.

Example reference_ex1 : array_reference (bs "foo[foo]bar]") = None.
Proof. vm_compute. reflexivity. Qed.
Example reference_ex2 : array_reference (bs "foo[foo[bar]]") = Some (bs "foo", bs "foo[bar]").
Proof. vm_compute. reflexivity. Qed.
Example reference_ex3 : array_reference (bs "m['a]b$(x)'][0]") = None.
Proof. vm_compute. reflexivity. Qed.
Example split_ex : split_assignment_op (bs "a[b=c]+=d=e") = Some (bs "a[b=c]", bs "d=e", true).
Proof. vm_compute. reflexivity. Qed.

(** * The scanners end *)

Lemma skip_single_ge s i : (i <= skip_single_loop s i)%nat.
Proof. revert i. induction s as [|b s IH]; intros i; cbn; [done|]. case_match; [lia|]. specialize (IH (S i)). lia. Qed.

Lemma skip_single_after s i : (i < skip_single_quoted s i)%nat.
Proof. unfold skip_single_quoted. pose proof (skip_single_ge (drop (S i) s) (S i)). lia. Qed.

Ltac bound := match goal with |- context [skip_single_quoted ?s ?i] => pose proof (skip_single_after s i) end.

Lemma skips_end s fuel : forall i, (length s - i < fuel)%nat ->
  (exists j, skip_double_loop fuel s i = Some j /\ (i <= j)%nat)
  /\ (forall d o c, exists j, skip_pair_loop fuel s i d o c = Some j /\ (i <= j)%nat).
Proof.
  induction fuel as [|fuel IH]; intros i Hf.
  { lia. }
  assert (Hnext : (i < length s)%nat -> forall k, (i < k)%nat ->
    (exists j, skip_double_loop fuel s k = Some j /\ (i <= j)%nat)
    /\ (forall d o c, exists j, skip_pair_loop fuel s k d o c = Some j /\ (i <= j)%nat)).
  { intros Hi k Hk. destruct (IH k) as [(j & Hj & ?) Hp]; [lia|]. split; [exists j; split; [done|lia]|].
    intros d o c. destruct (Hp d o c) as (j' & ? & ?). exists j'. split; [done|lia]. }
  split.
  - cbn [skip_double_loop]. destruct (s !! i) as [b|] eqn:Eb; [|by exists i]. apply lookup_lt_Some in Eb.
    destruct (_ && _); [apply Hnext; lia|]. destruct (b =? dquote); [exists (S i); split; [done|lia]|].
    destruct (_ && _); [|apply Hnext; lia]. destruct (proj2 (IH (i + 2)%nat ltac:(lia)) 1%nat "("%b ")"%b) as (j & -> & Hj).
    apply Hnext; lia.
  - intros d o c. cbn [skip_pair_loop]. destruct (s !! i) as [b|] eqn:Eb; [|by exists i]. apply lookup_lt_Some in Eb.
    destruct d as [|d]; [by exists i|]. destruct (_ && _); [apply Hnext; lia|]. destruct (b =? c); [apply Hnext; lia|].
    destruct (b =? 39); [by apply Hnext, skip_single_after|].
    destruct (b =? dquote).
    + destruct (proj1 (IH (S i) ltac:(lia))) as (j & -> & Hj). apply Hnext; lia.
    + destruct (b =? 92); apply Hnext; lia.
Qed.

Lemma skip_double_some s i : exists j, skip_double_quoted s i = Some j /\ (i < j)%nat.
Proof.
  unfold skip_double_quoted, rounds. destruct (proj1 (skips_end s (S (S (length s))) (S i) ltac:(lia))) as (j & -> & ?).
  exists j. split; [done|lia].
Qed.

Lemma skip_pair_some s i o c : exists j, skip_balanced_pair s i o c = Some j /\ (i <= j)%nat.
Proof. unfold skip_balanced_pair, rounds. apply (skips_end s (S (S (length s))) i ltac:(lia)). Qed.

Lemma close_ends s fuel : forall i d, (length s - i < fuel)%nat ->
  exists r, close_loop fuel s i d = Some r /\ (forall j, r = Some j -> (i <= j < length s)%nat).
Proof.
  induction fuel as [|fuel IH]; intros i d Hf.
  { lia. }
  assert (Hnext : (i < length s)%nat -> forall k d', (i < k)%nat -> exists r, close_loop fuel s k d' = Some r /\ (forall j, r = Some j -> (i <= j < length s)%nat)).
  { intros Hi k d' Hk. destruct (IH k d') as (r & -> & Hr); [lia|]. exists r. split; [done|]. intros j Hj. specialize (Hr j Hj). lia. }
  cbn [close_loop]. destruct (s !! i) as [b|] eqn:Eb; [|by exists None]. apply lookup_lt_Some in Eb.
  destruct (b =? "["%b); [apply Hnext; lia|].
  destruct (b =? "]"%b). { destruct d as [|[|d]]; [| |apply Hnext; lia]; exists (Some i); (split; [done|]); intros j [= <-]; lia. }
  destruct (b =? 39); [by apply Hnext, skip_single_after|].
  destruct (b =? dquote). { destruct (skip_double_some s i) as (j & -> & ?). by apply Hnext. }
  destruct (b =? 92); [apply Hnext; lia|].
  destruct (_ && _); [|apply Hnext; lia]. destruct (skip_pair_some s (i + 2) "("%b ")"%b) as (j & -> & ?). apply Hnext; lia.
Qed.

Lemma subscript_after s i j : skip_assignment_subscript s i = Some j -> (i < j)%nat.
Proof.
  unfold skip_assignment_subscript, rounds. destruct (close_ends s (S (S (length s))) (S i) 1 ltac:(lia)) as (r & -> & Hr).
  destruct r as [k|]; [|done]. intros [= <-]. specialize (Hr k eq_refl). lia.
Qed.

Lemma operator_ends s fuel : forall i, (length s - i < fuel)%nat -> is_Some (operator_loop fuel s i).
Proof.
  induction fuel as [|fuel IH]; intros i Hf.
  { lia. }
  cbn [operator_loop]. destruct (s !! i) as [b|] eqn:Eb; [|by eexists]. apply lookup_lt_Some in Eb.
  destruct (b =? "["%b).
  { destruct (skip_assignment_subscript s i) as [j|] eqn:Ej; [|by eexists]. apply subscript_after in Ej. apply IH. lia. }
  destruct (b =? "="%b); [by eexists|].
  destruct (b =? 39); [apply IH; pose proof (skip_single_after s i); lia|].
  destruct (b =? dquote). { destruct (skip_double_some s i) as (j & -> & ?). apply IH. lia. }
  destruct (b =? 92); apply IH; lia.
Qed.

(** * What is skipped does not depend on what follows *)

Section Local.
Context (t r : bytes).

Lemma at_left i : (i < length t)%nat -> (t ++ r) !! i = t !! i.
Proof. apply lookup_app_l. Qed.

Lemma byte_at_left i c : (i < length t)%nat -> byte_at (t ++ r) i c = byte_at t i c.
Proof. intros Hi. unfold byte_at. by rewrite at_left. Qed.

Lemma single_loop_local (s : bytes) k : (skip_single_loop s k < k + length s)%nat ->
  skip_single_loop (s ++ r) k = skip_single_loop s k.
Proof.
  revert k. induction s as [|b s IH]; intros k; cbn; [lia|]. case_match; [done|]. intros Hk. apply IH. lia.
Qed.

Lemma single_local i : (skip_single_quoted t i < length t)%nat -> skip_single_quoted (t ++ r) i = skip_single_quoted t i.
Proof.
  intros Hi. pose proof (skip_single_after t i). unfold skip_single_quoted in *. rewrite drop_app_le by lia.
  apply single_loop_local. rewrite length_drop. lia.
Qed.

Lemma skips_local fuel : forall fuel' i, (fuel <= fuel')%nat -> (length t - i < fuel)%nat ->
  (forall j, skip_double_loop fuel t i = Some j -> (j < length t)%nat -> skip_double_loop fuel' (t ++ r) i = Some j)
  /\ (forall d o c j, skip_pair_loop fuel t i d o c = Some j -> (j < length t)%nat -> skip_pair_loop fuel' (t ++ r) i d o c = Some j).
Proof.
  induction fuel as [|fuel IH]; intros [|fuel'] i Hle Hf; try lia.
  assert (Hge : forall k j, (length t - k < fuel)%nat -> skip_double_loop fuel t k = Some j -> (k <= j)%nat).
  { intros k j Hk Hj. destruct (proj1 (skips_end t fuel k Hk)) as (j' & Hj' & ?). congruence. }
  assert (Hge' : forall k d o c j, (length t - k < fuel)%nat -> skip_pair_loop fuel t k d o c = Some j -> (k <= j)%nat).
  { intros k d o c j Hk Hj. destruct (proj2 (skips_end t fuel k Hk) d o c) as (j' & Hj' & ?). congruence. }
  split.
  - intros j. cbn [skip_double_loop]. destruct (t !! i) as [b|] eqn:Eb.
    2:{ intros [= <-] Hj. apply lookup_ge_None_1 in Eb. lia. }
    pose proof (lookup_lt_Some _ _ _ Eb) as Hi. rewrite at_left, Eb by done.
    destruct (b =? 92) eqn:E92; cbn [andb].
    + destruct (Nat.ltb_spec (i + 1) (length t)).
      * intros Hj Hlt. rewrite (proj2 (Nat.ltb_lt _ _)) by (rewrite length_app; lia). eapply IH; [lia|lia|done..].
      * assert ((b =? dquote) = false) as -> by (apply Z.eqb_eq in E92 as ->; done).
        assert ((b =? "$"%b) = false) as -> by (apply Z.eqb_eq in E92 as ->; done). cbn [andb]. intros Hj Hlt. exfalso.
        destruct fuel as [|fuel]; [done|]. apply Hge in Hj; lia.
    + destruct (b =? dquote); [done|]. destruct (b =? "$"%b); cbn [andb]; [|intros Hj Hlt; eapply IH; [lia|lia|done..]].
      destruct (decide (i + 1 < length t)%nat) as [H1|H1].
      * rewrite byte_at_left by done. destruct (byte_at t (i + 1) _); [|intros Hj Hlt; eapply IH; [lia|lia|done..]].
        destruct (skip_pair_loop fuel t (i + 2) 1 _ _) as [k|] eqn:Ek; [|done]. cbn. intros Hj Hlt.
        apply Hge' in Ek as Hk; [|lia]. apply Hge in Hj as Hk2; [|lia].
        rewrite (proj2 (IH fuel' (i + 2)%nat ltac:(lia) ltac:(lia)) _ _ _ k Ek) by lia. cbn. eapply IH; [lia|lia|done..].
      * assert (byte_at t (i + 1) "("%b = false) as -> by (unfold byte_at; by rewrite lookup_ge_None_2 by lia).
        intros Hj Hlt. apply Hge in Hj; lia.
  - intros d o c j. cbn [skip_pair_loop]. destruct (t !! i) as [b|] eqn:Eb.
    2:{ intros [= <-] Hj. apply lookup_ge_None_1 in Eb. lia. }
    pose proof (lookup_lt_Some _ _ _ Eb) as Hi. rewrite at_left, Eb by done. destruct d as [|d]; [done|].
    destruct (_ && _); [intros Hj Hlt; eapply IH; [lia|lia|done..]|].
    destruct (b =? c); [intros Hj Hlt; eapply IH; [lia|lia|done..]|].
    destruct (b =? 39).
    { intros Hj Hlt. pose proof (skip_single_after t i). apply Hge' in Hj as Hk; [|lia].
      rewrite single_local by lia. eapply IH; [lia|lia|done..]. }
    destruct (b =? dquote).
    { destruct (skip_double_loop fuel t (S i)) as [k|] eqn:Ek; [|done]. cbn. intros Hj Hlt.
      apply Hge in Ek as Hk; [|lia]. apply Hge' in Hj as Hk2; [|lia].
      rewrite (proj1 (IH fuel' (S i) ltac:(lia) ltac:(lia)) k Ek) by lia. cbn. eapply IH; [lia|lia|done..]. }
    destruct (b =? 92); [|intros Hj Hlt; eapply IH; [lia|lia|done..]].
    intros Hj Hlt. apply Hge' in Hj as Hk; [|lia]. rewrite length_app.
    replace (Nat.min (i + 2) (length t + length r)) with (Nat.min (i + 2) (length t)) by lia. eapply IH; [lia|lia|done..].
Qed.

Lemma double_local i j : skip_double_quoted t i = Some j -> (j < length t)%nat -> skip_double_quoted (t ++ r) i = Some j.
Proof. unfold skip_double_quoted, rounds. intros Hj Hlt. eapply (skips_local (S (S (length t)))); [rewrite length_app; lia|lia|done..]. Qed.

Lemma pair_local i o c j : skip_balanced_pair t i o c = Some j -> (j < length t)%nat ->
  skip_balanced_pair (t ++ r) i o c = Some j.
Proof. unfold skip_balanced_pair, rounds. intros Hj Hlt. eapply (skips_local (S (S (length t)))); [rewrite length_app; lia|lia|done..]. Qed.

Lemma close_local fuel : forall fuel' i d j, (fuel <= fuel')%nat -> (length t - i < fuel)%nat ->
  close_loop fuel t i d = Some (Some j) -> close_loop fuel' (t ++ r) i d = Some (Some j).
Proof.
  induction fuel as [|fuel IH]; intros [|fuel'] i d j Hle Hf; try lia.
  assert (Hlt : forall k d' j, (length t - k < fuel)%nat -> close_loop fuel t k d' = Some (Some j) -> (k <= j < length t)%nat).
  { intros k d' j' Hk Hj. destruct (close_ends t fuel k d' Hk) as (r' & Hr' & Hb). apply Hb. congruence. }
  cbn [close_loop]. destruct (t !! i) as [b|] eqn:Eb; [|done].
  pose proof (lookup_lt_Some _ _ _ Eb) as Hi. rewrite at_left, Eb by done.
  destruct (b =? "["%b); [apply IH; lia|].
  destruct (b =? "]"%b); [destruct d as [|[|d]]; [done..|apply IH; lia]|].
  destruct (b =? 39).
  { intros Hj. pose proof (skip_single_after t i). apply Hlt in Hj as Hb; [|lia]. rewrite single_local by lia. apply IH; [lia..|done]. }
  destruct (b =? dquote).
  { destruct (skip_double_some t i) as (k & Hk & Hik). rewrite Hk. cbn [mbind option_bind]. intros Hj. apply Hlt in Hj as Hb; [|lia].
    rewrite (double_local _ _ Hk) by lia. cbn [mbind option_bind]. apply IH; [lia..|done]. }
  destruct (b =? 92).
  { intros Hj. apply Hlt in Hj as Hb; [|lia]. rewrite length_app.
    replace (Nat.min (i + 2) (length t + length r)) with (Nat.min (i + 2) (length t)) by lia. apply IH; [lia..|done]. }
  destruct (b =? "$"%b); cbn [andb]; [|apply IH; lia].
  destruct (decide (i + 1 < length t)%nat) as [H1|H1].
  - rewrite byte_at_left by done. destruct (byte_at t (i + 1) _); [|apply IH; lia].
    destruct (skip_pair_some t (i + 2) "("%b ")"%b) as (k & Hk & Hik). rewrite Hk. cbn [mbind option_bind]. intros Hj. apply Hlt in Hj as Hb; [|lia].
    rewrite (pair_local _ _ _ _ Hk) by lia. cbn [mbind option_bind]. apply IH; [lia..|done].
  - assert (byte_at t (i + 1) "("%b = false) as -> by (unfold byte_at; by rewrite lookup_ge_None_2 by lia).
    intros Hj. apply Hlt in Hj; lia.
Qed.
End Local.

(** * Assignment arguments *)

(** A name has nothing the scanners stop at. *)
Lemma name_char (b : Z) : is_ascii_alphanumeric b || (b =? "_"%b) = true ->
  (b =? "["%b) = false /\ (b =? "="%b) = false /\ (b =? 39) = false /\ (b =? dquote) = false /\ (b =? 92) = false /\ (b =? "+"%b) = false.
Proof.
  intros Hb. repeat split; apply Z.eqb_neq; intros ->; by vm_compute in Hb.
Qed.

Lemma valid_name_chars n : is_valid_name n = true -> Forall (fun b => is_ascii_alphanumeric b || (b =? "_"%b) = true) n.
Proof.
  destruct n as [|c r]; [done|]. cbn. intros [Hc Hr]%andb_true_iff. constructor.
  - unfold is_ascii_alphanumeric. destruct (is_ascii_alphabetic c); [done|]. cbn in *. rewrite Hc. by rewrite orb_true_r.
  - apply Forall_forall. intros x Hx. rewrite forallb_forall in Hr. apply Hr. by apply list_elem_of_In.
Qed.

(** The operator scan passes over a name. *)
Lemma operator_name n s fuel : Forall (fun b => is_ascii_alphanumeric b || (b =? "_"%b) = true) n ->
  forall k, take k s ++ n ++ drop (k + length n) s = s -> (k + length n <= length s)%nat ->
  operator_loop (length n + fuel) s k = operator_loop fuel s (k + length n).
Proof.
  induction n as [|b n IH]; intros Hn k Hs Hl; [by rewrite Nat.add_0_r|].
  inversion Hn as [|? ? Hb Hn']; subst. cbn [length Nat.add operator_loop]. cbn [length] in Hs, Hl.
  assert (Hk : s !! k = Some b).
  { rewrite <- Hs at 1. rewrite lookup_app_r by (rewrite length_take; lia). rewrite length_take, Nat.min_l by lia.
    by rewrite Nat.sub_diag. }
  rewrite Hk. destruct (name_char b Hb) as (-> & -> & -> & -> & -> & _).
  rewrite IH; [f_equal; lia|done| |cbn; lia].
  replace (S k + length n)%nat with (k + S (length n))%nat by lia. rewrite (take_S_r s k b) by done. rewrite <- app_assoc. exact Hs.
Qed.

Lemma close_is_bracket s fuel i d j : close_loop fuel s i d = Some (Some j) -> s !! j = Some "]"%b.
Proof.
  revert i d. induction fuel as [|fuel IH]; intros i d; [done|]. cbn [close_loop].
  destruct (s !! i) as [b|] eqn:Eb; [|done]. destruct (b =? "["%b); [apply IH|].
  destruct (Z.eqb_spec b "]"%b) as [->|]; [destruct d as [|[|d]]; [by intros [= <-]..|apply IH]|].
  destruct (b =? 39); [apply IH|].
  destruct (b =? dquote); [destruct (skip_double_quoted s i); [apply IH|done]|].
  destruct (b =? 92); [apply IH|]. destruct (_ && _); [|apply IH].
  destruct (skip_balanced_pair s (i + 2) _ _); [apply IH|done].
Qed.

Lemma find_byte_spec c (s : bytes) k : find_byte c s = Some k -> s !! k = Some c.
Proof.
  revert k. induction s as [|b s IH]; intros k; [done|]. cbn. destruct (Z.eqb_spec b c) as [->|]; [by intros [= <-]|].
  destruct (find_byte c s) as [j|]; [|done]. intros [= <-]. by apply IH.
Qed.

(** The scan of an argument whose target is [t] reaches the end of [t]. *)
Lemma operator_target t n r : assignment_base_name t = Some n -> (0 < length r)%nat ->
  exists fuel, operator_loop (rounds (t ++ r)) (t ++ r) 0 = operator_loop (S (S fuel)) (t ++ r) (length t).
Proof.
  unfold assignment_base_name, rounds. intros Ht Hr. destruct (is_valid_name t) eqn:Ev.
  - exists (length r). rewrite length_app. replace (S (S (length t + length r))) with (length t + S (S (length r)))%nat by lia.
    rewrite (operator_name t (t ++ r) _ (valid_name_chars t Ev) 0%nat); [done| |rewrite length_app; lia].
    cbn [take app Nat.add]. by rewrite drop_app_length.
  - unfold array_reference in Ht. destruct (find_byte "["%b t) as [open|] eqn:Eo; [|done]. cbn [mbind option_bind fmap option_fmap option_map] in Ht.
    destruct (matching_array_close t open) as [close|] eqn:Ec; [|done]. cbn [mbind option_bind fmap option_fmap option_map] in Ht.
    destruct (Nat.eqb_spec (close + 1) (length t)) as [Hend|]; [|done]. cbn [negb] in Ht.
    destruct (is_valid_name (take open t)) eqn:En; [|done].
    apply find_byte_spec in Eo as Hopen. apply find_byte_lt in Eo.
    assert (Hl : length (take open t) = open) by (rewrite length_take; lia).
    exists (length (t ++ r) - open - 1)%nat. rewrite length_app.
    replace (S (S (length t + length r))) with (length (take open t) + S (S (S (length t + length r - open - 1))))%nat by (rewrite Hl; lia).
    rewrite (operator_name (take open t) (t ++ r) _ (valid_name_chars _ En) 0%nat).
    + rewrite Hl. cbn [Nat.add]. cbn [operator_loop]. rewrite lookup_app_l, Hopen by lia. rewrite Z.eqb_refl.
      unfold skip_assignment_subscript. unfold matching_array_close in Ec.
      destruct (close_loop (rounds t) t (S open) 1) as [[c|]|] eqn:Ecl; try done. cbn in Ec. injection Ec as ->.
      rewrite (close_local t r (rounds t) (rounds (t ++ r)) (S open) 1 close); [|unfold rounds; rewrite ?length_app; lia..|done].
      cbn [mjoin option_join fmap option_fmap option_map]. replace (S close) with (length t) by lia. done.
    + rewrite take_0, Hl, drop_app_le by lia. cbn [app]. by rewrite (app_assoc (take open t)), take_drop.
    + rewrite length_app. lia.
Qed.

(** The last byte of a target is no plus sign. *)
Lemma target_last t n : assignment_base_name t = Some n -> (0 < length t)%nat /\ byte_at t (length t - 1) "+"%b = false.
Proof.
  unfold assignment_base_name. destruct (is_valid_name t) eqn:Ev.
  - intros _. pose proof (valid_name_chars t Ev) as Hf. destruct t as [|c t']; [done|]. split; [cbn; lia|].
    unfold byte_at. apply bool_decide_eq_false. intros Hl. rewrite Forall_lookup in Hf. apply Hf in Hl.
    by vm_compute in Hl.
  - unfold array_reference. destruct (find_byte "["%b t) as [open|] eqn:Eo; [|done]. cbn [mbind option_bind].
    destruct (matching_array_close t open) as [close|] eqn:Ec; [|done]. cbn [mbind option_bind].
    destruct (Nat.eqb_spec (close + 1) (length t)) as [Hend|]; [|done]. intros _. split; [lia|].
    replace (length t - 1)%nat with close by lia. unfold byte_at. apply bool_decide_eq_false. intros Hp.
    unfold matching_array_close in Ec. destruct (close_loop (rounds t) t (S open) 1) as [[c|]|] eqn:Ecl; try done.
    injection Ec as ->. apply close_is_bracket in Ecl. congruence.
Qed.

(** an assignment argument is split where its target ends: for a target
    that is a name or a name with a subscript (brackets, quotes and command
    substitutions inside it included), [target=value] gives the target and the
    value, and [target+=value] too, marked as an append, whatever the value. *)
Theorem assignment_argument_splits (t n v : bytes) : assignment_base_name t = Some n ->
  split_assignment_op (t ++ "="%b :: v) = Some (t, v, false)
  /\ split_assignment_op (t ++ "+"%b :: "="%b :: v) = Some (t, v, true).
Proof.
  intros Ht. destruct (target_last t n Ht) as [Hpos Hlast]. unfold split_assignment_op, assignment_operator. split.
  - destruct (operator_target t n ("="%b :: v) Ht) as (fuel & ->); [cbn; lia|]. cbn [operator_loop].
    rewrite (lookup_app_r t) by lia. rewrite Nat.sub_diag. cbn [lookup list_lookup Z.eqb Pos.eqb].
    rewrite byte_at_left, Hlast, andb_false_r by lia. cbn [mjoin option_join mbind option_bind].
    rewrite take_app_length, drop_app_ge by lia. by replace (S (length t) - length t)%nat with 1%nat by lia.
  - destruct (operator_target t n ("+"%b :: "="%b :: v) Ht) as (fuel & ->); [cbn; lia|].
    set (s := t ++ "+"%b :: "="%b :: v).
    assert (H0 : s !! length t = Some "+"%b) by (unfold s; by rewrite lookup_app_r, Nat.sub_diag by lia).
    assert (H1 : s !! S (length t) = Some "="%b).
    { unfold s. rewrite lookup_app_r by lia. by replace (S (length t) - length t)%nat with 1%nat by lia. }
    cbn [operator_loop]. rewrite H0. cbn [Z.eqb Pos.eqb dquote]. rewrite H1. cbn [Z.eqb Pos.eqb dquote].
    assert (byte_at s (S (length t) - 1) "+"%b = true) as ->.
    { unfold byte_at. cbn [Nat.sub]. rewrite Nat.sub_0_r, H0. by apply bool_decide_eq_true_2. }
    cbn [mjoin option_join mbind option_bind andb Nat.ltb Nat.leb]. replace (S (length t) - 1)%nat with (length t) by lia. unfold s.
    rewrite take_app_length, drop_app_ge by lia. by replace (S (S (length t)) - length t)%nat with 2%nat by lia.
Qed.

Lemma assignment_argument_splits_witness :
  split_assignment_op (bs "a['x=]'$(echo ])]+=1=2") = Some (bs "a['x=]'$(echo ])]", bs "1=2", true).
Proof.
  refine (proj2 (assignment_argument_splits (bs "a['x=]'$(echo ])]") (bs "a") (bs "1=2") _)). vm_compute. reflexivity.
Defined.
