(* ===== verification/TestCmd.v ===== *)
(** The builtins test and [ (crates/builtins/src/test_cmd.rs): the rules for up
    to four arguments, the parser for more, and the primaries.  What the
    primaries ask of the file system is the class [FileSystem]. *)
From S2P Require Import Prelude Env Utf8 HistExpand BuiltinArgs.

(** * What the builtin asks of the system *)

(** The fields of [std::fs::Metadata] it reads. *)
Record Meta := mkMeta {
  m_mode : Z;
  m_len : Z;
  m_uid : Z;
  m_gid : Z;
  m_mtime : Z;
  m_atime : Z;
  m_dev : Z;
  m_ino : Z;
}.

Class FileSystem := {
  metadata : bytes -> option Meta;
  symlink_metadata : bytes -> option Meta;
  access : bytes -> Z -> bool;
  isatty : Z -> bool;
  geteuid : Z;
  getegid : Z;
  compat_version : option bytes;   (* CHERUBSH_BASH_COMPAT_VERSION *)
}.

(** [Environment::array_len]. *)
Class ArrayLength (E : Type) := env_array_len : E -> bytes -> nat * E.

Definition W_QUOTED : Z := 2.
Definition W_ARRAYREF : Z := 256.

(** * Operators *)

(** Rust's [<] on [str]: bytes in lexicographic order. *)
Fixpoint bytes_ltb (a b : bytes) : bool :=
  match a, b with
  | [], [] => false
  | [], _ :: _ => true
  | _ :: _, [] => false
  | x :: a, y :: b => if x =? y then bytes_ltb a b else x <? y
  end.

Definition parse_i32 (s : bytes) : option Z :=
  match parse_i64 s with
  | Some z => if (-2147483648 <=? z) && (z <=? 2147483647) then Some z else None
  | None => None
  end.

Definition is_unary_op (c : Z) : bool := existsb (Z.eqb c) (bs "abcdefghkLNOGprsStuwxznovR").

(** [-x] with a unary operator [x]. *)
Definition unary_op (tok : bytes) : option Z :=
  match tok with
  | [d; c] => if (d =? "-"%b) && is_unary_op c then Some c else None
  | _ => None
  end.

Definition is_binary_op (s : bytes) : bool :=
  existsb (fun o => bytes_eqb s (bs o))
    ["="; "=="; "!="; "<"; ">"; "-eq"; "-ne"; "-lt"; "-le"; "-gt"; "-ge"; "-nt"; "-ot"; "-ef"]%string.

Definition bool_to_status (v : bool) : Z := if v then 0 else 1.
Definition invert (status : Z) : Z := if status =? 0 then 1 else if status =? 1 then 0 else status.

(** What is printed: [report_test_error] or [report_bare_diagnostic]. *)
Inductive Diag := DTest (subject message : bytes) | DBare (message : bytes).

Section Test.
Context {E : Type} `{Environment E} `{!ArrayLength E} `{FileSystem}.

(** A result, or an error message, and the environment. *)
Definition TR : Type := Res bytes bool * option E.

Definition parse_test_int (s : bytes) : Z + bytes :=
  match parse_i64 (trim s) with
  | Some z => inl z
  | None =>
      inr (s ++ if match compat_version with Some v => starts_with (bs "5.2") v | None => false end
                then bs ": integer expression expected" else bs ": integer expected")
  end.

Definition newer_than (a b : bytes) : bool :=
  match metadata a, metadata b with
  | Some x, Some y => m_mtime y <? m_mtime x
  | Some _, None => true
  | _, _ => false
  end.

Definition older_than (a b : bytes) : bool :=
  match metadata a, metadata b with
  | Some x, Some y => m_mtime x <? m_mtime y
  | None, Some _ => true
  | _, _ => false
  end.

Definition same_file (a b : bytes) : bool :=
  match metadata a, metadata b with
  | Some x, Some y => (m_dev x =? m_dev y) && (m_ino x =? m_ino y)
  | _, _ => false
  end.

(** [parse_test_int(lhs)? op parse_test_int(rhs)?]. *)
Definition compare_ints (f : Z -> Z -> bool) (lhs rhs : bytes) : Res bytes bool :=
  match parse_test_int lhs with
  | inr e => Err e
  | inl x => match parse_test_int rhs with inr e => Err e | inl y => Ok (f x y) end
  end.

Definition eval_binary_op (op lhs rhs : bytes) : Res bytes bool :=
  let op_is (o : string) := bytes_eqb op (bs o) in
  if op_is "="%string || op_is "=="%string then Ok (bytes_eqb lhs rhs)
  else if op_is "!="%string then Ok (negb (bytes_eqb lhs rhs))
  else if op_is "<"%string then Ok (bytes_ltb lhs rhs)
  else if op_is ">"%string then Ok (bytes_ltb rhs lhs)
  else if op_is "-eq"%string then compare_ints Z.eqb lhs rhs
  else if op_is "-ne"%string then compare_ints (fun x y => negb (x =? y)) lhs rhs
  else if op_is "-lt"%string then compare_ints Z.ltb lhs rhs
  else if op_is "-le"%string then compare_ints Z.leb lhs rhs
  else if op_is "-gt"%string then compare_ints (fun x y => y <? x) lhs rhs
  else if op_is "-ge"%string then compare_ints (fun x y => y <=? x) lhs rhs
  else if op_is "-nt"%string then Ok (newer_than lhs rhs)
  else if op_is "-ot"%string then Ok (older_than lhs rhs)
  else if op_is "-ef"%string then Ok (same_file lhs rhs)
  else Err (op ++ bs ": binary operator expected").

(** [CString::new(path).unwrap_or_default()], then access(2). *)
Definition libc_access (path : bytes) (mode : Z) : bool :=
  access (if existsb (Z.eqb 0) path then [] else path) mode.

Definition some {A} (o : option A) : bool := bool_decide (is_Some o).

Definition variable_is_set (e : E) (arg : bytes) : bool * E :=
  let whole :=
    match env_kind e arg with
    | KAssoc => let '(v, e) := env_get_array_assoc e arg (bs "0") in (some v, e)
    | KIndexed => let '(v, e) := env_get_array_indexed e arg 0 in (some v, e)
    | KUnset => (false, e)
    | _ => (true, e)
    end in
  match find_byte "["%b arg with
  | None => whole
  | Some open =>
      let name := take open arg in
      let subscript := drop (S open) arg in
      if negb (ends_with ["]"%b] subscript) then whole
      else
        let key := removelast subscript in
        if bytes_eqb key (bs "@") || bytes_eqb key (bs "*") then
          match env_kind e name with
          | KAssoc => let '(v, e) := env_get_array_assoc e name key in (some v, e)
          | KIndexed => let '(n, e) := env_array_len e name in ((0 <? n)%nat, e)
          | _ => let '(v, e) := env_get e name in (some v, e)
          end
        else if bool_decide (env_kind e name = KAssoc) && negb (env_option e (bs "assoc_expand_once"))
                && (has_sub (bs "$(") key || existsb (Z.eqb 96) key) then (false, e)
        else
          match parse_i64 key with
          | Some index => let '(v, e) := env_get_array_indexed e name index in (some v, e)
          | None => let '(v, e) := env_get_array_assoc e name key in (some v, e)
          end
  end.

(** The tests of a file's metadata. *)
Definition of_meta (o : option Meta) (f : Meta -> bool) : bool := match o with Some m => f m | None => false end.
Definition file_type (m : Meta) : Z := Z.land (m_mode m) 61440.

Definition unary (op : Z) (arg : bytes) (env : option E) : bool * option E :=
  let meta := metadata arg in
  let has (bit : Z) := of_meta meta (fun m => negb (Z.land (m_mode m) bit =? 0)) in
  let type (t : Z) := of_meta meta (fun m => file_type m =? t) in
  let pure (b : bool) := (b, env) in
  if (op =? "a"%b) || (op =? "e"%b) then pure (some meta || some (symlink_metadata arg))
  else if op =? "b"%b then pure (type 24576)
  else if op =? "c"%b then pure (type 8192)
  else if op =? "d"%b then pure (type 16384)
  else if op =? "f"%b then pure (type 32768)
  else if op =? "g"%b then pure (has 1024)
  else if (op =? "h"%b) || (op =? "L"%b) then pure (of_meta (symlink_metadata arg) (fun m => file_type m =? 40960))
  else if op =? "k"%b then pure (has 512)
  else if op =? "p"%b then pure (type 4096)
  else if op =? "r"%b then pure (libc_access arg 4)
  else if op =? "s"%b then pure (of_meta meta (fun m => 0 <? m_len m))
  else if op =? "u"%b then pure (has 2048)
  else if op =? "w"%b then pure (libc_access arg 2)
  else if op =? "x"%b then pure (libc_access arg 1)
  else if op =? "O"%b then pure (of_meta meta (fun m => m_uid m =? geteuid))
  else if op =? "G"%b then pure (of_meta meta (fun m => m_gid m =? getegid))
  else if op =? "N"%b then pure (of_meta meta (fun m => m_atime m <? m_mtime m))
  else if op =? "S"%b then pure (type 49152)
  else if op =? "t"%b then pure (isatty (default (-1) (parse_i32 (trim arg))))
  else if op =? "z"%b then pure (is_nil arg)
  else if op =? "n"%b then pure (negb (is_nil arg))
  else
    match env with
    | None => pure false
    | Some e =>
        if op =? "o"%b then pure (env_option e arg)
        else if op =? "v"%b then let '(b, e) := variable_is_set e arg in (b, Some e)
        else if op =? "R"%b then pure (bool_decide (env_kind e arg = KNameref))
        else pure false
    end.

Definition eval_unary (op : Z) (arg : bytes) (env : option E) : TR :=
  if (op =? "t"%b) && negb (some (parse_i32 (trim arg))) then (Err (arg ++ bs ": integer expected"), env)
  else let '(b, env) := unary op arg env in (Ok b, env).

Definition eval_unary_expr (op : Z) (arg : bytes) (env : option E) : TR :=
  if (op =? "t"%b) && bytes_eqb arg (bs "0") then (Ok true, env) else eval_unary op arg env.

(** * The parser *)

(** The fields of [Parser] that change, beside the arguments and
    [require_bracket]. *)
Record Parser := mkParser { idx : nat; env : option E }.

Definition PR : Type := Res bytes bool * Parser.

Definition pbind (x : PR) (f : bool -> Parser -> PR) : PR :=
  match x with (Ok v, p) => f v p | (Err e, p) => (Err e, p) | (Fuel, p) => (Fuel, p) end.

Section Parse.
Context (args : list bytes) (require_bracket : bool).

Definition peek (p : Parser) : option bytes := args !! idx p.
Definition peek_is (p : Parser) (s : string) : bool := bool_decide (peek p = Some (bs s)).
Definition skip (p : Parser) : Parser := mkParser (if some (peek p) then S (idx p) else idx p) (env p).

(** The loops of [parse_or] and [parse_and], whose operands [operand] parses. *)
Fixpoint chain (fuel : nat) (op : string) (join : bool -> bool -> bool) (operand : Parser -> PR) (lhs : bool) (p : Parser) : PR :=
  match fuel with
  | O => (Fuel, p)
  | S fuel =>
      if peek_is p op then
        pbind (operand (skip p)) (fun rhs p => chain fuel op join operand (join lhs rhs) p)
      else (Ok lhs, p)
  end.

Definition parse_and (fuel : nat) (operand : Parser -> PR) (p : Parser) : PR :=
  pbind (operand p) (chain fuel "-a" andb operand).

Definition parse_or (fuel : nat) (operand : Parser -> PR) (p : Parser) : PR :=
  pbind (parse_and fuel operand p) (chain fuel "-o" orb (parse_and fuel operand)).

(** The tests without operators. *)
Definition parse_primary (p : Parser) : PR :=
  match peek p with
  | None => (Err (bs "argument expected"), p)
  | Some tok =>
      let p := skip p in
      match unary_op tok with
      | Some op =>
          match peek p with
          | None => (Ok (negb (is_nil tok)), p)
          | Some arg =>
              if bytes_eqb arg (bs ")") then (Ok (negb (is_nil tok)), p)
              else let '(r, e) := eval_unary_expr op arg (env p) in (r, mkParser (idx (skip p)) e)
          end
      | None =>
          match peek p with
          | Some op =>
              if is_binary_op op then
                let p := skip p in
                match peek p with
                | None => (Err (bs "syntax error: `" ++ op ++ bs "' unexpected"), p)
                | Some rhs => (eval_binary_op op tok rhs, skip p)
                end
              else (Ok (negb (is_nil tok)), p)
          | None => (Ok (negb (is_nil tok)), p)
          end
      end
  end.

Fixpoint parse_unary (fuel : nat) (p : Parser) : PR :=
  match fuel with
  | O => (Fuel, p)
  | S fuel =>
      if peek_is p "!" then pbind (parse_unary fuel (skip p)) (fun v p => (Ok (negb v), p))
      else if peek_is p "(" then
        pbind (parse_or fuel (parse_unary fuel) (skip p)) (fun v p =>
          let closer := peek p in
          let p := skip p in
          if bool_decide (closer = Some (bs ")")) then (Ok v, p)
          else if require_bracket && negb (some closer) then (Err (bs "`)' expected, found ]"), p)
          else (Err (bs "`)' expected"), p))
      else parse_primary p
  end.

(** Every call takes at least one argument: one unit of fuel for each is enough. *)
Definition parse_expression (e : option E) : PR :=
  let fuel := S (length args) in parse_or fuel (parse_unary fuel) (mkParser 0 e).
End Parse.

(** * The builtin *)

Record Outcome := mkOutcome { o_status : Res bytes Z; o_diag : list Diag; o_env : option E }.

Definition fails (subject message : bytes) (e : option E) : Outcome := mkOutcome (Ok 2) [DTest subject message] e.
Definition answers (v : bool) (e : option E) : Outcome := mkOutcome (Ok (bool_to_status v)) [] e.
Definition of_result (subject : bytes) (r : TR) : Outcome :=
  match r with
  | (Ok v, e) => answers v e
  | (Err m, e) => fails subject m e
  | (Fuel, e) => mkOutcome Fuel [] e
  end.
Definition inverted (o : Outcome) : Outcome :=
  mkOutcome (match o_status o with Ok st => Ok (invert st) | r => r end) (o_diag o) (o_env o).

(** The first word of an argument ([split_whitespace]). *)
Definition first_word (s : bytes) : bytes :=
  let fix word (l : list Z) : list Z :=
    match l with c :: r => if char_is_whitespace c then [] else c :: word r | [] => [] end in
  let fix start (l : list Z) : list Z :=
    match l with c :: r => if char_is_whitespace c then start r else word l | [] => [] end in
  concat (map encode_utf8 (start (str_chars s))).

Definition binary_or_unary_2 (a b : bytes) (b_flags : Z) (e : option E) (subject : bytes) : Outcome :=
  if bytes_eqb a (bs "!") then answers (is_nil b) e
  else
    match unary_op a with
    | Some ch =>
        if (ch =? "v"%b) && negb (Z.land b_flags W_ARRAYREF =? 0) && (Z.land b_flags W_QUOTED =? 0)
           && has_sub (bs "$(") b && existsb char_is_whitespace (str_chars b)
        then fails subject (first_word b ++ bs ": binary operator expected") e
        else
          let '(message, e) :=
            match e with
            | Some e => if ch =? "v"%b then let '(m, e) := indexed_target_array_expand_once_message e b in (m, Some e)
                        else (None, Some e)
            | None => (None, None)
            end in
          match message with
          | Some m => mkOutcome (Ok 2) [DBare m] e
          | None => of_result subject (eval_unary ch b e)
          end
    | None => fails subject (a ++ bs ": unary operator expected") e
    end.

Definition ternary (a b c : bytes) (e : option E) (subject : bytes) : Outcome :=
  if bytes_eqb b (bs "-a") then answers (negb (is_nil a) && negb (is_nil c)) e
  else if bytes_eqb b (bs "-o") then answers (negb (is_nil a) || negb (is_nil c)) e
  else if is_binary_op b then of_result subject (eval_binary_op b a c, e)
  else if bytes_eqb a (bs "!") then inverted (binary_or_unary_2 b c 0 e subject)
  else if bytes_eqb a (bs "(") && bytes_eqb c (bs ")") then answers (negb (is_nil b)) e
  else fails subject (b ++ bs ": binary operator expected") e.

(** The parser on all the arguments, and its complaints. *)
Definition parsed (args : list bytes) (require_bracket : bool) (e : option E) (subject : bytes) : Outcome :=
  match parse_expression args require_bracket e with
  | (Ok v, p) =>
      if negb (idx p =? length args)%nat then
        fails subject
          (match args !! idx p with
           | Some tok => if starts_with (bs "-") tok then bs "syntax error: `" ++ tok ++ bs "' unexpected" else bs "too many arguments"
           | None => bs "too many arguments"
           end) (env p)
      else answers v (env p)
  | (Err m, p) => fails subject m (env p)
  | (Fuel, p) => mkOutcome Fuel [] (env p)
  end.

Definition quaternary (a b c d : bytes) (e : option E) (require_bracket : bool) (subject : bytes) : Outcome :=
  if bytes_eqb a (bs "!") then inverted (ternary b c d e subject)
  else if bytes_eqb a (bs "(") && bytes_eqb d (bs ")") then binary_or_unary_2 b c 0 e subject
  else parsed [a; b; c; d] require_bracket e subject.

Definition run_args (args : list bytes) (flags : list Z) (require_bracket : bool) (e : option E) (subject : bytes) : Outcome :=
  match args with
  | [] => mkOutcome (Ok 1) [] e
  | [a] => answers (negb (is_nil a)) e
  | [a; b] => binary_or_unary_2 a b (default 0 (flags !! 1%nat)) e subject
  | [a; b; c] => ternary a b c e subject
  | [a; b; c; d] => quaternary a b c d e require_bracket subject
  | _ => parsed args require_bracket e subject
  end.

Definition run_test (raw : list bytes) (raw_flags : list Z) (require_bracket : bool) (e : option E) : Outcome :=
  let subject := if require_bracket then bs "[" else bs "test" in
  if require_bracket then
    if bool_decide (last raw = Some (bs "]")) then run_args (removelast raw) (removelast raw_flags) true e subject
    else fails subject (bs "missing `]'") e
  else run_args raw raw_flags false e subject.
End Test.

#[export] Instance mapenv_length : ArrayLength MapEnv.t :=
  fun e n => (match MapEnv.arrays e !! n with Some a => size a | None => 0%nat end, e).

#[export] Instance no_files : FileSystem := {
  metadata _ := None; symlink_metadata _ := None; access _ _ := false; isatty fd := fd =? 1;
  geteuid := 1000; getegid := 1000; compat_version := None }.

Definition test_status (l : list string) : Res bytes Z := o_status (run_test (map bs l) [] false (Some MapEnv.empty)).

Example test_ex1 : test_status ["!"; "!="; "!"]%string = Ok 1.
Proof. vm_compute. reflexivity. Qed.
Example test_ex2 : test_status ["a"; "-o"; ""; "-a"; ""; "-o"; "!"; ""]%string = Ok 0.
Proof. vm_compute. reflexivity. Qed.
Example test_ex3 : test_status ["("; "3"; "-lt"; " 5 "; ")"; "-a"; "-n"; "x"]%string = Ok 0.
Proof. vm_compute. reflexivity. Qed.
Example test_ex4 : test_status ["("; "a"; "="; "a"; "x"]%string = Ok 2.
Proof. vm_compute. reflexivity. Qed.
