(* ===== verification/TestCmdProps.v ===== *)
(** The builtin test ends with a status, and evaluates expressions by their
    structure. *)
From stdpp Require Import sets.
From S2P Require Import Prelude Env Utf8 HistExpand BuiltinArgs TestCmd.

Section Props.
Context {E : Type} `{Environment E} `{!ArrayLength E} `{FileSystem}.

(** * The parser ends *)

Section Ends.
Context (args : list bytes) (rb : bool).

Definition left_over (p : Parser (E := E)) : nat := length args - idx p.

(** A definite result, and no argument is given back. *)
Definition good (p : Parser (E := E)) (r : PR (E := E)) : Prop := r.1 <> Fuel /\ (idx p <= idx r.2)%nat.

Lemma good_bind p x f : good p x -> (forall v p', x = (Ok v, p') -> (idx p <= idx p')%nat -> good p' (f v p')) -> good p (pbind x f).
Proof.
  intros [Hx Hi] Hf. destruct x as [[v|e|] p']; cbn in *; [|done..].
  destruct (Hf v p' eq_refl Hi). split; [done|lia].
Qed.

Lemma peek_left (p : Parser (E := E)) o : peek_is args p o = true -> (0 < left_over p)%nat /\ left_over (skip args p) = (left_over p - 1)%nat
  /\ idx (skip args p) = S (idx p).
Proof.
  unfold peek_is, peek, left_over, skip. intros Hp%bool_decide_eq_true. cbn [idx]. unfold peek. rewrite Hp.
  apply lookup_lt_Some in Hp. unfold some. rewrite bool_decide_eq_true_2 by done. lia.
Qed.

Lemma skip_ge (p : Parser (E := E)) : (idx p <= idx (skip args p))%nat.
Proof. unfold skip. cbn. case_match; lia. Qed.

Lemma chain_good (F : nat) o join operand : (forall p, (left_over p < F)%nat -> good p (operand p)) ->
  forall n lhs p, (left_over p < n)%nat -> (left_over p < F)%nat -> good p (chain args n o join operand lhs p).
Proof.
  intros Hop. induction n as [|n IH]; intros lhs p Hn HF; [lia|]. cbn [chain].
  destruct (peek_is args p o) eqn:Ep; [|split; done]. destruct (peek_left p o Ep) as (Hl & Hs & Hi).
  assert (Hg : good (skip args p) (pbind (operand (skip args p)) (fun rhs p0 => chain args n o join operand (join lhs rhs) p0))).
  { apply good_bind; [apply Hop; lia|]. intros v p' _ Hp'. unfold left_over in *. apply IH; lia. }
  destruct Hg. split; [done|]. pose proof (skip_ge p). lia.
Qed.

Lemma and_good F operand p : (forall p, (left_over p < F)%nat -> good p (operand p)) -> (left_over p < F)%nat ->
  good p (parse_and args F operand p).
Proof.
  intros Hop Hp. apply good_bind; [by apply Hop|]. intros v p' _ Hi. apply (chain_good F); [done|unfold left_over in *; lia..].
Qed.

Lemma or_good F operand p : (forall p, (left_over p < F)%nat -> good p (operand p)) -> (left_over p < F)%nat ->
  good p (parse_or args F operand p).
Proof.
  intros Hop Hp. apply good_bind; [by apply and_good|]. intros v p' _ Hi.
  apply (chain_good F); [intros q Hq; by apply and_good|unfold left_over in *; lia..].
Qed.

Lemma unary_expr_not_fuel c w (e : option E) : (eval_unary_expr c w e).1 <> Fuel.
Proof. unfold eval_unary_expr, eval_unary. repeat case_match; done. Qed.

Lemma binary_not_fuel o a b : eval_binary_op o a b <> Fuel.
Proof. unfold eval_binary_op, compare_ints. repeat case_match; done. Qed.

Lemma primary_good (p : Parser (E := E)) : good p (parse_primary args p).
Proof.
  unfold parse_primary. destruct (peek args p); [|done]. pose proof (skip_ge p). set (p1 := skip args p) in *.
  pose proof (skip_ge p1). set (p2 := skip args p1) in *. pose proof (skip_ge p2).
  destruct (unary_op _) as [c|].
  - destruct (peek args p1) as [arg|]; [|done]. destruct (bytes_eqb arg (bs ")")); [done|].
    pose proof (unary_expr_not_fuel c arg (TestCmd.env p1)). destruct (eval_unary_expr c arg (TestCmd.env p1)) as [r e].
    split; [done|]. change (idx p <= idx p2)%nat. lia.
  - destruct (peek args p1) as [o|]; [|done]. destruct (is_binary_op o); [|done].
    destruct (peek args p2) as [rhs|]; [split; [apply binary_not_fuel|]|split; [done|]].
    + change (idx p <= idx (skip args p2))%nat. lia.
    + change (idx p <= idx p2)%nat. lia.
Qed.

Lemma unary_good fuel : forall p, (left_over p < fuel)%nat -> good p (parse_unary args rb fuel p).
Proof.
  induction fuel as [|fuel IH]; intros p Hp; [lia|]. cbn [parse_unary].
  destruct (peek_is args p "!") eqn:E1.
  { destruct (peek_left p _ E1) as (Hl & Hs & Hi).
    destruct (good_bind (skip args p) (parse_unary args rb fuel (skip args p)) (fun v p0 => (Ok (negb v), p0))) as [H1 H2];
      [apply IH; lia|done|]. split; [done|lia]. }
  destruct (peek_is args p "(") eqn:E2; [|apply primary_good].
  destruct (peek_left p _ E2) as (Hl & Hs & Hi).
  match goal with |- good p (pbind ?x ?f) => destruct (good_bind (skip args p) x f) as [H1 H2] end; [apply or_good; [done|lia]| |split; [done|lia]].
  intros v p' _ Hp'. pose proof (skip_ge p'). repeat case_match; done.
Qed.
End Ends.

Lemma parsed_ends args rb e subject : exists st, o_status (parsed args rb e subject) = Ok st /\ 0 <= st <= 2.
Proof.
  unfold parsed, parse_expression. destruct (or_good args (S (length args)) (parse_unary args rb (S (length args))) (mkParser 0 e)) as [Hg _].
  { intros p Hp. by apply unary_good. }
  { unfold left_over. cbn. lia. }
  destruct (parse_or _ _ _ _) as [[v|m|] p]; [| |done].
  - case_match; [by exists 2|]. cbn. destruct v; [by exists 0|by exists 1].
  - by exists 2.
Qed.

Lemma result_ends subject (r : TR (E := E)) : r.1 <> Fuel -> exists st, o_status (of_result subject r) = Ok st /\ 0 <= st <= 2.
Proof. destruct r as [[[]|m|] e]; intros Hr; cbn; [by exists 0|by exists 1|by exists 2|done]. Qed.

Lemma two_ends a b fl e subject : exists st, o_status (binary_or_unary_2 (E := E) a b fl e subject) = Ok st /\ 0 <= st <= 2.
Proof.
  unfold binary_or_unary_2. destruct (bytes_eqb a (bs "!")); [destruct b; [by exists 0|by exists 1]|].
  destruct (unary_op a) as [c|]; [|by exists 2]. case_match; [by exists 2|].
  destruct (match e with Some _ => _ | None => _ end) as [[m|] e']; [by exists 2|]. apply result_ends.
  unfold eval_unary. repeat case_match; done.
Qed.

Lemma inverted_ends (o : Outcome (E := E)) : (exists st, o_status o = Ok st /\ 0 <= st <= 2) ->
  exists st, o_status (inverted o) = Ok st /\ 0 <= st <= 2.
Proof.
  intros (st & Hst & Hr). unfold inverted. cbn. rewrite Hst. exists (invert st). split; [done|]. unfold invert.
  repeat case_match; lia.
Qed.

Lemma three_ends a b c e subject : exists st, o_status (ternary (E := E) a b c e subject) = Ok st /\ 0 <= st <= 2.
Proof.
  unfold ternary, answers. destruct (bytes_eqb b (bs "-a")); [cbn; destruct (_ && _); [by exists 0|by exists 1]|].
  destruct (bytes_eqb b (bs "-o")); [cbn; destruct (_ || _); [by exists 0|by exists 1]|].
  destruct (is_binary_op b); [apply result_ends, binary_not_fuel|].
  destruct (bytes_eqb a (bs "!")); [apply inverted_ends, two_ends|].
  destruct (_ && _); [cbn; destruct (negb _); [by exists 0|by exists 1]|by exists 2].
Qed.

(** test and [ always end with one of the statuses 0, 1 and 2, for every
    argument list: the parser gives every argument it looks at at most one turn. *)
Theorem test_ends (raw : list bytes) (flags : list Z) (rb : bool) (e : option E) :
  exists st, o_status (run_test raw flags rb e) = Ok st /\ 0 <= st <= 2.
Proof.
  assert (Hrun : forall args fl subject, exists st, o_status (run_args args fl rb e subject) = Ok st /\ 0 <= st <= 2).
  { intros args fl subject. unfold run_args.
    destruct args as [|a [|b [|c [|d [|x args]]]]]; [by exists 1| | | | |apply parsed_ends].
    - cbn. destruct (negb _); [by exists 0|by exists 1].
    - apply two_ends.
    - apply three_ends.
    - unfold quaternary. destruct (bytes_eqb a (bs "!")); [apply inverted_ends, three_ends|].
      destruct (_ && _); [apply two_ends|apply parsed_ends]. }
  unfold run_test. destruct rb; [|apply Hrun]. case_bool_decide; [apply Hrun|by exists 2].
Qed.

(** * Expressions *)

Inductive texpr :=
| TStr (w : bytes)
| TUn (c : Z) (w : bytes)
| TBin (o a b : bytes)
| TNot (x : texpr)
| TAnd (x y : texpr)
| TOr (x y : texpr).

(** A word that starts no other form. *)
Definition operand_word (w : bytes) : bool :=
  negb (bytes_eqb w (bs "!")) && negb (bytes_eqb w (bs "(")) && negb (some (unary_op w)).

Fixpoint texpr_ok (x : texpr) : bool :=
  match x with
  | TStr w => operand_word w
  | TUn c w => is_unary_op c && negb (bytes_eqb w (bs ")"))
  | TBin o a b => is_binary_op o && operand_word a
  | TNot x => texpr_ok x
  | TAnd x y | TOr x y => texpr_ok x && texpr_ok y
  end.

Definition parens (l : list bytes) : list bytes := bs "(" :: l ++ [bs ")"].

(** The arguments of an expression: [lvl] is 2 for an operand of ! and on the
    right of -a, 1 on its left and on the right of -o, 0 elsewhere. *)
Fixpoint words (lvl : nat) (x : texpr) : list bytes :=
  match x with
  | TStr w => [w]
  | TUn c w => [["-"%b; c]; w]
  | TBin o a b => [a; o; b]
  | TNot x => bs "!" :: words 2 x
  | TAnd x y =>
      let l := words 1 x ++ bs "-a" :: words 2 y in if (1 <? lvl)%nat then parens l else l
  | TOr x y =>
      let l := words 0 x ++ bs "-o" :: words 1 y in if (0 <? lvl)%nat then parens l else l
  end.

(** What it means; both sides of an operator are evaluated. *)
Definition tbind (x : TR (E := E)) (f : bool -> option E -> TR (E := E)) : TR :=
  match x with (Ok v, e) => f v e | (Err m, e) => (Err m, e) | (Fuel, e) => (Fuel, e) end.

Fixpoint denote (x : texpr) (e : option E) : TR :=
  match x with
  | TStr w => (Ok (negb (is_nil w)), e)
  | TUn c w => eval_unary_expr c w e
  | TBin o a b => (eval_binary_op o a b, e)
  | TNot x => tbind (denote x e) (fun v e => (Ok (negb v), e))
  | TAnd x y => tbind (denote x e) (fun v e => tbind (denote y e) (fun w e => (Ok (v && w), e)))
  | TOr x y => tbind (denote x e) (fun v e => tbind (denote y e) (fun w e => (Ok (v || w), e)))
  end.

Lemma denote_not_fuel x : forall e, (denote x e).1 <> Fuel.
Proof.
  induction x as [w|c w|o a b|x IH|x IHx y IHy|x IHx y IHy]; intros e; cbn [denote].
  - done.
  - apply unary_expr_not_fuel.
  - apply binary_not_fuel.
  - specialize (IH e). by destruct (denote x e) as [[v|m|] e'].
  - specialize (IHx e). destruct (denote x e) as [[v|m|] e']; [|done..]. cbn. specialize (IHy e'). by destruct (denote y e') as [[]].
  - specialize (IHx e). destruct (denote x e) as [[v|m|] e']; [|done..]. cbn. specialize (IHy e'). by destruct (denote y e') as [[]].
Qed.

Section Parses.
Context (args : list bytes) (rb : bool).

(** From argument [i] on, the arguments are [l]. *)
Definition here (i : nat) (l : list bytes) : Prop := drop i args = l.

Lemma here_cons i w l : here i (w :: l) -> args !! i = Some w /\ here (S i) l.
Proof.
  unfold here. intros Hd. split.
  - rewrite <- (Nat.add_0_r i), <- lookup_drop, Hd. done.
  - rewrite <- Nat.add_1_r, <- drop_drop, Hd. done.
Qed.

Lemma here_app i l r : here i (l ++ r) -> here (i + length l) r.
Proof. unfold here. intros Hd. rewrite <- drop_drop, Hd. apply drop_app_length. Qed.

Lemma here_nil i : here i [] -> args !! i = None.
Proof. unfold here. intros Hd. rewrite <- (Nat.add_0_r i), <- lookup_drop, Hd. done. Qed.

Lemma here_left i w l : here i (w :: l) -> (i < length args)%nat.
Proof. intros Hd. destruct (here_cons _ _ _ Hd) as [Hl _]. by apply lookup_lt_Some in Hl. Qed.

(** The next argument joins no primary to what follows, and is not [o]. *)
Definition follows (rest : list bytes) (bad : list string) : Prop :=
  match rest with
  | w :: _ => is_binary_op w = false /\ forall o, o ∈ bad -> w <> bs o
  | [] => True
  end.

Lemma peek_here i (e : option E) w l : here i (w :: l) -> peek args (mkParser i e) = Some w.
Proof. intros Hd. apply (here_cons _ _ _ Hd). Qed.

Lemma skip_here i (e : option E) w l : here i (w :: l) -> skip args (mkParser i e) = mkParser (E := E) (S i) e.
Proof. intros Hd. unfold skip. by rewrite (peek_here _ _ _ _ Hd). Qed.

Lemma peek_is_here i (e : option E) w l o : here i (w :: l) -> peek_is args (mkParser i e) o = bytes_eqb w (bs o).
Proof.
  intros Hd. unfold peek_is. rewrite (peek_here _ _ _ _ Hd). destruct (bytes_eqb w (bs o)) eqn:Eb.
  - apply bytes_eqb_eq in Eb as ->. by apply bool_decide_eq_true_2.
  - apply bool_decide_eq_false_2. intros [= ->]. by rewrite bytes_eqb_refl in Eb.
Qed.

Lemma peek_is_follows i (e : option E) rest o bad : here i rest -> follows rest bad -> o ∈ bad -> peek_is args (mkParser i e) o = false.
Proof.
  intros Hd Hf Ho. destruct rest as [|w rest].
  - unfold peek_is, peek. cbn. by rewrite (here_nil _ Hd).
  - rewrite (peek_is_here _ _ _ _ _ Hd). destruct Hf as [_ Hf]. destruct (bytes_eqb w (bs o)) eqn:Eb; [|done].
    apply bytes_eqb_eq in Eb. by destruct (Hf o Ho).
Qed.

(** The result and the environment of [d], and the position [i] on success. *)
Definition agrees (r : PR (E := E)) (d : TR (E := E)) (i : nat) : Prop :=
  match d with
  | (Ok v, e) => r = (Ok v, mkParser i e)
  | (Err m, e) => r.1 = Err m /\ TestCmd.env r.2 = e
  | (Fuel, _) => False
  end.

(** [r] is the rest of a chain after the value of [d]. *)
Definition goes_on (r : PR (E := E)) (d : TR (E := E)) (i : nat) (o : string) (join : bool -> bool -> bool)
    (operand : Parser -> PR) : Prop :=
  match d with
  | (Ok v, e) => exists n, (length args - i < n)%nat /\ r = chain args n o join operand v (mkParser i e)
  | (Err m, e) => r.1 = Err m /\ TestCmd.env r.2 = e
  | (Fuel, _) => False
  end.

Lemma agrees_bind x d i f : agrees x d i ->
  pbind x f = match d with (Ok v, e) => f v (mkParser i e) | _ => x end.
Proof.
  destruct d as [[v|m|] e]; cbn; [by intros -> | |done]. intros [Hx _]. destruct x as [[]]; cbn in *; congruence.
Qed.

Definition parses_unary (x : texpr) : Prop := forall fuel i e rest,
  here i (words 2 x ++ rest) -> follows rest [] -> (length args - i < fuel)%nat ->
  agrees (parse_unary args rb fuel (mkParser i e)) (denote x e) (i + length (words 2 x)).

Definition parses_and (x : texpr) : Prop := forall fuel n i e rest,
  here i (words 1 x ++ rest) -> follows rest [] -> (length args - i < fuel)%nat -> (length args - i < n)%nat ->
  goes_on (pbind (parse_unary args rb fuel (mkParser i e)) (chain args n "-a" andb (parse_unary args rb fuel)))
    (denote x e) (i + length (words 1 x)) "-a" andb (parse_unary args rb fuel).

Definition parses_or (x : texpr) : Prop := forall fuel n i e rest,
  here i (words 0 x ++ rest) -> follows rest ["-a"%string] -> (length args - i < fuel)%nat -> (length args - i < n)%nat ->
  goes_on (pbind (parse_and args fuel (parse_unary args rb fuel) (mkParser i e))
             (chain args n "-o" orb (parse_and args fuel (parse_unary args rb fuel))))
    (denote x e) (i + length (words 0 x)) "-o" orb (parse_and args fuel (parse_unary args rb fuel)).

(** A chain whose operator does not come next is over. *)
Lemma goes_on_stops r d i o join operand rest bad : goes_on r d i o join operand -> here i rest -> follows rest bad -> o ∈ bad ->
  agrees r d i.
Proof.
  intros Hg Hh Hf Ho. destruct d as [[v|m|] e]; [|done..]. destruct Hg as (n & Hn & ->). destruct n as [|n]; [lia|].
  cbn [chain]. by rewrite (peek_is_follows _ _ _ _ _ Hh Hf Ho).
Qed.

Lemma follows_weaken rest bad bad' : follows rest bad -> bad' ⊆ bad -> follows rest bad'.
Proof. destruct rest; [done|]. intros [H1 H2] Hs. split; [done|]. intros o Ho. apply H2. by apply Hs. Qed.

Lemma and_parsed x fuel i e rest : parses_and x -> here i (words 1 x ++ rest) -> follows rest ["-a"%string] ->
  (length args - i < fuel)%nat ->
  agrees (parse_and args fuel (parse_unary args rb fuel) (mkParser i e)) (denote x e) (i + length (words 1 x)).
Proof.
  intros Hx Hh Hf Hl. unfold parse_and. eapply goes_on_stops; [eapply Hx; [exact Hh| |done..]| | |].
  - eapply follows_weaken; [exact Hf|]. set_solver.
  - by apply here_app.
  - exact Hf.
  - set_solver.
Qed.

Lemma and_of_unary x : words 1 x = words 2 x -> parses_unary x -> parses_and x.
Proof.
  intros Hw Hx fuel n i e rest Hh Hf Hl Hn. rewrite Hw in *. specialize (Hx fuel i e rest Hh Hf Hl).
  rewrite (agrees_bind _ _ _ _ Hx). destruct (denote x e) as [[v|m|] e']; [|done..]. exists n. split; [lia|done].
Qed.

Lemma or_of_and x : words 0 x = words 1 x -> parses_and x -> parses_or x.
Proof.
  intros Hw Hx fuel n i e rest Hh Hf Hl Hn. rewrite Hw in *. pose proof (and_parsed x fuel i e rest Hx Hh Hf Hl) as Ha.
  rewrite (agrees_bind _ _ _ _ Ha). destruct (denote x e) as [[v|m|] e']; [|done..]. exists n. split; [lia|done].
Qed.

Lemma unary_of_or x : words 2 x = parens (words 0 x) -> parses_or x -> parses_unary x.
Proof.
  intros Hw Hx fuel i e rest Hh Hf Hl. rewrite Hw in *. unfold parens in Hh. cbn [app] in Hh.
  destruct fuel as [|fuel]; [lia|]. destruct (here_cons _ _ _ Hh) as [_ Hh1]. pose proof (here_left _ _ _ Hh) as Hi.
  cbn [parse_unary]. rewrite !(peek_is_here _ _ _ _ _ Hh). change (bytes_eqb (bs "(") (bs "!")) with false.
  change (bytes_eqb (bs "(") (bs "(")) with true. cbn match. rewrite (skip_here _ _ _ _ Hh). rewrite <- app_assoc in Hh1. cbn [app] in Hh1.
  assert (HfA : follows (bs ")" :: rest) ["-a"%string]) by (split; [done|]; intros o ->%list_elem_of_singleton; done).
  assert (HfO : follows (bs ")" :: rest) ["-o"%string]) by (split; [done|]; intros o ->%list_elem_of_singleton; done).
  pose proof (Hx fuel fuel (S i) e (bs ")" :: rest) Hh1 HfA ltac:(lia) ltac:(lia)) as Hg. apply here_app in Hh1 as Hclose.
  eapply goes_on_stops in Hg; [|exact Hclose|exact HfO|set_solver].
  fold (parse_or args fuel (parse_unary args rb fuel) (mkParser (S i) e)) in Hg.
  rewrite (agrees_bind _ _ _ _ Hg). destruct (denote x e) as [[v|m|] e']; [|done..].
  rewrite (peek_here _ _ _ _ Hclose). rewrite bool_decide_eq_true_2 by done. rewrite (skip_here _ _ _ _ Hclose).
  cbn. do 2 f_equal. rewrite length_app. cbn. lia.
Qed.

Lemma word_heads w : operand_word w = true -> bytes_eqb w (bs "!") = false /\ bytes_eqb w (bs "(") = false /\ unary_op w = None.
Proof.
  unfold operand_word, some. rewrite !andb_true_iff, !negb_true_iff. intros [[-> ->] Hu]. split; [done|]. split; [done|].
  destruct (unary_op w); [|done]. apply bool_decide_eq_false in Hu. exfalso. by apply Hu.
Qed.

(** The three primaries. *)
Lemma primary_parsed x : match x with TStr _ | TUn _ _ | TBin _ _ _ => True | _ => False end -> texpr_ok x = true -> parses_unary x.
Proof.
  intros Hp Hok fuel i e rest Hh Hf Hl. destruct fuel as [|fuel]; [lia|].
  assert (Hgo : parse_primary args (mkParser i e) = parse_unary args rb (S fuel) (mkParser i e)
                /\ agrees (parse_primary args (mkParser i e)) (denote x e) (i + length (words 2 x))); [|destruct Hgo as [<- Ha]; exact Ha].
  destruct x as [w|c w|o a b|x|x y|x y]; try done; cbn [words app length denote texpr_ok] in *.
  - destruct (word_heads w Hok) as (H1 & H2 & H3). destruct (here_cons _ _ _ Hh) as [_ Hr]. split.
    { cbn [parse_unary]. by rewrite !(peek_is_here _ _ _ _ _ Hh), H1, H2. }
    unfold parse_primary. rewrite (peek_here _ _ _ _ Hh), (skip_here _ _ _ _ Hh), H3.
    replace (i + 1)%nat with (S i) by lia. destruct rest as [|r rest].
    + unfold peek. cbn [idx]. by rewrite (here_nil _ Hr).
    + rewrite (peek_here _ _ _ _ Hr). destruct Hf as [-> _]. done.
  - apply andb_true_iff in Hok as [Hc Hw]. apply negb_true_iff in Hw. destruct (here_cons _ _ _ Hh) as [_ Hr]. split.
    { cbn [parse_unary]. by rewrite !(peek_is_here _ _ _ _ _ Hh). }
    unfold parse_primary. rewrite (peek_here _ _ _ _ Hh), (skip_here _ _ _ _ Hh). unfold unary_op at 1. rewrite Z.eqb_refl, Hc. cbn [andb].
    rewrite (peek_here _ _ _ _ Hr), Hw, (skip_here _ _ _ _ Hr). cbn [TestCmd.env idx]. pose proof (unary_expr_not_fuel c w e).
    destruct (eval_unary_expr c w e) as [[v|m|] e']; cbn; [|done..]. do 2 f_equal. lia.
  - apply andb_true_iff in Hok as [Ho Ha]. destruct (word_heads a Ha) as (H1 & H2 & H3). destruct (here_cons _ _ _ Hh) as [_ Hr].
    destruct (here_cons _ _ _ Hr) as [_ Hr2]. split.
    { cbn [parse_unary]. by rewrite !(peek_is_here _ _ _ _ _ Hh), H1, H2. }
    unfold parse_primary. rewrite (peek_here _ _ _ _ Hh), (skip_here _ _ _ _ Hh), H3.
    rewrite (peek_here _ _ _ _ Hr), Ho, (skip_here _ _ _ _ Hr), (peek_here _ _ _ _ Hr2), (skip_here _ _ _ _ Hr2).
    pose proof (binary_not_fuel o a b). destruct (eval_binary_op o a b); cbn; [|done..]. do 2 f_equal. lia.
Qed.

Lemma not_parsed x : parses_unary x -> parses_unary (TNot x).
Proof.
  intros Hx fuel i e rest Hh Hf Hl. cbn [words app] in Hh. destruct fuel as [|fuel]; [lia|].
  destruct (here_cons _ _ _ Hh) as [_ Hr]. pose proof (here_left _ _ _ Hh).
  cbn [parse_unary]. rewrite (peek_is_here _ _ _ _ _ Hh), bytes_eqb_refl, (skip_here _ _ _ _ Hh).
  pose proof (Hx fuel (S i) e rest Hr Hf ltac:(lia)) as Ha. rewrite (agrees_bind _ _ _ _ Ha). cbn [denote words length].
  destruct (denote x e) as [[v|m|] e']; cbn; [|done..]. do 2 f_equal. lia.
Qed.

Lemma and_joined x y : parses_and x -> parses_unary y -> parses_and (TAnd x y).
Proof.
  intros Hx Hy fuel n i e rest Hh Hf Hl Hn. change (words 1 (TAnd x y)) with (words 1 x ++ bs "-a" :: words 2 y) in *.
  rewrite <- app_assoc in Hh. cbn [app] in Hh.
  assert (Hfa : follows (bs "-a" :: words 2 y ++ rest) []) by (split; [done|]; intros o Ho; by apply not_elem_of_nil in Ho).
  pose proof (Hx fuel n i e _ Hh Hfa Hl Hn) as Hg. apply here_app in Hh as Hop. destruct (here_cons _ _ _ Hop) as [_ Hrest].
  pose proof (here_left _ _ _ Hop) as Hlt. cbn [denote]. destruct (denote x e) as [[v|m|] e']; [|done..]. destruct Hg as (k & Hk & ->).
  destruct k as [|k]; [lia|]. cbn [chain]. rewrite (peek_is_here _ _ _ _ _ Hop), bytes_eqb_refl, (skip_here _ _ _ _ Hop).
  pose proof (Hy fuel (S (i + length (words 1 x))) e' rest Hrest Hf ltac:(lia)) as Ha. rewrite (agrees_bind _ _ _ _ Ha). cbn [tbind].
  destruct (denote y e') as [[w|m|] e'']; cbn [tbind]; [|done..]. exists k. rewrite length_app. cbn [length]. split; [lia|]. f_equal. f_equal. lia.
Qed.

Lemma or_joined x y : parses_or x -> parses_and y -> parses_or (TOr x y).
Proof.
  intros Hx Hy fuel n i e rest Hh Hf Hl Hn. change (words 0 (TOr x y)) with (words 0 x ++ bs "-o" :: words 1 y) in *.
  rewrite <- app_assoc in Hh. cbn [app] in Hh.
  assert (Hfa : follows (bs "-o" :: words 1 y ++ rest) ["-a"%string]) by (split; [done|]; intros o ->%list_elem_of_singleton; done).
  pose proof (Hx fuel n i e _ Hh Hfa Hl Hn) as Hg. apply here_app in Hh as Hop. destruct (here_cons _ _ _ Hop) as [_ Hrest].
  pose proof (here_left _ _ _ Hop) as Hlt. cbn [denote]. destruct (denote x e) as [[v|m|] e']; [|done..]. destruct Hg as (k & Hk & ->).
  destruct k as [|k]; [lia|]. cbn [chain]. rewrite (peek_is_here _ _ _ _ _ Hop), bytes_eqb_refl, (skip_here _ _ _ _ Hop).
  pose proof (and_parsed y fuel (S (i + length (words 0 x))) e' rest Hy Hrest Hf ltac:(lia)) as Ha. rewrite (agrees_bind _ _ _ _ Ha). cbn [tbind].
  destruct (denote y e') as [[w|m|] e'']; cbn [tbind]; [|done..]. exists k. rewrite length_app. cbn [length]. split; [lia|]. f_equal. f_equal. lia.
Qed.

Lemma expression_parsed x : texpr_ok x = true -> parses_unary x /\ parses_and x /\ parses_or x.
Proof.
  assert (Hup : forall x, words 1 x = words 2 x -> words 0 x = words 1 x -> parses_unary x -> parses_unary x /\ parses_and x /\ parses_or x).
  { intros y H1 H2 Hu. split; [done|]. assert (parses_and y) by (by apply and_of_unary). split; [done|]. by apply or_of_and. }
  induction x as [w|c w|o a b|x IH|x IHx y IHy|x IHx y IHy]; intros Hok.
  - apply Hup; [done..|]. by apply primary_parsed.
  - apply Hup; [done..|]. by apply primary_parsed.
  - apply Hup; [done..|]. by apply primary_parsed.
  - apply Hup; [done..|]. apply not_parsed. by apply IH.
  - apply andb_true_iff in Hok as [Hx Hy]. assert (Ha : parses_and (TAnd x y)) by (apply and_joined; [by apply IHx|by apply IHy]).
    assert (Ho : parses_or (TAnd x y)) by (by apply or_of_and). split; [|done]. by apply unary_of_or.
  - apply andb_true_iff in Hok as [Hx Hy]. assert (Ho : parses_or (TOr x y)) by (apply or_joined; [by apply IHx|by apply IHy]).
    assert (Hu : parses_unary (TOr x y)) by (by apply unary_of_or). split; [done|]. split; [|done]. by apply and_of_unary.
Qed.
End Parses.

(** C10: [test] evaluates an expression by its structure: given the arguments of an expression
    tree, with [!] binding closer than [-a] and [-a] closer than [-o] and parentheses where the
    tree needs them, the outcome is the denotation of the tree: status 0 or 1 for its value, 2
    and the message for its first error, and the environment its primaries leave; both sides of
    [-a] and [-o] are evaluated, and the primaries mean what the code of the single operators
    computes. The tree has five words or more (fewer follow the rules by count); a string on its
    own and the left operand of a binary operator are not [!], a parenthesis [(] or a unary
    operator, and the operand of a unary operator is not [)]. *)
Theorem test_refines_denotation (x : texpr) (flags : list Z) (e : option E) :
  texpr_ok x = true -> (5 <= length (words 0 x))%nat ->
  run_test (words 0 x) flags false e = of_result (bs "test") (denote x e).
Proof.
  intros Hok Hlen. unfold run_test, run_args. destruct (words 0 x) as [|a [|b [|c [|d [|f ws]]]]] eqn:Ew; try (cbn in Hlen; lia).
  rewrite <- Ew in *. set (args := words 0 x). unfold parsed, parse_expression.
  destruct (expression_parsed args false x Hok) as (_ & _ & Ho).
  pose proof (Ho (S (length args)) (S (length args)) 0%nat e []) as Hg. rewrite app_nil_r in Hg.
  specialize (Hg eq_refl I ltac:(lia) ltac:(lia)). cbn [Nat.add] in Hg.
  assert (Hend : here args (length args) []) by (apply drop_all).
  apply (goes_on_stops args _ _ _ _ _ _ [] ["-o"%string]) in Hg; [|exact Hend|done|set_solver].
  fold (parse_or args (S (length args)) (parse_unary args false (S (length args))) (mkParser 0 e)) in Hg.
  destruct (denote x e) as [[v|m|] e']; cbn [agrees] in Hg; [| |done].
  - rewrite Hg. cbn [idx TestCmd.env of_result]. by rewrite Nat.eqb_refl.
  - destruct (parse_or _ _ _ _) as [r p]. destruct Hg as [Hr He]. cbn in Hr, He. by rewrite Hr, He.
Qed.
End Props.

Definition sample : texpr := TAnd (TNot (TBin (bs "-lt") (bs "5") (bs "3"))) (TOr (TStr []) (TUn "n"%b (bs "x"))).

Lemma test_refines_denotation_witness :
  words 0 sample = map bs ["!"; "5"; "-lt"; "3"; "-a"; "("; ""; "-o"; "-n"; "x"; ")"]%string
  /\ run_test (words 0 sample) [] false (Some MapEnv.empty) = answers true (Some MapEnv.empty).
Proof.
  split; [reflexivity|]. rewrite (test_refines_denotation sample [] (Some MapEnv.empty)); [|reflexivity|cbn; lia].
  vm_compute. reflexivity.
Defined.

(** Inside a longer expression -t 0 holds whatever descriptor 0 is, while test -t 0
    asks the terminal. *)
Theorem terminal_test_in_expression :
  isatty 0 = false
  /\ test_status ["-t"; "0"]%string = Ok 1
  /\ test_status ["-t"; "0"; "-a"; "x"; "="; "x"]%string = Ok 0.
Proof. vm_compute. done. Qed.
