(* ===== verification/Getopts.v ===== *)
(** The builtin getopts (crates/builtins/src/getopts.rs).  Its state between two
    calls is in shell variables: OPTIND, and two of its own for the position
    inside a group of options.

    A loop over getopts yields the options of the arguments as POSIX reads them,
    for every store of variables that keeps what is assigned to it. *)
From stdpp Require Import gmap.
From S2P Require Import Prelude Env Utf8 History Options Vars VarsProps Nameref BuiltinArgs.

Definition NEXT_CHAR_VAR : bytes := bs "_CHERUBSH_GETOPTS_NEXT".
Definition LAST_OPTIND_VAR : bytes := bs "_CHERUBSH_GETOPTS_OPTIND".

(** The methods of [Environment] getopts needs beside those of the class. *)
Class OptionEnv (E : Type) := {
  env_unset : E -> bytes -> E;
  env_set : E -> bytes -> bytes -> E;
  env_positional : E -> Z -> option bytes;
  env_positional_count : E -> Z;
}.

(** What is printed. *)
Inductive GDiag :=
| GUsage
| GInvalidOption (c : Z)
| GNotIdentifier (name : bytes)
| GRequiresArgument (shell : bytes) (c : Z)
| GIllegalOption (shell : bytes) (c : Z)
| GAssign (err : AssignError).

(** [option_spec]: whether the option is known, and takes an argument. *)
Fixpoint spec_loop (body : bytes) (opt : Z) : option bool :=
  match body with
  | [] => None
  | ch :: r =>
      if ch =? ":"%b then spec_loop r opt
      else
        match r with
        | c :: r' =>
            if c =? ":"%b then if ch =? opt then Some true else spec_loop r' opt
            else if ch =? opt then Some false else spec_loop r opt
        | [] => if ch =? opt then Some false else None
        end
  end.

Definition option_spec (optstring : bytes) (opt : Z) : option bool :=
  spec_loop (match optstring with ":"%b :: r => r | _ => optstring end) opt.

(** [&s[k..]]: [None] where it panics. *)
Definition str_from (s : bytes) (k : nat) : option bytes :=
  if (k <=? length s)%nat && negb (match s !! k with Some b => is_cont b | None => false end) then Some (drop k s) else None.

(** A byte as a [char], and its text. *)
Definition byte_text (b : Z) : bytes := encode_utf8 b.

Section Getopts.
Context {E : Type} `{Environment E} `{!OptionEnv E}.

(** The environment and what was printed. *)
Definition GS : Type := E * list GDiag.

Definition g_assign (name value : bytes) (s : GS) : GS :=
  let '(e, d) := s in
  match env_assign e name value with
  | (None, e) => (e, d)
  | (Some err, e) => (e, d ++ [GAssign err])
  end.
Definition g_unset (name : bytes) (s : GS) : GS := (env_unset s.1 name, s.2).
Definition g_set (name value : bytes) (s : GS) : GS := (env_set s.1 name value, s.2).

Section Walk.
Context (optstring name : bytes) (source : list bytes) (last_optind_var next_char_var : bytes).

Definition set_inner (optind next_char : Z) (s : GS) : GS :=
  g_set next_char_var (u_to_string next_char) (g_set last_optind_var (u_to_string optind) s).
Definition reset_inner (optind : Z) (s : GS) : GS :=
  g_set next_char_var (bs "1") (g_set last_optind_var (u_to_string optind) s).

Definition assign_optind (optind : Z) (s : GS) : GS := g_assign (bs "OPTIND") (u_to_string optind) s.

(** The end of the options. *)
Definition finish (s : GS) : GS := g_unset (bs "OPTARG") (g_assign name (bs "?") s).
Definition past_end (s : GS) : GS :=
  let end_ := Z.of_nat (length source) + 1 in reset_inner end_ (assign_optind end_ (finish s)).

Definition shell_name (e : E) : bytes := default (bs "cherubsh") (env_positional e 0).

(** Messages are printed unless OPTERR is 0. *)
Definition g_report (d : bytes -> GDiag) (s : GS) : GS :=
  let '(e, ds) := s in
  let '(v, e) := env_get e (bs "OPTERR") in
  if bool_decide (v = Some (bs "0")) then (e, ds) else (e, ds ++ [d (shell_name e)]).

(** To the next character of the argument, or to the next argument. *)
Definition advance_option (arg : bytes) (optind next_char : Z) (s : GS) : GS :=
  if next_char + 1 <? Z.of_nat (length arg) then set_inner optind (next_char + 1) (assign_optind optind s)
  else reset_inner (optind + 1) (assign_optind (optind + 1) s).

(** The option [c] of [arg] at [next_char]. *)
Definition take_option (arg : bytes) (optind next_char c : Z) (s : GS) : option GS :=
  let silent := starts_with [":"%b] optstring in
  match option_spec optstring c with
  | Some true =>
      rest ← str_from arg (Z.to_nat (next_char + 1));
      Some
        (if negb (is_nil rest) then
           reset_inner (optind + 1) (assign_optind (optind + 1) (g_assign name (byte_text c) (g_assign (bs "OPTARG") rest s)))
         else
           match source !! Z.to_nat optind with
           | Some val =>
               reset_inner (optind + 2) (assign_optind (optind + 2) (g_assign name (byte_text c) (g_assign (bs "OPTARG") val s)))
           | None =>
               reset_inner (optind + 1) (assign_optind (optind + 1)
                 (if silent then g_assign name (bs ":") (g_assign (bs "OPTARG") (byte_text c) s)
                  else finish (g_report (fun sh => GRequiresArgument sh c) s)))
           end)
  | Some false => Some (advance_option arg optind next_char (g_assign name (byte_text c) (g_unset (bs "OPTARG") s)))
  | None =>
      Some (advance_option arg optind next_char
        (if silent then g_assign name (bs "?") (g_assign (bs "OPTARG") (byte_text c) s)
         else finish (g_report (fun sh => GIllegalOption sh c) s)))
  end.

(** [walk]: the status and the state; [None] where the program panics. *)
Definition walk (optind next_char : Z) (s : GS) : option (Z * GS) :=
  let optind := if optind =? 0 then 1 else optind in
  let next_char := if next_char =? 0 then 1 else next_char in
  if Z.of_nat (length source) <? optind then Some (1, past_end s)
  else
    let arg := default [] (source !! Z.to_nat (optind - 1)) in
    if bytes_eqb arg (bs "--") then Some (1, reset_inner (optind + 1) (assign_optind (optind + 1) (finish s)))
    else if negb (starts_with ["-"%b] arg) || (length arg <? 2)%nat then Some (1, reset_inner optind (finish s))
    else
      let over := Z.of_nat (length arg) <=? next_char in
      let optind := if over then optind + 1 else optind in
      let next_char := if over then 1 else next_char in
      if Z.of_nat (length source) <? optind then Some (1, past_end s)
      else
        let arg := default [] (source !! Z.to_nat (optind - 1)) in
        let cur_char := default "?"%b (arg !! Z.to_nat next_char) in
        s ← take_option arg optind next_char cur_char s; Some (0, s).
End Walk.

Definition collect_positionals (e : E) : list bytes :=
  omap (fun i => env_positional e (Z.of_nat i)) (seq 1 (Z.to_nat (env_positional_count e))).

Definition get_usize (name : bytes) (e : E) : option Z * E :=
  let '(v, e) := env_get e name in (v ≫= parse_u64, e).

(** [run]; [depth] is the function depth. *)
Definition getopts_run (args : list bytes) (depth : Z) (s : GS) : option (Z * GS) :=
  match args with
  | optstring :: name :: rest =>
      match optstring with
      | "-"%b :: opt =>
          Some (2, (s.1, s.2 ++ [GInvalidOption (default "-"%b (head (str_chars opt))); GUsage]))
      | _ =>
          if negb (is_valid_name name) then
            Some (1, g_assign (bs "OPTIND") (bs "2") (s.1, s.2 ++ [GNotIdentifier name]))
          else
            let last_optind_var := LAST_OPTIND_VAR ++ bs "_" ++ u_to_string depth in
            let next_char_var := NEXT_CHAR_VAR ++ bs "_" ++ u_to_string depth in
            let '(optind, e) := get_usize (bs "OPTIND") s.1 in
            let optind := default 1 optind in
            let '(last_optind, e) := get_usize last_optind_var e in
            let '(next_char, e) :=
              if bool_decide (last_optind = Some optind) then
                let '(n, e) := get_usize next_char_var e in (default 1 n, e)
              else (1, e) in
            let source := if is_nil rest then collect_positionals e else rest in
            walk optstring name source last_optind_var next_char_var optind next_char (e, s.2)
      end
  | _ => Some (2, (s.1, s.2 ++ [GUsage]))
  end.
End Getopts.

#[export] Instance mapenv_options : OptionEnv MapEnv.t := {
  env_unset e n := MapEnv.mk (base.delete n (MapEnv.vars e)) (MapEnv.arrays e);
  env_set := MapEnv.set;
  env_positional e i := None;
  env_positional_count e := 0;
}.

(** [while getopts optstring name args; do ...; done]: what each round leaves in
    [name] and OPTARG, and what the last call leaves in OPTIND. *)
Fixpoint collect {E} `{Environment E} `{!OptionEnv E} (rounds : nat) (optstring name : bytes) (args : list bytes) (depth : Z)
    (s : GS (E := E)) : option (list (option bytes * option bytes) * option bytes) :=
  match rounds with
  | O => None
  | S rounds =>
      '(st, s) ← getopts_run (optstring :: name :: args) depth s;
      if (st =? 0) then
        '(l, fin) ← collect rounds optstring name args depth s;
        Some (((env_get s.1 name).1, (env_get s.1 (bs "OPTARG")).1) :: l, fin)
      else Some ([], (env_get s.1 (bs "OPTIND")).1)
  end.

Example getopts_ex : collect 10 (bs ":ab:c") (bs "o") (map bs ["-ab"; "x"; "-cbY"; "-z"; "-"; "-a"]%string) 0
    (MapEnv.set MapEnv.empty (bs "OPTIND") (bs "1"), [])
  = Some ([(Some (bs "a"), None); (Some (bs "b"), Some (bs "x")); (Some (bs "c"), None); (Some (bs "b"), Some (bs "Y"));
           (Some (bs "?"), Some (bs "z"))], Some (bs "5")).
Proof. vm_compute. reflexivity. Qed.

(** * What getopts asks of the variables *)

(** On the names in [names], the store behaves as a map. *)
Class OptionStore (E : Type) `{Environment E} `{!OptionEnv E} (names : list bytes) (ok : E -> Prop) := {
  store_get e n : ok e -> n ∈ names -> (env_get e n).2 = e;
  store_assign e n v : ok e -> n ∈ names -> exists e', env_assign e n v = (None, e') /\ ok e'
    /\ forall m, m ∈ names -> (env_get e' m).1 = if decide (m = n) then Some v else (env_get e m).1;
  store_set e n v : ok e -> n ∈ names -> ok (env_set e n v)
    /\ forall m, m ∈ names -> (env_get (env_set e n v) m).1 = if decide (m = n) then Some v else (env_get e m).1;
  store_unset e n : ok e -> n ∈ names -> ok (env_unset e n)
    /\ forall m, m ∈ names -> (env_get (env_unset e n) m).1 = if decide (m = n) then None else (env_get e m).1;
}.

(** * Options as POSIX reads them *)

Inductive opt_event := OOption (c : Z) (arg : option bytes) | OUnknown (c : Z) | OMissing (c : Z).

(** The options of one argument; [next] is the argument after it, and the flag
    says whether it was taken. *)
Fixpoint cluster (optstring cs : bytes) (next : option bytes) : list opt_event * bool :=
  match cs with
  | [] => ([], false)
  | c :: cs =>
      match option_spec optstring c with
      | None => let '(l, b) := cluster optstring cs next in (OUnknown c :: l, b)
      | Some false => let '(l, b) := cluster optstring cs next in (OOption c None :: l, b)
      | Some true =>
          match cs, next with
          | _ :: _, _ => ([OOption c (Some cs)], false)
          | [], Some v => ([OOption c (Some v)], true)
          | [], None => ([OMissing c], false)
          end
      end
  end.

Definition option_like (a : bytes) : bool := starts_with ["-"%b] a && (2 <=? length a)%nat.

(** The options, and how many arguments come before the operands. *)
Fixpoint posix_options (optstring : bytes) (args : list bytes) : list opt_event * nat :=
  match args with
  | [] => ([], 0%nat)
  | a :: r =>
      if bytes_eqb a (bs "--") then ([], 1%nat)
      else if negb (option_like a) then ([], 0%nat)
      else
        let '(l, took) := cluster optstring (drop 1 a) (head r) in
        match took, r with
        | true, _ :: r' => let '(l', n) := posix_options optstring r' in (l ++ l', S (S n))
        | _, _ => let '(l', n) := posix_options optstring r in (l ++ l', S n)
        end
  end.

(** The same from inside an argument. *)
Definition options_from (optstring cs : bytes) (r : list bytes) : list opt_event * nat :=
  let '(l, took) := cluster optstring cs (head r) in
  match took, r with
  | true, _ :: r' => let '(l', n) := posix_options optstring r' in (l ++ l', S (S n))
  | _, _ => let '(l', n) := posix_options optstring r in (l ++ l', S n)
  end.

(** What the script sees of an option: the variable and OPTARG. *)
Definition report (silent : bool) (o : opt_event) : option bytes * option bytes :=
  match o with
  | OOption c arg => (Some [c], arg)
  | OUnknown c => (Some (bs "?"), if silent then Some [c] else None)
  | OMissing c => if silent then (Some (bs ":"), Some [c]) else (Some (bs "?"), None)
  end.

(** * Numbers *)

Lemma parse_u64_to_string n : 0 <= n < 2 ^ 64 -> parse_u64 (u_to_string n) = Some n.
Proof.
  intros Hn. destruct (u_to_string_spec n) as (Hne & Hd & Hv); [lia|]. unfold parse_u64.
  assert (strip_plus (u_to_string n) = u_to_string n) as ->.
  { destruct (u_to_string n) as [|d ds]; [done|]. inversion Hd as [|? ? Hdig _]; subst. cbn.
    destruct (decide (d = "+"%b)) as [->|Hne']; [done|]. destruct d as [|d|d]; try done.
    repeat (destruct d as [d|d|]; try done). }
  destruct (u_to_string n) eqn:Eu; [done|]. rewrite Hv. by rewrite (proj2 (Z.ltb_lt _ _)) by lia.
Qed.

(** * One call *)

Ltac decides :=
  repeat match goal with |- context [decide (?a = ?b)] => destruct (decide (a = b)) as [?|?]; try congruence end.

Section Calls.
Context {E : Type} `{Environment E} `{!OptionEnv E}.
Context (optstring name : bytes) (args : list bytes) (depth : Z) (ok : E -> Prop).

Definition last_var : bytes := LAST_OPTIND_VAR ++ bs "_" ++ u_to_string depth.
Definition next_var : bytes := NEXT_CHAR_VAR ++ bs "_" ++ u_to_string depth.
Definition used_names : list bytes := [name; bs "OPTIND"; bs "OPTARG"; bs "OPTERR"; last_var; next_var].

Context `{!OptionStore E used_names ok}.
Context (Hdup : NoDup used_names) (Hname : is_valid_name name = true) (Hopt : head optstring <> Some "-"%b)
  (Hargs : args <> []) (Hascii : Forall (Forall (fun b => 0 <= b < 128)) args) (Hsize : Z.of_nat (length args) < 2 ^ 32)
  (Hlong : Forall (fun a => Z.of_nat (length a) < 2 ^ 32) args).

Definition view (s : GS (E := E)) (m : bytes) : option bytes := (env_get s.1 m).1.
Definition fine (s : GS (E := E)) : Prop := ok s.1.

(** The position getopts reads from the variables. *)
Definition number_in (s : GS (E := E)) (m : bytes) : option Z := view s m ≫= parse_u64.
Definition at_position (s : GS (E := E)) (optind next : Z) : Prop :=
  0 <= optind < 2 ^ 64 /\ view s (bs "OPTIND") = Some (u_to_string optind)
  /\ (if bool_decide (number_in s last_var = Some optind) then default 1 (number_in s next_var) else 1) = next.

Lemma name_used : name ∈ used_names.
Proof. unfold used_names. rewrite !elem_of_cons. tauto. Qed.
Lemma optind_used : bs "OPTIND" ∈ used_names.
Proof. unfold used_names. rewrite !elem_of_cons. tauto. Qed.
Lemma optarg_used : bs "OPTARG" ∈ used_names.
Proof. unfold used_names. rewrite !elem_of_cons. tauto. Qed.
Lemma last_used : last_var ∈ used_names.
Proof. unfold used_names. rewrite !elem_of_cons. tauto. Qed.
Lemma next_used : next_var ∈ used_names.
Proof. unfold used_names. rewrite !elem_of_cons. tauto. Qed.
Lemma opterr_used : bs "OPTERR" ∈ used_names.
Proof. unfold used_names. rewrite !elem_of_cons. tauto. Qed.

Lemma assign_view n v s m : fine s -> n ∈ used_names -> m ∈ used_names ->
  view (g_assign n v s) m = if decide (m = n) then Some v else view s m.
Proof.
  destruct s as [e d]. unfold fine, view, g_assign. cbn. intros Hf Hn Hm.
  destruct (store_assign e n v Hf Hn) as (e' & -> & _ & Hv). by apply Hv.
Qed.

Lemma assign_fine n v s : fine s -> n ∈ used_names -> fine (g_assign n v s).
Proof.
  destruct s as [e d]. unfold fine, g_assign. cbn. intros Hf Hn.
  by destruct (store_assign e n v Hf Hn) as (e' & -> & Hok & _).
Qed.

Lemma set_view n v s m : fine s -> n ∈ used_names -> m ∈ used_names ->
  view (g_set n v s) m = if decide (m = n) then Some v else view s m.
Proof. intros Hf Hn Hm. by apply (store_set s.1 n v Hf Hn). Qed.

Lemma set_fine n v s : fine s -> n ∈ used_names -> fine (g_set n v s).
Proof. intros Hf Hn. by apply (store_set s.1 n v Hf Hn). Qed.

Lemma unset_view n s m : fine s -> n ∈ used_names -> m ∈ used_names ->
  view (g_unset n s) m = if decide (m = n) then None else view s m.
Proof. intros Hf Hn Hm. by apply (store_unset s.1 n Hf Hn). Qed.

Lemma unset_fine n s : fine s -> n ∈ used_names -> fine (g_unset n s).
Proof. intros Hf Hn. by apply (store_unset s.1 n Hf Hn). Qed.

Lemma report_same d s m : fine s -> view (g_report d s) m = view s m.
Proof.
  destruct s as [e ds]. intros Hf. unfold g_report, view, fine in *. cbn [fst] in *.
  assert (He : (env_get e (bs "OPTERR")).2 = e) by (exact (store_get e _ Hf opterr_used)).
  destruct (env_get e (bs "OPTERR")) as [v e']. cbn in He. subst. by destruct (bool_decide (v = _)).
Qed.

Lemma report_fine d s : fine s -> fine (g_report d s).
Proof.
  destruct s as [e ds]. intros Hf. unfold g_report, fine in *. cbn [fst] in *.
  assert (He : (env_get e (bs "OPTERR")).2 = e) by (exact (store_get e _ Hf opterr_used)).
  destruct (env_get e (bs "OPTERR")) as [v e']. cbn in He. subst. by destruct (bool_decide (v = _)).
Qed.

Lemma differ (i j : nat) x y : used_names !! i = Some x -> used_names !! j = Some y -> i <> j -> x <> y.
Proof. intros Hi Hj Hij ->. apply Hij. by eapply NoDup_lookup. Qed.

(** The names differ. *)
Lemma names_differ :
  name <> bs "OPTIND" /\ name <> bs "OPTARG" /\ name <> last_var /\ name <> next_var
  /\ bs "OPTIND" <> bs "OPTARG" /\ bs "OPTIND" <> last_var /\ bs "OPTIND" <> next_var
  /\ bs "OPTARG" <> last_var /\ bs "OPTARG" <> next_var /\ last_var <> next_var.
Proof.
  repeat split; [apply (differ 0 1)|apply (differ 0 2)|apply (differ 0 4)|apply (differ 0 5)|apply (differ 1 2)|apply (differ 1 4)
    |apply (differ 1 5)|apply (differ 2 4)|apply (differ 2 5)|apply (differ 4 5)]; done.
Qed.

(** ** The last steps of a call *)

(** OPTIND and the position inside the argument are written last. *)
Lemma reset_position optind s : fine s -> 0 <= optind < 2 ^ 64 ->
  let s' := reset_inner last_var next_var optind (assign_optind optind s) in
  fine s' /\ at_position s' optind 1 /\ view s' (bs "OPTIND") = Some (u_to_string optind)
  /\ view s' name = view s name /\ view s' (bs "OPTARG") = view s (bs "OPTARG").
Proof.
  intros Hf Ho. destruct names_differ as (D1 & D2 & D3 & D4 & D5 & D6 & D7 & D8 & D9 & D10).
  unfold reset_inner, assign_optind.
  pose proof (assign_fine (bs "OPTIND") (u_to_string optind) s Hf optind_used) as F1.
  pose proof (set_fine last_var (u_to_string optind) _ F1 last_used) as F2.
  pose proof (set_fine next_var (bs "1") _ F2 next_used) as F3.
  cbn zeta. split; [done|]. unfold at_position, number_in.
  rewrite !set_view, !assign_view by auto using name_used, optind_used, optarg_used, last_used, next_used.
  decides. cbn [mbind option_bind]. rewrite parse_u64_to_string by done.
  rewrite bool_decide_eq_true_2 by done. repeat split; done || lia.
Qed.

Lemma set_position optind next s : fine s -> 0 <= optind < 2 ^ 64 -> 0 <= next < 2 ^ 64 ->
  let s' := set_inner last_var next_var optind next (assign_optind optind s) in
  fine s' /\ at_position s' optind next
  /\ view s' name = view s name /\ view s' (bs "OPTARG") = view s (bs "OPTARG").
Proof.
  intros Hf Ho Hn. destruct names_differ as (D1 & D2 & D3 & D4 & D5 & D6 & D7 & D8 & D9 & D10).
  unfold set_inner, assign_optind.
  pose proof (assign_fine (bs "OPTIND") (u_to_string optind) s Hf optind_used) as F1.
  pose proof (set_fine last_var (u_to_string optind) _ F1 last_used) as F2.
  pose proof (set_fine next_var (u_to_string next) _ F2 next_used) as F3.
  cbn zeta. split; [done|]. unfold at_position, number_in.
  rewrite !set_view, !assign_view by auto using name_used, optind_used, optarg_used, last_used, next_used.
  decides. cbn [mbind option_bind]. rewrite !parse_u64_to_string by done.
  rewrite bool_decide_eq_true_2 by done. repeat split; done || lia.
Qed.

Lemma run_walk o k s : fine s -> at_position s o k ->
  getopts_run (optstring :: name :: args) depth s = walk optstring name args last_var next_var o k s.
Proof.
  destruct s as [e d]. intros Hf (Hb1 & Hview & Hk). unfold getopts_run. cbn [fst snd].
  assert (Ho : number_in (e, d) (bs "OPTIND") = Some o) by (unfold number_in; rewrite Hview; by apply parse_u64_to_string).
  assert (Hb : forall (A : Type) (x : bytes -> A) (y : A), match optstring with "-"%b :: opt => x opt | _ => y end = y).
  { intros A x y. destruct optstring as [|c r]; [done|]. destruct c as [|c|c]; try done. repeat (destruct c as [c|c|]; try done). }
  rewrite Hb, Hname. cbn [negb]. unfold number_in, view in *. cbn [fst] in *. unfold get_usize.
  pose proof (store_get e _ Hf optind_used) as G1. pose proof (store_get e _ Hf last_used) as G2. pose proof (store_get e _ Hf next_used) as G3.
  destruct (env_get e (bs "OPTIND")) as [v1 e1]. cbn [fst snd] in G1, Ho. subst e1. rewrite Ho. cbn [default from_option id].
  fold last_var next_var. destruct (env_get e last_var) as [v2 e2]. cbn [fst snd] in G2, Hk. subst e2.
  destruct args as [|a0 r0] eqn:Ea; [done|]. cbn [is_nil].
  destruct (bool_decide (v2 ≫= parse_u64 = Some o)).
  - destruct (env_get e next_var) as [v3 e3]. cbn [fst snd] in G3, Hk. subst e3. by rewrite Hk.
  - by rewrite Hk.
Qed.

(** The option [c] at position [k] of [a], the argument after it being [nxt]: what
    is reported, how many arguments are passed, and the position in the next. *)
Definition outcome (a : bytes) (nxt : option bytes) (k : nat) (c : Z) : opt_event * nat * nat :=
  let on (ev : opt_event) := if (k + 1 <? length a)%nat then (ev, 0%nat, (k + 1)%nat) else (ev, 1%nat, 1%nat) in
  match option_spec optstring c with
  | None => on (OUnknown c)
  | Some false => on (OOption c None)
  | Some true =>
      match drop (k + 1) a, nxt with
      | _ :: _, _ => (OOption c (Some (drop (k + 1) a)), 1%nat, 1%nat)
      | [], Some v => (OOption c (Some v), 2%nat, 1%nat)
      | [], None => (OMissing c, 1%nat, 1%nat)
      end
  end.

Lemma advance_position a optind k s : fine s -> Z.of_nat (length a) < 2 ^ 32 -> 0 <= optind < 2 ^ 33 ->
  let s' := advance_option last_var next_var a optind (Z.of_nat k) s in
  fine s' /\ at_position s' (if (k + 1 <? length a)%nat then optind else optind + 1) (if (k + 1 <? length a)%nat then Z.of_nat k + 1 else 1)
  /\ view s' name = view s name /\ view s' (bs "OPTARG") = view s (bs "OPTARG").
Proof.
  intros Hf Ha Ho. unfold advance_option. cbn zeta.
  destruct (Nat.ltb_spec (k + 1) (length a)); destruct (Z.ltb_spec (Z.of_nat k + 1) (Z.of_nat (length a))); try lia.
  - apply set_position; [done|lia|lia].
  - destruct (reset_position (optind + 1) s Hf ltac:(lia)) as (P1 & P2 & _ & P3). done.
Qed.

Lemma ascii_text b : 0 <= b < 128 -> byte_text b = [b].
Proof. intros Hb. unfold byte_text, encode_utf8. by rewrite (proj2 (Z.ltb_lt b 128)) by lia. Qed.

Lemma ascii_from a k : Forall (fun b => 0 <= b < 128) a -> (k <= length a)%nat -> str_from a k = Some (drop k a).
Proof.
  intros Ha Hk. unfold str_from. rewrite (proj2 (Nat.leb_le _ _)) by done. cbn [andb].
  destruct (a !! k) as [b|] eqn:Eb; [|done]. rewrite Forall_lookup in Ha. specialize (Ha k b Eb).
  unfold is_cont, in_range. by rewrite (proj2 (Z.leb_gt 128 b)) by lia.
Qed.

(** What a call leaves in the variable and OPTARG. *)
Definition leaves (s : GS (E := E)) (o : option bytes * option bytes) : Prop :=
  fine s /\ (view s name, view s (bs "OPTARG")) = o.

Lemma leaves_both v w s : fine s -> leaves (g_assign name v (g_assign (bs "OPTARG") w s)) (Some v, Some w).
Proof.
  intros Hf. destruct names_differ as (D1 & D2 & _). pose proof (assign_fine (bs "OPTARG") w s Hf optarg_used) as F1.
  pose proof (assign_fine name v _ F1 name_used) as F2. split; [done|].
  rewrite !assign_view by auto using name_used, optarg_used. decides; done.
Qed.

Lemma leaves_option v s : fine s -> leaves (g_assign name v (g_unset (bs "OPTARG") s)) (Some v, None).
Proof.
  intros Hf. destruct names_differ as (D1 & D2 & _). pose proof (unset_fine (bs "OPTARG") s Hf optarg_used) as F1.
  pose proof (assign_fine name v _ F1 name_used) as F2. split; [done|].
  rewrite !assign_view, !unset_view by auto using name_used, optarg_used. decides; done.
Qed.

Lemma leaves_finish s : fine s -> leaves (finish name s) (Some (bs "?"), None).
Proof.
  intros Hf. destruct names_differ as (D1 & D2 & _). unfold finish. pose proof (assign_fine name (bs "?") s Hf name_used) as F1.
  pose proof (unset_fine (bs "OPTARG") _ F1 optarg_used) as F2. split; [done|].
  rewrite !unset_view, !assign_view by auto using name_used, optarg_used. decides; done.
Qed.

Lemma leaves_reset optind s o : leaves s o -> 0 <= optind < 2 ^ 64 ->
  leaves (reset_inner last_var next_var optind (assign_optind optind s)) o
  /\ at_position (reset_inner last_var next_var optind (assign_optind optind s)) optind 1.
Proof.
  intros [Hf <-] Ho. destruct (reset_position optind s Hf Ho) as (P1 & P2 & _ & P3 & P4). split; [|done]. split; [done|]. by rewrite P3, P4.
Qed.

Lemma leaves_advance a optind k s o : leaves s o -> Z.of_nat (length a) < 2 ^ 32 -> 0 <= optind < 2 ^ 33 ->
  leaves (advance_option last_var next_var a optind (Z.of_nat k) s) o
  /\ at_position (advance_option last_var next_var a optind (Z.of_nat k) s)
       (if (k + 1 <? length a)%nat then optind else optind + 1) (if (k + 1 <? length a)%nat then Z.of_nat k + 1 else 1).
Proof.
  intros [Hf <-] Ha Ho. destruct (advance_position a optind k s Hf Ha Ho) as (P1 & P2 & P3 & P4). split; [|done]. split; [done|].
  by rewrite P3, P4.
Qed.

Lemma take_option_step a i k c s : fine s -> args !! i = Some a -> a !! k = Some c ->
  let '(ev, d, k') := outcome a (args !! S i) k c in
  exists s', take_option optstring name args last_var next_var a (Z.of_nat i + 1) (Z.of_nat k) c s = Some s'
  /\ leaves s' (report (starts_with [":"%b] optstring) ev) /\ at_position s' (Z.of_nat (i + 1 + d)) (Z.of_nat k').
Proof.
  intros Hf Ha Hc. pose proof (lookup_lt_Some _ _ _ Ha) as Hi. pose proof (lookup_lt_Some _ _ _ Hc) as Hk.
  rewrite Forall_lookup in Hascii. pose proof (Hascii i a Ha) as Hab. rewrite Forall_lookup in Hlong. pose proof (Hlong i a Ha) as Hal. cbn beta in Hal.
  assert (Hcb : 0 <= c < 128) by (rewrite Forall_lookup in Hab; by apply (Hab k c)).
  assert (Hpast : forall s o d, leaves s o -> (d <= 2)%nat ->
    leaves (reset_inner last_var next_var (Z.of_nat i + 1 + Z.of_nat d) (assign_optind (Z.of_nat i + 1 + Z.of_nat d) s)) o
    /\ at_position (reset_inner last_var next_var (Z.of_nat i + 1 + Z.of_nat d) (assign_optind (Z.of_nat i + 1 + Z.of_nat d) s)) (Z.of_nat (i + 1 + d)) 1).
  { intros s0 o d Hs Hd. replace (Z.of_nat (i + 1 + d)) with (Z.of_nat i + 1 + Z.of_nat d) by lia. apply leaves_reset; [done|lia]. }
  assert (Hon : forall s ev, leaves s (report (starts_with [":"%b] optstring) ev) ->
    let '(ev, d, k') := if (k + 1 <? length a)%nat then (ev, 0%nat, (k + 1)%nat) else (ev, 1%nat, 1%nat) in
    leaves (advance_option last_var next_var a (Z.of_nat i + 1) (Z.of_nat k) s) (report (starts_with [":"%b] optstring) ev)
    /\ at_position (advance_option last_var next_var a (Z.of_nat i + 1) (Z.of_nat k) s) (Z.of_nat (i + 1 + d)) (Z.of_nat k')).
  { intros s0 ev Hs. destruct (leaves_advance a (Z.of_nat i + 1) k s0 _ Hs Hal ltac:(lia)) as [P1 P2].
    destruct (k + 1 <? length a)%nat; (split; [done|]).
    - replace (Z.of_nat (i + 1 + 0)) with (Z.of_nat i + 1) by lia. by replace (Z.of_nat (k + 1)) with (Z.of_nat k + 1) by lia.
    - by replace (Z.of_nat (i + 1 + 1)) with (Z.of_nat i + 1 + 1) by lia. }
  unfold take_option, outcome. rewrite (ascii_text c Hcb). destruct (option_spec optstring c) as [[|]|].
  - replace (Z.to_nat (Z.of_nat k + 1)) with (k + 1)%nat by lia. rewrite ascii_from by (done || lia). cbn [mbind option_bind].
    replace (Z.to_nat (Z.of_nat i + 1)) with (S i) by lia.
    destruct (drop (k + 1) a) as [|r0 r] eqn:Er; cbn [is_nil negb]; [destruct (args !! S i) as [v|] eqn:Ev|].
    + eexists. split; [reflexivity|]. apply (Hpast _ _ 2%nat); [by apply leaves_both|lia].
    + eexists. split; [reflexivity|]. apply (Hpast _ _ 1%nat); [|lia]. cbn [report].
      destruct (starts_with _ _); [by apply leaves_both|by apply leaves_finish, report_fine].
    + eexists. split; [reflexivity|]. apply (Hpast _ _ 1%nat); [by apply leaves_both|lia].
  - pose proof (Hon _ (OOption c None) (leaves_option [c] s Hf)) as Hd.
    destruct (k + 1 <? length a)%nat; eexists; (split; [reflexivity|exact Hd]).
  - assert (Hl : leaves (if starts_with [":"%b] optstring then g_assign name (bs "?") (g_assign (bs "OPTARG") [c] s)
        else finish name (g_report (fun sh => GIllegalOption sh c) s)) (report (starts_with [":"%b] optstring) (OUnknown c))).
    { cbn [report]. destruct (starts_with _ _); [by apply leaves_both|by apply leaves_finish, report_fine]. }
    pose proof (Hon _ (OUnknown c) Hl) as Hd. destruct (k + 1 <? length a)%nat; eexists; (split; [reflexivity|exact Hd]).
Qed.

Lemma like_head a : option_like a = true -> negb (starts_with ["-"%b] a) || (length a <? 2)%nat = false.
Proof.
  unfold option_like. intros [-> Hl%Nat.leb_le]%andb_true_iff. cbn [negb orb]. apply Nat.ltb_ge. lia.
Qed.

(** A call that finds an option. *)
Lemma option_round a i k c s : fine s -> at_position s (Z.of_nat (i + 1)) (Z.of_nat k) -> args !! i = Some a ->
  option_like a = true -> bytes_eqb a (bs "--") = false -> (1 <= k)%nat -> a !! k = Some c ->
  let '(ev, d, k') := outcome a (args !! S i) k c in
  exists s', getopts_run (optstring :: name :: args) depth s = Some (0, s')
  /\ leaves s' (report (starts_with [":"%b] optstring) ev) /\ at_position s' (Z.of_nat (i + 1 + d)) (Z.of_nat k').
Proof.
  intros Hf Hpos Ha Hlike Hdash Hk1 Hc. pose proof (take_option_step a i k c s Hf Ha Hc) as Hstep.
  pose proof (lookup_lt_Some _ _ _ Ha) as Hi. pose proof (lookup_lt_Some _ _ _ Hc) as Hk.
  rewrite (run_walk _ _ _ Hf Hpos). unfold walk.
  rewrite (proj2 (Z.eqb_neq (Z.of_nat (i + 1)) 0)), (proj2 (Z.eqb_neq (Z.of_nat k) 0)) by lia.
  rewrite (proj2 (Z.ltb_ge (Z.of_nat (length args)) (Z.of_nat (i + 1)))) by lia.
  replace (Z.to_nat (Z.of_nat (i + 1) - 1)) with i by lia. rewrite Ha. cbn [default from_option id].
  rewrite Hdash, (like_head a Hlike), (proj2 (Z.leb_gt (Z.of_nat (length a)) (Z.of_nat k))) by lia.
  rewrite (proj2 (Z.ltb_ge (Z.of_nat (length args)) (Z.of_nat (i + 1)))) by lia.
  replace (Z.to_nat (Z.of_nat (i + 1) - 1)) with i by lia. rewrite Ha. cbn [default from_option id].
  rewrite Nat2Z.id, Hc. cbn [default from_option id]. replace (Z.of_nat (i + 1)) with (Z.of_nat i + 1) by lia.
  destruct (outcome a (args !! S i) k c) as [[ev d] k']. destruct Hstep as (s' & -> & Hl & Hp). by exists s'.
Qed.

(** A call that finds none: the arguments left are operands. *)
Lemma last_round i s : fine s -> at_position s (Z.of_nat (i + 1)) 1 -> (i <= length args)%nat ->
  match args !! i with Some a => bytes_eqb a (bs "--") = true \/ option_like a = false | None => True end ->
  exists s', getopts_run (optstring :: name :: args) depth s = Some (1, s')
  /\ view s' (bs "OPTIND") = Some (u_to_string (Z.of_nat (i + snd (posix_options optstring (drop i args)) + 1))).
Proof.
  intros Hf Hpos Hi Hend. rewrite (run_walk _ _ _ Hf Hpos). unfold walk. destruct names_differ as (D1 & D2 & D3 & D4 & D5 & D6 & D7 & _).
  rewrite (proj2 (Z.eqb_neq (Z.of_nat (i + 1)) 0)) by lia. change (1 =? 0) with false. cbn match.
  assert (Hreset : forall o s, fine s -> 0 <= o < 2 ^ 64 ->
    view (reset_inner last_var next_var o (assign_optind o (finish name s))) (bs "OPTIND") = Some (u_to_string o)).
  { intros o s0 Hs0 Ho. destruct (leaves_finish s0 Hs0) as [Hfin _]. by apply (reset_position o _ Hfin Ho). }
  destruct (args !! i) as [a|] eqn:Ea.
  - pose proof (lookup_lt_Some _ _ _ Ea) as Hlt. rewrite (proj2 (Z.ltb_ge (Z.of_nat (length args)) (Z.of_nat (i + 1)))) by lia.
    replace (Z.to_nat (Z.of_nat (i + 1) - 1)) with i by lia. rewrite Ea. cbn [default from_option id].
    rewrite (drop_S args a i Ea). cbn [posix_options]. destruct (bytes_eqb a (bs "--")).
    + eexists. split; [reflexivity|]. rewrite Hreset by (done || lia). do 2 f_equal. cbn. lia.
    + destruct Hend as [?|Hno]; [done|]. rewrite Hno. cbn [negb snd].
      assert (negb (starts_with ["-"%b] a) || (length a <? 2)%nat = true) as ->.
      { unfold option_like in Hno. apply andb_false_iff in Hno as [->|Hn]; [done|]. apply Nat.leb_gt in Hn.
        rewrite (proj2 (Nat.ltb_lt _ _)) by lia. apply orb_true_r. }
      eexists. split; [reflexivity|]. destruct Hpos as (_ & Hview & _). unfold reset_inner.
      destruct (leaves_finish s Hf) as [Hfin _]. pose proof (set_fine last_var (u_to_string (Z.of_nat (i + 1))) _ Hfin last_used) as F1.
      rewrite !set_view by auto using optind_used, last_used, next_used. decides. unfold finish in *.
      pose proof (assign_fine name (bs "?") s Hf name_used) as F2.
      rewrite unset_view, assign_view by auto using optind_used, optarg_used, name_used. decides. rewrite Hview. do 3 f_equal. lia.
  - apply lookup_ge_None_1 in Ea. rewrite (proj2 (Z.ltb_lt (Z.of_nat (length args)) (Z.of_nat (i + 1)))) by lia.
    eexists. split; [reflexivity|]. unfold past_end. rewrite Hreset by (done || lia). rewrite drop_ge by lia. cbn [posix_options snd]. do 2 f_equal. lia.
Qed.

(** ** The loop *)

(** The rounds of the loop from [s], reading the arguments from number [i] on, are
    the options [l], and [n] arguments come before the operands. *)
Definition yields (s : GS (E := E)) (i : nat) (r : list opt_event * nat) : Prop := forall rounds, (length r.1 < rounds)%nat ->
  collect rounds optstring name args depth s
  = Some (map (report (starts_with [":"%b] optstring)) r.1, Some (u_to_string (Z.of_nat (i + r.2 + 1)))).

Lemma yields_cons s s' ev l n i : getopts_run (optstring :: name :: args) depth s = Some (0, s') ->
  leaves s' (report (starts_with [":"%b] optstring) ev) -> yields s' i (l, n) -> yields s i (ev :: l, n).
Proof.
  intros Hrun [_ Hl] Hy [|rounds] Hr; [cbn in Hr; lia|]. cbn [collect fst snd map]. rewrite Hrun. cbn [mbind option_bind].
  rewrite (Hy rounds) by (cbn in *; lia). unfold view in Hl. cbn [mbind option_bind fst snd Z.eqb]. by rewrite Hl.
Qed.

Lemma yields_end s s' i n : getopts_run (optstring :: name :: args) depth s = Some (1, s') ->
  view s' (bs "OPTIND") = Some (u_to_string (Z.of_nat (i + n + 1))) -> yields s i ([], n).
Proof.
  intros Hrun Hv [|rounds] Hr; [cbn in Hr; lia|]. cbn [collect fst snd map]. rewrite Hrun.
  unfold view in Hv. cbn [mbind option_bind fst snd Z.eqb]. by rewrite Hv.
Qed.

Lemma yields_index s i j l n n' : yields s i (l, n) -> (i + n = j + n')%nat -> yields s j (l, n').
Proof. intros Hy Hn rounds Hr. rewrite (Hy rounds Hr). cbn [snd fst]. do 4 f_equal. lia. Qed.

(** From the start of an argument, when at most [m] arguments are left. *)
Definition from_argument (m : nat) : Prop := forall i s, (length args - i <= m)%nat -> (i <= length args)%nat -> fine s ->
  at_position s (Z.of_nat (i + 1)) 1 -> yields s i (posix_options optstring (drop i args)).

Lemma from_option m : from_argument m -> forall cs a i k s, (length args - S i <= m)%nat -> args !! i = Some a ->
  option_like a = true -> bytes_eqb a (bs "--") = false -> (1 <= k)%nat -> drop k a = cs -> cs <> [] -> fine s ->
  at_position s (Z.of_nat (i + 1)) (Z.of_nat k) -> yields s i (options_from optstring cs (drop (S i) args)).
Proof.
  intros HA. induction cs as [|c cs IH]; intros a i k s Hm Ha Hlike Hdash Hk Hcs Hne Hf Hpos; [done|].
  assert (Hc : a !! k = Some c) by (rewrite <- (Nat.add_0_r k), <- lookup_drop, Hcs; done).
  assert (Hcs' : drop (k + 1) a = cs) by (rewrite <- drop_drop, Hcs; done).
  pose proof (lookup_lt_Some _ _ _ Ha) as Hi. pose proof (option_round a i k c s Hf Hpos Ha Hlike Hdash Hk Hc) as Hround.
  assert (Hlen : (k + 1 <? length a)%nat = negb (is_nil cs)).
  { destruct cs as [|c' cs']; cbn.
    - apply Nat.ltb_ge. apply (f_equal length) in Hcs'. rewrite length_drop in Hcs'. cbn in Hcs'. lia.
    - apply Nat.ltb_lt. apply (f_equal length) in Hcs'. rewrite length_drop in Hcs'. cbn in Hcs'. lia. }
  assert (Hhead : args !! S i = head (drop (S i) args)).
  { rewrite <- (Nat.add_0_r (S i)), <- lookup_drop, Nat.add_0_r. by destruct (drop (S i) args). }
  (* an option without argument *)
  assert (Hon : forall ev, (let '(ev', d, k') := if (k + 1 <? length a)%nat then (ev, 0%nat, (k + 1)%nat) else (ev, 1%nat, 1%nat) in
      exists s', getopts_run (optstring :: name :: args) depth s = Some (0, s')
      /\ leaves s' (report (starts_with [":"%b] optstring) ev') /\ at_position s' (Z.of_nat (i + 1 + d)) (Z.of_nat k')) ->
    yields s i (let '(l, took) := (let '(l, b) := cluster optstring cs (head (drop (S i) args)) in (ev :: l, b)) in
      match took, drop (S i) args with
      | true, _ :: r' => let '(l', n) := posix_options optstring r' in (l ++ l', S (S n))
      | _, _ => let '(l', n) := posix_options optstring (drop (S i) args) in (l ++ l', S n)
      end)).
  { intros ev Hev. rewrite Hlen in Hev. destruct cs as [|c' cs'] eqn:Ecs; cbn [is_nil negb] in Hev.
    - destruct Hev as (s' & Hrun & Hl & Hp). replace (i + 1 + 1)%nat with (S i + 1)%nat in Hp by lia. pose proof (HA (S i) s' Hm ltac:(lia) (proj1 Hl) Hp) as Hy.
      cbn [cluster]. destruct (posix_options optstring (drop (S i) args)) as [l n]. cbn [app].
      eapply yields_cons; [exact Hrun|exact Hl|]. eapply yields_index; [exact Hy|lia].
    - destruct Hev as (s' & Hrun & Hl & Hp). rewrite Nat.add_0_r in Hp.
      pose proof (IH a i (k + 1)%nat s' Hm Ha Hlike Hdash ltac:(lia) Hcs' ltac:(done) (proj1 Hl) Hp) as Hy. unfold options_from in Hy.
      destruct (cluster optstring (c' :: cs') (head (drop (S i) args))) as [l took].
      destruct took, (drop (S i) args) as [|v r']; repeat case_match; cbn [app]; (eapply yields_cons; [exact Hrun|exact Hl|exact Hy]). }
  unfold options_from. cbn [cluster]. unfold outcome in Hround. destruct (option_spec optstring c) as [[|]|]; [|by apply Hon..].
  rewrite Hcs' in Hround. destruct cs as [|c' cs'] eqn:Ecs.
  - rewrite Hhead in Hround. destruct (drop (S i) args) as [|v r'] eqn:Er; cbn [head] in *.
    + destruct Hround as (s' & Hrun & Hl & Hp). replace (i + 1 + 1)%nat with (S i + 1)%nat in Hp by lia.
      pose proof (HA (S i) s' Hm ltac:(lia) (proj1 Hl) Hp) as Hy. rewrite Er in Hy. cbn [posix_options app] in *.
      eapply yields_cons; [exact Hrun|exact Hl|]. eapply yields_index; [exact Hy|lia].
    + destruct Hround as (s' & Hrun & Hl & Hp). replace (i + 1 + 2)%nat with (S (S i) + 1)%nat in Hp by lia.
      assert (Hlt : (S i < length args)%nat) by (apply (f_equal length) in Er; rewrite length_drop in Er; cbn in Er; lia).
      pose proof (HA (S (S i)) s' ltac:(lia) ltac:(lia) (proj1 Hl) Hp) as Hy.
      assert (drop (S (S i)) args = r') as Er2 by (replace (S (S i)) with (S i + 1)%nat by lia; rewrite <- drop_drop, Er; done).
      rewrite Er2 in Hy. destruct (posix_options optstring r') as [l n]. cbn [app].
      eapply yields_cons; [exact Hrun|exact Hl|]. eapply yields_index; [exact Hy|lia].
  - destruct Hround as (s' & Hrun & Hl & Hp). replace (i + 1 + 1)%nat with (S i + 1)%nat in Hp by lia.
    pose proof (HA (S i) s' Hm ltac:(lia) (proj1 Hl) Hp) as Hy.
    clear Hon. destruct (drop (S i) args) as [|v r'] eqn:Er; cbn [head]; destruct (posix_options optstring _) as [l n]; cbn [app];
      (eapply yields_cons; [exact Hrun|exact Hl|]; eapply yields_index; [exact Hy|lia]).
Qed.

Lemma all_arguments m : from_argument m.
Proof.
  induction m as [|m IH]; intros i s Hm Hi Hf Hpos.
  - destruct (last_round i s Hf Hpos Hi) as (s' & Hrun & Hv).
    { rewrite lookup_ge_None_2 by lia. done. }
    rewrite drop_ge in * by lia. cbn [posix_options snd] in *. eapply yields_end; [exact Hrun|exact Hv].
  - destruct (args !! i) as [a|] eqn:Ea.
    2:{ destruct (last_round i s Hf Hpos Hi) as (s' & Hrun & Hv); [by rewrite Ea|].
        apply lookup_ge_None_1 in Ea. rewrite drop_ge in * by lia. eapply yields_end; [exact Hrun|exact Hv]. }
    destruct (bytes_eqb a (bs "--")) eqn:Ed.
    { destruct (last_round i s Hf Hpos Hi) as (s' & Hrun & Hv); [rewrite Ea; by left|].
      rewrite (drop_S args a i Ea) in *. cbn [posix_options] in *. rewrite Ed in *. eapply yields_end; [exact Hrun|exact Hv]. }
    destruct (option_like a) eqn:El.
    2:{ destruct (last_round i s Hf Hpos Hi) as (s' & Hrun & Hv); [rewrite Ea; by right|].
        rewrite (drop_S args a i Ea) in *. cbn [posix_options] in *. rewrite Ed, El in *. eapply yields_end; [exact Hrun|exact Hv]. }
    pose proof (lookup_lt_Some _ _ _ Ea). rewrite (drop_S args a i Ea). cbn [posix_options]. rewrite Ed, El. cbn [negb].
    apply (from_option m IH (drop 1 a) a i 1%nat); try done; [lia|]. intros Hnil. apply (f_equal length) in Hnil. rewrite length_drop in Hnil.
    unfold option_like in El. apply andb_true_iff in El as [_ El%Nat.leb_le]. cbn in Hnil. lia.
Qed.
End Calls.

(** C11: A loop over [getopts] refines POSIX option parsing: from OPTIND=1, given more rounds
    than there are options, the rounds leave in the variable and in OPTARG exactly what the
    specification reads off the arguments, option after option, whether clustered, with an
    argument in the same word or in the next, unknown or lacking an argument, in the silent and
    in the reporting mode; then the loop ends with OPTIND at the first operand. The variable has
    a valid name and is none of the five others used, which the store keeps as a map does; the
    option string does not begin with [-]; there is an argument, all are ASCII, and their number
    and lengths are below 2^32; no position inside an argument is left over from before. *)
Theorem getopts_refines_posix {E} `{Environment E} `{!OptionEnv E} (optstring name : bytes) (args : list bytes) (depth : Z)
    (ok : E -> Prop) `{!OptionStore E (used_names name depth) ok} (s : GS (E := E)) (rounds : nat) :
  NoDup (used_names name depth) -> is_valid_name name = true -> head optstring <> Some "-"%b ->
  args <> [] -> Forall (Forall (fun b => 0 <= b < 128)) args ->
  Z.of_nat (length args) < 2 ^ 32 -> Forall (fun a => Z.of_nat (length a) < 2 ^ 32) args ->
  ok s.1 -> view s (bs "OPTIND") = Some (bs "1") -> view s (last_var depth) = None ->
  let '(l, n) := posix_options optstring args in
  (length l < rounds)%nat ->
  collect rounds optstring name args depth s
  = Some (map (report (starts_with [":"%b] optstring)) l, Some (u_to_string (Z.of_nat (n + 1)))).
Proof.
  intros Hdup Hname Hopt Hargs Hascii Hsize Hlong Hok Hind Hlast.
  pose proof (all_arguments optstring name args depth ok Hdup Hname Hopt Hargs Hascii Hsize Hlong (length args) 0%nat s) as Hall.
  rewrite drop_0 in Hall. destruct (posix_options optstring args) as [l n]. intros Hr.
  rewrite Hall; [done|lia|lia|done| |done]. unfold at_position, number_in. rewrite Hind, Hlast.
  split; [lia|]. split; done.
Qed.

(** * Stores of variables *)

Lemma mapenv_set_get (e : MapEnv.t) (n v m : bytes) :
  MapEnv.get (MapEnv.set e n v) m = if decide (m = n) then Some v else MapEnv.get e m.
Proof.
  unfold MapEnv.get, MapEnv.set. cbn. destruct (decide (m = n)) as [->|Hne]; [apply lookup_insert_eq|by rewrite lookup_insert_ne].
Qed.

#[export] Instance mapenv_store names : OptionStore MapEnv.t names (fun _ => True).
Proof.
  split.
  - done.
  - intros e n v _ _. eexists. split; [reflexivity|]. split; [done|]. intros m _. apply mapenv_set_get.
  - intros e n v _ _. split; [done|]. intros m _. apply mapenv_set_get.
  - intros e n _ _. split; [done|]. intros m _. unfold env_get, env_unset. cbn. unfold MapEnv.get. cbn.
    destruct (decide (m = n)) as [->|Hne]; [apply lookup_delete_eq|by rewrite lookup_delete_ne].
Qed.

(** ** The shell state *)

Section Shell.
Context `{System} `{Casing}.

#[export] Instance shell_options : OptionEnv ShellState := {
  env_unset := unset;
  env_set := var_set;
  env_positional := positional;
  env_positional_count s := Z.of_nat (positional_count s);
}.

(** A scalar that can be assigned, that no function scope holds, and whose value
    nothing else in the shell depends on. *)
Definition free_scalar (s : ShellState) (n : bytes) : Prop :=
  plain_scalar s n /\ entry_is_readonly s n = false /\ in_any_scope s n = false
  /\ one_of n ["PATH"; "SHELL"; "BASH_COMPAT"; "IGNOREEOF"; "HISTSIZE"; "HISTFILESIZE"; "HISTCONTROL"; "HISTFILE"]%string = false.

Definition scalar_view (s : ShellState) (n : bytes) : option bytes :=
  match entry_of s n with Some e => if has_value e then Some (value e) else None | None => penv s !! n end.

Lemma free_get s n : free_scalar s n -> get_cow s n = (scalar_view s n, s).
Proof.
  intros [[Hn Ha] _]. cbn in Ha. rewrite !andb_true_iff, !negb_true_iff in Ha. destruct Ha as (_ & _ & _ & _ & _ & _ & Hnr & _).
  unfold get_cow. assert (parse_u64 n = None) as ->.
  { unfold ordinary in Hn. apply andb_true_iff in Hn as [_ Hp]. destruct (parse_u64 n); done. }
  rewrite ordinary_get_special by done. unfold get_variable, scalar_view. destruct (entry_of s n); [|done]. cbn in Hnr. by rewrite Hnr.
Qed.

(** What decides [free_scalar] and [scalar_view] of a name. *)
Definition same_scalar (s s' : ShellState) (m : bytes) : Prop := entry_of s' m = entry_of s m /\ penv s' !! m = penv s !! m.

Lemma free_frame s s' m : local_scopes s' = local_scopes s -> entry_of s' m = entry_of s m -> free_scalar s m -> free_scalar s' m.
Proof. intros Hs He. unfold free_scalar, plain_scalar, entry_is_readonly, in_any_scope. by rewrite Hs, He. Qed.

Lemma setting_is n x : free_scalar x n -> forall m, bool_decide (m ∈ ["BASH_COMPAT"; "IGNOREEOF"; "HISTSIZE"; "HISTFILESIZE"; "HISTCONTROL"; "HISTFILE"]%string) = true ->
  name_is n m = false.
Proof.
  intros (_ & _ & _ & Hs) m Hm%bool_decide_eq_true. unfold one_of in Hs. cbn [existsb] in Hs. rewrite !orb_false_iff in Hs. unfold name_is.
  rewrite !elem_of_cons in Hm. destruct Hm as [->|[->|[->|[->|[->|[->|Hm]]]]]]; try tauto. by apply elem_of_nil in Hm.
Qed.

Lemma free_assign s n v : free_scalar s n ->
  let e := entry_of s n in
  let s1 := put_entry n (mkEntry v true (entry_exported e) (entry_readonly e) (entry_attrs e)) s in
  var_assign s n v = (Ok tt, if entry_exported e then set_var_env n v s1 else s1).
Proof.
  intros Hfree. pose proof (setting_is n s Hfree) as Hset. destruct Hfree as ([Hn Ha] & Hro & _ & Hs). cbn in Ha.
  rewrite !andb_true_iff, !negb_true_iff in Ha. destruct Ha as (Hi & Hu & Hl & Hc & Har & Has & Hnr & _).
  unfold var_assign, assign_depth. rewrite Nat.add_comm. cbn [Nat.add]. rewrite assign_direct, is_readonly_ordinary, Hro by done.
  assert (one_of n ["PATH"; "SHELL"]%string = false) as ->.
  { unfold one_of in *. cbn [existsb] in *. rewrite !orb_false_iff in Hs. destruct Hs as (-> & -> & _). done. }
  rewrite andb_false_r. cbn [orb]. unfold assign_value. rewrite Has, Har. unfold assign_scalar.
  assert (apply_case_attrs v (entry_attrs (entry_of s n)) = v) as Hcase by (unfold apply_case_attrs; by rewrite Hu, Hl, Hc).
  rewrite Hi, Hcase. unfold apply_history_special_var. rewrite !Hset by done. done.
Qed.

Lemma free_unset s n : free_scalar s n -> exists d,
  unset s n = remove_var_env n (clear_rest n (del_entry n (with_dyn d s))).
Proof.
  intros Hfree. pose proof (setting_is n s Hfree) as Hset. destruct Hfree as ([Hn _] & _ & Hsc & _). unfold unset.
  rewrite (ordinary_one_of n ["FUNCNAME"; "BASHOPTS"; "SHELLOPTS"]%string Hn) by (by vm_compute).
  unfold unset_dynamic. rewrite !Hset by done. eexists. set (s1 := with_dyn _ s).
  assert (in_any_scope s1 n = false) as Hany by exact Hsc.
  destruct (in_last_scope s1 n) eqn:El; [apply in_last_any in El; congruence|].
  destruct (scope_rposition n (local_scopes s1)) eqn:Er; [|reflexivity].
  assert (in_any_scope s1 n = true); [|congruence]. unfold in_any_scope. by rewrite rposition_any, Er.
Qed.

(** After an assignment and after [unset]: the scopes, the variable and the others. *)
Lemma free_assigned s n v : free_scalar s n ->
  local_scopes (var_assign s n v).2 = local_scopes s
  /\ entry_of (var_assign s n v).2 n = Some (mkEntry v true (entry_exported (entry_of s n)) (entry_readonly (entry_of s n)) (entry_attrs (entry_of s n)))
  /\ forall m, m <> n -> same_scalar s (var_assign s n v).2 m.
Proof.
  intros Hf. rewrite (free_assign s n v Hf). cbn [snd]. set (e := mkEntry _ _ _ _ _). split; [by case_match|]. split.
  - transitivity (entry_of (put_entry n e s) n); [by case_match|]. apply lookup_insert_eq.
  - intros m Hm. assert (Hp : same_scalar s (put_entry n e s) m) by (split; [by apply lookup_insert_ne|done]).
    destruct (entry_exported _); [|done]. destruct Hp as [He Hp]. split; [exact He|]. cbn. by rewrite lookup_insert_ne.
Qed.

Lemma free_unset_after s n : free_scalar s n ->
  local_scopes (unset s n) = local_scopes s /\ entry_of (unset s n) n = None /\ penv (unset s n) !! n = None
  /\ forall m, m <> n -> same_scalar s (unset s n) m.
Proof.
  intros Hf. destruct (free_unset s n Hf) as [d ->]. split; [done|]. split; [apply lookup_delete_eq|]. split; [apply lookup_delete_eq|].
  intros m Hm. split; [by apply lookup_delete_ne|by apply lookup_delete_ne].
Qed.

Lemma same_view s s' m : same_scalar s s' m -> scalar_view s' m = scalar_view s m.
Proof. intros [He Hp]. unfold scalar_view. by rewrite He, Hp. Qed.

Lemma free_after_assign s n v m : free_scalar s n -> free_scalar s m -> free_scalar (var_assign s n v).2 m.
Proof.
  intros Hn Hm. destruct (free_assigned s n v Hn) as (Hsc & He & Hoth). destruct (decide (m = n)) as [->|Hne].
  - destruct Hm as ([Ho Ha] & Hr & Hs & Hl). unfold free_scalar, plain_scalar, entry_is_readonly, in_any_scope in *. rewrite Hsc, He.
    cbn [entry_attrs attrs readonly]. split; [done|]. split; [|done]. destruct (entry_of s n); done.
  - apply (free_frame s); [done|apply Hoth, Hne|done].
Qed.

Lemma view_after_assign s n v m : free_scalar s n -> free_scalar s m ->
  (get_cow (var_assign s n v).2 m).1 = if decide (m = n) then Some v else (get_cow s m).1.
Proof.
  intros Hn Hm. destruct (free_assigned s n v Hn) as (_ & He & Hoth).
  rewrite (free_get _ m) by (by apply free_after_assign). rewrite (free_get s m) by done. cbn [fst].
  destruct (decide (m = n)) as [->|Hne]; [unfold scalar_view; by rewrite He|apply same_view, Hoth, Hne].
Qed.

Lemma free_after_unset s n m : free_scalar s n -> free_scalar s m -> free_scalar (unset s n) m.
Proof.
  intros Hn Hm. destruct (free_unset_after s n Hn) as (Hsc & He & _ & Hoth). destruct (decide (m = n)) as [->|Hne].
  - destruct Hm as ([Ho _] & _ & Hs & Hl). unfold free_scalar, plain_scalar, entry_is_readonly, in_any_scope in *. rewrite Hsc, He.
    split; [|done]. split; [done|]. by vm_compute.
  - apply (free_frame s); [done|apply Hoth, Hne|done].
Qed.

(** The shell state keeps free scalars, so a getopts loop on it is POSIX's. *)
#[export] Instance shell_store names : OptionStore ShellState names (fun s => forall n, n ∈ names -> free_scalar s n).
Proof.
  split.
  - intros s n Hok Hn. change ((get_cow s n).2 = s). by rewrite free_get by auto.
  - intros s n v Hok Hn. exists (var_assign s n v).2. split; [|split].
    + unfold env_assign, shell_environment. by rewrite (free_assign s n v) by auto.
    + intros m Hm. apply free_after_assign; auto.
    + intros m Hm. apply view_after_assign; auto.
  - intros s n v Hok Hn. split; [intros m Hm; apply free_after_assign; auto|]. intros m Hm. apply view_after_assign; auto.
  - intros s n Hok Hn. split; [intros m Hm; apply free_after_unset; auto|]. intros m Hm.
    change ((get_cow (unset s n) m).1 = if decide (m = n) then None else (get_cow s m).1).
    rewrite (free_get _ m) by (apply free_after_unset; auto). rewrite (free_get s m) by auto. cbn [fst].
    destruct (free_unset_after s n) as (_ & He & Hp & Hoth); [auto|].
    destruct (decide (m = n)) as [->|Hne]; [unfold scalar_view; by rewrite He|apply same_view, Hoth, Hne].
Qed.
End Shell.

(** * Examples *)

Module GetoptsExample.
Import ShellExample.

(** A shell with OPTIND=1. *)
Definition ready : ShellState := put_entry (bs "OPTIND") (mkEntry (bs "1") true false false 0) empty_shell.

Lemma getopts_refines_posix_witness :
  collect 5 (bs ":ab:") (bs "o") (map bs ["-ab"; "x"; "-z"; "f"]%string) 0 (ready, [])
  = Some ([(Some (bs "a"), None); (Some (bs "b"), Some (bs "x")); (Some (bs "?"), Some (bs "z"))], Some (bs "4")).
Proof.
  assert (Hp : posix_options (bs ":ab:") (map bs ["-ab"; "x"; "-z"; "f"]%string)
    = ([OOption "a"%b None; OOption "b"%b (Some (bs "x")); OUnknown "z"%b], 3%nat)) by (vm_compute; reflexivity).
  pose proof (getopts_refines_posix (bs ":ab:") (bs "o") (map bs ["-ab"; "x"; "-z"; "f"]%string) 0
    (fun s => forall n, n ∈ used_names (bs "o") 0 -> free_scalar s n) (ready, []) 5) as T.
  rewrite Hp in T. rewrite T; clear T Hp.
  - vm_compute. reflexivity.
  - apply (bool_decide_unpack _). vm_compute. exact I.
  - vm_compute. reflexivity.
  - vm_compute. discriminate.
  - discriminate.
  - apply (bool_decide_unpack _). vm_compute. exact I.
  - vm_compute. reflexivity.
  - apply (bool_decide_unpack _). vm_compute. exact I.
  - cbn [fst]. apply (Forall_forall (fun n => free_scalar ready n)).
    repeat (apply List.Forall_cons; [split; [split; vm_compute; reflexivity|vm_compute; repeat split; reflexivity]|]). apply List.Forall_nil.
  - vm_compute. reflexivity.
  - vm_compute. reflexivity.
  - cbn [length]. lia.
Defined.

(** The option string [\xe2\x82\xac:] and the argument [-\xe2\xac\x80]: the byte
    0xac is an option that takes an argument, and the rest of the word after it
    starts inside a character. *)
Definition euro : bytes := [226; 130; 172; ":"%b].
Definition arrow : bytes := ["-"%b; 226; 172; 128].

(** An option string and an argument outside ASCII make getopts panic: options
    are read byte by byte, and the rest of the argument is sliced inside a
    character. *)
Theorem getopts_panics :
  from_utf8 euro = inl [8364; 58] /\ from_utf8 arrow = inl [45; 11008]
  /\ fst <$> getopts_run [euro; bs "o"; arrow] 0 (ready, []) = Some 0
  /\ ('(_, s) ← getopts_run [euro; bs "o"; arrow] 0 (ready, []); getopts_run [euro; bs "o"; arrow] 0 s) = None.
Proof. repeat split; vm_compute; reflexivity. Qed.
End GetoptsExample.
