(* ===== verification/Scan.v ===== *)
(** Finding the end of a construct inside a word: the bodies of [${..}], [$(..)],
    [$((..))] and [$[..]] (crates/expander/src/param/scanning.rs).  A scanner
    takes the text after the opening and returns the body and the text after the
    closing; the position of the source is the number of bytes consumed. *)
From S2P Require Import Prelude Env Utf8 Buf Quote.

Definition Scan : Type := Res ExpandError (bytes * bytes).

Definition eof_brace : ExpandError := Other (bs "unexpected EOF while looking for matching `}'").

Definition is_name_start (b : Z) : bool := (b =? "_"%b) || is_ascii_alphabetic b.
Definition is_name_byte (b : Z) : bool := is_name_start b || is_ascii_digit b.

Definition is_valid_name_str (value : bytes) : bool :=
  match value with b :: r => is_name_start b && forallb is_name_byte r | [] => false end.

Definition is_shell_metacharacter (b : Z) : bool :=
  (b =? "|"%b) || (b =? "&"%b) || (b =? ";"%b) || (b =? "<"%b) || (b =? ">"%b) || (b =? "("%b) || (b =? ")"%b).

(** The longest prefix of bytes satisfying [p], and the rest. *)
Fixpoint span (p : Z -> bool) (s : bytes) : bytes * bytes :=
  match s with
  | [] => ([], [])
  | b :: r => if p b then let '(t, rest) := span p r in (b :: t, rest) else ([], s)
  end.

(** A backslash before another byte; two [<]. *)
Definition escaped (s : bytes) : option (Z * bytes) :=
  match s with b :: c :: r => if b =? "\"%b then Some (c, r) else None | _ => None end.
Definition redirection (s : bytes) : option bytes :=
  match s with b :: c :: r => if (b =? "<"%b) && (c =? "<"%b) then Some r else None | _ => None end.

(** * Quoted text *)

(** [append_ansi_c_literal]: the text of [$'..'] at the start of [s]. *)
Definition append_ansi_c_literal (s : bytes) : option (bytes * bytes) :=
  match s with
  | d :: q :: r =>
      if (d =? "$"%b) && (q =? "'"%b) then
        let rest := snd (scan_ansi_c_quoted r) in Some (take (length s - length rest) s, rest)
      else None
  | _ => None
  end.

(** The loop of [append_quoted_bytes], after the opening quote: up to the closing
    one, which is included, or to the end. *)
Fixpoint quoted_run (q : Z) (s : bytes) : bytes * bytes :=
  match s with
  | [] => ([], [])
  | b :: r =>
      if b =? q then ([b], r)
      else
        match r with
        | c :: r' =>
            if b =? "\"%b then let '(t, rest) := quoted_run q r' in (b :: c :: t, rest)
            else let '(t, rest) := quoted_run q r in (b :: t, rest)
        | [] => ([b], [])
        end
  end.

(** Single quotes inside [${..}]: whether an escaped quote and a [}] come before
    the next quote, and the text up to that quote. *)
Fixpoint closes_before_quote (saw_escaped_quote : bool) (s : bytes) : bool :=
  match s with
  | [] => false
  | b :: r =>
      if b =? "'"%b then false
      else
        match r with
        | c :: r' =>
            if b =? "\"%b then closes_before_quote (saw_escaped_quote || (c =? "'"%b)) r'
            else if (b =? "}"%b) && saw_escaped_quote then true
            else closes_before_quote saw_escaped_quote r
        | [] => (b =? "}"%b) && saw_escaped_quote
        end
  end.

Definition single_run (s : bytes) : bytes * bytes :=
  match span (fun b => negb (b =? "'"%b)) s with
  | (t, q :: r) => (t ++ [q], r)
  | (t, []) => (t, [])
  end.

(** Double quotes inside [${..}]: the text with the closing quote, and whether it
    has a [}]; [None] without a closing quote. *)
Fixpoint double_run (s : bytes) : option (bytes * bytes * bool) :=
  match s with
  | [] => None
  | b :: r =>
      if b =? dquote then Some ([b], r, false)
      else
        match r with
        | c :: r' =>
            if b =? "\"%b then '(t, rest, sw) ← double_run r'; Some (b :: c :: t, rest, sw)
            else '(t, rest, sw) ← double_run r; Some (b :: t, rest, (b =? "}"%b) || sw)
        | [] => None
        end
  end.

(** * Arithmetic *)

Inductive DParenScan :=
| DArithmetic (rest : bytes)
| DCommandSubstitution
| DMissing.

(** The byte after a single closing parenthesis decides what [$((] was. *)
Definition dparen_single_close (s : bytes) : DParenScan :=
  match snd (span (fun b => (b =? " "%b) || (b =? 9) || (b =? 13)) s) with
  | [] => DCommandSubstitution
  | b :: _ =>
      if (b =? ")"%b) || (b =? 10) || (b =? ";"%b) || (b =? "&"%b) || (b =? "|"%b) then DCommandSubstitution
      else DMissing
  end.

Fixpoint dparen_loop (fuel : nat) (s : bytes) (depth : Z) : Res ExpandError DParenScan :=
  match fuel with
  | O => Fuel
  | S fuel =>
      match s with
      | [] => Ok DMissing
      | b :: r =>
          match escaped s with
          | Some (_, r') => dparen_loop fuel r' depth
          | None =>
              if (b =? "'"%b) || (b =? dquote) || (b =? "`"%b) then dparen_loop fuel (snd (quoted_run b r)) depth
              else if b =? "("%b then dparen_loop fuel r (depth + 1)
              else if b =? ")"%b then
                if depth =? 1 then
                  match r with
                  | c :: r' => if c =? ")"%b then Ok (DArithmetic r') else Ok (dparen_single_close r)
                  | [] => Ok (dparen_single_close r)
                  end
                else dparen_loop fuel r (depth - 1)
              else dparen_loop fuel r depth
          end
      end
  end.

Definition arith_dparen_scan (s : bytes) : Res ExpandError DParenScan := dparen_loop (S (length s)) s 1.

Definition extract_double_paren (s : bytes) : Scan :=
  match arith_dparen_scan s with
  | Ok (DArithmetic rest) => Ok (take (length s - length rest - 2) s, rest)
  | Ok _ => Err (ArithSyntax (bs "missing '))'"))
  | Err e => Err e
  | Fuel => Fuel
  end.

(** [skip_quoted_arith] is [quoted_run] without the text. *)
Fixpoint legacy_loop (fuel : nat) (whole s : bytes) (depth : Z) : Scan :=
  match fuel with
  | O => Fuel
  | S fuel =>
      match s with
      | [] => Err (ArithSyntax (bs "missing ']'"))
      | b :: r =>
          if b =? "\"%b then legacy_loop fuel whole (drop 1 r) depth
          else if (b =? "'"%b) || (b =? dquote) || (b =? "`"%b) then legacy_loop fuel whole (snd (quoted_run b r)) depth
          else if b =? "["%b then legacy_loop fuel whole r (depth + 1)
          else if b =? "]"%b then
            if depth =? 1 then Ok (take (length whole - length s) whole, r) else legacy_loop fuel whole r (depth - 1)
          else legacy_loop fuel whole r depth
      end
  end.

Definition extract_legacy_arith (s : bytes) : Scan := legacy_loop (S (length s)) s s 1.

(** * Here-documents *)

Definition heredoc_delimiter_closing_paren (candidate delimiter : bytes) : option nat :=
  rest ← strip_prefix delimiter candidate;
  match span (fun b => (b =? " "%b) || (b =? 9)) rest with
  | (blanks, c :: _) => if c =? ")"%b then Some (length delimiter + length blanks)%nat else None
  | (_, []) => None
  end.

(** The delimiter of a redirection: the text it is written with, the delimiter
    and the rest. *)
Fixpoint delimiter_run (quote : option Z) (s : bytes) : bytes * bytes * bytes :=
  match s with
  | [] => ([], [], [])
  | b :: r =>
      match quote with
      | Some q =>
          if b =? q then let '(t, d, rest) := delimiter_run None r in (b :: t, d, rest)
          else let '(t, d, rest) := delimiter_run quote r in (b :: t, b :: d, rest)
      | None =>
          if (b =? "'"%b) || (b =? dquote) then
            let '(t, d, rest) := delimiter_run (Some b) r in (b :: t, d, rest)
          else if b =? "\"%b then
            match r with
            | [] => ([], [], [])
            | c :: r' =>
                let '(t, d, rest) := delimiter_run None r' in
                if c =? 10 then (t, d, rest) else (b :: c :: t, c :: d, rest)
            end
          else if is_ascii_whitespace b || is_shell_metacharacter b then ([], [], s)
          else let '(t, d, rest) := delimiter_run None r in (b :: t, b :: d, rest)
      end
  end.

Fixpoint drop_tabs (s : bytes) : bytes :=
  match s with 9 :: r => drop_tabs r | _ => s end.

(** [append_heredoc_redirect], after the [<<]. *)
Definition append_heredoc_redirect (s : bytes) (heredocs : list (bytes * bool)) : bytes * list (bytes * bool) * bytes :=
  let '(dash, s) := match s with "-"%b :: r => (bs "-", r) | _ => ([], s) end in
  let strip_tabs := negb (is_nil dash) in
  let '(blanks, s) := span (fun b => (b =? " "%b) || (b =? 9)) s in
  let '(t, delimiter, rest) := delimiter_run None s in
  let delimiter := if strip_tabs then drop_tabs delimiter else delimiter in
  (bs "<<" ++ dash ++ blanks ++ t, (if is_nil delimiter then heredocs else heredocs ++ [(delimiter, strip_tabs)]), rest).

(** * [${..}], [$(..)] and double quotes *)

(** [before]: the bytes before the position, the nearest first. *)
Fixpoint previous_significant_byte (before : bytes) : option Z :=
  match before with
  | [] => None
  | b :: r => if is_ascii_whitespace b then previous_significant_byte r else Some b
  end.

(** The local variables of [extract_paren]. *)
Record ParenSt := mkParen {
  p_depth : Z;
  p_case : Z;
  p_comment : bool;
  p_heredocs : list (bytes * bool);
  p_line : bool;
  p_body : bytes;
}.

Definition paren_start : ParenSt := mkParen 1 0 true [] false [].

(** [t] is copied, and a comment may or may not follow. *)
Definition p_copy (st : ParenSt) (t : bytes) (comment line : bool) : ParenSt :=
  mkParen (p_depth st) (p_case st) comment (p_heredocs st) line (p_body st ++ t).

(** A line of a here-document: the end of the construct, or the state after it. *)
Definition heredoc_line (st : ParenSt) (delimiter : bytes) (strip_tabs : bool) (pending : list (bytes * bool)) (s : bytes) :
    (bytes * bytes) + (ParenSt * bytes) :=
  let '(line, rest) := span (fun b => negb (b =? 10)) s in
  let candidate := if strip_tabs then drop_tabs line else line in
  let tabs := take (length line - length candidate) line in
  match (if p_depth st =? 1 then heredoc_delimiter_closing_paren candidate delimiter else None) with
  | Some close => inl (p_body st ++ tabs ++ delimiter, drop (S close) (drop (length tabs) s))
  | None =>
      let newline := take 1 rest in
      inr (mkParen (p_depth st) (p_case st) true (if bytes_eqb candidate delimiter then pending else p_heredocs st) true
             (p_body st ++ line ++ newline), drop 1 rest)
  end.

(** A word: [case] and [esac] are counted. *)
Definition paren_word (st : ParenSt) (before s : bytes) : ParenSt * bytes :=
  let '(word, rest) := span is_name_byte s in
  let previous := previous_significant_byte before in
  let after_bar := bool_decide (previous = Some "|"%b) || bool_decide (previous = Some "("%b) in
  let case_depth :=
    if bytes_eqb word (bs "case") then p_case st + 1
    else if bytes_eqb word (bs "esac") && negb after_bar then Z.max 0 (p_case st - 1)
    else p_case st in
  (mkParen (p_depth st) case_depth false (p_heredocs st) false (p_body st ++ word), rest).

(** [extract_brace_body] with [posix] for [posix_single_quote], [extract_paren]
    and [append_double_quoted_bytes] call each other.  [whole] is the text the
    scan of [extract_paren] started with; the byte before it is a parenthesis. *)
Fixpoint brace_loop (fuel : nat) (posix swallowed : bool) (body s : bytes) : Scan :=
  match fuel with
  | O => Fuel
  | S fuel =>
      match s with
      | [] => Err (if swallowed then eof_brace else BadSubstitution (bs "missing '}'"))
      | b :: r =>
          match append_ansi_c_literal s with
          | Some (t, rest) => brace_loop fuel posix swallowed (body ++ t) rest
          | None =>
              match escaped s with
              | Some (c, r') => brace_loop fuel posix swallowed (body ++ (if c =? "}"%b then [c] else [b; c])) r'
              | None =>
                  if (b =? "'"%b) && negb posix then
                    if closes_before_quote false r then brace_loop fuel posix swallowed (body ++ [b]) r
                    else let '(t, rest) := single_run r in brace_loop fuel posix swallowed (body ++ b :: t) rest
                  else if b =? dquote then
                    match double_run r with
                    | Some (t, rest, sw) => brace_loop fuel posix (swallowed || sw) (body ++ b :: t) rest
                    | None => if posix then Err eof_brace else brace_loop fuel posix swallowed (body ++ [b]) r
                    end
                  else if b =? "`"%b then
                    let '(t, rest) := quoted_run b r in brace_loop fuel posix swallowed (body ++ b :: t) rest
                  else
                    match (if b =? "$"%b then dollar_text fuel posix r else None) with
                    | Some (Ok (t, rest)) => brace_loop fuel posix swallowed (body ++ b :: t) rest
                    | Some (Err e) => Err e
                    | Some Fuel => Fuel
                    | None => if b =? "}"%b then Ok (body, r) else brace_loop fuel posix swallowed (body ++ [b]) r
                    end
              end
          end
      end
  end
with dollar_text (fuel : nat) (posix : bool) (s : bytes) : option Scan :=
  match fuel with
  | O => Some Fuel
  | S fuel =>
      match s with
      | n :: r =>
          if n =? "{"%b then
            Some (match brace_loop fuel posix false [] r with
                  | Ok (inner, rest) => Ok (n :: inner ++ bs "}", rest)
                  | x => x
                  end)
          else if n =? "("%b then
            Some
              (match r with
               | c :: r' =>
                   if c =? "("%b then
                     match extract_double_paren r' with
                     | Ok (inner, rest) => Ok (n :: c :: inner ++ bs "))", rest)
                     | x => x
                     end
                   else
                     match paren_loop fuel r paren_start r with
                     | Ok (inner, rest) => Ok (n :: inner ++ bs ")", rest)
                     | x => x
                     end
               | [] =>
                   match paren_loop fuel r paren_start r with
                   | Ok (inner, rest) => Ok (n :: inner ++ bs ")", rest)
                   | x => x
                   end
               end)
          else None
      | [] => None
      end
  end
with paren_loop (fuel : nat) (whole : bytes) (st : ParenSt) (s : bytes) : Scan :=
  match fuel with
  | O => Fuel
  | S fuel =>
      match s with
      | [] => Err (BadSubstitution (bs "missing ')'"))
      | b :: r =>
          match (if p_line st then p_heredocs st else []) with
          | (delimiter, strip_tabs) :: pending =>
              match heredoc_line st delimiter strip_tabs pending s with
              | inl res => Ok res
              | inr (st, rest) => paren_loop fuel whole st rest
              end
          | [] =>
              if b =? 10 then paren_loop fuel whole (p_copy st [b] true true) r
              else if (b =? "#"%b) && p_comment st then
                let '(t, rest) := span (fun b => negb (b =? 10)) s in paren_loop fuel whole (p_copy st t true false) rest
              else
                match escaped s with
                | Some (c, r') => paren_loop fuel whole (p_copy st [b; c] false false) r'
                | None =>
                    match append_ansi_c_literal s with
                    | Some (t, rest) => paren_loop fuel whole (p_copy st t false false) rest
                    | None =>
                        if (b =? "'"%b) || (b =? "`"%b) then
                          let '(t, rest) := quoted_run b r in paren_loop fuel whole (p_copy st (b :: t) false false) rest
                        else if b =? dquote then
                          match double_loop fuel [b] r with
                          | Ok (t, rest) => paren_loop fuel whole (p_copy st t false false) rest
                          | x => x
                          end
                        else
                          match redirection s with
                          | Some r' =>
                              let '(t, heredocs, rest) := append_heredoc_redirect r' (p_heredocs st) in
                              paren_loop fuel whole
                                (mkParen (p_depth st) (p_case st) false heredocs false (p_body st ++ t)) rest
                          | None =>
                              if is_name_start b then
                                let '(st, rest) := paren_word st (rev (bs "(" ++ take (length whole - length s) whole)) s in
                                paren_loop fuel whole st rest
                              else if (b =? ")"%b) && (0 <? p_case st) && (p_depth st =? 1) then
                                paren_loop fuel whole (p_copy st [b] true false) r
                              else
                                let depth := if b =? "("%b then p_depth st + 1
                                             else if b =? ")"%b then p_depth st - 1 else p_depth st in
                                if (b =? ")"%b) && (depth =? 0) then Ok (p_body st, r)
                                else paren_loop fuel whole
                                       (mkParen depth (p_case st) (is_ascii_whitespace b || is_shell_metacharacter b)
                                          (p_heredocs st) false (p_body st ++ [b])) r
                          end
                    end
                end
          end
      end
  end
with double_loop (fuel : nat) (body s : bytes) : Scan :=
  match fuel with
  | O => Fuel
  | S fuel =>
      match s with
      | [] => Ok (body, [])
      | b :: r =>
          if b =? dquote then Ok (body ++ [b], r)
          else
            match escaped s with
            | Some (c, r') => double_loop fuel (body ++ [b; c]) r'
            | None =>
                match (if b =? "$"%b then dollar_text fuel false r else None) with
                | Some (Ok (t, rest)) => double_loop fuel (body ++ b :: t) rest
                | Some (Err e) => Err e
                | Some Fuel => Fuel
                | None =>
                    if b =? "`"%b then let '(t, rest) := quoted_run b r in double_loop fuel (body ++ b :: t) rest
                    else double_loop fuel (body ++ [b]) r
                end
            end
      end
  end.

(** Two units of fuel for each byte. *)
Definition scan_fuel (s : bytes) : nat := 2 * length s + 2.

Definition extract_brace_body (posix_single_quote : bool) (s : bytes) : Scan :=
  brace_loop (scan_fuel s) posix_single_quote false [] s.

Definition extract_paren (s : bytes) : Scan := paren_loop (scan_fuel s) s paren_start s.

(** * [${ command; }] and [${| command; }] *)

Inductive CurrentSubstMode := COutput | CReply.

Definition current_subst_mode (s : bytes) : option CurrentSubstMode :=
  match s with
  | b :: _ => if b =? "|"%b then Some CReply else if is_ascii_whitespace b then Some COutput else None
  | [] => None
  end.

Fixpoint current_loop (fuel : nat) (brace_depth : Z) (body s : bytes) : Scan :=
  match fuel with
  | O => Fuel
  | S fuel =>
      match s with
      | [] => Err (BadSubstitution (bs "missing '}'"))
      | b :: r =>
          match escaped s with
          | Some (c, r') => current_loop fuel brace_depth (body ++ [b; c]) r'
          | None =>
              match append_ansi_c_literal s with
              | Some (t, rest) => current_loop fuel brace_depth (body ++ t) rest
              | None =>
                  if (b =? "'"%b) || (b =? "`"%b) then
                    let '(t, rest) := quoted_run b r in current_loop fuel brace_depth (body ++ b :: t) rest
                  else if b =? dquote then
                    match double_loop fuel [b] r with
                    | Ok (t, rest) => current_loop fuel brace_depth (body ++ t) rest
                    | x => x
                    end
                  else
                    match (if b =? "$"%b then
                             match r with
                             | n :: r' =>
                                 if (n =? "{"%b) && bool_decide (is_Some (current_subst_mode r')) then
                                   let bar := take 1 r' in
                                   let bar := if bytes_eqb bar (bs "|") then bar else [] in
                                   Some (match current_loop fuel 0 [] (drop (length bar) r') with
                                         | Ok (inner, rest) => Ok (n :: bar ++ inner ++ bs "}", rest)
                                         | x => x
                                         end)
                                 else dollar_text fuel false r
                             | [] => None
                             end
                           else None) with
                    | Some (Ok (t, rest)) => current_loop fuel brace_depth (body ++ b :: t) rest
                    | Some (Err e) => Err e
                    | Some Fuel => Fuel
                    | None =>
                        if b =? "{"%b then current_loop fuel (brace_depth + 1) (body ++ [b]) r
                        else if b =? "}"%b then
                          if brace_depth =? 0 then Ok (body, r) else current_loop fuel (brace_depth - 1) (body ++ [b]) r
                        else current_loop fuel brace_depth (body ++ [b]) r
                    end
              end
          end
      end
  end.

Definition extract_current_brace_body (s : bytes) : Scan := current_loop (scan_fuel s) 0 [] s.

(** * Examples *)

Example scan_brace : extract_brace_body false (bs "x:-${y:-'}'}$(f ')')\}}z") = Ok (bs "x:-${y:-'}'}$(f ')')}", bs "z").
Proof. vm_compute. reflexivity. Qed.

Example scan_paren : extract_paren (bs "case $x in a) echo ')' ;; esac # )" ++ [10] ++ bs "cat <<E" ++ [10] ++ bs ")" ++ [10] ++ bs "E" ++ [10] ++ bs ") z")
  = Ok (bs "case $x in a) echo ')' ;; esac # )" ++ [10] ++ bs "cat <<E" ++ [10] ++ bs ")" ++ [10] ++ bs "E" ++ [10], bs " z").
Proof. vm_compute. reflexivity. Qed.

Example scan_current : extract_current_brace_body (bs " f() { echo ${x}; }; f; }z") = Ok (bs " f() { echo ${x}; }; f; ", bs "z").
Proof. vm_compute. reflexivity. Qed.
