(* ===== verification/ScanProps.v ===== *)
(** The scanners end on every text, and find the end of every well-formed
    construct whatever constructs it contains. *)
From S2P Require Import Prelude Env Utf8 Buf Quote Scan.

(** * The scanners end *)

Lemma span_length p s : (length (span p s).2 <= length s)%nat.
Proof. induction s as [|b r IH]; [done|]. cbn. destruct (p b); [|done]. destruct (span p r). cbn in *. lia. Qed.

Lemma span_app p s : (span p s).1 ++ (span p s).2 = s.
Proof. induction s as [|b r IH]; [done|]. cbn. destruct (p b); [|done]. destruct (span p r). cbn in *. by f_equal. Qed.

(** Induction that may skip two bytes. *)
Lemma bytes_two_ind (P : bytes -> Prop) : P [] -> (forall b, P [b]) -> (forall b c r, P r -> P (c :: r) -> P (b :: c :: r)) ->
  forall s, P s.
Proof.
  intros H0 H1 H2 s. enough (P s /\ forall b, P (b :: s)) by tauto. induction s as [|c s [IH IHc]]; [auto|].
  split; [done|]. intros b. by apply H2.
Qed.

Lemma quoted_run_length q s : (length (quoted_run q s).2 <= length s)%nat.
Proof.
  induction s as [|b|b c r IH IHc] using bytes_two_ind; [done|cbn; destruct (b =? q); cbn; lia|].
  cbn [quoted_run]. destruct (b =? q); [cbn; lia|]. destruct (b =? "\"%b).
  - destruct (quoted_run q r). cbn in *. lia.
  - cbn [quoted_run] in IHc. match goal with |- context [let '(_, _) := ?x in _] => destruct x end. cbn in *. lia.
Qed.

Lemma single_run_length s : (length (single_run s).2 <= length s)%nat.
Proof.
  unfold single_run. pose proof (span_length (fun b => negb (b =? "'"%b)) s) as H. destruct (span _ s) as [t [|q r]]; cbn in *; lia.
Qed.

Lemma double_run_length s t rest sw : double_run s = Some (t, rest, sw) -> (length rest < length s)%nat.
Proof.
  revert t rest sw. induction s as [|b|b c r IH IHc] using bytes_two_ind; intros t rest sw.
  - done.
  - cbn. destruct (b =? dquote); [|done]. intros [= <- <- <-]. cbn. lia.
  - cbn [double_run]. destruct (b =? dquote); [intros [= <- <- <-]; cbn; lia|]. destruct (b =? "\"%b).
    + destruct (double_run r) as [[[t0 r0] sw0]|]; cbn; [|done]. intros [= <- <- <-]. specialize (IH _ _ _ eq_refl). cbn. lia.
    + cbn [double_run] in IHc. destruct (if c =? dquote then _ else _) as [[[t0 r0] sw0]|] eqn:E; cbn; [|done].
      intros [= <- <- <-]. specialize (IHc _ _ _ eq_refl). cbn in *. lia.
Qed.

Lemma ansi_scan_length s : (length (scan_ansi_c_quoted s).2 <= length s)%nat.
Proof.
  induction s as [|b|b c r IH IHc] using bytes_two_ind; [done|cbn; destruct (b =? "'"%b); cbn; lia|].
  cbn [scan_ansi_c_quoted]. destruct (b =? "'"%b); [cbn; lia|]. destruct (b =? "\"%b).
  - destruct (scan_ansi_c_quoted r). cbn in *. lia.
  - cbn [scan_ansi_c_quoted] in IHc. match goal with |- context [let '(_, _) := ?x in _] => destruct x end. cbn in *. lia.
Qed.

Lemma ansi_literal_length s t rest : append_ansi_c_literal s = Some (t, rest) -> (length rest < length s)%nat.
Proof.
  unfold append_ansi_c_literal. destruct s as [|d [|q r]]; try done. destruct (_ && _); [|done]. intros [= <- <-].
  pose proof (ansi_scan_length r). cbn. lia.
Qed.

Lemma delimiter_run_cons quote b r : delimiter_run quote (b :: r) =
  match quote with
  | Some q =>
      if b =? q then let '(t, d, rest) := delimiter_run None r in (b :: t, d, rest)
      else let '(t, d, rest) := delimiter_run quote r in (b :: t, b :: d, rest)
  | None =>
      if (b =? "'"%b) || (b =? dquote) then
        let '(t, d, rest) := delimiter_run (Some b) r in (b :: t, d, rest)
      else if b =? "\"%b then
        match r with
        | [] => ([], [], [])
        | c :: r' =>
            let '(t, d, rest) := delimiter_run None r' in
            if c =? 10 then (t, d, rest) else (b :: c :: t, c :: d, rest)
        end
      else if is_ascii_whitespace b || is_shell_metacharacter b then ([], [], b :: r)
      else let '(t, d, rest) := delimiter_run None r in (b :: t, b :: d, rest)
  end.
Proof. reflexivity. Qed.

Lemma delimiter_run_length quote s : (length (delimiter_run quote s).2 <= length s)%nat.
Proof.
  revert quote. induction s as [|b|b c r IH IHc] using bytes_two_ind; intros quote; [done| |].
  - destruct quote as [q|]; cbn; [by destruct (b =? q); cbn; lia|].
    destruct ((b =? "'"%b) || (b =? dquote)); [cbn; lia|]. destruct (b =? "\"%b); [cbn; lia|]. destruct (is_ascii_whitespace b || _); cbn; lia.
  - rewrite (delimiter_run_cons quote b (c :: r)). destruct quote as [q|].
    + destruct (b =? q); [pose proof (IHc None) as H|pose proof (IHc (Some q)) as H];
        destruct (delimiter_run _ (c :: r)) as [[t d] rest]; cbn in *; lia.
    + pose proof (IHc (Some b)) as H1. pose proof (IHc None) as H2. pose proof (IH None) as H3.
      destruct (delimiter_run (Some b) (c :: r)) as [[t1 d1] rest1], (delimiter_run None (c :: r)) as [[t2 d2] rest2],
        (delimiter_run None r) as [[t3 d3] rest3]. cbn in *. repeat case_match; simplify_eq; cbn in *; lia.
Qed.

Lemma heredoc_redirect_length s h : (length (append_heredoc_redirect s h).2 <= length s)%nat.
Proof.
  unfold append_heredoc_redirect.
  assert (Hd : exists dash s1, match s with "-"%b :: r => (bs "-", r) | _ => ([], s) end = (dash, s1) /\ (length s1 <= length s)%nat).
  { destruct s as [|b r]; [by eexists _, _|]. destruct (Z.eq_dec b "-"%b) as [->|Hb]; [eexists _, _; split; [reflexivity|cbn; lia]|].
    exists [], (b :: r). split; [|done]. destruct b as [|b|b]; try done. repeat (destruct b as [b|b|]; try done). }
  destruct Hd as (dash & s1 & -> & Hs1). pose proof (span_length (fun b => (b =? " "%b) || (b =? 9)) s1) as H2.
  destruct (span _ s1) as [blanks s2]. pose proof (delimiter_run_length None s2) as H3.
  destruct (delimiter_run None s2) as [[t d] rest]. cbn in *. lia.
Qed.

Lemma heredoc_line_length st d strip pending s : s <> [] ->
  match heredoc_line st d strip pending s with
  | inl (_, rest) => (length rest < length s)%nat
  | inr (_, rest) => (length rest < length s)%nat
  end.
Proof.
  intros Hs. unfold heredoc_line. pose proof (span_app (fun b => negb (b =? 10)) s) as Happ.
  destruct (span _ s) as [line rest] eqn:E. cbn in Happ.
  assert (Hpos : (0 < length s)%nat) by (destruct s; [done|cbn; lia]).
  match goal with |- context [match ?x with Some _ => inl _ | None => _ end] => destruct x end; [rewrite !length_drop; lia|].
  rewrite length_drop. apply (f_equal length) in Happ. rewrite length_app in Happ.
  destruct line; cbn in *; [|lia]. destruct rest; cbn in *; lia.
Qed.

Lemma paren_word_length st before b r : is_name_start b = true -> (length (paren_word st before (b :: r)).2 <= length r)%nat.
Proof.
  intros Hb. unfold paren_word. cbn [span]. unfold is_name_byte at 1. rewrite Hb. cbn [orb].
  pose proof (span_length is_name_byte r) as H. destruct (span is_name_byte r). done.
Qed.

Lemma escaped_length s c r : escaped s = Some (c, r) -> (length r + 2 = length s)%nat.
Proof. destruct s as [|a [|b s]]; cbn; try done. destruct (a =? "\"%b); [|done]. intros [= <- <-]. lia. Qed.

Lemma redirection_length s r : redirection s = Some r -> (length r + 2 = length s)%nat.
Proof. destruct s as [|a [|b s]]; cbn; try done. destruct (_ && _); [|done]. intros [= <-]. lia. Qed.

(** [d] is the least number of bytes consumed. *)
Definition ends (d : nat) (s : bytes) (r : Scan) : Prop :=
  match r with Ok (_, rest) => (length rest + d <= length s)%nat | Err _ => True | Fuel => False end.

Lemma ends_le d s s' r : ends d s r -> (length s <= length s')%nat -> ends d s' r.
Proof. destruct r as [[? ?]| |]; cbn; [lia|done..]. Qed.

Lemma dparen_close_ends fuel s depth : (length s < fuel)%nat ->
  match dparen_loop fuel s depth with
  | Ok (DArithmetic rest) => (length rest + 2 <= length s)%nat
  | Ok _ => True
  | _ => False
  end.
Proof.
  revert s depth. induction fuel as [|fuel IH]; intros s depth Hf; [lia|]. destruct s as [|b r]; [done|]. cbn [dparen_loop length] in *.
  assert (Hr : forall r' d, (length r' <= length r)%nat ->
    match dparen_loop fuel r' d with Ok (DArithmetic rest) => (length rest + 2 <= S (length r))%nat | Ok _ => True | _ => False end).
  { intros r' d Hl. pose proof (IH r' d ltac:(lia)) as Hi. destruct (dparen_loop fuel r' d) as [[]| |]; try done. lia. }
  assert (Hc : forall x, match dparen_single_close x with DArithmetic _ => False | _ => True end).
  { intros x. unfold dparen_single_close. by repeat case_match. }
  pose proof (quoted_run_length b r) as Hq.
  destruct (escaped (b :: r)) as [[c r']|] eqn:Ee; [apply escaped_length in Ee; apply Hr; cbn in *; lia|].
  destruct (_ || _ || _); [by apply Hr|]. destruct (b =? "("%b); [by apply Hr|]. destruct (b =? ")"%b); [|by apply Hr].
  destruct (depth =? 1); [|by apply Hr]. pose proof (Hc r) as Hcr.
  destruct r as [|c r']; [by destruct (dparen_single_close _)|]. destruct (c =? ")"%b); [cbn; lia|]. by destruct (dparen_single_close _).
Qed.

Lemma double_paren_ends s : ends 2 s (extract_double_paren s).
Proof.
  unfold extract_double_paren, arith_dparen_scan. assert (H : exists r, dparen_loop (S (length s)) s 1 = Ok r /\
    match r with DArithmetic rest => (length rest + 2 <= length s)%nat | _ => True end).
  { pose proof (dparen_close_ends (S (length s)) s 1 ltac:(lia)) as H. destruct (dparen_loop _ s 1) as [r|e|]; [|done..]. by exists r. }
  destruct H as (r & -> & Hr). by destruct r.
Qed.

Lemma legacy_ends fuel whole s depth : (length s < fuel)%nat -> ends 1 s (legacy_loop fuel whole s depth).
Proof.
  revert s depth. induction fuel as [|fuel IH]; intros s depth Hf; [lia|]. destruct s as [|b r]; [done|]. cbn [legacy_loop length] in *.
  assert (Hr : forall r' d, (length r' <= length r)%nat -> ends 1 (b :: r) (legacy_loop fuel whole r' d)).
  { intros r' d Hl. eapply ends_le; [apply IH; lia|cbn; lia]. }
  pose proof (quoted_run_length b r). repeat case_match; try (apply Hr; rewrite ?length_drop; lia). cbn. lia.
Qed.

(** Both outcomes of an optional construct. *)
Definition ends_opt (d : nat) (s : bytes) (r : option Scan) : Prop := match r with Some r => ends d s r | None => True end.

Lemma loops_end fuel :
  (forall posix sw body s, (2 * length s < fuel)%nat -> ends 1 s (brace_loop fuel posix sw body s))
  /\ (forall posix s, (2 * length s < fuel)%nat -> ends_opt 1 s (dollar_text fuel posix s))
  /\ (forall whole st s, (2 * length s < fuel)%nat -> ends 1 s (paren_loop fuel whole st s))
  /\ (forall body s, (2 * length s < fuel)%nat -> ends 0 s (double_loop fuel body s)).
Proof.
  induction fuel as [|fuel (IHb & IHt & IHp & IHd)]; [repeat split; intros; lia|]. repeat split.
  - intros posix sw body s Hf. destruct s as [|b r]; [done|]. cbn [brace_loop length] in *.
    assert (Hr : forall body sw r', (length r' <= length r)%nat -> ends 1 (b :: r) (brace_loop fuel posix sw body r')).
    { intros body' sw' r' Hl. eapply ends_le; [apply IHb; lia|cbn; lia]. }
    destruct (append_ansi_c_literal (b :: r)) as [[t rest]|] eqn:Ea; [apply ansi_literal_length in Ea; apply Hr; cbn in *; lia|].
    destruct (escaped (b :: r)) as [[c r']|] eqn:Ee; [apply escaped_length in Ee; apply Hr; cbn in *; lia|].
    pose proof (quoted_run_length b r) as Hq. pose proof (single_run_length r) as Hs. pose proof (IHt posix r ltac:(lia)) as Ht.
    destruct (quoted_run b r) as [tq rq], (single_run r) as [ts rs]. cbn [snd] in *.
    destruct ((b =? "'"%b) && _); [by destruct (closes_before_quote false r); apply Hr|].
    destruct (b =? dquote).
    { destruct (double_run r) as [[[t rest] sw']|] eqn:Ed; [apply double_run_length in Ed; apply Hr; lia|by destruct posix; [|apply Hr]]. }
    destruct (b =? "`"%b); [by apply Hr|].
    destruct (b =? "$"%b); [destruct (dollar_text fuel posix r) as [[[t rest]|e|]|]; cbn in Ht; [apply Hr; lia|done|done|]|].
    all: destruct (b =? "}"%b); [cbn; lia|by apply Hr].
  - intros posix s Hf. destruct s as [|n r]; [done|]. cbn [dollar_text length] in *. unfold ends_opt.
    destruct (n =? "{"%b).
    + pose proof (IHb posix false [] r ltac:(lia)) as Hi. destruct (brace_loop _ _ _ _ r) as [[? ?]| |]; cbn in *; [lia|done..].
    + destruct (n =? "("%b); [|done]. pose proof (IHp r paren_start r ltac:(lia)) as Hi.
      destruct r as [|c r']; [|destruct (c =? "("%b); [pose proof (double_paren_ends r') as Hd; destruct (extract_double_paren r') as [[? ?]| |]; cbn in *; [lia|done..]|]].
      all: destruct (paren_loop _ _ _ _) as [[? ?]| |]; cbn in *; [lia|done..].
  - intros whole st s Hf. destruct s as [|b r]; [done|]. cbn [paren_loop length] in *.
    assert (Hr : forall st r', (length r' <= length r)%nat -> ends 1 (b :: r) (paren_loop fuel whole st r')).
    { intros st' r' Hl. eapply ends_le; [apply IHp; lia|cbn; lia]. }
    destruct (if p_line st then p_heredocs st else []) as [|[d strip] pending].
    2:{ pose proof (heredoc_line_length st d strip pending (b :: r) ltac:(done)) as Hl.
        destruct (heredoc_line _ _ _ _ _) as [[bd rest]|[st' rest]]; cbn in *; [lia|apply Hr; lia]. }
    destruct (b =? 10); [by apply Hr|]. destruct ((b =? "#"%b) && p_comment st) eqn:Ec.
    { apply andb_true_iff in Ec as [Eb _]. apply Z.eqb_eq in Eb as ->. cbn [span Z.eqb Pos.eqb negb].
      pose proof (span_length (fun b => negb (b =? 10)) r). destruct (span _ r). by apply Hr. }
    destruct (escaped (b :: r)) as [[c r']|] eqn:Ee; [apply escaped_length in Ee; apply Hr; cbn in *; lia|].
    destruct (append_ansi_c_literal (b :: r)) as [[t rest]|] eqn:Ea; [apply ansi_literal_length in Ea; apply Hr; cbn in *; lia|].
    pose proof (quoted_run_length b r) as Hq. destruct (quoted_run b r) as [tq rq]. cbn [snd] in Hq.
    destruct ((b =? "'"%b) || (b =? "`"%b)); [by apply Hr|]. pose proof (IHd [b] r ltac:(lia)) as Hd.
    destruct (b =? dquote); [destruct (double_loop fuel [b] r) as [[t rest]|e|]; cbn in Hd; [apply Hr; lia|done..]|].
    destruct (redirection (b :: r)) as [r'|] eqn:Er.
    { apply redirection_length in Er. pose proof (heredoc_redirect_length r' (p_heredocs st)) as Hh.
      destruct (append_heredoc_redirect r' (p_heredocs st)) as [[t h] rest]. apply Hr. cbn in *. lia. }
    destruct (is_name_start b) eqn:En.
    { pose proof (paren_word_length st (rev (bs "(" ++ take (length whole - S (length r)) whole)) b r En) as Hw.
      destruct (paren_word _ _ _) as [st' rest]. by apply Hr. }
    destruct ((b =? ")"%b) && (0 <? p_case st) && _); [by apply Hr|]. cbv zeta.
    destruct ((b =? ")"%b) && _); [cbn; lia|by apply Hr].
  - intros body s Hf. destruct s as [|b r]; [cbn; lia|]. cbn [double_loop length] in *.
    assert (Hr : forall body r', (length r' <= length r)%nat -> ends 0 (b :: r) (double_loop fuel body r')).
    { intros body' r' Hl. eapply ends_le; [apply IHd; lia|cbn; lia]. }
    destruct (b =? dquote); [cbn; lia|].
    destruct (escaped (b :: r)) as [[c r']|] eqn:Ee; [apply escaped_length in Ee; apply Hr; cbn in *; lia|].
    pose proof (quoted_run_length b r) as Hq. destruct (quoted_run b r) as [tq rq]. cbn [snd] in Hq. pose proof (IHt false r ltac:(lia)) as Ht.
    destruct (b =? "$"%b); [destruct (dollar_text fuel false r) as [[[t rest]|e|]|]; cbn in Ht; [apply Hr; lia|done|done|]|].
    all: destruct (b =? "`"%b); by apply Hr.
Qed.

Lemma current_end fuel depth body s : (2 * length s < fuel)%nat -> ends 1 s (current_loop fuel depth body s).
Proof.
  revert depth body s. induction fuel as [|fuel IH]; intros depth body s Hf; [lia|]. destruct s as [|b r]; [done|].
  destruct (loops_end fuel) as (_ & IHt & _ & IHd). cbn [current_loop length] in *.
  assert (Hr : forall depth body r', (length r' <= length r)%nat -> ends 1 (b :: r) (current_loop fuel depth body r')).
  { intros depth' body' r' Hl. eapply ends_le; [apply IH; lia|cbn; lia]. }
  destruct (escaped (b :: r)) as [[c r']|] eqn:Ee; [apply escaped_length in Ee; apply Hr; cbn in *; lia|].
  destruct (append_ansi_c_literal (b :: r)) as [[t rest]|] eqn:Ea; [apply ansi_literal_length in Ea; apply Hr; cbn in *; lia|].
  pose proof (quoted_run_length b r) as Hq. destruct (quoted_run b r) as [tq rq]. cbn [snd] in Hq.
  destruct (_ || _); [by apply Hr|]. pose proof (IHd [b] r ltac:(lia)) as Hd.
  destruct (b =? dquote); [destruct (double_loop fuel [b] r) as [[t rest]|e|]; cbn in Hd; [apply Hr; lia|done..]|].
  assert (Ht : ends_opt 1 r (if b =? "$"%b then
      match r with
      | n :: r' =>
          if (n =? "{"%b) && bool_decide (is_Some (current_subst_mode r')) then
            let bar := take 1 r' in
            let bar := if bytes_eqb bar (bs "|") then bar else [] in
            Some (match current_loop fuel 0 [] (drop (length bar) r') with
                  | Ok (inner, rest) => Ok (n :: bar ++ inner ++ bs "}", rest)
                  | x => x
                  end)
          else dollar_text fuel false r
      | [] => None
      end else None)).
  { destruct (b =? "$"%b); [|done]. destruct r as [|n r']; [done|]. destruct (_ && _); [|apply IHt; lia]. cbv zeta. unfold ends_opt.
    set (bar := if bytes_eqb _ _ then _ else _). pose proof (IH 0 [] (drop (length bar) r')) as Hi. rewrite length_drop in Hi. specialize (Hi ltac:(cbn in *; lia)).
    destruct (current_loop fuel 0 [] _) as [[inner rest]| |]; cbn in *; rewrite ?length_drop in *; [lia|done..]. }
  revert Ht. match goal with |- ends_opt 1 r ?x -> ends _ _ (match ?y with _ => _ end) => change y with x; destruct x as [[[t rest]|e|]|] end;
    cbn; intros Ht; [apply Hr; lia|done..|].
  destruct (b =? "{"%b); [by apply Hr|]. destruct (b =? "}"%b); [|by apply Hr]. destruct (depth =? 0); [cbn; lia|by apply Hr].
Qed.

(** every scanner ends: on any text, with the fuel it is given, it answers
    with an error or with a body, and then it has consumed at least the closing
    delimiter. *)
Theorem scanners_end (posix : bool) (s : bytes) :
  ends 1 s (extract_brace_body posix s) /\ ends 1 s (extract_paren s) /\ ends 2 s (extract_double_paren s)
  /\ ends 1 s (extract_legacy_arith s) /\ ends 1 s (extract_current_brace_body s).
Proof.
  destruct (loops_end (scan_fuel s)) as (Hb & _ & Hp & _). unfold extract_brace_body, extract_paren, extract_legacy_arith, extract_current_brace_body.
  repeat split; [apply Hb|apply Hp|apply double_paren_ends|apply legacy_ends|apply current_end]; unfold scan_fuel; lia.
Qed.

(** * Well-formed constructs *)

(** The text of constructs: bytes, escapes, words of a command, quoted text,
    substitutions and parenthesised commands. *)
Inductive node :=
| NByte (c : Z)
| NEsc (c : Z)
| NWord (w : bytes)
| NSingle (t : bytes)
| NBack (t : bytes)
| NAnsi (t : bytes)
| NDouble (l : list node)
| NBrace (l : list node)
| NCmd (l : list node)
| NArith (t : bytes)
| NGroup (l : list node).

(** Where a node stands: in [${..}], in a command, or in double quotes. *)
Inductive mode := MBrace | MCmd | MDouble.

Fixpoint text (n : node) : bytes :=
  match n with
  | NByte c => [c]
  | NEsc c => ["\"%b; c]
  | NWord w => w
  | NSingle t => "'"%b :: t ++ ["'"%b]
  | NBack t => "`"%b :: t ++ ["`"%b]
  | NAnsi t => "$"%b :: "'"%b :: t ++ ["'"%b]
  | NDouble l => dquote :: concat (map text l) ++ [dquote]
  | NBrace l => "$"%b :: "{"%b :: concat (map text l) ++ ["}"%b]
  | NCmd l => "$"%b :: "("%b :: concat (map text l) ++ [")"%b]
  | NArith t => "$"%b :: "("%b :: "("%b :: t ++ [")"%b; ")"%b]
  | NGroup l => "("%b :: concat (map text l) ++ [")"%b]
  end.
Definition texts (l : list node) : bytes := concat (map text l).

(** The body the scanner returns: the text, except that an escaped [}] of a
    parameter expansion loses its backslash. *)
Fixpoint kept (m : mode) (n : node) : bytes :=
  match n with
  | NEsc c => match m with MBrace => if c =? "}"%b then [c] else ["\"%b; c] | _ => ["\"%b; c] end
  | NDouble l => dquote :: concat (map (kept MDouble) l) ++ [dquote]
  | NBrace l => "$"%b :: "{"%b :: concat (map (kept MBrace) l) ++ ["}"%b]
  | NCmd l => "$"%b :: "("%b :: concat (map (kept MCmd) l) ++ [")"%b]
  | NGroup l => "("%b :: concat (map (kept MCmd) l) ++ [")"%b]
  | _ => text n
  end.
Definition keeps (m : mode) (l : list node) : bytes := concat (map (kept m) l).

(** Text without an unescaped [q] and without a backslash at the end. *)
Fixpoint closed (q : Z) (t : bytes) : bool :=
  match t with
  | [] => true
  | b :: r =>
      negb (b =? q)
      && (if b =? "\"%b then match r with _ :: r' => closed q r' | [] => false end else closed q r)
  end.

(** Arithmetic text without quotes whose parentheses are balanced. *)
Fixpoint balanced (depth : Z) (t : bytes) : bool :=
  match t with
  | [] => depth =? 1
  | b :: r =>
      negb ((b =? "\"%b) || (b =? "'"%b) || (b =? dquote) || (b =? "`"%b))
      && (if b =? "("%b then balanced (depth + 1) r
          else if b =? ")"%b then (1 <? depth) && balanced (depth - 1) r
          else balanced depth r)
  end.

Definition one_byte (l : bytes) (c : Z) : bool := existsb (Z.eqb c) l.
Definition next_one_of (l : bytes) (next : option Z) : bool := match next with Some c => one_byte l c | None => false end.

Definition byte_ok (posix : bool) (m : mode) (c : Z) (next : option Z) : bool :=
  match m with
  | MBrace =>
      negb (one_byte ["\"%b; dquote; "`"%b; "}"%b] c) && (posix || negb (c =? "'"%b))
      && negb ((c =? "$"%b) && next_one_of ["'"%b; "{"%b; "("%b] next)
  | MDouble => negb (one_byte ["\"%b; dquote; "`"%b] c) && negb ((c =? "$"%b) && next_one_of ["{"%b; "("%b] next)
  | MCmd =>
      negb (one_byte ["#"%b; "\"%b; "'"%b; dquote; "`"%b; "("%b; ")"%b] c) && negb (is_name_start c)
      && negb ((c =? "$"%b) && next_one_of ["'"%b] next) && negb ((c =? "<"%b) && next_one_of ["<"%b] next)
  end.

Definition word_ok (w : bytes) (next : option Z) : bool :=
  match w with
  | b :: _ => is_name_start b && forallb is_name_byte w && negb (bytes_eqb w (bs "case")) && negb (bytes_eqb w (bs "esac"))
              && negb (match next with Some c => is_name_byte c | None => false end)
  | [] => false
  end.

Definition flat (n : node) : bool := match n with NByte _ | NEsc _ => true | _ => false end.

(** A node may stand in mode [m] before the byte [next]; [posix] is
    [posix_single_quote]. *)
Fixpoint ok (posix : bool) (m : mode) (n : node) (next : option Z) : bool :=
  let fix all (posix : bool) (m : mode) (close : Z) (l : list node) : bool :=
    match l with
    | [] => true
    | x :: r => ok posix m x (head (texts r ++ [close])) && all posix m close r
    end in
  match n, m with
  | NByte c, _ => byte_ok posix m c next
  | NEsc _, _ => true
  | NWord w, MCmd => word_ok w next
  | NSingle t, MBrace => negb posix && negb (one_byte t "'"%b) && closed "'"%b t
  | NSingle t, MCmd => closed "'"%b t
  | NBack t, _ => closed "`"%b t
  | NAnsi t, (MBrace | MCmd) => closed "'"%b t
  | NDouble l, MBrace => forallb flat l && closed dquote (texts l)
  | NDouble l, MCmd => all false MDouble dquote l
  | NBrace l, MBrace => all posix MBrace "}"%b l
  | NBrace l, MDouble => all false MBrace "}"%b l
  | NCmd l, (MBrace | MDouble) => all false MCmd ")"%b l && negb (bool_decide (head (texts l) = Some "("%b))
  | NArith t, (MBrace | MDouble) => balanced 1 t
  | NGroup l, MCmd => all false MCmd ")"%b l
  | _, _ => false
  end.

Fixpoint all_ok (posix : bool) (m : mode) (close : Z) (l : list node) : bool :=
  match l with
  | [] => true
  | x :: r => ok posix m x (head (texts r ++ [close])) && all_ok posix m close r
  end.

(** ** The runs *)

Lemma quoted_run_cons q b r : quoted_run q (b :: r) =
  if b =? q then ([b], r)
  else match r with
       | c :: r' => if b =? "\"%b then let '(t, rest) := quoted_run q r' in (b :: c :: t, rest)
                    else let '(t, rest) := quoted_run q r in (b :: t, rest)
       | [] => ([b], [])
       end.
Proof. reflexivity. Qed.

Lemma quoted_closed q t rest : closed q t = true -> quoted_run q (t ++ q :: rest) = (t ++ [q], rest).
Proof.
  induction t as [|b|b c r IH IHc] using bytes_two_ind; cbn [closed].
  - intros _. cbn [app]. rewrite quoted_run_cons. by rewrite Z.eqb_refl.
  - destruct (b =? q) eqn:Eq, (b =? "\"%b) eqn:Eb; cbn; try done. intros _. rewrite Eq, Eb, Z.eqb_refl. done.
  - intros [Hq Hc]%andb_true_iff. apply negb_true_iff in Hq. cbn [app]. rewrite quoted_run_cons, Hq. destruct (b =? "\"%b).
    + by rewrite IH.
    + cbn [app] in IHc. by rewrite IHc.
Qed.

Lemma ansi_scan_closed t rest : closed "'"%b t = true -> (scan_ansi_c_quoted (t ++ "'"%b :: rest)).2 = rest.
Proof.
  assert (Hcons : forall b r, scan_ansi_c_quoted (b :: r) =
    if b =? "'"%b then ([], r)
    else match r with
         | c :: s' => if b =? "\"%b then let '(out, rest) := scan_ansi_c_quoted s' in (b :: c :: out, rest)
                      else let '(out, rest) := scan_ansi_c_quoted r in (b :: out, rest)
         | [] => ([b], [])
         end) by reflexivity.
  induction t as [|b|b c r IH IHc] using bytes_two_ind; cbn [closed].
  - done.
  - destruct (b =? "'"%b) eqn:Eq, (b =? "\"%b) eqn:Eb; try done. intros _. cbn [app]. by rewrite Hcons, Eq, Eb.
  - intros [Hq Hc]%andb_true_iff. apply negb_true_iff in Hq. cbn [app]. rewrite Hcons, Hq. destruct (b =? "\"%b).
    + specialize (IH Hc). destruct (scan_ansi_c_quoted (r ++ _)). done.
    + cbn [app] in IHc. specialize (IHc Hc). destruct (scan_ansi_c_quoted (c :: _)). done.
Qed.

Lemma ansi_literal_closed t rest : closed "'"%b t = true ->
  append_ansi_c_literal ("$"%b :: "'"%b :: t ++ "'"%b :: rest) = Some (text (NAnsi t), rest).
Proof.
  intros Ht. cbn [append_ansi_c_literal Z.eqb Pos.eqb andb]. cbv zeta. rewrite ansi_scan_closed by done. f_equal. f_equal.
  replace ("$"%b :: "'"%b :: t ++ "'"%b :: rest) with (text (NAnsi t) ++ rest) by (cbn; by rewrite <- app_assoc).
  apply take_app_length'. rewrite length_app. lia.
Qed.

Lemma single_closed t rest : one_byte t "'"%b = false -> single_run (t ++ "'"%b :: rest) = (t ++ ["'"%b], rest).
Proof.
  intros Ht. unfold single_run. assert (span (fun b => negb (b =? "'"%b)) (t ++ "'"%b :: rest) = (t, "'"%b :: rest)) as ->; [|done].
  induction t as [|b t IH]; [done|]. cbn [one_byte existsb] in Ht. apply orb_false_iff in Ht as [Hb Ht]. cbn [app span].
  rewrite Z.eqb_sym, Hb. cbn [negb]. by rewrite IH.
Qed.

Lemma closes_closed t rest : one_byte t "'"%b = false -> closed "'"%b t = true -> closes_before_quote false (t ++ "'"%b :: rest) = false.
Proof.
  assert (Hcons : forall b r, closes_before_quote false (b :: r) =
    if b =? "'"%b then false
    else match r with
         | c :: r' => if b =? "\"%b then closes_before_quote (false || (c =? "'"%b)) r'
                      else if (b =? "}"%b) && false then true else closes_before_quote false r
         | [] => (b =? "}"%b) && false
         end) by reflexivity.
  induction t as [|b|b c r IH IHc] using bytes_two_ind; intros Hno Hcl; cbn [one_byte existsb closed app] in *.
  - done.
  - apply andb_true_iff in Hcl as [Hb Hcl]. apply negb_true_iff in Hb. rewrite Hcons, Hb, andb_false_r. by destruct (b =? "\"%b).
  - apply andb_true_iff in Hcl as [Hb Hcl]. apply negb_true_iff in Hb. rewrite Hcons, Hb, andb_false_r.
    apply orb_false_iff in Hno as [_ Hno]. destruct (b =? "\"%b).
    + apply orb_false_iff in Hno as [Hc Hno]. rewrite Z.eqb_sym in Hc. rewrite Hc. by apply IH.
    + by apply IHc.
Qed.

Lemma double_closed t rest : closed dquote t = true -> exists sw, double_run (t ++ dquote :: rest) = Some (t ++ [dquote], rest, sw).
Proof.
  assert (Hcons : forall b r, double_run (b :: r) =
    if b =? dquote then Some ([b], r, false)
    else match r with
         | c :: r' => if b =? "\"%b then '(t, rest, sw) ← double_run r'; Some (b :: c :: t, rest, sw)
                      else '(t, rest, sw) ← double_run r; Some (b :: t, rest, (b =? "}"%b) || sw)
         | [] => None
         end) by reflexivity.
  induction t as [|b|b c r IH IHc] using bytes_two_ind; cbn [closed].
  - intros _. exists false. done.
  - destruct (b =? dquote) eqn:Eq, (b =? "\"%b) eqn:Eb; try done. intros _. cbn [app]. rewrite Hcons, Eq, Eb. by eexists.
  - intros [Hq Hc]%andb_true_iff. apply negb_true_iff in Hq. cbn [app]. rewrite Hcons, Hq. destruct (b =? "\"%b).
    + destruct (IH Hc) as [sw ->]. by eexists.
    + cbn [app] in IHc. destruct (IHc Hc) as [sw ->]. by eexists.
Qed.

Lemma dparen_balanced fuel d t rest : 1 <= d -> balanced d t = true -> (length t < fuel)%nat ->
  dparen_loop fuel (t ++ ")"%b :: ")"%b :: rest) d = Ok (DArithmetic rest).
Proof.
  revert fuel d. induction t as [|b t IH]; intros fuel d Hd Hb Hf; (destruct fuel as [|fuel]; [cbn in Hf; lia|]).
  - cbn [balanced] in Hb. cbn [app dparen_loop escaped Z.eqb Pos.eqb orb]. by rewrite Hb.
  - cbn [balanced length] in *. apply andb_true_iff in Hb as [Hn Hb]. apply negb_true_iff, orb_false_iff in Hn as [Hn H4].
    apply orb_false_iff in Hn as [Hn H3]. apply orb_false_iff in Hn as [H1 H2]. cbn [app dparen_loop].
    assert (escaped (b :: t ++ ")"%b :: ")"%b :: rest) = None) as -> by (destruct t; cbn; by rewrite H1).
    rewrite H2, H3, H4. cbn [orb]. destruct (b =? "("%b); [by apply IH; [lia|..|lia]|]. destruct (b =? ")"%b); [|by apply IH; [lia|..|lia]].
    apply andb_true_iff in Hb as [Hl Hb]. apply Z.ltb_lt in Hl. rewrite (proj2 (Z.eqb_neq d 1)) by lia. apply IH; [lia|done|lia].
Qed.

Lemma double_paren_balanced t rest : balanced 1 t = true -> extract_double_paren (t ++ ")"%b :: ")"%b :: rest) = Ok (t, rest).
Proof.
  intros Ht. unfold extract_double_paren, arith_dparen_scan. rewrite dparen_balanced; [|lia|done|rewrite length_app; lia].
  f_equal. f_equal. apply take_app_length'. rewrite length_app. cbn. lia.
Qed.

Lemma word_span w c rest : word_ok w (Some c) = true -> span is_name_byte (w ++ c :: rest) = (w, c :: rest).
Proof.
  unfold word_ok. destruct w as [|b0 w0] eqn:Ew; [done|]. rewrite <- Ew. intros H. rewrite !andb_true_iff, !negb_true_iff in H.
  destruct H as ((((_ & Hw) & _) & _) & Hc). clear Ew. induction w as [|b w IH]; cbn [app span].
  - by rewrite Hc.
  - cbn [forallb] in Hw. apply andb_true_iff in Hw as [-> Hw]. by rewrite IH.
Qed.

(** ** One node *)

Definition brace_step (posix : bool) (t k tail : bytes) : Prop := forall fuel sw body, (2 * length (t ++ tail) < fuel)%nat ->
  exists fuel' sw', (2 * length tail < fuel')%nat
  /\ brace_loop fuel posix sw body (t ++ tail) = brace_loop fuel' posix sw' (body ++ k) tail.

(** No [case] is open and no here-document waits. *)
Definition calm (st : ParenSt) : Prop := 1 <= p_depth st /\ p_case st = 0 /\ p_heredocs st = [].

Definition cmd_step (t k tail : bytes) : Prop := forall fuel whole st, (2 * length (t ++ tail) < fuel)%nat -> calm st ->
  exists fuel' st', (2 * length tail < fuel')%nat /\ calm st' /\ p_depth st' = p_depth st /\ p_body st' = p_body st ++ k
  /\ paren_loop fuel whole st (t ++ tail) = paren_loop fuel' whole st' tail.

Definition double_step (t k tail : bytes) : Prop := forall fuel body, (2 * length (t ++ tail) < fuel)%nat ->
  exists fuel', (2 * length tail < fuel')%nat /\ double_loop fuel body (t ++ tail) = double_loop fuel' (body ++ k) tail.

Definition node_scanned (x : node) : Prop :=
  (forall posix tail, ok posix MBrace x (head tail) = true -> brace_step posix (text x) (kept MBrace x) tail)
  /\ (forall tail, ok false MCmd x (head tail) = true -> cmd_step (text x) (kept MCmd x) tail)
  /\ (forall tail, ok false MDouble x (head tail) = true -> double_step (text x) (kept MDouble x) tail).

Lemma head_texts l (close : Z) (rest : bytes) : head (texts l ++ [close]) = head (texts l ++ close :: rest).
Proof. by destruct (texts l). Qed.

Lemma texts_cons x l tail : texts (x :: l) ++ tail = text x ++ texts l ++ tail.
Proof. unfold texts. cbn [map concat]. by rewrite app_assoc. Qed.

Lemma brace_nodes posix l close rest : Forall node_scanned l -> all_ok posix MBrace close l = true ->
  brace_step posix (texts l) (keeps MBrace l) (close :: rest).
Proof.
  intros HP. induction HP as [|x l Hx HP IH]; cbn [all_ok]; intros Hok fuel sw body Hf.
  - exists fuel, sw. split; [done|]. unfold keeps. cbn. by rewrite app_nil_r.
  - apply andb_true_iff in Hok as [Hx1 Hok]. rewrite texts_cons in *. rewrite (head_texts l close rest) in Hx1.
    destruct (proj1 Hx posix _ Hx1 fuel sw body Hf) as (f1 & sw1 & Hf1 & ->).
    destruct (IH Hok f1 sw1 (body ++ kept MBrace x) Hf1) as (f2 & sw2 & Hf2 & ->). exists f2, sw2. split; [done|]. unfold keeps. cbn. by rewrite app_assoc.
Qed.

Lemma cmd_nodes l close rest : Forall node_scanned l -> all_ok false MCmd close l = true ->
  cmd_step (texts l) (keeps MCmd l) (close :: rest).
Proof.
  intros HP. induction HP as [|x l Hx HP IH]; cbn [all_ok]; intros Hok fuel whole st Hf Hst.
  - exists fuel, st. unfold keeps. cbn. by rewrite app_nil_r.
  - apply andb_true_iff in Hok as [Hx1 Hok]. rewrite texts_cons in *. rewrite (head_texts l close rest) in Hx1.
    destruct (proj1 (proj2 Hx) _ Hx1 fuel whole st Hf Hst) as (f1 & st1 & Hf1 & Hst1 & Hd1 & Hb1 & ->).
    destruct (IH Hok f1 whole st1 Hf1 Hst1) as (f2 & st2 & Hf2 & Hst2 & Hd2 & Hb2 & ->). exists f2, st2.
    split; [done|]. split; [done|]. split; [congruence|]. split; [|done]. rewrite Hb2, Hb1. unfold keeps. cbn. by rewrite app_assoc.
Qed.

Lemma double_nodes l close rest : Forall node_scanned l -> all_ok false MDouble close l = true ->
  double_step (texts l) (keeps MDouble l) (close :: rest).
Proof.
  intros HP. induction HP as [|x l Hx HP IH]; cbn [all_ok]; intros Hok fuel body Hf.
  - exists fuel. split; [done|]. unfold keeps. cbn. by rewrite app_nil_r.
  - apply andb_true_iff in Hok as [Hx1 Hok]. rewrite texts_cons in *. rewrite (head_texts l close rest) in Hx1.
    destruct (proj2 (proj2 Hx) _ Hx1 fuel body Hf) as (f1 & Hf1 & ->).
    destruct (IH Hok f1 (body ++ kept MDouble x) Hf1) as (f2 & Hf2 & ->). exists f2. split; [done|]. unfold keeps. cbn. by rewrite app_assoc.
Qed.

(** ** Closing delimiters and substitutions *)

Lemma paren_close fuel whole st rest : (0 < fuel)%nat -> calm st -> p_depth st = 1 ->
  paren_loop fuel whole st (")"%b :: rest) = Ok (p_body st, rest).
Proof.
  intros Hf (_ & Hc & Hh) Hd. destruct fuel; [lia|]. cbn [paren_loop]. rewrite Hh, Hc, Hd.
  destruct (p_line st); destruct rest; reflexivity.
Qed.

Lemma dollar_brace fuel posix l rest : Forall node_scanned l -> all_ok posix MBrace "}"%b l = true ->
  (2 * length ("{"%b :: texts l ++ "}"%b :: rest) < fuel)%nat ->
  dollar_text fuel posix ("{"%b :: texts l ++ "}"%b :: rest) = Some (Ok ("{"%b :: keeps MBrace l ++ ["}"%b], rest)).
Proof.
  intros HP Hok Hf. destruct fuel as [|fuel]; [lia|]. cbn [length] in Hf. cbn [dollar_text Z.eqb Pos.eqb].
  destruct (brace_nodes posix l "}"%b rest HP Hok fuel false [] ltac:(lia)) as (f1 & sw1 & Hf1 & ->).
  destruct f1; [lia|]. destruct rest; reflexivity.
Qed.

Lemma dollar_cmd fuel posix l rest : Forall node_scanned l -> all_ok false MCmd ")"%b l = true -> head (texts l) <> Some "("%b ->
  (2 * length ("("%b :: texts l ++ ")"%b :: rest) < fuel)%nat ->
  dollar_text fuel posix ("("%b :: texts l ++ ")"%b :: rest) = Some (Ok ("("%b :: keeps MCmd l ++ [")"%b], rest)).
Proof.
  intros HP Hok Hhead Hf. destruct fuel as [|fuel]; [lia|]. cbn [length] in Hf. cbn [dollar_text Z.eqb Pos.eqb].
  destruct (cmd_nodes l ")"%b rest HP Hok fuel (texts l ++ ")"%b :: rest) paren_start ltac:(lia) ltac:(done)) as (f1 & st1 & Hf1 & Hst1 & Hd1 & Hb1 & Heq).
  rewrite paren_close in Heq by (done || lia). rewrite Hb1 in Heq. cbn [p_body paren_start app] in Heq.
  destruct (texts l ++ ")"%b :: rest) as [|c r'] eqn:Et; [by destruct (texts l)|].
  assert (c <> "("%b) by (intros ->; destruct (texts l); cbn in *; congruence).
  rewrite (proj2 (Z.eqb_neq _ _)) by done. by rewrite Heq.
Qed.

Lemma dollar_arith fuel posix t rest : (0 < fuel)%nat -> balanced 1 t = true ->
  dollar_text fuel posix ("("%b :: "("%b :: t ++ ")"%b :: ")"%b :: rest) = Some (Ok ("("%b :: "("%b :: t ++ [")"%b; ")"%b], rest)).
Proof.
  intros Hf Ht. destruct fuel as [|fuel]; [lia|]. cbn [dollar_text Z.eqb Pos.eqb]. by rewrite double_paren_balanced.
Qed.

Lemma no_dollar fuel posix tail : (0 < fuel)%nat -> next_one_of ["{"%b; "("%b] (head tail) = false -> dollar_text fuel posix tail = None.
Proof.
  intros Hf Hn. destruct fuel as [|fuel]; [lia|]. destruct tail as [|n r]; [done|]. cbn [head next_one_of one_byte existsb] in Hn.
  rewrite !orb_false_iff in Hn. destruct Hn as (H1 & H2 & _). cbn [dollar_text]. by rewrite H1, H2.
Qed.

Lemma no_ansi c tail : (c =? "$"%b) && next_one_of ["'"%b] (head tail) = false -> append_ansi_c_literal (c :: tail) = None.
Proof.
  destruct tail as [|q r]; [done|]. cbn. rewrite orb_false_r. intros H. by rewrite H.
Qed.

Lemma no_escape c tail : (c =? "\"%b) = false -> escaped (c :: tail) = None.
Proof. intros H. destruct tail; [done|]. cbn. by rewrite H. Qed.

Lemma next_split a l next : next_one_of (a :: l) next = false -> next_one_of [a] next = false /\ next_one_of l next = false.
Proof. destruct next as [c|]; [|done]. cbn. rewrite !orb_false_iff. tauto. Qed.

Ltac split_bytes :=
  repeat match goal with
  | H : negb _ = true |- _ => apply negb_true_iff in H
  | H : (_ && _)%bool = true |- _ => apply andb_true_iff in H as [? ?]
  | H : one_byte _ _ = false |- _ => unfold one_byte in H; cbn [existsb] in H
  | H : (_ || _)%bool = false |- _ => apply orb_false_iff in H as [? ?]
  end.

(** One round of a loop, the rest after the node. *)
Ltac next_round fuel Hf := destruct fuel as [|fuel]; [lia|]; cbn [length app] in Hf; rewrite ?length_app in Hf; cbn [length] in Hf; cbn [app].

Lemma brace_byte posix c tail : byte_ok posix MBrace c (head tail) = true -> brace_step posix [c] [c] tail.
Proof.
  unfold byte_ok. intros Hc fuel sw body Hf. next_round fuel Hf. split_bytes. exists fuel, sw. split; [lia|]. cbn [brace_loop].
  rewrite no_ansi, no_escape by (done || (apply andb_false_iff in H0 as [->|Hn]; [done|]; destruct (next_split _ _ _ Hn) as [-> _]; apply andb_false_r)).
  assert ((c =? "'"%b) && negb posix = false) as -> by (destruct posix; [apply andb_false_r|cbn in H1; split_bytes; by rewrite H1]).
  rewrite H2, H3. destruct (c =? "$"%b); [|by rewrite H4].
  cbn [andb] in H0. destruct (next_split _ _ _ H0) as [_ Hn]. rewrite no_dollar by (done || lia). by rewrite H4.
Qed.

Lemma flat_kept l : forallb flat l = true -> concat (map (kept MDouble) l) = texts l.
Proof.
  unfold texts. induction l as [|x l IH]; [done|]. cbn. intros [Hx Hl]%andb_true_iff. rewrite IH by done. by destruct x.
Qed.

(** The inner list test of [ok]. *)
Lemma ok_nodes l next :
  (forall posix, ok posix MBrace (NBrace l) next = all_ok posix MBrace "}"%b l)
  /\ ok false MDouble (NBrace l) next = all_ok false MBrace "}"%b l
  /\ (forall posix, ok posix MBrace (NCmd l) next = all_ok false MCmd ")"%b l && negb (bool_decide (head (texts l) = Some "("%b)))
  /\ ok false MDouble (NCmd l) next = all_ok false MCmd ")"%b l && negb (bool_decide (head (texts l) = Some "("%b))
  /\ ok false MCmd (NDouble l) next = all_ok false MDouble dquote l
  /\ ok false MCmd (NGroup l) next = all_ok false MCmd ")"%b l.
Proof.
  repeat split; reflexivity.
Qed.

Section Substitutions.
Context (l : list node) (HP : Forall node_scanned l).

Lemma brace_brace posix tail : all_ok posix MBrace "}"%b l = true -> brace_step posix (text (NBrace l)) (kept MBrace (NBrace l)) tail.
Proof.
  intros Hok fuel sw body Hf. cbn [text kept] in *. fold (texts l) (keeps MBrace l) in *. next_round fuel Hf. exists fuel, sw.
  split; [lia|]. rewrite <- app_assoc. cbn [app]. cbn [brace_loop]. rewrite no_ansi, no_escape by done. cbn [Z.eqb Pos.eqb andb].
  change (dquote) with 34. cbn [Z.eqb Pos.eqb]. rewrite dollar_brace by (done || (cbn [length]; rewrite length_app; cbn; lia)). done.
Qed.

Lemma brace_cmd posix tail : all_ok false MCmd ")"%b l = true -> head (texts l) <> Some "("%b ->
  brace_step posix (text (NCmd l)) (kept MBrace (NCmd l)) tail.
Proof.
  intros Hok Hh fuel sw body Hf. cbn [text kept] in *. fold (texts l) (keeps MCmd l) in *. next_round fuel Hf. exists fuel, sw.
  split; [lia|]. rewrite <- app_assoc. cbn [app]. cbn [brace_loop]. rewrite no_ansi, no_escape by done. cbn [Z.eqb Pos.eqb andb].
  change (dquote) with 34. cbn [Z.eqb Pos.eqb]. rewrite dollar_cmd by (done || (cbn [length]; rewrite length_app; cbn; lia)). done.
Qed.

Lemma double_brace tail : all_ok false MBrace "}"%b l = true -> double_step (text (NBrace l)) (kept MDouble (NBrace l)) tail.
Proof.
  intros Hok fuel body Hf. cbn [text kept] in *. fold (texts l) (keeps MBrace l) in *. next_round fuel Hf. exists fuel.
  split; [lia|]. rewrite <- app_assoc. cbn [app]. cbn [double_loop]. change (dquote) with 34. rewrite no_escape by done. cbn [Z.eqb Pos.eqb].
  rewrite dollar_brace by (done || (cbn [length]; rewrite length_app; cbn; lia)). done.
Qed.

Lemma double_cmd tail : all_ok false MCmd ")"%b l = true -> head (texts l) <> Some "("%b ->
  double_step (text (NCmd l)) (kept MDouble (NCmd l)) tail.
Proof.
  intros Hok Hh fuel body Hf. cbn [text kept] in *. fold (texts l) (keeps MCmd l) in *. next_round fuel Hf. exists fuel.
  split; [lia|]. rewrite <- app_assoc. cbn [app]. cbn [double_loop]. change (dquote) with 34. rewrite no_escape by done. cbn [Z.eqb Pos.eqb].
  rewrite dollar_cmd by (done || (cbn [length]; rewrite length_app; cbn; lia)). done.
Qed.

Lemma cmd_double tail : all_ok false MDouble dquote l = true -> cmd_step (text (NDouble l)) (kept MCmd (NDouble l)) tail.
Proof.
  intros Hok fuel whole st Hf Hst. cbn [text kept] in *. fold (texts l) (keeps MDouble l) in *. next_round fuel Hf.
  rewrite <- app_assoc. cbn [app]. cbn [paren_loop].
  destruct (double_nodes l dquote tail HP Hok fuel [dquote] ltac:(rewrite length_app; cbn; lia)) as (f1 & Hf1 & Heq).
  destruct f1 as [|f1]; [lia|]. cbn [double_loop] in Heq. rewrite Z.eqb_refl in Heq.
  exists fuel, (p_copy st (dquote :: keeps MDouble l ++ [dquote]) false false). destruct Hst as (Hd & Hc & Hh).
  split; [lia|]. split; [done|]. split; [done|]. split; [done|]. rewrite Hh. rewrite no_escape, no_ansi by done.
  change dquote with 34 in *. cbn [Z.eqb Pos.eqb andb orb]. rewrite Heq. by destruct (p_line st).
Qed.

Lemma cmd_group tail : all_ok false MCmd ")"%b l = true -> cmd_step (text (NGroup l)) (kept MCmd (NGroup l)) tail.
Proof.
  intros Hok fuel whole st Hf Hst. cbn [text kept] in *. fold (texts l) (keeps MCmd l) in *. next_round fuel Hf.
  rewrite <- app_assoc. cbn [app]. destruct Hst as (Hd & Hc & Hh).
  set (st1 := mkParen (p_depth st + 1) (p_case st) true (p_heredocs st) false (p_body st ++ ["("%b])).
  assert (Hopen : paren_loop (S fuel) whole st ("("%b :: texts l ++ ")"%b :: tail) = paren_loop fuel whole st1 (texts l ++ ")"%b :: tail)).
  { cbn [paren_loop]. rewrite Hh. rewrite no_escape, no_ansi by done. unfold st1. rewrite Hh.
    destruct (p_line st); destruct (texts l ++ _); reflexivity. }
  destruct (cmd_nodes l ")"%b tail HP Hok fuel whole st1 ltac:(rewrite length_app; cbn; lia)) as (f1 & st2 & Hf1 & (_ & Hc2 & Hh2) & Hd2 & Hb2 & Heq).
  { split; [cbn; lia|done]. }
  destruct f1 as [|f1]; [lia|]. cbn [length] in Hf1.
  exists f1, (mkParen (p_depth st) (p_case st2) true (p_heredocs st2) false (p_body st2 ++ [")"%b])).
  split; [lia|]. split; [done|]. split; [done|]. split; [cbn; rewrite Hb2; cbn; by rewrite <- !app_assoc|].
  rewrite Hopen, Heq. cbn [paren_loop]. rewrite Hh2. rewrite no_escape, no_ansi by done. rewrite Hc2, Hd2. cbn [p_depth st1].
  assert (redirection (")"%b :: tail) = None) as -> by (by destruct tail).
  assert ((p_depth st + 1 - 1 =? 0) = false) as Hz by (apply Z.eqb_neq; lia).
  change dquote with 34. cbn [Z.eqb Pos.eqb andb orb Z.ltb Z.compare]. cbv zeta. cbn [is_name_start is_ascii_alphabetic is_ascii_upper is_ascii_lower in_range].
  destruct (p_line st2); change (is_name_start ")"%b) with false; cbn [Z.eqb Pos.eqb andb orb Z.ltb Z.compare]; rewrite Hz;
    by replace (p_depth st + 1 - 1) with (p_depth st) by lia.
Qed.
End Substitutions.

(** ** Nodes without parts *)

Lemma brace_leaf posix x tail : ok posix MBrace x (head tail) = true ->
  match x with NBrace _ | NCmd _ => False | _ => True end -> brace_step posix (text x) (kept MBrace x) tail.
Proof.
  intros Hok Hx. destruct x as [c|c|w|t|t|t|l|l|l|t|l]; try done.
  - by apply brace_byte.
  - intros fuel sw body Hf. cbn [text kept] in *. next_round fuel Hf. exists fuel, sw. split; [lia|]. cbn [brace_loop]. by rewrite no_ansi.
  - intros fuel sw body Hf. cbn [text kept ok] in *. split_bytes. next_round fuel Hf. exists fuel, sw. split; [lia|].
    cbn [brace_loop]. rewrite <- app_assoc. cbn [app]. rewrite no_ansi, no_escape, closes_closed, single_closed by done.
    subst posix. done.
  - intros fuel sw body Hf. cbn [text kept ok] in *. next_round fuel Hf. exists fuel, sw. split; [lia|].
    cbn [brace_loop]. rewrite <- app_assoc. cbn [app]. by rewrite no_ansi, no_escape, quoted_closed.
  - intros fuel sw body Hf. cbn [text kept ok] in *. next_round fuel Hf. exists fuel, sw. split; [lia|].
    cbn [brace_loop]. rewrite <- app_assoc. cbn [app]. by rewrite ansi_literal_closed.
  - intros fuel sw body Hf. cbn [text kept ok] in *. fold (texts l) in *. split_bytes. next_round fuel Hf.
    destruct (double_closed (texts l) tail) as [sw' Hd]; [done|]. exists fuel, (sw || sw'). split; [lia|].
    cbn [brace_loop]. rewrite <- app_assoc. cbn [app]. rewrite no_ansi, no_escape by done. rewrite Hd, flat_kept by done. done.
  - intros fuel sw body Hf. cbn [text kept ok] in *. next_round fuel Hf. exists fuel, sw. split; [lia|].
    cbn [brace_loop]. rewrite <- app_assoc. cbn [app]. rewrite no_ansi, no_escape, dollar_arith by (done || lia). done.
Qed.

Lemma double_leaf x tail : ok false MDouble x (head tail) = true ->
  match x with NBrace _ | NCmd _ => False | _ => True end -> double_step (text x) (kept MDouble x) tail.
Proof.
  intros Hok Hx. destruct x as [c|c|w|t|t|t|l|l|l|t|l]; try done; intros fuel body Hf; cbn [text kept ok] in *; next_round fuel Hf;
    exists fuel; (split; [lia|]); cbn [double_loop]; rewrite <- ?app_assoc; cbn [app].
  - unfold byte_ok in Hok. split_bytes. rewrite H2, no_escape by done. destruct (c =? "$"%b); [|by rewrite H1].
    cbn [andb] in H0. rewrite no_dollar by (done || lia). by rewrite H1.
  - done.
  - rewrite no_escape, quoted_closed by done. done.
  - rewrite no_escape, dollar_arith by (done || lia). done.
Qed.

Lemma no_redirection c tail : (c =? "<"%b) && next_one_of ["<"%b] (head tail) = false -> redirection (c :: tail) = None.
Proof. destruct tail as [|q r]; [done|]. cbn. rewrite orb_false_r. intros H. by rewrite H. Qed.

Lemma cmd_byte c tail : byte_ok false MCmd c (head tail) = true -> cmd_step [c] [c] tail.
Proof.
  unfold byte_ok. intros Hc fuel whole st Hf (Hd & Hcase & Hh). next_round fuel Hf. split_bytes. cbn [paren_loop]. rewrite Hh, Hcase.
  rewrite no_escape, no_ansi, no_redirection by done.
  assert (Hred : (if p_line st then [] else []) = @nil (bytes * bool)) by (by destruct (p_line st)). rewrite Hred.
  destruct (c =? 10) eqn:Enl.
  { exists fuel, (p_copy st [c] true true). split; [lia|]. by repeat split. }
  exists fuel, (mkParen (p_depth st) 0 (is_ascii_whitespace c || is_shell_metacharacter c) [] false (p_body st ++ [c])).
  split; [lia|]. split; [done|]. split; [done|]. split; [done|].
  repeat match goal with H : (c =? _) = false |- _ => rewrite ?H; clear H end. cbn [andb orb]. cbv zeta.
  match goal with H : is_name_start c = false |- _ => rewrite H end. done.
Qed.

Lemma cmd_word w tail : word_ok w (head tail) = true -> cmd_step w w tail.
Proof.
  intros Hw fuel whole st Hf (Hd & Hcase & Hh).
  assert (Hspan : span is_name_byte (w ++ tail) = (w, tail)).
  { destruct tail as [|c tail]; [|by apply word_span]. rewrite app_nil_r. unfold word_ok in Hw. destruct w as [|b0 w0] eqn:Ew; [done|].
    rewrite <- Ew in *. clear Ew. rewrite !andb_true_iff in Hw. destruct Hw as ((((_ & Hw) & _) & _) & _).
    clear Hf. induction w as [|b w IH]; [done|]. cbn [forallb span] in *. apply andb_true_iff in Hw as [-> Hw]. by rewrite IH. }
  unfold word_ok in Hw. destruct w as [|b w']; [done|]. set (w := b :: w') in *. rewrite !andb_true_iff, !negb_true_iff in Hw.
  destruct Hw as ((((Hb & _) & Hn1) & Hn2) & _).
  assert (Hbyte : forall k, is_name_start k = false -> (b =? k) = false).
  { intros k Hk. apply Z.eqb_neq. intros ->. congruence. }
  destruct fuel as [|fuel]; [lia|]. rewrite length_app in Hf. cbn [length w] in Hf.
  exists fuel, (mkParen (p_depth st) (p_case st) false (p_heredocs st) false (p_body st ++ w)).
  split; [lia|]. split; [done|]. split; [done|]. split; [done|]. unfold w at 1. cbn [app paren_loop].
  rewrite no_escape, no_ansi, no_redirection by (by rewrite ?Hbyte). rewrite Hh. assert (Hred : (if p_line st then [] else []) = @nil (bytes * bool)) by (by destruct (p_line st)).
  rewrite Hred, !Hbyte by done. cbn [andb orb]. rewrite Hb. unfold paren_word. change (b :: w' ++ tail) with (w ++ tail).
  rewrite Hspan, Hn1, Hn2. cbn [andb]. by rewrite Hh.
Qed.

Lemma cmd_leaf x tail : ok false MCmd x (head tail) = true ->
  match x with NDouble _ | NGroup _ => False | _ => True end -> cmd_step (text x) (kept MCmd x) tail.
Proof.
  intros Hok Hx. destruct x as [c|c|w|t|t|t|l|l|l|t|l]; try done; [by apply cmd_byte| |by apply cmd_word|..];
    intros fuel whole st Hf (Hd & Hcase & Hh); cbn [text kept ok] in *; next_round fuel Hf;
    cbn [paren_loop]; rewrite <- ?app_assoc; cbn [app]; rewrite Hh;
    assert (Hred : (if p_line st then [] else []) = @nil (bytes * bool)) by (by destruct (p_line st)); rewrite Hred.
  - exists fuel, (p_copy st ["\"%b; c] false false). repeat split; done || lia.
  - exists fuel, (p_copy st ("'"%b :: t ++ ["'"%b]) false false). split; [lia|]. split; [done|]. split; [done|]. split; [done|].
    by rewrite no_escape, no_ansi, quoted_closed.
  - exists fuel, (p_copy st ("`"%b :: t ++ ["`"%b]) false false). split; [lia|]. split; [done|]. split; [done|]. split; [done|].
    by rewrite no_escape, no_ansi, quoted_closed.
  - exists fuel, (p_copy st (text (NAnsi t)) false false). split; [lia|]. split; [done|]. split; [done|]. split; [done|].
    by rewrite no_escape, ansi_literal_closed.
Qed.

(** Induction on nodes, with the hypothesis for the nodes inside. *)
Lemma node_nested_ind (P : node -> Prop)
  (Hleaf : forall x, match x with NDouble _ | NBrace _ | NCmd _ | NGroup _ => False | _ => True end -> P x)
  (Hpart : forall l, Forall P l -> P (NDouble l) /\ P (NBrace l) /\ P (NCmd l) /\ P (NGroup l)) : forall x, P x.
Proof.
  fix IH 1. intros x.
  assert (Hall : forall l, Forall P l) by (fix IHl 1; intros [|y l]; constructor; [apply IH|apply IHl]).
  destruct x as [c|c|w|t|t|t|l|l|l|t|l]; try (by apply Hleaf); apply (Hpart l (Hall l)).
Qed.

Lemma all_scanned x : node_scanned x.
Proof.
  revert x. apply node_nested_ind; [intros x Hx|intros l HP].
  - split; [|split].
    + intros posix tail Hok. apply brace_leaf; [done|by destruct x].
    + intros tail Hok. apply cmd_leaf; [done|by destruct x].
    + intros tail Hok. apply double_leaf; [done|by destruct x].
  - assert (Hcmd : forall tl, all_ok false MCmd ")"%b l && negb (bool_decide (head (texts l) = Some "("%b)) = tl -> tl = true ->
      all_ok false MCmd ")"%b l = true /\ head (texts l) <> Some "("%b).
    { intros tl <- [? Hb%negb_true_iff]%andb_true_iff. by apply bool_decide_eq_false in Hb. }
    repeat split; intros; try done;
      match goal with H : ok _ _ _ ?n = true |- _ => destruct (ok_nodes l n) as (E1 & E2 & E3 & E4 & E5 & E6); rewrite ?E1, ?E2, ?E3, ?E4, ?E5, ?E6 in H end.
    + by apply brace_leaf.
    + by apply cmd_double.
    + by apply brace_brace.
    + by apply double_brace.
    + destruct (Hcmd _ eq_refl H). by apply brace_cmd.
    + destruct (Hcmd _ eq_refl H). by apply double_cmd.
    + by apply cmd_group.
Qed.

Lemma Forall_scanned l : Forall node_scanned l.
Proof. induction l; constructor; [apply all_scanned|done]. Qed.


(** [x:-"}"${y%\}}$(f ')' "$(g)" (h))$((1+(2)))]. *)
Definition sample : list node :=
  map NByte (bs "x:-") ++ [NDouble [NByte "}"%b]; NBrace (map NByte (bs "y%") ++ [NEsc "}"%b]);
    NCmd [NWord (bs "f"); NByte " "%b; NSingle (bs ")"); NByte " "%b; NDouble [NCmd [NWord (bs "g")]]; NByte " "%b; NGroup [NWord (bs "h")]];
    NArith (bs "1+(2)")].


(** * Where a scanner goes wrong *)

(** The word [case] as an argument makes the closing parenthesis part of a
    pattern, and a backslash before the closing quote of a single-quoted word
    hides the quote: both substitutions are reported as not closed. *)
Theorem substitution_not_closed :
  extract_paren (bs "echo case)") = Err (BadSubstitution (bs "missing ')'"))
  /\ extract_paren (bs "echo '\')") = Err (BadSubstitution (bs "missing ')'")).
Proof. vm_compute. split; reflexivity. Qed.
