(* ===== verification/Param.v ===== *)
(** Parameter expansion: reading parameters (crates/expander/src/param/values.rs),
    the [${..}] operators (param/defaults.rs, param/operators.rs) and their
    dispatch (param/braces.rs).  Messages printed on the way are not modelled. *)
From S2P Require Import Prelude Env Utf8 Options Vars Buf Pattern Split Quote Expand Scan.

Definition W_QUOTED : Z := 2 ^ 1.

(** The methods of [trait Environment] on arrays and attributes.  The reads that
    may refresh the store return it. *)
Class Arrays (E : Type) := {
  env_attrs : E -> bytes -> Z;
  env_nameref_target : E -> bytes -> option bytes;
  env_array_all : E -> bytes -> option (list (Z * bytes)) * E;
  env_array_keys : E -> bytes -> option (list Z) * E;
  env_array_len : E -> bytes -> nat * E;
  env_array_max_index : E -> bytes -> option Z * E;
  env_assoc_all : E -> bytes -> option (list (bytes * bytes));
  env_assoc_keys : E -> bytes -> option (list bytes);
  env_assoc_len : E -> bytes -> nat;
  env_names_with_prefix : E -> bytes -> list bytes;
}.

(** What parameter expansion calls back: the expansion of a word (internal.rs),
    the evaluation of an arithmetic text (arith.rs), the [@] operators
    (transforms.rs) and [${ command; }] (cmdsub.rs). *)
Class WordExpansion (E : Type) := {
  word_internal : Wd -> bool -> M E Wd;
  eval_preexpanded : bytes -> M E Z;
  handle_transform : bytes -> bytes -> bool -> ExpandBuf -> M E ExpandBuf;
  current_substitute : bytes -> bool -> CurrentSubstMode -> M E ExpandBuf;
}.

Definition with_assign_in_progress {E} (b : bool) (c : ExpCtx E) : ExpCtx E :=
  mkCtx (env c) (ifs c) (depth c) (arith_depth c) b (param_rhs_nosplit c)
    (split_fields c) (arith_expand_subscripts c) (eval_unbound_error c) (heredoc_context c)
    (last_cmd_subst_status c) (proc_subst c).

Definition with_eval_unbound_error {E} (b : bool) (c : ExpCtx E) : ExpCtx E :=
  mkCtx (env c) (ifs c) (depth c) (arith_depth c) (assign_in_progress c) (param_rhs_nosplit c)
    (split_fields c) (arith_expand_subscripts c) b (heredoc_context c)
    (last_cmd_subst_status c) (proc_subst c).

Definition with_param_rhs_nosplit {E} (b : bool) (c : ExpCtx E) : ExpCtx E :=
  mkCtx (env c) (ifs c) (depth c) (arith_depth c) (assign_in_progress c) b
    (split_fields c) (arith_expand_subscripts c) (eval_unbound_error c) (heredoc_context c)
    (last_cmd_subst_status c) (proc_subst c).

Definition read_env {E A} (f : E -> A * E) : M E A := fun c => let '(a, e) := f (env c) in (Ok a, with_env e c).

(** Run [m] with a flag of the context changed, and restore the flag. *)
Definition scoped {E A B} (get : ExpCtx E -> B) (set : B -> ExpCtx E -> ExpCtx E) (b : B) (m : M E A) : M E A := fun c =>
  let saved := get c in let '(r, c) := m (set b c) in (r, set saved c).

(** [std::str::from_utf8(raw).unwrap_or("")]. *)
Definition utf8_or_empty (raw : bytes) : bytes := match from_utf8 raw with inl _ => raw | inr _ => [] end.

Definition contains_byte (c : Z) (s : bytes) : bool := bool_decide (is_Some (find_byte c s)).

(** [name[subscript]]. *)
Definition split_subscript (name : bytes) : option (bytes * bytes) :=
  (fun bracket => (take bracket name, slice name (bracket + 1) (default (length name) (rfind_byte "]"%b name))))
    <$> find_byte "["%b name.

Definition is_all (subscript : bytes) : bool := bytes_eqb subscript (bs "@") || bytes_eqb subscript (bs "*").

(** [elems.join(sep)]. *)
Fixpoint join (sep : bytes) (l : list bytes) : bytes :=
  match l with
  | [] => []
  | [x] => x
  | x :: l => x ++ sep ++ join sep l
  end.

Section Expansion.
Context {E : Type} `{Environment E} `{Parameters E} `{Arrays E} `{Casing} `{WordExpansion E}.

(** * The expander on texts (lib.rs) *)

Definition expand_word_string (s : bytes) (quoted : bool) : M E ExpandBuf :=
  let flags := if quoted then Z.lor W_NOSPLIT (Z.lor W_QUOTED (Z.lor INTERNAL_QUOTED_CONTEXT INTERNAL_PARAM_WORD_CONTEXT)) else W_NOSPLIT in
  exp <- word_internal (from_bytes_with_flags s flags) quoted ;; ret (wd_buf exp).

Definition expand_string_to_string_impl (s : bytes) : M E bytes :=
  exp <- word_internal (from_bytes_with_flags s 0) true ;; ret (wd_to_string exp).

Definition expand_arith_string_to_string_impl (s : bytes) : M E bytes :=
  exp <- word_internal (from_bytes_with_flags s (Z.lor W_NOPROCSUB INTERNAL_ARITH_CONTEXT)) true ;; ret (wd_to_string exp).

(** * Reading parameters (values.rs) *)

(** [nameref::resolve(..).unwrap_or(name)]. *)
Definition resolve_or (name : bytes) : M E bytes := asks (fun c => default name (nameref_resolve (env c) name)).

(** The target of a name; [None] for a circular name reference. *)
Definition resolve_checked (name : bytes) : M E (option bytes) := asks (fun c =>
  match nameref_resolve (env c) name with
  | Some t => Some t
  | None => if env_attr_nameref (env c) name then None else Some name
  end).

Definition kind (name : bytes) : M E VarKind := asks (fun c => env_kind (env c) name).

Definition parse_subscript (s : bytes) : M E Z :=
  expanded <- expand_arith_string_to_string_impl s ;;
  if is_nil (trim expanded) then ret 0 else eval_preexpanded expanded.

Definition parse_indexed_subscript (target subscript label : bytes) : M E Z :=
  index <- parse_subscript subscript ;;
  if 0 <=? index then ret index
  else
    m <- read_env (fun e => env_array_max_index e target) ;;
    match m with
    | None => fail (InvalidArraySubscript label)
    | Some max =>
        let resolved := wrap64 (max + 1 + index) in
        if resolved <? 0 then fail (InvalidArraySubscript label) else ret resolved
    end.

(** A failed subscript reads as [other]. *)
Definition subscript_or {A} (target subscript : bytes) (other : M E A) (k : Z -> M E A) : M E A := fun c =>
  match parse_indexed_subscript target subscript target c with
  | (Ok idx, c) => k idx c
  | (Err (InvalidArraySubscript _), c) => other c
  | (Err e, c) => (Err e, c)
  | (Fuel, c) => (Fuel, c)
  end.

(** An unset value is an error under [set -u]. *)
Definition bound (name : bytes) (v : option bytes) : M E bytes :=
  strict <- asks eval_unbound_error ;;
  if strict && bool_decide (v = None) then fail (UnboundVariable name) else ret (default [] v).

(** The element [subscript] of the variable [target]. *)
Definition read_element (name target subscript : bytes) : M E bytes :=
  kd <- kind target ;;
  if bool_decide (kd = KAssoc) then
    key <- expand_string_to_string_impl subscript ;;
    v <- read_env (fun e => env_get_array_assoc e target key) ;; bound name v
  else
    subscript_or target subscript (ret []) (fun idx =>
      kd <- kind target ;;
      if negb (bool_decide (kd = KIndexed)) then
        if idx =? 0 then v <- get target ;; ret (default [] v)
        else
          strict <- asks eval_unbound_error ;;
          if (strict : bool) then fail (UnboundVariable name) else ret []
      else v <- read_env (fun e => env_get_array_indexed e target idx) ;; bound name v).

(** A variable without subscript. *)
Definition read_variable (label target : bytes) : M E bytes :=
  kd <- kind target ;;
  match kd with
  | KIndexed =>
      v <- read_env (fun e => env_get_array_indexed e target 0) ;;
      v <- (match v with Some v => ret (Some v) | None => get target end) ;; bound label v
  | KAssoc => v <- read_env (fun e => env_get_array_assoc e target (bs "0")) ;; bound label v
  | _ =>
      strict <- asks eval_unbound_error ;;
      missing <- (if (strict : bool) then v <- get target ;; ret (bool_decide (v = None)) else ret false) ;;
      if (missing : bool) then fail (UnboundVariable label) else v <- get target ;; ret (default [] v)
  end.

Definition join_array (base : bytes) (sep : Z) : M E bytes :=
  target <- resolve_or base ;;
  kd <- kind target ;;
  match kd with
  | KIndexed => all <- read_env (fun e => env_array_all e target) ;; ret (join (encode_utf8 sep) (map snd (default [] all)))
  | KAssoc => all <- asks (fun c => env_assoc_all (env c) target) ;; ret (join (encode_utf8 sep) (map snd (default [] all)))
  | _ => v <- get target ;; ret (default [] v)
  end.

(** The special and positional parameters [read_scalar] and [read_value] share. *)
Definition read_positional (name : bytes) : M E (option bytes) :=
  strict <- asks eval_unbound_error ;;
  async <- asks (fun c => env_last_async_pid (env c)) ;;
  if bytes_eqb name (bs "!") && strict && bool_decide (async = None) then fail (UnboundVariable (bs "!"))
  else
    v <- special_param name ;;
    match v with
    | Some s => ret (Some s)
    | None =>
        match parse_usize name with
        | Some n =>
            p <- asks (fun c => env_positional (env c) n) ;;
            if negb (n =? 0)%nat && strict && bool_decide (p = None) then fail (UnboundVariable name)
            else ret (Some (default [] p))
        | None => ret None
        end
    end.

Definition read_subscripted (name base subscript : bytes) : M E bytes :=
  if is_all subscript then
    sep <- asks (fun c => default " "%b (join_separator (ifs c))) ;; join_array base sep
  else
    target <- resolve_checked base ;;
    match target with
    | Some target => read_element name target subscript
    | None => ret []
    end.

Definition nameref_unbound_name (target source : bytes) : bytes :=
  if bytes_eqb target source then target else source.

Definition map_nameref_unbound (target source : bytes) {A} (m : M E A) : M E A := fun c =>
  match m c with
  | (Err (UnboundVariable n), c) => (Err (UnboundVariable (if bytes_eqb n target then source else n)), c)
  | r => r
  end.

(** [read_scalar].  The recursive call is on a name with a subscript. *)
Definition read_scalar (name : bytes) (length_mode : bool) : M E bytes :=
  p <- read_positional name ;;
  match p with
  | Some v => ret v
  | None =>
      match split_subscript name with
      | Some (base, subscript) => read_subscripted name base subscript
      | None =>
          target <- resolve_checked name ;;
          match target with
          | None => ret []
          | Some target =>
              match (if bytes_eqb target name then None else split_subscript target) with
              | Some (base, subscript) =>
                  map_nameref_unbound target name (read_subscripted target base subscript)
              | None => read_variable (nameref_unbound_name target name) target
              end
          end
      end
  end.

(** All elements of [base]; [other] where there is no array. *)
Definition read_all (base subscript : bytes) : M E ValueRepr :=
  let star := bytes_eqb subscript (bs "*") in
  target <- resolve_checked base ;;
  match target with
  | None => ret (VArray [] star)
  | Some target =>
      kd <- kind target ;;
      match kd with
      | KIndexed => all <- read_env (fun e => env_array_all e target) ;; ret (VArray (map snd (default [] all)) star)
      | KAssoc => all <- asks (fun c => env_assoc_all (env c) target) ;; ret (VArray (map snd (default [] all)) star)
      | _ =>
          v <- get target ;;
          ret (match v with Some v => VScalar v | None => VArray [] star end)
      end
  end.

Definition read_subscripted_value (name base subscript : bytes) : M E ValueRepr :=
  if is_all subscript then read_all base subscript
  else
    target <- resolve_checked base ;;
    match target with
    | Some target => v <- read_element name target subscript ;; ret (VScalar v)
    | None => ret (VScalar [])
    end.

Definition read_value (name : bytes) : M E ValueRepr :=
  if bytes_eqb name (bs "@") then asks (fun c => VArray (positionals (env c)) false)
  else if bytes_eqb name (bs "*") then asks (fun c => VArray (positionals (env c)) true)
  else
    p <- read_positional name ;;
    match p with
    | Some v => ret (VScalar v)
    | None =>
        match split_subscript name with
        | Some (base, subscript) => read_subscripted_value name base subscript
        | None =>
            target <- resolve_checked name ;;
            match target with
            | None => ret (VScalar [])
            | Some target =>
                match (if bytes_eqb target name then None else split_subscript target) with
                | Some (base, subscript) => read_subscripted_value target base subscript
                | None => v <- read_variable target target ;; ret (VScalar v)
                end
            end
        end
    end.

Inductive ElementLookup := ENotElement | EUnset | ESet (v : ValueRepr).

Definition read_element_value_if_set (name : bytes) : M E ElementLookup :=
  let found (v : option bytes) := match v with Some v => ESet (VScalar v) | None => EUnset end in
  match split_subscript name with
  | None => ret ENotElement
  | Some (base, subscript) =>
      if is_all subscript then ret ENotElement
      else
        target <- resolve_or base ;;
        kd <- kind target ;;
        if bool_decide (kd = KAssoc) then
          key <- expand_string_to_string_impl subscript ;;
          v <- read_env (fun e => env_get_array_assoc e target key) ;; ret (found v)
        else
          subscript_or target subscript (ret EUnset) (fun idx =>
            kd <- kind target ;;
            if negb (bool_decide (kd = KIndexed)) then
              if idx =? 0 then v <- get target ;; ret (found v) else ret EUnset
            else v <- read_env (fun e => env_get_array_indexed e target idx) ;; ret (found v))
  end.

Definition default_test_string (v : ValueRepr) (sep : option Z) : bytes :=
  match v with
  | VScalar s => s
  | VArray elems true => join (match sep with Some b => encode_utf8 b | None => [] end) elems
  | VArray elems false => join (bs " ") elems
  end.

(** A value is changed as bytes and becomes a string again. *)
Definition transform_value (v : ValueRepr) (f : bytes -> bytes) : ValueRepr :=
  let g s := shell_text (f (value_bytes s)) in
  match v with VScalar s => VScalar (g s) | VArray elems star => VArray (map g elems) star end.

Definition value_separator (quoted star : bool) : M E (option Z) :=
  if quoted && star then i <- live_ifs ;; ret (join_separator i) else asks (fun c => join_separator (ifs c)).

(** [push_value_buf] with the separator and flags of the context. *)
Definition push_read_value (out : ExpandBuf) (v : ValueRepr) (quoted : bool) (sep : option Z) : M E ExpandBuf :=
  asks (fun c => push_value_buf out v quoted sep (is_null (ifs c)) (assign_in_progress c) (split_fields c)).

Definition push_joined (out : ExpandBuf) (v : ValueRepr) (quoted : bool) : M E ExpandBuf :=
  sep <- asks (fun c => join_separator (ifs c)) ;; push_read_value out v quoted sep.

Definition push_parameter_value (name : bytes) (quoted : bool) (out : ExpandBuf) : M E ExpandBuf :=
  match array_all_ref name with
  | Some (_, subscript) =>
      v <- read_value name ;;
      match v with
      | VArray elems _ =>
          let star := bytes_eqb subscript (bs "*") in
          sep <- value_separator quoted star ;; push_read_value out (VArray elems star) quoted sep
      | _ => sep <- value_separator quoted false ;; push_read_value out v quoted sep
      end
  | None =>
      v <- read_value name ;;
      match v with
      | VArray elems star =>
          live <- live_ifs ;;
          sep <- value_separator quoted star ;;
          asks (fun c =>
            let protect := negb quoted && split_fields c && star && is_null live && negb (is_null (ifs c)) in
            push_array_values_impl out elems quoted star sep (protect || is_null (ifs c)) (assign_in_progress c)
              (split_fields c) false protect)
      | VScalar _ => sep <- value_separator quoted false ;; push_read_value out v quoted sep
      end
  end.

Definition positional_elems (e : E) (first count : Z) : list bytes :=
  omap (fun i => env_positional e (Z.to_nat (first + Z.of_nat i))) (seq 0 (Z.to_nat (count + 1 - first))).

Definition negative_len (len_val : option Z) : bool := match len_val with Some l => l <? 0 | None => false end.

(** [reject_negative_array_substring_len]. *)
Definition reject_negative_array_substring_len (len_val : option Z) (len_expr : option bytes) : M E unit :=
  if negative_len len_val then fail (Other (default [] len_expr ++ bs ": substring expression < 0")) else ret tt.

Definition truncate (len_val : option Z) (l : list bytes) : list bytes :=
  match len_val with Some len => take (Z.to_nat len) l | None => l end.

Definition positional_substring_elems (off_val : Z) (len_val : option Z) (len_expr : option bytes) : M E (list bytes) :=
  _ <- reject_negative_array_substring_len len_val len_expr ;;
  asks (fun c =>
    let e := env c in
    let count := Z.of_nat (env_positional_count e) in
    let zero := match env_positional e 0 with Some v => [v] | None => [] end in
    if off_val <? 0 then
      let first := wrap64 (count + 1 + off_val) in
      if first <? 0 then []
      else truncate len_val (if first =? 0 then zero ++ positional_elems e 1 count else positional_elems e first count)
    else truncate len_val ((if off_val =? 0 then zero else []) ++ positional_elems e (Z.max off_val 1) count)).

(** * Defaults and alternatives (defaults.rs) *)

Fixpoint value_from_expanded (s : bytes) : bytes :=
  match s with
  | [] => []
  | b :: r =>
      if b =? CTLESC then
        match r with
        | c :: r' =>
            match r' with
            | d :: r'' => if c =? CTLRAW then d :: value_from_expanded r'' else c :: value_from_expanded r'
            | [] => [c]
            end
        | [] => [b]
        end
      else if b =? CTLFIELD then " "%b :: value_from_expanded r
      else if b =? CTLNUL then value_from_expanded r
      else b :: value_from_expanded r
  end.

Definition assignment_value_from_expanded (s : bytes) : bytes := from_utf8_lossy (value_from_expanded s).

Definition apply_assignment_attrs (target value : bytes) : M E bytes :=
  a <- asks (fun c => env_attrs (env c) target) ;;
  value <- (if attr_contains a INTEGER then z <- eval_preexpanded value ;; ret (i64_to_string z) else ret value) ;;
  ret (apply_case_attrs value a).

Definition expand_assign_error (err : AssignError) : ExpandError :=
  match err with
  | ReadOnly name => AssignToReadonly name
  | BadArraySubscript name => InvalidArraySubscript name
  | InvalidName name => Other (bs "`" ++ name ++ bs "': not a valid identifier")
  | InvalidInteger value => Other (value ++ bs ": invalid integer")
  | CircularNameReference name => Other (name ++ bs ": circular name reference")
  end.

Definition env_write (f : E -> E) : M E unit := fun c => (Ok tt, with_env (f (env c)) c).

Definition assign_variable (name value : bytes) : M E unit := fun c =>
  let '(err, e) := env_assign (env c) name value in
  (match err with Some err => Err (expand_assign_error err) | None => Ok tt end, with_env e c).

Definition unresolved_nameref (name : bytes) : M E bool := asks (fun c =>
  env_attr_nameref (env c) name && is_nil (default [] (env_nameref_target (env c) name))).

(** [m.unwrap_or(other)]. *)
Definition ignore_error {A} (other : A) (m : M E A) : M E A := fun c =>
  match m c with (Err _, c) => (Ok other, c) | r => r end.

Definition assign_default_parameter (name value : bytes) : M E bytes :=
  match parse_usize name with
  | Some (S _) => fail (Other (bs "$" ++ name ++ bs ": cannot assign in this way"))
  | _ =>
      match split_subscript name with
      | Some (base, subscript) =>
          target <- resolve_or base ;;
          ro <- asks (fun c => env_is_readonly (env c) target) ;;
          if (ro : bool) then fail (AssignToReadonly target)
          else
            kd <- kind target ;;
            if bool_decide (kd = KAssoc) then
              key <- expand_string_to_string_impl subscript ;;
              value <- apply_assignment_attrs target value ;;
              _ <- env_write (fun e => env_set_array_assoc e target key value) ;; ret value
            else if is_all subscript then fail (InvalidArraySubscript name)
            else
              index <- parse_indexed_subscript target subscript name ;;
              value <- apply_assignment_attrs target value ;;
              _ <- env_write (fun e => env_set_array_indexed e target index value) ;; ret value
      | None =>
          unresolved <- unresolved_nameref name ;;
          target <- resolve_or name ;;
          value <- apply_assignment_attrs target value ;;
          _ <- assign_variable name value ;;
          if (unresolved : bool) then ret value
          else ignore_error value (read_scalar name false)
      end
  end.

Definition expand_default_word_inner (word : bytes) (quoted : bool) : M E ExpandBuf :=
  heredoc <- asks heredoc_context ;;
  if (heredoc : bool) then
    let flags := Z.lor W_NOSPLIT INTERNAL_HEREDOC_CONTEXT in
    let flags := if quoted then Z.lor flags (Z.lor W_QUOTED (Z.lor INTERNAL_QUOTED_CONTEXT INTERNAL_PARAM_WORD_CONTEXT)) else flags in
    exp <- word_internal (from_bytes_with_flags word flags) quoted ;; ret (wd_buf exp)
  else expand_word_string word quoted.

Definition expand_default_word (word : bytes) (quoted : bool) : M E ExpandBuf :=
  scoped param_rhs_nosplit with_param_rhs_nosplit true (expand_default_word_inner word quoted).

Definition expand_assignment_default_word (word : bytes) (quoted : bool) : M E ExpandBuf :=
  scoped assign_in_progress with_assign_in_progress true
    (scoped param_rhs_nosplit with_param_rhs_nosplit false (expand_default_word_inner word quoted)).

(** [split_ctlfield_parts]: the parts with their positions. *)
Fixpoint ctlfield_loop (fuel : nat) (s cur : bytes) (start i : nat) : list (nat * bytes) :=
  match fuel, s with
  | S fuel, b :: r =>
      match b =? CTLESC, r with
      | true, c :: r' =>
          match c =? CTLRAW, r' with
          | true, d :: r'' => ctlfield_loop fuel r'' (cur ++ [b; c; d]) start (i + 3)
          | _, _ => ctlfield_loop fuel r' (cur ++ [b; c]) start (i + 2)
          end
      | _, _ =>
          if b =? CTLFIELD then (start, cur) :: ctlfield_loop fuel r [] (i + 1) (i + 1)
          else ctlfield_loop fuel r (cur ++ [b]) start (i + 1)
      end
  | _, _ => [(start, cur)]
  end.

Definition split_ctlfield_parts (s : bytes) : list (nat * bytes) := ctlfield_loop (length s) s [] 0 0.

Definition strip_suppressible_nulls (s : bytes) (start : nat) (nulls : list nat) : bytes :=
  omap (fun '(idx, b) => if (b =? CTLNUL) && bool_decide ((start + idx)%nat ∈ nulls) then None else Some b) (imap pair s).

Fixpoint field_is_ifs_empty_after_quote_removal (s : bytes) (i : IfsState) : bool :=
  match s with
  | [] => true
  | b :: r =>
      if b =? CTLNUL then field_is_ifs_empty_after_quote_removal r i
      else
        match b =? CTLESC, r with
        | true, c :: r' =>
            match c =? CTLRAW, r' with
            | true, d :: r'' => ((d =? CTLNUL) || is_ifs_ws i d) && field_is_ifs_empty_after_quote_removal r'' i
            | _, _ => is_ifs_ws i c && field_is_ifs_empty_after_quote_removal r' i
            end
        | _, _ => is_ifs_ws i b && field_is_ifs_empty_after_quote_removal r i
        end
  end.

Definition add_dollar_at (out expanded : ExpandBuf) : ExpandBuf :=
  mkBuf (buf_bytes out) (param_nulls out) (had_quoted_null out) (has_dollar_at out || has_dollar_at expanded)
    (quoted_dollar_at out || quoted_dollar_at expanded).

Definition extend_unquoted_dollar_at_expansion (out expanded : ExpandBuf) (drop_empty_fields : bool) (i : option IfsState) : ExpandBuf :=
  let keep cleaned :=
    negb (is_nil cleaned
          || drop_empty_fields && match i with Some i => field_is_ifs_empty_after_quote_removal cleaned i | None => false end) in
  let cleaned := map (fun '(start, part) => strip_suppressible_nulls part start (param_nulls expanded))
                   (split_ctlfield_parts (buf_bytes expanded)) in
  add_dollar_at (push_each push_field_sep push_raw (List.filter keep cleaned) out) expanded.

(** The bytes of a quoted default. *)
Fixpoint extend_quoted (s : bytes) (out : ExpandBuf) : ExpandBuf :=
  match s with
  | [] => out
  | b :: r =>
      if b =? CTLESC then
        match r with
        | c :: r' =>
            match c =? CTLRAW, r' with
            | true, d :: r'' => extend_quoted r'' (push_raw (push_raw (push_raw out [b]) [c]) [d])
            | _, _ => extend_quoted r' (push_raw (push_raw out [b]) [c])
            end
        | [] => push_raw out [b]
        end
      else if b =? CTLNUL then extend_quoted r (push_quoted_null out)
      else if b =? CTLFIELD then extend_quoted r (push_field_sep out)
      else extend_quoted r (push_quoted out b)
  end.

Definition extend_default_expansion_inner (out expanded : ExpandBuf) (quoted drop_empty_fields : bool) (i : option IfsState) : ExpandBuf :=
  if negb quoted then
    if quoted_dollar_at expanded then extend_unquoted_dollar_at_expansion out expanded drop_empty_fields i
    else extend_from out expanded
  else if is_nil (buf_bytes expanded) && quoted_dollar_at expanded then add_dollar_at (push_quoted_null out) expanded
  else add_dollar_at (extend_quoted (buf_bytes expanded) out) expanded.

Definition extend_default_expansion (out expanded : ExpandBuf) (quoted : bool) : ExpandBuf :=
  extend_default_expansion_inner out expanded quoted false None.
Definition extend_assignment_default_expansion (out expanded : ExpandBuf) (quoted : bool) (i : IfsState) : ExpandBuf :=
  extend_default_expansion_inner out expanded quoted true (Some i).

Definition element_is_set (name : bytes) : M E bool :=
  l <- ignore_error ENotElement (read_element_value_if_set name) ;; ret (match l with ESet _ => true | _ => false end).

Definition parameter_is_set (name : bytes) : M E bool :=
  if is_all name then asks (fun c => (0 <? env_positional_count (env c))%nat)
  else if one_of name ["?"; "#"; "$"; "-"]%string then ret true
  else if bytes_eqb name (bs "!") then asks (fun c => bool_decide (is_Some (env_last_async_pid (env c))))
  else
    match parse_usize name with
    | Some index => asks (fun c => (index =? 0)%nat || bool_decide (is_Some (env_positional (env c) index)))
    | None =>
        match array_all_ref name with
        | Some (base, _) =>
            target <- resolve_or base ;;
            kd <- kind target ;;
            match kd with
            | KAssoc => asks (fun c => (0 <? env_assoc_len (env c) target)%nat)
            | KIndexed => n <- read_env (fun e => env_array_len e target) ;; ret (0 <? n)%nat
            | KUnset => ret false
            | _ => v <- get target ;; ret (bool_decide (is_Some v))
            end
        | None =>
            unresolved <- unresolved_nameref name ;;
            if (unresolved : bool) then ret false
            else
              match split_subscript name with
              | Some (base, subscript) =>
                  target <- resolve_or base ;;
                  kd <- kind target ;;
                  if bool_decide (kd = KAssoc) then
                    key <- ignore_error [] (expand_string_to_string_impl subscript) ;;
                    v <- read_env (fun e => env_get_array_assoc e target key) ;; ret (bool_decide (is_Some v))
                  else
                    idx <- ignore_error 0 (parse_subscript subscript) ;;
                    v <- read_env (fun e => env_get_array_indexed e target idx) ;; ret (bool_decide (is_Some v))
              | None =>
                  target <- resolve_or name ;;
                  if negb (bytes_eqb target name) && contains_byte "["%b target then element_is_set target
                  else
                    kd <- kind target ;;
                    match kd with
                    | KAssoc => v <- read_env (fun e => env_get_array_assoc e target (bs "0")) ;; ret (bool_decide (is_Some v))
                    | KIndexed => v <- read_env (fun e => env_get_array_indexed e target 0) ;; ret (bool_decide (is_Some v))
                    | KUnset => ret false
                    | _ => v <- get target ;; ret (bool_decide (is_Some v))
                    end
              end
        end
    end.

Definition quoted_at_alternate_has_no_fields (name : bytes) (is_set : bool) : bool :=
  negb is_set && (bytes_eqb name (bs "@") || match array_all_ref name with Some (_, sub) => bytes_eqb sub (bs "@") | None => false end).

(** [read_value_cached]. *)
Definition read_value_cached (name : bytes) (value : option ValueRepr) : M E ValueRepr :=
  match value with Some v => ret v | None => read_value name end.

(** Whether the parameter is unset, or null where [colon] asks for it; and the
    value read so far. *)
Definition null_test (name : bytes) (is_set colon : bool) (value : option ValueRepr) : M E (bool * option ValueRepr) :=
  if negb is_set then ret (true, value)
  else if colon then
    v <- read_value_cached name value ;;
    asks (fun c => (is_nil (default_test_string v (join_separator (ifs c))), Some v))
  else ret (false, value).

Definition push_cached (name : bytes) (value : option ValueRepr) (quoted : bool) (out : ExpandBuf) : M E ExpandBuf :=
  v <- read_value_cached name value ;; push_joined out v quoted.

Definition push_default (word : bytes) (quoted : bool) (out : ExpandBuf) : M E ExpandBuf :=
  if quoted && is_nil word then ret (push_quoted_null out)
  else expanded <- expand_default_word (utf8_or_empty word) quoted ;; ret (extend_default_expansion out expanded quoted).

(** The message of [${name?word}]. *)
Definition unset_message (word : bytes) (quoted : bool) (empty : bytes) : M E bytes :=
  if is_nil word then ret empty
  else expanded <- expand_default_word (utf8_or_empty word) quoted ;; ret (from_utf8_lossy (dequote_bytes (buf_bytes expanded))).

Definition assign_default (name word : bytes) (quoted : bool) (out : ExpandBuf) (fields : bool) : M E ExpandBuf :=
  expanded <- expand_assignment_default_word (utf8_or_empty word) quoted ;;
  assigned <- assign_default_parameter name (assignment_value_from_expanded (buf_bytes expanded)) ;;
  asks (fun c =>
    if fields && negb quoted && contains_byte CTLFIELD (buf_bytes expanded) && negb (is_null (ifs c))
    then extend_assignment_default_expansion out expanded quoted (ifs c)
    else push_value out assigned quoted).

Definition handle_default_alt (name : bytes) (op : Z) (colon : bool) (word : bytes) (quoted : bool) (out : ExpandBuf) : M E ExpandBuf :=
  l <- read_element_value_if_set name ;;
  is_set <- (match l with ESet _ => ret true | EUnset => ret false | ENotElement => parameter_is_set name end) ;;
  let value := match l with ESet v => Some v | _ => None end in
  t <- null_test name is_set colon value ;;
  let '(null, value) := t in
  if op =? "-"%b then if (null : bool) then push_default word quoted out else push_cached name value quoted out
  else if op =? "+"%b then
    if (null : bool) then ret (if quoted && negb (quoted_at_alternate_has_no_fields name is_set) then push_quoted_null out else out)
    else push_default word quoted out
  else if op =? "="%b then if (null : bool) then assign_default name word quoted out true else push_cached name value quoted out
  else
    if (null : bool) then
      msg <- unset_message word quoted (if colon then [] else bs "parameter not set") ;; fail (UnboundColonError name msg)
    else push_cached name value quoted out.

(** * Substrings (operators.rs) *)

(** [locale_is_utf8] (braces.rs). *)
Definition locale_is_utf8 : M E bool :=
  let utf8 v := let l := map to_ascii_lowercase v in bool_decide (is_Some (find_sub (bs "utf-8") l)) || bool_decide (is_Some (find_sub (bs "utf8") l)) in
  let nonempty (v : option bytes) := match v with Some v => negb (is_nil v) | None => false end in
  v <- get (bs "LC_ALL") ;;
  if nonempty v then ret (utf8 (default [] v))
  else
    v <- get (bs "LC_CTYPE") ;;
    if nonempty v then ret (utf8 (default [] v))
    else v <- get (bs "LANG") ;; ret (nonempty v && utf8 (default [] v)).

(** The program panics: no result. *)
Definition panic {A} : M E A := fun c => (Fuel, c).

(** The byte positions of the characters [start] and [end_]. *)
Fixpoint char_range_loop (chars : list bytes) (idx : Z) (byte : nat) (start end_ : Z) (start_byte end_byte : nat) : nat * nat :=
  match chars with
  | [] => (start_byte, end_byte)
  | ch :: chars =>
      let start_byte := if idx =? start then byte else start_byte in
      if idx =? end_ then (start_byte, byte)
      else char_range_loop chars (idx + 1) (byte + length ch) start end_ start_byte end_byte
  end.

Definition char_range_to_byte_range (chars : list bytes) (start end_ : Z) : nat * nat :=
  let len := length (concat chars) in
  let '(start_byte, end_byte) := char_range_loop chars 0 0 start end_ len len in
  (if start =? Z.of_nat (length chars) then len else start_byte, if end_ =? Z.of_nat (length chars) then len else end_byte).

(** Where the substring starts and ends among [total] characters. *)
Definition substring_range (total off_val : Z) (len_val : option Z) : Z * Z :=
  let start := if off_val <? 0 then Z.max (total + off_val) 0 else Z.min off_val total in
  let start := if start <? 0 then 0 else start in
  let end_ :=
    match len_val with
    | Some l => if l <? 0 then Z.max (total + l) start else Z.min (wrap64 (start + l)) total
    | None => total
    end in
  (start, end_).

(** [&v[start..end]] for indices cast to [usize]. *)
Definition slice_checked (v : bytes) (start end_ : Z) : M E bytes :=
  let start := u64 start in
  let end_ := u64 end_ in
  if (start <=? end_) && (end_ <=? Z.of_nat (length v)) then ret (slice v (Z.to_nat start) (Z.to_nat end_)) else panic.

Definition push_scalar_substring (out : ExpandBuf) (value : bytes) (off_val : Z) (len_val : option Z) (quoted : bool) : M E ExpandBuf :=
  let v := value_bytes value in
  let text := chars v in
  utf8 <- locale_is_utf8 ;;
  let total := Z.of_nat (match text with Some cs => if (utf8 : bool) then length cs else length v | None => length v end) in
  let '(start, end_) := substring_range total off_val len_val in
  utf8 <- locale_is_utf8 ;;
  let '(start, end_) :=
    match text with
    | Some cs =>
        if (utf8 : bool) then let '(s, e) := char_range_to_byte_range cs (u64 start) (u64 end_) in (Z.of_nat s, Z.of_nat e)
        else (start, end_)
    | None => (start, end_)
    end in
  part <- slice_checked v start end_ ;;
  ret (push_value out part quoted).

Definition is_bash_style_arith_syntax (message : bytes) : bool :=
  bool_decide (is_Some (find_sub (bs ": syntax error") message)) || bool_decide (is_Some (find_sub (bs ": arithmetic syntax error") message)).

Definition eval_substring_arith (name expr : bytes) : M E Z := fun c =>
  match eval_preexpanded expr c with
  | (Err (ArithSyntax message), c) =>
      (Err (ArithSyntax (if is_bash_style_arith_syntax message then name ++ bs ": " ++ message else message)), c)
  | r => r
  end.

(** The [:] between offset and length, outside brackets and conditionals. *)
Fixpoint substring_separator (s : bytes) (depth ternary : Z) : option nat :=
  match s with
  | [] => None
  | b :: r =>
      if (b =? "("%b) || (b =? "["%b) || (b =? "{"%b) then S <$> substring_separator r (depth + 1) ternary
      else if (b =? ")"%b) || (b =? "]"%b) || (b =? "}"%b) then S <$> substring_separator r (depth - 1) ternary
      else if (b =? "?"%b) && (depth =? 0) then S <$> substring_separator r depth (ternary + 1)
      else if (b =? ":"%b) && (depth =? 0) then
        if 0 <? ternary then S <$> substring_separator r depth (ternary - 1) else Some 0%nat
      else S <$> substring_separator r depth ternary
  end.

Definition indexed_array_substring_elems (elems : list (Z * bytes)) (off_val : Z) (len_val : option Z) (len_expr : option bytes) :
    M E (list bytes) :=
  _ <- reject_negative_array_substring_len len_val len_expr ;;
  match elems with
  | [] => ret []
  | (i0, _) :: r =>
      let max_index := fold_left Z.max (map fst r) i0 in
      let start_index := if off_val <? 0 then Z.max (wrap64 (max_index + 1 + off_val)) 0 else off_val in
      let values := map snd (List.filter (fun p => start_index <=? fst p) elems) in
      let total := Z.of_nat (length values) in
      let n := match len_val with
               | Some len => if len <? 0 then Z.max (total + len) 0 else Z.max len 0
               | None => total
               end in
      ret (take (Z.to_nat n) values)
  end.

(** An offset or a length. *)
Definition substring_number (name expr : bytes) : M E Z :=
  expanded <- expand_arith_string_to_string_impl expr ;;
  if is_nil (trim expanded) then ret 0 else eval_substring_arith name expanded.

Definition push_elems (out : ExpandBuf) (elems : list bytes) (quoted star : bool) : M E ExpandBuf :=
  asks (fun c => push_substring_array_values out elems quoted star (join_separator (ifs c)) (is_null (ifs c))
                   (assign_in_progress c) (split_fields c)).

(** The elements of an associative array. *)
Definition assoc_substring_elems (elems : list bytes) (off_val : Z) (len_val : option Z) : list bytes :=
  let total := Z.of_nat (length elems) in
  let start := if off_val <? 0 then Z.max (total + off_val) 0 else Z.min off_val total in
  let n := match len_val with
           | Some l => if l <? 0 then Z.max (total - start + l) 0 else l
           | None => total - start
           end in
  let end_ := Z.max (Z.min (wrap64 (start + n)) total) start in
  slice elems (Z.to_nat start) (Z.to_nat end_).

Definition handle_substring (name rest : bytes) (quoted : bool) (out : ExpandBuf) : M E ExpandBuf :=
  if is_nil rest then fail (BadSubstitution (name ++ bs ":"))
  else if bytes_eqb name (bs "#") && bytes_eqb rest (bs "%") then
    fail (Other (bs "#: %: arithmetic syntax error: operand expected (error token is " ++ [dquote; "%"%b; dquote] ++ bs ")"))
  else
    let sep := substring_separator rest 0 0 in
    let off_part := match sep with Some p => take p rest | None => rest end in
    let len_expr := (fun p => utf8_or_empty (drop (p + 1) rest)) <$> sep in
    off_val <- substring_number name (utf8_or_empty off_part) ;;
    len_val <- (match len_expr with Some p => l <- substring_number name p ;; ret (Some l) | None => ret None end) ;;
    if is_all name then
      elems <- positional_substring_elems off_val len_val len_expr ;; push_elems out elems quoted (bytes_eqb name (bs "*"))
    else
      match array_all_ref name with
      | Some (base, subscript) =>
          let star := bytes_eqb subscript (bs "*") in
          target <- resolve_or base ;;
          kd <- kind target ;;
          match kd with
          | KIndexed =>
              all <- read_env (fun e => env_array_all e target) ;;
              elems <- indexed_array_substring_elems (default [] all) off_val len_val len_expr ;; push_elems out elems quoted star
          | KAssoc =>
              _ <- reject_negative_array_substring_len len_val len_expr ;;
              elems <- asks (fun c => map snd (default [] (env_assoc_all (env c) target))) ;;
              push_elems out (assoc_substring_elems elems off_val len_val) quoted star
          | _ =>
              v <- get target ;;
              match v with
              | Some value => push_scalar_substring out value off_val len_val quoted
              | None => push_elems out [] quoted star
              end
          end
      | None => value <- read_scalar name false ;; push_scalar_substring out value off_val len_val quoted
      end.

(** * Removal, substitution and case (operators.rs) *)

Definition pattern_match_opts (e : E) : GlobOpts :=
  mkOpts (env_option e (bs "nocasematch")) (env_option e (bs "extglob")) false.

Definition is_pattern_meta (b : Z) : bool := (b =? "*"%b) || (b =? "?"%b) || (b =? "["%b) || (b =? "\"%b).

Definition raw_plain_word (word : bytes) : option bytes :=
  if existsb (fun b => is_ctl b || (b =? "$"%b) || (b =? "`"%b) || (b =? "'"%b) || (b =? dquote) || (b =? "\"%b) || (b =? "~"%b)) word
  then None else Some word.

Definition raw_literal_replacement (replacement : bytes) : option bytes := raw_plain_word replacement.

Definition raw_literal_pattern (pattern : bytes) (opts : GlobOpts) : option bytes :=
  if nocaseglob opts || extglob opts || is_nil pattern then None
  else pat ← raw_plain_word pattern; if existsb is_pattern_meta pat then None else Some pat.

(** [literal_pattern] of operators.rs. *)
Definition op_literal_pattern (pattern : bytes) (opts : GlobOpts) : option bytes :=
  if nocaseglob opts || extglob opts || is_nil pattern then None
  else if existsb (fun b => is_ctl b || is_pattern_meta b) pattern then None else Some pattern.

Definition strip_suffix (p s : bytes) : option bytes := (fun r => rev r) <$> strip_prefix (rev p) (rev s).

Definition literal_remove (value pattern : bytes) (prefix : bool) : bytes :=
  default value (if prefix then strip_prefix pattern value else strip_suffix pattern value).

(** The search for the first byte of the needle, then for the others. *)
Fixpoint find_bytes_loop (fuel : nat) (haystack : bytes) (first : Z) (rest : bytes) (pos last_start : nat) : option nat :=
  match fuel with
  | O => None
  | S fuel =>
      if (pos <=? last_start)%nat then
        rel ← find_byte first (slice haystack pos (last_start + 1));
        if starts_with rest (drop (pos + rel + 1) haystack) then Some (pos + rel)%nat
        else find_bytes_loop fuel haystack first rest (pos + rel + 1) last_start
      else None
  end.

Definition find_bytes (haystack needle : bytes) : option nat :=
  match needle with
  | [] => None
  | first :: rest =>
      if (length haystack <? length needle)%nat then None
      else find_bytes_loop (S (length haystack)) haystack first rest 0 (length haystack - length needle)
  end.

Fixpoint substitute_all (fuel : nat) (rest pattern replacement : bytes) : bytes :=
  match fuel, find_bytes rest pattern with
  | S fuel, Some pos => take pos rest ++ replacement ++ substitute_all fuel (drop (pos + length pattern) rest) pattern replacement
  | _, _ => rest
  end.

Definition literal_substitute (value pattern replacement : bytes) (mode : PatSubMode) : bytes :=
  if is_nil pattern then value
  else
    match mode with
    | PrefixAnchored => match strip_prefix pattern value with Some rest => replacement ++ rest | None => value end
    | SuffixAnchored => match strip_suffix pattern value with Some rest => rest ++ replacement | None => value end
    | First =>
        match find_bytes value pattern with
        | Some pos => take pos value ++ replacement ++ drop (pos + length pattern) value
        | None => value
        end
    | All => substitute_all (S (length value)) value pattern replacement
    end.

Definition plain_shell_string_bytes (value : bytes) : option bytes :=
  if negb (forallb (fun b => b <? 128) value) || existsb is_ctl value then None else Some value.

(** [read_plain_scalar_cow]. *)
Definition read_plain_scalar (name : bytes) : M E (option bytes) :=
  match name with
  | [] => ret None
  | first :: _ =>
      if negb ((first =? "_"%b) || is_ascii_alphabetic first) || negb (forallb (fun b => (b =? "_"%b) || is_ascii_alphanumeric b) name)
      then ret None
      else
        ref <- asks (fun c => env_attr_nameref (env c) name) ;;
        if (ref : bool) then ret None else v <- get name ;; v <- bound name v ;; ret (Some v)
  end.

(** The value of a plain variable in ASCII, where the fast paths apply. *)
Definition fast_value (name : bytes) : M E (option bytes) :=
  v <- read_plain_scalar name ;; ret (v ≫= plain_shell_string_bytes).

Definition expand_pattern (raw : bytes) : M E bytes :=
  expanded <- scoped split_fields with_split_fields false (expand_word_string (utf8_or_empty raw) false) ;;
  ret (buf_bytes expanded).

Definition handle_remove (name pat_raw : bytes) (prefix longest quoted : bool) (out : ExpandBuf) : M E ExpandBuf :=
  opts <- asks (fun c => let o := pattern_match_opts (env c) in mkOpts false (extglob o) (globasciiranges o)) ;;
  let general :=
    pattern <- expand_pattern pat_raw ;;
    value <- read_value name ;;
    let f := if bool_decide (is_Some (op_literal_pattern pattern opts)) then fun s => literal_remove s pattern prefix
             else fun s => remove_pattern_with_opts s pattern prefix longest opts in
    push_joined out (transform_value value f) quoted in
  if quoted then general
  else
    match raw_literal_pattern pat_raw opts with
    | None => general
    | Some pattern =>
        v <- fast_value name ;;
        match v with Some v => ret (push_raw out (literal_remove v pattern prefix)) | None => general end
    end.

(** [pattern_bracket_expr_end], after the [[]: the text of the bracket expression
    and the rest. *)
Fixpoint bracket_class_end (term : Z) (s : bytes) : option bytes :=
  match s with
  | b :: ((c :: r') as r) => if (b =? term) && (c =? "]"%b) then Some r' else bracket_class_end term r
  | _ => None
  end.

Fixpoint bracket_loop (fuel : nat) (s : bytes) : option bytes :=
  match fuel, s with
  | S fuel, b :: r =>
      match escaped s with
      | Some (_, r') => bracket_loop fuel r'
      | None =>
          match (match r with
                 | t :: r' => if (b =? "["%b) && ((t =? ":"%b) || (t =? "."%b) || (t =? "="%b)) then bracket_class_end t r' else None
                 | [] => None
                 end) with
          | Some r' => bracket_loop fuel r'
          | None => if b =? "]"%b then Some r else bracket_loop fuel r
          end
      end
  | _, _ => None
  end.

Definition pattern_bracket_expr_end (s : bytes) : option bytes :=
  match s with
  | [] => None
  | _ =>
      let s := match s with b :: r => if (b =? "!"%b) || (b =? "^"%b) then r else s | [] => s end in
      let s := match s with b :: r => if b =? "]"%b then r else s | [] => s end in
      bracket_loop (S (length s)) s
  end.

(** The pattern, and the replacement after an unescaped [/]. *)
Fixpoint patsub_split (fuel : nat) (s : bytes) : bytes * option bytes :=
  match fuel, s with
  | S fuel, b :: r =>
      match escaped s with
      | Some (c, r') => let '(p, rep) := patsub_split fuel r' in (b :: c :: p, rep)
      | None =>
          if b =? "/"%b then ([], Some r)
          else
            let rest := if b =? "["%b then default r (pattern_bracket_expr_end r) else r in
            let '(p, rep) := patsub_split fuel rest in (take (length s - length rest) s ++ p, rep)
      end
  | _, _ => ([], None)
  end.

Fixpoint expand_patsub_loop (fuel : nat) (template matched : bytes) : bytes :=
  match fuel, template with
  | S fuel, b :: r =>
      match b =? CTLESC, r with
      | true, c :: r' =>
          match c =? CTLRAW, r' with
          | true, d :: r'' => d :: expand_patsub_loop fuel r'' matched
          | _, _ => c :: expand_patsub_loop fuel r' matched
          end
      | _, _ =>
          if (b =? CTLNUL) || (b =? CTLFIELD) then expand_patsub_loop fuel r matched
          else if b =? "\"%b then
            let '(bars, rest) := span (fun b => b =? "\"%b) template in
            match rest with
            | a :: rest' =>
                if a =? "&"%b then
                  let count := length bars in
                  take (count / 2) bars ++ (if (count mod 2 =? 0)%nat then matched else [a]) ++ expand_patsub_loop fuel rest' matched
                else bars ++ expand_patsub_loop fuel rest matched
            | [] => bars
            end
          else if b =? "&"%b then matched ++ expand_patsub_loop fuel r matched
          else b :: expand_patsub_loop fuel r matched
      end
  | _, _ => []
  end.

Definition expand_patsub_replacement (template matched : bytes) : bytes := expand_patsub_loop (length template) template matched.

(** The mode, the pattern and the replacement of [${name/..}]. *)
Definition patsub_parts (rest : bytes) : PatSubMode * bytes * bytes :=
  let '(mode, s) :=
    match rest with
    | b :: r => if b =? "/"%b then (All, r) else if b =? "#"%b then (PrefixAnchored, r)
                else if b =? "%"%b then (SuffixAnchored, r) else (First, rest)
    | [] => (First, rest)
    end in
  let '(slash, s) := match mode, s with All, 47 :: r => (["/"%b], r) | _, _ => ([], s) end in
  let '(pat, rep) := patsub_split (S (length s)) s in
  (mode, slash ++ pat, default [] rep).

(** [push_literal_substitute] pushes the pieces of [literal_substitute] one after
    the other. *)
Definition push_literal_substitute (out : ExpandBuf) (value pattern replacement : bytes) (mode : PatSubMode) : ExpandBuf :=
  push_raw out (literal_substitute value pattern replacement mode).

Definition handle_patsub (name rest : bytes) (quoted : bool) (out : ExpandBuf) : M E ExpandBuf :=
  let '(mode, pat_raw, rep_raw) := patsub_parts rest in
  opts <- asks (fun c => pattern_match_opts (env c)) ;;
  patsub_replacement <- asks (fun c => env_option (env c) (bs "patsub_replacement")) ;;
  let general :=
    pattern <- expand_pattern pat_raw ;;
    rep_expanded <- expand_word_string (utf8_or_empty rep_raw) false ;;
    value <- read_value name ;;
    let template := buf_bytes rep_expanded in
    let f :=
      if (patsub_replacement : bool) then fun s => pat_subst_with_replacer s pattern mode opts (expand_patsub_replacement template)
      else
        let rep := dequote_bytes template in
        match op_literal_pattern pattern opts with
        | Some literal => fun s => literal_substitute s literal rep mode
        | None => fun s => pat_subst_with_opts s pattern rep mode opts
        end in
    push_joined out (transform_value value f) quoted in
  if negb quoted && negb patsub_replacement then
    match raw_literal_pattern pat_raw opts, raw_literal_replacement rep_raw with
    | Some pattern, Some replacement =>
        v <- fast_value name ;;
        match v with Some v => ret (push_literal_substitute out v pattern replacement mode) | None => general end
    | _, _ => general
    end
  else general.

Definition handle_casemod (name pat_raw : bytes) (mode : CaseModMode) (quoted : bool) (out : ExpandBuf) : M E ExpandBuf :=
  pat_opt <- (if is_nil pat_raw then ret None else p <- expand_pattern pat_raw ;; ret (Some p)) ;;
  value <- read_value name ;;
  opts <- asks (fun c => let o := pattern_match_opts (env c) in mkOpts false (extglob o) (globasciiranges o)) ;;
  push_joined out (transform_value value (fun s => casemod_with_opts s pat_opt mode opts)) quoted.

(** * The dispatch (braces.rs) *)

Definition bytes_display (s : bytes) : bytes := from_utf8_lossy s.

(** [replace("$'", "'")]. *)
Fixpoint drop_dollar_quotes (s : bytes) : bytes :=
  match s with
  | d :: ((q :: r) as r0) => if (d =? "$"%b) && (q =? "'"%b) then q :: drop_dollar_quotes r else d :: drop_dollar_quotes r0
  | _ => s
  end.

Definition bad_substitution_body (body : bytes) : ExpandError :=
  BadSubstitution (bs "${" ++ drop_dollar_quotes (bytes_display body) ++ bs "}").

Definition bad_indirection (rest : bytes) : ExpandError := BadSubstitution (bs "${!" ++ bytes_display rest ++ bs "}").

Fixpoint skip_pair_quote (quote : Z) (s : bytes) : bytes :=
  match s with
  | [] => []
  | b :: r =>
      if (b =? "\"%b) && (quote =? dquote) then match r with _ :: r' => skip_pair_quote quote r' | [] => [] end
      else if b =? quote then r else skip_pair_quote quote r
  end.

(** [skip_balanced_param_construct], after the opening byte. *)
Fixpoint skip_balanced_loop (fuel : nat) (s : bytes) (open close depth : Z) : bytes :=
  match fuel, s with
  | S fuel, b :: r =>
      if depth =? 0 then s
      else if b =? "\"%b then skip_balanced_loop fuel (drop 1 r) open close depth
      else if (b =? "'"%b) || (b =? dquote) then skip_balanced_loop fuel (skip_pair_quote b r) open close depth
      else if b =? open then skip_balanced_loop fuel r open close (depth + 1)
      else if b =? close then skip_balanced_loop fuel r open close (depth - 1)
      else skip_balanced_loop fuel r open close depth
  | _, _ => s
  end.

Definition skip_balanced_param_construct (s : bytes) (open close : Z) : bytes := skip_balanced_loop (S (length s)) s open close 1.

(** A [$(] or [${] inside a subscript: the text after it. *)
Definition skip_dollar (s : bytes) : option bytes :=
  match s with
  | d :: n :: r =>
      if negb (d =? "$"%b) then None
      else if n =? "("%b then Some (match extract_paren r with Ok (_, rest) => rest | _ => [] end)
      else if n =? "{"%b then Some (skip_balanced_param_construct r "{"%b "}"%b)
      else None
  | _ => None
  end.

(** Double quotes inside a subscript. *)
Fixpoint skip_subscript_double (fuel : nat) (s : bytes) : bytes :=
  match fuel, s with
  | S fuel, b :: r =>
      if b =? "\"%b then skip_subscript_double fuel (drop 1 r)
      else if b =? dquote then r
      else match skip_dollar s with Some rest => skip_subscript_double fuel rest | None => skip_subscript_double fuel r end
  | _, _ => s
  end.

Fixpoint skip_subscript_loop (fuel : nat) (s : bytes) (depth : Z) : bytes :=
  match fuel, s with
  | S fuel, b :: r =>
      if depth =? 0 then s
      else if b =? "\"%b then skip_subscript_loop fuel (drop 1 r) depth
      else if b =? "'"%b then skip_subscript_loop fuel (snd (single_run r)) depth
      else if b =? dquote then skip_subscript_loop fuel (skip_subscript_double (S (length r)) r) depth
      else
        match skip_dollar s with
        | Some rest => skip_subscript_loop fuel rest depth
        | None =>
            if b =? "["%b then skip_subscript_loop fuel r (depth + 1)
            else if b =? "]"%b then skip_subscript_loop fuel r (depth - 1)
            else skip_subscript_loop fuel r depth
        end
  | _, _ => s
  end.

(** [skip_parameter_subscript], after the [[]. *)
Definition skip_parameter_subscript (s : bytes) : bytes := skip_subscript_loop (S (length s)) s 1.

Definition valid_length_parameter_name (name : bytes) : bool :=
  match name with
  | [] => false
  | b :: _ =>
      if one_of name ["@"; "*"; "?"; "$"; "!"; "-"; "#"]%string then true
      else if forallb is_ascii_digit name then true
      else if is_ascii_digit b || negb (is_name_start b) then false
      else
        match snd (span is_name_byte name) with
        | [] => true
        | c :: _ => (c =? "["%b) && ends_with (bs "]") name
        end
  end.

(** [hash_prefix_is_parameter] and [bang_prefix_is_parameter], after the first
    byte. *)
Definition prefix_is_parameter (rest : bytes) : bool :=
  match rest with
  | [] => false
  | b :: r =>
      if (b =? ":"%b) || (b =? "/"%b) || (b =? "%"%b) || (b =? "="%b) || (b =? "+"%b) then true
      else ((b =? "-"%b) || (b =? "?"%b)) && negb (is_nil r)
  end.

Definition scalar_length (value : bytes) : M E nat :=
  let v := value_bytes value in
  utf8 <- locale_is_utf8 ;;
  ret (if (utf8 : bool) then match chars v with Some cs => length cs | None => length v end else length v).

Definition length_or_zero (v : option bytes) : M E nat :=
  match v with Some v => scalar_length v | None => ret 0%nat end.

(** The number of elements of [target]; a variable that is no array counts if
    [name] is set. *)
Definition count_elements (target name : bytes) (kd : VarKind) : M E nat :=
  match kd with
  | KAssoc => asks (fun c => env_assoc_len (env c) target)
  | KIndexed => read_env (fun e => env_array_len e target)
  | _ => v <- get name ;; ret (if bool_decide (is_Some v) then 1%nat else 0%nat)
  end.

Definition subscripted_length (base subscript : bytes) : M E nat :=
  target <- resolve_or base ;;
  kd <- kind target ;;
  strict <- asks eval_unbound_error ;;
  unset <- (if strict && bool_decide (kd = KUnset) then v <- get target ;; ret (bool_decide (v = None)) else ret false) ;;
  if (unset : bool) then fail (UnboundVariable (base ++ bs "[" ++ subscript ++ bs "]"))
  else if is_all subscript then
    if negb (bytes_eqb target base) && contains_byte "["%b target then ret 0%nat else count_elements target base kd
  else if bool_decide (kd = KAssoc) then
    key <- expand_string_to_string_impl subscript ;;
    if is_nil key then fail (InvalidArraySubscript (bs "[" ++ subscript ++ bs "]"))
    else v <- read_env (fun e => env_get_array_assoc e target key) ;; length_or_zero v
  else
    idx <- parse_indexed_subscript target subscript (bs "[" ++ subscript ++ bs "]") ;;
    if negb (bool_decide (kd = KIndexed)) then
      if idx =? 0 then v <- get target ;; length_or_zero v else ret 0%nat
    else v <- read_env (fun e => env_get_array_indexed e target idx) ;; length_or_zero v.

Definition compute_length (name : bytes) : M E nat :=
  let plain := v <- read_scalar name true ;; scalar_length v in
  if is_all name then asks (fun c => env_positional_count (env c))
  else if is_nil (utf8_or_empty name) && negb (is_nil name) then fail (BadSubstitution (bs "non-utf8"))
  else
    match split_subscript name with
    | Some (base, subscript) => subscripted_length base subscript
    | None =>
        target <- asks (fun c => nameref_resolve (env c) name) ;;
        match target with
        | Some t =>
            if bytes_eqb t name then plain
            else
              match array_all_ref t with
              | Some (base, _) => kd <- kind base ;; count_elements base base kd
              | None => if contains_byte "["%b t then v <- read_scalar t true ;; scalar_length v else plain
              end
        | None => plain
        end
    end.

(** * Indirection *)

Definition is_indirect_special (b : Z) : bool :=
  one_of [b] ["#"; "?"; "$"; "!"; "-"; "*"; "@"]%string || is_ascii_digit b.

(** [indirect_name_end]: the name and the rest. *)
Definition indirect_name (rest : bytes) : option (bytes * bytes) :=
  match rest with
  | [] => None
  | b :: r => if is_name_start b then Some (span is_name_byte rest) else if is_indirect_special b then Some ([b], r) else None
  end.

Definition invalid_name (target : bytes) : ExpandError := Other (target ++ bs ": invalid variable name").

(** The operators shared by direct and indirect expansion. *)
Definition pattern_operator (name : bytes) (op : Z) (word : bytes) (quoted : bool) (out : ExpandBuf) : option (M E ExpandBuf) :=
  let twice := match word with b :: _ => b =? op | [] => false end in
  let pat := if twice then drop 1 word else word in
  if op =? "#"%b then Some (handle_remove name pat true twice quoted out)
  else if op =? "%"%b then Some (handle_remove name pat false twice quoted out)
  else if op =? "/"%b then Some (handle_patsub name word quoted out)
  else if op =? "^"%b then Some (handle_casemod name pat (if twice then UpperAll else UpperFirst) quoted out)
  else if op =? ","%b then Some (handle_casemod name pat (if twice then LowerAll else LowerFirst) quoted out)
  else if op =? "~"%b then Some (handle_casemod name pat (if twice then ToggleAll else ToggleFirst) quoted out)
  else None.

Definition is_default_op (op : Z) : bool := (op =? "-"%b) || (op =? "="%b) || (op =? "?"%b) || (op =? "+"%b).

Definition parameter_has_transform_value (name : bytes) : M E bool :=
  if is_all name then asks (fun c => (0 <? env_positional_count (env c))%nat)
  else if one_of name ["?"; "#"; "$"; "-"]%string then ret true
  else if bytes_eqb name (bs "!") then asks (fun c => bool_decide (is_Some (env_last_async_pid (env c))))
  else
    match parse_usize name with
    | Some index => asks (fun c => (index =? 0)%nat || bool_decide (is_Some (env_positional (env c) index)))
    | None =>
        let base := match array_all_ref name with Some (base, _) => base | None => name end in
        target <- resolve_or base ;;
        if negb (bytes_eqb target base) && contains_byte "["%b target then element_is_set target
        else
          kd <- kind target ;;
          match kd with
          | KAssoc => asks (fun c => (0 <? env_assoc_len (env c) target)%nat)
          | KIndexed => n <- read_env (fun e => env_array_len e target) ;; ret (0 <? n)%nat
          | KUnset => ret false
          | _ => v <- get target ;; ret (bool_decide (is_Some v))
          end
    end.

Definition handle_unset_indirect_default (name : bytes) (op : Z) (word : bytes) (quoted : bool) (out : ExpandBuf) : M E ExpandBuf :=
  if op =? "-"%b then push_default word quoted out
  else if op =? "+"%b then ret (if quoted then push_quoted_null out else out)
  else if op =? "="%b then assign_default name word quoted out false
  else msg <- unset_message word quoted [] ;; fail (UnboundColonError name msg).

(** The name an indirection refers to. *)
Definition checked_target (target : bytes) : M E bytes :=
  if is_nil target then fail (Other (bs "invalid variable name"))
  else if negb (valid_length_parameter_name target) then fail (invalid_name target)
  else ret target.

Definition handle_indirect_default_alt (name : bytes) (op : Z) (colon : bool) (word : bytes) (quoted : bool) (out : ExpandBuf) :
    M E ExpandBuf :=
  is_set <- parameter_is_set name ;;
  if negb is_set then
    if is_valid_name_str name then fail (Other (name ++ bs ": invalid indirect expansion"))
    else handle_unset_indirect_default name op word quoted out
  else
    target <- read_scalar name false ;;
    target <- checked_target target ;;
    handle_default_alt target op colon word quoted out.

Definition handle_indirect_target_operation (source_name suffix : bytes) (quoted : bool) (out : ExpandBuf) : M E ExpandBuf :=
  let source_all_ref := starts_with (bs "[@]") suffix || starts_with (bs "[*]") suffix in
  ref <- asks (fun c => env_attr_nameref (env c) source_name) ;;
  if starts_with (bs "[") suffix && negb source_all_ref && ref then
    target <- resolve_or source_name ;;
    kd <- kind target ;;
    if bool_decide (kd = KUnset) then fail (Other (source_name ++ bytes_display suffix ++ bs ": invalid indirect expansion"))
    else ret out
  else
    kd <- kind source_name ;;
    target <- (if source_all_ref && (bool_decide (kd = KIndexed) || bool_decide (kd = KAssoc)) then join_array source_name " "%b
               else read_scalar source_name false) ;;
    target <- checked_target target ;;
    let op := if source_all_ref then drop 3 suffix else suffix in
    match op with
    | [] => push_parameter_value target quoted out
    | b :: word =>
        if b =? "@"%b then
          let attr := match word with a :: _ => (a =? "a"%b) || (a =? "A"%b) | [] => false end in
          strict <- asks eval_unbound_error ;;
          missing <- (if attr && strict then h <- parameter_has_transform_value target ;; ret (negb h) else ret false) ;;
          if (missing : bool) then fail (UnboundVariable (bs "!" ++ source_name))
          else handle_transform target word quoted out
        else
          match pattern_operator target b word quoted out with
          | Some m => m
          | None => fail (BadSubstitution (bs "${!" ++ source_name ++ bytes_display suffix ++ bs "}"))
          end
    end.

(** The names of variables and the keys of arrays. *)
Definition push_names (names : list bytes) (star quoted : bool) (out : ExpandBuf) : M E ExpandBuf :=
  sep <- asks (fun c => if star then default " "%b (join_separator (ifs c)) else " "%b) ;;
  if quoted && star then ret (push_value out (join (encode_utf8 sep) names) true)
  else if quoted then ret (push_each push_field_sep (fun out n => push_value out n true) names (buf_record_dollar_at out))
  else ret (push_each (fun out => push_literal out sep) (fun out n => push_value out n false) names out).

Definition push_keys (keys : list bytes) (star quoted : bool) (out : ExpandBuf) : M E ExpandBuf :=
  sep <- asks (fun c => if star then join_separator (ifs c) else Some " "%b) ;;
  if quoted && star then ret (push_value out (join (match sep with Some b => encode_utf8 b | None => [] end) keys) true)
  else ret (push_each (fun out => match sep with Some b => push_literal out b | None => out end)
              (fun out k => push_value out k quoted) keys out).

Definition array_keys_of (base inner : bytes) (quoted : bool) (out : ExpandBuf) : M E ExpandBuf :=
  let star := starts_with (bs "*") inner in
  key_base <- asks (fun c => if env_attr_nameref (env c) base then default base (nameref_resolve (env c) base) else base) ;;
  kd <- kind key_base ;;
  match kd with
  | KIndexed =>
      ks <- read_env (fun e => env_array_keys e key_base) ;;
      match ks with Some ks => push_keys (map i64_to_string ks) star quoted out | None => ret out end
  | KAssoc =>
      ks <- asks (fun c => env_assoc_keys (env c) key_base) ;;
      match ks with Some ks => push_keys ks star quoted out | None => ret out end
  | KUnset => ret out
  | _ => ret (push_value out (bs "0") quoted)
  end.

Definition plain_indirection (nm : bytes) (quoted : bool) (out : ExpandBuf) : M E ExpandBuf :=
  ref <- asks (fun c => env_attr_nameref (env c) nm) ;;
  if (ref : bool) then
    target <- resolve_or nm ;;
    if is_nil target then fail (Other (bs "invalid variable name")) else ret (push_value out target quoted)
  else
    is_set <- parameter_is_set nm ;;
    if negb is_set && is_valid_name_str nm then fail (Other (nm ++ bs ": invalid indirect expansion"))
    else
      target <- read_scalar nm false ;;
      target <- checked_target target ;;
      push_parameter_value target quoted out.

Definition indirect_operation (nm op rest : bytes) (quoted : bool) (out : ExpandBuf) : M E ExpandBuf :=
  match op with
  | [] => plain_indirection nm quoted out
  | b :: word =>
      if one_of [b] ["@"; "["; "#"; "%"; "/"; "^"; ","; "~"]%string then handle_indirect_target_operation nm op quoted out
      else
        match b =? ":"%b, word with
        | true, next :: word =>
            if is_default_op next then handle_indirect_default_alt nm next true word quoted out else fail (bad_indirection rest)
        | _, _ => if is_default_op b then handle_indirect_default_alt nm b false word quoted out else fail (bad_indirection rest)
        end
  end.

Definition handle_indirection (rest : bytes) (quoted : bool) (out : ExpandBuf) : M E ExpandBuf :=
  match last rest with
  | None => fail (BadSubstitution (bs "${!}"))
  | Some l =>
      let star := l =? "*"%b in
      let prefix := removelast rest in
      let names_form := (star || (l =? "@"%b)) in
      if names_form && is_nil prefix then ret out
      else if names_form && is_valid_name_str prefix then
        names <- asks (fun c => env_names_with_prefix (env c) prefix) ;; push_names names star quoted out
      else
        let keys :=
          match find_byte "["%b rest with
          | Some bracket =>
              let inner := drop (bracket + 1) rest in
              let base := take bracket rest in
              if is_nil (utf8_or_empty base) && negb (is_nil base) then Some (fail (BadSubstitution (bs "non-utf8")))
              else if bytes_eqb inner (bs "@]") || bytes_eqb inner (bs "*]") then Some (array_keys_of base inner quoted out)
              else None
          | None => None
          end in
        match keys with
        | Some m => m
        | None =>
            match indirect_name rest with
            | None => fail (bad_indirection rest)
            | Some (nm, op) => indirect_operation nm op rest quoted out
            end
        end
  end.

(** * [${..}] *)

(** The name in [$'..'], and the rest. *)
Definition ansi_c_quoted_parameter_name (body : bytes) : M E (option (bytes * bytes)) :=
  extquote <- asks (fun c => env_option (env c) (bs "extquote")) ;;
  if negb extquote || negb (starts_with (bs "$'") body) then ret None
  else
    let '(raw, rest) := scan_ansi_c_quoted (drop 2 body) in
    if negb (bool_decide (body !! (length body - length rest - 1)%nat = Some "'"%b)) then ret None
    else
      let decoded := ansi_c_decode raw in
      if negb (valid_length_parameter_name decoded) then fail (bad_substitution_body body)
      else if is_nil (utf8_or_empty decoded) then fail (BadSubstitution (bs "non-utf8 name"))
      else ret (Some (decoded, rest)).

(** The name at the start of the body, and the rest. *)
Definition parameter_name (body : bytes) : bytes * bytes :=
  let '(name, rest) := span is_name_byte body in
  match rest with
  | b :: r =>
      if b =? "["%b then let rest := skip_parameter_subscript r in (take (length body - length rest) body, rest)
      else if is_nil name && is_indirect_special b then ([b], r)
      else (name, rest)
  | [] => (name, rest)
  end.

(** An operator after the name; [op] is not empty. *)
Definition expand_operator (body name op : bytes) (quoted : bool) (out : ExpandBuf) : M E ExpandBuf :=
  let dispatch (colon : bool) (b : Z) (word : bytes) :=
    if bytes_eqb name (bs "#") && is_nil word && ((b =? "/"%b) || (b =? "%"%b) || (b =? "="%b) || (b =? "+"%b))
    then fail (bad_substitution_body body)
    else if is_default_op b then handle_default_alt name b colon word quoted out
    else if b =? "@"%b then handle_transform name word quoted out
    else match pattern_operator name b word quoted out with Some m => m | None => fail (bad_substitution_body body) end in
  match op with
  | [] => fail (bad_substitution_body body)
  | b :: word =>
      if b =? ":"%b then
        match word with
        | [] => fail (bad_substitution_body body)
        | next :: word' => if is_default_op next then dispatch true next word' else handle_substring name word quoted out
        end
      else dispatch false b word
  end.

Definition expand_brace_body (body : bytes) (quoted : bool) (out : ExpandBuf) : M E ExpandBuf :=
  match body with
  | [] => fail (BadSubstitution (bs "${}"))
  | b0 :: r0 =>
      posix <- asks (fun c => env_option (env c) (bs "posix")) ;;
      if (b0 =? "#"%b) && negb (is_nil r0) && negb (prefix_is_parameter r0) then
        if negb (valid_length_parameter_name r0) then fail (bad_substitution_body body)
        else len <- compute_length r0 ;; ret (push_value out (u_to_string (Z.of_nat len)) quoted)
      else if (b0 =? "!"%b) && negb (is_nil r0) && negb (prefix_is_parameter r0)
              && negb (posix && match r0 with b1 :: _ => (b1 =? "?"%b) || (b1 =? "-"%b) | [] => false end) then
        handle_indirection r0 quoted out
      else
        ansi <- ansi_c_quoted_parameter_name body ;;
        let '(name, op) := match ansi with Some x => x | None => parameter_name body end in
        if is_nil name then fail (bad_substitution_body body)
        else if is_nil (utf8_or_empty name) then fail (BadSubstitution (bs "non-utf8 name"))
        else if is_nil op then push_parameter_value name quoted out
        else expand_operator body name op quoted out
  end.

(** ** The fast path *)

(** [simple_brace_body]: the body and the rest. *)
Fixpoint simple_brace_body (s : bytes) : option (bytes * bytes) :=
  match s with
  | [] => None
  | b :: r =>
      if b =? "}"%b then Some ([], r)
      else if (b =? "{"%b) || (b =? "$"%b) || (b =? "`"%b) || (b =? "'"%b) || (b =? dquote) || (b =? "\"%b) then None
      else '(body, rest) ← simple_brace_body r; Some (b :: body, rest)
  end.

Definition try_fast_literal_brace_body_bytes (body : bytes) : M E (option bytes) :=
  match body with
  | [] => ret None
  | first :: _ =>
      if negb (is_name_start first) then ret None
      else
        let '(name, rest) := span is_name_byte body in
        opts <- asks (fun c => pattern_match_opts (env c)) ;;
        match rest with
        | op :: word =>
            let twice := match word with b :: _ => b =? op | [] => false end in
            if (op =? "#"%b) || (op =? "%"%b) then
              match raw_literal_pattern (if twice then drop 1 word else word) opts with
              | None => ret None
              | Some pattern =>
                  v <- fast_value name ;;
                  ret ((fun v => literal_remove v pattern (op =? "#"%b)) <$> v)
              end
            else if (op =? "/"%b) && twice then
              patsub_replacement <- asks (fun c => env_option (env c) (bs "patsub_replacement")) ;;
              if (patsub_replacement : bool) then ret None
              else
                let word := drop 1 word in
                let '(pat_raw, rep_raw) := match find_byte "/"%b word with
                                           | Some sep => (take sep word, drop (sep + 1) word)
                                           | None => (word, [])
                                           end in
                match raw_literal_pattern pat_raw opts, raw_literal_replacement rep_raw with
                | Some pattern, Some replacement =>
                    v <- fast_value name ;;
                    ret ((fun v => literal_substitute v pattern replacement All) <$> v)
                | _, _ => ret None
                end
            else ret None
        | [] => ret None
        end
  end.

Definition parameter_brace_expand (word : bytes) (i : nat) (quoted : bool) (out : ExpandBuf) : M E (nat * ExpandBuf) :=
  let s := drop (i + 2) word in
  let at_rest (rest : bytes) := (length word - length rest)%nat in
  match current_subst_mode s with
  | Some mode =>
      let s := match mode with CReply => drop 1 s | COutput => s end in
      match extract_current_brace_body s with
      | Ok (body, rest) => buf <- current_substitute (from_utf8_lossy body) quoted mode ;; ret (at_rest rest, extend_from out buf)
      | Err e => fail e
      | Fuel => panic
      end
  | None =>
      posix <- asks (fun c => quoted && env_option (env c) (bs "posix")) ;;
      fast <- (match (if quoted then None else simple_brace_body s) with
               | Some (body, rest) =>
                   v <- try_fast_literal_brace_body_bytes body ;; ret ((fun v => (at_rest rest, push_raw out v)) <$> v)
               | None => ret None
               end) ;;
      match fast with
      | Some r => ret r
      | None =>
          match extract_brace_body posix s with
          | Ok (body, rest) => out <- expand_brace_body body quoted out ;; ret (at_rest rest, out)
          | Err e => fail e
          | Fuel => panic
          end
      end
  end.

(** [try_fast_literal_braced_scalar] for a whole word; it has no context, so
    [set -u] is asked for directly. *)
Definition try_fast_literal_braced_scalar (word : bytes) : M E (option bytes) :=
  match strip_prefix (bs "${") word ≫= simple_brace_body with
  | Some (body, []) =>
      strict <- asks (fun c => env_option (env c) (bs "nounset")) ;;
      v <- scoped eval_unbound_error with_eval_unbound_error strict (try_fast_literal_brace_body_bytes body) ;;
      ret (shell_text <$> v)
  | _ => ret None
  end.
End Expansion.
