(* ===== verification/ParamProps.v ===== *)
(** Parameter expansion, correct: the literal shortcuts agree with the pattern
    operators, the textual fast path with the general one, substrings are slices of
    characters and the defaults follow the table of POSIX. *)
From Stdlib Require Import ZifyBool.
From stdpp Require Import gmap.
From S2P Require Import Prelude Env Utf8 Options Vars Buf Pattern PatternLang PatternOps PatternParse Split Quote QuoteProps Expand Internal InternalProps InternalTerm TestEnv Scan ScanProps Param.

(** * Occurrences of a text *)

Definition occurs (p s : bytes) (j : nat) : bool := starts_with p (drop j s).

Lemma occurs_bound p s j : occurs p s j = true -> p <> [] -> (j + length p <= length s)%nat.
Proof.
  unfold occurs. intros [r H]%starts_with_app Hp. apply (f_equal length) in H. rewrite length_drop, length_app in H.
  destruct p; [done|]. simpl in *. lia.
Qed.

(** [o] is the first occurrence of [p] in [s] from [pos] on. *)
Definition first_occurrence (p s : bytes) (pos : nat) (o : option nat) : Prop :=
  match o with
  | Some k => (pos <= k)%nat /\ occurs p s k = true /\ (forall j, (pos <= j < k)%nat -> occurs p s j = false)
  | None => forall j, (pos <= j)%nat -> occurs p s j = false
  end.

Lemma first_occurrence_unique p s pos o1 o2 : first_occurrence p s pos o1 -> first_occurrence p s pos o2 -> o1 = o2.
Proof.
  destruct o1 as [k1|], o2 as [k2|]; simpl; [| | |done].
  - intros (H1 & O1 & N1) (H2 & O2 & N2). f_equal. destruct (Nat.lt_trichotomy k1 k2) as [H|[H|H]]; [|done|].
    + specialize (N2 k1 ltac:(lia)). congruence.
    + specialize (N1 k2 ltac:(lia)). congruence.
  - intros (H1 & O1 & _) N. rewrite N in O1 by done. done.
  - intros N (H1 & O1 & _). rewrite N in O1 by done. done.
Qed.

(** A position without occurrence may be skipped. *)
Lemma first_occurrence_skip p s pos pos' o :
  (pos <= pos')%nat -> (forall j, (pos <= j < pos')%nat -> occurs p s j = false) ->
  first_occurrence p s pos' o -> first_occurrence p s pos o.
Proof.
  intros Hle Hskip. destruct o as [k|]; simpl.
  - intros (H1 & O1 & N1). split_and!; [lia|done|]. intros j Hj. destruct (decide (j < pos')%nat); [apply Hskip|apply N1]; lia.
  - intros N j Hj. destruct (decide (j < pos')%nat); [apply Hskip|apply N]; lia.
Qed.

Lemma find_byte_first c s :
  match find_byte c s with
  | Some k => s !! k = Some c /\ forall j, (j < k)%nat -> s !! j <> Some c
  | None => c ∉ s
  end.
Proof.
  induction s as [|b s IH]; simpl; [apply not_elem_of_nil|].
  destruct (b =? c) eqn:E; [apply Z.eqb_eq in E as ->; split; [done|lia]|]. apply Z.eqb_neq in E.
  destruct (find_byte c s) as [k|]; simpl.
  - destruct IH as [H1 H2]. split; [done|]. intros [|j] Hj; [by intros [= ->]|apply H2; lia].
  - rewrite not_elem_of_cons. split; [congruence|done].
Qed.

Lemma occurs_cons_head a p s j : occurs (a :: p) s j = true -> s !! j = Some a.
Proof.
  unfold occurs. intros [r H]%starts_with_app. rewrite <- (Nat.add_0_r j), <- lookup_drop. by rewrite H.
Qed.

Lemma find_bytes_loop_ok fuel hay a p pos :
  (length (a :: p) <= length hay)%nat -> (length hay - pos < fuel)%nat ->
  first_occurrence (a :: p) hay pos (find_bytes_loop fuel hay a p pos (length hay - length (a :: p))).
Proof.
  intros Hlen. revert pos. induction fuel as [|fuel IH]; intros pos Hf; [lia|]. cbn [find_bytes_loop].
  set (last := (length hay - length (a :: p))%nat).
  assert (Hlast : (last + length (a :: p) = length hay)%nat) by lia. assert (1 <= length (a :: p))%nat by (simpl; lia).
  destruct (pos <=? last)%nat eqn:Hle; [apply Nat.leb_le in Hle|apply Nat.leb_gt in Hle].
  2: { intros j Hj. apply not_true_iff_false. intros Ho%occurs_bound; [|done]. unfold last in *. lia. }
  pose proof (find_byte_first a (slice hay pos (last + 1))) as Hb.
  destruct (find_byte a (slice hay pos (last + 1))) as [rel|] eqn:Efb; simpl.
  - destruct Hb as [Hat Hbefore]. pose proof (find_byte_lt _ _ _ Efb) as Hrel. rewrite slice_length in Hrel by lia.
    assert (Hlk : forall j, (j < last + 1 - pos)%nat -> slice hay pos (last + 1) !! j = hay !! (pos + j)%nat)
      by (intros j Hj; unfold slice; rewrite lookup_take_lt, lookup_drop by lia; done).
    rewrite Hlk in Hat by lia.
    assert (Hocc : occurs (a :: p) hay (pos + rel) = starts_with p (drop (pos + rel + 1) hay)).
    { unfold occurs. rewrite (drop_S _ _ _ Hat), Nat.add_1_r. simpl. by rewrite Z.eqb_refl. }
    assert (Hno : forall j, (pos <= j < pos + rel)%nat -> occurs (a :: p) hay j = false).
    { intros j Hj. apply not_true_iff_false. intros Ho%occurs_cons_head. apply (Hbefore (j - pos)%nat); [lia|].
      rewrite Hlk by lia. replace (pos + (j - pos))%nat with j by lia. done. }
    rewrite <- Hocc. destruct (occurs (a :: p) hay (pos + rel)) eqn:Eo; [split_and!; [lia|done|done]|].
    apply (first_occurrence_skip _ _ _ (pos + rel + 1)); [lia| |apply IH; lia].
    intros j Hj. destruct (decide (j = (pos + rel)%nat)) as [->|]; [done|apply Hno; lia].
  - intros j Hj. apply not_true_iff_false. intros Ho. pose proof (occurs_cons_head _ _ _ _ Ho) as Hh.
    apply occurs_bound in Ho; [|done]. apply Hb. apply list_elem_of_lookup. exists (j - pos)%nat.
    unfold slice. rewrite lookup_take_lt, lookup_drop by (unfold last in *; lia). by replace (pos + (j - pos))%nat with j by lia.
Qed.

(** [find_bytes] finds the first occurrence. *)
Lemma find_bytes_first hay needle : needle <> [] -> first_occurrence needle hay 0 (find_bytes hay needle).
Proof.
  destruct needle as [|a p]; [done|]. intros _. unfold find_bytes.
  destruct (length hay <? length (a :: p))%nat eqn:E; [apply Nat.ltb_lt in E|apply Nat.ltb_ge in E].
  - intros j _. apply not_true_iff_false. intros Ho%occurs_bound; [|done]. lia.
  - apply find_bytes_loop_ok; lia.
Qed.

(** * Literal patterns *)

Lemma starts_with_take p s : starts_with p s = bytes_eqb (take (length p) s) p.
Proof.
  apply eq_true_iff_eq. rewrite starts_with_app, bytes_eqb_eq. split.
  - intros [r ->]. apply take_app_length.
  - intros H. exists (drop (length p) s). rewrite <- H at 1. by rewrite take_drop.
Qed.

Lemma literal_eq_case a b opts : nocaseglob opts = false -> literal_eq a b opts = bytes_eqb a b.
Proof.
  intros Hn. unfold literal_eq. rewrite Hn. destruct (length a =? length b)%nat eqn:E; [done|]. simpl.
  symmetry. apply not_true_iff_false. intros ->%bytes_eqb_eq. by rewrite Nat.eqb_refl in E.
Qed.

Lemma find_window_first l u opts :
  nocaseglob opts = false -> l <> [] -> first_occurrence l u 0 (find_window u l opts).
Proof.
  intros Hn Hl. induction u as [|b u IH]; cbn [find_window].
  - destruct l; [done|]. intros j _. unfold occurs. by rewrite drop_nil.
  - destruct (length (b :: u) <? length l)%nat eqn:E.
    { apply Nat.ltb_lt in E. intros j _. apply not_true_iff_false. intros Ho%occurs_bound; [lia|done]. }
    rewrite literal_eq_case, <- starts_with_take by done.
    destruct (starts_with l (b :: u)) eqn:Es; [split_and!; [lia|done|lia]|].
    destruct (find_window u l opts) as [k|]; simpl in *.
    + destruct IH as (_ & Ho & Hno). split_and!; [lia|done|]. intros [|j] Hj; [done|]. apply (Hno j). lia.
    + intros [|j] _; [done|]. apply (IH j). lia.
Qed.

Lemma find_bytes_literal u l opts : nocaseglob opts = false -> l <> [] -> find_literal u l opts = find_bytes u l.
Proof.
  intros Hn Hl. rewrite find_literal_window. apply (first_occurrence_unique l u 0).
  - by apply find_window_first.
  - by apply find_bytes_first.
Qed.

Lemma substitute_all_loop l rep opts s fuel cursor :
  nocaseglob opts = false -> l <> [] ->
  subst_literal_loop fuel s l false opts (fun _ => rep) cursor = substitute_all fuel (drop cursor s) l rep.
Proof.
  intros Hn Hl. revert cursor. induction fuel as [|fuel IH]; intros cursor; cbn [subst_literal_loop substitute_all]; [done|].
  rewrite find_bytes_literal by done. destruct (find_bytes (drop cursor s) l) as [rel|]; [|done].
  rewrite IH, drop_drop. unfold slice. by replace (cursor + rel - cursor)%nat with rel by lia; rewrite Nat.add_assoc.
Qed.

Lemma strip_suffix_spec p s : strip_suffix p s = if bytes_eqb (drop (length s - length p) s) p then Some (take (length s - length p) s) else None.
Proof.
  unfold strip_suffix, strip_prefix. rewrite starts_with_take, length_rev.
  assert (Ht : take (length p) (rev s) = rev (drop (length s - length p) s)) by apply firstn_rev.
  assert (Hd : drop (length p) (rev s) = rev (take (length s - length p) s)) by apply skipn_rev.
  rewrite Ht, Hd.
  assert (Heq : bytes_eqb (rev (drop (length s - length p) s)) (rev p) = bytes_eqb (drop (length s - length p) s) p).
  { apply eq_true_iff_eq. rewrite !bytes_eqb_eq. split; [|congruence]. intros H. by rewrite <- (rev_involutive (drop _ _)), H, rev_involutive. }
  rewrite Heq. destruct (bytes_eqb (drop (length s - length p) s) p); simpl; [by rewrite rev_involutive|done].
Qed.

Lemma ends_literal s l opts :
  nocaseglob opts = false -> l <> [] ->
  literal_ends_with s l opts = bytes_eqb (drop (length s - length l) s) l.
Proof.
  intros Hn Hl. unfold literal_ends_with. rewrite literal_eq_case by done.
  destruct (length l <=? length s)%nat eqn:E; [done|]. apply Nat.leb_gt in E. simpl. symmetry.
  apply not_true_iff_false. intros H%bytes_eqb_eq. apply (f_equal length) in H. rewrite length_drop in H. lia.
Qed.

Lemma begins_literal s l opts : nocaseglob opts = false -> literal_starts_with s l opts = starts_with l s.
Proof.
  intros Hn. unfold literal_starts_with. rewrite literal_eq_case, <- starts_with_take by done.
  destruct (length l <=? length s)%nat eqn:E; [done|]. apply Nat.leb_gt in E. simpl. symmetry. apply not_true_iff_false.
  intros [r ->]%starts_with_app. rewrite length_app in E. lia.
Qed.

(** An ordinary byte of a pattern. *)
Definition literal_byte (b : Z) : bool := negb (is_ctl b || is_pattern_meta b).

Lemma parse_plain opts fuel s inv :
  extglob opts = false -> forallb literal_byte s = true -> (length s < fuel)%nat ->
  parse_inner_checked fuel opts false s inv = Some (map Lit s, [], inv).
Proof.
  intros He. revert fuel inv. induction s as [|b s IH]; intros [|fuel] inv Hs Hf; cbn [length] in Hf; try lia; [done|].
  cbn [forallb] in Hs. apply andb_true_iff in Hs as [Hb Hs]. cbn [parse_inner_checked andb].
  unfold literal_byte, is_ctl, is_pattern_meta in Hb. unfold byte_tok, plain_tok. rewrite He.
  repeat match type of Hb with context [?x =? ?y] => destruct (x =? y) eqn:?; [by rewrite ?orb_true_r in Hb|] end.
  rewrite IH by (done || lia).
  replace (b =? 92) with false by (symmetry; done). done.
Qed.

Lemma no_meta opts fuel s : extglob opts = false -> forallb literal_byte s = true -> glob_meta_loop fuel s opts = false.
Proof.
  intros He. revert s. induction fuel as [|fuel IH]; intros [|b s] Hs; cbn [glob_meta_loop]; try done.
  cbn [forallb] in Hs. apply andb_true_iff in Hs as [Hb Hs]. unfold literal_byte, is_ctl, is_pattern_meta in Hb. rewrite He.
  repeat match type of Hb with context [?x =? ?y] => destruct (x =? y) eqn:?; [by rewrite ?orb_true_r in Hb|] end.
  by apply IH.
Qed.

Lemma all_lits_lit s : all_lits (map Lit s) = Some s.
Proof. induction s as [|x s IH]; simpl; [done|by rewrite IH]. Qed.

Lemma plain_literal_pattern pat opts l :
  op_literal_pattern pat opts = Some l ->
  l = pat /\ pat <> [] /\ nocaseglob opts = false /\ extglob opts = false /\ literal_pattern pat opts = Some pat.
Proof.
  unfold op_literal_pattern. destruct (nocaseglob opts) eqn:Hn; [done|]. destruct (extglob opts) eqn:He; [done|].
  destruct pat as [|b pat]; [done|]. cbn [orb is_nil]. destruct (existsb _ (b :: pat)) eqn:Hex; [done|]. intros [= <-].
  assert (Hall : forallb literal_byte (b :: pat) = true).
  { apply forallb_forall. intros x Hx. unfold literal_byte. apply negb_true_iff, not_true_iff_false. intros Hm.
    apply not_true_iff_false in Hex. apply Hex, existsb_exists. by exists x. }
  split_and!; [done..|]. unfold literal_pattern, parse, has_glob_meta.
  rewrite no_meta, parse_plain by (done || unfold parse_fuel; lia).
  apply all_lits_lit.
Qed.

(** where the pattern of an operator is plain text, the direct search of
    operators.rs does what the pattern operators of pattern.rs do: [${x#pat}] and
    [${x%pat}] remove the same text, the shortest and the longest match being the
    same, and [${x/pat/rep}] in all its forms replaces the same occurrences. *)
Theorem literal_operators_agree (s pat rep : bytes) (prefix longest : bool) (mode : PatSubMode) (opts : GlobOpts)
    (Hlit : is_Some (op_literal_pattern pat opts)) :
  literal_remove s pat prefix = remove_pattern_with_opts s pat prefix longest opts
  /\ literal_substitute s pat rep mode = pat_subst_with_opts s pat rep mode opts.
Proof.
  destruct Hlit as [l Hlit]. apply plain_literal_pattern in Hlit as (-> & Hne & Hn & He & Hl).
  assert (Hnil : is_nil pat = false) by (by destruct pat). split.
  - unfold literal_remove, remove_pattern_with_opts. rewrite Hl, Hnil. destruct prefix.
    + unfold strip_prefix. rewrite begins_literal by done. by destruct (starts_with pat s).
    + rewrite strip_suffix_spec, ends_literal by done. by destruct (bytes_eqb (drop (length s - length pat) s) pat).
  - unfold literal_substitute, pat_subst_with_opts, pat_subst_with_replacer, pat_subst_literal. rewrite Hl, Hnil.
    destruct mode.
    + cbn [subst_literal_loop]. rewrite find_bytes_literal by done. rewrite drop_0.
      destruct (find_bytes s pat) as [k|]; [|done]. by rewrite slice_from_start.
    + rewrite substitute_all_loop by done. by rewrite drop_0.
    + unfold strip_prefix. rewrite begins_literal by done. by destruct (starts_with pat s).
    + rewrite strip_suffix_spec, ends_literal by done. by destruct (bytes_eqb (drop (length s - length pat) s) pat).
Qed.

Lemma literal_operators_agree_witness :
  literal_substitute (bs "a/b/c") (bs "/") (bs "::") All = pat_subst_with_opts (bs "a/b/c") (bs "/") (bs "::") All default_opts
  /\ literal_substitute (bs "a/b/c") (bs "/") (bs "::") All = bs "a::b::c".
Proof.
  split; [|vm_compute; reflexivity].
  apply (literal_operators_agree (bs "a/b/c") (bs "/") (bs "::") true false All default_opts). by eexists.
Defined.

(** * The fast path *)

Lemma simple_body_scanned fuel posix sw body s b rest :
  simple_brace_body s = Some (b, rest) -> (length s < fuel)%nat -> brace_loop fuel posix sw body s = Ok (body ++ b, rest).
Proof.
  revert fuel body b. induction s as [|x s IH]; intros [|fuel] body b; cbn [simple_brace_body length brace_loop]; try (done || lia).
  intros H Hf. destruct (x =? "}"%b) eqn:Ex; [apply Z.eqb_eq in Ex as ->; injection H as <- <-; rewrite app_nil_r; by destruct s|].
  assert (He : (x =? "\"%b) = false -> escaped (x :: s) = None) by apply no_escape.
  assert (Ha : (x =? "$"%b) = false -> append_ansi_c_literal (x :: s) = None) by (intros Hx; apply no_ansi; by rewrite Hx).
  repeat match type of H with context [x =? ?y] => destruct (x =? y) eqn:?; [done|] end. cbn [orb] in H.
  destruct (simple_brace_body s) as [[b' rest']|] eqn:Es; [|done]. injection H as <- <-.
  rewrite Ha, He by done. cbn [andb].
  rewrite (IH fuel _ b') by (done || lia). by rewrite <- app_assoc.
Qed.

Lemma name_byte_ascii b : is_name_byte b = true -> 0 <= b < 128.
Proof.
  unfold is_name_byte, is_name_start, is_ascii_alphabetic, is_ascii_lower, is_ascii_upper, is_ascii_digit, in_range.
  rewrite !orb_true_iff, !andb_true_iff, !Z.leb_le, Z.eqb_eq. lia.
Qed.

Lemma encode_ascii b : 0 <= b < 128 -> encode_utf8 b = [b].
Proof. intros H. unfold encode_utf8. by replace (b <? 128) with true by (symmetry; apply Z.ltb_lt; lia). Qed.

Lemma ascii_utf8 s : Forall (fun b => 0 <= b < 128) s -> from_utf8 s = inl s.
Proof.
  intros H.
  assert (Hc : concat (map encode_utf8 s) = s).
  { induction H as [|b s Hb _ IH]; [done|]. cbn [map concat]. by rewrite encode_ascii, IH. }
  rewrite <- Hc at 1. apply from_utf8_text. eapply Forall_impl; [exact H|]. intros b Hb. cbn beta in Hb. unfold is_scalar, in_range. apply andb_true_iff; split; [|apply negb_true_iff, andb_false_iff]; rewrite ?andb_true_iff, ?Z.leb_le, ?Z.leb_gt; lia.
Qed.

Lemma span_all p s : Forall (fun b => p b = true) (span p s).1.
Proof. induction s as [|b s IH]; simpl; [done|]. destruct (p b) eqn:E; [|done]. destruct (span p s). by constructor. Qed.

Lemma span_rest p s b r : (span p s).2 = b :: r -> p b = false.
Proof. induction s as [|x s IH]; simpl; [done|]. destruct (p x) eqn:E; [|by intros [= -> ->]]. by destruct (span p s). Qed.

Lemma name_text name : name <> [] -> Forall (fun b => is_name_byte b = true) name -> utf8_or_empty name = name.
Proof.
  intros Hne Hn. unfold utf8_or_empty. rewrite ascii_utf8; [done|]. eapply Forall_impl; [exact Hn|]. apply name_byte_ascii.
Qed.

(** The texts the pattern of [${x/pat/rep}] may not hold on the fast path. *)
Definition split_free (p : bytes) : bool := forallb (fun b => negb ((b =? "/"%b) || (b =? "["%b) || (b =? "\"%b))) p.

Lemma patsub_split_free p tail fuel :
  split_free p = true -> (length p < fuel)%nat -> head tail = Some "/"%b \/ tail = [] ->
  patsub_split fuel (p ++ tail) = (p, match tail with [] => None | _ :: r => Some r end).
Proof.
  intros Hp Hf Ht. revert fuel Hp Hf. induction p as [|b p IH]; intros [|fuel] Hp Hf; cbn [length] in Hf; try lia.
  - destruct tail as [|x r]; [done|]. destruct Ht as [[= ->]|]; [|done]. by destruct r.
  - unfold split_free in *. cbn [forallb] in Hp. apply andb_true_iff in Hp as [Hb Hp].
    apply negb_true_iff in Hb. rewrite !orb_false_iff in Hb. destruct Hb as [[Hs Hl] He].
    cbn [app patsub_split]. rewrite (no_escape b _ He), Hs, Hl, (IH fuel Hp) by lia. cbn [length].
    replace (S (length (p ++ tail)) - length (p ++ tail))%nat with 1%nat by lia. done.
Qed.

Lemma raw_plain_some w p : raw_plain_word w = Some p -> p = w /\ forallb (fun b => negb (b =? "\"%b)) w = true.
Proof.
  unfold raw_plain_word. destruct (existsb _ w) eqn:E; [done|]. intros [= <-]. split; [done|].
  apply forallb_forall. intros x Hx. apply negb_true_iff, not_true_iff_false. intros Hb. apply not_true_iff_false in E.
  apply E, existsb_exists. exists x. rewrite Hb, !orb_true_r. done.
Qed.

Lemma raw_literal_some w opts p : raw_literal_pattern w opts = Some p ->
  p = w /\ w <> [] /\ nocaseglob opts = false /\ existsb is_pattern_meta w = false.
Proof.
  unfold raw_literal_pattern. destruct (nocaseglob opts); [done|]. destruct (extglob opts); [done|]. cbn [orb].
  destruct w as [|b w]; [done|]. cbn [is_nil]. destruct (raw_plain_word (b :: w)) as [q|] eqn:E; [|done].
  apply raw_plain_some in E as [-> _]. unfold mbind, option_bind. destruct (existsb is_pattern_meta (b :: w)) eqn:Em; [by intros|]. by intros [= <-].
Qed.

(** The split at the first [/] is the split of [patsub_parts] there. *)
Lemma patsub_parts_plain w opts p :
  let '(pat_raw, rep_raw) := match find_byte "/"%b w with Some sep => (take sep w, drop (sep + 1) w) | None => (w, []) end in
  raw_literal_pattern pat_raw opts = Some p -> patsub_parts ("/"%b :: w) = (All, pat_raw, rep_raw).
Proof.
  pose proof (find_byte_first "/"%b w) as Hf.
  assert (Hfree : forall q, existsb is_pattern_meta q = false -> "/"%b ∉ q -> split_free q = true).
  { intros q Hm Hq. apply forallb_forall. intros x Hx. apply negb_true_iff. rewrite !orb_false_iff.
    assert (Hx' : is_pattern_meta x = false) by (apply not_true_iff_false; intros Hm'; apply not_true_iff_false in Hm; apply Hm, existsb_exists; by exists x).
    unfold is_pattern_meta in Hx'. rewrite !orb_false_iff in Hx'. split_and!; try tauto.
    apply Z.eqb_neq. intros ->. by apply Hq, list_elem_of_In. }
  assert (Hhead : forall q tail, q <> [] -> "/"%b ∉ q ->
            match q ++ tail with 47 :: r => (["/"%b], r) | _ => ([], q ++ tail) end = ([], q ++ tail)).
  { intros [|b q] tail Hne Hq; [done|]. rewrite not_elem_of_cons in Hq. cbn [app]. repeat case_match; try done; by destruct Hq. }
  assert (Hparts : forall q tail, q <> [] -> split_free q = true -> "/"%b ∉ q -> head tail = Some "/"%b \/ tail = [] ->
            patsub_parts ("/"%b :: q ++ tail) = (All, q, default [] (match tail with [] => None | _ :: r => Some r end))).
  { intros q tail Hne Hs Hno Ht. unfold patsub_parts. rewrite Z.eqb_refl, (Hhead _ _ Hne Hno).
    rewrite patsub_split_free by (done || rewrite length_app; lia). done. }
  destruct (find_byte "/"%b w) as [sep|] eqn:E; intros (-> & Hne & _ & Hm)%raw_literal_some.
  - destruct Hf as [Hat Hbefore]. pose proof (find_byte_lt _ _ _ E) as Hlt.
    assert (Hno : "/"%b ∉ take sep w).
    { intros [j Hj]%list_elem_of_lookup. apply lookup_take_Some in Hj as [Hj Hlt']. by apply (Hbefore j). }
    assert (Hw : w = take sep w ++ "/"%b :: drop (sep + 1) w) by (rewrite Nat.add_1_r, <- (drop_S _ _ _ Hat); by rewrite take_drop).
    rewrite Hw at 1. apply (Hparts (take sep w) ("/"%b :: drop (sep + 1) w)); [done|by apply Hfree|done|by left].
  - rewrite <- (app_nil_r w) at 1. apply (Hparts w []); [done|by apply Hfree|done|by right].
Qed.

(** ** Substrings *)

(** The bytes before the unit [k]. *)
Definition offset (us : list bytes) (k : nat) : nat := length (concat (take k us)).

Lemma offset_0 us : offset us 0 = 0%nat.
Proof. by destruct us. Qed.

Lemma offset_all us : offset us (length us) = length (concat us).
Proof. unfold offset. by rewrite firstn_all. Qed.

Lemma offset_cons u us k : offset (u :: us) (S k) = (length u + offset us k)%nat.
Proof. unfold offset. cbn [take concat]. by rewrite length_app. Qed.

Lemma char_range_loop_spec us i byte s e sb eb :
  i <= e -> s <= e ->
  char_range_loop us i byte s e sb eb
  = (if (i <=? s) && (s <? i + Z.of_nat (length us)) then (byte + offset us (Z.to_nat (s - i)))%nat else sb,
     if e <? i + Z.of_nat (length us) then (byte + offset us (Z.to_nat (e - i)))%nat else eb).
Proof.
  revert i byte sb. induction us as [|u us IH]; intros i byte sb He Hs; cbn [char_range_loop length].
  - replace (e <? i + Z.of_nat 0) with false by lia. destruct (i <=? s) eqn:Ei; [|done]. by replace (s <? i + Z.of_nat 0) with false by lia.
  - destruct (i =? e) eqn:Ee.
    + assert (i = e) as <- by lia. rewrite Z.sub_diag, offset_0, Nat.add_0_r.
      replace (i <? i + Z.of_nat (S (length us))) with true by lia. destruct (i =? s) eqn:Ei.
      * assert (i = s) as <- by lia. replace (i <=? i) with true by lia. replace (i <? i + Z.of_nat (S (length us))) with true by lia.
        by rewrite Z.sub_diag, offset_0, Nat.add_0_r.
      * by replace (i <=? s) with false by lia.
    + rewrite IH by lia. replace (Z.to_nat (e - i)) with (S (Z.to_nat (e - (i + 1)))) by lia. rewrite !offset_cons, !Nat.add_assoc.
      replace (i + 1 + Z.of_nat (length us)) with (i + Z.of_nat (S (length us))) by lia.
      destruct (i =? s) eqn:Ei.
      * assert (i = s) as <- by lia. replace (i + 1 <=? i) with false by lia. replace (i <=? i) with true by lia.
        replace (i <? i + Z.of_nat (S (length us))) with true by lia. by rewrite Z.sub_diag, offset_0, Nat.add_0_r.
      * destruct (i <=? s) eqn:El.
        -- replace (i + 1 <=? s) with true by lia. replace (Z.to_nat (s - i)) with (S (Z.to_nat (s - (i + 1)))) by lia.
           by rewrite offset_cons, Nat.add_assoc.
        -- by replace (i + 1 <=? s) with false by lia.
Qed.

(** Positions of characters as positions of bytes; past the end, the end. *)
Lemma char_range_spec us s e :
  0 <= s <= e -> s <= Z.of_nat (length us) ->
  char_range_to_byte_range us s e = (offset us (Z.to_nat s), offset us (Z.to_nat (Z.min e (Z.of_nat (length us))))).
Proof.
  intros Hs Hl. unfold char_range_to_byte_range. rewrite char_range_loop_spec by lia. rewrite !Z.sub_0_r, !Z.add_0_l, !Nat.add_0_l.
  replace (0 <=? s) with true by lia. cbn [andb].
  destruct (s =? Z.of_nat (length us)) eqn:E1, (e =? Z.of_nat (length us)) eqn:E2;
    destruct (s <? Z.of_nat (length us)) eqn:E3, (e <? Z.of_nat (length us)) eqn:E4; try lia;
    f_equal; rewrite ?Z.min_l, ?Z.min_r by lia; try (replace s with (Z.of_nat (length us)) by lia);
    rewrite ?Nat2Z.id, ?offset_all; try done; by replace e with (Z.of_nat (length us)) by lia; rewrite Nat2Z.id, offset_all.
Qed.

Lemma slice_offsets us i j : (i <= j)%nat -> slice (concat us) (offset us i) (offset us j) = concat (slice us i j).
Proof.
  intros Hij. unfold slice, offset.
  assert (Hj : take j us = take i us ++ take (j - i) (drop i us)).
  { rewrite take_take_drop. f_equal. lia. }
  rewrite Hj, concat_app, length_app.
  replace (length (concat (take i us)) + length (concat (take (j - i) (drop i us))) - length (concat (take i us)))%nat
    with (length (concat (take (j - i) (drop i us)))) by lia.
  assert (Hc : concat us = concat (take i us) ++ concat (take (j - i) (drop i us)) ++ concat (drop (j - i) (drop i us)))
    by (rewrite <- !concat_app; by rewrite !take_drop).
  rewrite Hc at 1. by rewrite drop_app_length, take_app_length.
Qed.

(** The units a substring counts: characters of UTF-8 text in a UTF-8 locale, else bytes. *)
Definition units (utf8 : bool) (v : bytes) : list bytes :=
  match chars v with Some cs => if utf8 then cs else map (fun b => [b]) v | None => map (fun b => [b]) v end.

Lemma concat_units utf8 v : concat (units utf8 v) = v.
Proof.
  assert (Hb : forall v : bytes, concat (map (fun b => [b]) v) = v) by (induction v0 as [|b v0 IHv]; simpl; [done|by rewrite IHv]).
  unfold units. destruct (chars v) as [cs|] eqn:Ec; [|done]. destruct utf8; [|done]. by apply utf8_chars_concat in Ec.
Qed.

(** Where a substring starts, and how many units it has. *)
Definition substring_start (n off : Z) : Z := if off <? 0 then Z.max (n + off) 0 else Z.min off n.
Definition substring_count (n start : Z) (len : option Z) : Z :=
  match len with None => n - start | Some l => if l <? 0 then Z.max (n + l - start) 0 else l end.

Definition substring_spec (us : list bytes) (off : Z) (len : option Z) : bytes :=
  let n := Z.of_nat (length us) in
  let start := substring_start n off in
  concat (take (Z.to_nat (substring_count n start len)) (drop (Z.to_nat start) us)).

(** The end of the substring exceeds the 64 bits of its computation. *)
Definition end_overflows (n off : Z) (len : option Z) : bool :=
  match len with Some l => 2 ^ 63 <=? substring_start n off + l | None => false end.

Definition i64_opt (len : option Z) : Prop := match len with Some l => in_i64 l | None => True end.

(** The computed range, where nothing overflows. *)
Lemma substring_range_spec n off len :
  0 <= n < 2 ^ 63 -> in_i64 off -> i64_opt len -> end_overflows n off len = false ->
  let start := substring_start n off in
  substring_range n off len = (start, Z.min (start + substring_count n start len) n) /\ 0 <= start <= n /\ 0 <= substring_count n start len.
Proof.
  intros Hn Ho Hl Hov start. unfold i64_opt, in_i64, i64_min, i64_max in *.
  assert (Hs : 0 <= start <= n) by (unfold start, substring_start; destruct (off <? 0) eqn:Eo; lia).
  unfold end_overflows in Hov. unfold substring_range. fold (substring_start n off). fold start.
  replace (start <? 0) with false by lia. unfold substring_count.
  destruct len as [l|]; [|split_and!; [f_equal; lia|lia..]].
  fold start in Hov. destruct (l <? 0) eqn:El; [split_and!; [f_equal; lia|lia..]|].
  rewrite wrap64_id by (unfold in_i64, i64_min, i64_max; lia). split_and!; [done|lia..].
Qed.

(** Where it overflows, the end is past every text. *)
Lemma substring_range_overflow n off len :
  0 <= n < 2 ^ 63 -> in_i64 off -> i64_opt len -> end_overflows n off len = true ->
  (substring_range n off len).1 = substring_start n off /\ 0 <= substring_start n off <= n
  /\ 2 ^ 63 <= u64 (substring_range n off len).2 /\ n < substring_start n off + substring_count n (substring_start n off) len.
Proof.
  intros Hn Ho Hl Hov. unfold i64_opt, in_i64, i64_min, i64_max in *. set (start := substring_start n off) in *.
  assert (Hs : 0 <= start <= n) by (unfold start, substring_start; destruct (off <? 0) eqn:Eo; lia).
  unfold end_overflows in Hov. destruct len as [l|]; [|done]. fold start in Hov.
  unfold substring_range. fold (substring_start n off). fold start. replace (start <? 0) with false by lia.
  unfold substring_count. replace (l <? 0) with false by lia. cbn [fst snd].
  assert (Hw : wrap64 (start + l) = start + l - 2 ^ 64).
  { rewrite (wrap64_congr _ (start + l - 2 ^ 64)); [apply wrap64_id; unfold in_i64, i64_min, i64_max; lia|].
    replace (start + l) with (start + l - 2 ^ 64 + 1 * 2 ^ 64) at 1 by lia. by rewrite Z_mod_plus_full. }
  rewrite Hw, Z.min_l by lia. split_and!; [done|lia|lia| |lia].
  unfold u64. replace (start + l - 2 ^ 64) with (start + l + (-1) * 2 ^ 64) by lia.
  rewrite Z_mod_plus_full, Z.mod_small; lia.
Qed.

Section Operators.
Context {E : Type} `{Environment E} `{Parameters E} `{Arrays E} `{Casing} `{WordExpansion E}.

Lemma fast_value_ends name (c : ExpCtx E) : (fast_value name c).1 <> Fuel.
Proof.
  unfold fast_value, read_plain_scalar, bound, get, bind, asks, ret, fail. destruct name as [|first name]; [done|].
  destruct (_ || _); [done|]. destruct (env_attr_nameref _ _); [done|]. destruct (env_get _ _) as [v e].
  by destruct (_ && _).
Qed.

(** A name, then an operator byte. *)
Lemma parameter_name_op body name op word :
  is_name_start (default 0 (head body)) = true -> span is_name_byte body = (name, op :: word) -> (op =? "["%b) = false ->
  parameter_name body = (name, op :: word) /\ name <> [] /\ utf8_or_empty name = name /\ body !! 0%nat = name !! 0%nat.
Proof.
  intros Hs Hsp Hop. unfold parameter_name. rewrite Hsp. cbv beta iota. rewrite Hop.
  assert (Hn : name <> [] /\ body !! 0%nat = name !! 0%nat).
  { destruct body as [|b body]; [done|]. cbn [head default span] in *. unfold is_name_byte in Hsp. cbn in Hs. rewrite Hs in Hsp. cbn [orb] in Hsp.
    destruct (span _ body). by injection Hsp as <- _. }
  destruct Hn as [Hne Hhd]. pose proof (span_all is_name_byte body) as Ha. rewrite Hsp in Ha.
  assert (is_nil name = false) as -> by (by destruct name). split_and!; [done|done|by apply name_text|done].
Qed.

(** [${name op word}] reaches its operator. *)
Lemma brace_body_operator body name op word quoted out (c : ExpCtx E) :
  is_name_start (default 0 (head body)) = true -> span is_name_byte body = (name, op :: word) ->
  (op =? "#"%b) || (op =? "%"%b) || (op =? "/"%b) = true ->
  expand_brace_body body quoted out c
  = match pattern_operator name op word quoted out with Some m => m c | None => (Err (bad_substitution_body body), c) end.
Proof.
  intros Hs Hsp Hop.
  assert (Hb : (op =? "["%b) = false /\ (op =? ":"%b) = false /\ is_default_op op = false /\ (op =? "@"%b) = false)
    by (unfold is_default_op; rewrite !orb_true_iff, !Z.eqb_eq in Hop; destruct Hop as [[->| ->]| ->]; done).
  destruct Hb as (Hb & Hcol & Hdef & Hat).
  destruct (parameter_name_op _ _ _ _ Hs Hsp Hb) as (Hpn & Hne & Hu & Hhd).
  destruct body as [|b0 r0]; [done|]. cbn [head default] in Hs. destruct name as [|n0 name]; [done|]. injection Hhd as <-.
  assert (Hns : (b0 =? "#"%b) = false /\ (b0 =? "!"%b) = false /\ (b0 =? "$"%b) = false).
  { split_and!; apply Z.eqb_neq; intros ->; by vm_compute in Hs. }
  destruct Hns as (N1 & N2 & N3). unfold expand_brace_body, bind, asks. rewrite N1, N2. cbn [andb].
  assert (Ha : ansi_c_quoted_parameter_name (b0 :: r0) c = (Ok None, c)).
  { unfold ansi_c_quoted_parameter_name, bind, asks, ret. change (bs "$'") with ["$"%b; "'"%b]. cbn [starts_with].
    rewrite (Z.eqb_sym _ b0), N3. cbn [andb negb]. by rewrite orb_true_r. }
  rewrite Ha, Hpn, Hu. cbn [is_nil]. unfold expand_operator. rewrite Hcol, Hdef, Hat.
  assert (Hh : bytes_eqb (b0 :: name) (bs "#") = false) by (change (bs "#") with ["#"%b]; cbn [bytes_eqb]; by rewrite N1).
  rewrite Hh. cbn [andb]. by destruct (pattern_operator _ _ _ _ _).
Qed.

(** The operator of the fast path on a value it read. *)
Lemma fast_remove name pat opts prefix longest out (c : ExpCtx E) :
  opts = pattern_match_opts (env c) -> is_Some (raw_literal_pattern pat opts) ->
  match fast_value name c with
  | (Ok (Some v), c') => handle_remove name pat prefix longest false out c = (Ok (push_raw out (literal_remove v pat prefix)), c')
  | (Ok None, _) => True
  | (Err e, c') => handle_remove name pat prefix longest false out c = (Err e, c')
  | (Fuel, _) => False
  end.
Proof.
  intros -> [p Hp]. pose proof Hp as (-> & Hne & Hn & _)%raw_literal_some.
  assert (Hp' : raw_literal_pattern pat (mkOpts false (extglob (pattern_match_opts (env c))) (globasciiranges (pattern_match_opts (env c)))) = Some pat).
  { rewrite <- Hp. unfold raw_literal_pattern. cbn [nocaseglob extglob]. by rewrite Hn. }
  pose proof (fast_value_ends name c) as Hf. unfold handle_remove, bind, asks. cbv beta iota zeta. rewrite Hp'. cbv beta iota.
  destruct (fast_value name c) as [[[v|]|e|] c'] eqn:Ef; try done; by destruct Hf.
Qed.

Lemma fast_substitute name w opts out (c : ExpCtx E) :
  opts = pattern_match_opts (env c) -> env_option (env c) (bs "patsub_replacement") = false ->
  let '(pat, rep) := match find_byte "/"%b w with Some sep => (take sep w, drop (sep + 1) w) | None => (w, []) end in
  is_Some (raw_literal_pattern pat opts) -> is_Some (raw_literal_replacement rep) ->
  match fast_value name c with
  | (Ok (Some v), c') => handle_patsub name ("/"%b :: w) false out c = (Ok (push_raw out (literal_substitute v pat rep All)), c')
  | (Ok None, _) => True
  | (Err e, c') => handle_patsub name ("/"%b :: w) false out c = (Err e, c')
  | (Fuel, _) => False
  end.
Proof.
  intros -> Hps. pose proof (patsub_parts_plain w (pattern_match_opts (env c))) as Hparts.
  destruct (match find_byte "/"%b w with Some sep => _ | None => _ end) as [pat rep] eqn:Es.
  intros [p Hp] [q Hq]. specialize (Hparts p Hp). pose proof Hp as (-> & _)%raw_literal_some.
  pose proof Hq as (-> & _)%raw_plain_some.
  pose proof (fast_value_ends name c) as Hf. unfold handle_patsub, bind, asks. rewrite Hparts. cbv beta iota zeta. rewrite Hps. cbn [negb andb].
  rewrite Hp, Hq. cbv beta iota. destruct (fast_value name c) as [[[v|]|e|] c'] eqn:Ef; try done; by destruct Hf.
Qed.

(** C37: The textual fast path of an unquoted [${name#pat}], [${name%pat}] or [${name//pat/rep}]
    is sound: where [simple_brace_body] finds a body the full scanner finds the same one, and
    where [try_fast_literal_brace_body_bytes] answers, with a value or with the error of an
    unset variable, the general expansion of the body gives that answer and leaves the same
    context. *)
Theorem fast_path_equivalent (s : bytes) (out : ExpandBuf) (c : ExpCtx E) :
  match simple_brace_body s with
  | Some (body, rest) =>
      extract_brace_body false s = Ok (body, rest)
      /\ match try_fast_literal_brace_body_bytes body c with
         | (Ok (Some v), c') => expand_brace_body body false out c = (Ok (push_raw out v), c')
         | (Ok None, _) => True
         | (Err e, c') => expand_brace_body body false out c = (Err e, c')
         | (Fuel, _) => False
         end
  | None => True
  end.
Proof.
  destruct (simple_brace_body s) as [[body rest]|] eqn:Es; [|done]. split.
  { unfold extract_brace_body. rewrite (simple_body_scanned _ _ _ _ _ _ _ Es) by (unfold scan_fuel; lia). done. }
  unfold try_fast_literal_brace_body_bytes. destruct body as [|first body]; [done|].
  destruct (is_name_start first) eqn:Hst; [|done]. cbn [negb].
  destruct (span is_name_byte (first :: body)) as [name [|op word]] eqn:Hsp; [done|].
  assert (Hop := fun Hop => brace_body_operator (first :: body) name op word false out c Hst Hsp Hop).
  unfold bind at 1, asks at 1. destruct ((op =? "#"%b) || (op =? "%"%b)) eqn:E1.
  - rewrite Hop by done. clear Hop. set (twice := match word with b :: _ => b =? op | [] => false end).
    destruct (raw_literal_pattern _ _) as [p|] eqn:Er; [|done]. pose proof Er as (-> & _)%raw_literal_some.
    pose proof (fast_remove name (if twice then drop 1 word else word) _ (op =? "#"%b) twice out c eq_refl ltac:(by eexists)) as Hr.
    assert (Hpo : pattern_operator name op word false out = Some (handle_remove name (if twice then drop 1 word else word) (op =? "#"%b) twice false out)).
    { unfold pattern_operator. fold twice. apply orb_true_iff in E1 as [->| E1]; [done|]. rewrite E1. apply Z.eqb_eq in E1 as ->. done. }
    rewrite Hpo. unfold bind. destruct (fast_value name c) as [[[v|]|e|] c'] eqn:Ef; done.
  - destruct ((op =? "/"%b) && _) eqn:E2; [|done]. apply andb_true_iff in E2 as [Eop Etw].
    rewrite Hop by (rewrite Eop; by rewrite orb_true_r). clear Hop. apply Z.eqb_eq in Eop as ->.
    destruct word as [|w0 word]; [done|]. apply Z.eqb_eq in Etw as ->. cbn [drop].
    unfold bind at 1, asks at 1. destruct (env_option (env c) (bs "patsub_replacement")) eqn:Eps; [done|].
    pose proof (fast_substitute name word _ out c eq_refl Eps) as Hr.
    destruct (match find_byte "/"%b word with Some sep => _ | None => _ end) as [pat rep].
    destruct (raw_literal_pattern pat _) as [p|] eqn:Er; [|done]. destruct (raw_literal_replacement rep) as [q|] eqn:Eq; [|done].
    specialize (Hr ltac:(by eexists) ltac:(by eexists)). pose proof Er as (-> & _)%raw_literal_some. pose proof Eq as (-> & _)%raw_plain_some.
    change (pattern_operator name "/"%b ("/"%b :: word) false out) with (Some (handle_patsub name ("/"%b :: word) false out)). cbv iota.
    unfold bind. destruct (fast_value name c) as [[[v|]|e|] c'] eqn:Ef; done.
Qed.

(** A slice of the units between two of their positions. *)
Lemma slice_checked_units us (start end_ : Z) (c : ExpCtx E) :
  0 <= start <= end_ -> end_ <= Z.of_nat (length us) -> Z.of_nat (length (concat us)) < 2 ^ 63 ->
  slice_checked (concat us) (Z.of_nat (offset us (Z.to_nat start))) (Z.of_nat (offset us (Z.to_nat end_))) c
  = (Ok (concat (slice us (Z.to_nat start) (Z.to_nat end_))), c).
Proof.
  intros Hs He Hl. unfold slice_checked, u64.
  assert (Hle : (offset us (Z.to_nat start) <= offset us (Z.to_nat end_))%nat).
  { unfold offset. replace (Z.to_nat end_) with (Z.to_nat start + (Z.to_nat end_ - Z.to_nat start))%nat by lia.
    rewrite <- take_take_drop, concat_app, length_app. lia. }
  assert (Hle2 : (offset us (Z.to_nat end_) <= length (concat us))%nat).
  { unfold offset. rewrite <- (take_drop (Z.to_nat end_) us) at 2. rewrite concat_app, length_app. lia. }
  rewrite !Z.mod_small by lia.
  replace (Z.of_nat (offset us (Z.to_nat start)) <=? Z.of_nat (offset us (Z.to_nat end_))) with true by lia.
  replace (Z.of_nat (offset us (Z.to_nat end_)) <=? Z.of_nat (length (concat us))) with true by lia. cbn [andb].
  by rewrite !Nat2Z.id, slice_offsets by lia.
Qed.

Lemma offset_bytes (v : bytes) k : (k <= length v)%nat -> offset (map (fun b => [b]) v) k = k.
Proof.
  revert k. induction v as [|b v IH]; intros [|k] Hk; cbn [length] in Hk; try done; try lia.
  cbn [map]. rewrite offset_cons, IH by lia. done.
Qed.

Lemma take_min us k s : take (Z.to_nat (Z.min (s + k) (Z.of_nat (length us))) - Z.to_nat s) (drop (Z.to_nat s) us) = take (Z.to_nat k) (drop (Z.to_nat s) (us : list bytes)) \/ s < 0 \/ k < 0.
Proof.
  destruct (decide (s < 0)); [by right; left|]. destruct (decide (k < 0)); [by right; right|]. left.
  destruct (decide (s + k <= Z.of_nat (length us))).
  - rewrite Z.min_l by lia. f_equal. lia.
  - rewrite Z.min_r by lia. rewrite !take_ge; [done|rewrite length_drop; lia..].
Qed.

(** The text between the ends of the range. *)
Lemma spec_slice us off len : 0 <= substring_start (Z.of_nat (length us)) off ->
  0 <= substring_count (Z.of_nat (length us)) (substring_start (Z.of_nat (length us)) off) len ->
  concat (slice us (Z.to_nat (substring_start (Z.of_nat (length us)) off))
            (Z.to_nat (Z.min (substring_start (Z.of_nat (length us)) off
                              + substring_count (Z.of_nat (length us)) (substring_start (Z.of_nat (length us)) off) len)
                         (Z.of_nat (length us)))))
  = substring_spec us off len.
Proof.
  intros Hs Hc. unfold slice, substring_spec.
  destruct (take_min us (substring_count (Z.of_nat (length us)) (substring_start (Z.of_nat (length us)) off) len)
              (substring_start (Z.of_nat (length us)) off)) as [->|[|]]; [done|lia|lia].
Qed.

Lemma utf8_chars_length fuel s cs : utf8_chars fuel s = Some cs -> (length cs <= length s)%nat.
Proof.
  revert s cs. induction fuel as [|fuel IH]; intros [|b s] cs; cbn [utf8_chars]; try (by intros [= <-]).
  destruct (utf8_seq (b :: s)) as [k|] eqn:Hk; [|done]. pose proof (utf8_seq_bounds _ _ Hk).
  destruct (utf8_chars fuel (drop k (b :: s))) as [cs'|] eqn:Hc; [|done]. intros [= <-]. apply IH in Hc. rewrite length_drop in Hc.
  cbn [length] in *. lia.
Qed.

Lemma units_length utf8 v : (length (units utf8 v) <= length v)%nat.
Proof.
  unfold units. destruct (chars v) as [cs|] eqn:Ec; [destruct utf8|]; rewrite ?length_map; try done. by eapply utf8_chars_length.
Qed.

(** C36: [${name:offset:length}] of a scalar takes the characters it says, of text in UTF-8 in a
    UTF-8 locale, and bytes otherwise: a negative offset counts from the end and stops at the
    start, a negative length is a position from the end, and nothing is read past the end.
    Offset and length are 64-bit integers, already evaluated, the value is shorter than 2^63
    bytes, and asking for the locale changes nothing. The one exception is where the sum of
    start and length exceeds 64 bits and bytes are counted: the program panics. *)
Theorem substring_correct (out : ExpandBuf) (value : bytes) (off : Z) (len : option Z) (quoted : bool) (c : ExpCtx E) (utf8 : bool)
    (Hlocale : locale_is_utf8 c = (Ok utf8, c)) (Hoff : in_i64 off) (Hlen : i64_opt len)
    (Hsize : Z.of_nat (length (value_bytes value)) < 2 ^ 63) :
  let v := value_bytes value in
  let us := units utf8 v in
  push_scalar_substring out value off len quoted c
  = if end_overflows (Z.of_nat (length us)) off len && negb (utf8 && bool_decide (is_Some (chars v)))
    then (Fuel, c) else (Ok (push_value out (substring_spec us off len) quoted), c).
Proof.
  intros v us. pose proof (concat_units utf8 v) as Hcat. fold us in Hcat.
  unfold push_scalar_substring, bind. rewrite Hlocale. fold v.
  assert (Hn : Z.of_nat (match chars v with Some cs => if utf8 then length cs else length v | None => length v end) = Z.of_nat (length us)).
  { unfold us, units. destruct (chars v), utf8; by rewrite ?length_map. }
  rewrite Hn. set (n := Z.of_nat (length us)).
  assert (Hn63 : 0 <= n < 2 ^ 63) by (pose proof (units_length utf8 v); unfold n, us; unfold v in *; lia).
  destruct (substring_range n off len) as [st en] eqn:Er. rewrite Hlocale.
  assert (Hmode : utf8 && bool_decide (is_Some (chars v)) = true /\ chars v = Some us
                  \/ utf8 && bool_decide (is_Some (chars v)) = false /\ us = map (fun b => [b]) v).
  { unfold us, units. destruct (chars v), utf8; [left| right..]; split; try done; by case_bool_decide. }
  assert (Hsame : utf8 && bool_decide (is_Some (chars v)) = false -> forall A (a : list bytes -> A) (b : A),
                    match chars v with Some cs => if utf8 then a cs else b | None => b end = b).
  { intros Hm A a b. destruct (chars v); [|done]. destruct utf8; [|done]. cbn [andb] in Hm.
    rewrite bool_decide_eq_false in Hm. by destruct Hm; eexists. }
  destruct (end_overflows n off len) eqn:Eov; cbn [andb].
  - destruct (substring_range_overflow n off len Hn63 Hoff Hlen Eov) as (Hst & Hs & Hen & Hover). rewrite Er in Hst, Hen. cbn [fst snd] in *.
    subst st. destruct Hmode as [[Hm Hch]|[Hm Hus]]; rewrite Hm; cbn [negb].
    + apply andb_true_iff in Hm as [-> _]. rewrite Hch, char_range_spec by (unfold u64 in *; rewrite ?Z.mod_small by lia; lia).
      unfold u64 at 1. rewrite Z.mod_small by lia. rewrite Z.min_r by (unfold n in *; lia). rewrite <- Hcat at 1.
      rewrite slice_checked_units by (rewrite ?Hcat; unfold n, v in *; lia).
      rewrite <- spec_slice by (unfold n in *; lia). fold n. rewrite (Z.min_r _ n) by lia. done.
    + rewrite (Hsame Hm _ (fun cs => let '(s, e) := char_range_to_byte_range cs (u64 _) (u64 _) in (Z.of_nat s, Z.of_nat e))). unfold slice_checked. replace (u64 en <=? Z.of_nat (length v)) with false by (unfold v in *; lia).
      by rewrite andb_false_r.
  - destruct (substring_range_spec n off len Hn63 Hoff Hlen Eov) as (Hr & Hs & Hc). rewrite Er in Hr. injection Hr as -> ->.
    set (st := substring_start n off) in *. set (en := Z.min (st + substring_count n st len) n).
    assert (Hse : 0 <= st <= en /\ en <= n) by lia.
    assert (Hpair : match chars v with
                    | Some cs => if utf8 then let '(s, e) := char_range_to_byte_range cs (u64 st) (u64 en) in (Z.of_nat s, Z.of_nat e) else (st, en)
                    | None => (st, en)
                    end = (Z.of_nat (offset us (Z.to_nat st)), Z.of_nat (offset us (Z.to_nat en)))).
    { destruct Hmode as [[Hm Hch]|[Hm Hus]].
      - apply andb_true_iff in Hm as [-> _]. rewrite Hch. unfold u64. rewrite !Z.mod_small, char_range_spec by (unfold n in *; lia).
        by rewrite Z.min_l by (unfold n in *; lia).
      - rewrite Hus, !offset_bytes by (unfold n in *; rewrite Hus, length_map in *; lia). rewrite !Z2Nat.id by lia.
        by rewrite (Hsame Hm _ (fun cs => let '(s, e) := char_range_to_byte_range cs (u64 _) (u64 _) in (Z.of_nat s, Z.of_nat e))). }
    rewrite Hpair. rewrite <- Hcat at 1. rewrite slice_checked_units by (rewrite ?Hcat; unfold n, v in *; lia).
    by rewrite <- spec_slice by (unfold st, n in *; lia).
Qed.

(** ** Defaults *)

(** A variable that is neither an array nor a reference, and reading it changes nothing. *)
Record plain_variable (e : E) (name : bytes) (v : option bytes) : Prop := {
  pv_name : is_valid_name_str name = true;
  pv_reference : env_attr_nameref e name = false;
  pv_kind : env_kind e name = match v with Some _ => KScalar | None => KUnset end;
  pv_get : env_get e name = (v, e);
}.

Lemma name_not name s : is_valid_name_str name = true -> is_valid_name_str (bs s) = false -> bytes_eqb name (bs s) = false.
Proof. intros Hn Hs. apply not_true_iff_false. intros ->%bytes_eqb_eq. congruence. Qed.

Lemma name_bytes name : is_valid_name_str name = true -> forallb is_name_byte name = true.
Proof.
  destruct name as [|b r]; [done|]. cbn [is_valid_name_str forallb]. unfold is_name_byte at 2. by intros [-> ->]%andb_true_iff.
Qed.

Lemma name_no_bracket name : is_valid_name_str name = true -> find_byte "["%b name = None.
Proof.
  intros Hn%name_bytes. pose proof (find_byte_first "["%b name) as Hf. destruct (find_byte "["%b name) as [k|]; [|done].
  destruct Hf as [Hk _]. rewrite forallb_forall in Hn. apply list_elem_of_lookup_2, list_elem_of_In, Hn in Hk. done.
Qed.

Lemma name_not_number name : is_valid_name_str name = true -> parse_usize name = None.
Proof.
  destruct name as [|b r]; [done|]. cbn [is_valid_name_str]. intros [Hb _]%andb_true_iff. unfold parse_usize.
  assert (Hd : is_ascii_digit b = false) by (unfold is_name_start, is_ascii_alphabetic, is_ascii_lower, is_ascii_upper, is_ascii_digit, in_range in *; lia).
  assert (Hp : b <> 43) by (by intros ->).
  assert (Hs : match b :: r with "+"%b :: d => d | _ => b :: r end = b :: r) by (repeat case_match; by simplify_eq).
  rewrite Hs. cbn [dec_value]. by rewrite Hd.
Qed.

Section PlainVariable.
Context (c : ExpCtx E) (name : bytes) (v : option bytes) (Hv : plain_variable (env c) name v).

Lemma plain_with_env : with_env (env c) c = c.
Proof. by destruct c. Qed.

Lemma plain_get : get name c = (Ok v, c).
Proof. unfold get. by rewrite (pv_get _ _ _ Hv), plain_with_env. Qed.

Lemma plain_resolve : nameref_resolve (env c) name = Some name.
Proof. unfold nameref_resolve. by rewrite (pv_reference _ _ _ Hv). Qed.

Lemma plain_split : split_subscript name = None /\ array_all_ref name = None.
Proof. unfold split_subscript, array_all_ref. by rewrite (name_no_bracket _ (pv_name _ _ _ Hv)). Qed.

Lemma plain_is_set : parameter_is_set name c = (Ok (bool_decide (is_Some v)), c).
Proof.
  pose proof (pv_name _ _ _ Hv) as Hn. destruct plain_split as [Hs Ha].
  unfold parameter_is_set, is_all, one_of. cbn [existsb]. rewrite !(name_not name) by done. cbn [orb].
  rewrite (name_not_number _ Hn), Ha, Hs.
  unfold unresolved_nameref, resolve_or, kind, bind, asks, ret. cbv beta iota. rewrite (pv_reference _ _ _ Hv). cbn [andb]. cbv beta iota. rewrite plain_resolve. cbn [from_option id].
  rewrite bytes_eqb_refl. cbn [negb andb]. cbv beta iota. rewrite (pv_kind _ _ _ Hv).
  pose proof plain_get as Hg. destruct v; [by rewrite Hg|done].
Qed.

Lemma plain_read s : v = Some s -> read_value name c = (Ok (VScalar s), c).
Proof.
  intros Hs. pose proof (pv_name _ _ _ Hv) as Hn. destruct plain_split as [Hsp _].
  assert (Hspecial : special_param name c = (Ok None, c)) by (unfold special_param; by rewrite !(name_not name) by done).
  assert (Hpos : read_positional name c = (Ok None, c)).
  { unfold read_positional, bind, asks. rewrite (name_not name) by done. cbn [andb]. by rewrite Hspecial, (name_not_number _ Hn). }
  unfold read_value. rewrite !(name_not name) by done. unfold bind at 1. rewrite Hpos, Hsp.
  unfold resolve_checked, bind at 1, asks at 1. rewrite plain_resolve, bytes_eqb_refl.
  unfold read_variable, kind, bind, asks, ret. rewrite (pv_kind _ _ _ Hv), Hs. cbv beta iota.
  destruct (eval_unbound_error c); [rewrite plain_get; cbv beta iota; rewrite Hs, bool_decide_false by done|]; cbv beta iota; by rewrite plain_get, Hs.
Qed.

Definition unset_or_null (colon : bool) : bool :=
  match v with None => true | Some s => colon && is_nil s end.

Lemma plain_null_test colon :
  exists cached, (cached = None \/ cached = VScalar <$> v)
    /\ null_test name (bool_decide (is_Some v)) colon None c = (Ok (unset_or_null colon, cached), c).
Proof.
  pose proof plain_read as Hr. unfold null_test, unset_or_null. destruct v as [s|].
  - rewrite bool_decide_true by eauto. cbn [negb]. destruct colon; [|exists None; by split; [left|]].
    exists (Some (VScalar s)). split; [by right|]. unfold read_value_cached, bind. by rewrite (Hr s eq_refl).
  - exists None. split; [by left|]. by rewrite bool_decide_false by (by intros []).
Qed.

Lemma plain_push cached quoted out s :
  v = Some s -> cached = None \/ cached = VScalar <$> v -> push_cached name cached quoted out c = (Ok (push_value out s quoted), c).
Proof.
  intros Hs Hc. unfold push_cached, bind. assert (read_value_cached name cached c = (Ok (VScalar s), c)) as ->; [|done].
  destruct Hc as [->| ->]; [by apply plain_read|by rewrite Hs].
Qed.

(** [${name op word}] for an ordinary variable follows the table of POSIX: the
    operators without colon test whether it is set, those with colon also whether it
    is empty; [-] and [=] expand to the value where the test passes and to (or assign)
    the word otherwise, [+] the other way round, and [?] fails with its message.  An
    unset variable is no error here, [set -u] or not. *)
Theorem default_operators_table (op : Z) (colon : bool) (word : bytes) (quoted : bool) (out : ExpandBuf) :
  handle_default_alt name op colon word quoted out c
  = if unset_or_null colon then
      if op =? "-"%b then push_default word quoted out c
      else if op =? "+"%b then (Ok (if quoted then push_quoted_null out else out), c)
      else if op =? "="%b then assign_default name word quoted out true c
      else (msg <- unset_message word quoted (if colon then [] else bs "parameter not set") ;; fail (UnboundColonError name msg)) c
    else if op =? "+"%b then push_default word quoted out c
    else (Ok (push_value out (default [] v) quoted), c).
Proof.
  destruct plain_split as [Hs Ha]. pose proof plain_is_set as His. destruct (plain_null_test colon) as (cached & Hc & Hnull).
  pose proof plain_push as Hpush. unfold unset_or_null in *.
  unfold handle_default_alt, read_element_value_if_set, bind at 1. rewrite Hs. cbv beta iota zeta delta [ret].
  unfold bind at 1. rewrite His. unfold bind at 1. rewrite Hnull.
  unfold quoted_at_alternate_has_no_fields. rewrite Ha, (name_not name) by apply Hv || done. cbn [orb]. rewrite andb_false_r, andb_true_r.
  destruct (op =? "-"%b) eqn:E1, (op =? "+"%b) eqn:E2; [lia| | |destruct (op =? "="%b) eqn:E3];
    (destruct v as [s|]; cbn [default from_option id]; [|done]; destruct (colon && is_nil s); [done|]);
    try done; apply (Hpush cached quoted out s eq_refl Hc).
Qed.
End PlainVariable.
End Operators.

(** * The operators at work *)

Module ParamExample.
#[global] Instance test_arrays : Arrays TestEnv := {
  env_attrs _ _ := 0;
  env_nameref_target _ _ := None;
  env_array_all e n := (map_to_list <$> MapEnv.arrays (t_vars e) !! n, e);
  env_array_keys e n := ((fun a => map fst (map_to_list a)) <$> MapEnv.arrays (t_vars e) !! n, e);
  env_array_len e n := (default 0%nat (size <$> MapEnv.arrays (t_vars e) !! n), e);
  env_array_max_index e n := ((fun a : gmap Z bytes => fold_left Z.max (map fst (map_to_list a)) 0) <$> MapEnv.arrays (t_vars e) !! n, e);
  env_assoc_all _ _ := None;
  env_assoc_keys _ _ := None;
  env_assoc_len _ _ := 0%nat;
  env_names_with_prefix e p := List.filter (starts_with p) (map fst (map_to_list (MapEnv.vars (t_vars e))));
}.

(** Numbers only. *)
#[global] Instance test_words : WordExpansion TestEnv := {
  word_internal := expand_word_internal;
  eval_preexpanded s := match parse_i64 (trim s) with Some z => ret z | None => fail (ArithSyntax s) end;
  handle_transform _ _ _ _ := unavailable;
  current_substitute _ _ _ := unavailable;
}.

#[global] Instance test_casing : Casing := {
  str_to_uppercase := map to_ascii_uppercase;
  str_to_lowercase := map to_ascii_lowercase;
  char_is_alphabetic := is_ascii_alphabetic;
  char_to_uppercase c := [to_ascii_uppercase c];
  char_to_lowercase c := [to_ascii_lowercase c];
}.

Definition sample : ExpCtx TestEnv :=
  mkCtx (mkTest (MapEnv.set (MapEnv.set MapEnv.empty (bs "x") (bs "a/b/c")) (bs "n") []) [bs "one"; bs "two"])
    (from_env None) 0 0 false false false true false false 0 [].

Definition expansion (body : string) : option bytes :=
  match expand_brace_body (bs body) false ExpandBuf_new sample with (Ok b, _) => Some (dequote_bytes (buf_bytes b)) | _ => None end.

Example operators_at_work :
  expansion "x" = Some (bs "a/b/c") /\ expansion "x#*/" = Some (bs "b/c") /\ expansion "x##*/" = Some (bs "c")
  /\ expansion "x%/*" = Some (bs "a/b") /\ expansion "x//\//:" = Some (bs "a:b:c") /\ expansion "x/#a/A" = Some (bs "A/b/c")
  /\ expansion "x^^" = Some (bs "A/B/C") /\ expansion "#x" = Some (bs "5") /\ expansion "x:2:1" = Some (bs "b")
  /\ expansion "x: -1" = Some (bs "c") /\ expansion "y-z" = Some (bs "z") /\ expansion "n-z" = Some []
  /\ expansion "n:-z" = Some (bs "z") /\ expansion "@:2" = Some (bs "two") /\ expansion "#" = Some (bs "2")
  /\ expansion "y?gone" = None.
Proof. vm_compute. repeat split. Qed.

Lemma substring_correct_witness :
  push_scalar_substring ExpandBuf_new (bs "a/b/c") 2 (Some (-1)) false sample
  = (Ok (push_value ExpandBuf_new (bs "b/") false), sample).
Proof.
  rewrite (substring_correct ExpandBuf_new (bs "a/b/c") 2 (Some (-1)) false sample false).
  - vm_compute. reflexivity.
  - vm_compute. reflexivity.
  - unfold in_i64, i64_min, i64_max. lia.
  - unfold i64_opt, in_i64, i64_min, i64_max. lia.
  - vm_compute. reflexivity.
Defined.

Lemma default_operators_table_witness :
  handle_default_alt (bs "n") "-"%b true (bs "z") false ExpandBuf_new sample = push_default (bs "z") false ExpandBuf_new sample
  /\ handle_default_alt (bs "n") "-"%b false (bs "z") false ExpandBuf_new sample = (Ok ExpandBuf_new, sample).
Proof.
  assert (Hn : plain_variable (env sample) (bs "n") (Some [])) by (constructor; vm_compute; reflexivity).
  split; [apply (default_operators_table sample (bs "n") (Some []) Hn "-"%b true)|].
  rewrite (default_operators_table sample (bs "n") (Some []) Hn "-"%b false). vm_compute. reflexivity.
Defined.

(** A length near the largest integer makes the end of the substring wrap around:
    [${x:1:9223372036854775807}] does not expand, in a locale that counts bytes, but
    stops the program. *)
Theorem substring_panics :
  expand_brace_body (bs "x:1:9223372036854775806") false ExpandBuf_new sample = (Ok (push_raw ExpandBuf_new (bs "/b/c")), sample)
  /\ expand_brace_body (bs "x:1:9223372036854775807") false ExpandBuf_new sample = (Fuel, sample).
Proof. split; vm_compute; reflexivity. Qed.
End ParamExample.
