(* ===== verification/Transform.v ===== *)
(** The [@] operators of parameter expansion (crates/expander/src/param/transforms.rs)
    and the prompt escapes of [@P] (param/prompts.rs). *)
From S2P Require Import Prelude Env Utf8 Options Vars Buf Pattern Split Quote Expand Scan Param.

(** * Prompts *)

(** What a prompt shows: numbers kept by the shell, and the C library's clock, user,
    host and working directory. *)
Class PromptInfo (E : Type) := {
  prompt_history_number : E -> Z;
  prompt_command_number : E -> Z;
  prompt_job_count : E -> Z;
  prompt_nonprinting_markers : E -> bool;
  prompt_shell_name : E -> option bytes;
  strftime_now : bytes -> bytes;
  current_user_name : bytes;
  gethostname : bytes;
  process_dir : option bytes;
  compat_bash_version : option bytes;
}.

(** [str::split(char)]. *)
Fixpoint split_on (p : Z -> bool) (s : bytes) : list bytes :=
  match s with
  | [] => [[]]
  | b :: r => if p b then [] :: split_on p r else match split_on p r with w :: ws => (b :: w) :: ws | [] => [[b]] end
  end.

(** [Path::file_name], or the path. *)
Definition base_name (path : bytes) : bytes :=
  match last (List.filter (fun c => negb (is_nil c) && negb (bytes_eqb c (bs "."))) (split_on (fun b => b =? "/"%b) path)) with
  | Some c => if bytes_eqb c (bs "..") then path else c
  | None => path
  end.

(** [char]s that stand for an escaped dollar and for a backslash. *)
Definition PROMPT_ESCAPED_DOLLAR : Z := 57344.
Definition PROMPT_LITERAL_BACKSLASH : Z := 57345.

Definition restore_escaped_prompt_dollars (value : bytes) : bytes :=
  concat (map (fun ch => encode_utf8 (if ch =? PROMPT_ESCAPED_DOLLAR then "$"%b else if ch =? PROMPT_LITERAL_BACKSLASH then "\"%b else ch))
            (str_chars value)).

(** The numbers at the start of a version. *)
Definition version_text (raw : bytes) (release : bool) : bytes :=
  let numeric := default (bs "5.3.15") (head (List.filter (fun s => negb (is_nil s))
                   (split_on (fun c => negb (is_ascii_digit c || (c =? "."%b))) raw))) in
  let parts := split_on (fun c => c =? "."%b) numeric in
  let part n other := default (bs other) (parts !! n) in
  part 0%nat "5"%string ++ bs "." ++ part 1%nat "3"%string ++ (if release then bs "." ++ part 2%nat "0"%string else []).

(** [VarAttrs::TRACE]. *)
Definition TRACE : Z := 2 ^ 8.

Definition attribute_letters (a : Z) : bytes :=
  concat (map (fun '(m, l) => if attr_contains a m then bs l else [])
    [(ARRAY, "a"%string); (ASSOC, "A"%string); (INTEGER, "i"%string); (NAMEREF, "n"%string); (READONLY, "r"%string);
     (EXPORT, "x"%string); (UPPERCASE, "u"%string); (LOWERCASE, "l"%string); (TRACE, "t"%string)]).

Section Transforms.
Context {E : Type} `{Environment E} `{Parameters E} `{Arrays E} `{Casing} `{WordExpansion E} `{PromptInfo E}.

Definition nonempty (v : option bytes) : option bytes := match v with Some (b :: r) => Some (b :: r) | _ => None end.

Definition current_host_name : M E bytes :=
  h <- get (bs "HOSTNAME") ;; ret (match nonempty h with Some h => h | None => gethostname end).

Definition render_pwd (basename_only : bool) : M E bytes :=
  v <- get (bs "PWD") ;;
  let pwd := default (bs ".") (match v with Some p => Some p | None => process_dir end) in
  if basename_only then
    if bytes_eqb pwd (bs "/") then ret (bs "/")
    else
      home <- get (bs "HOME") ;;
      ret (if bool_decide (home = Some pwd) then bs "~" else base_name pwd)
  else
    home <- get (bs "HOME") ;;
    let home := default [] home in
    ret (if negb (is_nil home) && starts_with home pwd then bs "~" ++ drop (length home) pwd else pwd).

Definition bash_version (release : bool) : M E bytes :=
  v <- get (bs "BASH_VERSION") ;;
  let raw := default (bs "5.3.15") (match v with Some r => Some r | None => compat_bash_version end) in
  ret (version_text raw release).

Definition PROMPT_X : bytes := bs "%X".

(** Up to three octal digits. *)
Definition prompt_octal (s : bytes) : bytes * bytes :=
  let '(n, _, rest) := take_digits octal_digit (fun v d => v * 8 + d) 3 0 s in
  (if n <=? 255 then encode_utf8 n else [], rest).

(** The escape after a backslash: what it adds, and the rest. *)
Definition prompt_escape (b : Z) (r : bytes) : M E (bytes * bytes) :=
  let text (t : bytes) := ret (t, r) in
  let number (f : E -> Z) := asks (fun c => (i64_to_string (f (env c)), r)) in
  let marker (ch : Z) := asks (fun c => (if prompt_nonprinting_markers (env c) then [ch] else [], r)) in
  let after (m : M E bytes) := t <- m ;; ret (t, r) in
  if in_range 48 55 b then ret (prompt_octal (b :: r))
  else if b =? "["%b then marker 1
  else if b =? "]"%b then marker 2
  else if b =? "a"%b then text [7]
  else if (b =? "e"%b) || (b =? "E"%b) then text [27]
  else if b =? "r"%b then text [13]
  else if b =? "t"%b then text (strftime_now (bs "%H:%M:%S"))
  else if b =? "T"%b then text (strftime_now (bs "%I:%M:%S"))
  else if b =? "@"%b then text (strftime_now (bs "%I:%M %p"))
  else if b =? "A"%b then text (strftime_now (bs "%H:%M"))
  else if b =? "d"%b then text (strftime_now (bs "%a %b %d"))
  else if b =? "D"%b then
    match r with
    | o :: r' =>
        if o =? "{"%b then
          let '(fmt, rest) := span (fun b => negb (b =? "}"%b)) r' in
          let fmt := match from_utf8 fmt with inl _ => if is_nil fmt then PROMPT_X else fmt | inr _ => PROMPT_X end in
          ret (strftime_now fmt, drop 1 rest)
        else text (encode_utf8 PROMPT_LITERAL_BACKSLASH ++ [b])
    | [] => text (encode_utf8 PROMPT_LITERAL_BACKSLASH ++ [b])
    end
  else if b =? "h"%b then after (h <- current_host_name ;; ret (default h (head (split_on (fun b => b =? "."%b) h))))
  else if b =? "H"%b then after current_host_name
  else if b =? "s"%b then
    asks (fun c => (base_name (default (bs "cherubsh") (match prompt_shell_name (env c) with
                                                         | Some n => Some n | None => env_positional (env c) 0 end)), r))
  else if b =? "u"%b then text current_user_name
  else if b =? "w"%b then after (render_pwd false)
  else if b =? "W"%b then after (render_pwd true)
  else if b =? "v"%b then after (bash_version false)
  else if b =? "V"%b then after (bash_version true)
  else if b =? "$"%b then text (encode_utf8 PROMPT_ESCAPED_DOLLAR)
  else if b =? "\"%b then text (encode_utf8 PROMPT_LITERAL_BACKSLASH)
  else if b =? "n"%b then text [10]
  else if b =? "#"%b then number prompt_command_number
  else if b =? "!"%b then number prompt_history_number
  else if b =? "j"%b then number prompt_job_count
  else text (encode_utf8 PROMPT_LITERAL_BACKSLASH ++ encode_utf8 b).

(** The escapes of a prompt.  A byte becomes the character of its number. *)
Fixpoint prompt_loop (fuel : nat) (s out : bytes) : M E bytes :=
  match fuel, s with
  | S fuel, b :: r =>
      if negb (b =? "\"%b) then
        posix <- asks (fun c => env_option (env c) (bs "posix")) ;;
        if posix && (b =? "!"%b) then
          match r with
          | n :: r' =>
              if n =? "!"%b then prompt_loop fuel r' (out ++ [n])
              else num <- asks (fun c => prompt_history_number (env c)) ;; prompt_loop fuel r (out ++ i64_to_string num)
          | [] => num <- asks (fun c => prompt_history_number (env c)) ;; prompt_loop fuel r (out ++ i64_to_string num)
          end
        else prompt_loop fuel r (out ++ encode_utf8 b)
      else
        match r with
        | [] => prompt_loop fuel r (out ++ encode_utf8 PROMPT_LITERAL_BACKSLASH)
        | n :: r' => x <- prompt_escape n r' ;; prompt_loop fuel (snd x) (out ++ fst x)
        end
  | _, _ => ret out
  end.

Definition prompt_expand (value : bytes) : M E bytes :=
  out <- prompt_loop (length value) value [] ;;
  promptvars <- asks (fun c => env_option (env c) (bs "promptvars")) ;;
  if (promptvars : bool) then expanded <- expand_string_to_string_impl out ;; ret (restore_escaped_prompt_dollars expanded)
  else ret (restore_escaped_prompt_dollars out).

(** * The operators *)

Fixpoint map_m {A B} (f : A -> M E B) (l : list A) : M E (list B) :=
  match l with
  | [] => ret []
  | x :: l => y <- f x ;; ys <- map_m f l ;; ret (y :: ys)
  end.

Definition transform_value_result (v : ValueRepr) (f : bytes -> M E bytes) : M E ValueRepr :=
  let g s := t <- f (value_bytes s) ;; ret (shell_text t) in
  match v with
  | VScalar s => t <- g s ;; ret (VScalar t)
  | VArray elems star => new <- map_m g elems ;; ret (VArray new star)
  end.

Definition transform_string_value (v : ValueRepr) (f : bytes -> bytes) : ValueRepr :=
  match v with VScalar s => VScalar (f s) | VArray elems star => VArray (map f elems) star end.

(** [@Q], [@E] and [@P] of a value. *)
Definition transform_text (kd : Z) (v : ValueRepr) : M E ValueRepr :=
  if kd =? "Q"%b then ret (transform_string_value v shell_quote_shell_string)
  else if kd =? "E"%b then ret (transform_value v ansi_c_decode)
  else transform_value_result v (fun s => prompt_expand (from_utf8_lossy s)).

(** [name=value] with its attributes. *)
Definition declaration (flags target quoted : bytes) : bytes :=
  if is_nil flags then target ++ bs "=" ++ quoted else bs "declare -" ++ flags ++ bs " " ++ target ++ bs "=" ++ quoted.

Definition format_scalar_declaration (name : bytes) : M E bytes :=
  if contains_byte "["%b name then
    l <- ignore_error ENotElement (read_element_value_if_set name) ;;
    match l with
    | ESet (VScalar value) =>
        let base := take (default 0%nat (find_byte "["%b name)) name in
        target <- resolve_or base ;;
        a <- asks (fun c => env_attrs (env c) target) ;;
        ret (declaration (attribute_letters a) target (shell_quote_shell_string value))
    | _ => ret []
    end
  else
    target <- resolve_or name ;;
    a <- asks (fun c => env_attrs (env c) target) ;;
    v <- get target ;;
    match v with
    | None =>
        let flags := attribute_letters a in
        ret (if (a =? 0) || is_nil flags then [] else bs "declare -" ++ flags ++ bs " " ++ target)
    | Some value => ret (declaration (attribute_letters a) target (shell_quote_shell_string value))
    end.

(** [declare -flags target=(body)]. *)
Definition array_declaration (flags target : bytes) (items : option (list bytes)) (close : bytes) : bytes :=
  let head := bs "declare -" ++ flags ++ bs " " ++ target in
  match items with
  | None => head
  | Some items =>
      let body := join (bs " ") items in if is_nil body then head ++ bs "=()" else head ++ bs "=(" ++ body ++ close
  end.

Definition format_array_declaration (base : bytes) : M E bytes :=
  target <- resolve_or base ;;
  kd <- kind target ;;
  a <- asks (fun c => env_attrs (env c) target) ;;
  let flags other := let f := attribute_letters a in if is_nil f then bs other else f in
  match kd with
  | KIndexed =>
      all <- read_env (fun e => env_array_all e target) ;;
      ret (array_declaration (flags "a"%string) target
             (map (fun '(idx, value) => bs "[" ++ i64_to_string idx ++ bs "]=" ++ array_element_quote value) <$> all) (bs ")"))
  | KAssoc =>
      all <- asks (fun c => env_assoc_all (env c) target) ;;
      ret (array_declaration (flags "A"%string) target
             (map (fun '(key, value) => bs "[" ++ assoc_key_quote key ++ bs "]=" ++ array_element_quote value) <$> all) (bs " )"))
  | _ => format_scalar_declaration target
  end.

Definition handle_transform_declare (name : bytes) (quoted : bool) (out : ExpandBuf) : M E ExpandBuf :=
  rendered <-
    (if is_all name then
       asks (fun c => let values := join (bs " ") (map shell_quote_shell_string (positionals (env c))) in
                      if is_nil values then bs "set --" else bs "set -- " ++ values)
     else match array_all_ref name with
          | Some (base, _) => format_array_declaration base
          | None => format_scalar_declaration name
          end) ;;
  ret (push_value out rendered quoted).

(** The keys and values of an array. *)
Definition array_pairs (target : bytes) : M E (list (bytes * bytes)) :=
  kd <- kind target ;;
  match kd with
  | KAssoc => asks (fun c => default [] (env_assoc_all (env c) target))
  | KIndexed => all <- read_env (fun e => env_array_all e target) ;; ret (map (fun '(i, v) => (i64_to_string i, v)) (default [] all))
  | _ => ret []
  end.

(** [@K] and [@k]. *)
Definition transform_keys (name : bytes) (kd : Z) (quoted : bool) (out : ExpandBuf) : M E ExpandBuf :=
  match array_all_ref name with
  | Some (base, subscript) =>
      target <- resolve_or base ;;
      pairs <- array_pairs target ;;
      if kd =? "k"%b then
        asks (fun c => push_array_values out (concat (map (fun '(k, v) => [k; v]) pairs)) quoted (bytes_eqb subscript (bs "*"))
                         (join_separator (ifs c)) (is_null (ifs c)) (assign_in_progress c) (split_fields c))
      else
        vk <- kind target ;;
        let rendered := join (bs " ") (map (fun '(k, v) => key_value_transform_key_quote k ++ bs " " ++ double_quote v) pairs) in
        ret (push_value out (if bool_decide (vk = KAssoc) && negb (is_nil rendered) then rendered ++ bs " " else rendered) quoted)
  | None =>
      target <- resolve_or name ;;
      vk <- kind target ;;
      if bool_decide (vk = KAssoc) then ret out
      else value <- read_value name ;; push_joined out (transform_value value shell_quote) quoted
  end.

(** [@U], [@L] and [@u]. *)
Definition transform_case (name : bytes) (kd : Z) : M E bytes :=
  s <- read_scalar name true ;;
  ret (if kd =? "U"%b then str_to_uppercase s
       else if kd =? "L"%b then str_to_lowercase s
       else match str_chars s with
            | c :: rest => concat (map encode_utf8 (to_ascii_uppercase c :: rest))
            | [] => s
            end).

Definition handle_transform (name rest : bytes) (quoted : bool) (out : ExpandBuf) : M E ExpandBuf :=
  match rest with
  | [] => fail (BadSubstitution (bs "${" ++ name ++ bs "@}"))
  | kd :: _ =>
      if negb (one_of [kd] ["Q"; "E"; "P"; "A"; "a"; "K"; "k"; "U"; "L"; "u"]%string) then
        fail (BadSubstitution (bs "${" ++ name ++ bs "@" ++ encode_utf8 kd ++ bs "}"))
      else if one_of [kd] ["Q"; "E"; "P"]%string then
        l <- read_element_value_if_set name ;;
        match l with
        | ESet value => result <- transform_text kd value ;; push_joined out result quoted
        | EUnset => ret out
        | ENotElement =>
            is_set <- parameter_is_set name ;;
            if negb is_set then ret out
            else value <- read_value name ;; result <- transform_text kd value ;; push_joined out result quoted
        end
      else
        strict <- asks eval_unbound_error ;;
        missing <- (if ((kd =? "a"%b) || (kd =? "A"%b)) && strict then h <- parameter_has_transform_value name ;; ret (negb h) else ret false) ;;
        if (missing : bool) then fail (UnboundVariable name)
        else if kd =? "a"%b then
          attr_name <- resolve_or (match array_all_ref name with Some (base, _) => base | None => name end) ;;
          a <- asks (fun c => env_attrs (env c) attr_name) ;;
          ret (push_value out (attribute_letters a) quoted)
        else if kd =? "A"%b then handle_transform_declare name quoted out
        else if (kd =? "K"%b) || (kd =? "k"%b) then transform_keys name kd quoted out
        else t <- transform_case name kd ;; ret (push_value out t quoted)
  end.
End Transforms.
