(* ===== verification/Dollar.v ===== *)
(** The constructs [$(..)], [$((..))], [$[..]], [<(..)] and [>(..)]
    (crates/expander/src/param/constructs.rs, param/public_api.rs, procsub.rs and the
    current-shell substitution of cmdsub.rs), and the expansion of an arithmetic text
    before its evaluation (lib.rs).  Messages printed on the way are not modelled, but
    the scan that finds the warnings is. *)
From S2P Require Import Prelude Env Utf8 Options Vars Buf Pattern Split Quote Expand Scan Param Transform.

(** * Pre-expansion of arithmetic texts (lib.rs) *)

Definition arith_needs_preexpansion (expr : bytes) : bool :=
  existsb (fun b => (b =? "$"%b) || (b =? "`"%b) || (b =? "\"%b) || (b =? "'"%b) || (b =? dquote)) expr.

(** The identifier at the end of a text.  [rfind] gives the start of the character
    before it, and the slice from the next byte panics inside a longer character. *)
Definition ident_tail (s : bytes) : option bytes :=
  let '(t, rest) := span is_name_byte (rev s) in
  match rest with
  | b :: _ => if b <? 128 then Some (rev t) else None
  | [] => Some (rev t)
  end.

(** A check for an error: [None] where the program panics. *)
Definition check : Type := option (option ExpandError).

Definition invalid_quoted_empty_index_lvalue_error (expr : bytes) : check :=
  match find_sub (bs "[" ++ [dquote; dquote] ++ bs "]") expr with
  | None => Some None
  | Some open =>
      name ← ident_tail (take open expr);
      Some (match name with
            | b :: _ => if is_name_start b then Some (ArithSyntax (bs "`" ++ name ++ bs "[]': not a valid identifier")) else None
            | [] => None
            end)
  end.

(** [replace('"', "\\\"")]. *)
Definition escape_dquotes (s : bytes) : bytes := concat (map (fun b => if b =? dquote then bs "\" ++ [b] else [b]) s).

(** [replace("\\c", "c")]. *)
Fixpoint unescape_byte (c : Z) (s : bytes) : bytes :=
  match s with
  | b :: ((d :: r) as r0) => if (b =? "\"%b) && (d =? c) then d :: unescape_byte c r else b :: unescape_byte c r0
  | _ => s
  end.

Definition invalid_operator (text token : bytes) : ExpandError :=
  ArithSyntax (text ++ bs ": arithmetic syntax error: invalid arithmetic operator (error token is " ++ [dquote]
               ++ escape_dquotes token ++ [dquote] ++ bs ")").

(** Brackets and braces in an arithmetic text. *)
Fixpoint skip_arith_quoted (quote : Z) (s : bytes) : bytes :=
  match s with
  | [] => []
  | b :: r =>
      if b =? "\"%b then match r with _ :: r' => skip_arith_quoted quote r' | [] => [] end
      else if b =? quote then r else skip_arith_quoted quote r
  end.

Definition arith_quote (b : Z) : bool := (b =? "'"%b) || (b =? dquote) || (b =? "`"%b).

(** [find_arith_dollar_brace_end] and [find_arith_paren_end]: the text after the
    closing byte. *)
Fixpoint arith_brace_end (fuel : nat) (depth : nat) (s : bytes) : option bytes :=
  match fuel, s with
  | S fuel, b :: r =>
      if b =? "\"%b then arith_brace_end fuel depth (drop 1 r)
      else if arith_quote b then arith_brace_end fuel depth (skip_arith_quoted b r)
      else if (b =? "$"%b) && bool_decide (head r = Some "{"%b) then arith_brace_end fuel (S depth) (drop 1 r)
      else if (b =? "$"%b) && bool_decide (head r = Some "("%b) then
        rest ← arith_paren_end fuel 1 (drop 1 r); arith_brace_end fuel depth rest
      else if b =? "}"%b then if (depth =? 1)%nat then Some r else arith_brace_end fuel (depth - 1) r
      else arith_brace_end fuel depth r
  | _, _ => None
  end
with arith_paren_end (fuel : nat) (depth : nat) (s : bytes) : option bytes :=
  match fuel, s with
  | S fuel, b :: r =>
      if b =? "\"%b then arith_paren_end fuel depth (drop 1 r)
      else if arith_quote b then arith_paren_end fuel depth (skip_arith_quoted b r)
      else if (b =? "$"%b) && bool_decide (head r = Some "{"%b) then
        rest ← arith_brace_end fuel 1 (drop 1 r); arith_paren_end fuel depth rest
      else if (b =? "$"%b) && bool_decide (head r = Some "("%b) then
        rest ← arith_paren_end fuel 1 (drop 1 r); arith_paren_end fuel depth rest
      else if b =? "("%b then arith_paren_end fuel (S depth) r
      else if b =? ")"%b then if (depth =? 1)%nat then Some r else arith_paren_end fuel (depth - 1) r
      else arith_paren_end fuel depth r
  | _, _ => None
  end.

Definition find_arith_dollar_brace_end (s : bytes) : option bytes := arith_brace_end (S (length s)) 1 s.
Definition find_arith_paren_end (s : bytes) : option bytes := arith_paren_end (S (length s)) 1 s.

(** Double quotes in the subscript of an associative array. *)
Fixpoint skip_double (s : bytes) : bytes :=
  match s with
  | [] => []
  | b :: r =>
      if b =? "\"%b then match r with _ :: r' => skip_double r' | [] => [] end
      else if b =? dquote then r else skip_double r
  end.

(** [find_assoc_subscript_end]: the text from the closing bracket on. *)
Fixpoint assoc_end_loop (fuel : nat) (s : bytes) : option bytes :=
  match fuel, s with
  | S fuel, b :: r =>
      if b =? "\"%b then assoc_end_loop fuel (drop 1 r)
      else if b =? "'"%b then assoc_end_loop fuel (drop 1 (snd (span (fun b => negb (b =? "'"%b)) r)))
      else if b =? dquote then assoc_end_loop fuel (skip_double r)
      else if b =? "]"%b then Some s
      else assoc_end_loop fuel r
  | _, _ => None
  end.

Definition find_assoc_subscript_end (s : bytes) : option bytes := assoc_end_loop (S (length s)) s.

Definition escape_assoc_arith_key (key : bytes) : bytes :=
  concat (map (fun b => if (b =? "\"%b) || (b =? "["%b) || (b =? "]"%b) then ["\"%b; b] else [b]) key).

(** * Here-documents left open in a command substitution *)

Record HeredocWarn := mkWarn { w_delimiter : bytes; w_strip_tabs : bool; w_start_line : Z }.
Record HeredocEofWarning := mkEof { eof_line : Z; start_line : Z; eof_delimiter : bytes }.

Definition saturating_add_u32 (a b : Z) : Z := Z.min (a + b) (2 ^ 32 - 1).

Definition eof_warning (line : Z) (spec : HeredocWarn) : HeredocEofWarning :=
  mkEof line (w_start_line spec) (w_delimiter spec).

Fixpoint warning_loop (fuel : nat) (s : bytes) (line : Z) (at_line_start comment_ok : bool) (pending : list HeredocWarn)
    (last_byte : option Z) : list HeredocEofWarning :=
  match fuel, s with
  | S fuel, b :: r =>
      match (if at_line_start then pending else []) with
      | spec :: others =>
          let '(text, rest) := span (fun b => negb (b =? 10)) s in
          let candidate := if w_strip_tabs spec then drop_tabs text else text in
          let found := bytes_eqb candidate (w_delimiter spec) in
          if negb found && bool_decide (is_Some (heredoc_delimiter_closing_paren candidate (w_delimiter spec)))
          then [eof_warning line spec]
          else warning_loop fuel (drop 1 rest) (if is_nil rest then line else saturating_add_u32 line 1) true true
                 (if found then others else pending) last_byte
      | [] =>
          let go rest comment := warning_loop fuel rest line false comment pending last_byte in
          if b =? 10 then warning_loop fuel r (saturating_add_u32 line 1) true true pending last_byte
          else if (b =? "#"%b) && comment_ok then go (snd (span (fun b => negb (b =? 10)) s)) comment_ok
          else if b =? "\"%b then go (drop 1 r) false
          else
            match append_ansi_c_literal s with
            | Some (_, rest) => go rest false
            | None =>
                if arith_quote b then go (snd (quoted_run b r)) false
                else
                  match redirection s with
                  | Some rest =>
                      let '(_, specs, rest) := append_heredoc_redirect rest [] in
                      warning_loop fuel rest line false false
                        (pending ++ map (fun '(d, t) => mkWarn d t line) specs) last_byte
                  | None => go r (is_ascii_whitespace b || is_shell_metacharacter b)
                  end
            end
      end
  | _, _ => map (eof_warning (if bool_decide (last_byte = Some 10) then Z.max (line - 1) 0 else line)) pending
  end.

Definition command_subst_heredoc_eof_warnings (body : bytes) : list HeredocEofWarning :=
  warning_loop (length body) body 1 true true [] (last body).

Definition command_subst_eof_line (body : bytes) : Z :=
  1 + Z.of_nat (length (List.filter (fun b => b =? 10) body)).

Inductive ProcSubstDir := PInput | POutput.

(** The rest of [trait CommandRunner] and of the line numbers of [trait Environment]. *)
Class Runner (E : Type) := {
  run_current_subst : bytes -> CurrentSubstMode -> M E (bytes * Z);
  spawn_proc_subst : ProcSubstDir -> bytes -> M E ProcSubstHandle;
  diagnostic_line : E -> option Z;
}.

(** [arith::eval], for texts that needed no expansion. *)
Class ArithText (E : Type) := { arith_eval : bytes -> M E Z }.

Section Dollar.
Context {E : Type} `{Environment E} `{Parameters E} `{Arrays E} `{Casing} `{WordExpansion E} `{PromptInfo E}
  `{CommandRunner E} `{Runner E} `{ArithText E}.

(** A check at work. *)
Definition checked (o : check) : M E unit :=
  match o with
  | None => panic
  | Some (Some e) => fail e
  | Some None => ret tt
  end.

Definition invalid_index_variable_subscript_error (expr : bytes) : M E unit :=
  let expr := trim expr in
  match find_sub (bs "[$") expr with
  | None => ret tt
  | Some bracket =>
      let open := S bracket in
      match find_byte "]"%b (drop open expr) with
      | None => ret tt
      | Some k =>
          let close := (open + k)%nat in
          if negb (is_nil (trim (drop (S close) expr))) then ret tt
          else
            match ident_tail (take bracket expr) with
            | None => panic
            | Some name =>
                kd <- kind name ;;
                if bool_decide (kd = KAssoc) then ret tt
                else
                  v <- get (slice expr (S open) close) ;;
                  match v with
                  | Some value =>
                      if bool_decide (is_Some (find_sub (bs "],") value)) then
                        fail (invalid_operator value (drop (default 0%nat (find_byte "]"%b value)) value))
                      else ret tt
                  | None => ret tt
                  end
            end
      end
  end.

Definition invalid_escaped_index_subscript_error (expr : bytes) : M E unit :=
  match (match find_sub (bs "\],") expr with
         | Some k => Some (k, true)
         | None => (fun k => (k, false)) <$> find_sub (bs "],") expr
         end) with
  | None => ret tt
  | Some (close, escaped) =>
      match rfind_byte "["%b (take close expr) with
      | None => ret tt
      | Some open =>
          match ident_tail (take open expr) with
          | None => panic
          | Some name =>
              kd <- kind name ;;
              if bool_decide (kd = KAssoc) || negb escaped && negb (bytes_eqb name (bs "array")) then ret tt
              else
                let end_ := match rfind_byte "]"%b expr with
                            | Some k => if (open <? k)%nat then k else length expr
                            | None => length expr
                            end in
                let raw := slice expr (S open) end_ in
                let subscript := if (escaped : bool) then unescape_byte "["%b (unescape_byte "]"%b raw) else raw in
                let token_start := default (close - open - 1)%nat (find_byte "]"%b subscript) in
                fail (invalid_operator (escape_dquotes subscript) (drop token_start subscript))
          end
      end
  end.

Definition expand_assoc_arith_subscript (subscript : bytes) : M E bytes :=
  exp <- word_internal (from_bytes_with_flags subscript W_NOPROCSUB) true ;; ret (wd_to_string exp).

(** The text since the last subscript of an associative array is [chunk]. *)
Fixpoint preserve_loop (fuel : nat) (s chunk out : bytes) : M E bytes :=
  match fuel, s with
  | S fuel, b :: r =>
      let skip rest := preserve_loop fuel rest (chunk ++ take (length s - length rest) s) out in
      match (if negb (b =? "$"%b) then None
             else match r with
                  | c :: r' => if c =? "{"%b then find_arith_dollar_brace_end r'
                               else if c =? "("%b then find_arith_paren_end r' else None
                  | [] => None
                  end) with
      | Some rest => skip rest
      | None =>
          if negb (is_name_start b) then skip r
          else
            let '(name, rest) := span is_name_byte s in
            kd <- kind name ;;
            match rest with
            | o :: inside =>
                if (o =? "["%b) && bool_decide (kd = KAssoc) then
                  match find_assoc_subscript_end inside with
                  | Some tail =>
                      before <- expand_arith_string_to_string_impl chunk ;;
                      key <- expand_assoc_arith_subscript (take (length inside - length tail) inside) ;;
                      preserve_loop fuel (drop 1 tail) []
                        (out ++ before ++ name ++ bs "[" ++ escape_assoc_arith_key key ++ bs "]")
                  | None => skip rest
                  end
                else skip rest
            | [] => skip rest
            end
      end
  | _, _ => last <- expand_arith_string_to_string_impl chunk ;; ret (out ++ last)
  end.

Definition expand_arith_preserving_assoc_subscripts (expr : bytes) : M E bytes := preserve_loop (length expr) expr [] [].

Definition eval_arith_expression_with_text_impl (expr : bytes) : M E (bytes * Z) :=
  let needs_preexpansion := arith_needs_preexpansion expr in
  _ <- checked (invalid_quoted_empty_index_lvalue_error expr) ;;
  inner <- (if needs_preexpansion then expand_arith_preserving_assoc_subscripts expr else ret expr) ;;
  _ <- invalid_escaped_index_subscript_error inner ;;
  _ <- invalid_index_variable_subscript_error inner ;;
  value <- (if needs_preexpansion then eval_preexpanded inner else arith_eval inner) ;;
  ret (inner, value).

Definition eval_arith_expression_impl (expr : bytes) : M E Z :=
  x <- eval_arith_expression_with_text_impl expr ;; ret (snd x).

(** * Constructs *)

(** A scanner's answer as a step; none runs out of fuel. *)
Definition scanned (r : Scan) : M E (bytes * bytes) := fun c =>
  match r with Ok x => (Ok x, c) | Err e => (Err e, c) | Fuel => (Fuel, c) end.

Definition push_arith (body : bytes) (quoted : bool) (out : ExpandBuf) : M E ExpandBuf :=
  match from_utf8 body with
  | inl _ => val <- eval_arith_expression_impl body ;; ret (push_value out (i64_to_string val) quoted)
  | inr _ => fail (ArithSyntax (bs "non-utf8 arith"))
  end.

Definition dollar_bracket (word : bytes) (i : nat) (quoted : bool) (out : ExpandBuf) : M E (nat * ExpandBuf) :=
  x <- scanned (extract_legacy_arith (drop (i + 2) word)) ;;
  out <- push_arith (fst x) quoted out ;;
  ret ((length word - length (snd x))%nat, out).

(** The line number of the parenthesis that closes the substitution. *)
Definition command_subst_close_line (word : bytes) (body_start end_ : nat) : M E (option Z) := asks (fun c =>
  let compat_bash_52 := match compat_bash_version with Some v => starts_with (bs "5.2") v | None => false end in
  let before := take (if compat_bash_52 then end_ else body_start) word in
  (fun base => saturating_add_u32 base (Z.of_nat (length (List.filter (fun b => b =? 10) before)))) <$> diagnostic_line (env c)).

(** [$((..))] where the parentheses close that way. *)
Definition is_arithmetic (word : bytes) (i : nat) : bool :=
  match word !! (i + 2)%nat with
  | Some b => (b =? "("%b) && match arith_dparen_scan (drop (i + 3) word) with Ok DCommandSubstitution => false | _ => true end
  | None => false
  end.

(** The error of a substitution that is not closed is reported at once. *)
Definition unclosed (e : ExpandError) : ExpandError :=
  match e with
  | BadSubstitution m => if bytes_eqb m (bs "missing ')'") then AlreadyReported 2 else e
  | _ => e
  end.

Definition dollar_paren (word : bytes) (i : nat) (quoted : bool) (out : ExpandBuf) : M E (nat * ExpandBuf) :=
  if is_arithmetic word i then
    x <- scanned (extract_double_paren (drop (i + 3) word)) ;;
    out <- push_arith (fst x) quoted out ;;
    ret ((length word - length (snd x))%nat, out)
  else
    x <- scanned (match extract_paren (drop (i + 2) word) with Err e => Err (unclosed e) | r => r end) ;;
    let end_ := (length word - length (snd x))%nat in
    close_line <- command_subst_close_line word (i + 2) end_ ;;
    buf <- command_substitute (from_utf8_lossy (fst x)) quoted false close_line ;;
    ret (end_, extend_from out buf).

(** The path a process substitution is read or written through. *)
Definition process_substitute (src : bytes) (dir : ProcSubstDir) (quoted : bool) : M E ExpandBuf :=
  handle <- spawn_proc_subst dir src ;;
  fun c =>
    (Ok (fold_left (if quoted then push_quoted else push_literal) (ps_path handle) ExpandBuf_new),
     mkCtx (env c) (ifs c) (depth c) (arith_depth c) (assign_in_progress c) (param_rhs_nosplit c) (split_fields c)
       (arith_expand_subscripts c) (eval_unbound_error c) (heredoc_context c) (last_cmd_subst_status c) (proc_subst c ++ [handle])).

Definition process_subst_expand (word : bytes) (i : nat) (quoted : bool) (out : ExpandBuf) : M E (nat * ExpandBuf) :=
  let dir := if bool_decide (word !! i = Some "<"%b) then PInput else POutput in
  x <- scanned (extract_paren (drop (i + 2) word)) ;;
  buf <- process_substitute (from_utf8_lossy (fst x)) dir quoted ;;
  ret ((length word - length (snd x))%nat, extend_from out buf).

(** cmdsub.rs *)
Definition current_substitute (src : bytes) (quoted : bool) (mode : CurrentSubstMode) : M E ExpandBuf :=
  x <- run_current_subst src mode ;;
  let bytes := match mode with COutput => strip_trailing_newlines (fst x) | CReply => fst x end in
  fun c => (Ok (bytes_to_subst_buf bytes quoted), with_last_status (snd x) c).
End Dollar.
