(* ===== verification/Words.v ===== *)
(** The expander put together: word expansion (Internal.v) over the constructs of
    Param.v, Transform.v and Dollar.v, which expand words themselves, and over the
    arithmetic evaluator (ArithEval.v).  The recursion is cut into levels; the nesting
    limit of the program makes the first 32 of them enough (WordsProps.v). *)
From S2P Require Import Prelude Env Utf8 Options Vars Buf Pattern Split Quote Expand Internal Scan Param Transform Dollar.
From S2P Require ArithEval.

(** The arithmetic evaluator, given the expansion of subscripts. *)
Class Arithmetic (E : Type) := {
  a_eval : (bytes -> M E bytes) -> bytes -> M E Z;
  a_eval_preexpanded : (bytes -> M E bytes) -> bytes -> M E Z;
}.

(** [gettext]; the tables of the C library. *)
Class Translation (E : Type) := { translation : E -> bytes -> bytes }.

Section Words.
Context {E : Type} `{Environment E} `{Parameters E} `{Arrays E} `{Casing} `{Passwd} `{CommandRunner E} `{Runner E}
  `{PromptInfo E} `{Arithmetic E} `{Translation E}.

(** Word expansion over given constructs, without the [@] operators. *)
Definition plain_words (C : Constructs E) : WordExpansion E :=
  let expand wd no_tilde := @expand_word_internal E _ _ _ _ C wd no_tilde in
  let subscript s := exp <- expand (from_bytes_with_flags s (Z.lor W_NOPROCSUB INTERNAL_ARITH_CONTEXT)) true ;; ret (wd_to_string exp) in
  {| word_internal := expand;
     eval_preexpanded := a_eval_preexpanded subscript;
     Param.handle_transform := fun _ _ _ _ => panic;
     Param.current_substitute := fun _ _ _ => panic |}.

Definition words (C : Constructs E) : WordExpansion E :=
  let W := plain_words C in
  {| word_internal := @word_internal E W;
     eval_preexpanded := @eval_preexpanded E W;
     Param.handle_transform := @Transform.handle_transform E _ _ _ _ W _;
     Param.current_substitute := Dollar.current_substitute |}.

Definition texts (C : Constructs E) : ArithText E :=
  {| arith_eval := a_eval (@expand_arith_string_to_string_impl E (words C)) |}.

Definition constructs_over (C : Constructs E) : Constructs E :=
  let W := words C in
  {| Internal.parameter_brace_expand := @Param.parameter_brace_expand E _ _ _ _ W;
     Internal.dollar_paren := @Dollar.dollar_paren E _ _ W _ _ _ (texts C);
     Internal.dollar_bracket := @Dollar.dollar_bracket E _ W (texts C);
     Internal.process_subst_expand := Dollar.process_subst_expand;
     Internal.read_scalar := @Param.read_scalar E _ _ _ W;
     Internal.push_parameter_value := @Param.push_parameter_value E _ _ _ W;
     gettext_translation := translation;
     compat_version := compat_bash_version |}.

(** No level left. *)
Definition no_constructs : Constructs E :=
  {| Internal.parameter_brace_expand := fun _ _ _ _ => panic;
     Internal.dollar_paren := fun _ _ _ _ => panic;
     Internal.dollar_bracket := fun _ _ _ _ => panic;
     Internal.process_subst_expand := fun _ _ _ _ => panic;
     Internal.read_scalar := fun _ _ => panic;
     Internal.push_parameter_value := fun _ _ _ => panic;
     gettext_translation := translation;
     compat_version := compat_bash_version |}.

Fixpoint constructs (n : nat) : Constructs E :=
  match n with
  | O => no_constructs
  | S n => constructs_over (constructs n)
  end.

(** The expansion of a word, of nesting at most [n]. *)
Definition expand_word (n : nat) (wd : Wd) (no_tilde : bool) : M E Wd :=
  @expand_word_internal E _ _ _ _ (constructs n) wd no_tilde.
End Words.

(** * The arithmetic evaluator of ArithEval.v *)

Section Arith.
Context {E : Type} `{Environment E}.

(** The variables of a context; the evaluator leaves the rest to the expansion of
    subscripts. *)
#[local] Instance ctx_environment : Environment (ExpCtx E) := {
  env_get c n := let '(v, e) := env_get (env c) n in (v, with_env e c);
  env_get_array_indexed c n i := let '(v, e) := env_get_array_indexed (env c) n i in (v, with_env e c);
  env_get_array_assoc c n k := let '(v, e) := env_get_array_assoc (env c) n k in (v, with_env e c);
  env_kind c := env_kind (env c);
  env_attr_nameref c := env_attr_nameref (env c);
  env_resolve_nameref c := env_resolve_nameref (env c);
  env_is_readonly c := env_is_readonly (env c);
  env_option c := env_option (env c);
  env_assign c n v := let '(err, e) := env_assign (env c) n v in (err, with_env e c);
  env_set_array_indexed c n i v := with_env (env_set_array_indexed (env c) n i v) c;
  env_set_array_assoc c n k v := with_env (env_set_array_assoc (env c) n k v) c;
}.

Definition with_arith (d : Z) (b : bool) (c : ExpCtx E) : ExpCtx E :=
  mkCtx (env c) (ifs c) (depth c) d (assign_in_progress c) (param_rhs_nosplit c) (split_fields c) b (eval_unbound_error c)
    (heredoc_context c) (last_cmd_subst_status c) (proc_subst c).

Definition enter_arith (c : ExpCtx E) : ArithEval.Ctx (ExpCtx E) :=
  ArithEval.mkCtx c (arith_depth c) (arith_expand_subscripts c) (eval_unbound_error c) 0.

Definition leave_arith (c : ArithEval.Ctx (ExpCtx E)) : ExpCtx E :=
  with_arith (ArithEval.arith_depth c) (ArithEval.arith_expand_subscripts c) (ArithEval.env c).

(** A step of the expander in the evaluator. *)
Definition in_arith_eval {A} (m : M E A) : ArithEval.M (ExpCtx E) A := fun c =>
  let '(r, c') := m (leave_arith c) in
  (r, ArithEval.mkCtx c' (arith_depth c') (arith_expand_subscripts c') (ArithEval.eval_unbound_error c) (ArithEval.value_depth c)).

Definition run_arith {A} (m : ArithEval.M (ExpCtx E) A) : M E A := fun c =>
  let '(r, c) := m (enter_arith c) in (r, leave_arith c).

(** The evaluator with fuel [n]; nested evaluations count the recursion through
    variables anew. *)
Definition arithmetic (n : nat) : Arithmetic E := {|
  a_eval expand expr := run_arith (ArithEval.eval (fun s => in_arith_eval (expand s)) n expr);
  a_eval_preexpanded expand expr := run_arith (ArithEval.eval_preexpanded (fun s => in_arith_eval (expand s)) n expr);
|}.
End Arith.
