(* ===== verification/WordsArith.v ===== *)
(** The arithmetic evaluator reaches word expansion only through the expansion of
    subscripts: evaluations over expansions that do the same do the same. *)
From S2P Require Import Prelude Env ArithLex ArithEval.

Create HintDb evals.

Section Congruence.
Context {E : Type} `{Environment E} (P : E -> Prop).
Context (P_get : forall e n, P e -> P (env_get e n).2) (P_indexed : forall e n i, P e -> P (env_get_array_indexed e n i).2)
  (P_assoc : forall e n k, P e -> P (env_get_array_assoc e n k).2) (P_assign : forall e n v, P e -> P (env_assign e n v).2)
  (P_set_indexed : forall e n i v, P e -> P (env_set_array_indexed e n i v))
  (P_set_assoc : forall e n k v, P e -> P (env_set_array_assoc e n k v)).

(** From a state in [P] the steps do the same, and stay in [P]. *)
Definition same {A} (m1 m2 : M E A) : Prop := forall c, P (env c) -> m1 c = m2 c /\ P (env (m1 c).2).

Lemma same_ret {A} (a : A) : same (ret a) (ret a).
Proof. by intros c Hc. Qed.
Lemma same_err {A} e : same (A:=A) (err e) (err e).
Proof. by intros c Hc. Qed.
Lemma same_fuel {A} : same (A:=A) out_of_fuel out_of_fuel.
Proof. by intros c Hc. Qed.
Lemma same_lift {A} (r : Res ExpandError A) : same (lift r) (lift r).
Proof. by intros c Hc. Qed.
Lemma same_asks {A} (f : Ctx E -> A) : same (asks f) (asks f).
Proof. by intros c Hc. Qed.

Lemma same_bind {A B} (m1 m2 : M E A) (k1 k2 : A -> M E B) :
  same m1 m2 -> (forall a, same (k1 a) (k2 a)) -> same (bind m1 k1) (bind m2 k2).
Proof.
  intros Hm Hk c Hc. destruct (Hm c Hc) as [Heq Hd]. unfold bind. rewrite <- Heq.
  destruct (m1 c) as [[a|e|] c'] eqn:Em; cbn [fst snd] in *; [by apply Hk|done|done].
Qed.

Lemma same_loop {S A} n (b1 b2 : S -> M E (S + A)) s :
  (forall s, same (b1 s) (b2 s)) -> same (loop n b1 s) (loop n b2 s).
Proof.
  intros Hb. revert s. induction n as [|n IH]; intros s; cbn [loop]; [apply same_fuel|].
  apply same_bind; [apply Hb|]. intros [s'|a]; [apply IH|apply same_ret].
Qed.

Lemma same_get n : same (get_cow n) (get_cow n).
Proof. intros c Hc. unfold get_cow. specialize (P_get _ n Hc). by destruct (env_get (env c) n). Qed.
Lemma same_get_indexed n i : same (get_array_indexed_cow n i) (get_array_indexed_cow n i).
Proof. intros c Hc. unfold get_array_indexed_cow. specialize (P_indexed _ n i Hc). by destruct (env_get_array_indexed (env c) n i). Qed.
Lemma same_get_assoc n k : same (get_array_assoc_cow n k) (get_array_assoc_cow n k).
Proof. intros c Hc. unfold get_array_assoc_cow. specialize (P_assoc _ n k Hc). by destruct (env_get_array_assoc (env c) n k). Qed.

Lemma same_store l v : same (store_lvalue_value l v) (store_lvalue_value l v).
Proof.
  intros c Hc. split; [done|]. destruct l as [n|n i|n k]; cbn [store_lvalue_value].
  - unfold store_scalar_ident_value. specialize (P_assign _ n (i64_to_string v) Hc). by destruct (env_assign _ _ _) as [[]].
  - destruct (env_is_readonly _ _); [done|by apply P_set_indexed].
  - destruct (env_is_readonly _ _); [done|by apply P_set_assoc].
Qed.

(** Subscripts are expanded or not for a part of the evaluation. *)
Lemma same_subscripts {A} b (m1 m2 : M E A) : same m1 m2 ->
  same (fun c => let prev := arith_expand_subscripts c in
                 let '(result, c) := m1 (with_expand_subscripts c b) in (result, with_expand_subscripts c prev))
       (fun c => let prev := arith_expand_subscripts c in
                 let '(result, c) := m2 (with_expand_subscripts c b) in (result, with_expand_subscripts c prev)).
Proof.
  intros Hm c Hc. destruct (Hm (with_expand_subscripts c b) Hc) as [Heq Hd]. cbv zeta. rewrite <- Heq.
  by destruct (m1 (with_expand_subscripts c b)).
Qed.

Lemma same_guard {A} e (m1 m2 : M E A) : same m1 m2 -> same (with_guard e m1) (with_guard e m2).
Proof.
  intros Hm c Hc. unfold with_guard. destruct (_ <=? _); [done|].
  destruct (Hm (with_value_depth c (value_depth c + 1)) Hc) as [Heq Hd]. rewrite <- Heq.
  by destruct (m1 (with_value_depth c (value_depth c + 1))).
Qed.
Hint Resolve same_ret same_err same_fuel same_lift same_asks same_get same_get_indexed same_get_assoc same_store : evals.

Ltac head_of m := match m with ?f _ => head_of f | _ => unfold m end.
Ltac same_step :=
  match goal with
  | |- forall _, _ => intros ?
  | |- same _ _ => solve [eauto with evals]
  | |- same (bind _ _) (bind _ _) => apply same_bind
  | |- same (loop _ _ _) (loop _ _ _) => apply same_loop
  | |- same (with_guard _ _) (with_guard _ _) => apply same_guard
  | |- same (match ?x with _ => _ end) _ => destruct x
  | |- same (fun _ => _) _ => apply same_subscripts
  | |- same ?m _ => head_of m
  end.
Ltac sames := repeat same_step.

Context (x1 x2 : bytes -> M E bytes) (Hx : forall s, same (x1 s) (x2 s)).

Record same_rec (r1 r2 : Rec) : Prop := {
  s_fuel : fuel r1 = fuel r2;
  s_comma lex a : same (r_comma r1 lex a) (r_comma r2 lex a);
  s_assign lex a : same (r_assign r1 lex a) (r_assign r2 lex a);
  s_ternary lex a : same (r_ternary r1 lex a) (r_ternary r2 lex a);
  s_power lex a : same (r_power r1 lex a) (r_power r2 lex a);
  s_unary lex a : same (r_unary r1 lex a) (r_unary r2 lex a);
  s_resolve n : same (r_resolve r1 n) (r_resolve r2 n);
  s_value s depth : same (r_value r1 s depth) (r_value r2 s depth);
}.
Hint Resolve Hx s_comma s_assign s_ternary s_power s_unary s_resolve s_value : evals.

Section Step.
Context (r1 r2 : Rec) (Hr : same_rec r1 r2).
Hint Resolve Hr : evals.

Lemma same_index s : same (eval_array_index x1 r1 s) (eval_array_index x2 r2 s).
Proof. sames. Qed.
Hint Resolve same_index : evals.

Lemma same_resolve n : same (resolve_lvalue x1 r1 n) (resolve_lvalue x2 r2 n).
Proof. sames. Qed.
Hint Resolve same_resolve : evals.

Lemma same_load l : same (load_lvalue_value r1 l) (load_lvalue_value r2 l).
Proof. sames. Qed.
Hint Resolve same_load : evals.

Lemma same_value s depth : same (parse_value_recursive x1 r1 s depth) (parse_value_recursive x2 r2 s depth).
Proof. sames. Qed.

Lemma same_active_lvalue n a : same (active_lvalue x1 r1 n a) (active_lvalue x2 r2 n a).
Proof. sames. Qed.
Hint Resolve same_active_lvalue : evals.

Lemma same_primary lex a : same (parse_primary x1 r1 lex a) (parse_primary x2 r2 lex a).
Proof. sames. Qed.
Hint Resolve same_primary : evals.

Lemma same_postfix lex a : same (parse_postfix x1 r1 lex a) (parse_postfix x2 r2 lex a).
Proof. sames. Qed.
Hint Resolve same_postfix : evals.

Lemma same_target lex e sign : same (prefix_inc_dec_target_name r1 lex e sign) (prefix_inc_dec_target_name r2 lex e sign).
Proof. unfold prefix_inc_dec_target_name. rewrite <- (s_fuel _ _ Hr). sames. Qed.
Hint Resolve same_target : evals.

Lemma same_apply_pre lex delta a e : same (apply_pre x1 r1 lex delta a e) (apply_pre x2 r2 lex delta a e).
Proof. sames. Qed.
Hint Resolve same_apply_pre : evals.

Lemma same_operand lex a : same (unary_operand r1 lex a) (unary_operand r2 lex a).
Proof. sames. Qed.
Hint Resolve same_operand : evals.

Lemma same_unary lex a : same (parse_unary x1 r1 lex a) (parse_unary x2 r2 lex a).
Proof. sames. Qed.
Hint Resolve same_unary : evals.

Lemma same_power lex a : same (parse_power x1 r1 lex a) (parse_power x2 r2 lex a).
Proof. sames. Qed.
Hint Resolve same_power : evals.

Lemma same_add lex a : same (parse_add x1 r1 lex a) (parse_add x2 r2 lex a).
Proof. unfold parse_add, parse_mul. rewrite <- (s_fuel _ _ Hr). sames. Qed.
Hint Resolve same_add : evals.

Lemma same_level (sub1 sub2 : Lexer -> bool -> M E (Z * Lexer)) op ra lex a :
  (forall lex a, same (sub1 lex a) (sub2 lex a)) -> same (binary_level r1 sub1 op ra lex a) (binary_level r2 sub2 op ra lex a).
Proof. intros Hs. unfold binary_level. rewrite <- (s_fuel _ _ Hr). sames. Qed.

Lemma same_logor lex a : same (parse_logor x1 r1 lex a) (parse_logor x2 r2 lex a).
Proof.
  unfold parse_logor, parse_logand, parse_bitor, parse_bitxor, parse_bitand, parse_equality, parse_relate, parse_shift.
  do 8 (apply same_level; intros). apply same_add.
Qed.
Hint Resolve same_logor : evals.

Lemma same_ternary lex a : same (parse_ternary x1 r1 lex a) (parse_ternary x2 r2 lex a).
Proof. sames. Qed.
Hint Resolve same_ternary : evals.

Lemma same_assign lex a : same (parse_assign x1 r1 lex a) (parse_assign x2 r2 lex a).
Proof. sames. Qed.
Hint Resolve same_assign : evals.

Lemma same_comma lex a : same (parse_comma x1 r1 lex a) (parse_comma x2 r2 lex a).
Proof. unfold parse_comma. rewrite <- (s_fuel _ _ Hr). sames. Qed.
End Step.

Lemma same_knot n : same_rec (knot x1 n) (knot x2 n).
Proof.
  induction n as [|n IH]; cbn [knot].
  - constructor; cbn [fuel r_comma r_assign r_ternary r_power r_unary r_resolve r_value]; [reflexivity|intros; apply same_fuel..].
  - constructor; cbn [fuel r_comma r_assign r_ternary r_power r_unary r_resolve r_value]; intros.
    + reflexivity.
    + by apply same_comma.
    + by apply same_assign.
    + by apply same_ternary.
    + by apply same_power.
    + by apply same_unary.
    + by apply same_resolve.
    + by apply same_value.
Qed.

Lemma same_eval n s : same (eval x1 n s) (eval x2 n s).
Proof.
  intros c Hc. unfold eval, eval_inner. destruct (is_nil _); [done|]. destruct (prefix_postfix_lvalue_error s); [done|].
  set (c1 := with_arith_depth c _). destruct (_ <? _); [done|].
  assert (Hm : same (let! lex := lift (Lexer_new s) in let! (val, lex) := parse_comma x1 (knot x1 n) lex true in
                     if negb (tok_eqb (cur lex) Tok.Eof) then err (trailing_error s lex) else ret val)
                    (let! lex := lift (Lexer_new s) in let! (val, lex) := parse_comma x2 (knot x2 n) lex true in
                     if negb (tok_eqb (cur lex) Tok.Eof) then err (trailing_error s lex) else ret val)).
  { apply same_bind; [sames|]. intros lex. apply same_bind; [apply same_comma, same_knot|]. sames. }
  destruct (Hm c1 Hc) as [Heq Hd]. rewrite <- Heq.
  match goal with |- context [let '(result, c) := ?m in _] => destruct m as [res c2] end. done.
Qed.

Lemma same_eval_preexpanded n s : same (eval_preexpanded x1 n s) (eval_preexpanded x2 n s).
Proof. unfold eval_preexpanded. apply (same_subscripts false (eval_inner x1 (knot x1 n) s) (eval_inner x2 (knot x2 n) s)). exact (same_eval n s). Qed.
End Congruence.
