(* ===== verification/WordsProps.v ===== *)
(** The nesting limit bounds the recursion of word expansion. *)
From S2P Require Import Prelude Env Utf8 Options Vars Buf Pattern Split Quote Expand Internal Scan Param Transform Dollar Words.
From S2P Require Import WordsArith TestEnv ParamProps.
From S2P Require ArithEval.

(** * Steps that agree from a depth on *)

(** From depth [d] on the steps do the same, and do not fall below [d]. *)
Definition agree {E A} (d : Z) (m1 m2 : M E A) : Prop :=
  forall c, d <= depth c -> m1 c = m2 c /\ d <= depth (m1 c).2.

Create HintDb agree.

Section Agree.
Context {E : Type} (d : Z).

Lemma agree_ret {A} (a : A) : agree (E:=E) d (ret a) (ret a).
Proof. by intros c Hc. Qed.

Lemma agree_fail {A} e : agree (E:=E) (A:=A) d (fail e) (fail e).
Proof. by intros c Hc. Qed.

Lemma agree_asks {A} (f : ExpCtx E -> A) : agree d (asks f) (asks f).
Proof. by intros c Hc. Qed.

Lemma agree_panic {A} : agree (E:=E) (A:=A) d panic panic.
Proof. by intros c Hc. Qed.

Lemma agree_bind {A B} (m1 m2 : M E A) (k1 k2 : A -> M E B) :
  agree d m1 m2 -> (forall a, agree d (k1 a) (k2 a)) -> agree d (bind m1 k1) (bind m2 k2).
Proof.
  intros Hm Hk c Hc. destruct (Hm c Hc) as [Heq Hd]. unfold bind. rewrite <- Heq.
  destruct (m1 c) as [[a|e|] c'] eqn:Em; cbn [fst snd] in *; [by apply Hk|done|done].
Qed.

Lemma agree_read_env {A} (f : E -> A * E) : agree d (read_env f) (read_env f).
Proof. intros c Hc. unfold read_env. by destruct (f (env c)). Qed.

Lemma agree_env_write f : agree (E:=E) d (env_write f) (env_write f).
Proof. by intros c Hc. Qed.

Lemma agree_ignore {A} (other : A) (m1 m2 : M E A) : agree d m1 m2 -> agree d (ignore_error other m1) (ignore_error other m2).
Proof.
  intros Hm c Hc. destruct (Hm c Hc) as [Heq Hd]. unfold ignore_error. rewrite <- Heq.
  by destruct (m1 c) as [[a|e|] c'].
Qed.

(** A flag of the context does not change its depth. *)
Lemma agree_scoped {A B} (get : ExpCtx E -> B) (set : B -> ExpCtx E -> ExpCtx E) b (m1 m2 : M E A) :
  (forall b c, depth (set b c) = depth c) -> agree d m1 m2 -> agree d (scoped get set b m1) (scoped get set b m2).
Proof.
  intros Hs Hm c Hc. destruct (Hm (set b c)) as [Heq Hd]; [by rewrite Hs|]. unfold scoped. rewrite <- Heq.
  destruct (m1 (set b c)) as [r c']. cbn [fst snd] in *. by rewrite Hs.
Qed.

Lemma agree_scanned r : agree (E:=E) d (scanned r) (scanned r).
Proof. intros c Hc. unfold scanned. by destruct r. Qed.
End Agree.
#[export] Hint Resolve agree_ret agree_fail agree_asks agree_panic agree_read_env agree_env_write agree_scanned : agree.

(** The definition of a step. *)
Ltac unfold_head m :=
  match m with
  | ?f _ => unfold_head f
  | _ => unfold m
  end.

(** Work through a step: its sequence, its branches, the steps known to agree. *)
Ltac agree_step :=
  match goal with
  | |- forall _, _ => intros ?
  | |- agree _ _ _ => solve [eauto with agree]
  | |- agree _ (bind _ _) (bind _ _) => apply agree_bind
  | |- agree _ (ignore_error _ _) (ignore_error _ _) => apply agree_ignore
  | |- agree _ (scoped _ _ _ _) (scoped _ _ _ _) => apply agree_scoped; [done|]
  | |- agree _ (match ?x with _ => _ end) _ => destruct x
  | |- agree _ ?m _ => unfold_head m
  end.
Ltac agrees := repeat agree_step.

(** * Parameter expansion *)

Section Param.
Context {E : Type} `{Environment E} `{Parameters E} `{Arrays E} `{Casing}.
Context (d : Z) (W1 W2 : WordExpansion E).
Context (Hword : forall wd nt, agree d (@word_internal E W1 wd nt) (@word_internal E W2 wd nt)).
Context (Heval : forall s, agree d (@eval_preexpanded E W1 s) (@eval_preexpanded E W2 s)).
Context (Htransform : forall n r q o, agree d (@Param.handle_transform E W1 n r q o) (@Param.handle_transform E W2 n r q o)).
Context (Hcurrent : forall s q m, agree d (@Param.current_substitute E W1 s q m) (@Param.current_substitute E W2 s q m)).
Hint Resolve Hword Heval Htransform Hcurrent : agree.

Lemma agree_get name : agree (E:=E) d (get name) (get name).
Proof. intros c Hc. unfold get. by destruct (env_get (env c) name). Qed.
Hint Resolve agree_get : agree.

Lemma agree_subscript_or {A} target subscript (other1 other2 : M E A) (k1 k2 : Z -> M E A) :
  agree d other1 other2 -> (forall z, agree d (k1 z) (k2 z)) ->
  agree d (subscript_or (H3:=W1) target subscript other1 k1) (subscript_or (H3:=W2) target subscript other2 k2).
Proof.
  intros Ho Hk.
  assert (Hp : agree d (parse_indexed_subscript (H3:=W1) target subscript target) (parse_indexed_subscript (H3:=W2) target subscript target)) by agrees.
  intros c Hc. destruct (Hp c Hc) as [Heq Hd]. unfold subscript_or. rewrite <- Heq.
  destruct (parse_indexed_subscript target subscript target c) as [[z|e|] c']; cbn [fst snd] in *; [by apply Hk| |done].
  destruct e; try done. by apply Ho.
Qed.

Lemma agree_map_nameref {A} target source (m1 m2 : M E A) :
  agree d m1 m2 -> agree d (map_nameref_unbound target source m1) (map_nameref_unbound target source m2).
Proof.
  intros Hm c Hc. destruct (Hm c Hc) as [Heq Hd]. unfold map_nameref_unbound. rewrite <- Heq.
  destruct (m1 c) as [[a|e|] c']; try done. by destruct e.
Qed.

Lemma agree_substring_arith name s : agree d (eval_substring_arith (H3:=W1) name s) (eval_substring_arith (H3:=W2) name s).
Proof.
  intros c Hc. destruct (Heval s c Hc) as [Heq Hd]. unfold eval_substring_arith. rewrite <- Heq.
  destruct (eval_preexpanded s c) as [[z|e|] c']; try done. by destruct e.
Qed.

Lemma agree_assign name value : agree (E:=E) d (assign_variable name value) (assign_variable name value).
Proof. intros c Hc. unfold assign_variable. by destruct (env_assign (env c) name value). Qed.
Hint Resolve agree_substring_arith agree_assign : agree.
Hint Extern 1 (agree _ (subscript_or _ _ _ _) _) => apply agree_subscript_or; agrees : agree.
Hint Extern 1 (agree _ (map_nameref_unbound _ _ _) _) => apply agree_map_nameref; agrees : agree.

Lemma agree_read_element name target subscript :
  agree d (read_element (H3:=W1) name target subscript) (read_element (H3:=W2) name target subscript).
Proof. agrees. Qed.
Hint Resolve agree_read_element : agree.

Lemma agree_read_scalar name len : agree d (read_scalar (H3:=W1) name len) (read_scalar (H3:=W2) name len).
Proof. agrees. Qed.

Lemma agree_read_value name : agree d (read_value (H3:=W1) name) (read_value (H3:=W2) name).
Proof. agrees. Qed.

Lemma agree_element name : agree d (read_element_value_if_set (H3:=W1) name) (read_element_value_if_set (H3:=W2) name).
Proof. agrees. Qed.
Hint Resolve agree_read_scalar agree_read_value agree_element : agree.

Lemma agree_is_set name : agree d (parameter_is_set (H3:=W1) name) (parameter_is_set (H3:=W2) name).
Proof. agrees. Qed.
Hint Resolve agree_is_set : agree.

Lemma agree_push_value name q out : agree d (push_parameter_value (H3:=W1) name q out) (push_parameter_value (H3:=W2) name q out).
Proof. agrees. Qed.

Lemma agree_assign_default name value :
  agree d (assign_default_parameter (H3:=W1) name value) (assign_default_parameter (H3:=W2) name value).
Proof.
  agrees.
Qed.
Hint Resolve agree_push_value agree_assign_default : agree.

Lemma agree_default_alt name op colon word q out :
  agree d (handle_default_alt (H3:=W1) name op colon word q out) (handle_default_alt (H3:=W2) name op colon word q out).
Proof. agrees. Qed.

Lemma agree_substring name rest q out :
  agree d (handle_substring (H3:=W1) name rest q out) (handle_substring (H3:=W2) name rest q out).
Proof. agrees. Qed.

Lemma agree_remove name pat prefix longest q out :
  agree d (handle_remove (H3:=W1) name pat prefix longest q out) (handle_remove (H3:=W2) name pat prefix longest q out).
Proof. agrees. Qed.

Lemma agree_patsub name rest q out :
  agree d (handle_patsub (H3:=W1) name rest q out) (handle_patsub (H3:=W2) name rest q out).
Proof. agrees. Qed.

Lemma agree_casemod name pat mode q out :
  agree d (handle_casemod (H3:=W1) name pat mode q out) (handle_casemod (H3:=W2) name pat mode q out).
Proof. agrees. Qed.
Hint Resolve agree_default_alt agree_substring agree_remove agree_patsub agree_casemod : agree.

Lemma agree_length name : agree d (compute_length (H3:=W1) name) (compute_length (H3:=W2) name).
Proof. agrees. Qed.

(** The pattern operators, where there is one. *)
Lemma agree_pattern_operator name op word q out (other1 other2 : M E ExpandBuf) :
  agree d other1 other2 ->
  agree d (match pattern_operator (H3:=W1) name op word q out with Some m => m | None => other1 end)
          (match pattern_operator (H3:=W2) name op word q out with Some m => m | None => other2 end).
Proof. intros Ho. unfold pattern_operator. do 6 (match goal with |- context [op =? ?k] => destruct (op =? k); [agrees|] end). agrees. Qed.
Hint Extern 1 (agree _ (match pattern_operator _ _ _ _ _ with _ => _ end) _) => apply agree_pattern_operator; agrees : agree.
Hint Resolve agree_length : agree.

Lemma agree_unset_indirect name op word q out :
  agree d (handle_unset_indirect_default (H3:=W1) name op word q out) (handle_unset_indirect_default (H3:=W2) name op word q out).
Proof. agrees. Qed.
Hint Resolve agree_unset_indirect : agree.

Lemma agree_indirect_operation nm op rest q out :
  agree d (indirect_operation (H3:=W1) nm op rest q out) (indirect_operation (H3:=W2) nm op rest q out).
Proof. agrees. Qed.
Hint Resolve agree_indirect_operation : agree.

Lemma agree_indirection rest q out :
  agree d (handle_indirection (H3:=W1) rest q out) (handle_indirection (H3:=W2) rest q out).
Proof.
  unfold handle_indirection. destruct (last rest) as [l|]; [|agrees].
  repeat match goal with |- agree _ (if ?b then _ else _) _ => destruct b; [agrees|] end.
  destruct (find_byte "["%b rest) as [k|]; [|agrees].
  repeat match goal with |- agree _ (match (if ?b then _ else _) with _ => _ end) _ => destruct b; [agrees|] end. agrees.
Qed.

Lemma agree_operator body name op q out :
  agree d (expand_operator (H3:=W1) body name op q out) (expand_operator (H3:=W2) body name op q out).
Proof. agrees. Qed.
Hint Resolve agree_indirection agree_operator : agree.

Lemma agree_brace word i q out :
  agree d (parameter_brace_expand (H3:=W1) word i q out) (parameter_brace_expand (H3:=W2) word i q out).
Proof. agrees. Qed.
End Param.

(** * The [@] operators, arithmetic and substitutions *)

(** What the expander calls does not lower the depth. *)
Class DepthSafe (E : Type) `{CommandRunner E} `{Runner E} := {
  safe_subst d src : agree (E:=E) d (run_subst src) (run_subst src);
  safe_backquote d src : agree (E:=E) d (run_backquote_subst src) (run_backquote_subst src);
  safe_input d word q : agree (E:=E) d (read_input_file word q) (read_input_file word q);
  safe_current d src m : agree (E:=E) d (run_current_subst src m) (run_current_subst src m);
  safe_spawn d dir src : agree (E:=E) d (spawn_proc_subst dir src) (spawn_proc_subst dir src);
}.

(** Arithmetic over expansions that agree agrees. *)
Class ArithSafe (E : Type) `{Arithmetic E} := {
  safe_eval d x1 x2 s : (forall t, agree (E:=E) d (x1 t) (x2 t)) -> agree d (a_eval x1 s) (a_eval x2 s);
  safe_preexpanded d x1 x2 s :
    (forall t, agree (E:=E) d (x1 t) (x2 t)) -> agree d (a_eval_preexpanded x1 s) (a_eval_preexpanded x2 s);
}.

Section Dollar.
Context {E : Type} `{Environment E} `{Parameters E} `{Arrays E} `{Casing} `{PromptInfo E} `{CommandRunner E} `{Runner E} `{!DepthSafe E}.
Context (d : Z) (W1 W2 : WordExpansion E) (T1 T2 : ArithText E).
Context (Hword : forall wd nt, agree d (@word_internal E W1 wd nt) (@word_internal E W2 wd nt)).
Context (Heval : forall s, agree d (@eval_preexpanded E W1 s) (@eval_preexpanded E W2 s)).
Context (Htext : forall s, agree d (@arith_eval E T1 s) (@arith_eval E T2 s)).
Hint Resolve Hword Heval Htext agree_get agree_read_scalar agree_read_value agree_element agree_is_set agree_substring_arith agree_assign : agree.
Hint Resolve safe_subst safe_backquote safe_input safe_current safe_spawn : agree.

Lemma agree_prompt_loop fuel s out : agree (E:=E) d (prompt_loop fuel s out) (prompt_loop fuel s out).
Proof.
  revert s out. induction fuel as [|fuel IH]; intros [|b r] out; cbn [prompt_loop]; try apply agree_ret.
  assert (Hesc : forall n r', agree (E:=E) d (prompt_escape n r') (prompt_escape n r')) by agrees. agrees.
Qed.
Hint Resolve agree_prompt_loop : agree.

Lemma agree_map_m {A B} (f1 f2 : A -> M E B) l : (forall x, agree d (f1 x) (f2 x)) -> agree d (map_m f1 l) (map_m f2 l).
Proof. intros Hf. induction l as [|x l IH]; cbn [map_m]; agrees. Qed.
Hint Extern 1 (agree _ (map_m _ _) _) => apply agree_map_m; agrees : agree.

Lemma agree_transform name rest q out :
  agree d (Transform.handle_transform (H3:=W1) name rest q out) (Transform.handle_transform (H3:=W2) name rest q out).
Proof. agrees. Qed.

Lemma agree_preserve fuel s chunk out :
  agree d (preserve_loop (H3:=W1) fuel s chunk out) (preserve_loop (H3:=W2) fuel s chunk out).
Proof. revert s chunk out. induction fuel as [|fuel IH]; intros [|b r] chunk out; cbn [preserve_loop]; agrees. Qed.
Hint Resolve agree_preserve : agree.

Lemma agree_push_arith body q out : agree d (push_arith (H3:=W1) (H7:=T1) body q out) (push_arith (H3:=W2) (H7:=T2) body q out).
Proof. agrees. Qed.
Hint Resolve agree_push_arith : agree.

Lemma agree_command_substitute src q b line : agree (E:=E) d (command_substitute src q b line) (command_substitute src q b line).
Proof.
  intros c Hc. split; [done|]. unfold command_substitute.
  assert (Hon : forall (b : bool) f (c : ExpCtx E), depth (if b then on_env f c else c) = depth c) by (by intros []).
  set (c1 := match line with Some _ => _ | None => _ end).
  assert (Hc1 : d <= depth c1) by (unfold c1; destruct line; by rewrite ?Hon). clearbody c1.
  destruct (input_file_substitution_word _) as [w|].
  - destruct (safe_input d w q c1 Hc1) as [_ Hd]. destruct (read_input_file w q c1). cbn [snd] in *. by rewrite Hon.
  - match goal with |- context [if b then run_backquote_subst ?x c1 else _] =>
      pose proof (proj2 (safe_backquote d x c1 Hc1)) as Hb; pose proof (proj2 (safe_subst d x c1 Hc1)) as Hs;
      destruct b; [destruct (run_backquote_subst x c1) as [[y|e|] c2]|destruct (run_subst x c1) as [[y|e|] c2]] end;
      cbn [snd with_last_status depth] in *; by rewrite Hon.
Qed.
Hint Resolve agree_command_substitute : agree.

Lemma agree_dollar_bracket word i q out :
  agree d (Dollar.dollar_bracket (H3:=W1) (H7:=T1) word i q out) (Dollar.dollar_bracket (H3:=W2) (H7:=T2) word i q out).
Proof. agrees. Qed.

Lemma agree_dollar_paren word i q out :
  agree d (Dollar.dollar_paren (H3:=W1) (H7:=T1) word i q out) (Dollar.dollar_paren (H3:=W2) (H7:=T2) word i q out).
Proof. agrees. Qed.

Lemma agree_process word i q out :
  agree (E:=E) d (Dollar.process_subst_expand word i q out) (Dollar.process_subst_expand word i q out).
Proof.
  unfold Dollar.process_subst_expand, process_substitute. apply agree_bind; [agrees|]. intros x. apply agree_bind; [|agrees].
  apply agree_bind; [agrees|]. by intros handle c Hc.
Qed.

Lemma agree_current src q m : agree (E:=E) d (Dollar.current_substitute src q m) (Dollar.current_substitute src q m).
Proof. unfold Dollar.current_substitute. apply agree_bind; [agrees|]. by intros x c Hc. Qed.
End Dollar.

(** * The walk over a word *)

Record constructs_agree {E : Type} (d : Z) (C1 C2 : Constructs E) : Prop := {
  ca_brace w i q o : agree d (@Internal.parameter_brace_expand E C1 w i q o) (@Internal.parameter_brace_expand E C2 w i q o);
  ca_paren w i q o : agree d (@Internal.dollar_paren E C1 w i q o) (@Internal.dollar_paren E C2 w i q o);
  ca_bracket w i q o : agree d (@Internal.dollar_bracket E C1 w i q o) (@Internal.dollar_bracket E C2 w i q o);
  ca_process w i q o : agree d (@Internal.process_subst_expand E C1 w i q o) (@Internal.process_subst_expand E C2 w i q o);
  ca_scalar n l : agree d (@Internal.read_scalar E C1 n l) (@Internal.read_scalar E C2 n l);
  ca_value n q o : agree d (@Internal.push_parameter_value E C1 n q o) (@Internal.push_parameter_value E C2 n q o);
  ca_gettext : @gettext_translation E C1 = @gettext_translation E C2;
  ca_compat : @compat_version E C1 = @compat_version E C2;
}.

Section Walk.
Context {E : Type} `{Environment E} `{Parameters E} `{Passwd} `{CommandRunner E} `{Runner E} `{!DepthSafe E}.
Context (d : Z) (C1 C2 : Constructs E) (HC : constructs_agree d C1 C2).
Hint Resolve agree_get agree_command_substitute : agree.
Hint Resolve HC ca_brace ca_paren ca_bracket ca_process ca_scalar ca_value : agree.

Lemma agree_out_of_fuel {A} : agree (E:=E) (A:=A) d (fun c => (Fuel, c)) (fun c => (Fuel, c)).
Proof. by intros c Hc. Qed.
Hint Resolve agree_out_of_fuel : agree.

Lemma agree_map_err {A} f (m1 m2 : M E A) : agree d m1 m2 -> agree d (map_err f m1) (map_err f m2).
Proof.
  intros Hm c Hc. destruct (Hm c Hc) as [Heq Hd]. unfold map_err. rewrite <- Heq. by destruct (m1 c) as [[a|e|] c'].
Qed.
Hint Extern 1 (agree _ (map_err _ _) _) => apply agree_map_err; agrees : agree.

Lemma agree_expand_special name q out : agree (E:=E) d (expand_special name q out) (expand_special name q out).
Proof. agrees. Qed.
Hint Resolve agree_expand_special : agree.

Lemma agree_dispatch a1 a2 l1 l2 word i q out :
  (forall w i o, agree d (a1 w i o) (a2 w i o)) -> (forall w i o, agree d (l1 w i o) (l2 w i o)) ->
  agree d (param_dispatch (H3:=C1) a1 l1 word i q out) (param_dispatch (H3:=C2) a2 l2 word i q out).
Proof. intros Ha Hl. unfold param_dispatch. agrees. Qed.

Lemma agree_dq_loop fuel word esc i out any :
  agree d (dq_loop (H3:=C1) fuel word esc i out any) (dq_loop (H3:=C2) fuel word esc i out any).
Proof.
  revert i out any. induction fuel as [|fuel IH]; intros i out any; cbn [dq_loop]; agrees.
Qed.
Hint Resolve agree_dq_loop : agree.

Lemma agree_locale_quote word i out : agree d (locale_quote (H3:=C1) word i out) (locale_quote (H3:=C2) word i out).
Proof. unfold locale_quote. rewrite (ca_gettext d C1 C2 HC). agrees. Qed.
Hint Resolve agree_locale_quote : agree.

Lemma agree_param_expand word i q out : agree d (param_expand (H3:=C1) word i q out) (param_expand (H3:=C2) word i q out).
Proof. unfold param_expand. apply agree_dispatch; agrees. Qed.
Hint Resolve agree_param_expand : agree.

Lemma agree_backslash word flags st : agree d (step_backslash (H3:=C1) word flags st) (step_backslash (H3:=C2) word flags st).
Proof. unfold step_backslash. rewrite (ca_compat d C1 C2 HC). agrees. Qed.
Hint Resolve agree_backslash : agree.

Lemma agree_run_step word flags awt b st : agree d (run_step (H3:=C1) word flags awt b st) (run_step (H3:=C2) word flags awt b st).
Proof. agrees. Qed.
Hint Resolve agree_run_step : agree.

Lemma agree_run_loop word flags awt fuel st :
  agree d (run_loop (H3:=C1) word flags awt fuel st) (run_loop (H3:=C2) word flags awt fuel st).
Proof. revert st. induction fuel as [|fuel IH]; intros st; cbn [run_loop]; agrees. Qed.
Hint Resolve agree_run_loop : agree.

Lemma agree_run wd nt : agree d (run (H3:=C1) wd nt) (run (H3:=C2) wd nt).
Proof. unfold run. agrees. Qed.
End Walk.

Section Levels.
Context {E : Type} `{Environment E} `{Parameters E} `{Arrays E} `{Casing} `{Passwd} `{CommandRunner E} `{Runner E} `{PromptInfo E}
  `{Arithmetic E} `{Translation E} `{!DepthSafe E} `{!ArithSafe E}.

(** A word at depth [d] is walked at depth [d + 1], or refused. *)
Lemma agree_word d (C1 C2 : Constructs E) wd nt :
  0 <= d <= EXPANSION_NESTING_MAX -> (d < EXPANSION_NESTING_MAX -> constructs_agree (d + 1) C1 C2) ->
  agree d (expand_word_internal (H3:=C1) wd nt) (expand_word_internal (H3:=C2) wd nt).
Proof.
  intros H0d HC c Hc. unfold expand_word_internal, enter.
  set (c1 := with_depth (Z.min (depth c + 1) (2 ^ 32 - 1)) c).
  assert (Hc1 : depth c1 = Z.min (depth c + 1) (2 ^ 32 - 1)) by done.
  destruct (EXPANSION_NESTING_MAX <? depth c1) eqn:El; [cbn [snd]; split; [done|]|].
  - apply Z.ltb_lt in El. unfold EXPANSION_NESTING_MAX in *. lia.
  - apply Z.ltb_ge in El. unfold EXPANSION_NESTING_MAX in *.
    destruct (agree_run (d + 1) C1 C2 (HC ltac:(lia)) wd nt c1 ltac:(lia)) as [Heq Hd]. rewrite <- Heq.
    destruct (run wd nt c1) as [r c2]. cbn [snd] in *. split; [done|]. unfold leave.
    destruct (0 <? depth c2) eqn:Ez; [cbn; lia|]. apply Z.ltb_ge in Ez. lia.
Qed.

(** Constructs over words that agree. *)
Lemma agree_over d (C1 C2 : Constructs E) :
  (forall wd nt, agree d (expand_word_internal (H3:=C1) wd nt) (expand_word_internal (H3:=C2) wd nt)) ->
  constructs_agree d (constructs_over C1) (constructs_over C2).
Proof.
  intros Hw.
  assert (Hs : forall s, agree d (@expand_arith_string_to_string_impl E (words C1) s) (@expand_arith_string_to_string_impl E (words C2) s))
    by (intros s; apply agree_bind; [apply Hw|agrees]).
  assert (Hp : forall s, agree d (@eval_preexpanded E (words C1) s) (@eval_preexpanded E (words C2) s))
    by (intros s; apply safe_preexpanded, Hs).
  assert (Ht : forall s, agree d (@arith_eval E (texts C1) s) (@arith_eval E (texts C2) s)) by (intros s; apply safe_eval, Hs).
  assert (Htr : forall n r q o, agree d (@Param.handle_transform E (words C1) n r q o) (@Param.handle_transform E (words C2) n r q o))
    by (intros; apply (agree_transform d (plain_words C1) (plain_words C2) Hw Hp)).
  assert (Hc : forall s q m, agree d (@Param.current_substitute E (words C1) s q m) (@Param.current_substitute E (words C2) s q m))
    by (intros; apply agree_current).
  constructor; intros; cbv beta zeta delta [constructs_over]; cbn [Internal.parameter_brace_expand Internal.dollar_paren Internal.dollar_bracket
    Internal.process_subst_expand Internal.read_scalar Internal.push_parameter_value gettext_translation compat_version].
  - apply (agree_brace d (words C1) (words C2) Hw Hp Htr Hc).
  - apply (agree_dollar_paren d (words C1) (words C2) (texts C1) (texts C2) Hw Hp Ht).
  - apply (agree_dollar_bracket d (words C1) (words C2) (texts C1) (texts C2) Hw Hp Ht).
  - apply agree_process.
  - apply (agree_read_scalar d (words C1) (words C2) Hw Hp).
  - apply (agree_push_value d (words C1) (words C2) Hw Hp).
  - reflexivity.
  - reflexivity.
Qed.

Lemma agree_levels (m n : nat) d :
  0 <= d <= EXPANSION_NESTING_MAX -> EXPANSION_NESTING_MAX < Z.of_nat m + d -> EXPANSION_NESTING_MAX < Z.of_nat n + d -> (0 < m)%nat -> (0 < n)%nat ->
  constructs_agree d (constructs m) (constructs n).
Proof.
  revert n d. induction m as [|m IH]; intros [|n] d Hd Hm Hn Hm0 Hn0; try lia. cbn [constructs].
  apply agree_over. intros wd nt. apply agree_word; [done|]. intros Hlt. unfold EXPANSION_NESTING_MAX in *. apply IH; lia.
Qed.

Lemma levels_enough (n : nat) (wd : Wd) (no_tilde : bool) (c : ExpCtx E) :
  (32 <= n)%nat -> 0 <= depth c -> expand_word n wd no_tilde c = expand_word 32 wd no_tilde c.
Proof.
  intros Hn Hd. apply (agree_word 0 (constructs n) (constructs 32)); [done| |done].
  intros _. apply agree_levels; unfold EXPANSION_NESTING_MAX; lia.
Qed.
End Levels.

(** * The arithmetic evaluator *)

Section ArithSafe.
Context {E : Type} `{Environment E}.

Lemma in_arith_same {A} d (m1 m2 : M E A) :
  agree d m1 m2 -> same (fun c => d <= depth c) (in_arith_eval m1) (in_arith_eval m2).
Proof.
  intros Hm c Hc. destruct (Hm (leave_arith c) Hc) as [Heq Hd]. unfold in_arith_eval. rewrite <- Heq.
  by destruct (m1 (leave_arith c)).
Qed.

Lemma run_arith_agree {A} d (m1 m2 : ArithEval.M (ExpCtx E) A) :
  same (fun c => d <= depth c) m1 m2 -> agree d (run_arith m1) (run_arith m2).
Proof.
  intros Hm c Hc. destruct (Hm (enter_arith c) Hc) as [Heq Hd]. unfold run_arith. rewrite <- Heq.
  by destruct (m1 (enter_arith c)).
Qed.

#[export] Instance arithmetic_safe (n : nat) : @ArithSafe E (arithmetic n).
Proof.
  constructor; intros d x1 x2 s Hx; apply run_arith_agree; [apply same_eval|apply same_eval_preexpanded];
    try (intros; by apply in_arith_same); intros; cbn; by match goal with |- context [let '(_, _) := ?m in _] => destruct m end || done.
Qed.
End ArithSafe.

(** C29: The nesting limit of 32 bounds the recursion of the expander. A word may contain
    expansions whose words contain expansions, the values of variables may be arithmetic texts
    with further ones, and so on; still 32 levels of expansion decide every word at every depth
    that is not negative: with more levels the result, the error and the context are the same.
    The arithmetic evaluator has the same, arbitrary, fuel on both sides, and what runs commands
    and reads files, which are parameters here, is assumed not to lower the depth. *)
Theorem nesting_is_bounded {E : Type} `{Environment E} `{Parameters E} `{Arrays E} `{Casing} `{Passwd} `{CommandRunner E} `{Runner E}
    `{PromptInfo E} `{Translation E} `{!DepthSafe E} (fuel n : nat) (wd : Wd) (no_tilde : bool) (c : ExpCtx E)
    (Hn : (32 <= n)%nat) (Hdepth : 0 <= depth c) :
  let A := arithmetic fuel in expand_word n wd no_tilde c = expand_word 32 wd no_tilde c.
Proof. intros A. by apply levels_enough. Qed.

(** * The expander at work *)

Module WordsExample.
#[export] Instance test_runner : Runner TestEnv := {
  run_current_subst _ _ := unavailable; spawn_proc_subst _ _ := unavailable; diagnostic_line _ := None }.
#[export] Instance test_prompt : PromptInfo TestEnv := {
  prompt_history_number _ := 1; prompt_command_number _ := 1; prompt_job_count _ := 0; prompt_nonprinting_markers _ := false;
  prompt_shell_name _ := None; strftime_now f := f; current_user_name := bs "al"; gethostname := bs "host.lan";
  process_dir := Some (bs "/"); compat_bash_version := None }.
#[export] Instance test_arithmetic : Arithmetic TestEnv := arithmetic 60.
#[export] Instance test_translation : Translation TestEnv := { translation _ s := s }.

#[export] Instance test_safe : DepthSafe TestEnv.
Proof. by constructor. Qed.

Definition e_acute : bytes := [195; 169].

Definition vars : MapEnv.t :=
  fold_left (fun e '(n, v) => MapEnv.set e (bs n) v)
    [("x"%string, bs "a/b/c"); ("n"%string, []); ("i"%string, bs "2"); ("j"%string, bs "i*i"); ("prompt"%string, bs "\w> ");
     ("PWD"%string, bs "/home/alice"); ("HOME"%string, bs "/home/al"); ("accent"%string, e_acute)] MapEnv.empty.

Definition sample : ExpCtx TestEnv :=
  mkCtx (mkTest vars [bs "one"; bs "two"]) (from_env None) 0 0 false false false true false false 0 [].

Definition expansion (w : bytes) : option bytes :=
  match expand_word 32 (from_bytes_with_flags w 0) false sample with
  | (Ok wd, _) => Some (dequote_bytes (buf_bytes (wd_buf wd)))
  | _ => None
  end.

Example words_at_work :
  expansion (bs "${y:-${n:-$((j*3))}}") = Some (bs "12") /\ expansion (bs "${x#${z:-a/}}") = Some (bs "b/c")
  /\ expansion (bs "${x:$((i-1)):i}") = Some (bs "/b") /\ expansion (bs "${!i}") = Some (bs "two")
  /\ expansion (bs "${x@Q}") = Some (bs "'a/b/c'") /\ expansion (bs "$[i+1]${#x}") = Some (bs "35")
  /\ expansion (bs "${x//\//${y-::}}") = Some (bs "a::b::c") /\ expansion (bs "$(date)") = None.
Proof. vm_compute. repeat split. Qed.

(** [${y-${y-..}}], nested. *)
Fixpoint nested (n : nat) : bytes := match n with O => bs "end" | S n => bs "${y-" ++ nested n ++ bs "}" end.

Definition result (w : bytes) : Res ExpandError bytes :=
  match expand_word 32 (from_bytes_with_flags w 0) false sample with
  | (Ok wd, _) => Ok (buf_bytes (wd_buf wd))
  | (Err e, _) => Err e
  | (Fuel, _) => Fuel
  end.

Lemma nesting_is_bounded_witness :
  (let A := arithmetic (E:=TestEnv) 60 in
   expand_word 40 (from_bytes_with_flags (nested 40) 0) false sample = expand_word 32 (from_bytes_with_flags (nested 40) 0) false sample)
  /\ result (nested 31) = Ok (bs "end") /\ result (nested 32) = Err (SubstitutionRecursive 33).
Proof.
  split; [exact (nesting_is_bounded 60 40 (from_bytes_with_flags (nested 40) 0) false sample ltac:(lia) (Z.le_refl 0))|].
  split; vm_compute; reflexivity.
Defined.

(** The home directory is replaced in a prompt by its first bytes alone: in
    [/home/alice] with the home directory [/home/al] the prompt [\w> ] is [~ice> ].  And
    a prompt is read byte by byte, so each byte of a character becomes a character. *)
Theorem prompt_escapes_misread :
  expansion (bs "${prompt@P}") = Some (bs "~ice> ")
  /\ expansion (bs "$accent") = Some e_acute /\ expansion (bs "${accent@P}") = Some [195; 131; 194; 169].
Proof. vm_compute. repeat split. Qed.

(** The name before [[""]] in an arithmetic text is cut one byte after the start of the
    character before it: after a character of two bytes the program panics. *)
Theorem arithmetic_text_panics :
  result (bs "$((x[" ++ [dquote; dquote] ++ bs "]))") = Err (ArithSyntax (bs "`x[]': not a valid identifier"))
  /\ result (bs "$((" ++ e_acute ++ bs "[" ++ [dquote; dquote] ++ bs "]))") = Fuel.
Proof. vm_compute. split; reflexivity. Qed.
End WordsExample.
