(* ===== verification/Entry.v ===== *)
(** The entry points of the expander (crates/expander/src/lib.rs): each makes a context
    for the shell's variables, expands, and closes the process substitutions.

    The entry points at work, over an environment that reads numbers as positional
    parameters, as the shell's own does. *)
From stdpp Require Import gmap.
From S2P Require Import Prelude Env Utf8 Buf Pattern Split Quote Expand Internal TestEnv Brace Pipeline Options Vars Scan Param ParamProps Transform Dollar Words WordsProps.

Section Entry.
Context {E : Type} `{Environment E} `{Parameters E} `{Arrays E} `{Casing} `{Passwd} `{CommandRunner E} `{Runner E} `{PromptInfo E}
  `{Constructs E} `{Globbing E} `{WordExpansion E} `{ArithText E}.

(** [ExpCtx::new]. *)
Definition ctx_new (e : E) : ExpCtx E :=
  let nounset := env_option e (bs "nounset") in
  let '(v, e) := env_get e (bs "IFS") in
  mkCtx e (from_env (value_bytes <$> v)) 0 0 false false false true nounset false 0 [].

(** The result of a step in a new context, and the variables after it. *)
Definition in_new_ctx {A} (m : M E A) (e : E) : Res ExpandError A * E :=
  let '(r, c) := m (ctx_new e) in (r, env c).

(** A step that reads the variables only. *)
Definition in_env {A} (m : M E A) (e : E) : Res ExpandError A * E :=
  let '(r, c) := m (mkCtx e (from_env None) 0 0 false false false true false false 0 []) in (r, env c).

Definition expand_word_list (words : list WordDesc) (flags : Z) : E -> Res ExpandError (list WordDesc) * E :=
  in_new_ctx (pipeline_run words flags).

Definition expand_string_to_string (s : bytes) : E -> Res ExpandError bytes * E := in_new_ctx (run_string s).

Definition expand_heredoc_string (s : bytes) : E -> Res ExpandError bytes * E := in_new_ctx (run_heredoc_string s).

Definition expand_case_pattern_bytes (word : WordDesc) : E -> Res ExpandError bytes * E :=
  let wd := from_parser word in
  in_new_ctx (expanded <- expand_word_internal (mkWd (wd_buf wd) (Z.lor (wd_flags wd) W_NOSPLIT) (quoted_state wd)) false ;;
              ret (buf_bytes (wd_buf expanded))).

Definition expand_for_arith (expr : bytes) : E -> Res ExpandError Z * E := in_new_ctx (eval_arith_expression_impl expr).

Definition expand_for_arith_with_text (expr : bytes) : E -> Res ExpandError (bytes * Z) * E :=
  in_new_ctx (eval_arith_expression_with_text_impl expr).

(** [$name] and nothing else. *)
Definition simple_parameter_word (s : bytes) : option bytes :=
  name ← strip_prefix (bs "$") s;
  match name with
  | [] => None
  | _ => if one_of name ["?"; "#"; "$"; "!"; "-"]%string || forallb is_ascii_digit name || is_valid_name_str name then Some name else None
  end.

(** The general case. *)
Definition expand_assignment_word (s : bytes) : M E bytes :=
  words <- scoped assign_in_progress with_assign_in_progress true
             (pipeline_run [mkWord s (Z.lor W_ASSIGNRHS W_NOSPLIT)] QUOTE_REMOVAL) ;;
  ret (join (bs " ") (map text words)).

Definition expand_assignment_rhs (s : bytes) (e : E) : Res ExpandError bytes * E :=
  let general := in_new_ctx (expand_assignment_word s) in
  match in_env (try_fast_literal_braced_scalar s) e with
  | (Ok (Some value), e) => (Ok value, e)
  | (Err x, e) => (Err x, e)
  | (Fuel, e) => (Fuel, e)
  | (Ok None, e) =>
      match simple_parameter_word s with
      | Some name =>
          if env_attr_nameref e name then general e
          else
            match env_get e name with
            | (Some v, e) => (Ok v, e)
            | (None, e) =>
                if env_option e (bs "nounset") then
                  (Err (UnboundVariable (if forallb is_ascii_digit name then bs "$" ++ name else name)), e)
                else (Ok [], e)
            end
      | None => general e
      end
  end.
End Entry.

Module EntryExample.
Record ArgEnv := mkArg { base : TestEnv }.

(** [get_cow] of the shell (crates/shell/src/state/environment/variables.rs) starts with
    the positional parameters. *)
#[export] Instance arg_environment : Environment ArgEnv := {
  env_get e n := (match parse_usize n with Some k => env_positional (base e) k | None => (env_get (base e) n).1 end, e);
  env_get_array_indexed e n i := ((env_get_array_indexed (base e) n i).1, e);
  env_get_array_assoc e n k := (None, e);
  env_kind e := env_kind (base e);
  env_attr_nameref e n := false;
  env_resolve_nameref e n := Some n;
  env_is_readonly e n := false;
  env_option e n := false;
  env_assign e n v := (None, mkArg (env_assign (base e) n v).2);
  env_set_array_indexed e n i v := mkArg (env_set_array_indexed (base e) n i v);
  env_set_array_assoc e n k v := e;
}.

#[export] Instance arg_parameters : Parameters ArgEnv := {
  env_positional e := env_positional (base e);
  env_positional_count e := env_positional_count (base e);
  env_last_status e := 0;
  env_shell_pid e := 1;
  env_last_async_pid e := None;
  env_get_array e n := None;
}.

#[export] Instance arg_arrays : Arrays ArgEnv := {
  env_attrs _ _ := 0; env_nameref_target _ _ := None;
  env_array_all e n := ((env_array_all (base e) n).1, e); env_array_keys e n := ((env_array_keys (base e) n).1, e);
  env_array_len e n := ((env_array_len (base e) n).1, e); env_array_max_index e n := ((env_array_max_index (base e) n).1, e);
  env_assoc_all _ _ := None; env_assoc_keys _ _ := None; env_assoc_len _ _ := 0%nat;
  env_names_with_prefix e p := env_names_with_prefix (base e) p;
}.

Definition no_command {A} : M ArgEnv A := fail (Other (bs "command substitution unavailable in this context")).

#[export] Instance arg_commands : CommandRunner ArgEnv := {
  run_subst _ := no_command; run_backquote_subst _ := no_command; read_input_file _ _ := no_command;
  push_diagnostic_line e _ := e; pop_diagnostic_line e := e }.
#[export] Instance arg_runner : Runner ArgEnv := {
  run_current_subst _ _ := no_command; spawn_proc_subst _ _ := no_command; diagnostic_line _ := None }.
#[export] Instance arg_prompt : PromptInfo ArgEnv := {
  prompt_history_number _ := 1; prompt_command_number _ := 1; prompt_job_count _ := 0; prompt_nonprinting_markers _ := false;
  prompt_shell_name _ := None; strftime_now f := f; current_user_name := bs "al"; gethostname := bs "host";
  process_dir := None; compat_bash_version := None }.
#[export] Instance arg_arithmetic : Arithmetic ArgEnv := arithmetic 60.
#[export] Instance arg_translation : Translation ArgEnv := { translation _ s := s }.
#[export] Instance arg_glob : Globbing ArgEnv := { pathname_expand w := ret [w] }.
#[export] Instance arg_constructs : Constructs ArgEnv := constructs 32.
#[export] Instance arg_words : WordExpansion ArgEnv := words arg_constructs.
#[export] Instance arg_texts : ArithText ArgEnv := texts arg_constructs.

Definition ten : ArgEnv := mkArg (mkTest MapEnv.empty (map bs ["a"; "b"; "c"; "d"; "e"; "f"; "g"; "h"; "i"; "j"]%string)).

(** [$10] is the first positional parameter and a 0; as the value of an assignment it
    is the tenth parameter, since the shortcut for a plain parameter takes all digits
    for its name. *)
Theorem assignment_takes_tenth_parameter :
  (expand_string_to_string (bs "$10") ten).1 = Ok (bs "a0")
  /\ (expand_assignment_rhs (bs "$10") ten).1 = Ok (bs "j")
  /\ (expand_assignment_rhs (bs "$10$n") ten).1 = Ok (bs "a0").
Proof. vm_compute. repeat split. Qed.
End EntryExample.
