(* ===== verification/Glob.v ===== *)
(** Pathname expansion (crates/expander/src/glob.rs) over a file system that is a
    parameter: the pattern is split at slashes, and its segments are matched against
    the directories they lead through. *)
From S2P Require Import Prelude Env Utf8 Options Buf Pattern Split Quote Expand Pipeline Transform.

(** * The file system *)

(** What [symlink_metadata] tells of an entry. *)
Inductive FileType := FDir | FSymlink | FOther.

Record Metadata := mkMeta { m_atime : Z * Z; m_mtime : Z * Z; m_size : Z }.

(** [read_dir] without the entries that cannot be read, each with its type where it
    has one; [exists], [is_dir] and [metadata] of a path follow symbolic links. *)
Class FileSystem := {
  read_dir : bytes -> option (list (bytes * option FileType));
  path_exists : bytes -> bool;
  path_is_dir : bytes -> bool;
  path_meta : bytes -> option Metadata;
}.

(** [PathBuf::push]. *)
Definition path_push (dir name : bytes) : bytes :=
  if starts_with (bs "/") name || is_nil dir then name
  else if ends_with (bs "/") dir then dir ++ name else dir ++ bs "/" ++ name.

(** * Order *)

(** The order of byte strings, and a stable sort. *)
Fixpoint bytes_leb (a b : bytes) : bool :=
  match a, b with
  | [], _ => true
  | _ :: _, [] => false
  | x :: a, y :: b => if x =? y then bytes_leb a b else x <? y
  end.

Fixpoint insert_by {A} (le : A -> A -> bool) (x : A) (l : list A) : list A :=
  match l with
  | [] => [x]
  | y :: l' => if le x y then x :: l else y :: insert_by le x l'
  end.

Definition sort_by {A} (le : A -> A -> bool) (l : list A) : list A := foldr (insert_by le) [] l.

(** * Flags *)

Inductive GlobSort := NameAsc | NameDesc | NoSort | AtimeAsc | AtimeDesc | MtimeAsc | MtimeDesc | SizeAsc | SizeDesc.

Record GlobFlags := mkGlob {
  g_opts : GlobOpts;
  g_dotglob : bool;
  g_nullglob : bool;
  g_failglob : bool;
  g_globstar : bool;
  g_globskipdots : bool;
  g_globignore : list bytes;
  g_globsort : GlobSort;
}.

Definition globsort_names : list (string * GlobSort) :=
  [("nosort", NoSort); ("-name", NameDesc); ("+name", NameAsc); ("name", NameAsc); ("", NameAsc); ("+atime", AtimeAsc);
   ("atime", AtimeAsc); ("-atime", AtimeDesc); ("+mtime", MtimeAsc); ("mtime", MtimeAsc); ("-mtime", MtimeDesc);
   ("+size", SizeAsc); ("size", SizeAsc); ("-size", SizeDesc)]%string.

Definition parse_globsort (value : bytes) : GlobSort :=
  match List.find (fun p => bytes_eqb value (bs (fst p))) globsort_names with Some p => snd p | None => NameAsc end.

(** The patterns of GLOBIGNORE: colons outside brackets separate them. *)
Fixpoint split_globignore_loop (fuel : nat) (bracket_depth : nat) (cur s : bytes) : list bytes :=
  match fuel, s with
  | S fuel, b :: r =>
      match r with
      | c :: r' =>
          if b =? "\"%b then split_globignore_loop fuel bracket_depth (cur ++ [b; c]) r'
          else if b =? "["%b then split_globignore_loop fuel (S bracket_depth) (cur ++ [b]) r
          else if (b =? "]"%b) && (0 <? bracket_depth)%nat then split_globignore_loop fuel (bracket_depth - 1) (cur ++ [b]) r
          else if (b =? ":"%b) && (bracket_depth =? 0)%nat then cur :: split_globignore_loop fuel bracket_depth [] r
          else split_globignore_loop fuel bracket_depth (cur ++ [b]) r
      | [] => if (b =? ":"%b) && (bracket_depth =? 0)%nat then [cur; []] else [cur ++ [b]]
      end
  | _, _ => [cur]
  end.

Definition split_globignore (value : bytes) : list bytes := split_globignore_loop (length value) 0 [] value.

Section Flags.
Context {E : Type} `{Environment E}.

(** [GlobFlags::from_env]. *)
Definition glob_flags : M E GlobFlags := fun c =>
  let e := env c in
  let option n := env_option e (bs n) in
  let '(ignore, e) := env_get e (bs "GLOBIGNORE") in
  let globignore := List.filter (fun p => negb (is_nil p)) (match ignore with Some v => split_globignore v | None => [] end) in
  let '(sort, e) := env_get e (bs "GLOBSORT") in
  (Ok (mkGlob (mkOpts (option "nocaseglob"%string) (option "extglob"%string) false)
         (option "dotglob"%string || negb (is_nil globignore)) (option "nullglob"%string) (option "failglob"%string)
         (option "globstar"%string) (option "globskipdots"%string) globignore
         (match sort with Some v => parse_globsort v | None => NameAsc end)), with_env e c).
End Flags.

(** * Matching one name *)

Definition is_dot_or_dotdot (name : bytes) : bool := one_of name ["."; ".."]%string.

Definition matches_glob_entry_parsed (name segment : bytes) (toks : list Tok) (flags : GlobFlags) : bool :=
  (if is_dot_or_dotdot name then negb (g_globskipdots flags) && explicitly_matches_dot_name segment name (g_opts flags)
   else negb (starts_with (bs ".") name) || g_dotglob flags || explicitly_matches_dot_name_parsed name (g_opts flags) toks)
  && fnmatch_parsed toks name (g_opts flags).

Definition matches_glob_entry (name segment : bytes) (flags : GlobFlags) : bool :=
  matches_glob_entry_parsed name segment (parse segment (g_opts flags)) flags.

(** * Segments *)

Fixpoint segments_loop (opts : GlobOpts) (cur s : bytes) : list bytes :=
  match s with
  | [] => [cur]
  | b :: r =>
      match r with
      | c :: r' =>
          if b =? CTLESC then
            if c =? "/"%b then cur :: segments_loop opts [] r' else segments_loop opts (cur ++ [CTLESC; c]) r'
          else if (b =? "\"%b) && (c =? "/"%b) then
            if has_glob_meta cur opts then segments_loop opts (cur ++ [b; c]) r' else cur :: segments_loop opts [] r'
          else if b =? "/"%b then cur :: segments_loop opts [] r
          else segments_loop opts (cur ++ [b]) r
      | [] => if b =? "/"%b then [cur; []] else [cur ++ [b]]
      end
  end.

Definition star_star : bytes := bs "**".
Definition is_globstar (segment : bytes) : bool := bytes_eqb segment star_star.

(** Adjacent [**] segments are one. *)
Fixpoint collapse_globstars (segments : list bytes) : list bytes :=
  match segments with
  | s :: ((t :: _) as rest) => if is_globstar s && is_globstar t then collapse_globstars rest else s :: collapse_globstars rest
  | _ => segments
  end.

(** [dequote_glob_literal_segment]: quotes and backslashes removed. *)
Fixpoint unescape_segment (s : bytes) : bytes :=
  match s with
  | [] => []
  | b :: r =>
      match r with
      | c :: r' => if b =? "\"%b then c :: unescape_segment r' else b :: unescape_segment r
      | [] => [b]
      end
  end.

Definition dequote_glob_literal_segment (segment : bytes) : bytes := unescape_segment (dequote_bytes segment).

Section Walk.
Context `{FileSystem}.
Variable flags : GlobFlags.

(** * [**] *)

(** The names of a directory that may be entered, in order, with what [keep] makes of
    their type. *)
Definition children {A} (keep : bytes -> option FileType -> option A) (dir : bytes) (entries : list (bytes * option FileType)) :
    list (bytes * A) :=
  let visible := List.filter (fun '(name, _) => negb (is_dot_or_dotdot name) && (g_dotglob flags || negb (starts_with (bs ".") name))) entries in
  sort_by (fun a b => bytes_leb (fst a) (fst b)) (omap (fun '(name, ty) => a ← keep (path_push dir name) ty; Some (name, a)) visible).

(** A directory may be descended into; a link to one, when it counts, may not. *)
Definition keep_dir (include_symlink_dirs : bool) (path : bytes) (ty : option FileType) : option bool :=
  match ty with
  | Some FDir => Some true
  | Some FSymlink => if include_symlink_dirs && path_is_dir path then Some false else None
  | _ => None
  end.

Definition keep_all (_ : bytes) (ty : option FileType) : option bool :=
  match ty with Some FDir => Some true | Some _ => Some false | None => None end.

(** The loop over the children; the order of their paths is that of their names,
    since they have the same parent. *)
Fixpoint each_child (descend_into : bytes -> Res Empty_set (list bytes)) (start : bytes) (l : list (bytes * bool)) :
    Res Empty_set (list bytes) :=
  match l with
  | [] => Ok []
  | (name, descend) :: l =>
      let path := path_push start name in
      match (if descend : bool then descend_into path else Ok []), each_child descend_into start l with
      | Ok below, Ok rest => Ok (path :: below ++ rest)
      | _, _ => Fuel
      end
  end.

Fixpoint collect (fuel : nat) (keep : bytes -> option FileType -> option bool) (start : bytes) : Res Empty_set (list bytes) :=
  match fuel with
  | O => Fuel
  | S fuel =>
      match read_dir start with
      | None => Ok []
      | Some entries => each_child (collect fuel keep) start (children keep start entries)
      end
  end.

Definition path_with_trailing_slash (path : bytes) : bytes := if ends_with (bs "/") path then path else path ++ bs "/".

Definition prepend (p : list bytes) (r : Res Empty_set (list bytes)) : Res Empty_set (list bytes) :=
  match r with Ok l => Ok (p ++ l) | r => r end.

(** [collect_recursive_dirs] lists [start] itself, [collect_recursive_all] when asked. *)
Definition collect_recursive_dirs (fuel : nat) (start : bytes) (include_symlink_dirs : bool) : Res Empty_set (list bytes) :=
  prepend [start] (collect fuel (keep_dir include_symlink_dirs) start).

Definition collect_recursive_all (fuel : nat) (start : bytes) (include_start slash_start : bool) : Res Empty_set (list bytes) :=
  prepend (if include_start then [if slash_start then path_with_trailing_slash start else start] else [])
    (collect fuel keep_all start).

(** * The walk *)

(** The entries of a directory that match a segment, as paths. *)
Definition matching_entries (segment : bytes) (toks : list Tok) (dir : bytes) : list bytes :=
  match read_dir dir with
  | None => []
  | Some entries =>
      let dots := if g_globskipdots flags then []
                  else List.filter (fun name => matches_glob_entry name segment flags) [bs "."; bs ".."] in
      let names := List.filter (fun name => matches_glob_entry_parsed name segment toks flags) (map fst entries) in
      map (path_push dir) (sort_by bytes_leb (dots ++ names))
  end.

Fixpoint concat_res (l : list (Res Empty_set (list bytes))) : Res Empty_set (list bytes) :=
  match l with
  | [] => Ok []
  | Ok a :: l => prepend a (concat_res l)
  | _ :: _ => Fuel
  end.

(** One segment; [rest] are the segments after it. *)
Definition walk_segment (fuel : nat) (absolute first force_slash : bool) (segment : bytes) (rest : list bytes) (dirs : list bytes) :
    Res Empty_set (list bytes) :=
  if is_nil segment then Ok (List.filter (fun d => path_is_dir d && negb (bytes_eqb d (bs "."))) dirs)
  else if negb (has_glob_meta segment (g_opts flags)) then
    Ok (List.filter path_exists (map (fun d => path_push d (dequote_glob_literal_segment segment)) dirs))
  else if g_globstar flags && is_globstar segment then
    concat_res (map (fun d =>
      match rest with
      | [] => collect_recursive_all fuel d (absolute || negb first) force_slash
      | _ => collect_recursive_dirs fuel d (bool_decide (rest = [[]]))
      end) dirs)
  else
    let next := concat (map (matching_entries segment (parse segment (g_opts flags))) dirs) in
    Ok (if is_nil rest then next else List.filter path_is_dir next).

Fixpoint walk (fuel : nat) (absolute first force_slash : bool) (segments dirs : list bytes) : Res Empty_set (list bytes) :=
  match segments with
  | [] => Ok dirs
  | segment :: rest =>
      match walk_segment fuel absolute first force_slash segment rest dirs with
      | Ok next => walk fuel absolute false force_slash rest next
      | r => r
      end
  end.

(** * The order of the result *)

Definition path_bytes (path : bytes) : bytes := default path (strip_prefix (bs "./") path).

Definition time_leb (a b : Z * Z) : bool := if fst a =? fst b then snd a <=? snd b else fst a <? fst b.
Definition time_eqb (a b : Z * Z) : bool := (fst a =? fst b) && (snd a =? snd b).

Definition path_atime_key (path : bytes) : Z * Z := match path_meta path with Some m => m_atime m | None => (0, 0) end.
Definition path_mtime_key (path : bytes) : Z * Z := match path_meta path with Some m => m_mtime m | None => (0, 0) end.
Definition path_size_key (path : bytes) : Z * Z := match path_meta path with Some m => (m_size m, 0) | None => (0, 0) end.

Definition name_leb (a b : bytes) : bool := bytes_leb (path_bytes a) (path_bytes b).

(** By a key, then by name. *)
Definition key_leb (key : bytes -> Z * Z) (a b : bytes) : bool :=
  if time_eqb (key a) (key b) then name_leb a b else time_leb (key a) (key b).

Definition sort_glob_paths (paths : list bytes) (sort : GlobSort) : list bytes :=
  let reversed (le : bytes -> bytes -> bool) a b := le b a in
  match sort with
  | NoSort => paths
  | NameAsc => sort_by name_leb paths
  | NameDesc => sort_by (reversed name_leb) paths
  | AtimeAsc => sort_by (key_leb path_atime_key) paths
  | AtimeDesc => sort_by (reversed (key_leb path_atime_key)) paths
  | MtimeAsc => sort_by (key_leb path_mtime_key) paths
  | MtimeDesc => sort_by (reversed (key_leb path_mtime_key)) paths
  | SizeAsc => sort_by (key_leb path_size_key) paths
  | SizeDesc => sort_by (reversed (key_leb path_size_key)) paths
  end.

(** * GLOBIGNORE *)

Definition rposition (c : Z) (s : bytes) : option nat := Expand.rfind_byte c s.

(** [@(/)] after a literal segment is a slash. *)
Definition collapse_literal_slash_extglob (pattern : bytes) : option bytes :=
  pos ← find_sub (bs "@(/)") pattern;
  let before := take pos pattern in
  let segment_start := match rposition "/"%b before with Some i => S i | None => 0%nat end in
  if has_glob_meta (drop segment_start before) default_opts then None
  else Some (before ++ bs "/" ++ drop (pos + 4) pattern).

Definition slash (b : Z) : bool := b =? "/"%b.

Fixpoint globignore_match (fuel : nat) (pattern path : bytes) (opts : GlobOpts) : bool :=
  if negb (existsb slash pattern) || negb (existsb slash path) then fnmatch pattern path opts
  else
    match fuel, collapse_literal_slash_extglob pattern with
    | S fuel, Some collapsed => globignore_match fuel collapsed path opts
    | _, _ =>
        let pats := split_on slash pattern in
        let texts := split_on slash path in
        forallb (fun '(p, t) => fnmatch p t opts) (zip pats texts) && (length pats =? length texts)%nat
    end.

Definition is_ignored_path (path : bytes) : bool :=
  existsb (fun p => globignore_match (length p) p path (g_opts flags)) (g_globignore flags).

(** * [pathname_expand] *)

Definition no_glob_match_result (wd : Wd) : Res ExpandError (list Wd) :=
  if g_failglob flags then Err (FailGlob (from_utf8_lossy (dequote_bytes (buf_bytes (wd_buf wd)))))
  else if g_nullglob flags then Ok [] else Ok [wd].

(** A path as it is given: without the [./] of the start, with the slash of the
    pattern. *)
Definition result_path (absolute trailing_slash : bool) (raw : bytes) : bytes :=
  let p := if absolute then raw else path_bytes raw in
  if trailing_slash && negb (ends_with (bs "/") p) then p ++ bs "/" else p.

Definition force_zero_depth_globstar_slash (split segments : list bytes) : bool :=
  g_globstar flags && (length split =? length segments)%nat
  && (length (List.filter is_globstar segments) =? 1)%nat
  && match rev segments with
     | last :: previous :: _ => is_globstar last && negb (is_nil previous) && negb (has_glob_meta previous (g_opts flags))
     | _ => false
     end.

Definition expand_pattern (fuel : nat) (wd : Wd) : Res ExpandError (list Wd) :=
  let bytes := buf_bytes (wd_buf wd) in
  if negb (has_glob_meta bytes (g_opts flags)) then Ok [wd]
  else
    let dequoted := dequote_bytes bytes in
    let absolute := starts_with (bs "/") dequoted in
    let split := segments_loop (g_opts flags) [] bytes in
    let segments := if g_globstar flags then collapse_globstars split else split in
    let trailing_slash := ends_with (bs "/") dequoted in
    let start := if absolute then bs "/" else bs "." in
    match walk fuel absolute true (force_zero_depth_globstar_slash split segments)
            (if absolute then drop 1 segments else segments) [start] with
    | Ok paths =>
        let out := List.filter (fun p => negb (is_ignored_path p))
                     (map (result_path absolute trailing_slash) (sort_glob_paths paths (g_globsort flags))) in
        if is_nil out then no_glob_match_result wd
        else Ok (map (fun p => from_bytes_with_flags p (wd_flags wd)) out)
    | _ => Fuel
    end.
End Walk.

(** The stage of the pipeline; [fuel] bounds the depth of directories below [**]. *)
Definition directories {E} `{Environment E} `{FileSystem} (fuel : nat) : Globbing E := {|
  pathname_expand wd := flags <- glob_flags ;; fun c => (expand_pattern flags fuel wd, c)
|}.
