(* ===== verification/GlobProps.v ===== *)
(** Pathname expansion finds exactly the paths whose components match, in order; [**]
    lists exactly what is below a directory, and ends. *)
From stdpp Require Import sorting sets.
From S2P Require Import Prelude Env Utf8 Options Buf Pattern PatternLang Split Quote Expand Pipeline Transform Glob.

(** * Sorting *)

Lemma insert_by_perm {A} le (x : A) l : insert_by le x l ≡ₚ x :: l.
Proof.
  induction l as [|y l IH]; [done|]. cbn. destruct (le x y); [done|]. rewrite IH. by constructor.
Qed.

Lemma sort_by_perm {A} le (l : list A) : sort_by le l ≡ₚ l.
Proof. induction l as [|x l IH]; [done|]. cbn. by rewrite insert_by_perm, IH. Qed.

Lemma sort_by_elem {A} le (l : list A) x : x ∈ sort_by le l <-> x ∈ l.
Proof. by rewrite sort_by_perm. Qed.

Lemma insert_by_sorted {A} (le : A -> A -> bool) x l :
  (forall a b, le a b = true \/ le b a = true) -> (forall a b c, le a b = true -> le b c = true -> le a c = true) ->
  StronglySorted (fun a b => le a b = true) l -> StronglySorted (fun a b => le a b = true) (insert_by le x l).
Proof.
  intros Htot Htr. induction 1 as [|y l Hs IH Hy]; cbn; [by repeat constructor|].
  destruct (le x y) eqn:Exy.
  - constructor; [by constructor|]. constructor; [done|]. eapply Forall_impl; [exact Hy|]. intros z Hz. by eapply Htr.
  - constructor; [done|]. rewrite insert_by_perm. constructor; [by destruct (Htot x y) as [?|?]; [congruence|]|done].
Qed.

Lemma sort_by_sorted {A} (le : A -> A -> bool) (l : list A) :
  (forall a b, le a b = true \/ le b a = true) -> (forall a b c, le a b = true -> le b c = true -> le a c = true) ->
  StronglySorted (fun a b => le a b = true) (sort_by le l).
Proof. intros Htot Htr. induction l as [|x l IH]; [constructor|]. by apply insert_by_sorted. Qed.

Lemma bytes_leb_total a b : bytes_leb a b = true \/ bytes_leb b a = true.
Proof.
  revert b. induction a as [|x a IH]; intros [|y b]; cbn; auto. destruct (Z.eqb_spec x y) as [->|Hne].
  - rewrite Z.eqb_refl. apply IH.
  - rewrite (proj2 (Z.eqb_neq y x)) by congruence. lia.
Qed.

Lemma bytes_leb_trans a b c : bytes_leb a b = true -> bytes_leb b c = true -> bytes_leb a c = true.
Proof.
  revert b c. induction a as [|x a IH]; intros [|y b] [|z c]; cbn; try done.
  destruct (Z.eqb_spec x y), (Z.eqb_spec y z), (Z.eqb_spec x z); subst; try done; try lia. by apply IH.
Qed.

(** * What a pattern stands for *)

Section Spec.
Context `{FileSystem}.
Variable flags : GlobFlags.

Definition literal (segment : bytes) : bool := negb (has_glob_meta segment (g_opts flags)).

(** A name that begins with a dot needs one in the pattern, or [dotglob]; [.] and [..] need
    one in any case. *)
Definition dot_allowed (name segment : bytes) : Prop :=
  if is_dot_or_dotdot name then g_globskipdots flags = false /\ explicitly_matches_dot_name segment name (g_opts flags) = true
  else starts_with (bs ".") name = true -> g_dotglob flags = true
       \/ explicitly_matches_dot_name_parsed name (g_opts flags) (parse segment (g_opts flags)) = true.

Definition listed (dir name : bytes) : Prop :=
  exists entries, read_dir dir = Some entries
  /\ (name ∈ map fst entries \/ g_globskipdots flags = false /\ name ∈ [bs "."; bs ".."]).

(** The name [name] in the directory [dir] is one the segment stands for. *)
Definition component (dir segment name : bytes) : Prop :=
  if literal segment then name = dequote_glob_literal_segment segment /\ path_exists (path_push dir name) = true
  else listed dir name /\ dot_allowed name segment /\ toks_lang (g_opts flags) (parse segment (g_opts flags)) name.

(** Names that lead from [dir] along the segments. *)
Fixpoint leads (dir : bytes) (segments names : list bytes) : Prop :=
  match segments with
  | [] => names = []
  | segment :: rest =>
      if is_nil segment then path_is_dir dir = true /\ dir <> bs "." /\ leads dir rest names
      else
        match names with
        | [] => False
        | name :: names =>
            component dir segment name
            /\ (literal segment = false -> rest <> [] -> path_is_dir (path_push dir name) = true)
            /\ leads (path_push dir name) rest names
        end
  end.

Definition extend (dir : bytes) (names : list bytes) : bytes := fold_left path_push names dir.

Lemma matches_entry_spec name segment :
  matches_glob_entry_parsed name segment (parse segment (g_opts flags)) flags = true
  <-> dot_allowed name segment /\ toks_lang (g_opts flags) (parse segment (g_opts flags)) name.
Proof.
  unfold matches_glob_entry_parsed, fnmatch_parsed, dot_allowed. rewrite andb_true_iff, match_tokens_lang.
  apply and_iff_compat_r. destruct (is_dot_or_dotdot name).
  - by rewrite andb_true_iff, negb_true_iff.
  - rewrite !orb_true_iff, negb_true_iff. destruct (starts_with (bs ".") name); intuition congruence.
Qed.

Lemma matching_entries_spec segment dir p : literal segment = false ->
  p ∈ matching_entries flags segment (parse segment (g_opts flags)) dir <-> exists name, component dir segment name /\ p = path_push dir name.
Proof.
  intros Hl. unfold matching_entries, component, listed. rewrite Hl. destruct (read_dir dir) as [entries|]; [|split; [set_solver|]].
  2: { intros (name & ((es & [=] & _) & _) & _). }
  rewrite list_elem_of_fmap. setoid_rewrite sort_by_elem. setoid_rewrite elem_of_app.
  assert (Hf : forall (P : bytes -> bool) l x, x ∈ List.filter P l <-> x ∈ l /\ P x = true).
  { intros P l x. rewrite !list_elem_of_In. apply filter_In. }
  assert (Hdots : forall name, name ∈ (if g_globskipdots flags then [] else List.filter (fun name => matches_glob_entry name segment flags) [bs "."; bs ".."])
    <-> g_globskipdots flags = false /\ name ∈ [bs "."; bs ".."] /\ matches_glob_entry name segment flags = true).
  { intros name. destruct (g_globskipdots flags); [set_solver|]. rewrite Hf. intuition. }
  setoid_rewrite Hdots. setoid_rewrite Hf. unfold matches_glob_entry. setoid_rewrite matches_entry_spec.
  split.
  - intros (name & -> & Hn). exists name. split; [|done]. split; [exists entries|]; intuition.
  - intros (name & ((es & [= <-] & Hn) & Hd & Ht) & ->). exists name. intuition.
Qed.

Lemma filter_elem (P : bytes -> bool) l x : x ∈ List.filter P l <-> x ∈ l /\ P x = true.
Proof. rewrite !list_elem_of_In. apply filter_In. Qed.

Definition no_globstar (segments : list bytes) : Prop := g_globstar flags = false \/ Forall (fun s => is_globstar s = false) segments.

(** The walk reaches exactly the paths its segments lead to. *)
Lemma walk_spec fuel absolute force segments : no_globstar segments -> forall first dirs,
  exists paths, walk flags fuel absolute first force segments dirs = Ok paths
  /\ forall p, p ∈ paths <-> exists d names, d ∈ dirs /\ leads d segments names /\ p = extend d names.
Proof.
  induction segments as [|segment rest IH]; intros Hg first dirs; cbn [walk].
  { exists dirs. split; [done|]. intros p. split; [intros Hp; by exists p, []|]. by intros (d & names & Hd & -> & ->). }
  assert (Hg' : no_globstar rest) by (destruct Hg as [|Hg]; [by left|right; by inversion Hg]).
  assert (Hs : g_globstar flags && is_globstar segment = false).
  { destruct Hg as [->|Hg]; [done|]. inversion Hg as [|? ? Hx _]; subst. by rewrite Hx, andb_false_r. }
  unfold walk_segment. rewrite Hs.
  destruct (is_nil segment) eqn:Enil.
  { destruct (IH Hg' false (List.filter (fun d => path_is_dir d && negb (bytes_eqb d (bs "."))) dirs)) as (paths & -> & Hp).
    exists paths. split; [done|]. intros p. rewrite Hp. cbn [leads]. rewrite Enil.
    setoid_rewrite filter_elem. setoid_rewrite andb_true_iff. setoid_rewrite negb_true_iff.
    assert (Heq : forall d, bytes_eqb d (bs ".") = false <-> d <> bs ".").
    { intros d. rewrite <- not_true_iff_false. by rewrite bytes_eqb_eq. }
    setoid_rewrite Heq. naive_solver. }
  destruct (negb (has_glob_meta segment (g_opts flags))) eqn:Elit.
  { set (next := List.filter path_exists _). destruct (IH Hg' false next) as (paths & -> & Hp).
    exists paths. split; [done|]. intros p. rewrite Hp. cbn [leads]. rewrite Enil. unfold next. setoid_rewrite filter_elem.
    setoid_rewrite list_elem_of_fmap. unfold component, literal. rewrite Elit. split.
    - intros (d & names & ((d0 & -> & Hd0) & Hex) & Hl & ->). exists d0, (dequote_glob_literal_segment segment :: names). naive_solver.
    - intros (d & [|name names] & Hd & Hl & ->); [done|]. destruct Hl as ((-> & Hex) & _ & Hl). eexists _, names. naive_solver. }
  set (all := concat (map (matching_entries flags segment (parse segment (g_opts flags))) dirs)).
  set (next := if is_nil rest then all else List.filter path_is_dir all).
  assert (Hall : forall p, p ∈ all <-> exists d name, d ∈ dirs /\ component d segment name /\ p = path_push d name).
  { intros p. unfold all. rewrite list_elem_of_In, in_concat. setoid_rewrite <- list_elem_of_In. setoid_rewrite list_elem_of_fmap. split.
    - intros (l & (d & -> & Hd) & Hp). apply matching_entries_spec in Hp as (name & Hc & ->); [by exists d, name|done].
    - intros (d & name & Hd & Hc & ->). eexists. split; [by exists d|]. apply matching_entries_spec; [done|by exists name]. }
  assert (Hnext : forall p, p ∈ next <-> p ∈ all /\ (rest <> [] -> path_is_dir p = true)).
  { intros p. unfold next. destruct rest; cbn [is_nil]; [naive_solver|]. rewrite filter_elem. naive_solver. }
  destruct (IH Hg' false next) as (paths & -> & Hp). exists paths. split; [done|]. intros p. rewrite Hp. cbn [leads]. rewrite Enil.
  split.
  - intros (d & names & Hd & Hl & ->). apply Hnext in Hd as [Hd Hdir]. apply Hall in Hd as (d0 & name & Hd0 & Hc & ->).
    exists d0, (name :: names). naive_solver.
  - intros (d & [|name names] & Hd & Hl & ->); [done|]. destruct Hl as (Hc & Hdir & Hl).
    exists (path_push d name), names. split; [|done]. apply Hnext. split; [apply Hall; naive_solver|]. by apply Hdir.
Qed.
End Spec.

(** * The text of the paths *)

(** A name without slashes. *)
Definition plain_name (name : bytes) : Prop := name <> [] /\ existsb slash name = false.

Definition below (names : list bytes) : bytes := concat (map (fun n => bs "/" ++ n) names).

(** The names of a relative path with slashes between them. *)
Definition path_text (names : list bytes) : bytes := drop 1 (below names).

Lemma plain_name_push dir name : plain_name name -> dir <> [] -> ends_with (bs "/") dir = false -> path_push dir name = dir ++ bs "/" ++ name.
Proof.
  intros [Hne Hs] Hd He. unfold path_push. rewrite He. destruct name as [|b r]; [done|]. cbn [existsb] in Hs.
  apply orb_false_iff in Hs as [Hb _]. unfold slash in Hb. change (starts_with (bs "/") (b :: r)) with (("/"%b =? b) && true).
  rewrite Z.eqb_sym, Hb. cbn [andb orb]. by destruct dir.
Qed.

Lemma ends_with_last dir b : ends_with (bs "/") (dir ++ [b]) = slash b.
Proof. unfold ends_with. rewrite rev_app_distr. cbn. unfold slash. by rewrite andb_true_r, Z.eqb_sym. Qed.

Lemma plain_end dir name : plain_name name -> ends_with (bs "/") (dir ++ name) = false.
Proof.
  intros [Hne Hs]. destruct (exists_last Hne) as (r & b & ->). rewrite app_assoc, ends_with_last.
  rewrite existsb_app in Hs. cbn in Hs. apply orb_false_iff in Hs as [_ Hs]. by rewrite orb_false_r in Hs.
Qed.

Lemma extend_plain names : Forall plain_name names -> forall dir, dir <> [] -> ends_with (bs "/") dir = false ->
  extend dir names = dir ++ below names.
Proof.
  induction 1 as [|name names Hn _ IH]; intros dir Hd He; [by rewrite app_nil_r|].
  change (extend dir (name :: names)) with (extend (path_push dir name) names).
  rewrite plain_name_push by done. rewrite IH.
  - unfold below. cbn [map concat]. by rewrite <- !app_assoc.
  - by destruct dir.
  - rewrite app_assoc. by apply plain_end.
Qed.

Lemma extend_root name names : plain_name name -> Forall plain_name names -> extend (bs "/") (name :: names) = below (name :: names).
Proof.
  intros Hn Hns. change (extend (bs "/") (name :: names)) with (extend (path_push (bs "/") name) names).
  assert (path_push (bs "/") name = bs "/" ++ name) as ->.
  { unfold path_push. destruct Hn as [Hne Hs]. destruct name as [|b r]; [done|]. cbn [existsb] in Hs.
    apply orb_false_iff in Hs as [Hb _]. unfold slash in Hb. change (starts_with (bs "/") (b :: r)) with (("/"%b =? b) && true).
    by rewrite Z.eqb_sym, Hb. }
  rewrite extend_plain; [done|done|done|by apply plain_end].
Qed.

Lemma below_end name names : plain_name name -> Forall plain_name names -> ends_with (bs "/") (below (name :: names)) = false.
Proof.
  intros Hn Hns. revert name Hn. induction Hns as [|m ms Hm _ IH]; intros name Hn; unfold below in *; cbn [map concat].
  - rewrite app_nil_r. by apply plain_end.
  - specialize (IH m Hm). cbn [map concat] in IH.
    destruct (exists_last (l := (bs "/" ++ m) ++ concat (map (fun n => bs "/" ++ n) ms)) ltac:(done)) as (r & b & Hr). rewrite Hr in IH |- *.
    rewrite app_assoc, ends_with_last. by rewrite ends_with_last in IH.
Qed.

(** A path the walk reaches, from the root or from the current directory. *)
Lemma walked_text (absolute : bool) names : Forall plain_name names -> names <> [] ->
  let p := extend (if absolute then bs "/" else bs ".") names in
  let given := if absolute then below names else path_text names in
  (if absolute then p else path_bytes p) = given /\ path_bytes p = given /\ ends_with (bs "/") given = false.
Proof.
  intros Hp Hne p given. destruct names as [|name names]; [done|]. apply Forall_cons in Hp as [Hn Hns].
  pose proof (below_end name names Hn Hns) as Hend. unfold p, given. destruct absolute.
  - by rewrite extend_root.
  - rewrite extend_plain by (done || by constructor). unfold path_text.
    change (below (name :: names)) with ("/"%b :: (name ++ below names)) in *.
    assert (Hpb : path_bytes (bs "." ++ "/"%b :: (name ++ below names)) = name ++ below names) by (vm_compute; reflexivity).
    rewrite Hpb. cbn [drop]. split; [done|]. split; [done|]. revert Hend.
    destruct (exists_last (l := name ++ below names)) as (r & b & Hr); [destruct Hn; by destruct name|].
    rewrite Hr. rewrite drop_0. change ("/"%b :: r ++ [b]) with (("/"%b :: r) ++ [b]). rewrite !ends_with_last. tauto.
Qed.

Section Result.
Context `{FileSystem}.
Variable flags : GlobFlags.

(** Directory entries are names, and so are the literal segments of the pattern. *)
Definition names_are_plain : Prop :=
  forall dir entries name ty, read_dir dir = Some entries -> (name, ty) ∈ entries -> plain_name name.

Definition literals_are_plain (segments : list bytes) : Prop :=
  Forall (fun s => literal flags s = true -> s <> [] -> plain_name (dequote_glob_literal_segment s)) segments.

Lemma leads_plain segments : names_are_plain -> literals_are_plain segments -> forall dir names,
  leads flags dir segments names -> Forall plain_name names.
Proof.
  intros Hfs. induction segments as [|segment rest IH]; intros Hl dir names Hn; cbn [leads] in Hn; [by subst|].
  inversion Hl as [|? ? Hs Hl']; subst. destruct (is_nil segment) eqn:En; [destruct Hn as (_ & _ & Hn); by apply (IH Hl' dir)|].
  destruct names as [|name names]; [done|]. destruct Hn as (Hc & _ & Hn). constructor; [|by eapply IH].
  unfold component in Hc. destruct (literal flags segment) eqn:El.
  - destruct Hc as [-> _]. apply Hs; [done|by destruct segment].
  - destruct Hc as ((entries & Hr & [Hin|[_ Hin]]) & _).
    + apply list_elem_of_fmap in Hin as ([n ty] & -> & Hin). by eapply Hfs.
    + set_unfold. by destruct Hin as [->|[->|[]]].
Qed.

Lemma leads_nonempty segments : existsb (fun s => negb (is_nil s)) segments = true -> forall dir names,
  leads flags dir segments names -> names <> [].
Proof.
  induction segments as [|segment rest IH]; intros Hs dir names; [done|]. cbn [existsb leads] in *.
  destruct (is_nil segment); [|by destruct names]. intros (_ & _ & Hl). by eapply IH.
Qed.

Lemma sorted_paths raw : StronglySorted (fun a b => bytes_leb a b = true) (map path_bytes (sort_by name_leb raw)).
Proof.
  assert (Hs : StronglySorted (fun a b => name_leb a b = true) (sort_by name_leb raw)).
  { apply sort_by_sorted; unfold name_leb; [intros; apply bytes_leb_total|intros a b c; apply bytes_leb_trans]. }
  induction Hs as [|a l Hs IH Ha]; cbn [map]; constructor; [done|]. rewrite Forall_fmap. exact Ha.
Qed.

Lemma filter_everything (l : list bytes) : List.filter (fun _ => true) l = l.
Proof. induction l; cbn; congruence. Qed.

(** The segments of a pattern after the root. *)
Definition pattern_segments (wd : Wd) : list bytes :=
  let split := segments_loop (g_opts flags) [] (buf_bytes (wd_buf wd)) in
  let segments := if g_globstar flags then collapse_globstars split else split in
  if starts_with (bs "/") (dequote_bytes (buf_bytes (wd_buf wd))) then drop 1 segments else segments.

Definition pattern_absolute (wd : Wd) : bool := starts_with (bs "/") (dequote_bytes (buf_bytes (wd_buf wd))).

(** What a path is called, and the slash at the end of the pattern. *)
Definition given_path (wd : Wd) (names : list bytes) : bytes := if pattern_absolute wd then below names else path_text names.
Definition given_slash (wd : Wd) : bytes := if ends_with (bs "/") (dequote_bytes (buf_bytes (wd_buf wd))) then bs "/" else [].

End Result.

(** * [**] *)

Section Globstar.
Context `{FileSystem}.
Variable flags : GlobFlags.
Variable keep : bytes -> option FileType -> option bool.

(** Only directories are descended into, and not through symbolic links. *)
Hypothesis keep_descends : forall p ty, keep p ty = Some true -> ty = Some FDir.

(** An entry below which, or as which, [**] may go on; [d]: it is a directory to descend into. *)
Definition child (dir name : bytes) (d : bool) : Prop :=
  exists entries ty, read_dir dir = Some entries /\ (name, ty) ∈ entries /\ is_dot_or_dotdot name = false
  /\ (starts_with (bs ".") name = true -> g_dotglob flags = true) /\ keep (path_push dir name) ty = Some d.

Fixpoint descends (dir : bytes) (names : list bytes) : Prop :=
  match names with
  | [] => False
  | [name] => exists d, child dir name d
  | name :: rest => child dir name true /\ descends (path_push dir name) rest
  end.

(** Directories below [dir] nest less than [n] deep. *)
Fixpoint shallow (n : nat) (dir : bytes) : Prop :=
  match n with
  | O => False
  | S n => forall entries name, read_dir dir = Some entries -> (name, Some FDir) ∈ entries -> is_dot_or_dotdot name = false ->
           shallow n (path_push dir name)
  end.

Lemma children_spec dir entries name d : read_dir dir = Some entries ->
  (name, d) ∈ children flags keep dir entries <-> child dir name d.
Proof.
  intros Hr. unfold children, child. rewrite sort_by_elem, list_elem_of_omap. split.
  - intros ([n ty] & Hin & Hk). apply list_elem_of_In, filter_In in Hin as [Hin Hv]. apply list_elem_of_In in Hin.
    destruct (keep (path_push dir n) ty) as [d'|] eqn:Ek; [|done]. injection Hk as -> ->.
    exists entries, ty. apply andb_true_iff in Hv as [Hv1%negb_true_iff Hv2]. split_and!; try done.
    intros Hs. rewrite Hs in Hv2. cbn in Hv2. by rewrite orb_false_r in Hv2.
  - intros (es & ty & Hr' & Hin & Hd & Hs & Hk). rewrite Hr in Hr'. injection Hr' as <-. exists (name, ty). split; [|by rewrite Hk].
    apply list_elem_of_In, filter_In. split; [by apply list_elem_of_In|]. rewrite Hd. cbn [negb andb].
    destruct (starts_with (bs ".") name); [rewrite Hs by done; done|]. by rewrite orb_true_r.
Qed.

(** The loop over the children, when each descent has ended. *)
Lemma each_child_spec rec dir l : (forall name, (name, true) ∈ l -> exists r, rec (path_push dir name) = Ok r) ->
  exists r, each_child rec dir l = Ok r /\ forall p, p ∈ r <-> exists name d, (name, d) ∈ l
    /\ (p = path_push dir name \/ d = true /\ exists r', rec (path_push dir name) = Ok r' /\ p ∈ r').
Proof.
  induction l as [|[name d] l IH]; intros Hrec; cbn [each_child].
  { exists []. split; [done|]. set_solver. }
  destruct IH as (r & -> & Hr); [intros n Hn; apply Hrec; set_solver|].
  assert (Hd : exists b, (if d then rec (path_push dir name) else Ok []) = Ok b
    /\ forall p, p ∈ b <-> d = true /\ exists r', rec (path_push dir name) = Ok r' /\ p ∈ r').
  { destruct d; [|exists []; set_solver]. destruct (Hrec name) as (b & Hb); [set_solver|]. exists b. split; [done|].
    intros p. split; [intros Hp; split; [done|by exists b]|]. intros (_ & r' & Hr' & Hp). congruence. }
  destruct Hd as (b & -> & Hb). eexists. split; [reflexivity|]. intros p. rewrite elem_of_cons, elem_of_app, Hb, Hr.
  split; [|intros (n & d' & [[= -> ->]|Hin]%elem_of_cons & Hx); [naive_solver|right; right; by exists n, d']]. intros [-> | [Hx | (n & d' & Hin & Hx)]]; [exists name, d; set_solver..|exists n, d'; set_solver].
Qed.

Lemma descends_cons dir name rest : descends dir (name :: rest) <-> (exists d, child dir name d) /\ rest = [] \/ child dir name true /\ descends (path_push dir name) rest.
Proof. destruct rest as [|m rest]; cbn [descends]; naive_solver. Qed.

(** [**] lists exactly the entries below a directory, hidden ones only with
    [dotglob], at every depth and without following symbolic links; and it ends: as many levels
    of recursion as directories are nested are enough. *)
Theorem globstar_lists_descendants (n fuel : nat) (dir : bytes) (Hn : shallow n dir) (Hf : (n <= fuel)%nat) :
  exists l, collect flags fuel keep dir = Ok l /\ forall p, p ∈ l <-> exists names, descends dir names /\ p = extend dir names.
Proof.
  revert fuel dir Hn Hf. induction n as [|n IH]; intros fuel dir Hn Hf; [done|]. destruct fuel as [|fuel]; [lia|].
  cbn [collect]. destruct (read_dir dir) as [entries|] eqn:Er.
  2: { exists []. split; [done|]. intros p. split; [set_solver|]. intros ([|name names] & Hd & _); [done|].
       apply descends_cons in Hd as [((d & es & ty & Hr & _) & _)|((es & ty & Hr & _) & _)]; congruence. }
  assert (Hrec : forall name, child dir name true -> exists r, collect flags fuel keep (path_push dir name) = Ok r
    /\ forall p, p ∈ r <-> exists names, descends (path_push dir name) names /\ p = extend (path_push dir name) names).
  { intros name (es & ty & Hr & Hin & Hd & _ & Hk). apply IH; [|lia]. apply keep_descends in Hk as ->. by eapply Hn. }
  destruct (each_child_spec (collect flags fuel keep) dir (children flags keep dir entries)) as (r & -> & Hr).
  { intros name Hin. apply (children_spec dir entries name true Er) in Hin. destruct (Hrec name Hin) as (r & Hx & _). by exists r. }
  exists r. split; [done|]. intros p. rewrite Hr. setoid_rewrite (fun name d => children_spec dir entries name d Er). split.
  - intros (name & d & Hc & [-> | (-> & r' & Hr' & Hp)]); [exists [name]; split; [by exists d|done]|].
    destruct (Hrec name Hc) as (r2 & Hr2 & Hspec). rewrite Hr' in Hr2. injection Hr2 as <-. apply Hspec in Hp as (names & Hd & ->).
    exists (name :: names). split; [apply descends_cons; by right|done].
  - intros ([|name names] & Hd & ->); [done|]. apply descends_cons in Hd as [((d & Hc) & ->)|(Hc & Hd)]; [exists name, d; by auto|].
    exists name, true. split; [done|]. right. split; [done|]. destruct (Hrec name Hc) as (r2 & Hr2 & Hspec). exists r2. split; [done|].
    apply Hspec. by exists names.
Qed.
End Globstar.

(** * A small file system *)

Module GlobExample.
Definition tree : list (string * list (string * FileType)) :=
  [(".", [("b.txt", FOther); ("sub", FDir); (".hid", FOther); ("a.txt", FOther); ("link", FSymlink)]);
   ("./sub", [("c.txt", FOther); ("deep", FDir)]); ("./sub/deep", [("d.txt", FOther)]);
   ("./link", [("c.txt", FOther); ("deep", FDir)])]%string.

Definition listing (dir : bytes) : option (list (bytes * option FileType)) :=
  map (fun '(n, ty) => (bs n, Some ty)) <$> (snd <$> List.find (fun p => bytes_eqb dir (bs (fst p))) tree).

(** The paths of the entries. *)
Definition known : list bytes :=
  concat (map (fun '(dir, entries) => map (fun '(n, _) => path_push (bs dir) (bs n)) entries) tree).

#[export] Instance files : FileSystem := {
  read_dir := listing;
  path_exists p := existsb (bytes_eqb p) known;
  path_is_dir p := match listing p with Some _ => true | None => false end;
  path_meta _ := None;
}.

Definition plain_flags : GlobFlags := mkGlob default_opts false false false false true [] NameAsc.
Definition star_flags : GlobFlags := mkGlob default_opts false false false true true [] NameAsc.

Definition word (s : string) : Wd := from_bytes_with_flags (bs s) 0.

Definition globbed (flags : GlobFlags) (s : string) : Res ExpandError (list bytes) :=
  match expand_pattern flags 9 (word s) with Ok l => Ok (map (fun w => buf_bytes (wd_buf w)) l) | Err x => Err x | Fuel => Fuel end.

Example glob_names : globbed plain_flags "*.txt" = Ok [bs "a.txt"; bs "b.txt"]
  /\ globbed plain_flags "*/?.txt" = Ok [bs "link/c.txt"; bs "sub/c.txt"]
  /\ globbed plain_flags "sub/*/" = Ok [bs "sub/deep/"]
  /\ globbed plain_flags "x*" = Ok [bs "x*"]
  /\ globbed star_flags "**/*.txt" = Ok [bs "a.txt"; bs "b.txt"; bs "sub/c.txt"; bs "sub/deep/d.txt"]
  /\ globbed star_flags "sub/**" = Ok [bs "sub/"; bs "sub/c.txt"; bs "sub/deep"; bs "sub/deep/d.txt"].
Proof. vm_compute. repeat split. Qed.

Lemma listed_plain : names_are_plain.
Proof.
  intros dir entries name ty Hr Hin. cbn [read_dir files] in Hr. unfold listing in Hr.
  destruct (List.find _ tree) as [[d es]|] eqn:Ef; [|done]. injection Hr as <-. apply find_some in Ef as [Ef _].
  apply list_elem_of_fmap in Hin as ([n t] & [= -> ->] & Hin).
  assert (Hall : forallb (fun '(_, es) => forallb (fun '(n, _) => negb (is_nil (bs n)) && negb (existsb slash (bs n))) es) tree = true)
    by (vm_compute; reflexivity).
  rewrite forallb_forall in Hall. specialize (Hall _ Ef). cbn in Hall. rewrite forallb_forall in Hall.
  apply list_elem_of_In in Hin. specialize (Hall _ Hin). apply andb_true_iff in Hall as [Hn%negb_true_iff Hs%negb_true_iff].
  split; [by destruct (bs n)|done].
Qed.


Lemma globstar_lists_descendants_witness :
  exists l, collect plain_flags 3 keep_all (bs "./sub") = Ok l
  /\ forall p, p ∈ l <-> exists names, descends plain_flags keep_all (bs "./sub") names /\ p = extend (bs "./sub") names.
Proof.
  apply (globstar_lists_descendants plain_flags keep_all) with (n := 2%nat).
  - by intros p [[]|].
  - intros entries name Hr Hin _. injection Hr as <-. intros entries name' Hr Hin'.
    apply list_elem_of_In in Hin. cbn in Hin. destruct Hin as [[=]|[[= <-]|[]]].
    injection Hr as <-. apply list_elem_of_In in Hin'. cbn in Hin'. destruct Hin' as [[=]|[]].
  - lia.
Defined.
End GlobExample.
