(* ===== verification/AssignText.v ===== *)
(** The text of assignments (crates/expander/src/assignment.rs): where the operator of
    [name=value], [name\[subscript\]+=value] and [name=(..)] is, and the words of a
    compound value.  A scanner takes the text it starts at and returns the text it
    stops at; the positions of the source are the numbers of bytes consumed. *)
From S2P Require Import Prelude Env Utf8 Buf Quote Expand Scan.

Definition is_valid_name (s : bytes) : bool :=
  match s with c :: r => is_name_start c && forallb is_name_byte r | [] => false end.

(** * Quotes and brackets *)

(** [skip_quoted], after the opening quote. *)
Fixpoint skip_quoted (quote : Z) (s : bytes) : bytes :=
  match s with
  | [] => []
  | b :: r =>
      match r with
      | _ :: r' =>
          if (quote =? dquote) && (b =? "\"%b) then skip_quoted quote r'
          else if b =? quote then r else skip_quoted quote r
      | [] => []
      end
  end.

(** [skip_backticks], after the opening one. *)
Fixpoint skip_backticks (s : bytes) : bytes :=
  match s with
  | [] => []
  | b :: r =>
      match r with
      | _ :: r' => if b =? "\"%b then skip_backticks r' else if b =? "`"%b then r else skip_backticks r
      | [] => []
      end
  end.

(** The loops run with one round for each byte; the lemmas named [_rounds] show that
    more rounds change nothing. *)
Fixpoint skip_balanced_loop (fuel : nat) (open close : Z) (depth : nat) (s : bytes) : bytes :=
  match fuel, depth, s with
  | S fuel, S d, b :: r =>
      if b =? "\"%b then skip_balanced_loop fuel open close depth (drop 1 r)
      else if (b =? "'"%b) || (b =? dquote) then skip_balanced_loop fuel open close depth (skip_quoted b r)
      else if b =? open then skip_balanced_loop fuel open close (S depth) r
      else if b =? close then skip_balanced_loop fuel open close d r
      else skip_balanced_loop fuel open close depth r
  | _, _, _ => s
  end.

Definition skip_balanced (open close : Z) (s : bytes) : bytes := skip_balanced_loop (length s) open close 1 s.

(** Two bytes at the start of a text. *)
Definition opens (a b : Z) (s : bytes) : bool :=
  match s with x :: y :: _ => (x =? a) && (y =? b) | _ => false end.

(** [skip_double_quoted_word], after the opening quote. *)
Fixpoint skip_double_loop (fuel : nat) (s : bytes) : bytes :=
  match fuel, s with
  | S fuel, b :: r =>
      if (b =? "\"%b) && negb (is_nil r) then skip_double_loop fuel (drop 1 r)
      else if opens "$"%b "{"%b s then skip_double_loop fuel (skip_balanced "{"%b "}"%b (drop 1 r))
      else if opens "$"%b "("%b s then skip_double_loop fuel (skip_balanced "("%b ")"%b (drop 1 r))
      else if b =? "`"%b then skip_double_loop fuel (skip_backticks r)
      else if b =? dquote then r
      else skip_double_loop fuel r
  | _, _ => s
  end.

Definition skip_double_quoted_word (s : bytes) : bytes := skip_double_loop (length s) s.

Definition current_subst_starts (s : bytes) : bool :=
  match s with
  | b :: _ => (b =? "|"%b) || (b =? " "%b) || (b =? 9) || (b =? 10) || (b =? 13)
  | [] => false
  end.

(** The loop of [skip_current_subst]; a nested one starts over. *)
Fixpoint skip_current_loop (fuel : nat) (brace_depth : nat) (s : bytes) : bytes :=
  match fuel, s with
  | S fuel, b :: r =>
      if b =? "\"%b then skip_current_loop fuel brace_depth (drop 1 r)
      else if (b =? "'"%b) || (b =? dquote) || (b =? "`"%b) then skip_current_loop fuel brace_depth (skip_quoted b r)
      else if opens "$"%b "("%b s then skip_current_loop fuel brace_depth (skip_balanced "("%b ")"%b (drop 1 r))
      else if opens "$"%b "{"%b s then
        let body := drop 1 r in
        skip_current_loop fuel brace_depth
          (if current_subst_starts body
           then skip_current_loop fuel 0 (if bool_decide (head body = Some "|"%b) then drop 1 body else body)
           else skip_balanced "{"%b "}"%b body)
      else if b =? "{"%b then skip_current_loop fuel (S brace_depth) r
      else if b =? "}"%b then if (brace_depth =? 0)%nat then r else skip_current_loop fuel (brace_depth - 1) r
      else skip_current_loop fuel brace_depth r
  | _, _ => s
  end.

Definition skip_current_subst (s : bytes) : bytes :=
  skip_current_loop (length s) 0 (if bool_decide (head s = Some "|"%b) then drop 1 s else s).

(** The part [skip_bracket_assignment] and [bracket_assignment] share: the text from
    the bracket that closes, after the opening one. *)
Fixpoint bracket_close_loop (fuel : nat) (depth : nat) (s : bytes) : option bytes :=
  match fuel, s with
  | S fuel, b :: r =>
      if b =? "\"%b then bracket_close_loop fuel depth (drop 1 r)
      else if b =? "'"%b then bracket_close_loop fuel depth (skip_quoted b r)
      else if b =? dquote then bracket_close_loop fuel depth (skip_double_quoted_word r)
      else if opens "$"%b "{"%b s then bracket_close_loop fuel depth (skip_balanced "{"%b "}"%b (drop 1 r))
      else if opens "$"%b "("%b s then bracket_close_loop fuel depth (skip_balanced "("%b ")"%b (drop 1 r))
      else if b =? "["%b then bracket_close_loop fuel (S depth) r
      else if b =? "]"%b then if (depth =? 1)%nat then Some s else bracket_close_loop fuel (depth - 1) r
      else bracket_close_loop fuel depth r
  | _, _ => None
  end.

Definition bracket_close (s : bytes) : option bytes := bracket_close_loop (length s) 1 s.

(** The operator after a closing bracket: what follows, and whether it appends. *)
Definition bracket_operator (s : bytes) : option (bytes * bool) :=
  match s with
  | b :: r =>
      if b =? "="%b then Some (r, false)
      else if opens "+"%b "="%b s then Some (drop 1 r, true) else None
  | [] => None
  end.

Definition skip_bracket_assignment (s : bytes) : option bytes :=
  match s with
  | b :: r => if b =? "["%b then rest ← bracket_close r; fst <$> bracket_operator (drop 1 rest) else None
  | [] => None
  end.

(** [bracket_assignment]: the subscript, the value and whether [+=]. *)
Definition bracket_assignment (s : bytes) : option (bytes * bytes * bool) :=
  match s with
  | b :: r =>
      if b =? "["%b then
        rest ← bracket_close r;
        '(value, append) ← bracket_operator (drop 1 rest);
        Some (take (length r - length rest) r, value, append)
      else None
  | [] => None
  end.

(** [skip_assignment_subscript], after the opening bracket. *)
Fixpoint subscript_loop (fuel : nat) (depth : nat) (s : bytes) : option bytes :=
  match fuel, s with
  | S fuel, b :: r =>
      if b =? "["%b then subscript_loop fuel (S depth) r
      else if b =? "]"%b then if (depth =? 1)%nat then Some r else subscript_loop fuel (depth - 1) r
      else if b =? "'"%b then subscript_loop fuel depth (skip_quoted b r)
      else if b =? dquote then subscript_loop fuel depth (skip_double_quoted_word r)
      else if b =? "\"%b then subscript_loop fuel depth (drop 1 r)
      else if opens "$"%b "("%b s then subscript_loop fuel depth (skip_balanced "("%b ")"%b (drop 1 r))
      else subscript_loop fuel depth r
  | _, _ => None
  end.

Definition skip_assignment_subscript (s : bytes) : option bytes := subscript_loop (length s) 1 s.

(** * The operator of an assignment *)

(** [assignment_operator]: the text from the [=] on. *)
Fixpoint operator_loop (fuel : nat) (s : bytes) : option bytes :=
  match fuel, s with
  | S fuel, b :: r =>
      if b =? "["%b then rest ← skip_assignment_subscript r; operator_loop fuel rest
      else if b =? "="%b then Some s
      else if b =? "'"%b then operator_loop fuel (skip_quoted b r)
      else if b =? dquote then operator_loop fuel (skip_double_quoted_word r)
      else if b =? "\"%b then operator_loop fuel (drop 1 r)
      else operator_loop fuel r
  | _, _ => None
  end.

Definition assignment_operator (text : bytes) : option (nat * bool) :=
  rest ← operator_loop (length text) text;
  let pos := (length text - length rest)%nat in
  Some (pos, ends_with (bs "+") (take pos text)).

Definition split_assignment_text (text : bytes) : option (bytes * bytes * bool) :=
  '(pos, append) ← assignment_operator text;
  Some (take (if append : bool then pos - 1 else pos)%nat text, drop (S pos) text, append).

Definition array_lhs (lhs : bytes) : option (bytes * bytes) :=
  open ← find_byte "["%b lhs;
  close ← Expand.rfind_byte "]"%b lhs;
  if negb (close + 1 =? length lhs)%nat then None
  else if is_valid_name (take open lhs) then Some (take open lhs, slice lhs (open + 1) close) else None.

Definition assignment_lhs_valid (lhs : bytes) : bool := is_valid_name lhs || bool_decide (is_Some (array_lhs lhs)).

Definition looks_like_assignment (word : WordDesc) : bool :=
  has (word_flags word) W_ASSIGNMENT
  || match split_assignment_text (text word) with Some (lhs, _, _) => assignment_lhs_valid lhs | None => false end.

(** The name, the text between the parentheses, and whether [+=]. *)
Definition compound_parts (text : bytes) : option (bytes * bytes * bool) :=
  '(pos, append) ← (match find_sub (bs "+=(") text with
                    | Some pos => Some (pos, true)
                    | None => pos ← find_sub (bs "=(") text; Some (pos, false)
                    end);
  if ends_with (bs ")") text then
    Some (take pos text, slice text (if append : bool then pos + 3 else pos + 2)%nat (length text - 1), append)
  else None.

Fixpoint trailing_loop (fuel : nat) (depth : nat) (s : bytes) : bool :=
  match fuel, s with
  | S fuel, b :: r =>
      if b =? "\"%b then trailing_loop fuel depth (drop 1 r)
      else if (b =? "'"%b) || (b =? dquote) then trailing_loop fuel depth (skip_quoted b r)
      else if b =? "("%b then trailing_loop fuel (S depth) r
      else if b =? ")"%b then if (depth =? 1)%nat then negb (is_nil r) else trailing_loop fuel (depth - 1) r
      else trailing_loop fuel depth r
  | _, _ => false
  end.

Definition compound_assignment_has_trailing_text (text : bytes) : bool :=
  match (match find_sub (bs "+=(") text with
         | Some pos => Some (pos, pos + 3)%nat
         | None => pos ← find_sub (bs "=(") text; Some (pos, pos + 2)%nat
         end) with
  | Some (pos, body_start) => negb (pos =? 0)%nat && trailing_loop (length text) 1 (drop body_start text)
  | None => false
  end.

(** * The words of a compound value *)

Fixpoint metachar_loop (fuel : nat) (at_word_start : bool) (s : bytes) : option bytes :=
  match fuel, s with
  | S fuel, b :: r =>
      if is_ascii_whitespace b then metachar_loop fuel true r
      else if (b =? "#"%b) && at_word_start then
        metachar_loop fuel at_word_start (snd (span (fun b => negb (b =? 10)) s))
      else if b =? "\"%b then metachar_loop fuel false (drop 1 r)
      else if (b =? "'"%b) || (b =? dquote) then metachar_loop fuel false (skip_quoted b r)
      else if opens "$"%b "("%b s then metachar_loop fuel false (skip_balanced "("%b ")"%b (drop 1 r))
      else if opens "$"%b "{"%b s then
        let body := drop 1 r in
        metachar_loop fuel false (if current_subst_starts body then skip_current_subst body else skip_balanced "{"%b "}"%b body)
      else if opens "<"%b "("%b s || opens ">"%b "("%b s then metachar_loop fuel false (skip_balanced "("%b ")"%b (drop 1 r))
      else if (b =? "&"%b) || (b =? "|"%b) || (b =? ";"%b) then Some [b]
      else if opens "<"%b ">"%b s then Some (bs "<>")
      else if (b =? "<"%b) || (b =? ">"%b) then Some [b]
      else metachar_loop fuel false r
  | _, _ => None
  end.

Definition invalid_compound_metachar (body : bytes) : option bytes := metachar_loop (length body) true body.

(** The inner loop of [lex_words]: the text after a word. *)
Fixpoint word_loop (fuel : nat) (at_word_start : bool) (s : bytes) : bytes :=
  match fuel, s with
  | S fuel, b :: r =>
      if is_ascii_whitespace b then s
      else if b =? "\"%b then word_loop fuel at_word_start (drop 1 r)
      else if b =? "'"%b then word_loop fuel false (skip_quoted b r)
      else if b =? dquote then word_loop fuel false (skip_double_quoted_word r)
      else if opens "$"%b "{"%b s then word_loop fuel false (skip_balanced "{"%b "}"%b (drop 1 r))
      else if opens "$"%b "("%b s then word_loop fuel false (skip_balanced "("%b ")"%b (drop 1 r))
      else if opens "<"%b "("%b s || opens ">"%b "("%b s then word_loop fuel false (skip_balanced "("%b ")"%b (drop 1 r))
      else if (b =? "["%b) && at_word_start then word_loop fuel false (default r (skip_bracket_assignment s))
      else word_loop fuel false r
  | _, _ => s
  end.

Definition lexed (text : bytes) : WordDesc := mkWord text (if existsb (fun b => b =? "$"%b) text then W_HASDOLLAR else 0).

Fixpoint lex_words_loop (fuel : nat) (body : bytes) : list WordDesc :=
  match fuel, snd (span is_ascii_whitespace body) with
  | S fuel, (b :: _) as s =>
      if b =? "#"%b then lex_words_loop fuel (snd (span (fun b => negb (b =? 10)) s))
      else
        let rest := word_loop (length s) true s in
        lexed (take (length s - length rest) s) :: lex_words_loop fuel rest
  | _, _ => []
  end.

Definition lex_words (body : bytes) : list WordDesc := lex_words_loop (S (length body)) body.

(** * Values *)

(** Whether the blank at [ws_start] follows an odd number of backslashes. *)
Definition trailing_whitespace_is_escaped (raw : bytes) (ws_start : nat) : bool :=
  Nat.odd (length (fst (span (fun b => b =? "\"%b) (rev (take ws_start raw))))).

Definition trim_compound_value (raw : bytes) : bytes :=
  let trimmed := trim_end raw in
  if (length trimmed =? length raw)%nat || trailing_whitespace_is_escaped raw (length trimmed) then raw else trimmed.

Definition compound_value_has_quoted_at (raw : bytes) : bool := existsb (fun b => b =? "@"%b) raw.

Definition bracket_assignment_label (index_raw value_raw : bytes) (append : bool) : bytes :=
  bs "[" ++ index_raw ++ (if append then bs "]+=" else bs "]=") ++ value_raw.

(** A decimal number without leading zeros, of at most 64 bits. *)
Definition parse_plain_decimal (value : bytes) : option Z :=
  let '(negative, digits) := match strip_prefix (bs "-") value with Some r => (true, r) | None => (false, value) end in
  if is_nil digits || negb (forallb is_ascii_digit digits) then None
  else if (1 <? length digits)%nat && starts_with (bs "0") digits then None
  else parsed ← parse_i64 digits; Some (if negative : bool then wrapping_neg parsed else parsed).

Definition arithmetic_operator_token_start (s : bytes) : bytes :=
  let s := snd (span is_ascii_whitespace s) in
  let s := match s with b :: r => if is_name_start b then snd (span is_name_byte r) else s | [] => s end in
  snd (span is_ascii_whitespace s).

Definition needs_expansion (subscript : bytes) : bool :=
  existsb (fun b => (b =? "$"%b) || (b =? "`"%b) || (b =? "\"%b) || (b =? "'"%b) || (b =? dquote)) subscript.
