(* ===== verification/AssignTextProps.v ===== *)
(** The scanners of AssignText.v: they consume their text, the rounds given to their
    loops suffice, and printed assignments are taken apart where they were put
    together. *)
From S2P Require Import Prelude Env Utf8 Buf Quote QuoteProps Expand Internal InternalProps Scan ScanProps Param AssignText.

(** * Consuming *)

Lemma skip_quoted_cons q b c r :
  skip_quoted q (b :: c :: r) =
  if (q =? dquote) && (b =? "\"%b) then skip_quoted q r else if b =? q then c :: r else skip_quoted q (c :: r).
Proof. reflexivity. Qed.

Lemma skip_quoted_length q s : (length (skip_quoted q s) <= length s)%nat.
Proof.
  induction s as [s IH] using (induction_ltof1 _ (@length Z)); unfold ltof in IH.
  destruct s as [|b [|c r]]; [cbn; lia..|]. rewrite skip_quoted_cons.
  pose proof (IH r ltac:(cbn; lia)). pose proof (IH (c :: r) ltac:(cbn; lia)). cbn [length] in *.
  destruct (_ && _); [lia|]. destruct (_ =? _); cbn [length]; lia.
Qed.

Lemma skip_backticks_cons b c r :
  skip_backticks (b :: c :: r) =
  if b =? "\"%b then skip_backticks r else if b =? "`"%b then c :: r else skip_backticks (c :: r).
Proof. reflexivity. Qed.

Lemma skip_backticks_length s : (length (skip_backticks s) <= length s)%nat.
Proof.
  induction s as [s IH] using (induction_ltof1 _ (@length Z)); unfold ltof in IH.
  destruct s as [|b [|c r]]; [cbn; lia..|]. rewrite skip_backticks_cons.
  pose proof (IH r ltac:(cbn; lia)). pose proof (IH (c :: r) ltac:(cbn; lia)). cbn [length] in *.
  repeat destruct (_ =? _); cbn [length]; lia.
Qed.

Lemma drop_length_le {A} n (s : list A) : (length (drop n s) <= length s)%nat.
Proof. rewrite length_drop. lia. Qed.

(** A loop that calls itself on shorter texts: the lengths in the context decide. *)
Ltac shorter :=
  repeat match goal with
  | |- context [skip_quoted ?q ?s] => lazymatch goal with H : (length (skip_quoted q s) <= _)%nat |- _ => fail | _ => pose proof (skip_quoted_length q s) end
  | |- context [skip_backticks ?s] => lazymatch goal with H : (length (skip_backticks s) <= _)%nat |- _ => fail | _ => pose proof (skip_backticks_length s) end
  | |- context [drop ?n ?s] => lazymatch goal with H : (length (drop n s) <= length s)%nat |- _ => fail | _ => pose proof (drop_length_le n s) end
  end.

Lemma skip_balanced_loop_length n open close d s : (length (skip_balanced_loop n open close d s) <= length s)%nat.
Proof.
  revert d s. induction n as [|n IH]; intros d s; [done|]. destruct d as [|d], s as [|b r]; cbn [skip_balanced_loop length]; [lia..|].
  repeat case_match; (etrans; [apply IH|]); shorter; lia.
Qed.

Lemma skip_balanced_length open close s : (length (skip_balanced open close s) <= length s)%nat.
Proof. apply skip_balanced_loop_length. Qed.

Lemma skip_double_loop_length n s : (length (skip_double_loop n s) <= length s)%nat.
Proof.
  revert s. induction n as [|n IH]; intros s; [done|]. destruct s as [|b r]; cbn [skip_double_loop length]; [lia|].
  repeat case_match; try lia; (etrans; [apply IH|]); shorter; try lia;
    (etrans; [apply skip_balanced_length|]); lia.
Qed.

Lemma skip_double_length s : (length (skip_double_quoted_word s) <= length s)%nat.
Proof. apply skip_double_loop_length. Qed.

Lemma skip_current_loop_length n d s : (length (skip_current_loop n d s) <= length s)%nat.
Proof.
  revert d s. induction n as [|n IH]; intros d s; [done|]. destruct s as [|b r]; cbn [skip_current_loop length]; [lia|].
  repeat case_match; try lia; (etrans; [apply IH|]); shorter; try lia;
    (etrans; [first [apply skip_balanced_length|apply IH]|]); shorter; lia.
Qed.

Lemma skip_current_length s : (length (skip_current_subst s) <= length s)%nat.
Proof. unfold skip_current_subst. etrans; [apply skip_current_loop_length|]. case_match; shorter; lia. Qed.

Lemma bracket_close_loop_length n d s rest : bracket_close_loop n d s = Some rest -> (length rest <= length s)%nat.
Proof.
  revert d s. induction n as [|n IH]; intros d s; [done|]. destruct s as [|b r]; cbn [bracket_close_loop length]; [done|].
  repeat case_match; intros Hr; try (apply IH in Hr; revert Hr; shorter;
    try match goal with |- context [skip_double_quoted_word ?x] => pose proof (skip_double_length x) end;
    try match goal with |- context [skip_balanced ?o ?c ?x] => pose proof (skip_balanced_length o c x) end; lia).
  injection Hr as <-. cbn. lia.
Qed.

Lemma skip_bracket_length s rest : skip_bracket_assignment s = Some rest -> (length rest < length s)%nat.
Proof.
  unfold skip_bracket_assignment. destruct s as [|b r]; [done|]. case_match; [|done].
  destruct (bracket_close r) as [t|] eqn:Ec; cbn; [|done]. apply bracket_close_loop_length in Ec.
  unfold bracket_operator. pose proof (drop_length_le 1 t).
  destruct (drop 1 t) as [|c u] eqn:Ed; [done|]. cbn [length] in *. pose proof (drop_length_le 1 u).
  destruct (c =? "="%b); [intros [= <-]; lia|]. destruct (opens _ _ _); [intros [= <-]; lia|done].
Qed.

Lemma subscript_loop_length n d s rest : subscript_loop n d s = Some rest -> (length rest <= length s)%nat.
Proof.
  revert d s. induction n as [|n IH]; intros d s; [done|]. destruct s as [|b r]; cbn [subscript_loop length]; [done|].
  repeat case_match; intros Hr; try (apply IH in Hr; revert Hr; shorter;
    try match goal with |- context [skip_double_quoted_word ?x] => pose proof (skip_double_length x) end;
    try match goal with |- context [skip_balanced ?o ?c ?x] => pose proof (skip_balanced_length o c x) end; lia).
  injection Hr as <-. lia.
Qed.

Lemma word_loop_length n w s : (length (word_loop n w s) <= length s)%nat.
Proof.
  revert w s. induction n as [|n IH]; intros w s; [done|]. destruct s as [|b r]; [done|].
  cbn [word_loop]. cbn [length].
  repeat case_match; cbn [length]; try lia; (etrans; [apply IH|]); shorter; try lia;
    try (etrans; [first [apply skip_balanced_length|apply skip_double_length]|]; lia).
  destruct (skip_bracket_assignment (b :: r)) as [t|] eqn:Eb; cbn; [apply skip_bracket_length in Eb; cbn in Eb|]; lia.
Qed.

(** * Rounds *)

(** Every length that matters, for [lia]. *)
Ltac lengths :=
  shorter;
  repeat match goal with
  | |- context [skip_balanced ?o ?c ?s] => lazymatch goal with H : (length (skip_balanced o c s) <= _)%nat |- _ => fail | _ => pose proof (skip_balanced_length o c s) end
  | |- context [skip_double_quoted_word ?s] => lazymatch goal with H : (length (skip_double_quoted_word s) <= _)%nat |- _ => fail | _ => pose proof (skip_double_length s) end
  | |- context [skip_current_subst ?s] => lazymatch goal with H : (length (skip_current_subst s) <= _)%nat |- _ => fail | _ => pose proof (skip_current_length s) end
  | |- context [skip_current_loop ?n ?d ?s] => lazymatch goal with H : (length (skip_current_loop n d s) <= _)%nat |- _ => fail | _ => pose proof (skip_current_loop_length n d s) end
  end; cbn [length] in *; try lia.

(** Two runs with enough rounds: one step, then the induction hypothesis [IH]. *)
Ltac same_rounds IH :=
  repeat case_match; try done; apply IH; lengths.

Lemma skip_balanced_rounds n m o c d s :
  (length s <= n)%nat -> (length s <= m)%nat -> skip_balanced_loop n o c d s = skip_balanced_loop m o c d s.
Proof.
  revert m d s. induction n as [|n IH]; intros m d s Hn Hm; destruct d as [|d], s as [|b r]; destruct m as [|m];
    cbn [skip_balanced_loop length] in *; try done; try lia. same_rounds IH.
Qed.

Lemma skip_double_rounds n m s : (length s <= n)%nat -> (length s <= m)%nat -> skip_double_loop n s = skip_double_loop m s.
Proof.
  revert m s. induction n as [|n IH]; intros m s Hn Hm; destruct s as [|b r]; destruct m as [|m];
    cbn [skip_double_loop length] in *; try done; try lia. same_rounds IH.
Qed.

Lemma skip_current_rounds n m d s :
  (length s <= n)%nat -> (length s <= m)%nat -> skip_current_loop n d s = skip_current_loop m d s.
Proof.
  revert m d s. induction n as [|n IH]; intros m d s Hn Hm; destruct s as [|b r]; destruct m as [|m];
    cbn [skip_current_loop length] in *; try done; try lia.
  set (body := drop 1 r). set (inner := if bool_decide (head body = Some "|"%b) then drop 1 body else body).
  assert (length body <= length r)%nat by (unfold body; lengths).
  assert (length inner <= length body)%nat by (unfold inner; case_match; lengths).
  clearbody inner body.
  rewrite (IH m 0%nat inner) by lia. same_rounds IH.
Qed.

Lemma bracket_close_rounds n m d s :
  (length s <= n)%nat -> (length s <= m)%nat -> bracket_close_loop n d s = bracket_close_loop m d s.
Proof.
  revert m d s. induction n as [|n IH]; intros m d s Hn Hm; destruct s as [|b r]; destruct m as [|m];
    cbn [bracket_close_loop length] in *; try done; try lia. same_rounds IH.
Qed.

Lemma subscript_rounds n m d s :
  (length s <= n)%nat -> (length s <= m)%nat -> subscript_loop n d s = subscript_loop m d s.
Proof.
  revert m d s. induction n as [|n IH]; intros m d s Hn Hm; destruct s as [|b r]; destruct m as [|m];
    cbn [subscript_loop length] in *; try done; try lia. same_rounds IH.
Qed.

Lemma operator_rounds n m s : (length s <= n)%nat -> (length s <= m)%nat -> operator_loop n s = operator_loop m s.
Proof.
  revert m s. induction n as [|n IH]; intros m s Hn Hm; destruct s as [|b r]; destruct m as [|m];
    cbn [operator_loop length] in *; try done; try lia.
  destruct (b =? "["%b); [|same_rounds IH].
  destruct (skip_assignment_subscript r) as [t|] eqn:Es; cbn; [|done]. apply subscript_loop_length in Es. apply IH; lia.
Qed.

Lemma trailing_rounds n m d s : (length s <= n)%nat -> (length s <= m)%nat -> trailing_loop n d s = trailing_loop m d s.
Proof.
  revert m d s. induction n as [|n IH]; intros m d s Hn Hm; destruct s as [|b r]; destruct m as [|m];
    cbn [trailing_loop length] in *; try done; try lia. same_rounds IH.
Qed.

Lemma span_cons_length (p : Z -> bool) b r : p b = true -> (length (snd (Scan.span p (b :: r))) <= length r)%nat.
Proof. intros Hp. cbn. rewrite Hp. pose proof (span_length p r). destruct (Scan.span p r). done. Qed.

Lemma metachar_rounds n m w s : (length s <= n)%nat -> (length s <= m)%nat -> metachar_loop n w s = metachar_loop m w s.
Proof.
  revert m w s. induction n as [|n IH]; intros m w s Hn Hm; destruct s as [|b r]; destruct m as [|m];
    try (cbn [length] in *; lia); try done. cbn [metachar_loop length] in *.
  destruct (is_ascii_whitespace b); [apply IH; lia|]. destruct ((b =? "#"%b) && w) eqn:Eh; [|same_rounds IH].
  apply andb_true_iff in Eh as [->%Z.eqb_eq _]. pose proof (span_cons_length (fun b => negb (b =? 10)) "#"%b r eq_refl).
  apply IH; lia.
Qed.

Lemma word_rounds n m w s : (length s <= n)%nat -> (length s <= m)%nat -> word_loop n w s = word_loop m w s.
Proof.
  revert m w s. induction n as [|n IH]; intros m w s Hn Hm; destruct s as [|b r]; destruct m as [|m];
    try (cbn [length] in *; lia); try done. cbn [word_loop length] in *.
  assert (Hb : (length (default r (skip_bracket_assignment (b :: r))) <= length r)%nat).
  { destruct (skip_bracket_assignment _) as [t|] eqn:Es; [apply skip_bracket_length in Es; cbn in *; lia|done]. }
  same_rounds IH.
Qed.

(** A word of [lex_words] consumes at least one byte. *)
Lemma word_loop_progress n w b r : (length (b :: r) <= n)%nat -> is_ascii_whitespace b = false ->
  (length (word_loop n w (b :: r)) <= length r)%nat.
Proof.
  intros Hn Hw. destruct n as [|n]; [cbn in Hn; lia|]. cbn [word_loop]. rewrite Hw.
  assert (Hb : (length (default r (skip_bracket_assignment (b :: r))) <= length r)%nat).
  { destruct (skip_bracket_assignment _) as [t|] eqn:Es; [apply skip_bracket_length in Es; cbn in *; lia|done]. }
  repeat case_match; (etrans; [apply word_loop_length|]); lengths.
Qed.

Lemma span_head_not (p : Z -> bool) s b r : snd (Scan.span p s) = b :: r -> p b = false.
Proof.
  induction s as [|c s IH]; cbn; [done|]. destruct (p c) eqn:Ep; [|by intros [= <- <-]].
  destruct (Scan.span p s). done.
Qed.

Lemma lex_words_rounds n m s : (length s < n)%nat -> (length s < m)%nat -> lex_words_loop n s = lex_words_loop m s.
Proof.
  revert m s. induction n as [|n IH]; intros m s Hn Hm; [lia|]. destruct m as [|m]; [lia|]. cbn [lex_words_loop].
  pose proof (span_length is_ascii_whitespace s).
  destruct (snd (Scan.span is_ascii_whitespace s)) as [|b r] eqn:Es; [done|]. cbn [length] in *.
  destruct (b =? "#"%b) eqn:Eh.
  - apply Z.eqb_eq in Eh as ->. pose proof (span_cons_length (fun b => negb (b =? 10)) "#"%b r eq_refl). apply IH; lia.
  - pose proof (word_loop_progress (S (length r)) true b r ltac:(cbn; lia) (span_head_not _ _ _ _ Es)). f_equal. apply IH; lia.
Qed.

(** * Printed elements *)

(** Decide the comparisons of known bytes. *)
Ltac known_bytes :=
  repeat match goal with
  | |- context [Z.eqb ?a ?b] =>
      let v := eval vm_compute in (Z.eqb a b) in
      lazymatch v with true => change (Z.eqb a b) with true | false => change (Z.eqb a b) with false end
  | |- context [is_ascii_whitespace ?a] =>
      let v := eval vm_compute in (is_ascii_whitespace a) in
      lazymatch v with true => change (is_ascii_whitespace a) with true | false => change (is_ascii_whitespace a) with false end
  end; cbn [andb orb negb]; cbn iota.

(** Digits, as in a printed subscript, and bytes no scanner reacts to. *)
Definition inert (b : Z) : bool :=
  negb (is_ascii_whitespace b)
  && negb (existsb (fun c => b =? c) ["\"%b; "'"%b; dquote; "$"%b; "`"%b; "["%b; "]"%b; "<"%b; ">"%b; "&"%b; "|"%b; ";"%b; "#"%b]).

Lemma inert_digit b : is_ascii_digit b = true -> inert b = true.
Proof.
  unfold is_ascii_digit, in_range, inert, is_ascii_whitespace. intros Hb. cbn. unfold dquote.
  repeat match goal with |- context [b =? ?c] => replace (b =? c) with false by (symmetry; apply Z.eqb_neq; lia) end.
  rewrite ?orb_false_l. unfold in_range. try (replace (12 <=? b) with true by lia). lia.
Qed.

(** The bytes an inert one is not. *)
Lemma inert_not b : inert b = true ->
  is_ascii_whitespace b = false /\ (b =? "\"%b) = false /\ (b =? "'"%b) = false /\ (b =? dquote) = false /\ (b =? "$"%b) = false
  /\ (b =? "`"%b) = false /\ (b =? "["%b) = false /\ (b =? "]"%b) = false /\ (b =? "<"%b) = false /\ (b =? ">"%b) = false
  /\ (b =? "&"%b) = false /\ (b =? "|"%b) = false /\ (b =? ";"%b) = false /\ (b =? "#"%b) = false.
Proof.
  unfold inert. intros [Hw Hb]%andb_true_iff. apply negb_true_iff in Hw, Hb. cbn [existsb] in Hb.
  repeat match type of Hb with (_ || _) = false => apply orb_false_iff in Hb as [? Hb] end. repeat split; assumption.
Qed.

Lemma opens_not a b c r : (c =? a) = false -> opens a b (c :: r) = false.
Proof. intros Hc. destruct r; cbn; [done|]. by rewrite Hc. Qed.

(** An element as the shell prints it. *)
Definition printed_element (e : Z * bytes) : bytes := bs "[" ++ u_to_string (fst e) ++ bs "]=" ++ double_quote (snd e).

Lemma escape_double_cons c v : escape_double (c :: v) = dq_escape c ++ escape_double v.
Proof. by rewrite !escape_double_eq. Qed.

Lemma escape_double_not c : dq_escapable c = false ->
  (c =? dquote) = false /\ (c =? "\"%b) = false /\ (c =? "$"%b) = false /\ (c =? "`"%b) = false.
Proof. unfold dq_escapable. intros Hc. repeat apply orb_false_iff in Hc as [Hc ?]. done. Qed.

(** Both ways of skipping a double-quoted text stop after its closing quote. *)
Lemma skip_double_printed v rest : skip_double_quoted_word (escape_double v ++ dquote :: rest) = rest.
Proof.
  unfold skip_double_quoted_word. generalize (Nat.le_refl (length (escape_double v ++ dquote :: rest))).
  generalize (length (escape_double v ++ dquote :: rest)) at 2 3. intros n. revert n.
  induction v as [|c v IH]; intros n Hn.
  { destruct n; [cbn in Hn; lia|]. cbn [escape_double map concat app skip_double_loop]. by rewrite !opens_not. }
  rewrite escape_double_cons, <- app_assoc in *. unfold dq_escape in *. destruct (dq_escapable c) eqn:Ec.
  - destruct n as [|n]; [cbn in Hn; lia|]. cbn [app skip_double_loop is_nil negb andb drop].
    change (BSL =? "\"%b) with true. cbn [andb]. apply IH. cbn in Hn |- *. lia.
  - destruct (escape_double_not _ Ec) as (Hq & Hb & Hd & Ht). cbn [app] in *.
    destruct n as [|n]; [cbn in Hn; lia|]. cbn [skip_double_loop]. rewrite Hb, !opens_not, Ht, Hq by done. cbn [andb].
    apply IH. cbn in Hn |- *. lia.
Qed.

Lemma skip_quoted_printed v rest : skip_quoted dquote (escape_double v ++ dquote :: rest) = rest.
Proof.
  induction v as [|c v IH]; [destruct rest; reflexivity|]. rewrite escape_double_cons, <- app_assoc. unfold dq_escape.
  assert (Hne : exists d t, escape_double v ++ dquote :: rest = d :: t) by (destruct (escape_double v) eqn:?; eauto).
  destruct Hne as (d & t & Hdt). rewrite Hdt in *. destruct (dq_escapable c) eqn:Ec; cbn [app].
  - rewrite skip_quoted_cons. change ((dquote =? dquote) && (BSL =? "\"%b)) with true. done.
  - destruct (escape_double_not _ Ec) as (Hq & Hb & _). rewrite skip_quoted_cons, Hb, Hq, andb_false_r. done.
Qed.

Lemma bracket_close_inert s rest : forallb inert s = true -> bracket_close (s ++ bs "]" ++ rest) = Some (bs "]" ++ rest).
Proof.
  unfold bracket_close. generalize (Nat.le_refl (length (s ++ bs "]" ++ rest))).
  generalize (length (s ++ bs "]" ++ rest)) at 2 3. intros n. revert n.
  induction s as [|b s IH]; intros n Hn Hs.
  { destruct n; [cbn in Hn; lia|]. change (bs "]") with ["]"%b]. cbn [app bracket_close_loop]. by rewrite !opens_not. }
  cbn [forallb] in Hs. apply andb_true_iff in Hs as [Hb Hs].
  destruct n as [|n]; [cbn in Hn; lia|]. cbn [app bracket_close_loop].
  destruct (inert_not b Hb) as (_ & H1 & H2 & H3 & H4 & _ & H5 & H6 & _).
  rewrite H1, H2, H3, !opens_not, H5, H6 by done. apply IH; [cbn in Hn |- *; lia|done].
Qed.

Lemma digits_inert n : 0 <= n -> forallb inert (u_to_string n) = true.
Proof.
  intros Hn. apply forallb_forall. intros b Hb. apply inert_digit.
  destruct (u_to_string_spec n Hn) as (_ & Hd & _). exact (proj1 (List.Forall_forall _ _) Hd b Hb).
Qed.

Lemma printed_element_eq i v :
  printed_element (i, v) = "["%b :: u_to_string i ++ bs "]" ++ "="%b :: dquote :: escape_double v ++ [dquote].
Proof. reflexivity. Qed.

(** The parts of a printed element. *)
Lemma bracket_printed i v : 0 <= i -> bracket_assignment (printed_element (i, v)) = Some (u_to_string i, double_quote v, false).
Proof.
  intros Hi. rewrite printed_element_eq. unfold bracket_assignment. change ("["%b =? "["%b) with true. cbn iota.
  rewrite bracket_close_inert by (by apply digits_inert). cbn [mbind option_bind]. cbn [app bs]. unfold bracket_operator.
  cbn [drop]. change ("="%b =? "="%b) with true. cbn iota beta. f_equal. f_equal. f_equal.
  rewrite !length_app. cbn [length]. replace (_ - _)%nat with (length (u_to_string i)) by (rewrite ?length_app; cbn; lia).
  by rewrite take_app_length.
Qed.

Lemma skip_bracket_printed i v rest : 0 <= i ->
  skip_bracket_assignment (printed_element (i, v) ++ rest) = Some (dquote :: escape_double v ++ dquote :: rest).
Proof.
  intros Hi. rewrite printed_element_eq. cbn [app]. unfold skip_bracket_assignment. change ("["%b =? "["%b) with true. cbn iota.
  rewrite <- !app_assoc. rewrite bracket_close_inert by (by apply digits_inert). cbn [mbind option_bind app]. unfold bracket_operator.
  change (bs "]") with ["]"%b]. cbn [app drop]. cbn. by rewrite <- app_assoc.
Qed.

(** A text that ends a word. *)
Definition ends_word (s : bytes) : Prop := match s with [] => True | b :: _ => is_ascii_whitespace b = true end.

Lemma word_loop_stops n w s : ends_word s -> word_loop n w s = s.
Proof. destruct n as [|n], s as [|b r]; cbn; [done..|]. by intros ->. Qed.

Lemma word_printed i v rest : 0 <= i -> ends_word rest ->
  word_loop (length (printed_element (i, v) ++ rest)) true (printed_element (i, v) ++ rest) = rest.
Proof.
  intros Hi Hr. pose proof (skip_bracket_printed i v rest Hi) as Hs. pose proof (printed_element_eq i v) as He.
  set (t := u_to_string i ++ bs "]" ++ "="%b :: dquote :: escape_double v ++ [dquote]) in *. rewrite He in *.
  cbn [app] in Hs |- *. cbn [length word_loop]. rewrite Hs, !opens_not by done. known_bytes. cbn [default from_option id].
  assert (Hlen : (2 <= length (t ++ rest))%nat) by (unfold t; rewrite !length_app; cbn; lia).
  destruct (length (t ++ rest)) as [|n]; [lia|]. cbn [word_loop]. known_bytes.
  rewrite skip_double_printed. by apply word_loop_stops.
Qed.

(** The words of a printed list are its elements. *)
Lemma lex_words_printed l n s : Forall (fun e => 0 <= fst e) l -> (s = [] \/ s = [" "%b]) ->
  let body := s ++ join (bs " ") (map printed_element l) in
  (length body < n)%nat -> lex_words_loop n body = map (fun e => lexed (printed_element e)) l.
Proof.
  revert n s. induction l as [|[i v] l IH]; intros n s Hl Hs body Hn.
  { destruct n; [lia|]. subst body. cbn [map join] in *. rewrite app_nil_r. destruct Hs as [-> | ->]; reflexivity. }
  apply Forall_cons in Hl as [Hi Hl]. cbn [fst] in Hi.
  set (rest := match l with [] => [] | _ => bs " " ++ join (bs " ") (map printed_element l) end).
  assert (Hb : body = s ++ printed_element (i, v) ++ rest).
  { subst body rest. destruct l; cbn [map join]; [by rewrite app_nil_r|done]. }
  clearbody body. subst body.
  assert (Hspan : snd (Scan.span is_ascii_whitespace (s ++ printed_element (i, v) ++ rest)) = printed_element (i, v) ++ rest).
  { destruct Hs as [-> | ->]; reflexivity. }
  assert (Hrest : lex_words_loop (pred n) rest = map (fun e => lexed (printed_element e)) l).
  { subst rest. destruct l as [|e l]; [destruct n as [|[|n]]; reflexivity|]. apply IH; [done|by right|].
    revert Hn. rewrite !length_app, printed_element_eq. cbn [length]. cbn. lia. }
  destruct n as [|n]; [lia|]. cbn [pred] in Hrest. cbn [lex_words_loop]. rewrite Hspan.
  pose proof (word_printed i v rest Hi ltac:(subst rest; destruct l; done)) as Hw.
  assert (Htake : take (length (printed_element (i, v) ++ rest) - length rest) (printed_element (i, v) ++ rest) = printed_element (i, v)).
  { rewrite length_app. replace (_ - _)%nat with (length (printed_element (i, v))) by lia. apply take_app_length. }
  cbn [map]. rewrite <- Hrest. clear Hrest IH Hspan.
  destruct (printed_element (i, v) ++ rest) as [|b r] eqn:Ep; [rewrite printed_element_eq in Ep; done|].
  assert (b = "["%b) as -> by (rewrite printed_element_eq in Ep; by injection Ep as <- _).
  change ("["%b =? "#"%b) with false. cbn iota. rewrite Hw, Htake. done.
Qed.

(** No metacharacter outside the quotes. *)
Definition quiet (b : Z) : bool := inert b || (b =? "["%b) || (b =? "]"%b).

Lemma metachar_quiet w b r : quiet b = true ->
  metachar_loop (length (b :: r)) w (b :: r) = metachar_loop (length r) false r.
Proof.
  unfold quiet. intros Hq. cbn [length metachar_loop]. apply orb_true_iff in Hq as [[Hb | ->%Z.eqb_eq]%orb_true_iff | ->%Z.eqb_eq].
  - destruct (inert_not b Hb) as (Hw & H1 & H2 & H3 & H4 & H5 & H6 & H7 & H8 & H9 & H10 & H11 & H12 & H13).
    rewrite !opens_not, Hw, H13, H1, H2, H3, H10, H11, H12, H8, H9 by done. done.
  - rewrite !opens_not by done. known_bytes. done.
  - rewrite !opens_not by done. known_bytes. done.
Qed.

Lemma metachar_quiets w s r : forallb quiet s = true -> s <> [] ->
  metachar_loop (length (s ++ r)) w (s ++ r) = metachar_loop (length r) false r.
Proof.
  revert w. induction s as [|b s IH]; intros w; [done|]. cbn [forallb]. intros [Hb Hs]%andb_true_iff _.
  change ((b :: s) ++ r) with (b :: (s ++ r)). rewrite metachar_quiet by done. destruct s as [|c s]; [done|]. by apply IH.
Qed.

Lemma metachar_printed w i v rest : 0 <= i ->
  metachar_loop (length (printed_element (i, v) ++ rest)) w (printed_element (i, v) ++ rest)
  = metachar_loop (length rest) false rest.
Proof.
  intros Hi. set (head := "["%b :: u_to_string i ++ bs "]="). set (tail := escape_double v ++ dquote :: rest).
  assert (Hp : printed_element (i, v) ++ rest = head ++ dquote :: tail).
  { rewrite printed_element_eq. unfold head, tail. cbn [app]. rewrite <- !app_assoc. cbn [app]. by rewrite <- app_assoc. }
  rewrite Hp, metachar_quiets; [|unfold head; cbn [forallb]; rewrite forallb_app, andb_true_r; apply andb_true_iff; split; [done|]|done].
  - cbn [length metachar_loop]. rewrite !opens_not by done. known_bytes. unfold tail. rewrite skip_quoted_printed.
    apply metachar_rounds; [|done]. rewrite length_app. cbn [length]. lia.
  - apply forallb_forall. intros b Hb. unfold quiet. pose proof (digits_inert i Hi) as Hd. rewrite forallb_forall in Hd.
    by rewrite Hd.
Qed.

Lemma metachar_printed_list l w : Forall (fun e => 0 <= fst e) l ->
  let body := join (bs " ") (map printed_element l) in metachar_loop (length body) w body = None.
Proof.
  revert w. induction l as [|[i v] l IH]; intros w Hl; [done|]. apply Forall_cons in Hl as [Hi Hl]. cbn [map].
  destruct l as [|e l].
  { cbn [map join]. rewrite <- (app_nil_r (printed_element (i, v))). cbv zeta. by rewrite metachar_printed. }
  change (join (bs " ") (printed_element (i, v) :: map printed_element (e :: l)))
    with (printed_element (i, v) ++ bs " " ++ join (bs " ") (map printed_element (e :: l))).
  cbv zeta. rewrite metachar_printed by done. set (b := join _ _). change (bs " " ++ b) with (" "%b :: b).
  cbn [length metachar_loop]. known_bytes. by apply IH.
Qed.

(** The parts of a compound assignment; the search for [+=(] goes over the whole text. *)
Lemma find_sub_here p s : starts_with p s = true -> find_sub p s = Some 0%nat.
Proof. intros Hp. destruct s; cbn; [destruct p; [done|done]|]. by rewrite Hp. Qed.

Lemma find_equals_paren name rest : is_valid_name name = true -> find_sub (bs "=(") (name ++ bs "=(" ++ rest) = Some (length name).
Proof.
  intros Hn. assert (Hne : Forall (fun b => b <> "="%b) name).
  { destruct name as [|c name]; [done|]. cbn in Hn. apply andb_true_iff in Hn as [Hc Hn]. rewrite forallb_forall in Hn.
    assert (Hx : forall b, is_name_byte b = true -> b <> "="%b).
    { unfold is_name_byte, is_name_start, is_ascii_alphabetic, is_ascii_upper, is_ascii_lower, is_ascii_digit, in_range. lia. }
    constructor; [apply Hx; unfold is_name_byte; by rewrite Hc|]. apply List.Forall_forall. intros b Hb. by apply Hx, Hn. }
  clear Hn. induction name as [|c name IH]; [by apply find_sub_here|].
  apply Forall_cons in Hne as [Hc Hne]. cbn [app find_sub length].
  change (starts_with (bs "=(") (c :: name ++ bs "=(" ++ rest)) with (("="%b =? c) && starts_with (bs "(") (name ++ bs "=(" ++ rest)).
  replace ("="%b =? c) with false by (symmetry; apply Z.eqb_neq; congruence). cbn [andb]. by rewrite IH.
Qed.

Lemma ends_with_snoc s b : ends_with [b] (s ++ [b]) = true.
Proof. unfold ends_with. rewrite rev_app_distr. cbn. by rewrite Z.eqb_refl. Qed.

Lemma compound_parts_printed name body : is_valid_name name = true ->
  let text := name ++ bs "=(" ++ body ++ bs ")" in
  find_sub (bs "+=(") text = None -> compound_parts text = Some (name, body, false).
Proof.
  intros Hn text Hf. unfold compound_parts. rewrite Hf. unfold text. rewrite find_equals_paren by done. cbn [mbind option_bind].
  replace (name ++ bs "=(" ++ body ++ bs ")") with ((name ++ bs "=(" ++ body) ++ [")"%b]) at 1 by (by rewrite <- !app_assoc).
  change (bs ")") with [")"%b]. rewrite ends_with_snoc, take_app_length. do 3 f_equal. unfold slice.
  rewrite drop_app_add' by done. rewrite !length_app. cbn [length]. change (drop 2 (bs "=(" ++ body ++ [")"%b])) with (body ++ [")"%b]).
  replace (_ - _)%nat with (length body) by (cbn; lia). apply take_app_length.
Qed.
