(* ===== verification/Assign.v ===== *)
(** Assignments (crates/expander/src/assignment.rs): scalar, element and compound ones,
    expanded to what is to be stored.  The messages printed on the way are kept in the
    order they are printed; error.rs has their texts. *)
From stdpp Require Import gmap.
From S2P Require Import Prelude Env Utf8 Options Vars Buf Pattern Split Quote Expand Internal Brace Pipeline Scan Param Transform Dollar Entry AssignText.

#[local] Open Scope Z_scope.

Definition W_COMPASSIGN : Z := 2 ^ 14.

(** * Error messages (error.rs) *)

Definition is_bash_style_arith_syntax (message : bytes) : bool :=
  str_contains (bs ": syntax error") message || str_contains (bs ": arithmetic syntax error") message
  || str_contains (bs "(error token is ") message
  || (starts_with (bs "`") message && str_contains (bs "not a valid identifier") message).

(** The message of [into_shell_error]. *)
Definition shell_error_message (x : ExpandError) : bytes :=
  match x with
  | BadSubstitution s => s ++ bs ": bad substitution"
  | UnboundVariable s => s ++ bs ": unbound variable"
  | UnboundColonError name msg => if is_nil msg then name ++ bs ": parameter null or not set" else name ++ bs ": " ++ msg
  | AssignToReadonly s => s ++ bs ": readonly variable"
  | DivisionByZero => bs "division by 0 (error token is " ++ [dquote] ++ bs "0" ++ [dquote] ++ bs ")"
  | ArithSyntax s => if is_bash_style_arith_syntax s then s else bs "syntax error: " ++ s
  | ArithOverflow => bs "arithmetic overflow"
  | ArithRecursion => bs "arithmetic expression recursion limit exceeded"
  | BadPattern p => p ++ bs ": bad pattern"
  | InvalidArraySubscript s => s ++ bs ": bad array subscript"
  | CommandSubstFailed _ => bs "command substitution failed"
  | ExitShell _ | AlreadyReported _ => []
  | SubstitutionRecursive d => bs "expansion nesting too deep: " ++ u_to_string d
  | AmbiguousRedirect s => s ++ bs ": ambiguous redirect"
  | FailGlob s => bs "no match: " ++ s
  | Io s | Other s | Fatal s => s
  end.

Definition already_reported (x : ExpandError) : bool :=
  match x with AlreadyReported _ | ExitShell _ => true | _ => false end.

Definition is_fatal (x : ExpandError) : bool :=
  match x with AssignToReadonly _ | UnboundColonError _ _ | Fatal _ => true | _ => false end.

(** * What is to be stored *)

Inductive ExpandedAssignment :=
| Scalar (name value : bytes)
| IndexedElem (name : bytes) (index : Z) (value : bytes)
| AssocElem (name key value : bytes)
| IndexedArray (name : bytes) (entries : list (option Z * bytes)) (append : bool)
| AssocArray (name : bytes) (values : list (bytes * bytes)) (append : bool).

Definition scalar_pair (a : ExpandedAssignment) : option (bytes * bytes) :=
  match a with Scalar name value => Some (name, value) | _ => None end.

(** [env.diagnostic_source_name()]. *)
Class DiagnosticSource (E : Type) := { diagnostic_source_name : E -> option bytes }.

(** The variables and what has been printed. *)
Record AState (E : Type) := mkA { vars_of : E; printed : list bytes }.
Arguments mkA {_} _ _.
Arguments vars_of {_} _.
Arguments printed {_} _.

Definition AM (E A : Type) : Type := AState E -> Res ExpandError A * AState E.
Definition pure {E A} (a : A) : AM E A := fun s => (Ok a, s).
Definition raise {E A} (x : ExpandError) : AM E A := fun s => (Err x, s).
Definition abind {E A B} (m : AM E A) (k : A -> AM E B) : AM E B := fun s =>
  match m s with
  | (Ok a, s) => k a s
  | (Err x, s) => (Err x, s)
  | (Fuel, s) => (Fuel, s)
  end.
Notation "x <~ m ;; k" := (abind m (fun x => k)) (at level 100, m at next level, right associativity).

(** A step on the variables, one that reads them, and one that prints. *)
Definition on_vars {E A} (f : E -> Res ExpandError A * E) : AM E A := fun s =>
  let '(r, e) := f (vars_of s) in (r, mkA e (printed s)).
Definition look {E A} (f : E -> A) : AM E A := fun s => (Ok (f (vars_of s)), s).
Definition fetch {E A} (f : E -> A * E) : AM E A := fun s => let '(a, e) := f (vars_of s) in (Ok a, mkA e (printed s)).
Definition print {E} (message : bytes) : AM E unit := fun s => (Ok tt, mkA (vars_of s) (printed s ++ [message])).

Section Assign.
Context {E : Type} `{Environment E} `{Parameters E} `{Arrays E} `{Casing} `{Passwd} `{CommandRunner E} `{Runner E} `{PromptInfo E}
  `{Constructs E} `{Globbing E} `{WordExpansion E} `{ArithText E} `{DiagnosticSource E}.

(** A message with its source and line. *)
Definition report (message : bytes) : AM E unit := fun s =>
  let prefix :=
    match diagnostic_source_name (vars_of s), diagnostic_line (vars_of s) with
    | Some source, Some line => source ++ bs ": line " ++ u_to_string line ++ bs ": "
    | _, _ => bs "cherubsh: "
    end in
  print (prefix ++ message) s.

Definition report_compound_assignment_error (label message : bytes) : AM E unit := report (label ++ bs ": " ++ message).

Definition report_assoc_compound_needs_subscript (name word : bytes) : AM E unit :=
  report (name ++ bs ": " ++ word ++ bs ": must use subscript when assigning associative array").

Definition report_compound_arith_error (x : ExpandError) : AM E unit := report (shell_error_message x).

Definition compound_subscript_needs_invalid_operator_recovery (expr : bytes) : bool :=
  existsb (fun b => b =? 1) (value_bytes expr).

Definition escape_token (token : bytes) : bytes :=
  concat (map (fun b => if (b =? "\"%b) || (b =? dquote) then ["\"%b; b] else [b]) token).

Definition report_compound_arith_invalid_operator (expr : bytes) : AM E unit :=
  let bytes := List.filter (fun b => negb (b =? 1)) (value_bytes expr) in
  let token := from_utf8_lossy (arithmetic_operator_token_start bytes) in
  report (from_utf8_lossy bytes ++ bs ": arithmetic syntax error: invalid arithmetic operator (error token is " ++ [dquote]
          ++ escape_token token ++ [dquote] ++ bs ")").

(** * Values *)

Definition integer_attr (e : E) (name : bytes) : bool := attr_contains (env_attrs e name) INTEGER.

Definition arith_value (text : bytes) : AM E Z := on_vars (in_new_ctx (eval_preexpanded text)).

Definition rhs_value (s : bytes) : AM E bytes := on_vars (expand_assignment_rhs s).

Definition maybe_arith_value (value : bytes) (arithmetic : bool) : AM E bytes :=
  if negb arithmetic then pure value
  else if is_nil value then pure (bs "0")
  else z <~ arith_value value ;; pure (i64_to_string z).

Definition append_value (old rhs : bytes) (arithmetic : bool) : AM E bytes :=
  if is_nil old then pure rhs
  else if arithmetic then
    _ <~ arith_value old ;;
    z <~ arith_value (bs "(" ++ old ++ bs ") + (" ++ rhs ++ bs ")") ;;
    pure (i64_to_string z)
  else pure (old ++ rhs).

(** The value of an element: appended to the old one or on its own. *)
Definition element_value (append : bool) (old : AM E (option bytes)) (value : bytes) (arithmetic : AM E bool) : AM E bytes :=
  if append then
    o <~ old ;;
    b <~ arithmetic ;;
    append_value (default [] o) value b
  else b <~ arithmetic ;; maybe_arith_value value b.

Definition assignment_target_name (e : E) (name : bytes) : bytes :=
  if attr_contains (env_attrs e name) NAMEREF then default name (env_resolve_nameref e name) else name.

Definition unresolved_nameref (e : E) (name : bytes) : bool :=
  attr_contains (env_attrs e name) NAMEREF && is_nil (default [] (env_nameref_target e name)).

(** * Subscripts *)

(** The loop of [fast_expand_simple_subscript]: only plain parameters. *)
Fixpoint simple_subscript_loop (fuel : nat) (nounset : bool) (s out : bytes) (e : E) : option bytes * E :=
  match fuel, s with
  | S fuel, b :: r =>
      if negb (b =? "$"%b) then simple_subscript_loop fuel nounset r (out ++ [b]) e
      else
        match r with
        | c :: r' =>
            if negb (is_name_start c) then (None, e)
            else
              let '(t, rest) := span is_name_byte r' in
              let name := c :: t in
              if attr_contains (env_attrs e name) NAMEREF then (None, e)
              else
                match env_get e name with
                | (Some value, e) => simple_subscript_loop fuel nounset rest (out ++ value) e
                | (None, e) => if nounset then (None, e) else simple_subscript_loop fuel nounset rest out e
                end
        | [] => (None, e)
        end
  | _, _ => (Some out, e)
  end.

Definition simple_subscript_body (subscript : bytes) : option bytes :=
  if negb (forallb (fun b => b <? 128) subscript) then None
  else
    body ← (match subscript with
            | b :: r =>
                if (b =? dquote) && negb (is_nil r) && ends_with [dquote] r then Some (removelast r)
                else if existsb (fun b => (b =? "'"%b) || (b =? dquote)) subscript then None else Some subscript
            | [] => Some []
            end);
    if existsb (fun b => (b =? "\"%b) || (b =? "'"%b) || (b =? dquote) || (b =? "`"%b) || (b =? "~"%b)) body
    then None else Some body.

Definition fast_expand_simple_subscript (subscript : bytes) (e : E) : option bytes * E :=
  match simple_subscript_body subscript with
  | None => (None, e)
  | Some body =>
      if negb (existsb (fun b => b =? "$"%b) body) then
        (if negb (length body =? length subscript)%nat then Some body else None, e)
      else simple_subscript_loop (length body) (env_option e (bs "nounset")) body [] e
  end.

Definition expand_subscript_text (subscript : bytes) : AM E bytes :=
  fast <~ fetch (fast_expand_simple_subscript subscript) ;;
  match fast with
  | Some expanded => pure expanded
  | None => if needs_expansion subscript then on_vars (expand_string_to_string subscript) else pure subscript
  end.

Definition expand_assoc_subscript_text (subscript : bytes) : AM E bytes := rhs_value subscript.

(** A number, or a name whose value is one, without the evaluator. *)
Definition fast_decimal_arith_value (expr : bytes) (e : E) : option Z * E :=
  match parse_plain_decimal expr with
  | Some z => (Some z, e)
  | None =>
      if negb (AssignText.is_valid_name expr) then (None, e)
      else
        match env_get e expr with
        | (None, e) => (Some 0, e)
        | (Some value, e) =>
            let value := trim value in
            (if is_nil value then Some 0 else parse_plain_decimal value, e)
        end
  end.

Definition eval_indexed_subscript_text (text : bytes) : AM E Z :=
  let trimmed := trim text in
  if is_nil trimmed then pure 0
  else
    fast <~ fetch (fast_decimal_arith_value trimmed) ;;
    match fast with Some z => pure z | None => arith_value text end.

(** A negative subscript counts from the end. *)
Definition normalize_indexed_subscript (name : bytes) (index : Z) (label : bytes) : AM E Z :=
  if 0 <=? index then pure index
  else
    kd <~ look (fun e => env_kind e name) ;;
    max <~ (match kd with
            | KIndexed => fetch (fun e => env_array_max_index e name)
            | KScalar => v <~ fetch (fun e => env_get e name) ;; pure (match v with Some _ => Some 0 | None => None end)
            | _ => pure None
            end) ;;
    match max with
    | None => raise (InvalidArraySubscript label)
    | Some max =>
        let resolved := wrap64 (wrap64 (max + 1) + index) in
        if resolved <? 0 then raise (InvalidArraySubscript label) else pure resolved
    end.

Definition all_subscript (trimmed : bytes) : bool := one_of trimmed ["*"; "@"]%string.

(** An element of the array [target], the variable being called [name]. *)
Definition array_element (name target subscript : bytes) (append : bool) (value : bytes) : AM E ExpandedAssignment :=
  kd <~ look (fun e => env_kind e target) ;;
  let integer := look (fun e => integer_attr e target) in
  match kd with
  | KAssoc =>
      key <~ expand_assoc_subscript_text subscript ;;
      value <~ element_value append (fetch (fun e => env_get_array_assoc e target key)) value integer ;;
      pure (AssocElem name key value)
  | _ =>
      idx_text <~ expand_subscript_text subscript ;;
      let trimmed := trim idx_text in
      let label := name ++ bs "[" ++ trimmed ++ bs "]" in
      if is_nil subscript || all_subscript trimmed then raise (Other (label ++ bs ": bad array subscript"))
      else
        index <~ eval_indexed_subscript_text idx_text ;;
        index <~ normalize_indexed_subscript target index label ;;
        value <~ element_value append (fetch (fun e => env_get_array_indexed e target index)) value integer ;;
        pure (IndexedElem name index value)
  end.

Definition expand_array_element_assignment (name subscript value : bytes) (append : bool) : AM E ExpandedAssignment :=
  array_element name name subscript append value.

(** * Compound values *)

Definition expand_compound_value (raw : bytes) : AM E bytes :=
  value <~ rhs_value (trim_compound_value raw) ;;
  pure (if compound_value_has_quoted_at raw && ends_with (bs " ") value then removelast value else value).

(** The first subscript of a compound value. *)
Definition first_index (name : bytes) (append : bool) : AM E Z :=
  if append then
    keys <~ fetch (fun e => env_array_keys e name) ;;
    match keys with
    | Some (k :: ks) => pure (wrap64 (fold_left Z.max ks k + 1))
    | _ => v <~ fetch (fun e => env_get e name) ;; pure (match v with Some _ => 1 | None => 0 end)
    end
  else pure 0.

(** The loop over the words: what is to be stored, the elements so far and the next
    subscript; it may stop early. *)
Record Compound := mkCompound { entries : list (option Z * bytes); elements : gmap Z bytes; next_index : Z }.

Inductive Flow := Go (st : Compound) | Stop (out : list (option Z * bytes)).

Definition store_at (st : Compound) (index : Z) (value : bytes) : Compound :=
  mkCompound (entries st ++ [(Some index, value)]) (<[index := value]> (elements st)) (wrap64 (index + 1)).

Definition store_next (st : Compound) (value : bytes) : Compound :=
  mkCompound (entries st ++ [(None, value)]) (<[next_index st := value]> (elements st)) (wrap64 (next_index st + 1)).

Definition stop_with (st : Compound) (label message : bytes) : AM E Flow :=
  _ <~ report_compound_assignment_error label message ;; pure (Stop (entries st)).

(** [\[index\]=value] at a known subscript. *)
Definition bracketed_value (name : bytes) (compound_append append arithmetic : bool) (st : Compound) (index : Z) (value_raw : bytes) :
    AM E Flow :=
  value <~ expand_compound_value value_raw ;;
  let old :=
    match elements st !! index with
    | Some v => pure (Some v)
    | None => if compound_append then fetch (fun e => env_get_array_indexed e name index) else pure None
    end in
  value <~ element_value append old value (pure arithmetic) ;;
  pure (Go (store_at st index value)).

Definition bracketed_word (name : bytes) (compound_append arithmetic : bool) (st : Compound) (index_raw value_raw : bytes)
    (append : bool) : AM E Flow :=
  idx_text <~ on_vars (expand_string_to_string index_raw) ;;
  let trimmed := trim idx_text in
  let label := bracket_assignment_label index_raw value_raw append in
  let bad := stop_with st label (bs "bad array subscript") in
  if is_nil trimmed then bad
  else if all_subscript trimmed then stop_with st label (bs "cannot assign to non-numeric index")
  else fun s =>
    match arith_value idx_text s with
    | (Fuel, s) => (Fuel, s)
    | (Err err, s) =>
        if compound_subscript_needs_invalid_operator_recovery idx_text then
          (_ <~ report_compound_arith_invalid_operator idx_text ;; pure (Stop (entries st))) s
        else if env_option (vars_of s) (bs "array_expand_once") then
          (_ <~ report_compound_arith_error err ;; pure (Stop [])) s
        else (Err err, s)
    | (Ok index, s) =>
        (if index <? 0 then
           if compound_append then
             max <~ fetch (fun e => env_array_max_index e name) ;;
             match max with
             | Some max =>
                 let resolved := wrap64 (wrap64 (max + 1) + index) in
                 if 0 <=? resolved then bracketed_value name compound_append append arithmetic st resolved value_raw else bad
             | None => bad
             end
           else bad
         else bracketed_value name compound_append append arithmetic st index value_raw) s
    end.

(** The fields of a word without a subscript. *)
Fixpoint plain_fields (arithmetic : bool) (st : Compound) (fields : list WordDesc) : AM E Compound :=
  match fields with
  | [] => pure st
  | w :: fields => value <~ maybe_arith_value (text w) arithmetic ;; plain_fields arithmetic (store_next st value) fields
  end.

Definition compound_word (name : bytes) (compound_append arithmetic : bool) (st : Compound) (word : WordDesc) : AM E Flow :=
  match bracket_assignment (text word) with
  | Some (index_raw, value_raw, append) => bracketed_word name compound_append arithmetic st index_raw value_raw append
  | None =>
      fields <~ on_vars (expand_word_list [word] (Z.lor SPLIT_FIELDS (Z.lor EXPAND_GLOB QUOTE_REMOVAL))) ;;
      st <~ plain_fields arithmetic st fields ;;
      pure (Go st)
  end.

Fixpoint compound_words (name : bytes) (compound_append arithmetic : bool) (st : Compound) (words : list WordDesc) :
    AM E (list (option Z * bytes)) :=
  match words with
  | [] => pure (entries st)
  | w :: words =>
      flow <~ compound_word name compound_append arithmetic st w ;;
      match flow with
      | Go st => compound_words name compound_append arithmetic st words
      | Stop out => pure out
      end
  end.

Definition parse_indexed_compound (name body : bytes) (compound_append : bool) : AM E (list (option Z * bytes)) :=
  if is_nil (trim body) then pure []
  else
    next <~ first_index name compound_append ;;
    arithmetic <~ look (fun e => integer_attr e name) ;;
    compound_words name compound_append arithmetic (mkCompound [] ∅ next) (lex_words body).

(** The loop of [parse_assoc_compound]; [bracketed] is [bracketed_syntax]. *)
Fixpoint assoc_words (name : bytes) (compound_append arithmetic : bool) (bracketed : option bool) (out : list (bytes * bytes))
    (current : gmap bytes bytes) (words : list WordDesc) : AM E (list (bytes * bytes)) :=
  match words with
  | [] => pure out
  | w :: words =>
      let next bracketed key value := assoc_words name compound_append arithmetic bracketed (out ++ [(key, value)]) (<[key := value]> current) in
      match bracket_assignment (text w) with
      | Some (key_raw, value_raw, append) =>
          key <~ expand_assoc_subscript_text key_raw ;;
          if is_nil key then
            _ <~ report_compound_assignment_error [dquote; dquote] (bs "bad array subscript") ;;
            assoc_words name compound_append arithmetic (Some true) out current words
          else
            value <~ expand_compound_value value_raw ;;
            let old :=
              match current !! key with
              | Some v => pure (Some v)
              | None => if compound_append then fetch (fun e => env_get_array_assoc e name key) else pure None
              end in
            value <~ element_value append old value (pure arithmetic) ;;
            next (Some true) key value words
      | None =>
          if bool_decide (bracketed = Some true) then
            _ <~ report_assoc_compound_needs_subscript name (text w) ;;
            assoc_words name compound_append arithmetic bracketed out current words
          else
            key <~ expand_assoc_subscript_text (text w) ;;
            let bad := report_compound_assignment_error (text w) (bs "bad array subscript") in
            match words with
            | [] =>
                if is_nil key then _ <~ bad ;; pure out
                else value <~ maybe_arith_value [] arithmetic ;; pure (out ++ [(key, value)])
            | value_word :: words =>
                if is_nil key then _ <~ bad ;; assoc_words name compound_append arithmetic (Some false) out current words
                else
                  value <~ expand_compound_value (text value_word) ;;
                  value <~ maybe_arith_value value arithmetic ;;
                  next (Some false) key value words
            end
      end
  end.

Definition parse_assoc_compound (name body : bytes) (compound_append : bool) : AM E (list (bytes * bytes)) :=
  arithmetic <~ look (fun e => integer_attr e name) ;;
  assoc_words name compound_append arithmetic None [] ∅ (lex_words body).

Definition expand_compound_assignment (text : bytes) : AM E ExpandedAssignment :=
  match compound_parts text with
  | None => raise (Other (text ++ bs ": invalid compound assignment"))
  | Some (name, body, append) =>
      match array_lhs name with
      | Some _ => raise (Other (name ++ bs ": cannot assign list to array member"))
      | None =>
          if negb (AssignText.is_valid_name name) then raise (Other (name ++ bs ": not a valid identifier"))
          else
            match invalid_compound_metachar body with
            | Some token => raise (Other (bs "syntax error near unexpected token `" ++ token ++ bs "'"))
            | None =>
                target <~ look (fun e => assignment_target_name e name) ;;
                kd <~ look (fun e => env_kind e target) ;;
                match kd with
                | KAssoc => values <~ parse_assoc_compound target body append ;; pure (AssocArray name values append)
                | _ => entries <~ parse_indexed_compound target body append ;; pure (IndexedArray name entries append)
                end
            end
      end
  end.

(** * A word *)

Definition scalar_assignment (lhs target rhs : bytes) (append : bool) : AM E ExpandedAssignment :=
  value <~ rhs_value rhs ;;
  unresolved_invalid <~ look (fun e => negb append && unresolved_nameref e lhs && negb (assignment_lhs_valid value)) ;;
  let integer := look (fun e => integer_attr e target) in
  value <~ (if append then
              keep <~ look (fun e => bytes_eqb target lhs && attr_contains (env_attrs e lhs) NAMEREF) ;;
              old <~ (if keep : bool then pure [] else v <~ fetch (fun e => env_get e target) ;; pure (default [] v)) ;;
              b <~ integer ;;
              append_value old value b
            else if unresolved_invalid : bool then pure value
            else b <~ integer ;; maybe_arith_value value b) ;;
  pure (Scalar lhs value).

Definition expand_assignment_word (word : WordDesc) : AM E (option ExpandedAssignment) :=
  let t := text word in
  if bool_decide (is_Some (compound_parts t)) || (has (word_flags word) W_COMPASSIGN && negb (compound_assignment_has_trailing_text t))
  then a <~ expand_compound_assignment t ;; pure (Some a)
  else
    match split_assignment_text t with
    | None => pure None
    | Some (lhs, rhs, append) =>
        match array_lhs lhs with
        | Some (name, subscript) =>
            target <~ look (fun e => assignment_target_name e name) ;;
            value <~ rhs_value rhs ;;
            a <~ array_element name target subscript append value ;;
            pure (Some a)
        | None =>
            if negb (AssignText.is_valid_name lhs) then pure None
            else
              target <~ look (fun e => assignment_target_name e lhs) ;;
              match (if bytes_eqb target lhs then None else array_lhs target) with
              | Some (name, subscript) =>
                  value <~ rhs_value rhs ;;
                  a <~ expand_array_element_assignment name subscript value append ;;
                  pure (Some a)
              | None => a <~ scalar_assignment lhs target rhs append ;; pure (Some a)
              end
        end
    end.
End Assign.
