(* ===== verification/AssignApply.v ===== *)
(** Storing an expanded assignment: [apply_assignment] of crates/exec/src/util.rs and
    [apply_expanded_assignment] with its global variant in
    crates/builtins/src/common.rs, over the variable store of Vars.v.  The messages are
    kept as values, in the order they are printed. *)
From stdpp Require Import gmap.
From S2P Require Import Prelude Env Options IndexedArray Vars Scan Transform Assign.

#[local] Open Scope Z_scope.

Inductive Said :=
| SaidAssign (err : AssignError)
| SaidReadonly (name : bytes)
| SaidInvalidIdentifier (name : bytes)
| SaidEmptyIdentifier
| SaidRemovingNameref (name : bytes)
| SaidRestricted (value : bytes)
| SaidNotFound (value : bytes).

(** The shell, the arrays whose next assignment keeps the order of its keys
    ([preserve_assoc_order_once]), and the messages. *)
Record ApplyState := mkApply { shell : ShellState; preserve_once : gset bytes; said : list Said }.

Definition on_shell (f : ShellState -> ShellState) (s : ApplyState) : ApplyState := mkApply (f (shell s)) (preserve_once s) (said s).
Definition say (m : Said) (s : ApplyState) : ApplyState := mkApply (shell s) (preserve_once s) (said s ++ [m]).
Definition refuse (m : Said) (s : ApplyState) : Z * ApplyState := (1, say m s).

(** [path.is_file()] and [access(path, X_OK)]. *)
Class Executables := { is_executable : bytes -> bool }.

(** [PathBuf::push] of a name without a slash. *)
Definition path_push (dir name : bytes) : bytes :=
  if is_nil dir then name else if ends_with (bs "/") dir then dir ++ name else dir ++ bs "/" ++ name.

Section Apply.
Context `{System} `{Casing} `{Executables}.

(** * The operations of one scope *)

(** The methods that have a variant for the global scope. *)
Record ScopeOps := mkOps {
  o_attrs : ShellState -> bytes -> Z;
  o_exported : ShellState -> bytes -> bool;
  o_kind : ShellState -> bytes -> VarKind;
  o_get : ShellState -> bytes -> option bytes * ShellState;
  o_array_keys : ShellState -> bytes -> option (list Z) * ShellState;
  o_is_readonly : ShellState -> bytes -> bool;
  o_assign : ShellState -> bytes -> bytes -> AssignResult;
  o_set_attr : ShellState -> bytes -> Z -> bool -> ShellState;
  o_export : ShellState -> bytes -> ShellState;
  o_unset : ShellState -> bytes -> ShellState;
  o_set_array : ShellState -> bytes -> list bytes -> ShellState;
  o_set_array_indexed : ShellState -> bytes -> Z -> bytes -> ShellState;
  o_set_array_assoc : ShellState -> bytes -> bytes -> bytes -> ShellState;
  o_unset_array_elem : ShellState -> bytes -> bytes -> ShellState;
}.

Definition visible : ScopeOps :=
  mkOps var_attrs var_exported var_kind get_cow array_keys is_readonly var_assign set_attr export unset set_array set_array_indexed
    set_array_assoc unset_array_elem.

Definition kind_from_snapshot (s : ShellState) (name : bytes) (saved : SavedVar) : VarKind :=
  let a := entry_attrs (sv_entry saved) in
  if bool_decide (is_Some (sv_nameref saved)) then KNameref
  else if attr_contains a ASSOC || bool_decide (is_Some (sv_assoc saved)) then KAssoc
  else if attr_contains a ARRAY || bool_decide (is_Some (sv_indexed saved)) then KIndexed
  else if bool_decide (is_Some (sv_entry saved)) then KScalar
  else if bool_decide (is_Some (penv s !! name)) then KScalar
  else KUnset.

(** A field of the saved entry, or the visible variable's. *)
Definition global_field {A} (f : VariableEntry -> A) (visible : ShellState -> bytes -> A) (s : ShellState) (name : bytes) : A :=
  match global_saved_snapshot s name with
  | Some saved => match sv_entry saved with Some e => f e | None => visible s name end
  | None => visible s name
  end.

Definition global_attrs : ShellState -> bytes -> Z := global_field attrs var_attrs.
Definition global_exported : ShellState -> bytes -> bool := global_field exported var_exported.
Definition global_is_readonly : ShellState -> bytes -> bool := global_field readonly is_readonly.

Definition global_kind (s : ShellState) (name : bytes) : VarKind :=
  match global_saved_snapshot s name with Some saved => kind_from_snapshot s name saved | None => var_kind s name end.

Definition global_get (s : ShellState) (name : bytes) : option bytes * ShellState :=
  match global_saved_snapshot s name with
  | Some saved => (match sv_entry saved with Some e => if has_value e then Some (value e) else None | None => None end, s)
  | None => get_cow s name
  end.

Definition global_array_keys (s : ShellState) (name : bytes) : option (list Z) * ShellState :=
  match global_saved_snapshot s name with
  | Some saved => (IndexedArray.keys <$> sv_indexed saved, s)
  | None => array_keys s name
  end.

Definition global : ScopeOps :=
  mkOps global_attrs global_exported global_kind global_get global_array_keys global_is_readonly assign_global set_global_attr
    export_global unset_global set_global_array set_global_array_indexed set_global_array_assoc unset_global_array_elem.

(** * Arrays *)

Section Arrays.
Variable O : ScopeOps.

Definition kept_attributes : list Z := [INTEGER; LOWERCASE; UPPERCASE; CAPCASE; TRACE; EXPORT; NAMEREF].

(** The attributes the variable had, then the one of the array, then the export. *)
Definition restore_attributes (attrs : Z) (exported : bool) (array : Z) (name : bytes) (s : ShellState) : ShellState :=
  let s := fold_left (fun s a => if attr_contains attrs a then o_set_attr O s name a true else s) kept_attributes s in
  let s := o_set_attr O s name array true in
  if exported then o_export O s name else s.

Definition reset_indexed_array_for_assignment (s : ShellState) (name : bytes) : ShellState :=
  let a := o_attrs O s name in
  let x := o_exported O s name in
  restore_attributes a x ARRAY name (o_set_array O s name []).

Definition ensure_indexed_array_for_append (s : ShellState) (name : bytes) : ShellState :=
  let a := o_attrs O s name in
  let x := o_exported O s name in
  let '(keys, s) := if bool_decide (o_kind O s name = KIndexed) then o_array_keys O s name else (None, s) in
  match keys with
  | Some _ => s
  | None =>
      let '(v, s) := o_get O s name in
      restore_attributes a x ARRAY name (o_set_array O s name (match v with Some v => [v] | None => [] end))
  end.

Definition reset_assoc_array_for_assignment (s : ShellState) (name : bytes) : ShellState :=
  let a := o_attrs O s name in
  let x := o_exported O s name in
  restore_attributes a x ASSOC name (o_unset O s name).

(** The loop over the entries of an indexed array. *)
Fixpoint store_entries (s : ShellState) (name : bytes) (next : Z) (entries : list (option Z * bytes)) : ShellState :=
  match entries with
  | [] => s
  | (i, v) :: entries =>
      let index := default next i in
      store_entries (o_set_array_indexed O s name index v) name (wrap64 (index + 1)) entries
  end.

Definition append_index (s : ShellState) (name : bytes) : Z * ShellState :=
  let '(keys, s) := o_array_keys O s name in
  match keys with
  | Some (k :: ks) => (wrap64 (fold_left Z.max ks k + 1), s)
  | _ => let '(v, s) := o_get O s name in (match v with Some _ => 1 | None => 0 end, s)
  end.

Definition store_indexed (name : bytes) (entries : list (option Z * bytes)) (append : bool) (s : ShellState) : ShellState :=
  match entries with
  | [] => if append then ensure_indexed_array_for_append s name else reset_indexed_array_for_assignment s name
  | _ =>
      let '(next, s) := if append then append_index s name else (0, reset_indexed_array_for_assignment s name) in
      store_entries s name next entries
  end.

(** The keys in the order they are first given. *)
Definition key_order (start : list bytes) (values : list (bytes * bytes)) : list bytes :=
  fold_left (fun keys '(key, _) => if existsb (bytes_eqb key) keys then keys else keys ++ [key]) values start.

Definition set_assoc_print_order (name : bytes) (keys : option (list bytes)) (s : ShellState) : ShellState :=
  match keys with Some keys => put_print_order name keys s | None => del_print_order name s end.

(** [env.assoc_keys], whose order is that of a hash table: an argument. *)
Definition store_assoc (assoc_keys : ShellState -> bytes -> option (list bytes)) (name : bytes) (values : list (bytes * bytes))
    (append : bool) (s : ApplyState) : ApplyState :=
  let preserve_order := bool_decide (name ∈ preserve_once s) in
  let order := if preserve_order
               then Some (key_order (if append then default [] (assoc_keys (shell s) name) else []) values) else None in
  let sh := if append then shell s else reset_assoc_array_for_assignment (shell s) name in
  let sh := match order with
            | Some keys => set_assoc_print_order name (Some keys) sh
            | None => if append then sh else set_assoc_print_order name None sh
            end in
  let sh := if is_nil values then o_unset_array_elem O (o_set_array_assoc O sh name [] []) name [] else sh in
  let sh := fold_left (fun sh '(key, v) => o_set_array_assoc O sh name key v) values sh in
  mkApply sh (preserve_once s ∖ {[name]}) (said s).

(** * [apply_expanded_assignment] and [apply_expanded_assignment_global] *)

Variable assoc_keys : ShellState -> bytes -> option (list bytes).

Definition guarded (name : bytes) (f : ApplyState -> ApplyState) (s : ApplyState) : Z * ApplyState :=
  if o_is_readonly O (shell s) name then refuse (SaidReadonly name) s else (0, f s).

Definition apply_scalar (name v : bytes) (s : ApplyState) : Res Empty_set Z * ApplyState :=
  match o_assign O (shell s) name v with
  | (Ok _, sh) => (Ok 0, mkApply sh (preserve_once s) (said s))
  | (Err err, sh) => (Ok 1, say (SaidAssign err) (mkApply sh (preserve_once s) (said s)))
  | (Fuel, sh) => (Fuel, mkApply sh (preserve_once s) (said s))
  end.

Definition settled (r : Z * ApplyState) : Res Empty_set Z * ApplyState := (Ok r.1, r.2).

(** [target] finds the variable of an array assignment. *)
Definition apply_in_scope (target : ShellState -> bytes -> bytes) (a : ExpandedAssignment) (s : ApplyState) :
    Res Empty_set Z * ApplyState :=
  match a with
  | Scalar name v => apply_scalar name v s
  | IndexedElem name index v =>
      let t := target (shell s) name in
      settled (guarded t (on_shell (fun sh => o_set_array_indexed O sh t index v)) s)
  | AssocElem name key v =>
      let t := target (shell s) name in
      settled (guarded t (on_shell (fun sh => o_set_array_assoc O sh t key v)) s)
  | IndexedArray name entries append =>
      let t := target (shell s) name in
      settled (guarded t (on_shell (store_indexed t entries append)) s)
  | AssocArray name values append =>
      let t := target (shell s) name in
      settled (guarded t (store_assoc assoc_keys t values append) s)
  end.
End Arrays.

Definition apply_expanded_assignment (assoc_keys : ShellState -> bytes -> option (list bytes)) :
    ExpandedAssignment -> ApplyState -> Res Empty_set Z * ApplyState :=
  apply_in_scope visible assoc_keys (fun _ name => name).

Definition global_assignment_target (s : ShellState) (name : bytes) : bytes :=
  if attr_contains (global_attrs s name) NAMEREF then
    match (global_get s name).1 with Some (b :: r) => b :: r | _ => name end
  else name.

Definition apply_expanded_assignment_global (assoc_keys : ShellState -> bytes -> option (list bytes)) :
    ExpandedAssignment -> ApplyState -> Res Empty_set Z * ApplyState :=
  apply_in_scope global assoc_keys global_assignment_target.

(** * [apply_assignment] of the executor *)

Definition array_reference_base (v : bytes) : option bytes :=
  open ← find_byte "["%b v; if ends_with (bs "]") v then Some (take open v) else None.

Definition nameref_attr (s : ShellState) (name : bytes) : bool := attr_contains (var_attrs s name) NAMEREF.

Definition exec_target_name (s : ShellState) (name : bytes) : bytes :=
  if nameref_attr s name then
    let target := match resolve_nameref s name with Some (b :: r) => b :: r | _ => name end in
    if bool_decide (array_reference_base target = Some name) then name else target
  else name.

Definition unbound_nameref_array_assignment (s : ShellState) (name : bytes) : bool :=
  nameref_attr s name && bool_decide (resolve_nameref s name = Some name).

Definition nameref_array_member_assignment_error (s : ShellState) (name : bytes) : option bytes :=
  if nameref_attr s name then
    target ← resolve_nameref s name;
    base ← array_reference_base target;
    if bytes_eqb base name then None else Some target
  else None.

(** A reference to an element of itself becomes an array; [None] when there is
    nothing to prepare. *)
Definition prepare_self_nameref_array_assignment (s : ApplyState) (name : bytes) : option (Z * ApplyState) :=
  if nameref_attr (shell s) name then
    target ← resolve_nameref (shell s) name;
    if bool_decide (array_reference_base target = Some name) then
      let '(v, sh) := get_cow (shell s) name in
      let s := mkApply sh (preserve_once s) (said s) in
      Some (if bool_decide (v = Some target) then refuse (SaidInvalidIdentifier target) s
            else (0, on_shell (fun sh => set_array (set_attr sh name NAMEREF false) name []) (say (SaidRemovingNameref name) s)))
    else None
  else None.

Definition search_path (name : bytes) (s : ShellState) : option bytes * ShellState :=
  if existsb (fun b => b =? "/"%b) name then (if is_executable name then Some name else None, s)
  else
    let '(path, s) := get_cow s (bs "PATH") in
    (List.find is_executable (map (fun dir => path_push (if is_nil dir then bs "." else dir) name) (split_on (fun b => b =? ":"%b) (default [] path))), s).

Definition hash_set (key path : bytes) (s : ShellState) : ShellState :=
  let t := tables s in
  with_tables (mkTables (aliases t) (<[key := path]> (command_hash t)) (<[key := 0]> (command_hash_hits t)) (dirs_stack t)) s.

Definition apply_bash_cmds_assignment (name key v : bytes) (s : ApplyState) : option (Z * ApplyState) :=
  if negb (name_is name "BASH_CMDS") then None
  else
    let slash := existsb (fun b => b =? "/"%b) v in
    if state_option (shell s) "restricted" && slash then Some (refuse (SaidRestricted v) s)
    else if slash then Some (0, on_shell (hash_set key v) s)
    else
      let '(path, sh) := search_path v (shell s) in
      let s := mkApply sh (preserve_once s) (said s) in
      Some (match path with Some path => (0, on_shell (hash_set key path) s) | None => refuse (SaidNotFound v) s end).

(** The checks of an element of an array that may be a name reference. *)
Definition element_assignment (name : bytes) (store : bytes -> ShellState -> ShellState) (s : ApplyState) : Z * ApplyState :=
  match nameref_array_member_assignment_error (shell s) name with
  | Some target => refuse (SaidInvalidIdentifier target) s
  | None =>
      if unbound_nameref_array_assignment (shell s) name then refuse SaidEmptyIdentifier s
      else
        let '(status, s) := default (0, s) (prepare_self_nameref_array_assignment s name) in
        if negb (status =? 0) then (status, s)
        else let t := exec_target_name (shell s) name in guarded visible t (on_shell (store t)) s
  end.

Definition apply_assignment (assoc_keys : ShellState -> bytes -> option (list bytes)) (a : ExpandedAssignment) (s : ApplyState) :
    Res Empty_set Z * ApplyState :=
  let array name (f : bytes -> ApplyState -> ApplyState) :=
    let t := exec_target_name (shell s) name in settled (guarded visible t (f t) s) in
  match a with
  | Scalar name v =>
      let '(r, s) := apply_scalar visible name v s in
      (r, match r with
          | Ok 0 => if state_option (shell s) "allexport" then on_shell (fun sh => set_attr sh name EXPORT true) s else s
          | _ => s
          end)
  | IndexedElem name index v => settled (element_assignment name (fun t sh => set_array_indexed sh t index v) s)
  | AssocElem name key v =>
      match apply_bash_cmds_assignment name key v s with
      | Some r => settled r
      | None => settled (element_assignment name (fun t sh => set_array_assoc sh t key v) s)
      end
  | IndexedArray name entries append =>
      match nameref_array_member_assignment_error (shell s) name with
      | Some target => settled (refuse (SaidInvalidIdentifier target) s)
      | None => array name (fun t => on_shell (store_indexed visible t entries append))
      end
  | AssocArray name values append =>
      match nameref_array_member_assignment_error (shell s) name with
      | Some target => settled (refuse (SaidInvalidIdentifier target) s)
      | None =>
          if name_is name "BASH_CMDS" then
            settled (fold_left (fun '(status, s) '(key, v) =>
                                  let '(r, s) := default (1, s) (apply_bash_cmds_assignment name key v s) in (Z.lor status r, s))
                       values (0, s))
          else array name (fun t => store_assoc visible assoc_keys t values append)
      end
  end.
End Apply.
