(* ===== verification/AssignStore.v ===== *)
(** Compound assignments: what the shell prints for an indexed array is read back as
    its elements, and where texts and values stand in the way.

    The variable store as the environment of the expander, and compound assignments
    carried out on it: from the text of an array to its elements. *)
From stdpp Require Import gmap sorting.
From S2P Require Import Prelude Env IndexedArray Utf8 Buf Pattern Split Quote QuoteProps Expand Internal InternalProps Brace BraceProps Pipeline PipelineProps History Options Vars VarsProps Nameref Scan Param ParamProps Transform Dollar Words Entry AssignText AssignTextProps Assign AssignApply.
From S2P Require ArithEval ArithSpec.

#[local] Open Scope Z_scope.

(** * Brace expansion leaves double-quoted text alone *)

Lemma until_close_double v : forall w pre rest fuel, w = pre ++ escape_double v ++ dquote :: rest ->
  (length (escape_double v) < fuel)%nat ->
  until_close fuel w (length pre) dquote true = (length pre + length (escape_double v) + 1)%nat.
Proof.
  induction v as [|c v IH]; intros w pre rest fuel Hw Hf; (destruct fuel as [|fuel]; [lia|]); cbn [until_close].
  - change (escape_double []) with (@nil Z) in *. cbn [app length] in *.
    assert (w !! length pre = Some dquote) as -> by (rewrite Hw; by apply list_lookup_middle). cbn. lia.
  - rewrite escape_double_cons in *. unfold dq_escape in *. destruct (dq_escapable c) eqn:Ec; cbn [app length] in *.
    + assert (w !! length pre = Some BSL) as -> by (rewrite Hw; by apply list_lookup_middle).
      change (BSL =? dquote) with false. change (BSL =? backslash) with true. cbn [andb].
      rewrite (proj2 (Nat.ltb_lt _ _)) by (rewrite Hw, length_app; cbn; lia).
      replace (length pre + 2)%nat with (length (pre ++ [BSL; c])) by (rewrite length_app; done).
      rewrite (IH w (pre ++ [BSL; c]) rest fuel); [rewrite length_app; cbn; lia| |cbn in Hf; lia].
      by rewrite Hw, <- app_assoc.
    + destruct (escape_double_not _ Ec) as (Hq & Hb & _).
      assert (w !! length pre = Some c) as -> by (rewrite Hw; by apply list_lookup_middle).
      rewrite Hq. change backslash with "\"%b. rewrite Hb, andb_false_r.
      replace (S (length pre)) with (length (pre ++ [c])) by (rewrite length_app; cbn; lia).
      rewrite (IH w (pre ++ [c]) rest fuel); [rewrite length_app; cbn; lia| |cbn in Hf; lia].
      by rewrite Hw, <- app_assoc.
Qed.

Lemma brace_double_quote v : brace_expand (double_quote v) = [double_quote v].
Proof.
  assert (find_top_brace (double_quote v) = None) as Hn.
  { unfold find_top_brace. assert (Hw : double_quote v = [dquote] ++ escape_double v ++ dquote :: []) by done.
    set (w := double_quote v) in *.
    assert (Hlen : length w = (length (escape_double v) + 2)%nat) by (rewrite Hw, !length_app; cbn; lia).
    assert (He : opaque_end w 0 = Some (length w)).
    { unfold opaque_end, quoted_end. assert (w !! 0%nat = Some dquote) as -> by done. change (dquote =? backslash) with false.
      change (dquote =? squote) with false. change (dquote =? dquote) with true. cbn [andb]. change 1%nat with (length [dquote]).
      rewrite (until_close_double v w [dquote] []) by (done || lia). f_equal. cbn [length]. lia. }
    assert (Hstep : forall n, Brace.brace_loop n w 0 = None).
    { intros [|n]; [done|]. rewrite (PipelineProps.brace_loop_opaque n w 0 dquote (length w)) by done.
      destruct n; [done|]. cbn [Brace.brace_loop]. by rewrite lookup_ge_None_2 by lia. }
    apply Hstep. }
  unfold brace_expand. cbn [brace_expand_fuel]. by rewrite Hn.
Qed.

(** * Expansion of the parts *)

(** What reading a number takes from the arithmetic evaluator. *)
Class DecimalArith (E : Type) `{WordExpansion E} :=
  decimal_arith : forall k (c : ExpCtx E), 0 <= k <= i64_max -> arith_depth c = 0 -> eval_preexpanded (u_to_string k) c = (Ok k, c).

Section Parts.
Context {E : Type} `{Environment E} `{Parameters E} `{Arrays E} `{Casing} `{Passwd} `{CommandRunner E} `{Runner E} `{PromptInfo E}
  `{Constructs E} `{Globbing E} `{WordExpansion E} `{ArithText E} `{DiagnosticSource E} `{!DecimalArith E}.

(** Reading the field separators leaves the shell as it is. *)
Definition ifs_read (e : E) : Prop := (env_get e (bs "IFS")).2 = e.

Lemma ctx_new_env (e : E) : ifs_read e -> env (ctx_new e) = e.
Proof. unfold ifs_read, ctx_new. by destruct (env_get e (bs "IFS")) as [v e']. Qed.

Lemma ctx_new_depth (e : E) : depth (ctx_new e) = 0 /\ arith_depth (ctx_new e) = 0.
Proof. unfold ctx_new. by destruct (env_get e (bs "IFS")) as [v e']. Qed.

Lemma leave_enter (c : ExpCtx E) : 0 <= depth c -> leave (with_depth (depth c + 1) c) = c.
Proof.
  intros Hd. unfold leave. cbn [depth with_depth]. rewrite (proj2 (Z.ltb_lt 0 (depth c + 1))) by lia.
  destruct c; unfold with_depth; cbn. f_equal. lia.
Qed.

(** A double-quoted value through the whole pipeline. *)
Lemma pipeline_double_quote v flags F (c : ExpCtx E) : Forall nz_byte v -> plain_flags flags ->
  0 <= depth c < EXPANSION_NESTING_MAX -> pipeline_run [mkWord (double_quote v) flags] F c = (Ok [mkWord (shell_text v) flags], c).
Proof.
  intros Hv Hf Hd. set (c1 := with_depth (depth c + 1) (with_split_fields (has F SPLIT_FIELDS) c)).
  destruct (run_double_quote v flags (has F NO_TILDE) c1 Hv Hf) as [q Hr].
  rewrite (pipeline_protected _ _ _ _ (InternalProps.quoted_run v) q c1 Hd).
  - unfold pieces_content. rewrite quoted_run_content. f_equal. unfold leave, c1. cbn [depth with_depth].
    rewrite (proj2 (Z.ltb_lt 0 (depth c + 1))) by lia. destruct c; unfold with_depth, with_split_fields; cbn. f_equal. lia.
  - apply brace_stage_none. right; right; right. apply brace_double_quote.
  - exact Hr.
  - by apply quoted_run_protected.
  - unfold InternalProps.quoted_run. by destruct v.
Qed.

Lemma rhs_double_quote v (e : E) : Forall nz_byte v -> ifs_read e ->
  expand_assignment_rhs (double_quote v) e = (Ok (shell_text v), e).
Proof.
  intros Hv He. unfold expand_assignment_rhs.
  assert (Hfast : in_env (try_fast_literal_braced_scalar (double_quote v)) e = (Ok None, e)) by reflexivity.
  assert (Hsimple : simple_parameter_word (double_quote v) = None) by reflexivity.
  rewrite Hfast, Hsimple. unfold in_new_ctx, Entry.expand_assignment_word. unfold bind, scoped.
  rewrite pipeline_double_quote; [|done|done|destruct (ctx_new_depth e) as [Hd _]; unfold with_assign_in_progress; cbn [depth]; rewrite Hd; done].
  cbn [map text join ret]. f_equal. destruct (ctx_new e) eqn:Ec; unfold with_assign_in_progress; cbn [Expand.env].
  rewrite <- (ctx_new_env e He), Ec. done.
Qed.

(** Digits stand for themselves, quoted when IFS has them. *)
Lemma digits_run s (c : ExpCtx E) : forallb is_ascii_digit s = true ->
  forall pre st, let bytes := pre ++ s in r_i st = length pre ->
  exists ps st', reach bytes 0 false (length s) st c st' c /\ r_i st' = length bytes
    /\ r_out st' = fold_left push_piece ps (r_out st) /\ concat (map piece_content ps) = s /\ forallb piece_ok ps = true.
Proof.
  induction s as [|b s IH]; intros Hs pre st bytes Hi.
  { exists [], st. subst bytes. rewrite app_nil_r. by repeat split. }
  cbn [forallb] in Hs. apply andb_true_iff in Hs as [Hb Hs].
  destruct (inert_not b (inert_digit b Hb)) as (_ & K1 & K2 & K3 & K4 & K5 & _ & _ & K6 & K7 & _).
  assert (Hlook : bytes !! r_i st = Some b) by (subst bytes; rewrite Hi; by apply list_lookup_middle).
  assert (Heq : (b =? "="%b) = false /\ (b =? ":"%b) = false).
  { unfold is_ascii_digit, in_range in Hb. lia. }
  set (p := if is_ifs_nonws (ifs c) b then Quoted b else Literal b).
  assert (Hpush : push_original_literal (r_out st) (ifs c) b true = push_piece (r_out st) p).
  { unfold push_original_literal, p. assert ((b =? "*"%b) || (b =? "?"%b) || (b =? "["%b) = false) as ->.
    { unfold is_ascii_digit, in_range in Hb. lia. }
    rewrite andb_true_r. cbn [andb]. by destruct (is_ifs_nonws (ifs c) b). }
  set (st1 := mkRun (r_i st + 1) (push_piece (r_out st) p) (had_quotes st) true (eq_seen st)).
  assert (Hstep : run_step bytes 0 false b st c = (Ok st1, c)).
  { unfold run_step. change BSL with "\"%b. change SQ with "'"%b. rewrite K1, K2, K3, K4, K5, K6, K7. cbn [orb andb].
    unfold is_assign_rhs. change (has 0 W_ASSIGNRHS) with false. cbn [orb andb].
    unfold original, bind, asks, ret, protect_original_ifs. change (negb (has 0 W_NOSPLIT)) with true. by rewrite Hpush. }
  specialize (IH Hs (pre ++ [b]) st1). rewrite <- app_assoc in IH. cbn [app] in IH.
  destruct IH as (ps & st' & Hr & Hi' & Ho & Hc & Hok); [cbn [r_i st1]; rewrite Hi, length_app; done|].
  exists (p :: ps), st'. split.
  { eapply (reach_trans _ _ _ 1); [by eapply reach_step|exact Hr]. }
  split; [done|]. split; [done|]. split; [cbn [map concat]; rewrite Hc; unfold p; by case_match|].
  cbn [forallb]. rewrite Hok, andb_true_r. unfold p.
  assert (48 <= b <= 57) by (unfold is_ascii_digit, in_range in Hb; lia).
  case_match; cbn; unfold is_ctl, CTLESC, CTLRAW, CTLFIELD, CTLNUL; lia.
Qed.

Lemma digits_expand s (e : E) : forallb is_ascii_digit s = true -> s <> [] -> ifs_read e ->
  expand_string_to_string s e = (Ok (shell_text s), e).
Proof.
  intros Hs Hne He. unfold expand_string_to_string, in_new_ctx, run_string, bind.
  destruct (ctx_new_depth e) as [Hd _]. set (c := ctx_new e) in *.
  destruct (digits_run s (with_depth (depth c + 1) c) Hs [] (mkRun 0 ExpandBuf_new false false false) eq_refl)
    as (ps & st' & Hr & Hi & Ho & Hc & Hok). cbn [app length r_out] in *.
  apply (reach_end _ _ _ _ (length s)) in Hr; [|by rewrite Hi|done].
  assert (Hh : head s <> Some "~"%b).
  { destruct s as [|b s]; [done|]. cbn in Hs |- *. intros [= ->]. done. }
  pose proof (run_not_tilde 0 s true (with_depth (depth c + 1) c) st' _ Hh Hr) as Hrun.
  rewrite (expand_word_ok _ _ c _ _ ltac:(rewrite Hd; done) Hrun). cbn [ret].
  rewrite leave_enter by lia. f_equal; [|by apply ctx_new_env]. f_equal. unfold wd_to_string, dequote. cbn [wd_buf buf_bytes wd_flags].
  rewrite Ho, push_pieces_bytes. cbn [buf_bytes ExpandBuf_new app].
  rewrite <- (app_nil_r (concat (map piece_bytes ps))), dequote_pieces by done. cbn [dequote_bytes]. rewrite app_nil_r, Hc.
  by destruct s.
Qed.

Lemma digits_text s : forallb is_ascii_digit s = true -> shell_text s = s.
Proof.
  intros Hs. assert (Hc : concat (map encode_utf8 s) = s /\ Forall (fun cp => is_scalar cp = true) s).
  { induction s as [|b s IH]; [done|]. cbn [forallb] in Hs. apply andb_true_iff in Hs as [Hb Hs]. destruct (IH Hs) as [IH1 IH2].
    assert (48 <= b <= 57) by (unfold is_ascii_digit, in_range in Hb; lia).
    cbn [map concat]. rewrite IH1. unfold encode_utf8. rewrite (proj2 (Z.ltb_lt b 128)) by lia. split; [done|].
    constructor; [|done]. unfold is_scalar, in_range. lia. }
  destruct Hc as [Hc HF]. pose proof (from_utf8_text s HF) as Hu. rewrite Hc in Hu. by eapply shell_text_valid.
Qed.

(** * Reading printed elements back *)

(** Values that survive: UTF-8 text without NUL, and no blank at the end of a text
    with an [@]. *)
Definition readable_value (v : bytes) : Prop :=
  (exists cps, from_utf8 v = inl cps) /\ Forall nz_byte v
  /\ (existsb (fun b => b =? "@"%b) v = true -> ends_with (bs " ") v = false).

Lemma trim_compound_quoted v : trim_compound_value (double_quote v) = double_quote v.
Proof.
  unfold trim_compound_value. assert (He : trim_end (double_quote v) = double_quote v).
  { unfold trim_end, double_quote. change (dquote :: escape_double v ++ [dquote]) with ((dquote :: escape_double v) ++ [dquote]).
    rewrite rev_app_distr. cbn [rev app length drop_ws].
    rewrite ws_width_back_plain by (unfold Prelude.plain_byte, dquote; lia). cbn [rev]. by rewrite rev_app_distr, rev_involutive. }
  by rewrite He, Nat.eqb_refl.
Qed.

Lemma quoted_contains v c : c <> dquote -> c <> "\"%b ->
  existsb (fun b => b =? c) (double_quote v) = existsb (fun b => b =? c) v.
Proof.
  intros Hq Hb. unfold double_quote. cbn [existsb]. rewrite existsb_app. cbn [existsb].
  rewrite (proj2 (Z.eqb_neq dquote c)) by done. rewrite orb_false_r. cbn [orb].
  induction v as [|x v IH]; [done|]. rewrite escape_double_cons, existsb_app, IH. unfold dq_escape.
  destruct (dq_escapable x); cbn [existsb]; [|by rewrite orb_false_r].
  rewrite (proj2 (Z.eqb_neq BSL c)) by done. by rewrite orb_false_r.
Qed.

Lemma compound_value_quoted v (e : E) out : readable_value v -> ifs_read e ->
  expand_compound_value (double_quote v) (mkA e out) = (Ok v, mkA e out).
Proof.
  intros ((cps & Hu) & Hz & Hat) He. unfold expand_compound_value, abind, rhs_value, on_vars. cbn [vars_of].
  rewrite trim_compound_quoted, rhs_double_quote by done. cbn [printed pure]. rewrite (shell_text_valid v cps Hu).
  unfold compound_value_has_quoted_at. rewrite quoted_contains by done.
  destruct (existsb _ v) eqn:Ea; [|done]. by rewrite Hat.
Qed.

Lemma decimal_digits k : 0 <= k -> forallb is_ascii_digit (u_to_string k) = true /\ u_to_string k <> [] /\ Forall Prelude.plain_byte (u_to_string k).
Proof.
  intros Hk. destruct (u_to_string_spec k Hk) as (Hne & Hall & _). split; [|split; [done|]].
  - apply forallb_forall. intros b Hb. exact (proj1 (List.Forall_forall _ _) Hall b Hb).
  - eapply Forall_impl; [exact Hall|]. intros b Hb. cbn in Hb. unfold Prelude.plain_byte, is_ascii_digit, in_range in *. lia.
Qed.

Lemma digits_not_all k : 0 <= k -> all_subscript (u_to_string k) = false.
Proof.
  intros Hk. destruct (decimal_digits k Hk) as (Hd & Hne & _). unfold all_subscript, one_of. cbn [existsb].
  destruct (u_to_string k) as [|b r]; [done|]. cbn [forallb] in Hd. apply andb_true_iff in Hd as [Hb _].
  assert (48 <= b <= 57) by (unfold is_ascii_digit, in_range in Hb; lia).
  cbn. rewrite (proj2 (Z.eqb_neq b _)) by lia. rewrite (proj2 (Z.eqb_neq b _)) by lia. done.
Qed.

Lemma element_read name st i v (e : E) out : 0 <= i <= i64_max -> readable_value v -> ifs_read e ->
  compound_word name false false st (lexed (printed_element (i, v))) (mkA e out) = (Ok (Go (store_at st i v)), mkA e out).
Proof.
  intros Hi Hv He. unfold compound_word. cbn [text lexed]. rewrite bracket_printed by lia.
  destruct (decimal_digits i) as (Hd & Hne & Hp); [lia|].
  unfold bracketed_word, abind at 1, on_vars at 1. cbn [vars_of printed].
  rewrite digits_expand, digits_text by done. cbn [printed]. rewrite trim_plain, digits_not_all by (done || lia).
  assert (is_nil (u_to_string i) = false) as -> by (by destruct (u_to_string i)).
  unfold arith_value, on_vars, in_new_ctx. cbn [vars_of].
  rewrite (decimal_arith i (ctx_new e) Hi) by apply ctx_new_depth. rewrite (ctx_new_env e He). cbn [printed].
  rewrite (proj2 (Z.ltb_ge i 0)) by lia. unfold bracketed_value, abind at 1. by rewrite compound_value_quoted.
Qed.

Lemma elements_read name l (e : E) out : Forall (fun p => 0 <= fst p <= i64_max /\ readable_value (snd p)) l -> ifs_read e -> forall st,
  compound_words name false false st (map (fun p => lexed (printed_element p)) l) (mkA e out)
  = (Ok (entries st ++ map (fun p => (Some (fst p), snd p)) l), mkA e out).
Proof.
  intros Hl He. induction Hl as [|[i v] l [Hi Hv] _ IH]; intros st; cbn [map compound_words]; [by rewrite app_nil_r|].
  unfold abind. rewrite element_read by done. rewrite IH. cbn [entries store_at fst snd]. by rewrite <- app_assoc.
Qed.

(** The variable is no name reference, no associative array and not arithmetic. *)
Definition plain_variable (e : E) (name : bytes) : Prop :=
  attr_contains (env_attrs e name) NAMEREF = false /\ integer_attr e name = false /\ env_kind e name <> KAssoc.

(** The text of an assignment that sets an indexed array. *)
Definition array_text (name : bytes) (l : list (Z * bytes)) : bytes :=
  name ++ bs "=(" ++ join (bs " ") (map printed_element l) ++ bs ")".

(** What the shell prints for an indexed array is read back; the search for [+=(] goes
    over the whole text, and a blank after a value with an [@] is dropped. *)
Lemma printed_array_reads_back (name : bytes) (l : list (Z * bytes)) (flags : Z) (e : E) (out : list bytes)
    (Hname : AssignText.is_valid_name name = true) (Hvar : plain_variable e name) (Hifs : ifs_read e)
    (Hl : Forall (fun p => 0 <= fst p <= i64_max /\ readable_value (snd p)) l)
    (Hplus : find_sub (bs "+=(") (array_text name l) = None) :
  expand_assignment_word (mkWord (array_text name l) flags) (mkA e out)
  = (Ok (Some (IndexedArray name (map (fun p => (Some (fst p), snd p)) l) false)), mkA e out).
Proof.
  assert (Hnn : Forall (fun p : Z * bytes => 0 <= fst p) l) by (eapply Forall_impl; [exact Hl|]; cbn; lia).
  unfold expand_assignment_word. cbn [text word_flags]. pose proof (compound_parts_printed name _ Hname Hplus) as Hp.
  fold (array_text name l) in Hp. rewrite Hp, bool_decide_eq_true_2 by eauto. cbn [orb].
  unfold abind at 1, expand_compound_assignment. rewrite Hp.
  assert (array_lhs name = None) as ->.
  { unfold array_lhs. assert (find_byte "["%b name = None) as ->; [|done]. by apply name_no_bracket. }
  rewrite Hname. cbn [negb]. unfold invalid_compound_metachar. rewrite (metachar_printed_list l true Hnn).
  destruct Hvar as (Hn & Hi & Hk). unfold abind at 1, look at 1, assignment_target_name. cbn [vars_of]. rewrite Hn.
  unfold abind at 1, look at 1. cbn [vars_of].
  assert (Hbody : abind (parse_indexed_compound name (join (bs " ") (map printed_element l)) false)
                    (fun es => pure (IndexedArray name es false)) (mkA e out)
                  = (Ok (IndexedArray name (map (fun p => (Some (fst p), snd p)) l) false), mkA e out)).
  { unfold parse_indexed_compound. destruct l as [|[i v] l]; [done|].
    set (body := join _ _). assert (is_nil (trim body) = false) as ->.
    { assert (Hb : exists r, body = "["%b :: r) by (unfold body; cbn [map]; destruct l; cbn [map join]; rewrite printed_element_eq; eauto).
      destruct Hb as [r ->]. destruct (trim_head "["%b r) as [k ->]; [unfold Prelude.plain_byte; lia|done]. }
    unfold abind, first_index, pure, look. cbn [vars_of]. rewrite Hi. unfold lex_words.
    assert (lex_words_loop (S (length body)) body = map (fun p => lexed (printed_element p)) ((i, v) :: l)) as ->
      by (apply (lex_words_printed ((i, v) :: l) _ []); [done|by left|exact (Nat.lt_succ_diag_r _)]).
    rewrite elements_read by done. done. }
  destruct (env_kind e name); try done; by rewrite Hbody.
Qed.
End Parts.

#[local] Open Scope Z_scope.

Section Store.
Context `{System} `{Casing} `{Executables}.

(** * An array during an assignment *)

(** The variable [n] is an indexed array with the elements of [a], without case
    attributes. *)
Definition holds_array (s : ShellState) (n : bytes) (a : IndexedArray.IndexedArray) : Prop :=
  indexed_of s n = Some a
  /\ exists e, entry_of s n = Some e /\ attr_contains (attrs e) ARRAY = true /\ attr_intersects (attrs e) case_attrs = false.

Lemma contains_insert a m k : attr_contains a k = true -> attr_contains (attr_insert a m) k = true.
Proof.
  unfold attr_contains, attr_insert. intros Hk%Z.eqb_eq. apply Z.eqb_eq. apply Z.bits_inj'. intros j Hj.
  rewrite Z.land_spec, Z.lor_spec. apply (f_equal (fun z => Z.testbit z j)) in Hk. rewrite Z.land_spec in Hk.
  destruct (Z.testbit a j), (Z.testbit k j), (Z.testbit m j); done.
Qed.

Lemma contains_inserted a m : attr_contains (attr_insert a m) m = true.
Proof.
  unfold attr_contains, attr_insert. apply Z.eqb_eq, Z.bits_inj'. intros j Hj. rewrite Z.land_spec, Z.lor_spec.
  by destruct (Z.testbit a j), (Z.testbit m j).
Qed.

Lemma intersects_insert a m k : Z.land m k = 0 -> attr_intersects a k = false -> attr_intersects (attr_insert a m) k = false.
Proof.
  unfold attr_intersects, attr_insert. intros Hm Ha%negb_false_iff%Z.eqb_eq. apply negb_false_iff, Z.eqb_eq.
  by rewrite Z.land_lor_distr_l, Ha, Hm.
Qed.

Lemma contains_remove a m k : Z.land m k = 0 -> attr_contains a k = true -> attr_contains (attr_remove a m) k = true.
Proof.
  unfold attr_contains, attr_remove. intros Hm Hk%Z.eqb_eq. apply Z.eqb_eq, Z.bits_inj'. intros j Hj.
  rewrite Z.land_spec, Z.ldiff_spec. apply (f_equal (fun z => Z.testbit z j)) in Hk, Hm. rewrite Z.land_spec in Hk, Hm.
  rewrite Z.bits_0 in Hm. destruct (Z.testbit a j), (Z.testbit k j), (Z.testbit m j); done.
Qed.

Lemma intersects_remove a m k : attr_intersects a k = false -> attr_intersects (attr_remove a m) k = false.
Proof.
  unfold attr_intersects, attr_remove. intros Ha%negb_false_iff%Z.eqb_eq. apply negb_false_iff, Z.eqb_eq, Z.bits_inj'. intros j Hj.
  apply (f_equal (fun z => Z.testbit z j)) in Ha. rewrite Z.land_spec, Z.bits_0 in *. rewrite Z.ldiff_spec.
  destruct (Z.testbit a j), (Z.testbit k j), (Z.testbit m j); done.
Qed.

Lemma not_case a v : attr_intersects a case_attrs = false -> apply_case_attrs v a = v.
Proof.
  intros Ha. assert (Hm : forall m, Z.land m case_attrs = m -> m <> 0 -> attr_contains a m = false).
  { intros m Hm Hne. apply Z.eqb_neq. intros Hc. apply Hne.
    unfold attr_intersects in Ha. apply negb_false_iff, Z.eqb_eq in Ha.
    rewrite <- Hc, <- Hm, Z.land_assoc, (Z.land_comm a m), <- Z.land_assoc, Ha. apply Z.land_0_r. }
  unfold apply_case_attrs. by rewrite !Hm.
Qed.

Lemma stored_element s n a i v : ordinary n = true -> holds_array s n a -> holds_array (set_array_indexed s n i v) n (IndexedArray.insert a i v).
Proof.
  intros Hn (Ha & e & He & Hc & Hi). unfold set_array_indexed.
  rewrite (ordinary_is n "GROUPS" Hn), (ordinary_is n "DIRSTACK" Hn), He, Ha, Hc, Hi by done. cbn [andb negb].
  assert (Hput : forall e', attr_contains (attrs e') ARRAY = true -> attr_intersects (attrs e') case_attrs = false ->
    holds_array (put_entry n e' (put_indexed n (IndexedArray.insert a i v) s)) n (IndexedArray.insert a i v)).
  { intros e' Hc' Hi'. split; [unfold indexed_of; cbn; by rewrite lookup_insert_eq|].
    exists e'. split; [unfold entry_of; cbn; by rewrite lookup_insert_eq|done]. }
  destruct (0 <? i) eqn:Epos.
  { split; [unfold indexed_of; cbn; by rewrite lookup_insert_eq|]. exists e. by split. }
  rewrite bool_decide_eq_true_2 by eauto. cbn [andb negb entry_attrs default from_option id]. rewrite (not_case _ v Hi).
  destruct (_ || _).
  - apply Hput; [cbn; by apply contains_insert|by apply intersects_insert].
  - split; [unfold indexed_of; cbn; by rewrite lookup_insert_eq|]. exists e. by split.
Qed.

Lemma stored_entries s n a l next : ordinary n = true -> holds_array s n a ->
  holds_array (store_entries visible s n next (map (fun p => (Some (fst p), snd p)) l)) n
    (fold_left (fun a '(i, v) => IndexedArray.insert a i v) l a).
Proof.
  intros Hn. revert s a next. induction l as [|[i v] l IH]; intros s a next Hs; [done|]. cbn [map store_entries fold_left fst snd].
  cbn [default from_option id]. by apply IH, stored_element.
Qed.

(** * Setting the array up *)

Lemma kept_attribute s n a m : Z.land m case_attrs = 0 -> attr_contains m NAMEREF = false -> attr_contains m ASSOC = false -> m <> 0 ->
  holds_array s n a -> holds_array (set_attr s n m true) n a.
Proof.
  intros Hm Hr Has Hz (Ha & e & He & Hc & Hi). unfold set_attr. rewrite He, Has, Hr. cbn [default from_option id].
  rewrite (proj2 (Z.eqb_neq m 0)) by done. rewrite !bool_decide_eq_true_2 by eauto. cbn [andb negb].
  assert (Hall : forall e' s', indexed_of s' n = Some a -> attr_contains (attrs e') ARRAY = true ->
     attr_intersects (attrs e') case_attrs = false ->
     forall b : bool, holds_array (if b then sync_export_env n (put_entry n e' s') else put_entry n e' s') n a).
  { intros e' s' Hs' H1' H2' b.
    assert (Hst : store (if b then sync_export_env n (put_entry n e' s') else put_entry n e' s') = store (put_entry n e' s')).
    { destruct b; [|done]. unfold sync_export_env. by repeat case_match. }
    unfold holds_array, indexed_of, entry_of. rewrite Hst. split; [exact Hs'|]. exists e'.
    split; [cbn; by rewrite lookup_insert_eq|done]. }
  destruct (attr_contains m ARRAY); cbn [andb]; apply Hall; try done; cbn [attrs].
  - apply contains_remove; [done|]. by apply contains_insert.
  - apply intersects_remove. by apply intersects_insert.
  - by apply contains_insert.
  - by apply intersects_insert.
Qed.

Lemma exported_array s n a : ordinary n = true -> holds_array s n a -> holds_array (export s n) n a.
Proof.
  intros Hn (Ha & e & He & Hc & Hi). unfold export.
  assert (Hg : store (get_cow s n).2 = store s).
  { unfold get_cow. rewrite (ordinary_get_special s n Hn). apply andb_true_iff in Hn as [_ Hnum].
    destruct (parse_u64 n); [by rewrite bool_decide_eq_true_2 in Hnum by eauto|].
    unfold get_variable. by repeat case_match. }
  destruct (get_cow s n) as [v s1]. cbn in Hg.
  assert (He1 : entry_of s1 n = Some e) by (unfold entry_of; by rewrite Hg). rewrite He1. cbn [entry_attrs entry_readonly].
  set (e' := mkEntry _ _ _ _ _).
  assert (Hput : forall s2, store s2 = store (put_entry n e' s1) -> holds_array s2 n a).
  { intros s2 H2. unfold holds_array, indexed_of, entry_of. rewrite H2. cbn. rewrite Hg. split; [exact Ha|].
    exists e'. split; [by rewrite lookup_insert_eq|]. cbn [attrs e']. split; [by apply contains_insert|by apply intersects_insert]. }
  destruct v; by apply Hput.
Qed.

(** Nothing but the variable itself changes. *)
Lemma touched_restore at0 x m n s0 s : touch n s0 s -> touch n s0 (restore_attributes visible at0 x m n s).
Proof.
  intros Hs. unfold restore_attributes.
  assert (Hk : forall l s, touch n s0 s ->
    touch n s0 (fold_left (fun s a => if attr_contains at0 a then o_set_attr visible s n a true else s) l s)).
  { induction l as [|a l IH]; intros s1 Hs1; [done|]. apply IH. by destruct (attr_contains at0 a); [apply touch_set_attr|]. }
  specialize (Hk kept_attributes s Hs). destruct x; [apply touch_export|]; by apply touch_set_attr.
Qed.

Lemma touched_reset n s0 s : touch n s0 s -> touch n s0 (reset_indexed_array_for_assignment visible s n).
Proof. intros Hs. unfold reset_indexed_array_for_assignment. by apply touched_restore, touch_set_array. Qed.

Lemma touched_entries n s0 s next l : touch n s0 s -> touch n s0 (store_entries visible s n next l).
Proof.
  revert s next. induction l as [|[i v] l IH]; intros s next Hs; [done|]. cbn [store_entries]. by apply IH, touch_set_array_indexed.
Qed.

(** What an assignment to an array needs of the variable. *)
Definition plain_array (s : ShellState) (n : bytes) : Prop :=
  ordinary n = true /\ is_readonly s n = false
  /\ forallb (fun m => negb (attr_contains (entry_attrs (entry_of s n)) m)) [UPPERCASE; LOWERCASE; CAPCASE; NAMEREF] = true.

Lemma var_attrs_ordinary s n : ordinary n = true -> var_attrs s n = entry_attrs (entry_of s n).
Proof.
  intros Hn. unfold var_attrs, stack_array_name, special_scalar_attrs, is_special_scalar_name.
  rewrite !(ordinary_one_of n _ Hn), (ordinary_is n "DIRSTACK" Hn) by (by vm_compute). done.
Qed.

Lemma reset_array s n : plain_array s n -> holds_array (reset_indexed_array_for_assignment visible s n) n empty_array.
Proof.
  intros (Hn & _ & Hf). unfold reset_indexed_array_for_assignment. cbn [visible o_attrs o_exported o_set_array].
  rewrite var_attrs_ordinary by done. generalize (var_exported s n) as x. set (at0 := entry_attrs (entry_of s n)) in *.
  cbn [forallb] in Hf. rewrite !andb_true_iff, !negb_true_iff in Hf. destruct Hf as (Hu & Hlo & Hca & Hnr & _).
  assert (Hset : holds_array (set_array s n []) n empty_array).
  { unfold set_array. rewrite (ordinary_is n "GROUPS" Hn), (ordinary_is n "DIRSTACK" Hn) by done. cbn [andb].
    split; [unfold indexed_of; cbn; by rewrite lookup_insert_eq|]. eexists. split; [unfold entry_of; cbn; by rewrite lookup_insert_eq|done]. }
  assert (Hkeep : forall b m s', m ∈ [INTEGER; TRACE; EXPORT; ARRAY] -> holds_array s' n empty_array ->
    holds_array (if b : bool then set_attr s' n m true else s') n empty_array).
  { intros [] m s' Hm Hs'; [|done]. rewrite !elem_of_cons, elem_of_nil in Hm.
    destruct Hm as [->|[->|[->|[->|[]]]]]; by apply kept_attribute. }
  intros x. unfold restore_attributes, kept_attributes. cbn [fold_left visible o_set_attr o_export].
  rewrite Hu, Hlo, Hca, Hnr.
  assert (Hdone : forall s', holds_array s' n empty_array -> holds_array (if x then export s' n else s') n empty_array).
  { intros s' Hs'. destruct x; [|done]. apply exported_array; done. }
  apply Hdone, (Hkeep true); [set_solver|]. apply (Hkeep _ EXPORT); [set_solver|]. apply (Hkeep _ TRACE); [set_solver|].
  by apply (Hkeep _ INTEGER); [set_solver|].
Qed.

(** * The theorem *)

(** Storing elements at ascending subscripts. *)
Lemma stored_array s n l pre sd assoc_keys : plain_array s n -> StronglySorted Z.lt (map fst l) ->
  exists s', apply_assignment assoc_keys (IndexedArray n (map (fun p => (Some (fst p), snd p)) l) false) (mkApply s pre sd)
    = (Ok 0, mkApply s' pre sd)
  /\ (exists a, indexed_of s' n = Some a /\ IndexedArray.wf a /\ IndexedArray.all a = l) /\ touch n s s'.
Proof.
  intros Hp Hs. pose proof Hp as (Hn & Hro & Hf). cbn [forallb] in Hf. rewrite !andb_true_iff, !negb_true_iff in Hf.
  assert (Hnr : nameref_attr s n = false) by (unfold nameref_attr; rewrite var_attrs_ordinary by done; tauto).
  cbn [apply_assignment shell]. unfold nameref_array_member_assignment_error, exec_target_name. rewrite Hnr.
  unfold guarded. cbn [visible o_is_readonly shell]. rewrite Hro. unfold settled, on_shell. cbn [fst snd shell preserve_once said].
  eexists. split; [reflexivity|]. destruct (from_pairs_ascending l Hs) as [Hwf Hall].
  assert (Hst : holds_array (store_indexed visible n (map (fun p => (Some (fst p), snd p)) l) false s) n (from_pairs l)
                /\ touch n s (store_indexed visible n (map (fun p => (Some (fst p), snd p)) l) false s)).
  { unfold store_indexed. destruct l as [|p l].
    - split; [by apply reset_array|apply touched_reset, touch_refl].
    - change (map (fun p => (Some (fst p), snd p)) (p :: l)) with ((Some (fst p), snd p) :: map (fun p => (Some (fst p), snd p)) l).
      cbv iota beta. change ((Some (fst p), snd p) :: map (fun p => (Some (fst p), snd p)) l)
        with (map (fun p => (Some (fst p), snd p)) (p :: l)).
      split; [by apply stored_entries, reset_array|apply touched_entries, touched_reset, touch_refl]. }
  destruct Hst as ((Ha & _) & Ht). split; [|done]. by exists (from_pairs l).
Qed.
End Store.

(** * From the text to the store *)

(** The array side of the environment: the order in which the keys of an associative
    array come is that of a hash table, and an argument. *)
Definition shell_arrays `{System} (assoc_order : gmap bytes bytes -> list (bytes * bytes)) (names : ShellState -> bytes -> list bytes) :
    Arrays ShellState := {|
  env_attrs := var_attrs;
  env_nameref_target := nameref_of;
  env_array_all := get_array_all;
  env_array_keys := array_keys;
  env_array_len := array_len;
  env_array_max_index := array_max_index;
  env_assoc_all s n := assoc_order <$> assoc_of s n;
  env_assoc_keys s n := (fun m => map fst (assoc_order m)) <$> assoc_of s n;
  env_assoc_len := assoc_len;
  env_names_with_prefix := names;
|}.

(** The evaluator of ArithEval.v reads numbers. *)
Lemma words_decimal {E} `{Environment E} `{Parameters E} `{Arrays E} `{Casing} `{Passwd} `{CommandRunner E} `{Runner E} `{PromptInfo E}
    (n : nat) (C : Constructs E) : @DecimalArith E (@words E _ _ _ _ _ _ _ _ (arithmetic (S n)) C).
Proof.
  intros k c Hk Hd. cbn [words plain_words Param.eval_preexpanded arithmetic a_eval_preexpanded]. unfold run_arith.
  rewrite ArithSpec.eval_preexpanded_decimal; [|done|cbn; rewrite Hd; done|lia].
  f_equal. unfold leave_arith, enter_arith, with_arith. cbn. by destruct c.
Qed.

Section Shell.
Context `{System} `{Casing} `{Executables} `{Parameters ShellState} `{Passwd} `{CommandRunner ShellState} `{Runner ShellState}
  `{PromptInfo ShellState} `{Constructs ShellState} `{Globbing ShellState} `{WordExpansion ShellState} `{ArithText ShellState}
  `{DiagnosticSource ShellState} `{!DecimalArith ShellState}
  (assoc_order : gmap bytes bytes -> list (bytes * bytes)) (names : ShellState -> bytes -> list bytes).

#[local] Instance the_arrays : Arrays ShellState := shell_arrays assoc_order names.

End Shell.

(** * The concrete shell *)

Module AssignExample.
Import ShellExample.

#[export] Instance no_files : Executables := { is_executable _ := false }.

#[export] Instance shell_parameters : Parameters ShellState := {
  env_positional s i := positional s (Z.of_nat i);
  env_positional_count := positional_count;
  env_last_status _ := 0;
  env_shell_pid _ := 100;
  env_last_async_pid _ := None;
  env_get_array s n := (get_array s n).1;
}.

#[export] Instance arrays : Arrays ShellState := shell_arrays map_to_list (fun _ _ => []).

#[export] Instance passwd : Passwd := { current_user_home := None; lookup_user _ := None }.

Definition no_command {A} : M ShellState A := fail (Other (bs "command substitution unavailable in this context")).

#[export] Instance commands : CommandRunner ShellState := {
  run_subst _ := no_command; run_backquote_subst _ := no_command; read_input_file _ _ := no_command;
  push_diagnostic_line e _ := e; pop_diagnostic_line e := e }.
#[export] Instance runner : Runner ShellState := {
  run_current_subst _ _ := no_command; spawn_proc_subst _ _ := no_command; diagnostic_line _ := None }.
#[export] Instance prompt : PromptInfo ShellState := {
  prompt_history_number _ := 1; prompt_command_number _ := 1; prompt_job_count _ := 0; prompt_nonprinting_markers _ := false;
  prompt_shell_name _ := None; strftime_now f := f; current_user_name := bs "al"; gethostname := bs "host";
  process_dir := None; compat_bash_version := None }.
#[export] Instance arith : Arithmetic ShellState := arithmetic 60.
#[export] Instance translation : Translation ShellState := { translation _ s := s }.
#[export] Instance globbing : Globbing ShellState := { pathname_expand w := ret [w] }.
#[export] Instance the_constructs : Constructs ShellState := constructs 32.
#[export] Instance the_words : WordExpansion ShellState := words the_constructs.
#[export] Instance the_texts : ArithText ShellState := texts the_constructs.
#[export] Instance source : DiagnosticSource ShellState := { diagnostic_source_name _ := None }.
#[export] Instance decimal : DecimalArith ShellState := words_decimal 59 the_constructs.

Definition elements : list (Z * bytes) := [(0, bs "it's"); (7, bs "$x *"); (5000, [])].


Definition assigned (text : string) : Res ExpandError (option ExpandedAssignment) :=
  (Assign.expand_assignment_word (mkWord (bs text) 0) (mkA empty_shell [])).1.

Definition with_quotes (before quoted after : string) : Res ExpandError (option ExpandedAssignment) :=
  (Assign.expand_assignment_word (mkWord (bs before ++ [dquote] ++ bs quoted ++ [dquote] ++ bs after) 0) (mkA empty_shell [])).1.

(** Where compound assignments are misread: the first [+=(] or [=(] of the text is taken
    for the operator even inside quotes; the blank at the end of a value with an [@] is lost; a
    quote escaped inside [$'..'] ends the word. *)
Theorem compound_text_misread :
  with_quotes "a=([0]=" "+=(" ")" = Err (Other (bs "a=([0]=" ++ [dquote] ++ bs ": not a valid identifier"))
  /\ with_quotes "x=" "=(" "\)" = Err (Other (bs "x=" ++ [dquote] ++ bs ": not a valid identifier"))
  /\ with_quotes "a=([0]=" "me@home " ")" = Ok (Some (IndexedArray (bs "a") [(Some 0, bs "me@home")] false))
  /\ assigned "a=([0]=$'it\'s b')" = Ok (Some (IndexedArray (bs "a") [(Some 0, bs "it's"); (None, bs "b")] false)).
Proof. vm_compute. repeat split. Qed.
End AssignExample.
