(* ===== verification/LexScan.v ===== *)
(** The scanners of the command lexer (crates/lexer/src/lib.rs): from inside a word
    they find where quotes, [$..] constructs, backquotes and parentheses end.  A
    position in the input is the text that is left; a scanner returns the text it
    adds to the word, the word flags it sets and the text after it.  A quoted run
    is copied byte by byte: the bytes of a character outside ASCII are never
    special. *)
From S2P Require Import Prelude Env Utf8 Buf Quote Expand Scan.

Definition W_QUOTED : Z := 2 ^ 1.
Definition W_ARRAYREF : Z := 2 ^ 8.

Definition Sc : Type := Res Empty_set (bytes * Z * bytes).

(** What is added before a scan; a scan after another one; a closing byte, if it is
    there; a scan whose flags are dropped. *)
Definition push (t : bytes) (flags : Z) (m : Sc) : Sc :=
  match m with Ok (t', flags', rest) => Ok (t ++ t', Z.lor flags flags', rest) | Err e => Err e | Fuel => Fuel end.

Definition andthen (m : Sc) (k : bytes -> Sc) : Sc :=
  match m with Ok (t, flags, rest) => push t flags (k rest) | Err e => Err e | Fuel => Fuel end.

Definition close_byte (c : Z) (s : bytes) : Sc :=
  match s with
  | b :: r => if b =? c then Ok ([b], 0, r) else Ok ([], 0, s)
  | [] => Ok ([], 0, [])
  end.

Definition closing (c : Z) (m : Sc) : Sc := andthen m (close_byte c).

Definition no_flags (m : Sc) : Sc :=
  match m with Ok (t, _, rest) => Ok (t, 0, rest) | Err e => Err e | Fuel => Fuel end.

Definition copied (p : bytes * bytes) : Sc := Ok (p.1, 0, p.2).

(** [take_char] on text that is not empty; after a backslash, where there may be none. *)
Definition take_char (s : bytes) : bytes * bytes :=
  let n := default 1%nat (utf8_seq s) in (take n s, drop n s).

(** [ch as char] of a byte, pushed to a string. *)
Definition byte_char (b : Z) : bytes := encode_utf8 b.

Definition line_continuation_len (s : bytes) : option nat :=
  if starts_with ["\"%b; 10] s then Some 2%nat
  else if starts_with ["\"%b; 13; 10] s then Some 3%nat
  else None.

Definition is_word_metacharacter (b : Z) : bool :=
  (b =? " "%b) || (b =? 9) || (b =? 13) || (b =? 10) || (b =? "|"%b) || (b =? "&"%b) || (b =? ";"%b) || (b =? "<"%b) || (b =? ">"%b)
  || (b =? "("%b) || (b =? ")"%b).

Definition is_quote (b : Z) : bool := (b =? "'"%b) || (b =? dquote) || (b =? "`"%b).

(** The loop of [scan_legacy_arith] and, with parentheses, of [scan_dparen]. *)
Fixpoint nested_loop (fuel : nat) (open close : Z) (depth : nat) (s : bytes) : Sc :=
  match fuel with
  | O => Fuel
  | S fuel =>
      match s with
      | [] => Ok ([], 0, [])
      | b :: r =>
          if b =? open then push [b] 0 (nested_loop fuel open close (S depth) r)
          else if b =? close then
            if (depth =? 1)%nat then Ok ([], 0, s) else push [b] 0 (nested_loop fuel open close (pred depth) r)
          else if b =? "\"%b then let '(t, rest) := take_char r in push (b :: t) 0 (nested_loop fuel open close depth rest)
          else if is_quote b then let '(t, rest) := quoted_run b r in push (b :: t) 0 (nested_loop fuel open close depth rest)
          else let '(t, rest) := take_char s in push t 0 (nested_loop fuel open close depth rest)
      end
  end.

Definition scan_legacy_arith (s : bytes) : Sc := nested_loop (S (length s)) "["%b "]"%b 1 s.
Definition scan_dparen (s : bytes) : Sc := nested_loop (S (length s)) "("%b ")"%b 1 s.

Definition current_subst_starts_here (s : bytes) : bool :=
  match s with b :: _ => (b =? "|"%b) || (b =? " "%b) || (b =? 9) || (b =? 10) || (b =? 13) | [] => false end.

(** * Here-documents of a command substitution *)

(** The delimiter: what is copied, the delimiter, and the rest.  Each byte that begins
    a character goes to the delimiter as a character of its own. *)
Fixpoint delimiter_loop (fuel : nat) (quote : option Z) (s : bytes) : Res Empty_set (bytes * bytes * bytes) :=
  let then_ fuel t d quote rest :=
    match delimiter_loop fuel quote rest with Ok (t', d', rest) => Ok (t ++ t', d ++ d', rest) | x => x end in
  match fuel with
  | O => Fuel
  | S fuel =>
      match s with
      | [] => Ok ([], [], [])
      | b :: r =>
          let '(ch, after) := take_char s in
          match quote with
          | Some q => if b =? q then then_ fuel ch [] None after else then_ fuel ch (byte_char b) quote after
          | None =>
              if (b =? "'"%b) || (b =? dquote) then then_ fuel ch [] (Some b) after
              else if b =? "\"%b then
                match line_continuation_len s with
                | Some n => then_ fuel [] [] None (drop n s)
                | None =>
                    match r with
                    | [] => Ok ([], [], [])
                    | c :: _ => let '(ch, after) := take_char r in then_ fuel (b :: ch) (byte_char c) None after
                    end
                end
              else if is_ascii_whitespace b || is_word_metacharacter b then Ok ([], [], s)
              else then_ fuel ch (byte_char b) None after
          end
      end
  end.

(** [scan_heredoc_redirect], after the [<<]. *)
Definition scan_heredoc_redirect (s : bytes) (heredocs : list (bytes * bool)) :
    Res Empty_set (bytes * list (bytes * bool) * bytes) :=
  let '(dash, s) := match s with "-"%b :: r => (bs "-", r) | _ => ([], s) end in
  let strip_tabs := negb (is_nil dash) in
  let '(blanks, s) := span (fun b => (b =? " "%b) || (b =? 9)) s in
  match delimiter_loop (S (length s)) None s with
  | Ok (t, delimiter, rest) =>
      let delimiter := if strip_tabs then drop_tabs delimiter else delimiter in
      Ok (bs "<<" ++ dash ++ blanks ++ t, (if is_nil delimiter then heredocs else heredocs ++ [(delimiter, strip_tabs)]), rest)
  | Err e => Err e
  | Fuel => Fuel
  end.

(** [scan_command_substitution_trailing_heredocs], the lines after the marker. *)
Fixpoint trailing_lines (fuel : nat) (heredocs : list (bytes * bool)) (s : bytes) : Sc :=
  match fuel with
  | O => Fuel
  | S fuel =>
      match s, heredocs with
      | [], _ | _, [] => Ok ([], 0, s)
      | _, (delimiter, strip_tabs) :: pending =>
          let '(line, rest) := span (fun b => negb (b =? 10)) s in
          let candidate := if strip_tabs then drop_tabs line else line in
          push (line ++ take 1 rest) 0
            (trailing_lines fuel (if bytes_eqb candidate delimiter then pending else heredocs) (drop 1 rest))
      end
  end.

Definition trailing_heredocs (heredocs : list (bytes * bool)) (s : bytes) : Sc :=
  let '(newline, s) := match s with 10 :: r => ([10], r) | _ => ([], s) end in
  push (newline ++ heredoc_warn_marker) 0 (trailing_lines (S (length s)) heredocs s).

(** The local variables of [scan_command_substitution]. *)
Record CmdSt := mkCmd { c_depth : Z; c_case : Z; c_comment : bool; c_heredocs : list (bytes * bool); c_line : bool }.

Definition cmd_start : CmdSt := mkCmd 1 0 true [] false.

Definition c_after (comment : bool) (st : CmdSt) : CmdSt := mkCmd (c_depth st) (c_case st) comment (c_heredocs st) false.

(** A line of a here-document: the text up to the parenthesis that closes the
    substitution, or the line. *)
Definition command_heredoc_line (st : CmdSt) (delimiter : bytes) (strip_tabs : bool) (pending : list (bytes * bool)) (s : bytes) :
    (bytes * bytes) + (bytes * bytes * CmdSt) :=
  let '(line, rest) := span (fun b => negb (b =? 10)) s in
  let candidate := if strip_tabs then drop_tabs line else line in
  let tabs := take (length line - length candidate) line in
  match (if c_depth st =? 1 then heredoc_delimiter_closing_paren candidate delimiter else None) with
  | Some close => inl (tabs ++ delimiter ++ bs ")", drop (S close) (drop (length tabs) s))
  | None =>
      inr (line ++ take 1 rest, drop 1 rest,
           mkCmd (c_depth st) (c_case st) true (if bytes_eqb candidate delimiter then pending else c_heredocs st) true)
  end.

Section Scanners.
(** The whole input, and the option [posix]. *)
Context (input : bytes) (posix_mode : bool).

(** The last byte before a position that is not white space. *)
Definition previous_byte (s : bytes) : option Z :=
  previous_significant_byte (rev (take (length input - length s) input)).

(** A word of a command substitution: [case] and [esac] count where a command may start. *)
Definition command_word (st : CmdSt) (s : bytes) : bytes * bytes * CmdSt :=
  let '(word, rest) := span is_name_byte s in
  let after_bar := bool_decide (previous_byte s = Some "|"%b) || bool_decide (previous_byte s = Some "("%b) in
  let case_depth :=
    if bytes_eqb word (bs "case") && c_comment st then c_case st + 1
    else if bytes_eqb word (bs "esac") && c_comment st && negb after_bar then Z.max 0 (c_case st - 1)
    else c_case st in
  (word, rest, mkCmd (c_depth st) case_depth false (c_heredocs st) false).

Definition separates (b : Z) : bool :=
  (b =? " "%b) || (b =? 9) || (b =? 13) || (b =? "|"%b) || (b =? "&"%b) || (b =? ";"%b) || (b =? "("%b) || (b =? ")"%b) || (b =? "<"%b)
  || (b =? ">"%b).

Fixpoint scan_double_quoted (fuel : nat) (s : bytes) : Sc :=
  match fuel with
  | O => Fuel
  | S fuel =>
      match s with
      | [] => Ok ([], 0, [])
      | b :: r =>
          if b =? dquote then Ok ([], 0, s)
          else if b =? "\"%b then
            match line_continuation_len s with
            | Some n => scan_double_quoted fuel (drop n s)
            | None => let '(t, rest) := take_char r in push (b :: t) 0 (scan_double_quoted fuel rest)
            end
          else if b =? "$"%b then push [b] W_HASDOLLAR (andthen (scan_dollar fuel true r) (scan_double_quoted fuel))
          else if b =? "`"%b then
            push [b] W_HASDOLLAR (andthen (closing b (scan_balanced_pair fuel b b 1 true r)) (scan_double_quoted fuel))
          else let '(t, rest) := take_char s in push t 0 (scan_double_quoted fuel rest)
      end
  end
(** After the [$]. *)
with scan_dollar (fuel : nat) (in_double_quotes : bool) (s : bytes) : Sc :=
  match fuel with
  | O => Fuel
  | S fuel =>
      match s with
      | [] => Ok ([], 0, [])
      | b :: r =>
          if b =? "("%b then
            push [b] 0
              (match r with
               | "("%b :: r' =>
                   match arith_dparen_scan r' with
                   | Ok (DArithmetic rest) => Ok (concat (map byte_char (take (length r - length rest) r)), 0, rest)
                   | Ok DCommandSubstitution => closing ")"%b (scan_command_substitution fuel cmd_start r)
                   | Ok DMissing => push ["("%b] 0 (closing ")"%b (closing ")"%b (scan_dparen r')))
                   | _ => Fuel
                   end
               | _ => closing ")"%b (scan_command_substitution fuel cmd_start r)
               end)
          else if b =? "{"%b then
            push [b] 0 (closing "}"%b (scan_brace fuel in_double_quotes r))
          else if b =? "["%b then push [b] 0 (closing "]"%b (scan_legacy_arith r))
          else if (b =? "'"%b) && negb in_double_quotes then push [b] W_QUOTED (copied (quoted_run b r))
          else if (b =? dquote) && negb in_double_quotes then push [b] W_QUOTED (closing b (scan_double_quoted fuel r))
          else Ok ([], 0, s)
      end
  end
(** What follows [${]: [scan_current_subst_brace] or [scan_parameter_brace]. *)
with scan_brace (fuel : nat) (in_double_quotes : bool) (s : bytes) : Sc :=
  match fuel with
  | O => Fuel
  | S fuel =>
      if current_subst_starts_here s then
        match s with
        | "|"%b :: r => push (bs "|") 0 (scan_current_subst_brace fuel in_double_quotes 0 r)
        | _ => scan_current_subst_brace fuel in_double_quotes 0 s
        end
      else scan_parameter_brace fuel in_double_quotes s
  end
with scan_current_subst_brace (fuel : nat) (in_double_quotes : bool) (brace_depth : nat) (s : bytes) : Sc :=
  match fuel with
  | O => Fuel
  | S fuel =>
      match s with
      | [] => Ok ([], 0, [])
      | b :: r =>
          if b =? "}"%b then
            match brace_depth with
            | O => Ok ([], 0, s)
            | S d => push [b] 0 (scan_current_subst_brace fuel in_double_quotes d r)
            end
          else if b =? "{"%b then push [b] 0 (scan_current_subst_brace fuel in_double_quotes (S brace_depth) r)
          else if b =? "\"%b then
            let '(t, rest) := take_char r in push (b :: t) 0 (scan_current_subst_brace fuel in_double_quotes brace_depth rest)
          else if b =? "$"%b then
            push [b] 0 (andthen (scan_dollar fuel in_double_quotes r) (scan_current_subst_brace fuel in_double_quotes brace_depth))
          else if is_quote b then
            let '(t, rest) := quoted_run b r in push (b :: t) 0 (scan_current_subst_brace fuel in_double_quotes brace_depth rest)
          else let '(t, rest) := take_char s in push t 0 (scan_current_subst_brace fuel in_double_quotes brace_depth rest)
      end
  end
with scan_parameter_brace (fuel : nat) (in_double_quotes : bool) (s : bytes) : Sc :=
  match fuel with
  | O => Fuel
  | S fuel =>
      match s with
      | [] => Ok ([], 0, [])
      | b :: r =>
          if b =? "}"%b then Ok ([], 0, s)
          else if b =? "\"%b then let '(t, rest) := take_char r in push (b :: t) 0 (scan_parameter_brace fuel in_double_quotes rest)
          else if b =? "$"%b then
            push [b] 0 (andthen (scan_dollar fuel in_double_quotes r) (scan_parameter_brace fuel in_double_quotes))
          else if (b =? "'"%b) && negb (in_double_quotes && posix_mode) then
            let '(t, rest) := single_run r in push (b :: t) 0 (scan_parameter_brace fuel in_double_quotes rest)
          else if b =? dquote then
            let '(t, rest) := quoted_run b r in push (b :: t) 0 (scan_parameter_brace fuel in_double_quotes rest)
          else if b =? "`"%b then
            push [b] 0 (andthen (closing b (scan_balanced_pair fuel b b 1 true r)) (scan_parameter_brace fuel in_double_quotes))
          else let '(t, rest) := take_char s in push t 0 (scan_parameter_brace fuel in_double_quotes rest)
      end
  end
with scan_balanced_pair (fuel : nat) (open close : Z) (depth : nat) (at_word_start : bool) (s : bytes) : Sc :=
  match fuel with
  | O => Fuel
  | S fuel =>
      let next := scan_balanced_pair fuel open close depth false in
      match s with
      | [] => Ok ([], 0, [])
      | b :: r =>
          if is_ascii_whitespace b then push [b] 0 (scan_balanced_pair fuel open close depth true r)
          else if (b =? "#"%b) && at_word_start then
            let '(t, rest) := span (fun b => negb (b =? 10)) s in push t 0 (scan_balanced_pair fuel open close depth at_word_start rest)
          else if (b =? open) && negb (open =? close) then push [b] 0 (scan_balanced_pair fuel open close (S depth) false r)
          else if b =? close then
            if (depth =? 1)%nat then Ok ([], 0, s) else push [b] 0 (scan_balanced_pair fuel open close (pred depth) false r)
          else if b =? "\"%b then let '(t, rest) := take_char r in push (b :: t) 0 (next rest)
          else if (b =? "$"%b) && starts_with (bs "(") r then push [b] 0 (andthen (scan_dollar_in_balanced_pair fuel r) next)
          else if (b =? "$"%b) && starts_with (bs "{") r then
            push (bs "${") 0
              (andthen (no_flags (scan_brace fuel false (drop 1 r)))
                 (fun s => let '(t, rest) := take_char s in push t 0 (next rest)))
          else if b =? "'"%b then let '(t, rest) := single_run r in push (b :: t) 0 (next rest)
          else if b =? dquote then push [b] 0 (andthen (closing b (scan_double_quoted_in_balanced_pair fuel r)) next)
          else let '(t, rest) := take_char s in push t 0 (next rest)
      end
  end
with scan_double_quoted_in_balanced_pair (fuel : nat) (s : bytes) : Sc :=
  match fuel with
  | O => Fuel
  | S fuel =>
      let next := scan_double_quoted_in_balanced_pair fuel in
      match s with
      | [] => Ok ([], 0, [])
      | b :: r =>
          if b =? dquote then Ok ([], 0, s)
          else if b =? "\"%b then let '(t, rest) := take_char r in push (b :: t) 0 (next rest)
          else if b =? "$"%b then
            match r with
            | "{"%b :: r' => push (bs "${") 0 (andthen (closing "}"%b (no_flags (scan_brace fuel true r'))) next)
            | _ => push [b] 0 (andthen (scan_dollar_in_balanced_pair fuel r) next)
            end
          else if b =? "`"%b then push [b] 0 (andthen (closing b (scan_balanced_pair fuel b b 1 true r)) next)
          else let '(t, rest) := take_char s in push t 0 (next rest)
      end
  end
with scan_dollar_in_balanced_pair (fuel : nat) (s : bytes) : Sc :=
  match fuel with
  | O => Fuel
  | S fuel =>
      match s with
      | "("%b :: r => push (bs "(") 0 (closing ")"%b (scan_balanced_pair fuel "("%b ")"%b 1 true r))
      | _ => Ok ([], 0, s)
      end
  end
with scan_command_substitution (fuel : nat) (st : CmdSt) (s : bytes) : Sc :=
  match fuel with
  | O => Fuel
  | S fuel =>
      let next comment := scan_command_substitution fuel (c_after comment st) in
      match s with
      | [] => Ok ([], 0, [])
      | b :: r =>
          match (if c_line st then c_heredocs st else []) with
          | (delimiter, strip_tabs) :: pending =>
              match command_heredoc_line st delimiter strip_tabs pending s with
              | inl (t, rest) => Ok (t, 0, rest)
              | inr (t, rest, st) => push t 0 (scan_command_substitution fuel st rest)
              end
          | [] =>
              if b =? 10 then
                push [b] 0 (scan_command_substitution fuel (mkCmd (c_depth st) (c_case st) true (c_heredocs st) true) r)
              else if (b =? "#"%b) && c_comment st then
                let '(t, rest) := span (fun b => negb (b =? 10)) s in push t 0 (next true rest)
              else if b =? "\"%b then let '(t, rest) := take_char r in push (b :: t) 0 (next false rest)
              else if is_quote b then andthen (scan_quoted_bytes fuel b r) (next false)
              else if (b =? "$"%b) && starts_with (bs "'") r then push [b] 0 (andthen (scan_quoted_bytes fuel "'"%b (drop 1 r)) (next false))
              else if (b =? "<"%b) && starts_with (bs "<") r then
                match scan_heredoc_redirect (drop 1 r) (c_heredocs st) with
                | Ok (t, heredocs, rest) =>
                    push t 0 (scan_command_substitution fuel (mkCmd (c_depth st) (c_case st) false heredocs false) rest)
                | Err e => Err e
                | Fuel => Fuel
                end
              else if is_name_start b then
                let '(t, rest, st) := command_word st s in push t 0 (scan_command_substitution fuel st rest)
              else if b =? "("%b then
                push [b] 0 (scan_command_substitution fuel (mkCmd (c_depth st + 1) (c_case st) true (c_heredocs st) false) r)
              else if b =? ")"%b then
                if (0 <? c_case st) && (c_depth st =? 1) then push [b] 0 (next true r)
                else if (c_depth st =? 1) && negb (is_nil (c_heredocs st)) then
                  andthen (trailing_heredocs (c_heredocs st) r) (fun rest => Ok (bs ")", 0, rest))
                else if c_depth st =? 1 then Ok ([], 0, s)
                else push [b] 0 (scan_command_substitution fuel (mkCmd (c_depth st - 1) (c_case st) true (c_heredocs st) false) r)
              else let '(t, rest) := take_char s in push t 0 (next (separates b) rest)
          end
      end
  end
(** With the opening quote consumed, which is part of what is copied. *)
with scan_quoted_bytes (fuel : nat) (quote : Z) (s : bytes) : Sc :=
  match fuel with
  | O => Fuel
  | S fuel =>
      push [quote] 0
        (if quote =? dquote then closing quote (no_flags (scan_double_quoted fuel s))
         else if quote =? "'"%b then copied (single_run s)
         else copied (quoted_run quote s))
  end.
End Scanners.
