(* ===== verification/Lex.v ===== *)
(** The command lexer (crates/lexer/src/lib.rs): tokens, the state between two
    tokens, blanks and comments, operators, words, and [next_token].  Text is valid
    UTF-8 (a Rust [str]) as its bytes; the source number of a span is left out.  The
    table of aliases is only looked at, without any effect, so it is left out too. *)
From S2P Require Import Prelude Env Utf8 Buf Quote Expand Options Jobs Scan Assign LexScan.

Inductive TokenKind :=
| End_ | Newline | Word | AssignmentWord | RedirWord | Number | ArithCmd | ArithForExprs | CondCmd
| If_ | Then_ | Else_ | Elif | Fi | Case_ | Esac | For_ | Select | While_ | Until | Do_ | Done_ | Function_ | Coproc | In_
| Bang | Time_ | TimeOpt | TimeIgn
| AndAnd | OrOr | Pipe | BarAnd | Semicolon | Ampersand
| Less | Greater | LessLess | LessLessMinus | LessLessLess | GreaterGreater | GreaterBar | LessAnd | GreaterAnd
| AndGreater | AndGreaterGreater | LessGreater
| LParen | RParen | LBrace | RBrace | DblLParen | DblRParen | DblLBracket | DblRBracket
| DblSemicolon | SemiAmp | DblSemiAmp.

#[export] Instance TokenKind_eq_dec : EqDecision TokenKind.
Proof. solve_decision. Defined.

Inductive TokenValue :=
| NoValue
| TextValue (t : bytes)
| NumberValue (value : Z) (raw : bytes).

Record Token := mkToken { t_kind : TokenKind; t_value : TokenValue; t_start : nat; t_end : nat; t_flags : Z }.

(** The fields of [Lexer] that change, the position apart. *)
Record LexState := mkLex {
  done : bool;
  last_kind : option TokenKind;
  last_reserved : bool;
  peek_word_after_time : bool;
  after_function_keyword : bool;
  after_function_name : bool;
  in_conditional : bool;
}.

Definition lex_start : LexState := mkLex false None false false false false false.

(** * Names and numbers *)

Definition is_valid_name (t : bytes) : bool :=
  match t with b :: r => is_name_start b && forallb is_name_byte r | [] => false end.

Definition is_all_digits (t : bytes) : bool := negb (is_nil t) && forallb is_ascii_digit t.

Definition is_number_boundary (s : bytes) : bool :=
  match s with [] => true | b :: _ => is_word_metacharacter b || (b =? "{"%b) || (b =? "}"%b) end.

Definition is_reserved_word_text (t : bytes) : bool :=
  one_of t ["if"; "then"; "else"; "elif"; "fi"; "case"; "esac"; "for"; "select"; "while"; "until"; "do"; "done"; "function"; "coproc"; "in"]%string.

(** * Where a command may start *)

Definition starts_command (k : option TokenKind) : bool :=
  match k with
  | None
  | Some (Newline | Semicolon | Ampersand | AndAnd | OrOr | Pipe | BarAnd | LParen | RParen | LBrace | RBrace | DblSemicolon | SemiAmp
         | DblSemiAmp | DblLParen | DblRParen | DblRBracket | Then_ | Else_ | Elif | Do_ | Done_ | Fi | Esac | Bang | Time_ | TimeOpt
         | TimeIgn) => true
  | _ => false
  end.

Definition at_word_start (st : LexState) : bool := last_reserved st || after_function_name st || starts_command (last_kind st).

Definition brace_can_close (st : LexState) : bool :=
  last_reserved st
  || match last_kind st with
     | None | Some (Newline | Semicolon | Ampersand | RParen | DblRParen | RBrace | DblRBracket) => true
     | _ => false
     end.

(** * Operators *)

(** The tests of [lex_operator] in their order: the text, the kind, and when it is an
    operator. *)
Definition operators (st : LexState) : list (string * TokenKind * bool) :=
  [("((", DblLParen, negb (in_conditional st)); ("))", DblRParen, negb (in_conditional st));
   ("[[", DblLBracket, at_word_start st); ("]]", DblRBracket, in_conditional st);
   (";;&", DblSemiAmp, true); (";;", DblSemicolon, true); (";&", SemiAmp, true); ("&&", AndAnd, true); ("||", OrOr, true);
   ("|&", BarAnd, true); ("<<-", LessLessMinus, true); ("<<<", LessLessLess, true); ("<<", LessLess, true); (">>", GreaterGreater, true);
   (">|", GreaterBar, true); ("<&", LessAnd, true); (">&", GreaterAnd, true); ("&>>", AndGreaterGreater, true);
   ("&>", AndGreater, true); ("<>", LessGreater, true); ("(", LParen, true); (")", RParen, true); ("{", LBrace, at_word_start st);
   ("}", RBrace, brace_can_close st); ("|", Pipe, true); (";", Semicolon, true); ("&", Ampersand, true); ("<", Less, true);
   (">", Greater, true)]%string.

Definition operator_at (st : LexState) (s : bytes) : option (TokenKind * nat) :=
  '(t, kind, _) ← List.find (fun '(t, _, enabled) => starts_with (bs t) s && enabled) (operators st); Some (kind, String.length t).

Section Lexer.
(** [extglob_patterns], [posix_mode], [comments_enabled]. *)
Context (input : bytes) (extglob_patterns posix_mode comments_enabled : bool).

Definition offset (s : bytes) : nat := length input - length s.

Definition emit_simple (kind : TokenKind) (start rest : bytes) (st : LexState) : Token * LexState :=
  (mkToken kind NoValue (offset start) (offset rest) 0,
   mkLex (done st) (Some kind) false (peek_word_after_time st) (after_function_keyword st) false
     (match kind with DblLBracket => true | DblRBracket => false | _ => in_conditional st end)).

Definition lex_operator (st : LexState) (s : bytes) : option (Token * LexState * bytes) :=
  '(kind, n) ← operator_at st s; Some (emit_simple kind s (drop n s) st, drop n s).

(** * Words *)

Definition starts_with_proc_subst (s : bytes) : bool :=
  match s with b :: c :: _ => ((b =? "<"%b) || (b =? ">"%b)) && (c =? "("%b) | _ => false end.

Definition starts_with_extglob_pattern (s : bytes) : bool :=
  match s with
  | b :: c :: _ =>
      extglob_patterns && ((b =? "@"%b) || (b =? "+"%b) || (b =? "*"%b) || (b =? "?"%b) || (b =? "!"%b)) && (c =? "("%b)
  | _ => false
  end.

Definition starts_with_redir_word (s : bytes) : bool :=
  match s with
  | "{"%b :: r =>
      let '(name, rest) := span is_name_byte r in
      is_valid_name name
      && match rest with "}"%b :: c :: _ => (c =? "<"%b) || (c =? ">"%b) | _ => false end
  | _ => false
  end.

(** The local variables of [lex_word_or_number]. *)
Record WordSt := mkWordSt {
  w_text : bytes;
  w_flags : Z;
  saw_eq : bool;
  eq_idx : option nat;
  name_prefix_ok : bool;
  name_prefix_len : nat;
}.

Definition w_add (t : bytes) (flags : Z) (w : WordSt) : WordSt :=
  mkWordSt (w_text w ++ t) (Z.lor (w_flags w) flags) (saw_eq w) (eq_idx w) (name_prefix_ok w) (name_prefix_len w).

Definition parens (fuel : nat) (s : bytes) : Sc := closing ")"%b (scan_balanced_pair input posix_mode fuel "("%b ")"%b 1 true s).

(** Where an assignment operator may follow the text. *)
Definition assignable (w : WordSt) : bool :=
  negb (saw_eq w) && (is_valid_name (w_text w) || name_prefix_ok w && has (w_flags w) W_ARRAYREF).

(** After the operator [op]: the word, and a compound value if one follows. *)
Definition assigned_word (op : bytes) (w : WordSt) : WordSt :=
  mkWordSt (w_text w ++ op) (w_flags w) true (Some (length (w_text w) + length op - 1)%nat) (name_prefix_ok w) (name_prefix_len w).

Definition compound_value (fuel : nat) (s : bytes) : Sc :=
  match s with
  | "("%b :: r => push (bs "(") (Z.lor W_COMPASSIGN W_ASSIGNMENT) (parens fuel r)
  | _ => Ok ([], 0, s)
  end.

(** A construct of the word, by its first byte; [None] where the word ends. *)
Definition word_step (fuel : nat) (w : WordSt) (s : bytes) : option (Res Empty_set (WordSt * bytes)) :=
  let add (w : WordSt) (m : Sc) := Some (match m with Ok (t, flags, rest) => Ok (w_add t flags w, rest) | Err e => Err e | Fuel => Fuel end) in
  match s with
  | [] => None
  | b :: r =>
      if starts_with_extglob_pattern s then add w (push [b; "("%b] 0 (parens fuel (drop 1 r)))
      else if starts_with_proc_subst s then add w (push [b; "("%b] W_HASDOLLAR (parens fuel (drop 1 r)))
      else if is_word_metacharacter b then None
      else if b =? "\"%b then
        match line_continuation_len s with
        | Some n => Some (Ok (w, drop n s))
        | None => let '(t, rest) := take_char r in add w (Ok (b :: t, W_QUOTED, rest))
        end
      else if b =? "'"%b then add w (push [b] W_QUOTED (copied (single_run r)))
      else if b =? dquote then add w (push [b] W_QUOTED (closing b (scan_double_quoted input posix_mode fuel r)))
      else if b =? "$"%b then add w (push [b] W_HASDOLLAR (scan_dollar input posix_mode fuel false r))
      else if b =? "`"%b then add w (push [b] W_HASDOLLAR (closing b (scan_balanced_pair input posix_mode fuel b b 1 true r)))
      else if (b =? "+"%b) && starts_with (bs "=") r && assignable w then
        add (assigned_word (bs "+=") w) (compound_value fuel (drop 1 r))
      else if b =? "="%b then
        if assignable w then add (assigned_word (bs "=") w) (compound_value fuel r) else add w (Ok ([b], 0, r))
      else if (b =? "["%b) && negb (saw_eq w) && is_valid_name (w_text w) then
        match push [b] W_ARRAYREF (closing "]"%b (scan_balanced_pair input posix_mode fuel "["%b "]"%b 1 true r)) with
        | Ok (t, flags, rest) =>
            let quoted := existsb (fun c => (c =? "'"%b) || (c =? dquote) || (c =? "\"%b)) t in
            let w' := mkWordSt (w_text w) (w_flags w) (saw_eq w) (eq_idx w) true (length (w_text w)) in
            Some (Ok (w_add t (Z.lor flags (if quoted then W_QUOTED else 0)) w', rest))
        | Err e => Some (Err e)
        | Fuel => Some Fuel
        end
      else let '(t, rest) := take_char s in add w (Ok (t, 0, rest))
  end.

Fixpoint lex_word_loop (fuel : nat) (w : WordSt) (s : bytes) : Res Empty_set (WordSt * bytes) :=
  match fuel with
  | O => Fuel
  | S fuel' =>
      match word_step fuel w s with
      | None => Ok (w, s)
      | Some (Ok (w, rest)) => lex_word_loop fuel' w rest
      | Some x => x
      end
  end.

(** * From the text of a word to its token *)

Definition with_last (kind : TokenKind) (st : LexState) : LexState :=
  mkLex (done st) (Some kind) (last_reserved st) (peek_word_after_time st) (after_function_keyword st) (after_function_name st)
    (in_conditional st).

Definition with_peek (peek : bool) (st : LexState) : LexState :=
  mkLex (done st) (last_kind st) (last_reserved st) peek (after_function_keyword st) (after_function_name st) (in_conditional st).

Definition is_assignment (w : WordSt) : bool :=
  match eq_idx w with
  | Some eq =>
      if name_prefix_ok w && (0 <? name_prefix_len w)%nat then is_valid_name (take (name_prefix_len w) (w_text w))
      else (0 <? eq)%nat && is_valid_name (take eq (w_text w))
  | None => false
  end.

(** The tests in the order of the source; [st] is the state after the flags for the
    names of functions were reset. *)
Definition word_token (follows_function_keyword : bool) (w : WordSt) (start rest : bytes) (st : LexState) : Token * LexState :=
  let t := w_text w in
  let plain := w_flags w =? 0 in
  let token kind value flags := mkToken kind value (offset start) (offset rest) flags in
  if is_assignment w then (token AssignmentWord (TextValue t) (Z.lor (w_flags w) W_ASSIGNMENT), with_last AssignmentWord st)
  else
    match (if plain && is_all_digits t && is_number_boundary rest then parse_i32 t else None) with
    | Some value => (token Number (NumberValue value t) 0, with_last Number st)
    | None =>
        if plain && bytes_eqb t (bs "!") && at_word_start st then emit_simple Bang start rest st
        else if plain && bytes_eqb t (bs "time") && at_word_start st then emit_simple Time_ start rest (with_peek true st)
        else if plain && peek_word_after_time st && bytes_eqb t (bs "-p") then emit_simple TimeOpt start rest (with_peek false st)
        else if plain && peek_word_after_time st && bytes_eqb t (bs "--") then emit_simple TimeIgn start rest (with_peek false st)
        else
          let st := with_peek false st in
          if plain && at_word_start st && is_reserved_word_text t then
            (token Word (TextValue t) 0,
             mkLex (done st) (Some Word) true false (bytes_eqb t (bs "function")) (after_function_name st) (in_conditional st))
          else
            (token Word (TextValue t) (w_flags w),
             mkLex (done st) (Some Word) false false (after_function_keyword st) follows_function_keyword (in_conditional st))
    end.

Definition lex_word_or_number (st : LexState) (s : bytes) : Res Empty_set (Token * LexState * bytes) :=
  let follows_function_keyword := after_function_keyword st in
  let st := mkLex (done st) (last_kind st) (last_reserved st) (peek_word_after_time st) false false (in_conditional st) in
  match lex_word_loop (2 * length s + 2) (mkWordSt [] 0 false None false 0) s with
  | Ok (w, rest) =>
      if is_nil (w_text w) then
        Ok (mkToken Word (TextValue []) (offset s) (offset rest) (w_flags w), with_last Word st, drop 1 rest)
      else Ok (word_token follows_function_keyword w s rest st, rest)
  | Err e => Err e
  | Fuel => Fuel
  end.

(** * Blanks, comments and tokens *)

Fixpoint skip_whitespace_and_comments (fuel : nat) (st : LexState) (s : bytes) : bytes :=
  match fuel with
  | O => s
  | S fuel =>
      let '(blanks, rest) := span (fun b => (b =? " "%b) || (b =? 9) || (b =? 13)) s in
      match rest with
      | "#"%b :: _ =>
          if comments_enabled && (negb (is_nil blanks) || at_word_start st)
          then skip_whitespace_and_comments fuel st (snd (span (fun b => negb (b =? 10)) rest)) else rest
      | _ => rest
      end
  end.

(** The loop at the start of [next_token]. *)
Fixpoint skip_to_token (fuel : nat) (st : LexState) (s : bytes) : bytes :=
  match fuel with
  | O => s
  | S fuel =>
      let s := skip_whitespace_and_comments (S (length s)) st s in
      match line_continuation_len s with Some n => skip_to_token fuel st (drop n s) | None => s end
  end.

Definition next_token (st : LexState) (s : bytes) : Res Empty_set (option (Token * LexState * bytes)) :=
  if done st then Ok None
  else
    let s := skip_to_token (S (length s)) st s in
    let word := match lex_word_or_number st s with Ok r => Ok (Some r) | Err e => Err e | Fuel => Fuel end in
    match s with
    | [] =>
        let '(tok, st) := emit_simple End_ s s st in
        Ok (Some (tok, mkLex true (last_kind st) (last_reserved st) (peek_word_after_time st) (after_function_keyword st)
                         (after_function_name st) (in_conditional st), s))
    | b :: r =>
        if b =? 10 then Ok (Some (emit_simple Newline s r st, r))
        else if starts_with_proc_subst s || starts_with_redir_word s then word
        else match lex_operator st s with Some t => Ok (Some t) | None => word end
    end.

(** All tokens, as the callers of [next_token] collect them. *)
Fixpoint tokens_loop (fuel : nat) (st : LexState) (s : bytes) : Res Empty_set (list Token) :=
  match fuel with
  | O => Fuel
  | S fuel =>
      match next_token st s with
      | Ok (Some (tok, st, rest)) => match tokens_loop fuel st rest with Ok l => Ok (tok :: l) | x => x end
      | Ok None => Ok []
      | Err e => Err e
      | Fuel => Fuel
      end
  end.

Definition tokens : Res Empty_set (list Token) := tokens_loop (length input + 2) lex_start input.
End Lexer.
