(* ===== verification/LexProps.v ===== *)
(** The command lexer: every scanner ends and returns a suffix of its text; the tokens
    partition the input. *)
From S2P Require Import Prelude Env Utf8 Buf Quote Expand Options Jobs Scan ScanProps Assign LexScan Lex.

(** * Text that is copied as it is *)

(** ASCII, without line continuations and without here-documents. *)
Fixpoint plain_text (s : bytes) : bool :=
  match s with
  | [] => true
  | b :: r =>
      in_range 0 127 b && negb (starts_with (bs "<<") s) && negb (starts_with ["\"%b; 10] s) && negb (starts_with ["\"%b; 13; 10] s)
      && plain_text r
  end.

Lemma plain_suffix rest s : rest `suffix_of` s -> plain_text s = true -> plain_text rest = true.
Proof. intros [p ->]. induction p as [|b p IH]; [done|]. cbn [app plain_text]. intros H. to_prop. auto. Qed.

Lemma plain_continuation b r : plain_text (b :: r) = true -> line_continuation_len (b :: r) = None.
Proof.
  cbn [plain_text]. unfold line_continuation_len. intros H.
  by repeat (apply andb_true_iff in H as [H ->%negb_true_iff] || apply andb_true_iff in H as [H ?]).
Qed.

Lemma take_char_app s : (take_char s).1 ++ (take_char s).2 = s.
Proof. apply take_drop. Qed.

Lemma utf8_seq_pos s n : utf8_seq s = Some n -> (0 < n)%nat.
Proof.
  destruct s as [|b r]; [done|]. cbn [utf8_seq]. destruct (in_range 0 127 b); [intros [= <-]; lia|].
  destruct r as [|c r]; [done|]. destruct (_ && _); [intros [= <-]; lia|].
  destruct r as [|d r]; [done|]. destruct (_ && _); [intros [= <-]; lia|].
  destruct r as [|e r]; [done|]. destruct (_ && _); [intros [= <-]; lia|done].
Qed.

Lemma take_char_length b r : (length (take_char (b :: r)).2 <= length r)%nat.
Proof.
  unfold take_char. cbn [snd]. rewrite length_drop. cbn [length].
  destruct (utf8_seq (b :: r)) as [n|] eqn:E; [apply utf8_seq_pos in E; change (default 1%nat (Some n)) with n; lia|change (default 1%nat None) with 1%nat; lia].
Qed.

Lemma quoted_run_app q s : (quoted_run q s).1 ++ (quoted_run q s).2 = s.
Proof.
  induction s as [|b|b c r IH1 IH2] using bytes_two_ind; [done|cbn; by destruct (b =? q)|].
  rewrite quoted_run_cons. destruct (b =? q); [done|]. destruct (b =? "\"%b).
  - destruct (quoted_run q r). cbn in *. by rewrite IH1.
  - destruct (quoted_run q (c :: r)) as [t rest]. cbn [fst snd app] in *. by rewrite IH2.
Qed.

Lemma single_run_app s : (single_run s).1 ++ (single_run s).2 = s.
Proof.
  unfold single_run. pose proof (span_app (fun b => negb (b =? "'"%b)) s) as H.
  destruct (span _ s) as [t [|q r]]; cbn [fst snd] in *; [done|]. by rewrite <-app_assoc.
Qed.

(** * Scans *)

(** A scan of [s] gives a result, leaves a suffix, and on plain text its text and what
    is left are [s], if [P] holds. *)
Definition scans_if (P : Prop) (s : bytes) (m : Sc) : Prop :=
  exists t flags rest, m = Ok (t, flags, rest) /\ rest `suffix_of` s /\ (P -> plain_text s = true -> t ++ rest = s).

Section Combinators.
Context {P : Prop}.
Local Notation scans := (scans_if P).

Lemma scans_done t flags s : scans (t ++ s) (Ok (t, flags, s)).
Proof. exists t, flags, s. split_and!; [done|by eexists|done]. Qed.

Lemma scans_nothing s flags : scans s (Ok ([], flags, s)).
Proof. apply (scans_done []). Qed.

Lemma scans_copied s p : p.1 ++ p.2 = s -> scans s (copied p).
Proof. intros <-. apply scans_done. Qed.

Lemma scans_push t flags s m : scans s m -> scans (t ++ s) (push t flags m).
Proof.
  intros (t' & f' & rest & -> & Hs & Hp). eexists _, _, rest. split; [reflexivity|]. split; [by apply suffix_app_r|].
  intros HP Hpl. rewrite <-app_assoc, Hp; [done..|]. eapply plain_suffix; [|done]. by eexists.
Qed.

Lemma scans_push1 b flags r m : scans r m -> scans (b :: r) (push [b] flags m).
Proof. apply (scans_push [b]). Qed.

(** [p] is what was copied and what is left. *)
Lemma scans_pair flags s (p : bytes * bytes) k : p.1 ++ p.2 = s -> scans p.2 (k p.2) ->
  scans s (let '(t, rest) := p in push t flags (k rest)).
Proof. destruct p as [t rest]. cbn. intros <-. apply scans_push. Qed.

Lemma scans_pair1 b flags r (p : bytes * bytes) k : p.1 ++ p.2 = r -> scans p.2 (k p.2) ->
  scans (b :: r) (let '(t, rest) := p in push (b :: t) flags (k rest)).
Proof. destruct p as [t rest]. cbn. intros <-. apply (scans_push (b :: t)). Qed.

Lemma scans_andthen s m k : scans s m -> (forall rest, rest `suffix_of` s -> scans rest (k rest)) -> scans s (andthen m k).
Proof.
  intros (t & f & rest & -> & Hs & Hp) Hk. destruct (Hk rest Hs) as (t' & f' & rest' & Hk' & Hs' & Hp').
  cbn. rewrite Hk'. eexists _, _, rest'. split; [reflexivity|]. split; [by etrans|].
  intros HP Hpl. rewrite <-app_assoc, Hp', Hp; [done..|]. by eapply plain_suffix.
Qed.

Lemma andthen_push t flags m k : andthen (push t flags m) k = push t flags (andthen m k).
Proof.
  destruct m as [[[t' f'] rest]|e|]; cbn; [|done..]. destruct (k rest) as [[[t2 f2] rest2]|e|]; cbn; [|done..].
  by rewrite app_assoc, Z.lor_assoc.
Qed.

Lemma scans_close c s : scans s (close_byte c s).
Proof.
  destruct s as [|b r]; cbn; [apply scans_nothing|]. destruct (b =? c); [apply (scans_done [b])|apply scans_nothing].
Qed.

Lemma scans_closing c s m : scans s m -> scans s (closing c m).
Proof. intros Hm. apply scans_andthen; [done|]. intros rest _. apply scans_close. Qed.

Lemma scans_no_flags s m : scans s m -> scans s (no_flags m).
Proof. intros (t & f & rest & -> & Hs & Hp). by exists t, 0, rest. Qed.

(** Bytes that are skipped where the text is not plain. *)
Lemma scans_skip p s m : plain_text (p ++ s) = false -> scans s m -> scans (p ++ s) m.
Proof.
  intros Hpl (t & f & rest & -> & Hs & Hp). exists t, f, rest. split; [done|]. split; [by apply suffix_app_r|congruence].
Qed.

Lemma scans_nowhere s m : plain_text s = false -> (exists t flags rest, m = Ok (t, flags, rest) /\ rest `suffix_of` s) -> scans s m.
Proof. intros Hpl (t & f & rest & -> & Hs). exists t, f, rest. split; [done|]. split; [done|congruence]. Qed.
End Combinators.

Notation scans := (scans_if True).

Lemma scans_weaken (P Q : Prop) s m : (Q -> P) -> scans_if P s m -> scans_if Q s m.
Proof. intros HQ (t & f & rest & -> & Hs & Hp). exists t, f, rest. split; [done|]. split; [done|auto]. Qed.

Lemma suffix_len (rest s : bytes) : rest `suffix_of` s -> (length rest <= length s)%nat.
Proof. intros [p ->]. rewrite length_app. lia. Qed.

(** The bytes a continuation has. *)
Lemma continuation_inv s n : line_continuation_len s = Some n -> exists p r, s = p ++ r /\ drop n s = r /\ (length p = n)%nat /\ (2 <= n)%nat.
Proof.
  unfold line_continuation_len. intros H.
  assert (Hs : (n <= length s)%nat /\ (2 <= n)%nat).
  { destruct (starts_with ["\"%b; 10] s) eqn:E1; [|destruct (starts_with ["\"%b; 13; 10] s) eqn:E2; [|done]]; injection H as <-;
      destruct s as [|? [|? [|? ?]]]; cbn in *; to_prop; try done; split; lia. }
  exists (take n s), (drop n s). rewrite take_drop, length_take. split_and!; try done; lia.
Qed.

Lemma scans_continuation P b r n m : line_continuation_len (b :: r) = Some n -> scans_if P (drop n (b :: r)) m -> scans_if P (b :: r) m.
Proof.
  intros Hn Hm. pose proof (continuation_inv _ _ Hn) as (p & t & Hs & Hd & _). rewrite Hd in Hm. rewrite Hs. apply scans_skip; [|done].
  rewrite <-Hs. destruct (plain_text (b :: r)) eqn:E; [|done]. apply plain_continuation in E. congruence.
Qed.

(** * The scanners without recursion *)

Lemma take_char_suffix s : (take_char s).2 `suffix_of` s.
Proof. exists (take_char s).1. by rewrite take_char_app. Qed.

(** A character, an escaped character or a quoted run, and then the rest of the loop. *)
Section Loops.
Context {P : Prop} (b : Z) (r : bytes) (k : bytes -> Sc).
Context (Hk : forall rest, (length rest <= length r)%nat -> scans_if P rest (k rest)).

Lemma scans_char flags : scans_if P (b :: r) (let '(t, rest) := take_char (b :: r) in push t flags (k rest)).
Proof. apply scans_pair; [apply take_char_app|]. apply Hk, take_char_length. Qed.

Lemma scans_escape flags : scans_if P (b :: r) (let '(t, rest) := take_char r in push (b :: t) flags (k rest)).
Proof. apply scans_pair1; [apply take_char_app|]. apply Hk, suffix_len, take_char_suffix. Qed.

Lemma scans_quoted q flags : scans_if P (b :: r) (let '(t, rest) := quoted_run q r in push (b :: t) flags (k rest)).
Proof. apply scans_pair1; [apply quoted_run_app|]. apply Hk, quoted_run_length. Qed.

Lemma scans_single flags : scans_if P (b :: r) (let '(t, rest) := single_run r in push (b :: t) flags (k rest)).
Proof. apply scans_pair1; [apply single_run_app|]. apply Hk, single_run_length. Qed.

Lemma scans_span p flags : p b = true -> scans_if P (b :: r) (let '(t, rest) := span p (b :: r) in push t flags (k rest)).
Proof.
  intros Hb. apply scans_pair; [apply span_app|]. apply Hk. cbn. rewrite Hb. pose proof (span_length p r). by destruct (span p r).
Qed.

Lemma scans_then flags m : scans_if P r m -> scans_if P (b :: r) (push [b] flags (andthen m k)).
Proof. intros Hm. apply scans_push1, scans_andthen; [done|]. intros rest Hs. by apply Hk, suffix_len. Qed.

Lemma scans_next flags : scans_if P (b :: r) (push [b] flags (k r)).
Proof. apply scans_push1, Hk. done. Qed.
End Loops.

Lemma scans_quoted_then (P : Prop) q s x k : (exists m, x = push [q] 0 m /\ scans s m) ->
  (forall rest, (length rest <= length s)%nat -> scans_if P rest (k rest)) -> scans_if P (q :: s) (andthen x k).
Proof. intros (m & -> & Hm) Hk. rewrite andthen_push. apply scans_then; [done|]. eapply scans_weaken; [|exact Hm]. done. Qed.

Lemma nested_scans fuel open close d s : (length s < fuel)%nat -> scans s (nested_loop fuel open close d s).
Proof.
  revert d s. induction fuel as [|fuel IH]; intros d s Hf; [lia|]. destruct s as [|b r]; [apply scans_nothing|].
  cbn [nested_loop length] in *. assert (Hk : forall d rest, (length rest <= length r)%nat -> scans rest (nested_loop fuel open close d rest)).
  { intros d' rest Hr. apply IH. lia. }
  destruct (b =? open); [apply (scans_next b r (nested_loop fuel open close (S d))); auto|].
  destruct (b =? close); [destruct (d =? 1)%nat; [apply scans_nothing|apply (scans_next b r (nested_loop fuel open close (pred d))); auto]|].
  destruct (b =? "\"%b); [apply scans_escape; auto|]. destruct (is_quote b); [apply scans_quoted; auto|apply scans_char; auto].
Qed.

Lemma dparen_suffix fuel s d rest : dparen_loop fuel s d = Ok (DArithmetic rest) -> rest `suffix_of` s.
Proof.
  revert s d. induction fuel as [|fuel IH]; intros s d; [done|]. destruct s as [|b r]; [done|]. cbn [dparen_loop].
  assert (Hc : forall x y, dparen_single_close x <> DArithmetic y) by (intros x y; unfold dparen_single_close; by repeat case_match).
  assert (Hr : forall r' d, r' `suffix_of` r -> dparen_loop fuel r' d = Ok (DArithmetic rest) -> rest `suffix_of` b :: r).
  { intros r' d' Hs Hx. apply suffix_cons_r. etrans; [by eapply IH|done]. }
  destruct (escaped (b :: r)) as [[c r']|] eqn:Ee.
  { apply Hr. unfold escaped in Ee. destruct r as [|x r2]; [done|]. destruct (b =? "\"%b); [|done]. injection Ee as <- <-. by exists [x]. }
  destruct (_ || _ || _); [apply Hr; exists (quoted_run b r).1; by rewrite quoted_run_app|].
  destruct (b =? "("%b); [by apply Hr|]. destruct (b =? ")"%b); [|by apply Hr]. destruct (d =? 1); [|by apply Hr].
  destruct r as [|c r']; [intros [= Hx]; by apply Hc in Hx|].
  destruct (c =? ")"%b); [intros [= ->]; by exists [b; c]|intros [= Hx]; by apply Hc in Hx].
Qed.

Lemma byte_char_plain p rest : plain_text (p ++ rest) = true -> concat (map byte_char p) = p.
Proof.
  induction p as [|b p IH]; [done|]. cbn [app plain_text map concat]. intros H. to_prop. rewrite IH by done.
  unfold byte_char, encode_utf8. by rewrite (proj2 (Z.ltb_lt b 128)) by (unfold in_range in *; to_prop; lia).
Qed.

(** The text between [$(] and the end of an arithmetic expansion. *)
Lemma scans_arith r' rest : arith_dparen_scan r' = Ok (DArithmetic rest) ->
  scans ("("%b :: r') (Ok (concat (map byte_char (take (length ("("%b :: r') - length rest) ("("%b :: r'))), 0, rest)).
Proof.
  intros Hd. apply dparen_suffix in Hd as [p ->]. eexists _, _, rest. split; [reflexivity|]. split; [by exists ("("%b :: p)|].
  intros _ Hpl. rewrite app_comm_cons, length_app, Nat.add_sub, take_app_length. f_equal.
  by apply (byte_char_plain ("("%b :: p) rest).
Qed.

Lemma delimiter_loop_total fuel quote s : (length s < fuel)%nat ->
  exists t d rest, delimiter_loop fuel quote s = Ok (t, d, rest) /\ rest `suffix_of` s.
Proof.
  revert quote s. induction fuel as [|fuel IH]; intros quote s Hf; [lia|]. destruct s as [|b r]; [by eexists _, _, _|].
  assert (Hr : forall t d q r', r' `suffix_of` b :: r -> (length r' <= length r)%nat -> exists t0 d0 rest,
    match delimiter_loop fuel q r' with Ok (t', d', rest) => Ok (t ++ t', d ++ d', rest) | x => x end = Ok (t0, d0, rest)
    /\ rest `suffix_of` b :: r).
  { intros t d q r' Hs Hl. destruct (IH q r') as (t' & d' & rest & -> & Hs'); [cbn in *; lia|]. eexists _, _, rest. split; [done|by etrans]. }
  pose proof (take_char_suffix (b :: r)) as Hc. pose proof (take_char_length b r) as Hl. pose proof (take_char_suffix r) as Hc2.
  pose proof (suffix_len _ _ Hc2) as Hl2. cbn [delimiter_loop].
  destruct (take_char (b :: r)) as [ch after]. cbn [snd] in *. destruct quote as [q|]; [destruct (b =? q); by apply Hr|].
  destruct (_ || _); [by apply Hr|]. destruct (b =? "\"%b).
  - destruct (line_continuation_len (b :: r)) as [n|] eqn:En.
    + apply continuation_inv in En as (p & x & Hx & Hd & Hp & Hn). rewrite Hd. apply Hr; [rewrite Hx; by exists p|].
      apply (f_equal length) in Hx. rewrite length_app in Hx. cbn in Hx. lia.
    + destruct r as [|c r']; [eexists _, _, _; split; [done|by exists [b]]|]. destruct (take_char (c :: r')) as [ch2 after2]. cbn [snd] in *.
      apply Hr; [by apply suffix_cons_r|done].
  - destruct (_ || _); [by eexists _, _, _|by apply Hr].
Qed.

Lemma span_suffix p s : (span p s).2 `suffix_of` s.
Proof. exists (span p s).1. by rewrite span_app. Qed.

Lemma heredoc_redirect_total s h : exists t h' rest, scan_heredoc_redirect s h = Ok (t, h', rest) /\ rest `suffix_of` s.
Proof.
  unfold scan_heredoc_redirect.
  assert (Hd : exists dash s1, match s with "-"%b :: r => (bs "-", r) | _ => ([], s) end = (dash, s1) /\ s1 `suffix_of` s).
  { destruct s as [|b r]; [by eexists _, _|]. destruct (decide (b = "-"%b)) as [->|Hb]; [eexists _, r; split; [done|by exists ["-"%b]]|].
    exists [], (b :: r). split; [|done]. by repeat case_match; subst. }
  destruct Hd as (dash & s1 & -> & Hs1). pose proof (span_suffix (fun b => (b =? " "%b) || (b =? 9)) s1) as Hs2.
  destruct (span _ s1) as [blanks s2]. cbn [snd] in Hs2.
  destruct (delimiter_loop_total (S (length s2)) None s2) as (t & d & rest & -> & Hs3); [lia|].
  eexists _, _, rest. split; [reflexivity|]. by do 2 (etrans; [eassumption|]).
Qed.

Lemma trailing_lines_total fuel h s : (length s < fuel)%nat -> exists t rest, trailing_lines fuel h s = Ok (t, 0, rest) /\ rest `suffix_of` s.
Proof.
  revert h s. induction fuel as [|fuel IH]; intros h s Hf; [lia|]. destruct s as [|b r]; [by eexists _, _|].
  cbn [trailing_lines]. destruct h as [|[d strip] pending]; [by eexists _, _|].
  pose proof (span_suffix (fun b => negb (b =? 10)) (b :: r)) as Hs. pose proof (span_app (fun b => negb (b =? 10)) (b :: r)) as Ha.
  destruct (span _ (b :: r)) as [line rest]. cbn [fst snd] in *.
  assert (Hd : drop 1 rest `suffix_of` b :: r) by (etrans; [|exact Hs]; eexists; symmetry; apply (take_drop 1)).
  assert (Hl : (length (drop 1 rest) < length (b :: r))%nat).
  { rewrite length_drop. apply (f_equal length) in Ha. rewrite length_app in Ha. cbn [length] in *. destruct line as [|x line]; cbn in *; [|lia].
    destruct rest; cbn in *; lia. }
  destruct (IH (if bytes_eqb (if strip then drop_tabs line else line) d then pending else (d, strip) :: pending) (drop 1 rest)) as (t & rest' & -> & Hs');
    [cbn in *; lia|]. eexists _, rest'. split; [reflexivity|by etrans].
Qed.

Lemma trailing_heredocs_total h s : exists t rest, trailing_heredocs h s = Ok (t, 0, rest) /\ rest `suffix_of` s.
Proof.
  unfold trailing_heredocs.
  assert (Hd : exists newline s1, match s with 10 :: r => ([10], r) | _ => ([], s) end = (newline, s1) /\ s1 `suffix_of` s).
  { destruct s as [|b r]; [by eexists _, _|]. destruct (decide (b = 10)) as [->|Hb]; [eexists _, r; split; [done|by exists [10]]|].
    exists [], (b :: r). split; [|done]. by repeat case_match; subst. }
  destruct Hd as (newline & s1 & -> & Hs1). destruct (trailing_lines_total (S (length s1)) h s1) as (t & rest & -> & Hs); [lia|].
  eexists _, rest. split; [reflexivity|by etrans].
Qed.

(** A line of a here-document is consumed. *)
Lemma command_heredoc_line_total st d strip pending b r :
  match command_heredoc_line st d strip pending (b :: r) with
  | inl (_, rest) => rest `suffix_of` b :: r
  | inr (_, rest, _) => rest `suffix_of` b :: r /\ (length rest <= length r)%nat
  end.
Proof.
  unfold command_heredoc_line. pose proof (span_app (fun b => negb (b =? 10)) (b :: r)) as Ha.
  destruct (span _ (b :: r)) as [line rest]. cbn [fst snd] in Ha.
  destruct (if c_depth st =? 1 then _ else None) as [close|].
  - set (x := take _ line). eexists. rewrite drop_drop. symmetry. apply take_drop.
  - split; [rewrite <-Ha; exists (line ++ take 1 rest); by rewrite <-app_assoc, take_drop|].
    rewrite length_drop. apply (f_equal length) in Ha. rewrite length_app in Ha. cbn [length] in *. lia.
Qed.

Lemma command_word_total input st b r : is_name_start b = true ->
  let '(t, rest, st') := command_word input st (b :: r) in
  t ++ rest = b :: r /\ (length rest <= length r)%nat /\ c_heredocs st' = c_heredocs st.
Proof.
  intros Hb. unfold command_word. assert (Hn : is_name_byte b = true) by (unfold is_name_byte; by rewrite Hb).
  pose proof (span_app is_name_byte (b :: r)) as Ha. pose proof (span_length is_name_byte r) as Hl. cbn [span] in *. rewrite Hn in *.
  destruct (span is_name_byte r) as [w rest]. cbn [fst snd] in *. done.
Qed.

(** * The scanners that call each other *)

Section Scanners.
Context (input : bytes) (posix : bool).

Definition all_scan (fuel : nat) : Prop :=
  (forall s, (2 * length s < fuel)%nat -> scans s (scan_double_quoted input posix fuel s))
  /\ (forall dq s, (2 * length s < fuel)%nat -> scans s (scan_dollar input posix fuel dq s))
  /\ (forall dq s, (2 * length s + 1 < fuel)%nat -> scans s (scan_brace input posix fuel dq s))
  /\ (forall dq d s, (2 * length s < fuel)%nat -> scans s (scan_current_subst_brace input posix fuel dq d s))
  /\ (forall dq s, (2 * length s < fuel)%nat -> scans s (scan_parameter_brace input posix fuel dq s))
  /\ (forall open close d w s, (2 * length s < fuel)%nat -> scans s (scan_balanced_pair input posix fuel open close d w s))
  /\ (forall s, (2 * length s < fuel)%nat -> scans s (scan_double_quoted_in_balanced_pair input posix fuel s))
  /\ (forall s, (2 * length s < fuel)%nat -> scans s (scan_dollar_in_balanced_pair input posix fuel s))
  /\ (forall st s, (2 * length s < fuel)%nat -> scans_if (c_heredocs st = []) s (scan_command_substitution input posix fuel st s))
  /\ (forall q s, (2 * length s + 1 < fuel)%nat -> exists m, scan_quoted_bytes input posix fuel q s = push [q] 0 m /\ scans s m).

Section Step.
Context (fuel : nat) (IH : all_scan fuel).

Lemma command_scans s : (2 * length s < fuel)%nat -> scans s (scan_command_substitution input posix fuel cmd_start s).
Proof. intros Hf. destruct IH as (_ & _ & _ & _ & _ & _ & _ & _ & Hc & _). eapply scans_weaken; [|by apply Hc]. done. Qed.

Lemma double_quoted_step b r : (2 * length (b :: r) < S fuel)%nat ->
  scans (b :: r) (scan_double_quoted input posix (S fuel) (b :: r)).
Proof.
  intros Hf. destruct IH as (IHq & IHd & _ & _ & _ & IHp & _). cbn [scan_double_quoted length] in *.
  assert (Hk : forall rest, (length rest <= length r)%nat -> scans rest (scan_double_quoted input posix fuel rest)) by (intros; apply IHq; lia).
  destruct (b =? dquote); [apply scans_nothing|]. destruct (b =? "\"%b).
  { destruct (line_continuation_len (b :: r)) as [n|] eqn:En; [|apply scans_escape; auto].
    eapply scans_continuation; [done|]. apply Hk. apply continuation_inv in En as (p & x & Hx & -> & Hp & Hn).
    apply (f_equal length) in Hx. rewrite length_app in Hx. cbn in Hx. lia. }
  destruct (b =? "$"%b); [apply scans_then; [auto|apply IHd; lia]|].
  destruct (b =? "`"%b); [apply scans_then; [auto|apply scans_closing, IHp; lia]|apply scans_char; auto].
Qed.

Lemma dollar_step dq b r : (2 * length (b :: r) < S fuel)%nat -> scans (b :: r) (scan_dollar input posix (S fuel) dq (b :: r)).
Proof.
  intros Hf. pose proof command_scans as Hc. destruct IH as (IHq & _ & IHb & _). cbn [scan_dollar length] in *.
  destruct (b =? "("%b).
  { apply scans_push1. assert (Hcr : scans r (closing ")"%b (scan_command_substitution input posix fuel cmd_start r))) by (apply scans_closing, Hc; lia).
    destruct r as [|c r']; [done|]. destruct (decide (c = "("%b)) as [->|Hne]; [|by repeat case_match; subst].
    destruct (arith_dparen_scan r') as [[rest| |]|e|] eqn:Ea; [by apply scans_arith|done| | |].
    - apply scans_push1, scans_closing, scans_closing, nested_scans. lia.
    - pose proof (dparen_close_ends (S (length r')) r' 1 ltac:(lia)) as H. unfold arith_dparen_scan in Ea. by rewrite Ea in H.
    - pose proof (dparen_close_ends (S (length r')) r' 1 ltac:(lia)) as H. unfold arith_dparen_scan in Ea. by rewrite Ea in H. }
  destruct (b =? "{"%b); [apply scans_push1, scans_closing, IHb; lia|].
  destruct (b =? "["%b); [apply scans_push1, scans_closing, nested_scans; lia|].
  destruct ((b =? "'"%b) && _); [apply scans_push1, scans_copied, quoted_run_app|].
  destruct ((b =? dquote) && _); [apply scans_push1, scans_closing, IHq; lia|apply scans_nothing].
Qed.

Lemma brace_step dq s : (2 * length s + 1 < S fuel)%nat -> scans s (scan_brace input posix (S fuel) dq s).
Proof.
  intros Hf. destruct IH as (_ & _ & _ & IHc & IHp & _). cbn [scan_brace].
  destruct (current_subst_starts_here s); [|apply IHp; lia]. assert (Hs : scans s (scan_current_subst_brace input posix fuel dq 0 s)) by (apply IHc; lia).
  destruct s as [|b r]; [done|]. destruct (decide (b = "|"%b)) as [->|Hne]; [|by repeat case_match; subst].
  apply (scans_push1 "|"%b), IHc. cbn in *. lia.
Qed.

Lemma current_step dq d b r : (2 * length (b :: r) < S fuel)%nat ->
  scans (b :: r) (scan_current_subst_brace input posix (S fuel) dq d (b :: r)).
Proof.
  intros Hf. destruct IH as (_ & IHd & _ & IHc & _). cbn [scan_current_subst_brace length] in *.
  assert (Hk : forall d rest, (length rest <= length r)%nat -> scans rest (scan_current_subst_brace input posix fuel dq d rest)) by (intros; apply IHc; lia).
  destruct (b =? "}"%b); [destruct d as [|d]; [apply scans_nothing|by apply scans_push1, Hk]|].
  destruct (b =? "{"%b); [by apply scans_push1, Hk|]. destruct (b =? "\"%b); [apply scans_escape; auto|].
  destruct (b =? "$"%b); [apply scans_then; [auto|apply IHd; lia]|]. destruct (is_quote b); [apply scans_quoted; auto|apply scans_char; auto].
Qed.

Lemma parameter_step dq b r : (2 * length (b :: r) < S fuel)%nat -> scans (b :: r) (scan_parameter_brace input posix (S fuel) dq (b :: r)).
Proof.
  intros Hf. destruct IH as (_ & IHd & _ & _ & IHp & IHb & _). cbn [scan_parameter_brace length] in *.
  assert (Hk : forall rest, (length rest <= length r)%nat -> scans rest (scan_parameter_brace input posix fuel dq rest)) by (intros; apply IHp; lia).
  destruct (b =? "}"%b); [apply scans_nothing|]. destruct (b =? "\"%b); [apply scans_escape; auto|].
  destruct (b =? "$"%b); [apply scans_then; [auto|apply IHd; lia]|]. destruct ((b =? "'"%b) && _); [apply scans_single; auto|].
  destruct (b =? dquote); [apply scans_quoted; auto|].
  destruct (b =? "`"%b); [apply scans_then; [auto|apply scans_closing, IHb; lia]|apply scans_char; auto].
Qed.

(** Two bytes known from a test of the second one. *)
Lemma starts_one c r : starts_with [c] r = true -> exists r', r = c :: r'.
Proof. destruct r as [|b r]; [done|]. cbn. rewrite andb_true_r, Z.eqb_eq. intros ->. by exists r. Qed.

Lemma balanced_step open close d w b r : (2 * length (b :: r) < S fuel)%nat ->
  scans (b :: r) (scan_balanced_pair input posix (S fuel) open close d w (b :: r)).
Proof.
  intros Hf. destruct IH as (_ & _ & IHbr & _ & _ & IHb & IHq & IHd & _). cbn [scan_balanced_pair length] in *.
  assert (Hk : forall d w rest, (length rest <= length r)%nat -> scans rest (scan_balanced_pair input posix fuel open close d w rest)) by (intros; apply IHb; lia).
  destruct (is_ascii_whitespace b); [by apply scans_push1, Hk|].
  destruct ((b =? "#"%b) && w) eqn:Ec; [apply scans_span; [auto|]; apply andb_true_iff in Ec as [->%Z.eqb_eq _]; done|].
  destruct ((b =? open) && _); [by apply scans_push1, Hk|].
  destruct (b =? close); [destruct (d =? 1)%nat; [apply scans_nothing|by apply scans_push1, Hk]|].
  destruct (b =? "\"%b); [apply scans_escape; auto|].
  destruct ((b =? "$"%b) && starts_with (bs "(") r) eqn:Ep; [apply scans_then; [auto|apply IHd; lia]|].
  destruct ((b =? "$"%b) && starts_with (bs "{") r) eqn:Eb.
  { apply andb_true_iff in Eb as [->%Z.eqb_eq (r' & ->)%starts_one]. cbn [drop length] in *. rewrite ?drop_0. apply (scans_push ["$"%b; "{"%b]), scans_andthen.
    - apply scans_no_flags, IHbr. cbn in *. lia.
    - intros rest Hs%suffix_len. apply scans_pair; [apply take_char_app|]. apply Hk.
      pose proof (suffix_len _ _ (take_char_suffix rest)). cbn in *. lia. }
  destruct (b =? "'"%b); [apply scans_single; auto|].
  destruct (b =? dquote); [apply scans_then; [auto|apply scans_closing, IHq; lia]|apply scans_char; auto].
Qed.

Lemma double_in_pair_step b r : (2 * length (b :: r) < S fuel)%nat ->
  scans (b :: r) (scan_double_quoted_in_balanced_pair input posix (S fuel) (b :: r)).
Proof.
  intros Hf. destruct IH as (_ & _ & IHbr & _ & _ & IHb & IHq & IHd & _). cbn [scan_double_quoted_in_balanced_pair length] in *.
  assert (Hk : forall rest, (length rest <= length r)%nat -> scans rest (scan_double_quoted_in_balanced_pair input posix fuel rest)) by (intros; apply IHq; lia).
  destruct (b =? dquote); [apply scans_nothing|]. destruct (b =? "\"%b); [apply scans_escape; auto|].
  destruct (b =? "$"%b) eqn:Ed.
  { assert (Hp : scans (b :: r) (push [b] 0 (andthen (scan_dollar_in_balanced_pair input posix fuel r) (scan_double_quoted_in_balanced_pair input posix fuel))))
      by (apply scans_then; [auto|apply IHd; lia]).
    destruct r as [|c r']; [done|]. destruct (decide (c = "{"%b)) as [->|Hne]; [|by repeat case_match; subst].
    apply Z.eqb_eq in Ed as ->. apply (scans_push ["$"%b; "{"%b]), scans_andthen; [apply scans_closing, scans_no_flags, IHbr; cbn in *; lia|].
    intros rest Hs%suffix_len. apply Hk. cbn in *. lia. }
  destruct (b =? "`"%b); [apply scans_then; [auto|apply scans_closing, IHb; lia]|apply scans_char; auto].
Qed.

Lemma dollar_in_pair_step s : (2 * length s < S fuel)%nat -> scans s (scan_dollar_in_balanced_pair input posix (S fuel) s).
Proof.
  intros Hf. destruct IH as (_ & _ & _ & _ & _ & IHb & _). cbn [scan_dollar_in_balanced_pair].
  destruct s as [|b r]; [apply scans_nothing|]. destruct (decide (b = "("%b)) as [->|Hne]; [|repeat case_match; subst; done || apply scans_nothing].
  apply (scans_push1 "("%b), scans_closing, IHb. cbn in *. lia.
Qed.

Lemma quoted_bytes_step q s : (2 * length s + 1 < S fuel)%nat ->
  exists m, scan_quoted_bytes input posix (S fuel) q s = push [q] 0 m /\ scans s m.
Proof.
  intros Hf. destruct IH as (IHq & _). cbn [scan_quoted_bytes]. eexists. split; [reflexivity|].
  destruct (q =? dquote); [apply scans_closing, scans_no_flags, IHq; lia|].
  destruct (q =? "'"%b); apply scans_copied; [apply single_run_app|apply quoted_run_app].
Qed.

Lemma plain_heredoc r : plain_text ("<"%b :: "<"%b :: r) = false.
Proof. reflexivity. Qed.

Lemma command_step st b r : (2 * length (b :: r) < S fuel)%nat ->
  scans_if (c_heredocs st = []) (b :: r) (scan_command_substitution input posix (S fuel) st (b :: r)).
Proof.
  intros Hf. destruct IH as (_ & _ & _ & _ & _ & _ & _ & _ & IHc & IHq). cbn [scan_command_substitution length] in *.
  assert (Hk : forall st', c_heredocs st' = c_heredocs st -> forall rest, (length rest <= length r)%nat ->
    scans_if (c_heredocs st = []) rest (scan_command_substitution input posix fuel st' rest))
    by (intros st' <- rest Hr; apply IHc; lia).
  assert (Hn : forall c rest, (length rest <= length r)%nat ->
    scans_if (c_heredocs st = []) rest (scan_command_substitution input posix fuel (c_after c st) rest)) by (intros c; by apply Hk).
  destruct (if c_line st then c_heredocs st else []) as [|[d strip] pending] eqn:Eh.
  2:{ pose proof (command_heredoc_line_total st d strip pending b r) as Hl.
      destruct (command_heredoc_line _ _ _ _ _) as [[t rest]|[[t rest] st']].
      { exists t, 0, rest. split_and!; [done..|]. intros Hx. rewrite Hx in Eh. by destruct (c_line st). }
      destruct Hl as [Hs Hl]. destruct (IHc st' rest) as (t' & f' & rest' & -> & Hs' & _); [lia|].
      eexists _, _, rest'. split_and!; [reflexivity|by etrans|]. intros Hx. rewrite Hx in Eh. by destruct (c_line st). }
  destruct (b =? 10); [by apply scans_push1, Hk|].
  destruct ((b =? "#"%b) && c_comment st) eqn:Ec; [apply scans_span; [auto|]; apply andb_true_iff in Ec as [->%Z.eqb_eq _]; done|].
  destruct (b =? "\"%b); [apply scans_escape; auto|].
  destruct (is_quote b); [apply scans_quoted_then; [apply IHq; lia|auto]|].
  destruct ((b =? "$"%b) && starts_with (bs "'") r) eqn:Ed.
  { apply andb_true_iff in Ed as [_ (r' & ->)%starts_one]. cbn [drop length] in *. rewrite ?drop_0.
    apply scans_push1, scans_quoted_then; [apply IHq; lia|]. intros rest Hr. apply Hn. cbn. lia. }
  destruct ((b =? "<"%b) && starts_with (bs "<") r) eqn:Eh2.
  { apply andb_true_iff in Eh2 as [->%Z.eqb_eq (r' & ->)%starts_one]. cbn [drop length] in *. rewrite ?drop_0. apply scans_nowhere; [done|].
    destruct (heredoc_redirect_total r' (c_heredocs st)) as (t & h & rest & -> & Hs). pose proof (suffix_len _ _ Hs).
    destruct (IHc (mkCmd (c_depth st) (c_case st) false h false) rest) as (t' & f' & rest' & -> & Hs' & _); [lia|].
    eexists _, _, rest'. split; [reflexivity|]. do 2 apply suffix_cons_r. by etrans. }
  destruct (is_name_start b) eqn:En.
  { pose proof (command_word_total input st b r En) as Hw. destruct (command_word _ _ _) as [[t rest] st']. destruct Hw as (Ha & Hl & Hh).
    rewrite <-Ha. by apply scans_push, Hk. }
  destruct (b =? "("%b); [by apply scans_push1, Hk|]. destruct (b =? ")"%b).
  { destruct ((0 <? c_case st) && _); [by apply scans_push1, Hk|]. destruct ((c_depth st =? 1) && _) eqn:Et.
    { destruct (trailing_heredocs_total (c_heredocs st) r) as (t & rest & -> & Hs). eexists _, _, rest. split; [reflexivity|].
      split; [by apply suffix_cons_r|]. intros Hx. rewrite Hx in Et. cbn in Et. by rewrite andb_false_r in Et. }
    destruct (c_depth st =? 1); [apply scans_nothing|by apply scans_push1, Hk]. }
  apply scans_char; auto.
Qed.
End Step.

Lemma scanners_scan fuel : all_scan fuel.
Proof.
  induction fuel as [|fuel IH]; [repeat split; intros; lia|].
  unfold all_scan. split_and!.
  3: intros; by apply brace_step.
  7: intros; by apply dollar_in_pair_step.
  8: intros; by apply quoted_bytes_step.
  all: intros *; destruct s as [|b r]; intros Hf; [apply scans_nothing|].
  - by apply double_quoted_step.
  - by apply dollar_step.
  - by apply current_step.
  - by apply parameter_step.
  - by apply balanced_step.
  - by apply double_in_pair_step.
  - by apply command_step.
Qed.
End Scanners.
