(* ===== verification/LexTokens.v ===== *)
(** Words, gaps and tokens of the command lexer: lexing ends on every input, and the
    tokens partition it. *)
From S2P Require Import Prelude Env Utf8 Buf Quote Expand Options Jobs Scan ScanProps Assign LexScan Lex LexProps.

(** * Words *)

(** Where a word ends: at the end of the input or at a metacharacter. *)
Definition word_end (s : bytes) : bool := match s with [] => true | b :: _ => is_word_metacharacter b end.

(** What one round of the loop, or the loop, does with the text and what is left. *)
Definition advances (w : WordSt) (s : bytes) (w' : WordSt) (rest : bytes) : Prop :=
  rest `suffix_of` s /\ (plain_text s = true -> w_text w' ++ rest = w_text w ++ s) /\ (w_text w <> [] -> w_text w' <> []).

Definition steps (w : WordSt) (b : Z) (r : bytes) (x : option (Res Empty_set (WordSt * bytes))) : Prop :=
  exists w' rest, x = Some (Ok (w', rest)) /\ advances w (b :: r) w' rest /\ (length rest <= length r)%nat
    /\ (line_continuation_len (b :: r) = None -> w_text w' <> []).

Lemma steps_add (w w0 : WordSt) b r t flags rest : w_text w0 = w_text w ->
  rest `suffix_of` r -> (plain_text (b :: r) = true -> t ++ rest = b :: r) -> t <> [] ->
  steps w b r (Some (Ok (w_add t flags w0, rest))).
Proof.
  intros Hw Hs Hp Ht. eexists _, rest. split; [reflexivity|]. unfold advances. split_and!.
  - by apply suffix_cons_r.
  - intros Hpl. cbn. by rewrite Hw, <-app_assoc, Hp.
  - cbn. rewrite Hw. intros Hne. by destruct (w_text w).
  - by apply suffix_len.
  - intros _. cbn. rewrite Hw. by destruct (w_text w), t.
Qed.

(** A byte and a scan after it. *)
Lemma steps_scan w b r flags m : scans r m ->
  steps w b r (Some (match push [b] flags m with Ok (t, f, rest) => Ok (w_add t f w, rest) | Err e => Err e | Fuel => Fuel end)).
Proof.
  intros (t & f & rest & -> & Hs & Hp). apply steps_add; [done|done| |done]. intros Hpl. cbn. rewrite Hp; [done..|].
  eapply plain_suffix; [|done]. by exists [b].
Qed.

(** The assignment operator is added first. *)
Lemma steps_assign w op b r x m : op ++ x = b :: r -> op <> [] -> scans x m ->
  steps w b r (Some (match m with Ok (t, f, rest) => Ok (w_add t f (assigned_word op w), rest) | Err e => Err e | Fuel => Fuel end)).
Proof.
  intros Hx Hop (t & f & rest & -> & Hs & Hp). eexists _, rest. split; [reflexivity|].
  assert (Hr : rest `suffix_of` r).
  { destruct op as [|o op]; [done|]. injection Hx as _ <-. etrans; [exact Hs|]. by exists op. }
  unfold advances. split_and!; [by apply suffix_cons_r| | |by apply suffix_len|].
  - intros Hpl. cbn. rewrite <-!app_assoc, Hp; [by rewrite Hx|done|]. eapply plain_suffix; [|exact Hpl]. exists op. by rewrite Hx.
  - cbn. by destruct (w_text w).
  - intros _. cbn. by destruct (w_text w), op.
Qed.

Section Words.
Context (input : bytes) (extglob posix comments : bool).

Lemma parens_scan fuel s : (2 * length s < fuel)%nat -> scans s (parens input posix fuel s).
Proof. intros Hf. destruct (scanners_scan input posix fuel) as (_ & _ & _ & _ & _ & Hb & _). by apply scans_closing, Hb. Qed.

Lemma compound_scan fuel s : (2 * length s < fuel)%nat -> scans s (compound_value input posix fuel s).
Proof.
  intros Hf. destruct s as [|b r]; [apply scans_nothing|]. destruct (decide (b = "("%b)) as [->|Hne].
  - apply (scans_push1 "("%b), parens_scan. cbn in *. lia.
  - unfold compound_value. repeat case_match; subst; done || apply scans_nothing.
Qed.

(** Two opening bytes. *)
Lemma steps_parens fuel w b c r flags : (2 * length (b :: c :: r) < fuel)%nat -> c = "("%b ->
  steps w b (c :: r)
    (Some (match push [b; "("%b] flags (parens input posix fuel r) with Ok (t, f, rest) => Ok (w_add t f w, rest) | Err e => Err e | Fuel => Fuel end)).
Proof.
  intros Hf ->. destruct (parens_scan fuel r) as (t & f & rest & -> & Hs & Hp); [cbn in *; lia|].
  apply steps_add; [done|by apply suffix_cons_r| |done]. intros Hpl. cbn. rewrite Hp; [done..|]. eapply plain_suffix; [|done]. by exists [b; "("%b].
Qed.

Lemma word_step_total fuel w s : (2 * length s < fuel)%nat ->
  match s with
  | b :: r => starts_with_extglob_pattern extglob s || starts_with_proc_subst s || negb (is_word_metacharacter b) = true ->
      steps w b r (word_step input extglob posix fuel w s)
  | [] => True
  end.
Proof.
  intros Hf. destruct s as [|b r]; [done|]. intros Hs. unfold word_step.
  destruct (scanners_scan input posix fuel) as (Hq & Hd & _ & _ & _ & Hb & _).
  destruct (starts_with_extglob_pattern extglob (b :: r)) eqn:Ee.
  { destruct r as [|c r]; [done|]. cbn in Ee. to_prop. apply steps_parens; [done|]. lia. }
  destruct (starts_with_proc_subst (b :: r)) eqn:Ep.
  { destruct r as [|c r]; [done|]. cbn in Ep. to_prop. apply steps_parens; [done|]. lia. }
  cbn [orb] in Hs. apply negb_true_iff in Hs as ->. cbn [length] in Hf.
  destruct (b =? "\"%b).
  { destruct (line_continuation_len (b :: r)) as [n|] eqn:En.
    - pose proof (continuation_inv _ _ En) as (p & x & Hx & Hdr & Hp & Hn).
      assert (Hl : (length x <= length r)%nat) by (apply (f_equal length) in Hx; rewrite length_app in Hx; cbn in Hx; lia).
      exists w, x. rewrite Hdr. unfold advances. split_and!; [done| | |done|done|congruence].
      + rewrite Hx. by exists p.
      + intros Hpl. apply plain_continuation in Hpl. congruence.
    - pose proof (take_char_app r) as Ha. pose proof (take_char_suffix r) as Hsf. destruct (take_char r) as [t rest]. cbn [fst snd] in *.
      apply steps_add; [done..| |done]. intros _. cbn. by rewrite Ha. }
  destruct (b =? "'"%b); [apply steps_scan, scans_copied, single_run_app|].
  destruct (b =? dquote); [apply steps_scan, scans_closing, Hq; lia|].
  destruct (b =? "$"%b); [apply steps_scan, Hd; lia|].
  destruct (b =? "`"%b); [apply steps_scan, scans_closing, Hb; lia|].
  destruct ((b =? "+"%b) && _ && _) eqn:E1.
  { apply andb_true_iff in E1 as [[->%Z.eqb_eq (r' & ->)%starts_one]%andb_true_iff _]. cbn [drop length] in *. rewrite ?drop_0.
    apply (steps_assign _ (bs "+=") _ _ r'); [done..|]. apply compound_scan. lia. }
  destruct (b =? "="%b) eqn:E2.
  { apply Z.eqb_eq in E2 as ->. destruct (assignable w); [apply (steps_assign _ (bs "=") _ _ r); [done..|]; apply compound_scan; lia|].
    by apply steps_add. }
  destruct ((b =? "["%b) && _ && _).
  { destruct (scans_closing "]"%b r _ (Hb "["%b "]"%b 1%nat true r ltac:(lia))) as (t & f & rest & -> & Hsf & Hp). cbn [push].
    apply steps_add; [done|done| |done]. intros Hpl. cbn. rewrite Hp; [done..|]. eapply plain_suffix; [|done]. by exists [b]. }
  pose proof (take_char_app (b :: r)) as Ha. pose proof (take_char_length b r) as Hl. destruct (take_char (b :: r)) as [t rest]. cbn [fst snd] in *.
  assert (Ht : t <> []) by (intros ->; cbn in Ha; subst; cbn in Hl; lia). destruct t as [|x t]; [done|]. injection Ha as -> Ha.
  apply steps_add; [done| | |done]; [rewrite <-Ha; by eexists|]. intros _. cbn. by rewrite Ha.
Qed.

Lemma word_step_end fuel w s : word_end s = true -> starts_with_extglob_pattern extglob s || starts_with_proc_subst s = false ->
  word_step input extglob posix fuel w s = None.
Proof.
  destruct s as [|b r]; [done|]. cbn [word_end]. intros Hb [He Hp]%orb_false_iff. unfold word_step. by rewrite He, Hp, Hb.
Qed.

Lemma word_loop_total fuel w s : (2 * length s + 1 < fuel)%nat ->
  exists w' rest, lex_word_loop input extglob posix fuel w s = Ok (w', rest) /\ advances w s w' rest /\ word_end rest = true
    /\ (line_continuation_len s = None -> starts_with_proc_subst s || negb (word_end s) = true ->
        w_text w' <> [] /\ (length rest < length s)%nat).
Proof.
  revert w s. induction fuel as [|fuel IH]; intros w s Hf; [lia|]. cbn [lex_word_loop].
  destruct (match s with b :: _ => starts_with_extglob_pattern extglob s || starts_with_proc_subst s || negb (is_word_metacharacter b) | [] => false end) eqn:Es.
  - destruct s as [|b r]; [done|]. pose proof (word_step_total (S fuel) w (b :: r) ltac:(lia) Es) as (w1 & r1 & -> & (Hs1 & Hp1 & Ht1) & Hl & Hn).
    cbn [length] in Hf. destruct (IH w1 r1) as (w' & rest & -> & (Hs2 & Hp2 & Ht2) & He & _); [lia|].
    exists w', rest. split; [done|]. split.
    { split; [by etrans|]. split; [|auto]. intros Hpl. rewrite Hp2, Hp1; [done..|]. by eapply plain_suffix. }
    split; [done|]. intros Hc _. split; [auto|]. apply suffix_len in Hs2. cbn. lia.
  - assert (He : word_end s = true /\ starts_with_extglob_pattern extglob s || starts_with_proc_subst s = false).
    { destruct s as [|b r]; [done|]. apply orb_false_iff in Es as [? ?%negb_false_iff]. done. }
    destruct He as [He Hn]. rewrite word_step_end by done. exists w, s. split; [done|]. split; [by split|]. split; [done|].
    intros _ Hx. rewrite He in Hx. apply orb_false_iff in Hn as [_ Hn]. by rewrite Hn in Hx.
Qed.
End Words.

(** * The text between two tokens *)

Definition blank (b : Z) : bool := (b =? " "%b) || (b =? 9) || (b =? 13).

(** [gap g rest]: [g] is blanks, line continuations and comments that end where a line
    does, and [rest] follows it. *)
Inductive gap : bytes -> bytes -> Prop :=
| gap_nil rest : gap [] rest
| gap_blank b g rest : blank b = true -> gap g rest -> gap (b :: g) rest
| gap_continuation p g rest : line_continuation_len p = Some (length p) -> gap g rest -> gap (p ++ g) rest
| gap_comment c g rest : forallb (fun b => negb (b =? 10)) c = true ->
    match g ++ rest with [] => True | b :: _ => b = 10 end -> gap g rest -> gap ("#"%b :: c ++ g) rest.

Lemma span_holds p s : forallb p (span p s).1 = true.
Proof. induction s as [|b r IH]; [done|]. cbn. destruct (p b) eqn:E; [|done]. destruct (span p r). cbn in *. by rewrite E, IH. Qed.

Lemma span_stops p s : match (span p s).2 with [] => True | b :: _ => p b = false end.
Proof. induction s as [|b r IH]; [done|]. cbn. destruct (p b) eqn:E; [|done]. by destruct (span p r). Qed.

Lemma gap_blanks l g rest : forallb blank l = true -> gap g rest -> gap (l ++ g) rest.
Proof. induction l as [|b l IH]; [done|]. cbn. intros [Hb Hl]%andb_true_iff Hg. constructor; auto. Qed.

Lemma gap_app g1 g2 rest : gap g1 (g2 ++ rest) -> gap g2 rest -> gap (g1 ++ g2) rest.
Proof.
  intros H Hg. remember (g2 ++ rest) as x eqn:Ex. induction H as [r0|b g r0 Hb H IH|p g r0 Hp H IH|c g r0 Hc Hn H IH]; subst; cbn.
  - done.
  - constructor; auto.
  - rewrite <-app_assoc. constructor; auto.
  - rewrite <-app_assoc. apply gap_comment; [done| |auto]. by rewrite <-app_assoc.
Qed.

Lemma continuation_take s n : line_continuation_len s = Some n -> line_continuation_len (take n s) = Some (length (take n s)).
Proof.
  unfold line_continuation_len. destruct (starts_with ["\"%b; 10] s) eqn:E1; [|destruct (starts_with ["\"%b; 13; 10] s) eqn:E2; [|done]].
  - apply starts_with_app in E1 as (r & ->). by intros [= <-].
  - apply starts_with_app in E2 as (r & ->). by intros [= <-].
Qed.

Section Gaps.
Context (comments : bool) (st : LexState).

Lemma skip_comments_gap fuel s : exists g, s = g ++ skip_whitespace_and_comments comments fuel st s
  /\ gap g (skip_whitespace_and_comments comments fuel st s).
Proof.
  revert s. induction fuel as [|fuel IH]; intros s; [exists []; split; [done|constructor]|]. cbn [skip_whitespace_and_comments].
  pose proof (span_app blank s) as Ha. pose proof (span_holds blank s) as Hall. change (fun b => (b =? " "%b) || (b =? 9) || (b =? 13)) with blank.
  destruct (span blank s) as [blanks rest]. cbn [fst snd] in *.
  assert (Hstop : exists g, s = g ++ rest /\ gap g rest).
  { exists blanks. split; [done|]. rewrite <-(app_nil_r blanks). apply gap_blanks; [done|constructor]. }
  destruct rest as [|b r]; [done|]. destruct (decide (b = "#"%b)) as [->|Hne]; [|by repeat case_match; subst].
  destruct (comments && _); [|done]. set (p := fun b => negb (b =? 10)).
  destruct (IH (span p ("#"%b :: r)).2) as (g & Hg & Hgap). pose proof (span_app p r) as Hr. pose proof (span_holds p r) as Hc.
  pose proof (span_stops p r) as Hn. cbn [span] in *. change (p "#"%b) with true in *. cbv iota in *.
  destruct (span p r) as [c r']. cbn [fst snd] in *. set (rest := skip_whitespace_and_comments _ _ _ r') in *.
  exists (blanks ++ "#"%b :: c ++ g). split; [by rewrite <-Ha, <-Hr, Hg, <-!app_assoc; cbn; rewrite <-app_assoc|].
  apply gap_blanks; [done|]. apply gap_comment; [done| |done]. rewrite <-Hg. destruct r' as [|x r']; [done|].
  unfold p in Hn. apply negb_false_iff, Z.eqb_eq in Hn. done.
Qed.

Lemma skip_to_token_gap fuel s : exists g, s = g ++ skip_to_token comments fuel st s /\ gap g (skip_to_token comments fuel st s).
Proof.
  revert s. induction fuel as [|fuel IH]; intros s; [exists []; split; [done|constructor]|]. cbn [skip_to_token].
  destruct (skip_comments_gap (S (length s)) s) as (g1 & Hs & Hg1). set (s1 := skip_whitespace_and_comments _ _ _ s) in *.
  destruct (line_continuation_len s1) as [n|] eqn:En; [|by exists g1].
  pose proof (continuation_inv _ _ En) as (p & x & Hx & Hd & Hp & Hn). rewrite Hd. destruct (IH x) as (g & Hg & Hgap).
  exists (g1 ++ p ++ g). split; [by rewrite Hs, Hx, Hg at 1; rewrite <-!app_assoc|].
  apply gap_app; [by rewrite <-app_assoc, <-Hg, <-Hx|]. constructor; [|done].
  apply continuation_take in En. by rewrite Hx, <-Hp, take_app_length in En.
Qed.

Lemma skip_comments_stops fuel s : (length s < fuel)%nat ->
  match skip_whitespace_and_comments comments fuel st s with [] => True | b :: _ => blank b = false end.
Proof.
  revert s. induction fuel as [|fuel IH]; intros s Hf; [lia|]. cbn [skip_whitespace_and_comments].
  change (fun b => (b =? " "%b) || (b =? 9) || (b =? 13)) with blank. pose proof (span_stops blank s) as Hn. pose proof (span_length blank s) as Hl.
  destruct (span blank s) as [blanks rest]. cbn [snd] in *. destruct rest as [|b r]; [done|].
  destruct (decide (b = "#"%b)) as [->|Hne]; [|by destruct b as [|p|p]; try done; repeat (destruct p as [p|p|]; try done)].
  destruct (comments && _); [|done]. apply IH.
  cbn [span] in *. change (negb ("#"%b =? 10)) with true. cbv iota. pose proof (span_length (fun b => negb (b =? 10)) r).
  destruct (span _ r). cbn in *. lia.
Qed.

Lemma skip_to_token_stops fuel s : (length s < fuel)%nat ->
  line_continuation_len (skip_to_token comments fuel st s) = None
  /\ match skip_to_token comments fuel st s with [] => True | b :: _ => blank b = false end.
Proof.
  revert s. induction fuel as [|fuel IH]; intros s Hf; [lia|]. cbn [skip_to_token].
  destruct (skip_comments_gap (S (length s)) s) as (g & Hs & _). pose proof (skip_comments_stops (S (length s)) s ltac:(lia)) as Hb.
  set (s1 := skip_whitespace_and_comments _ _ _ s) in *. destruct (line_continuation_len s1) as [n|] eqn:En; [|done].
  apply IH. pose proof (continuation_inv _ _ En) as (p & x & Hx & -> & Hp & Hn).
  apply (f_equal length) in Hs, Hx. rewrite length_app in Hs, Hx. lia.
Qed.
End Gaps.

(** * Tokens *)

(** The text a token stands for. *)
Definition kind_text (k : TokenKind) : bytes :=
  match k with
  | Newline => [10]
  | Bang => bs "!"
  | Time_ => bs "time"
  | TimeOpt => bs "-p"
  | TimeIgn => bs "--"
  | _ => default [] ('(t, _, _) ← List.find (fun '(_, k', _) => bool_decide (k = k')) (operators lex_start); Some (bs t))
  end.

Definition token_text (tok : Token) : bytes :=
  match t_value tok with NoValue => kind_text (t_kind tok) | TextValue t => t | NumberValue _ raw => raw end.

(** The kinds of the tokens that are scanned as a word. *)
Definition word_kind (k : TokenKind) : bool :=
  match k with Word | AssignmentWord | Number | Bang | Time_ | TimeOpt | TimeIgn => true | _ => false end.

(** Whether the token is an operator, that is its lexeme, or a word up to where a word ends. *)
Definition lexeme_of (tok : Token) (lexeme rest : bytes) : Prop :=
  if word_kind (t_kind tok) then word_end rest = true else t_value tok = NoValue /\ lexeme = kind_text (t_kind tok).

(** [tokenized n plain s l]: the tokens [l] take [s], the end of a text of [n] bytes,
    apart: gaps and lexemes alternate, the spans are those of the lexemes, and in a
    plain text the lexemes are the texts of the tokens. *)
Inductive tokenized (n : nat) (plain : bool) : bytes -> list Token -> Prop :=
| tokenized_end s : gap s [] -> tokenized n plain s [mkToken End_ NoValue n n 0]
| tokenized_token g lexeme rest tok l :
    gap g (lexeme ++ rest) -> lexeme <> [] -> t_kind tok <> End_ ->
    t_start tok = (n - length (lexeme ++ rest))%nat -> t_end tok = (n - length rest)%nat ->
    (plain = true -> lexeme = token_text tok) -> lexeme_of tok lexeme rest ->
    tokenized n plain rest l -> tokenized n plain (g ++ lexeme ++ rest) (tok :: l).

Section Tokens.
Context (input : bytes) (extglob posix comments : bool).

Lemma operators_text st k n s : operator_at st s = Some (k, n) ->
  exists rest, s = kind_text k ++ rest /\ n = length (kind_text k) /\ k <> End_ /\ kind_text k <> [] /\ word_kind k = false.
Proof.
  unfold operator_at. destruct (List.find _ (operators st)) as [[[t k'] e]|] eqn:Ef; [|done]. intros [= <- <-].
  apply find_some in Ef as [Hin [Hs He]%andb_true_iff]. apply starts_with_app in Hs as (rest & ->). exists rest.
  unfold operators in Hin. repeat (destruct Hin as [[= <- <- <-]|Hin]; [by vm_compute|]). done.
Qed.

Lemma word_token_spec follows w start rest st :
  let '(tok, st') := word_token input follows w start rest st in
  token_text tok = w_text w /\ t_kind tok <> End_ /\ word_kind (t_kind tok) = true /\ t_start tok = offset input start /\ t_end tok = offset input rest /\ done st' = done st.
Proof.
  unfold word_token. cbv zeta. destruct (is_assignment w); [done|]. match goal with |- context [match ?x with Some _ => _ | None => _ end] => destruct x; [done|] end.
  repeat match goal with
  | |- context [if ?c && bytes_eqb (w_text w) ?x then _ else _] =>
      let E := fresh in destruct (c && bytes_eqb (w_text w) x) eqn:E;
        [apply andb_true_iff in E as [_ E]; apply bytes_eqb_eq in E; rewrite E; by split_and!|]
  | |- context [if ?c && bytes_eqb (w_text w) ?x && ?d then _ else _] =>
      let E := fresh in destruct (c && bytes_eqb (w_text w) x && d) eqn:E;
        [apply andb_true_iff in E as [E _]; apply andb_true_iff in E as [_ E]; apply bytes_eqb_eq in E; rewrite E; by split_and!|]
  end.
  destruct ((w_flags w =? 0) && at_word_start (with_peek false st) && is_reserved_word_text (w_text w)); by split_and!.
Qed.

(** A token is taken from [s]. *)
Definition takes (s : bytes) (x : Res Empty_set (Token * LexState * bytes)) : Prop :=
  exists tok st' lexeme rest, x = Ok (tok, st', rest) /\ s = lexeme ++ rest /\ lexeme <> [] /\ t_kind tok <> End_
    /\ t_start tok = offset input s /\ t_end tok = offset input rest /\ done st' = false
    /\ (plain_text s = true -> lexeme = token_text tok) /\ lexeme_of tok lexeme rest.

Lemma lex_word_total st s : done st = false -> line_continuation_len s = None -> starts_with_proc_subst s || negb (word_end s) = true ->
  takes s (lex_word_or_number input extglob posix st s).
Proof.
  intros Hd Hc Hs. unfold lex_word_or_number.
  destruct (word_loop_total input extglob posix (2 * length s + 2) (mkWordSt [] 0 false None false 0) s) as (w & rest & -> & (Hsuf & Hp & _) & He & Hn); [lia|].
  destruct (Hn Hc Hs) as [Hne Hl]. destruct (w_text w) as [|x t] eqn:Ew; [done|]. cbn [is_nil].
  match goal with |- context [word_token ?a ?b ?c ?d ?e ?f] => pose proof (word_token_spec b c d e f) as Hw; destruct (word_token a b c d e f) as [tok st'] end.
  destruct Hw as (Ht & Hk & Hwk & Hst & Hen & Hdn). destruct Hsuf as [lexeme Hlex]. exists tok, st', lexeme, rest. split; [done|].
  split; [done|]. split; [intros ->; rewrite Hlex in Hl; cbn in Hl; lia|]. split_and!; [done|done|done|by rewrite Hdn| |unfold lexeme_of; by rewrite Hwk].
  intros Hpl. specialize (Hp Hpl). rewrite Ht, Ew. rewrite Hlex in Hp. symmetry. by apply (app_inv_tail rest).
Qed.

Lemma operator_total st b r : operator_at st (b :: r) = None -> blank b = false -> b <> 10 -> is_word_metacharacter b = false.
Proof.
  unfold operator_at. intros Ho Hb Hn. destruct (is_word_metacharacter b) eqn:Em; [|done]. exfalso.
  destruct (List.find _ (operators st)) as [[[t k] e]|] eqn:Ef; [done|]. pose proof (find_none _ _ Ef) as Hf.
  assert (Hx : exists t k, In (t, k, true) (operators st) /\ bs t = [b]).
  { unfold is_word_metacharacter, blank in *. to_prop. repeat (apply orb_true_iff in Em as [Em|Em]); apply Z.eqb_eq in Em; subst; try done;
      [exists "|"%string, Pipe|exists "&"%string, Ampersand|exists ";"%string, Semicolon|exists "<"%string, Less|exists ">"%string, Greater
      |exists "("%string, LParen|exists ")"%string, RParen]; (split; [|done]); unfold operators; cbn [In]; tauto. }
  destruct Hx as (t & k & Hin & Ht). specialize (Hf _ Hin). cbn in Hf. rewrite Ht in Hf. cbn in Hf. by rewrite Z.eqb_refl in Hf.
Qed.

Lemma emit_takes k s rest lexeme st : done st = false -> s = lexeme ++ rest -> lexeme = kind_text k -> lexeme <> [] -> k <> End_ -> word_kind k = false ->
  takes s (Ok (emit_simple input k s rest st, rest)).
Proof.
  intros Hd -> -> Hl Hk Hw. eexists _, _, (kind_text k), rest. split; [reflexivity|]. split_and!; try done. unfold lexeme_of. cbn. by rewrite Hw.
Qed.

Lemma next_token_total st s : done st = false ->
  let s' := skip_to_token comments (S (length s)) st s in
  (exists g, s = g ++ s' /\ gap g s')
  /\ match s' with
     | [] => exists st', done st' = true
         /\ next_token input extglob posix comments st s = Ok (Some (mkToken End_ NoValue (length input) (length input) 0, st', []))
     | _ => exists x, takes s' (Ok x) /\ next_token input extglob posix comments st s = Ok (Some x)
     end.
Proof.
  intros Hd s'. split; [apply skip_to_token_gap|]. destruct (skip_to_token_stops comments st (S (length s)) s ltac:(lia)) as [Hc Hb].
  unfold next_token. rewrite Hd. fold s' in Hc, Hb |- *. destruct s' as [|b r].
  { eexists. split; [|unfold emit_simple, offset; cbn [length]; rewrite Nat.sub_0_r; reflexivity]. done. }
  assert (Hw : starts_with_proc_subst (b :: r) || negb (is_word_metacharacter b) = true ->
    exists x, takes (b :: r) (Ok x)
      /\ match lex_word_or_number input extglob posix st (b :: r) with Ok r => Ok (Some r) | Err e => Err e | Fuel => Fuel end = @Ok Empty_set _ (Some x)).
  { intros Hs. destruct (lex_word_total st (b :: r) Hd Hc Hs) as (tok & st' & lexeme & rest & Hx & Ht). rewrite Hx.
    exists (tok, st', rest). split; [|done]. exists tok, st', lexeme, rest. by split. }
  destruct (b =? 10) eqn:E10.
  { apply Z.eqb_eq in E10 as ->. eexists. split; [|reflexivity]. by apply (emit_takes Newline (10 :: r) r [10]). }
  destruct (starts_with_proc_subst (b :: r)) eqn:Ep; [by apply Hw|]. cbn [orb] in Hw |- *.
  destruct (starts_with_redir_word (b :: r)) eqn:Er.
  { apply Hw. destruct (decide (b = "{"%b)) as [->|Hne]; [done|]. exfalso. revert Er. cbn. destruct b as [|p|p]; try done; repeat (destruct p as [p|p|]; try done). }
  unfold lex_operator. destruct (operator_at st (b :: r)) as [[k n]|] eqn:Eo.
  - pose proof (operators_text st k n _ Eo) as (rest & Hs & -> & Hk & Hne & Hwk). cbn [mbind option_bind]. rewrite Hs, drop_app_length. eexists. split; [|reflexivity].
    by apply (emit_takes k _ rest (kind_text k)).
  - cbn [mbind option_bind]. apply Hw. apply negb_true_iff. eapply operator_total; [done..|]. by apply Z.eqb_neq.
Qed.

Lemma tokens_loop_total fuel st s : (length s + 1 < fuel)%nat -> done st = false -> s `suffix_of` input ->
  exists l, tokens_loop input extglob posix comments fuel st s = Ok l /\ tokenized (length input) (plain_text input) s l.
Proof.
  revert st s. induction fuel as [|fuel IH]; intros st s Hf Hd Hsuf; [lia|]. cbn [tokens_loop].
  destruct (next_token_total st s Hd) as [(g & Hs & Hg) Hn]. set (s' := skip_to_token comments (S (length s)) st s) in *.
  destruct s' as [|b r] eqn:Es.
  - destruct Hn as (st' & Hd' & ->). destruct fuel as [|fuel]; [lia|]. cbn [tokens_loop]. unfold next_token. rewrite Hd'.
    eexists. split; [reflexivity|]. rewrite app_nil_r in Hs. subst g. by constructor.
  - destruct Hn as (x & (tok & st' & lexeme & rest & [= ->] & Hlex & Hne & Hk & Hst & Hen & Hd' & Hp & Hv) & ->).
    assert (Hl : (length rest + 1 < fuel)%nat).
    { apply (f_equal length) in Hs, Hlex. rewrite length_app in Hs, Hlex. destruct lexeme; [done|]. cbn in *. lia. }
    destruct (IH st' rest Hl Hd') as (l & -> & Ht).
    { etrans; [|exact Hsuf]. rewrite Hs, Hlex. exists (g ++ lexeme). by rewrite app_assoc. }
    eexists. split; [reflexivity|]. rewrite Hs, Hlex. rewrite Hlex in Hst, Hg. constructor; try done.
    intros Hpl. apply Hp. eapply plain_suffix; [|exact Hpl]. etrans; [|exact Hsuf]. rewrite Hs. by exists g.
Qed.

(** C14: Lexing ends on every input, and the tokens take it apart: lexemes, which are
    not empty, alternate with gaps of blanks, comments and line continuations up to the
    end, where the token [End] is; the span of a token is that of its lexeme, a word
    goes up to a metacharacter, the lexeme of an operator is its text, and in a plain text (ASCII, no continuations, no
    here-document in a word) every lexeme is the text of its token. *)
Theorem tokens_partition_the_input :
  exists l, tokens input extglob posix comments = Ok l /\ tokenized (length input) (plain_text input) input l.
Proof. apply tokens_loop_total; [lia|done|done]. Qed.
End Tokens.
