(* ===== verification/LexRound.v ===== *)
(** Reading back what was written: operators are read as long as they can be, and a
    command line of quoted arguments is one word for each argument, which expands to
    the argument. *)
From S2P Require Import Prelude Env Utf8 Buf Quote QuoteProps Expand Options Jobs Internal InternalProps TestEnv Pipeline PipelineProps Scan ScanProps Assign LexScan Lex LexProps LexTokens.

(** * Operators *)

Definition longest (l : list (bytes * bool)) (n : nat) (s : bytes) : Prop :=
  forall t, (t, true) ∈ l -> starts_with t s = true -> (length t <= n)%nat.

(** No text of the list is a proper prefix of a later one. *)
Fixpoint prefix_free (l : list bytes) : bool :=
  match l with
  | [] => true
  | t :: l => forallb (fun t' => negb (starts_with t t') || (length t' <=? length t)%nat) l && prefix_free l
  end.

Lemma starts_with_both a b s : starts_with a s = true -> starts_with b s = true -> (length a <= length b)%nat -> starts_with a b = true.
Proof.
  revert b s. induction a as [|x a IH]; intros b s; [done|]. destruct s as [|z s]; [done|]. destruct b as [|y b]; [cbn; lia|]. cbn.
  intros [->%Z.eqb_eq Ha]%andb_true_iff [->%Z.eqb_eq Hb]%andb_true_iff Hl. rewrite Z.eqb_refl. apply (IH b s); [done..|lia].
Qed.

Lemma find_longest {A} (l : list (string * A * bool)) s t a e : prefix_free (map (fun '(t, _, _) => bs t) l) = true ->
  List.find (fun '(t, _, enabled) => starts_with (bs t) s && enabled) l = Some (t, a, e) ->
  longest (map (fun '(t, _, e) => (bs t, e)) l) (length (bs t)) s.
Proof.
  induction l as [|[[t0 a0] e0] l IH]; [done|]. cbn. intros [Hp Hl]%andb_true_iff Hf t' Hin Hs.
  destruct (starts_with (bs t0) s && e0) eqn:E0.
  - injection Hf as -> -> ->. apply andb_true_iff in E0 as [Ht _]. apply elem_of_cons in Hin as [[= -> _]|Hin]; [done|].
    destruct (decide (length t' <= length (bs t))%nat) as [|Hgt]; [done|]. exfalso. rewrite forallb_forall in Hp.
    apply list_elem_of_In, in_map_iff in Hin as ([[t2 a2] e2] & [= <- ->] & Hin). specialize (Hp (bs t2) (in_map (fun '(t, _, _) => bs t) _ _ Hin)).
    rewrite (starts_with_both _ _ s) in Hp by (done || lia). cbn in Hp. apply Nat.leb_le in Hp. lia.
  - apply elem_of_cons in Hin as [[= -> <-]|Hin]; [by rewrite Hs in E0|]. by eapply IH.
Qed.

(** The operator taken is the longest that is one at that place, and it is none only where
    no operator starts. *)
Lemma operator_longest st s :
  match operator_at st s with
  | Some (k, n) => (exists rest, s = kind_text k ++ rest) /\ n = length (kind_text k)
      /\ longest (map (fun '(t, _, e) => (bs t, e)) (operators st)) n s
  | None => forall t, (t, true) ∈ map (fun '(t, _, e) => (bs t, e)) (operators st) -> starts_with t s = false
  end.
Proof.
  destruct (operator_at st s) as [[k n]|] eqn:Eo.
  - pose proof (operators_text st k n s Eo) as (rest & Hs & Hn & _). split; [by exists rest|]. split; [done|].
    unfold operator_at in Eo. destruct (List.find _ (operators st)) as [[[t k'] e]|] eqn:Ef; [|done]. injection Eo as <- <-.
    replace (String.length t) with (length (bs t)); [|clear; induction t; [done|]; by cbn; f_equal]. eapply find_longest; [|exact Ef]. done.
  - intros t Hin. unfold operator_at in Eo. destruct (List.find _ (operators st)) as [[[t' k'] e]|] eqn:Ef; [done|].
    apply list_elem_of_In, in_map_iff in Hin as ([[t2 a2] e2] & [= <- ->] & Hin). pose proof (find_none _ _ Ef _ Hin) as H. cbn in H.
    by rewrite andb_true_r in H.
Qed.

(** * Quoted words *)

Section Quoted.
Context (input : bytes) (extglob posix comments : bool).

Notation word_loop := (lex_word_loop input extglob posix).

(** Reads [t] and adds it to the word with [flags], whatever follows. *)
Definition reads (t : bytes) (flags : Z) : Prop :=
  forall fuel w rest, (2 * length (t ++ rest) + 1 < fuel)%nat ->
  exists fuel', (2 * length rest + 1 < fuel')%nat /\ word_loop fuel w (t ++ rest) = word_loop fuel' (w_add t flags w) rest.

Lemma w_add_add t1 f1 t2 f2 w : w_add t2 f2 (w_add t1 f1 w) = w_add (t1 ++ t2) (Z.lor f1 f2) w.
Proof. unfold w_add. cbn. by rewrite app_assoc, Z.lor_assoc. Qed.

Lemma reads_app t1 f1 t2 f2 : reads t1 f1 -> reads t2 f2 -> reads (t1 ++ t2) (Z.lor f1 f2).
Proof.
  intros H1 H2 fuel w rest Hf. rewrite <-app_assoc in *. destruct (H1 fuel w (t2 ++ rest) Hf) as (fuel1 & Hf1 & ->).
  destruct (H2 fuel1 (w_add t1 f1 w) rest Hf1) as (fuel2 & Hf2 & ->). exists fuel2. by rewrite w_add_add.
Qed.

Lemma reads_step t flags : t <> [] ->
  (forall fuel w rest, word_step input extglob posix (S fuel) w (t ++ rest) = Some (Ok (w_add t flags w, rest))) -> reads t flags.
Proof.
  intros Ht Hs fuel w rest Hf. destruct fuel as [|fuel]; [lia|]. exists fuel. cbn [lex_word_loop]. rewrite Hs. split; [|done].
  rewrite length_app in Hf. destruct t; [done|]. cbn in Hf. lia.
Qed.

Lemma reads_escaped c : c = "'"%b -> reads ["\"%b; c] W_QUOTED.
Proof. intros ->. apply reads_step; [done|]. intros fuel w rest. unfold word_step. by destruct extglob. Qed.

Lemma reads_single p : one_byte p "'"%b = false -> reads ("'"%b :: p ++ ["'"%b]) W_QUOTED.
Proof.
  intros Hp. apply reads_step; [done|]. intros fuel w rest. cbn [app]. rewrite <-app_assoc. cbn [app]. unfold word_step.
  replace (starts_with_extglob_pattern extglob _) with false by (unfold starts_with_extglob_pattern; destruct p; by destruct extglob).
  replace (starts_with_proc_subst _) with false by (by destruct p). cbn [is_word_metacharacter Z.eqb Pos.eqb orb].
  rewrite single_closed by done. reflexivity.
Qed.

Lemma closed_app q a b : closed q a = true -> closed q b = true -> closed q (a ++ b) = true.
Proof.
  intros Ha Hb. induction a as [|x|x y r IH1 IH2] using bytes_two_ind; [done| |].
  - cbn in Ha |- *. apply andb_true_iff in Ha as [-> Ha]. by destruct (x =? "\"%b).
  - cbn [app closed] in Ha |- *. apply andb_true_iff in Ha as [-> Ha]. destruct (x =? "\"%b); [by apply IH1|by apply IH2].
Qed.

Lemma closed_ansi src : closed "'"%b (concat (map ansi_escape src)) = true.
Proof.
  induction src as [|b src IH]; [done|]. cbn [map concat]. apply closed_app; [|done].
  unfold ansi_escape, octal_escape. repeat match goal with |- closed _ (if ?c then _ else _) = true => destruct c eqn:? end; try done.
  - cbn. assert (Hd : forall x, 0 <= x -> (48 + x =? "'"%b) = false /\ (48 + x =? "\"%b) = false \/ 43 < x) by (intros x; lia).
    unfold in_range in *. assert (0 <= b <= 127) by (to_prop; destruct (b =? 127) eqn:?; to_prop; [lia|]; repeat (apply orb_true_iff in Heqb0 as [?|?]); to_prop; lia).
    assert (0 <= b / 8 mod 8 < 8) by (apply Z.mod_pos_bound; lia). assert (0 <= b mod 8 < 8) by (apply Z.mod_pos_bound; lia).
    repeat match goal with |- context [48 + ?x =? ?y] => replace (48 + x =? y) with false by (symmetry; apply Z.eqb_neq; cbn; lia) end. done.
  - cbn. to_prop. by rewrite (proj2 (Z.eqb_neq b 39)), (proj2 (Z.eqb_neq b 92)).
Qed.

Lemma reads_ansi t : closed "'"%b t = true -> reads (bs "$'" ++ t ++ bs "'") (Z.lor W_HASDOLLAR W_QUOTED).
Proof.
  intros Ht. apply reads_step; [done|]. intros fuel w rest. change (bs "$'" ++ t ++ bs "'") with ("$"%b :: "'"%b :: t ++ bs "'"). cbn [app].
  rewrite <-app_assoc. cbn [app]. unfold word_step.
  replace (starts_with_extglob_pattern extglob _) with false by (by destruct extglob). replace (starts_with_proc_subst _) with false by done.
  cbn [is_word_metacharacter Z.eqb Pos.eqb orb scan_dollar andb negb]. unfold copied. change (bs "'" ++ rest) with ("'"%b :: rest).
  rewrite quoted_closed by done. reflexivity.
Qed.

(** The flags of a quoted word. *)
Definition quote_flags (src : bytes) : Z :=
  if bytes_eqb src (bs "'") || negb (existsb is_control src) then W_QUOTED else Z.lor W_HASDOLLAR W_QUOTED.

Lemma quote_flags_set src : quote_flags src =? 0 = false.
Proof. unfold quote_flags. destruct (_ || _); reflexivity. Qed.

Lemma reads_single_quoted n src : (length src <= n)%nat -> reads ("'"%b :: concat (map single_escape src) ++ ["'"%b]) W_QUOTED.
Proof.
  revert src. induction n as [|n IH]; intros src Hn; (destruct (split_quote src) as [Hc|(p & q & -> & Hp)];
    [rewrite (single_escape_clean src Hc); apply reads_single, not_true_is_false; unfold one_byte; rewrite existsb_exists;
     intros (x & Hx & <-%Z.eqb_eq); rewrite forallb_forall in Hc; by apply Hc in Hx|]).
  { rewrite length_app in Hn. cbn in Hn. lia. }
  rewrite map_app, concat_app, single_escape_clean by done. cbn [map concat].
  change (single_escape "'"%b) with ["'"%b; "\"%b; "'"%b; "'"%b]. cbn [app].
  replace ("'"%b :: (p ++ "'"%b :: "\"%b :: "'"%b :: "'"%b :: concat (map single_escape q)) ++ ["'"%b])
    with (("'"%b :: p ++ ["'"%b]) ++ ["\"%b; "'"%b] ++ ("'"%b :: concat (map single_escape q) ++ ["'"%b])) by (cbn; rewrite <-!app_assoc; done).
  apply (reads_app _ W_QUOTED _ W_QUOTED); [|apply (reads_app _ W_QUOTED _ W_QUOTED)].
  - apply reads_single, not_true_is_false. unfold one_byte. rewrite existsb_exists. intros (x & Hx & <-%Z.eqb_eq).
    rewrite forallb_forall in Hp. by apply Hp in Hx.
  - by apply reads_escaped.
  - apply IH. rewrite length_app in Hn. cbn in Hn. lia.
Qed.

Lemma reads_shell_quote src : reads (shell_quote src) (quote_flags src).
Proof.
  unfold shell_quote, quote_flags, is_control. destruct (bytes_eqb src (bs "'")); [by apply (reads_escaped "'"%b)|]. cbn [orb].
  destruct (negb (existsb _ src)); [by eapply reads_single_quoted|]. apply reads_ansi, closed_ansi.
Qed.

(** The three ways a quoted word begins. *)
Lemma shell_quote_head src rest : exists b r, shell_quote src ++ rest = b :: r
  /\ (b = "'"%b \/ b = "$"%b \/ b = "\"%b /\ exists r', r = "'"%b :: r').
Proof.
  unfold shell_quote. destruct (bytes_eqb src (bs "'")).
  - eexists _, _. split; [reflexivity|]. right; right. split; [done|]. by eexists.
  - destruct (negb _); eexists _, _; (split; [reflexivity|]); auto.
Qed.

Lemma skip_to_quote pre st src rest : pre = [] \/ pre = [" "%b] ->
  skip_to_token comments (S (length (pre ++ shell_quote src ++ rest))) st (pre ++ shell_quote src ++ rest) = shell_quote src ++ rest.
Proof.
  destruct (shell_quote_head src rest) as (b & r & -> & Hb). destruct Hb as [-> | [-> | (-> & r' & ->)]]; by intros [-> | ->].
Qed.

(** A word may end before [rest]. *)
Definition ends_word (rest : bytes) : Prop := word_end rest = true /\ starts_with_extglob_pattern extglob rest || starts_with_proc_subst rest = false.

Lemma blank_ends_word rest : rest = [] \/ (exists r, rest = " "%b :: r) -> ends_word rest.
Proof. intros [-> | (r & ->)]; [done|]. split; [done|]. cbn. destruct r; [done|]. by rewrite andb_false_r. Qed.

Lemma quoted_word_token st src rest : ends_word rest ->
  exists st', lex_word_or_number input extglob posix st (shell_quote src ++ rest)
    = Ok (mkToken Word (TextValue (shell_quote src)) (offset input (shell_quote src ++ rest)) (offset input rest) (quote_flags src), st', rest)
  /\ done st' = done st.
Proof.
  intros Hends. unfold lex_word_or_number.
  destruct (reads_shell_quote src (2 * length (shell_quote src ++ rest) + 2)%nat (mkWordSt [] 0 false None false 0) rest) as (fuel & Hf & ->); [lia|].
  destruct fuel as [|fuel]; [lia|]. cbn [lex_word_loop]. rewrite word_step_end by apply Hends.
  destruct (shell_quote_head src []) as (b & r & Hq & _). rewrite app_nil_r in Hq. cbn [w_add w_text app is_nil]. rewrite Hq. cbn [is_nil].
  unfold word_token. cbn [w_add eq_idx is_assignment w_text w_flags app Z.lor]. 
  rewrite Z.lor_0_l, quote_flags_set. cbn [andb]. eexists. split; [reflexivity|done].
Qed.

Lemma next_quoted_token pre st src rest : pre = [] \/ pre = [" "%b] -> ends_word rest -> done st = false ->
  exists st', next_token input extglob posix comments st (pre ++ shell_quote src ++ rest)
    = Ok (Some (mkToken Word (TextValue (shell_quote src)) (offset input (shell_quote src ++ rest)) (offset input rest) (quote_flags src), st', rest))
  /\ done st' = false.
Proof.
  intros Hpre Hr Hd. destruct (quoted_word_token st src rest Hr) as (st' & Hw & Hd'). exists st'. split; [|by rewrite Hd']. unfold next_token. rewrite Hd, (skip_to_quote pre st src rest Hpre), Hw.
  destruct (shell_quote_head src rest) as (b & r & -> & Hb). destruct Hb as [-> | [-> | (-> & r' & ->)]]; [| |reflexivity].
  - replace (starts_with_proc_subst _) with false by (by destruct r). reflexivity.
  - replace (starts_with_proc_subst _) with false by (by destruct r). reflexivity.
Qed.
End Quoted.

(** Arguments, quoted, with blanks between them. *)
Fixpoint command_line (args : list bytes) : bytes :=
  match args with
  | [] => []
  | a :: l => shell_quote a ++ match l with [] => [] | _ => " "%b :: command_line l end
  end.

Definition is_end (tok : Token) : Prop := t_kind tok = End_ /\ t_value tok = NoValue.

Definition quoted_token (a : bytes) (tok : Token) : Prop :=
  t_kind tok = Word /\ t_value tok = TextValue (shell_quote a) /\ t_flags tok = quote_flags a.

Lemma command_line_tokens input extglob posix comments args : forall pre fuel st, pre = [] \/ pre = [" "%b] ->
  (length (pre ++ command_line args) + 1 < fuel)%nat -> done st = false ->
  exists l e, tokens_loop input extglob posix comments fuel st (pre ++ command_line args) = Ok (l ++ [e])
    /\ Forall2 quoted_token args l /\ is_end e.
Proof.
  induction args as [|a args IH]; intros pre fuel st Hpre Hf Hd.
  - destruct fuel as [|[|fuel]]; [lia..|]. exists []. eexists. split; [|split; [constructor|]].
    + cbn [command_line]. cbn [tokens_loop]. unfold next_token. rewrite Hd. destruct Hpre as [-> | ->]; reflexivity.
    + done.
  - destruct fuel as [|fuel]; [lia|]. cbn [command_line tokens_loop]. set (rest := match args with [] => [] | _ => _ end).
    assert (Hr : rest = [] \/ exists r, rest = " "%b :: r) by (unfold rest; destruct args; [by left|right; by eexists]).
    destruct (next_quoted_token input extglob posix comments pre st a rest Hpre (blank_ends_word extglob rest Hr) Hd) as (st' & Hn & Hd').
    rewrite Hn. assert (Hl : exists pre', (pre' = [] \/ pre' = [" "%b]) /\ rest = pre' ++ command_line args).
    { unfold rest. destruct args as [|a2 args]; [exists []; auto|]. exists [" "%b]. auto. }
    destruct Hl as (pre' & Hpre' & Hrest). rewrite Hrest. destruct (IH pre' fuel st' Hpre') as (l & e & -> & HF & He); [|done|].
    + rewrite <-Hrest. cbn [command_line] in Hf. fold rest in Hf. rewrite !length_app in Hf.
      destruct (shell_quote_head a []) as (b & r & Hq & _). rewrite app_nil_r in Hq. rewrite Hq in Hf. cbn in Hf. lia.
    + eexists (_ :: l), e. split; [reflexivity|]. split; [|done]. constructor; [done|exact HF].
Qed.

Section Main.
Context {E : Type} `{Environment E} `{Parameters E} `{Passwd} `{CommandRunner E} `{Constructs E} `{Globbing E}.

(** C6: A command line written from quoted arguments reads back: the lexer finds one word for
    each argument, in order, and the whole expansion of that word (braces, substitutions, field
    splitting, pathnames, quote removal), in any context below the limit of nesting, is exactly
    the argument. The arguments are bytes other than NUL, and either brace expansion is off or
    they hold no control characters (quoted with [$'..'], in which the brace scanner misses
    escaped quotes). *)
Theorem quoted_command_line_reads_back (extglob posix comments : bool) (args : list bytes) (F : Z)
    (Hnz : Forall (Forall nz_byte) args) (Hbr : has F NO_BRACE = true \/ Forall (fun a => existsb is_control a = false) args) :
  exists l e, tokens (command_line args) extglob posix comments = Ok (l ++ [e]) /\ is_end e
  /\ Forall2 (fun a tok => t_kind tok = Word /\ exists t, t_value tok = TextValue t
       /\ forall c : ExpCtx E, 0 <= depth c < EXPANSION_NESTING_MAX ->
          (pipeline_run [mkWord t (t_flags tok)] F c).1 = Ok [mkWord (shell_text a) (t_flags tok)]) args l.
Proof.
  destruct (command_line_tokens (command_line args) extglob posix comments args [] (length (command_line args) + 2)%nat lex_start) as (l & e & Hl & HF & He);
    [by left|cbn; lia|done|].
  exists l, e. split; [exact Hl|]. split; [done|]. clear Hl He e. revert Hnz Hbr. induction HF as [|a tok args l (Hk & Hv & Hfl) HF IH]; intros Hnz Hbr; [constructor|].
  apply Forall_cons in Hnz as [Ha Hnz]. constructor.
  - split; [done|]. exists (shell_quote a). split; [done|]. intros c Hc. rewrite Hfl.
    destruct (run_shell_quote a (quote_flags a) (has F NO_TILDE)
      (with_depth (depth c + 1) (with_split_fields (has F SPLIT_FIELDS) c)) Ha) as (ps & q & c' & Hr & Hcn & HFp & Hne & _).
    { unfold quote_flags. destruct (_ || _); by split_and!. }
    rewrite (pipeline_protected _ _ _ _ ps q c' Hc); [by unfold pieces_content; rewrite Hcn| |done..].
    apply brace_stage_none. destruct Hbr as [Hb|Hb]; [by left|]. apply Forall_cons in Hb as [Hb _]. do 3 right. by apply brace_shell_quote.
  - apply IH; [done|]. destruct Hbr as [Hb|Hb]; [by left|right]. by apply Forall_cons in Hb as [_ Hb].
Qed.
End Main.

Module LexExample.
Definition lexed (text : bytes) : list (TokenKind * bytes) :=
  match tokens text false false true with Ok l => map (fun tok => (t_kind tok, token_text tok)) l | _ => [] end.

Lemma quoted_command_line_reads_back_witness :
  exists l e, tokens (command_line [bs "it's"; bs "{a,b} *"; bs ""]) false false true = Ok (l ++ [e]) /\ is_end e
  /\ Forall2 (fun a tok => t_kind tok = Word /\ exists t, t_value tok = TextValue t
       /\ forall c : ExpCtx TestEnv, 0 <= depth c < EXPANSION_NESTING_MAX ->
          (pipeline_run [mkWord t (t_flags tok)] (Z.lor SPLIT_FIELDS EXPAND_GLOB) c).1 = Ok [mkWord (shell_text a) (t_flags tok)])
       [bs "it's"; bs "{a,b} *"; bs ""] l.
Proof.
  apply (quoted_command_line_reads_back false false true [bs "it's"; bs "{a,b} *"; bs ""] (Z.lor SPLIT_FIELDS EXPAND_GLOB)).
  - repeat constructor; by vm_compute.
  - right. repeat constructor.
Defined.

(** [e] with an acute accent. *)
Definition accented : bytes := [195; 169].
Definition lines (l : list string) : bytes := concat (map (fun t => bs t ++ [10]) l).

(** Tokens of a whole command, and its operators and words. *)
Example script_tokens :
  lexed (bs "if a=1 cmd; then b>|f 2>&1 # text") =
  [(Word, bs "if"); (AssignmentWord, bs "a=1"); (Word, bs "cmd"); (Semicolon, bs ";"); (Word, bs "then"); (Word, bs "b");
   (GreaterBar, bs ">|"); (Word, bs "f"); (Number, bs "2"); (GreaterAnd, bs ">&"); (Number, bs "1"); (End_, [])].
Proof. reflexivity. Qed.

(** Where the lexer misreads a word: a character outside ASCII in [$((..))] is replaced by
    one for each of its bytes; a parenthesis after [$(..)] that is closed on the line of its
    here-document's delimiter is swallowed; a delimiter outside ASCII is never recognised;
    [x+=1] is no assignment word, so that a compound assignment after it is refused. *)
Theorem words_misread :
  lexed (bs "$((" ++ accented ++ bs "))") = [(Word, bs "$((" ++ [195; 131; 194; 169] ++ bs "))"); (End_, [])]
  /\ lexed (lines ["(cat $(cat <<E"; "x"]%string ++ bs "E))") = [(LParen, bs "("); (Word, bs "cat"); (Word, lines ["$(cat <<E"; "x"]%string ++ bs "E))"); (End_, [])]
  /\ lexed (bs "$(cat <<" ++ accented ++ [10] ++ accented ++ [10] ++ bs ") b")
     = [(Word, bs "$(cat <<" ++ accented ++ [10] ++ accented ++ [10] ++ bs ") b"); (End_, [])]
  /\ lexed (bs "x+=1 y=(2)") = [(Word, bs "x+=1"); (AssignmentWord, bs "y=(2)"); (End_, [])].
Proof. vm_compute. repeat split. Qed.
End LexExample.
