(* ===== verification/Ast.v ===== *)
(** Commands as the parser builds them (crates/parser/src/lib.rs): words with their
    place in the source, redirections, conditions and commands. *)
From S2P Require Import Prelude Lex.

Definition CONN_AND_AND : Z := 1.
Definition CONN_OR_OR : Z := 2.
Definition CONN_PIPE : Z := 3.
Definition CONN_BAR_AND : Z := 4.
Definition CONN_SEMI : Z := 5.
Definition CONN_AMP : Z := 6.
Definition CONN_NEWLINE : Z := 7.

Definition CMD_WANT_SUBSHELL : Z := 2 ^ 0.
Definition CMD_INVERT_RETURN : Z := 2 ^ 2.
Definition CMD_TIME_PIPELINE : Z := 2 ^ 7.
Definition CMD_TIME_POSIX : Z := 2 ^ 8.
Definition CMD_COPROC_SUBSHELL : Z := 2 ^ 12.
Definition CASEPAT_FALLTHROUGH : Z := 1.
Definition CASEPAT_TESTNEXT : Z := 2.
Definition REDIR_VARASSIGN : Z := 1.
Definition HEREDOC_MAX : nat := 16.

(** [WordDesc], with the bounds of its span. *)
Record SourceWord := mkSource { s_text : bytes; s_flags : Z; s_start : nat; s_end : nat; s_raw : option bytes }.

Inductive RedirectInstruction :=
| OutputDirection | InputDirection | InputaDirection | AppendingTo | ReadingUntil | ReadingString | DuplicatingInput
| DuplicatingOutput | DeblankReadingUntil | CloseThis | ErrAndOut | InputOutput | OutputForce | DuplicatingInputWord
| DuplicatingOutputWord | MoveInput | MoveOutput | MoveInputWord | MoveOutputWord | AppendErrAndOut.

Inductive Redirectee := RedirecteeFd (fd : Z) | RedirecteeWord (w : SourceWord).
Inductive Redirector := RedirectorFd (fd : Z) | RedirectorVar (name : bytes).

Record Redirect := mkRedirect {
  redirector : Redirector;
  rflags : Z;
  instruction : RedirectInstruction;
  redirectee : Redirectee;
  here_doc_eof : option bytes;
  here_doc_body : option bytes;
}.

Inductive CondType := CondAnd | CondOr | CondUnary | CondBinary | CondTerm | CondExpr.

Inductive CondCommand := mkCond {
  cond_type : CondType;
  cond_op : option SourceWord;
  cond_left : option CondCommand;
  cond_right : option CondCommand;
  cond_leaf_word : option SourceWord;
}.

(** [Command] and [CommandData]; a clause of [case] is its patterns, its action and its
    flags. *)
Inductive Command :=
| mkCommand (data : CommandData) (flags : Z) (line : Z) (redirects : list Redirect)
with CommandData : Type :=
| CFor (name : SourceWord) (map_list : option (list SourceWord)) (action : Command) (line : Z)
| CCase (word : SourceWord) (clauses : list (list SourceWord * option Command * Z)) (line : Z)
| CWhile (test action : Command)
| CUntil (test action : Command)
| CIf (test true_case : Command) (false_case : option Command)
| CConnection (first second : Command) (connector : Z)
| CSimple (words : list SourceWord) (redirects : list Redirect)
| CFunctionDef (name : SourceWord) (command : Command) (line : Z)
| CGroup (command : Command)
| CSelect (name : SourceWord) (map_list : option (list SourceWord)) (action : Command) (line : Z)
| CArith (expression : SourceWord)
| CCond (condition : CondCommand)
| CArithFor (init test step : option SourceWord) (action : Command)
| CSubshell (command : Command) (flags : Z)
| CCoproc (name : option SourceWord) (command : Command).

Definition command_data (c : Command) : CommandData := match c with mkCommand data _ _ _ => data end.
Definition command_flags (c : Command) : Z := match c with mkCommand _ flags _ _ => flags end.
Definition line_of (c : Command) : Z := match c with mkCommand _ _ line _ => line end.
Definition command_redirects (c : Command) : list Redirect := match c with mkCommand _ _ _ redirects => redirects end.

(** A command with no flags, line or redirections of its own. *)
Definition bare (data : CommandData) : Command := mkCommand data 0 0 [].

Definition with_flags (flags : Z) (c : Command) : Command :=
  mkCommand (command_data c) (Z.lor (command_flags c) flags) (line_of c) (command_redirects c).

Definition with_redirect (r : Redirect) (c : Command) : Command :=
  mkCommand (command_data c) (command_flags c) (line_of c) (command_redirects c ++ [r]).

Definition null_command : Command := bare (CSimple [] []).

Definition connect (left right : Command) (connector : Z) : Command :=
  mkCommand (CConnection left right connector) 0 (line_of left) [].

(** [|&] adds [2>&1] to the command on its left. *)
Definition add_stderr_to_stdout_redirect (c : Command) : Command :=
  let r := mkRedirect (RedirectorFd 2) 0 DuplicatingOutput (RedirecteeFd 1) None None in
  match command_data c with
  | CSimple words redirects => mkCommand (CSimple words (redirects ++ [r])) (command_flags c) (line_of c) (command_redirects c)
  | _ => with_redirect r c
  end.

Definition cond_leaf (word : SourceWord) : CondCommand := mkCond CondTerm None None None (Some word).

Definition default_redirect_fd (i : RedirectInstruction) : Z :=
  match i with
  | InputDirection | InputaDirection | ReadingUntil | ReadingString | DeblankReadingUntil | DuplicatingInput | DuplicatingInputWord
  | MoveInput | MoveInputWord | InputOutput | CloseThis => 0
  | _ => 1
  end.
