(* ===== verification/ParseText.v ===== *)
(** Texts the command parser looks at by itself: the clauses of an arithmetic [for],
    names of redirections, delimiters and lines of here-documents, line numbers
    (crates/parser/src/lib.rs). *)
From S2P Require Import Prelude Env Utf8 Buf Quote Expand Options Jobs Scan LexScan Lex Ast.

(** * Arithmetic [for] *)

(** The state of the quotes. *)
Record QuoteSt := mkQuote { single_quoted : bool; double_quoted : bool; escaped_next : bool }.

Definition no_quotes : QuoteSt := mkQuote false false false.

(** The state after a byte that is escaped, quoted or quotes; [None] for another byte. *)
Definition quote_byte (q : QuoteSt) (b : Z) : option QuoteSt :=
  if escaped_next q then Some (mkQuote (single_quoted q) (double_quoted q) false)
  else if b =? "\"%b then Some (mkQuote (single_quoted q) (double_quoted q) true)
  else if single_quoted q then Some (mkQuote (negb (b =? "'"%b)) (double_quoted q) false)
  else if double_quoted q then Some (mkQuote false (negb (b =? dquote)) false)
  else None.

(** [skip_arith_for_nested]: the text after the closing byte. *)
Fixpoint skip_arith_for_nested (fuel : nat) (open close : Z) (depth : nat) (q : QuoteSt) (s : bytes) : bytes :=
  match fuel, s with
  | S fuel, b :: r =>
      match quote_byte q b with
      | Some q => skip_arith_for_nested fuel open close depth q r
      | None =>
          if b =? "'"%b then skip_arith_for_nested fuel open close depth (mkQuote true false false) r
          else if b =? dquote then skip_arith_for_nested fuel open close depth (mkQuote false true false) r
          else
            match (if b =? "$"%b then r else []) with
            | "("%b :: r' => skip_arith_for_nested fuel open close depth q (skip_arith_for_nested fuel "("%b ")"%b 1 no_quotes r')
            | "{"%b :: r' => skip_arith_for_nested fuel open close depth q (skip_arith_for_nested fuel "{"%b "}"%b 1 no_quotes r')
            | _ =>
                if b =? open then skip_arith_for_nested fuel open close (S depth) q r
                else if b =? close then if (depth <=? 1)%nat then r else skip_arith_for_nested fuel open close (pred depth) q r
                else skip_arith_for_nested fuel open close depth q r
            end
      end
  | _, _ => s
  end.

(** The text of a clause, trimmed on both sides and at the start. *)
Definition arith_for_clause_text (t : bytes) : bytes * bytes :=
  if is_nil (trim t) then ([], []) else (trim t, trim_start t).

(** The loop of [split_arith_for_clauses]: [clause] is the text from the start of the
    current clause. *)
Fixpoint clauses_loop (fuel : nat) (parts : list (bytes * bytes)) (clause : bytes) (separators depth : nat) (q : QuoteSt) (s : bytes) :
    list (bytes * bytes) * nat :=
  match fuel, s with
  | S fuel, b :: r =>
      match quote_byte q b with
      | Some q => clauses_loop fuel parts clause separators depth q r
      | None =>
          match (if b =? "$"%b then r else []) with
          | "("%b :: r' => clauses_loop fuel parts clause separators depth q (skip_arith_for_nested fuel "("%b ")"%b 1 no_quotes r')
          | "{"%b :: r' => clauses_loop fuel parts clause separators depth q (skip_arith_for_nested fuel "{"%b "}"%b 1 no_quotes r')
          | _ =>
              if b =? "'"%b then clauses_loop fuel parts clause separators depth (mkQuote true false false) r
              else if b =? dquote then clauses_loop fuel parts clause separators depth (mkQuote false true false) r
              else if b =? "("%b then clauses_loop fuel parts clause separators (S depth) q r
              else if b =? ")"%b then clauses_loop fuel parts clause separators (pred depth) q r
              else if (b =? ";"%b) && (depth =? 0)%nat then
                if (length parts <? 2)%nat
                then clauses_loop fuel (parts ++ [arith_for_clause_text (take (length clause - length s) clause)]) r (S separators) depth q r
                else clauses_loop fuel parts clause (S separators) depth q r
              else clauses_loop fuel parts clause separators depth q r
          end
      end
  | _, _ => (parts ++ [arith_for_clause_text clause], separators)
  end.

Definition split_arith_for_clauses (t : bytes) : list (bytes * bytes) * nat := clauses_loop (S (length t)) [] t 0 0 no_quotes t.

(** * Words *)

Definition token_value_to_string (v : TokenValue) : bytes :=
  match v with NoValue => [] | TextValue t => t | NumberValue _ raw => raw end.

Definition token_to_text (tok : Token) : bytes :=
  match t_kind tok with Word | AssignmentWord | Number => token_value_to_string (t_value tok) | _ => [] end.

Definition kind_name (k : TokenKind) : string :=
  match k with
  | End_ => "EOF" | Newline => "newline" | Semicolon => ";" | Ampersand => "&" | Bang => "!" | Pipe => "|" | BarAnd => "|&" | AndAnd => "&&"
  | OrOr => "||" | Less => "<" | Greater => ">" | LessLess => "<<" | LessLessMinus => "<<-" | LessLessLess => "<<<"
  | GreaterGreater => ">>" | GreaterBar => ">|" | LessAnd => "<&" | GreaterAnd => ">&" | AndGreater => "&>"
  | AndGreaterGreater => "&>>" | LessGreater => "<>" | LParen => "(" | RParen => ")" | DblLParen => "((" | DblRParen => "))"
  | DblLBracket => "[[" | DblRBracket => "]]" | LBrace => "{" | RBrace => "}" | DblSemicolon => ";;" | SemiAmp => ";&"
  | DblSemiAmp => ";;&" | _ => "?"
  end.

Definition token_to_text_lossy (tok : Token) : bytes :=
  let t := token_to_text tok in if is_nil t then bs (kind_name (t_kind tok)) else t.

Definition update_arith_bracket_depth (tok : Token) (depth : nat) : nat :=
  fold_left (fun d b => if b =? "["%b then S d else if b =? "]"%b then pred d else d) (token_value_to_string (t_value tok)) depth.

Definition assignment_builtin_accepts_compound (name : bytes) : bool :=
  one_of name ["declare"; "typeset"; "local"; "readonly"; "export"; "eval"; "let"]%string.

Definition UNARY_TEST_OPS : list string :=
  ["-a"; "-b"; "-c"; "-d"; "-e"; "-f"; "-g"; "-h"; "-k"; "-n"; "-o"; "-p"; "-r"; "-s"; "-t"; "-u"; "-v"; "-w"; "-x"; "-z"; "-G"; "-L"; "-N";
   "-O"; "-R"; "-S"].
Definition BINARY_TEST_OPS : list string :=
  ["=="; "="; "!="; "=~"; "<"; ">"; "-eq"; "-ne"; "-lt"; "-le"; "-gt"; "-ge"; "-ef"; "-nt"; "-ot"].
Definition is_unary_test_op (t : bytes) : bool := one_of t UNARY_TEST_OPS.
Definition is_binary_test_op (t : bytes) : bool := one_of t BINARY_TEST_OPS.

(** * Kinds *)

Definition is_case_pattern_separator (k : TokenKind) : bool :=
  match k with RParen | Pipe | Newline | End_ | DblSemicolon | SemiAmp | DblSemiAmp => true | _ => false end.

Definition is_redirection_kind (k : TokenKind) : bool :=
  match k with
  | Less | Greater | LessLess | LessLessMinus | LessLessLess | GreaterGreater | GreaterBar | LessAnd | GreaterAnd | AndGreater
  | AndGreaterGreater | LessGreater => true
  | _ => false
  end.

Definition is_redirection_target (tok : Token) : bool :=
  match t_kind tok with Word | AssignmentWord | Number => true | _ => false end.

Inductive PatternCollectContext := PatCase | PatCond | PatCondRegex.

Definition pattern_word_stops_before (k : TokenKind) (context : PatternCollectContext) (depth : nat) : bool :=
  (depth =? 0)%nat
  && match context with
     | PatCase => is_case_pattern_separator k
     | _ => match k with DblRBracket | AndAnd | OrOr | RParen | Newline => true | _ => false end
     end.

Definition pattern_extglob_op_precedes (t : bytes) : bool :=
  match rev t with b :: _ => (b =? "@"%b) || (b =? "+"%b) || (b =? "*"%b) || (b =? "?"%b) || (b =? "!"%b) | [] => false end.

(** * Redirections *)

Definition is_shell_identifier (t : bytes) : bool := is_valid_name t.

Definition is_shell_array_reference (t : bytes) : bool :=
  match find_byte "["%b t with
  | Some open =>
      ends_with (bs "]") t && negb (open =? 0)%nat && is_shell_identifier (take open t)
      && negb (is_nil (slice t (S open) (length t - 1)))
  | None => false
  end.

Definition redir_word_name (t : bytes) : option bytes :=
  inner ← strip_prefix (bs "{") t;
  if ends_with (bs "}") inner then
    let inner := take (length inner - 1) inner in
    if is_shell_identifier inner || is_shell_array_reference inner then Some inner else None
  else None.

Definition is_redir_word_token (tok : Token) : bool :=
  match t_value tok with TextValue t => bool_decide (is_Some (redir_word_name t)) | _ => false end.

(** Quotes and backslashes are removed; a quoted run goes to its closing quote. *)
Fixpoint normalize_delimiter_loop (quote : option Z) (s : bytes) : bytes :=
  match s with
  | [] => []
  | b :: r =>
      match quote with
      | Some q => if b =? q then normalize_delimiter_loop None r else b :: normalize_delimiter_loop quote r
      | None =>
          if b =? "\"%b then match r with c :: r => c :: normalize_delimiter_loop None r | [] => [b] end
          else if (b =? "'"%b) || (b =? dquote) then normalize_delimiter_loop (Some b) r
          else b :: normalize_delimiter_loop None r
      end
  end.

Definition normalize_heredoc_delimiter (t : bytes) : bytes := normalize_delimiter_loop None t.

(** * Lines *)

(** The offsets at which lines start. *)
Definition line_starts (input : bytes) : list nat :=
  0%nat :: map S (List.filter (fun i => bool_decide (input !! i = Some 10)) (seq 0 (length input))).

Definition line_number_for_offset (input : bytes) (offset : nat) : Z :=
  let end_ := Nat.min offset (length input) in
  Z.of_nat (length (List.filter (fun start => (start <=? end_)%nat) (line_starts input))).

(** [heredoc_logical_line]: a line of a here-document, with the lines joined to it by a
    backslash: its text, where the next one starts, and whether it ended with a newline. *)
Fixpoint heredoc_logical_line (fuel : nat) (input : bytes) (remove_escaped_newlines : bool) (cursor : nat) :
    option (bytes * nat * bool) :=
  match fuel with
  | O => None
  | S fuel =>
      let '(physical, rest) := span (fun b => negb (b =? 10)) (drop cursor input) in
      let line_end := (cursor + length physical)%nat in
      let consumed_newline := negb (is_nil rest) in
      if remove_escaped_newlines && consumed_newline && ends_with ["\"%b] physical then
        '(line, end_, newline) ← heredoc_logical_line fuel input remove_escaped_newlines (S line_end);
        Some (take (length physical - 1) physical ++ line, end_, newline)
      else Some (physical, if consumed_newline then S line_end else line_end, consumed_newline)
  end.

(** The body of a here-document from [cursor] on: the text up to the delimiter, and
    where the line of the delimiter ends. *)
Fixpoint heredoc_body_loop (fuel : nat) (input delimiter : bytes) (allow_tabs remove_escaped_newlines : bool) (cursor : nat) :
    option (bytes * nat) :=
  match fuel with
  | O => None
  | S fuel =>
      match heredoc_logical_line (S (length input)) input remove_escaped_newlines cursor with
      | None => None
      | Some (line, line_end, newline) =>
          if bytes_eqb (if allow_tabs then drop_tabs line else line) delimiter then Some ([], line_end)
          else
            let text := line ++ (if newline : bool then [10] else []) in
            if (length input <=? line_end)%nat then Some (text, line_end)
            else (fun '(body, end_) => (text ++ body, end_)) <$> heredoc_body_loop fuel input delimiter allow_tabs remove_escaped_newlines line_end
      end
  end.

(** The end of the line at or after an offset; the place after it. *)
Definition line_end_from (input : bytes) (offset : nat) : nat :=
  let '(line, _) := span (fun b => negb (b =? 10)) (drop offset input) in (offset + length line)%nat.

(** The loop of [initial_heredoc_body_cursor]: a token that goes over the start of a line
    puts the body off to the line after it. *)
Fixpoint body_cursor_loop (fuel : nat) (input : bytes) (tokens : list Token) (cursor : nat) : option nat :=
  match fuel with
  | O => None
  | S fuel =>
      let spanning_end :=
        fold_left (fun e tok => if (t_start tok <? cursor)%nat && (cursor <? t_end tok)%nat && (e <? t_end tok)%nat then t_end tok else e) tokens cursor in
      if (spanning_end =? cursor)%nat then Some cursor
      else
        let newline := line_end_from input (Nat.min spanning_end (length input)) in
        if (length input <=? newline)%nat then Some newline else body_cursor_loop fuel input tokens (S newline)
  end.
