(* ===== verification/Parse.v ===== *)
(** The command parser (crates/parser/src/lib.rs): recursive descent over the tokens of
    the lexer.  The state is the list of tokens with the index of the next one, which
    here-documents rewrite, and the count and place of the here-documents of the current
    command; the flags [PST_..], which nothing reads, are left out.  A parser function
    returns its value with the state, or the error; [Fuel] is no result.  A loop runs
    with one round for each byte of the input and three more. *)
From S2P Require Import Prelude Env Utf8 Buf Quote Expand Options Jobs Scan Assign LexScan Lex Ast ParseText.

Record ParseError := mkParseError { message : bytes; error_span : option (nat * nat) }.

Record PState := mkPState { toks : list Token; index : nat; here_doc_count : nat; here_doc_body_offset : option nat }.

Definition PM (A : Type) : Type := PState -> Res ParseError (A * PState).
Definition pret {A} (a : A) : PM A := fun st => Ok (a, st).
Definition pbind {A B} (m : PM A) (k : A -> PM B) : PM B := fun st =>
  match m st with Ok (a, st) => k a st | Err e => Err e | Fuel => Fuel end.

Declare Scope parse_scope.
Delimit Scope parse_scope with parse.
Notation "x <-- m ;; k" := (pbind m (fun x => k)) (at level 100, m at next level, right associativity) : parse_scope.
Notation "m ;;; k" := (pbind m (fun _ => k)) (at level 100, right associativity) : parse_scope.
Open Scope parse_scope.

Definition gets {A} (f : PState -> A) : PM A := fun st => Ok (f st, st).
Definition if_ {A} (c : PState -> bool) (a b : PM A) : PM A := fun st => if c st then a st else b st.

(** * Tokens *)

Definition peek (st : PState) : option Token := toks st !! index st.
Definition peek_n (n : nat) (st : PState) : option Token := toks st !! (index st + n)%nat.
Definition peek_kind (st : PState) : option TokenKind := t_kind <$> peek st.
Definition span_of (tok : Token) : nat * nat := (t_start tok, t_end tok).
Definition peek_span (st : PState) : option (nat * nat) := span_of <$> peek st.
Definition kind_is (k : TokenKind) (st : PState) : bool := bool_decide (peek_kind st = Some k).

Definition fail_at {A} (message : bytes) (span : option (nat * nat)) : PM A := fun _ => Err (mkParseError message span).
Definition fail {A} (message : bytes) : PM A := fun st => Err (mkParseError message (peek_span st)).

Definition set_index (i : nat) (st : PState) : PState := mkPState (toks st) i (here_doc_count st) (here_doc_body_offset st).

Definition bump : PM (option Token) := fun st =>
  match peek st with Some tok => Ok (Some tok, set_index (S (index st)) st) | None => Ok (None, st) end.

(** [bump], or the error where there is no token. *)
Definition bump_or (message : string) : PM Token :=
  tok <-- bump ;; match tok with Some tok => pret tok | None => fail (bs message) end.

Fixpoint skip_newlines_loop (fuel : nat) : PM unit :=
  match fuel with
  | O => fun _ => Fuel
  | S fuel => if_ (kind_is Newline) (bump ;;; skip_newlines_loop fuel) (pret tt)
  end.

Definition token_is (t : string) (tok : Token) : bool := match t_value tok with TextValue word => bytes_eqb word (bs t) | _ => false end.
Definition is_word (t : string) (st : PState) : bool := match peek st with Some tok => token_is t tok | None => false end.

Definition is_stop_word (stop_words : list string) (st : PState) : bool :=
  match peek st with Some tok => existsb (fun t => token_is t tok) stop_words | None => false end.

Definition is_stop_kind (stop_kinds : list TokenKind) (st : PState) : bool :=
  match peek_kind st with
  | Some k => existsb (fun k' => bool_decide (k = k')) stop_kinds
              || bool_decide (k = DblRParen) && existsb (fun k' => bool_decide (RParen = k')) stop_kinds
  | None => false
  end.

Definition expect_word (t : string) : PM unit := if_ (is_word t) (bump ;;; pret tt) (fail (bs "expected '" ++ bs t ++ bs "'")).

(** The second half of [))], which stays the next token. *)
Definition split_double_paren (st : PState) : PState :=
  mkPState (alter (fun tok => mkToken RParen (t_value tok) (S (t_start tok)) (t_end tok) (t_flags tok)) (index st) (toks st)) (index st)
    (here_doc_count st) (here_doc_body_offset st).

Definition expect_kind (k : TokenKind) (message : string) : PM unit := fun st =>
  if bool_decide (k = RParen) && kind_is DblRParen st then Ok (tt, split_double_paren st)
  else if kind_is k st then (bump ;;; pret tt) st else fail (bs message) st.

(** The reserved word that cannot start a command. *)
Definition unexpected_reserved_word (st : PState) : option bytes :=
  tok ← peek st;
  match t_kind tok, t_value tok with
  | (Then_ | Else_ | Elif | Fi | Do_ | Done_ | In_ | Esac), TextValue word => Some word
  | Word, TextValue word => if one_of word ["then"; "else"; "elif"; "fi"; "do"; "done"; "in"; "esac"]%string then Some word else None
  | _, _ => None
  end.

Definition unexpected (word : bytes) : bytes := bs "unexpected token '" ++ word ++ bs "'".

Definition reject_unexpected_reserved_command (stop_words : list string) : PM unit := fun st =>
  if is_stop_word stop_words st then Ok (tt, st)
  else match unexpected_reserved_word st with Some word => fail (unexpected word) st | None => Ok (tt, st) end.

Definition at_list_terminator (st : PState) : bool :=
  match peek_kind st with
  | Some (End_ | Newline | Semicolon | Ampersand | Then_ | Else_ | Elif | Fi | Do_ | Done_ | Esac | RBrace | RParen) => true
  | _ => false
  end
  || is_stop_word ["then"; "else"; "elif"; "fi"; "do"; "done"; "esac"] st.

Definition previous_token_terminated_list (st : PState) : bool :=
  match index st with
  | O => false
  | S i =>
      match toks st !! i with
      | Some tok =>
          match t_kind tok with
          | Semicolon | Ampersand | Newline | RParen | DblRParen | RBrace | DblRBracket => true
          | _ => existsb (fun t => token_is t tok) ["fi"; "done"; "esac"; "}"]%string
          end
      | None => false
      end
  end.

Definition is_function_def_start (st : PState) : bool :=
  kind_is Word st && bool_decide (t_kind <$> peek_n 1 st = Some LParen) && bool_decide (t_kind <$> peek_n 2 st = Some RParen).

Definition kind_at (n : nat) (p : TokenKind -> bool) (st : PState) : bool := match peek_n n st with Some tok => p (t_kind tok) | None => false end.

Definition number_is_adjacent_redirection_operator (st : PState) : bool :=
  kind_at 1 is_redirection_kind st
  && match peek st, peek_n 1 st with Some number, Some op => (t_end number =? t_start op)%nat | _, _ => false end.

Definition is_redir_word_redirector (st : PState) : bool :=
  match peek st with Some tok => is_redir_word_token tok | None => false end && kind_at 1 is_redirection_kind st.

Definition current_is_redirection_operator (st : PState) : bool := kind_at 0 is_redirection_kind st.

Definition compound_opener_word (tok : Token) : bool :=
  existsb (fun t => token_is t tok) ["{"; "("; "if"; "while"; "until"; "for"; "case"; "select"]%string.

Definition peek_n_is_compound_opener (n : nat) (st : PState) : bool :=
  match peek_n n st with
  | Some tok => match t_kind tok with LBrace | LParen | DblLParen | DblLBracket => true | _ => compound_opener_word tok end
  | None => false
  end.

(** Whether [((] starts an arithmetic command or two subshells. *)
Fixpoint arith_scan (depth : nat) (l : list Token) : bool :=
  match l with
  | [] => false
  | tok :: l =>
      match t_kind tok with
      | DblLParen => arith_scan (depth + 2) l
      | DblRParen =>
          if (depth =? 0)%nat then true
          else if (2 <=? depth)%nat then arith_scan (depth - 2) l
          else match l with next :: _ => bool_decide (t_kind next = RParen) | [] => false end
      | Semicolon => false
      | End_ => true
      | LParen => arith_scan (S depth) l
      | RParen => if (depth =? 0)%nat then false else arith_scan (pred depth) l
      | _ => arith_scan depth l
      end
  end.

Definition dbl_lparen_starts_arith_command (st : PState) : bool := arith_scan 0 (drop (S (index st)) (toks st)).

Section Parser.
Context (input : bytes).

Definition rounds : nat := length input + 3.

Definition skip_newlines : PM unit := skip_newlines_loop rounds.

Definition raw_for_span (start end_ : nat) : option bytes :=
  if (end_ <=? length input)%nat && (start <=? end_)%nat then Some (slice input start end_) else None.

Definition word_desc (text : bytes) (flags : Z) (tok : Token) : SourceWord :=
  mkSource text flags (t_start tok) (t_end tok) (raw_for_span (t_start tok) (t_end tok)).

(** The word of a token, with the name of the operator where it has no text. *)
Definition word_or_operator (tok : Token) : SourceWord :=
  word_desc (match t_value tok with NoValue => token_to_text_lossy tok | v => token_value_to_string v end) (t_flags tok) tok.

Definition parse_word_desc : PM SourceWord := tok <-- bump_or "expected word" ;; pret (word_or_operator tok).

(** * Here-documents *)

Definition shift (n : nat) (tok : Token) : Token := mkToken (t_kind tok) (t_value tok) (t_start tok + n) (t_end tok + n) (t_flags tok).

Definition in_range (start end_ : nat) (tok : Token) : bool := (start <=? t_start tok)%nat && (t_start tok <? end_)%nat.

(** Tokens of a body are dropped; if one goes over its end, the text after the body is
    lexed again, by a lexer with the default options. *)
Definition skip_tokens_in_range (start_offset end_offset : nat) : PM unit := fun st =>
  if existsb (fun tok => in_range start_offset end_offset tok && (end_offset <? t_end tok)%nat) (toks st) then
    match tokens (drop end_offset input) false false true with
    | Ok l =>
        Ok (tt, mkPState (List.filter (fun tok => (t_start tok <? start_offset)%nat) (toks st) ++ map (shift end_offset) l) (index st)
                  (here_doc_count st) (here_doc_body_offset st))
    | _ => Fuel
    end
  else
    Ok (tt, mkPState (take (index st) (toks st)
                      ++ List.filter (fun tok => negb (in_range start_offset end_offset tok)) (drop (index st) (toks st)))
              (index st) (here_doc_count st) (here_doc_body_offset st)).

Definition initial_heredoc_body_cursor (start_offset : nat) (st : PState) : option (option nat) :=
  let newline := line_end_from input start_offset in
  if (length input <=? newline)%nat then Some None
  else match body_cursor_loop (S (length input)) input (toks st) (S newline) with Some cursor => Some (Some cursor) | None => None end.

Definition consume_heredoc_body (delimiter : bytes) (start_offset : nat) (allow_tabs remove_escaped_newlines : bool) : PM (bytes * nat) :=
  fun st =>
    if (length input <=? start_offset)%nat then Ok (([], start_offset), st)
    else
      match (match here_doc_body_offset st with
             | Some offset => Some (Some (Nat.max offset start_offset))
             | None => initial_heredoc_body_cursor start_offset st
             end) with
      | None => Fuel
      | Some None => Ok (([], length input), st)
      | Some (Some cursor) =>
          match heredoc_body_loop (S (length input)) input delimiter allow_tabs remove_escaped_newlines cursor with
          | None => Fuel
          | Some (body, end_) => (skip_tokens_in_range cursor end_ ;;; pret (body, end_)) st
          end
      end.

(** * Redirections *)

Definition redirection_of (k : TokenKind) : option RedirectInstruction :=
  match k with
  | Less => Some InputDirection
  | Greater => Some OutputDirection
  | LessLess => Some ReadingUntil
  | LessLessMinus => Some DeblankReadingUntil
  | LessLessLess => Some ReadingString
  | GreaterGreater => Some AppendingTo
  | GreaterBar => Some OutputForce
  | LessAnd => Some DuplicatingInput
  | GreaterAnd => Some DuplicatingOutput
  | AndGreater => Some ErrAndOut
  | AndGreaterGreater => Some AppendErrAndOut
  | LessGreater => Some InputOutput
  | _ => None
  end.

Definition redirector_of (tok : option Token) (i : RedirectInstruction) : Redirector :=
  match t_value <$> tok with
  | Some (NumberValue value _) => RedirectorFd value
  | Some (TextValue t) =>
      match redir_word_name t with
      | Some name => RedirectorVar name
      | None => match Jobs.parse_i32 t with Some fd => RedirectorFd fd | None => RedirectorVar t end
      end
  | _ => RedirectorFd (default_redirect_fd i)
  end.

(** The instruction of [<&] and [>&], which depends on the target. *)
Definition refine_duplication (i : RedirectInstruction) (target : bytes) : RedirectInstruction :=
  let choose input output := match i with DuplicatingInput => input | DuplicatingOutput => output | _ => i end in
  match i with
  | DuplicatingInput | DuplicatingOutput =>
      if bytes_eqb target (bs "-") then CloseThis
      else if ends_with (bs "-") target then
        if is_all_digits (take (length target - 1) target) then choose MoveInput MoveOutput else choose MoveInputWord MoveOutputWord
      else if negb (forallb is_ascii_digit target) then choose DuplicatingInputWord DuplicatingOutputWord
      else i
  | _ => i
  end.

(** [trim_end_matches('-')]. *)
Fixpoint drop_dashes (s : bytes) : bytes := match s with "-"%b :: r => drop_dashes r | _ => s end.
Definition trim_dashes (s : bytes) : bytes := rev (drop_dashes (rev s)).

Definition set_here_docs (count : nat) (offset : option nat) : PM unit := fun st => Ok (tt, mkPState (toks st) (index st) count offset).

(** The delimiter and the body. *)
Definition parse_heredoc (op : Token) (i : RedirectInstruction) (target : SourceWord) : PM (option (bytes * bytes)) :=
  match i with
  | ReadingUntil | DeblankReadingUntil =>
      if_ (fun st => (HEREDOC_MAX <=? here_doc_count st)%nat)
        (fail_at (bs "maximum here-document count exceeded") (Some (span_of op)))
        (offset <-- gets here_doc_body_offset ;;
         count <-- gets here_doc_count ;;
         set_here_docs (S count) offset ;;;
         let allow_tabs := match i with DeblankReadingUntil => true | _ => false end in
         let delimiter := normalize_heredoc_delimiter (s_text target) in
         let delimiter := if allow_tabs then drop_tabs delimiter else delimiter in
         body <-- consume_heredoc_body delimiter (s_end target) allow_tabs (negb (has (s_flags target) W_QUOTED)) ;;
         count <-- gets here_doc_count ;;
         set_here_docs count (Some body.2) ;;;
         pret (Some (delimiter, body.1)))
  | _ => pret None
  end.

Definition redirectee_of (i : RedirectInstruction) (target : SourceWord) : Redirectee :=
  match i with
  | CloseThis => RedirecteeFd (-1)
  | DuplicatingInput | DuplicatingOutput | MoveInput | MoveOutput =>
      RedirecteeFd (default (-1) (Jobs.parse_i32 (trim_dashes (s_text target))))
  | _ => RedirecteeWord target
  end.

Definition parse_redirect (redirector_token : option Token) : PM Redirect :=
  op <-- bump ;;
  match op with
  | None => fun _ => Fuel
  | Some op =>
      match redirection_of (t_kind op) with
      | None => fail_at (bs "invalid redirection operator") (Some (span_of op))
      | Some i =>
          let redirector := redirector_of redirector_token i in
          target <-- bump ;;
          match target with
          | None => fail_at (bs "expected redirection target") (Some (span_of op))
          | Some target =>
              if is_redirection_target target then
                let text := token_value_to_string (t_value target) in
                let i := refine_duplication i text in
                let word := word_desc text (t_flags target) target in
                doc <-- parse_heredoc op i word ;;
                pret (mkRedirect redirector (match redirector with RedirectorVar _ => REDIR_VARASSIGN | _ => 0 end) i (redirectee_of i word)
                        (fst <$> doc) (snd <$> doc))
              else fail_at (bs "expected redirection target") (Some (span_of target))
          end
      end
  end.

(** One redirection, if one comes next. *)
Definition next_redirect : PM (option Redirect) :=
  let with_redirector := redirector <-- bump ;; r <-- parse_redirect redirector ;; pret (Some r) in
  if_ is_redir_word_redirector with_redirector
    (if_ current_is_redirection_operator (r <-- parse_redirect None ;; pret (Some r))
       (if_ (fun st => kind_is Number st && number_is_adjacent_redirection_operator st) with_redirector (pret None))).

Fixpoint trailing_redirects_loop (fuel : nat) (c : Command) : PM Command :=
  match fuel with
  | O => fun _ => Fuel
  | S fuel =>
      r <-- next_redirect ;;
      match r with Some r => trailing_redirects_loop fuel (with_redirect r c) | None => pret c end
  end.

Definition parse_trailing_redirects (c : Command) : PM Command := trailing_redirects_loop rounds c.

(** * Simple commands *)

(** One word or redirection of a simple command; [None] where it ends. *)
Definition simple_part (command_name : option bytes) : PM (option (SourceWord * option bytes + Redirect)) :=
  let redirect := r <-- parse_redirect None ;; pret (Some (inr r)) in
  let with_redirector := redirector <-- bump ;; r <-- parse_redirect redirector ;; pret (Some (inr r)) in
  if_ is_redir_word_redirector with_redirector
    (tok <-- gets peek ;;
     match tok with
     | Some tok =>
         match t_kind tok with
         | Word | AssignmentWord =>
             bump ;;;
             let text := token_value_to_string (t_value tok) in
             if has (t_flags tok) W_COMPASSIGN
                && match command_name with Some name => negb (assignment_builtin_accepts_compound name) | None => false end
             then fail_at (bs "unexpected token '('") (Some (span_of tok))
             else
               let prefix_assignment := bool_decide (t_kind tok = AssignmentWord) && bool_decide (command_name = None) in
               let name := if negb prefix_assignment && bool_decide (command_name = None) then Some text else command_name in
               pret (Some (inl (word_desc text (t_flags tok) tok, name)))
         | Number =>
             if_ number_is_adjacent_redirection_operator with_redirector
               (bump ;;; pret (Some (inl (word_desc (token_value_to_string (t_value tok)) 0 tok, command_name))))
         | k => if is_redirection_kind k then redirect else pret None
         end
     | None => pret None
     end).

Fixpoint simple_loop (fuel : nat) (words : list SourceWord) (redirects : list Redirect) (command_name : option bytes) :
    PM (list SourceWord * list Redirect) :=
  match fuel with
  | O => fun _ => Fuel
  | S fuel =>
      part <-- simple_part command_name ;;
      match part with
      | Some (inl (word, name)) => simple_loop fuel (words ++ [word]) redirects name
      | Some (inr r) => simple_loop fuel words (redirects ++ [r]) command_name
      | None => pret (words, redirects)
      end
  end.

Definition parse_simple_command : PM Command :=
  parts <-- simple_loop rounds [] [] None ;;
  if is_nil parts.1 && is_nil parts.2 then fail (bs "expected command") else pret (bare (CSimple parts.1 parts.2)).

(** * Patterns and word lists *)

(** The local variables of [collect_pattern_word]. *)
Record PatternSt := mkPattern { p_text : bytes; p_flags : Z; p_end : nat; p_depth : nat; p_previous : option nat }.

Definition p_add (t : bytes) (tok : Token) (depth : nat) (p : PatternSt) : PatternSt :=
  mkPattern (p_text p ++ t) (Z.lor (p_flags p) (t_flags tok)) (t_end tok) depth (p_previous p).

(** The text between two tokens of a regular expression. *)
Definition pattern_gap (context : PatternCollectContext) (tok : Token) (p : PatternSt) : bytes :=
  match context, p_previous p with
  | PatCondRegex, Some end_ =>
      if (0 <? p_depth p)%nat && (end_ <? t_start tok)%nat && (t_start tok <=? length input)%nat then slice input end_ (t_start tok) else []
  | _, _ => []
  end.

Definition pattern_depth (context : PatternCollectContext) (k : TokenKind) (p : PatternSt) (text : bytes) : nat :=
  match k with
  | LParen =>
      match context with
      | PatCondRegex => S (p_depth p)
      | _ => if pattern_extglob_op_precedes text then S (p_depth p) else p_depth p
      end
  | RParen => pred (p_depth p)
  | DblRParen => p_depth p - 2
  | _ => p_depth p
  end.

(** The loop; the boolean tells that the parenthesis of the clause was consumed. *)
Fixpoint pattern_loop (fuel : nat) (context : PatternCollectContext) (p : PatternSt) : PM (PatternSt * bool) :=
  match fuel with
  | O => fun _ => Fuel
  | S fuel =>
      tok <-- gets peek ;;
      match tok with
      | None => pret (p, false)
      | Some tok =>
          if pattern_word_stops_before (t_kind tok) context (p_depth p) then pret (p, false)
          else
            let gap := pattern_gap context tok p in
            match t_kind tok, context, p_depth p with
            | DblRParen, PatCase, 0%nat => pret (p, false)
            | DblRParen, PatCase, 1%nat => bump ;;; pret (p_add (bs ")") tok 1 p, true)
            | DblRParen, PatCase, depth => bump ;;; pattern_loop fuel context (p_add (bs "))") tok (depth - 2) p)
            | k, _, _ =>
                bump ;;;
                let p' := p_add (gap ++ token_to_text_lossy tok) tok (pattern_depth context k p (p_text p ++ gap)) p in
                pattern_loop fuel context (mkPattern (p_text p') (p_flags p') (p_end p') (p_depth p') (Some (t_end tok)))
            end
      end
  end.

Definition collect_pattern_word (context : PatternCollectContext) : PM (SourceWord * bool) :=
  first <-- gets peek ;;
  match first with
  | None => fail (bs "expected pattern")
  | Some first =>
      r <-- pattern_loop rounds context (mkPattern [] 0 (t_end first) 0 None) ;;
      let '(p, closed) := r in
      if is_nil (p_text p) then fail_at (bs "expected pattern") (Some (t_start first, p_end p))
      else pret (mkSource (p_text p) (p_flags p) (t_start first) (p_end p) (raw_for_span (t_start first) (p_end p)), closed)
  end.

Fixpoint case_patterns_loop (fuel : nat) (patterns : list SourceWord) : PM (list SourceWord * bool) :=
  match fuel with
  | O => fun _ => Fuel
  | S fuel =>
      k <-- gets peek_kind ;;
      match k with
      | Some Pipe => bump ;;; case_patterns_loop fuel patterns
      | Some Newline => skip_newlines ;;; case_patterns_loop fuel patterns
      | Some RParen | Some End_ | None => pret (patterns, false)
      | Some k =>
          if is_case_pattern_separator k then pret (patterns, false)
          else
            r <-- collect_pattern_word PatCase ;;
            if r.2 : bool then pret (patterns ++ [r.1], true) else case_patterns_loop fuel (patterns ++ [r.1])
      end
  end.

Fixpoint word_list_loop (fuel : nat) (words : list SourceWord) : PM (list SourceWord) :=
  match fuel with
  | O => fun _ => Fuel
  | S fuel =>
      k <-- gets peek_kind ;;
      match k with
      | Some (Word | AssignmentWord | Number) => word <-- parse_word_desc ;; word_list_loop fuel (words ++ [word])
      | Some Newline => skip_newlines ;;; pret words
      | Some Semicolon => bump ;;; skip_newlines ;;; pret words
      | _ => pret words
      end
  end.

Definition parse_word_list_until_command_body : PM (option (list SourceWord)) :=
  words <-- word_list_loop rounds [] ;; pret (if is_nil words then None else Some words).

(** * Conditions *)

Definition cond_word : PM SourceWord := skip_newlines ;;; tok <-- bump_or "expected word in [[ ]]" ;; pret (word_or_operator tok).

Definition cond_rhs_word (regex : bool) : PM SourceWord :=
  skip_newlines ;;; r <-- collect_pattern_word (if regex then PatCondRegex else PatCond) ;; pret r.1.

Definition cond_at_terminator (st : PState) : bool :=
  match peek_kind st with Some (DblRBracket | AndAnd | OrOr | RParen) | None => true | _ => false end.

Definition word_span (w : SourceWord) : option (nat * nat) := Some (s_start w, s_end w).

(** An operator and its operands. *)
Definition cond_test : PM CondCommand :=
  lhs <-- cond_word ;;
  skip_newlines ;;;
  if is_unary_test_op (s_text lhs) then
    rhs <-- cond_word ;;
    if one_of (s_text rhs) ["&"; "<"]%string then
      fail_at (bs "unexpected argument `" ++ s_text rhs ++ bs "` to conditional unary operator") (word_span rhs)
    else pret (mkCond CondUnary (Some lhs) (Some (cond_leaf rhs)) None None)
  else
    skip_newlines ;;;
    if_ cond_at_terminator
      (if bytes_eqb (s_text lhs) (bs "&") then fail_at (bs "unexpected token `&' in conditional command") (word_span lhs)
       else pret (mkCond CondUnary (Some (mkSource (bs "-n") 0 (s_start lhs) (s_end lhs) (Some (bs "-n")))) (Some (cond_leaf lhs)) None None))
      (op <-- cond_word ;;
       skip_newlines ;;;
       if is_binary_test_op (s_text op) then
         rhs <-- cond_rhs_word (bytes_eqb (s_text op) (bs "=~")) ;;
         if bytes_eqb (s_text rhs) (bs "&") then fail_at (bs "unexpected argument `&' to conditional binary operator") (word_span rhs)
         else pret (mkCond CondBinary (Some op) (Some (cond_leaf lhs)) (Some (cond_leaf rhs)) None)
       else fail_at (bs "unexpected token `" ++ s_text op ++ bs "`, conditional binary operator expected") (word_span op)).

(** Operands joined by one operator. *)
Fixpoint cond_loop (fuel : nat) (operator : TokenKind) (type : CondType) (operand : PM CondCommand) (left : CondCommand) : PM CondCommand :=
  match fuel with
  | O => fun _ => Fuel
  | S fuel =>
      if_ (kind_is operator)
        (bump ;;; skip_newlines ;;; right <-- operand ;; skip_newlines ;;;
         cond_loop fuel operator type operand (mkCond type None (Some left) (Some right) None))
        (pret left)
  end.

Definition cond_chain (operator : TokenKind) (type : CondType) (operand : PM CondCommand) : PM CondCommand :=
  skip_newlines ;;; left <-- operand ;; skip_newlines ;;; cond_loop rounds operator type operand left.

Definition cond_and (term : PM CondCommand) : PM CondCommand := cond_chain AndAnd CondAnd term.
Definition cond_expr_over (term : PM CondCommand) : PM CondCommand := cond_chain OrOr CondOr (cond_and term).

Fixpoint cond_term (fuel : nat) : PM CondCommand :=
  match fuel with
  | O => fun _ => Fuel
  | S fuel =>
      skip_newlines ;;;
      if_ (fun st => kind_is Bang st || is_word "!" st)
        (bump ;;; skip_newlines ;;; inner <-- cond_term fuel ;; pret (mkCond CondTerm None (Some inner) None None))
        (if_ (kind_is LParen)
           (bump ;;; skip_newlines ;;; inner <-- cond_expr_over (cond_term fuel) ;; skip_newlines ;;;
            expect_kind RParen "expected ')' in [[ ]]" ;;; pret (mkCond CondExpr None (Some inner) None None))
           cond_test)
  end.

Definition cond_expr : PM CondCommand := cond_expr_over (cond_term rounds).

Definition parse_cond_command : PM Command :=
  expect_kind DblLBracket "expected '[['" ;;; skip_newlines ;;; tree <-- cond_expr ;; skip_newlines ;;;
  expect_kind DblRBracket "expected ']]'" ;;; pret (bare (CCond tree)).

(** * Arithmetic commands *)

(** Text between two places of the input, as far as they are there. *)
Definition clamped (start end_ : nat) : bytes := let end_ := Nat.min end_ (length input) in slice input (Nat.min start end_) end_.

Fixpoint arith_expr_loop (fuel : nat) (start paren_depth bracket_depth : nat) : PM bytes :=
  match fuel with
  | O => fun _ => Fuel
  | S fuel =>
      let next paren_depth bracket_depth := bump ;;; arith_expr_loop fuel start paren_depth bracket_depth in
      tok <-- gets peek ;;
      match tok with
      | None => fail (bs "expected '))'")
      | Some tok =>
          match t_kind tok with
          | DblRParen =>
              if (paren_depth =? 0)%nat && (bracket_depth =? 0)%nat then bump ;;; pret (clamped start (t_start tok))
              else if (paren_depth =? 1)%nat && (bracket_depth =? 0)%nat then
                bump ;;; if_ (kind_is RParen) (bump ;;; pret tt) (pret tt) ;;; pret (clamped start (S (t_start tok)))
              else next (if (0 <? bracket_depth)%nat && (paren_depth =? 1)%nat then 0%nat else (paren_depth - 2)%nat) bracket_depth
          | DblLParen => next (paren_depth + 2)%nat bracket_depth
          | LParen => next (S paren_depth) bracket_depth
          | RParen => next (pred paren_depth) bracket_depth
          | End_ =>
              fail (if (0 <? bracket_depth)%nat || (0 <? paren_depth)%nat then bs "unexpected EOF while looking for matching `)'"
                    else bs "expected '))'")
          | _ => next paren_depth (update_arith_bracket_depth tok bracket_depth)
          end
      end
  end.

Definition parse_arith_command : PM Command :=
  open_end <-- gets (fun st => match peek st with Some tok => t_end tok | None => length input end) ;;
  expect_kind DblLParen "expected '(('" ;;;
  text <-- arith_expr_loop rounds open_end 0 0 ;;
  span <-- gets (fun st => default (0%nat, 0%nat) (peek_span st)) ;;
  pret (bare (CArith (mkSource text 0 span.1 span.2 None))).

Fixpoint arith_for_loop (fuel : nat) (open : nat * nat) (start paren_depth : nat) : PM (bytes * (nat * nat)) :=
  match fuel with
  | O => fun _ => Fuel
  | S fuel =>
      let next paren_depth := bump ;;; arith_for_loop fuel open start paren_depth in
      tok <-- gets peek ;;
      match tok with
      | None =>
          let end_ := length input in pret (drop (Nat.min start end_) input, (Nat.min open.1 end_, end_))
      | Some tok =>
          match t_kind tok with
          | DblRParen =>
              if (paren_depth =? 0)%nat then
                bump ;;; pret (clamped start (t_start tok), (Nat.min open.1 (t_end tok), Nat.min (t_end tok) (length input)))
              else next (paren_depth - 2)%nat
          | DblLParen => next (paren_depth + 2)%nat
          | LParen => next (S paren_depth)
          | RParen => next (pred paren_depth)
          | _ => next paren_depth
          end
      end
  end.

Definition collect_arith_for_exprs (open : nat * nat) : PM (bytes * (nat * nat)) :=
  start <-- gets (fun st => match peek st with Some tok => t_start tok | None => length input end) ;; arith_for_loop rounds open start 0.

Definition arith_clause (part : bytes * bytes) : option SourceWord :=
  if is_nil part.1 then None else Some (mkSource part.1 0 0 0 (Some part.2)).

(** * Commands *)

Section Command.
(** [parse_command] at the depth below. *)
Context (parse_command : PM Command).

Definition bar_loop_step (left : Command) : PM (option Command) :=
  k <-- gets peek_kind ;;
  match k with
  | Some Pipe => bump ;;; skip_newlines ;;; right <-- parse_command ;; pret (Some (connect left right CONN_PIPE))
  | Some BarAnd =>
      bump ;;; skip_newlines ;;; right <-- parse_command ;; pret (Some (connect (add_stderr_to_stdout_redirect left) right CONN_PIPE))
  | _ => pret None
  end.

Fixpoint pipeline_loop (fuel : nat) (left : Command) : PM Command :=
  match fuel with
  | O => fun _ => Fuel
  | S fuel => next <-- bar_loop_step left ;; match next with Some c => pipeline_loop fuel c | None => pret left end
  end.

(** [time] with its options and [!]: the flags, and whether the status is inverted. *)
Fixpoint prefix_loop (fuel : nat) (flags : Z) (invert : bool) : PM (Z * bool) :=
  match fuel with
  | O => fun _ => Fuel
  | S fuel =>
      k <-- gets peek_kind ;;
      match k with
      | Some Time_ =>
          bump ;;;
          k <-- gets peek_kind ;;
          match k with
          | Some TimeOpt =>
              bump ;;; if_ (fun st => kind_is TimeIgn st || is_word "--" st) (bump ;;; pret tt) (pret tt) ;;;
              prefix_loop fuel (Z.lor (Z.lor flags CMD_TIME_PIPELINE) CMD_TIME_POSIX) invert
          | Some TimeIgn => bump ;;; prefix_loop fuel (Z.lor flags CMD_TIME_PIPELINE) invert
          | _ => prefix_loop fuel (Z.lor flags CMD_TIME_PIPELINE) invert
          end
      | Some Bang => bump ;;; prefix_loop fuel flags (negb invert)
      | _ => pret (flags, invert)
      end
  end.

Definition parse_pipeline : PM Command :=
  prefix <-- prefix_loop rounds 0 false ;;
  let flags := Z.lor (if prefix.2 : bool then CMD_INVERT_RETURN else 0) prefix.1 in
  if_ at_list_terminator (pret (with_flags flags null_command))
    (left <-- parse_command ;; c <-- pipeline_loop rounds left ;; pret (with_flags flags c)).

Fixpoint and_or_loop (fuel : nat) (left : Command) : PM Command :=
  match fuel with
  | O => fun _ => Fuel
  | S fuel =>
      k <-- gets peek_kind ;;
      match k with
      | Some AndAnd => bump ;;; skip_newlines ;;; right <-- parse_pipeline ;; and_or_loop fuel (connect left right CONN_AND_AND)
      | Some OrOr => bump ;;; skip_newlines ;;; right <-- parse_pipeline ;; and_or_loop fuel (connect left right CONN_OR_OR)
      | _ => pret left
      end
  end.

Definition parse_and_or : PM Command := left <-- parse_pipeline ;; and_or_loop rounds left.

(** The three functions for lists differ in where they stop. *)
Fixpoint list_loop (fuel : nat) (stop : PState -> bool) (stop_words : list string) (left : Command) : PM Command :=
  match fuel with
  | O => fun _ => Fuel
  | S fuel =>
      let at_end st := stop st || kind_is End_ st in
      let next connector :=
        reject_unexpected_reserved_command stop_words ;;; right <-- parse_and_or ;; list_loop fuel stop stop_words (connect left right connector) in
      if_ stop (pret left)
        (k <-- gets peek_kind ;;
         match k with
         | Some Semicolon => bump ;;; skip_newlines ;;; if_ at_end (pret left) (next CONN_SEMI)
         | Some Ampersand => bump ;;; skip_newlines ;;; if_ at_end (pret (connect left null_command CONN_AMP)) (next CONN_AMP)
         | Some Newline => skip_newlines ;;; if_ at_end (pret left) (next CONN_NEWLINE)
         | _ => pret left
         end)
  end.

Definition parse_list (stop : PState -> bool) (stop_words : list string) : PM Command :=
  skip_newlines ;;;
  if_ stop (fail (bs "expected list"))
    (reject_unexpected_reserved_command stop_words ;;; left <-- parse_and_or ;; list_loop rounds stop stop_words left).

Definition parse_simple_list_until (stop_words : list string) : PM Command := parse_list (is_stop_word stop_words) stop_words.
Definition parse_simple_list_until_kind (stop_kinds : list TokenKind) : PM Command := parse_list (is_stop_kind stop_kinds) [].
Definition parse_simple_list_until_words_or_kinds (stop_words : list string) (stop_kinds : list TokenKind) : PM Command :=
  parse_list (fun st => is_stop_word stop_words st || is_stop_kind stop_kinds st) stop_words.

(** A block between two reserved words. *)
Definition until_word (word : string) : PM Command := c <-- parse_simple_list_until [word] ;; expect_word word ;;; pret c.

Definition parse_else : PM (option Command) :=
  if_ (is_word "else") (expect_word "else" ;;; c <-- parse_simple_list_until ["fi"]%string ;; pret (Some c)) (pret None).

(** From [if] or [elif] to the alternative; [elif_chain] parses the rest. *)
Definition if_branch (word : string) (elif_chain : PM Command) : PM Command :=
  expect_word word ;;;
  test <-- until_word "then" ;;
  true_case <-- parse_simple_list_until ["elif"; "else"; "fi"]%string ;;
  false_case <-- if_ (is_word "elif") (c <-- elif_chain ;; pret (Some c)) parse_else ;;
  pret (bare (CIf test true_case false_case)).

Fixpoint parse_elif_chain (fuel : nat) : PM Command :=
  match fuel with O => fun _ => Fuel | S fuel => if_branch "elif" (parse_elif_chain fuel) end.

Definition parse_if_command : PM Command := c <-- if_branch "if" (parse_elif_chain rounds) ;; expect_word "fi" ;;; pret c.

Definition parse_while_command : PM Command :=
  expect_word "while" ;;; test <-- until_word "do" ;; action <-- until_word "done" ;; pret (bare (CWhile test action)).

Definition parse_until_command : PM Command :=
  expect_word "until" ;;; test <-- until_word "do" ;; action <-- until_word "done" ;; pret (bare (CUntil test action)).

(** The list between braces. *)
Definition brace_list : PM Command :=
  expect_kind LBrace "expected '{'" ;;;
  body <-- parse_simple_list_until_kind [RBrace] ;;
  if_ (kind_is End_) (fail (bs "syntax error: unexpected end of file"))
    (if_ previous_token_terminated_list (expect_kind RBrace "expected '}'" ;;; pret body)
       (fail (bs "expected ';' or newline before '}'"))).

Definition optional_semicolon : PM unit := if_ (kind_is Semicolon) (bump ;;; skip_newlines) (pret tt).

(** The body of a loop, after an optional semicolon. *)
Definition loop_body : PM Command :=
  skip_newlines ;;; optional_semicolon ;;; if_ (kind_is LBrace) brace_list (expect_word "do" ;;; until_word "done").

Definition in_words : PM (option (list SourceWord)) :=
  if_ (is_word "in") (expect_word "in" ;;; parse_word_list_until_command_body) (pret None).

Definition parse_arith_for_command : PM Command :=
  open <-- gets (fun st => default (0%nat, 0%nat) (peek_span st)) ;;
  expect_kind DblLParen "expected '(( '" ;;;
  exprs <-- collect_arith_for_exprs open ;;
  let '(parts, separators) := split_arith_for_clauses exprs.1 in
  if (separators <? 2)%nat then fail_at (bs "syntax error: arithmetic expression required") (Some exprs.2)
  else if (2 <? separators)%nat then fail_at (bs "syntax error near unexpected token `;'") (Some exprs.2)
  else
    let clause i := arith_clause (default ([], []) (parts !! i)) in
    action <-- loop_body ;; pret (bare (CArithFor (clause 0%nat) (clause 1%nat) (clause 2%nat) action)).

Definition parse_for_command : PM Command :=
  expect_word "for" ;;;
  if_ (kind_is DblLParen) parse_arith_for_command
    (tok <-- gets peek ;;
     match tok with
     | Some tok =>
         if is_redirection_target tok then
           bump ;;;
           let name := word_desc (token_value_to_string (t_value tok)) 0 tok in
           skip_newlines ;;;
           map_list <-- in_words ;;
           action <-- loop_body ;;
           pret (bare (CFor name map_list action (line_number_for_offset input (s_start name))))
         else fail (bs "expected for name")
     | None => fail (bs "expected for name")
     end).

Definition parse_select_command : PM Command :=
  expect_word "select" ;;;
  name <-- parse_word_desc ;;
  map_list <-- in_words ;;
  action <-- loop_body ;;
  pret (bare (CSelect name map_list action (line_number_for_offset input (s_start name)))).

Definition clause_stops : list TokenKind := [DblSemicolon; SemiAmp; DblSemiAmp].

Definition clause_end : PM Z :=
  k <-- gets peek_kind ;;
  match k with
  | Some DblSemicolon => bump ;;; pret 0
  | Some SemiAmp => bump ;;; pret CASEPAT_FALLTHROUGH
  | Some DblSemiAmp => bump ;;; pret CASEPAT_TESTNEXT
  | _ => pret 0
  end.

Definition parse_clause : PM (list SourceWord * option Command * Z) :=
  if_ (kind_is LParen) (bump ;;; pret tt) (pret tt) ;;;
  patterns <-- case_patterns_loop rounds [] ;;
  (if patterns.2 : bool then pret tt else expect_kind RParen "expected ')' after case pattern") ;;;
  skip_newlines ;;;
  action <-- if_ (fun st => is_stop_kind clause_stops st || is_word "esac" st) (pret None)
               (c <-- parse_simple_list_until_words_or_kinds ["esac"]%string clause_stops ;; pret (Some c)) ;;
  flags <-- clause_end ;;
  pret (patterns.1, action, flags).

Fixpoint clauses_of_case (fuel : nat) (clauses : list (list SourceWord * option Command * Z)) :
    PM (list (list SourceWord * option Command * Z)) :=
  match fuel with
  | O => fun _ => Fuel
  | S fuel =>
      if_ (is_word "esac") (pret clauses)
        (skip_newlines ;;;
         if_ (is_word "esac") (pret clauses) (clause <-- parse_clause ;; clauses_of_case fuel (clauses ++ [clause])))
  end.

Definition parse_case_command : PM Command :=
  expect_word "case" ;;;
  word <-- parse_word_desc ;;
  skip_newlines ;;; expect_word "in" ;;; skip_newlines ;;;
  clauses <-- clauses_of_case rounds [] ;;
  expect_word "esac" ;;; pret (bare (CCase word clauses 0)).

Definition parse_group_command : PM Command := body <-- brace_list ;; pret (bare (CGroup body)).

Definition subshell (c : Command) (flags : Z) : Command := with_flags CMD_WANT_SUBSHELL (bare (CSubshell c flags)).

Definition parse_subshell_command : PM Command :=
  expect_kind LParen "expected '('" ;;;
  body <-- parse_simple_list_until_kind [RParen] ;;
  expect_kind RParen "expected ')'" ;;; pret (subshell body 0).

(** What follows the inner subshell of [((..)..)]. *)
Fixpoint double_subshell_loop (fuel : nat) (body : Command) : PM Command :=
  match fuel with
  | O => fun _ => Fuel
  | S fuel =>
      let next connector := right <-- parse_and_or ;; double_subshell_loop fuel (connect body right connector) in
      k <-- gets peek_kind ;;
      match k with
      | Some Semicolon => bump ;;; skip_newlines ;;; if_ (kind_is RParen) (pret body) (next CONN_SEMI)
      | Some Ampersand =>
          bump ;;; skip_newlines ;;; if_ (kind_is RParen) (pret (connect body null_command CONN_AMP)) (next CONN_AMP)
      | Some Newline => skip_newlines ;;; if_ (kind_is RParen) (pret body) (next CONN_NEWLINE)
      | _ => pret body
      end
  end.

Definition parse_double_subshell_command : PM Command :=
  expect_kind DblLParen "expected '(('" ;;;
  inner <-- parse_simple_list_until_kind [RParen] ;;
  expect_kind RParen "expected ')'" ;;;
  body <-- double_subshell_loop rounds (subshell inner CMD_WANT_SUBSHELL) ;;
  expect_kind RParen "expected ')'" ;;; pret (subshell body CMD_WANT_SUBSHELL).

(** The line of the first command of a body. *)
Definition compound_body_first_command_line (st : PState) : option Z :=
  let l := drop (index st) (toks st) in
  let l :=
    match l with
    | tok :: r => match t_kind tok with LBrace => r | Word => if token_is "{" tok then r else l | _ => l end
    | [] => l
    end in
  let fix first l := match l with tok :: r => if bool_decide (t_kind tok = Newline) then first r else Some tok | [] => None end in
  (fun tok => line_number_for_offset input (t_start tok)) <$> first l.

Definition parse_compound_body : PM Command :=
  if_ (fun st => kind_is Word st && is_word "{" st)
    (bump ;;;
     body <-- parse_simple_list_until_words_or_kinds ["}"]%string [RBrace] ;;
     if_ (kind_is End_) (fail (bs "syntax error: unexpected end of file"))
       (if_ (fun st => kind_is RBrace st || kind_is Word st && is_word "}" st) (bump ;;; pret tt) (pret tt) ;;;
        pret (bare (CGroup body))))
    parse_command.

Definition parse_function_def : PM Command :=
  saw_function_kw <-- gets (is_word "function") ;;
  name <-- (if saw_function_kw : bool then expect_word "function" ;;; parse_word_desc
            else tok <-- bump_or "expected function name" ;; pret (word_desc (token_value_to_string (t_value tok)) 0 tok)) ;;
  if_ (kind_is LParen) (bump ;;; expect_kind RParen "expected ')' in function")
    (if saw_function_kw then pret tt else fail (bs "expected '()' after function name")) ;;;
  skip_newlines ;;;
  first_body_line <-- gets (fun st => default (line_number_for_offset input (s_start name)) (compound_body_first_command_line st)) ;;
  command <-- parse_compound_body ;;
  match command_data command with
  | CSimple _ _ => fail_at (bs "function body must be a compound command") None
  | _ =>
      let total_lines := Z.of_nat (length (line_starts input)) in
      pret (bare (CFunctionDef name command (Z.max 0 (total_lines - first_body_line) + 1)))
  end.

Definition parse_coproc_command : PM Command :=
  expect_word "coproc" ;;;
  parts <-- if_ (peek_n_is_compound_opener 0) (c <-- parse_compound_body ;; pret (None, c))
              (if_ (fun st => kind_is Word st && peek_n_is_compound_opener 1 st)
                 (name <-- parse_word_desc ;; c <-- parse_compound_body ;; pret (Some name, c))
                 (c <-- parse_simple_command ;; pret (None, c))) ;;
  pret (with_flags (Z.lor CMD_WANT_SUBSHELL CMD_COPROC_SUBSHELL) (bare (CCoproc parts.1 parts.2))).

(** The command at a token, by its first word. *)
Definition command_at : PM Command :=
  if_ (is_word "if") parse_if_command
  (if_ (is_word "while") parse_while_command
  (if_ (is_word "until") parse_until_command
  (if_ (is_word "for") parse_for_command
  (if_ (is_word "case") parse_case_command
  (if_ (is_word "select") parse_select_command
  (if_ (fun st => is_word "function" st || is_function_def_start st) parse_function_def
  (if_ (is_word "coproc") parse_coproc_command
  (if_ (kind_is LBrace) parse_group_command
  (if_ (kind_is LParen) parse_subshell_command
  (if_ (kind_is DblLParen) (if_ dbl_lparen_starts_arith_command parse_arith_command parse_double_subshell_command)
  (if_ (kind_is DblLBracket) parse_cond_command
  (word <-- gets unexpected_reserved_word ;;
   match word with Some word => fail (unexpected word) | None => parse_simple_command end)))))))))))).

Definition set_line (line : Z) (c : Command) : Command :=
  if line_of c =? 0 then mkCommand (command_data c) (command_flags c) line (command_redirects c) else c.

Definition parse_command_body : PM Command :=
  line <-- gets (fun st => match peek st with Some tok => line_number_for_offset input (t_start tok) | None => 0 end) ;;
  saved <-- gets (fun st => (here_doc_count st, here_doc_body_offset st)) ;;
  set_here_docs 0 None ;;;
  c <-- command_at ;;
  c <-- parse_trailing_redirects c ;;
  set_here_docs saved.1 saved.2 ;;;
  pret (set_line line c).
End Command.

(** [parse_command], with the levels of nesting it may use. *)
Fixpoint parse_command (fuel : nat) : PM Command :=
  match fuel with O => fun _ => Fuel | S fuel => parse_command_body (parse_command fuel) end.

(** [parse_input_unit]: nothing where there is only white space. *)
Definition parse_input_unit : PM (option Command) :=
  skip_newlines ;;;
  if_ (kind_is End_) (pret None)
    (root <-- parse_simple_list_until (parse_command rounds) [] ;;
     skip_newlines ;;;
     if_ (kind_is End_) (pret (Some root))
       (what <-- gets (fun st => match peek st with Some tok => token_to_text_lossy tok | None => bs "EOF" end) ;; fail (unexpected what))).

(** [parse]: an empty text is an error. *)
Definition parse : PM Command :=
  root <-- parse_input_unit ;; match root with Some root => pret root | None => fail (bs "empty input") end.

(** The parser at its start. *)
Definition new (l : list Token) : PState := mkPState l 0 0 None.

Definition parse_tokens (l : list Token) : Res ParseError (option Command) :=
  match parse_input_unit (new l) with Ok (c, _) => Ok c | Err e => Err e | Fuel => Fuel end.
End Parser.

(** Lexing and parsing a text. *)
Definition parse_text (extglob posix comments : bool) (input : bytes) : Res ParseError (option Command) :=
  match tokens input extglob posix comments with Ok l => parse_tokens input l | _ => Fuel end.
