(* ===== verification/ParseHoare.v ===== *)
(** Reasoning about parser functions: weakest preconditions for the parser monad, the
    invariant of the tokens, and what the primitive operations do to the place in the
    text the parser has reached.

    Here-documents and redirections end: the loops over the lines of a body advance to
    the end of the text, and what they do to the tokens keeps their order. *)
From stdpp Require Import sorting.
From S2P Require Import Prelude Env Jobs Utf8 Buf Quote Expand Options Scan ScanProps Assign LexScan Lex LexProps LexTokens Ast ParseText Parse.

(** * Weakest preconditions *)

(** [m] gives a result or an error, and a result satisfies [Q]. *)
Definition wp {A} (m : PM A) (st : PState) (Q : A -> PState -> Prop) : Prop :=
  match m st with Ok (a, st') => Q a st' | Err _ => True | Fuel => False end.

Lemma wp_ret {A} (a : A) st (Q : A -> PState -> Prop) : Q a st -> wp (pret a) st Q.
Proof. done. Qed.

Lemma wp_mono {A} (m : PM A) st (P Q : A -> PState -> Prop) : wp m st P -> (forall a st', P a st' -> Q a st') -> wp m st Q.
Proof. unfold wp. destruct (m st) as [[a st']| |]; auto. Qed.

Lemma wp_bind {A B} (m : PM A) (k : A -> PM B) st (P : A -> PState -> Prop) (Q : B -> PState -> Prop) :
  wp m st P -> (forall a st', P a st' -> wp (k a) st' Q) -> wp (pbind m k) st Q.
Proof. unfold wp, pbind. intros Hm Hk. destruct (m st) as [[a st']| |]; [by apply Hk|done|done]. Qed.

Lemma wp_gets {A B} (f : PState -> A) (k : A -> PM B) st Q : wp (k (f st)) st Q -> wp (pbind (gets f) k) st Q.
Proof. done. Qed.

Lemma wp_if {A} c (a b : PM A) st Q : (c st = true -> wp a st Q) -> (c st = false -> wp b st Q) -> wp (if_ c a b) st Q.
Proof. unfold wp, if_. intros Ha Hb. destruct (c st); [by apply Ha|by apply Hb]. Qed.

Lemma wp_fail {A} text st (Q : A -> PState -> Prop) : wp (fail text) st Q.
Proof. done. Qed.

Lemma wp_fail_at {A} text span st (Q : A -> PState -> Prop) : wp (fail_at text span) st Q.
Proof. done. Qed.

(** * The invariant of the tokens *)

(** The least length of the token. *)
Definition width (tok : Token) : nat := if bool_decide (t_kind tok = DblRParen) then 2%nat else 1%nat.

Definition before (a b : Token) : Prop := (t_start a + width a <= t_start b)%nat.

(** What a redirection may have as its target. *)
Definition fits (n : nat) (tok : Token) : Prop :=
  (t_start tok + width tok <= S n)%nat /\ (t_end tok <= n)%nat /\ (is_redirection_target tok = true -> (t_start tok < t_end tok)%nat).

Definition ordered (n : nat) (l : list Token) : Prop := StronglySorted before l /\ Forall (fits n) l.

(** The tokens are in order in a text of [n] bytes, and those left start at [k] or
    after it. *)
Record reached (n k : nat) (st : PState) : Prop := mkReached {
  reached_tokens : ordered n (toks st);
  reached_rest : Forall (fun tok => (k <= t_start tok)%nat) (drop (index st) (toks st));
  reached_bound : (k <= S n)%nat;
  reached_offset : (default 0%nat (here_doc_body_offset st) <= n)%nat;
}.

Lemma width_pos tok : (1 <= width tok)%nat.
Proof. unfold width. case_bool_decide; lia. Qed.

Lemma sorted_app {A} (R : A -> A -> Prop) l1 l2 : StronglySorted R (l1 ++ l2) <->
  StronglySorted R l1 /\ StronglySorted R l2 /\ Forall (fun a => Forall (R a) l2) l1.
Proof.
  induction l1 as [|a l1 IH]; cbn; [split; [by intros ?; split_and!; [constructor| |constructor]|by intros (_ & ? & _)]|]. split.
  - intros [H Ha]%StronglySorted_inv. apply Forall_app in Ha as [? ?]. apply IH in H as (? & ? & ?). split_and!; try done; by constructor.
  - intros ([? ?]%StronglySorted_inv & ? & [? ?]%Forall_cons). constructor; [by apply IH|]. by apply Forall_app.
Qed.

Lemma sorted_filter {A} (R : A -> A -> Prop) f l : StronglySorted R l -> StronglySorted R (List.filter f l).
Proof.
  induction 1 as [|a l Hs IH Ha]; cbn; [constructor|]. destruct (f a); [|done]. constructor; [done|].
  apply Forall_forall. intros x Hx%list_elem_of_In%filter_In. eapply Forall_forall in Ha; [done|]. by apply list_elem_of_In, (proj1 Hx).
Qed.

Lemma forall_filter {A} (P : A -> Prop) f l : Forall P l -> Forall P (List.filter f l).
Proof. induction 1; cbn; [constructor|]. destruct (f x); [by constructor|done]. Qed.

Lemma forall_filtered {A} (P : A -> Prop) f l : (forall x, f x = true -> P x) -> Forall P (List.filter f l).
Proof. intros H. induction l as [|a l IH]; cbn; [constructor|]. destruct (f a) eqn:E; [constructor; auto|done]. Qed.

Section Reached.
Context (n : nat).

Abbreviation reached := (reached n).

Lemma reached_weaken k k' st : reached k st -> (k' <= k)%nat -> reached k' st.
Proof. intros [? H ? ?] Hk. constructor; try done; [|lia]. eapply Forall_impl; [exact H|]. cbn. lia. Qed.

Lemma peek_rest st tok : peek st = Some tok -> drop (index st) (toks st) = tok :: drop (S (index st)) (toks st).
Proof. apply drop_S. Qed.

Lemma reached_peek k st tok : reached k st -> peek st = Some tok -> (k <= t_start tok)%nat /\ fits n tok.
Proof.
  intros [[_ Hf] Hr _ _] Hp. rewrite (peek_rest _ _ Hp) in Hr. apply Forall_cons in Hr as [? _]. split; [done|].
  eapply Forall_lookup_1; [exact Hf|exact Hp].
Qed.

(** Over a token. *)
Lemma reached_over k st tok : reached k st -> peek st = Some tok -> reached (S k) (set_index (S (index st)) st).
Proof.
  intros Hre Hp. destruct (reached_peek _ _ _ Hre Hp) as [Hk Hf]. destruct Hre as [[Hs Ha] Hr Hb Ho]. pose proof (width_pos tok). constructor; cbn; try done.
  - rewrite <-(take_drop (index st) (toks st)), (peek_rest _ _ Hp) in Hs. apply sorted_app in Hs as (_ & Hs & _).
    apply StronglySorted_inv in Hs as [_ Hs]. eapply Forall_impl; [exact Hs|]. unfold before. cbn. lia.
  - destruct Hf as [Hf _]. lia.
Qed.

Lemma kind_peek st k : peek_kind st = Some k -> exists tok, peek st = Some tok /\ t_kind tok = k.
Proof. unfold peek_kind. destruct (peek st) as [tok|]; [|done]. intros [= <-]. eauto. Qed.

Lemma is_kind st k : kind_is k st = true -> exists tok, peek st = Some tok /\ t_kind tok = k.
Proof. intros H%bool_decide_eq_true. by apply kind_peek. Qed.

Lemma word_peek st t : is_word t st = true -> exists tok, peek st = Some tok.
Proof. unfold is_word. destruct (peek st); eauto; done. Qed.

Lemma wp_bump k st tok : reached k st -> peek st = Some tok ->
  wp bump st (fun o st' => o = Some tok /\ st' = set_index (S (index st)) st /\ reached (S k) st').
Proof. intros Hr Hp. unfold wp, bump. rewrite Hp. split_and!; [done..|]. by eapply reached_over. Qed.

(** [bump] as the last of its sequence. *)
Lemma wp_bump_seq {A} k st tok (m : PM A) Q : reached k st -> peek st = Some tok ->
  (forall st', reached (S k) st' -> wp m st' Q) -> wp (pbind bump (fun _ => m)) st Q.
Proof. intros Hr Hp Hm. eapply wp_bind; [by eapply wp_bump|]. intros o st' (_ & _ & H). auto. Qed.

Lemma wp_bump_or k st text : reached k st -> wp (bump_or text) st (fun tok st' => peek st = Some tok /\ reached (S k) st').
Proof.
  intros Hr. unfold wp, bump_or, pbind, bump. destruct (peek st) as [tok|] eqn:Ep; [|done]. cbn. split; [done|]. by eapply reached_over.
Qed.

Lemma wp_expect_word k st t : reached k st -> wp (expect_word t) st (fun _ st' => reached (S k) st').
Proof.
  intros Hr. unfold expect_word. apply wp_if; [|done]. intros [tok Hp]%word_peek. by eapply wp_bump_seq.
Qed.

Lemma reached_split k st : reached k st -> kind_is DblRParen st = true -> reached (S k) (split_double_paren st).
Proof.
  intros Hr (tok & Hp & Hk)%is_kind. pose proof (reached_peek _ _ _ Hr Hp) as [Hkt Hft]. destruct Hr as [[Hs Ha] Hd Hb Ho].
  set (tok' := mkToken RParen (t_value tok) (S (t_start tok)) (t_end tok) (t_flags tok)).
  assert (Hw : width tok = 2%nat) by (unfold width; by rewrite Hk). assert (Hw' : width tok' = 1%nat) by done.
  assert (Htoks : toks (split_double_paren st) = take (index st) (toks st) ++ tok' :: drop (S (index st)) (toks st)).
  { cbn. rewrite <-(take_drop_middle (toks st) (index st) tok) at 1 by done. pose proof (lookup_lt_Some _ _ _ Hp).
    replace (index st) with (length (take (index st) (toks st)) + 0)%nat at 1 by (rewrite length_take; lia). by rewrite alter_app_r. }
  rewrite <-(take_drop_middle (toks st) (index st) tok) in Hs, Ha by done.
  assert (Hlen : length (take (index st) (toks st)) = index st) by (rewrite length_take; pose proof (lookup_lt_Some _ _ _ Hp); lia).
  apply sorted_app in Hs as (Hs1 & [Hs2 Hs3]%StronglySorted_inv & Hs4). apply Forall_app in Ha as [Ha1 [_ Ha2]%Forall_cons].
  unfold fits in Hft. constructor; [split| | |done].
  - rewrite Htoks. apply sorted_app. split_and!; [done|constructor; [done|]|].
    + eapply Forall_impl; [exact Hs3|]. unfold before. rewrite Hw, Hw'. cbn. lia.
    + eapply Forall_impl; [exact Hs4|]. intros a [Hb' ?]%Forall_cons. constructor; [|done]. unfold before in *. cbn. lia.
  - rewrite Htoks. apply Forall_app. split; [done|]. constructor; [|done]. split_and!; [rewrite Hw'; cbn; lia|cbn; lia|done].
  - rewrite Htoks. change (index (split_double_paren st)) with (index st). rewrite <-Hlen at 1. rewrite drop_app_length. constructor; [cbn; lia|].
    eapply Forall_impl; [exact Hs3|]. unfold before. cbn. lia.
  - lia.
Qed.

Lemma wp_expect_kind k st kind text : reached k st -> wp (expect_kind kind text) st (fun _ st' => reached (S k) st').
Proof.
  intros Hr. unfold wp, expect_kind. destruct (_ && _) eqn:E; [apply andb_true_iff in E as [_ E]; by apply reached_split|].
  destruct (kind_is kind st) eqn:Ek; [|done]. apply is_kind in Ek as (tok & Hp & _). apply (wp_bump_seq k st tok (pret tt)); done.
Qed.

Lemma wp_skip_newlines_loop fuel k st : reached k st -> (S n < fuel + k)%nat ->
  wp (skip_newlines_loop fuel) st (fun _ st' => reached k st' /\ (peek_kind st = Some Newline -> reached (S k) st')).
Proof.
  revert k st. induction fuel as [|fuel IH]; intros k st Hr Hf; [pose proof (reached_bound _ _ _ Hr); lia|]. cbn [skip_newlines_loop]. apply wp_if.
  - intros (tok & Hp & _)%is_kind. eapply wp_bump_seq; [done..|]. intros st' Hr'. eapply wp_mono; [apply (IH (S k)); [done|lia]|].
    intros _ st'' [H _]. split; [eapply reached_weaken; [done|lia]|done].
  - intros Hn%bool_decide_eq_false. cbn. done.
Qed.
End Reached.

(** Weaken a place the parser has reached. *)
Ltac weaker := cbv beta iota in *; match goal with H : reached ?n ?k ?st |- reached ?n _ ?st => apply (reached_weaken n k); [exact H|lia] end.

(** * Tokens of the lexer *)

Lemma kind_text_dbl : length (kind_text DblRParen) = 2%nat.
Proof. reflexivity. Qed.

Lemma tokenized_ordered n plain s l : tokenized n plain s l -> (length s <= n)%nat ->
  ordered n l /\ Forall (fun tok => (n - length s <= t_start tok)%nat) l.
Proof.
  induction 1 as [s Hg|g lexeme rest tok l Hg Hne Hk Hst Hen Hp Hl Ht IH]; intros Hs.
  - assert (Hf : fits n (mkToken End_ NoValue n n 0)) by (split_and!; [change (n + 1 <= S n)%nat; lia|done|done]).
    split; [split; [apply SSorted_cons; constructor|by apply Forall_singleton]|]. apply Forall_singleton. cbn. lia.
  - rewrite !length_app in Hs. rewrite length_app in Hst. assert (Hlen : (1 <= length lexeme)%nat) by (destruct lexeme; [done|cbn; lia]).
    destruct IH as [[Hs' Hf] Hb]; [lia|]. assert (Hw : (width tok <= length lexeme)%nat).
    { unfold width. case_bool_decide as Hk'; [|done]. unfold lexeme_of in Hl. rewrite Hk' in Hl. cbn in Hl. destruct Hl as [_ ->]. done. }
    split; [split; constructor; try done|constructor; [rewrite !length_app; lia|]].
    + eapply Forall_impl; [exact Hb|]. unfold before. cbn. lia.
    + split_and!; lia.
    + eapply Forall_impl; [exact Hb|]. rewrite !length_app. cbn. lia.
Qed.

Lemma lexed_ordered input extglob posix comments :
  exists l, tokens input extglob posix comments = Ok l /\ ordered (length input) l.
Proof.
  destruct (tokens_loop_total input extglob posix comments (length input + 2) lex_start input) as (l & Hl & Ht); [lia|done..|].
  exists l. split; [done|]. by apply (tokenized_ordered _ _ _ _ Ht).
Qed.

(** * Lines *)

Lemma line_end_bounds input offset : (offset <= length input)%nat -> (offset <= line_end_from input offset <= length input)%nat.
Proof.
  intros Ho. unfold line_end_from. pose proof (span_app (fun b => negb (b =? 10)) (drop offset input)) as Ha.
  destruct (span _ _) as [line rest]. apply (f_equal length) in Ha. cbn [fst snd] in Ha. rewrite length_app, length_drop in Ha. lia.
Qed.

Lemma body_cursor_total input l fuel cursor : (cursor <= length input)%nat -> (length input < fuel + cursor)%nat ->
  exists c, body_cursor_loop fuel input l cursor = Some c /\ (cursor <= c <= length input)%nat.
Proof.
  revert cursor. induction fuel as [|fuel IH]; intros cursor Hc Hf; [lia|]. cbn [body_cursor_loop].
  match goal with |- context [fold_left ?f l cursor] => set (step := f) end.
  assert (He : forall l' e, (e <= fold_left step l' e)%nat).
  { induction l' as [|tok l' IHl]; intros e; [done|]. cbn. etrans; [|apply IHl]. unfold step. destruct (_ && _) eqn:E; [|done]. to_prop. lia. }
  specialize (He l cursor). set (e := fold_left step l cursor) in *. destruct (e =? cursor)%nat eqn:Ee; [exists cursor; split; [done|lia]|].
  to_prop. pose proof (line_end_bounds input (Nat.min e (length input)) ltac:(lia)) as Hl.
  destruct (length input <=? _)%nat eqn:En; to_prop; [eexists; split; [done|lia]|].
  destruct (IH (S (line_end_from input (Nat.min e (length input))))) as (c & Hc' & Hb); [lia..|]. exists c. split; [done|lia].
Qed.

Lemma logical_line_total fuel input esc cursor : (cursor <= length input)%nat -> (length input < fuel + cursor)%nat ->
  exists line end_ newline, heredoc_logical_line fuel input esc cursor = Some (line, end_, newline)
    /\ (cursor <= end_ <= length input)%nat /\ (if newline : bool then (cursor < end_)%nat else end_ = length input).
Proof.
  revert cursor. induction fuel as [|fuel IH]; intros cursor Hc Hf; [lia|]. cbn [heredoc_logical_line].
  pose proof (span_app (fun b => negb (b =? 10)) (drop cursor input)) as Ha. destruct (span _ _) as [physical rest].
  apply (f_equal length) in Ha. cbn [fst snd] in Ha. rewrite length_app, length_drop in Ha. destruct rest as [|b rest]; cbn [is_nil negb length] in *.
  - rewrite andb_false_r. cbn [andb]. eexists _, _, _. split; [done|]. cbn. lia.
  - destruct (_ && _).
    + destruct (IH (S (cursor + length physical))) as (line & e & nl & -> & Hb & Hn); [lia..|]. cbn. eexists _, _, _. split; [done|].
      destruct nl; split; lia.
    + eexists _, _, _. split; [done|]. cbn. lia.
Qed.

Lemma body_total fuel input delimiter tabs esc cursor : (cursor <= length input)%nat -> (length input < fuel + cursor)%nat ->
  exists body end_, heredoc_body_loop fuel input delimiter tabs esc cursor = Some (body, end_) /\ (cursor <= end_ <= length input)%nat.
Proof.
  revert cursor. induction fuel as [|fuel IH]; intros cursor Hc Hf; [lia|]. cbn [heredoc_body_loop].
  destruct (logical_line_total (S (length input)) input esc cursor) as (line & e & nl & -> & Hb & Hn); [lia..|].
  destruct (bytes_eqb _ _); [eauto|]. destruct (length input <=? e)%nat eqn:Ee; [eauto|]. to_prop.
  destruct nl; [|lia]. destruct (IH e) as (body & end_ & -> & Hb'); [lia..|]. cbn. eexists _, _. split; [done|lia].
Qed.

(** * The tokens of a body *)

Section Here.
Context (input : bytes).

Abbreviation n := (length input).
Abbreviation reached := (reached n).

(** All tokens up to the last one read start before [offset]. *)
Definition read_before (offset : nat) (st : PState) : Prop := Forall (fun tok => (t_start tok < offset)%nat) (take (index st) (toks st)).

Lemma last_read k st tok : reached k st -> peek st = Some tok -> forall offset, (t_start tok < offset)%nat ->
  read_before offset (set_index (S (index st)) st).
Proof.
  intros [[Hs _] _ _ _] Hp offset Ho. unfold read_before. cbn. rewrite (take_S_r _ _ _ Hp). apply Forall_app. split; [|by apply Forall_singleton].
  rewrite <-(take_drop (index st) (toks st)), (peek_rest _ _ Hp) in Hs. apply sorted_app in Hs as (_ & _ & Hs). eapply Forall_impl; [exact Hs|].
  intros a [Ha _]%Forall_cons. unfold before in Ha. cbn. lia.
Qed.

Lemma shift_ordered m l : ordered m l -> (m + (n - m) = n)%nat -> ordered n (map (shift (n - m)) l) /\
  Forall (fun tok => (n - m <= t_start tok)%nat) (map (shift (n - m)) l).
Proof.
  intros [Hs Hf] Hm. split; [split|].
  - clear Hf. induction Hs as [|a l Hs IH Ha]; cbn; [constructor|]. constructor; [done|]. rewrite Forall_map. eapply Forall_impl; [exact Ha|].
    unfold before, width. cbn. lia.
  - rewrite Forall_map. eapply Forall_impl; [exact Hf|]. intros tok (H1 & H2 & H3). unfold fits, width, is_redirection_target in *. cbn.
    split_and!; [lia..|]. intros H. specialize (H3 H). lia.
  - rewrite Forall_map. apply Forall_forall. intros tok _. cbn. lia.
Qed.

(** The state after the tokens from its index on are replaced by [l], which start at [k]. *)
Lemma replaced k st l : reached k st -> (index st <= length (toks st))%nat -> ordered n (take (index st) (toks st) ++ l) ->
  Forall (fun tok => (k <= t_start tok)%nat) l ->
  reached k (mkPState (take (index st) (toks st) ++ l) (index st) (here_doc_count st) (here_doc_body_offset st)).
Proof.
  intros [_ _ Hb Ho] Hi Hl Hk. constructor; cbn; [done| |done|done]. by rewrite drop_app_length' by (rewrite length_take; lia).
Qed.

Lemma wp_skip_tokens k st start_offset end_offset : reached k st -> (index st <= length (toks st))%nat -> read_before start_offset st ->
  (start_offset <= end_offset <= n)%nat ->
  wp (skip_tokens_in_range input start_offset end_offset) st (fun _ st' => reached k st').
Proof.
  intros Hr Hi Hrb Ho. pose proof Hr as [[Hs Hf] Hk Hb Hd]. unfold wp, skip_tokens_in_range.
  rewrite <-(take_drop (index st) (toks st)) in Hs, Hf. pose proof Hs as (Hs1 & Hs2 & Hs3)%sorted_app. apply Forall_app in Hf as [Hf1 Hf2].
  destruct (existsb _ (toks st)) eqn:Ee.
  - apply existsb_exists in Ee as (x & Hx & [Hx1 Hx2]%andb_true_iff). unfold in_range in Hx1. to_prop.
    destruct (lexed_ordered (drop end_offset input) false false true) as (l & -> & Hl). rewrite length_drop in Hl.
    destruct (shift_ordered (n - end_offset) l Hl) as [Hlo Hls]; [lia|]. replace (n - (n - end_offset))%nat with end_offset in * by lia.
    assert (Hkx : (k <= t_start x)%nat).
    { eapply Forall_forall in Hk; [exact Hk|]. apply list_elem_of_In in Hx. rewrite <-(take_drop (index st) (toks st)) in Hx.
      apply elem_of_app in Hx as [Hx|Hx]; [|done]. exfalso. eapply Forall_forall in Hrb; [|exact Hx]. cbn in Hrb. lia. }
    assert (Hft : List.filter (fun tok => (t_start tok <? start_offset)%nat) (take (index st) (toks st)) = take (index st) (toks st)).
    { clear -Hrb. unfold read_before in Hrb. induction Hrb as [|a r Ha _ IH]; cbn [List.filter]; [done|]. apply Nat.ltb_lt in Ha as ->. by f_equal. }
    rewrite <-(take_drop (index st) (toks st)) at 1. rewrite List.filter_app, Hft, <-app_assoc.
    set (rest := List.filter _ (drop (index st) (toks st))).
    assert (Hrest : forall tok, In tok (take (index st) (toks st) ++ rest) -> before tok (mkToken End_ NoValue end_offset 0 0)).
    { intros tok Hin. unfold before. cbn. assert (t_start tok < start_offset)%nat; [|unfold width; case_bool_decide; lia].
      apply in_app_or in Hin as [Hin|[_ Hin]%filter_In]; [|by to_prop]. apply list_elem_of_In in Hin. by eapply Forall_forall in Hrb. }
    apply replaced; [done..| |].
    + split; [|apply Forall_app; split; [done|apply Forall_app; split; [by apply forall_filter|apply Hlo]]].
      rewrite app_assoc. apply sorted_app. split_and!; [|apply Hlo|].
      * apply sorted_app. split_and!; [done|by apply sorted_filter|]. eapply Forall_impl; [exact Hs3|]. intros a. apply forall_filter.
      * apply Forall_forall. intros a Ha%list_elem_of_In%Hrest. eapply Forall_impl; [exact Hls|]. unfold before in *. cbn in *. lia.
    + apply Forall_app. split; [by apply forall_filter|]. eapply Forall_impl; [exact Hls|]. cbn. lia.
  - apply replaced; [done..| |by apply forall_filter].
    split; [|apply Forall_app; split; [done|by apply forall_filter]].
    apply sorted_app. split_and!; [done|by apply sorted_filter|]. eapply Forall_impl; [exact Hs3|]. intros a. apply forall_filter.
Qed.

Lemma read_before_weaken a b st : read_before a st -> (a <= b)%nat -> read_before b st.
Proof. intros H Hab. eapply Forall_impl; [exact H|]. cbn. lia. Qed.

Lemma wp_consume k st delimiter start_offset tabs esc : reached k st -> (index st <= length (toks st))%nat -> read_before start_offset st ->
  (start_offset <= n)%nat ->
  wp (consume_heredoc_body input delimiter start_offset tabs esc) st (fun r st' => reached k st' /\ (r.2 <= n)%nat).
Proof.
  intros Hr Hi Hb Hs. unfold wp, consume_heredoc_body. destruct (n <=? start_offset)%nat eqn:En; [done|]. to_prop.
  assert (Hcur : forall c, (start_offset <= c <= n)%nat ->
    wp (fun st => match heredoc_body_loop (S n) input delimiter tabs esc c with
        | None => Fuel | Some (body, end_) => (skip_tokens_in_range input c end_ ;;; pret (body, end_)) st end) st
      (fun r st' => reached k st' /\ (r.2 <= n)%nat)).
  { intros c Hc. destruct (body_total (S n) input delimiter tabs esc c) as (body & e & Hbody & He); [lia..|]. unfold wp. rewrite Hbody.
    eapply wp_bind; [apply (wp_skip_tokens k); [done|done|by eapply read_before_weaken; [|apply Hc]|lia]|]. intros ? st' Hr'. apply wp_ret. split; [done|]. cbn. lia. }
  destruct (here_doc_body_offset st) as [offset|] eqn:Eo.
  - apply Hcur. pose proof (reached_offset _ _ _ Hr) as Ho. rewrite Eo in Ho. cbn in Ho. lia.
  - unfold initial_heredoc_body_cursor. pose proof (line_end_bounds input start_offset Hs).
    destruct (n <=? line_end_from input start_offset)%nat eqn:El; [done|]. to_prop.
    destruct (body_cursor_total input (toks st) (S n) (S (line_end_from input start_offset))) as (c & -> & Hc); [lia..|]. apply Hcur. lia.
Qed.

Lemma reached_docs k st count offset : reached k st -> (default 0 offset <= n)%nat ->
  reached k (mkPState (toks st) (index st) count offset).
Proof. intros [? ? ? ?] Ho. by constructor. Qed.

Lemma wp_set_docs {A} k st count offset (m : PM A) Q : reached k st -> (default 0 offset <= n)%nat ->
  (forall st', reached k st' -> toks st' = toks st -> index st' = index st -> wp m st' Q) ->
  wp (pbind (set_here_docs count offset) (fun _ => m)) st Q.
Proof. intros Hr Ho Hm. apply Hm; [by apply reached_docs|done..]. Qed.

(** After the target of a redirection. *)
Lemma wp_heredoc k st op i target : reached k st -> (index st <= length (toks st))%nat -> read_before (s_end target) st -> (s_end target <= n)%nat ->
  wp (parse_heredoc input op i target) st (fun _ st' => reached k st').
Proof.
  intros Hr Hi Hb Ht. unfold parse_heredoc. destruct i; try exact Hr;
    (apply wp_if; [intros; apply wp_fail_at|intros _]; do 2 apply wp_gets;
     eapply (wp_set_docs k); [done|by apply reached_offset in Hr|]; intros st' Hr' Hto Hin;
     eapply wp_bind; [apply (wp_consume k st' _ (s_end target)); [done|by rewrite Hto, Hin|unfold read_before; by rewrite Hto, Hin|done]|];
     intros body st'' [Hr'' Hbody]; apply wp_gets;
     eapply (wp_set_docs k); [done|done|]; intros st3 Hr3 _ _; done).
Qed.

(** * Redirections *)

Lemma redirection_fits tok : is_redirection_target tok = true -> fits n tok -> (t_start tok < t_end tok <= n)%nat.
Proof. intros H (_ & H2 & H3). specialize (H3 H). lia. Qed.

Lemma wp_redirect k st tok redirector : reached k st -> peek st = Some tok -> wp (parse_redirect input redirector) st (fun _ st' => reached (S k) st').
Proof.
  intros Hr Hp. unfold parse_redirect. eapply wp_bind; [by eapply wp_bump|]. intros o st1 (-> & _ & Hr1). destruct (redirection_of _) as [i|]; [|done].
  eapply (wp_bind _ _ _ (fun o st2 => match o with Some target => peek st1 = Some target /\ st2 = set_index (S (index st1)) st1 /\ reached (S (S k)) st2 | None => True end)).
  { unfold wp, bump. destruct (peek st1) as [target|] eqn:Ep; [|done]. split_and!; [done..|]. by eapply reached_over. }
  intros [target|] st2; [|done]. intros (Hp1 & -> & Hr2). destruct (is_redirection_target target) eqn:Et; [|done].
  destruct (reached_peek _ _ _ _ Hr1 Hp1) as [_ Hf]. pose proof (redirection_fits _ Et Hf) as Hb.
  eapply wp_bind; [apply (wp_heredoc (S (S k)))|].
  - done.
  - cbn. apply lookup_lt_Some in Hp1. lia.
  - cbn. eapply last_read; [done..|]. lia.
  - cbn. lia.
  - intros doc st3 Hr3. apply wp_ret. weaker.
Qed.

Lemma peek_next st tok : peek_n 1 st = Some tok -> peek (set_index (S (index st)) st) = Some tok.
Proof. unfold peek_n, peek. cbn. by rewrite Nat.add_1_r. Qed.

Lemma kind_at_peek m p st : kind_at m p st = true -> exists tok, peek_n m st = Some tok.
Proof. unfold kind_at. destruct (peek_n m st); eauto; done. Qed.

(** A redirection after its redirector. *)
Lemma wp_with_redirector {A} k st p (f : Redirect -> A) : reached k st -> kind_at 1 p st = true ->
  wp (redirector <-- bump ;; r <-- parse_redirect input redirector ;; pret (f r)) st (fun _ st' => reached (S k) st').
Proof.
  intros Hr (next & Hn)%kind_at_peek. destruct (peek st) as [tok|] eqn:Ep.
  - eapply wp_bind; [by eapply wp_bump|]. intros o st' (-> & -> & Hr'). eapply wp_bind; [eapply wp_redirect; [done|by apply peek_next]|].
    intros r st'' Hr''. apply wp_ret. weaker.
  - exfalso. unfold peek, peek_n in *. apply lookup_ge_None in Ep. apply lookup_lt_Some in Hn. lia.
Qed.

Lemma redirector_next st : is_redir_word_redirector st = true -> kind_at 1 is_redirection_kind st = true.
Proof. unfold is_redir_word_redirector. by intros [_ ?]%andb_true_iff. Qed.

Lemma number_next st : number_is_adjacent_redirection_operator st = true -> kind_at 1 is_redirection_kind st = true.
Proof. unfold number_is_adjacent_redirection_operator. by intros [? _]%andb_true_iff. Qed.

Lemma operator_peek st : current_is_redirection_operator st = true -> exists tok, peek st = Some tok.
Proof. intros (tok & H)%kind_at_peek. unfold peek_n in H. rewrite Nat.add_0_r in H. eauto. Qed.

Lemma wp_next_redirect k st : reached k st ->
  wp (next_redirect input) st (fun r st' => reached (match r with Some _ => S k | None => k end) st').
Proof.
  intros Hr. unfold next_redirect. 
  assert (Hw : kind_at 1 is_redirection_kind st = true ->
    wp (redirector <-- bump ;; r <-- parse_redirect input redirector ;; pret (Some r)) st (fun r st' => reached (match r with Some _ => S k | None => k end) st')).
  { intros H. eapply wp_mono; [by eapply wp_with_redirector|]. intros [r|] st' H'; [done|weaker]. }
  apply wp_if; [by intros ?%redirector_next; auto|]. intros _. apply wp_if.
  - intros [tok Hp]%operator_peek. eapply wp_bind; [by eapply wp_redirect|]. done.
  - intros _. apply wp_if; [|done]. intros [_ H]%andb_true_iff. apply number_next in H. auto.
Qed.

Lemma wp_trailing fuel k st c : reached k st -> (S n < fuel + k)%nat -> wp (trailing_redirects_loop input fuel c) st (fun _ st' => reached k st').
Proof.
  revert k st c. induction fuel as [|fuel IH]; intros k st c Hr Hf; [pose proof (reached_bound _ _ _ Hr); lia|]. cbn [trailing_redirects_loop].
  eapply wp_bind; [by apply wp_next_redirect|]. intros [r|] st' Hr'; [|done]. eapply wp_mono; [apply (IH (S k)); [done|lia]|].
  intros ? st'' H. weaker.
Qed.

Lemma wp_trailing_redirects k st c : reached k st -> wp (parse_trailing_redirects input c) st (fun _ st' => reached k st').
Proof. intros. apply wp_trailing; [done|]. unfold rounds. lia. Qed.

Lemma wp_skip_newlines k st : reached k st ->
  wp (skip_newlines input) st (fun _ st' => reached k st' /\ (peek_kind st = Some Newline -> reached (S k) st')).
Proof. intros. apply wp_skip_newlines_loop; [done|]. unfold rounds. lia. Qed.
End Here.
