(* ===== verification/ParseProps.v ===== *)
(** The parts of commands that hold no command: simple commands, patterns, word lists,
    conditions and arithmetic texts end, and consume what they return.

    The command parser ends on every text, with a command or an error: every function
    of the recursive descent consumes a token before it parses a command again, and
    every round of a loop consumes one. *)
From S2P Require Import Prelude Env Jobs Utf8 Buf Quote Expand Options Scan ScanProps Assign LexScan Lex LexProps LexTokens Ast ParseText Parse ParseHoare.

(** The next token, from what a test told of it. *)
Ltac next_token_of st :=
  lazymatch goal with
  | H : peek st = Some _ |- _ => idtac
  | H : kind_is _ st = true |- _ => let tok := fresh "tok" in let H' := fresh "Hp" in pose proof H as (tok & H' & _)%is_kind
  | H : is_word _ st = true |- _ => let tok := fresh "tok" in let H' := fresh "Hp" in pose proof H as [tok H']%word_peek
  | H : peek_kind st = Some _ |- _ => let tok := fresh "tok" in let H' := fresh "Hp" in pose proof H as (tok & H' & _)%kind_peek
  end.

(** The next step of a parser function: a test of the state, a token, a result or an
    error. *)
Ltac step :=
  lazymatch goal with
  | |- wp (pbind (gets _) _) _ _ => apply wp_gets
  | |- wp (if_ _ _ _) _ _ => let H := fresh "Hc" in apply wp_if; intros H
  | |- wp (pret _) _ _ => apply wp_ret
  | |- wp (fail _) _ _ => apply wp_fail
  | |- wp (fail_at _ _) _ _ => apply wp_fail_at
  | |- wp (pbind bump _) ?st _ => let st' := fresh "st" in let H := fresh "Hr" in
      next_token_of st; eapply wp_bump_seq; [eassumption|eassumption|intros st' H]
  end.

(** A function whose lemma is [lem], with the rest after it. *)
Tactic Notation "call" uconstr(lem) := eapply wp_bind; [eapply lem; eassumption|cbn beta; intros ? ? ?].
Tactic Notation "call" uconstr(lem) "with" tactic(t) := eapply wp_bind; [eapply lem; t|cbn beta; intros ? ? ?].
(** A function that is the last one. *)
Tactic Notation "tail" uconstr(lem) := eapply wp_mono; [eapply lem; try eassumption; try lia|cbn beta; intros ? ? ?].

Section Parts.
Context (input : bytes).

Abbreviation n := (length input).
Abbreviation reached := (reached n).

Lemma wp_newlines {A} k st (m : PM A) Q : reached k st -> (forall st', reached k st' -> wp m st' Q) ->
  wp (pbind (skip_newlines input) (fun _ => m)) st Q.
Proof. intros Hr Hm. eapply wp_bind; [by apply wp_skip_newlines|cbn beta]. intros _ st' [H _]. auto. Qed.

Lemma wp_some_newlines {A} k st (m : PM A) Q : reached k st -> peek_kind st = Some Newline -> (forall st', reached (S k) st' -> wp m st' Q) ->
  wp (pbind (skip_newlines input) (fun _ => m)) st Q.
Proof. intros Hr Hn Hm. eapply wp_bind; [by apply wp_skip_newlines|cbn beta]. intros _ st' [_ H]. auto. Qed.

(** The loops have enough rounds. *)
Lemma enough k st : reached k st -> (S n < rounds input + k)%nat.
Proof. intros _. unfold rounds. lia. Qed.

Lemma no_round k st (P : Prop) : reached k st -> (S n < 0 + k)%nat -> P.
Proof. intros H. apply reached_bound in H. lia. Qed.

(** * Simple commands *)

Lemma wp_simple_part k st name : reached k st ->
  wp (simple_part input name) st (fun r st' => reached (match r with Some _ => S k | None => k end) st').
Proof.
  intros Hr. unfold simple_part. set (Q := fun (r : option (SourceWord * option bytes + Redirect)) st' => reached (match r with Some _ => S k | None => k end) st').
  assert (Hw : kind_at 1 is_redirection_kind st = true ->
    wp (redirector <-- bump ;; r <-- parse_redirect input redirector ;; pret (Some (inr r))) st Q).
  { intros H. tail wp_with_redirector. destruct a; [done|unfold Q; weaker]. }
  step; [apply Hw; by apply redirector_next|]. step. destruct (peek st) as [tok|] eqn:Ep; [|done].
  assert (Hred : wp (r <-- parse_redirect input None ;; pret (Some (inr r))) st Q) by (eapply wp_bind; [by eapply wp_redirect|]; done).
  destruct (t_kind tok); try exact Hr; try exact Hred; [step; destruct (_ && _); [done|exact Hr0]..|].
  step; [apply Hw; by apply number_next|]. step. exact Hr0.
Qed.

Lemma wp_simple_loop fuel k st words redirects name : reached k st -> (S n < fuel + k)%nat ->
  wp (simple_loop input fuel words redirects name) st (fun r st' => reached k st' /\ (r = (words, redirects) \/ reached (S k) st')).
Proof.
  revert k st words redirects name. induction fuel as [|fuel IH]; intros k st words redirects name Hr Hf; [by eapply no_round|].
  cbn [simple_loop]. call wp_simple_part. destruct a as [[[word name']|r]|].
  - tail (IH (S k)). destruct H0 as [H0 _]. split; [weaker|by right].
  - tail (IH (S k)). destruct H0 as [H0 _]. split; [weaker|by right].
  - split; [done|by left].
Qed.

Lemma wp_simple_command k st : reached k st -> wp (parse_simple_command input) st (fun _ st' => reached (S k) st').
Proof.
  intros Hr. unfold parse_simple_command. call wp_simple_loop with (try eassumption; by eapply enough). destruct H as [_ [->|H]]; [done|].
  destruct (_ && _); [done|exact H].
Qed.

(** * Patterns and word lists *)

Lemma wp_pattern_loop fuel k st context p : reached k st -> (S n < fuel + k)%nat ->
  wp (pattern_loop input fuel context p) st
    (fun r st' => reached k st' /\ (r = (p, false) \/ reached (S k) st')).
Proof.
  revert k st p. induction fuel as [|fuel IH]; intros k st p Hr Hf; [by eapply no_round|]. cbn [pattern_loop]. step.
  destruct (peek st) as [tok|] eqn:Ep; [|split; [done|by left]]. destruct (pattern_word_stops_before _ _ _); [split; [done|by left]|].
  assert (Hnext : forall p', wp (pbind bump (fun _ => pattern_loop input fuel context p')) st (fun r st' => reached k st' /\ (r = (p, false) \/ reached (S k) st'))).
  { intros p'. step. tail (IH (S k)). destruct H as [H _]. split; [weaker|by right]. }
  cbv zeta. destruct (t_kind tok); try apply Hnext. destruct context; try apply Hnext. destruct (p_depth p) as [|[|d]]; [split; [done|by left]| |apply Hnext].
  step. split; [weaker|by right].
Qed.

Lemma wp_collect k st context : reached k st -> wp (collect_pattern_word input context) st (fun _ st' => reached (S k) st').
Proof.
  intros Hr. unfold collect_pattern_word. step. destruct (peek st) as [first|]; [|done].
  call wp_pattern_loop with (try eassumption; by eapply enough). destruct a as [p closed]. destruct H as [_ [[= -> ->]|H]]; [done|].
  destruct (is_nil _); done.
Qed.

Lemma wp_case_patterns fuel k st patterns : reached k st -> (S n < fuel + k)%nat ->
  wp (case_patterns_loop input fuel patterns) st (fun r st' => reached k st' /\ (r.2 = true -> reached (S k) st')).
Proof.
  revert k st patterns. induction fuel as [|fuel IH]; intros k st patterns Hr Hf; [by eapply no_round|]. cbn [case_patterns_loop]. step.
  assert (Hnext : forall patterns st', reached (S k) st' ->
    wp (case_patterns_loop input fuel patterns) st' (fun r st' => reached k st' /\ (r.2 = true -> reached (S k) st'))).
  { intros ps st' H. tail (IH (S k)). destruct H0 as [H0 _]. split; [weaker|done]. }
  assert (Hcollect : wp (r <-- collect_pattern_word input PatCase ;;
      if r.2 : bool then pret (patterns ++ [r.1], true) else case_patterns_loop input fuel (patterns ++ [r.1])) st
    (fun r st' => reached k st' /\ (r.2 = true -> reached (S k) st'))).
  { call wp_collect. destruct (a.2); [|by apply Hnext]. split; [weaker|done]. }
  destruct (peek_kind st) as [kind|] eqn:Ek; [|done].
  destruct kind; try (split; [done|intros [=]]); try exact Hcollect.
  - eapply wp_some_newlines; [done..|]. intros. by apply Hnext.
  - step. by apply Hnext.
Qed.

Lemma wp_word_desc k st : reached k st -> wp (parse_word_desc input) st (fun _ st' => reached (S k) st').
Proof. intros Hr. unfold parse_word_desc. eapply wp_bind; [by apply wp_bump_or|cbn beta]. by intros tok st' [_ H]. Qed.

Lemma wp_word_list_loop fuel k st words : reached k st -> (S n < fuel + k)%nat ->
  wp (word_list_loop input fuel words) st (fun _ st' => reached k st').
Proof.
  revert k st words. induction fuel as [|fuel IH]; intros k st words Hr Hf; [by eapply no_round|]. cbn [word_list_loop]. step.
  destruct (peek_kind st) as [kind|] eqn:Ek; [|done].
  destruct kind; try exact Hr; try (call wp_word_desc; tail (IH (S k)); weaker).
  - eapply wp_newlines; [done|]. done.
  - step. eapply wp_newlines; [done|]. intros st1 H. apply wp_ret. weaker.
Qed.

Lemma wp_word_list k st : reached k st -> wp (parse_word_list_until_command_body input) st (fun _ st' => reached k st').
Proof. intros Hr. unfold parse_word_list_until_command_body. call wp_word_list_loop with (try eassumption; by eapply enough). done. Qed.

(** * Conditions *)

Lemma wp_cond_word k st : reached k st -> wp (cond_word input) st (fun _ st' => reached (S k) st').
Proof. intros Hr. unfold cond_word. eapply wp_newlines; [done|]. intros st1 Hr1. eapply wp_bind; [by apply wp_bump_or|cbn beta]. by intros tok st' [_ H]. Qed.

Lemma wp_cond_rhs k st regex : reached k st -> wp (cond_rhs_word input regex) st (fun _ st' => reached (S k) st').
Proof. intros Hr. unfold cond_rhs_word. eapply wp_newlines; [done|]. intros st1 Hr1. call wp_collect. done. Qed.

Lemma wp_cond_test k st : reached k st -> wp (cond_test input) st (fun _ st' => reached (S k) st').
Proof.
  intros Hr. unfold cond_test. call wp_cond_word. eapply wp_newlines; [done|]. intros st2 Hr2. destruct (is_unary_test_op _).
  - call wp_cond_word. destruct (one_of _ _); [done|]. apply wp_ret. weaker.
  - eapply wp_newlines; [done|]. intros st3 Hr3. step; [by destruct (bytes_eqb _ _)|].
    call wp_cond_word. eapply wp_newlines; [done|]. intros st5 Hr5. destruct (is_binary_test_op _); [|done].
    call wp_cond_rhs. destruct (bytes_eqb _ _); [done|]. apply wp_ret. weaker.
Qed.

(** From [lo] on, an operand consumes a token. *)
Definition consumes {A} (lo : nat) (m : PM A) : Prop :=
  forall k st, (lo <= k)%nat -> reached k st -> wp m st (fun _ st' => reached (S k) st').

Lemma wp_cond_loop lo operator type operand fuel k st left : consumes lo operand -> (lo <= k)%nat -> reached k st -> (S n < fuel + k)%nat ->
  wp (cond_loop input fuel operator type operand left) st (fun _ st' => reached k st').
Proof.
  intros Ho. revert k st left. induction fuel as [|fuel IH]; intros k st left Hlo Hr Hf; [by eapply no_round|]. cbn [cond_loop].
  step; [|done]. step. eapply wp_newlines; [done|]. intros st2 Hr2. eapply wp_bind; [apply (Ho (S k)); [lia|done]|cbn beta]. intros right st3 Hr3.
  eapply wp_newlines; [done|]. intros st4 Hr4. tail (IH (S (S k))). weaker.
Qed.

Lemma wp_cond_chain lo operator type operand : consumes lo operand -> consumes lo (cond_chain input operator type operand).
Proof.
  intros Ho k st Hlo Hr. unfold cond_chain. eapply wp_newlines; [done|]. intros st1 Hr1. eapply wp_bind; [by apply (Ho k)|cbn beta]. intros left st2 Hr2.
  eapply wp_newlines; [done|]. intros st3 Hr3. apply (wp_cond_loop lo); [done|lia|done|by eapply enough].
Qed.

Lemma wp_cond_term fuel : consumes (S (S n) - fuel) (cond_term input fuel).
Proof.
  induction fuel as [|fuel IH]; intros k st Hlo Hr; [apply reached_bound in Hr; lia|]. cbn [cond_term]. eapply wp_newlines; [done|]. intros st1 Hr1.
  step; [|step].
  - assert (exists tok, peek st1 = Some tok) as [tok Hp] by (apply orb_true_iff in Hc as [(t & H & _)%is_kind|H%word_peek]; eauto).
    eapply wp_bump_seq; [done..|]. intros st2 Hr2. eapply wp_newlines; [done|]. intros st3 Hr3.
    eapply wp_bind; [apply (IH (S k)); [lia|done]|cbn beta]. intros inner st4 Hr4. apply wp_ret. weaker.
  - step. eapply wp_newlines; [done|]. intros st3 Hr3.
    eapply wp_bind; [eapply wp_cond_chain; [apply wp_cond_chain, IH| |done]; lia|cbn beta]. intros inner st4 Hr4. eapply wp_newlines; [done|]. intros st5 Hr5.
    call wp_expect_kind. apply wp_ret. weaker.
  - by apply wp_cond_test.
Qed.

Lemma wp_cond_command k st : reached k st -> wp (parse_cond_command input) st (fun _ st' => reached (S k) st').
Proof.
  intros Hr. unfold parse_cond_command. call wp_expect_kind. eapply wp_newlines; [done|]. intros st2 Hr2.
  assert (He : consumes 0 (cond_expr input)).
  { apply wp_cond_chain, wp_cond_chain. intros j st'' _ Hr'. apply wp_cond_term; [unfold rounds; lia|done]. }
  eapply wp_bind; [apply (He (S k)); [lia|done]|cbn beta]. intros tree st3 Hr3. eapply wp_newlines; [done|]. intros st4 Hr4.
  call wp_expect_kind. apply wp_ret. weaker.
Qed.

(** * Arithmetic commands *)

Lemma wp_arith_loop fuel k st start parens brackets : reached k st -> (S n < fuel + k)%nat ->
  wp (arith_expr_loop input fuel start parens brackets) st (fun _ st' => reached k st').
Proof.
  revert k st parens brackets. induction fuel as [|fuel IH]; intros k st parens brackets Hr Hf; [by eapply no_round|]. cbn [arith_expr_loop]. step.
  destruct (peek st) as [tok|] eqn:Ep; [|done].
  assert (Hnext : forall p b, wp (pbind bump (fun _ => arith_expr_loop input fuel start p b)) st (fun _ st' => reached k st')).
  { intros p b. step. tail (IH (S k)). weaker. }
  cbv zeta. destruct (t_kind tok); try apply Hnext; [done|].
  destruct (_ && _); [step; apply wp_ret; weaker|]. destruct (_ && _); [|apply Hnext]. step.
  eapply (wp_bind _ _ _ (fun _ st' => reached (S k) st')); [|intros ? st2 Hr2; apply wp_ret; weaker]. step; [|done]. step. apply wp_ret. weaker.
Qed.

Lemma wp_arith_command k st : reached k st -> wp (parse_arith_command input) st (fun _ st' => reached (S k) st').
Proof.
  intros Hr. unfold parse_arith_command. step. call wp_expect_kind. call wp_arith_loop with (try eassumption; by eapply enough). done.
Qed.

Lemma wp_arith_for_loop fuel k st open start parens : reached k st -> (S n < fuel + k)%nat ->
  wp (arith_for_loop input fuel open start parens) st (fun _ st' => reached k st').
Proof.
  revert k st parens. induction fuel as [|fuel IH]; intros k st parens Hr Hf; [by eapply no_round|]. cbn [arith_for_loop]. step.
  destruct (peek st) as [tok|] eqn:Ep; [|done].
  assert (Hnext : forall p, wp (pbind bump (fun _ => arith_for_loop input fuel open start p)) st (fun _ st' => reached k st')).
  { intros p. step. tail (IH (S k)). weaker. }
  cbv zeta. destruct (t_kind tok); try apply Hnext. destruct (_ =? _)%nat; [|apply Hnext]. step. apply wp_ret. weaker.
Qed.

Lemma wp_arith_for k st open : reached k st -> wp (collect_arith_for_exprs input open) st (fun _ st' => reached k st').
Proof. intros Hr. unfold collect_arith_for_exprs. step. apply wp_arith_for_loop; [done|by eapply enough]. Qed.
End Parts.

Section Commands.
Context (input : bytes).

Abbreviation n := (length input).
Abbreviation reached := (reached n).
Abbreviation consumes := (consumes input).

(** From [lo] on, the function does not go back. *)
Definition keeps {A} (lo : nat) (m : PM A) : Prop := forall k st, (lo <= k)%nat -> reached k st -> wp m st (fun _ st' => reached k st').

Lemma consumes_keeps {A} lo (m : PM A) : consumes lo m -> keeps lo m.
Proof. intros H k st Hk Hr. eapply wp_mono; [by apply (H k)|]. cbn beta. intros ? ? ?. weaker. Qed.

(** The function before the rest consumes a token, or keeps the place. *)
Lemma wp_consumed {A B} lo (m : PM A) (f : A -> PM B) k st Q : consumes lo m -> (lo <= k)%nat -> reached k st ->
  (forall a st', reached (S k) st' -> wp (f a) st' Q) -> wp (pbind m f) st Q.
Proof. intros H Hk Hr Hf. eapply wp_bind; [by apply (H k)|]. auto. Qed.

Lemma wp_kept {A B} lo (m : PM A) (f : A -> PM B) k st Q : keeps lo m -> (lo <= k)%nat -> reached k st ->
  (forall a st', reached k st' -> wp (f a) st' Q) -> wp (pbind m f) st Q.
Proof. intros H Hk Hr Hf. eapply wp_bind; [by apply (H k)|]. auto. Qed.

Ltac consumed H := eapply wp_consumed; [apply H| |eassumption|]; [cbn; lia|]; let a := fresh "a" in let st := fresh "st" in let Hr := fresh "Hr" in intros a st Hr.
Ltac kept H := eapply wp_kept; [apply H| |eassumption|]; [cbn; lia|]; let a := fresh "a" in let st := fresh "st" in let Hr := fresh "Hr" in intros a st Hr.
Ltac newlines := eapply wp_newlines; [eassumption|]; let st := fresh "st" in let Hr := fresh "Hr" in intros st Hr.
Ltac finish := apply wp_ret; weaker.

Lemma consumes_word t : consumes 0 (expect_word t).
Proof. intros k st _. apply wp_expect_word. Qed.

Lemma consumes_kind kind text : consumes 0 (expect_kind kind text).
Proof. intros k st _. apply wp_expect_kind. Qed.

Lemma consumes_desc : consumes 0 (parse_word_desc input).
Proof. intros k st _. apply wp_word_desc. Qed.

Section Nested.
Context (lo : nat) (pc : PM Command) (Hpc : consumes lo pc).

(** * Pipelines and lists *)

Lemma pipeline_loop_keeps fuel k st left : (lo <= k)%nat -> reached k st -> (S n < fuel + k)%nat ->
  wp (pipeline_loop input pc fuel left) st (fun _ st' => reached k st').
Proof.
  revert k st left. induction fuel as [|fuel IH]; intros k st left Hk Hr Hf; [by eapply no_round|]. cbn [pipeline_loop].
  eapply (wp_bind _ _ _ (fun r st' => reached (match r with Some _ => S k | None => k end) st')).
  - unfold bar_loop_step. step. destruct (peek_kind st) as [kind|] eqn:Ek; [|done].
    destruct kind; try exact Hr; (step; newlines; consumed Hpc; finish).
  - intros [c|] st' Hr'; [|done]. eapply wp_mono; [apply (IH (S k)); [lia|done|lia]|]. cbn beta. intros ? ? ?. weaker.
Qed.

Lemma prefix_loop_keeps fuel k st flags invert : reached k st -> (S n < fuel + k)%nat ->
  wp (prefix_loop fuel flags invert) st (fun _ st' => reached k st').
Proof.
  revert k st flags invert. induction fuel as [|fuel IH]; intros k st flags invert Hr Hf; [by eapply no_round|]. cbn [prefix_loop].
  assert (Hnext : forall k' st' flags invert, (k < k')%nat -> reached k' st' -> wp (prefix_loop fuel flags invert) st' (fun _ st' => reached k st')).
  { intros k' st' fl inv Hk Hr'. tail (IH k'). weaker. }
  step. destruct (peek_kind st) as [kind|] eqn:Ek; [|done]. destruct kind; try exact Hr.
  - step. by eapply (Hnext (S k)); [lia|].
  - step. step. destruct (peek_kind st0) as [kind|] eqn:Ek0; [|by eapply (Hnext (S k)); [lia|]].
    destruct kind; try (by eapply (Hnext (S k)); [lia|]).
    + step. eapply (wp_bind _ _ _ (fun _ st' => reached (S k) st')); [|intros ? st2 Hr2; by eapply (Hnext (S k)); [lia|]].
      step; [|finish]. apply orb_true_iff in Hc as [Hc|Hc]; (step; finish).
    + step. by eapply (Hnext (S (S k))); [lia|].
Qed.

Lemma pipeline_keeps : keeps lo (parse_pipeline input pc).
Proof.
  intros k st Hk Hr. unfold parse_pipeline. eapply wp_bind; [apply (prefix_loop_keeps _ k); [done|by eapply enough]|cbn beta]. intros prefix st1 Hr1.
  cbv zeta. step; [done|]. consumed Hpc. eapply wp_bind; [apply (pipeline_loop_keeps _ (S k)); [lia|done|by eapply enough]|cbn beta]. intros c st2 Hr2. finish.
Qed.

Lemma and_or_loop_keeps fuel k st left : (lo <= k)%nat -> reached k st -> (S n < fuel + k)%nat ->
  wp (and_or_loop input pc fuel left) st (fun _ st' => reached k st').
Proof.
  revert k st left. induction fuel as [|fuel IH]; intros k st left Hk Hr Hf; [by eapply no_round|]. cbn [and_or_loop]. step.
  destruct (peek_kind st) as [kind|] eqn:Ek; [|done]. destruct kind; try exact Hr; (step; newlines; kept pipeline_keeps; tail (IH (S k)); weaker).
Qed.

Lemma and_or_keeps : keeps lo (parse_and_or input pc).
Proof. intros k st Hk Hr. unfold parse_and_or. kept pipeline_keeps. apply and_or_loop_keeps; [done..|by eapply enough]. Qed.

Lemma reject_keeps words : keeps 0 (reject_unexpected_reserved_command words).
Proof.
  intros k st _ Hr. unfold wp, reject_unexpected_reserved_command. destruct (is_stop_word _ _); [done|]. by destruct (unexpected_reserved_word st).
Qed.

Lemma list_loop_keeps fuel stop words k st left : (lo <= k)%nat -> reached k st -> (S n < fuel + k)%nat ->
  wp (list_loop input pc fuel stop words left) st (fun _ st' => reached k st').
Proof.
  revert k st left. induction fuel as [|fuel IH]; intros k st left Hk Hr Hf; [by eapply no_round|]. cbn [list_loop]. cbv zeta.
  assert (Hnext : forall st' left connector, reached (S k) st' ->
    wp (reject_unexpected_reserved_command words ;;; right <-- parse_and_or input pc ;;
        list_loop input pc fuel stop words (connect left right connector)) st' (fun _ st' => reached k st')).
  { intros st' l connector Hr'. kept (reject_keeps words). kept and_or_keeps. tail (IH (S k)). weaker. }
  step; [done|]. step. destruct (peek_kind st) as [kind|] eqn:Ek; [|done]. destruct kind; try exact Hr.
  - eapply wp_some_newlines; [done..|]. intros st1 Hr1. step; [finish|]. by apply Hnext.
  - step. newlines. step; [finish|]. by apply Hnext.
  - step. newlines. step; [finish|]. by apply Hnext.
Qed.

Lemma list_keeps stop words : keeps lo (parse_list input pc stop words).
Proof.
  intros k st Hk Hr. unfold parse_list. newlines. step; [done|]. kept (reject_keeps words). kept and_or_keeps.
  apply list_loop_keeps; [done..|by eapply enough].
Qed.

Lemma until_word_consumes word : consumes lo (until_word input pc word).
Proof. intros k st Hk Hr. unfold until_word, parse_simple_list_until. kept list_keeps. consumed (consumes_word word). finish. Qed.

(** * Compound commands *)

Lemma else_keeps : keeps (pred lo) (parse_else input pc).
Proof.
  intros k st Hk Hr. unfold parse_else. step; [|finish]. consumed (consumes_word "else"). kept list_keeps. finish.
Qed.

Lemma if_branch_consumes l word chain : (pred lo <= l)%nat -> consumes (S l) chain -> consumes l (if_branch input pc word chain).
Proof.
  intros Hl Hc k st Hk Hr. unfold if_branch. consumed (consumes_word word). consumed (until_word_consumes "then"). kept list_keeps.
  eapply (wp_bind _ _ _ (fun _ st' => reached (S (S k)) st')); [|intros false_case st3 Hr3; finish].
  step; [|by eapply else_keeps; [lia|]]. consumed Hc. finish.
Qed.

Lemma elif_chain_consumes fuel : consumes (Nat.max (pred lo) (S (S n) - fuel)) (parse_elif_chain input pc fuel).
Proof.
  induction fuel as [|fuel IH]; [intros k st Hk Hr; apply reached_bound in Hr; lia|]. cbn [parse_elif_chain].
  apply if_branch_consumes; [lia|]. intros k st Hk. apply IH. lia.
Qed.

Lemma if_consumes : consumes (pred lo) (parse_if_command input pc).
Proof.
  intros k st Hk Hr. unfold parse_if_command. eapply wp_consumed; [apply (if_branch_consumes (pred lo) "if"); [done|]|done|done|].
  - intros j st' Hj Hr'. apply elif_chain_consumes; [unfold rounds; lia|done].
  - intros c st' Hr'. consumed (consumes_word "fi"). finish.
Qed.

Lemma while_consumes : consumes (pred lo) (parse_while_command input pc).
Proof.
  intros k st Hk Hr. unfold parse_while_command. consumed (consumes_word "while"). consumed (until_word_consumes "do").
  consumed (until_word_consumes "done"). finish.
Qed.

Lemma until_consumes : consumes (pred lo) (parse_until_command input pc).
Proof.
  intros k st Hk Hr. unfold parse_until_command. consumed (consumes_word "until"). consumed (until_word_consumes "do").
  consumed (until_word_consumes "done"). finish.
Qed.

Lemma brace_list_consumes : consumes (pred lo) (brace_list input pc).
Proof.
  intros k st Hk Hr. unfold brace_list. consumed (consumes_kind LBrace "expected '{'"). kept list_keeps. step; [done|]. step; [|done].
  consumed (consumes_kind RBrace "expected '}'"). finish.
Qed.

Lemma loop_body_consumes : consumes (pred lo) (loop_body input pc).
Proof.
  intros k st Hk Hr. unfold loop_body. newlines. eapply (wp_bind _ _ _ (fun _ st' => reached k st')).
  { unfold optional_semicolon. step; [|done]. step. eapply wp_mono; [by apply (wp_skip_newlines input (S k))|]. cbn beta. intros ? ? [? _]. weaker. }
  intros ? st2 Hr2. step; [by apply brace_list_consumes|]. consumed (consumes_word "do"). eapply wp_mono; [eapply until_word_consumes; [|done]; lia|].
  cbn beta. intros ? ? ?. weaker.
Qed.

Lemma in_words_keeps : keeps 0 (in_words input).
Proof.
  intros k st _ Hr. unfold in_words. step; [|done]. consumed (consumes_word "in"). eapply wp_mono; [by apply (wp_word_list input (S k))|]. cbn beta. intros ? ? ?. weaker.
Qed.

Lemma arith_for_consumes : consumes (pred lo) (parse_arith_for_command input pc).
Proof.
  intros k st Hk Hr. unfold parse_arith_for_command. step. consumed (consumes_kind DblLParen "expected '(( '").
  eapply wp_bind; [by apply (wp_arith_for input (S k))|cbn beta]. intros exprs st2 Hr2. destruct (split_arith_for_clauses _) as [parts separators].
  destruct (_ <? _)%nat; [done|]. destruct (_ <? _)%nat; [done|]. cbv zeta. consumed loop_body_consumes. finish.
Qed.

Lemma for_consumes : consumes (pred lo) (parse_for_command input pc).
Proof.
  intros k st Hk Hr. unfold parse_for_command. consumed (consumes_word "for"). step.
  { eapply wp_mono; [eapply arith_for_consumes; [|done]; lia|]. cbn beta. intros ? ? ?. weaker. }
  step. destruct (peek st0) as [tok|] eqn:Ep; [|done]. destruct (is_redirection_target tok); [|done]. step. cbv zeta. newlines. kept in_words_keeps.
  consumed loop_body_consumes. finish.
Qed.

Lemma select_consumes : consumes (pred lo) (parse_select_command input pc).
Proof.
  intros k st Hk Hr. unfold parse_select_command. consumed (consumes_word "select"). consumed consumes_desc. kept in_words_keeps.
  consumed loop_body_consumes. finish.
Qed.

Lemma clause_end_keeps : keeps 0 clause_end.
Proof. intros k st _ Hr. unfold clause_end. step. destruct (peek_kind st) as [kind|] eqn:Ek; [|done]. destruct kind; try exact Hr; (step; finish). Qed.

Lemma clause_consumes : consumes (pred lo) (parse_clause input pc).
Proof.
  intros k st Hk Hr. unfold parse_clause. eapply (wp_bind _ _ _ (fun _ st' => reached k st')); [step; [step; finish|done]|]. intros ? st1 Hr1.
  eapply wp_bind; [apply (wp_case_patterns input _ k); [done|by eapply enough]|cbn beta]. intros patterns st2 [Hr2 Hclosed].
  eapply (wp_bind _ _ _ (fun _ st' => reached (S k) st')); [destruct (patterns.2); [by apply wp_ret, Hclosed|by apply wp_expect_kind]|]. intros ? st3 Hr3.
  newlines. eapply (wp_bind _ _ _ (fun _ st' => reached (S k) st')).
  { step; [done|]. eapply wp_kept; [apply list_keeps| |done|]; [lia|]. intros. finish. }
  intros action st5 Hr5. kept clause_end_keeps. finish.
Qed.

Lemma clauses_keeps fuel clauses k st : (pred lo <= k)%nat -> reached k st -> (S n < fuel + k)%nat ->
  wp (clauses_of_case input pc fuel clauses) st (fun _ st' => reached k st').
Proof.
  revert clauses k st. induction fuel as [|fuel IH]; intros clauses k st Hk Hr Hf; [by eapply no_round|]. cbn [clauses_of_case]. step; [done|].
  newlines. step; [done|]. consumed clause_consumes. tail (IH _ (S k)). weaker.
Qed.

Lemma case_consumes : consumes (pred lo) (parse_case_command input pc).
Proof.
  intros k st Hk Hr. unfold parse_case_command. consumed (consumes_word "case"). consumed consumes_desc. newlines. consumed (consumes_word "in"). newlines.
  eapply wp_bind; [eapply clauses_keeps; [|done|by eapply enough]; lia|cbn beta]. intros clauses st5 Hr5. consumed (consumes_word "esac"). finish.
Qed.

Lemma group_consumes : consumes (pred lo) (parse_group_command input pc).
Proof. intros k st Hk Hr. unfold parse_group_command. consumed brace_list_consumes. finish. Qed.

Lemma subshell_consumes : consumes (pred lo) (parse_subshell_command input pc).
Proof.
  intros k st Hk Hr. unfold parse_subshell_command. consumed (consumes_kind LParen "expected '('"). kept list_keeps.
  consumed (consumes_kind RParen "expected ')'"). finish.
Qed.

Lemma double_loop_keeps fuel body k st : (lo <= k)%nat -> reached k st -> (S n < fuel + k)%nat ->
  wp (double_subshell_loop input pc fuel body) st (fun _ st' => reached k st').
Proof.
  revert body k st. induction fuel as [|fuel IH]; intros body k st Hk Hr Hf; [by eapply no_round|]. cbn [double_subshell_loop]. cbv zeta.
  assert (Hnext : forall st' connector, reached (S k) st' ->
    wp (right <-- parse_and_or input pc ;; double_subshell_loop input pc fuel (connect body right connector)) st' (fun _ st' => reached k st')).
  { intros st' connector Hr'. kept and_or_keeps. tail (IH _ (S k)). weaker. }
  step. destruct (peek_kind st) as [kind|] eqn:Ek; [|done]. destruct kind; try exact Hr.
  - eapply wp_some_newlines; [done..|]. intros st1 Hr1. step; [finish|]. by apply Hnext.
  - step. newlines. step; [finish|]. by apply Hnext.
  - step. newlines. step; [finish|]. by apply Hnext.
Qed.

Lemma double_subshell_consumes : consumes (pred lo) (parse_double_subshell_command input pc).
Proof.
  intros k st Hk Hr. unfold parse_double_subshell_command. consumed (consumes_kind DblLParen "expected '(('"). kept list_keeps.
  consumed (consumes_kind RParen "expected ')'"). eapply wp_bind; [eapply double_loop_keeps; [|done|by eapply enough]; lia|cbn beta]. intros body st3 Hr3.
  consumed (consumes_kind RParen "expected ')'"). finish.
Qed.

(** [keeps]: a lone brace may be the last token. *)
Lemma compound_body_keeps : keeps lo (parse_compound_body input pc).
Proof.
  intros k st Hk Hr. unfold parse_compound_body. step.
  - apply andb_true_iff in Hc as [_ Hc]. step. kept list_keeps. step; [done|].
    eapply (wp_bind _ _ _ (fun _ st' => reached (S k) st')); [|intros ? st2 Hr2; finish].
    step; [|done]. apply orb_true_iff in Hc1 as [Hc1|[_ Hc1]%andb_true_iff]; (step; finish).
  - exact (consumes_keeps lo pc Hpc k st Hk Hr).
Qed.

Lemma function_consumes : consumes (pred lo) (parse_function_def input pc).
Proof.
  intros k st Hk Hr. unfold parse_function_def. step. eapply (wp_bind _ _ _ (fun _ st' => reached (S k) st')).
  { destruct (is_word _ _); [consumed (consumes_word "function"); eapply wp_mono; [by eapply wp_word_desc|]; cbn beta; intros ? ? ?; weaker|].
    eapply wp_bind; [by apply wp_bump_or|]. intros tok st1 [_ Hr1]. done. }
  intros name st1 Hr1. eapply (wp_bind _ _ _ (fun _ st' => reached (S k) st')).
  { step; [step; eapply wp_mono; [by eapply wp_expect_kind|]; cbn beta; intros ? ? ?; weaker|]. by destruct (is_word _ _). }
  intros ? st2 Hr2. newlines. step. kept compound_body_keeps. by destruct (command_data _).
Qed.

Lemma coproc_consumes : consumes (pred lo) (parse_coproc_command input pc).
Proof.
  intros k st Hk Hr. unfold parse_coproc_command. consumed (consumes_word "coproc").
  eapply (wp_bind _ _ _ (fun _ st' => reached (S k) st')); [|intros parts st1 Hr1; finish].
  step; [kept compound_body_keeps; finish|]. step.
  - consumed consumes_desc. kept compound_body_keeps. finish.
  - eapply wp_bind; [by eapply wp_simple_command|cbn beta]. intros c st1 Hr1. finish.
Qed.

Lemma command_at_consumes : consumes (pred lo) (command_at input pc).
Proof.
  intros k st Hk Hr. unfold command_at.
  repeat (step; [first [apply if_consumes|apply while_consumes|apply until_consumes|apply for_consumes|apply case_consumes|apply select_consumes
    |apply function_consumes|apply coproc_consumes|apply group_consumes|apply subshell_consumes
    |step; [apply wp_arith_command|apply double_subshell_consumes]|apply wp_cond_command]; done|]).
  step. destruct (unexpected_reserved_word st); [done|]. by apply wp_simple_command.
Qed.

Lemma command_body_consumes : consumes (pred lo) (parse_command_body input pc).
Proof.
  intros k st Hk Hr. unfold parse_command_body. do 2 step. pose proof (reached_offset _ _ _ Hr) as Ho.
  eapply (wp_set_docs input k); [done|cbn; lia|]. intros st1 Hr1 _ _. consumed command_at_consumes.
  eapply wp_bind; [by eapply wp_trailing_redirects|cbn beta]. intros c st3 Hr3.
  eapply (wp_set_docs input (S k)); [done..|]. intros st4 Hr4 _ _. finish.
Qed.
End Nested.

Lemma command_consumes fuel : consumes (S (S n) - fuel) (parse_command input fuel).
Proof.
  induction fuel as [|fuel IH]; intros k st Hk Hr; [apply reached_bound in Hr; lia|]. cbn [parse_command].
  eapply command_body_consumes; [exact IH|lia|done].
Qed.

Lemma input_unit_total st : reached 0 st -> wp (parse_input_unit input) st (fun _ _ => True).
Proof.
  intros Hr. unfold parse_input_unit. newlines. step; [done|]. unfold parse_simple_list_until.
  eapply wp_kept; [apply list_keeps, command_consumes| |done|]; [unfold rounds; lia|]. intros root st1 Hr1. newlines. step; [done|]. by step.
Qed.
End Commands.

(** C15: Lexing and parsing end on every text and under all options, with a command, with
    nothing, or with an error: no loop or recursion of the parser goes on without consuming
    tokens, no here-document, which drops tokens or lexes them again, makes it go back, and no
    token is missing where the code unwraps one. (The fuel of the model is the number of tokens
    and bytes, and running out of it, like a panic of the code, would be the one result
    excluded.) *)
Theorem parsing_ends extglob posix comments input : parse_text extglob posix comments input <> Fuel.
Proof.
  unfold parse_text. destruct (lexed_ordered input extglob posix comments) as (l & -> & Hl). unfold parse_tokens, new.
  assert (Hr : reached (length input) 0 (mkPState l 0 0 None)).
  { constructor; cbn; [done| |lia|lia]. apply Forall_forall. intros. lia. }
  pose proof (input_unit_total input _ Hr) as Hw. unfold wp in Hw. destruct (parse_input_unit input _) as [[c st]| |]; done.
Qed.
