(* ===== verification/ParseGrammar.v ===== *)
(** The grammar of commands, as relations between tokens and the commands they stand
    for: simple commands with words and redirections, groups, subshells, [if], [while],
    [until] and [for], functions, pipelines, [!], [&&] and [||], and lists.  A command carries the
    line of its first token.

    The parser accepts the grammar: on the tokens of a program it returns the command
    they stand for. *)
From S2P Require Import Prelude Env Jobs Utf8 Buf Quote Expand Options Scan Assign LexScan Lex Ast ParseText Parse.

(** * Tokens *)

Definition op (k : TokenKind) (tok : Token) : Prop := t_kind tok = k /\ t_value tok = NoValue.
Definition keyword (t : string) (tok : Token) : Prop := t_kind tok = Word /\ t_value tok = TextValue (bs t).

Definition separator (tok : Token) : Prop := op Semicolon tok \/ op Ampersand tok \/ op Newline tok.

Definition connector (tok : Token) : Z :=
  match t_kind tok with Semicolon => CONN_SEMI | Ampersand => CONN_AMP | _ => CONN_NEWLINE end.

Definition closing_words : list string := ["then"; "else"; "elif"; "fi"; "do"; "done"; "in"; "esac"]%string.
Definition compound_words : list string := ["if"; "while"; "until"; "for"; "case"; "select"; "function"; "coproc"]%string.
Definition any_word (l : list string) (tok : Token) : bool := existsb (fun t => token_is t tok) l.

(** A word of a command: no compound value, not the [{name}] of a redirection. *)
Definition argument (tok : Token) : Prop :=
  (t_kind tok = Word \/ t_kind tok = AssignmentWord) /\ has (t_flags tok) W_COMPASSIGN = false /\ is_redir_word_token tok = false.

Definition adjacent (tok next : Token) : bool := is_redirection_kind (t_kind next) && (t_end tok =? t_start next)%nat.

(** What may stand before the operator of a redirection. *)
Definition redirects_from (r : option Token) (operator : Token) : Prop :=
  match r with
  | None => True
  | Some tok => t_kind tok = Word /\ is_redir_word_token tok = true \/ t_kind tok = Number /\ is_redir_word_token tok = false /\ adjacent tok operator = true
  end.

Section Grammar.
Context (input : bytes).

(** The redirection of an operator other than [<<] and [<<-]. *)
Definition redirect_of (r : option Token) (operator target : Token) (i : RedirectInstruction) : Redirect :=
  let text := token_value_to_string (t_value target) in
  let i' := refine_duplication i text in
  mkRedirect (redirector_of r i) (match redirector_of r i with RedirectorVar _ => REDIR_VARASSIGN | _ => 0 end) i'
    (redirectee_of i' (word_desc input text (t_flags target) target)) None None.

Inductive redirection : list Token -> Redirect -> Prop :=
| redirection_to r operator target i : redirects_from r operator -> redirection_of (t_kind operator) = Some i ->
    i <> ReadingUntil -> i <> DeblankReadingUntil -> t_value operator = NoValue -> is_redirection_target target = true ->
    redirection (option_list r ++ [operator; target]) (redirect_of r operator target i).

Inductive redirections : list Token -> list Redirect -> Prop :=
| redirections_nil : redirections [] []
| redirections_cons l r l' rs : redirection l r -> redirections l' rs -> redirections (l ++ l') (r :: rs).

(** [parts l next ws rs]: words and redirections, before the token [next]. *)
Inductive parts : list Token -> Token -> list SourceWord -> list Redirect -> Prop :=
| parts_nil next : parts [] next [] []
| parts_word tok l next ws rs : argument tok -> parts l next ws rs ->
    parts (tok :: l) next (word_desc input (token_value_to_string (t_value tok)) (t_flags tok) tok :: ws) rs
| parts_number tok l next ws rs : t_kind tok = Number -> is_redir_word_token tok = false -> adjacent tok (hd next l) = false -> parts l next ws rs ->
    parts (tok :: l) next (word_desc input (token_value_to_string (t_value tok)) 0 tok :: ws) rs
| parts_redirect lr r l next ws rs : redirection lr r -> parts l next ws rs -> parts (lr ++ l) next ws (r :: rs).

(** The line of the first token. *)
Definition placed (l : list Token) (c : Command) : Command :=
  set_line (match l with tok :: _ => line_number_for_offset input (t_start tok) | [] => 0 end) c.

Definition redirected (rs : list Redirect) (c : Command) : Command := fold_left (fun c r => with_redirect r c) rs c.

(** [&] before the end of a list leaves an empty command after it. *)
Definition ended (c : Command) (s : Token) : Command :=
  match t_kind s with Ampersand => connect c null_command CONN_AMP | _ => c end.

(** The line of the first command of the body of a function. *)
Definition first_line (l : list Token) : Z :=
  match List.find (fun tok => negb (bool_decide (t_kind tok = Newline))) l with
  | Some tok => line_number_for_offset input (t_start tok)
  | None => 0
  end.

Definition body_line (l : list Token) : Z :=
  match l with tok :: r => first_line (if bool_decide (t_kind tok = LBrace) then r else l) | [] => 0 end.

(** What may come after a command. *)
Definition follows (tok : Token) : bool :=
  match t_value tok, t_kind tok with
  | NoValue, (Semicolon | Ampersand | Newline | Pipe | BarAnd | AndAnd | OrOr | RParen | End_) => true
  | _, _ => false
  end.

Inductive command : list Token -> Token -> Command -> Prop :=
| command_simple l next ws rs : parts l next ws rs -> l <> [] -> any_word (closing_words ++ compound_words) (hd next l) = false ->
    command l next (placed l (bare (CSimple ws rs)))
| command_compound l c lr next rs : compound l c -> redirections lr rs -> command (l ++ lr) next (placed l (redirected rs c))
| command_function name o e nl l c lr next rs : t_kind name = Word -> any_word (closing_words ++ compound_words) name = false ->
    is_redir_word_token name = false ->
    op LParen o -> op RParen e -> Forall (op Newline) nl -> compound l c -> redirections lr rs ->
    command (name :: o :: e :: nl ++ l ++ lr) next
      (placed [name] (bare (CFunctionDef (word_desc input (token_value_to_string (t_value name)) 0 name) (placed l (redirected rs c))
         (Z.max 0 (Z.of_nat (length (line_starts input)) - body_line l) + 1))))
with compound : list Token -> Command -> Prop :=
| compound_group o l c e : op LBrace o -> terminated l c -> op RBrace e -> compound (o :: l ++ [e]) (bare (CGroup c))
| compound_subshell o l c e : op LParen o -> inner l e c -> op RParen e -> compound (o :: l ++ [e]) (subshell c 0)
| compound_if i lt t th lb b le e fi : keyword "if" i -> terminated lt t -> keyword "then" th -> terminated lb b -> else_part le e -> keyword "fi" fi ->
    compound (i :: lt ++ th :: lb ++ le ++ [fi]) (bare (CIf t b e))
| compound_while w lt t d lb b e : keyword "while" w -> terminated lt t -> keyword "do" d -> terminated lb b -> keyword "done" e ->
    compound (w :: lt ++ d :: lb ++ [e]) (bare (CWhile t b))
| compound_until w lt t d lb b e : keyword "until" w -> terminated lt t -> keyword "do" d -> terminated lb b -> keyword "done" e ->
    compound (w :: lt ++ d :: lb ++ [e]) (bare (CUntil t b))
| compound_for f name i words s nl d lb b e : keyword "for" f -> is_redirection_target name = true -> keyword "in" i ->
    Forall (fun tok => is_redirection_target tok = true) words -> op Semicolon s \/ op Newline s -> Forall (op Newline) nl ->
    keyword "do" d -> terminated lb b -> keyword "done" e ->
    compound (f :: name :: i :: words ++ s :: nl ++ d :: lb ++ [e])
      (bare (CFor (word_desc input (token_value_to_string (t_value name)) 0 name)
         (if is_nil words then None else Some (map (word_or_operator input) words)) b
         (line_number_for_offset input (t_start name))))
with else_part : list Token -> option Command -> Prop :=
| else_none : else_part [] None
| else_block e l c : keyword "else" e -> terminated l c -> else_part (e :: l) (Some c)
| else_elif e lt t th lb b le r : keyword "elif" e -> terminated lt t -> keyword "then" th -> terminated lb b -> else_part le r ->
    else_part (e :: lt ++ th :: lb ++ le) (Some (bare (CIf t b r)))
with pipeline : list Token -> Token -> Command -> Prop :=
| pipeline_command l next c : command l next c -> pipeline l next c
| pipeline_pipe l c p nl l' next d : pipeline l p c -> op Pipe p -> Forall (op Newline) nl -> command l' next d ->
    pipeline (l ++ p :: nl ++ l') next (connect c d CONN_PIPE)
| pipeline_both l c p nl l' next d : pipeline l p c -> op BarAnd p -> Forall (op Newline) nl -> command l' next d ->
    pipeline (l ++ p :: nl ++ l') next (connect (add_stderr_to_stdout_redirect c) d CONN_PIPE)
with operand : list Token -> Token -> Command -> Prop :=
| operand_pipeline l next c : pipeline l next c -> operand l next c
| operand_not b l next c : op Bang b -> pipeline l next c -> operand (b :: l) next (with_flags CMD_INVERT_RETURN c)
with and_or : list Token -> Token -> Command -> Prop :=
| and_or_operand l next c : operand l next c -> and_or l next c
| and_or_and l c a nl l' next d : and_or l a c -> op AndAnd a -> Forall (op Newline) nl -> operand l' next d ->
    and_or (l ++ a :: nl ++ l') next (connect c d CONN_AND_AND)
| and_or_or l c a nl l' next d : and_or l a c -> op OrOr a -> Forall (op Newline) nl -> operand l' next d ->
    and_or (l ++ a :: nl ++ l') next (connect c d CONN_OR_OR)
with sequence : list Token -> Token -> Command -> Prop :=
| sequence_one l next c : and_or l next c -> sequence l next c
| sequence_more l c s nl l' next d : sequence l s c -> separator s -> Forall (op Newline) nl -> and_or l' next d ->
    sequence (l ++ s :: nl ++ l') next (connect c d (connector s))
with terminated : list Token -> Command -> Prop :=
| terminated_by nl l c s nl' : Forall (op Newline) nl -> sequence l s c -> separator s -> Forall (op Newline) nl' ->
    terminated (nl ++ l ++ s :: nl') (ended c s)
with inner : list Token -> Token -> Command -> Prop :=
| inner_terminated l next c : terminated l c -> inner l next c
| inner_open nl l next c : Forall (op Newline) nl -> op RParen next -> sequence l next c -> inner (nl ++ l) next c.

(** A text: a list up to its end. *)
Inductive program : list Token -> Command -> Prop :=
| program_terminated l c e : terminated l c -> op End_ e -> program (l ++ [e]) c
| program_open nl l c e : Forall (op Newline) nl -> sequence l e c -> op End_ e -> program (nl ++ l ++ [e]) c.
End Grammar.

Scheme command_mut := Minimality for command Sort Prop
with compound_mut := Minimality for compound Sort Prop
with else_mut := Minimality for else_part Sort Prop
with pipeline_mut := Minimality for pipeline Sort Prop
with operand_mut := Minimality for operand Sort Prop
with and_or_mut := Minimality for and_or Sort Prop
with sequence_mut := Minimality for sequence Sort Prop
with terminated_mut := Minimality for terminated Sort Prop
with inner_mut := Minimality for inner Sort Prop.
Combined Scheme grammar_mut from command_mut, compound_mut, else_mut, pipeline_mut, operand_mut, and_or_mut, sequence_mut, terminated_mut, inner_mut.

(** * States *)

(** Between the tokens read and those left, outside here-documents. *)
Definition at_ (d l : list Token) : PState := mkPState (d ++ l) (length d) 0 None.

Lemma peek_at d tok l : peek (at_ d (tok :: l)) = Some tok.
Proof. unfold peek, at_. cbn. by rewrite lookup_app_r, Nat.sub_diag. Qed.

Lemma peek_one_at d tok next l : peek_n 1 (at_ d (tok :: next :: l)) = Some next.
Proof. unfold peek_n, at_. cbn. rewrite lookup_app_r by lia. by replace (length d + 1 - length d)%nat with 1%nat by lia. Qed.

Lemma at_app d l l' : at_ (d ++ l) l' = mkPState (d ++ l ++ l') (length d + length l) 0 None.
Proof. unfold at_. by rewrite <-app_assoc, length_app. Qed.

Lemma at_cons d tok l l' : at_ (d ++ tok :: l) l' = at_ ((d ++ [tok]) ++ l) l'.
Proof. by rewrite <-app_assoc. Qed.

Lemma bump_at {A} d tok l (m : PM A) : pbind bump (fun _ => m) (at_ d (tok :: l)) = m (at_ (d ++ [tok]) l).
Proof. unfold pbind, bump. rewrite peek_at. unfold set_index, at_. cbn. rewrite <-app_assoc, length_app, Nat.add_1_r. done. Qed.

Lemma bump_tok_at {A} d tok l (k : option Token -> PM A) : pbind bump k (at_ d (tok :: l)) = k (Some tok) (at_ (d ++ [tok]) l).
Proof. unfold pbind, bump. rewrite peek_at. unfold set_index, at_. cbn. rewrite <-app_assoc, length_app, Nat.add_1_r. done. Qed.

Lemma bind_ok {A B} (m : PM A) (k : A -> PM B) st a st' : m st = Ok (a, st') -> pbind m k st = k a st'.
Proof. unfold pbind. by intros ->. Qed.

Lemma bind_bind {A B C} (m : PM A) (f : A -> PM B) (k : B -> PM C) st : pbind (pbind m f) k st = pbind m (fun a => pbind (f a) k) st.
Proof. unfold pbind. by destruct (m st) as [[a st']| |]. Qed.

Lemma gets_bind {A B} (f : PState -> A) (k : A -> PM B) st : pbind (gets f) k st = k (f st) st.
Proof. done. Qed.

Lemma peek_kind_at d tok l : peek_kind (at_ d (tok :: l)) = Some (t_kind tok).
Proof. unfold peek_kind. by rewrite peek_at. Qed.

Lemma kind_is_at k d tok l : kind_is k (at_ d (tok :: l)) = bool_decide (t_kind tok = k).
Proof. unfold kind_is. rewrite peek_kind_at. apply bool_decide_ext. split; congruence. Qed.

Lemma is_word_at t d tok l : is_word t (at_ d (tok :: l)) = token_is t tok.
Proof. unfold is_word. by rewrite peek_at. Qed.

Lemma stop_word_at ws d tok l : is_stop_word ws (at_ d (tok :: l)) = any_word ws tok.
Proof. unfold is_stop_word. by rewrite peek_at. Qed.

Lemma kind_at_one p d tok next l : kind_at 1 p (at_ d (tok :: next :: l)) = p (t_kind next).
Proof. unfold kind_at. by rewrite peek_one_at. Qed.

Lemma redir_word_at d tok next l : is_redir_word_redirector (at_ d (tok :: next :: l)) = is_redir_word_token tok && is_redirection_kind (t_kind next).
Proof. unfold is_redir_word_redirector. by rewrite peek_at, kind_at_one. Qed.

Lemma number_at d tok next l : number_is_adjacent_redirection_operator (at_ d (tok :: next :: l)) = adjacent tok next.
Proof. unfold number_is_adjacent_redirection_operator. by rewrite kind_at_one, peek_at, peek_one_at. Qed.

Create Rewrite HintDb parser.
#[export] Hint Rewrite @bump_at peek_at peek_kind_at kind_is_at is_word_at stop_word_at redir_word_at number_at @bind_bind @gets_bind : parser.

Ltac parse := autorewrite with parser.

(** * Heads *)

(** The tokens a command may start with. *)
Definition opens (tok : Token) : bool :=
  negb (any_word closing_words tok)
  && match t_kind tok with Word | AssignmentWord | Number | LBrace | LParen => true | k => is_redirection_kind k end.

(** ..., with those that negate one. *)
Definition begins (tok : Token) : Prop := opens tok = true \/ op Bang tok.

Definition head_of (P : Token -> Prop) (l : list Token) : Prop := match l with tok :: _ => P tok | [] => False end.

Lemma head_app P l l' : head_of P l -> head_of P (l ++ l').
Proof. by destruct l. Qed.

Lemma op_no_word k tok ws : op k tok -> any_word ws tok = false.
Proof. intros [_ Hv]. unfold any_word, token_is. rewrite Hv. by induction ws. Qed.

Lemma any_word_app a b tok : any_word (a ++ b) tok = any_word a tok || any_word b tok.
Proof. apply existsb_app. Qed.

(** Neither a terminator nor a reserved word. *)
Lemma opens_facts tok d l : opens tok = true ->
  at_list_terminator (at_ d (tok :: l)) = false /\ unexpected_reserved_word (at_ d (tok :: l)) = None
  /\ t_kind tok <> Newline /\ t_kind tok <> End_ /\ t_kind tok <> Time_ /\ t_kind tok <> Bang.
Proof.
  unfold opens. intros [Hw%negb_true_iff Hk]%andb_true_iff. unfold at_list_terminator, unexpected_reserved_word. parse.
  assert (Hw7 : any_word ["then"; "else"; "elif"; "fi"; "do"; "done"; "esac"]%string tok = false).
  { unfold closing_words, any_word in *. cbn [existsb] in *. to_prop. repeat match goal with H : token_is _ tok = false |- _ => rewrite H; clear H end. done. }
  rewrite Hw7. assert (Hone : forall t, t_value tok = TextValue t -> one_of t ["then"; "else"; "elif"; "fi"; "do"; "done"; "in"; "esac"]%string = false).
  { intros t Ht. unfold any_word, closing_words, token_is in Hw. rewrite Ht in Hw. unfold one_of. cbn [existsb] in *. exact Hw. }
  destruct (t_kind tok) eqn:Ek; try done; (split; [done|]); (split; [|by split_and!]); cbn [mbind option_bind]; rewrite Ek; try done.
  destruct (t_value tok) as [|t|]; try done. by rewrite (Hone t).
Qed.

(** What a list may stop at: not at the start of a command, nor at a separator. *)
Definition stops_outside (stop : PState -> bool) : Prop :=
  forall d tok l, begins tok \/ separator tok -> stop (at_ d (tok :: l)) = false.

Lemma closers_sound ws tok : forallb (fun t => existsb (String.eqb t) closing_words) ws = true -> any_word closing_words tok = false ->
  any_word ws tok = false.
Proof.
  intros Hs Hc. induction ws as [|t ws IH]; [done|]. apply andb_true_iff in Hs as [Ht Hs]. change (token_is t tok || any_word ws tok = false). rewrite IH, orb_false_r by done.
  apply existsb_exists in Ht as (t' & Hin & ->%String.eqb_eq). unfold any_word in Hc.
  destruct (token_is t' tok) eqn:E; [|done]. assert (existsb (fun t => token_is t tok) closing_words = true); [apply existsb_exists; eauto|congruence].
Qed.

Lemma separator_no_word ws tok : separator tok -> any_word ws tok = false.
Proof. intros [H|[H|H]]; by eapply op_no_word. Qed.

Lemma begins_no_word ws tok : forallb (fun t => existsb (String.eqb t) closing_words) ws = true -> begins tok -> any_word ws tok = false.
Proof.
  intros Hs [H|H]; [|by eapply op_no_word]. unfold opens in H. apply andb_true_iff in H as [H%negb_true_iff _]. by apply closers_sound.
Qed.

Lemma words_outside ws : forallb (fun t => existsb (String.eqb t) closing_words) ws = true -> stops_outside (is_stop_word ws).
Proof. intros Hs d tok l [H|H]; rewrite stop_word_at; [by apply begins_no_word|by apply separator_no_word]. Qed.

Lemma kinds_outside k : k = RBrace \/ k = RParen -> stops_outside (is_stop_kind [k]).
Proof.
  intros Hk d tok l H. unfold is_stop_kind. parse.
  assert (Ht : t_kind tok <> k /\ t_kind tok <> DblRParen).
  { destruct H as [[H|[H _]]|[[H _]|[[H _]|[H _]]]]; [|rewrite H; by destruct Hk as [-> | ->]..].
    unfold opens in H. apply andb_true_iff in H as [_ H]. destruct Hk as [-> | ->]; split; intros E; by rewrite E in H. }
  destruct Ht as [H1 H2]. cbn [existsb]. rewrite !bool_decide_eq_false_2 by done. done.
Qed.

Section Parsing.
Context (input : bytes).

Abbreviation n := (length input).

(** The rounds left in a loop are more than the tokens. *)
Definition enough_for (g : nat) (l : list Token) : Prop := (S (length l) < g)%nat.

Lemma newlines_at {A} d nl tok l (m : PM A) : Forall (op Newline) nl -> t_kind tok <> Newline -> (length (nl ++ tok :: l) <= S n)%nat ->
  pbind (skip_newlines input) (fun _ => m) (at_ d (nl ++ tok :: l)) = m (at_ (d ++ nl) (tok :: l)).
Proof.
  intros Hnl Ht Hl. apply (bind_ok _ (fun _ => m) _ tt). unfold skip_newlines. assert (Hf : (length nl < rounds input)%nat) by (unfold rounds; rewrite length_app in Hl; cbn in Hl; lia).
  clear Hl. revert d Hf. generalize (rounds input) as fuel. induction Hnl as [|x nl [Hx _] _ IH]; intros fuel d Hf; (destruct fuel as [|fuel]; [cbn in Hf; lia|]);
    cbn [skip_newlines_loop app]; unfold if_; parse.
  - by rewrite bool_decide_eq_false_2, app_nil_r by done.
  - rewrite bool_decide_eq_true_2 by done. parse. rewrite (at_cons d x nl). apply IH. cbn in Hf. lia.
Qed.

Lemma no_newlines_at {A} d tok l (m : PM A) : t_kind tok <> Newline -> (length (tok :: l) <= S n)%nat ->
  pbind (skip_newlines input) (fun _ => m) (at_ d (tok :: l)) = m (at_ d (tok :: l)).
Proof. intros Ht Hl. rewrite <-(app_nil_r d) at 2. by apply (newlines_at d []). Qed.

(** * Redirections *)

Lemma plain_instruction i text : i <> ReadingUntil -> i <> DeblankReadingUntil ->
  refine_duplication i text <> ReadingUntil /\ refine_duplication i text <> DeblankReadingUntil.
Proof. intros H1 H2. unfold refine_duplication. by destruct i; repeat case_match. Qed.

Lemma redirect_at r operator target i d l : redirection_of (t_kind operator) = Some i -> i <> ReadingUntil -> i <> DeblankReadingUntil ->
  is_redirection_target target = true ->
  parse_redirect input r (at_ d (operator :: target :: l)) = Ok (redirect_of input r operator target i, at_ (d ++ [operator; target]) l).
Proof.
  intros Hi H1 H2 Ht. unfold parse_redirect. rewrite bump_tok_at, Hi. cbv zeta. rewrite bump_tok_at, Ht. unfold redirect_of. cbv zeta.
  destruct (plain_instruction i (token_value_to_string (t_value target)) H1 H2) as [H3 H4].
  rewrite <-app_assoc. cbn [app]. destruct (refine_duplication _ _); done.
Qed.

Lemma redirection_kind k i : redirection_of k = Some i -> is_redirection_kind k = true.
Proof. by destruct k. Qed.

(** A redirection is read where one may come. *)
Lemma redirection_parsed {A} lr r (f : Redirect -> A) (b : PM A) : redirection input lr r -> forall d l,
  if_ is_redir_word_redirector (redirector <-- bump ;; r <-- parse_redirect input redirector ;; pret (f r))
    (if_ current_is_redirection_operator (r <-- parse_redirect input None ;; pret (f r))
       (if_ (fun st => kind_is Number st && number_is_adjacent_redirection_operator st)
          (redirector <-- bump ;; r <-- parse_redirect input redirector ;; pret (f r)) b)) (at_ d (lr ++ l))
  = Ok (f r, at_ (d ++ lr) l).
Proof.
  intros [tok operator target i Hr Hi H1 H2 Hv Ht] d l. pose proof (redirection_kind _ _ Hi) as Hk. unfold if_, current_is_redirection_operator.
  destruct tok as [tok|]; [change (option_list (Some tok)) with [tok]|change (option_list (@None Token)) with (@nil Token)]; cbn [app].
  - rewrite redir_word_at, Hk, andb_true_r. assert (Hread : pbind bump (fun redirector => r <-- parse_redirect input redirector ;; pret (f r)) (at_ d (tok :: operator :: target :: l))
      = Ok (f (redirect_of input (Some tok) operator target i), at_ (d ++ [tok; operator; target]) l)).
    { rewrite bump_tok_at. erewrite bind_ok by by apply redirect_at. by rewrite <-app_assoc. }
    destruct Hr as [[_ Hr]|(Hn & Hr & Ha)]; rewrite Hr; [done|]. unfold kind_at. unfold peek_n. rewrite Nat.add_0_r. change (toks ?st !! index ?st) with (peek st).
    rewrite peek_at, Hn. cbn [is_redirection_kind]. by rewrite kind_is_at, Hn, number_at, Ha.
  - rewrite redir_word_at. unfold is_redir_word_token. rewrite Hv. cbn [andb]. unfold kind_at, peek_n. rewrite Nat.add_0_r.
    change (toks ?st !! index ?st) with (peek st). rewrite peek_at, Hk. by erewrite bind_ok by by apply redirect_at.
Qed.

Lemma not_redir_word d tok l : is_redir_word_token tok = false -> is_redir_word_redirector (at_ d (tok :: l)) = false.
Proof. intros H. unfold is_redir_word_redirector. by rewrite peek_at, H. Qed.

Lemma follows_facts tok : follows tok = true -> is_redir_word_token tok = false /\ is_redirection_kind (t_kind tok) = false
  /\ t_kind tok <> Number /\ t_kind tok <> Word /\ t_kind tok <> AssignmentWord /\ t_kind tok <> LParen.
Proof. unfold follows, is_redir_word_token. destruct (t_value tok); [|done..]. by destruct (t_kind tok). Qed.

Lemma current_operator_at d tok l : current_is_redirection_operator (at_ d (tok :: l)) = is_redirection_kind (t_kind tok).
Proof. unfold current_is_redirection_operator, kind_at, peek_n. rewrite Nat.add_0_r. change (toks ?st !! index ?st) with (peek st). by rewrite peek_at. Qed.

Lemma redirections_parsed lr rs : redirections input lr rs -> forall next l g d c, follows next = true -> enough_for g (lr ++ next :: l) ->
  trailing_redirects_loop input g c (at_ d (lr ++ next :: l)) = Ok (redirected rs c, at_ (d ++ lr) (next :: l)).
Proof.
  intros Hr next l. induction Hr as [|lr r lr' rs Hr _ IH]; intros g d c Hn Hg; unfold enough_for in *; (destruct g as [|g]; [lia|]); cbn [trailing_redirects_loop].
  - destruct (follows_facts _ Hn) as (H1 & H2 & H3 & _). cbn [app]. rewrite (bind_ok _ _ _ None (at_ d (next :: l))); [by rewrite app_nil_r|]. unfold next_redirect, if_.
    rewrite not_redir_word, current_operator_at, H2, kind_is_at, bool_decide_eq_false_2 by done. done.
  - rewrite <-app_assoc in *. erewrite bind_ok by (unfold next_redirect; by eapply redirection_parsed).
    cbv beta iota. rewrite (IH g (d ++ lr) (with_redirect r c)); [by rewrite app_assoc|done|].
    assert (1 <= length lr)%nat; [|rewrite length_app in Hg; lia]. destruct Hr. rewrite length_app. cbn. lia.
Qed.

(** * Simple commands *)

Lemma simple_part_redirection lr r name d l : redirection input lr r ->
  simple_part input name (at_ d (lr ++ l)) = Ok (Some (inr r), at_ (d ++ lr) l).
Proof.
  intros Hr. pose proof (redirection_parsed lr r (fun r => Some (inr r : SourceWord * option bytes + Redirect)) (pret None) Hr d l) as H. rewrite <-H. clear H. unfold simple_part, if_.
  destruct Hr as [tok operator target i Hr Hi H1 H2 Hv Ht]. pose proof (redirection_kind _ _ Hi) as Hk. destruct tok as [tok|]; [change (option_list (Some tok)) with [tok]|change (option_list (@None Token)) with (@nil Token)]; cbn [app].
  - rewrite redir_word_at. destruct Hr as [[_ Hr]|(Hn & Hr & Ha)]; rewrite Hr; [by rewrite Hk|]. cbn [andb].
    rewrite gets_bind, peek_at, current_operator_at, Hn. cbn [is_redirection_kind]. unfold if_. by rewrite kind_is_at, Hn, number_at, Ha.
  - rewrite redir_word_at. unfold is_redir_word_token. rewrite Hv. cbn [andb]. rewrite gets_bind, peek_at, current_operator_at, Hk.
    destruct (t_kind operator); try done.
Qed.

Lemma simple_loop_word g words reds name d tok l name' :
  simple_part input name (at_ d (tok :: l)) = Ok (Some (inl (word_desc input (token_value_to_string (t_value tok)) (t_flags tok) tok, name')), at_ (d ++ [tok]) l) ->
  simple_loop input (S g) words reds name (at_ d (tok :: l))
  = simple_loop input g (words ++ [word_desc input (token_value_to_string (t_value tok)) (t_flags tok) tok]) reds name' (at_ (d ++ [tok]) l).
Proof. intros H. cbn [simple_loop]. by erewrite bind_ok by exact H. Qed.

Lemma argument_parsed tok name d l : argument tok -> exists name',
  simple_part input name (at_ d (tok :: l)) = Ok (Some (inl (word_desc input (token_value_to_string (t_value tok)) (t_flags tok) tok, name')), at_ (d ++ [tok]) l).
Proof.
  intros (Hk & Hf & Hw). unfold simple_part, if_. rewrite not_redir_word by done. rewrite gets_bind, peek_at.
  destruct Hk as [-> | ->]; rewrite bump_at, Hf; cbn [andb]; eexists; reflexivity.
Qed.

Lemma parts_parsed l next ws rs : parts input l next ws rs -> follows next = true -> forall g d rest words reds name, enough_for g (l ++ next :: rest) ->
  simple_loop input g words reds name (at_ d (l ++ next :: rest)) = Ok ((words ++ ws, reds ++ rs), at_ (d ++ l) (next :: rest)).
Proof.
  intros Hp Hn. induction Hp as [next|tok l next ws rs Ha Hp IH|tok l next ws rs Hk Hw Ha Hp IH|lr r l next ws rs Hr Hp IH]; intros g d rest words reds name Hg;
    unfold enough_for in *; (destruct g as [|g]; [lia|]).
  - cbn [app simple_loop]. rewrite (bind_ok _ _ _ None (at_ d (next :: rest))); [by rewrite !app_nil_r|]. destruct (follows_facts _ Hn) as (H1 & H2 & H3 & H4 & H5 & _).
    unfold simple_part, if_. rewrite not_redir_word by done. rewrite gets_bind, peek_at. destruct (t_kind next); done.
  - cbn [app]. destruct (argument_parsed tok name d (l ++ next :: rest) Ha) as [name' H]. rewrite (simple_loop_word _ _ _ _ _ _ _ _ H).
    rewrite IH by (done || (cbn in Hg; lia)). by rewrite <-!app_assoc.
  - cbn [app simple_loop]. erewrite bind_ok.
    2: { unfold simple_part, if_. rewrite not_redir_word by done. rewrite gets_bind, peek_at, Hk.
      replace (number_is_adjacent_redirection_operator _) with (adjacent tok (hd next l)) by (by destruct l; cbn [hd app]; rewrite number_at).
      rewrite Ha, bump_at. reflexivity. }
    cbv beta iota. rewrite IH by (done || (cbn in Hg; lia)). by rewrite <-!app_assoc.
  - rewrite <-app_assoc in *. cbn [simple_loop]. erewrite bind_ok by by apply simple_part_redirection. cbv beta iota. rewrite IH.
    + by rewrite <-!app_assoc.
    + done.
    + assert (1 <= length lr)%nat; [|rewrite length_app in Hg; lia]. destruct Hr. rewrite length_app. cbn. lia.
Qed.
End Parsing.
