(* ===== verification/ParseRules.v ===== *)
(** The rules of the grammar for pipelines and lists: what the loops of the parser do
    with the tokens of a phrase.

    The rules of the grammar for commands, and the theorem: the parser returns the
    command a program stands for. *)
From S2P Require Import Prelude Env Jobs Utf8 Buf Quote Expand Options Scan Assign LexScan Lex Ast ParseText Parse ParseGrammar.

Section Rules.
Context (input : bytes).

Abbreviation n := (length input).
Abbreviation parse_at f := (parse_command input f).

(** What ends a pipeline, and a list of pipelines. *)
Definition ends_pipeline (tok : Token) : bool := follows tok && match t_kind tok with Pipe | BarAnd => false | _ => true end.
Definition ends_and_or (tok : Token) : bool := ends_pipeline tok && match t_kind tok with AndAnd | OrOr => false | _ => true end.

Lemma follows_kinds tok : follows tok = true -> t_value tok = NoValue /\
  (t_kind tok = Semicolon \/ t_kind tok = Ampersand \/ t_kind tok = Newline \/ t_kind tok = Pipe \/ t_kind tok = BarAnd \/ t_kind tok = AndAnd
   \/ t_kind tok = OrOr \/ t_kind tok = RParen \/ t_kind tok = End_).
Proof. unfold follows. destruct (t_value tok); [|done..]. destruct (t_kind tok); try done; tauto. Qed.

Lemma op_follows k tok : op k tok -> match k with Semicolon | Ampersand | Newline | Pipe | BarAnd | AndAnd | OrOr | RParen | End_ => true | _ => false end = true ->
  follows tok = true.
Proof. intros [Hk Hv]. unfold follows. rewrite Hv, Hk. by destruct k. Qed.

Lemma separator_ends tok : separator tok -> ends_and_or tok = true.
Proof.
  intros [H|[H|H]]; unfold ends_and_or, ends_pipeline; rewrite (op_follows _ _ H) by done; destruct H as [-> _]; done.
Qed.

Definition P_command (l : list Token) (next : Token) (c : Command) : Prop :=
  head_of (fun t => opens t = true) l /\ forall f d rest, follows next = true -> (length l <= f)%nat -> (length (l ++ next :: rest) <= S n)%nat ->
    parse_at f (at_ d (l ++ next :: rest)) = Ok (c, at_ (d ++ l) (next :: rest)).

(** The first token is no lone brace, the command is not a simple one, and the line of its
    first command is found. *)
Definition body_facts (l : list Token) (c : Command) : Prop :=
  head_of (fun t => opens t = true /\ token_is "{" t = false) l /\ match command_data c with CSimple _ _ => False | _ => True end
  /\ forall d rest, compound_body_first_command_line input (at_ d (l ++ rest)) = Some (body_line input l).

Definition P_compound (l : list Token) (c : Command) : Prop :=
  body_facts l c /\ forall f d rest, (length l <= S f)%nat -> (length (l ++ rest) <= S n)%nat ->
    command_at input (parse_at f) (at_ d (l ++ rest)) = Ok (c, at_ (d ++ l) rest).

Definition P_else (l : list Token) (e : option Command) : Prop :=
  (l = [] \/ head_of (fun t => keyword "elif" t \/ keyword "else" t) l) /\
  forall f g d fi rest, keyword "fi" fi -> (length l <= f)%nat -> (length (l ++ fi :: rest) <= S n)%nat -> enough_for g (l ++ fi :: rest) ->
    if_ (is_word "elif") (c <-- parse_elif_chain input (parse_at f) g ;; pret (Some c)) (parse_else input (parse_at f)) (at_ d (l ++ fi :: rest))
    = Ok (e, at_ (d ++ l) (fi :: rest)).

Definition P_pipeline (l : list Token) (next : Token) (c : Command) : Prop :=
  head_of (fun t => opens t = true) l /\ forall f g d rest, follows next = true -> (length l <= f)%nat -> (length (l ++ next :: rest) <= S n)%nat ->
    enough_for g (l ++ next :: rest) ->
    exists g', enough_for g' (next :: rest) /\
      (left <-- parse_at f ;; pipeline_loop input (parse_at f) g left) (at_ d (l ++ next :: rest))
      = pipeline_loop input (parse_at f) g' c (at_ (d ++ l) (next :: rest)).

Definition P_operand (l : list Token) (next : Token) (c : Command) : Prop :=
  head_of begins l /\ forall f d rest, ends_pipeline next = true -> (length l <= f)%nat -> (length (l ++ next :: rest) <= S n)%nat ->
    parse_pipeline input (parse_at f) (at_ d (l ++ next :: rest)) = Ok (c, at_ (d ++ l) (next :: rest)).

Definition P_and_or (l : list Token) (next : Token) (c : Command) : Prop :=
  head_of begins l /\ forall f g d rest, ends_pipeline next = true -> (length l <= f)%nat -> (length (l ++ next :: rest) <= S n)%nat ->
    enough_for g (l ++ next :: rest) ->
    exists g', enough_for g' (next :: rest) /\
      (left <-- parse_pipeline input (parse_at f) ;; and_or_loop input (parse_at f) g left) (at_ d (l ++ next :: rest))
      = and_or_loop input (parse_at f) g' c (at_ (d ++ l) (next :: rest)).

Definition P_sequence (l : list Token) (next : Token) (c : Command) : Prop :=
  head_of begins l /\ forall f g d rest stop words, stops_outside stop -> ends_and_or next = true -> (length l <= f)%nat ->
    (length (l ++ next :: rest) <= S n)%nat -> enough_for g (l ++ next :: rest) ->
    exists g', enough_for g' (next :: rest) /\
      (reject_unexpected_reserved_command words ;;; left <-- parse_and_or input (parse_at f) ;;
       list_loop input (parse_at f) g stop words left) (at_ d (l ++ next :: rest))
      = list_loop input (parse_at f) g' stop words c (at_ (d ++ l) (next :: rest)).

(** Where a list ends. *)
Definition at_stop (stop : PState -> bool) (rest : list Token) : Prop :=
  head_of (fun t => t_kind t <> Newline) rest /\ forall d, stop (at_ d rest) || kind_is End_ (at_ d rest) = true.

Definition P_terminated (l : list Token) (c : Command) : Prop :=
  (exists l' s, l = l' ++ [s] /\ separator s) /\
  forall f d rest stop words, stops_outside stop -> at_stop stop rest -> (length l <= f)%nat -> (length (l ++ rest) <= S n)%nat ->
    parse_list input (parse_at f) stop words (at_ d (l ++ rest)) = Ok (c, at_ (d ++ l) rest).

Definition P_inner (l : list Token) (next : Token) (c : Command) : Prop :=
  forall f d rest stop words, stops_outside stop -> t_kind next = RParen -> (forall d rest, stop (at_ d (next :: rest)) = true) ->
    (length l <= f)%nat -> (length (l ++ next :: rest) <= S n)%nat ->
    parse_list input (parse_at f) stop words (at_ d (l ++ next :: rest)) = Ok (c, at_ (d ++ l) (next :: rest)).

(** * Pipelines *)

Lemma pipeline_stops f g c d next rest : enough_for g (next :: rest) -> match t_kind next with Pipe | BarAnd => false | _ => true end = true ->
  pipeline_loop input (parse_at f) g c (at_ d (next :: rest)) = Ok (c, at_ d (next :: rest)).
Proof.
  unfold enough_for. intros Hg Hk. destruct g as [|g]; [lia|]. cbn [pipeline_loop]. unfold bar_loop_step. parse. by destruct (t_kind next).
Qed.

Lemma rule_pipeline_command l next c : P_command l next c -> P_pipeline l next c.
Proof.
  intros [Hh Hc]. split; [done|]. intros f g d rest Hn Hf Hl Hg. exists g. split; [unfold enough_for in *; rewrite length_app in Hg; lia|].
  by erewrite bind_ok by by apply Hc.
Qed.

(** An operator of a loop, the newlines after it and the next operand. *)
Lemma after_operator {A} d b nl tok l (m : PM A) : Forall (op Newline) nl -> t_kind tok <> Newline -> (length (b :: nl ++ tok :: l) <= S n)%nat ->
  pbind bump (fun _ => pbind (skip_newlines input) (fun _ => m)) (at_ d (b :: nl ++ tok :: l)) = m (at_ (d ++ b :: nl) (tok :: l)).
Proof. intros Hnl Ht Hl. rewrite bump_at, newlines_at; [by rewrite <-app_assoc|done..|cbn in Hl; lia]. Qed.

Lemma opens_newline tok : opens tok = true -> t_kind tok <> Newline.
Proof. intros H. by apply (opens_facts tok [] []) in H as (_ & _ & ? & _). Qed.

Lemma begins_newline tok : begins tok -> t_kind tok <> Newline.
Proof. intros [H|[H _]]; [by apply opens_newline|by rewrite H]. Qed.

Lemma head_split P l l' : head_of P l -> exists tok r, l = tok :: r /\ P tok /\ l ++ l' = tok :: r ++ l'.
Proof. destruct l as [|tok r]; [done|]. intros H. by exists tok, r. Qed.

Ltac measure := unfold enough_for in *; repeat (rewrite ?length_app in *; cbn [length] in *); lia.

Lemma app_split (l : list Token) p nl l' r : (l ++ p :: nl ++ l') ++ r = l ++ p :: nl ++ l' ++ r.
Proof. by rewrite <-app_assoc, <-app_comm_cons, <-app_assoc. Qed.

Lemma rule_pipeline_more l c p nl l' next d0 left' : P_pipeline l p c -> op Pipe p \/ op BarAnd p ->
  left' = (if bool_decide (t_kind p = Pipe) then c else add_stderr_to_stdout_redirect c) ->
  Forall (op Newline) nl -> P_command l' next d0 -> P_pipeline (l ++ p :: nl ++ l') next (connect left' d0 CONN_PIPE).
Proof.
  intros [Hh Hp] Hop -> Hnl [Hh' Hc]. split; [by apply head_app|]. intros f g d rest Hn Hf Hl Hg. rewrite app_split in *.
  destruct (Hp f g d (nl ++ l' ++ next :: rest)) as (g1 & Hg1 & ->); [by destruct Hop as [Hop|Hop]; eapply op_follows|measure..|].
  destruct (head_split _ _ (next :: rest) Hh') as (tok & r & Hl' & Htok & Hr). destruct g1 as [|g1]; [measure|]. exists g1.
  split; [measure|]. cbn [pipeline_loop]. unfold bar_loop_step. parse.
  assert (Hrun : forall left, pbind bump (fun _ => pbind (skip_newlines input) (fun _ => right <-- parse_at f ;; pret (Some (connect left right CONN_PIPE))))
      (at_ (d ++ l) (p :: nl ++ l' ++ next :: rest)) = Ok (Some (connect left d0 CONN_PIPE), at_ (d ++ l ++ p :: nl ++ l') (next :: rest))).
  { intros left. rewrite Hr, after_operator; [|done|by apply opens_newline|rewrite <-Hr; measure]. rewrite <-Hr.
    erewrite bind_ok; [|apply Hc; [done|measure..]]. by rewrite <-!app_assoc. }
  destruct Hop as [[Hk _]|[Hk _]]; rewrite Hk; by erewrite bind_ok by by apply Hrun.
Qed.

(** * Operands *)

Lemma with_no_flags c : with_flags 0 c = c.
Proof. destruct c. unfold with_flags. cbn. by rewrite Z.lor_0_r. Qed.

Lemma prefix_none g flags invert d tok l : opens tok = true -> (0 < g)%nat ->
  prefix_loop g flags invert (at_ d (tok :: l)) = Ok ((flags, invert), at_ d (tok :: l)).
Proof.
  intros Ho Hg. destruct g as [|g]; [lia|]. cbn [prefix_loop]. parse. destruct (opens_facts tok d l Ho) as (_ & _ & _ & _ & H1 & H2).
  by destruct (t_kind tok).
Qed.

Lemma prefix_not g b d tok l : op Bang b -> opens tok = true -> (1 < g)%nat ->
  prefix_loop g 0 false (at_ d (b :: tok :: l)) = Ok ((0, true), at_ (d ++ [b]) (tok :: l)).
Proof. intros [Hk _] Ho Hg. destruct g as [|g]; [lia|]. cbn [prefix_loop]. parse. rewrite Hk. parse. apply prefix_none; [done|lia]. Qed.

Lemma pipeline_after_prefix f flags l next c d rest : P_pipeline l next c -> ends_pipeline next = true -> (length l <= f)%nat ->
  (length (l ++ next :: rest) <= S n)%nat ->
  if_ at_list_terminator (pret (with_flags flags null_command))
    (left <-- parse_at f ;; c <-- pipeline_loop input (parse_at f) (rounds input) left ;; pret (with_flags flags c)) (at_ d (l ++ next :: rest))
  = Ok (with_flags flags c, at_ (d ++ l) (next :: rest)).
Proof.
  intros [Hh Hp] [Hn Hk]%andb_true_iff Hf Hl. destruct (head_split _ _ (next :: rest) Hh) as (tok & r & _ & Htok & Hr).
  unfold if_. rewrite Hr. destruct (opens_facts tok d (r ++ next :: rest) Htok) as (-> & _). rewrite <-Hr.
  destruct (Hp f (rounds input) d rest Hn Hf Hl) as (g' & Hg' & Hrun); [unfold rounds; measure|]. rewrite <-bind_bind.
  erewrite bind_ok; [|etrans; [exact Hrun|by apply pipeline_stops]]. done.
Qed.

Lemma rule_operand_pipeline l next c : P_pipeline l next c -> P_operand l next c.
Proof.
  intros Hp. split; [destruct Hp as [Hh _]; destruct l; [done|by left]|]. intros f d rest Hn Hf Hl. unfold parse_pipeline.
  destruct (head_split _ _ (next :: rest) (proj1 Hp)) as (tok & r & _ & Htok & Hr).
  erewrite bind_ok; [|rewrite Hr; apply prefix_none; [done|unfold rounds; lia]]. rewrite <-Hr. cbv zeta. cbn [fst snd].
  etrans; [by apply (pipeline_after_prefix f _ l next c)|]. by rewrite with_no_flags.
Qed.

Lemma rule_operand_not b l next c : op Bang b -> P_pipeline l next c -> P_operand (b :: l) next (with_flags CMD_INVERT_RETURN c).
Proof.
  intros Hb Hp. split; [by right|]. intros f d rest Hn Hf Hl. unfold parse_pipeline.
  destruct (head_split _ _ (next :: rest) (proj1 Hp)) as (tok & r & _ & Htok & Hr). cbn [app].
  rewrite (bind_ok _ _ _ (0, true) (at_ (d ++ [b]) (l ++ next :: rest))).
  - cbv zeta. cbn [fst snd]. rewrite (at_cons d b l). apply (pipeline_after_prefix f _ l next c); [done..|cbn in Hf; lia|cbn in Hl; lia].
  - rewrite Hr. apply prefix_not; [done..|unfold rounds; lia].
Qed.

(** * And-or lists *)

Lemma rule_and_or_operand l next c : P_operand l next c -> P_and_or l next c.
Proof.
  intros [Hh Hp]. split; [done|]. intros f g d rest Hn Hf Hl Hg. exists g. split; [measure|]. by erewrite bind_ok by by apply Hp.
Qed.

Lemma rule_and_or_more l c a nl l' next d0 k : P_and_or l a c -> op AndAnd a /\ k = CONN_AND_AND \/ op OrOr a /\ k = CONN_OR_OR ->
  Forall (op Newline) nl -> P_operand l' next d0 -> P_and_or (l ++ a :: nl ++ l') next (connect c d0 k).
Proof.
  intros [Hh Hp] Hop Hnl [Hh' Hc]. split; [by apply head_app|]. intros f g d rest Hn Hf Hl Hg. rewrite app_split in *.
  destruct (Hp f g d (nl ++ l' ++ next :: rest)) as (g1 & Hg1 & ->);
    [destruct Hop as [[Hop _]|[Hop _]]; unfold ends_pipeline; rewrite (op_follows _ _ Hop) by done; by rewrite (proj1 Hop)|measure..|].
  destruct (head_split _ _ (next :: rest) Hh') as (tok & r & Hl' & Htok & Hr). destruct g1 as [|g1]; [measure|]. exists g1.
  split; [measure|]. cbn [and_or_loop]. parse.
  assert (Hrun : forall k, pbind bump (fun _ => pbind (skip_newlines input) (fun _ => right <-- parse_pipeline input (parse_at f) ;;
        and_or_loop input (parse_at f) g1 (connect c right k)))
      (at_ (d ++ l) (a :: nl ++ l' ++ next :: rest)) = and_or_loop input (parse_at f) g1 (connect c d0 k) (at_ (d ++ l ++ a :: nl ++ l') (next :: rest))).
  { intros k'. rewrite Hr, after_operator; [|done|by apply begins_newline|rewrite <-Hr; measure]. rewrite <-Hr.
    erewrite bind_ok; [|apply Hc; [done|measure..]]. by rewrite <-!app_assoc. }
  destruct Hop as [[[Hk _] ->]|[[Hk _] ->]]; rewrite Hk; apply Hrun.
Qed.

Lemma and_or_stops f g c d next rest : enough_for g (next :: rest) -> ends_and_or next = true ->
  and_or_loop input (parse_at f) g c (at_ d (next :: rest)) = Ok (c, at_ d (next :: rest)).
Proof.
  unfold enough_for. intros Hg [_ Hk]%andb_true_iff. destruct g as [|g]; [lia|]. cbn [and_or_loop]. parse. by destruct (t_kind next).
Qed.

Lemma and_or_parsed l next c f d rest : P_and_or l next c -> ends_and_or next = true -> (length l <= f)%nat -> (length (l ++ next :: rest) <= S n)%nat ->
  parse_and_or input (parse_at f) (at_ d (l ++ next :: rest)) = Ok (c, at_ (d ++ l) (next :: rest)).
Proof.
  intros [_ Hp] Hn Hf Hl. destruct (Hp f (rounds input) d rest) as (g' & Hg' & Hrun); [by apply andb_true_iff in Hn as [? _]|done..|unfold rounds; measure|].
  unfold parse_and_or. rewrite Hrun. by apply and_or_stops.
Qed.

(** * Lists *)

Lemma rejects_nothing {A} words d tok l (m : PM A) : begins tok ->
  pbind (reject_unexpected_reserved_command words) (fun _ => m) (at_ d (tok :: l)) = m (at_ d (tok :: l)).
Proof.
  intros Hb. apply (bind_ok _ (fun _ => m) _ tt). unfold reject_unexpected_reserved_command. destruct (is_stop_word _ _); [done|].
  destruct Hb as [Hb|[Hk Hv]]; [by destruct (opens_facts tok d l Hb) as (_ & -> & _)|].
  unfold unexpected_reserved_word. parse. cbn [mbind option_bind]. by rewrite Hk.
Qed.

Lemma rule_sequence_one l next c : P_and_or l next c -> P_sequence l next c.
Proof.
  intros Hp. split; [by destruct Hp|]. intros f g d rest stop words Hs Hn Hf Hl Hg. exists g. split; [measure|].
  destruct (head_split _ _ (next :: rest) (proj1 Hp)) as (tok & r & _ & Htok & Hr). rewrite Hr, rejects_nothing by done. rewrite <-Hr.
  by erewrite bind_ok by by apply (and_or_parsed l next c).
Qed.

(** A separator and the newlines after it, in the loop of a list. *)
Lemma after_separator f g stop words left d s nl tok l : stops_outside stop -> separator s -> Forall (op Newline) nl -> t_kind tok <> Newline ->
  (length (s :: nl ++ tok :: l) <= S n)%nat ->
  list_loop input (parse_at f) (S g) stop words left (at_ d (s :: nl ++ tok :: l))
  = if_ (fun st => stop st || kind_is End_ st) (pret (ended left s))
      (reject_unexpected_reserved_command words ;;; right <-- parse_and_or input (parse_at f) ;;
       list_loop input (parse_at f) g stop words (connect left right (connector s))) (at_ (d ++ s :: nl) (tok :: l)).
Proof.
  intros Hs Hsep Hnl Ht Hl. cbn [list_loop]. cbv zeta. unfold if_ at 1. rewrite Hs by by right. parse. unfold ended, connector.
  destruct Hsep as [[Hk Hv]|[[Hk Hv]|[Hk Hv]]]; rewrite Hk.
  - by rewrite after_operator.
  - by rewrite after_operator.
  - change (s :: nl ++ tok :: l) with ((s :: nl) ++ tok :: l). rewrite newlines_at; [done|by constructor|done|done].
Qed.

Lemma begins_kind tok : begins tok -> t_kind tok <> End_.
Proof. intros [H|[H _]]; [by apply (opens_facts tok [] []) in H as (_ & _ & _ & ? & _)|by rewrite H]. Qed.

Lemma rule_sequence_more l c s nl l' next d0 : P_sequence l s c -> separator s -> Forall (op Newline) nl -> P_and_or l' next d0 ->
  P_sequence (l ++ s :: nl ++ l') next (connect c d0 (connector s)).
Proof.
  intros [Hh Hp] Hsep Hnl Hc. split; [by apply head_app|]. intros f g d rest stop words Hs Hn Hf Hl Hg. rewrite app_split in *.
  destruct (Hp f g d (nl ++ l' ++ next :: rest) stop words) as (g1 & Hg1 & ->); [done|by apply separator_ends|measure..|].
  destruct (head_split _ _ (next :: rest) (proj1 Hc)) as (tok & r & Hl' & Htok & Hr). destruct g1 as [|g1]; [measure|]. exists g1.
  split; [measure|]. rewrite Hr. rewrite after_separator; [|done..|by apply begins_newline|rewrite <-Hr; measure].
  unfold if_. rewrite Hs by by left. rewrite kind_is_at, bool_decide_eq_false_2 by by apply begins_kind. cbn [orb]. rewrite rejects_nothing by done.
  rewrite <-Hr. erewrite bind_ok; [|apply (and_or_parsed l' next d0); [done..|measure|measure]]. by rewrite <-!app_assoc.
Qed.

(** The start of a list. *)
Lemma list_starts f stop words d nl l next rest c : stops_outside stop -> Forall (op Newline) nl -> P_sequence l next c -> ends_and_or next = true ->
  (length l <= f)%nat -> (length (nl ++ l ++ next :: rest) <= S n)%nat ->
  exists g, enough_for g (next :: rest) /\ parse_list input (parse_at f) stop words (at_ d (nl ++ l ++ next :: rest))
    = list_loop input (parse_at f) g stop words c (at_ (d ++ nl ++ l) (next :: rest)).
Proof.
  intros Hs Hnl [Hh Hp] Hn Hf Hl. destruct (head_split _ _ (next :: rest) Hh) as (tok & r & _ & Htok & Hr).
  destruct (Hp f (rounds input) (d ++ nl) rest stop words) as (g & Hg & Hrun); [done..|measure|unfold rounds; measure|].
  exists g. split; [done|]. unfold parse_list. rewrite Hr, newlines_at; [|done|by apply begins_newline|rewrite <-Hr; measure].
  unfold if_. rewrite Hs by by left. rewrite <-Hr, Hrun. by rewrite <-app_assoc.
Qed.

Lemma rule_terminated nl l c s nl' : Forall (op Newline) nl -> P_sequence l s c -> separator s -> Forall (op Newline) nl' ->
  P_terminated (nl ++ l ++ s :: nl') (ended c s).
Proof.
  intros Hnl Hp Hsep Hnl'. split.
  - induction nl' as [|x l1 _] using rev_ind; [exists (nl ++ l), s; by rewrite <-app_assoc|].
    exists (nl ++ l ++ s :: l1), x. split; [by rewrite <-!app_assoc|]. apply Forall_app in Hnl' as [_ Hx]. apply Forall_inv in Hx. right. by right.
  - intros f d rest stop words Hs [Hh Hst] Hf Hl. rewrite <-!app_assoc in *. cbn [app] in *. destruct rest as [|tok rest]; [done|]. cbn in Hh.
    destruct (list_starts f stop words d nl l s (nl' ++ tok :: rest) c) as (g & Hg & ->); [done..|by apply separator_ends|measure|measure|].
    destruct g as [|g]; [measure|]. rewrite after_separator; [|done..|measure]. unfold if_. rewrite Hst. by rewrite <-!app_assoc.
Qed.
End Rules.

Ltac measure := unfold enough_for in *; repeat (rewrite ?length_app in *; cbn [length] in *); lia.

(** Lists in one normal form. *)
Ltac regroup := repeat first [rewrite <-app_assoc|progress cbn [app]].

Section Accepts.
Context (input : bytes).

Abbreviation n := (length input).
Abbreviation parse_at f := (parse_command input f).

(** * Lists inside commands *)

Lemma keyword_is t tok t' : keyword t tok -> token_is t' tok = bytes_eqb (bs t) (bs t').
Proof. intros [_ Hv]. unfold token_is. by rewrite Hv. Qed.

Lemma expect_word_at {A} t d tok l (m : PM A) : keyword t tok -> pbind (expect_word t) (fun _ => m) (at_ d (tok :: l)) = m (at_ (d ++ [tok]) l).
Proof.
  intros Hk. apply (bind_ok _ (fun _ => m) _ tt). unfold expect_word, if_. rewrite is_word_at, (keyword_is t) by done.
  rewrite bytes_eqb_refl. by rewrite bump_at.
Qed.

Lemma expect_kind_at {A} k text d tok l (m : PM A) : op k tok -> k <> DblRParen ->
  pbind (expect_kind k text) (fun _ => m) (at_ d (tok :: l)) = m (at_ (d ++ [tok]) l).
Proof.
  intros [Hk _] Hd. apply (bind_ok _ (fun _ => m) _ tt). unfold expect_kind. rewrite !kind_is_at, Hk.
  rewrite (bool_decide_eq_false_2 (k = DblRParen)), andb_false_r, bool_decide_eq_true_2 by done. by rewrite bump_at.
Qed.

Lemma stop_at_words ws t tok rest : keyword t tok -> existsb (fun t' => bytes_eqb (bs t) (bs t')) ws = true -> at_stop (is_stop_word ws) (tok :: rest).
Proof.
  intros Hk H. split; [cbn; by rewrite (proj1 Hk)|]. intros d. rewrite stop_word_at. unfold any_word.
  replace (existsb _ ws) with true; [done|]. rewrite <-H. clear H. induction ws as [|t' ws IH]; [done|]. cbn [existsb]. by rewrite IH, (keyword_is t).
Qed.

Lemma stop_at_kind k tok rest : op k tok -> k = RBrace \/ k = RParen -> at_stop (is_stop_kind [k]) (tok :: rest).
Proof.
  intros [Hk _] H. split; [cbn; rewrite Hk; by destruct H as [-> | ->]|]. intros d. unfold is_stop_kind. rewrite peek_kind_at, Hk. cbn [existsb].
  by rewrite bool_decide_eq_true_2.
Qed.

Lemma until_word_at w f d l c k rest : P_terminated input l c -> keyword w k -> existsb (String.eqb w) closing_words = true -> (length l <= f)%nat ->
  (length (l ++ k :: rest) <= S n)%nat ->
  until_word input (parse_at f) w (at_ d (l ++ k :: rest)) = Ok (c, at_ (d ++ l ++ [k]) rest).
Proof.
  intros [_ Hp] Hk Hw Hf Hl. unfold until_word, parse_simple_list_until.
  erewrite bind_ok; [|apply Hp; [apply words_outside; cbn [forallb]; by rewrite Hw|eapply stop_at_words; [done|cbn; by rewrite bytes_eqb_refl]|done|done]].
  rewrite expect_word_at by done. by rewrite <-app_assoc.
Qed.

Lemma previous_terminated d l rest : (exists l' s, l = l' ++ [s] /\ separator s) -> previous_token_terminated_list (at_ (d ++ l) rest) = true.
Proof.
  intros (l' & s & -> & Hs). unfold previous_token_terminated_list, at_. cbn [index toks]. rewrite !app_assoc, length_app, Nat.add_1_r, <-app_assoc.
  rewrite lookup_app_r, Nat.sub_diag by done. cbn. by destruct Hs as [[-> _]|[[-> _]|[-> _]]].
Qed.

Lemma brace_list_at f d o l c e rest : op LBrace o -> P_terminated input l c -> op RBrace e -> (length l <= f)%nat ->
  (length (o :: l ++ e :: rest) <= S n)%nat ->
  brace_list input (parse_at f) (at_ d (o :: l ++ e :: rest)) = Ok (c, at_ (d ++ o :: l ++ [e]) rest).
Proof.
  intros Ho [Hlast Hp] He Hf Hl. unfold brace_list. rewrite expect_kind_at by done. unfold parse_simple_list_until_kind.
  erewrite bind_ok; [|apply Hp; [apply kinds_outside; by left|apply stop_at_kind; by eauto|done|measure]].
  unfold if_. rewrite kind_is_at, bool_decide_eq_false_2 by by rewrite (proj1 He). rewrite previous_terminated by done.
  rewrite expect_kind_at by done. unfold pret. by rewrite <-!app_assoc.
Qed.

(** * Compound commands *)

Lemma find_app {A} (p : A -> bool) l l' x : List.find p l = Some x -> List.find p (l ++ l') = Some x.
Proof. induction l as [|a l IH]; [done|]. cbn. destruct (p a); auto. Qed.

Lemma first_line_at l rest : existsb (fun tok => negb (bool_decide (t_kind tok = Newline))) l = true ->
  (fun tok => line_number_for_offset input (t_start tok))
    <$> (fix first l := match l with tok :: r => if bool_decide (t_kind tok = Newline) then first r else Some tok | [] => None end) (l ++ rest)
  = Some (first_line input l).
Proof.
  intros H. unfold first_line. induction l as [|tok l IH]; [done|]. cbn in H |- *. case_bool_decide; [by apply IH|done].
Qed.

(** For a group and for the other commands. *)
Lemma group_body o l c e : op LBrace o -> op RBrace e -> body_facts input (o :: l ++ [e]) (bare (CGroup c)).
Proof.
  intros Ho He. split; [destruct o as [k v x y z], Ho as [Hk Hv]; cbn in Hk, Hv; by subst|]. split; [done|]. intros d rest.
  unfold compound_body_first_command_line, at_, body_line. cbn [toks index]. rewrite drop_app_length. cbn [app]. rewrite (proj1 Ho), bool_decide_eq_true_2 by done.
  apply first_line_at. rewrite existsb_app. cbn. by rewrite (proj1 He), orb_true_r.
Qed.

Lemma other_body tok l c : opens tok = true -> token_is "{" tok = false -> t_kind tok <> LBrace ->
  match command_data c with CSimple _ _ => False | _ => True end -> body_facts input (tok :: l) c.
Proof.
  intros Ho Hb Hk Hc. split; [done|]. split; [done|]. intros d rest. unfold compound_body_first_command_line, at_, body_line. cbn [toks index].
  rewrite drop_app_length. cbn [app]. rewrite Hb, bool_decide_eq_false_2 by done.
  replace (match t_kind tok with LBrace => _ | Word => _ | _ => _ end) with (tok :: l ++ rest) by (by destruct (t_kind tok)).
  apply (first_line_at (tok :: l)). cbn. destruct (opens_facts tok [] [] Ho) as (_ & _ & Hn & _). by rewrite bool_decide_eq_false_2.
Qed.

Lemma keyword_body t tok l c : keyword t tok -> existsb (fun t' => bytes_eqb (bs t) (bs t')) ("{" :: closing_words)%string = false ->
  match command_data c with CSimple _ _ => False | _ => True end -> body_facts input (tok :: l) c.
Proof.
  intros Hk Ht Hc. cbn [existsb] in Ht. apply orb_false_iff in Ht as [Hb Ht]. apply other_body; [|by rewrite (keyword_is t)|by rewrite (proj1 Hk)|done].
  unfold opens. rewrite (proj1 Hk), andb_true_r. apply negb_true_iff. unfold any_word. revert Ht. generalize closing_words as ws.
  induction ws as [|t' ws IH]; [done|]. cbn [existsb]. rewrite (keyword_is t) by done. intros [-> H]%orb_false_iff. auto.
Qed.

(** The tests of [command_at] on the first token. *)
Ltac dispatch := unfold command_at, if_, is_function_def_start; rewrite ?is_word_at, ?kind_is_at; cbn [token_is t_value t_kind bs].

Ltac head_dispatch tok H := destruct tok as [? ? ? ? ?], H as [H ?]; cbn in H; cbn [t_kind t_value] in *; subst; cbn [app]; by dispatch.

Lemma rule_group o l c e : op LBrace o -> P_terminated input l c -> op RBrace e -> P_compound input (o :: l ++ [e]) (bare (CGroup c)).
Proof.
  intros Ho Hp He. split; [by apply group_body|]. intros f d rest Hf Hl.
  transitivity (parse_group_command input (parse_at f) (at_ d ((o :: l ++ [e]) ++ rest))); [head_dispatch o Ho|].
  unfold parse_group_command. cbn [app] in *. rewrite <-app_assoc in *. cbn [app] in *. by erewrite bind_ok by (apply brace_list_at; [done..|measure|measure]).
Qed.

Lemma rule_subshell o l c e : op LParen o -> P_inner input l e c -> op RParen e -> P_compound input (o :: l ++ [e]) (subshell c 0).
Proof.
  intros Ho Hp He. split.
  { apply other_body; [|unfold token_is; by rewrite (proj2 Ho)|by rewrite (proj1 Ho)|done]. unfold opens. by rewrite (op_no_word _ _ _ Ho), (proj1 Ho). }
  intros f d rest Hf Hl. transitivity (parse_subshell_command input (parse_at f) (at_ d ((o :: l ++ [e]) ++ rest))); [head_dispatch o Ho|].
  unfold parse_subshell_command. cbn [app] in *. rewrite <-app_assoc in *. cbn [app] in *. rewrite expect_kind_at by done.
  unfold parse_simple_list_until_kind. pose proof (fun rest => stop_at_kind RParen e rest He (or_intror eq_refl)) as Hst.
  erewrite bind_ok; [|apply Hp; [apply kinds_outside; by right|by destruct He| |measure|measure]].
  - rewrite expect_kind_at by done. unfold pret. by rewrite <-!app_assoc.
  - intros d' rest'. destruct (Hst rest') as [_ H]. specialize (H d'). rewrite kind_is_at, bool_decide_eq_false_2, orb_false_r in H by by rewrite (proj1 He). done.
Qed.

Lemma if_branch_at w f g d i lt t th lb b le e fi rest : keyword w i -> P_terminated input lt t -> keyword "then" th -> P_terminated input lb b ->
  P_else input le e -> keyword "fi" fi -> (length (i :: lt ++ th :: lb ++ le) <= S f)%nat ->
  (length (i :: lt ++ th :: lb ++ le ++ fi :: rest) <= S n)%nat -> enough_for g (le ++ fi :: rest) ->
  if_branch input (parse_at f) w (parse_elif_chain input (parse_at f) g) (at_ d (i :: lt ++ th :: lb ++ le ++ fi :: rest))
  = Ok (bare (CIf t b e), at_ (d ++ i :: lt ++ th :: lb ++ le) (fi :: rest)).
Proof.
  intros Hi Ht Hth Hb [Hhead He] Hfi Hf Hl Hg. unfold if_branch. rewrite expect_word_at by done.
  erewrite bind_ok; [|apply until_word_at; [done..|measure|measure]]. unfold parse_simple_list_until.
  assert (Hst : at_stop (is_stop_word ["elif"; "else"; "fi"]%string) (le ++ fi :: rest)).
  { destruct Hhead as [->|Hh]; [by eapply stop_at_words|]. destruct le as [|k le]; [done|]. cbn [app]. destruct Hh as [Hh|Hh]; by eapply stop_at_words. }
  erewrite bind_ok; [|apply Hb; [by apply words_outside|done|measure|measure]]. cbv zeta.
  erewrite bind_ok; [|apply He; [done|measure|measure|done]]. unfold pret. by rewrite <-!app_assoc.
Qed.

Lemma rule_if i lt t th lb b le e fi : keyword "if" i -> P_terminated input lt t -> keyword "then" th -> P_terminated input lb b -> P_else input le e ->
  keyword "fi" fi -> P_compound input (i :: lt ++ th :: lb ++ le ++ [fi]) (bare (CIf t b e)).
Proof.
  intros Hi Ht Hth Hb He Hfi. split; [by apply (keyword_body "if")|]. intros f d rest Hf Hl.
  transitivity (parse_if_command input (parse_at f) (at_ d ((i :: lt ++ th :: lb ++ le ++ [fi]) ++ rest))); [head_dispatch i Hi|].
  assert (Heq : (i :: lt ++ th :: lb ++ le ++ [fi]) ++ rest = i :: lt ++ th :: lb ++ le ++ fi :: rest) by (by regroup).
  unfold parse_if_command. rewrite Heq in *. erewrite bind_ok; [|apply if_branch_at; [done..|measure|measure|unfold rounds; measure]].
  rewrite expect_word_at by done. unfold pret. by regroup.
Qed.

Lemma rule_while w lt t d lb b e : keyword "while" w -> P_terminated input lt t -> keyword "do" d -> P_terminated input lb b -> keyword "done" e ->
  P_compound input (w :: lt ++ d :: lb ++ [e]) (bare (CWhile t b)).
Proof.
  intros Hw Ht Hd Hb He. split; [by apply (keyword_body "while")|]. intros f p rest Hf Hl.
  transitivity (parse_while_command input (parse_at f) (at_ p ((w :: lt ++ d :: lb ++ [e]) ++ rest))); [head_dispatch w Hw|].
  assert (Heq : (w :: lt ++ d :: lb ++ [e]) ++ rest = w :: lt ++ d :: lb ++ e :: rest) by (by regroup).
  unfold parse_while_command. rewrite Heq in *. rewrite expect_word_at by done. erewrite bind_ok; [|apply until_word_at; [done..|measure|measure]].
  erewrite bind_ok; [|apply until_word_at; [done..|measure|measure]]. unfold pret. by regroup.
Qed.

Lemma rule_until w lt t d lb b e : keyword "until" w -> P_terminated input lt t -> keyword "do" d -> P_terminated input lb b -> keyword "done" e ->
  P_compound input (w :: lt ++ d :: lb ++ [e]) (bare (CUntil t b)).
Proof.
  intros Hw Ht Hd Hb He. split; [by apply (keyword_body "until")|]. intros f p rest Hf Hl.
  transitivity (parse_until_command input (parse_at f) (at_ p ((w :: lt ++ d :: lb ++ [e]) ++ rest))); [head_dispatch w Hw|].
  assert (Heq : (w :: lt ++ d :: lb ++ [e]) ++ rest = w :: lt ++ d :: lb ++ e :: rest) by (by regroup).
  unfold parse_until_command. rewrite Heq in *. rewrite expect_word_at by done. erewrite bind_ok; [|apply until_word_at; [done..|measure|measure]].
  erewrite bind_ok; [|apply until_word_at; [done..|measure|measure]]. unfold pret. by regroup.
Qed.

Lemma rule_else_none : P_else input [] None.
Proof.
  split; [by left|]. intros f g d fi rest Hfi _ _ _. cbn [app]. unfold if_. rewrite is_word_at, (keyword_is "fi") by done. cbn [bs bytes_eqb].
  unfold parse_else, if_. rewrite is_word_at, (keyword_is "fi") by done. cbn. by rewrite app_nil_r.
Qed.

Lemma rule_else_block e l c : keyword "else" e -> P_terminated input l c -> P_else input (e :: l) (Some c).
Proof.
  intros He [_ Hp]. split; [right; by right|]. intros f g d fi rest Hfi Hf Hl Hg. cbn [app] in *. unfold if_. rewrite is_word_at, (keyword_is "else") by done.
  change (bytes_eqb (bs "else") (bs "elif")) with false. cbv iota. unfold parse_else, if_. rewrite is_word_at, (keyword_is "else") by done. rewrite bytes_eqb_refl.
  rewrite expect_word_at by done. unfold parse_simple_list_until.
  erewrite bind_ok; [|apply Hp; [by apply words_outside|by eapply stop_at_words|measure|measure]]. cbn. by rewrite <-app_assoc.
Qed.

Lemma rule_else_elif e lt t th lb b le r : keyword "elif" e -> P_terminated input lt t -> keyword "then" th -> P_terminated input lb b -> P_else input le r ->
  P_else input (e :: lt ++ th :: lb ++ le) (Some (bare (CIf t b r))).
Proof.
  intros He Ht Hth Hb Hr. split; [right; by left|]. intros f g d fi rest Hfi Hf Hl Hg.
  assert (Heq : (e :: lt ++ th :: lb ++ le) ++ fi :: rest = e :: lt ++ th :: lb ++ le ++ fi :: rest) by (by regroup).
  rewrite Heq in *. unfold if_. rewrite is_word_at, (keyword_is "elif"), bytes_eqb_refl by done. destruct g as [|g]; [measure|]. cbn [parse_elif_chain].
  by erewrite bind_ok; [|apply if_branch_at; [done..|measure|measure|measure]].
Qed.

(** * Lists in parentheses *)

Lemma rule_inner_terminated l next c : P_terminated input l c -> P_inner input l next c.
Proof.
  intros [_ Hp] f d rest stop words Hs Hk Hst Hf Hl. apply Hp; [done| |done|done]. split; [cbn; by rewrite Hk|]. intros d'. by rewrite Hst.
Qed.

Lemma rule_inner_open nl l next c : Forall (op Newline) nl -> op RParen next -> P_sequence input l next c -> P_inner input (nl ++ l) next c.
Proof.
  intros Hnl Hn Hp f d rest stop words Hs Hk Hst Hf Hl. rewrite <-app_assoc in *.
  destruct (list_starts input f stop words d nl l next rest c) as (g & Hg & ->); [done..| |measure|measure|].
  { unfold ends_and_or, ends_pipeline. rewrite (op_follows _ _ Hn) by done. by rewrite Hk. }
  destruct g as [|g]; [measure|]. cbn [list_loop]. unfold if_ at 1. by rewrite Hst.
Qed.

(** * Loops over words *)

Lemma word_desc_at d tok l : parse_word_desc input (at_ d (tok :: l)) = Ok (word_or_operator input tok, at_ (d ++ [tok]) l).
Proof. unfold parse_word_desc, bump_or. by rewrite bind_bind, bump_tok_at. Qed.

Lemma word_list_at words s nl tok rest : Forall (fun tok => is_redirection_target tok = true) words -> op Semicolon s \/ op Newline s ->
  Forall (op Newline) nl -> t_kind tok <> Newline -> forall g d ws, enough_for g (words ++ s :: nl ++ tok :: rest) ->
  (length (words ++ s :: nl ++ tok :: rest) <= S n)%nat ->
  word_list_loop input g ws (at_ d (words ++ s :: nl ++ tok :: rest)) = Ok (ws ++ map (word_or_operator input) words, at_ (d ++ words ++ s :: nl) (tok :: rest)).
Proof.
  intros Hw Hs Hnl Ht. induction Hw as [|x words Hx _ IH]; intros g d ws Hg Hl; (destruct g as [|g]; [measure|]); cbn [word_list_loop app map].
  - rewrite gets_bind, peek_kind_at, app_nil_r. destruct Hs as [[Hk Hv]|[Hk Hv]]; rewrite Hk; [by rewrite after_operator|].
    change (s :: nl ++ tok :: rest) with ((s :: nl) ++ tok :: rest). rewrite newlines_at; [done|by constructor|done|measure].
  - rewrite gets_bind, peek_kind_at. unfold is_redirection_target in Hx.
    assert (Hrun : (word <-- parse_word_desc input ;; word_list_loop input g (ws ++ [word])) (at_ d (x :: words ++ s :: nl ++ tok :: rest))
      = Ok (ws ++ word_or_operator input x :: map (word_or_operator input) words, at_ (d ++ x :: words ++ s :: nl) (tok :: rest))).
    { erewrite bind_ok by by apply word_desc_at. rewrite IH by measure. by regroup. }
    by destruct (t_kind x).
Qed.

Lemma rule_for f name i words s nl d lb b e : keyword "for" f -> is_redirection_target name = true -> keyword "in" i ->
  Forall (fun tok => is_redirection_target tok = true) words -> op Semicolon s \/ op Newline s -> Forall (op Newline) nl ->
  keyword "do" d -> P_terminated input lb b -> keyword "done" e ->
  P_compound input (f :: name :: i :: words ++ s :: nl ++ d :: lb ++ [e])
    (bare (CFor (word_desc input (token_value_to_string (t_value name)) 0 name)
       (if is_nil words then None else Some (map (word_or_operator input) words)) b (line_number_for_offset input (t_start name)))).
Proof.
  intros Hf Hname Hi Hw Hs Hnl Hd Hb He. split; [by apply (keyword_body "for")|]. intros fuel p rest Hfu Hl.
  assert (Heq : (f :: name :: i :: words ++ s :: nl ++ d :: lb ++ [e]) ++ rest = f :: name :: i :: words ++ s :: nl ++ d :: lb ++ e :: rest) by (by regroup).
  transitivity (parse_for_command input (parse_at fuel) (at_ p ((f :: name :: i :: words ++ s :: nl ++ d :: lb ++ [e]) ++ rest))); [head_dispatch f Hf|].
  unfold parse_for_command. rewrite Heq in *. rewrite expect_word_at by done. unfold if_ at 1. rewrite kind_is_at, bool_decide_eq_false_2.
  2: { unfold is_redirection_target in Hname. by destruct (t_kind name). }
  rewrite gets_bind, peek_at, Hname, bump_at. cbv zeta. rewrite no_newlines_at by (by rewrite ?(proj1 Hi) || measure).
  rewrite (bind_ok _ _ _ (if is_nil words then None else Some (map (word_or_operator input) words)) (at_ (((p ++ [f]) ++ [name]) ++ i :: words ++ s :: nl) (d :: lb ++ e :: rest))).
  - unfold loop_body. rewrite !bind_bind, no_newlines_at by (by rewrite ?(proj1 Hd) || measure).
    rewrite bind_bind. rewrite (bind_ok (optional_semicolon input) _ _ tt (at_ (((p ++ [f]) ++ [name]) ++ i :: words ++ s :: nl) (d :: lb ++ e :: rest))).
    2: { unfold optional_semicolon, if_. rewrite kind_is_at, bool_decide_eq_false_2; [done|]. by rewrite (proj1 Hd). }
    erewrite bind_ok.
    2: { unfold if_. rewrite kind_is_at, bool_decide_eq_false_2 by by rewrite (proj1 Hd). rewrite expect_word_at by done.
      apply until_word_at; [done..|measure|measure]. }
    unfold pret. by regroup.
  - unfold in_words, if_. rewrite is_word_at, (keyword_is "in"), bytes_eqb_refl, expect_word_at by done. unfold parse_word_list_until_command_body.
    erewrite bind_ok; [|apply word_list_at; [done..|by rewrite (proj1 Hd)|unfold rounds; measure|measure]]. unfold pret. cbn [app]. regroup. by destruct words.
Qed.

(** * Commands *)

Lemma with_redirects_data rs c : command_data (redirected rs c) = command_data c.
Proof. revert c. induction rs as [|r rs IH]; intros c; [done|]. cbn [redirected fold_left]. etrans; [apply IH|done]. Qed.

(** Outside here-documents there is nothing to save. *)
Lemma docs_at {A} d l (m : PM A) : pbind (set_here_docs 0 None) (fun _ => m) (at_ d l) = m (at_ d l).
Proof. reflexivity. Qed.

(** The command at the first token with the redirections after it. *)
Lemma command_body_at f l lr next rest d c rs : command_at input (parse_at f) (at_ d (l ++ lr ++ next :: rest)) = Ok (c, at_ (d ++ l) (lr ++ next :: rest)) ->
  redirections input lr rs -> follows next = true -> l <> [] -> (length (l ++ lr ++ next :: rest) <= S n)%nat ->
  parse_at (S f) (at_ d (l ++ lr ++ next :: rest)) = Ok (placed input l (redirected rs c), at_ (d ++ l ++ lr) (next :: rest)).
Proof.
  intros Hc Hr Hn Hne Hl. cbn [parse_command]. unfold parse_command_body. rewrite !gets_bind. cbn [here_doc_count here_doc_body_offset at_ fst snd].
  rewrite docs_at. erewrite bind_ok by exact Hc. unfold parse_trailing_redirects. erewrite bind_ok; [|apply redirections_parsed; [exact Hr|exact Hn|unfold rounds; measure]].
  rewrite docs_at. destruct l as [|tok l]; [done|]. cbn [app]. rewrite peek_at. unfold pret, placed. by rewrite <-!app_assoc.
Qed.

Lemma body_nonempty l c : body_facts input l c -> l <> [].
Proof. by intros [Hh _] ->. Qed.

Lemma rule_compound l c lr next rs : P_compound input l c -> redirections input lr rs -> P_command input (l ++ lr) next (placed input l (redirected rs c)).
Proof.
  intros [Hb Hp] Hr. split.
  { destruct Hb as [Hh _]. destruct l as [|tok l]; [done|]. by destruct Hh. }
  intros f d rest Hn Hf Hl. rewrite <-app_assoc in *. pose proof (body_nonempty _ _ Hb) as Hne. destruct f as [|f]; [destruct l; [done|]; measure|].
  apply command_body_at; [|done|done|done|done]. apply Hp; measure.
Qed.

(** The tokens of a simple command. *)
Definition part_kind (k : TokenKind) : bool := match k with Word | AssignmentWord | Number => true | k => is_redirection_kind k end.

Lemma parts_kinds l next ws rs : parts input l next ws rs -> Forall (fun tok => part_kind (t_kind tok) = true) l /\ (l <> [] -> is_nil ws && is_nil rs = false).
Proof.
  induction 1 as [next|tok l next ws rs [Hk _] _ [IH _]|tok l next ws rs Hk _ _ _ [IH _]|lr r l next ws rs Hr _ [IH _]]; (split; [|done||(intros _; by rewrite andb_false_r)]).
  - constructor.
  - constructor; [by destruct Hk as [-> | ->]|done].
  - constructor; [by rewrite Hk|done].
  - apply Forall_app. split; [|done]. destruct Hr as [tok operator target i Hr Hi H1 H2 Hv Ht]. apply Forall_app. split.
    + destruct tok as [tok|]; [|constructor]. apply Forall_cons. split; [|constructor]. by destruct Hr as [[-> _]|[-> _]].
    + apply Forall_cons. split; [|apply Forall_cons; split; [|constructor]].
      * apply redirection_kind in Hi. by destruct (t_kind operator).
      * unfold is_redirection_target in Ht. by destruct (t_kind target).
Qed.

Lemma part_opens tok : part_kind (t_kind tok) = true -> any_word (closing_words ++ compound_words) tok = false -> opens tok = true.
Proof. intros Hk Hw. rewrite any_word_app in Hw. apply orb_false_iff in Hw as [Hw _]. unfold opens. rewrite Hw. by destruct (t_kind tok). Qed.

Lemma simple_dispatch f d tok next l : part_kind (t_kind tok) = true -> any_word (closing_words ++ compound_words) tok = false -> t_kind next <> LParen ->
  command_at input (parse_at f) (at_ d (tok :: next :: l)) = parse_simple_command input (at_ d (tok :: next :: l)).
Proof.
  intros Hk Hw Hn. pose proof (part_opens _ Hk Hw) as Ho. rewrite any_word_app in Hw. apply orb_false_iff in Hw as [_ Hw].
  unfold any_word, compound_words in Hw. cbn [existsb] in Hw. to_prop.
  unfold command_at, if_, is_function_def_start. rewrite !is_word_at, !kind_is_at, peek_one_at.
  repeat match goal with H : token_is _ tok = false |- _ => rewrite H; clear H end. cbn [orb].
  rewrite (bool_decide_eq_false_2 (Some (t_kind next) = Some LParen)) by congruence. rewrite andb_false_r. cbn [andb].
  rewrite !bool_decide_eq_false_2 by (by intros E; rewrite E in Hk). cbn [andb]. rewrite gets_bind.
  destruct (opens_facts tok d (next :: l) Ho) as (_ & -> & _). done.
Qed.

Lemma rule_simple l next ws rs : parts input l next ws rs -> l <> [] -> any_word (closing_words ++ compound_words) (hd next l) = false ->
  P_command input l next (placed input l (bare (CSimple ws rs))).
Proof.
  intros Hp Hne Hw. destruct (parts_kinds _ _ _ _ Hp) as [Hk Hws]. destruct l as [|tok l]; [done|]. cbn [hd] in Hw. apply Forall_cons in Hk as [Hk Hks].
  split; [by apply part_opens|]. intros f d rest Hn Hf Hl. destruct f as [|f]; [cbn in Hf; lia|].
  pose proof (command_body_at f (tok :: l) [] next rest d (bare (CSimple ws rs)) []) as H. cbn [app redirected fold_left] in H. rewrite app_nil_r in H.
  apply H; [|constructor|done|done|done]. assert (Hnext : exists next' l', l ++ next :: rest = next' :: l' /\ t_kind next' <> LParen).
  { destruct (follows_facts _ Hn) as (_ & _ & _ & _ & _ & Hlp). destruct l as [|x l]; [by exists next, rest|]. exists x, (l ++ next :: rest).
    split; [done|]. apply Forall_cons in Hks as [Hx _]. intros E. by rewrite E in Hx. }
  destruct Hnext as (next' & l' & Heq & Hlp). transitivity (parse_simple_command input (at_ d (tok :: l ++ next :: rest))).
  { rewrite Heq. by apply simple_dispatch. }
  unfold parse_simple_command. erewrite bind_ok; [|apply (parts_parsed input (tok :: l) next ws rs Hp Hn); unfold rounds; measure].
  cbn [app fst snd]. by rewrite Hws.
Qed.

(** * Functions *)

Lemma set_line_data line c : command_data (set_line line c) = command_data c.
Proof. unfold set_line. by destruct (_ =? _). Qed.

Lemma function_dispatch f d name o e l : t_kind name = Word -> any_word compound_words name = false -> op LParen o -> op RParen e ->
  command_at input (parse_at f) (at_ d (name :: o :: e :: l)) = parse_function_def input (parse_at f) (at_ d (name :: o :: e :: l)).
Proof.
  intros Hk Hw [Ho _] [He _]. unfold any_word, compound_words in Hw. cbn [existsb] in Hw. to_prop.
  unfold command_at, if_, is_function_def_start. rewrite !is_word_at, !kind_is_at, peek_one_at.
  repeat match goal with H : token_is _ name = false |- _ => rewrite H; clear H end. cbn [orb].
  assert (Hp2 : peek_n 2 (at_ d (name :: o :: e :: l)) = Some e).
  { unfold peek_n, at_. cbn [toks index]. rewrite lookup_app_r by lia. by replace (length d + 2 - length d)%nat with 2%nat by lia. }
  rewrite Hp2. cbn. by rewrite Hk, Ho, He.
Qed.

Lemma compound_body_at f l lr next rest d c rs : P_compound input l c -> redirections input lr rs -> follows next = true -> (length (l ++ lr) <= f)%nat ->
  (length (l ++ lr ++ next :: rest) <= S n)%nat ->
  parse_compound_body input (parse_at f) (at_ d (l ++ lr ++ next :: rest)) = Ok (placed input l (redirected rs c), at_ (d ++ l ++ lr) (next :: rest)).
Proof.
  intros Hp Hr Hn Hf Hl. unfold parse_compound_body, if_.
  assert (Hb : kind_is Word (at_ d (l ++ lr ++ next :: rest)) && is_word "{" (at_ d (l ++ lr ++ next :: rest)) = false).
  { destruct Hp as [[Hh _] _]. destruct l as [|tok l]; [done|]. destruct Hh as [_ Hh]. cbn [app]. by rewrite is_word_at, Hh, andb_false_r. }
  rewrite Hb. destruct (rule_compound l c lr next rs Hp Hr) as [_ H].
  specialize (H f d rest). rewrite <-!(app_assoc l lr) in H. by apply H.
Qed.

Lemma rule_function name o e nl l c lr next rs : t_kind name = Word -> any_word (closing_words ++ compound_words) name = false ->
  is_redir_word_token name = false -> op LParen o -> op RParen e -> Forall (op Newline) nl -> P_compound input l c -> redirections input lr rs ->
  P_command input (name :: o :: e :: nl ++ l ++ lr) next
    (placed input [name] (bare (CFunctionDef (word_desc input (token_value_to_string (t_value name)) 0 name) (placed input l (redirected rs c))
       (Z.max 0 (Z.of_nat (length (line_starts input)) - body_line input l) + 1)))).
Proof.
  intros Hk Hw Hrw Ho He Hnl Hp Hr. split; [apply part_opens; [by rewrite Hk|done]|]. intros f d rest Hn Hf Hl. destruct f as [|f]; [cbn in Hf; lia|].
  pose proof Hp as [(Hh & Hdata & Hline) _].
  set (def := bare (CFunctionDef _ _ _)). rewrite any_word_app in Hw. apply orb_false_iff in Hw as [_ Hw].
  set (all := name :: o :: e :: nl ++ l ++ lr) in *.
  pose proof (command_body_at f all [] next rest d def []) as H. cbn [app redirected fold_left] in H. rewrite app_nil_r in H.
  transitivity (@Ok ParseError _ (placed input all def, at_ (d ++ all) (next :: rest))); [|done].
  apply H; [|constructor|done|done|done]. clear H. subst all. cbn [app]. rewrite function_dispatch by done.
  assert (Hall : (nl ++ l ++ lr) ++ next :: rest = nl ++ l ++ lr ++ next :: rest) by (by regroup). rewrite Hall.
  cbn [app] in Hl. rewrite Hall in Hl. unfold parse_function_def. rewrite gets_bind, is_word_at.
  assert (Hfn : token_is "function" name = false) by (unfold any_word, compound_words in Hw; cbn [existsb] in Hw; to_prop; done).
  rewrite Hfn. erewrite bind_ok; [|unfold bump_or; rewrite bind_bind, bump_tok_at; reflexivity].
  rewrite (bind_ok _ _ _ tt (at_ ((d ++ [name]) ++ [o; e]) (nl ++ l ++ lr ++ next :: rest))).
  2: { unfold if_. rewrite kind_is_at, (proj1 Ho), bool_decide_eq_true_2, bump_at by done.
    unfold expect_kind. rewrite !kind_is_at, (proj1 He). cbn. rewrite bump_at. by regroup. }
  destruct l as [|tok l]; [done|]. destruct Hh as [Hop Hbr]. cbn [app] in *.
  rewrite (newlines_at input _ nl tok) by (done || (by apply opens_newline) || measure). rewrite gets_bind.
  rewrite (Hline _ (lr ++ next :: rest)). cbn [default].
  erewrite bind_ok; [|apply (compound_body_at f (tok :: l) lr next rest); [done..|measure|measure]].
  assert (Hnot : forall A (a b : A), match command_data (placed input (tok :: l) (redirected rs c)) with CSimple _ _ => a | _ => b end = b).
  { intros A a b. unfold placed. rewrite set_line_data, with_redirects_data. by destruct (command_data c). }
  rewrite Hnot. unfold pret. by regroup.
Qed.
End Accepts.
