(* ===== verification/ParseGrammarThm.v ===== *)
(** The parser implements the grammar. *)
From S2P Require Import Prelude Env Utf8 Buf Quote Expand Options Jobs Scan Assign LexScan Lex LexTokens Ast ParseText Parse ParseGrammar ParseRules.

Section Programs.
Context (input : bytes).

Abbreviation n := (length input).

Lemma grammar_parsed :
  (forall l next c, command input l next c -> P_command input l next c) /\ (forall l c, compound input l c -> P_compound input l c)
  /\ (forall l e, else_part input l e -> P_else input l e) /\ (forall l next c, pipeline input l next c -> P_pipeline input l next c)
  /\ (forall l next c, operand input l next c -> P_operand input l next c) /\ (forall l next c, and_or input l next c -> P_and_or input l next c)
  /\ (forall l next c, sequence input l next c -> P_sequence input l next c) /\ (forall l c, terminated input l c -> P_terminated input l c)
  /\ (forall l next c, inner input l next c -> P_inner input l next c).
Proof.
  apply grammar_mut; intros.
  - by apply rule_simple.
  - by apply rule_compound.
  - by apply rule_function.
  - by apply rule_group.
  - by apply rule_subshell.
  - by apply rule_if.
  - by apply rule_while.
  - by apply rule_until.
  - by apply rule_for.
  - apply rule_else_none.
  - by apply rule_else_block.
  - by apply rule_else_elif.
  - by apply rule_pipeline_command.
  - eapply rule_pipeline_more; eauto. by rewrite bool_decide_eq_true_2 by by destruct H1.
  - eapply rule_pipeline_more; eauto. by rewrite bool_decide_eq_false_2 by by destruct H1 as [-> _].
  - by apply rule_operand_pipeline.
  - by apply rule_operand_not.
  - by apply rule_and_or_operand.
  - eapply rule_and_or_more; eauto.
  - eapply rule_and_or_more; eauto.
  - by apply rule_sequence_one.
  - by apply rule_sequence_more.
  - by apply rule_terminated.
  - by apply rule_inner_terminated.
  - by apply rule_inner_open.
Qed.

(** A list at the start of a text is read up to the end. *)
Lemma program_parsed l c : program input l c -> (length l <= S n)%nat -> parse_tokens input l = Ok (Some c).
Proof.
  destruct grammar_parsed as (_ & _ & _ & _ & _ & _ & Hseq & _ & _). intros Hp Hl. unfold parse_tokens, new.
  assert (Hgo : forall nl m e, Forall (op Newline) nl -> op End_ e -> head_of begins m -> l = nl ++ m ++ [e] ->
    (forall d, parse_list input (parse_command input (rounds input)) (is_stop_word []) [] (at_ d (m ++ [e])) = Ok (c, at_ (d ++ m) [e])) ->
    parse_input_unit input (at_ [] l) = Ok (Some c, at_ (nl ++ m) [e])).
  { intros nl m e Hnl He Hm -> Hrun. unfold parse_input_unit. destruct m as [|tok m]; [done|]. cbn [head_of app] in *.
    rewrite (newlines_at input) by (done || by apply begins_newline). cbn [app]. unfold if_. rewrite kind_is_at, bool_decide_eq_false_2 by by apply begins_kind.
    unfold parse_simple_list_until. erewrite bind_ok by apply Hrun. rewrite !length_app in Hl. cbn in Hl.
    rewrite (no_newlines_at input) by (by rewrite ?(proj1 He) || (cbn; lia)). by rewrite kind_is_at, (proj1 He), bool_decide_eq_true_2. }
  change (mkPState l 0 0 None) with (at_ [] l). assert (Hstop : stops_outside (is_stop_word [])) by by apply words_outside.
  destruct Hp as [l c e Ht He|nl l c e Hnl Hs He].
  - destruct Ht as [nl l c s nl' Hnl Hs Hsep Hnl']. pose proof (Hseq _ _ _ Hs) as Hs'.
    destruct (rule_terminated input [] l c s nl' (List.Forall_nil _) Hs' Hsep Hnl') as [_ Hrun].
    erewrite (Hgo nl (l ++ s :: nl') e); [done|done|done|apply head_app; by destruct Hs'|by rewrite <-app_assoc|].
    intros d. apply Hrun; [done| |rewrite !length_app in *; unfold rounds; cbn in *; lia|rewrite !length_app in *; cbn in *; lia].
    split; [cbn; by rewrite (proj1 He)|]. intros d'. by rewrite kind_is_at, (proj1 He), orb_true_r.
  - pose proof (Hseq _ _ _ Hs) as Hs'. erewrite (Hgo nl l e); [done|done|done|by destruct Hs'|done|]. intros d.
    destruct (list_starts input (rounds input) (is_stop_word []) [] d [] l e [] c) as (g & Hg & Hrun); [done|constructor|done| | |rewrite !length_app in *; cbn in *; lia|].
    + unfold ends_and_or, ends_pipeline. rewrite (op_follows _ _ He) by done. by rewrite (proj1 He).
    + rewrite !length_app in *. unfold rounds. cbn in *. lia.
    + cbn [app] in Hrun. rewrite Hrun. unfold enough_for in Hg. destruct g as [|g]; [lia|]. cbn [list_loop]. unfold if_ at 1.
      rewrite stop_word_at. cbn [any_word existsb]. rewrite gets_bind, peek_kind_at, (proj1 He). done.
Qed.
End Programs.

Lemma token_count n plain s l : tokenized n plain s l -> (length l <= S (length s))%nat.
Proof.
  induction 1 as [s Hg|g lexeme rest tok l Hg Hne Hk Hst Hen Hp Hl Ht IH]; [cbn; lia|]. rewrite !length_app. cbn. destruct lexeme; [done|]. cbn. lia.
Qed.

Lemma text_parsed input extglob posix comments l c :
  tokens input extglob posix comments = Ok l -> program input l c -> parse_text extglob posix comments input = Ok (Some c).
Proof.
  intros Hl Hp. unfold parse_text. rewrite Hl. apply program_parsed; [done|].
  destruct (tokens_loop_total input extglob posix comments (length input + 2) lex_start input) as (l' & Hl' & Ht); [lia|done..|].
  unfold tokens in Hl. rewrite Hl in Hl'. injection Hl' as <-. by apply token_count in Ht.
Qed.


Module GrammarExample.
Definition text : bytes := bs "if a; then b >x; fi | c && ! d" ++ [10].
Definition word (t : string) (start end_ : nat) : Token := mkToken Word (TextValue (bs t)) start end_ 0.
Definition mark (k : TokenKind) (start end_ : nat) : Token := mkToken k NoValue start end_ 0.

(** A simple command of one word. *)
Lemma one_word t start end_ next : any_word (closing_words ++ compound_words) (word t start end_) = false -> is_redir_word_token (word t start end_) = false ->
  command text [word t start end_] next (placed text [word t start end_] (bare (CSimple [word_desc text (bs t) 0 (word t start end_)] []))).
Proof. intros Hw Hr. apply command_simple; [|done|done]. apply (parts_word text (word t start end_)); [|constructor]. split; [by left|]. by split. Qed.

Definition condition : list Token := [word "a" 3 4; mark Semicolon 4 5].
Definition branch : list Token := [word "b" 11 12; mark Greater 13 14; word "x" 14 15; mark Semicolon 15 16].
Definition choice : list Token := word "if" 0 2 :: condition ++ word "then" 6 10 :: branch ++ [] ++ [word "fi" 17 19].
Definition lexed : list Token :=
  [] ++ (((choice ++ []) ++ mark Pipe 20 21 :: [] ++ [word "c" 22 23]) ++ mark AndAnd 24 26 :: [] ++ mark Bang 27 28 :: [word "d" 29 30])
    ++ mark Newline 30 31 :: [].

Lemma terminated_one l c start end_ : command text l (mark Semicolon start end_) c -> terminated text (l ++ [mark Semicolon start end_]) c.
Proof.
  intros H. apply (terminated_by text [] l c (mark Semicolon start end_) []); [constructor| |by left|constructor].
  by apply sequence_one, and_or_operand, operand_pipeline, pipeline_command.
Qed.

Lemma lexed_program : exists c, program text (lexed ++ [mark End_ 31 31]) c.
Proof.
  eexists. apply program_terminated; [|done]. apply terminated_by; [constructor| |by right; right|constructor]. apply sequence_one.
  apply and_or_and; [|done|constructor|apply operand_not; [done|apply pipeline_command, one_word; vm_compute; reflexivity]].
  apply and_or_operand, operand_pipeline, pipeline_pipe; [|done|constructor|apply one_word; vm_compute; reflexivity].
  apply pipeline_command, command_compound; [|constructor].
  eapply (compound_if text (word "if" 0 2) condition _ (word "then" 6 10) branch _ [] None (word "fi" 17 19)); [done| |done| |apply else_none|done].
  - apply (terminated_one [word "a" 3 4]), one_word; vm_compute; reflexivity.
  - apply (terminated_one [word "b" 11 12; mark Greater 13 14; word "x" 14 15]), command_simple; [|done|vm_compute; reflexivity].
    apply parts_word; [split; [by left|by split]|]. eapply (parts_redirect text [mark Greater 13 14; word "x" 14 15] _ []); [|constructor].
    by apply (redirection_to text None (mark Greater 13 14) (word "x" 14 15) OutputDirection).
Qed.

End GrammarExample.
