(* ===== verification/Pretty.v ===== *)
(** The pretty printer of commands (crates/parser/src/pretty.rs).  [Printer] is its
    output so far, which every function takes and returns.

    Scripts of quoted words, printed and read back: pipelines, [!], [&&], [||], lists and
    background commands keep their structure through the printer, the lexer and the
    parser. *)
From S2P Require Import Prelude Env Jobs Utf8 Buf Quote Expand Options Scan ScanProps Assign LexScan Lex LexProps LexTokens LexRound Ast ParseText Parse ParseGrammar ParseGrammarThm.

Definition INDENT : nat := 4.

(** * The output *)

Fixpoint drop_while (p : Z -> bool) (s : bytes) : bytes := match s with b :: r => if p b then drop_while p r else s | [] => [] end.

(** [while output.ends_with(..) { output.pop(); }]. *)
Definition pop_while (p : Z -> bool) (o : bytes) : bytes := rev (drop_while p (rev o)).

Definition at_line_start (o : bytes) : bool := is_nil o || ends_with [10] o.
Definition indent (width : nat) (o : bytes) : bytes := if at_line_start o then o ++ repeat 32 width else o.
Definition finish_line (o : bytes) : bytes := if ends_with [10] o then o else o ++ [10].
Definition newline (o : bytes) : bytes := finish_line (pop_while (fun b => (b =? 32) || (b =? 9)) o).
Definition blankline (o : bytes) : bytes := let o := newline o in if ends_with [10; 10] o then o else o ++ [10].

Definition finish_statement (o : bytes) : bytes :=
  let o := pop_while (fun b => b =? 32) o in
  if ends_with [";"%b] o || ends_with ["&"%b] o || ends_with [10] o then o else o ++ [";"%b].

Definition add (t : string) (o : bytes) : bytes := o ++ bs t.

(** * Commands *)

Definition word_text (w : SourceWord) : bytes := default (s_text w) (s_raw w).

Definition is_null_command (c : Command) : bool :=
  match c with mkCommand (CSimple [] []) _ _ [] => true | _ => false end.

Definition is_compound (c : Command) : bool :=
  match command_data c with
  | CFor _ _ _ _ | CCase _ _ _ | CWhile _ _ | CUntil _ _ | CIf _ _ _ | CFunctionDef _ _ _ | CGroup _ | CSelect _ _ _ _ | CArithFor _ _ _ _
  | CSubshell _ _ | CCoproc _ _ => true
  | _ => false
  end.

Fixpoint last_command (c : Command) : Command :=
  match c with
  | mkCommand (CConnection first second _) _ _ _ => if is_null_command second then last_command first else last_command second
  | _ => c
  end.

Fixpoint condition (c : CondCommand) (o : bytes) : bytes :=
  let operand c o := match c with Some c => condition c o | None => o end in
  match c with
  | mkCond CondAnd _ l r _ => operand r (add " && " (operand l o))
  | mkCond CondOr _ l r _ => operand r (add " || " (operand l o))
  | mkCond CondUnary op _ _ term =>
      let o := match op with Some op => add " " (o ++ word_text op) | None => o end in
      match term with Some term => o ++ word_text term | None => o end
  | mkCond CondBinary op l r _ =>
      let o := operand l o in
      operand r (match op with Some op => add " " (add " " o ++ word_text op) | None => o end)
  | mkCond CondExpr _ l _ _ => add " )" (operand l (add "( " o))
  | mkCond CondTerm _ _ _ term => match term with Some term => o ++ word_text term | None => o end
  end.

Definition redirect_default_fd (i : RedirectInstruction) : Z :=
  match i with
  | InputDirection | InputaDirection | ReadingUntil | ReadingString | DeblankReadingUntil | DuplicatingInput | DuplicatingInputWord | MoveInput
  | MoveInputWord => 0
  | _ => 1
  end.

Definition redirect_operator (i : RedirectInstruction) : string :=
  match i with
  | OutputDirection => ">" | InputDirection => "<" | InputaDirection => "<&" | AppendingTo => ">>" | ReadingUntil => "<<" | ReadingString => "<<<"
  | DuplicatingInput | DuplicatingInputWord => "<&" | DuplicatingOutput | DuplicatingOutputWord => ">&" | DeblankReadingUntil => "<<-"
  | CloseThis => if redirect_default_fd i =? 0 then "<&" else ">&" | ErrAndOut => "&>" | InputOutput => "<>" | OutputForce => ">|"
  | MoveInput | MoveInputWord => "<&" | MoveOutput | MoveOutputWord => ">&" | AppendErrAndOut => "&>>"
  end.

Definition is_move (i : RedirectInstruction) : bool := match i with MoveInput | MoveOutput | MoveInputWord | MoveOutputWord => true | _ => false end.

Definition duplicates (i : RedirectInstruction) : bool :=
  is_move i || match i with DuplicatingInput | DuplicatingOutput | DuplicatingInputWord | DuplicatingOutputWord | CloseThis => true | _ => false end.

Definition redirect (r : Redirect) (o : bytes) : bytes :=
  let i := instruction r in
  let o := add " " o in
  let o :=
    match redirector r with
    | RedirectorFd fd => if fd =? redirect_default_fd i then o else o ++ i64_to_string fd
    | RedirectorVar name => add "}" (add "{" o ++ name)
    end in
  let o := add (redirect_operator i) o in
  let o :=
    match redirectee r with
    | RedirecteeFd fd => o ++ i64_to_string fd
    | RedirecteeWord word =>
        let o := (if duplicates i then o else add " " o) ++ word_text word in
        if is_move i && negb (ends_with (bs "-") o) then add "-" o else o
    end in
  match here_doc_body r, here_doc_eof r with
  | Some body, Some delimiter =>
      let o := newline o ++ body in
      (if ends_with [10] body then o else newline o) ++ delimiter
  | _, _ => o
  end.

Definition redirects_text (l : list Redirect) (o : bytes) : bytes := fold_left (fun o r => redirect r o) l o.

(** Words with blanks between them, and blanks before each of them. *)
Fixpoint words_text (l : list SourceWord) (o : bytes) : bytes :=
  match l with
  | [] => o
  | [w] => o ++ word_text w
  | w :: l => words_text l (add " " (o ++ word_text w))
  end.

Definition words_after (l : list SourceWord) (o : bytes) : bytes := fold_left (fun o w => add " " o ++ word_text w) l o.

Fixpoint patterns_text (l : list SourceWord) (o : bytes) : bytes :=
  match l with
  | [] => o
  | [w] => o ++ word_text w
  | w :: l => patterns_text l (add " | " (o ++ word_text w))
  end.

Definition clause_terminator (flags : Z) : string :=
  if has flags CASEPAT_FALLTHROUGH then ";&" else if has flags CASEPAT_TESTNEXT then ";;&" else ";;".

(** [time] and [!] before a command. *)
Definition prefix_text (flags : Z) (width : nat) (o : bytes) : bytes :=
  let o :=
    if has flags CMD_TIME_PIPELINE
    then add " " (let o := add "time" (indent width o) in if has flags CMD_TIME_POSIX then add " -p" o else o) else o in
  if has flags CMD_INVERT_RETURN
  then add "! " (if negb (at_line_start o) && negb (ends_with [32] o) then add " " o else indent width o) else o.

Definition loop_head (name : string) (word : SourceWord) (map_list : option (list SourceWord)) (width : nat) (o : bytes) : bytes :=
  let o := add name (indent width o) ++ word_text word in
  add ";" (match map_list with Some l => words_after l (add " in" o) | None => o end).

Definition arith_part (w : option SourceWord) (o : bytes) : bytes := match w with Some w => o ++ trim (word_text w) | None => o end.

Definition operator_text (connector : Z) : option string :=
  if connector =? CONN_AND_AND then Some " && "%string else if connector =? CONN_OR_OR then Some " || "%string
  else if connector =? CONN_PIPE then Some " | "%string else if connector =? CONN_BAR_AND then Some " |& "%string else None.

(** [command] of the printer. *)
Fixpoint pretty (c : Command) (width : nat) (statement : bool) (o : bytes) : bytes :=
  let block_body (c : Command) (width : nat) (o : bytes) : bytes :=
    match c with
    | mkCommand (CGroup body) _ _ [] => pretty body width true o
    | _ => pretty c width true o
    end in
  let block (open close : string) (body : Command) (o : bytes) : bytes :=
    add close (indent width (newline (block_body body (width + INDENT)%nat (newline (add open (indent width o)))))) in
  match c with
  | mkCommand data flags _ redirects =>
      let o := prefix_text flags width o in
      let finish o := let o := redirects_text redirects o in if statement then finish_statement o else o in
      match data with
      | CConnection first second connector =>
          if (connector =? CONN_SEMI) || (connector =? CONN_NEWLINE) then
            let o := pretty first width (negb (is_compound first) || (0 <? width)%nat) o in
            if is_compound first && (0 <? width)%nat then
              pretty second 0 statement (add " " (if ends_with [";"%b] o then o else add ";" o))
            else
              let o := newline o in
              pretty second width statement (if is_compound (last_command first) && (width =? 0)%nat then blankline o else o)
          else if connector =? CONN_AMP then
            let o := add " &" (pretty first width false o) in
            if is_null_command second then o else pretty second width statement (newline o)
          else
            match operator_text connector with
            | Some operator =>
                let o := pretty second 0 false (add operator (pretty first width false o)) in if statement then finish_statement o else o
            | None => o
            end
      | CSimple words rs => finish (redirects_text rs (words_text words (indent width o)))
      | CFor name map_list action _ => finish (block "do" "done" action (newline (loop_head "for " name map_list width o)))
      | CSelect name map_list action _ => finish (block "do" "done" action (newline (loop_head "select " name map_list width o)))
      | CArithFor init test step action =>
          let o := arith_part step (add "; " (arith_part test (add "; " (arith_part init (add "for ((" (indent width o)))))) in
          finish (block "do" "done" action (newline (add " ))" o)))
      | CCase word clauses _ =>
          let o := newline (add " in " (add "case " (indent width o) ++ word_text word)) in
          let fix clauses_text (l : list (list SourceWord * option Command * Z)) (o : bytes) : bytes :=
            match l with
            | [] => o
            | (patterns, action, flags) :: l =>
                let o := add ")" (patterns_text patterns (indent (width + INDENT) o)) in
                let o := match action with Some action => pretty action (width + INDENT * 2)%nat true (newline o) | None => o end in
                clauses_text l (newline (add (clause_terminator flags) (indent (width + INDENT * 2) (newline o))))
            end in
          finish (add "esac" (indent width (clauses_text clauses o)))
      | CWhile test action => finish (block "do" "done" action (add " " (pretty test 0 true (add "while " (indent width o)))))
      | CUntil test action => finish (block "do" "done" action (add " " (pretty test 0 true (add "until " (indent width o)))))
      | CIf test true_case false_case =>
          let o := add " then" (pretty test 0 true (add "if " (indent width o))) in
          let o := newline (block_body true_case (width + INDENT)%nat (newline o)) in
          let o :=
            match false_case with
            | Some c => newline (block_body c (width + INDENT)%nat (newline (add "else" (indent width o))))
            | None => o
            end in
          finish (add "fi" (indent width o))
      | CFunctionDef name command _ => finish (pretty command width false (newline (add " ()" (indent width o ++ word_text name))))
      | CGroup body => finish (block "{" "}" body o)
      | CSubshell body _ => finish (block "(" ")" body o)
      | CArith expression => finish (add " ))" (add "(( " (indent width o) ++ word_text expression))
      | CCond c => finish (add " ]]" (condition c (add "[[ " (indent width o))))
      | CCoproc name command =>
          let o := add "coproc" (indent width o) in
          let o := match name with Some name => add " " o ++ word_text name | None => o end in
          finish (pretty command 0 false (add " " o))
      end
  end.

Definition pretty_print (root : Command) : bytes :=
  let o := finish_line (pop_while (fun b => (b =? 32) || (b =? 9)) (pretty root 0 false [])) in
  if is_compound (last_command root) && negb (ends_with [10; 10] o) then o ++ [10] else o.

(** * Scripts *)

(** What a command means, without its places in a text. *)
Inductive tree :=
| Args (name : bytes) (args : list bytes)
| Join (connector : Z) (first second : tree)
| Not (t : tree)
| Background (t : tree).

Inductive pipeline_tree : tree -> Prop :=
| pipeline_args a l : pipeline_tree (Args a l)
| pipeline_join p a l : pipeline_tree p -> pipeline_tree (Join CONN_PIPE p (Args a l)).

Inductive operand_tree : tree -> Prop :=
| operand_plain p : pipeline_tree p -> operand_tree p
| operand_negated p : pipeline_tree p -> operand_tree (Not p).

Inductive and_or_tree : tree -> Prop :=
| and_or_single t : operand_tree t -> and_or_tree t
| and_or_join k s t : k = CONN_AND_AND \/ k = CONN_OR_OR -> and_or_tree s -> operand_tree t -> and_or_tree (Join k s t).

Inductive sequence_tree : tree -> Prop :=
| sequence_single t : and_or_tree t -> sequence_tree t
| sequence_join k s t : k = CONN_SEMI \/ k = CONN_AMP -> sequence_tree s -> and_or_tree t -> sequence_tree (Join k s t).

Inductive script_tree : tree -> Prop :=
| script_plain t : sequence_tree t -> script_tree t
| script_background t : sequence_tree t -> script_tree (Background t).

(** A quoted argument as a word. *)
Definition quoted_word (a : bytes) (w : SourceWord) : Prop :=
  s_text w = shell_quote a /\ s_flags w = quote_flags a /\ word_text w = shell_quote a.

Inductive shape : Command -> tree -> Prop :=
| shape_args ws a l line : Forall2 quoted_word (a :: l) ws -> shape (mkCommand (CSimple ws []) 0 line []) (Args a l)
| shape_join c d k l r line : shape c l -> shape d r -> shape (mkCommand (CConnection c d k) 0 line []) (Join k l r)
| shape_not data t line : shape (mkCommand data 0 line []) t -> shape (mkCommand data CMD_INVERT_RETURN line []) (Not t)
| shape_background c d t line : shape c t -> is_null_command d = true -> shape (mkCommand (CConnection c d CONN_AMP) 0 line []) (Background t).

(** * Printing *)

Fixpoint script_text (t : tree) : bytes :=
  match t with
  | Args a l => command_line (a :: l)
  | Join k s t =>
      script_text s
      ++ (if k =? CONN_SEMI then bs ";" ++ [10] else if k =? CONN_AMP then bs " &" ++ [10] else bs (default "" (operator_text k)))
      ++ script_text t
  | Not t => bs "! " ++ script_text t
  | Background t => script_text t ++ bs " &"
  end.

Definition quote_end (s : bytes) : Prop := exists s', s = s' ++ ["'"%b].

Lemma quote_end_app s t : quote_end t -> quote_end (s ++ t).
Proof. intros (t' & ->). exists (s ++ t'). by rewrite app_assoc. Qed.

Lemma shell_quote_end a : quote_end (shell_quote a).
Proof.
  unfold shell_quote. destruct (bytes_eqb a (bs "'")); [by exists ["\"%b]|]. destruct (negb _).
  - apply (quote_end_app ["'"%b]), (quote_end_app (concat _)). by exists [].
  - apply quote_end_app, quote_end_app. by exists [].
Qed.

Lemma command_line_end a l : quote_end (command_line (a :: l)).
Proof.
  revert a. induction l as [|b l IH]; intros a; cbn [command_line]; [rewrite app_nil_r; apply shell_quote_end|].
  apply quote_end_app. apply (quote_end_app [" "%b]). apply IH.
Qed.

Lemma pipeline_end t : pipeline_tree t -> quote_end (script_text t).
Proof. intros [a l|p a l Hp]; [apply command_line_end|]. cbn [script_text]. apply quote_end_app, quote_end_app, command_line_end. Qed.

Lemma operand_end t : operand_tree t -> quote_end (script_text t).
Proof. intros [p Hp|p Hp]; [by apply pipeline_end|]. by apply (quote_end_app (bs "! ")), pipeline_end. Qed.

Lemma and_or_end t : and_or_tree t -> quote_end (script_text t).
Proof. intros [t' Hp|k s t' Hk Hs Ht]; [by apply operand_end|]. cbn [script_text]. by apply quote_end_app, quote_end_app, operand_end. Qed.

Lemma sequence_end t : sequence_tree t -> quote_end (script_text t).
Proof. intros [t' Hp|k s t' Hk Hs Ht]; [by apply and_or_end|]. cbn [script_text]. by apply quote_end_app, quote_end_app, and_or_end. Qed.

Lemma output_ends p s x : ends_with [p] (s ++ [x]) = (p =? x).
Proof. unfold ends_with. rewrite rev_app_distr. cbn. by rewrite andb_true_r. Qed.

Lemma pop_while_last p s x : p x = false -> pop_while p (s ++ [x]) = s ++ [x].
Proof. intros H. unfold pop_while. rewrite rev_app_distr. cbn. rewrite H. cbn. by rewrite rev_involutive. Qed.

Lemma indent_none o : indent 0 o = o.
Proof. unfold indent. destruct (at_line_start o); [apply app_nil_r|done]. Qed.

(** Where a command may be printed: at the start of a line or after a blank. *)
Definition open_output (o : bytes) : Prop := at_line_start o = true \/ ends_with [32] o = true.

Definition semicolon (statement : bool) : bytes := if statement then bs ";" else [].

Lemma finish_quoted o t (statement : bool) : quote_end t -> (if statement then finish_statement (o ++ t) else o ++ t) = o ++ t ++ semicolon statement.
Proof.
  intros (t' & ->). destruct statement; cbn [semicolon]; [|by rewrite app_nil_r]. unfold finish_statement. rewrite !app_assoc, pop_while_last by done.
  by rewrite !output_ends, <-!app_assoc.
Qed.

Lemma words_line a l ws : Forall2 quoted_word (a :: l) ws -> forall o, words_text ws o = o ++ command_line (a :: l).
Proof.
  revert a ws. induction l as [|b l IH]; intros a ws (w & ws' & (_ & _ & Hw) & Hl & ->)%Forall2_cons_inv_l o.
  - apply Forall2_nil_inv_l in Hl as ->. cbn. by rewrite Hw, app_nil_r.
  - destruct ws' as [|w2 ws']; [by apply Forall2_nil_inv_r in Hl|]. cbn [words_text]. change (words_text (w2 :: ws') (add " " (o ++ word_text w)) = o ++ command_line (a :: b :: l)).
    rewrite (IH b (w2 :: ws') Hl), Hw. unfold add. cbn [command_line]. by rewrite <-!app_assoc.
Qed.

Lemma shape_not_compound c t : shape c t -> is_compound c = false /\ is_compound (last_command c) = false.
Proof.
  induction 1 as [ws a l line Hw|c d k l r line Hc [_ IHc] Hd [IHd1 IHd2]|data t line Hc [IH1 IH2]|c d t line Hc [_ IH] Hd]; cbn; split; try done.
  - by destruct (is_null_command d).
  - by destruct data.
  - by rewrite Hd.
Qed.

Lemma shape_not_null c t : shape c t -> is_null_command c = false.
Proof.
  induction 1 as [ws a l line Hw| |data t line _ IH|]; [|done| |done]; [by apply Forall2_cons_inv_l in Hw as (w & ws' & _ & _ & ->)|].
  by destruct data as [| | | | | |[|] [|]| | | | | | | |].
Qed.

Lemma open_blank o s : open_output (o ++ s ++ [32]).
Proof. right. by rewrite app_assoc, output_ends. Qed.

Lemma open_line o s : open_output (o ++ s ++ [10]).
Proof. left. unfold at_line_start. rewrite app_assoc, output_ends. by rewrite orb_true_r. Qed.

Lemma prefix_inverts o : open_output o -> prefix_text CMD_INVERT_RETURN 0 o = o ++ bs "! ".
Proof.
  intros Ho. unfold prefix_text. change (has CMD_INVERT_RETURN CMD_TIME_PIPELINE) with false. change (has CMD_INVERT_RETURN CMD_INVERT_RETURN) with true. cbv iota.
  rewrite indent_none. unfold add. destruct Ho as [-> | ->]; [done|]. by rewrite andb_false_r.
Qed.

Lemma prefix_plain o : prefix_text 0 0 o = o.
Proof. reflexivity. Qed.

(** The flags of a command and the text before it matter only through its prefix. *)
Lemma pretty_prefix data f g line redirects width statement o o' : prefix_text f width o = prefix_text g width o' ->
  pretty (mkCommand data f line redirects) width statement o = pretty (mkCommand data g line redirects) width statement o'.
Proof. intros Hp. lazy beta iota fix delta [pretty]. by rewrite Hp. Qed.

(** The printer on the same command with [!] writes [!] first. *)
Lemma pretty_not data line t o statement : shape (mkCommand data 0 line []) t -> open_output o ->
  pretty (mkCommand data CMD_INVERT_RETURN line []) 0 statement o = pretty (mkCommand data 0 line []) 0 statement (o ++ bs "! ").
Proof.
  intros _ Ho. apply pretty_prefix. by rewrite prefix_inverts, prefix_plain by done.
Qed.

Definition printed (P : tree -> Prop) : Prop := forall c t, shape c t -> P t -> forall o statement, open_output o ->
  pretty c 0 statement o = o ++ script_text t ++ semicolon statement.

Lemma args_printed c a l o statement : shape c (Args a l) -> pretty c 0 statement o = o ++ command_line (a :: l) ++ semicolon statement.
Proof.
  inversion 1 as [ws a' l' line Hw| | |]; subst. cbn [pretty]. rewrite prefix_plain, indent_none, (words_line a l ws Hw). cbn [redirects_text fold_left].
  apply finish_quoted, command_line_end.
Qed.

(** An operator that is printed between its operands on one line. *)
Lemma operator_printed c d k line op t1 t2 o (statement : bool) : operator_text k = Some op -> k =? CONN_SEMI = false -> k =? CONN_NEWLINE = false ->
  k =? CONN_AMP = false -> (exists s, bs op = s ++ [32]) ->
  (forall o, open_output o -> pretty c 0 false o = o ++ script_text t1 ++ semicolon false) ->
  (forall o, open_output o -> pretty d 0 false o = o ++ script_text t2 ++ semicolon false) -> quote_end (script_text t2) -> open_output o ->
  pretty (mkCommand (CConnection c d k) 0 line []) 0 statement o = o ++ script_text (Join k t1 t2) ++ semicolon statement.
Proof.
  intros Hk H1 H2 H3 (s & Hs) Hc Hd He Ho. cbn [pretty]. rewrite prefix_plain, H1, H2, H3, Hk. cbn [orb]. rewrite Hc by done.
  unfold add. rewrite Hs. rewrite Hd. 2: { rewrite <-!app_assoc. do 2 rewrite app_assoc. rewrite <-app_assoc. apply open_blank. }
  cbn [semicolon script_text]. rewrite H1, H3, Hk. change (bs (default _ (Some op))) with (bs op). rewrite Hs, !app_nil_r. rewrite finish_quoted by done. by rewrite <-!app_assoc.
Qed.

Lemma pipeline_printed : printed pipeline_tree.
Proof.
  intros c t Hs Hp. revert c Hs. induction Hp as [a l|p a l Hp IH]; intros c Hs o statement Ho; [by apply args_printed|].
  inversion Hs as [|c1 d k l1 r line Hc Hd| |]; subst. eapply operator_printed; try done; [by exists (bs " |")|by intros; apply IH|by intros; apply args_printed|apply command_line_end].
Qed.

Lemma operand_printed : printed operand_tree.
Proof.
  intros c t Hs Hp o statement Ho. destruct Hp as [p Hp|p Hp]; [by apply pipeline_printed|].
  inversion Hs as [| |data t' line Hc|]; subst. erewrite pretty_not by done. rewrite (pipeline_printed _ p Hc Hp) by apply (open_blank o (bs "!")).
  cbn [script_text]. by rewrite <-!app_assoc.
Qed.

Lemma and_or_printed : printed and_or_tree.
Proof.
  intros c t Hs Hp. revert c Hs. induction Hp as [t Ht|k s t Hk Hp IH Ht]; intros c Hs o statement Ho; [by apply operand_printed|].
  inversion Hs as [|c1 d k' l1 r line Hc Hd| |]; subst. pose proof (operand_end _ Ht). destruct Hk as [-> | ->];
    (eapply operator_printed; try done; [by eexists [_; _; _]|by intros; apply IH|by intros; apply operand_printed]).
Qed.

Lemma newline_after s x : x <> 10 -> x <> 32 -> x <> 9 -> newline (s ++ [x]) = s ++ [x; 10].
Proof.
  intros H1 H2 H3. unfold newline, finish_line. rewrite pop_while_last by lia. rewrite output_ends.
  replace (10 =? x) with false by lia. by rewrite <-app_assoc.
Qed.

Lemma sequence_printed : printed sequence_tree.
Proof.
  intros c t Hs Hp. revert c Hs. induction Hp as [t Ht|k s t Hk Hp IH Ht]; intros c Hs o statement Ho; [by apply and_or_printed|].
  inversion Hs as [|c1 d k' l1 r line Hc Hd| |]; subst. destruct (shape_not_compound _ _ Hc) as [Hn1 Hn2]. cbn [pretty]. rewrite prefix_plain.
  destruct Hk as [-> | ->].
  - change ((CONN_SEMI =? CONN_SEMI) || (CONN_SEMI =? CONN_NEWLINE)) with true. cbv iota. rewrite Hn1, Hn2. cbn [negb orb andb]. rewrite (IH c1 Hc o true Ho).
    cbn [semicolon]. rewrite app_assoc. change (bs ";") with [";"%b]. rewrite newline_after by done. rewrite (and_or_printed _ t Hd Ht).
    + cbn [script_text]. change (CONN_SEMI =? CONN_SEMI) with true. cbv iota. by rewrite <-!app_assoc.
    + apply (open_line (o ++ script_text s) [";"%b]).
  - change ((CONN_AMP =? CONN_SEMI) || (CONN_AMP =? CONN_NEWLINE)) with false. change (CONN_AMP =? CONN_AMP) with true. cbv iota. rewrite (IH c1 Hc o false Ho).
    assert (Hnull : is_null_command d = false).
    { by eapply shape_not_null. }
    rewrite Hnull. cbn [semicolon]. rewrite app_nil_r. unfold add. change (bs " &") with ([" "%b] ++ ["&"%b]). rewrite app_assoc, newline_after by done.
    rewrite (and_or_printed _ t Hd Ht).
    + cbn [script_text]. change (CONN_AMP =? CONN_SEMI) with false. change (CONN_AMP =? CONN_AMP) with true. cbv iota. change (bs " &" ++ [10]) with [" "%b; "&"%b; 10].
      by rewrite <-!app_assoc.
    + apply (open_line ((o ++ script_text s) ++ [" "%b]) ["&"%b]).
Qed.

Lemma script_printed c t : shape c t -> script_tree t -> pretty_print c = script_text t ++ [10].
Proof.
  intros Hs Ht. destruct (shape_not_compound _ _ Hs) as [_ Hn]. unfold pretty_print. rewrite Hn. cbn [andb].
  assert (Hline : forall s x, x <> 10 -> x <> 32 -> x <> 9 ->
    finish_line (pop_while (fun b => (b =? 32) || (b =? 9)) (s ++ [x])) = (s ++ [x]) ++ [10]).
  { intros s x H1 H2 H3. pose proof (newline_after s x H1 H2 H3) as H. unfold newline in H. rewrite H. by rewrite <-app_assoc. }
  destruct Ht as [t Ht|t Ht].
  - rewrite (sequence_printed c t Hs Ht [] false) by by left. cbn [semicolon app]. rewrite app_nil_r. destruct (sequence_end t Ht) as (s & ->). by apply Hline.
  - inversion Hs as [| | |c1 d t' line Hc Hd]; subst. cbn [pretty]. rewrite prefix_plain. change ((CONN_AMP =? CONN_SEMI) || (CONN_AMP =? CONN_NEWLINE)) with false.
    change (CONN_AMP =? CONN_AMP) with true. cbv iota. rewrite Hd, (sequence_printed c1 t Hc Ht [] false) by by left. cbn [semicolon app script_text]. rewrite app_nil_r.
    unfold add. change (bs " &") with ([" "%b] ++ ["&"%b]). rewrite app_assoc. by apply Hline.
Qed.
