(* ===== verification/PrettyRound.v ===== *)
(** Printed scripts read back: the tokens of the printed text are those of a program, and
    the command it stands for has the shape of the one that was printed. *)
From S2P Require Import Prelude Env Utf8 Buf Quote Expand Options Jobs Scan ScanProps Assign LexScan Lex LexProps LexTokens LexRound Ast ParseText Parse ParseGrammar ParseGrammarThm Pretty.

Section Reading.
Context (input : bytes) (extglob posix comments : bool).

Abbreviation next := (next_token input extglob posix comments).

(** Tokens taken one after the other. *)
Inductive lexes : LexState -> bytes -> list Token -> LexState -> bytes -> Prop :=
| lexes_nil st s : lexes st s [] st s
| lexes_cons st s tok st1 s1 l st2 s2 : next st s = Ok (Some (tok, st1, s1)) -> (length s1 < length s)%nat -> lexes st1 s1 l st2 s2 ->
    lexes st s (tok :: l) st2 s2.

Lemma lexes_app st s l1 st1 s1 l2 st2 s2 : lexes st s l1 st1 s1 -> lexes st1 s1 l2 st2 s2 -> lexes st s (l1 ++ l2) st2 s2.
Proof. induction 1; [done|]. intros. econstructor; eauto. Qed.

Lemma lexes_one st s tok st1 s1 : next st s = Ok (Some (tok, st1, s1)) -> (length s1 < length s)%nat -> lexes st s [tok] st1 s1.
Proof. intros. econstructor; [done..|constructor]. Qed.

Lemma lexes_tokens st s l st' : lexes st s l st' [] -> done st' = false -> forall fuel, (length s + 1 < fuel)%nat ->
  tokens_loop input extglob posix comments fuel st s = Ok (l ++ [mkToken End_ NoValue (length input) (length input) 0]).
Proof.
  intros Hl Hd. remember [] as e eqn:He. induction Hl as [st s|st s tok st1 s1 l st2 s2 Hn Hlt Hl IH]; subst; intros fuel Hf; (destruct fuel as [|fuel]; [lia|]); cbn [tokens_loop].
  - destruct fuel as [|fuel]; [cbn in Hf; lia|]. unfold next_token at 1. rewrite Hd. cbn. unfold offset. cbn. by rewrite Nat.sub_0_r.
  - rewrite Hn. rewrite IH by (done || lia). done.
Qed.

(** * Marks *)

(** A state between commands. *)
Definition fresh (st : LexState) : Prop := done st = false /\ starts_command (last_kind st) = true.

(** An operator, the text before the next word, as the printer writes it. *)
Definition mark_text (k : TokenKind) (t : bytes) : Prop :=
  (k, t) ∈ [(Pipe, bs " |"); (AndAnd, bs " &&"); (OrOr, bs " ||"); (Semicolon, bs ";"); (Ampersand, bs " &")].

Lemma mark_token k t st c rest : mark_text k t -> c = " "%b \/ c = 10 -> done st = false ->
  exists st' x y, next st (t ++ c :: rest) = Ok (Some (mkToken k NoValue x y 0, st', c :: rest)) /\ fresh st'.
Proof.
  intros Hm Hc Hd. unfold mark_text in Hm. unfold next_token. rewrite Hd.
  repeat (apply elem_of_cons in Hm as [[= -> ->]|Hm]; [destruct Hc as [-> | ->]; eexists _, _, _; (split; [reflexivity|by split])|]). by apply elem_of_nil in Hm.
Qed.

Lemma newline_token st rest : done st = false ->
  exists st' x y, next st (10 :: rest) = Ok (Some (mkToken Newline NoValue x y 0, st', rest)) /\ fresh st'.
Proof. intros Hd. unfold next_token. rewrite Hd. eexists _, _, _. split; [reflexivity|by split]. Qed.

Lemma bang_token pre st rest : pre = [] \/ pre = [" "%b] -> fresh st ->
  exists st' x y, next st (pre ++ bs "! " ++ rest) = Ok (Some (mkToken Bang NoValue x y 0, st', " "%b :: rest)) /\ done st' = false.
Proof.
  intros Hpre [Hd Hs]. unfold next_token. rewrite Hd.
  replace (skip_to_token comments (S (length (pre ++ bs "! " ++ rest))) st (pre ++ bs "! " ++ rest)) with (bs "! " ++ rest) by (by destruct Hpre as [-> | ->]).
  change (bs "! " ++ rest) with ("!"%b :: " "%b :: rest). cbn [Z.eqb Pos.eqb starts_with_proc_subst starts_with_redir_word andb orb].
  replace (lex_operator input st ("!"%b :: " "%b :: rest)) with (@None (Token * LexState * bytes)) by reflexivity.
  unfold lex_word_or_number. cbv zeta. set (fuel := (2 * length ("!"%b :: " "%b :: rest) + 2)%nat).
  assert (Hf : exists f, fuel = S (S f)) by (exists (2 * length ("!"%b :: " "%b :: rest))%nat; unfold fuel; lia). destruct Hf as [f ->].
  cbn [lex_word_loop]. replace (word_step input extglob posix (S (S f)) (mkWordSt [] 0 false None false 0) ("!"%b :: " "%b :: rest))
    with (Some (@Ok Empty_set _ (mkWordSt (bs "!") 0 false None false 0, " "%b :: rest))) by (by destruct extglob).
  destruct (blank_ends_word extglob (" "%b :: rest)) as [He1 He2]; [right; by eexists|]. rewrite word_step_end by done. cbn [is_nil w_text]. unfold word_token. cbn [w_text w_flags is_assignment eq_idx].
  unfold at_word_start. cbn [last_kind last_reserved after_function_name]. rewrite Hs. rewrite orb_true_r. eexists _, _, _. split; [reflexivity|done].
Qed.

(** * Words *)

Lemma token_span p t rest : input = p ++ t ++ rest -> slice input (offset input (t ++ rest)) (offset input rest) = t
  /\ (offset input (t ++ rest) <= offset input rest <= length input)%nat.
Proof.
  intros Hi. unfold offset. assert (Hl : length input = (length p + length t + length rest)%nat) by (rewrite Hi, !length_app; lia).
  rewrite length_app. split; [|lia]. unfold slice. replace (length input - (length t + length rest))%nat with (length p) by lia.
  replace (length input - length rest - length p)%nat with (length t) by lia. rewrite Hi, drop_app_length. by rewrite take_app_length.
Qed.

Definition quoted_arg (a rest : bytes) : Token :=
  mkToken Word (TextValue (shell_quote a)) (offset input (shell_quote a ++ rest)) (offset input rest) (quote_flags a).

Lemma quoted_arg_word a p rest : input = p ++ shell_quote a ++ rest ->
  quoted_word a (word_desc input (token_value_to_string (t_value (quoted_arg a rest))) (t_flags (quoted_arg a rest)) (quoted_arg a rest)).
Proof.
  intros Hi. destruct (token_span p (shell_quote a) rest Hi) as [Hs Hb]. split_and!; [done..|].
  unfold word_text, word_desc, raw_for_span. cbn [s_raw t_start t_end quoted_arg].
  replace (offset input rest <=? length input)%nat with true by (symmetry; apply Nat.leb_le; lia).
  replace (offset input (shell_quote a ++ rest) <=? offset input rest)%nat with true by (symmetry; apply Nat.leb_le; lia). exact Hs.
Qed.

Lemma quoted_arg_facts a rest : argument (quoted_arg a rest) /\ any_word (closing_words ++ compound_words) (quoted_arg a rest) = false.
Proof.
  unfold any_word, argument, is_redir_word_token, token_is, quoted_arg. cbn [t_kind t_flags t_value].
  destruct (shell_quote_head a []) as (b & r & Hq & Hb). rewrite app_nil_r in Hq. rewrite Hq. split; [split; [by left|split]|].
  - unfold quote_flags. by destruct (_ || _).
  - by destruct Hb as [-> | [-> | [-> _]]].
  - by destruct Hb as [-> | [-> | [-> _]]].
Qed.

Lemma shell_quote_length a : (1 <= length (shell_quote a))%nat.
Proof. destruct (shell_quote_head a []) as (b & r & Hq & _). rewrite app_nil_r in Hq. rewrite Hq. cbn. lia. Qed.

Definition blanks (pre : bytes) : Prop := pre = [] \/ pre = [" "%b].

Lemma args_lexed a l pre st p rest : blanks pre -> ends_word extglob rest -> done st = false -> input = p ++ pre ++ command_line (a :: l) ++ rest ->
  exists toks st', lexes st (pre ++ command_line (a :: l) ++ rest) toks st' rest /\ done st' = false /\ toks <> []
    /\ forall nxt, any_word (closing_words ++ compound_words) (hd nxt toks) = false /\ exists ws, parts input toks nxt ws [] /\ Forall2 quoted_word (a :: l) ws.
Proof.
  revert a pre st p. induction l as [|b l IH]; intros a pre st p Hpre He Hd Hi; cbn [command_line] in *.
  - rewrite app_nil_r in *. destruct (next_quoted_token input extglob posix comments pre st a rest Hpre He Hd) as (st' & Hn & Hd').
    rewrite app_assoc in Hi. exists [quoted_arg a rest], st'. split; [apply lexes_one; [exact Hn|rewrite !length_app; pose proof (shell_quote_length a); lia]|].
    split; [done|]. split; [done|]. intros nxt. destruct (quoted_arg_facts a rest) as [Ha Hw]. split; [done|]. eexists. split; [by apply parts_word; [|constructor]|].
    constructor; [|constructor]. apply (quoted_arg_word a (p ++ pre)). exact Hi.
  - rewrite <-app_assoc in *. cbn [app] in *. set (rest1 := " "%b :: command_line (b :: l) ++ rest).
    destruct (next_quoted_token input extglob posix comments pre st a rest1 Hpre) as (st' & Hn & Hd'); [apply blank_ends_word; right; by eexists|done|].
    destruct (IH b [" "%b] st' (p ++ pre ++ shell_quote a)) as (toks & st2 & Hl & Hd2 & Hne & Hp); [by right|done|done|rewrite Hi at 1; by rewrite <-!app_assoc|].
    exists (quoted_arg a rest1 :: toks), st2. split; [|split; [done|split; [done|]]].
    + econstructor; [exact Hn| |exact Hl]. rewrite !length_app. pose proof (shell_quote_length a). unfold rest1. cbn. lia.
    + intros nxt. destruct (quoted_arg_facts a rest1) as [Ha Hw]. split; [done|]. destruct (Hp nxt) as [_ (ws & Hws & HF)].
      eexists. split; [by apply parts_word|]. constructor; [|done]. eapply (quoted_arg_word a (p ++ pre)). by rewrite <-app_assoc.
Qed.

(** * Phrases *)

Definition phrase (R : list Token -> Token -> Command -> Prop) (start : LexState -> Prop) (t : tree) : Prop :=
  forall pre st p rest, blanks pre -> ends_word extglob rest -> start st -> input = p ++ pre ++ script_text t ++ rest ->
  exists l st', lexes st (pre ++ script_text t ++ rest) l st' rest /\ done st' = false /\ forall nxt, exists c, R l nxt c /\ shape c t.

Lemma args_phrase a l : phrase (command input) (fun st => done st = false) (Args a l).
Proof.
  intros pre st p rest Hpre He Hd Hi. destruct (args_lexed a l pre st p rest Hpre He Hd Hi) as (toks & st' & Hl & Hd' & Hne & Hp).
  exists toks, st'. split; [done|]. split; [done|]. intros nxt. destruct (Hp nxt) as [Hw (ws & Hws & HF)]. eexists. split; [by apply command_simple|].
  unfold placed, set_line. destruct (_ =? 0); by constructor.
Qed.

Lemma mark_ends_word k t c rest : mark_text k t -> c = " "%b \/ c = 10 -> ends_word extglob (t ++ c :: rest).
Proof.
  unfold mark_text, ends_word. intros Hm Hc. repeat (apply elem_of_cons in Hm as [[= -> ->]|Hm]; [by destruct Hc as [-> | ->], extglob|]). by apply elem_of_nil in Hm.
Qed.

Lemma newline_ends_word rest : ends_word extglob (10 :: rest).
Proof. split; [done|]. destruct rest; [done|]. cbn. by rewrite andb_false_r. Qed.

(** A phrase, a mark and what comes after it. *)
Lemma marked R start s k t c : phrase R start s -> mark_text k t -> c = " "%b \/ c = 10 -> forall pre st p rest, blanks pre -> start st ->
  input = p ++ pre ++ script_text s ++ t ++ c :: rest ->
  exists l m st', lexes st (pre ++ script_text s ++ t ++ c :: rest) (l ++ [m]) st' (c :: rest) /\ fresh st' /\ op k m
    /\ exists d, R l m d /\ shape d s.
Proof.
  intros Hs Hm Hc pre st p rest Hpre Hst Hi. destruct (Hs pre st p (t ++ c :: rest) Hpre) as (l & st1 & Hl & Hd & HR); [by eapply mark_ends_word|done|done|].
  destruct (mark_token k t st1 c rest Hm Hc Hd) as (st' & x & y & Hn & Hf). exists l, (mkToken k NoValue x y 0), st'. split; [|split; [done|split; [done|apply HR]]].
  eapply lexes_app; [exact Hl|]. apply lexes_one; [exact Hn|]. rewrite length_app. unfold mark_text in Hm.
  repeat (apply elem_of_cons in Hm as [[= -> ->]|Hm]; [cbn; lia|]). by apply elem_of_nil in Hm.
Qed.

(** Two phrases with an operator between them, on one line. *)
Lemma joined R1 R2 start1 start2 k s t op_text : phrase R1 start1 s -> phrase R2 start2 t -> (forall st, fresh st -> start2 st) ->
  mark_text k op_text -> forall pre st p rest, blanks pre -> ends_word extglob rest -> start1 st ->
  input = p ++ pre ++ (script_text s ++ (op_text ++ [32]) ++ script_text t) ++ rest ->
  exists l m l' st', lexes st (pre ++ (script_text s ++ (op_text ++ [32]) ++ script_text t) ++ rest) (l ++ m :: [] ++ l') st' rest /\ done st' = false
    /\ op k m /\ (exists c, R1 l m c /\ shape c s) /\ forall nxt, exists d, R2 l' nxt d /\ shape d t.
Proof.
  intros Hs Ht Hfr Hm pre st p rest Hpre He Hst Hi.
  assert (Heq : (script_text s ++ (op_text ++ [32]) ++ script_text t) ++ rest = script_text s ++ op_text ++ 32 :: script_text t ++ rest) by (by rewrite <-!app_assoc).
  rewrite Heq in *. destruct (marked R1 start1 s k op_text 32 Hs Hm (or_introl eq_refl) pre st p (script_text t ++ rest) Hpre Hst Hi) as (l & m & st1 & Hl & Hf & Hop & Hc).
  destruct (Ht [" "%b] st1 (p ++ pre ++ script_text s ++ op_text) rest) as (l' & st2 & Hl' & Hd & Hd2); [by right|done|by apply Hfr|by rewrite Hi, <-!app_assoc|].
  exists l, m, l', st2. split; [|done]. replace (l ++ m :: [] ++ l') with ((l ++ [m]) ++ l') by (by rewrite <-app_assoc). eapply lexes_app; [exact Hl|exact Hl'].
Qed.

(** Two phrases on two lines. *)
Lemma joined_lines R1 R2 start k s t op_text : phrase R1 start s -> phrase R2 fresh t -> mark_text k op_text ->
  forall pre st p rest, blanks pre -> ends_word extglob rest -> start st ->
  input = p ++ pre ++ (script_text s ++ (op_text ++ [10]) ++ script_text t) ++ rest ->
  exists l m nl l' st', lexes st (pre ++ (script_text s ++ (op_text ++ [10]) ++ script_text t) ++ rest) (l ++ m :: [nl] ++ l') st' rest /\ done st' = false
    /\ op k m /\ op Newline nl /\ (exists c, R1 l m c /\ shape c s) /\ forall nxt, exists d, R2 l' nxt d /\ shape d t.
Proof.
  intros Hs Ht Hm pre st p rest Hpre He Hst Hi.
  assert (Heq : (script_text s ++ (op_text ++ [10]) ++ script_text t) ++ rest = script_text s ++ op_text ++ 10 :: script_text t ++ rest) by (by rewrite <-!app_assoc).
  rewrite Heq in *. destruct (marked R1 start s k op_text 10 Hs Hm (or_intror eq_refl) pre st p (script_text t ++ rest) Hpre Hst Hi) as (l & m & st1 & Hl & Hf & Hop & Hc).
  destruct (newline_token st1 (script_text t ++ rest) (proj1 Hf)) as (st2 & x & y & Hn & Hf2).
  destruct (Ht [] st2 (p ++ pre ++ script_text s ++ op_text ++ [10]) rest) as (l' & st3 & Hl' & Hd & Hd2); [by left|done|done|by rewrite Hi, <-!app_assoc|].
  exists l, m, (mkToken Newline NoValue x y 0), l', st3. split; [|by split_and!]. replace (l ++ m :: [mkToken Newline NoValue x y 0] ++ l') with ((l ++ [m]) ++ [mkToken Newline NoValue x y 0] ++ l') by (by rewrite <-app_assoc). eapply lexes_app; [exact Hl|].
  econstructor; [exact Hn|cbn; lia|exact Hl'].
Qed.

Lemma pipeline_phrase t : pipeline_tree t -> phrase (pipeline input) (fun st => done st = false) t.
Proof.
  induction 1 as [a l|p a l Hp IH]; intros pre st q rest Hpre He Hst Hi.
  - destruct (args_phrase a l pre st q rest Hpre He Hst Hi) as (toks & st' & Hl & Hd & Hc). exists toks, st'. split; [done|]. split; [done|].
    intros nxt. destruct (Hc nxt) as (c & Hc' & Hsh). exists c. split; [by apply pipeline_command|done].
  - destruct (joined _ _ _ _ Pipe p (Args a l) (bs " |") IH (args_phrase a l)) with (pre := pre) (st := st) (p := q) (rest := rest)
      as (l1 & m & l2 & st' & Hl & Hd & Hop & (c & Hc & Hsc) & Hd2); [by intros ? [? _]|by repeat constructor|done..|].
    eexists _, st'. split; [exact Hl|]. split; [done|]. intros nxt. destruct (Hd2 nxt) as (d & Hd3 & Hsd). eexists.
    split; [by apply pipeline_pipe|by constructor].
Qed.

Lemma operand_phrase t : operand_tree t -> phrase (operand input) fresh t.
Proof.
  intros [p Hp|p Hp] pre st q rest Hpre He Hst Hi.
  - destruct (pipeline_phrase p Hp pre st q rest Hpre He (proj1 Hst) Hi) as (toks & st' & Hl & Hd & Hc). exists toks, st'. split; [done|]. split; [done|].
    intros nxt. destruct (Hc nxt) as (c & Hc' & Hsh). exists c. split; [by apply operand_pipeline|done].
  - cbn [script_text] in *. rewrite <-app_assoc in *. destruct (bang_token pre st (script_text p ++ rest) Hpre Hst) as (st1 & x & y & Hn & Hd1).
    destruct (pipeline_phrase p Hp [" "%b] st1 (q ++ pre ++ bs "!") rest) as (toks & st' & Hl & Hd & Hc); [by right|done|done|by rewrite Hi, <-!app_assoc|].
    exists (mkToken Bang NoValue x y 0 :: toks), st'. split; [|split; [done|]].
    + econstructor; [exact Hn|rewrite !length_app; cbn; rewrite ?length_app; lia|exact Hl].
    + intros nxt. destruct (Hc nxt) as (c & Hc' & Hsh). exists (with_flags CMD_INVERT_RETURN c). split; [by apply operand_not|].
      assert (Hplain : exists data line, c = mkCommand data 0 line []) by (destruct Hp; inversion Hsh; subst; eauto). destruct Hplain as (data & line & ->).
      by apply shape_not.
Qed.

Lemma and_or_phrase t : and_or_tree t -> phrase (and_or input) fresh t.
Proof.
  induction 1 as [t Ht|k s t Hk Hs IH Ht]; intros pre st q rest Hpre He Hst Hi.
  - destruct (operand_phrase t Ht pre st q rest Hpre He Hst Hi) as (toks & st' & Hl & Hd & Hc). exists toks, st'. split; [done|]. split; [done|].
    intros nxt. destruct (Hc nxt) as (c & Hc' & Hsh). exists c. split; [by apply and_or_operand|done].
  - destruct Hk as [-> | ->].
    + destruct (joined _ _ _ _ AndAnd s t (bs " &&") IH (operand_phrase t Ht)) with (pre := pre) (st := st) (p := q) (rest := rest)
        as (l1 & m & l2 & st' & Hl & Hd & Hop & (c & Hc & Hsc) & Hd2); [done|by repeat constructor|done..|].
      eexists _, st'. split; [exact Hl|]. split; [done|]. intros nxt. destruct (Hd2 nxt) as (d & Hd3 & Hsd). eexists. split; [by apply and_or_and|by constructor].
    + destruct (joined _ _ _ _ OrOr s t (bs " ||") IH (operand_phrase t Ht)) with (pre := pre) (st := st) (p := q) (rest := rest)
        as (l1 & m & l2 & st' & Hl & Hd & Hop & (c & Hc & Hsc) & Hd2); [done|by repeat constructor|done..|].
      eexists _, st'. split; [exact Hl|]. split; [done|]. intros nxt. destruct (Hd2 nxt) as (d & Hd3 & Hsd). eexists. split; [by apply and_or_or|by constructor].
Qed.

Lemma sequence_phrase t : sequence_tree t -> phrase (sequence input) fresh t.
Proof.
  induction 1 as [t Ht|k s t Hk Hs IH Ht]; intros pre st q rest Hpre He Hst Hi.
  - destruct (and_or_phrase t Ht pre st q rest Hpre He Hst Hi) as (toks & st' & Hl & Hd & Hc). exists toks, st'. split; [done|]. split; [done|].
    intros nxt. destruct (Hc nxt) as (c & Hc' & Hsh). exists c. split; [by apply sequence_one|done].
  - assert (Hmark : exists kind txt, mark_text kind txt /\ script_text (Join k s t) = script_text s ++ (txt ++ [10]) ++ script_text t
        /\ forall m, op kind m -> separator m /\ connector m = k).
    { destruct Hk as [-> | ->]; [exists Semicolon, (bs ";")|exists Ampersand, (bs " &")]; (split; [repeat constructor|]); (split; [done|]);
        intros m Hm; (split; [unfold separator; tauto|]); unfold connector; by rewrite (proj1 Hm). }
    destruct Hmark as (kind & txt & Hm & Heq & Hk'). rewrite Heq in *.
    destruct (joined_lines _ _ _ kind s t txt IH (and_or_phrase t Ht) Hm pre st q rest Hpre He Hst Hi)
      as (l1 & m & nl & l2 & st' & Hl & Hd & Hop & Hnl & (c & Hc & Hsc) & Hd2).
    destruct (Hk' m Hop) as [Hsep Hcon]. eexists _, st'. split; [exact Hl|]. split; [done|]. intros nxt. destruct (Hd2 nxt) as (d & Hd3 & Hsd). eexists.
    split; [apply sequence_more; [done|done|by apply Forall_singleton|done]|]. rewrite Hcon. by constructor.
Qed.
End Reading.

(** C16: Printed scripts read back: for a command that is a list, joined by [;] and [&] and
    possibly put in the background, of [&&] and [||] chains of pipelines of simple commands,
    with [!] over pipelines, the text the pretty printer writes lexes and parses to a command of
    the same shape, with the same words. The words are quoted ones as [shell_quote] writes them,
    at least one in each command, and there are no redirections and no compound commands. *)
Theorem pretty_print_reads_back extglob posix comments c t (Hs : shape c t) (Ht : script_tree t) :
  exists c', parse_text extglob posix comments (pretty_print c) = Ok (Some c') /\ shape c' t.
Proof.
  rewrite (script_printed c t Hs Ht). set (input := script_text t ++ [10]).
  assert (Hgo : exists l c', tokens input extglob posix comments = Ok l /\ program input l c' /\ shape c' t).
  { assert (Hst : fresh lex_start) by done. destruct Ht as [t Ht|t Ht].
    - destruct (sequence_phrase input extglob posix comments t Ht [] lex_start [] [10]) as (l & st & Hl & Hd & Hc); [by left|apply newline_ends_word|done|done|].
      destruct (newline_token input extglob posix comments st [] Hd) as (st' & x & y & Hn & Hf). set (nl := mkToken Newline NoValue x y 0) in *.
      destruct (Hc nl) as (c' & Hp & Hsh). eexists _, c'. split; [|split; [|exact Hsh]].
      + apply (lexes_tokens input extglob posix comments lex_start input (l ++ [nl])) with (st' := st'); [|by destruct Hf|lia].
        eapply lexes_app; [exact Hl|]. apply lexes_one; [exact Hn|cbn; lia].
      + apply program_terminated; [|done]. apply (terminated_by input [] l c' nl []); [constructor|done|by right; right|constructor].
    - destruct (marked input extglob posix comments _ fresh t Ampersand (bs " &") 10 (sequence_phrase input extglob posix comments t Ht)) with (pre := @nil Z) (st := lex_start) (p := @nil Z) (rest := @nil Z)
        as (l & m & st & Hl & Hf & Hop & c' & Hp & Hsh); [repeat constructor|by right|by left|done|by unfold input; cbn [script_text]; rewrite <-!app_assoc|].
      destruct (newline_token input extglob posix comments st [] (proj1 Hf)) as (st' & x & y & Hn & Hf'). set (nl := mkToken Newline NoValue x y 0) in *.
      eexists _, (ended c' m). split; [|split].
      + apply (lexes_tokens input extglob posix comments lex_start input ((l ++ [m]) ++ [nl])) with (st' := st'); [|by destruct Hf'|lia].
        eapply lexes_app; [|apply lexes_one; [exact Hn|cbn; lia]].
        assert (Hin : input = [] ++ script_text t ++ bs " &" ++ [10]) by (unfold input; cbn [script_text app]; by rewrite <-app_assoc). by rewrite <-Hin in Hl.
      + apply program_terminated; [|done]. rewrite <-app_assoc. apply (terminated_by input [] l c' m [nl]); [constructor|done|right; by left|by apply Forall_singleton].
      + unfold ended. rewrite (proj1 Hop). by constructor. }
  destruct Hgo as (l & c' & Hl & Hp & Hsh). exists c'. split; [|done]. by eapply text_parsed.
Qed.

Module PrettyExample.
Import LexExample.
Definition word_of (a : bytes) : SourceWord := mkSource (shell_quote a) (quote_flags a) 0 0 None.

Fixpoint command_of (t : tree) : Command :=
  match t with
  | Args a l => bare (CSimple (map word_of (a :: l)) [])
  | Join k s t => connect (command_of s) (command_of t) k
  | Not t => with_flags CMD_INVERT_RETURN (command_of t)
  | Background t => connect (command_of t) null_command CONN_AMP
  end.

Definition script : tree :=
  Background (Join CONN_SEMI (Join CONN_AND_AND (Join CONN_PIPE (Args (bs "a") [bs "b c"]) (Args (bs "it's") [])) (Not (Args (bs "d") []))) (Args (bs "|") [])).

Lemma script_shape : shape (command_of script) script.
Proof. repeat first [apply shape_background|apply shape_join|apply shape_not|apply shape_args|constructor]. Qed.

Lemma script_grammatical : script_tree script.
Proof.
  apply script_background, sequence_join; [by left| |apply and_or_single, operand_plain, pipeline_args].
  apply sequence_single, and_or_join; [by left| |apply operand_negated, pipeline_args].
  apply and_or_single, operand_plain, pipeline_join, pipeline_args.
Qed.

Example script_prints : pretty_print (command_of script) = bs "'a' 'b c' | 'it'\''s' && ! 'd';" ++ [10] ++ bs "'|' &" ++ [10].
Proof. vm_compute. reflexivity. Qed.

Lemma pretty_print_reads_back_witness : shape (command_of script) script /\ script_tree script /\
  exists c', parse_text false false true (pretty_print (command_of script)) = Ok (Some c') /\ shape c' script.
Proof.
  split; [exact script_shape|]. split; [exact script_grammatical|].
  apply (pretty_print_reads_back false false true (command_of script) script script_shape script_grammatical).
Defined.

(** A text, parsed and printed. *)
Definition reprint (text : bytes) : option bytes :=
  match parse_text false false true text with Ok (Some c) => Some (pretty_print c) | _ => None end.

(** The example of the unit tests of the source, and where the printed text is another
    command: the operands of unary tests and what [!] negates are dropped, a closed
    descriptor is printed as the number -1 and a moved one without its dash, and a
    semicolon or the rest of the line is written after the delimiter of a
    here-document. *)
Example branches_print :
  reprint (bs "if true; then echo yes; else echo no; fi" ++ [10])
  = Some (lines ["if true; then"; "    echo yes;"; "else"; "    echo no;"; "fi"; ""]%string).
Proof. vm_compute. reflexivity. Qed.

Theorem printed_commands_differ :
  reprint (bs "[[ -f x && ! a == b ]]") = Some (bs "[[ -f  &&  ]]" ++ [10])
  /\ reprint (bs "exec 3>&- 4<&5-") = Some (bs "exec 3>&-1 4<&5" ++ [10])
  /\ reprint (lines ["cat <<E; b"; "x"; "E"]%string) = Some (lines ["cat << E"; "x"; "E;"; "b"]%string)
  /\ reprint (lines ["cat <<E | b"; "x"; "E"]%string) = Some (lines ["cat << E"; "x"; "E | b"]%string).
Proof. vm_compute. repeat split. Qed.

(** The bodies of the here-documents of a command, or the message of the error. *)
Fixpoint bodies (c : Command) : list (option bytes) :=
  match c with
  | mkCommand (CConnection c d _) _ _ _ => bodies c ++ bodies d
  | mkCommand (CSimple _ rs) _ _ _ => map here_doc_body rs
  | _ => []
  end.

Definition documents (extglob : bool) (text : bytes) : list (option bytes) + bytes :=
  match parse_text extglob false true text with Ok (Some c) => inl (bodies c) | Err e => inr (message e) | _ => inl [] end.

(** Here-documents of one command follow one another; those of two commands on a line
    both start at the first body; a body with an open quote makes the parser lex what
    follows without the option for extended patterns. *)
Theorem here_documents_misread :
  documents false (lines ["cat <<A <<B"; "x"; "A"; "y"; "B"]%string) = inl [Some (lines ["x"]%string); Some (lines ["y"]%string)]
  /\ documents false (lines ["cat <<A | cat <<B"; "x"; "A"; "y"; "B"]%string) = inl [Some (lines ["x"]%string); Some (lines ["x"; "A"; "y"]%string)]
  /\ documents true (lines ["cat <<A"; "its"; "A"; "echo @(a|b)"]%string) = inl [Some (lines ["its"]%string)]
  /\ documents true (lines ["cat <<A"; "it's"; "A"; "echo @(a|b)"]%string) = inr (bs "unexpected token '('").
Proof. vm_compute. repeat split. Qed.
End PrettyExample.
