(* ===== verification/ExecState.v ===== *)
(** The state of the executor (crates/exec/src/lib.rs), the monad of its functions, and
    what it asks of other parts: of the variable store the class [ExecEnv], of word
    expansion the class [WordLists], with the functions of crates/exec/src/util.rs that
    expand the words of a command.

    A function of the executor takes the context and gives a value with the context after
    it; [None] is exhausted fuel.  What is printed to standard error, and the handles of
    process substitutions, are not part of the context. *)
From stdpp Require Import gmap.
From S2P Require Import Prelude Env Expand Pipeline Lex Ast.
From S2P Require Param.

Inductive ExecMode := Parent | Child.

#[export] Instance ExecMode_eq_dec : EqDecision ExecMode.
Proof. solve_decision. Defined.

Inductive Unwind :=
| UReturn (status trap_status : Z)
| UBreak (levels : Z)
| UContinue (levels : Z)
| UAbortLine (status : Z)
| UExit (status : Z).

(** [TrapKind] and [TrapAction] (crates/common/src/signals.rs). *)
Inductive TrapKind := TrapNumeric (sig : Z) | TrapExit | TrapErr | TrapDebug | TrapReturn.
Inductive TrapAction := ActionDefault | ActionIgnore | ActionCommand (body : bytes).

(** * The context

    [ExecContext], its counters and stacks apart: what a command finds on entry and
    leaves as it was. *)

Record Levels := mkLevels {
  loop_depth : Z;
  function_depth : Z;
  source_depth : Z;
  errexit_suppressed : Z;
  abort_line_depth : Z;
  stdin_redirect_depth : Z;
  trap_base_function_depth : option Z;
  function_call_stack : list Z;
  function_prefix_assignment_stack : list (list bytes);
}.

(** The fields that commands change for good. *)
Record Shared (E : Type) := mkShared {
  last_status : Z;
  functions : gmap bytes Command;
  function_sources : gmap bytes bytes;
  function_traced : gset bytes;
  suppress_err_traps : bool;
  suppress_debug_traps : bool;
  next_function_call_id : Z;
  posix_special_assignment_persisted : list (bytes * Z);
  explicit_function_exports : list (bytes * Z);
  debug_trap_scopes : list bool;
  funcnest_max : Z;
  reuse_current_subshell : bool;
  allow_child_external_exec : bool;
  x_env : E;
}.
Arguments mkShared {E}.
Arguments last_status {E}.
Arguments functions {E}.
Arguments function_sources {E}.
Arguments function_traced {E}.
Arguments suppress_err_traps {E}.
Arguments suppress_debug_traps {E}.
Arguments next_function_call_id {E}.
Arguments posix_special_assignment_persisted {E}.
Arguments explicit_function_exports {E}.
Arguments debug_trap_scopes {E}.
Arguments funcnest_max {E}.
Arguments reuse_current_subshell {E}.
Arguments allow_child_external_exec {E}.
Arguments x_env {E}.

Record XCtx (E : Type) := mkXCtx { levels : Levels; pending : option Unwind; shared : Shared E }.
Arguments mkXCtx {E}.
Arguments levels {E}.
Arguments pending {E}.
Arguments shared {E}.

(** [u32] counters. *)
Definition add_loop (d : Z) (l : Levels) : Levels :=
  mkLevels (u32 (loop_depth l + d)) (function_depth l) (source_depth l) (errexit_suppressed l) (abort_line_depth l)
    (stdin_redirect_depth l) (trap_base_function_depth l) (function_call_stack l) (function_prefix_assignment_stack l).
Definition add_function (d : Z) (l : Levels) : Levels :=
  mkLevels (loop_depth l) (u32 (function_depth l + d)) (source_depth l) (errexit_suppressed l) (abort_line_depth l)
    (stdin_redirect_depth l) (trap_base_function_depth l) (function_call_stack l) (function_prefix_assignment_stack l).
Definition add_errexit (d : Z) (l : Levels) : Levels :=
  mkLevels (loop_depth l) (function_depth l) (source_depth l) (u32 (errexit_suppressed l + d)) (abort_line_depth l)
    (stdin_redirect_depth l) (trap_base_function_depth l) (function_call_stack l) (function_prefix_assignment_stack l).
Definition add_abort (d : Z) (l : Levels) : Levels :=
  mkLevels (loop_depth l) (function_depth l) (source_depth l) (errexit_suppressed l) (u32 (abort_line_depth l + d))
    (stdin_redirect_depth l) (trap_base_function_depth l) (function_call_stack l) (function_prefix_assignment_stack l).
Definition add_stdin (d : Z) (l : Levels) : Levels :=
  mkLevels (loop_depth l) (function_depth l) (source_depth l) (errexit_suppressed l) (abort_line_depth l)
    (u32 (stdin_redirect_depth l + d)) (trap_base_function_depth l) (function_call_stack l) (function_prefix_assignment_stack l).
Definition with_trap_base (b : option Z) (l : Levels) : Levels :=
  mkLevels (loop_depth l) (function_depth l) (source_depth l) (errexit_suppressed l) (abort_line_depth l)
    (stdin_redirect_depth l) b (function_call_stack l) (function_prefix_assignment_stack l).
Definition with_calls (c : list Z) (l : Levels) : Levels :=
  mkLevels (loop_depth l) (function_depth l) (source_depth l) (errexit_suppressed l) (abort_line_depth l)
    (stdin_redirect_depth l) (trap_base_function_depth l) c (function_prefix_assignment_stack l).
Definition with_prefixes (p : list (list bytes)) (l : Levels) : Levels :=
  mkLevels (loop_depth l) (function_depth l) (source_depth l) (errexit_suppressed l) (abort_line_depth l)
    (stdin_redirect_depth l) (trap_base_function_depth l) (function_call_stack l) p.

Section Shared.
Context {E : Type}.

Definition with_last_status (s : Z) (c : Shared E) : Shared E :=
  mkShared s (functions c) (function_sources c) (function_traced c) (suppress_err_traps c) (suppress_debug_traps c)
    (next_function_call_id c) (posix_special_assignment_persisted c) (explicit_function_exports c) (debug_trap_scopes c)
    (funcnest_max c) (reuse_current_subshell c) (allow_child_external_exec c) (x_env c).
Definition with_functions (f : gmap bytes Command) (sources : gmap bytes bytes) (c : Shared E) : Shared E :=
  mkShared (last_status c) f sources (function_traced c) (suppress_err_traps c) (suppress_debug_traps c)
    (next_function_call_id c) (posix_special_assignment_persisted c) (explicit_function_exports c) (debug_trap_scopes c)
    (funcnest_max c) (reuse_current_subshell c) (allow_child_external_exec c) (x_env c).
Definition with_suppressed (err debug : bool) (c : Shared E) : Shared E :=
  mkShared (last_status c) (functions c) (function_sources c) (function_traced c) err debug
    (next_function_call_id c) (posix_special_assignment_persisted c) (explicit_function_exports c) (debug_trap_scopes c)
    (funcnest_max c) (reuse_current_subshell c) (allow_child_external_exec c) (x_env c).
Definition with_call_records (next : Z) (persisted exports : list (bytes * Z)) (c : Shared E) : Shared E :=
  mkShared (last_status c) (functions c) (function_sources c) (function_traced c) (suppress_err_traps c) (suppress_debug_traps c)
    next persisted exports (debug_trap_scopes c)
    (funcnest_max c) (reuse_current_subshell c) (allow_child_external_exec c) (x_env c).
Definition with_scopes (l : list bool) (c : Shared E) : Shared E :=
  mkShared (last_status c) (functions c) (function_sources c) (function_traced c) (suppress_err_traps c) (suppress_debug_traps c)
    (next_function_call_id c) (posix_special_assignment_persisted c) (explicit_function_exports c) l
    (funcnest_max c) (reuse_current_subshell c) (allow_child_external_exec c) (x_env c).
Definition with_subshell_marks (reuse direct : bool) (c : Shared E) : Shared E :=
  mkShared (last_status c) (functions c) (function_sources c) (function_traced c) (suppress_err_traps c) (suppress_debug_traps c)
    (next_function_call_id c) (posix_special_assignment_persisted c) (explicit_function_exports c) (debug_trap_scopes c)
    (funcnest_max c) reuse direct (x_env c).
Definition with_x_env (e : E) (c : Shared E) : Shared E :=
  mkShared (last_status c) (functions c) (function_sources c) (function_traced c) (suppress_err_traps c) (suppress_debug_traps c)
    (next_function_call_id c) (posix_special_assignment_persisted c) (explicit_function_exports c) (debug_trap_scopes c)
    (funcnest_max c) (reuse_current_subshell c) (allow_child_external_exec c) e.
End Shared.

(** * The monad *)

Definition X (E A : Type) : Type := XCtx E -> option (A * XCtx E).

Section Monad.
Context {E : Type}.

Definition xret {A} (a : A) : X E A := fun c => Some (a, c).
Definition xbind {A B} (m : X E A) (k : A -> X E B) : X E B := fun c => match m c with Some (a, c) => k a c | None => None end.
Definition no_fuel {A} : X E A := fun _ => None.

(** Reading the context, the environment, and changing parts. *)
Definition ask {A} (f : XCtx E -> A) : X E A := fun c => Some (f c, c).
Definition asks {A} (f : E -> A) : X E A := fun c => Some (f (x_env (shared c)), c).
Definition xif {A} (b : XCtx E -> bool) (m k : X E A) : X E A := fun c => if b c then m c else k c.
Definition on_levels (f : Levels -> Levels) : X E unit := fun c => Some (tt, mkXCtx (f (levels c)) (pending c) (shared c)).
Definition on_shared (f : Shared E -> Shared E) : X E unit := fun c => Some (tt, mkXCtx (levels c) (pending c) (f (shared c))).
Definition on_env (f : E -> E) : X E unit := on_shared (fun s => with_x_env (f (x_env s)) s).
Definition with_env {A} (f : E -> A * E) : X E A := fun c =>
  let '(a, e) := f (x_env (shared c)) in Some (a, mkXCtx (levels c) (pending c) (with_x_env e (shared c))).
Definition unwind (u : option Unwind) : X E unit := fun c => Some (tt, mkXCtx (levels c) u (shared c)).
Definition is_pending (c : XCtx E) : bool := bool_decide (is_Some (pending c)).
Definition xwhen (b : bool) (m : X E unit) : X E unit := if b then m else xret tt.
End Monad.

Declare Scope exec_scope.
Delimit Scope exec_scope with exec.
Notation "x <== m ;; k" := (xbind m (fun x => k)) (at level 100, m at next level, right associativity) : exec_scope.
Notation "m ==;; k" := (xbind m (fun _ => k)) (at level 100, right associativity) : exec_scope.
#[local] Open Scope exec_scope.

(** * The environment of the executor *)

(** The methods of [Environment] (crates/common/src/lib.rs) the executor calls beside
    those of the classes [Environment] and [Parameters].  A job table that reaps gives
    the number of the processes reaped. *)
Class ExecEnv (E : Type) := {
  env_set_last_status : E -> Z -> E;
  env_set_current_command : E -> option bytes -> E;
  env_push_diagnostic_line : E -> Z -> E;
  env_pop_diagnostic_line : E -> E;
  env_diagnostic_line : E -> option Z;
  env_diagnostic_source_name : E -> option bytes;
  env_call_stack_source_name : E -> option bytes;
  env_set : E -> bytes -> bytes -> E;
  env_unset : E -> bytes -> E;
  env_exported : E -> bytes -> bool;
  env_export : E -> bytes -> E;
  env_var_attrs : E -> bytes -> Z;
  env_set_attr : E -> bytes -> Z -> bool -> E;
  env_set_array : E -> bytes -> list bytes -> E;
  env_remove_process_var : E -> bytes -> E;
  env_push_local_scope : E -> E;
  env_pop_local_scope : E -> E;
  env_push_positionals : E -> list bytes -> list bytes * E;
  env_pop_positionals : E -> list bytes -> E;
  env_funcname_push : E -> bytes -> list bytes -> bytes -> E;
  env_funcname_pop : E -> E;
  env_function_is_readonly : E -> bytes -> bool;
  env_subshell_level : E -> Z;
  env_enter_subshell : E -> E;
  env_trap_action : E -> TrapKind -> option TrapAction;
  env_trap_clear : E -> TrapKind -> E;
  env_running_trap : E -> option Z;
  env_set_running_trap : E -> option Z -> E;
  env_suppress_inherited_exit_trap : E -> E;
  env_inherited_exit_trap_suppressed : E -> bool;
  env_pending_signal_take : E -> Z -> Z * E;
  env_acknowledge_trapped_signal : E -> Z -> E;
  env_reap_all : E -> nat * E;
}.

(** [expand_word_list_with_proc_subst] of the expander, with the texts of the words, and
    the expansion of a here-document; they may run commands, which define functions and
    keep files open. *)
Class WordLists (E : Type) := {
  expand_word_list : list SourceWord -> Z -> X E (ExpandError + list bytes);
  expand_heredoc_string : bytes -> X E (ExpandError + bytes);
}.

Section Words.
Context {E : Type} `{WordLists E}.

Definition try_expand_words (words : list SourceWord) : X E (ExpandError + list bytes) :=
  expand_word_list words (Z.lor (Z.lor SPLIT_FIELDS EXPAND_GLOB) QUOTE_REMOVAL).

Definition expand_words (words : list SourceWord) : X E (list bytes) :=
  r <== try_expand_words words ;;
  xret (match r with inr l => l | inl _ => map s_text words end).

Definition try_expand_one (word : SourceWord) : X E (ExpandError + bytes) :=
  r <== expand_word_list [word] QUOTE_REMOVAL ;;
  xret (match r with inr l => inr (default [] (head l)) | inl e => inl e end).

Definition expand_herestring_word (word : SourceWord) : X E bytes :=
  r <== expand_word_list [word] QUOTE_REMOVAL ;;
  xret (match r with inr l => Param.join (bs " ") l | inl _ => s_text word end).

Definition expand_heredoc_body (body : bytes) : X E bytes :=
  r <== expand_heredoc_string body ;; xret (match r with inr s => s | inl _ => [] end).
End Words.
