(* ===== verification/Redirect.v ===== *)
(** Redirections (crates/exec/src/redirect.rs): the plan of each redirection, its
    execution on the descriptors of the process, and the guard that undoes it. *)
From stdpp Require Import gmap.
From S2P Require Import Prelude Env Expand Pipeline Jobs Lex Ast ExecState.
From S2P Require Scan Param Assign LexScan.

#[local] Open Scope exec_scope.

(** [ExecError]: a message, or what a message that names its place in the script is made
    from. *)
Inductive ExecError :=
| ErrMessage (m : bytes)
| ErrRestricted (path : bytes)
| ErrDuplicate (subject : bytes) (errno : Z).

(** * Descriptors *)

Definition O_RDONLY : Z := 0.
Definition O_WRONLY : Z := 1.
Definition O_RDWR : Z := 2.
Definition O_CREAT : Z := 64.
Definition O_EXCL : Z := 128.
Definition O_TRUNC : Z := 512.
Definition O_APPEND : Z := 1024.

(** The system calls: [open], [connect] to a host and service, [dup2], [close],
    [fcntl(fd, F_DUPFD_CLOEXEC, min)], [pipe], [write] to a pipe and a child that
    writes; a failure is an [errno]. *)
Class Descriptors (E : Type) := {
  fd_open : E -> bytes -> Z -> Z -> (Z + Z) * E;
  fd_connect : E -> bytes -> bytes -> bytes -> (bytes + Z) * E;
  fd_dup2 : E -> Z -> Z -> bool * E;
  fd_close : E -> Z -> E;
  fd_dup_from : E -> Z -> Z -> (Z + Z) * E;
  fd_pipe : E -> option (Z * Z) * E;
  fd_write : E -> Z -> bytes -> E;
  fd_spawn_writer : E -> Z -> bytes -> bool * E;
  strerror : Z -> bytes;
}.

Definition EPERM : Z := 1.
Definition ENOENT : Z := 2.
Definition EBADF : Z := 9.
Definition EACCES : Z := 13.
Definition EEXIST : Z := 17.
Definition EISDIR : Z := 21.
Definition EINVAL : Z := 22.
Definition EMFILE : Z := 24.

Definition GUARD_SAVE_FD_BASE : Z := 50.
Definition PIPE_THRESHOLD : Z := 4096.

Inductive Plan :=
| POpen (path : bytes) (flags mode target : Z)
| PDup (source target : Z) (source_label : bytes)
| PMove (source target : Z) (source_label : bytes)
| PClose (target : Z)
| PHeredoc (body : bytes) (target : Z)
| POpenErrAndOut (path : bytes) (append : bool)
| PAssignVar (path : bytes) (flags : Z) (var : bytes)
| PAssignFd (source : Z) (var : bytes) (close_source : bool)
| PCloseVar (var : bytes)
| PAssignHeredoc (body var : bytes).

(** [RedirGuard]; the values of variables are only noted. *)
Record RedirGuard := mkGuard { saved_fd : list (Z * Z); saved_var : list (bytes * option bytes); assigned_var_fds : list Z; close_var_fds : bool }.
Definition guard_new (close_vars : bool) : RedirGuard := mkGuard [] [] [] close_vars.

Inductive VarTarget := VScalar (name : bytes) | VIndexed (name : bytes) (index : Z).

Section Redirect.
Context {E : Type} `{Environment E} `{Parameters E} `{ExecEnv E} `{WordLists E} `{Descriptors E}.

(** Fallible steps. *)
Definition XE (A : Type) : Type := X E (ExecError + A).
Definition eret {A} (a : A) : XE A := xret (inr a).
Definition efail {A} (m : bytes) : XE A := xret (inl (ErrMessage m)).
Definition ebind {A B} (m : XE A) (k : A -> XE B) : XE B := r <== m ;; match r with inr a => k a | inl e => xret (inl e) end.

(** * Words *)

Definition FOR_REDIR : Z := 2 ^ 4.

Definition expand_redirect_word (word : SourceWord) (expand_glob : bool) : XE bytes :=
  let flags := Z.lor (Z.lor SPLIT_FIELDS QUOTE_REMOVAL) FOR_REDIR in
  r <== expand_word_list [word] (if expand_glob then Z.lor flags EXPAND_GLOB else flags) ;;
  match r with
  | inl e => efail (Assign.shell_error_message e)
  | inr [text] => eret text
  | inr words => if is_nil words && ends_with (bs "-") (s_text word) then eret (bs "-") else efail (s_text word ++ bs ": ambiguous redirect")
  end.

Definition redirectee_path_with_glob (r : Redirectee) (expand_glob : bool) : XE bytes :=
  match r with RedirecteeWord w => expand_redirect_word w expand_glob | RedirecteeFd _ => efail (bs "redirectee expected word") end.
Definition redirectee_path (r : Redirectee) : XE bytes := redirectee_path_with_glob r true.
Definition redirectee_word (r : Redirectee) : XE bytes :=
  match r with RedirecteeWord w => expand_redirect_word w true | RedirecteeFd fd => eret (i64_to_string fd) end.
Definition redirectee_label (r : Redirectee) : bytes :=
  match r with RedirecteeWord w => s_text w | RedirecteeFd fd => i64_to_string fd end.
Definition redirectee_fd (r : Redirectee) : XE Z :=
  match r with
  | RedirecteeFd fd => eret fd
  | RedirecteeWord w => match parse_i32 (s_text w) with Some fd => eret fd | None => efail (s_text w ++ bs ": ambiguous redirect") end
  end.

Definition heredoc_delimiter_quoted (r : Redirect) : bool :=
  match redirectee r with RedirecteeWord w => has (s_flags w) LexScan.W_QUOTED | RedirecteeFd _ => false end.

(** Lines with their line feeds. *)
Fixpoint split_inclusive (s : bytes) (line : bytes) : list bytes :=
  match s with
  | [] => if is_nil line then [] else [line]
  | b :: r => if b =? 10 then (line ++ [b]) :: split_inclusive r [] else split_inclusive r (line ++ [b])
  end.

Definition prepare_heredoc_body (body : bytes) (strip_tabs quoted_delim : bool) : X E bytes :=
  let processed := if strip_tabs then concat (map Scan.drop_tabs (split_inclusive body [])) else body in
  let processed := if negb (is_nil body) && negb (ends_with [10] processed) then processed ++ [10] else processed in
  if quoted_delim then xret processed else expand_heredoc_body processed.

(** * Plans *)

Definition file_is_special (path : bytes) : bool := starts_with (bs "/dev/") path.

Definition open_or_var (r : Redirector) (path : bytes) (flags mode target : Z) : Plan :=
  match r with RedirectorFd _ => POpen path flags mode target | RedirectorVar name => PAssignVar path flags name end.

Definition restricted_output_check (path : bytes) : XE unit :=
  restricted <== asks (fun e => env_option e (bs "restricted")) ;;
  if restricted : bool then xret (inl (ErrRestricted path)) else eret tt.

(** A redirection to a file that is created. *)
Definition output_plan (r : Redirect) (flags : Z) (target : Z) : XE Plan :=
  ebind (redirectee_path (redirectee r)) (fun path =>
  ebind (restricted_output_check path) (fun _ =>
  eret (open_or_var (redirector r) path flags 420 target))).

(** Duplicating or moving a descriptor, to a number or to a variable. *)
Definition duplicate_plan (r : Redirect) (move : bool) (source target : Z) (label : bytes) : Plan :=
  match redirector r with
  | RedirectorVar var => PAssignFd source var move
  | RedirectorFd _ => if move then PMove source target label else PDup source target label
  end.

Definition close_plan (r : Redirect) (target : Z) : Plan :=
  match redirector r with RedirectorVar var => PCloseVar var | RedirectorFd _ => PClose target end.

Definition heredoc_plan (r : Redirect) (body : bytes) (target : Z) : Plan :=
  match redirector r with RedirectorVar var => PAssignHeredoc body var | RedirectorFd _ => PHeredoc body target end.

(** [n>&word] and [n<&word], the word expanded. *)
Definition duplicate_word_plan (r : Redirect) (output : bool) (target : Z) (label word : bytes) : XE Plan :=
  let word := if is_nil word && ends_with (bs "-") label then bs "-" else word in
  if bytes_eqb word (bs "-") then eret (close_plan r target)
  else
    match Param.strip_suffix (bs "-") word with
    | Some source =>
        match parse_i32 source with Some source => eret (duplicate_plan r true source target label) | None => efail (word ++ bs ": ambiguous redirect") end
    | None =>
        match parse_i32 word with
        | Some source => if 0 <=? source then eret (duplicate_plan r false source target label) else efail (word ++ bs ": ambiguous redirect")
        | None =>
            if output && (target =? 1) then ebind (restricted_output_check word) (fun _ => eret (POpenErrAndOut word false))
            else efail (label ++ bs ": ambiguous redirect")
        end
    end.

Definition move_word_plan (r : Redirect) (target : Z) (label word : bytes) : XE Plan :=
  if bytes_eqb word (bs "-") || (is_nil word && ends_with (bs "-") label) then eret (close_plan r target)
  else
    match parse_i32 (default word (Param.strip_suffix (bs "-") word)) with
    | None => efail (label ++ bs ": ambiguous redirect")
    | Some source => if source <? 0 then efail (word ++ bs ": ambiguous redirect") else eret (duplicate_plan r true source target label)
    end.

(** [build_plans], which never makes more than one. *)
Definition build_plan (r : Redirect) : XE Plan :=
  let target (d : Z) := match redirector r with RedirectorFd fd => fd | RedirectorVar _ => d end in
  let word_plan (k : bytes -> XE Plan) := ebind (redirectee_word (redirectee r)) k in
  match instruction r with
  | InputDirection =>
      posix <== asks (fun e => env_option e (bs "posix")) ;;
      ebind (redirectee_path_with_glob (redirectee r) (negb posix)) (fun path => eret (open_or_var (redirector r) path O_RDONLY 0 (target 0)))
  | OutputDirection =>
      noclobber <== asks (fun e => env_option e (bs "noclobber")) ;;
      ebind (redirectee_path (redirectee r)) (fun path =>
      ebind (restricted_output_check path) (fun _ =>
      let last := if noclobber && negb (file_is_special path) then O_EXCL else O_TRUNC in
      eret (open_or_var (redirector r) path (Z.lor (Z.lor O_WRONLY O_CREAT) last) 420 (target 1))))
  | OutputForce => output_plan r (Z.lor (Z.lor O_WRONLY O_CREAT) O_TRUNC) (target 1)
  | AppendingTo => output_plan r (Z.lor (Z.lor O_WRONLY O_CREAT) O_APPEND) (target 1)
  | InputOutput => output_plan r (Z.lor O_RDWR O_CREAT) (target 0)
  | DuplicatingInput => ebind (redirectee_fd (redirectee r)) (fun source => eret (duplicate_plan r false source (target 0) (i64_to_string source)))
  | DuplicatingOutput => ebind (redirectee_fd (redirectee r)) (fun source => eret (duplicate_plan r false source (target 1) (i64_to_string source)))
  | DuplicatingInputWord => word_plan (duplicate_word_plan r false (target 0) (redirectee_label (redirectee r)))
  | DuplicatingOutputWord => word_plan (duplicate_word_plan r true (target 1) (redirectee_label (redirectee r)))
  | MoveInput => ebind (redirectee_fd (redirectee r)) (fun source => eret (duplicate_plan r true source (target 0) (i64_to_string source)))
  | MoveOutput => ebind (redirectee_fd (redirectee r)) (fun source => eret (duplicate_plan r true source (target 1) (i64_to_string source)))
  | MoveInputWord => word_plan (move_word_plan r (target 0) (redirectee_label (redirectee r)))
  | MoveOutputWord => word_plan (move_word_plan r (target 1) (redirectee_label (redirectee r)))
  | CloseThis => eret (close_plan r (target 0))
  | ErrAndOut =>
      ebind (redirectee_path (redirectee r)) (fun path => ebind (restricted_output_check path) (fun _ => eret (POpenErrAndOut path false)))
  | AppendErrAndOut =>
      ebind (redirectee_path (redirectee r)) (fun path => ebind (restricted_output_check path) (fun _ => eret (POpenErrAndOut path true)))
  | ReadingUntil | DeblankReadingUntil | InputaDirection =>
      body <== prepare_heredoc_body (default [] (here_doc_body r)) (match instruction r with DeblankReadingUntil => true | _ => false end)
                 (heredoc_delimiter_quoted r) ;;
      eret (heredoc_plan r body (target 0))
  | ReadingString =>
      ebind (match redirectee r with
             | RedirecteeWord word => w <== expand_herestring_word word ;; eret w
             | RedirecteeFd _ => redirectee_word (redirectee r)
             end) (fun word => eret (heredoc_plan r (word ++ [10]) (target 0)))
  end.

(** * The guard *)

Definition dup_from (fd min : Z) (e : E) : Z * E :=
  match fd_dup_from e fd min with (inr new, e) => (new, e) | (inl _, e) => (-1, e) end.

Definition with_saved (s : list (Z * Z)) (g : RedirGuard) : RedirGuard := mkGuard s (saved_var g) (assigned_var_fds g) (close_var_fds g).

(** -1 stands for a descriptor that was closed. *)
Definition save_fd_avoiding (target : Z) (avoid : list Z) (g : RedirGuard) (e : E) : RedirGuard * E :=
  let push saved := with_saved (saved_fd g ++ [(target, saved)]) g in
  let '(saved, e) := dup_from target GUARD_SAVE_FD_BASE e in
  let '(saved, e) := if saved <? 0 then dup_from target 10 e else (saved, e) in
  if saved <? 0 then (push (-1), e)
  else
    let '(saved, e) := if bool_decide (saved ∈ avoid) then dup_from target (saved + 1) (fd_close e saved) else (saved, e) in
    (push (if saved <? 0 then -1 else saved), e).

Definition save_fd (target : Z) : RedirGuard -> E -> RedirGuard * E := save_fd_avoiding target [].

Definition restore_fd (e : E) (entry : Z * Z) : E :=
  let '(target, saved) := entry in
  if saved <? 0 then fd_close e target else fd_close (fd_dup2 e saved target).2 saved.

(** [Drop] of the guard, and [persist]. *)
Definition drop_guard (g : RedirGuard) (e : E) : E :=
  fold_left fd_close (rev (assigned_var_fds g)) (fold_left restore_fd (rev (saved_fd g)) e).

Definition persist (g : RedirGuard) (e : E) : E :=
  fold_left (fun e entry => if 0 <=? entry.2 then fd_close e entry.2 else e) (saved_fd g) e.

Definition save_var (name : bytes) (prior : option bytes) (g : RedirGuard) : RedirGuard :=
  mkGuard (saved_fd g) (saved_var g ++ [(name, prior)]) (assigned_var_fds g) (close_var_fds g).
Definition note_var_fd (fd : Z) (g : RedirGuard) : RedirGuard :=
  if close_var_fds g then mkGuard (saved_fd g) (saved_var g) (assigned_var_fds g ++ [fd]) (close_var_fds g) else g.

(** * System calls *)

Definition errno_message (errno : Z) : bytes :=
  if errno =? EINVAL then bs "Invalid argument" else if errno =? EBADF then bs "Bad file descriptor"
  else if (errno =? EACCES) || (errno =? EPERM) then bs "Permission denied" else if errno =? ENOENT then bs "No such file or directory"
  else if errno =? EISDIR then bs "Is a directory" else if errno =? EMFILE then bs "Too many open files" else strerror errno.

Definition tcp_endpoint (path : bytes) : option (bytes * bytes) :=
  endpoint ← strip_prefix (bs "/dev/tcp/") path;
  slash ← find_byte "/"%b endpoint;
  let host := take slash endpoint in
  let service := drop (S slash) endpoint in
  if is_nil host || is_nil service || bool_decide ("/"%b ∈ service) then None else Some (host, service).

Definition open_path (path : bytes) (flags mode : Z) : XE Z :=
  match tcp_endpoint path with
  | Some (host, service) =>
      r <== with_env (fun e => fd_connect e path host service) ;;
      match r with inr fd => eret fd | inl m => efail m end
  | None =>
      if bool_decide (0 ∈ path) then efail (path ++ bs ": invalid path")
      else
        r <== with_env (fun e => fd_open e path flags mode) ;;
        match r with
        | inr fd => eret fd
        | inl errno =>
            efail (path ++ bs ": " ++ (if has flags O_EXCL && (errno =? EEXIST) then bs "cannot overwrite existing file" else errno_message errno))
        end
  end.

Definition dup2_close (source target : Z) : XE unit :=
  ok <== with_env (fun e => fd_dup2 e source target) ;;
  if ok : bool then (if source =? target then eret tt else on_env (fun e => fd_close e source) ==;; eret tt)
  else on_env (fun e => fd_close e source) ==;; efail (bs "dup2(" ++ i64_to_string source ++ bs ", " ++ i64_to_string target ++ bs ") failed").

Definition heredoc_read_fd (body : bytes) : XE Z :=
  let content := Quote.value_bytes body in
  ends <== with_env fd_pipe ;;
  match ends with
  | None => efail (bs "pipe() failed for heredoc")
  | Some (read_fd, write_fd) =>
      if Z.of_nat (length content) <? PIPE_THRESHOLD then
        on_env (fun e => fd_close (fd_write e write_fd content) write_fd) ==;; eret read_fd
      else
        ok <== with_env (fun e => fd_spawn_writer e write_fd content) ;;
        if ok : bool then on_env (fun e => fd_close e write_fd) ==;; eret read_fd
        else on_env (fun e => fd_close (fd_close e read_fd) write_fd) ==;; efail (bs "fork() failed for heredoc")
  end.

Definition allocate_high_fd (fd : Z) : X E Z := with_env (dup_from fd 10).

(** * Variables that hold descriptors *)

Definition parse_var_target (var : bytes) : ExecError + VarTarget :=
  match find_byte "["%b var with
  | None => inr (VScalar var)
  | Some open =>
      if negb (ends_with (bs "]") var) then inl (ErrMessage (var ++ bs ": ambiguous redirect"))
      else
        match parse_i64 (trim (slice var (S open) (length var - 1))) with
        | Some index => inr (VIndexed (take open var) index)
        | None => inl (ErrMessage (var ++ bs ": bad array subscript"))
        end
  end.

Definition readonly_fd_assign_error (name : bytes) : bytes :=
  name ++ bs ": readonly variable" ++ [10] ++ name ++ bs ": cannot assign fd to variable".

Definition fd_assign_error (name : bytes) (err : AssignError) : bytes :=
  let lines m := m ++ [10] ++ name ++ bs ": cannot assign fd to variable" in
  match err with
  | ReadOnly readonly => readonly_fd_assign_error readonly
  | InvalidName v => lines (bs "exec: `" ++ v ++ bs "': not a valid identifier")
  | BadArraySubscript v => lines (v ++ bs ": bad array subscript")
  | InvalidInteger v => lines (v ++ bs ": invalid integer")
  | CircularNameReference v => lines (v ++ bs ": circular name reference")
  end.

Definition assign_fd_var (var : bytes) (fd : Z) : XE unit :=
  match parse_var_target var with
  | inl err => xret (inl err)
  | inr (VScalar name) =>
      readonly <== asks (fun e => env_is_readonly e name) ;;
      if readonly : bool then efail (readonly_fd_assign_error name)
      else
        err <== with_env (fun e => env_assign e name (i64_to_string fd)) ;;
        match err with None => eret tt | Some err => efail (fd_assign_error name err) end
  | inr (VIndexed name index) =>
      readonly <== asks (fun e => env_is_readonly e name) ;;
      if readonly : bool then efail (readonly_fd_assign_error name)
      else on_env (fun e => env_set_array_indexed e name index (i64_to_string fd)) ==;; eret tt
  end.

Definition fd_from_var (var : bytes) : XE Z :=
  match parse_var_target var with
  | inl err => xret (inl err)
  | inr target =>
      value <== with_env (fun e =>
        match target with
        | VScalar name => env_get e (default name (env_resolve_nameref e name))
        | VIndexed name index => env_get_array_indexed e name index
        end) ;;
      match v ← value; parse_i32 v with Some fd => eret fd | None => efail (var ++ bs ": ambiguous redirect") end
  end.

Definition mark_coproc_fd_moved (source : Z) : X E unit :=
  on_env (fun e =>
    match env_get_array e (bs "COPROC") with
    | Some values =>
        let text := i64_to_string source in
        if existsb (bytes_eqb text) values
        then env_set_array e (bs "COPROC") (map (fun v => if bytes_eqb text v then bs "-1" else v) values) else e
    | None => e
    end).

(** * Carrying out a plan *)

(** A change of the guard, when there is one. *)
Definition guarded (f : RedirGuard -> E -> RedirGuard * E) (g : option RedirGuard) : X E (option RedirGuard) :=
  match g with
  | Some g => g <== with_env (f g) ;; xret (Some g)
  | None => xret None
  end.

(** The outcome and the guard after it. *)
Definition XG : Type := X E ((ExecError + unit) * option RedirGuard).
Definition gfinish (g : option RedirGuard) (m : XE unit) : XG := r <== m ;; xret (r, g).
Definition gbind {A} (g : option RedirGuard) (m : XE A) (k : A -> XG) : XG :=
  r <== m ;; match r with inr a => k a | inl err => xret (inl err, g) end.

(** A descriptor in the place of another. *)
Definition install (fd target : Z) (g : option RedirGuard) : XG :=
  g <== guarded (save_fd target) g ;; gfinish g (dup2_close fd target).

(** A descriptor of at least 10 in a variable. *)
Definition assign_high (fd : Z) (var : bytes) (g : option RedirGuard) (after : X E unit) : XG :=
  g <== match g with
        | Some g => prior <== with_env (fun e => env_get e var) ;; xret (Some (save_var var prior g))
        | None => xret None
        end ;;
  r <== assign_fd_var var fd ;;
  match r with
  | inl err => on_env (fun e => fd_close e fd) ==;; xret (inl err, g)
  | inr _ => after ==;; xret (inr tt, note_var_fd fd <$> g)
  end.

Definition move_from (source : Z) : X E unit := on_env (fun e => fd_close e source) ==;; mark_coproc_fd_moved source.

Definition execute_plan (plan : Plan) (g : option RedirGuard) : XG :=
  match plan with
  | POpen path flags mode target => gbind g (open_path path flags mode) (fun fd => install fd target g)
  | PDup source target label | PMove source target label =>
      if source =? target then xret (inr tt, g)
      else
        g <== guarded (save_fd_avoiding target [source]) g ;;
        ok <== with_env (fun e => fd_dup2 e source target) ;;
        if ok : bool then
          match plan with PMove _ _ _ => move_from source | _ => xret tt end ==;; xret (inr tt, g)
        else xret (inl (ErrMessage (label ++ bs ": Bad file descriptor")), g)
  | PClose target => g <== guarded (save_fd target) g ;; on_env (fun e => fd_close e target) ==;; xret (inr tt, g)
  | POpenErrAndOut path append =>
      gbind g (open_path path (Z.lor (Z.lor O_WRONLY O_CREAT) (if append then O_APPEND else O_TRUNC)) 420) (fun fd =>
        g <== guarded (save_fd 1) g ;;
        g <== guarded (save_fd 2) g ;;
        gbind g (dup2_close fd 1) (fun _ =>
        ok <== with_env (fun e => fd_dup2 e 1 2) ;;
        xret (if ok : bool then inr tt else inl (ErrMessage (bs "dup2 stderr failed")), g)))
  | PHeredoc body target => gbind g (heredoc_read_fd body) (fun fd => install fd target g)
  | PAssignVar path flags var =>
      gbind g (open_path path flags 420) (fun fd =>
      r <== with_env (fun e => fd_dup_from e fd 10) ;;
      on_env (fun e => fd_close e fd) ==;;
      match r with
      | inl errno => xret (inl (ErrDuplicate path errno), g)
      | inr high => assign_high high var g (xret tt)
      end)
  | PAssignFd source var close_source =>
      high <== allocate_high_fd source ;;
      if high <? 0 then xret (inl (ErrMessage (i64_to_string source ++ bs ": Bad file descriptor")), g)
      else assign_high high var g (if close_source then move_from source else xret tt)
  | PCloseVar var => gbind g (fd_from_var var) (fun fd => move_from fd ==;; xret (inr tt, g))
  | PAssignHeredoc body var =>
      gbind g (heredoc_read_fd body) (fun fd =>
      high <== allocate_high_fd fd ;;
      on_env (fun e => fd_close e fd) ==;;
      if high <? 0 then xret (inl (ErrMessage (var ++ bs ": cannot assign fd to variable")), g)
      else assign_high high var g (xret tt))
  end.

(** * Redirections of a command *)

(** An error drops the guard. *)
Fixpoint apply_loop (rs : list Redirect) (g : option RedirGuard) : XE (option RedirGuard) :=
  let failed (g : option RedirGuard) (err : ExecError) : XE (option RedirGuard) :=
    match g with Some g => on_env (drop_guard g) | None => xret tt end ==;; xret (inl err) in
  match rs with
  | [] => eret g
  | r :: rs =>
      plan <== build_plan r ;;
      match plan with
      | inl err => failed g err
      | inr plan =>
          done <== execute_plan plan g ;;
          match done.1 with inr _ => apply_loop rs done.2 | inl err => failed done.2 err end
      end
  end.

Definition apply_redirects_to_parent (rs : list Redirect) : XE RedirGuard :=
  close_vars <== asks (fun e => env_option e (bs "varredir_close")) ;;
  ebind (apply_loop rs (Some (guard_new close_vars))) (fun g => eret (default (guard_new close_vars) g)).

Definition apply_redirects_to_child (rs : list Redirect) : XE unit :=
  ebind (apply_loop rs None) (fun _ => eret tt).
End Redirect.

(** * What the system calls promise

    The table of descriptors, as POSIX documents the calls; limits on the number of
    descriptors are left out. *)

Class DescriptorTable (E F : Type) `{Descriptors E} := {
  fds : E -> gmap Z F;
  open_lowest e path flags mode fd e' : fd_open e path flags mode = (inr fd, e') ->
    fds e !! fd = None /\ (forall k, 0 <= k < fd -> is_Some (fds e !! k)) /\ exists f, fds e' = <[fd := f]> (fds e);
  open_fails e path flags mode x e' : fd_open e path flags mode = (inl x, e') -> fds e' = fds e;
  connect_lowest e path host service fd e' : fd_connect e path host service = (inr fd, e') ->
    fds e !! fd = None /\ (forall k, 0 <= k < fd -> is_Some (fds e !! k)) /\ exists f, fds e' = <[fd := f]> (fds e);
  connect_fails e path host service x e' : fd_connect e path host service = (inl x, e') -> fds e' = fds e;
  dup2_open e s t f : fds e !! s = Some f -> 0 <= t -> (fd_dup2 e s t).1 = true;
  dup2_copies e s t e' : fd_dup2 e s t = (true, e') -> exists f, fds e !! s = Some f /\ fds e' = <[t := f]> (fds e);
  dup2_fails e s t e' : fd_dup2 e s t = (false, e') -> fds e' = fds e;
  close_deletes e fd : fds (fd_close e fd) = delete fd (fds e);
  dup_from_open e fd min f : fds e !! fd = Some f -> exists new e', fd_dup_from e fd min = (inr new, e')
    /\ min <= new /\ fds e !! new = None /\ fds e' = <[new := f]> (fds e);
  dup_from_closed e fd min : fds e !! fd = None -> exists x e', fd_dup_from e fd min = (inl x, e') /\ fds e' = fds e;
  pipe_lowest e r w e' : fd_pipe e = (Some (r, w), e') ->
    fds e !! r = None /\ (forall k, 0 <= k < r -> is_Some (fds e !! k)) /\ fds e !! w = None /\ r <> w
    /\ exists f f', fds e' = <[w := f']> (<[r := f]> (fds e));
  pipe_fails e e' : fd_pipe e = (None, e') -> fds e' = fds e;
  write_keeps e fd s : fds (fd_write e fd s) = fds e;
  spawn_writer_keeps e fd s : fds (fd_spawn_writer e fd s).2 = fds e;
}.

(** Expansion ends and leaves the descriptors alone, as it does where the words hold no
    process substitution, and so does setting an array. *)
Class WordsKeepDescriptors (E F : Type) `{DescriptorTable E F} `{WordLists E} `{ExecEnv E} := {
  expand_keeps words flags c : exists r c', expand_word_list words flags c = Some (r, c') /\ fds (x_env (shared c')) = fds (x_env (shared c));
  heredoc_keeps s c : exists r c', expand_heredoc_string s c = Some (r, c') /\ fds (x_env (shared c')) = fds (x_env (shared c));
  set_array_keeps e n v : fds (env_set_array e n v) = fds e;
}.
