(* ===== verification/RedirectProps.v ===== *)
(** Redirections (Redirect.v) on the table of descriptors: what a list of them makes of
    the descriptors below those the guard saves in, and that dropping the guard undoes
    it. *)
From stdpp Require Import gmap.
From S2P Require Import Prelude Env Expand Pipeline Jobs Lex Ast ExecState Redirect TestEnv.

#[local] Open Scope exec_scope.

(** * Effects *)

(** What a redirection of a numbered descriptor does to the table, where its form tells
    before its word is expanded. *)
Inductive Effect := Opens (t : Z) | Copies (s t : Z) | Moves (s t : Z) | Closes (t : Z) | OpensBoth.

Definition source_fd (r : Redirectee) : option Z := match r with RedirecteeFd fd => Some fd | RedirecteeWord w => parse_i32 (s_text w) end.

Definition effect (r : Redirect) : option Effect :=
  match redirector r with
  | RedirectorVar _ => None
  | RedirectorFd t =>
      match instruction r with
      | InputDirection | OutputDirection | OutputForce | AppendingTo | InputOutput
      | ReadingUntil | DeblankReadingUntil | InputaDirection | ReadingString => Some (Opens t)
      | DuplicatingInput | DuplicatingOutput => (fun s => Copies s t) <$> source_fd (redirectee r)
      | MoveInput | MoveOutput => (fun s => Moves s t) <$> source_fd (redirectee r)
      | CloseThis => Some (Closes t)
      | ErrAndOut | AppendErrAndOut => Some OpensBoth
      | DuplicatingInputWord | DuplicatingOutputWord | MoveInputWord | MoveOutputWord => None
      end
  end.

Definition plan_effect (p : Plan) : option Effect :=
  match p with
  | POpen _ _ _ t | PHeredoc _ t => Some (Opens t)
  | PDup s t _ => Some (Copies s t)
  | PMove s t _ => Some (Moves s t)
  | PClose t => Some (Closes t)
  | POpenErrAndOut _ _ => Some OpensBoth
  | _ => None
  end.

(** The descriptors of an effect are below the guard's. *)
Definition low (k : Z) : Prop := 0 <= k < GUARD_SAVE_FD_BASE.
#[export] Instance low_dec k : Decision (low k).
Proof. unfold low. apply _. Defined.
Definition low_effect (f : Effect) : Prop :=
  match f with Opens t | Closes t => low t | Copies s t | Moves s t => low s /\ low t | OpensBoth => True end.

(** The table after an effect that opens [new]. *)
Definition redirected {F} (T : gmap Z F) (step : Effect * F) : gmap Z F :=
  let copied s t := match T !! s with Some x => <[t := x]> T | None => T end in
  match step.1 with
  | Opens t => <[t := step.2]> T
  | Copies s t => copied s t
  | Moves s t => if s =? t then T else delete s (copied s t)
  | Closes t => delete t T
  | OpensBoth => <[2 := step.2]> (<[1 := step.2]> T)
  end.

(** Tables that agree below the guard's descriptors. *)
Definition below {F} (T T' : gmap Z F) : Prop := forall k, low k -> T !! k = T' !! k.

(** The descriptors known to be open after an effect; [None] where the effect opens a
    file on a descriptor not known to be open, or moves one. *)
Definition open_after (D : gset Z) (f : Effect) : option (gset Z) :=
  match f with
  | Opens t => if decide (t ∈ D) then Some D else None
  | Copies s t => Some (if s =? t then D else {[ t ]} ∪ D)
  | Moves s t => if s =? t then Some D else None
  | Closes t => Some (D ∖ {[ t ]})
  | OpensBoth => if decide (1 ∈ D /\ 2 ∈ D) then Some D else None
  end.

Fixpoint undoable (D : gset Z) (fs : list Effect) : bool :=
  match fs with
  | [] => true
  | f :: fs => match open_after D f with Some D => undoable D fs | None => false end
  end.

(** * Steps that end *)

Section Wp.
Context {E : Type}.

Definition xwp {A} (m : X E A) (Q : A -> XCtx E -> Prop) (c : XCtx E) : Prop :=
  match m c with Some (a, c') => Q a c' | None => False end.

Lemma xwp_bind {A B} (m : X E A) (k : A -> X E B) Q c : xwp m (fun a => xwp (k a) Q) c -> xwp (xbind m k) Q c.
Proof. unfold xwp, xbind. by destruct (m c) as [[a c']|]. Qed.
Lemma xwp_mono {A} (m : X E A) (P Q : A -> XCtx E -> Prop) c : xwp m P c -> (forall a c', P a c' -> Q a c') -> xwp m Q c.
Proof. unfold xwp. destruct (m c) as [[a c']|]; auto. Qed.
Lemma xwp_run {A} (m : X E A) Q c : xwp m Q c -> exists a c', m c = Some (a, c') /\ Q a c'.
Proof. unfold xwp. destruct (m c) as [[a c']|]; eauto || done. Qed.
End Wp.

Section Tables.
Context {E F : Type} `{Environment E} `{Parameters E} `{ExecEnv E} `{WordLists E} `{DescriptorTable E F} `{!WordsKeepDescriptors E F} `{!Inhabited F}.

Definition tab (c : XCtx E) : gmap Z F := fds (x_env (shared c)).

(** * Building a plan opens nothing *)

Definition quiet {A} (m : X E A) (Q : A -> Prop) : Prop := forall c, xwp m (fun a c' => tab c' = tab c /\ Q a) c.

Lemma quiet_ret {A} (a : A) (Q : A -> Prop) : Q a -> quiet (xret a) Q.
Proof. done. Qed.
Lemma quiet_asks {A} (f : E -> A) : quiet (asks f) (fun _ => True).
Proof. done. Qed.
Lemma quiet_mono {A} (m : X E A) (P Q : A -> Prop) : quiet m P -> (forall a, P a -> Q a) -> quiet m Q.
Proof. intros Hm HPQ c. eapply xwp_mono; [apply Hm|]. cbn. naive_solver. Qed.
Lemma quiet_bind {A B} (m : X E A) (k : A -> X E B) (P : A -> Prop) Q : quiet m P -> (forall a, P a -> quiet (k a) Q) -> quiet (xbind m k) Q.
Proof. intros Hm Hk c. apply xwp_bind. eapply xwp_mono; [apply Hm|]. intros a c' [Ec HP]. cbn. rewrite <- Ec. by apply Hk. Qed.

(** A fallible step, and what its value satisfies. *)
Definition well {A} (Q : A -> Prop) (r : ExecError + A) : Prop := match r with inr a => Q a | inl _ => True end.

Lemma quiet_eret {A} (a : A) (Q : A -> Prop) : Q a -> quiet (eret a) (well Q).
Proof. done. Qed.
Lemma quiet_efail {A} m (Q : A -> Prop) : quiet (efail m) (well Q).
Proof. done. Qed.
Lemma quiet_ebind {A B} (m : XE A) (k : A -> XE B) (P : A -> Prop) Q : quiet m (well P) -> (forall a, P a -> quiet (k a) (well Q)) -> quiet (ebind m k) (well Q).
Proof. intros Hm Hk. eapply quiet_bind; [exact Hm|]. intros [e|a] Ha; [done|]. by apply Hk. Qed.

Lemma quiet_expand words flags : quiet (expand_word_list words flags) (fun _ => True).
Proof. intros c. unfold xwp. destruct (expand_keeps words flags c) as (r & c' & -> & Ec). done. Qed.
Lemma quiet_expand_heredoc s : quiet (expand_heredoc_string s) (fun _ => True).
Proof. intros c. unfold xwp. destruct (heredoc_keeps s c) as (r & c' & -> & Ec). done. Qed.

Lemma quiet_redirect_word word glob : quiet (expand_redirect_word word glob) (well (fun _ => True)).
Proof.
  eapply quiet_bind; [apply quiet_expand|]. intros [e|[|text [|? ?]]] _; try done.
  all: by destruct (_ && _).
Qed.
Lemma quiet_path_glob r glob : quiet (redirectee_path_with_glob r glob) (well (fun _ => True)).
Proof. destruct r; [done|apply quiet_redirect_word]. Qed.
Lemma quiet_word r : quiet (redirectee_word r) (well (fun _ => True)).
Proof. destruct r; [done|apply quiet_redirect_word]. Qed.
Lemma quiet_fd r : quiet (redirectee_fd r) (well (fun s => source_fd r = Some s)).
Proof. destruct r as [fd|w]; [done|]. cbn. by destruct (parse_i32 (s_text w)). Qed.
Lemma quiet_restricted path : quiet (restricted_output_check path) (well (fun _ => True)).
Proof. eapply quiet_bind; [apply quiet_asks|]. by intros [|] _. Qed.
Lemma quiet_heredoc body strip quoted : quiet (prepare_heredoc_body body strip quoted) (fun _ => True).
Proof.
  unfold prepare_heredoc_body. destruct quoted; [done|]. eapply quiet_bind; [apply quiet_expand_heredoc|]. by intros [|].
Qed.
Lemma quiet_herestring word : quiet (expand_herestring_word word) (fun _ => True).
Proof. eapply quiet_bind; [apply quiet_expand|]. done. Qed.

Lemma quiet_here_string r :
  quiet (match r with
         | RedirecteeWord word => w <== expand_herestring_word word ;; eret w
         | RedirecteeFd _ => redirectee_word r
         end) (well (fun _ => True)).
Proof. destruct r as [fd|w]; [done|]. eapply quiet_bind; [apply quiet_herestring|]. done. Qed.

Create HintDb quiet.
Hint Resolve quiet_path_glob quiet_word quiet_fd quiet_restricted quiet_heredoc quiet_here_string quiet_asks : quiet.
Hint Extern 1 (quiet (redirectee_path _) _) => apply quiet_path_glob : quiet.

(** The plan of a redirection with an effect has that effect. *)
Definition plan_for (f : Effect) (p : Plan) : Prop := plan_effect p = Some f.

Ltac quietly :=
  repeat (lazymatch goal with
  | |- quiet (ebind (restricted_output_check _) _) _ => eapply quiet_ebind; [apply quiet_restricted|intros ? _]
  | |- quiet (ebind _ _) _ => eapply quiet_ebind; [eauto with quiet|intros ? ?]
  | |- quiet (xbind _ _) _ => eapply quiet_bind; [eauto with quiet|intros ? ?]
  | |- quiet (eret _) _ => apply quiet_eret
  end).

Lemma quiet_output_plan r flags t f : redirector r = RedirectorFd t -> Opens t = f -> quiet (output_plan r flags t) (well (plan_for f)).
Proof. intros Er <-. unfold output_plan. quietly. unfold plan_for. by rewrite Er. Qed.

Lemma quiet_build_plan r f : effect r = Some f -> quiet (build_plan r) (well (plan_for f)).
Proof.
  unfold effect, build_plan. destruct (redirector r) as [t|] eqn:Er; [|done].
  destruct (instruction r); intros Hf; try discriminate Hf; try (injection Hf as <-); try (by apply quiet_output_plan); quietly.
  all: unfold plan_for, open_or_var, heredoc_plan, duplicate_plan, close_plan; rewrite ?Er; try done.
  all: match goal with Hs : (fun _ => _) _ |- _ => cbn in Hs; rewrite Hs in Hf; by injection Hf as <- end.
Qed.

(** * The guard *)

(** [restore_fd] on the table. *)
Definition restored (T : gmap Z F) (entry : Z * Z) : gmap Z F :=
  if entry.2 <? 0 then delete entry.1 T
  else match T !! entry.2 with Some f => delete entry.2 (<[entry.1 := f]> T) | None => T end.

Lemma restore_fd_table e entry : (entry.2 < 0 \/ is_Some (fds e !! entry.2)) -> 0 <= entry.1 -> fds (restore_fd e entry) = restored (fds e) entry.
Proof.
  destruct entry as [t s]. unfold restore_fd, restored. cbn [fst snd]. intros Hs Ht. destruct (s <? 0) eqn:Es; [apply close_deletes|].
  destruct Hs as [Hs|[f Hf]]; [apply Z.ltb_ge in Es; lia|]. rewrite close_deletes, Hf.
  pose proof (dup2_open e s t f Hf Ht) as Hd. destruct (fd_dup2 e s t) as [ok e'] eqn:Ed. cbn in *. subst ok.
  apply dup2_copies in Ed as (f' & Hf' & ->). congruence.
Qed.

(** The entries, the last saved first, take [T] back to [T0]. *)
Fixpoint unwinds (entries : list (Z * Z)) (T T0 : gmap Z F) : Prop :=
  match entries with
  | [] => T = T0
  | entry :: entries => (entry.2 < 0 \/ is_Some (T !! entry.2)) /\ 0 <= entry.1 /\ unwinds entries (restored T entry) T0
  end.

Lemma unwinds_fold entries T0 : forall e, unwinds entries (fds e) T0 -> fds (fold_left restore_fd entries e) = T0.
Proof.
  induction entries as [|entry entries IH]; intros e Hu; [done|]. destruct Hu as (Hs & Ht & Hu). cbn [fold_left].
  apply IH. by rewrite restore_fd_table.
Qed.

(** A guard that takes the table back and closes nothing more. *)
Definition guards (T0 : gmap Z F) (g : RedirGuard) (T : gmap Z F) : Prop :=
  unwinds (rev (saved_fd g)) T T0 /\ assigned_var_fds g = [].

Lemma drop_guard_table T0 g e : guards T0 g (fds e) -> fds (drop_guard g e) = T0.
Proof. intros [Hu Ha]. unfold drop_guard. rewrite Ha. by apply unwinds_fold. Qed.

(** Saving descriptor [t] of table [T] as [s]. *)
Inductive saving (t : Z) (T : gmap Z F) : Z -> gmap Z F -> Prop :=
| saving_closed : T !! t = None -> saving t T (-1) T
| saving_open f s : T !! t = Some f -> GUARD_SAVE_FD_BASE <= s -> T !! s = None -> saving t T s (<[s := f]> T).

(** With a guard, or without one. *)
Definition saves (t : Z) (g : option RedirGuard) (T : gmap Z F) (g' : option RedirGuard) (T' : gmap Z F) : Prop :=
  match g, g' with
  | None, None => T' = T
  | Some g, Some g' => exists s, saved_fd g' = saved_fd g ++ [(t, s)] /\ assigned_var_fds g' = assigned_var_fds g /\ saving t T s T'
  | _, _ => False
  end.

Lemma dup_from_table fd min e : let '(new, e') := dup_from fd min e in
  (fds e !! fd = None /\ new = -1 /\ fds e' = fds e)
  \/ (exists f, fds e !! fd = Some f /\ min <= new /\ fds e !! new = None /\ fds e' = <[new := f]> (fds e)).
Proof.
  unfold dup_from. destruct (fds e !! fd) as [f|] eqn:Ef.
  - destruct (dup_from_open e fd min f Ef) as (new & e' & -> & ? & ? & ?). right. eauto.
  - destruct (dup_from_closed e fd min Ef) as (x & e' & -> & ?). by left.
Qed.

Lemma save_fd_table t avoid g e : let '(g', e') := save_fd_avoiding t avoid g e in saves t (Some g) (fds e) (Some g') (fds e').
Proof.
  unfold save_fd_avoiding. pose proof (dup_from_table t GUARD_SAVE_FD_BASE e) as D1.
  destruct (dup_from t GUARD_SAVE_FD_BASE e) as [s1 e1]. destruct D1 as [(Hn & -> & E1)|(f & Hf & Hmin & Hfree & E1)].
  - cbn. pose proof (dup_from_table t 10 e1) as D2. destruct (dup_from t 10 e1) as [s2 e2].
    rewrite E1 in D2. destruct D2 as [(_ & -> & E2)|(f & Hf & _)]; [|congruence].
    cbn. exists (-1). rewrite E2. split_and!; [done..|]. by constructor.
  - unfold GUARD_SAVE_FD_BASE in Hmin. rewrite (proj2 (Z.ltb_ge s1 0)) by lia. cbn beta iota.
    rewrite (proj2 (Z.ltb_ge s1 0)) by lia. case_bool_decide as Ha.
    + pose proof (dup_from_table t (s1 + 1) (fd_close e1 s1)) as D3. destruct (dup_from t (s1 + 1) (fd_close e1 s1)) as [s2 e2].
      rewrite close_deletes, E1, delete_insert_id in D3 by done.
      destruct D3 as [(Hn & _)|(f' & Hf' & Hs2 & Hfree2 & E2)]; [congruence|].
      rewrite (proj2 (Z.ltb_ge s2 0)) by lia. exists s2. split_and!; [done..|]. rewrite E2. constructor; [done| |done]. unfold GUARD_SAVE_FD_BASE. lia.
    + rewrite (proj2 (Z.ltb_ge s1 0)) by lia. exists s1. split_and!; [done..|]. rewrite E1. by constructor.
Qed.

(** Where only [t] has changed since it was saved, restoring gives the table back. *)
Lemma saving_undo t T s T1 T' (P : Z -> Prop) : saving t T s T1 -> (forall k, P k -> k <> t -> T' !! k = T1 !! k) -> (0 <= s -> P s) ->
  (s < 0 \/ is_Some (T' !! s)) /\ forall k, P k -> restored T' (t, s) !! k = T !! k.
Proof.
  intros Hs Hsame HP. destruct Hs as [Hn|f s Hf Hmin Hfree]; unfold restored; cbn [fst snd].
  - split; [left; lia|]. intros k Hk. change (-1 <? 0) with true. cbn iota.
    destruct (decide (k = t)) as [->|Ht]; [by rewrite lookup_delete_eq, Hn|]. rewrite lookup_delete_ne by done. by apply Hsame.
  - unfold GUARD_SAVE_FD_BASE in Hmin. assert (s <> t) by congruence.
    assert (T' !! s = Some f) as Es by (rewrite Hsame by (try apply HP; lia); by rewrite lookup_insert_eq).
    split; [right; by rewrite Es|]. intros k Hk. rewrite (proj2 (Z.ltb_ge s 0)) by lia. rewrite Es.
    destruct (decide (k = s)) as [->|Hks]; [by rewrite lookup_delete_eq, Hfree|]. rewrite lookup_delete_ne by done.
    destruct (decide (k = t)) as [->|Ht]; [by rewrite lookup_insert_eq, Hf|]. rewrite lookup_insert_ne by done.
    rewrite Hsame by done. by rewrite lookup_insert_ne.
Qed.

Lemma saving_undo_all t T s T1 T' : saving t T s T1 -> (forall k, k <> t -> T' !! k = T1 !! k) ->
  (s < 0 \/ is_Some (T' !! s)) /\ restored T' (t, s) = T.
Proof.
  intros Hs Hsame. destruct (saving_undo t T s T1 T' (fun _ => True) Hs) as [Hl Hr]; [auto..|].
  split; [done|]. apply map_eq. auto.
Qed.

(** Saving touches no descriptor below its own. *)
Lemma saving_below t T s T1 : saving t T s T1 -> below T1 T.
Proof. intros [Hn|f s' Hf Hmin Hfree] k [_ Hk]; [done|]. rewrite lookup_insert_ne; [done|]. lia. Qed.

Lemma saving_kept t T s T1 k : saving t T s T1 -> is_Some (T !! k) -> T1 !! k = T !! k.
Proof. intros [Hn|f s' Hf Hmin Hfree] [x Hx]; [done|]. rewrite lookup_insert_ne; [done|]. congruence. Qed.

Lemma saving_other t T s T1 fd f : saving t (<[fd := f]> T) s T1 -> T !! fd = None -> fd <> t -> saving t T s (delete fd T1).
Proof.
  intros Hs Hfd Ht. inversion Hs as [Hn E1 E2|f' s' Hf Hmin Hfree E1 E2].
  - rewrite lookup_insert_ne in Hn by done. rewrite delete_insert_id by done. by constructor.
  - rewrite lookup_insert_ne in Hf by done.
    assert (s <> fd) by (intros ->; by rewrite lookup_insert_eq in Hfree). rewrite lookup_insert_ne in Hfree by done.
    rewrite delete_insert_ne, delete_insert_id by done. by constructor.
Qed.

(** With a guard, or without one. *)
Definition guarded_by (T0 : gmap Z F) (g : option RedirGuard) (T : gmap Z F) : Prop := match g with Some g => guards T0 g T | None => True end.

Lemma saves_guarded t g T g1 T1 T' T0 : saves t g T g1 T1 -> (forall k, k <> t -> T' !! k = T1 !! k) -> 0 <= t -> guarded_by T0 g T -> guarded_by T0 g1 T'.
Proof.
  destruct g as [g|], g1 as [g1|]; try done. intros (s & Es & Ea & Hs) Hsame Ht [Hu Ha]. split; [|by rewrite Ea].
  destruct (saving_undo_all _ _ _ _ T' Hs Hsame) as [Hl Hr]. rewrite Es, rev_app_distr. cbn. by rewrite Hr.
Qed.
Lemma saves_guarded_both g T g1 T1 g2 T2 T' T0 : saves 1 g T g1 T1 -> saves 2 g1 T1 g2 T2 -> (forall k, k <> 1 -> k <> 2 -> T' !! k = T2 !! k) ->
  guarded_by T0 g T -> guarded_by T0 g2 T'.
Proof.
  destruct g as [g|], g1 as [g1|], g2 as [g2|]; try done. intros (s1 & Es1 & Ea1 & Hs1) (s2 & Es2 & Ea2 & Hs2) Hsame [Hu Ha].
  split; [|congruence]. assert (s2 <> 1) as Hne by (destruct Hs2; unfold GUARD_SAVE_FD_BASE in *; lia).
  destruct (saving_undo _ _ _ _ T' (fun k => k <> 1) Hs2) as [Hl2 Hr2]; [naive_solver..|].
  destruct (saving_undo_all _ _ _ _ (restored T' (2, s2)) Hs1 Hr2) as [Hl1 Hr1].
  rewrite Es2, Es1, !rev_app_distr. cbn [rev app unwinds fst snd]. rewrite Hr1. split_and!; [done|lia|done|lia|done].
Qed.

Lemma saves_below t g T g1 T1 : saves t g T g1 T1 -> below T1 T.
Proof. destruct g, g1; cbn; try done; [|by intros ->]. intros (s & _ & _ & Hs). by eapply saving_below. Qed.
Lemma saves_kept t g T g1 T1 k : saves t g T g1 T1 -> is_Some (T !! k) -> T1 !! k = T !! k.
Proof. destruct g, g1; cbn; try done; [|by intros ->]. intros (s & _ & _ & Hs). by eapply saving_kept. Qed.
Lemma saves_some t g T g1 T1 : saves t g T g1 T1 -> (is_Some g <-> is_Some g1).
Proof. by destruct g, g1. Qed.
Lemma saves_other t g T g1 T1 fd f : saves t g (<[fd := f]> T) g1 T1 -> T !! fd = None -> fd <> t -> saves t g T g1 (delete fd T1).
Proof.
  destruct g, g1; try done; cbn.
  - intros (s & Es & Ea & Hs) Hfd Ht. exists s. split_and!; [done..|]. by eapply saving_other.
  - intros -> Hfd _. by rewrite delete_insert_id.
Qed.

(** * Carrying out a plan *)

Lemma xwp_with_env {A} (f : E -> A * E) Q (c : XCtx E) :
  (forall a e, f (x_env (shared c)) = (a, e) -> forall c', tab c' = fds e -> Q a c') -> xwp (with_env f) Q c.
Proof. intros HQ. unfold xwp, with_env. destruct (f (x_env (shared c))) as [a e] eqn:Ef. by apply (HQ a e). Qed.
Lemma xwp_on_env (f : E -> E) Q (c : XCtx E) : (forall c', tab c' = fds (f (x_env (shared c))) -> Q tt c') -> xwp (on_env f) Q c.
Proof. intros HQ. by apply HQ. Qed.

Lemma xwp_guarded_save t avoid g Q (c : XCtx E) :
  (forall g1 c', saves t g (tab c) g1 (tab c') -> Q g1 c') -> xwp (guarded (save_fd_avoiding t avoid) g) Q c.
Proof.
  intros HQ. destruct g as [g|]; [|by apply HQ]. apply xwp_bind, xwp_with_env. intros g1 e Es c' Ec. apply HQ.
  pose proof (save_fd_table t avoid g (x_env (shared c))) as Hs. rewrite Es in Hs. by rewrite Ec.
Qed.

(** A new descriptor, or the table as it was. *)
Definition fresh_fd (T : gmap Z F) (r : ExecError + Z) (c' : XCtx E) : Prop :=
  match r with inr fd => T !! fd = None /\ exists f, tab c' = <[fd := f]> T | inl _ => tab c' = T end.

Lemma xwp_open_path path flags mode c : xwp (open_path path flags mode) (fresh_fd (tab c)) c.
Proof.
  unfold open_path. destruct (tcp_endpoint path) as [[host service]|].
  - apply xwp_bind, xwp_with_env. intros [m|fd] e Ec c' Et; cbn; rewrite Et; [by eapply connect_fails|].
    by apply connect_lowest in Ec as (? & _ & ?).
  - case_bool_decide; [done|]. apply xwp_bind, xwp_with_env. intros [m|fd] e Ec c' Et; cbn; rewrite Et; [by eapply open_fails|].
    by apply open_lowest in Ec as (? & _ & ?).
Qed.

Lemma xwp_heredoc_read_fd body c : xwp (heredoc_read_fd body) (fresh_fd (tab c)) c.
Proof.
  unfold heredoc_read_fd. cbv zeta. apply xwp_bind, xwp_with_env. intros [[r w]|] e Ep c' Et; [|cbn; rewrite Et; by apply pipe_fails].
  apply pipe_lowest in Ep as (Hr & _ & Hw & Hrw & f & f' & Ef). fold (tab c) in *. rewrite Ef in Et.
  assert (delete w (tab c') = <[r := f]> (tab c)) as Ew by (rewrite Et, delete_insert_id; [done|by rewrite lookup_insert_ne]).
  case_match.
  - apply xwp_bind, xwp_on_env. intros c2 E2. cbn. rewrite close_deletes, write_keeps in E2. fold (tab c') in E2. rewrite E2, Ew. eauto.
  - apply xwp_bind, xwp_with_env. intros ok e2 Es c2 E2.
    pose proof (spawn_writer_keeps (x_env (shared c')) w (Quote.value_bytes body)) as Hk. rewrite Es in Hk. cbn in Hk. fold (tab c') in Hk.
    rewrite Hk in E2. destruct ok; apply xwp_bind, xwp_on_env; intros c3 E3; cbn; rewrite !close_deletes in E3; fold (tab c2) in E3; rewrite E2 in E3.
    + rewrite E3, Ew. eauto.
    + rewrite E3, delete_delete, Ew. by apply delete_insert_id.
Qed.

(** [dup2_close] of an open descriptor. *)
Lemma xwp_dup2_close s t f Q c : tab c !! s = Some f -> 0 <= t ->
  (forall c', tab c' = (if decide (s = t) then <[t := f]> (tab c) else delete s (<[t := f]> (tab c))) -> Q (inr tt) c') -> xwp (dup2_close s t) Q c.
Proof.
  intros Hs Ht HQ. unfold dup2_close. apply xwp_bind, xwp_with_env. intros ok e Ed c' Et.
  pose proof (dup2_open (x_env (shared c)) s t f Hs Ht) as Ho. rewrite Ed in Ho. cbn in Ho. subst ok.
  apply dup2_copies in Ed as (f' & Hf' & Ef). assert (f' = f) as -> by (unfold tab in Hs; congruence). rewrite Ef in Et. fold (tab c) in Et.
  destruct (decide (s = t)) as [->|Hne].
  - rewrite Z.eqb_refl. by apply HQ.
  - rewrite (proj2 (Z.eqb_neq s t) Hne). apply xwp_bind, xwp_on_env. intros c2 E2. apply HQ. rewrite E2, close_deletes. fold (tab c'). by rewrite Et.
Qed.

(** An effect that the guard can undo. *)
Definition safe (f : Effect) (T : gmap Z F) : Prop :=
  match f with
  | Opens t => is_Some (T !! t)
  | Moves s t => s = t
  | OpensBoth => is_Some (T !! 1) /\ is_Some (T !! 2)
  | Copies _ _ | Closes _ => True
  end.

(** The descriptor an effect copies is open. *)
Definition copied_open (f : Effect) (T : gmap Z F) : Prop :=
  match f with Copies s t | Moves s t => s = t \/ is_Some (T !! s) | _ => True end.

(** Carried out, or failed, with the guard still able to undo. *)
Definition carried (f : Effect) (g : option RedirGuard) (T : gmap Z F) (out : (ExecError + unit) * option RedirGuard) (c' : XCtx E) : Prop :=
  (is_Some g <-> is_Some out.2)
  /\ (forall T0, guarded_by T0 g T -> safe f T -> guarded_by T0 out.2 (tab c'))
  /\ (out.1 = inr tt -> copied_open f T /\ exists new, below (tab c') (redirected T (f, new))).

Lemma below_insert t x T T' : below T T' -> below (<[t := x]> T : gmap Z F) (<[t := x]> T').
Proof. intros Hb k Hk. destruct (decide (k = t)) as [->|]; [by rewrite !lookup_insert_eq|]. rewrite !lookup_insert_ne by done. by apply Hb. Qed.
Lemma below_delete t T T' : below T T' -> below (delete t T : gmap Z F) (delete t T').
Proof. intros Hb k Hk. destruct (decide (k = t)) as [->|]; [by rewrite !lookup_delete_eq|]. rewrite !lookup_delete_ne by done. by apply Hb. Qed.
Lemma below_trans (T1 T2 T3 : gmap Z F) : below T1 T2 -> below T2 T3 -> below T1 T3.
Proof. intros H12 H23 k Hk. by rewrite H12, H23. Qed.

Lemma xwp_guarded_other T f fd g t (c : XCtx E) Q : T !! fd = None -> tab c = <[fd := f]> T ->
  (forall g1 c1, saves t g (tab c) g1 (tab c1) -> tab c1 !! fd = Some f -> below (tab c1) (tab c)
    -> (fd <> t -> saves t g T g1 (delete fd (tab c1))) -> Q g1 c1) -> xwp (guarded (save_fd t) g) Q c.
Proof.
  intros Hfd Ec HQ. apply (xwp_guarded_save t []). intros g1 c1 Hs. apply HQ; [done| | |].
  - rewrite (saves_kept _ _ _ _ _ fd Hs); rewrite Ec, lookup_insert_eq; eauto.
  - by eapply saves_below.
  - intros Ht. rewrite Ec in Hs. by eapply saves_other.
Qed.

(** The opened descriptor gone again, the table below is that before with a new file. *)
Lemma below_opened (T T1 : gmap Z F) fd f t : T !! fd = None -> below T1 (<[fd := f]> T) ->
  below (if decide (fd = t) then <[t := f]> T1 else delete fd (<[t := f]> T1)) (<[t := f]> T).
Proof.
  intros Hfd Hb. destruct (decide (fd = t)) as [->|Ht].
  - eapply below_trans; [by apply below_insert|]. by rewrite insert_insert_eq.
  - eapply below_trans; [by apply below_delete, below_insert|].
    rewrite insert_insert_ne by done. rewrite delete_insert_id; [done|]. by rewrite lookup_insert_ne.
Qed.

Lemma xwp_install T f fd g t c : T !! fd = None -> tab c = <[fd := f]> T -> low t -> xwp (install fd t g) (carried (Opens t) g T) c.
Proof.
  intros Hfd Ec [Ht _]. apply xwp_bind. eapply xwp_guarded_other; [done..|]. intros g1 c1 Hs Hf Hb Ho.
  apply xwp_bind, (xwp_dup2_close _ _ f); [done..|]. intros c2 E2. split; [|split].
  - by eapply saves_some.
  - intros T0 Hg [x Hx]. assert (fd <> t) as Hne by congruence. rewrite decide_False in E2 by done.
    eapply saves_guarded; [apply Ho; done| |exact Ht|exact Hg]. intros k Hk. rewrite E2.
    destruct (decide (k = fd)) as [->|]; [by rewrite !lookup_delete_eq|]. by rewrite !lookup_delete_ne, lookup_insert_ne.
  - intros _. split; [done|]. exists f. rewrite E2. apply below_opened; [done|]. by rewrite Ec in Hb.
Qed.

Lemma carried_failed f g T err c' : tab c' = T -> carried f g T (inl err, g) c'.
Proof. intros <-. split; [done|]. split; [by intros|done]. Qed.

Lemma xwp_opened (m : XE Z) (k : Z -> XG) f g c : (forall c, xwp m (fresh_fd (tab c)) c) ->
  (forall fd x c1, tab c !! fd = None -> tab c1 = <[fd := x]> (tab c) -> xwp (k fd) (carried f g (tab c)) c1) ->
  xwp (gbind g m k) (carried f g (tab c)) c.
Proof.
  intros Hm Hk. apply xwp_bind. eapply xwp_mono; [apply Hm|]. intros [err|fd] c1.
  - by apply carried_failed.
  - intros [Hfd [x Ec]]. by eapply Hk.
Qed.

Lemma xwp_close_plan t g c : low t -> xwp (execute_plan (PClose t) g) (carried (Closes t) g (tab c)) c.
Proof.
  intros [Ht _]. cbn [execute_plan]. apply xwp_bind, (xwp_guarded_save t []). intros g1 c1 Hsv. apply xwp_bind, xwp_on_env.
  intros c2 E2. rewrite close_deletes in E2. fold (tab c1) in E2. split; [by eapply saves_some|]. split.
  - intros T0 Hg _. eapply saves_guarded; [exact Hsv| |exact Ht|exact Hg]. intros k Hk. by rewrite E2, lookup_delete_ne.
  - intros _. split; [done|]. exists inhabitant. cbn. rewrite E2. apply below_delete. by eapply saves_below.
Qed.

Lemma xwp_move_from s (Q : unit -> XCtx E -> Prop) c : (forall c', tab c' = delete s (tab c) -> Q tt c') -> xwp (move_from s) Q c.
Proof.
  intros HQ. apply xwp_bind, xwp_on_env. intros c1 E1. rewrite close_deletes in E1. apply xwp_on_env. intros c2 E2. apply HQ.
  fold (tab c) in E1. rewrite <- E1, E2. cbv zeta. destruct (env_get_array _ _); [|done]. destruct (existsb _ _); [|done]. apply set_array_keeps.
Qed.

Lemma xwp_copy_plan s t label g (after : X E unit) f c : low s -> low t -> s <> t ->
  ((f = Copies s t /\ after = xret tt) \/ (f = Moves s t /\ after = move_from s)) ->
  xwp (g <== guarded (save_fd_avoiding t [s]) g ;;
      ok <== with_env (fun e => fd_dup2 e s t) ;;
      if ok : bool then after ==;; xret (inr tt, g) else xret (inl (ErrMessage (label ++ bs ": Bad file descriptor")), g))
    (carried f g (tab c)) c.
Proof.
  intros Hs [Ht _] Hne Hf. apply xwp_bind, (xwp_guarded_save t [s]). intros g1 c1 Hsv. apply xwp_bind, xwp_with_env.
  pose proof (saves_some _ _ _ _ _ Hsv) as Hsome. pose proof (saves_below _ _ _ _ _ Hsv) as Hb.
  intros [|] e Ed c2 E2.
  - apply dup2_copies in Ed as (x & Hx & Ex). fold (tab c1) in Hx, Ex. rewrite Ex in E2. rewrite Hb in Hx by done.
    destruct Hf as [[-> ->]|[-> ->]]; apply xwp_bind; [|apply xwp_move_from; intros c3 E3].
    + split; [done|]. split.
      * intros T0 Hg _. eapply saves_guarded; [exact Hsv| |exact Ht|exact Hg]. intros k Hk. by rewrite E2, lookup_insert_ne.
      * intros _. split; [right; by rewrite Hx|]. exists x. cbn. rewrite Hx, E2. by apply below_insert.
    + split; [done|]. split; [done|]. intros _. split; [right; by rewrite Hx|].
      exists x. cbn. rewrite (proj2 (Z.eqb_neq s t) Hne), Hx, E3, E2. by apply below_delete, below_insert.
  - apply dup2_fails in Ed. fold (tab c1) in Ed. rewrite Ed in E2. split; [done|]. split; [|done].
    intros T0 Hg _. eapply saves_guarded; [exact Hsv| |exact Ht|exact Hg]. intros k Hk. by rewrite E2.
Qed.

Lemma xwp_same_plan f g c s : f = Copies s s \/ f = Moves s s -> xwp (xret (inr tt, g)) (carried f g (tab c)) c.
Proof.
  intros Hf. split; [done|]. split; [done|]. intros _. split; [destruct Hf as [-> | ->]; by left|].
  exists inhabitant. destruct Hf as [-> | ->]; cbn; [|by rewrite Z.eqb_refl]. intros k _.
  destruct (tab c !! s) as [x|] eqn:Ex; [|done]. by rewrite insert_id.
Qed.

(** Descriptors 1 and 2 saved and set to the opened file. *)
Lemma xwp_both T f fd g c : T !! fd = None -> tab c = <[fd := f]> T ->
  xwp (g <== guarded (save_fd 1) g ;;
      g <== guarded (save_fd 2) g ;;
      gbind g (dup2_close fd 1) (fun _ =>
      ok <== with_env (fun e => fd_dup2 e 1 2) ;;
      xret (if ok : bool then inr tt else inl (ErrMessage (bs "dup2 stderr failed")), g))) (carried OpensBoth g T) c.
Proof.
  intros Hfd Ec. apply xwp_bind. eapply xwp_guarded_other; [done..|]. intros g1 c1 Hs1 Hf1 Hb1 Ho1.
  apply xwp_bind. apply (xwp_guarded_other (delete fd (tab c1)) f fd); [apply lookup_delete_eq|by rewrite insert_delete_id|].
  intros g2 c2 Hs2 Hf2 Hb2 Ho2. apply xwp_bind, (xwp_dup2_close _ _ f); [done..|]. intros c3 E3. apply xwp_bind, xwp_with_env. intros ok e Ed c4 E4.
  assert (tab c3 !! 1 = Some f) as H31 by (rewrite E3; destruct (decide (fd = 1)); [apply lookup_insert_eq|by rewrite lookup_delete_ne, lookup_insert_eq]).
  pose proof (dup2_open (x_env (shared c3)) 1 2 f H31 ltac:(lia)) as Hok. rewrite Ed in Hok. cbn in Hok. subst ok.
  apply dup2_copies in Ed as (x & Hx & Ex). fold (tab c3) in Hx, Ex. assert (x = f) as -> by congruence. rewrite Ex in E4.
  split; [|split].
  - rewrite (saves_some _ _ _ _ _ Hs1). by eapply saves_some.
  - intros T0 Hg [[x1 Hx1] [x2 Hx2]]. eapply saves_guarded_both; [apply Ho1; congruence|apply Ho2; congruence| |exact Hg].
    intros k Hk1 Hk2. rewrite E4, lookup_insert_ne, E3, decide_False by congruence.
    destruct (decide (k = fd)) as [->|]; [by rewrite !lookup_delete_eq|]. by rewrite !lookup_delete_ne, lookup_insert_ne.
  - intros _. split; [done|]. exists f. cbn. rewrite E4. apply below_insert. rewrite E3. apply below_opened; [done|].
    eapply below_trans; [exact Hb2|]. by rewrite Ec in Hb1.
Qed.

Lemma xwp_execute_plan p f g c : plan_for f p -> low_effect f -> xwp (execute_plan p g) (carried f g (tab c)) c.
Proof.
  unfold plan_for. destruct p; intros Hf; try discriminate Hf; injection Hf as <-; cbn [low_effect]; intros Hlow.
  - apply xwp_opened; [apply xwp_open_path|]. intros fd x c1 Hfd Ec. by eapply xwp_install.
  - cbn [execute_plan]. destruct (Z.eqb_spec source target) as [->|Hne]; [apply (xwp_same_plan _ _ _ target); by left|].
    apply xwp_copy_plan; [naive_solver..|by left].
  - cbn [execute_plan]. destruct (Z.eqb_spec source target) as [->|Hne]; [apply (xwp_same_plan _ _ _ target); by right|].
    apply xwp_copy_plan; [naive_solver..|by right].
  - by apply xwp_close_plan.
  - apply xwp_opened; [apply xwp_heredoc_read_fd|]. intros fd x c1 Hfd Ec. by eapply xwp_install.
  - apply xwp_opened; [apply xwp_open_path|]. intros fd x c1 Hfd Ec. by eapply xwp_both.
Qed.

(** * Lists of redirections *)

Lemma redirected_below f x T T' : low_effect f -> below T T' -> below (redirected T (f, x) : gmap Z F) (redirected T' (f, x)).
Proof.
  assert (forall s t, low s -> below T T' ->
    below (match T !! s with Some x => <[t := x]> T | None => T end) (match T' !! s with Some x => <[t := x]> T' | None => T' end)) as Hcopy.
  { intros s t Hs Hb. rewrite (Hb s Hs). destruct (T' !! s); [by apply below_insert|done]. }
  destruct f; cbn; intros Hl Hb.
  - by apply below_insert.
  - destruct Hl as [Hs _]. by apply Hcopy.
  - destruct Hl as [Hs _]. destruct (s =? t); [done|]. by apply below_delete, Hcopy.
  - by apply below_delete.
  - by apply below_insert, below_insert.
Qed.

Lemma fold_below steps : forall T T', Forall low_effect steps.*1 -> below T T' -> below (fold_left redirected steps T : gmap Z F) (fold_left redirected steps T').
Proof.
  induction steps as [|[f x] steps IH]; intros T T' Hl Hb; [done|]. cbn in *. apply Forall_cons in Hl as [Hf Hl].
  apply IH; [done|]. by apply redirected_below.
Qed.

(** [open_after] is sound. *)
Definition opened (D : gset Z) (T : gmap Z F) : Prop := forall k, k ∈ D -> low k /\ is_Some (T !! k).

Lemma open_after_safe D f D' T : open_after D f = Some D' -> opened D T -> safe f T.
Proof.
  intros Hd Ho. destruct f; cbn in *; try done.
  - destruct (decide _) as [Ht|]; [|done]. by apply Ho.
  - by destruct (Z.eqb_spec s t).
  - destruct (decide _) as [[H1' H2']|]; [|done]. split; by apply Ho.
Qed.

Lemma open_after_opened D f D' T x : open_after D f = Some D' -> low_effect f -> copied_open f T -> opened D T -> opened D' (redirected T (f, x)).
Proof.
  intros Hd Hl Hc Ho k Hk. destruct f as [t|s t|s t|t|]; cbn in *.
  - destruct (decide _) as [Ht|]; [|done]. injection Hd as <-. split; [by apply Ho|]. apply lookup_insert_is_Some'. right. by apply Ho.
  - injection Hd as <-. destruct (Z.eqb_spec s t) as [->|Hne].
    + destruct (Ho k Hk) as [? ?]. split; [done|]. destruct (T !! t); [|done]. apply lookup_insert_is_Some'. by right.
    + destruct Hc as [|[y Hy]]; [done|]. rewrite Hy. destruct (decide (k = t)) as [->|Hkt].
      * split; [tauto|]. rewrite lookup_insert_eq. eauto.
      * rewrite lookup_insert_ne by done. apply Ho. set_solver.
  - destruct (Z.eqb_spec s t) as [->|Hne]; [|done]. injection Hd as <-. by apply Ho.
  - injection Hd as <-. apply elem_of_difference in Hk as [Hk Hkt]. rewrite lookup_delete_ne by set_solver. by apply Ho.
  - destruct (decide _) as [Ht|]; [|done]. injection Hd as <-. split; [by apply Ho|]. rewrite !lookup_insert_is_Some'. right. right. by apply Ho.
Qed.

Lemma opened_below D T T' : below T T' -> opened D T' -> opened D T.
Proof. intros Hb Ho k Hk. destruct (Ho k Hk) as [Hl Hs]. split; [done|]. by rewrite Hb. Qed.

(** What carrying out a list comes to: on success the effects one after the other, the
    guard able to undo; on failure the table as it was. *)
Definition applied (fs : list Effect) (g : option RedirGuard) (T : gmap Z F) (out : ExecError + option RedirGuard) (c' : XCtx E) : Prop :=
  (forall g', out = inr g' -> (is_Some g <-> is_Some g') /\ exists news, length news = length fs /\ below (tab c') (fold_left redirected (zip fs news) T))
  /\ forall T0 D, is_Some g -> guarded_by T0 g T -> opened D T -> undoable D fs = true ->
       match out with inr g' => guarded_by T0 g' (tab c') | inl _ => tab c' = T0 end.

Lemma xwp_failed g g1 err c fs T : (is_Some g <-> is_Some g1) ->
  (forall T0 D, guarded_by T0 g T -> opened D T -> undoable D fs = true -> guarded_by T0 g1 (tab c)) ->
  xwp (match g1 with Some g1 => on_env (drop_guard g1) | None => xret tt end ==;; xret (inl err)) (fun out c' => applied fs g T out c') c.
Proof.
  intros Hsome Hg. apply xwp_bind. destruct g1 as [g1|].
  - apply xwp_on_env. intros c1 E1. split; [done|]. intros T0 D _ H0' HD Hu. rewrite E1. apply drop_guard_table. by eapply Hg.
  - split; [done|]. intros T0 D Hs. apply Hsome in Hs as [? ?]. done.
Qed.

Lemma undoable_step D f fs T : undoable D (f :: fs) = true -> opened D T -> safe f T.
Proof. cbn. destruct (open_after D f) as [D'|] eqn:Ed; [|done]. intros _. by eapply open_after_safe. Qed.

(** A step before a list. *)
Lemma applied_cons f fs g T out1 c1 out c' : low_effect f -> Forall low_effect fs -> out1.1 = inr tt -> carried f g T out1 c1 ->
  applied fs out1.2 (tab c1) out c' -> applied (f :: fs) g T out c'.
Proof.
  intros Hf Hfs E1 (Hsome & Hundo & Hdone) [Happ Hundos]. destruct (Hdone E1) as [Hcopied [x Hx]]. split.
  - intros g' Eo. destruct (Happ g' Eo) as (Hsome' & news & Hlen & Hbelow). split; [by rewrite Hsome|].
    exists (x :: news). split; [cbn; congruence|]. cbn. eapply below_trans; [exact Hbelow|]. apply fold_below; [|done].
    rewrite fst_zip; [done|lia].
  - intros T0 D Hg HT HD Hu. pose proof (undoable_step _ _ _ _ Hu HD) as Hsafe. cbn in Hu.
    destruct (open_after D f) as [D'|] eqn:Ed; [|done]. apply (Hundos T0 D'); [by apply Hsome|by apply Hundo| |done].
    eapply opened_below; [done|]. by eapply open_after_opened.
Qed.

Lemma xwp_apply_loop rs : forall fs g c, Forall2 (fun r f => effect r = Some f) rs fs -> Forall low_effect fs ->
  xwp (apply_loop rs g) (applied fs g (tab c)) c.
Proof.
  induction rs as [|r rs IH]; intros fs g c Hfs Hlow.
  - apply Forall2_nil_inv_l in Hfs as ->. split; [|done]. intros g' [= <-]. split; [done|]. by exists [].
  - apply Forall2_cons_inv_l in Hfs as (f & fs' & Hf & Hfs & ->). apply Forall_cons in Hlow as [Hlf Hlow].
    cbn [apply_loop]. apply xwp_bind. eapply xwp_mono; [apply (quiet_build_plan r f Hf)|].
    intros [err|plan] c1 [E1 Hplan]; [apply xwp_failed; [done|rewrite E1; eauto]|].
    rewrite <- E1. apply xwp_bind. eapply xwp_mono; [by apply (xwp_execute_plan plan f g c1)|].
    intros [[err|[]] g1] c2 Hc; cbn [fst snd].
    + destruct Hc as (Hsome & Hundo & _). apply xwp_failed; [done|]. intros T0 D HT HD Hu. apply Hundo; [done|]. by eapply undoable_step.
    + eapply xwp_mono; [apply IH; [exact Hfs|exact Hlow]|]. intros out c' Ha. by eapply (applied_cons f fs' g (tab c1) (inr tt, g1) c2); [exact Hlf|exact Hlow|reflexivity|exact Hc|exact Ha].
Qed.
End Tables.

(** * Theorems *)

Section Theorems.
Context {E F : Type} `{Environment E} `{Parameters E} `{ExecEnv E} `{WordLists E} `{DescriptorTable E F} `{!WordsKeepDescriptors E F} `{!Inhabited F}.

Lemma effects_of rs : forall fs, map effect rs = map Some fs -> Forall2 (fun r f => effect r = Some f) rs fs.
Proof. induction rs as [|r rs IH]; intros [|f fs] [=]; constructor; auto. Qed.

Lemma apply_loop_runs rs fs (g : option RedirGuard) (c : XCtx E) : map effect rs = map Some fs -> Forall low_effect fs ->
  exists out c', apply_loop rs g c = Some (out, c') /\ applied fs g (tab c) out c'.
Proof. intros Hfs Hl. apply xwp_run, xwp_apply_loop; [by apply effects_of|done]. Qed.

(** C18: The redirections of a command are undone: [apply_redirects_to_parent] ends; after an
    error the table of descriptors is as it was, and otherwise dropping the guard, whatever the
    command did that left the table alone, gives back the table as it was. It holds where every
    redirection names its descriptors by number, below 50 (no variable, no word to expand to a
    descriptor), none moves a descriptor to another, and each file is opened on a descriptor
    known to be open at that point; for the other two cases the code leaves a descriptor open or
    closed (findings). The system calls behave as POSIX documents them, limits on descriptors
    apart, and the expansion of words ends and leaves the descriptors alone. *)
Theorem redirections_undone rs fs D (c : XCtx E) : map effect rs = map Some fs -> Forall low_effect fs -> opened D (tab c) -> undoable D fs = true ->
  exists r c', apply_redirects_to_parent rs c = Some (r, c')
    /\ match r with inl _ => tab c' = tab c | inr g => forall e, fds e = tab c' -> fds (drop_guard g e) = tab c end.
Proof.
  intros Hfs Hl HD Hu. set (g0 := guard_new (env_option (x_env (shared c)) (bs "varredir_close"))).
  destruct (apply_loop_runs rs fs (Some g0) c Hfs Hl) as (out & c' & Eo & Ha & Hund).
  specialize (Hund (tab c) D ltac:(eauto) ltac:(done) HD Hu).
  destruct out as [err|g]; [exists (inl err), c'|exists (inr (default g0 g)), c']; (split; [unfold apply_redirects_to_parent, asks, ebind, xbind; fold g0; by rewrite Eo|]); [done|].
  destruct (Ha g eq_refl) as [[Hsome _] _]. destruct Hsome as [g' ->]; [eauto|].
  intros e He. apply drop_guard_table. by rewrite He.
Qed.

(** C19: Redirections take effect from left to right: where each names its descriptors by
    number, below 50 (no variable, no word to expand to a descriptor), both
    [apply_redirects_to_parent] and [apply_redirects_to_child] end, and on success every
    descriptor below 50 is as the effects, carried out one after the other on the table, leave
    it, with some new file for each redirection that opens one. The system calls behave as POSIX
    documents them, limits on descriptors apart, and the expansion of words ends and leaves the
    descriptors alone. *)
Theorem redirections_in_order rs fs (c : XCtx E) : map effect rs = map Some fs -> Forall low_effect fs ->
  (exists r c', apply_redirects_to_parent rs c = Some (r, c')
    /\ forall g, r = inr g -> exists news, length news = length fs /\ below (tab c') (fold_left redirected (zip fs news) (tab c)))
  /\ (exists r c', apply_redirects_to_child rs c = Some (r, c')
    /\ (r = inr tt -> exists news, length news = length fs /\ below (tab c') (fold_left redirected (zip fs news) (tab c)))).
Proof.
  intros Hfs Hl. set (g0 := guard_new (env_option (x_env (shared c)) (bs "varredir_close"))). split.
  - destruct (apply_loop_runs rs fs (Some g0) c Hfs Hl) as (out & c' & Eo & Ha & _).
    destruct out as [err|g]; [exists (inl err), c'|exists (inr (default g0 g)), c']; (split; [unfold apply_redirects_to_parent, asks, ebind, xbind; fold g0; by rewrite Eo|]); [done|].
    intros _ _. by destruct (Ha g eq_refl) as [_ ?].
  - destruct (apply_loop_runs rs fs None c Hfs Hl) as (out & c' & Eo & Ha & _).
    destruct out as [err|g]; [exists (inl err), c'|exists (inr tt), c']; (split; [unfold apply_redirects_to_child, ebind, xbind; by rewrite Eo|]); [done|].
    intros _. by destruct (Ha g eq_refl) as [_ ?].
Qed.
End Theorems.

(** * A table to evaluate redirections on *)

(** Files are numbers; opening gives the next.  The options that are set are listed. *)
Record Desk := mkDesk { desk_table : gmap Z Z; desk_next : Z; desk_options : list bytes }.

(** The lowest free descriptor from [min], of the next 64 (there is one then in any
    table used here), or else one above all. *)
Definition lowest (T : gmap Z Z) (min : Z) : option Z := list_find (fun k => T !! k = None) (seqZ min 64) ≫= fun x => Some x.2.
Definition beyond (T : gmap Z Z) (min : Z) : Z := fold_right Z.max min (map fst (map_to_list T)) + 1.

Definition desk_open (e : Desk) : (Z + Z) * Desk :=
  match lowest (desk_table e) 0 with
  | Some fd => (inr fd, mkDesk (<[fd := desk_next e]> (desk_table e)) (desk_next e + 1) (desk_options e))
  | None => (inl EMFILE, e)
  end.
Definition desk_insert (e : Desk) (fd f : Z) : Desk := mkDesk (<[fd := f]> (desk_table e)) (desk_next e) (desk_options e).

#[export] Instance desk_descriptors : Descriptors Desk := {
  fd_open e path flags mode := desk_open e;
  fd_connect e path host service := (inl (bs "connect"), e);
  fd_dup2 e s t := match desk_table e !! s with Some f => (true, desk_insert e t f) | None => (false, e) end;
  fd_close e fd := mkDesk (delete fd (desk_table e)) (desk_next e) (desk_options e);
  fd_dup_from e fd min :=
    match desk_table e !! fd with
    | Some f => let new := default (beyond (desk_table e) min) (lowest (desk_table e) min) in (inr new, desk_insert e new f)
    | None => (inl EBADF, e)
    end;
  fd_pipe e :=
    match desk_open e with
    | (inr r, e1) => match desk_open e1 with (inr w, e2) => (Some (r, w), e2) | (inl _, _) => (None, e) end
    | (inl _, _) => (None, e)
    end;
  fd_write e fd s := e;
  fd_spawn_writer e fd s := (true, e);
  strerror n := [];
}.

Lemma lowest_spec T min fd : lowest T min = Some fd -> min <= fd /\ T !! fd = None /\ forall k, min <= k < fd -> is_Some (T !! k).
Proof.
  unfold lowest. destruct (list_find _ _) as [[i x]|] eqn:Ef; [|done]. cbn. intros [= ->].
  apply list_find_Some in Ef as (Hi & Hx & Hb). apply lookup_seqZ in Hi as [-> Hi]. split; [lia|]. split; [done|].
  intros k Hk. apply not_eq_None_Some. apply (Hb (Z.to_nat (k - min))); [|lia]. apply lookup_seqZ. lia.
Qed.

Lemma beyond_spec T min : min <= beyond T min /\ T !! beyond T min = None.
Proof.
  unfold beyond. set (l := map fst (map_to_list T)). assert (min <= fold_right Z.max min l) as Hmin by (induction l; cbn; lia). split; [lia|].
  apply not_elem_of_dom. intros Hin. assert (fold_right Z.max min l + 1 ∈ l) as Hl.
  { apply elem_of_dom in Hin as [f Hf]. apply elem_of_map_to_list in Hf. by apply (list_elem_of_fmap_2 fst) in Hf. }
  assert (forall k, k ∈ l -> k <= fold_right Z.max min l) as Hall.
  { clear. intros k Hk. induction Hk; cbn; lia. }
  apply Hall in Hl. lia.
Qed.

Lemma desk_open_spec e fd e' : desk_open e = (inr fd, e') ->
  desk_table e !! fd = None /\ (forall k, 0 <= k < fd -> is_Some (desk_table e !! k)) /\ exists f, desk_table e' = <[fd := f]> (desk_table e).
Proof.
  unfold desk_open. destruct (lowest _ 0) as [x|] eqn:El; [|done]. intros [= <- <-].
  apply lowest_spec in El as (_ & ? & ?). eauto.
Qed.
Lemma desk_dup_spec e fd min f : desk_table e !! fd = Some f -> exists new e', fd_dup_from e fd min = (inr new, e')
  /\ min <= new /\ desk_table e !! new = None /\ desk_table e' = <[new := f]> (desk_table e).
Proof.
  intros Hf. cbn. rewrite Hf. eexists _, _. split; [done|]. destruct (lowest _ min) as [x|] eqn:El; cbn.
  - by apply lowest_spec in El as (? & ? & _).
  - by pose proof (beyond_spec (desk_table e) min) as [? ?].
Qed.
Lemma desk_pipe_spec (e : Desk) r w e' : fd_pipe e = (Some (r, w), e') ->
  desk_table e !! r = None /\ (forall k, 0 <= k < r -> is_Some (desk_table e !! k)) /\ desk_table e !! w = None /\ r <> w
  /\ exists f f', desk_table e' = <[w := f']> (<[r := f]> (desk_table e)).
Proof.
  cbn. destruct (desk_open e) as [[x|r1] e1] eqn:E1; [done|]. destruct (desk_open e1) as [[x|w1] e2] eqn:E2; [done|]. intros [= <- <- <-].
  apply desk_open_spec in E1 as (Hr & Hlow & f & Ef). apply desk_open_spec in E2 as (Hw & _ & f' & Ef').
  rewrite Ef in Hw, Ef'. apply lookup_insert_None in Hw as [Hw Hne]. eauto 8.
Qed.

#[export] Instance desk_laws : DescriptorTable Desk Z.
Proof.
  refine {| fds := desk_table; open_lowest e p fl m := desk_open_spec e; dup_from_open := desk_dup_spec; pipe_lowest := desk_pipe_spec |}.
  - cbn. unfold desk_open. intros e path flags mode x e'. by destruct (lowest _ 0); intros [= _ <-].
  - done.
  - by intros e path host service x e' [= _ <-].
  - intros e s t f Hf _. cbn. by rewrite Hf.
  - cbn. intros e s t e'. destruct (_ !! s) as [f|]; [|done]. intros [= <-]. eauto.
  - cbn. intros e s t e'. by destruct (_ !! s) as [f|]; intros [= <-].
  - done.
  - intros e fd min Hn. cbn. rewrite Hn. eauto.
  - cbn. intros e e'. destruct (desk_open e) as [[x|r1] e1]; [by intros [= <-]|]. by destruct (desk_open e1) as [[x|w1] e2]; intros [= <-].
  - done.
  - done.
Defined.

(** No variables; words expand to their texts. *)
#[export] Instance desk_environment : Environment Desk := {
  env_get e n := (None, e);
  env_get_array_indexed e n i := (None, e);
  env_get_array_assoc e n k := (None, e);
  env_kind e n := KUnset;
  env_attr_nameref e n := false;
  env_resolve_nameref e n := Some n;
  env_is_readonly e n := false;
  env_option e n := existsb (bytes_eqb n) (desk_options e);
  env_assign e n v := (None, e);
  env_set_array_indexed e n i v := e;
  env_set_array_assoc e n k v := e;
}.
#[export] Instance desk_parameters : Parameters Desk := {
  env_positional e i := None;
  env_positional_count e := 0%nat;
  env_last_status e := 0;
  env_shell_pid e := 1;
  env_last_async_pid e := None;
  env_get_array e n := None;
}.
#[export] Instance desk_exec_env : ExecEnv Desk := {
  env_set_last_status e s := e; env_set_current_command e s := e; env_push_diagnostic_line e l := e; env_pop_diagnostic_line e := e;
  env_diagnostic_line e := None; env_diagnostic_source_name e := None; env_call_stack_source_name e := None; env_set e n v := e;
  env_unset e n := e; env_exported e n := false; env_export e n := e; env_var_attrs e n := 0; env_set_attr e n a b := e;
  env_set_array e n v := e; env_remove_process_var e n := e; env_push_local_scope e := e; env_pop_local_scope e := e;
  env_push_positionals e l := ([], e); env_pop_positionals e l := e; env_funcname_push e n l s := e; env_funcname_pop e := e;
  env_function_is_readonly e n := false; env_subshell_level e := 0; env_enter_subshell e := e; env_trap_action e k := None;
  env_trap_clear e k := e; env_running_trap e := None; env_set_running_trap e s := e; env_suppress_inherited_exit_trap e := e;
  env_inherited_exit_trap_suppressed e := false; env_pending_signal_take e s := (0, e); env_acknowledge_trapped_signal e s := e;
  env_reap_all e := (0%nat, e);
}.
#[export] Instance desk_words : WordLists Desk := {
  expand_word_list words flags := xret (inr (map s_text words));
  expand_heredoc_string s := xret (inr s);
}.
#[export] Instance desk_words_keep : WordsKeepDescriptors Desk Z.
Proof. split; eauto. Qed.

(** The shell at its start with the given table. *)
Definition desk_context (T : gmap Z Z) : XCtx Desk :=
  mkXCtx (mkLevels 0 0 0 0 0 0 None [] []) None
    (mkShared 0 ∅ ∅ ∅ false false 0 [] [] [] 0 false false (mkDesk T 100 [])).
Definition terminal : gmap Z Z := <[0 := 10]> (<[1 := 11]> (<[2 := 12]> ∅)).

Definition to_word (target : Z) (i : RedirectInstruction) (text : bytes) : Redirect :=
  mkRedirect (RedirectorFd target) 0 i (RedirecteeWord (mkSource text 0 0 0 None)) None None.
Definition to_fd (target : Z) (i : RedirectInstruction) (source : Z) : Redirect := mkRedirect (RedirectorFd target) 0 i (RedirecteeFd source) None None.

(** [>f 2>&1 3<&0 <&-] *)
Definition some_redirections : list Redirect := [to_word 1 OutputDirection (bs "f"); to_fd 2 DuplicatingOutput 1; to_fd 3 DuplicatingInput 0; to_fd 0 CloseThis 0].
Definition some_effects : list Effect := [Opens 1; Copies 1 2; Copies 0 3; Closes 0].

(** The table after a command with these redirections in the parent. *)
Definition after_command (rs : list Redirect) (c : XCtx Desk) : option (gmap Z Z) :=
  match apply_redirects_to_parent rs c with
  | Some (inr g, c') => Some (desk_table (drop_guard g (x_env (shared c'))))
  | _ => None
  end.

Lemma redirections_undone_witness : exists r c', apply_redirects_to_parent some_redirections (desk_context terminal) = Some (r, c')
  /\ match r with inl _ => tab c' = tab (desk_context terminal) | inr g => forall e : Desk, fds e = tab c' -> fds (drop_guard g e) = tab (desk_context terminal) end.
Proof.
  apply (redirections_undone some_redirections some_effects {[0; 1; 2]} (desk_context terminal)).
  - reflexivity.
  - repeat constructor; vm_compute; intros [=].
  - intros k Hk. assert (k = 0 \/ k = 1 \/ k = 2) as [-> | [-> | ->]] by set_solver; (split; [split; done|by eexists]).
  - vm_compute. reflexivity.
Defined.

Lemma redirections_in_order_witness :
  (exists r c', apply_redirects_to_parent some_redirections (desk_context terminal) = Some (r, c')
    /\ forall g, r = inr g -> exists news, length news = 4%nat /\ below (tab c') (fold_left redirected (zip some_effects news) (tab (desk_context terminal))))
  /\ (exists r c', apply_redirects_to_child some_redirections (desk_context terminal) = Some (r, c')
    /\ (r = inr tt -> exists news, length news = 4%nat /\ below (tab c') (fold_left redirected (zip some_effects news) (tab (desk_context terminal))))).
Proof.
  apply (redirections_in_order some_redirections some_effects (desk_context terminal)).
  - reflexivity.
  - repeat constructor; vm_compute; intros [=].
Defined.

(** The table during a command. *)
Definition during_command (rs : list Redirect) (c : XCtx Desk) : option (gmap Z Z) :=
  match apply_redirects_to_child rs c with Some (inr _, c') => Some (desk_table (x_env (shared c'))) | _ => None end.

(** [2>&1 >f] leaves standard error on the terminal, [>f 2>&1] does not. *)
Example order_matters :
  ((fun T => T !! 2) <$> during_command [to_fd 2 DuplicatingOutput 1; to_word 1 OutputDirection (bs "f")] (desk_context terminal)) = Some (Some 11)
  /\ ((fun T => T !! 2) <$> during_command [to_word 1 OutputDirection (bs "f"); to_fd 2 DuplicatingOutput 1] (desk_context terminal)) = Some (Some 100).
Proof. by vm_compute. Qed.

Example redirections_undone_here : after_command some_redirections (desk_context terminal) = Some terminal.
Proof. by vm_compute. Qed.

(** Where the opened file gets the number of the target itself, which was closed, the
    guard saves the file as if it had been there before: [3<f] leaves descriptor 3 open
    after the command. *)
Lemma opened_target_stays : after_command [to_word 3 InputDirection (bs "f")] (desk_context terminal) = Some (<[3 := 100]> terminal).
Proof. by vm_compute. Qed.

(** The guard saves the target of a move and not its source: [3<&0-] leaves descriptor 0
    closed after the command. *)
Lemma moved_source_stays_closed : after_command [to_fd 3 MoveInput 0] (desk_context terminal) = Some (delete 0 terminal).
Proof. by vm_compute. Qed.
