(* ===== verification/Exec.v ===== *)
(** The executor (crates/exec/src/lib.rs, controlflow.rs, function.rs, trap.rs and the
    part of subshell.rs that does not fork): running a command, its control flow with
    the unwinding that [break], [continue], [return], [exit] and aborted lines ask for,
    errexit, the ERR, DEBUG, RETURN, EXIT and signal traps, function definitions and
    calls.  Simple commands, pipelines, background commands, forked subshells and
    coprocesses are the class [ExecParts]. *)
From stdpp Require Import gmap.
From S2P Require Import Prelude Env Expand Pipeline Jobs Lex Ast Parse ExecState Redirect RedirectProps.
From S2P Require Pattern Vars Options BuiltinArgs Param Quote.

#[local] Open Scope exec_scope.

(** * Labels of commands *)

Definition raw_word (w : SourceWord) : bytes := default (s_text w) (s_raw w).
Definition text_of (w : option SourceWord) : bytes := match w with Some w => raw_word w | None => [] end.

Definition default_redirect_fd_for_instruction (i : RedirectInstruction) : Z :=
  match i with
  | InputDirection | InputaDirection | ReadingUntil | ReadingString | DuplicatingInput | DuplicatingInputWord | DeblankReadingUntil
  | InputOutput | MoveInput | MoveInputWord => 0
  | _ => 1
  end.

Definition render_redirect (r : Redirect) : bytes :=
  let op := match instruction r with
    | OutputDirection => ">" | InputDirection | InputaDirection => "<" | AppendingTo => ">>" | ReadingUntil => "<<" | ReadingString => "<<<"
    | DuplicatingInput | DuplicatingInputWord | MoveInput | MoveInputWord => "<&"
    | DuplicatingOutput | DuplicatingOutputWord | MoveOutput | MoveOutputWord => ">&"
    | DeblankReadingUntil => "<<-"
    | CloseThis => match redirector r with RedirectorFd fd => if (fd =? 0)%Z then "<&" else ">&" | RedirectorVar _ => ">&" end
    | ErrAndOut => "&>" | InputOutput => "<>" | OutputForce => ">|" | AppendErrAndOut => "&>>"
    end%string in
  let prefix := match redirector r with
    | RedirectorFd fd => if fd =? default_redirect_fd_for_instruction (instruction r) then [] else i64_to_string fd
    | RedirectorVar name => bs "{" ++ name ++ bs "}"
    end in
  let target := match redirectee r with
    | RedirecteeFd fd => if fd <? 0 then bs "-" else i64_to_string fd
    | RedirecteeWord w => raw_word w
    end in
  prefix ++ bs op ++ bs " " ++ target.

Definition render_simple_command (words : list SourceWord) (redirects trailing : list Redirect) : bytes :=
  Param.join (bs " ") (map raw_word words ++ map render_redirect redirects ++ map render_redirect trailing).

(** The operands the parser always gives are read as empty where they lack. *)
Fixpoint render_cond_command (c : CondCommand) : bytes :=
  let '(mkCond type op lhs rhs term) := c in
  let side o := match o with Some c => render_cond_command c | None => [] end in
  let term_of o := match o with Some c => text_of (cond_leaf_word c) | None => [] end in
  match type with
  | CondAnd => side lhs ++ bs " && " ++ side rhs
  | CondOr => side lhs ++ bs " || " ++ side rhs
  | CondUnary => text_of op ++ bs " " ++ term_of lhs
  | CondBinary => term_of lhs ++ bs " " ++ text_of op ++ bs " " ++ term_of rhs
  | CondTerm => match lhs with Some _ => bs "! " ++ side lhs | None => text_of term end
  | CondExpr => bs "( " ++ side lhs ++ bs " )"
  end.

Definition for_label (name : SourceWord) (map_list : option (list SourceWord)) : bytes :=
  bs "for " ++ raw_word name
  ++ match map_list with Some words => bs " in" ++ concat (map (fun w => bs " " ++ raw_word w) words) | None => [] end.

Definition connector_text (connector : Z) : option string :=
  if connector =? CONN_AND_AND then Some "&&"%string else if connector =? CONN_OR_OR then Some "||"%string
  else if connector =? CONN_PIPE then Some "|"%string else if connector =? CONN_BAR_AND then Some "|&"%string
  else if (connector =? CONN_SEMI) || (connector =? CONN_NEWLINE) then Some ";"%string
  else if connector =? CONN_AMP then Some "&"%string else None.

Fixpoint command_label (c : Command) : bytes :=
  match c with mkCommand data _ _ redirects =>
  match data with
  | CSimple words own => render_simple_command words own redirects
  | CFor name map_list _ _ => for_label name map_list
  | CArith expression => bs "(( " ++ trim (s_text expression) ++ bs " ))"
  | CCond condition => bs "[[ " ++ render_cond_command condition ++ bs " ]]"
  | CSubshell _ _ => bs "( ... )"
  | CGroup _ => bs "{ ...; }"
  | CFunctionDef name _ _ => raw_word name ++ bs " ()"
  | CConnection first second connector =>
      match connector_text connector with
      | Some op => command_label first ++ bs " " ++ bs op ++ bs " " ++ command_label second
      | None => []
      end
  | CIf _ _ _ => bs "if"
  | CWhile _ _ => bs "while"
  | CUntil _ _ => bs "until"
  | CCase word _ _ => bs "case " ++ raw_word word
  | CSelect name _ _ _ => bs "select " ++ raw_word name
  | CArithFor _ _ _ _ => bs "for (( ... ))"
  | CCoproc name _ => match name with Some name => bs "coproc " ++ raw_word name | None => bs "coproc" end
  end end.

(** * Kinds of commands *)

Definition is_pipe (connector : Z) : bool := (connector =? CONN_PIPE) || (connector =? CONN_BAR_AND).

Definition redirect_targets_stdin (r : Redirect) : bool := match redirector r with RedirectorFd fd => fd =? 0 | RedirectorVar _ => false end.

Fixpoint command_redirects_stdin (c : Command) : bool :=
  match c with mkCommand data _ _ redirects =>
    existsb redirect_targets_stdin redirects
    || match data with
       | CSimple _ own => existsb redirect_targets_stdin own
       | CConnection first _ connector => is_pipe connector && command_redirects_stdin first
       | _ => false
       end
  end.

Definition redirection_error_runs_err_trap (data : CommandData) : bool :=
  match data with
  | CFor _ _ _ _ | CWhile _ _ | CUntil _ _ | CArithFor _ _ _ _ | CSelect _ _ _ _ | CCase _ _ _ | CGroup _ | CSubshell _ _ => true
  | _ => false
  end.

Definition is_pipeline_command (c : Command) : bool :=
  match command_data c with CConnection _ _ connector => is_pipe connector | _ => false end.

(** The word of a simple command that names it. *)
Definition command_word (words : list SourceWord) : option SourceWord := find (fun w => negb (has (s_flags w) W_ASSIGNMENT)) words.

Definition child_command_can_exec_direct (c : Command) : bool :=
  match command_data c with CSimple _ _ => (Z.land (command_flags c) (Z.lor CMD_INVERT_RETURN CMD_TIME_PIPELINE) =? 0) | _ => false end.

Fixpoint collect_async_chain (c : Command) : list Command :=
  match c with mkCommand data _ _ _ =>
    match data with
    | CConnection first second connector => if connector =? CONN_AMP then collect_async_chain first ++ collect_async_chain second else [c]
    | _ => [c]
    end
  end.

Fixpoint collect_pipeline (first : Command) : list Command :=
  match first with mkCommand data _ _ _ =>
    match data with
    | CConnection f s connector => if is_pipe connector then collect_pipeline f ++ [s] else [first]
    | _ => [first]
    end
  end.

Definition CMD_IGNORE_RETURN : Z := 2 ^ 3.

(** Commands whose failure alone does not end a shell with errexit. *)
Definition errexit_ignores (data : CommandData) : bool :=
  match data with
  | CIf _ _ _ | CWhile _ _ | CUntil _ _ | CFunctionDef _ _ _ => true
  | CConnection _ _ connector =>
      (connector =? CONN_AND_AND) || (connector =? CONN_OR_OR) || (connector =? CONN_SEMI) || (connector =? CONN_NEWLINE) || (connector =? CONN_AMP)
  | _ => false
  end.

(** Commands whose failure runs the ERR trap here; simple commands run it themselves. *)
Definition runs_err_trap (data : CommandData) : bool :=
  match data with
  | CSubshell _ _ | CArith _ | CCond _ | CFor _ _ _ _ | CWhile _ _ | CUntil _ _ | CArithFor _ _ _ _ | CSelect _ _ _ _ | CCase _ _ _ | CGroup _ => true
  | CConnection _ _ connector => is_pipe connector
  | _ => false
  end.

(** * Lines *)

Definition line_max : Z := 2 ^ 32 - 1.
Definition add_line (delta line : Z) : Z := Z.min line_max (line + delta).

(** A function of the line numbers of a command and of those inside; the second and
    third are for the lines of [for], [case] and [select], and of a function definition. *)
Fixpoint map_lines (f g h : Z -> Z) (c : Command) : Command :=
  match c with mkCommand data flags line redirects =>
  let go := map_lines f g h in
  mkCommand
    match data with
    | CFor name map_list action l => CFor name map_list (go action) (g l)
    | CCase word clauses l => CCase word (map (fun '(patterns, action, flags) => (patterns, option_map go action, flags)) clauses) (g l)
    | CWhile test action => CWhile (go test) (go action)
    | CUntil test action => CUntil (go test) (go action)
    | CIf test true_case false_case => CIf (go test) (go true_case) (option_map go false_case)
    | CConnection first second connector => CConnection (go first) (go second) connector
    | CFunctionDef name command l => CFunctionDef name (go command) (h l)
    | CGroup command => CGroup (go command)
    | CSelect name map_list action l => CSelect name map_list (go action) (g l)
    | CArithFor init test step action => CArithFor init test step (go action)
    | CSubshell command flags => CSubshell (go command) flags
    | CCoproc name command => CCoproc name (go command)
    | CSimple _ _ | CArith _ | CCond _ => data
    end flags (f line) redirects
  end.

Definition adjust_line (delta line : Z) : Z := if 0 <? line then Z.max 1 (Z.max 0 (line - delta)) else line.
Definition relativize_command_lines (delta : Z) : Command -> Command := map_lines (adjust_line delta) (adjust_line delta) (adjust_line delta).
Definition offset_line (delta line : Z) : Z := if 0 <? line then add_line delta line else line.
Definition offset_command_lines (delta : Z) : Command -> Command := map_lines (offset_line delta) (offset_line delta) (fun line => line).

(** * What is not modelled

    Each part that runs commands gets the executor ([execute_command_inner]).  The
    arithmetic of [((..))] and the patterns of [case] are expanded with the runner of the
    executor; [special_builtin] asks the registry of builtins. *)
Class ExecParts (E : Type) := {
  simple_execute : (Command -> ExecMode -> bool -> X E Z) -> list SourceWord -> list Redirect -> Z -> ExecMode -> X E Z;
  pipeline_execute : (Command -> ExecMode -> bool -> X E Z) -> list Command -> bool -> X E Z;
  spawn_background : (Command -> ExecMode -> bool -> X E Z) -> Command -> X E Z;
  forked_subshell : (Command -> ExecMode -> bool -> X E Z) -> Command -> X E Z;
  coproc_execute : (Command -> ExecMode -> bool -> X E Z) -> option SourceWord -> Command -> X E Z;
  cond_evaluate : CondCommand -> X E Z;
  arith_expand : bytes -> X E (ExpandError + Z);
  arith_expand_with_text : bytes -> X E (ExpandError + bytes * Z);
  case_pattern_expand : SourceWord -> X E (ExpandError + bytes);
  xtrace_line : bytes -> X E unit;
  read_select_line : E -> option bytes * E;
  special_builtin : bytes -> bool;
}.

Section Exec.
Context {E : Type} `{Environment E} `{Parameters E} `{ExecEnv E} `{WordLists E} `{Descriptors E} `{ExecParts E}.

(** [execute_command_inner], tied at the end, and the rounds a loop may take. *)
Context (run : Command -> ExecMode -> bool -> X E Z) (rounds : nat).

Definition execute_command (c : Command) (mode : ExecMode) : X E Z := run c mode false.
Definition execute_function_body_command (c : Command) (mode : ExecMode) : X E Z := run c mode true.

Definition option_set (name : string) : X E bool := asks (fun e => env_option e (bs name)).
Definition status_now : X E Z := ask (fun c => last_status (shared c)).
Definition set_status (s : Z) : X E unit := on_shared (with_last_status s).
Definition set_env_status (s : Z) : X E unit := on_env (fun e => env_set_last_status e s).

(** Steps one after the other, for each element. *)
Fixpoint xeach {A} (f : A -> X E unit) (l : list A) : X E unit := match l with [] => xret tt | a :: l => f a ==;; xeach f l end.
Definition xtimes (n : nat) (m : X E unit) : X E unit := xeach (fun _ : nat => m) (seq 0 n).
Definition xdrop {A} (m : X E A) : X E unit := m ==;; xret tt.

(** A change of the counters, and the way back. *)
Definition around {A} (up down : Levels -> Levels) (m : X E A) : X E A := on_levels up ==;; a <== m ;; on_levels down ==;; xret a.
Definition suppressing_errexit {A} : X E A -> X E A := around (add_errexit 1) (add_errexit (-1)).
Definition in_loop {A} : X E A -> X E A := around (add_loop 1) (add_loop (-1)).
Definition with_abort_line_boundary {A} : X E A -> X E A := around (add_abort 1) (add_abort (-1)).
Definition at_trap_base {A} (m : X E A) : X E A :=
  saved <== ask (fun c => trap_base_function_depth (levels c)) ;;
  around (fun l => with_trap_base (Some (function_depth l)) l) (with_trap_base saved) m.

(** * Traps *)

Definition RUNNING_DEBUG_TRAP : Z := -1.
Definition RUNNING_ERR_TRAP : Z := -2.
Definition RUNNING_RETURN_TRAP : Z := -3.
Definition RUNNING_EXIT_TRAP : Z := -4.
Definition NSIG : Z := 64.
Definition SIGCHLD : Z := 17.

(** [None] where the text does not parse. *)
Definition parse_trap_body (e : E) (source : bytes) (offset_lines : bool) : option (option Command) :=
  match parse_text (env_option e (bs "extglob")) (env_option e (bs "posix")) true source with
  | Fuel => None
  | Ok (Some root) =>
      Some (Some (match env_diagnostic_line e with
                  | Some line => if offset_lines then offset_command_lines (Z.max 0 (line - 1)) root else root
                  | None => root
                  end))
  | Ok None | Err _ => Some None
  end.

(** The status of a trap's body, and whether the status before it is to be restored. *)
Definition trap_outcome (saved_status status : Z) : X E (Z * bool) := fun c =>
  match pending c with
  | Some (UReturn s _) =>
      if s =? -1 then Some ((saved_status, true), mkXCtx (levels c) None (shared c))
      else if bool_decide (trap_base_function_depth (levels c) = Some 0) && (function_depth (levels c) =? 0)
      then Some ((s, false), mkXCtx (levels c) None (shared c))
      else Some ((status, true), c)
  | _ => Some ((status, true), c)
  end.

Definition run_trap_body_with_line_offset (sig : Z) (body : bytes) (offset_lines : bool) : X E (option Z) :=
  if is_nil body then xret (Some 0)
  else
    saved_trap <== asks env_running_trap ;;
    on_env (fun e => env_set_running_trap e (Some sig)) ==;;
    status <== at_trap_base
      (saved_status <== status_now ;;
       saved_pipestatus <== asks (fun e => env_get_array e (bs "PIPESTATUS")) ;;
       ast <== asks (fun e => parse_trap_body e body offset_lines) ;;
       status <== match ast with
                  | None => no_fuel
                  | Some (Some root) => execute_command root Parent
                  | Some None => xret 2
                  end ;;
       outcome <== trap_outcome saved_status status ;;
       let final := if outcome.2 : bool then saved_status else outcome.1 in
       set_status final ==;; set_env_status final ==;;
       match saved_pipestatus with Some values => on_env (fun e => env_set_array e (bs "PIPESTATUS") values) | None => xret tt end ==;;
       xret outcome.1) ;;
    on_env (fun e => env_set_running_trap e saved_trap) ==;;
    xret (Some status).

Definition run_trap_body (sig : Z) (body : bytes) : X E (option Z) := run_trap_body_with_line_offset sig body true.

(** The body of a trap, when one is set. *)
Definition with_trap (kind : TrapKind) (k : bytes -> X E (option Z)) : X E (option Z) :=
  action <== asks (fun e => env_trap_action e kind) ;;
  match action with Some (ActionCommand body) => k body | _ => xret None end.

Definition run_debug_trap : X E (option Z) :=
  running <== asks env_running_trap ;;
  if bool_decide (running = Some RUNNING_DEBUG_TRAP) then xret None else with_trap TrapDebug (run_trap_body RUNNING_DEBUG_TRAP).

Definition run_err_trap : X E (option Z) :=
  running <== asks env_running_trap ;;
  match running with Some _ => xret None | None => with_trap TrapErr (run_trap_body RUNNING_ERR_TRAP) end.

Definition run_return_trap : X E (option Z) :=
  running <== asks env_running_trap ;;
  if bool_decide (running = Some RUNNING_RETURN_TRAP) || bool_decide (running = Some RUNNING_DEBUG_TRAP) then xret None
  else with_trap TrapReturn (run_trap_body RUNNING_RETURN_TRAP).

Definition run_exit_trap : X E (option Z) :=
  suppressed <== asks env_inherited_exit_trap_suppressed ;;
  if suppressed : bool then xret None
  else
    with_trap TrapExit (fun body =>
      on_env (fun e => env_trap_clear e TrapExit) ==;;
      saved_status <== status_now ;;
      saved_pending <== ask pending ;;
      unwind None ==;;
      ran <== run_trap_body_with_line_offset RUNNING_EXIT_TRAP body false ;;
      now <== ask pending ;;
      match ran, now with
      | None, _ => unwind saved_pending ==;; xret None
      | Some _, Some (UExit status) => unwind None ==;; xret (Some status)
      | Some _, _ => unwind saved_pending ==;; set_status saved_status ==;; set_env_status saved_status ==;; xret None
      end).

Definition handle_signal (sig : Z) (count : nat) : X E unit :=
  if sig =? SIGCHLD then
    reaped <== with_env env_reap_all ;;
    if (reaped =? 0)%nat then xret tt
    else xdrop (with_trap (TrapNumeric SIGCHLD) (fun body => xtimes reaped (xdrop (run_trap_body sig body)) ==;; xret None))
  else
    xdrop (with_trap (TrapNumeric sig) (fun body =>
      on_env (fun e => env_acknowledge_trapped_signal e sig) ==;; xtimes count (xdrop (run_trap_body sig body)) ==;; xret None)).

Definition run_pending_traps : X E unit :=
  running <== asks env_running_trap ;;
  match running with
  | Some _ => xret tt
  | None =>
      xeach (fun sig =>
        count <== with_env (fun e => env_pending_signal_take e sig) ;;
        if count =? 0 then xret tt else handle_signal sig (Z.to_nat count)) (seqZ 1 (NSIG - 1))
  end.

Definition debug_trap_in_scope (mode : ExecMode) (c : XCtx E) : bool :=
  bool_decide (mode = Parent) && negb (suppress_debug_traps (shared c))
  && (((function_depth (levels c) =? 0) && (source_depth (levels c) =? 0)) || env_option (x_env (shared c)) (bs "functrace")
      || default false (last (debug_trap_scopes (shared c)))).

Definition run_debug_trap_for_command (mode : ExecMode) : X E (option Z) :=
  in_scope <== ask (debug_trap_in_scope mode) ;;
  if in_scope : bool then run_debug_trap else xret None.

Definition run_sigchld_trap_once : X E unit :=
  running <== asks env_running_trap ;;
  match running with Some _ => xret tt | None => xdrop (with_trap (TrapNumeric SIGCHLD) (run_trap_body SIGCHLD)) end.

Definition run_signal_trap (sig : Z) : X E (option Z) :=
  running <== asks env_running_trap ;;
  match running with
  | Some _ => xret None
  | None =>
      action <== asks (fun e => env_trap_action e (TrapNumeric sig)) ;;
      match action with Some (ActionCommand body) => run_trap_body sig body | Some ActionIgnore => xret (Some 0) | _ => xret None end
  end.

(** * Unwinding through loops *)

(** Whether the loop ends. *)
Definition handle_loop_unwind : X E bool := fun c =>
  let with_pending u := mkXCtx (levels c) u (shared c) in
  match pending c with
  | Some (UBreak n) => Some (true, with_pending (if n =? 1 then None else Some (UBreak (u32 (n - 1)))))
  | Some (UContinue n) => if n =? 1 then Some (false, with_pending None) else Some (true, with_pending (Some (UContinue (u32 (n - 1)))))
  | Some (UAbortLine _) | Some (UReturn _ _) | Some (UExit _) => Some (true, c)
  | None => Some (false, c)
  end.

Inductive LoopConditionUnwind := Proceed | Continue | Break.

Definition handle_loop_condition_unwind (invert : bool) : X E LoopConditionUnwind := fun c =>
  let with_pending u := mkXCtx (levels c) u (shared c) in
  match pending c with
  | Some (UBreak n) => Some (Break, with_pending (if n =? 1 then None else Some (UBreak (u32 (n - 1)))))
  | Some (UContinue n) =>
      if n =? 1 then Some (if invert then Proceed else Continue, with_pending None)
      else Some (Break, with_pending (Some (UContinue (u32 (n - 1)))))
  | Some (UAbortLine _) | Some (UReturn _ _) | Some (UExit _) => Some (Break, c)
  | None => Some (Proceed, c)
  end.

Definition exits (status : Z) : X E Z := unwind (Some (UExit status)) ==;; xret status.

(** [k], unless something is pending: then the value given, or the last status. *)
Definition unless_pending (status : Z) (k : X E Z) : X E Z := xif is_pending (xret status) k.
Definition or_last (k : X E Z) : X E Z := xif is_pending status_now k.

(** * Lists, [if] and loops *)

Definition simple_special_has_redirects (c : Command) : bool :=
  match c with mkCommand data _ _ redirects =>
    match data with
    | CSimple words own =>
        negb (is_nil redirects && is_nil own)
        && match command_word words with Some w => special_builtin (s_text w) | None => false end
    | _ => false
    end
  end.

Definition posix_special_redirection_failure (c : Command) (status : Z) : X E bool :=
  posix <== option_set "posix" ;; xret (negb (status =? 0) && posix && simple_special_has_redirects c).

(** [&&] where [wanted] holds of the status 0, [||] where it holds of the others. *)
Definition and_or (wanted : Z -> bool) (first second : Command) (mode : ExecMode) : X E Z :=
  status <== suppressing_errexit (execute_command first mode) ;;
  failure <== posix_special_redirection_failure first status ;;
  if failure : bool then exits status
  else unless_pending status (if wanted status then execute_command second mode else xret status).

Definition seq_commands (first second : Command) (mode : ExecMode) : X E Z :=
  execute_command first mode ==;; or_last (execute_command second mode).

(** An aborted line is over at the line feed. *)
Definition newline_commands (first second : Command) (mode : ExecMode) : X E Z :=
  execute_command first mode ==;;
  aborted <== ask (fun c => match pending c with
                            | Some (UAbortLine status) => if abort_line_depth (levels c) =? 0 then Some status else None
                            | _ => None
                            end) ;;
  match aborted with
  | Some status => unwind None ==;; set_status status ==;; set_env_status status ==;; execute_command second mode
  | None => or_last (execute_command second mode)
  end.

Fixpoint async_commands (l : list Command) (k : X E Z) : X E Z :=
  match l with [] => k | c :: l => spawn_background run c ==;; or_last (async_commands l k) end.

(** [first & second]: of a list only the last command is put in the background. *)
Fixpoint amp_commands (first second : Command) (mode : ExecMode) : X E Z :=
  let alone := spawn_background run first ==;; execute_command second mode in
  match first with mkCommand data _ _ _ =>
    match data with
    | CConnection lf ls connector =>
        if connector =? CONN_AMP then async_commands (collect_async_chain first) (execute_command second mode)
        else if (connector =? CONN_SEMI) || (connector =? CONN_NEWLINE) then execute_command lf mode ==;; or_last (amp_commands ls second mode)
        else alone
    | _ => alone
    end
  end.

Definition execute_connection (first second : Command) (connector : Z) (mode : ExecMode) : X E Z :=
  if connector =? CONN_AND_AND then and_or (fun s => s =? 0) first second mode
  else if connector =? CONN_OR_OR then and_or (fun s => negb (s =? 0)) first second mode
  else if connector =? CONN_SEMI then seq_commands first second mode
  else if connector =? CONN_NEWLINE then newline_commands first second mode
  else if connector =? CONN_AMP then amp_commands first second mode
  else if is_pipe connector then pipeline_execute run (collect_pipeline first ++ [second]) (connector =? CONN_BAR_AND)
  else xret 2.

Definition execute_if (test true_case : Command) (false_case : option Command) (mode : ExecMode) : X E Z :=
  status <== suppressing_errexit (execute_command test mode) ;;
  unless_pending status
    (if status =? 0 then execute_command true_case mode
     else match false_case with Some c => execute_command c mode | None => xret 0 end).

Fixpoint while_loop (fuel : nat) (test action : Command) (mode : ExecMode) (invert : bool) (status : Z) : X E Z :=
  match fuel with
  | O => no_fuel
  | S fuel =>
      test_status <== suppressing_errexit (execute_command test mode) ;;
      verdict <== handle_loop_condition_unwind invert ;;
      match verdict with
      | Break => xret status
      | Continue => while_loop fuel test action mode invert status
      | Proceed =>
          if Bool.eqb (test_status =? 0) invert then xret status
          else
            status <== execute_command action mode ;;
            over <== handle_loop_unwind ;;
            if over : bool then xret status else while_loop fuel test action mode invert status
      end
  end.

Definition execute_while_or_until (test action : Command) (mode : ExecMode) (invert : bool) : X E Z :=
  in_loop (while_loop rounds test action mode invert 0).

Definition expansion_error_exit_status (err : ExpandError) : option Z :=
  match err with
  | ExitShell status => Some status
  | UnboundVariable _ | UnboundColonError _ _ => Some 1
  | _ => None
  end.

(** [$1], [$2], ... *)
Fixpoint positionals_from (fuel : nat) (e : E) (i : nat) : list bytes :=
  match fuel with
  | O => []
  | S fuel => match env_positional e i with Some p => p :: positionals_from fuel e (S i) | None => [] end
  end.
Definition positionals (e : E) : list bytes := positionals_from (env_positional_count e) e 1.

Definition nameref_loop_target_is_valid (value : bytes) : bool := BuiltinArgs.is_valid_name value || bool_decide (is_Some (BuiltinArgs.array_reference value)).

Definition assign_for_value (name value : bytes) (e : E) : option AssignError * E :=
  if negb (has (env_var_attrs e name) Vars.NAMEREF) then env_assign e name value
  else if env_is_readonly e name then (Some (ReadOnly name), e)
  else if negb (nameref_loop_target_is_valid value) then (Some (InvalidName value), e)
  else
    match env_assign (env_set_attr e name Vars.NAMEREF false) name value with
    | (None, e) => (None, env_set_attr e name Vars.NAMEREF true)
    | (err, e) => (err, e)
    end.

(** A failed assignment of the variable of a loop. *)
Definition loop_assignment_failed (err : AssignError) : X E unit :=
  posix <== option_set "posix" ;;
  match err with ReadOnly _ => if posix : bool then unwind (Some (UExit 1)) else xret tt | _ => xret tt end.

Definition trace_for (name : SourceWord) (map_list : option (list SourceWord)) : X E unit :=
  xtrace_line (bs "for " ++ s_text name ++ bs " in "
    ++ match map_list with Some words => Param.join (bs " ") (map s_text words) | None => [dquote] ++ bs "$@" ++ [dquote] end).

Fixpoint for_loop (items : list bytes) (name : SourceWord) (map_list : option (list SourceWord)) (action : Command) (mode : ExecMode) (status : Z) : X E Z :=
  match items with
  | [] => xret status
  | item :: items =>
      running <== asks env_running_trap ;;
      xwhen (bool_decide (running = None)) (on_env (fun e => env_set_current_command e (Some (for_label name map_list)))) ==;;
      debug <== run_debug_trap_for_command mode ;;
      extdebug <== option_set "extdebug" ;;
      if bool_decide (debug = Some 2) && extdebug then for_loop items name map_list action mode status
      else
        trace_for name map_list ==;;
        err <== with_env (assign_for_value (s_text name) item) ;;
        match err with
        | Some err => loop_assignment_failed err ==;; xret status
        | None =>
            status <== execute_command action mode ;;
            over <== handle_loop_unwind ;;
            if over : bool then xret status else for_loop items name map_list action mode status
        end
  end.

(** A loop whose variable has no name. *)
Definition invalid_loop_name : X E Z := posix <== option_set "posix" ;; xwhen posix (unwind (Some (UExit 1))) ==;; xret 1.

Definition execute_for (name : SourceWord) (map_list : option (list SourceWord)) (action : Command) (mode : ExecMode) : X E Z :=
  if negb (BuiltinArgs.is_valid_name (s_text name)) then invalid_loop_name
  else in_loop
    (match map_list with
     | None => items <== asks positionals ;; for_loop items name map_list action mode 0
     | Some words =>
         r <== try_expand_words words ;;
         match r with
         | inr items => for_loop items name map_list action mode 0
         | inl err =>
             match expansion_error_exit_status err with
             | Some status => exits status
             | None => for_loop (map s_text words) name map_list action mode 0
             end
         end
     end).

(** The line feeds at the end of a reply. *)
Definition trim_line_end (s : bytes) : bytes := rev (let fix go s := match s with b :: r => if (b =? 10) || (b =? 13) then go r else s | [] => [] end in go (rev s)).

Definition selected_item (items : list bytes) (reply : bytes) : bytes :=
  match parse_usize reply with Some (S n) => default [] (items !! n) | _ => [] end.

Fixpoint select_loop (fuel : nat) (items : list bytes) (name : SourceWord) (action : Command) (mode : ExecMode) (status : Z) : X E Z :=
  match fuel with
  | O => no_fuel
  | S fuel =>
      if is_nil items then xret status
      else
        with_env (fun e => env_get e (bs "PS3")) ==;;
        line <== with_env read_select_line ;;
        match line with
        | None => xret status
        | Some line =>
            let reply := trim_line_end line in
            on_env (fun e => env_set e (bs "REPLY") reply) ==;;
            err <== with_env (fun e => env_assign e (s_text name) (selected_item items reply)) ;;
            match err with
            | Some err => loop_assignment_failed err ==;; xret status
            | None =>
                status <== execute_command action mode ;;
                over <== handle_loop_unwind ;;
                if over : bool then xret status else select_loop fuel items name action mode status
            end
        end
  end.

Definition execute_select (name : SourceWord) (map_list : option (list SourceWord)) (action : Command) (mode : ExecMode) : X E Z :=
  if negb (BuiltinArgs.is_valid_name (s_text name)) then invalid_loop_name
  else
    items <== match map_list with Some words => expand_words words | None => asks positionals end ;;
    in_loop (select_loop rounds items name action mode 0).

(** * Arithmetic [for] *)

Definition balance (s : bytes) : Z := fold_left (fun n b => if b =? "("%b then n + 1 else if b =? ")"%b then n - 1 else n) s 0.

(** Closing parentheses too many, dropped from the end. *)
Fixpoint drop_closing (fuel : nat) (s : bytes) : bytes :=
  match fuel with
  | O => s
  | S fuel => if (balance s <? 0) && ends_with (bs ")") s then drop_closing fuel (trim_end (take (length s - 1) s)) else s
  end.

Definition sanitize_arith_for_expr (text : bytes) : bytes :=
  let trimmed := trim text in
  if bool_decide (is_Some (find_sub (bs "$(") trimmed)) || bool_decide (is_Some (find_sub (bs "${") trimmed)) then trimmed
  else drop_closing (length trimmed) trimmed.

Definition eval_arith_word (word : SourceWord) : X E (option Z) :=
  r <== arith_expand (sanitize_arith_for_expr (s_text word)) ;; xret (match r with inr v => Some v | inl _ => None end).

Definition trace_arith_for_word (word : SourceWord) : X E unit := xtrace_line (bs "(( " ++ trim_start (raw_word word) ++ bs " ))").

(** Whether the test lets the loop go on. *)
Definition arith_for_test (test : option SourceWord) (mode : ExecMode) : X E bool :=
  match test with
  | None => xret true
  | Some test =>
      run_debug_trap_for_command mode ==;; trace_arith_for_word test ==;;
      v <== suppressing_errexit (eval_arith_word test) ;;
      stop <== ask is_pending ;;
      xret (negb (default 0 v =? 0) && negb stop)
  end.

Fixpoint arith_for_loop (fuel : nat) (test step : option SourceWord) (action : Command) (mode : ExecMode) (status : Z) : X E Z :=
  match fuel with
  | O => no_fuel
  | S fuel =>
      go <== arith_for_test test mode ;;
      if negb go then xret status
      else
        status <== execute_command action mode ;;
        over <== handle_loop_unwind ;;
        if over : bool then xret status
        else
          match step with
          | None => arith_for_loop fuel test step action mode status
          | Some word =>
              run_debug_trap_for_command mode ==;; trace_arith_for_word word ==;;
              v <== eval_arith_word word ;;
              match v with Some _ => arith_for_loop fuel test step action mode status | None => xret 1 end
          end
  end.

Definition execute_arith_for (init test step : option SourceWord) (action : Command) (mode : ExecMode) : X E Z :=
  ok <== match init with
         | Some init => trace_arith_for_word init ==;; v <== eval_arith_word init ;; xret (bool_decide (is_Some v))
         | None => xret true
         end ;;
  if ok : bool then in_loop (arith_for_loop rounds test step action mode 0) else xret 1.

(** * [case] *)

(** The status of an error in a pattern, or whether one matches. *)
Fixpoint pattern_list_matches (patterns : list SourceWord) (value : bytes) (opts : Pattern.GlobOpts) : X E (Z + bool) :=
  match patterns with
  | [] => xret (inr false)
  | pat :: patterns =>
      r <== case_pattern_expand pat ;;
      match r with
      | inl _ => xret (inl 1)
      | inr expanded => if Pattern.fnmatch expanded (Quote.value_bytes value) opts then xret (inr true) else pattern_list_matches patterns value opts
      end
  end.

Definition case_opts (e : E) : Pattern.GlobOpts :=
  Pattern.mkOpts (env_option e (bs "nocasematch")) (env_option e (bs "extglob")) (env_option e (bs "globasciiranges")).

Definition run_clause (action : option Command) (mode : ExecMode) (status : Z) : X E Z :=
  match action with Some action => execute_command action mode | None => xret status end.

Fixpoint case_loop (clauses : list (list SourceWord * option Command * Z)) (value : bytes) (mode : ExecMode) (matched : bool) (status : Z) : X E Z :=
  match clauses with
  | [] => xret status
  | (patterns, action, flags) :: clauses =>
      if matched then
        status <== run_clause action mode status ;;
        if has flags CASEPAT_FALLTHROUGH then case_loop clauses value mode true status else xret status
      else
        opts <== asks case_opts ;;
        r <== pattern_list_matches patterns value opts ;;
        match r with
        | inl status => xret status
        | inr false => case_loop clauses value mode false status
        | inr true =>
            status <== run_clause action mode status ;;
            if has flags CASEPAT_FALLTHROUGH then case_loop clauses value mode true status
            else if has flags CASEPAT_TESTNEXT then case_loop clauses value mode false status
            else xret status
        end
  end.

Definition execute_case (word : SourceWord) (clauses : list (list SourceWord * option Command * Z)) (mode : ExecMode) : X E Z :=
  let matching value := xtrace_line (bs "case " ++ value ++ bs " in") ==;; case_loop clauses value mode false 0 in
  r <== try_expand_one word ;;
  match r with
  | inr value => matching value
  | inl err => match expansion_error_exit_status err with Some status => exits status | None => matching (s_text word) end
  end.

(** * Functions *)

Definition definition_source (e : E) : bytes :=
  let first_of a b := default (bs "main") (match a with Some s => Some s | None => b end) in
  if env_option e (bs "interactive") then first_of (env_call_stack_source_name e) (env_diagnostic_source_name e)
  else first_of (env_diagnostic_source_name e) (env_call_stack_source_name e).

(** [char::is_whitespace] by its width. *)
Fixpoint no_function_name_byte (s : bytes) : bool :=
  match s with
  | [] => true
  | b :: r => negb (bool_decide (b ∈ bs "$<>();&|") || (0 <? Z.of_nat (ws_width s))) && no_function_name_byte r
  end.
Definition valid_bash_function_name (name : bytes) : bool := negb (is_nil name) && no_function_name_byte name.

Definition body_line (def_line : Z) (current : option Z) : Z :=
  match current with
  | Some current_line => if 0 <? def_line then Z.max 1 (Z.max 0 (current_line - Z.max 0 (def_line - 2))) else Z.max def_line current_line
  | None => Z.max def_line 0
  end.

Definition function_body (command : Command) (def_line : Z) (e : E) : Command :=
  let relativize := env_option e (bs "interactive") && (0 <? def_line) in
  let body := if line_of command =? 0
    then mkCommand (command_data command) (command_flags command) (body_line def_line (env_diagnostic_line e)) (command_redirects command)
    else command in
  if relativize then relativize_command_lines (Z.max 0 (line_of body - 1)) body else body.

Definition define (name : SourceWord) (command : Command) (def_line : Z) : X E Z :=
  let n := s_text name in
  if negb (valid_bash_function_name n) then xret 2
  else
    posix <== option_set "posix" ;;
    if posix && special_builtin n then exits 2
    else
      readonly <== asks (fun e => env_function_is_readonly e n) ;;
      if readonly : bool then xret 1
      else
        on_shared (fun s =>
          with_functions (<[n := function_body command def_line (x_env s)]> (functions s)) (<[n := definition_source (x_env s)]> (function_sources s)) s) ==;;
        xret 0.

Definition apply_assignments (assignments : list (bytes * bytes)) : X E unit :=
  xeach (fun '(k, v) => on_env (fun e => env_export (env_set e k v) k)) assignments.

Definition assignment_storage_name (e : E) (name : bytes) : bytes :=
  match env_resolve_nameref e name with Some target => if is_nil target then name else target | None => name end.

Record PrefixAssignmentSnapshot := mkPrefix { p_key : bytes; p_value : option bytes; p_exported : bool; p_attrs : Z }.

Definition snapshot_prefix (k : bytes) : X E PrefixAssignmentSnapshot :=
  key <== asks (fun e => assignment_storage_name e k) ;;
  value <== with_env (fun e => env_get e key) ;;
  asks (fun e => mkPrefix key value (env_exported e key) (env_var_attrs e key)).

Fixpoint snapshot_prefixes (assignments : list (bytes * bytes)) : X E (list PrefixAssignmentSnapshot) :=
  match assignments with
  | [] => xret []
  | (k, _) :: rest => p <== snapshot_prefix k ;; l <== snapshot_prefixes rest ;; xret (p :: l)
  end.

Definition restore_prefix (p : PrefixAssignmentSnapshot) (e : E) : E :=
  let key := p_key p in
  let e := env_set_attr e key Vars.READONLY false in
  match p_value p with
  | None => env_unset e key
  | Some v =>
      let e := env_set_attr (env_set e key v) key Vars.READONLY (has (p_attrs p) Vars.READONLY) in
      if p_exported p then env_export e key else env_remove_process_var (env_set_attr e key Vars.EXPORT false) key
  end.

Definition noted (name : bytes) (call_id : Z) (l : list (bytes * Z)) : bool := existsb (fun '(n, c) => bytes_eqb n name && (c =? call_id)) l.

(** Called where a special builtin keeps an assignment, for every call under way. *)
Definition mark_posix_special_assignment_persisted (name : bytes) : X E unit :=
  stack <== ask (fun c => function_call_stack (levels c)) ;;
  on_shared (fun s =>
    let marked := fold_left (fun l id => if noted name id l then l else l ++ [(name, id)]) stack (posix_special_assignment_persisted s) in
    with_call_records (next_function_call_id s) marked (explicit_function_exports s) s).

Definition restore_prefixes (call_id : Z) (l : list PrefixAssignmentSnapshot) : X E unit :=
  xeach (fun p =>
    xif (fun c => noted (p_key p) call_id (posix_special_assignment_persisted (shared c)) || noted (p_key p) call_id (explicit_function_exports (shared c)))
      (xret tt) (on_env (restore_prefix p))) l.

Definition without_call (call_id : Z) (l : list (bytes * Z)) : list (bytes * Z) := filter (fun x => x.2 <> call_id) l.

(** A [return] ends here: the status, and what the RETURN trap is to see. *)
Definition returned (status : Z) : X E (Z * option Z) := fun c =>
  match pending c with
  | Some (UReturn s trap_status) => Some ((s, Some trap_status), mkXCtx (levels c) None (shared c))
  | _ => Some ((status, None), c)
  end.

Definition return_trap (trap_status : option Z) : X E unit :=
  saved_status <== status_now ;;
  saved_env_status <== asks env_last_status ;;
  match trap_status with Some s => set_status s ==;; set_env_status s | None => xret tt end ==;;
  run_return_trap ==;;
  set_status saved_status ==;; set_env_status saved_env_status.

(** The EXIT trap of a shell that a function leaves. *)
Definition exit_trap_of_call : X E unit :=
  now <== ask pending ;;
  match now with
  | Some (UExit _) => status <== run_exit_trap ;; match status with Some s => unwind (Some (UExit s)) | None => xret tt end
  | _ => xret tt
  end.

Definition body_of_call (body : Command) (redirects : list Redirect) (assignments : list (bytes * bytes)) (mode : ExecMode) : X E Z :=
  match mode with
  | Parent =>
      if is_nil redirects then apply_assignments assignments ==;; execute_function_body_command body Parent
      else
        r <== apply_redirects_to_parent redirects ;;
        match r with
        | inl _ => xret 1
        | inr g => apply_assignments assignments ==;; status <== execute_function_body_command body Parent ;; on_env (drop_guard g) ==;; xret status
        end
  | Child =>
      r <== apply_redirects_to_child redirects ;;
      match r with inl _ => xret 1 | inr _ => apply_assignments assignments ==;; execute_function_body_command body Child end
  end.

Definition push_call (id : Z) (l : Levels) : Levels := with_calls (function_call_stack l ++ [id]) l.
Definition pop_call (l : Levels) : Levels := with_calls (removelast (function_call_stack l)) l.
Definition push_prefixes (names : list bytes) (l : Levels) : Levels := with_prefixes (function_prefix_assignment_stack l ++ [names]) l.
Definition pop_prefixes (l : Levels) : Levels := with_prefixes (removelast (function_prefix_assignment_stack l)) l.
Definition push_scope (b : bool) (s : Shared E) : Shared E := with_scopes (debug_trap_scopes s ++ [b]) s.
Definition pop_scope (s : Shared E) : Shared E := with_scopes (removelast (debug_trap_scopes s)) s.

(** The body between the pushing and the popping of its scope. *)
Definition call_in_scope (name : bytes) (body : Command) (redirects : list Redirect) (assignments : list (bytes * bytes)) (mode : ExecMode) : X E Z :=
  xwhen (0 <? line_of body) (on_env (fun e => env_push_diagnostic_line e (line_of body))) ==;;
  debug_scope <== ask (fun c => env_option (x_env (shared c)) (bs "functrace") || bool_decide (name ∈ function_traced (shared c))) ;;
  on_shared (push_scope debug_scope) ==;;
  let traced := bool_decide (mode = Parent) && debug_scope in
  xwhen traced (xdrop run_debug_trap) ==;;
  status <== with_abort_line_boundary (body_of_call body redirects assignments mode) ;;
  done <== returned status ;;
  xwhen traced (return_trap done.2) ==;;
  xwhen (bool_decide (mode = Parent)) exit_trap_of_call ==;;
  on_shared pop_scope ==;;
  xwhen (0 <? line_of body) (on_env env_pop_diagnostic_line) ==;;
  on_env env_pop_local_scope ==;;
  xret done.1.

Definition call (name : bytes) (body : Command) (args : list bytes) (redirects : list Redirect) (assignments : list (bytes * bytes)) (mode : ExecMode) : X E Z :=
  too_deep <== ask (fun c => (0 <? funcnest_max (shared c)) && (funcnest_max (shared c) <=? function_depth (levels c))) ;;
  if too_deep : bool then xret 1
  else
    call_id <== ask (fun c => next_function_call_id (shared c)) ;;
    on_shared (fun s => with_call_records (u64 (call_id + 1)) (posix_special_assignment_persisted s) (explicit_function_exports s) s) ==;;
    around (push_call call_id) pop_call
      (saved_positionals <== with_env (fun e => env_push_positionals e args) ;;
       snapshots <== snapshot_prefixes assignments ;;
       on_shared (fun s =>
         let source := match function_sources s !! name with Some src => src | None => default (bs "main") (env_call_stack_source_name (x_env s)) end in
         with_x_env (env_push_local_scope (env_funcname_push (x_env s) name args source)) s) ==;;
       status <== around (add_function 1) (add_function (-1))
         (around (push_prefixes (map p_key snapshots)) pop_prefixes (call_in_scope name body redirects assignments mode)) ;;
       on_env env_funcname_pop ==;;
       restore_prefixes call_id snapshots ==;;
       on_shared (fun s => with_call_records (next_function_call_id s)
         (without_call call_id (posix_special_assignment_persisted s)) (without_call call_id (explicit_function_exports s)) s) ==;;
       on_env (fun e => env_pop_positionals e saved_positionals) ==;;
       xret status).

(** * One command *)

Definition redirection_error_exits_for_command (c : Command) : bool :=
  match command_data c with
  | CSimple words _ => match command_word words with Some w => special_builtin (s_text w) | None => false end
  | _ => false
  end.

(** The line an error of a redirection is reported at, in a subshell. *)
Definition redirection_error_report_line (data : CommandData) (e : E) : option Z :=
  if env_subshell_level e =? 0 then None
  else
    match data with
    | CFor _ _ _ _ | CWhile _ _ | CUntil _ _ | CArithFor _ _ _ _ => add_line 1 <$> env_diagnostic_line e
    | _ => None
    end.

Definition reuse_current_subshell_for_next_dispatch : X E unit :=
  on_shared (fun s => with_subshell_marks true (allow_child_external_exec s) s).

(** A subshell in a process that is one already; the marks on the context are for
    its children. *)
Definition execute_subshell (command : Command) : X E Z :=
  reuse <== ask (fun c => reuse_current_subshell (shared c)) ;;
  if reuse : bool then
    on_shared (fun s => with_subshell_marks false (allow_child_external_exec s) s) ==;;
    on_shared (fun s =>
      let off name := negb (env_option (x_env s) (bs name)) && negb (env_option (x_env s) (bs "extdebug")) in
      with_suppressed (off "errtrace"%string || suppress_err_traps s) (off "functrace"%string || suppress_debug_traps s) s) ==;;
    execute_command command Parent
  else forked_subshell run command.

Definition execute_arith (expression : bytes) : X E Z :=
  if is_nil (trim expression) then xret 1
  else
    let truth v := xret (if v =? 0 then 1 else 0) in
    traced <== option_set "xtrace" ;;
    if traced : bool then
      r <== arith_expand_with_text expression ;;
      match r with inr (text, v) => xtrace_line (bs "(( " ++ text ++ bs " ))") ==;; truth v | inl _ => xret 1 end
    else r <== arith_expand expression ;; match r with inr v => truth v | inl _ => xret 1 end.

Definition execute_cond (condition : CondCommand) : X E Z :=
  status <== cond_evaluate condition ;;
  nounset <== option_set "nounset" ;;
  if (status =? 2) && nounset then exits 1 else xret status.

Definition dispatch (c : Command) (mode : ExecMode) : X E Z :=
  match command_data c with
  | CSimple words redirects => simple_execute run words redirects (command_flags c) mode
  | CConnection first second connector => execute_connection first second connector mode
  | CSubshell command _ => execute_subshell command
  | CGroup command => with_abort_line_boundary (execute_command command Parent)
  | CFunctionDef name command line => define name command line
  | CIf test true_case false_case => with_abort_line_boundary (execute_if test true_case false_case Parent)
  | CWhile test action => with_abort_line_boundary (execute_while_or_until test action Parent false)
  | CUntil test action => with_abort_line_boundary (execute_while_or_until test action Parent true)
  | CFor name map_list action _ => with_abort_line_boundary (execute_for name map_list action Parent)
  | CCase word clauses _ => run_debug_trap_for_command mode ==;; with_abort_line_boundary (execute_case word clauses Parent)
  | CSelect name map_list action _ => run_debug_trap_for_command mode ==;; with_abort_line_boundary (execute_select name map_list action Parent)
  | CArith expression => run_debug_trap_for_command mode ==;; execute_arith (s_text expression)
  | CArithFor init test step action => run_debug_trap_for_command mode ==;; with_abort_line_boundary (execute_arith_for init test step action Parent)
  | CCond condition => run_debug_trap_for_command mode ==;; execute_cond condition
  | CCoproc name command => coproc_execute run name command
  end.

(** After a redirection of the command has failed in the parent. *)
Definition redirection_failed (c : Command) : X E Z :=
  xwhen (redirection_error_runs_err_trap (command_data c)) (xdrop run_err_trap) ==;;
  posix <== option_set "posix" ;;
  xwhen (posix && redirection_error_exits_for_command c) (unwind (Some (UExit 1))) ==;;
  set_status 1 ==;; xret 1.

Definition dispatch_redirected (c : Command) (mode : ExecMode) : X E Z :=
  match mode with
  | Parent =>
      if is_nil (command_redirects c) then dispatch c mode
      else
        adjusted <== asks (redirection_error_report_line (command_data c)) ;;
        match adjusted with Some line => on_env (fun e => env_push_diagnostic_line e line) | None => xret tt end ==;;
        r <== apply_redirects_to_parent (command_redirects c) ;;
        match adjusted with Some _ => on_env env_pop_diagnostic_line | None => xret tt end ==;;
        match r with
        | inr g => raw <== dispatch c mode ;; on_env (drop_guard g) ==;; xret raw
        | inl _ => redirection_failed c
        end
  | Child =>
      r <== apply_redirects_to_child (command_redirects c) ;;
      match r with inr _ => dispatch c mode | inl _ => set_status 1 ==;; xret 1 end
  end.

(** [!], unless the line is aborted. *)
Definition inverted (invert : bool) (raw : Z) (pending : option Unwind) : Z :=
  if invert && negb (match pending with Some (UAbortLine _) => true | _ => false end) then (if raw =? 0 then 1 else 0) else raw.

Definition maybe_run_err_trap (c : Command) (mode : ExecMode) (status : Z) : X E unit :=
  xif (fun x =>
         (status =? 0) || negb (bool_decide (mode = Parent)) || suppress_err_traps (shared x) || (0 <? errexit_suppressed (levels x))
         || negb (Z.land (command_flags c) (Z.lor CMD_IGNORE_RETURN CMD_INVERT_RETURN) =? 0) || negb (runs_err_trap (command_data c))
         || ((0 <? function_depth (levels x)) && negb (env_option (x_env (shared x)) (bs "errtrace")) && negb (env_option (x_env (shared x)) (bs "extdebug"))))
    (xret tt) (xdrop run_err_trap).

Definition maybe_errexit (c : Command) : X E unit := fun x =>
  if (0 <? errexit_suppressed (levels x)) || is_pending x || negb (env_option (x_env (shared x)) (bs "errexit"))
     || has (command_flags c) CMD_INVERT_RETURN || errexit_ignores (command_data c) || (last_status (shared x) =? 0)
  then Some (tt, x)
  else Some (tt, mkXCtx (levels x) (Some (UExit (last_status (shared x)))) (shared x)).

(** The bookkeeping around a command. *)
Definition enter_command (c : Command) : X E unit :=
  running <== asks env_running_trap ;;
  xwhen (bool_decide (running = None)) (on_env (fun e => env_set_current_command e (Some (command_label c)))) ==;;
  xwhen (0 <? line_of c) (on_env (fun e => env_push_diagnostic_line e (line_of c))).

Definition record_status (c : Command) (status : Z) : X E unit :=
  set_status status ==;; set_env_status status ==;;
  xwhen (negb (is_pipeline_command c)) (on_env (fun e => env_set_array e (bs "PIPESTATUS") [i64_to_string status])).

Definition when_counted (b : bool) (add : Z -> Levels -> Levels) (m : X E Z) : X E Z := if b then around (add 1) (add (-1)) m else m.

(** [execute_command_inner], nothing being pending. *)
Definition execute_entered (c : Command) (mode : ExecMode) (suppress_own_err_trap : bool) : X E Z :=
  let invert := has (command_flags c) CMD_INVERT_RETURN in
  enter_command c ==;;
  raw <== when_counted invert add_errexit (when_counted (command_redirects_stdin c) add_stdin (dispatch_redirected c mode)) ;;
  status <== ask (fun x => inverted invert raw (pending x)) ;;
  record_status c status ==;;
  xwhen (negb suppress_own_err_trap) (maybe_run_err_trap c mode status) ==;;
  run_pending_traps ==;;
  maybe_errexit c ==;;
  xwhen (0 <? line_of c) (on_env env_pop_diagnostic_line) ==;;
  xret status.

Definition command_step (c : Command) (mode : ExecMode) (suppress_own_err_trap : bool) : X E Z :=
  or_last
    match mode with
    | Parent => run_pending_traps ==;; or_last (execute_entered c mode suppress_own_err_trap)
    | Child => execute_entered c mode suppress_own_err_trap
    end.

(** [execute_child_command] *)
Definition execute_child_command (c : Command) : X E Z :=
  saved <== ask (fun x => allow_child_external_exec (shared x)) ;;
  on_shared (fun s => with_subshell_marks (reuse_current_subshell s) (child_command_can_exec_direct c) s) ==;;
  status <== execute_command c Child ;;
  on_shared (fun s => with_subshell_marks (reuse_current_subshell s) saved s) ==;;
  xret status.
End Exec.

Section Tied.
Context {E : Type} `{Environment E} `{Parameters E} `{ExecEnv E} `{WordLists E} `{Descriptors E} `{ExecParts E}.

(** Commands nest, and loops go round, at most [fuel] times. *)
Fixpoint execute_command_inner (fuel : nat) (c : Command) (mode : ExecMode) (suppress_own_err_trap : bool) : X E Z :=
  match fuel with
  | O => no_fuel
  | S fuel => command_step (execute_command_inner fuel) fuel c mode suppress_own_err_trap
  end.

(** The context of [ExecContext::new], with what [ExecState] keeps between commands. *)
Definition new_context (e : E) (funcs : gmap bytes Command) (sources : gmap bytes bytes) (traced : gset bytes) (no_err no_debug : bool)
    (function_depth source_depth : Z) : XCtx E :=
  let status := env_last_status e in
  let '(nest, e) := env_get e (bs "FUNCNEST") in
  let parse_u32 s := match parse_usize s with Some n => if Z.of_nat n <? 2 ^ 32 then Some (Z.of_nat n) else None | None => None end in
  mkXCtx (mkLevels 0 function_depth source_depth 0 0 0 None [] []) None
    (mkShared status funcs sources traced no_err no_debug 0 [] [] [] (default 0 (nest ≫= parse_u32)) false false e).

(** [execute_with_state]: the status, and whether the shell exits. *)
Definition execute_with_state (fuel : nat) (root : Command) (c : XCtx E) : option ((Z * bool) * XCtx E) :=
  match execute_command_inner fuel root Parent false c with
  | Some (status, c) =>
      let '(final, exit) := match pending c with Some (UExit n) => (n, true) | _ => (status, false) end in
      let s := shared c in
      Some ((final, exit), mkXCtx (levels c) None (with_x_env (env_set_last_status (x_env s) final) s))
  | None => None
  end.
End Tied.

(** * The counters are restored *)

Definition counter (n : Z) : Prop := 0 <= n < 2 ^ 32.

(** The counters are those of 32-bit words. *)
Definition counted (l : Levels) : Prop :=
  counter (loop_depth l) /\ counter (function_depth l) /\ counter (errexit_suppressed l) /\ counter (abort_line_depth l) /\ counter (stdin_redirect_depth l).

Section Keeps.
Context {E : Type}.

Definition keeps {A} (m : X E A) : Prop := forall x a x', counted (levels x) -> m x = Some (a, x') -> levels x' = levels x.

Lemma keeps_ret {A} (a : A) : keeps (xret a).
Proof. by intros x a' x' _ [= _ <-]. Qed.
Lemma keeps_no_fuel {A} : keeps (no_fuel : X E A).
Proof. done. Qed.
Lemma keeps_bind {A B} (m : X E A) (k : A -> X E B) : keeps m -> (forall a, keeps (k a)) -> keeps (xbind m k).
Proof.
  intros Hm Hk x b x' Hx. unfold xbind. destruct (m x) as [[a x1]|] eqn:Em; [|done]. intros Ek.
  pose proof (Hm _ _ _ Hx Em) as E1. rewrite <- E1. eapply Hk; [by rewrite E1|done].
Qed.
Lemma keeps_ask {A} (f : XCtx E -> A) : keeps (ask f).
Proof. by intros x a' x' _ [= _ <-]. Qed.
Lemma keeps_asks {A} (f : E -> A) : keeps (asks f).
Proof. by intros x a' x' _ [= _ <-]. Qed.
Lemma keeps_if {A} b (m k : X E A) : keeps m -> keeps k -> keeps (xif b m k).
Proof. intros Hm Hk x a x' Hx. unfold xif. destruct (b x); [by apply Hm|by apply Hk]. Qed.
Lemma keeps_on_shared (f : Shared E -> Shared E) : keeps (on_shared f).
Proof. by intros x a' x' _ [= _ <-]. Qed.
Lemma keeps_on_env (f : E -> E) : keeps (on_env f).
Proof. apply keeps_on_shared. Qed.
Lemma keeps_with_env {A} (f : E -> A * E) : keeps (with_env f).
Proof. intros x a' x' _. unfold with_env. destruct (f _). by intros [= _ <-]. Qed.
Lemma keeps_unwind u : keeps (unwind u : X E unit).
Proof. by intros x a' x' _ [= _ <-]. Qed.
Lemma keeps_when b (m : X E unit) : keeps m -> keeps (xwhen b m).
Proof. destruct b; [done|intros _; apply keeps_ret]. Qed.

(** A counter up and down again. *)
Lemma keeps_around {A} (up down : Levels -> Levels) (m : X E A) : (forall l, counted l -> counted (up l) /\ down (up l) = l) -> keeps m -> keeps (around up down m).
Proof.
  intros Hud Hm x a x' Hx. destruct (Hud _ Hx) as [Hup Hdown]. unfold around, xbind. cbn.
  destruct (m _) as [[a1 x1]|] eqn:Em; [|done]. intros [= <- <-]. cbn.
  apply Hm in Em; [|done]. by rewrite Em.
Qed.

Lemma keeps_at_trap_base {A} (m : X E A) : keeps m -> keeps (at_trap_base m).
Proof.
  intros Hm x a x' Hx. unfold at_trap_base, around, xbind, ask. cbn.
  destruct (m _) as [[a1 x1]|] eqn:Em; [|done]. intros [= <- <-]. cbn. apply Hm in Em; [|done]. rewrite Em. cbn. by destruct (levels x).
Qed.
End Keeps.

Lemma u32_up_down n : counter n -> u32 (u32 (n + 1) + -1) = n.
Proof. unfold counter, u32. intros Hn. rewrite Zplus_mod_idemp_l. replace (n + 1 + -1) with n by lia. by apply Z.mod_small. Qed.
Lemma u32_counter n : counter (u32 n).
Proof. unfold counter, u32. by apply Z.mod_pos_bound. Qed.

Ltac counters := intros l (? & ? & ? & ? & ?); split;
  [split_and!; try done; apply u32_counter|destruct l; cbn in *; unfold_counters; by rewrite u32_up_down]
with unfold_counters := unfold add_loop, add_function, add_errexit, add_abort, add_stdin in *; cbn.

Lemma loop_up_down : forall l, counted l -> counted (add_loop 1 l) /\ add_loop (-1) (add_loop 1 l) = l.
Proof. counters. Qed.
Lemma function_up_down : forall l, counted l -> counted (add_function 1 l) /\ add_function (-1) (add_function 1 l) = l.
Proof. counters. Qed.
Lemma errexit_up_down : forall l, counted l -> counted (add_errexit 1 l) /\ add_errexit (-1) (add_errexit 1 l) = l.
Proof. counters. Qed.
Lemma abort_up_down : forall l, counted l -> counted (add_abort 1 l) /\ add_abort (-1) (add_abort 1 l) = l.
Proof. counters. Qed.
Lemma stdin_up_down : forall l, counted l -> counted (add_stdin 1 l) /\ add_stdin (-1) (add_stdin 1 l) = l.
Proof. counters. Qed.

Lemma call_up_down id : forall l, counted l -> counted (push_call id l) /\ pop_call (push_call id l) = l.
Proof. intros l Hl. split; [done|]. unfold pop_call, push_call. destruct l. cbn. by rewrite removelast_last. Qed.
Lemma prefixes_up_down names : forall l, counted l -> counted (push_prefixes names l) /\ pop_prefixes (push_prefixes names l) = l.
Proof. intros l Hl. split; [done|]. unfold pop_prefixes, push_prefixes. destruct l. cbn. by rewrite removelast_last. Qed.

Lemma each_keeps {E A} (f : A -> X E unit) l : (forall a, keeps (f a)) -> keeps (xeach f l).
Proof. intros Hf. induction l as [|a l IH]; cbn [xeach]; [apply keeps_ret|]. by apply keeps_bind. Qed.
Lemma drop_keeps {E A} (m : X E A) : keeps m -> keeps (xdrop m).
Proof. intros Hm. apply keeps_bind; [done|]. intros _. apply keeps_ret. Qed.
Lemma times_keeps {E} n (m : X E unit) : keeps m -> keeps (xtimes n m).
Proof. intros Hm. by apply each_keeps. Qed.
Lemma or_last_keeps {E} (k : X E Z) : keeps k -> keeps (or_last k).
Proof. intros Hk. apply keeps_if; [apply keeps_ask|done]. Qed.

Create HintDb keeps.
#[export] Hint Resolve keeps_ret keeps_no_fuel keeps_ask keeps_asks keeps_on_shared keeps_on_env keeps_with_env keeps_unwind : keeps.

(** What is not modelled leaves the counters as they were, when the executor does. *)
Class PartsKeepLevels (E : Type) `{WordLists E} `{ExecParts E} := {
  simple_keeps run words redirects flags mode : (forall c m o, keeps (run c m o)) -> keeps (simple_execute run words redirects flags mode);
  pipeline_keeps run l stderr : (forall c m o, keeps (run c m o)) -> keeps (pipeline_execute run l stderr);
  background_keeps run c : (forall c m o, keeps (run c m o)) -> keeps (spawn_background run c);
  forked_keeps run c : (forall c m o, keeps (run c m o)) -> keeps (forked_subshell run c);
  coproc_keeps run name c : (forall c m o, keeps (run c m o)) -> keeps (coproc_execute run name c);
  cond_keeps c : keeps (cond_evaluate c);
  arith_keeps s : keeps (arith_expand s);
  arith_text_keeps s : keeps (arith_expand_with_text s);
  case_pattern_keeps w : keeps (case_pattern_expand w);
  xtrace_keeps s : keeps (xtrace_line s);
  words_keep words flags : keeps (expand_word_list words flags);
  heredoc_words_keep s : keeps (expand_heredoc_string s);
}.
#[export] Hint Resolve cond_keeps arith_keeps arith_text_keeps case_pattern_keeps xtrace_keeps words_keep heredoc_words_keep : keeps.

(** Through the structure of a step. *)
Ltac keep :=
  repeat (cbv beta zeta; first
  [ solve [eauto with keeps]
  | match goal with
    | |- keeps (xbind _ _) => apply keeps_bind; [|intros ?]
    | |- keeps (xif _ _ _) => apply keeps_if
    | |- keeps (xwhen _ _) => apply keeps_when
    | |- keeps (xdrop _) => apply drop_keeps
    | |- keeps (xeach _ _) => apply each_keeps; intros ?
    | |- keeps (xtimes _ _) => apply times_keeps
    | |- keeps (suppressing_errexit _) => apply keeps_around; [apply errexit_up_down|]
    | |- keeps (in_loop _) => apply keeps_around; [apply loop_up_down|]
    | |- keeps (with_abort_line_boundary _) => apply keeps_around; [apply abort_up_down|]
    | |- keeps (at_trap_base _) => apply keeps_at_trap_base
    | |- keeps (or_last _) => apply or_last_keeps
    | |- keeps (unless_pending _ _) => apply keeps_if
    | |- keeps (match ?a with _ => _ end) => destruct a
    end ]).

Section Restored.
Context {E : Type} `{Environment E} `{Parameters E} `{ExecEnv E} `{WordLists E} `{Descriptors E} `{ExecParts E} `{!PartsKeepLevels E}.

Lemma try_words_keeps words : keeps (try_expand_words words).
Proof. unfold try_expand_words. keep. Qed.
Lemma expand_words_keeps words : keeps (expand_words words).
Proof. unfold expand_words, try_expand_words. keep. Qed.
Lemma expand_one_keeps w : keeps (try_expand_one w).
Proof. unfold try_expand_one. keep. Qed.
#[local] Hint Resolve try_words_keeps expand_words_keeps expand_one_keeps : keeps.

Lemma redirect_word_keeps w glob : keeps (expand_redirect_word w glob).
Proof. unfold expand_redirect_word, efail, eret. keep. Qed.
#[local] Hint Resolve redirect_word_keeps : keeps.
Lemma ebind_keeps {A B} (m : @XE E A) (k : A -> @XE E B) : keeps m -> (forall a, keeps (k a)) -> keeps (ebind m k).
Proof. intros Hm Hk. unfold ebind. keep. Qed.

Lemma build_plan_keeps r : keeps (build_plan r).
Proof.
  unfold build_plan, duplicate_word_plan, move_word_plan, output_plan, redirectee_path, redirectee_path_with_glob, redirectee_word, redirectee_fd,
    restricted_output_check, prepare_heredoc_body, expand_herestring_word, expand_heredoc_body, efail, eret.
  repeat (keep; try (apply ebind_keeps; [|intros ?])).
Qed.

Lemma open_path_keeps path flags mode : keeps (open_path path flags mode).
Proof. unfold open_path, efail, eret. keep. Qed.
Lemma dup2_close_keeps s t : keeps (dup2_close s t).
Proof. unfold dup2_close, efail, eret. keep. Qed.
Lemma heredoc_fd_keeps body : keeps (heredoc_read_fd body).
Proof. unfold heredoc_read_fd, efail, eret. keep. Qed.
Lemma fd_from_var_keeps var : keeps (fd_from_var var).
Proof. unfold fd_from_var, efail, eret. keep. Qed.
Lemma assign_fd_var_keeps var fd : keeps (assign_fd_var var fd).
Proof. unfold assign_fd_var, efail, eret. keep. Qed.
#[local] Hint Resolve build_plan_keeps open_path_keeps dup2_close_keeps heredoc_fd_keeps fd_from_var_keeps assign_fd_var_keeps : keeps.

Lemma assign_high_keeps fd var g (after : X E unit) : keeps after -> keeps (assign_high fd var g after).
Proof. intros Ha. unfold assign_high. keep. Qed.
Lemma move_from_keeps s : keeps (move_from s).
Proof. unfold move_from, mark_coproc_fd_moved. keep. Qed.
#[local] Hint Resolve assign_high_keeps move_from_keeps : keeps.

Lemma execute_plan_keeps p g : keeps (execute_plan p g).
Proof. unfold execute_plan, install, gbind, gfinish, guarded, allocate_high_fd. repeat (keep; try apply assign_high_keeps). Qed.
#[local] Hint Resolve execute_plan_keeps : keeps.

Lemma apply_loop_keeps rs : forall g, keeps (apply_loop rs g).
Proof. induction rs as [|r rs IH]; intros g; cbn [apply_loop]; unfold eret; keep. Qed.
Lemma apply_redirects_keeps rs : keeps (apply_redirects_to_parent rs) /\ keeps (apply_redirects_to_child rs).
Proof. unfold apply_redirects_to_parent, apply_redirects_to_child, ebind, eret. split; keep; apply apply_loop_keeps. Qed.
#[local] Hint Resolve apply_redirects_keeps : keeps.
#[local] Hint Extern 1 (keeps (apply_redirects_to_parent _)) => apply apply_redirects_keeps : keeps.
#[local] Hint Extern 1 (keeps (apply_redirects_to_child _)) => apply apply_redirects_keeps : keeps.

Context (run : Command -> ExecMode -> bool -> X E Z) (rounds : nat) (Hrun : forall c m o, keeps (run c m o)).
#[local] Hint Resolve Hrun : keeps.
#[local] Hint Extern 1 (keeps (execute_command _ _ _)) => apply Hrun : keeps.
#[local] Hint Extern 1 (keeps (execute_function_body_command _ _ _)) => apply Hrun : keeps.

#[local] Hint Unfold option_set status_now set_status set_env_status : keeps.
#[local] Hint Extern 1 (keeps (option_set _)) => apply keeps_asks : keeps.
#[local] Hint Extern 1 (keeps status_now) => apply keeps_ask : keeps.
#[local] Hint Extern 1 (keeps (set_status _)) => apply keeps_on_shared : keeps.
#[local] Hint Extern 1 (keeps (set_env_status _)) => apply keeps_on_env : keeps.

Lemma exits_keeps s : keeps (exits s : X E Z).
Proof. unfold exits. keep. Qed.
Lemma trap_outcome_keeps saved s : keeps (trap_outcome saved s : X E (Z * bool)).
Proof. intros x a x' _. unfold trap_outcome. repeat case_match; by intros [= _ <-]. Qed.
#[local] Hint Resolve exits_keeps trap_outcome_keeps : keeps.

Lemma trap_body_keeps sig body offset : keeps (run_trap_body_with_line_offset run sig body offset).
Proof. unfold run_trap_body_with_line_offset. keep. Qed.
#[local] Hint Resolve trap_body_keeps : keeps.
#[local] Hint Extern 1 (keeps (run_trap_body _ _ _)) => apply trap_body_keeps : keeps.

Lemma with_trap_keeps kind (k : bytes -> X E (option Z)) : (forall body, keeps (k body)) -> keeps (with_trap kind k).
Proof. intros Hk. unfold with_trap. keep. Qed.

Lemma traps_keep : keeps (run_debug_trap run) /\ keeps (run_err_trap run) /\ keeps (run_return_trap run) /\ keeps (run_exit_trap run)
  /\ keeps (run_pending_traps run) /\ (forall mode, keeps (run_debug_trap_for_command run mode))
  /\ keeps (run_sigchld_trap_once run) /\ forall sig, keeps (run_signal_trap run sig).
Proof.
  unfold run_debug_trap_for_command, run_sigchld_trap_once, run_signal_trap, run_debug_trap, run_err_trap, run_return_trap, run_exit_trap, run_pending_traps, handle_signal.
  split_and!; lazymatch goal with |- keeps _ => idtac | _ => intros ? end; repeat (keep; try (apply with_trap_keeps; intros ?)).
Qed.
#[local] Hint Extern 1 (keeps (run_debug_trap _)) => apply traps_keep : keeps.
#[local] Hint Extern 1 (keeps (run_err_trap _)) => apply traps_keep : keeps.
#[local] Hint Extern 1 (keeps (run_return_trap _)) => apply traps_keep : keeps.
#[local] Hint Extern 1 (keeps (run_exit_trap _)) => apply traps_keep : keeps.
#[local] Hint Extern 1 (keeps (run_pending_traps _)) => apply traps_keep : keeps.
#[local] Hint Extern 1 (keeps (run_debug_trap_for_command _ _)) => apply traps_keep : keeps.

Lemma unwinds_keep : keeps (handle_loop_unwind : X E bool) /\ forall invert, keeps (handle_loop_condition_unwind invert : X E LoopConditionUnwind).
Proof.
  split; [|intros invert]; intros x a x' _; unfold handle_loop_unwind, handle_loop_condition_unwind; repeat case_match; by intros [= _ <-].
Qed.
#[local] Hint Extern 1 (keeps handle_loop_unwind) => apply unwinds_keep : keeps.
#[local] Hint Extern 1 (keeps (handle_loop_condition_unwind _)) => apply unwinds_keep : keeps.
#[local] Hint Extern 1 (keeps (spawn_background _ _)) => apply background_keeps; exact Hrun : keeps.
#[local] Hint Extern 1 (keeps (pipeline_execute _ _ _)) => apply pipeline_keeps; exact Hrun : keeps.
#[local] Hint Extern 1 (keeps (simple_execute _ _ _ _ _)) => apply simple_keeps; exact Hrun : keeps.
#[local] Hint Extern 1 (keeps (forked_subshell _ _)) => apply forked_keeps; exact Hrun : keeps.
#[local] Hint Extern 1 (keeps (coproc_execute _ _ _)) => apply coproc_keeps; exact Hrun : keeps.

Lemma async_keeps l (k : X E Z) : keeps k -> keeps (async_commands run l k).
Proof. intros Hk. induction l as [|c l IH]; cbn [async_commands]; keep. Qed.
#[local] Hint Resolve async_keeps : keeps.
Lemma amp_keeps : forall first second mode, keeps (amp_commands run first second mode).
Proof.
  fix IH 1. intros [data flags line redirects] second mode. cbn [amp_commands].
  destruct data as [| | | | |lf ls connector| | | | | | | | |].
  6: destruct (connector =? CONN_AMP); [keep|destruct (_ || _)].
  all: keep.
Qed.
#[local] Hint Resolve amp_keeps : keeps.

Lemma connection_keeps first second connector mode : keeps (execute_connection run first second connector mode).
Proof. unfold execute_connection, and_or, seq_commands, newline_commands, posix_special_redirection_failure. keep. Qed.
Lemma if_keeps test true_case false_case mode : keeps (execute_if run test true_case false_case mode).
Proof. unfold execute_if. keep. Qed.
Lemma while_keeps test action mode invert : keeps (execute_while_or_until run rounds test action mode invert).
Proof.
  unfold execute_while_or_until. keep. generalize 0. generalize rounds. intros n. induction n as [|n IH]; intros status; cbn [while_loop]; keep.
Qed.

Lemma assignment_failed_keeps err : keeps (loop_assignment_failed err : X E unit).
Proof. unfold loop_assignment_failed. keep. Qed.
Lemma invalid_name_keeps : keeps (invalid_loop_name : X E Z).
Proof. unfold invalid_loop_name. keep. Qed.
#[local] Hint Resolve assignment_failed_keeps invalid_name_keeps : keeps.
Lemma for_loop_keeps items name map_list action mode : forall status, keeps (for_loop run items name map_list action mode status).
Proof. induction items as [|item items IH]; intros status; cbn [for_loop]; unfold trace_for; keep. Qed.
#[local] Hint Resolve for_loop_keeps : keeps.
Lemma for_keeps name map_list action mode : keeps (execute_for run name map_list action mode).
Proof. unfold execute_for. keep. Qed.
Lemma select_keeps name map_list action mode : keeps (execute_select run rounds name map_list action mode).
Proof.
  unfold execute_select. keep; generalize 0; generalize rounds; intros n; induction n as [|n IH]; intros status; cbn [select_loop]; keep.
Qed.

Lemma arith_word_keeps word : keeps (eval_arith_word word : X E (option Z)).
Proof. unfold eval_arith_word. keep. Qed.
Lemma trace_word_keeps word : keeps (trace_arith_for_word word : X E unit).
Proof. unfold trace_arith_for_word. keep. Qed.
#[local] Hint Resolve arith_word_keeps trace_word_keeps : keeps.
Lemma arith_test_keeps test mode : keeps (arith_for_test run test mode).
Proof. unfold arith_for_test. keep. Qed.
#[local] Hint Resolve arith_test_keeps : keeps.
Lemma arith_for_keeps init test step action mode : keeps (execute_arith_for run rounds init test step action mode).
Proof.
  unfold execute_arith_for. keep; generalize 0; generalize rounds; intros n; induction n as [|n IH]; intros status; cbn [arith_for_loop]; keep.
Qed.

Lemma patterns_keep value opts patterns : keeps (pattern_list_matches patterns value opts : X E (Z + bool)).
Proof. induction patterns as [|p patterns IH]; cbn [pattern_list_matches]; keep. Qed.
#[local] Hint Resolve patterns_keep : keeps.
Lemma case_loop_keeps value mode clauses : forall matched status, keeps (case_loop run clauses value mode matched status).
Proof. induction clauses as [|[[patterns action] flags] clauses IH]; intros matched status; cbn [case_loop]; unfold run_clause; keep. Qed.
#[local] Hint Resolve case_loop_keeps : keeps.
Lemma case_keeps word clauses mode : keeps (execute_case run word clauses mode).
Proof. unfold execute_case. keep. Qed.

Lemma define_keeps name command line : keeps (define name command line : X E Z).
Proof. unfold define. keep. Qed.
Lemma cond_dispatch_keeps c : keeps (execute_cond c : X E Z).
Proof. unfold execute_cond. keep. Qed.
Lemma arith_dispatch_keeps e : keeps (execute_arith e : X E Z).
Proof. unfold execute_arith. keep. Qed.
Lemma subshell_keeps c : keeps (execute_subshell run c).
Proof. unfold execute_subshell. keep. Qed.
#[local] Hint Resolve connection_keeps if_keeps while_keeps for_keeps select_keeps arith_for_keeps case_keeps define_keeps cond_dispatch_keeps
  arith_dispatch_keeps subshell_keeps : keeps.

Lemma dispatch_keeps c mode : keeps (dispatch run rounds c mode).
Proof. unfold dispatch. destruct (command_data c); keep. Qed.
#[local] Hint Resolve dispatch_keeps : keeps.

Lemma dispatch_redirected_keeps c mode : keeps (dispatch_redirected run rounds c mode).
Proof. unfold dispatch_redirected, redirection_failed. keep. Qed.
#[local] Hint Resolve dispatch_redirected_keeps : keeps.

Lemma errexit_keeps c : keeps (maybe_errexit c : X E unit).
Proof. intros x a x' _. unfold maybe_errexit. case_match; by intros [= _ <-]. Qed.
#[local] Hint Resolve errexit_keeps : keeps.

Lemma entered_keeps c mode own : keeps (execute_entered run rounds c mode own).
Proof.
  unfold execute_entered, enter_command, record_status, maybe_run_err_trap, when_counted.
  repeat (keep; try (apply keeps_around; [first [apply errexit_up_down|apply stdin_up_down]|])).
Qed.
#[local] Hint Resolve entered_keeps : keeps.

Lemma step_keeps c mode own : keeps (command_step run rounds c mode own).
Proof. unfold command_step. keep. Qed.
End Restored.

Section Invariant.
Context {E : Type} `{Environment E} `{Parameters E} `{ExecEnv E} `{WordLists E} `{Descriptors E} `{ExecParts E} `{!PartsKeepLevels E}.

Lemma inner_keeps fuel : forall c mode own, keeps (execute_command_inner fuel c mode own).
Proof. induction fuel as [|fuel IH]; intros c mode own; [apply keeps_no_fuel|]. by apply step_keeps. Qed.

Lemma snapshots_keep assignments : keeps (snapshot_prefixes assignments : X E (list PrefixAssignmentSnapshot)).
Proof. induction assignments as [|[k v] rest IH]; cbn [snapshot_prefixes]; unfold snapshot_prefix; keep. Qed.
Lemma returned_keeps status : keeps (returned status : X E (Z * option Z)).
Proof. intros x a x' _. unfold returned. repeat case_match; by intros [= _ <-]. Qed.
Lemma apply_assignments_keeps l : keeps (apply_assignments l : X E unit).
Proof. apply each_keeps. intros [k v]. apply keeps_on_env. Qed.
Lemma restore_prefixes_keeps id l : keeps (restore_prefixes id l : X E unit).
Proof. unfold restore_prefixes. keep. Qed.
#[local] Hint Resolve snapshots_keep returned_keeps apply_assignments_keeps restore_prefixes_keeps : keeps.

Lemma call_keeps run name body args redirects assignments mode : (forall c m o, keeps (run c m o)) ->
  keeps (call run name body args redirects assignments mode).
Proof.
  intros Hrun. unfold call. repeat (keep; try (apply keeps_around; [first [apply call_up_down|apply function_up_down|apply prefixes_up_down]|])).
  unfold call_in_scope, body_of_call, return_trap, exit_trap_of_call, execute_function_body_command, set_status, set_env_status, status_now.
  pose proof (traps_keep run Hrun) as (? & ? & ? & ? & _). repeat (keep; try (first [apply apply_redirects_keeps|apply Hrun])).
Qed.
End Invariant.

(** * Completions

    A structured semantics: a command starts with the counters it is given, and ends
    with a status and a completion, [None] for a normal end.  Counters are handed down
    and never come back, completions are handed up.  The shells are calm: no signals,
    no ERR and no DEBUG trap. *)

Class CalmEnv (E : Type) `{ExecEnv E} := {
  calm : E -> Prop;
  calm_running e : calm e -> env_running_trap e = None;
  calm_signals e sig : calm e -> env_pending_signal_take e sig = (0, e);
  calm_err e : calm e -> env_trap_action e TrapErr = None;
  calm_debug e : calm e -> env_trap_action e TrapDebug = None;
  calm_current e c : calm e -> calm (env_set_current_command e c);
  calm_push e line : calm e -> calm (env_push_diagnostic_line e line);
  calm_status e status : calm e -> calm (env_set_last_status e status);
  calm_pipestatus e status : calm e -> calm (env_set_array e (bs "PIPESTATUS") status);
}.

Section Completions.
Context {E : Type} `{Environment E} `{Parameters E} `{ExecEnv E} `{WordLists E} `{Descriptors E} `{ExecParts E} `{!CalmEnv E}.

(** ** The bookkeeping of a command *)

Definition entered (c : Command) (s : Shared E) : Shared E :=
  let s := with_x_env (env_set_current_command (x_env s) (Some (command_label c))) s in
  if 0 <? line_of c then with_x_env (env_push_diagnostic_line (x_env s) (line_of c)) s else s.

Definition recorded (c : Command) (status : Z) (s : Shared E) : Shared E :=
  let s := with_last_status status s in
  let s := with_x_env (env_set_last_status (x_env s) status) s in
  if is_pipeline_command c then s else with_x_env (env_set_array (x_env s) (bs "PIPESTATUS") [i64_to_string status]) s.

Definition left_behind (c : Command) (s : Shared E) : Shared E := if 0 <? line_of c then with_x_env (env_pop_diagnostic_line (x_env s)) s else s.

Definition is_inverted (c : Command) : bool := has (command_flags c) CMD_INVERT_RETURN.

(** The counters inside a command. *)
Definition inner_levels (c : Command) (L : Levels) : Levels :=
  let L := if is_inverted c then add_errexit 1 L else L in
  if command_redirects_stdin c then add_stdin 1 L else L.

(** A failure ends a shell with errexit, outside of conditions. *)
Definition completion (L : Levels) (c : Command) (status : Z) (out : option Unwind) (s : Shared E) : option Unwind :=
  match out with
  | Some u => Some u
  | None =>
      if (errexit_suppressed L =? 0) && env_option (x_env s) (bs "errexit") && negb (is_inverted c) && negb (errexit_ignores (command_data c)) && negb (status =? 0)
      then Some (UExit status) else None
  end.

(** What a loop hands on of the completion of its body. *)
Definition passed (u : Unwind) : option Unwind :=
  match u with
  | UBreak n => if n =? 1 then None else Some (UBreak (u32 (n - 1)))
  | UContinue n => if n =? 1 then None else Some (UContinue (u32 (n - 1)))
  | _ => Some u
  end.
Definition again (out : option Unwind) : Prop := out = None \/ out = Some (UContinue 1).

Definition special_fails (c : Command) (status : Z) (s : Shared E) : bool :=
  negb (status =? 0) && env_option (x_env s) (bs "posix") && simple_special_has_redirects c.

(** The part of a computation below [execute_command_inner], with fuel enough. *)
Definition eventually {A} (m : nat -> X E A) (L : Levels) (s : Shared E) (a : A) (out : option Unwind) (s' : Shared E) : Prop :=
  exists n0, forall n, (n0 <= n)%nat -> m n (mkXCtx L None s) = Some (a, mkXCtx L out s').

(** The next value of the variable of a loop. *)
Definition assigned (L : Levels) (name : SourceWord) (words : list SourceWord) (item : bytes) (s s' : Shared E) : Prop :=
  calm (x_env s) /\ exists s1 e,
    trace_for name (Some words) (mkXCtx L None (with_x_env (env_set_current_command (x_env s) (Some (for_label name (Some words)))) s))
      = Some (tt, mkXCtx L None s1)
    /\ calm (x_env s1) /\ assign_for_value (s_text name) item (x_env s1) = (None, e) /\ s' = with_x_env e s1.

(** ** The rules *)

Inductive completes : Levels -> Command -> Shared E -> Z -> option Unwind -> Shared E -> Prop :=
| completes_command L c s raw out s1 : calm (x_env s) -> command_redirects c = [] ->
    runs (inner_levels c L) (command_flags c) (command_data c) (entered c s) raw out s1 ->
    calm (x_env s1) ->
    let status := inverted (is_inverted c) raw out in
    let s2 := recorded c status s1 in
    completes L c s status (completion L c status out s2) (left_behind c s2)
with runs : Levels -> Z -> CommandData -> Shared E -> Z -> option Unwind -> Shared E -> Prop :=
| runs_simple L flags words redirects s status out s' :
    eventually (fun n => simple_execute (execute_command_inner n) words redirects flags Parent) L s status out s' ->
    runs L flags (CSimple words redirects) s status out s'
| runs_group L flags c s status out s' : completes (add_abort 1 L) c s status out s' -> runs L flags (CGroup c) s status out s'
| runs_if_unwinds L flags test yes no s status u s' : completes (add_errexit 1 (add_abort 1 L)) test s status (Some u) s' ->
    runs L flags (CIf test yes no) s status (Some u) s'
| runs_if_true L flags test yes no s s1 status out s' : completes (add_errexit 1 (add_abort 1 L)) test s 0 None s1 ->
    completes (add_abort 1 L) yes s1 status out s' -> runs L flags (CIf test yes no) s status out s'
| runs_if_false L flags test yes no s st s1 status out s' : completes (add_errexit 1 (add_abort 1 L)) test s st None s1 -> st <> 0 ->
    completes (add_abort 1 L) no s1 status out s' -> runs L flags (CIf test yes (Some no)) s status out s'
| runs_if_else L flags test yes s st s1 : completes (add_errexit 1 (add_abort 1 L)) test s st None s1 -> st <> 0 ->
    runs L flags (CIf test yes None) s 0 None s1
| runs_while L flags test action s status out s' : loops (add_loop 1 (add_abort 1 L)) false test action 0 s status out s' ->
    runs L flags (CWhile test action) s status out s'
| runs_until L flags test action s status out s' : loops (add_loop 1 (add_abort 1 L)) true test action 0 s status out s' ->
    runs L flags (CUntil test action) s status out s'
| runs_for L flags name words action line s items s1 status out s' : BuiltinArgs.is_valid_name (s_text name) = true ->
    try_expand_words words (mkXCtx (add_loop 1 (add_abort 1 L)) None s) = Some (inr items, mkXCtx (add_loop 1 (add_abort 1 L)) None s1) ->
    goes_through (add_loop 1 (add_abort 1 L)) name words action items 0 s1 status out s' ->
    runs L flags (CFor name (Some words) action line) s status out s'
| runs_and L flags a b s s1 status out s' : completes (add_errexit 1 L) a s 0 None s1 -> completes L b s1 status out s' ->
    runs L flags (CConnection a b CONN_AND_AND) s status out s'
| runs_and_stops L flags a b s status out s' : completes (add_errexit 1 L) a s status out s' -> special_fails a status s' = false ->
    status <> 0 \/ is_Some out -> runs L flags (CConnection a b CONN_AND_AND) s status out s'
| runs_or L flags a b s st s1 status out s' : completes (add_errexit 1 L) a s st None s1 -> st <> 0 -> special_fails a st s1 = false ->
    completes L b s1 status out s' -> runs L flags (CConnection a b CONN_OR_OR) s status out s'
| runs_or_stops L flags a b s status out s' : completes (add_errexit 1 L) a s status out s' -> special_fails a status s' = false ->
    status = 0 \/ is_Some out -> runs L flags (CConnection a b CONN_OR_OR) s status out s'
| runs_list L flags a b connector s st s1 status out s' : connector = CONN_SEMI \/ connector = CONN_NEWLINE ->
    completes L a s st None s1 -> completes L b s1 status out s' -> runs L flags (CConnection a b connector) s status out s'
| runs_list_unwinds L flags a b s st u s1 : completes L a s st (Some u) s1 -> runs L flags (CConnection a b CONN_SEMI) s (last_status s1) (Some u) s1
| runs_line_unwinds L flags a b s st u s1 : completes L a s st (Some u) s1 -> (forall n, u = UAbortLine n -> abort_line_depth L <> 0) ->
    runs L flags (CConnection a b CONN_NEWLINE) s (last_status s1) (Some u) s1
| runs_line_aborted L flags a b s st n s1 status out s' : completes L a s st (Some (UAbortLine n)) s1 -> abort_line_depth L = 0 ->
    completes L b (let s := with_last_status n s1 in with_x_env (env_set_last_status (x_env s) n) s) status out s' ->
    runs L flags (CConnection a b CONN_NEWLINE) s status out s'
with loops : Levels -> bool -> Command -> Command -> Z -> Shared E -> Z -> option Unwind -> Shared E -> Prop :=
| loops_over L invert test action status s st s' : completes (add_errexit 1 L) test s st None s' -> (st = 0 <-> invert = true) ->
    loops L invert test action status s status None s'
| loops_test_unwinds L invert test action status s st u s' : completes (add_errexit 1 L) test s st (Some u) s' -> u <> UContinue 1 ->
    loops L invert test action status s status (passed u) s'
| loops_test_continues L test action status s st s1 status' out s' : completes (add_errexit 1 L) test s st (Some (UContinue 1)) s1 ->
    loops L false test action status s1 status' out s' -> loops L false test action status s status' out s'
| loops_until_continues L test action status s s' : completes (add_errexit 1 L) test s 0 (Some (UContinue 1)) s' ->
    loops L true test action status s status None s'
| loops_body_unwinds L invert test action status s st s1 status' u s' : completes (add_errexit 1 L) test s st None s1 -> (st = 0 <-> invert = false) ->
    completes L action s1 status' (Some u) s' -> u <> UContinue 1 -> loops L invert test action status s status' (passed u) s'
| loops_again L invert test action status s st s1 st' out1 s2 status' out s' : completes (add_errexit 1 L) test s st None s1 -> (st = 0 <-> invert = false) ->
    completes L action s1 st' out1 s2 -> again out1 -> loops L invert test action st' s2 status' out s' -> loops L invert test action status s status' out s'
with goes_through : Levels -> SourceWord -> list SourceWord -> Command -> list bytes -> Z -> Shared E -> Z -> option Unwind -> Shared E -> Prop :=
| goes_through_end L name words action status s : goes_through L name words action [] status s status None s
| goes_through_unwinds L name words action item items status s s1 status' u s' : assigned L name words item s s1 ->
    completes L action s1 status' (Some u) s' -> u <> UContinue 1 -> goes_through L name words action (item :: items) status s status' (passed u) s'
| goes_through_again L name words action item items status s s1 st out1 s2 status' out s' : assigned L name words item s s1 ->
    completes L action s1 st out1 s2 -> again out1 -> goes_through L name words action items st s2 status' out s' ->
    goes_through L name words action (item :: items) status s status' out s'.

(** The first rule, its results given. *)
Lemma completes_by L c s raw out s1 status out' s' : calm (x_env s) -> command_redirects c = [] ->
  runs (inner_levels c L) (command_flags c) (command_data c) (entered c s) raw out s1 -> calm (x_env s1) ->
  status = inverted (is_inverted c) raw out -> out' = completion L c status out (recorded c status s1) -> s' = left_behind c (recorded c status s1) ->
  completes L c s status out' s'.
Proof. intros ? ? ? ? -> -> ->. by eapply completes_command. Qed.

Scheme completes_mut := Minimality for completes Sort Prop
with runs_mut := Minimality for runs Sort Prop
with loops_mut := Minimality for loops Sort Prop
with goes_through_mut := Minimality for goes_through Sort Prop.

(** ** The executor follows them *)

Lemma bind_run {A B} (m : X E A) (k : A -> X E B) x a x1 : m x = Some (a, x1) -> xbind m k x = k a x1.
Proof. intros Hm. unfold xbind. by rewrite Hm. Qed.

Lemma around_run {A} (up down : Levels -> Levels) (m : X E A) L p s a out s' : down (up L) = L ->
  m (mkXCtx (up L) p s) = Some (a, mkXCtx (up L) out s') -> around up down m (mkXCtx L p s) = Some (a, mkXCtx L out s').
Proof. intros Hd Hm. unfold around, xbind. cbn. rewrite Hm. cbn. by rewrite Hd. Qed.

Lemma with_x_env_same (s : Shared E) : with_x_env (x_env s) s = s.
Proof. by destruct s. Qed.

Section Calm.
Context (run : Command -> ExecMode -> bool -> X E Z).

Lemma each_same {A} (f : A -> X E unit) l x : (forall a, f a x = Some (tt, x)) -> xeach f l x = Some (tt, x).
Proof. intros Hf. induction l as [|a l IH]; [done|]. cbn [xeach]. by rewrite (bind_run _ _ _ _ _ (Hf a)). Qed.

Lemma pending_traps_calm x : calm (x_env (shared x)) -> run_pending_traps run x = Some (tt, x).
Proof.
  intros Hc. unfold run_pending_traps, asks, xbind at 1. rewrite (calm_running _ Hc). apply each_same. intros sig.
  unfold with_env, xbind at 1. rewrite (calm_signals _ sig Hc), with_x_env_same. by destruct x.
Qed.

Lemma err_trap_calm x : calm (x_env (shared x)) -> run_err_trap run x = Some (None, x).
Proof. intros Hc. unfold run_err_trap, with_trap, asks, xbind. by rewrite (calm_running _ Hc), (calm_err _ Hc). Qed.

Lemma debug_trap_calm mode x : calm (x_env (shared x)) -> run_debug_trap_for_command run mode x = Some (None, x).
Proof.
  intros Hc. unfold run_debug_trap_for_command, ask, xbind at 1. destruct (debug_trap_in_scope mode x); [|done].
  unfold run_debug_trap, with_trap, asks, xbind. rewrite (calm_running _ Hc), bool_decide_false by done. by rewrite (calm_debug _ Hc).
Qed.
End Calm.

Lemma entered_run c (s : Shared E) L p : calm (x_env s) -> enter_command c (mkXCtx L p s) = Some (tt, mkXCtx L p (entered c s)).
Proof. intros Hc. unfold enter_command, entered, asks, xbind. cbn. rewrite (calm_running _ Hc). cbn. by destruct (0 <? line_of c). Qed.

Lemma recorded_run c status (s : Shared E) L p : record_status c status (mkXCtx L p s) = Some (tt, mkXCtx L p (recorded c status s)).
Proof. unfold record_status, recorded, xbind. cbn. by destruct (is_pipeline_command c). Qed.

Lemma recorded_calm c status (s : Shared E) : calm (x_env s) -> calm (x_env (recorded c status s)).
Proof. intros Hc. unfold recorded. destruct (is_pipeline_command c); cbn; [by apply calm_status|]. by apply calm_pipestatus, calm_status. Qed.

Lemma errexit_run c status out (s : Shared E) L : counted L ->
  maybe_errexit c (mkXCtx L out (recorded c status s)) = Some (tt, mkXCtx L (completion L c status out (recorded c status s)) (recorded c status s)).
Proof.
  intros (_ & _ & Hl & _). assert ((0 <? errexit_suppressed L) = negb (errexit_suppressed L =? 0)) as El.
  { unfold counter in Hl. destruct (Z.eqb_spec (errexit_suppressed L) 0) as [->|]; [done|]. cbn. apply Z.ltb_lt. lia. }
  assert (last_status (recorded c status s) = status) as Es by (unfold recorded; by destruct (is_pipeline_command c)).
  unfold maybe_errexit, completion, is_pending, is_inverted. cbn [levels pending shared]. rewrite El, Es.
  destruct out as [u|]; cbn; [by rewrite orb_true_r|].
  destruct (errexit_suppressed L =? 0), (env_option _ _), (has _ _), (errexit_ignores _), (status =? 0); reflexivity.
Qed.

(** What the rules say of the executor. *)
Definition does (L : Levels) (c : Command) (s : Shared E) (status : Z) (out : option Unwind) (s' : Shared E) : Prop :=
  counted L -> exists n0, forall n own, (n0 <= n)%nat -> execute_command_inner n c Parent own (mkXCtx L None s) = Some (status, mkXCtx L out s').
Definition dispatches (L : Levels) (flags : Z) (data : CommandData) (s : Shared E) (status : Z) (out : option Unwind) (s' : Shared E) : Prop :=
  counted L -> exists n0, forall n line, (n0 <= n)%nat ->
    dispatch (execute_command_inner n) n (mkCommand data flags line []) Parent (mkXCtx L None s) = Some (status, mkXCtx L out s').
Definition loop_does (L : Levels) (invert : bool) (test action : Command) (status : Z) (s : Shared E) (status' : Z) (out : option Unwind) (s' : Shared E) : Prop :=
  counted L -> exists n0, forall n m, (n0 <= n)%nat -> (n0 <= m)%nat ->
    while_loop (execute_command_inner n) m test action Parent invert status (mkXCtx L None s) = Some (status', mkXCtx L out s').
Definition for_does (L : Levels) (name : SourceWord) (words : list SourceWord) (action : Command) (items : list bytes) (status : Z) (s : Shared E)
    (status' : Z) (out : option Unwind) (s' : Shared E) : Prop :=
  counted L -> exists n0, forall n, (n0 <= n)%nat ->
    for_loop (execute_command_inner n) items name (Some words) action Parent status (mkXCtx L None s) = Some (status', mkXCtx L out s').

Lemma when_counted_run (b : bool) (add : Z -> Levels -> Levels) (m : X E Z) L p s a out s' : (forall l, counted l -> add (-1) (add 1 l) = l) -> counted L ->
  m (mkXCtx (if b then add 1 L else L) p s) = Some (a, mkXCtx (if b then add 1 L else L) out s') ->
  when_counted b add m (mkXCtx L p s) = Some (a, mkXCtx L out s').
Proof. intros Hadd HL Hm. destruct b; [|done]. by apply around_run; [apply Hadd|]. Qed.

Lemma counted_inner c L : counted L -> counted (inner_levels c L).
Proof.
  intros HL. unfold inner_levels. destruct (is_inverted c), (command_redirects_stdin c); repeat first [done|apply stdin_up_down|apply errexit_up_down].
Qed.

Lemma does_command L c s raw out s1 : calm (x_env s) -> command_redirects c = [] ->
  dispatches (inner_levels c L) (command_flags c) (command_data c) (entered c s) raw out s1 -> calm (x_env s1) ->
  let status := inverted (is_inverted c) raw out in
  let s2 := recorded c status s1 in
  does L c s status (completion L c status out s2) (left_behind c s2).
Proof.
  intros Hc Hr Hd Hc1 status s2 HL. destruct (Hd (counted_inner _ _ HL)) as [n0 Hn]. exists (S n0). intros [|n] own Hle; [lia|].
  cbn [execute_command_inner]. unfold command_step, or_last, xif. cbn [is_pending pending].
  rewrite (bind_run _ _ _ _ _ (pending_traps_calm _ (mkXCtx L None s) Hc)). cbn [is_pending pending].
  unfold execute_entered. rewrite (bind_run _ _ _ _ _ (entered_run c s L None Hc)).
  erewrite bind_run; [|apply (when_counted_run _ add_errexit); [apply errexit_up_down|exact HL|];
    apply (when_counted_run _ add_stdin); [apply stdin_up_down|destruct (has _ _); [by apply errexit_up_down|exact HL]|];
    destruct c as [data flags line rs]; cbn in Hr; subst rs; exact (Hn n line ltac:(lia))].
  unfold ask at 1. erewrite bind_run; [|reflexivity]. cbn [pending]. change (inverted (has (command_flags c) CMD_INVERT_RETURN) raw out) with status.
  rewrite (bind_run _ _ _ _ _ (recorded_run c status s1 L out)). fold s2.
  assert (calm (x_env s2)) as Hc2 by by apply recorded_calm.
  assert (xwhen (negb own) (maybe_run_err_trap (execute_command_inner n) c Parent status) (mkXCtx L out s2) = Some (tt, mkXCtx L out s2)) as Ho.
  { destruct own; [done|]. cbn. unfold maybe_run_err_trap, xif. case_match; [done|]. unfold xdrop.
    by rewrite (bind_run _ _ _ _ _ (err_trap_calm _ (mkXCtx L out s2) Hc2)). }
  rewrite (bind_run _ _ _ _ _ Ho).
  rewrite (bind_run _ _ _ _ _ (pending_traps_calm _ (mkXCtx L out s2) Hc2)).
  unfold s2 at 1. rewrite (bind_run _ _ _ _ _ (errexit_run c status out s1 L HL)). fold s2.
  unfold left_behind. by destruct (0 <? line_of c).
Qed.

Ltac stepping H := rewrite (bind_run _ _ _ _ _ H).

(** A condition, with errexit suppressed. *)
Lemma condition_run L c s st out s' n0 n : counted L ->
  (forall n own, (n0 <= n)%nat -> execute_command_inner n c Parent own (mkXCtx (add_errexit 1 L) None s) = Some (st, mkXCtx (add_errexit 1 L) out s')) ->
  (n0 <= n)%nat -> suppressing_errexit (execute_command (execute_command_inner n) c Parent) (mkXCtx L None s) = Some (st, mkXCtx L out s').
Proof. intros HL Hn Hle. apply around_run; [by apply errexit_up_down|]. by apply Hn. Qed.

Lemma dispatches_group L flags c s status out s' : does (add_abort 1 L) c s status out s' -> dispatches L flags (CGroup c) s status out s'.
Proof.
  intros Hd HL. destruct (Hd (proj1 (abort_up_down _ HL))) as [n0 Hn]. exists n0. intros n line Hle.
  apply around_run; [by apply abort_up_down|]. by apply Hn.
Qed.

(** [if], below its abort boundary. *)
Lemma dispatches_if L flags test yes no s st out1 s1 status out s' : does (add_errexit 1 (add_abort 1 L)) test s st out1 s1 ->
  (match out1 with
   | Some u => status = st /\ out = Some u /\ s' = s1
   | None => if st =? 0 then does (add_abort 1 L) yes s1 status out s'
             else match no with Some no => does (add_abort 1 L) no s1 status out s' | None => status = 0 /\ out = None /\ s' = s1 end
   end) -> dispatches L flags (CIf test yes no) s status out s'.
Proof.
  intros Ht Hb HL. destruct (abort_up_down _ HL) as [HA HB]. destruct (Ht (proj1 (errexit_up_down _ HA))) as [n1 Hn1].
  assert (exists n2, forall n, (n2 <= n)%nat -> unless_pending st
    (if st =? 0 then execute_command (execute_command_inner n) yes Parent
     else match no with Some c => execute_command (execute_command_inner n) c Parent | None => xret 0 end)
    (mkXCtx (add_abort 1 L) out1 s1) = Some (status, mkXCtx (add_abort 1 L) out s')) as [n2 Hn2].
  { destruct out1 as [u|]; [by destruct Hb as (-> & -> & ->); exists 0%nat|]. unfold unless_pending, xif. cbn [is_pending pending].
    destruct (st =? 0); [|destruct no as [no|]; [|by destruct Hb as (-> & -> & ->); exists 0%nat]].
    all: destruct (Hb HA) as [n2 Hn2]; exists n2; intros n Hle; by apply Hn2. }
  exists (n1 `max` n2)%nat. intros n line Hle. apply around_run; [done|]. unfold execute_if.
  assert (n1 <= n)%nat as Hle1 by lia. stepping (condition_run _ _ _ _ _ _ _ _ HA Hn1 Hle1). apply Hn2. lia.
Qed.

(** [&&] and [||]. *)
Lemma dispatches_and_or wanted L flags a b connector s st out1 s1 status out s' : (connector = CONN_AND_AND /\ wanted = (fun s => s =? 0) \/ connector = CONN_OR_OR /\ wanted = (fun s => negb (s =? 0))) ->
  does (add_errexit 1 L) a s st out1 s1 -> special_fails a st s1 = false ->
  (if bool_decide (out1 = None) && wanted st then does L b s1 status out s' else status = st /\ out = out1 /\ s' = s1) ->
  dispatches L flags (CConnection a b connector) s status out s'.
Proof.
  intros Hk Ha Hf Hb HL. destruct (Ha (proj1 (errexit_up_down _ HL))) as [n1 Hn1].
  assert (exists n2, forall n, (n2 <= n)%nat -> unless_pending st (if wanted st then execute_command (execute_command_inner n) b Parent else xret st)
    (mkXCtx L out1 s1) = Some (status, mkXCtx L out s')) as [n2 Hn2].
  { unfold unless_pending, xif, is_pending. cbn [pending]. destruct out1 as [u|].
    - rewrite bool_decide_false in Hb by done. destruct Hb as (-> & -> & ->). by exists 0%nat.
    - rewrite bool_decide_true in Hb by done. cbn [andb] in Hb. rewrite bool_decide_false by (by intros [? ?]). destruct (wanted st).
      + destruct (Hb HL) as [n2 Hn2]. exists n2. intros n Hle. by apply Hn2.
      + destruct Hb as (-> & -> & ->). by exists 0%nat. }
  exists (n1 `max` n2)%nat. intros n line Hle.
  assert (dispatch (execute_command_inner n) n (mkCommand (CConnection a b connector) flags line []) Parent = and_or (execute_command_inner n) wanted a b Parent) as ->.
  { by destruct Hk as [[-> ->]|[-> ->]]. }
  unfold and_or. assert (n1 <= n)%nat as Hle1 by lia. stepping (condition_run _ _ _ _ _ _ _ _ HL Hn1 Hle1).
  unfold posix_special_redirection_failure, option_set, asks, xbind, xret. cbn [shared]. unfold special_fails in Hf. rewrite Hf. apply Hn2. lia.
Qed.

(** The second command of a list, unless something is pending. *)
Lemma or_last_run L b s1 status out1 out s' : counted L ->
  match out1 with Some u => status = last_status s1 /\ out = Some u /\ s' = s1 | None => does L b s1 status out s' end ->
  exists n0, forall n, (n0 <= n)%nat -> or_last (execute_command (execute_command_inner n) b Parent) (mkXCtx L out1 s1) = Some (status, mkXCtx L out s').
Proof.
  intros HL Hb. destruct out1 as [u|].
  - destruct Hb as (-> & -> & ->). by exists 0%nat.
  - destruct (Hb HL) as [n0 Hn]. exists n0. intros n Hle. by apply Hn.
Qed.

Lemma dispatches_semi L flags a b s st out1 s1 status out s' : does L a s st out1 s1 ->
  match out1 with Some u => status = last_status s1 /\ out = Some u /\ s' = s1 | None => does L b s1 status out s' end ->
  dispatches L flags (CConnection a b CONN_SEMI) s status out s'.
Proof.
  intros Ha Hb HL. destruct (Ha HL) as [n1 Hn1]. destruct (or_last_run _ _ _ _ _ _ _ HL Hb) as [n2 Hn2].
  exists (n1 `max` n2)%nat. intros n line Hle.
  change (seq_commands (execute_command_inner n) a b Parent (mkXCtx L None s) = Some (status, mkXCtx L out s')).
  unfold seq_commands, execute_command at 1. stepping (Hn1 n false ltac:(lia)). apply Hn2. lia.
Qed.

Lemma dispatches_newline L flags a b s st out1 s1 status out s' : does L a s st out1 s1 ->
  (forall n, out1 = Some (UAbortLine n) -> abort_line_depth L <> 0) ->
  match out1 with Some u => status = last_status s1 /\ out = Some u /\ s' = s1 | None => does L b s1 status out s' end ->
  dispatches L flags (CConnection a b CONN_NEWLINE) s status out s'.
Proof.
  intros Ha Hab Hb HL. destruct (Ha HL) as [n1 Hn1]. destruct (or_last_run _ _ _ _ _ _ _ HL Hb) as [n2 Hn2].
  exists (n1 `max` n2)%nat. intros n line Hle.
  change (newline_commands (execute_command_inner n) a b Parent (mkXCtx L None s) = Some (status, mkXCtx L out s')).
  unfold newline_commands, execute_command at 1. stepping (Hn1 n false ltac:(lia)). unfold ask, xbind. cbn [pending levels].
  assert (match out1 with Some (UAbortLine n) => if abort_line_depth L =? 0 then Some n else None | _ => None end = None) as ->.
  { destruct out1 as [[| | |k|]|]; try done. specialize (Hab k eq_refl). by destruct (Z.eqb_spec (abort_line_depth L) 0). }
  apply Hn2. lia.
Qed.

Lemma dispatches_aborted_line L flags a b s st k s1 status out s' : does L a s st (Some (UAbortLine k)) s1 -> abort_line_depth L = 0 ->
  does L b (let s := with_last_status k s1 in with_x_env (env_set_last_status (x_env s) k) s) status out s' ->
  dispatches L flags (CConnection a b CONN_NEWLINE) s status out s'.
Proof.
  intros Ha Hab Hb HL. destruct (Ha HL) as [n1 Hn1]. destruct (Hb HL) as [n2 Hn2].
  exists (n1 `max` n2)%nat. intros n line Hle.
  change (newline_commands (execute_command_inner n) a b Parent (mkXCtx L None s) = Some (status, mkXCtx L out s')).
  unfold newline_commands, execute_command at 1. stepping (Hn1 n false ltac:(lia)). unfold ask, xbind at 1. cbn [pending levels].
  rewrite Hab. cbn [Z.eqb]. apply (Hn2 n false). lia.
Qed.

(** ** Loops *)

Lemma while_step L invert test action status s st out1 s1 n m n1 : counted L ->
  (forall n own, (n1 <= n)%nat -> execute_command_inner n test Parent own (mkXCtx (add_errexit 1 L) None s) = Some (st, mkXCtx (add_errexit 1 L) out1 s1)) ->
  (n1 <= n)%nat ->
  while_loop (execute_command_inner n) (S m) test action Parent invert status (mkXCtx L None s) =
  (verdict <== handle_loop_condition_unwind invert ;;
   match verdict with
   | Break => xret status
   | Continue => while_loop (execute_command_inner n) m test action Parent invert status
   | Proceed =>
       if Bool.eqb (st =? 0) invert then xret status
       else
         status <== execute_command (execute_command_inner n) action Parent ;;
         over <== handle_loop_unwind ;;
         if over : bool then xret status else while_loop (execute_command_inner n) m test action Parent invert status
   end) (mkXCtx L out1 s1).
Proof. intros HL Hn Hle. cbn [while_loop]. by stepping (condition_run _ _ _ _ _ _ _ _ HL Hn Hle). Qed.

(** The completion of a body that ends its loop, and one that does not. *)
Lemma unwind_over L u (s : Shared E) : u <> UContinue 1 -> handle_loop_unwind (mkXCtx L (Some u) s) = Some (true, mkXCtx L (passed u) s).
Proof. intros Hu. destruct u as [|n|n| |]; try done. unfold handle_loop_unwind, passed. cbn [pending]. by destruct (Z.eqb_spec n 1) as [->|]. Qed.
Lemma unwind_again L out (s : Shared E) : again out -> handle_loop_unwind (mkXCtx L out s) = Some (false, mkXCtx L None s).
Proof. by intros [-> | ->]. Qed.
Lemma condition_over L invert u (s : Shared E) : u <> UContinue 1 ->
  handle_loop_condition_unwind invert (mkXCtx L (Some u) s) = Some (Break, mkXCtx L (passed u) s).
Proof. intros Hu. destruct u as [|n|n| |]; try done. unfold handle_loop_condition_unwind, passed. cbn [pending]. by destruct (Z.eqb_spec n 1) as [->|]. Qed.

Lemma test_over st invert : (st = 0 <-> invert = true) -> Bool.eqb (st =? 0) invert = true.
Proof. destruct (Z.eqb_spec st 0), invert; naive_solver. Qed.
Lemma test_goes_on st invert : (st = 0 <-> invert = false) -> Bool.eqb (st =? 0) invert = false.
Proof. destruct (Z.eqb_spec st 0), invert; naive_solver. Qed.

Lemma loop_over L invert test action status s st out1 s' : does (add_errexit 1 L) test s st out1 s' ->
  (out1 = None /\ (st = 0 <-> invert = true) \/ out1 = Some (UContinue 1) /\ invert = true /\ st = 0) ->
  loop_does L invert test action status s status None s'.
Proof.
  intros Ht Hc HL. destruct (Ht (proj1 (errexit_up_down _ HL))) as [n1 Hn1]. exists (S n1). intros n [|m] Hn Hm; [lia|].
  rewrite (while_step _ _ _ _ _ _ _ _ _ _ _ _ HL Hn1) by lia.
  destruct Hc as [[-> Hst]|(-> & -> & ->)]; [|done]. unfold xbind. cbn. by rewrite test_over.
Qed.

Lemma loop_test_unwinds L invert test action status s st u s' : does (add_errexit 1 L) test s st (Some u) s' -> u <> UContinue 1 ->
  loop_does L invert test action status s status (passed u) s'.
Proof.
  intros Ht Hu HL. destruct (Ht (proj1 (errexit_up_down _ HL))) as [n1 Hn1]. exists (S n1). intros n [|m] Hn Hm; [lia|].
  rewrite (while_step _ _ _ _ _ _ _ _ _ _ _ _ HL Hn1) by lia. by stepping (condition_over L invert u s' Hu).
Qed.

Lemma loop_test_continues L test action status s st s1 status' out s' : does (add_errexit 1 L) test s st (Some (UContinue 1)) s1 ->
  loop_does L false test action status s1 status' out s' -> loop_does L false test action status s status' out s'.
Proof.
  intros Ht Hl HL. destruct (Ht (proj1 (errexit_up_down _ HL))) as [n1 Hn1]. destruct (Hl HL) as [n2 Hn2].
  exists (S (n1 `max` n2)). intros n [|m] Hn Hm; [lia|].
  rewrite (while_step _ _ _ _ _ _ _ _ _ _ _ _ HL Hn1) by lia. apply Hn2; lia.
Qed.

Lemma loop_body L invert test action status s st s1 st' out1 s2 status' out s' : does (add_errexit 1 L) test s st None s1 -> (st = 0 <-> invert = false) ->
  does L action s1 st' out1 s2 ->
  (again out1 /\ loop_does L invert test action st' s2 status' out s'
   \/ exists u, out1 = Some u /\ u <> UContinue 1 /\ status' = st' /\ out = passed u /\ s' = s2) ->
  loop_does L invert test action status s status' out s'.
Proof.
  intros Ht Hst Ha Hb HL. destruct (Ht (proj1 (errexit_up_down _ HL))) as [n1 Hn1]. destruct (Ha HL) as [n2 Hn2].
  assert (exists n3, forall n m, (n3 <= n)%nat -> (n3 <= m)%nat -> (over <== handle_loop_unwind ;;
    if over : bool then xret st' else while_loop (execute_command_inner n) m test action Parent invert st') (mkXCtx L out1 s2)
    = Some (status', mkXCtx L out s')) as [n3 Hn3].
  { destruct Hb as [[Hag Hl]|(u & -> & Hu & -> & -> & ->)].
    - destruct (Hl HL) as [n3 Hn3]. exists n3. intros n m Hn Hm. stepping (unwind_again L out1 s2 Hag). by apply Hn3.
    - exists 0%nat. intros n m _ _. by stepping (unwind_over L u s2 Hu). }
  exists (S (n1 `max` n2 `max` n3)). intros n [|m] Hn Hm; [lia|].
  rewrite (while_step _ _ _ _ _ _ _ _ _ _ _ _ HL Hn1) by lia. unfold xbind at 1. cbn [handle_loop_condition_unwind pending].
  rewrite test_goes_on by done. unfold execute_command. stepping (Hn2 n false ltac:(lia)). apply Hn3; lia.
Qed.

Lemma dispatches_loop L flags (invert : bool) test action s status out s' : loop_does (add_loop 1 (add_abort 1 L)) invert test action 0 s status out s' ->
  dispatches L flags (if invert then CUntil test action else CWhile test action) s status out s'.
Proof.
  intros Hl HL. destruct (abort_up_down _ HL) as [HA HB]. destruct (Hl (proj1 (loop_up_down _ HA))) as [n0 Hn]. exists n0. intros n line Hle.
  assert (dispatch (execute_command_inner n) n (mkCommand (if invert then CUntil test action else CWhile test action) flags line []) Parent
    = with_abort_line_boundary (execute_while_or_until (execute_command_inner n) n test action Parent invert)) as -> by by destruct invert.
  apply around_run; [done|]. apply around_run; [by apply loop_up_down|]. by apply Hn.
Qed.

Lemma for_end L name words action status s : for_does L name words action [] status s status None s.
Proof. intros HL. by exists 0%nat. Qed.

Lemma for_body L name words action item items status s s1 st out1 s2 status' out s' : assigned L name words item s s1 -> does L action s1 st out1 s2 ->
  (again out1 /\ for_does L name words action items st s2 status' out s'
   \/ exists u, out1 = Some u /\ u <> UContinue 1 /\ status' = st /\ out = passed u /\ s' = s2) ->
  for_does L name words action (item :: items) status s status' out s'.
Proof.
  intros (Hc & t & e & Ht & Hct & He & ->) Ha Hb HL. destruct (Ha HL) as [n1 Hn1].
  assert (exists n2, forall n, (n2 <= n)%nat -> (over <== handle_loop_unwind ;;
    if over : bool then xret st else for_loop (execute_command_inner n) items name (Some words) action Parent st) (mkXCtx L out1 s2)
    = Some (status', mkXCtx L out s')) as [n2 Hn2].
  { destruct Hb as [[Hag Hl]|(u & -> & Hu & -> & -> & ->)].
    - destruct (Hl HL) as [n2 Hn2]. exists n2. intros n Hn. stepping (unwind_again L out1 s2 Hag). by apply Hn2.
    - exists 0%nat. intros n _. by stepping (unwind_over L u s2 Hu). }
  exists (n1 `max` n2)%nat. intros n Hle. cbn [for_loop].
  unfold asks at 1, xbind at 1. cbn [shared]. rewrite (calm_running _ Hc), bool_decide_true by done.
  cbn [xwhen]. unfold xbind at 1, on_env, on_shared. cbn [levels pending shared].
  stepping (debug_trap_calm (execute_command_inner n) Parent (mkXCtx L None (with_x_env (env_set_current_command (x_env s) (Some (for_label name (Some words)))) s)) (calm_current _ _ Hc)).
  unfold option_set, asks at 1, xbind at 1. cbn [shared]. rewrite bool_decide_false by done. cbn [andb].
  stepping Ht. unfold with_env at 1, xbind at 1. cbn [shared levels pending]. rewrite He.
  unfold execute_command. stepping (Hn1 n false ltac:(lia)). apply Hn2. lia.
Qed.

Lemma dispatches_for L flags name words action line s items s1 status out s' : BuiltinArgs.is_valid_name (s_text name) = true ->
  try_expand_words words (mkXCtx (add_loop 1 (add_abort 1 L)) None s) = Some (inr items, mkXCtx (add_loop 1 (add_abort 1 L)) None s1) ->
  for_does (add_loop 1 (add_abort 1 L)) name words action items 0 s1 status out s' ->
  dispatches L flags (CFor name (Some words) action line) s status out s'.
Proof.
  intros Hn Hw Hf HL. destruct (abort_up_down _ HL) as [HA HB]. destruct (Hf (proj1 (loop_up_down _ HA))) as [n0 Hn0]. exists n0. intros n line' Hle.
  apply around_run; [done|]. unfold execute_for. rewrite Hn. cbn [negb]. apply around_run; [by apply loop_up_down|].
  stepping Hw. by apply Hn0.
Qed.

Lemma dispatches_simple L flags words redirects s status out s' :
  eventually (fun n => simple_execute (execute_command_inner n) words redirects flags Parent) L s status out s' ->
  dispatches L flags (CSimple words redirects) s status out s'.
Proof. intros [n0 Hn] _. exists n0. intros n line Hle. by apply Hn. Qed.

Lemma does_completes L c s status out s' : completes L c s status out s' -> does L c s status out s'.
Proof.
  revert L c s status out s'. apply (completes_mut does dispatches loop_does for_does).
  - intros. by apply does_command.
  - intros. by apply dispatches_simple.
  - intros. by apply dispatches_group.
  - intros. by eapply (dispatches_if _ _ _ _ _ _ _ (Some _)).
  - intros. by eapply (dispatches_if _ _ _ _ _ _ 0 None).
  - intros L flags test yes no s st s1 status out s' _ Ht Hst _ Hb. apply Z.eqb_neq in Hst. eapply (dispatches_if _ _ _ _ _ _ st None); [done|by rewrite Hst].
  - intros L flags test yes s st s1 _ Ht Hst. apply Z.eqb_neq in Hst. eapply (dispatches_if _ _ _ _ _ _ st None); [done|by rewrite Hst].
  - intros L flags test action s status out s' _ Hl. by apply (dispatches_loop L flags false).
  - intros L flags test action s status out s' _ Hl. by apply (dispatches_loop L flags true).
  - intros. by eapply dispatches_for.
  - intros. eapply (dispatches_and_or (fun s => s =? 0) _ _ _ _ _ _ 0 None); [by left|done| |done]. by unfold special_fails.
  - intros L flags a b s status out s' _ Ha Hf Hs. eapply (dispatches_and_or (fun s => s =? 0)); [by left|done|done|].
    destruct out as [u|]; [by rewrite bool_decide_false|]. destruct Hs as [Hs|[? ?]]; [|done]. apply Z.eqb_neq in Hs. by rewrite Hs.
  - intros L flags a b s st s1 status out s' _ Ha Hst Hf _ Hb. eapply (dispatches_and_or (fun s => negb (s =? 0))); [by right|done|done|].
    apply Z.eqb_neq in Hst. by rewrite Hst.
  - intros L flags a b s status out s' _ Ha Hf Hs. eapply (dispatches_and_or (fun s => negb (s =? 0))); [by right|done|done|].
    destruct out as [u|]; [by rewrite bool_decide_false|]. destruct Hs as [->|[? ?]]; done.
  - intros L flags a b connector s st s1 status out s' [-> | ->] _ Ha _ Hb; [by eapply dispatches_semi|by eapply dispatches_newline].
  - intros. by eapply (dispatches_semi _ _ _ _ _ _ (Some _)).
  - intros L flags a b s st u s1 _ Ha Hu. eapply (dispatches_newline _ _ _ _ _ _ (Some u)); [done| |done]. intros n [= ->]. by eapply Hu.
  - intros. by eapply dispatches_aborted_line.
  - intros. eapply loop_over; [done|]. by left.
  - intros. by eapply loop_test_unwinds.
  - intros. by eapply loop_test_continues.
  - intros. eapply loop_over; [done|]. by right.
  - intros. eapply loop_body; [done|done|done|]. right. eauto 10.
  - intros. eapply loop_body; [done|done|done|]. by left.
  - intros. apply for_end.
  - intros. eapply for_body; [done|done|]. right. eauto 10.
  - intros. eapply for_body; [done|done|]. by left.
Qed.
End Completions.

(** * Theorems *)

Section Theorems.
Context {E : Type} `{Environment E} `{Parameters E} `{ExecEnv E} `{WordLists E} `{Descriptors E} `{ExecParts E}.

(** C17: Every command that ends leaves the counters of the executor as it found them: the
    depths of loops, functions, suppressed errexit, abort boundaries and redirected input, the
    base of a trap and the stacks of calls, whatever path it takes through unwinding, errors,
    traps and failed redirections, and so does every call of a function that ends. The counters
    are within 32 bits at the start. The parts of the executor that are parameters here (simple
    commands, pipelines, background commands, forked subshells, coprocesses, the expansion of
    words, arithmetic and conditions) are assumed to keep the counters, those that run commands
    as far as running a command keeps them. *)
Theorem counters_restored `{!PartsKeepLevels E} fuel (x : XCtx E) (Hx : counted (levels x)) :
  (forall c mode own status x', execute_command_inner fuel c mode own x = Some (status, x') -> levels x' = levels x)
  /\ (forall name body args redirects assignments mode status x',
       call (execute_command_inner fuel) name body args redirects assignments mode x = Some (status, x') -> levels x' = levels x).
Proof.
  split; intros; [by eapply inner_keeps|]. eapply call_keeps; [|done..]. intros. apply inner_keeps.
Qed.

(** C3: The executor implements a structured semantics of completions: where the rules let a
    command complete, the executor, started as the parent shell with nothing pending, ends with
    the same status, pending completion and state and with its counters unchanged, for every
    fuel from some number on; and the rules give a command one result. The rules hand counters
    down and completions (break, continue, return, exit, aborted lines, errexit) up, for groups,
    [if], [while], [until], [for .. in], [&&], [||] and lists, [!] and errexit; a simple command
    completes as the simple-command executor, which is a parameter here, makes it. The statement
    is for calm shells (no pending signal, no ERR or DEBUG trap, before and after each command),
    counters within 32 bits and compound commands without redirections; the rules do not cover
    [case], [select], [((]..[))], [\[\[]..[\]\]], subshells, background commands, pipelines and
    functions. *)
Theorem executor_follows_the_rules `{!CalmEnv E} L (c : Command) (s : Shared E) status out s' : counted L -> completes L c s status out s' ->
  (exists n0, forall n, (n0 <= n)%nat -> execute_command_inner n c Parent false (mkXCtx L None s) = Some (status, mkXCtx L out s'))
  /\ forall status2 out2 s2, completes L c s status2 out2 s2 -> (status2, out2, s2) = (status, out, s').
Proof.
  intros HL Hc. destruct (does_completes _ _ _ _ _ _ Hc HL) as [n0 Hn]. split; [exists n0; auto|].
  intros status2 out2 s2 Hc2. destruct (does_completes _ _ _ _ _ _ Hc2 HL) as [n2 Hn2].
  specialize (Hn (n0 `max` n2)%nat false ltac:(lia)). specialize (Hn2 (n0 `max` n2)%nat false ltac:(lia)). congruence.
Qed.
End Theorems.

(** * A shell to evaluate commands in

    [true], [false] and [break] are its commands; subshells and pipelines run in a copy. *)

Definition desk_simple (words : list bytes) : X Desk Z :=
  match words with
  | [] => xret 0
  | name :: args =>
      if bytes_eqb name (bs "true") then xret 0
      else if bytes_eqb name (bs "false") then xret 1
      else if bytes_eqb name (bs "break") then
        depth <== ask (fun x => loop_depth (levels x)) ;;
        if depth =? 0 then xret 0 else unwind (Some (UBreak (Z.min (default 1 (head args ≫= parse_i32)) depth))) ==;; xret 0
      else xret 127
  end.

Definition in_copy {A} (m : X Desk A) : X Desk A := fun x => match m x with Some (a, _) => Some (a, x) | None => None end.

Lemma copy_keeps {A} (m : X Desk A) : keeps (in_copy m).
Proof. intros x a x' _. unfold in_copy. destruct (m x) as [[b x1]|]; by intros [= _ <-]. Qed.

#[export] Instance desk_parts : ExecParts Desk := {
  simple_execute run words redirects flags mode := desk_simple (map s_text words);
  pipeline_execute run l stderr := in_copy (match last l with Some c => run c Child false | None => xret 0 end);
  spawn_background run c := xret 0;
  forked_subshell run c := in_copy (run c Parent false);
  coproc_execute run name c := xret 0;
  cond_evaluate c := xret 1;
  arith_expand s := xret (inr 0);
  arith_expand_with_text s := xret (inr (s, 0));
  case_pattern_expand w := xret (inr (s_text w));
  xtrace_line s := xret tt;
  read_select_line e := (None, e);
  special_builtin name := bytes_eqb name (bs "break");
}.

#[export] Instance desk_parts_keep : PartsKeepLevels Desk.
Proof.
  split; intros; try apply keeps_ret.
  - cbn. unfold desk_simple. destruct (map s_text words) as [|name args]; keep.
  - apply copy_keeps.
  - apply copy_keeps.
Qed.

#[export] Instance desk_calm : CalmEnv Desk.
Proof. by refine {| calm _ := True |}. Defined.

Definition word (text : bytes) : SourceWord := mkSource text 0 0 0 None.
Definition simple (words : list bytes) : Command := bare (CSimple (map word words) []).
Definition while_true_break : Command := bare (CWhile (simple [bs "true"]) (simple [bs "break"])).

Definition desk_shared (status : Z) (options : list bytes) : Shared Desk :=
  mkShared status ∅ ∅ ∅ false false 0 [] [] [] 0 false false (mkDesk ∅ 100 options).
Definition no_levels : Levels := mkLevels 0 0 0 0 0 0 None [] [].

Definition run_desk (c : Command) (options : list bytes) : option (Z * option Unwind) :=
  match execute_command_inner 20 c Parent false (mkXCtx no_levels None (desk_shared 0 options)) with
  | Some (status, x) => Some (status, pending x)
  | None => None
  end.

Definition list_of (a b : Command) : Command := connect a b CONN_SEMI.
Definition true_command : Command := simple [bs "true"].
Definition false_command : Command := simple [bs "false"].

Ltac by_rule raw out s := apply (completes_by _ _ _ raw out s); [exact I|reflexivity| |exact I|reflexivity|reflexivity|reflexivity].
Ltac by_desk raw out s := by_rule raw out s; apply runs_simple; exists 0%nat; intros; reflexivity.

(** [while true; do break; done] *)
Lemma desk_loop_completes : completes no_levels while_true_break (desk_shared 0 []) 0 None (desk_shared 0 []).
Proof.
  by_rule 0 (@None Unwind) (desk_shared 0 []). apply runs_while.
  apply (loops_body_unwinds _ _ _ _ _ _ 0 (desk_shared 0 []) 0 (UBreak 1) (desk_shared 0 [])); [|done| |done].
  - by_desk 0 (@None Unwind) (desk_shared 0 []).
  - by_desk 0 (Some (UBreak 1)) (desk_shared 0 []).
Qed.

Lemma executor_follows_the_rules_witness :
  (exists n0, forall n, (n0 <= n)%nat -> execute_command_inner n while_true_break Parent false (mkXCtx no_levels None (desk_shared 0 []))
     = Some (0, mkXCtx no_levels None (desk_shared 0 [])))
  /\ forall status2 out2 s2, completes no_levels while_true_break (desk_shared 0 []) status2 out2 s2 -> (status2, out2, s2) = (0, None, desk_shared 0 []).
Proof.
  apply (executor_follows_the_rules no_levels while_true_break (desk_shared 0 []) 0 None (desk_shared 0 [])).
  - repeat split; vm_compute; intros [=].
  - exact desk_loop_completes.
Defined.

Lemma counters_restored_witness :
  (forall c mode own status x', execute_command_inner 20 c mode own (mkXCtx no_levels None (desk_shared 0 [])) = Some (status, x') -> levels x' = no_levels)
  /\ (forall name body args redirects assignments mode status x',
       call (execute_command_inner 20) name body args redirects assignments mode (mkXCtx no_levels None (desk_shared 0 [])) = Some (status, x') -> levels x' = no_levels).
Proof.
  apply (counters_restored 20 (mkXCtx no_levels None (desk_shared 0 []))). repeat split; vm_compute; intros [=].
Defined.

Definition errexit_on : list bytes := [bs "errexit"].

(** Under errexit [false && true; true] goes on, as the failure is that of a condition, and
    so does [if true; then false && true; fi; true]; but [{ false && true; }; true] and
    [for x in 1; do false && true; done; true] end the shell. *)
Lemma errexit_after_group :
  let failing := connect false_command true_command CONN_AND_AND in
  run_desk (list_of failing true_command) errexit_on = Some (0, None)
  /\ run_desk (list_of (bare (CIf true_command failing None)) true_command) errexit_on = Some (0, None)
  /\ run_desk (list_of (bare (CGroup failing)) true_command) errexit_on = Some (1, Some (UExit 1))
  /\ run_desk (list_of (bare (CFor (word (bs "x")) (Some [word (bs "1")]) failing 0)) true_command) errexit_on = Some (1, Some (UExit 1)).
Proof. vm_compute. split_and!; reflexivity. Qed.

(** A function called in a loop is in that loop: its [break] ends the loop of the caller. *)
Lemma break_leaves_the_function :
  let caller := mkXCtx (add_loop 1 no_levels) None (desk_shared 0 []) in
  ((fun r => (r.1, pending r.2)) <$> call (execute_command_inner 20) (bs "f") (simple [bs "break"]) [] [] [] Parent caller) = Some (0, Some (UBreak 1)).
Proof. vm_compute. reflexivity. Qed.

(** A [break] of no levels, which [break 4294967296] is, is one of all the others. *)
Lemma break_of_no_levels (x : XCtx Desk) : handle_loop_unwind (mkXCtx (levels x) (Some (UBreak 0)) (shared x))
  = Some (true, mkXCtx (levels x) (Some (UBreak (2 ^ 32 - 1))) (shared x)).
Proof. reflexivity. Qed.
